(* ===== verification/_CoqProject ===== *)
-Q . S2P
Prelude.v
Sorting.v
Tables.v
Lagrange.v
Errors.v
Primitives.v
SamplePrimitives.v
Names.v
Shamir.v
ShamirTheory.v
FastCdc.v
Crypto.v
Schema.v
Kit.v
KitTheory.v
Paths.v
Chunker.v
Engine.v
EngineTheory.v
Vouchers.v
VouchersTheory.v
Invites.v
OperatorCore.v
Admission.v
AdmissionTheory.v
AdmissionJoin.v
OperatorAuth.v
OperatorAuthTheory.v
OperatorRevocation.v
RecoveryLog.v
RecoveryLogTheory.v
ObjectStore.v
ObjectStoreTheory.v
Pool.v
Approval.v
Anchor.v
OperatorRelay.v
OperatorHandlers.v
SampleOperator.v
OperatorAccess.v
OperatorTenants.v
OperatorRelayTheory.v
OperatorSession.v
RateLimit.v
Redact.v
Trust.v
Maintenance.v
Policy.v
AuditChain.v
Swarm.v
SwarmTheory.v
AuditChainTheory.v
PolicyTheory.v
Grants.v
GrantsTheory.v
Migration.v
MigrationTheory.v
MigrationHistory.v
Secrets.v
SecretsTheory.v
RotationTheory.v
SecretsAccess.v
SecretsTypes.v
KeyLifecycle.v
SecretsExamples.v
AccountDb.v
Totp.v
Accounts.v
AccountFactors.v
Memberships.v
WebAuthn.v
AccountService.v
SessionProvenance.v
FactorPolicy.v
Dpop.v
AccountExamples.v
RestoreFs.v
Restore.v
RestoreTheory.v
RestoreAtomic.v
