(* ===== verification/Prelude.v ===== *)
(** * CipherVault: a verification development

    CipherVault keeps encrypted, content-addressed snapshots of a vault on a swarm
    of storage operators, and scoped secrets in an account service.  This
    development models the parts that carry its guarantees and proves them.
    Definitions keep the names of the Rust items; sources are given relative to
    src/.

    ** Parts and files

    - Foundations: [Prelude] (results with [?], machine integers, text, bytes),
      [Sorting] (stable sorting), [Tables] (programs over database tables and the
      logics for them), [Errors] (the error enums and their messages:
      crates/*/src/error.rs), [Primitives] (interfaces of the cryptographic
      libraries and of serializers, each a class of operations and a class of
      laws), [SamplePrimitives] (small executable instances, used by the examples
      and to show that the laws can hold; they are not the real algorithms).
    - Secret sharing (crates/crypto/src/shamir.rs): [Lagrange], [Shamir],
      [ShamirTheory].
    - Encryption, key derivation, envelopes, sealed boxes and passphrase backups
      (the other files of crates/crypto/src): [Crypto].
    - Records (crates/format/src): [Schema] (schema.rs, canonical.rs, and hsm.rs of
      the crypto crate), [Names] (scope.rs: identifiers, names, scoped records).
    - Snapshots (crates/snapshot/src): [FastCdc] (fastcdc.rs), [Paths] (path
      validation of engine.rs), [Chunker] (chunker.rs), [Engine] and
      [EngineTheory] (capture and decryption of engine.rs), [RestoreFs], [Restore],
      [RestoreTheory] and [RestoreAtomic] (the crash-safe publication of
      restore.rs over the calls of crates/file-lock).
    - Storage clients (crates/storage/src): [Vouchers], [VouchersTheory]
      (vouchers.rs), [Invites] (invites.rs), [Anchor] (chain.rs), [Pool]
      (client.rs, pool.rs and the identities of types.rs: replication to a quorum,
      fetches and discovery over transports that answer arbitrarily).
    - Log redaction (crates/redact/src/lib.rs): [Redact].
    - Recovery (crates/recovery/src): [Trust] (trust.rs), [Approval] (approval.rs),
      [Kit] and [KitTheory] (kit.rs: kits, guardian shares and their sheets).
    - Operator (services/operator/src): [OperatorCore] (limits, documents on disk),
      [Admission], [AdmissionTheory], [AdmissionJoin] (membership of the fleet),
      [OperatorAuth], [OperatorAuthTheory], [OperatorRevocation] (identities,
      challenges, sessions), [RecoveryLog], [RecoveryLogTheory] (append-only logs),
      [ObjectStore], [ObjectStoreTheory] (objects, leases, the voucher gate),
      [OperatorRelay], [OperatorRelayTheory] (checkpoints and approvals), all of
      state.rs; [OperatorHandlers] (handlers.rs: one request type and the handler
      of each), [SampleOperator] (an instance), [OperatorAccess], [OperatorTenants]
      and [OperatorSession] (theorems about requests), [RateLimit] (lib.rs);
      [Swarm], [SwarmTheory] (swarm: liveness.rs, repair.rs and the control handler
      of mod.rs).
    - Maintenance service (services/maintenance/src): [Maintenance] (engine.rs,
      scheduler.rs, db.rs, and one vault in a round of main.rs).
    - Account service, authorization and administration (services/account/src):
      [Policy], [PolicyTheory] (policy.rs, scope_tokens.rs, guards.rs, mfa.rs),
      [AuditChain], [AuditChainTheory] (audit_chain.rs and the writer of
      secrets.rs), [Grants], [GrantsTheory] (grants.rs and the membership handlers
      of secret_routes.rs), [Migration], [MigrationTheory], [MigrationHistory]
      (migration_ledger.rs), [Dpop] (dpop.rs).
    - Account service, secrets: [Secrets] (secrets.rs, rotation.rs),
      [SecretsTheory], [RotationTheory], [SecretsAccess], [SecretsTypes],
      [SecretsExamples], [KeyLifecycle] (key_lifecycle.rs).
    - Account service, accounts: [AccountDb] (the tables of state.rs, util.rs,
      guards.rs, http.rs, abuse.rs), [Accounts] (accounts.rs, sessions.rs,
      devices.rs, recovery.rs, vaults.rs), [Totp] and [AccountFactors] (totp.rs,
      mfa.rs), [Memberships] (memberships.rs), [WebAuthn] (webauthn.rs,
      webauthn_crypto.rs), [AccountService] (the routes, and the service that runs
      requests at once), [SessionProvenance], [FactorPolicy], [AccountExamples].

    The parts meet as in the program: [Engine] calls [Chunker], [Crypto], [Schema]
    and [Paths]; [Restore] publishes what [Engine] decrypts; the records of
    [Schema] are signed through [Crypto], stored by [RecoveryLog] and judged by
    [Trust]; [Kit] splits with [Shamir] and opens envelopes with [Crypto];
    [OperatorHandlers] composes the stores of the operator, which spend [Vouchers],
    admit by [Invites] and confirm checkpoints through [Anchor]; [Maintenance] works
    through the clients of [Pool] on what [Trust] selects; [AuditChain]
    stores reasons scrubbed by [Redact]; [Secrets], [Grants] and [Migration]
    authorize through [Policy] and write to [AuditChain].

    ** How code becomes definitions

    A pure function is a function.  Fallible code returns [result] over the
    crate's error enum, with every branch and message.  A [uN] is a [Z] and each
    operation writes out its wrap-around or saturation; a string is the list of
    its scalar values.  A mutable object is a record passed through the
    operations.  Randomness, clocks and the answers of the operating system are
    arguments.  Libraries that are not part of the repository (ciphers, hashes,
    signatures, CBOR, JSON, base64) are classes; a theorem names the laws it uses,
    and where a conclusion depends on there being no hash collision, a collision is an
    explicit alternative: of two values that the theorem names, where it assumes
    laws of the hash.

    A database is a record of tables.  A service call is a program over it
    ([Tables.Tx]); an oracle of the call says which of its statements fail, what a
    transaction wrote is undone when it fails, and what ran outside of one stays.
    A handler of the account service is a sequence of sections, each run while the
    connection is locked ([AccountDb.Handler]); [AccountService.serve] interleaves
    the sections of any number of requests.  The operator holds its locks for
    whole operations, so that each is one step; documents on its disk are written
    with three outcomes (old, new, new but reported as failed), and a restart reads
    them back.

    The restore journal runs in a monad of numbered file-system calls
    ([RestoreFs.M]).  An environment decides the fate of each: it works, it fails
    (a write or a directory removal may be half done; a failed existence check answers
    "absent", as [Path::exists] does), or the process dies.  A
    death leaves the state reached so far; reordering of unflushed writes by a
    machine that loses power is not modelled.

    Loops of the source that are not structural take fuel, and the fuel given is
    enough: the chunking loop gets one unit per byte ([FastCdc.fastcdc_partition]
    shows that it suffices), the ancestry traversal one per edge and node of the
    graph ([Trust.select_head_sound]), the scrubber one per byte, each round of a
    text function removes a character and gets one unit per character, and the
    inner loop of the base32 encoder emits at most two symbols per byte
    ([Totp.push_symbols]).

    ** What the theorems show

    - Snapshots: what is captured is what is decrypted and published
      ([EngineTheory.capture_decrypt_roundtrip],
      [RestoreAtomic.capture_restore_roundtrip]); nothing unauthenticated is
      returned ([EngineTheory.decrypt_snapshot_sound]); accepted paths stay below
      their directory ([Paths.safe_relative_path_correct]); chunking partitions
      its input within the size bounds and is local under edits ([FastCdc]); a
      restore is all or nothing across crashes and failed recoveries
      ([RestoreAtomic.restore_crash_atomic]), and [RestoreAtomic] shows the three
      faults in which that ends: an existence check that fails, a flush that fails
      after the commit, and a death while the staging directory is removed.
    - Recovery: reconstruction from any threshold set, and perfect secrecy below it
      ([ShamirTheory]); kits and guardian sheets survive being printed and typed
      in, and enough guardians give the kit back ([KitTheory]); head selection
      terminates and selects only rooted, maximal heads ([Trust]).
    - Cryptographic use: domain separation of derivations, no reuse of a key and
      nonce, round trips of every sealed format, and ciphertexts bound to their
      scope ([Crypto]); signatures bound to the kind and content of a record
      ([Schema]).
    - Operator: every answer that carries vault data needs a session or the control
      credential, and stays in the vault of the session ([OperatorAccess],
      [OperatorTenants]); a session belongs to a key that signed a fresh challenge,
      and a revoked identity stays out across restarts and failing writes
      ([OperatorAuthTheory], [OperatorRevocation]); recovery logs keep every
      acknowledged record through torn writes ([RecoveryLogTheory]); probation is
      served before full membership ([AdmissionTheory]); no history of charges,
      releases, expiry and restarts overspends a voucher or a holder
      ([VouchersTheory]); a checkpoint reported as confirmed was seen on the chain
      ([OperatorRelayTheory]); an enrolled device can store and read back
      ([OperatorSession]); the flood guard admits exactly what the window allows
      ([RateLimit]); repair plans are the rendezvous choice ([SwarmTheory]).
    - Storage clients: a replication that succeeds reached a quorum of operators
      with different verified keys that hold every object, and it succeeds whenever
      there is such a quorum, whatever the order of their answers ([Pool]).
    - Maintenance: a vault that a job reports healthy was found, in full and with its
      records, on enough operators with different keys of the inventory; a job never
      shortens a lease; a repaired object was read back ([Maintenance]).
    - Authorization: [authorize] decides a policy that is stated over the rows of the
      tables, with a permission table and conditions of its own ([PolicyTheory]); no
      single admin grants alone, and both held the role when they acted
      ([GrantsTheory]); a proof of possession is accepted
      once ([Dpop]); the audit chain is tamper evident ([AuditChainTheory]); the
      migration ledger keeps its invariant over any history ([MigrationHistory]).
    - Secrets: what each operation does to the value that is stored ([SecretsTheory]);
      over any history, whatever statements fail, the store refines a map from
      identifiers to values with the receipts of rotations ([RotationTheory]); every access leaves its audit event and
      needs the authorization of its scope ([SecretsAccess]); a rotation happens
      once per idempotency key ([RotationTheory]); the tables are well formed
      ([SecretsTypes]); a key label never changes its key ([KeyLifecycle]).
    - Accounts: over every interleaving of requests, a session was earned by a
      proof that was checked and spent, and no recovery code, handoff code or step of an
      authenticator opens a second one ([SessionProvenance]), an account that
      requires a second factor has one ([FactorPolicy]), and quotas bound the
      requests of any interval ([AccountDb]).

    ** Not modelled

    HTTP and libp2p transport, SQLite itself, operating-system key stores, device
    drivers, user interfaces, the JSON-RPC client, metrics and process start, and
    the floating-point token buckets of the operator: they are I/O or code of other
    projects.  Of the account service, the routes of secret_routes.rs,
    grants_routes.rs and migration_routes.rs map results of the modelled operations
    to HTTP responses, and projects.rs, vcs.rs, reconcile.rs, disaster_recovery.rs
    and scoped_enhancements.rs are left out except for the functions the modelled
    operations call.  Nor are the local store and the command line modelled. *)

From Stdlib Require Export ZArith Lia Bool.
From stdpp Require Export base list strings gmap pretty.

#[global] Open Scope Z_scope.

(** ** Results: Rust's [Result<A, E>] with [?] as monadic bind *)

Inductive result (E A : Type) : Type :=
| Ok (a : A)
| Err (e : E).
Arguments Ok {E A} a.
Arguments Err {E A} e.

Definition res_bind {E A B : Type} (r : result E A) (k : A -> result E B)
  : result E B :=
  match r with
  | Ok a => k a
  | Err e => Err e
  end.

(** [map_err] of the Rust standard library. *)
Definition map_err {E E' A : Type} (f : E -> E') (r : result E A) : result E' A :=
  match r with
  | Ok a => Ok a
  | Err e => Err (f e)
  end.

(** [ok_or] of the Rust standard library. *)
Definition ok_or {E A : Type} (o : option A) (e : E) : result E A :=
  match o with
  | Some a => Ok a
  | None => Err e
  end.

Definition is_ok {E A : Type} (r : result E A) : bool :=
  match r with Ok _ => true | Err _ => false end.

Declare Scope rust_scope.
Delimit Scope rust_scope with rust.
#[global] Open Scope rust_scope.

Notation "'let?' x ':=' c 'in' k" := (res_bind c (fun x => k))
  (at level 10, x pattern, c at level 100, k at level 200)
  : rust_scope.
(** [if b { return Err(e) } ; k]: the early-return guard of the source. *)
Notation "'bail?' b 'with' e ';;' k" := (if b then Err e else k)
  (at level 10, b at level 99, e at level 99, k at level 200)
  : rust_scope.

Lemma res_bind_ok {E A B} (r : result E A) (k : A -> result E B) (b : B) :
  res_bind r k = Ok b <-> exists a, r = Ok a /\ k a = Ok b.
Proof.
  destruct r as [a|e]; simpl; split.
  - intros H; exists a; auto.
  - intros (a' & [= ->] & H); exact H.
  - intros [=].
  - intros (a' & [=] & _).
Qed.

Lemma Ok_inj {E A} (a b : A) : @Ok E A a = Ok b -> a = b.
Proof. by intros [= ->]. Qed.

Lemma bail_ok {E A} (b : bool) (e : E) (k : result E A) (a : A) :
  (if b then Err e else k) = Ok a <-> b = false /\ k = Ok a.
Proof. destruct b; split; intros; naive_solver. Qed.

Lemma res_bind_err {E A B} (r : result E A) (k : A -> result E B) (e : E) :
  res_bind r k = Err e <-> r = Err e \/ exists a, r = Ok a /\ k a = Err e.
Proof. destruct r; simpl; naive_solver. Qed.

Lemma bail_err {E A} (b : bool) (e0 e : E) (k : result E A) :
  (if b then Err e0 else k) = Err e <-> (b = true /\ e0 = e) \/ (b = false /\ k = Err e).
Proof. destruct b; naive_solver. Qed.

Lemma map_err_err {E E' A} (f : E -> E') (r : result E A) e' :
  map_err f r = Err e' <-> exists e, r = Err e /\ f e = e'.
Proof. destruct r; simpl; naive_solver. Qed.

(** [for x in xs { f(x)?; }]: runs the checks in order, the first error wins. *)
Fixpoint for_each {E A : Type} (f : A -> result E unit) (xs : list A) : result E unit :=
  match xs with
  | [] => Ok tt
  | x :: rest => let? _ := f x in for_each f rest
  end.

(** [xs.iter().map(f).collect::<Result<Vec<_>, _>>()] and the equivalent
    [for] loop that pushes [f(x)?] on a vector. *)
Fixpoint try_map {E A B : Type} (f : A -> result E B) (xs : list A) : result E (list B) :=
  match xs with
  | [] => Ok []
  | x :: rest => let? y := f x in let? ys := try_map f rest in Ok (y :: ys)
  end.

(** [for x in xs { acc = f(acc, x)?; }] *)
Fixpoint try_fold {E S A : Type} (f : S -> A -> result E S) (acc : S) (xs : list A)
  : result E S :=
  match xs with
  | [] => Ok acc
  | x :: rest => let? acc' := f acc x in try_fold f acc' rest
  end.

(** [xs.iter().enumerate()] *)
Definition enumerate {A : Type} (l : list A) : list (nat * A) := imap pair l.

Lemma for_each_ok {E A} (f : A -> result E unit) xs :
  for_each f xs = Ok tt <-> Forall (fun x => f x = Ok tt) xs.
Proof.
  induction xs as [|x xs IH]; simpl; [naive_solver|].
  rewrite Forall_cons, <- IH. destruct (f x) as [[]|]; simpl; naive_solver.
Qed.

Lemma try_map_ok {E A B} (f : A -> result E B) xs ys :
  try_map f xs = Ok ys <-> Forall2 (fun x y => f x = Ok y) xs ys.
Proof.
  revert ys; induction xs as [|x xs IH]; intros ys; simpl.
  - split; [intros [= <-]; constructor | intros H; inversion H; reflexivity].
  - rewrite res_bind_ok. split.
    + intros (y & Hy & H). apply res_bind_ok in H as (ys' & Hys & [= <-]).
      constructor; [exact Hy | apply IH; exact Hys].
    + intros H. apply Forall2_cons_inv_l in H as (y & ys' & Hy & Hys & ->).
      exists y; split; [exact Hy|]. apply IH in Hys. by rewrite Hys.
Qed.

Lemma try_map_all {E A B} (f : A -> result E B) (g : A -> B) xs :
  (forall x, x ∈ xs -> f x = Ok (g x)) -> try_map f xs = Ok (g <$> xs).
Proof.
  induction xs as [|x xs IH]; intros H; simpl; [done|].
  rewrite (H x) by set_solver. simpl. rewrite IH by set_solver. done.
Qed.

(** A fold that never fails is the ordinary fold. *)
Lemma try_fold_pure {E S A} (f : S -> A -> result E S) (g : S -> A -> S) acc xs :
  (forall s x, x ∈ xs -> f s x = Ok (g s x)) ->
  try_fold f acc xs = Ok (foldl g acc xs).
Proof.
  revert acc; induction xs as [|x xs IH]; intros acc H; simpl; [done|].
  rewrite H by set_solver. simpl. apply IH. set_solver.
Qed.

(** Invariant rule for a loop that may return early. *)
Lemma try_fold_inv {E S A} (f : S -> A -> result E S) (P : S -> Prop) xs s s' :
  (forall s x t, x ∈ xs -> P s -> f s x = Ok t -> P t) ->
  P s -> try_fold f s xs = Ok s' -> P s'.
Proof.
  revert s; induction xs as [|x xs IH]; intros s Hstep Hs; simpl.
  - by intros [= <-].
  - rewrite res_bind_ok. intros (t & Ht & H).
    eapply (IH t); [| |exact H].
    + intros ???? ; eapply Hstep; set_solver.
    + eapply Hstep; [|exact Hs|exact Ht]; set_solver.
Qed.

Lemma try_fold_app {E S A} (f : S -> A -> result E S) s xs ys :
  try_fold f s (xs ++ ys) =
  res_bind (try_fold f s xs) (fun t => try_fold f t ys).
Proof.
  revert s; induction xs as [|x xs IH]; intros s; simpl; [done|].
  destruct (f s x); simpl; auto.
Qed.

(** ** Machine integers

    A [uN] value is a [Z]; the operations write out the wrap-around or the
    saturation of the Rust operation used by the source. *)

Definition u8_max : Z := 255.
Definition u32_max : Z := 4294967295.
Definition u64_max : Z := 18446744073709551615.

Definition is_u8 (z : Z) : Prop := 0 <= z < 256.
Definition is_u32 (z : Z) : Prop := 0 <= z <= u32_max.
Definition is_u64 (z : Z) : Prop := 0 <= z <= u64_max.

Definition wrap8 (z : Z) : Z := z mod 256.
Definition wrap32 (z : Z) : Z := z mod 4294967296.
Definition wrap64 (z : Z) : Z := z mod 18446744073709551616.

(** [u64::saturating_add], [saturating_sub], [saturating_mul]. *)
Definition sat_add64 (a b : Z) : Z := Z.min (a + b) u64_max.
Definition sat_sub (a b : Z) : Z := Z.max (a - b) 0.
Definition sat_mul64 (a b : Z) : Z := Z.min (a * b) u64_max.

Abbreviation bytes := (list Z).

Definition is_bytes (b : bytes) : Prop := Forall is_u8 b.

#[global] Instance is_u8_dec z : Decision (is_u8 z).
Proof. unfold is_u8; apply _. Defined.
#[global] Instance is_bytes_dec b : Decision (is_bytes b).
Proof. unfold is_bytes; apply _. Defined.

(** Length of a buffer as the integer the source compares it with. *)
Definition blen {A : Type} (b : list A) : Z := Z.of_nat (length b).

Lemma blen_nonneg {A} (b : list A) : 0 <= blen b.
Proof. unfold blen; lia. Qed.

Lemma blen_app {A} (b c : list A) : blen (b ++ c) = blen b + blen c.
Proof. unfold blen; rewrite length_app; lia. Qed.

(** [to_le_bytes] / [to_be_bytes] of an [n]-byte unsigned integer. *)
Fixpoint to_le_bytes (n : nat) (z : Z) : bytes :=
  match n with
  | O => []
  | S n' => z mod 256 :: to_le_bytes n' (z / 256)
  end.

Definition to_be_bytes (n : nat) (z : Z) : bytes := rev (to_le_bytes n z).

Fixpoint from_le_bytes (b : bytes) : Z :=
  match b with
  | [] => 0
  | x :: rest => x + 256 * from_le_bytes rest
  end.

Lemma length_to_le_bytes n z : length (to_le_bytes n z) = n.
Proof. revert z; induction n; intros; simpl; auto. Qed.

Lemma length_to_be_bytes n z : length (to_be_bytes n z) = n.
Proof. unfold to_be_bytes. by rewrite length_rev, length_to_le_bytes. Qed.

Lemma to_le_bytes_is_bytes n z : is_bytes (to_le_bytes n z).
Proof.
  revert z; induction n as [|n IH]; intros z; simpl; constructor; [|apply IH].
  pose proof (Z.mod_pos_bound z 256). unfold is_u8; lia.
Qed.

Lemma from_to_le_bytes n z :
  0 <= z < 256 ^ Z.of_nat n -> from_le_bytes (to_le_bytes n z) = z.
Proof.
  revert z; induction n as [|n IH]; intros z Hz; simpl.
  - change (256 ^ Z.of_nat 0) with 1 in Hz. lia.
  - rewrite IH; [pose proof (Z.div_mod z 256); lia|].
    rewrite Nat2Z.inj_succ, Z.pow_succ_r in Hz by lia.
    split; [apply Z.div_pos; lia | apply Z.div_lt_upper_bound; lia].
Qed.

Lemma to_le_bytes_inj n a b :
  0 <= a < 256 ^ Z.of_nat n -> 0 <= b < 256 ^ Z.of_nat n ->
  to_le_bytes n a = to_le_bytes n b -> a = b.
Proof.
  intros Ha Hb H. rewrite <- (from_to_le_bytes n a Ha), <- (from_to_le_bytes n b Hb).
  by rewrite H.
Qed.

Lemma to_be_bytes_inj n a b :
  0 <= a < 256 ^ Z.of_nat n -> 0 <= b < 256 ^ Z.of_nat n ->
  to_be_bytes n a = to_be_bytes n b -> a = b.
Proof.
  unfold to_be_bytes; intros Ha Hb H.
  apply (to_le_bytes_inj n); auto.
  apply (f_equal (@rev Z)) in H. by rewrite !rev_involutive in H.
Qed.

(** ** Text

    A Rust [String] or [&str] is the list of its Unicode scalar values;
    [s.len()] is the length of its UTF-8 encoding. *)

Abbreviation str := (list Z).

Definition lit (s : string) : str := (fun a => Z.of_N (Ascii.N_of_ascii a)) <$> String.list_ascii_of_string s.

Definition len_utf8 (c : Z) : Z :=
  if c <? 128 then 1 else if c <? 2048 then 2 else if c <? 65536 then 3 else 4.

Definition utf8_char (c : Z) : bytes :=
  if c <? 128 then [c]
  else if c <? 2048 then [192 + c / 64; 128 + c mod 64]
  else if c <? 65536 then [224 + c / 4096; 128 + (c / 64) mod 64; 128 + c mod 64]
  else [240 + c / 262144; 128 + (c / 4096) mod 64; 128 + (c / 64) mod 64; 128 + c mod 64].

Definition as_bytes (s : str) : bytes := s ≫= utf8_char.

Definition str_len (s : str) : Z := foldr (fun c n => len_utf8 c + n) 0 s.

Definition is_ascii_lowercase (c : Z) : bool := (97 <=? c) && (c <=? 122).
Definition is_ascii_uppercase (c : Z) : bool := (65 <=? c) && (c <=? 90).
Definition is_ascii_digit (c : Z) : bool := (48 <=? c) && (c <=? 57).
Definition is_ascii_alphanumeric (c : Z) : bool :=
  is_ascii_lowercase c || is_ascii_uppercase c || is_ascii_digit c.
Definition is_ascii_hexdigit (c : Z) : bool :=
  is_ascii_digit c || ((97 <=? c) && (c <=? 102)) || ((65 <=? c) && (c <=? 70)).
Definition is_ascii_graphic (c : Z) : bool := (33 <=? c) && (c <=? 126).
(** [u8::is_ascii_whitespace]: space, tab, line feed, form feed, carriage return. *)
Definition is_ascii_whitespace (c : Z) : bool :=
  (c =? 32) || (c =? 9) || (c =? 10) || (c =? 12) || (c =? 13).
(** [char::is_whitespace] (the Unicode White_Space property). *)
Definition is_whitespace (c : Z) : bool :=
  ((9 <=? c) && (c <=? 13)) || (c =? 32) || (c =? 133) || (c =? 160) || (c =? 5760)
  || ((8192 <=? c) && (c <=? 8202)) || (c =? 8232) || (c =? 8233) || (c =? 8239)
  || (c =? 8287) || (c =? 12288).

Definition to_ascii_lowercase (c : Z) : Z := if is_ascii_uppercase c then c + 32 else c.
Definition to_ascii_uppercase (c : Z) : Z := if is_ascii_lowercase c then c - 32 else c.

Definition eq_ignore_ascii_case (a b : list Z) : bool :=
  bool_decide ((to_ascii_lowercase <$> a) = (to_ascii_lowercase <$> b)).

Fixpoint trim_start (s : str) : str :=
  match s with
  | [] => []
  | c :: rest => if is_whitespace c then trim_start rest else s
  end.
Definition trim_end (s : str) : str := rev (trim_start (rev s)).
Definition trim (s : str) : str := trim_end (trim_start s).

(** [str::split] on one separator: always at least one piece. *)
Fixpoint split_on (sep : Z) (s : str) : list str :=
  match s with
  | [] => [[]]
  | c :: rest =>
      if c =? sep then [] :: split_on sep rest
      else match split_on sep rest with
           | [] => [[c]]
           | p :: ps => (c :: p) :: ps
           end
  end.

(** [str::replace] of one character by another. *)
Definition replace_char (a b : Z) (s : str) : str := (fun c => if c =? a then b else c) <$> s.

(** [format!("{}", z)] of an integer. *)
Definition show_Z (z : Z) : str := lit (pretty z).

Definition digit_value (c : Z) : Z := c - 48.
Definition parse_digits (s : str) : Z := foldl (fun acc c => acc * 10 + digit_value c) 0 s.
(** [str::parse] of an unsigned integer up to [max]: an optional sign, digits, no overflow. *)
Definition parse_uint (max : Z) (s : str) : option Z :=
  let digits := match s with 43 :: rest => rest | _ => s end in
  if bool_decide (digits = []) || negb (forallb is_ascii_digit digits) then None
  else if parse_digits digits <=? max then Some (parse_digits digits) else None.

Definition u64_parse : str -> option Z := parse_uint u64_max.

(** [slice::starts_with] *)
Fixpoint starts_with (prefix s : list Z) : bool :=
  match prefix, s with
  | [], _ => true
  | p :: ps, c :: cs => (p =? c) && starts_with ps cs
  | _ :: _, [] => false
  end.

Lemma utf8_char_len c : blen (utf8_char c) = len_utf8 c.
Proof. unfold utf8_char, len_utf8; repeat case_match; done. Qed.

Lemma as_bytes_len s : blen (as_bytes s) = str_len s.
Proof.
  unfold as_bytes. induction s as [|c s IH]; [done|].
  rewrite bind_cons, blen_app, utf8_char_len, IH. done.
Qed.

Lemma split_on_app sep s rest :
  sep ∉ s -> split_on sep (s ++ sep :: rest) = s :: split_on sep rest.
Proof.
  induction s as [|c s IH]; intros H; simpl; [by rewrite Z.eqb_refl|].
  replace (c =? sep) with false by (symmetry; apply Z.eqb_neq; set_solver).
  by rewrite IH by set_solver.
Qed.

Lemma split_on_none sep s : sep ∉ s -> split_on sep s = [s].
Proof.
  induction s as [|c s IH]; intros H; simpl; [done|].
  replace (c =? sep) with false by (symmetry; apply Z.eqb_neq; set_solver).
  by rewrite IH by set_solver.
Qed.
Lemma split_on_join sep s : exists p ps, split_on sep s = p :: ps /\ s = p ++ (ps ≫= cons sep).
Proof.
  induction s as [|c s (p & ps & E & IH)]; [by exists [], []|]. cbn [split_on]. rewrite E.
  destruct (Z.eqb_spec c sep) as [->|Hne]; [exists [], (p :: ps)|exists (c :: p), ps]; by rewrite IH.
Qed.
Lemma trim_start_id s : Forall (fun c => is_whitespace c = false) s -> trim_start s = s.
Proof. destruct 1 as [|c s Hc _]; [done|]. simpl. by rewrite Hc. Qed.

Lemma trim_id s : Forall (fun c => is_whitespace c = false) s -> trim s = s.
Proof.
  intros H. unfold trim, trim_end. rewrite (trim_start_id s) by done.
  rewrite trim_start_id by (by apply Forall_rev). apply rev_involutive.
Qed.

Lemma starts_with_spec p s : starts_with p s = true <-> exists r, s = p ++ r.
Proof.
  revert s; induction p as [|a p IH]; intros s; simpl.
  - split; [eauto|done].
  - destruct s as [|c s]; [split; [done|intros (r & [=])]|].
    rewrite andb_true_iff, Z.eqb_eq, IH. split.
    + intros (-> & r & ->); eauto.
    + intros (r & [= -> ->]); eauto.
Qed.

(** ** Exhaustive checks over one byte *)

Definition all_bytes : list Z := seqZ 0 256.

Lemma elem_all_bytes z : z ∈ all_bytes <-> is_u8 z.
Proof. unfold all_bytes, is_u8. rewrite elem_of_seqZ. lia. Qed.

Lemma byte_forall (P : Z -> bool) :
  forallb P all_bytes = true -> forall z, is_u8 z -> P z = true.
Proof.
  rewrite forallb_forall. intros H z Hz. apply H.
  apply list_elem_of_In, elem_all_bytes, Hz.
Qed.

Lemma byte_forall2 (P : Z -> Z -> bool) :
  forallb (fun a => forallb (P a) all_bytes) all_bytes = true ->
  forall a b, is_u8 a -> is_u8 b -> P a b = true.
Proof.
  intros H a b Ha Hb. apply (byte_forall (P a)); [|exact Hb].
  apply (byte_forall (fun a => forallb (P a) all_bytes)); auto.
Qed.

(** ** Automation *)

Create HintDb cv discriminated.
#[export] Hint Resolve blen_nonneg to_le_bytes_is_bytes : cv.
Create Rewrite HintDb cv_len.
#[export] Hint Rewrite @length_app @length_to_le_bytes @length_to_be_bytes
  @length_replicate @length_take @length_drop @length_fmap @length_imap : cv_len.

(** Solves goals on lengths of concatenated buffers. *)
Ltac len_solve := autorewrite with cv_len in *; simpl in *; try lia.

(** Splits a successful chain of binds and early-return guards into the facts
    each step established. *)
Ltac res_inv :=
  repeat match goal with
  | H : res_bind _ _ = Ok _ |- _ =>
      apply res_bind_ok in H; let a := fresh "a" in let Ha := fresh "Hr" in
      destruct H as (a & Ha & H)
  | H : (if _ then Err _ else _) = Ok _ |- _ =>
      apply bail_ok in H; let Hb := fresh "Hb" in destruct H as (Hb & H)
  | H : Ok ?a = Ok ?b |- _ => first [is_var a | is_var b]; apply Ok_inj in H; subst
  | H : Ok _ = Ok _ |- _ => injection H as H; try subst
  | H : Err _ = Ok _ |- _ => discriminate H
  | H : ok_or ?o _ = Ok _ |- _ =>
      let E := fresh "Ho" in destruct o eqn:E; simpl in H
  | H : map_err _ ?r = Ok _ |- _ =>
      let E := fresh "Hm" in destruct r eqn:E; simpl in H
  end.

(** Splits a failed chain into the step that failed. *)
Ltac err_inv :=
  repeat match goal with
  | H : res_bind _ _ = Err _ |- _ =>
      apply res_bind_err in H; let a := fresh "a" in let Ha := fresh "Hr" in
      destruct H as [H|(a & Ha & H)]
  | H : (if _ then Err _ else _) = Err _ |- _ =>
      apply bail_err in H; let Hb := fresh "Hb" in destruct H as [(Hb & H)|(Hb & H)]
  | H : map_err _ _ = Err _ |- _ =>
      apply map_err_err in H; let e := fresh "e" in let He := fresh "He" in
      destruct H as (e & He & H)
  | H : Ok _ = Err _ |- _ => discriminate H
  end.

(** Turns boolean guards into propositions for [lia] and [congruence]. *)
Ltac bool_prop :=
  repeat match goal with
  | H : _ || _ = false |- _ => apply orb_false_iff in H; destruct H
  | H : _ && _ = true |- _ => apply andb_true_iff in H; destruct H
  | H : negb _ = false |- _ => apply negb_false_iff in H
  | H : negb _ = true |- _ => apply negb_true_iff in H
  | H : (_ =? _) = true |- _ => apply Z.eqb_eq in H
  | H : (_ =? _) = false |- _ => apply Z.eqb_neq in H
  | H : (_ <? _) = true |- _ => apply Z.ltb_lt in H
  | H : (_ <? _) = false |- _ => apply Z.ltb_ge in H
  | H : (_ <=? _) = true |- _ => apply Z.leb_le in H
  | H : (_ <=? _) = false |- _ => apply Z.leb_gt in H
  | H : bool_decide _ = true |- _ => apply bool_decide_eq_true in H
  | H : bool_decide _ = false |- _ => apply bool_decide_eq_false in H
  end.

(** Decides an integer comparison that is an equation between booleans. *)
Ltac bool_lia :=
  lazymatch goal with
  | |- true = _ => symmetry
  | |- false = _ => symmetry
  | _ => idtac
  end;
  lazymatch goal with
  | |- (_ <? _) = true => apply Z.ltb_lt
  | |- (_ <? _) = false => apply Z.ltb_ge
  | |- (_ <=? _) = true => apply Z.leb_le
  | |- (_ <=? _) = false => apply Z.leb_gt
  | |- (_ =? _) = true => apply Z.eqb_eq
  | |- (_ =? _) = false => apply Z.eqb_neq
  end; unfold blen in *; autorewrite with cv_len; try lia.
