(* ===== verification/Sorting.v ===== *)
(** * Stable sorting

    The slice [sort] and [sort_by_key] of the standard library and SQL's
    [ORDER BY] as a stable insertion sort, with the facts its clients use: it
    permutes and sorts its input, is determined by the multiset when the order is
    antisymmetric, and leaves a sorted list alone. *)

From stdpp Require Import sorting.
From S2P Require Import Prelude.

Section Sorting.
Context {A : Type} (le : A -> A -> bool).
Fixpoint insert_sorted (x : A) (l : list A) : list A :=
  match l with
  | [] => [x]
  | y :: rest => if le x y then x :: l else y :: insert_sorted x rest
  end.
Definition sort (l : list A) : list A := foldr insert_sorted [] l.
End Sorting.

Lemma insert_sorted_fmap {A B} (le : B -> B -> bool) (g : A -> B) x l :
  insert_sorted le (g x) (g <$> l) = g <$> insert_sorted (fun a b => le (g a) (g b)) x l.
Proof. induction l as [|y rest IH]; cbn; [done|]. destruct (le (g x) (g y)); [done|]. cbn. by rewrite <-IH. Qed.
Lemma sort_fmap {A B} (le : B -> B -> bool) (g : A -> B) l :
  sort le (g <$> l) = g <$> sort (fun a b => le (g a) (g b)) l.
Proof. induction l as [|x rest IH]; [done|]. change (sort le (g <$> x :: rest)) with (insert_sorted le (g x) (sort le (g <$> rest))).
  rewrite IH. apply insert_sorted_fmap. Qed.

Lemma filter_fmap {A B} (P : B -> Prop) `{forall x, Decision (P x)} (g : A -> B) (l : list A) :
  filter P (g <$> l) = g <$> filter (fun x => P (g x)) l.
Proof.
  induction l as [|x rest IH]; [done|]. rewrite fmap_cons, !filter_cons. by destruct (decide (P (g x))); cbn; rewrite IH.
Qed.

Section FilterFacts.
Context {A : Type} (P : A -> Prop) `{!forall x, Decision (P x)}.
Lemma filter_all (l : list A) : Forall P l -> filter P l = l.
Proof. induction 1 as [|x l Hx _ IH]; [done|]. by rewrite filter_cons, decide_True, IH. Qed.
Lemma filter_none (l : list A) : Forall (fun x => ~ P x) l -> filter P l = [].
Proof. induction 1 as [|x l Hx _ IH]; [done|]. by rewrite filter_cons, decide_False, IH. Qed.
Lemma filter_strongly_sorted (R : A -> A -> Prop) (l : list A) :
  StronglySorted R l -> StronglySorted R (filter P l).
Proof.
  induction 1 as [|x l Hs IH Hx]; [constructor|]. rewrite filter_cons. destruct (decide (P x)); [|done].
  constructor; [done|]. rewrite !Forall_forall in *. intros y. rewrite list_elem_of_filter. naive_solver.
Qed.
End FilterFacts.

Section SortFacts.
Context {A : Type} (le : A -> A -> bool).
#[local] Abbreviation R := (fun x y => le x y = true).

Lemma insert_sorted_perm x l : insert_sorted le x l ≡ₚ x :: l.
Proof.
  induction l as [|y rest IH]; cbn [insert_sorted]; [done|]. destruct (le x y); [done|].
  rewrite IH. apply Permutation_swap.
Qed.
Lemma sort_perm l : sort le l ≡ₚ l.
Proof.
  induction l as [|x rest IH]; [done|]. cbn. rewrite insert_sorted_perm. by apply Permutation_skip.
Qed.

(** [x] after all elements that do not exceed it. *)
Fixpoint insert_after (x : A) (l : list A) : list A :=
  match l with
  | [] => [x]
  | y :: rest => if le y x then y :: insert_after x rest else x :: l
  end.
Lemma insert_after_last x l : (forall y, y ∈ l -> le y x = true) -> insert_after x l = l ++ [x].
Proof.
  induction l as [|y rest IH]; intros H; cbn; [done|]. rewrite (H y) by set_solver.
  rewrite IH; [done|]. set_solver.
Qed.
Lemma insert_after_split x l : exists l1 l2, l = l1 ++ l2 /\ insert_after x l = l1 ++ x :: l2 /\
  (forall y, y ∈ l1 -> le y x = true).
Proof.
  induction l as [|y rest (l1 & l2 & -> & IH & Hl)]; cbn; [exists [], []; set_solver|].
  destruct (le y x) eqn:E; [|exists [], (y :: l1 ++ l2); set_solver].
  exists (y :: l1), l2. rewrite IH. set_solver.
Qed.

Hypothesis Htotal : forall x y, le x y = false -> le y x = true.

Lemma insert_sorted_sorted x l : Sorted R l -> Sorted R (insert_sorted le x l).
Proof.
  induction 1 as [|y rest Hs IH Hy]; cbn [insert_sorted]; [by repeat constructor|].
  destruct (le x y) eqn:E; [by repeat constructor|]. constructor; [done|].
  apply Htotal in E. destruct rest as [|z rest']; cbn [insert_sorted]; [by constructor|].
  inversion_clear Hy. destruct (le x z); by constructor.
Qed.
Lemma sort_sorted l : Sorted R (sort le l).
Proof. induction l as [|x rest IH]; [constructor|]. by apply insert_sorted_sorted. Qed.

Hypothesis Htrans : forall x y z, le x y = true -> le y z = true -> le x z = true.
Hypothesis Hanti : forall x y, le x y = true -> le y x = true -> x = y.

Lemma sort_strongly_sorted l : StronglySorted R (sort le l).
Proof. apply Sorted_StronglySorted; [intros x y z; apply Htrans|apply sort_sorted]. Qed.
Lemma sort_perm_eq l1 l2 : l1 ≡ₚ l2 -> sort le l1 = sort le l2.
Proof.
  intros Hp. apply (StronglySorted_unique_strong R).
  - intros x y _ _. by apply Hanti.
  - apply sort_strongly_sorted.
  - apply sort_strongly_sorted.
  - by rewrite !sort_perm.
Qed.

Lemma insert_sorted_after a x l :
  insert_sorted le a (insert_after x l) = insert_after x (insert_sorted le a l).
Proof.
  induction l as [|y rest IH]; cbn; [by destruct (le a x)|].
  destruct (le y x) eqn:Eyx; cbn; destruct (le a y) eqn:Eay; cbn; rewrite ?Eyx, ?IH.
  - by rewrite (Htrans _ _ _ Eay Eyx).
  - done.
  - done.
  - destruct (le a x) eqn:Eax; [|done]. by rewrite (Htrans a x y Eax (Htotal _ _ Eyx)) in Eay.
Qed.
Lemma sort_snoc l x : sort le (l ++ [x]) = insert_after x (sort le l).
Proof. induction l as [|a rest IH]; [done|]. change (sort le ((a :: rest) ++ [x])) with (insert_sorted le a (sort le (rest ++ [x]))).
  by rewrite IH, insert_sorted_after. Qed.
End SortFacts.
