(* ===== verification/Tables.v ===== *)
(** * Programs over tables

    Service code that runs statements against a database: a program takes the
    tables, returns a value or an error, and leaves new tables behind, also when it
    fails.  A transaction restores the tables on an error.

    [does] relates a program to a relation of small steps: whatever fails, the
    tables it leaves are reached by such steps.  It is the common shape of the
    refinement proofs about services.  [hoare] is a triple with a postcondition for
    errors, for code whose transactions pass through states that no reader sees. *)

From S2P Require Import Prelude.

Definition Tx (S E A : Type) : Type := S -> result E A * S.
Definition tret {S E A} (r : result E A) : Tx S E A := fun d => (r, d).
Definition tbind {S E A B} (m : Tx S E A) (k : A -> Tx S E B) : Tx S E B := fun d =>
  match m d with
  | (Ok a, d') => k a d'
  | (Err e, d') => (Err e, d')
  end.
(** A statement that reads, and one that writes; [None] is a violated constraint. *)
Definition query_if {S E A} (fails : bool) (db : E) (f : S -> A) : Tx S E A := fun d =>
  (if fails then Err db else Ok (f d), d).
Definition execute_if {S E} (fails : bool) (db : E) (f : S -> option S) : Tx S E unit := fun d =>
  if fails then (Err db, d) else match f d with Some d' => (Ok tt, d') | None => (Err db, d) end.
(** [transaction ... commit]: rolled back when the body or the commit fails. *)
Definition atomically {S E A} (fails : bool) (db : E) (m : Tx S E A) : Tx S E A := fun d =>
  match m d with
  | (Ok a, d') => if fails then (Err db, d) else (Ok a, d')
  | (Err e, _) => (Err e, d)
  end.

(** Reading and replacing the state, and handling an error. *)
Definition tget {S E A} (f : S -> A) : Tx S E A := fun d => (Ok (f d), d).
Definition tmodify {S E} (f : S -> S) : Tx S E unit := fun d => (Ok tt, f d).
Definition tcatch {S E A} (m : Tx S E A) (h : E -> Tx S E A) : Tx S E A := fun d =>
  match m d with
  | (Ok a, d') => (Ok a, d')
  | (Err e, d') => h e d'
  end.

Declare Scope tx_scope.
Delimit Scope tx_scope with tx.
Notation "'do' x '<-' m ';;' k" := (tbind m (fun x => k))
  (at level 10, x pattern, m at level 99, k at level 200) : tx_scope.
Notation "m ';;;' k" := (tbind m (fun _ => k)) (at level 100, k at level 200, right associativity) : tx_scope.
#[local] Open Scope tx_scope.

Fixpoint tx_for_each {S E A} (f : A -> Tx S E unit) (xs : list A) : Tx S E unit :=
  match xs with
  | [] => tret (Ok tt)
  | x :: rest => f x ;;; tx_for_each f rest
  end.
Fixpoint tx_map {S E A B} (f : A -> Tx S E B) (xs : list A) : Tx S E (list B) :=
  match xs with
  | [] => tret (Ok [])
  | x :: rest => do y <- f x ;; do ys <- tx_map f rest ;; tret (Ok (y :: ys))
  end.

(** ** Successful runs *)

Section Success.
Context {S E : Type}.

Lemma tbind_ok {A B} (m : Tx S E A) (k : A -> Tx S E B) d b d' :
  tbind m k d = (Ok b, d') -> exists a d1, m d = (Ok a, d1) /\ k a d1 = (Ok b, d').
Proof. unfold tbind. destruct (m d) as [[a|e] d1] eqn:Em; [eauto|done]. Qed.
Lemma query_if_ok {A} fails (db : E) (f : S -> A) d a d' :
  query_if fails db f d = (Ok a, d') -> fails = false /\ a = f d /\ d' = d.
Proof. unfold query_if. destruct fails; [done|]. by intros [= <- <-]. Qed.
Lemma execute_if_ok fails (db : E) (f : S -> option S) d u d' :
  execute_if fails db f d = (Ok u, d') -> fails = false /\ f d = Some d'.
Proof. unfold execute_if. destruct fails; [done|]. destruct (f d); [|done]. by intros [= _ <-]. Qed.
Lemma tret_ok {A} (r : result E A) (d : S) a d' : tret r d = (Ok a, d') -> r = Ok a /\ d' = d.
Proof. unfold tret. by intros [= -> <-]. Qed.
End Success.

(** ** Small steps *)

Section Steps.
Context {S E : Type} (R : S -> S -> Prop).

(** From [d], the program makes steps of [R], and its value satisfies [Q]. *)
Definition does {A} (m : Tx S E A) (d : S) (Q : A -> S -> Prop) : Prop :=
  match m d with
  | (Ok a, d') => rtc R d d' /\ Q a d'
  | (Err _, d') => rtc R d d'
  end.

Lemma does_bind {A B} (m : Tx S E A) (k : A -> Tx S E B) d (P : A -> S -> Prop) (Q : B -> S -> Prop) :
  does m d P -> (forall a d', P a d' -> does (k a) d' Q) -> does (tbind m k) d Q.
Proof.
  intros Hm Hk. unfold does, tbind in *. destruct (m d) as [[a|e] d'] eqn:Em; [|done].
  destruct Hm as (Hs & Ha). specialize (Hk a d' Ha).
  destruct (k a d') as [[b|e] d'']; [|by etrans]. destruct Hk as (Hs' & Hb). split; [by etrans|done].
Qed.

Lemma does_mono {A} (m : Tx S E A) d (P Q : A -> S -> Prop) :
  does m d P -> (forall a d', P a d' -> Q a d') -> does m d Q.
Proof. unfold does. intros Hm HPQ. destruct (m d) as [[a|e] d']; naive_solver. Qed.

Lemma does_ret {A} (r : result E A) d (Q : A -> S -> Prop) : (forall a, r = Ok a -> Q a d) -> does (tret r) d Q.
Proof. intros HQ. unfold does, tret. destruct r; [split; [done|by apply HQ]|done]. Qed.

Lemma does_query {A} fails (db : E) (f : S -> A) d (Q : A -> S -> Prop) :
  Q (f d) d -> does (query_if fails db f) d Q.
Proof. intros HQ. unfold does, query_if. by destruct fails. Qed.

Lemma does_execute fails (db : E) f d (Q : unit -> S -> Prop) :
  (forall d', f d = Some d' -> R d d' /\ Q tt d') -> does (execute_if fails db f) d Q.
Proof.
  intros HQ. unfold does, execute_if. destruct fails; [done|]. destruct (f d) as [d'|]; [|done].
  destruct (HQ d' eq_refl) as (Hm & Hq). split; [by apply rtc_once|done].
Qed.

Lemma does_for_each {A} (f : A -> Tx S E unit) xs d (P : S -> Prop) :
  P d -> (forall x d, x ∈ xs -> P d -> does (f x) d (fun _ d' => P d')) ->
  does (tx_for_each f xs) d (fun _ d' => P d').
Proof.
  revert d; induction xs as [|x xs IH]; intros d Hd Hf; cbn [tx_for_each]; [by apply does_ret|].
  eapply does_bind; [apply Hf; [apply list_elem_of_here|done]|]. intros u d' Hd'. apply IH; [done|].
  intros y d'' Hy. apply Hf. by right.
Qed.

Lemma does_steps {A} (m : Tx S E A) d Q : does m d Q -> rtc R d (m d).2.
Proof. unfold does. destruct (m d) as [[a|e] d']; simpl; [by intros (? & _)|done]. Qed.
End Steps.

(** ** Hoare triples

    The error postcondition [I] holds wherever the program stops with an error. *)

Section Hoare.
Context {S E : Type} (I : S -> Prop).

Definition hoare {A} (m : Tx S E A) (d : S) (Q : A -> S -> Prop) : Prop :=
  match m d with
  | (Ok a, d') => Q a d'
  | (Err _, d') => I d'
  end.

Lemma hoare_bind {A B} (m : Tx S E A) (k : A -> Tx S E B) d (P : A -> S -> Prop) (Q : B -> S -> Prop) :
  hoare m d P -> (forall a d', P a d' -> hoare (k a) d' Q) -> hoare (tbind m k) d Q.
Proof. unfold hoare, tbind. intros Hm Hk. destruct (m d) as [[a|e] d']; [by apply Hk|done]. Qed.

Lemma hoare_mono {A} (m : Tx S E A) d (P Q : A -> S -> Prop) :
  hoare m d P -> (forall a d', P a d' -> Q a d') -> hoare m d Q.
Proof. unfold hoare. destruct (m d) as [[a|e] d']; auto. Qed.

Lemma hoare_ret {A} (r : result E A) d (Q : A -> S -> Prop) :
  I d -> (forall a, r = Ok a -> Q a d) -> hoare (tret r) d Q.
Proof. unfold hoare, tret. destruct r; auto. Qed.

Lemma hoare_query {A} fails (db : E) (f : S -> A) d (Q : A -> S -> Prop) :
  I d -> Q (f d) d -> hoare (query_if fails db f) d Q.
Proof. unfold hoare, query_if. by destruct fails. Qed.

Lemma hoare_execute fails (db : E) f d (Q : unit -> S -> Prop) :
  I d -> (forall d', f d = Some d' -> Q tt d') -> hoare (execute_if fails db f) d Q.
Proof. unfold hoare, execute_if. destruct fails; [done|]. destruct (f d); auto. Qed.

Lemma hoare_get {A} (f : S -> A) d (Q : A -> S -> Prop) : Q (f d) d -> hoare (tget f) d Q.
Proof. done. Qed.
Lemma hoare_modify (f : S -> S) d (Q : unit -> S -> Prop) : Q tt (f d) -> hoare (tmodify f) d Q.
Proof. done. Qed.

Lemma hoare_for_each {A} (f : A -> Tx S E unit) xs d (P : list A -> S -> Prop) :
  P xs d -> (forall x rest d, P (x :: rest) d -> hoare (f x) d (fun _ => P rest)) ->
  hoare (tx_for_each f xs) d (fun _ => P []).
Proof.
  intros Hd Hf. revert d Hd; induction xs as [|x xs IH]; intros d Hd; cbn [tx_for_each]; [done|].
  eapply hoare_bind; [by apply Hf|]. intros u d' Hd'. by apply IH.
Qed.

Lemma hoare_map {A B} (f : A -> Tx S E B) xs d (P : list A -> S -> Prop) :
  P xs d -> (forall x rest d, P (x :: rest) d -> hoare (f x) d (fun _ => P rest)) ->
  hoare (tx_map f xs) d (fun _ => P []).
Proof.
  intros Hd Hf. revert d Hd; induction xs as [|x xs IH]; intros d Hd; cbn [tx_map]; [done|].
  eapply hoare_bind; [by apply Hf|]. intros y d' Hd'. eapply hoare_bind; [by apply IH|]. done.
Qed.
End Hoare.

Lemma hoare_conseq {S E A} (I J : S -> Prop) (m : Tx S E A) d (P Q : A -> S -> Prop) :
  hoare I m d P -> (forall d', I d' -> J d') -> (forall a d', P a d' -> Q a d') -> hoare J m d Q.
Proof. unfold hoare. destruct (m d) as [[a|e] d']; auto. Qed.

(** Inside a transaction any intermediate state will do. *)
Lemma hoare_atomically {S E A} (I : S -> Prop) fails (db : E) (m : Tx S E A) d Q :
  I d -> hoare (fun _ => True) m d Q -> hoare I (atomically fails db m) d Q.
Proof. unfold hoare, atomically. intros Hd. destruct (m d) as [[a|e] d']; [by destruct fails|done]. Qed.

Lemma hoare_catch {S E A} (I J : S -> Prop) (m : Tx S E A) h d Q :
  hoare J m d Q -> (forall e d', J d' -> hoare I (h e) d' Q) -> hoare I (tcatch m h) d Q.
Proof. unfold hoare, tcatch. intros Hm Hh. destruct (m d) as [[a|e] d']; [done|]. by apply Hh. Qed.

(** *** Walking through a program

    Reads and updates of the state are carried out; everything else keeps the
    invariant, which is also the postcondition. *)
Section Walk.
Context {S E : Type} (I : S -> Prop).

Lemma hoare_get_bind {A B} (f : S -> A) (k : A -> Tx S E B) d Q : hoare I (k (f d)) d Q -> hoare I (tbind (tget f) k) d Q.
Proof. done. Qed.
Lemma hoare_modify_bind {B} (f : S -> S) (k : unit -> Tx S E B) d Q : hoare I (k tt) (f d) Q -> hoare I (tbind (tmodify f) k) d Q.
Proof. done. Qed.
Lemma keep_bind {A B} (m : Tx S E A) (k : A -> Tx S E B) d :
  hoare I m d (fun _ => I) -> (forall a d', I d' -> hoare I (k a) d' (fun _ => I)) -> hoare I (tbind m k) d (fun _ => I).
Proof. apply hoare_bind. Qed.
Lemma keep_catch {A} (m : Tx S E A) h d :
  hoare I m d (fun _ => I) -> (forall e d', I d' -> hoare I (h e) d' (fun _ => I)) -> hoare I (tcatch m h) d (fun _ => I).
Proof. unfold hoare, tcatch. intros Hm Hh. destruct (m d) as [[a|e] d']; [done|]. by apply Hh. Qed.
Lemma keep_ret {A} (r : result E A) d : I d -> hoare I (tret r) d (fun _ => I).
Proof. intros Hd. by apply hoare_ret. Qed.
Lemma keep_modify (f : S -> S) d : I (f d) -> hoare (E := E) I (tmodify f) d (fun _ => I).
Proof. done. Qed.
End Walk.

(** [keep leaf] solves what the program structure leaves over with [leaf]. *)
Ltac keep leaf :=
  repeat (cbv zeta; lazymatch goal with
  | |- hoare _ (tbind (tget _) _) _ _ => apply hoare_get_bind
  | |- hoare _ (tbind (tmodify _) _) _ _ => apply hoare_modify_bind
  | |- hoare _ (tbind _ _) _ _ => apply keep_bind; [|intros ???]
  | |- hoare _ (tcatch _ _) _ _ => apply keep_catch; [|intros ???]
  | |- hoare _ (tret _) _ _ => apply keep_ret
  | |- hoare _ (tmodify _) _ _ => apply keep_modify
  | |- hoare _ (if ?b then _ else _) _ _ => destruct b eqn:?
  end); leaf.

(** *** Programs that do not fail *)
Section Sure.
Context {S E : Type}.

Lemma hoare_sure {A} (m : Tx S E A) s (I : S -> Prop) (Q : A -> S -> Prop) :
  hoare (fun _ => False) m s Q -> hoare I m s Q.
Proof. unfold hoare. by destruct (m s) as [[u|e'] s']. Qed.
Lemma hoare_done {A} (v : A) s (I : S -> Prop) (Q : A -> S -> Prop) : Q v s -> hoare (E := E) I (tret (Ok v)) s Q.
Proof. done. Qed.
Lemma hoare_done_bind {A B} (v : A) (k : A -> Tx S E B) s (I : S -> Prop) (Q : B -> S -> Prop) :
  hoare I (k v) s Q -> hoare I (tbind (tret (Ok v)) k) s Q.
Proof. done. Qed.

Lemma hoare_any {A} (m : Tx S E A) s : hoare (fun _ => True) m s (fun _ _ => True).
Proof. unfold hoare. by destruct (m s) as [[a|e] s']. Qed.
Lemma hoare_fails {A B} (m : Tx S E A) (e : E) s (Q : B -> S -> Prop) : hoare (fun _ => True) (tbind m (fun _ => tret (Err e))) s Q.
Proof. unfold hoare, tbind. by destruct (m s) as [[a|e'] s']. Qed.

Definition returns {A} (m : Tx S E A) (s : S) : Prop := hoare (fun _ => False) m s (fun _ _ => True).
Lemma returns_with {A} (m : Tx S E A) s I Q : returns m s -> hoare I m s Q -> hoare (fun _ => False) m s Q.
Proof. unfold returns, hoare. by destruct (m s) as [[u|e] s']. Qed.
Lemma catch_unused {A} (m : Tx S E A) h s I Q : hoare (fun _ => False) m s Q -> hoare I (tcatch m h) s Q.
Proof. unfold hoare, tcatch. by destruct (m s) as [[u|e] s']. Qed.
Lemma returns_ok {A} (m : Tx S E A) s : returns m s -> exists v s', m s = (Ok v, s').
Proof. unfold returns, hoare. destruct (m s) as [[u|e] s']; [eauto|done]. Qed.
End Sure.

Lemma hoare_ok {S E A} (I : S -> Prop) (m : Tx S E A) d Q a d' :
  hoare I m d Q -> m d = (Ok a, d') -> Q a d'.
Proof. unfold hoare. intros Hm E1. by rewrite E1 in Hm. Qed.
Lemma hoare_state {S E A} (I : S -> Prop) (m : Tx S E A) d : hoare I m d (fun _ => I) -> I (m d).2.
Proof. unfold hoare. by destruct (m d) as [[a|e] d']. Qed.

(** *** Programs that only read *)

Definition reads {S E A} (m : Tx S E A) : Prop := forall d, (m d).2 = d.
Lemma reads_bind {S E A B} (m : Tx S E A) (k : A -> Tx S E B) : reads m -> (forall a, reads (k a)) -> reads (tbind m k).
Proof. intros Hm Hk d. unfold tbind. specialize (Hm d). destruct (m d) as [[a|e] d']; cbn in *; subst; [apply Hk|done]. Qed.
Lemma reads_ret {S E A} (r : result E A) : reads (S := S) (tret r).
Proof. done. Qed.
Lemma reads_query {S E A} fails (db : E) (f : S -> A) : reads (query_if fails db f).
Proof. done. Qed.
Lemma hoare_reads {S E A} (I : S -> Prop) (m : Tx S E A) d (Q : A -> S -> Prop) :
  reads m -> I d -> (forall a, m d = (Ok a, d) -> Q a d) -> hoare I m d Q.
Proof.
  intros Hm Hd HQ. unfold hoare. pose proof (Hm d) as E1. destruct (m d) as [[a|e] d']; cbn in E1; subst d'; [by apply HQ|done].
Qed.
Lemma hoare_read_bind {S E A B} (I : S -> Prop) (m : Tx S E A) (k : A -> Tx S E B) d (Q : B -> S -> Prop) :
  reads m -> I d -> (forall a, m d = (Ok a, d) -> hoare I (k a) d Q) -> hoare I (tbind m k) d Q.
Proof.
  intros Hm Hd Hk. eapply (hoare_bind _ _ _ _ (fun a d' => d' = d /\ m d = (Ok a, d))); [|intros a d' (-> & Ha); by apply Hk].
  apply hoare_reads; auto.
Qed.

(** *** Programs that move along a preorder, also when they fail *)

Section Moves.
Context {S E : Type} (R : S -> S -> Prop) {Rpre : PreOrder R}.

Definition moves {A} (m : Tx S E A) : Prop := forall d, R d (m d).2.

Lemma moves_reads {A} (m : Tx S E A) : reads m -> moves m.
Proof. intros Hm d. rewrite Hm. reflexivity. Qed.
Lemma moves_ret {A} (r : result E A) : moves (tret r).
Proof. intros d. reflexivity. Qed.
Lemma moves_bind {A B} (m : Tx S E A) (k : A -> Tx S E B) : moves m -> (forall a, moves (k a)) -> moves (tbind m k).
Proof.
  intros Hm Hk d. unfold tbind. specialize (Hm d). destruct (m d) as [[a|e] d']; cbn in *; [|done]. etrans; [exact Hm|apply Hk].
Qed.
Lemma moves_catch {A} (m : Tx S E A) h : moves m -> (forall e, moves (h e)) -> moves (tcatch m h).
Proof.
  intros Hm Hh d. unfold tcatch. specialize (Hm d). destruct (m d) as [[a|e] d']; cbn in *; [done|]. etrans; [exact Hm|apply Hh].
Qed.
Lemma moves_query {A} fails (db : E) (f : S -> A) : moves (query_if fails db f).
Proof. apply moves_reads, reads_query. Qed.
Lemma moves_execute fails (db : E) f : (forall d d', f d = Some d' -> R d d') -> moves (execute_if fails db f).
Proof. intros Hf d. unfold execute_if. destruct fails; [reflexivity|]. destruct (f d) eqn:Ef; [by apply Hf|reflexivity]. Qed.
Lemma moves_atomically {A} fails (db : E) (m : Tx S E A) : moves m -> moves (atomically fails db m).
Proof.
  intros Hm d. unfold atomically. specialize (Hm d). destruct (m d) as [[a|e] d']; cbn in *; [|reflexivity]. by destruct fails.
Qed.
Lemma moves_for_each {A} (f : A -> Tx S E unit) xs : (forall x, moves (f x)) -> moves (tx_for_each f xs).
Proof. intros Hf. induction xs as [|x xs IH]; cbn [tx_for_each]; [apply moves_ret|]. by apply moves_bind. Qed.
End Moves.

Lemma rtc_inv {A} (R : A -> A -> Prop) (P : A -> Prop) x y :
  (forall a b, P a -> R a b -> P b) -> rtc R x y -> P x -> P y.
Proof. intros HP. induction 1; eauto. Qed.

(** ** Rows *)

Lemma find_row {A} (P : A -> Prop) `{!forall x, Decision (P x)} (l : list A) x :
  find (fun r => bool_decide (P r)) l = Some x -> x ∈ l /\ P x.
Proof.
  intros (Hin & Hp)%find_some. apply bool_decide_eq_true in Hp. split; [by apply list_elem_of_In|done].
Qed.

Lemma fmap_same {A B} (f : A -> A) (g : A -> B) (l : list A) :
  (forall x, g (f x) = g x) -> g <$> (f <$> l) = g <$> l.
Proof. intros E. rewrite <- list_fmap_compose. apply list_fmap_ext. intros i x _. apply E. Qed.

Lemma NoDup_snoc {A} (x : A) l : NoDup l -> x ∉ l -> NoDup (l ++ [x]).
Proof. intros Hl Hx. apply NoDup_app. split; [done|]. split; [set_solver|apply NoDup_singleton]. Qed.

(** Rows are determined by a unique column. *)
Lemma key_unique {A B} (f : A -> B) (l : list A) x y :
  NoDup (f <$> l) -> x ∈ l -> y ∈ l -> f x = f y -> x = y.
Proof.
  intros Hn (i & Hi)%list_elem_of_lookup (j & Hj)%list_elem_of_lookup E.
  assert (i = j) as ->; [|congruence]. eapply (NoDup_lookup (f <$> l)); [done| |];
    rewrite list_lookup_fmap, ?Hi, ?Hj; simpl; by rewrite ?E.
Qed.
Lemma find_unique {A B} `{EqDecision B} (f : A -> B) (l : list A) x :
  NoDup (f <$> l) -> x ∈ l -> find (fun r => bool_decide (f r = f x)) l = Some x.
Proof.
  intros Hn Hx. destruct (find _ l) as [y|] eqn:E.
  - apply find_row in E as (Hy & E). by rewrite (key_unique f l y x).
  - eapply find_none in E; [|by apply list_elem_of_In]. by rewrite bool_decide_true in E.
Qed.
