(* ===== verification/Lagrange.v ===== *)
(** * Polynomial interpolation over a field

    The algebra behind Shamir's scheme, for any field given by the operations
    of a [field_theory]: coefficient lists evaluated by Horner's rule, division
    by a linear factor, the bound on the number of roots, Lagrange
    interpolation and the bijection between coefficient vectors and values.
    Shamir.v instantiates it with the byte field of
    src/crates/crypto/src/shamir.rs. *)

From Stdlib Require Import List Ring Field Lia PeanoNat.
Import ListNotations.

Section Interpolation.
Context {F : Type} (rO rI : F) (radd rmul rsub : F -> F -> F) (ropp : F -> F)
        (rdiv : F -> F -> F) (rinv : F -> F).
Context (Fth : field_theory rO rI radd rmul rsub ropp rdiv rinv (@eq F)).

Add Field Ffield : Fth.

Local Infix "+" := radd.
Local Infix "*" := rmul.
Local Infix "-" := rsub.
Local Infix "/" := rdiv.
Local Notation "0" := rO.
Local Notation "1" := rI.

(** Horner evaluation, constant coefficient first. *)
Fixpoint peval (p : list F) (x : F) : F :=
  match p with
  | [] => 0
  | c :: q => c + x * peval q x
  end.

Fixpoint padd (p q : list F) : list F :=
  match p, q with
  | [], _ => q
  | _, [] => p
  | a :: p', b :: q' => (a + b) :: padd p' q'
  end.

Definition pscale (k : F) (p : list F) : list F := map (rmul k) p.

(** Multiplication by [X - a]. *)
Definition pmul_lin (a : F) (p : list F) : list F := padd (0 :: p) (pscale (ropp a) p).

(** Quotient of the division by [X - a]. *)
Fixpoint quot (a : F) (p : list F) : list F :=
  match p with
  | [] => []
  | _ :: q => match q with [] => [] | _ :: _ => peval q a :: quot a q end
  end.

Lemma peval_padd p q x : peval (padd p q) x = peval p x + peval q x.
Proof.
  revert q; induction p as [|a p IH]; intros [|b q]; simpl; try ring.
  rewrite IH. ring.
Qed.

Lemma peval_pscale k p x : peval (pscale k p) x = k * peval p x.
Proof. induction p as [|a p IH]; simpl; [ring|]. rewrite IH. ring. Qed.

Lemma peval_pmul_lin a p x : peval (pmul_lin a p) x = (x - a) * peval p x.
Proof. unfold pmul_lin. rewrite peval_padd, peval_pscale. simpl. ring. Qed.

Lemma peval_zeros n x : peval (repeat 0 n) x = 0.
Proof. induction n as [|n IH]; simpl; [reflexivity|]. rewrite IH. ring. Qed.

Lemma peval_app_zeros p n x : peval (p ++ repeat 0 n) x = peval p x.
Proof. induction p as [|a p IH]; simpl; [apply peval_zeros|]. now rewrite IH. Qed.

Lemma peval_all_zero p x : Forall (eq 0) p -> peval p x = 0.
Proof.
  induction 1 as [|c q E _ IH]; simpl; [reflexivity|]. rewrite <- E, IH. ring.
Qed.

Lemma padd_opp_zero p : forall q,
  length p = length q -> Forall (eq 0) (padd p (pscale (ropp 1) q)) -> p = q.
Proof.
  induction p as [|a p IH]; intros [|b q] Heq Hz; simpl in *; try discriminate.
  - reflexivity.
  - apply Forall_cons_iff in Hz as [H1 H2]. f_equal; [|apply IH; [congruence|exact H2]].
    replace a with ((a + ropp 1 * b) + b) by ring. rewrite <- H1. ring.
Qed.

Lemma length_padd p q : length (padd p q) = Nat.max (length p) (length q).
Proof.
  revert q; induction p as [|a p IH]; intros [|b q]; simpl; try reflexivity.
  now rewrite IH.
Qed.

Lemma length_pmul_lin a p : length (pmul_lin a p) = S (length p).
Proof. unfold pmul_lin, pscale. rewrite length_padd, length_map. cbn [length]. lia. Qed.

Lemma length_quot a p : length (quot a p) = pred (length p).
Proof.
  induction p as [|c [|d q] IH]; simpl in *; try reflexivity. now rewrite IH.
Qed.

Lemma quot_spec a p x : peval p x = peval p a + (x - a) * peval (quot a p) x.
Proof.
  induction p as [|c q IH]; [simpl; ring|].
  destruct q as [|d q']; [simpl; ring|].
  change (peval (c :: d :: q') x) with (c + x * peval (d :: q') x).
  change (quot a (c :: d :: q')) with (peval (d :: q') a :: quot a (d :: q')).
  change (peval (c :: d :: q') a) with (c + a * peval (d :: q') a).
  cbn [peval] in IH |- *. rewrite IH at 1. ring.
Qed.

Lemma quot_zero a p :
  Forall (eq 0) (quot a p) -> Forall (eq 0) (tl p).
Proof.
  induction p as [|c q IH]; intros H; simpl; [constructor|].
  destruct q as [|d q']; [constructor|].
  change (quot a (c :: d :: q')) with (peval (d :: q') a :: quot a (d :: q')) in H.
  apply Forall_cons_iff in H as [H1 H2]. specialize (IH H2). simpl in IH.
  constructor; [|exact IH].
  rewrite H1. simpl. rewrite (peval_all_zero q') by exact IH. ring.
Qed.

Lemma mul_zero_cancel a b : a <> 0 -> a * b = 0 -> b = 0.
Proof.
  intros Ha H. replace b with ((1 / a) * (a * b)) by (field; exact Ha).
  rewrite H. field. exact Ha.
Qed.

Lemma sub_nonzero a b : a <> b -> a - b <> 0.
Proof.
  intros H E. apply H. replace a with ((a - b) + b) by ring. rewrite E. ring.
Qed.

(** A polynomial with at least as many distinct roots as coefficients is zero. *)
Lemma roots_zero xs : forall p,
  NoDup xs -> (length p <= length xs)%nat ->
  (forall x, In x xs -> peval p x = 0) -> Forall (eq 0) p.
Proof.
  induction xs as [|a xs IH]; intros p Hnd Hlen Hroot.
  - destruct p; [constructor | simpl in Hlen; lia].
  - apply NoDup_cons_iff in Hnd as [Hin Hnd'].
    assert (Hq : Forall (eq 0) (quot a p)).
    { apply IH; [exact Hnd' | rewrite length_quot; simpl in Hlen; lia |].
      intros x Hx. apply (mul_zero_cancel (x - a)).
      - apply sub_nonzero. intros ->. contradiction.
      - pose proof (quot_spec a p x) as E.
        rewrite (Hroot x), (Hroot a) in E by (simpl; auto).
        rewrite E. ring. }
    destruct p as [|c q]; [constructor|].
    pose proof (quot_zero _ _ Hq) as Ht. simpl in Ht.
    constructor; [|exact Ht].
    pose proof (Hroot a (or_introl eq_refl)) as E. simpl in E.
    rewrite (peval_all_zero q) in E by exact Ht.
    replace (c + a * 0) with c in E by ring. now symmetry.
Qed.

(** Two polynomials of [length xs] coefficients that agree on the distinct
    points [xs] are equal. *)
Lemma peval_inj xs p q :
  NoDup xs -> length p = length q -> (length p <= length xs)%nat ->
  (forall x, In x xs -> peval p x = peval q x) -> p = q.
Proof.
  intros Hnd Heq Hlen Hag.
  assert (Hz : Forall (eq 0) (padd p (pscale (ropp 1) q))).
  { apply (roots_zero xs); [exact Hnd | |].
    - rewrite length_padd. unfold pscale. rewrite length_map. lia.
    - intros x Hx. rewrite peval_padd, peval_pscale, (Hag x Hx). ring. }
  now apply padd_opp_zero.
Qed.

(** Lagrange's basis: the product over [others] of [(x - xk) / (xj - xk)]. *)
Definition lag_basis (xj : F) (others : list F) (x : F) : F :=
  fold_right (fun xk acc => ((x - xk) / (xj - xk)) * acc) 1 others.

Lemma lag_basis_cons xj a others x :
  lag_basis xj (a :: others) x = ((x - a) / (xj - a)) * lag_basis xj others x.
Proof. reflexivity. Qed.

Lemma lag_basis_app xj l1 l2 x :
  lag_basis xj (l1 ++ l2) x = lag_basis xj l1 x * lag_basis xj l2 x.
Proof.
  induction l1 as [|a l1 IH].
  - simpl app. unfold lag_basis at 2. simpl. ring.
  - simpl app. rewrite !lag_basis_cons, IH. ring.
Qed.

Definition is_poly (n : nat) (f : F -> F) : Prop :=
  exists p, length p = n /\ forall x, peval p x = f x.

Lemma is_poly_weaken n m f : (n <= m)%nat -> is_poly n f -> is_poly m f.
Proof.
  intros Hnm (p & Hl & He). exists (p ++ repeat 0 (Nat.sub m n)). split.
  - rewrite length_app, repeat_length. lia.
  - intros x. now rewrite peval_app_zeros.
Qed.

Lemma is_poly_add n f g :
  is_poly n f -> is_poly n g -> is_poly n (fun x => f x + g x).
Proof.
  intros (p & Hp & Ep) (q & Hq & Eq). exists (padd p q). split.
  - rewrite length_padd. lia.
  - intros x. now rewrite peval_padd, Ep, Eq.
Qed.

Lemma is_poly_scale n k f : is_poly n f -> is_poly n (fun x => k * f x).
Proof.
  intros (p & Hp & Ep). exists (pscale k p). split.
  - unfold pscale. now rewrite length_map.
  - intros x. now rewrite peval_pscale, Ep.
Qed.

Lemma lag_basis_poly xj others :
  ~ In xj others -> is_poly (S (length others)) (lag_basis xj others).
Proof.
  induction others as [|a others IH]; intros Hni.
  - exists [1]. split; [reflexivity|]. intros x; unfold lag_basis; simpl; ring.
  - destruct IH as (p & Hp & Ep); [simpl in Hni; tauto|].
    exists (pscale (1 / (xj - a)) (pmul_lin a p)). split.
    + unfold pscale. rewrite length_map, length_pmul_lin. now rewrite Hp.
    + intros x. rewrite peval_pscale, peval_pmul_lin, Ep, lag_basis_cons. field.
      apply sub_nonzero. intros ->. apply Hni. now left.
Qed.

Lemma lag_basis_self xj others : ~ In xj others -> lag_basis xj others xj = 1.
Proof.
  induction others as [|a others IH]; intros Hni; [reflexivity|].
  rewrite lag_basis_cons, IH by (simpl in Hni; tauto). field.
  apply sub_nonzero. intros ->. apply Hni. now left.
Qed.

Lemma lag_basis_other xj others x :
  ~ In xj others -> In x others -> lag_basis xj others x = 0.
Proof.
  induction others as [|a others IH]; intros Hni Hin; [contradiction|].
  rewrite lag_basis_cons.
  assert (Hne : xj - a <> 0) by (apply sub_nonzero; intros ->; apply Hni; now left).
  destruct Hin as [->|Hin].
  - field. exact Hne.
  - rewrite IH by (auto; simpl in Hni; tauto). field. exact Hne.
Qed.

(** The interpolating sum over the points [pre ++ post], where [post] remains
    to be summed; each point uses all the others. *)
Fixpoint interp (pre post : list (F * F)) (x : F) : F :=
  match post with
  | [] => 0
  | (xj, yj) :: rest =>
      yj * lag_basis xj (map fst pre ++ map fst rest) x
      + interp (pre ++ [(xj, yj)]) rest x
  end.

Lemma NoDup_mid_not_in (a : F) l1 l2 : NoDup (l1 ++ a :: l2) -> ~ In a (l1 ++ l2).
Proof. intros H. apply NoDup_remove_2 in H. exact H. Qed.

Lemma interp_shift (pre : list (F * F)) xj yj rest :
  map fst ((pre ++ [(xj, yj)]) ++ rest) = map fst (pre ++ (xj, yj) :: rest).
Proof. rewrite <- app_assoc. reflexivity. Qed.

Lemma interp_poly post : forall pre,
  NoDup (map fst (pre ++ post)) -> post <> [] ->
  is_poly (length (pre ++ post)) (interp pre post).
Proof.
  induction post as [|(xj, yj) rest IH]; intros pre Hnd Hne; [congruence|]. simpl.
  assert (Hni : ~ In xj (map fst pre ++ map fst rest)).
  { apply NoDup_mid_not_in. now rewrite map_app in Hnd. }
  apply is_poly_add.
  - apply is_poly_scale.
    eapply is_poly_weaken; [|apply (lag_basis_poly xj _ Hni)].
    rewrite !length_app, !length_map. simpl. lia.
  - destruct rest as [|r rest'].
    + simpl. exists (repeat 0 (length (pre ++ [(xj, yj)]))). split.
      * apply repeat_length.
      * intros x. apply peval_zeros.
    + eapply is_poly_weaken; [|apply IH; [|discriminate]].
      * rewrite !length_app. simpl. lia.
      * now rewrite interp_shift.
Qed.

Lemma interp_zero_at post : forall pre x,
  NoDup (map fst (pre ++ post)) -> In x (map fst pre) -> interp pre post x = 0.
Proof.
  induction post as [|(xj, yj) rest IH]; intros pre x Hnd Hin; simpl; [reflexivity|].
  rewrite lag_basis_other.
  - rewrite IH; [ring | now rewrite interp_shift |].
    rewrite map_app. apply in_or_app. now left.
  - apply NoDup_mid_not_in. now rewrite map_app in Hnd.
  - apply in_or_app. now left.
Qed.

Lemma interp_at post : forall pre x y,
  NoDup (map fst (pre ++ post)) -> In (x, y) post -> interp pre post x = y.
Proof.
  induction post as [|(xj, yj) rest IH]; intros pre x y Hnd Hin; simpl; [contradiction|].
  assert (Hni : ~ In xj (map fst pre ++ map fst rest)).
  { apply NoDup_mid_not_in. now rewrite map_app in Hnd. }
  destruct Hin as [[= -> ->]|Hin].
  - rewrite lag_basis_self by exact Hni.
    rewrite interp_zero_at; [ring | now rewrite interp_shift |].
    rewrite map_app. apply in_or_app. right. now left.
  - rewrite lag_basis_other; [| exact Hni |].
    + rewrite (IH _ x y); [ring | now rewrite interp_shift | exact Hin].
    + apply in_or_app. right. apply in_map_iff. now exists (x, y).
Qed.

(** Interpolation at [x0] of a polynomial sampled at enough distinct points. *)
Lemma interp_peval p pts x0 :
  NoDup (map fst pts) -> (length p <= length pts)%nat -> pts <> [] ->
  (forall x y, In (x, y) pts -> peval p x = y) ->
  interp [] pts x0 = peval p x0.
Proof.
  intros Hnd Hlen Hne Hval.
  destruct (interp_poly pts [] Hnd Hne) as (q & Hq & Eq). simpl in Hq.
  rewrite <- Eq, <- (peval_app_zeros p (Nat.sub (length pts) (length p))).
  f_equal. apply (peval_inj (map fst pts)); [exact Hnd | | |].
  - rewrite length_app, repeat_length. lia.
  - rewrite length_map. lia.
  - intros x Hx. apply in_map_iff in Hx as ((x', y) & <- & Hin). simpl.
    rewrite Eq, peval_app_zeros, (Hval _ _ Hin). now apply interp_at.
Qed.

(** For fixed distinct nonzero points there is exactly one choice of the
    non-constant coefficients that maps a given constant to given values. *)
Lemma coefficients_bijection s pts :
  NoDup (map fst pts) -> ~ In 0 (map fst pts) ->
  exists! cs, length cs = length pts /\
              forall x y, In (x, y) pts -> peval (s :: cs) x = y.
Proof.
  intros Hnd H0.
  set (pts' := (0, s) :: pts).
  assert (Hnd' : NoDup (map fst pts')) by (simpl; constructor; assumption).
  destruct (interp_poly pts' [] Hnd') as (p & Hp & Ep); [discriminate|].
  simpl in Hp. destruct p as [|c cs]; [discriminate|].
  assert (Hc : c = s).
  { pose proof (Ep 0) as E. rewrite (interp_at pts' [] 0 s) in E;
      [|exact Hnd'|now left]. simpl in E. rewrite <- E. ring. }
  subst c. exists cs. split.
  - split; [simpl in Hp; lia|]. intros x y Hin. rewrite Ep.
    apply (interp_at pts' [] x y); [exact Hnd' | now right].
  - intros cs' (Hl & He).
    assert (E : s :: cs = s :: cs'); [|now injection E].
    apply (peval_inj (map fst pts')); [exact Hnd' | simpl in *; lia | |].
    + simpl in *. rewrite length_map. lia.
    + intros x Hx. simpl in Hx. destruct Hx as [<-|Hx]; [simpl; ring|].
      apply in_map_iff in Hx as ((x', y) & <- & Hin). simpl fst.
      rewrite (He _ _ Hin), Ep. apply (interp_at pts' [] x' y); [exact Hnd' | now right].
Qed.
End Interpolation.
