(* ===== verification/Errors.v ===== *)
(** * Error enums

    One inductive type per error enum of the crates, with the source's variants
    and fields.  Diagnostic messages are kept where the source builds them from
    literals and integers; a wrapped error of another crate keeps its value. *)

From S2P Require Import Prelude.

(** [CryptoError] of src/crates/crypto/src/error.rs. *)
Inductive CryptoError : Type :=
| AuthTagVerificationFailed
| InvalidKeyLength (expected actual : Z)
| InvalidNonceLength (expected actual : Z)
| InvalidKdfContext
| SignatureVerificationFailed
| SealedBoxPayloadTooShort (min_len : Z)
| NonContributoryKeyAgreement
| PasswordHashError (msg : string)
| RngError (msg : string)
| HsmError (msg : string)
| ThresholdError (msg : string).

(** [FormatError] of src/crates/format/src/error.rs. *)
Inductive FormatError : Type :=
| SerializationError (msg : string)
| DeserializationError (msg : string)
| MalformedRecord (msg : string)
| SizeLimitExceeded (limit actual : Z)
| FormatCrypto (e : CryptoError).

(** [SnapshotError] of src/crates/snapshot/src/error.rs; I/O errors of the
    operating system are carried as text. *)
Inductive SnapshotError : Type :=
| IoError (msg : string)
| ConcurrentModification (path : str)
| UnsafePath (msg : str)
| FileTooLarge (path : str) (size : Z)
| IntegrityMismatch (path expected actual : str)
| MissingChunk (path chunk_cid : str)
| SnapshotCrypto (e : CryptoError)
| SnapshotFormat (e : FormatError)
| InvalidInput (msg : str).

(** [StorageError] of src/crates/storage/src/error.rs; a transport error of the
    HTTP client is carried as text. *)
Inductive StorageError : Type :=
| HttpError (msg : string)
| ServerError (status : Z) (message : str)
| DigestMismatch (cid expected actual : str)
| InvalidReceiptSignature
| StorageFormat (e : FormatError)
| StorageCrypto (e : CryptoError)
| QuorumDeficit (required successful : Z)
| OperatorUnreachable (endpoint details : str).

#[global] Instance CryptoError_eq_dec : EqDecision CryptoError.
Proof. solve_decision. Defined.
#[global] Instance FormatError_eq_dec : EqDecision FormatError.
Proof. solve_decision. Defined.
#[global] Instance SnapshotError_eq_dec : EqDecision SnapshotError.
Proof. solve_decision. Defined.
#[global] Instance StorageError_eq_dec : EqDecision StorageError.
Proof. solve_decision. Defined.

(** ** [Display] of the errors (the [#[error]] attributes) *)

Definition display_crypto_error (e : CryptoError) : str :=
  match e with
  | AuthTagVerificationFailed => lit "Authentication tag verification failed: ciphertext or AAD tampered"
  | InvalidKeyLength expected actual =>
      lit "Invalid key length: expected " ++ show_Z expected ++ lit ", got " ++ show_Z actual
  | InvalidNonceLength expected actual =>
      lit "Invalid nonce length: expected " ++ show_Z expected ++ lit ", got " ++ show_Z actual
  | InvalidKdfContext => lit "KDF context must be exactly 8 bytes"
  | SignatureVerificationFailed => lit "Cryptographic signature verification failed"
  | SealedBoxPayloadTooShort min_len =>
      lit "Sealed box payload too short: minimum length " ++ show_Z min_len
  | NonContributoryKeyAgreement =>
      lit "Sealed box key agreement rejected a non-contributory X25519 public key"
  | PasswordHashError msg => lit "Argon2 password hashing error: " ++ lit msg
  | RngError msg => lit "Randomness generation error: " ++ lit msg
  | HsmError msg => lit "Hardware Security Module error: " ++ lit msg
  | ThresholdError msg => lit "Threshold secret sharing error: " ++ lit msg
  end.

Definition display_format_error (e : FormatError) : str :=
  match e with
  | SerializationError msg => lit "CBOR serialization failed: " ++ lit msg
  | DeserializationError msg => lit "CBOR deserialization failed: " ++ lit msg
  | MalformedRecord msg => lit "Malformed record: " ++ lit msg
  | SizeLimitExceeded limit actual =>
      lit "Size limit exceeded: expected at most " ++ show_Z limit ++ lit " bytes, got "
      ++ show_Z actual ++ lit " bytes"
  | FormatCrypto e => lit "Crypto error during format validation: " ++ display_crypto_error e
  end.

Definition display_snapshot_error (e : SnapshotError) : str :=
  match e with
  | IoError msg => lit "I/O error: " ++ lit msg
  | ConcurrentModification path => lit "File modified during capture: " ++ path
  | UnsafePath msg => lit "Path traversal or unsafe path rejected: " ++ msg
  | FileTooLarge path size =>
      lit "File exceeds MVP size limit (256 MiB): " ++ path ++ lit " (" ++ show_Z size ++ lit " bytes)"
  | IntegrityMismatch path expected actual =>
      lit "Plaintext SHA-256 mismatch for " ++ path ++ lit ": expected " ++ expected
      ++ lit ", actual " ++ actual
  | MissingChunk path chunk_cid => lit "Missing chunk " ++ chunk_cid ++ lit " for file " ++ path
  | SnapshotCrypto e => lit "Crypto error: " ++ display_crypto_error e
  | SnapshotFormat e => lit "Format error: " ++ display_format_error e
  | InvalidInput msg => lit "Invalid input: " ++ msg
  end.

Definition display_storage_error (e : StorageError) : str :=
  match e with
  | HttpError msg => lit "HTTP request failed: " ++ lit msg
  | ServerError status message => lit "Server returned error " ++ show_Z status ++ lit ": " ++ message
  | DigestMismatch cid expected actual =>
      lit "Digest mismatch for object " ++ cid ++ lit ": expected " ++ expected ++ lit ", got " ++ actual
  | InvalidReceiptSignature => lit "Invalid signature on operator receipt"
  | StorageFormat e => lit "Format error: " ++ display_format_error e
  | StorageCrypto e => lit "Crypto error: " ++ display_crypto_error e
  | QuorumDeficit required successful =>
      lit "Quorum deficit: required " ++ show_Z required ++ lit " operators, only " ++ show_Z successful
      ++ lit " succeeded"
  | OperatorUnreachable endpoint details => lit "Operator unreachable: " ++ endpoint ++ lit " (" ++ details ++ lit ")"
  end.
