(* ===== verification/Primitives.v ===== *)
(** * Third-party primitives

    The crates the program links against are not part of the repository, so
    each is an interface: a class of operations and a class of laws that states
    documented behaviour of the crate.  No law idealises a primitive (a digest
    may collide, a signature may be forged): theorems that depend on such an
    event say so in their conclusion.

    - [Hex]: the hex crate ([hex::encode], [hex::decode]);
    - [Sha256], [Blake2b512], [HkdfSha256], [Argon2]: sha2, blake2, hkdf, argon2;
    - [XChaCha]: chacha20poly1305's [XChaCha20Poly1305];
    - [Ed25519], [X25519]: ed25519-dalek and x25519-dalek;
    - [Cbor]: ciborium's writer and reader at one record type. *)

From S2P Require Import Prelude.

(** Lowercase hexadecimal digits. *)
Definition is_lower_hex (c : Z) : bool :=
  is_ascii_digit c || ((97 <=? c) && (c <=? 102)).

Class Hex : Type := {
  hex_encode : bytes -> str;
  hex_decode : str -> result string bytes;
}.

Class HexLaws (H : Hex) : Prop := {
  hex_decode_encode : forall b, is_bytes b -> hex_decode (hex_encode b) = Ok b;
  hex_encode_digits : forall b, is_bytes b -> Forall (fun c => is_lower_hex c = true) (hex_encode b);
  hex_encode_length : forall b, is_bytes b -> length (hex_encode b) = (2 * length b)%nat;
  (** Both letter cases decode; decoding determines the text up to case. *)
  hex_decode_lower : forall s b,
    hex_decode s = Ok b -> is_bytes b /\ to_ascii_lowercase <$> s = hex_encode b;
}.

Class Sha256 : Type := { sha256 : bytes -> bytes }.
Class Sha256Laws (H : Sha256) : Prop := {
  sha256_length : forall b, length (sha256 b) = 32%nat;
  sha256_bytes : forall b, is_bytes (sha256 b);
}.

(** Some two inputs that collide: an alternative only for statements that assume nothing of the function, so that they hold
    without it for an injective one.  A theorem under [Sha256Laws], by which two of all inputs collide, names the
    two that do. *)
Definition sha256_collision `{Sha256} : Prop :=
  exists x y, x <> y /\ sha256 x = sha256 y.

Class Blake2b512 : Type := { blake2b512 : bytes -> bytes }.
Class Blake2b512Laws (H : Blake2b512) : Prop := {
  blake2b512_length : forall b, length (blake2b512 b) = 64%nat;
  blake2b512_bytes : forall b, is_bytes (blake2b512 b);
}.

Class HkdfSha256 : Type := { hkdf_expand : bytes -> bytes -> bytes -> nat -> bytes }.
Class HkdfSha256Laws (H : HkdfSha256) : Prop := {
  hkdf_length : forall salt ikm info n, length (hkdf_expand salt ikm info n) = n;
  hkdf_bytes : forall salt ikm info n, is_bytes (hkdf_expand salt ikm info n);
}.

(** [derive_key_from_password]'s backend: password, salt. *)
Class Argon2 : Type := { argon2id : bytes -> bytes -> result string bytes }.

(** Encryption fails only for messages the cipher cannot address. *)
Class XChaCha : Type := {
  xchacha_encrypt : bytes -> bytes -> bytes -> bytes -> option bytes; (* key nonce aad msg *)
  xchacha_decrypt : bytes -> bytes -> bytes -> bytes -> option bytes; (* key nonce aad ct *)
}.
Class XChaChaLaws (X : XChaCha) : Prop := {
  xchacha_roundtrip : forall k n a m c,
    xchacha_encrypt k n a m = Some c -> xchacha_decrypt k n a c = Some m;
  (** Decryption accepts only the encryption of what it returns. *)
  xchacha_sound : forall k n a c m,
    xchacha_decrypt k n a c = Some m -> xchacha_encrypt k n a m = Some c;
  xchacha_length : forall k n a m c,
    xchacha_encrypt k n a m = Some c -> length c = (length m + 16)%nat;
}.

(** Signing keys are their 32-byte seeds. *)
Class Ed25519 : Type := {
  verifying_key : bytes -> bytes;
  vk_from_bytes_ok : bytes -> bool;
  ed_sign : bytes -> bytes -> bytes;
  ed_verify : bytes -> bytes -> bytes -> bool; (* key message signature *)
}.
Class Ed25519Laws (S : Ed25519) : Prop := {
  verifying_key_length : forall sk, length (verifying_key sk) = 32%nat;
  verifying_key_bytes : forall sk, is_bytes (verifying_key sk);
  verifying_key_ok : forall sk, vk_from_bytes_ok (verifying_key sk) = true;
  ed_sign_length : forall sk m, length (ed_sign sk m) = 64%nat;
  ed_sign_bytes : forall sk m, is_bytes (ed_sign sk m);
  ed_sign_verify : forall sk m, ed_verify (verifying_key sk) m (ed_sign sk m) = true;
}.

Class X25519 : Type := {
  x_public : bytes -> bytes;
  x_dh : bytes -> bytes -> bytes;
  was_contributory : bytes -> bool;
}.
Class X25519Laws (X : X25519) : Prop := {
  x_public_length : forall sk, length (x_public sk) = 32%nat;
  x_public_bytes : forall sk, is_bytes (x_public sk);
  x_dh_comm : forall a b, x_dh a (x_public b) = x_dh b (x_public a);
}.

Class Cbor (T : Type) : Type := {
  cbor_write : T -> result string bytes;
  cbor_read : bytes -> result string T;
}.
Class CborLaws (T : Type) (C : Cbor T) : Prop := {
  cbor_roundtrip : forall (v : T) b, cbor_write v = Ok b -> cbor_read b = Ok v;
}.

Section HexFacts.
Context {HX : Hex} {HL : HexLaws HX}.

Lemma lower_hex_fixed c : is_lower_hex c = true -> to_ascii_lowercase c = c.
Proof.
  unfold is_lower_hex, is_ascii_digit, to_ascii_lowercase, is_ascii_uppercase.
  intros H. destruct ((65 <=? c) && (c <=? 90)) eqn:E; [lia|reflexivity].
Qed.

Lemma hex_encode_fixed b :
  is_bytes b -> to_ascii_lowercase <$> hex_encode b = hex_encode b.
Proof.
  intros Hb. rewrite <- (list_fmap_id (hex_encode b)) at 2.
  apply Forall_fmap_ext. eapply Forall_impl; [apply hex_encode_digits, Hb|].
  simpl; intros c Hc. by apply lower_hex_fixed.
Qed.

Lemma hex_encode_inj a b :
  is_bytes a -> is_bytes b -> hex_encode a = hex_encode b -> a = b.
Proof.
  intros Ha Hb H. pose proof (hex_decode_encode a Ha) as E.
  rewrite H, hex_decode_encode in E by exact Hb. by injection E.
Qed.
End HexFacts.
