(* ===== verification/SamplePrimitives.v ===== *)
(** * Sample instances of the third-party interfaces

    Executable functions that satisfy the laws of Primitives.v.  They show that
    the laws are consistent and let the examples of the other files run; they
    are not the algorithms of the crates (except hex, which is the encoding
    itself). *)

From S2P Require Import Prelude Primitives.

(** Cuts or zero-pads a buffer to [n] bytes. *)
Definition fit (n : nat) (b : bytes) : bytes :=
  wrap8 <$> take n (b ++ replicate n 0).

Lemma fit_length n b : length (fit n b) = n.
Proof. unfold fit. len_solve. Qed.

Lemma fit_bytes n b : is_bytes (fit n b).
Proof.
  unfold fit, is_bytes. apply Forall_fmap, Forall_true. intros z.
  unfold compose, is_u8, wrap8. pose proof (Z.mod_pos_bound z 256). lia.
Qed.

(** A rolling checksum spread over [n] bytes. *)
Definition checksum (seed : Z) (b : bytes) : Z :=
  foldl (fun acc x => (acc * 257 + x + 1) mod 4294967291) seed b.
Definition digest_n (n : nat) (b : bytes) : bytes :=
  fit n (to_le_bytes 4 (checksum 7 b) ++ to_le_bytes 4 (checksum 77 b)).

(** ** hex *)

Definition hex_digit (n : Z) : Z := if n <? 10 then 48 + n else 87 + n.
Definition hex_value (c : Z) : option Z :=
  if is_ascii_digit c then Some (c - 48)
  else if (97 <=? c) && (c <=? 102) then Some (c - 87)
  else if (65 <=? c) && (c <=? 70) then Some (c - 55)
  else None.

Definition sample_hex_encode (b : bytes) : str :=
  b ≫= (fun x => [hex_digit (x / 16); hex_digit (x mod 16)]).
Fixpoint sample_hex_decode (s : str) : result string bytes :=
  match s with
  | [] => Ok []
  | [_] => Err "Odd number of digits"%string
  | a :: b :: rest =>
      match hex_value a, hex_value b with
      | Some x, Some y => let? t := sample_hex_decode rest in Ok (16 * x + y :: t)
      | _, _ => Err "Invalid character"%string
      end
  end.

#[global] Instance sample_hex : Hex :=
  {| hex_encode := sample_hex_encode; hex_decode := sample_hex_decode |}.

Definition nibble_ok (x : Z) : bool :=
  match hex_value (hex_digit (x / 16)), hex_value (hex_digit (x mod 16)) with
  | Some a, Some b => 16 * a + b =? x
  | _, _ => false
  end.

Lemma nibble_ok_all x : is_u8 x -> nibble_ok x = true.
Proof. apply byte_forall. vm_compute. reflexivity. Qed.

Lemma hex_value_digit c v :
  hex_value c = Some v -> 0 <= v < 16 /\ to_ascii_lowercase c = hex_digit v.
Proof.
  unfold hex_value, is_ascii_digit, to_ascii_lowercase, is_ascii_uppercase, hex_digit.
  destruct ((48 <=? c) && (c <=? 57)) eqn:E1; [|
  destruct ((97 <=? c) && (c <=? 102)) eqn:E2; [|
  destruct ((65 <=? c) && (c <=? 70)) eqn:E3; [|done]]];
  intros [= <-]; destruct ((65 <=? c) && (c <=? 90)) eqn:E4;
  destruct (_ <? 10) eqn:E5; split; lia.
Qed.

Lemma sample_hex_decode_lower s : forall b,
  sample_hex_decode s = Ok b ->
  is_bytes b /\ to_ascii_lowercase <$> s = sample_hex_encode b.
Proof.
  remember (length s) as n eqn:Hn. revert s Hn.
  induction n as [n IH] using lt_wf_ind. intros s -> b.
  destruct s as [|c1 [|c2 s]]; cbn [sample_hex_decode].
  - intros [= <-]. split; [constructor|done].
  - discriminate.
  - destruct (hex_value c1) as [x|] eqn:E1; [|done].
    destruct (hex_value c2) as [y|] eqn:E2; [|done].
    rewrite res_bind_ok. intros (t & Ht & [= <-]).
    apply hex_value_digit in E1 as (Hx & E1), E2 as (Hy & E2).
    rewrite !fmap_cons, E1, E2.
    destruct (IH (length s)) with (s := s) (b := t) as (Hb & Hs); [simpl; lia|done|done|].
    rewrite Hs. unfold sample_hex_encode. rewrite bind_cons. cbn [app].
    replace ((16 * x + y) / 16) with x by (rewrite Z.mul_comm, Z.div_add_l by lia;
      rewrite Z.div_small by lia; lia).
    replace ((16 * x + y) mod 16) with y by
      (rewrite Z.add_comm, Z.mul_comm, Z_mod_plus_full, Z.mod_small by lia; lia).
    split; [constructor; [unfold is_u8; lia|exact Hb]|done].
Qed.

#[global] Instance sample_hex_laws : HexLaws sample_hex.
Proof.
  split; simpl.
  - induction b as [|x b IH]; intros Hb; [done|].
    apply Forall_cons in Hb as (Hx & Hb). unfold sample_hex_encode. rewrite bind_cons.
    simpl. pose proof (nibble_ok_all x Hx) as E. unfold nibble_ok in E.
    destruct (hex_value _) as [u|]; [|done]. destruct (hex_value _) as [v|]; [|done].
    apply Z.eqb_eq in E. unfold sample_hex_encode in IH. rewrite IH by exact Hb.
    simpl. by rewrite E.
  - induction b as [|x b IH]; intros Hb; [constructor|].
    apply Forall_cons in Hb as (Hx & Hb). unfold sample_hex_encode. rewrite bind_cons.
    simpl. assert (forall v, 0 <= v < 16 -> is_lower_hex (hex_digit v) = true) as Hd.
    { intros v Hv. unfold is_lower_hex, hex_digit, is_ascii_digit.
      destruct (v <? 10) eqn:E; lia. }
    unfold is_u8 in Hx. repeat constructor; [| |apply IH, Hb]; apply Hd.
    + split; [apply Z.div_pos; lia | apply Z.div_lt_upper_bound; lia].
    + apply Z.mod_pos_bound; lia.
  - induction b as [|x b IH]; intros Hb; [done|].
    apply Forall_cons in Hb as (Hx & Hb). unfold sample_hex_encode in *. rewrite bind_cons.
    simpl. rewrite IH by exact Hb. lia.
  - apply sample_hex_decode_lower.
Qed.

(** ** Digests and key derivation *)

#[global] Instance sample_sha256 : Sha256 := {| sha256 := digest_n 32 |}.
#[global] Instance sample_sha256_laws : Sha256Laws sample_sha256.
Proof. split; intros; [apply fit_length | apply fit_bytes]. Qed.

#[global] Instance sample_blake2b512 : Blake2b512 := {| blake2b512 := digest_n 64 |}.
#[global] Instance sample_blake2b512_laws : Blake2b512Laws sample_blake2b512.
Proof. split; intros; [apply fit_length | apply fit_bytes]. Qed.

#[global] Instance sample_hkdf : HkdfSha256 :=
  {| hkdf_expand := fun salt ikm info n => digest_n n (salt ++ ikm ++ info) |}.
#[global] Instance sample_hkdf_laws : HkdfSha256Laws sample_hkdf.
Proof. split; intros; [apply fit_length | apply fit_bytes]. Qed.

#[global] Instance sample_argon2 : Argon2 :=
  {| argon2id := fun pw salt => Ok (digest_n 32 (pw ++ salt)) |}.

(** ** XChaCha20-Poly1305 *)

Definition sample_tag (k n a m : bytes) : bytes := digest_n 16 (k ++ n ++ a ++ m).
Definition sample_decrypt (k n a c : bytes) : option bytes :=
  let m := take (length c - 16) c in
  if bool_decide (16 <= length c)%nat && bool_decide (drop (length c - 16) c = sample_tag k n a m)
  then Some m else None.
#[global] Instance sample_xchacha : XChaCha :=
  {| xchacha_encrypt := fun k n a m => Some (m ++ sample_tag k n a m);
     xchacha_decrypt := sample_decrypt |}.

Lemma sample_tag_length k n a m : length (sample_tag k n a m) = 16%nat.
Proof. apply fit_length. Qed.

#[global] Instance sample_xchacha_laws : XChaChaLaws sample_xchacha.
Proof.
  split; simpl.
  - intros k n a m c [= <-]. unfold sample_decrypt.
    rewrite length_app, sample_tag_length.
    replace (length m + 16 - 16)%nat with (length m) by lia.
    rewrite take_app_length, drop_app_length.
    rewrite !bool_decide_true by (lia || done). done.
  - intros k n a c m. unfold sample_decrypt. case_match eqn:E; [|done].
    intros [= <-]. bool_prop. f_equal.
    match goal with H : drop _ _ = _ |- _ => rewrite <- H end. apply take_drop.
  - intros k n a m c [= <-]. by rewrite length_app, sample_tag_length.
Qed.

(** ** Ed25519 and X25519 *)

#[global] Instance sample_ed25519 : Ed25519 :=
  {| verifying_key := fun sk => fit 32 sk;
     vk_from_bytes_ok := fun _ => true;
     ed_sign := fun sk m => fit 32 sk ++ digest_n 32 m;
     ed_verify := fun pk m s => bool_decide (s = pk ++ digest_n 32 m) |}.
#[global] Instance sample_ed25519_laws : Ed25519Laws sample_ed25519.
Proof.
  split; simpl; intros.
  - apply fit_length.
  - apply fit_bytes.
  - done.
  - unfold digest_n. by rewrite length_app, !fit_length.
  - apply Forall_app; split; apply fit_bytes.
  - by rewrite bool_decide_true.
Qed.

#[global] Instance sample_x25519 : X25519 :=
  {| x_public := fun sk => fit 32 sk;
     x_dh := fun sk pk => zip_with Z.lxor (fit 32 sk) (fit 32 pk);
     was_contributory := fun s => negb (bool_decide (s = replicate 32 0)) |}.

Lemma fit_idem n b : fit n (fit n b) = fit n b.
Proof.
  unfold fit at 1. rewrite take_app_le by (rewrite fit_length; lia).
  rewrite take_ge by (rewrite fit_length; lia).
  rewrite <- (list_fmap_id (fit n b)) at 2. apply Forall_fmap_ext.
  eapply Forall_impl; [apply fit_bytes|]. intros z Hz. unfold wrap8, is_u8 in *; simpl.
  rewrite Z.mod_small; [done|lia].
Qed.

#[global] Instance sample_x25519_laws : X25519Laws sample_x25519.
Proof.
  split; simpl; intros; [apply fit_length|apply fit_bytes|]. rewrite !fit_idem.
  generalize (fit 32 a) (fit 32 b). intros u; induction u as [|x u IH]; intros [|y v]; simpl;
    [done..|]. by rewrite IH, Z.lxor_comm.
Qed.
