(* ===== verification/Names.v ===== *)
(** * Identifiers and handles

    src/crates/format/src/scope.rs: the time-ordered 128-bit identifiers and the
    validators of slugs, secret names, tags, descriptions and repository
    identifiers. *)

From S2P Require Import Prelude Errors Primitives.

Definition MAX_SLUG_LEN : Z := 64.
Definition MAX_SECRET_NAME_LEN : Z := 128.
Definition MAX_DESCRIPTION_LEN : Z := 1024.
Definition MAX_TAG_LEN : Z := 64.
Definition MAX_EXTERNAL_ID_LEN : Z := 256.

(** ** Identifiers *)

(** [unix_ms] since the epoch, 0 when the clock is before it; the multiplication and
    the addition saturate. *)
Definition unix_ms (elapsed : option (Z * Z)) : Z :=
  match elapsed with
  | Some (secs, subsec_millis) => sat_add64 (sat_mul64 secs 1000) subsec_millis
  | None => 0
  end.

Definition new_v7_id (elapsed : option (Z * Z)) (random : bytes) : bytes :=
  let out := drop 2 (to_be_bytes 8 (unix_ms elapsed)) ++ drop 6 random in
  let out := <[6%nat := Z.lor (Z.land (out !!! 6%nat) 15) 112]> out in
  <[8%nat := Z.lor (Z.land (out !!! 8%nat) 63) 128]> out.

Definition id_version (id : bytes) : Z := Z.land (Z.shiftr (id !!! 6%nat) 4) 15.

Definition id_to_hex `{Hex} (id : bytes) : str := hex_encode id.
Definition parse_hex `{Hex} (kind : string) (text : str) : result FormatError bytes :=
  let? b := map_err (fun err => MalformedRecord ("invalid " +:+ kind +:+ " hex: " +:+ err))
              (hex_decode (trim text)) in
  bail? negb (blen b =? 16)
    with MalformedRecord ("invalid " +:+ kind +:+ " length: expected 16 bytes, got " +:+ pretty (blen b)) ;;
  Ok b.

(** The derived [Ord] of byte arrays. *)
Fixpoint lex_le (a b : list Z) : bool :=
  match a, b with
  | [], _ => true
  | _ :: _, [] => false
  | x :: a', y :: b' => (x <? y) || ((x =? y) && lex_le a' b')
  end.

(** ** Handles *)

Definition is_slug_char (c : Z) : bool :=
  is_ascii_lowercase c || is_ascii_digit c || (c =? 45) || (c =? 95).

Definition validate_slug (kind : string) (slug : str) : result FormatError unit :=
  bail? str_len slug >? MAX_SLUG_LEN with MalformedRecord (kind +:+ " slug exceeds 64 bytes") ;;
  bail? negb match slug with first :: _ => is_ascii_lowercase first || is_ascii_digit first | [] => false end
    with MalformedRecord (kind +:+ " slug must start with a lowercase letter or digit") ;;
  bail? negb (forallb is_slug_char slug)
    with MalformedRecord (kind +:+ " slug must contain only lowercase letters, digits, '-' or '_'") ;;
  Ok tt.

Definition is_name_char (c : Z) : bool := is_ascii_uppercase c || is_ascii_digit c || (c =? 95).

Definition validate_secret_name (name : str) : result FormatError unit :=
  bail? str_len name >? MAX_SECRET_NAME_LEN with MalformedRecord "secret name exceeds 128 bytes" ;;
  bail? negb match name with first :: _ => is_ascii_uppercase first | [] => false end
    with MalformedRecord "secret name must start with an uppercase letter" ;;
  bail? negb (forallb is_name_char name)
    with MalformedRecord "secret name must contain only uppercase letters, digits or '_'" ;;
  Ok tt.

Definition is_tag_char (c : Z) : bool :=
  is_ascii_alphanumeric c || (c =? 46) || (c =? 95) || (c =? 45) || (c =? 58) || (c =? 47).

Definition validate_tag (tag : str) : result FormatError unit :=
  bail? bool_decide (tag = []) || (str_len tag >? MAX_TAG_LEN) with MalformedRecord "tag must be 1–64 bytes" ;;
  bail? negb (forallb is_tag_char tag)
    with MalformedRecord "tag must contain only letters, digits or '._-:/'" ;;
  Ok tt.

Definition validate_description (description : str) : result FormatError unit :=
  bail? blen description >? MAX_DESCRIPTION_LEN
    with MalformedRecord "description exceeds 1024 characters" ;;
  Ok tt.

Definition validate_external_repo_id (id : str) : result FormatError unit :=
  bail? (str_len id >? MAX_EXTERNAL_ID_LEN) || bool_decide (trim id = []) || negb (bool_decide (id = trim id))
    with MalformedRecord "repository external id must be 1–256 bytes with no surrounding whitespace" ;;
  bail? negb (forallb is_ascii_graphic id)
    with MalformedRecord "repository external id must be printable ASCII" ;;
  Ok tt.

(** ** Facts *)

Lemma ascii_str_len s : Forall (fun c => (c <? 128) = true) s -> str_len s = blen s.
Proof.
  induction 1 as [|c s Hc _ IH]; [done|]. change (str_len (c :: s)) with (len_utf8 c + str_len s).
  unfold len_utf8. rewrite Hc, IH. unfold blen. cbn [length]. lia.
Qed.

(** The names accepted are those of the documented expression. *)
Lemma validate_secret_name_spec name :
  validate_secret_name name = Ok tt <->
  exists first rest, name = first :: rest /\ is_ascii_uppercase first = true /\
    Forall (fun c => is_name_char c = true) rest /\ blen rest <= 127.
Proof.
  assert (forall c, is_name_char c = true -> (c <? 128) = true) as Hascii.
  { intros c. unfold is_name_char, is_ascii_uppercase, is_ascii_digit.
    rewrite !orb_true_iff, !andb_true_iff, Z.eqb_eq, Z.ltb_lt, !Z.leb_le. lia. }
  unfold validate_secret_name. rewrite !Z.gtb_ltb, !bail_ok, !negb_false_iff, Z.ltb_ge. split.
  - intros (Hlen & Hfirst & Hall & _). destruct name as [|first rest]; [done|]. exists first, rest.
    pose proof Hall as Hall'. rewrite forallb_forall in Hall'.
    assert (Forall (fun c => is_name_char c = true) (first :: rest)) as Hf
      by (apply Forall_forall; intros c Hc; apply Hall', list_elem_of_In, Hc).
    split_and!; [done|done|by apply Forall_cons in Hf as (_ & ?)|].
    rewrite ascii_str_len in Hlen by (eapply Forall_impl; [exact Hf|auto]).
    unfold MAX_SECRET_NAME_LEN, blen in *. cbn [length] in Hlen. lia.
  - intros (first & rest & -> & Hfirst & Hrest & Hlen).
    assert (Forall (fun c => is_name_char c = true) (first :: rest)) as Hf.
    { constructor; [|done]. unfold is_name_char. by rewrite Hfirst. }
    split_and!; [|done| |done].
    + rewrite ascii_str_len by (eapply Forall_impl; [exact Hf|auto]).
      unfold MAX_SECRET_NAME_LEN, blen in *. cbn [length]. lia.
    + apply forallb_forall. intros c Hc. rewrite Forall_forall in Hf. by apply Hf, list_elem_of_In.
Qed.

Lemma parse_hex_roundtrip `{HexLaws} kind id :
  is_bytes id -> blen id = 16 -> parse_hex kind (id_to_hex id) = Ok id.
Proof.
  intros Hb Hl. unfold parse_hex, id_to_hex. rewrite trim_id.
  - rewrite hex_decode_encode by done. cbn [map_err res_bind]. by rewrite Hl.
  - eapply Forall_impl; [by apply hex_encode_digits|]. intros c. cbv beta.
    unfold is_lower_hex, is_ascii_digit, is_whitespace.
    rewrite !orb_true_iff, !andb_true_iff, !orb_false_iff, !andb_false_iff, !Z.leb_le, !Z.leb_gt, !Z.eqb_neq. lia.
Qed.

(** ** Time order of identifiers *)

Lemma to_be_bytes_S n z : to_be_bytes (S n) z = to_be_bytes n (z / 256) ++ [z mod 256].
Proof. done. Qed.
Lemma lex_le_total a b : lex_le a b = false -> lex_le b a = true.
Proof.
  revert b; induction a as [|x a IH]; intros [|y b]; cbn; try done. rewrite orb_false_iff, orb_true_iff, andb_false_iff, andb_true_iff.
  intros (H1 & H2). destruct (Z.eq_dec x y) as [->|Hne]; [|left; lia]. right. split; [lia|]. apply IH. destruct H2 as [H2|H2]; [lia|done].
Qed.
Lemma lex_le_trans a b c : lex_le a b = true -> lex_le b c = true -> lex_le a c = true.
Proof.
  revert b c; induction a as [|x a IH]; intros [|y b] [|z c]; cbn; try done. rewrite !orb_true_iff, !andb_true_iff, !Z.ltb_lt, !Z.eqb_eq.
  intros [H1|(H1 & H2)] [G1|(G1 & G2)]; [left; lia..|right]. split; [lia|]. by eapply IH.
Qed.
Lemma lex_le_anti a : forall b, lex_le a b = true -> lex_le b a = true -> a = b.
Proof.
  induction a as [|x a IH]; intros [|y b]; cbn; [done..|]. intros H1 H2. assert (x = y) as -> by lia.
  rewrite Z.ltb_irrefl, Z.eqb_refl in H1, H2. f_equal. by apply IH.
Qed.
Lemma lex_le_prefix p a b : lex_le (p ++ a) (p ++ b) = lex_le a b.
Proof. induction p as [|x p IH]; [done|]. simpl. by rewrite Z.ltb_irrefl, Z.eqb_refl. Qed.
Lemma lex_le_be n a b x y :
  0 <= a < b -> b < 256 ^ Z.of_nat n -> lex_le (to_be_bytes n b ++ y) (to_be_bytes n a ++ x) = false.
Proof.
  revert a b x y; induction n as [|n IH]; intros a b x y Hab Hb; [change (256 ^ Z.of_nat 0) with 1 in Hb; lia|].
  rewrite !to_be_bytes_S, <- !(assoc_L (++)). rewrite Nat2Z.inj_succ, Z.pow_succ_r in Hb by lia.
  assert (b / 256 < 256 ^ Z.of_nat n) by (apply Z.div_lt_upper_bound; lia).
  destruct (decide (a / 256 = b / 256)) as [E|E].
  - rewrite E, lex_le_prefix. simpl. pose proof (Z.div_mod a 256). pose proof (Z.div_mod b 256).
    replace (b mod 256 <? a mod 256) with false by lia. by replace (b mod 256 =? a mod 256) with false by lia.
  - apply IH; [|done]. pose proof (Z.div_le_mono a b 256). split; [apply Z.div_pos; lia|lia].
Qed.

(** 48 bits of time, the version nibble, the variant bits, and 74 random bits. *)
Lemma v7_layout e r :
  length r = 16%nat ->
  new_v7_id e r = to_be_bytes 6 (unix_ms e) ++
    [Z.lor (Z.land (r !!! 6%nat) 15) 112; r !!! 7%nat; Z.lor (Z.land (r !!! 8%nat) 63) 128] ++ drop 9 r.
Proof. intros Hl. do 16 (destruct r as [|? r]; [done|]). by destruct r. Qed.

Lemma v7_version e r : length r = 16%nat -> length (new_v7_id e r) = 16%nat /\ id_version (new_v7_id e r) = 7.
Proof.
  intros Hl. rewrite v7_layout by done. split.
  - rewrite length_app, length_to_be_bytes. simpl. rewrite length_drop. lia.
  - unfold id_version. rewrite lookup_total_app_r by (by rewrite length_to_be_bytes).
    rewrite length_to_be_bytes. cbn [Nat.sub app lookup_total list_lookup_total].
    rewrite Z.shiftr_lor, Z.shiftr_land. change (Z.shiftr 15 4) with 0. by rewrite Z.land_0_r.
Qed.

(** Identifiers made at a later millisecond compare greater, until the 48 bits wrap (in the year 10889). *)
Theorem v7_ids_time_ordered e1 r1 e2 r2 :
  length r1 = 16%nat -> length r2 = 16%nat -> 0 <= unix_ms e1 < unix_ms e2 -> unix_ms e2 < 2 ^ 48 ->
  lex_le (new_v7_id e2 r2) (new_v7_id e1 r1) = false.
Proof. intros H1 H2 Ht Hb. rewrite !v7_layout by done. apply lex_le_be; [done|]. exact Hb. Qed.

(** ** Scoped records

    src/crates/format/src/scope.rs: the records of projects, environments,
    repository bindings, services, secrets and secret versions, with their
    validating constructors and builders.  Generated identifiers are arguments. *)

Definition MAX_TAGS : Z := 32.
Definition NONCE_LEN : Z := 24.
Definition DIGEST_LEN : Z := 32.

Module Scope.
Record Scope : Type := { tenant_id : bytes; project_id : bytes; environment_id : bytes }.
End Scope.

Inductive RepositoryProvider : Type := Github | Gitlab | Bitbucket | SelfHosted.
Inductive BindingStatus : Type := BindingActive | BindingSuspended | BindingRevoked.
Inductive ProjectStatus : Type := ProjectActive | ProjectScheduledDeletion | ProjectPurged.
Inductive SecretStatus : Type := SecretActive | SecretDeprecated | SecretScheduledDeletion.

Module Project.
Record ProjectRecord : Type := {
  project_id : bytes; tenant_id : bytes; workspace_id : bytes; slug : str; name : str;
  status : ProjectStatus; created_at_utc : Z;
}.
Definition new (project_id tenant_id workspace_id : bytes) (slug name : str) (created_at_utc : Z)
  : result FormatError ProjectRecord :=
  let? _ := validate_slug "project" slug in
  bail? bool_decide (trim name = []) || (blen name >? MAX_DESCRIPTION_LEN)
    with MalformedRecord "project name must be 1–1024 characters" ;;
  Ok {| project_id := project_id; tenant_id := tenant_id; workspace_id := workspace_id; slug := slug;
        name := name; status := ProjectActive; created_at_utc := created_at_utc |}.
End Project.

Module Environment.
Record EnvironmentRecord : Type := {
  environment_id : bytes; tenant_id : bytes; project_id : bytes; slug : str; tier : Z; created_at_utc : Z;
}.
Definition new (environment_id : bytes) (scope : Scope.Scope) (slug : str) (tier created_at_utc : Z)
  : result FormatError EnvironmentRecord :=
  let? _ := validate_slug "environment" slug in
  Ok {| environment_id := environment_id; tenant_id := Scope.tenant_id scope;
        project_id := Scope.project_id scope; slug := slug; tier := tier; created_at_utc := created_at_utc |}.
End Environment.

Module Binding.
Record RepositoryBindingRecord : Type := {
  binding_id : bytes; tenant_id : bytes; project_id : bytes; provider : RepositoryProvider;
  external_repo_id : str; repo_full_name : str; repo_url : str; installation_id : option str;
  status : BindingStatus; created_at_utc : Z;
}.
Definition new (binding_id tenant_id project_id : bytes) (provider : RepositoryProvider)
  (external_repo_id repo_full_name repo_url : str) (installation_id : option str) (created_at_utc : Z)
  : result FormatError RepositoryBindingRecord :=
  let? _ := validate_external_repo_id external_repo_id in
  bail? bool_decide (trim repo_full_name = []) || bool_decide (trim repo_url = [])
    with MalformedRecord "repository display name and url must not be empty" ;;
  Ok {| binding_id := binding_id; tenant_id := tenant_id; project_id := project_id; provider := provider;
        external_repo_id := external_repo_id; repo_full_name := repo_full_name; repo_url := repo_url;
        installation_id := installation_id; status := BindingActive; created_at_utc := created_at_utc |}.
End Binding.

Module Service.
Record ServiceRecord : Type := {
  service_id : bytes; tenant_id : bytes; project_id : bytes; slug : str; created_at_utc : Z;
}.
Definition new (service_id tenant_id project_id : bytes) (slug : str) (created_at_utc : Z)
  : result FormatError ServiceRecord :=
  let? _ := validate_slug "service" slug in
  Ok {| service_id := service_id; tenant_id := tenant_id; project_id := project_id; slug := slug;
        created_at_utc := created_at_utc |}.
End Service.

(** ** Secrets *)

Module Metadata.
Record SecretMetadata : Type := MkMetadata {
  secret_id : bytes; tenant_id : bytes; project_id : bytes; environment_id : bytes;
  repository_binding_id : option bytes; service_id : option bytes; name : str; secret_type : str;
  description : str; tags : list str; status : SecretStatus; policy_id : option bytes;
  current_version : Z; created_by : str; created_at_utc : Z; updated_at_utc : Z;
  last_rotated_at_utc : option Z; expires_at_utc : option Z; last_accessed_at_utc : option Z;
}.

Definition new (generated : bytes) (scope : Scope.Scope) (name secret_type created_by : str) (created_at_utc : Z)
  : result FormatError SecretMetadata :=
  let? _ := validate_secret_name name in
  bail? bool_decide (trim secret_type = []) || bool_decide (trim created_by = [])
    with MalformedRecord "secret_type and created_by must not be empty" ;;
  Ok (MkMetadata generated (Scope.tenant_id scope) (Scope.project_id scope) (Scope.environment_id scope)
        None None name secret_type [] [] SecretActive None 1 created_by created_at_utc created_at_utc
        None None None).

Definition with_description (self : SecretMetadata) (description : str) : result FormatError SecretMetadata :=
  let? _ := validate_description description in
  let 'MkMetadata i t p e b s n ty _ tg st po v cb ca ua lr ex la := self in
  Ok (MkMetadata i t p e b s n ty description tg st po v cb ca ua lr ex la).

Definition check_tags (tags : list str) : result FormatError unit :=
  bail? blen tags >? MAX_TAGS with MalformedRecord ("too many tags: at most " +:+ pretty MAX_TAGS) ;;
  for_each validate_tag tags.
Definition with_tags (self : SecretMetadata) (tags : list str) : result FormatError SecretMetadata :=
  let? _ := check_tags tags in
  let 'MkMetadata i t p e b s n ty d _ st po v cb ca ua lr ex la := self in
  Ok (MkMetadata i t p e b s n ty d tags st po v cb ca ua lr ex la).

Definition with_repository_binding (self : SecretMetadata) (binding : bytes) : SecretMetadata :=
  let 'MkMetadata i t p e _ s n ty d tg st po v cb ca ua lr ex la := self in
  MkMetadata i t p e (Some binding) s n ty d tg st po v cb ca ua lr ex la.
Definition with_service (self : SecretMetadata) (service : bytes) : SecretMetadata :=
  let 'MkMetadata i t p e b _ n ty d tg st po v cb ca ua lr ex la := self in
  MkMetadata i t p e b (Some service) n ty d tg st po v cb ca ua lr ex la.
Definition with_policy (self : SecretMetadata) (policy : bytes) : SecretMetadata :=
  let 'MkMetadata i t p e b s n ty d tg st _ v cb ca ua lr ex la := self in
  MkMetadata i t p e b s n ty d tg st (Some policy) v cb ca ua lr ex la.
Definition with_expiry (self : SecretMetadata) (at_utc : Z) : SecretMetadata :=
  let 'MkMetadata i t p e b s n ty d tg st po v cb ca ua lr _ la := self in
  MkMetadata i t p e b s n ty d tg st po v cb ca ua lr (Some at_utc) la.

Definition validate (self : SecretMetadata) : result FormatError unit :=
  let? _ := validate_secret_name (name self) in
  let? _ := validate_description (description self) in
  let? _ := check_tags (tags self) in
  bail? current_version self =? 0 with MalformedRecord "current_version must be at least 1" ;;
  Ok tt.

(** ** Builders *)

Inductive Build : Type :=
| Describe (text : str) | Tag (tags : list str) | Bind (binding : bytes) | Confine (service : bytes)
| Govern (policy : bytes) | Expire (at_utc : Z).
Definition build (self : SecretMetadata) (step : Build) : result FormatError SecretMetadata :=
  match step with
  | Describe text => with_description self text
  | Tag tags => with_tags self tags
  | Bind binding => Ok (with_repository_binding self binding)
  | Confine service => Ok (with_service self service)
  | Govern policy => Ok (with_policy self policy)
  | Expire at_utc => Ok (with_expiry self at_utc)
  end.

Definition same_core (a b : SecretMetadata) : Prop :=
  secret_id b = secret_id a /\ tenant_id b = tenant_id a /\ project_id b = project_id a /\
  environment_id b = environment_id a /\ name b = name a /\ secret_type b = secret_type a /\
  status b = status a /\ current_version b = current_version a /\ created_by b = created_by a.

Lemma metadata_validate_ok m :
  validate m = Ok tt <->
  validate_secret_name (name m) = Ok tt /\ validate_description (description m) = Ok tt /\
  check_tags (tags m) = Ok tt /\ current_version m <> 0.
Proof.
  unfold validate. destruct (validate_secret_name _) as [[]|]; [|naive_solver].
  destruct (validate_description _) as [[]|]; [|naive_solver]. destruct (check_tags _) as [[]|]; [|naive_solver].
  simpl. rewrite bail_ok, Z.eqb_neq. naive_solver.
Qed.

Lemma build_valid m step m' : validate m = Ok tt -> build m step = Ok m' -> validate m' = Ok tt /\ same_core m m'.
Proof.
  rewrite !metadata_validate_ok. unfold same_core.
  destruct step as [text|tg| | | |], m; simpl; unfold with_description, with_tags; simpl; intros Hv Hb;
    try (injection Hb as <-; simpl; naive_solver).
  - destruct (validate_description text) as [[]|] eqn:E; [|done]. injection Hb as <-. simpl. naive_solver.
  - destruct (check_tags tg) as [[]|] eqn:E; [|done]. injection Hb as <-. simpl. naive_solver.
Qed.

Lemma new_valid id scope n ty by_ at_ m : new id scope n ty by_ at_ = Ok m -> validate m = Ok tt.
Proof.
  unfold new. destruct (validate_secret_name n) as [[]|] eqn:E; [|done]. simpl. rewrite bail_ok. intros (_ & [= <-]).
  by apply metadata_validate_ok.
Qed.

(** Metadata built through the constructor and the builders passes the check that is applied to metadata received from elsewhere, and the builders leave identity, scope, name and version alone. *)
Theorem built_metadata_valid id scope n ty by_ at_ m0 steps m :
  new id scope n ty by_ at_ = Ok m0 -> try_fold build m0 steps = Ok m -> validate m = Ok tt /\ same_core m0 m.
Proof.
  intros Hnew%new_valid. revert m0 Hnew. induction steps as [|s steps IH]; intros m0 Hv; simpl.
  - intros [= <-]. by split.
  - destruct (build m0 s) as [m1|] eqn:E; [|done]. simpl. intros Hf.
    destruct (build_valid _ _ _ Hv E) as (Hv1 & Hc1). destruct (IH m1 Hv1 Hf) as (Hv2 & Hc2). split; [done|].
    unfold same_core in *. naive_solver congruence.
Qed.

(** The check accepts metadata without a type or an author, which no constructor returns. *)
Lemma validate_misses_provenance :
  exists m, validate m = Ok tt /\ forall id scope n ty by_ at_ m0,
    new id scope n ty by_ at_ = Ok m0 -> secret_type m <> secret_type m0.
Proof.
  exists (MkMetadata [] [] [] [] None None (lit "A") [] [] [] SecretActive None 1 [] 0 0 None None None).
  split; [done|]. intros id scope n ty by_ at_ m0. unfold new. destruct (validate_secret_name n); [|done]. simpl.
  rewrite bail_ok, orb_false_iff, bool_decide_eq_false. intros ((Ht & _) & [= <-]). simpl. by intros <-.
Qed.
End Metadata.

Module Version.
Record SecretVersionRecord : Type := {
  version_id : bytes; secret_id : bytes; version : Z; encryption_key_id : bytes; nonce : bytes;
  ciphertext : bytes; value_sha256 : bytes; created_by : str; created_at_utc : Z;
}.
Definition new (generated secret_id : bytes) (version : Z) (encryption_key_id nonce ciphertext value_sha256 : bytes)
  (created_by : str) (created_at_utc : Z) : result FormatError SecretVersionRecord :=
  bail? version =? 0 with MalformedRecord "version must be at least 1" ;;
  bail? negb (blen nonce =? NONCE_LEN)
    with MalformedRecord ("nonce must be " +:+ pretty NONCE_LEN +:+ " bytes, got " +:+ pretty (blen nonce)) ;;
  bail? bool_decide (ciphertext = []) with MalformedRecord "ciphertext must not be empty" ;;
  bail? negb (blen value_sha256 =? DIGEST_LEN)
    with MalformedRecord ("value digest must be " +:+ pretty DIGEST_LEN +:+ " bytes, got "
                          +:+ pretty (blen value_sha256)) ;;
  bail? bool_decide (trim created_by = []) with MalformedRecord "created_by must not be empty" ;;
  Ok {| version_id := generated; secret_id := secret_id; version := version;
        encryption_key_id := encryption_key_id; nonce := nonce; ciphertext := ciphertext;
        value_sha256 := value_sha256; created_by := created_by; created_at_utc := created_at_utc |}.
End Version.
