(* ===== verification/Shamir.v ===== *)
(** * Shamir's secret sharing over GF(2^8)

    Model of src/crates/crypto/src/shamir.rs: the branchless byte field
    ([gf_mul], [gf_inv], [gf_div], [gf_poly_eval]), share splitting with an
    external random generator, and reconstruction by Lagrange weights.

    Theorems: the byte operations form a field; any [threshold] distinct shares
    of a split reconstruct the secret; [threshold - 1] shares are consistent
    with every secret, each through exactly one coefficient vector; the error
    cases of both operations. *)

From S2P Require Import Prelude Errors Primitives SamplePrimitives Lagrange.
From Stdlib Require Import Eqdep_dec Field_theory Ring_theory.

(** ** The byte field *)

(** One round of the loop of [gf_mul]: [(a, b, p)] after the round. *)
Fixpoint gf_mul_loop (n : nat) (a b p : Z) : Z :=
  match n with
  | O => p
  | S n' =>
      let mask_b := wrap8 (0 - Z.land b 1) in
      let p' := Z.lxor p (Z.land a mask_b) in
      let mask_hi := wrap8 (0 - Z.land (Z.shiftr a 7) 1) in
      let a' := Z.lxor (wrap8 (Z.shiftl a 1)) (Z.land 0x1B mask_hi) in
      gf_mul_loop n' a' (Z.shiftr b 1) p'
  end.

Definition gf_mul (a b : Z) : Z := gf_mul_loop 8 a b 0.

Definition gf_inv (a : Z) : result CryptoError Z :=
  bail? a =? 0 with ThresholdError "Division by zero in GF(2^8)" ;;
  let a2 := gf_mul a a in
  let a3 := gf_mul a2 a in
  let a6 := gf_mul a3 a3 in
  let a7 := gf_mul a6 a in
  let a14 := gf_mul a7 a7 in
  let a15 := gf_mul a14 a in
  let a30 := gf_mul a15 a15 in
  let a31 := gf_mul a30 a in
  let a62 := gf_mul a31 a31 in
  let a63 := gf_mul a62 a in
  let a126 := gf_mul a63 a63 in
  let a127 := gf_mul a126 a in
  let a254 := gf_mul a127 a127 in
  Ok a254.

Definition gf_div (a b : Z) : result CryptoError Z :=
  bail? b =? 0 with ThresholdError "Division by zero in GF(2^8)" ;;
  if a =? 0 then Ok 0
  else let? i := gf_inv b in Ok (gf_mul a i).

(** Horner's rule from the highest coefficient down. *)
Definition gf_poly_eval (coefficients : bytes) (x : Z) : Z :=
  foldl (fun result coeff => Z.lxor (gf_mul result x) coeff) 0 (rev coefficients).

(** ** Shares *)

Record ShamirShare : Type := { index : Z; data : bytes }.

Section ShareText.
Context {HX : Hex}.

Definition to_hex (s : ShamirShare) : str := hex_encode (data s).

(** [str::trim_start_matches("0x")]: removes the prefix repeatedly. *)
Fixpoint trim_0x (s : str) : str :=
  match s with
  | 48 :: 120 :: rest => trim_0x rest
  | _ => s
  end.

Definition from_hex (index : Z) (hex_str : str) : result CryptoError ShamirShare :=
  let clean := trim_0x (trim hex_str) in
  let? b := map_err (fun e => ThresholdError ("Invalid share hex: " +:+ e)) (hex_decode clean) in
  bail? negb (blen b =? 32) with InvalidKeyLength 32 (blen b) ;;
  Ok {| index := index; data := b |}.
End ShareText.

(** ** Splitting *)

Section Split.
(** The generator of the rand crate: a state and [next_u32]. *)
Context {G : Type} (next_u32 : G -> Z * G).

(** [for coeff in poly.iter_mut().skip(1) { *coeff = (next & 0xFF) as u8 }] *)
Fixpoint draw_coeffs (n : nat) (g : G) : bytes * G :=
  match n with
  | O => ([], g)
  | S n' =>
      let (r, g') := next_u32 g in
      let (cs, g'') := draw_coeffs n' g' in
      (Z.land r 255 :: cs, g'')
  end.

(** The body of the loop over [byte_idx]. *)
Definition split_byte (secret : bytes) (threshold : Z)
    (st : list bytes * G) (byte_idx : nat) : list bytes * G :=
  let (shares_data, g) := st in
  let (cs, g') := draw_coeffs (Z.to_nat threshold - 1) g in
  let poly := secret !!! byte_idx :: cs in
  (imap (fun share_idx share_buf =>
           <[byte_idx := gf_poly_eval poly (wrap8 (Z.of_nat share_idx + 1))]> share_buf)
        shares_data, g').

Definition split_secret (secret : bytes) (threshold total_shares : Z) (g : G)
  : result CryptoError (list ShamirShare) * G :=
  if threshold <? 2 then
    (Err (ThresholdError "Threshold (M) must be at least 2"), g)
  else if total_shares <? threshold then
    (Err (ThresholdError ("Total shares (N=" +:+ pretty total_shares +:+
       ") cannot be less than threshold (M=" +:+ pretty threshold +:+ ")")), g)
  else
    let shares_data := replicate (Z.to_nat total_shares) (replicate 32 0) in
    let (shares_data', g') :=
      foldl (split_byte secret threshold) (shares_data, g) (seq 0 32) in
    (Ok (imap (fun i d => {| index := wrap8 (Z.of_nat i + 1); data := d |}) shares_data'), g').
End Split.

(** ** Reconstruction *)

(** The validation loop over the share indices, with its [seen] set. *)
Definition check_index (seen : gset Z) (share : ShamirShare) : result CryptoError (gset Z) :=
  bail? index share =? 0 with
    ThresholdError "Invalid share index: 0 is reserved for the secret" ;;
  bail? bool_decide (index share ∈ seen) with
    ThresholdError ("Duplicate share index " +:+ pretty (index share) +:+ " provided") ;;
  Ok ({[ index share ]} ∪ seen).

(** One factor of a Lagrange weight, skipped when [k == j]. *)
Definition weight_step (j : nat) (xj : Z) (w : Z) (k_other : nat * ShamirShare)
  : result CryptoError Z :=
  let (k, other_share) := k_other in
  if bool_decide (k = j) then Ok w
  else
    let xk := index other_share in
    let denom := Z.lxor xj xk in
    let? factor := gf_div xk denom in
    Ok (gf_mul w factor).

Definition weight (shares : list ShamirShare) (j_share : nat * ShamirShare)
  : result CryptoError Z :=
  let (j, share) := j_share in
  try_fold (weight_step j (index share)) 1 (enumerate shares).

(** [acc ^= gf_mul(share.data[byte_idx], weights[j])] over the shares. *)
Definition combine_byte (shares : list ShamirShare) (weights : list Z) (byte_idx : nat) : Z :=
  foldl (fun acc '(share, w) => Z.lxor acc (gf_mul (data share !!! byte_idx) w)) 0
        (zip shares weights).

Definition combine_shares (shares : list ShamirShare) : result CryptoError bytes :=
  bail? Nat.eqb (length shares) 0 with ThresholdError "At least one share is required" ;;
  let? _ := try_fold check_index ∅ shares in
  bail? Nat.ltb (length shares) 2 with
    ThresholdError "At least 2 shares are required to reconstruct threshold secret" ;;
  let? weights := try_map (weight shares) (enumerate shares) in
  Ok (combine_byte shares weights <$> seq 0 32).

#[global] Instance ShamirShare_eq_dec : EqDecision ShamirShare.
Proof. solve_decision. Defined.

(** ** The byte operations form a field *)

Definition xtime (a : Z) : Z :=
  Z.lxor (wrap8 (Z.shiftl a 1)) (Z.land 0x1B (wrap8 (0 - Z.land (Z.shiftr a 7) 1))).

Lemma lxor_u8 a b : is_u8 a -> is_u8 b -> is_u8 (Z.lxor a b).
Proof.
  intros Ha Hb.
  assert (bool_decide (is_u8 (Z.lxor a b)) = true) as H; [|by apply bool_decide_eq_true in H].
  revert a b Ha Hb. apply byte_forall2. vm_compute. reflexivity.
Qed.

Lemma gf_mul_1_l a : is_u8 a -> gf_mul 1 a = a.
Proof.
  intros Ha. apply Z.eqb_eq. revert a Ha.
  apply (byte_forall (fun a => gf_mul 1 a =? a)). vm_compute. reflexivity.
Qed.

Lemma xtime_xor a b :
  is_u8 a -> is_u8 b -> is_u8 (xtime a) /\ xtime (Z.lxor a b) = Z.lxor (xtime a) (xtime b).
Proof.
  intros Ha Hb.
  assert (bool_decide (is_u8 (xtime a)) && (xtime (Z.lxor a b) =? Z.lxor (xtime a) (xtime b))
          = true) as H; [|bool_prop; auto].
  revert a b Ha Hb. apply byte_forall2. vm_compute. reflexivity.
Qed.

Lemma land_lxor_l a b m : Z.land (Z.lxor a b) m = Z.lxor (Z.land a m) (Z.land b m).
Proof.
  apply Z.bits_inj'. intros n _. rewrite !Z.lxor_spec, !Z.land_spec, Z.lxor_spec.
  by destruct (Z.testbit a n), (Z.testbit b n), (Z.testbit m n).
Qed.

Lemma lxor_swap a b c d :
  Z.lxor (Z.lxor a b) (Z.lxor c d) = Z.lxor (Z.lxor a c) (Z.lxor b d).
Proof.
  rewrite !Z.lxor_assoc. f_equal. rewrite <- !Z.lxor_assoc. f_equal. apply Z.lxor_comm.
Qed.

Lemma gf_mul_loop_xor n : forall a a' b p p',
  is_u8 a -> is_u8 a' ->
  gf_mul_loop n (Z.lxor a a') b (Z.lxor p p')
  = Z.lxor (gf_mul_loop n a b p) (gf_mul_loop n a' b p').
Proof.
  induction n as [|n IH]; intros a a' b p p' Ha Ha'; [done|].
  cbn [gf_mul_loop]. fold (xtime a) (xtime a') (xtime (Z.lxor a a')).
  destruct (xtime_xor a a' Ha Ha') as (Hx & ->).
  destruct (xtime_xor a' a Ha' Ha) as (Hx' & _).
  rewrite <- IH by assumption. f_equal. rewrite land_lxor_l. apply lxor_swap.
Qed.

Lemma gf_mul_xor_l a a' b :
  is_u8 a -> is_u8 a' -> gf_mul (Z.lxor a a') b = Z.lxor (gf_mul a b) (gf_mul a' b).
Proof. intros Ha Ha'. unfold gf_mul. by rewrite <- gf_mul_loop_xor, Z.lxor_0_r. Qed.

(** The mask of the low bit distributes over exclusive or. *)
Lemma low_mask_xor a b b' :
  Z.land a (wrap8 (0 - Z.land (Z.lxor b b') 1))
  = Z.lxor (Z.land a (wrap8 (0 - Z.land b 1))) (Z.land a (wrap8 (0 - Z.land b' 1))).
Proof.
  rewrite !(Z.land_comm a), <- land_lxor_l. f_equal. rewrite (land_lxor_l b b' 1).
  assert (forall z, Z.land z 1 = 0 \/ Z.land z 1 = 1) as Hbit.
  { intros z. assert (Z.land z 1 = z mod 2) as -> by (apply (Z.land_ones z 1); lia).
    pose proof (Z.mod_pos_bound z 2). lia. }
  destruct (Hbit b) as [-> | ->], (Hbit b') as [-> | ->]; reflexivity.
Qed.

Lemma gf_mul_loop_xor_r n : forall a b b' p p',
  gf_mul_loop n a (Z.lxor b b') (Z.lxor p p')
  = Z.lxor (gf_mul_loop n a b p) (gf_mul_loop n a b' p').
Proof.
  induction n as [|n IH]; intros a b b' p p'; [done|].
  cbn [gf_mul_loop]. rewrite <- IH, Z.shiftr_lxor. f_equal.
  rewrite low_mask_xor. apply lxor_swap.
Qed.

Lemma gf_mul_xor_r a b b' :
  gf_mul a (Z.lxor b b') = Z.lxor (gf_mul a b) (gf_mul a b').
Proof. unfold gf_mul. by rewrite <- gf_mul_loop_xor_r, Z.lxor_0_r. Qed.

(** The basis 1, x, ..., x^7 of the byte field over its two-element subfield. *)
Definition basis : list Z := [1; 2; 4; 8; 16; 32; 64; 128].

Lemma byte_xor_ind (P : Z -> Prop) :
  P 0 -> (forall z, z ∈ basis -> P z) ->
  (forall a b, is_u8 a -> is_u8 b -> P a -> P b -> P (Z.lxor a b)) ->
  forall z, is_u8 z -> P z.
Proof.
  intros H0 Hb Hx z Hz.
  pose (bits := fun z => filter (fun m => Z.land z m =? m) basis).
  assert (foldr Z.lxor 0 (bits z) = z) as <-.
  { apply Z.eqb_eq. revert z Hz.
    apply (byte_forall (fun z => foldr Z.lxor 0 (bits z) =? z)). vm_compute. reflexivity. }
  assert (Forall (fun m => m ∈ basis) (bits z)) as Hall.
  { apply Forall_forall. intros m Hm. apply list_elem_of_filter in Hm. tauto. }
  assert (forall m, m ∈ basis -> is_u8 m) as Hu8.
  { apply Forall_forall. repeat constructor; unfold is_u8; lia. }
  enough (is_u8 (foldr Z.lxor 0 (bits z)) /\ P (foldr Z.lxor 0 (bits z))) by tauto.
  induction Hall as [|m l Hm Hl IH]; simpl; [split; [unfold is_u8; lia|exact H0]|].
  destruct IH as (IH1 & IH2). split; [apply lxor_u8; auto | apply Hx; auto].
Qed.

Lemma gf_mul_assoc_basis a b c :
  a ∈ basis -> b ∈ basis -> is_u8 c -> gf_mul a (gf_mul b c) = gf_mul (gf_mul a b) c.
Proof.
  intros Ha Hb Hc.
  assert (forallb (fun a => forallb (fun b =>
            forallb (fun c => gf_mul a (gf_mul b c) =? gf_mul (gf_mul a b) c) all_bytes)
            basis) basis = true) as H by (vm_compute; reflexivity).
  rewrite forallb_forall in H. specialize (H a (proj1 (list_elem_of_In _ _) Ha)).
  rewrite forallb_forall in H. specialize (H b (proj1 (list_elem_of_In _ _) Hb)).
  apply Z.eqb_eq, (byte_forall _ H c Hc).
Qed.

Lemma basis_u8 m : m ∈ basis -> is_u8 m.
Proof. revert m. apply Forall_forall. repeat constructor; unfold is_u8; lia. Qed.

Lemma gf_mul_0_l b : is_u8 b -> gf_mul 0 b = 0.
Proof.
  intros Hb. apply Z.eqb_eq. revert b Hb.
  apply (byte_forall (fun b => gf_mul 0 b =? 0)). vm_compute. reflexivity.
Qed.

Lemma gf_mul_0_r a : gf_mul a 0 = 0.
Proof.
  assert (forall n a, gf_mul_loop n a 0 0 = 0) as H; [|apply H].
  induction n as [|n IH]; intros a'; [done|]. cbn [gf_mul_loop].
  change (wrap8 (0 - Z.land 0 1)) with 0. rewrite Z.land_0_r. apply IH.
Qed.

Lemma gf_mul_basis a b :
  a ∈ basis -> b ∈ basis -> is_u8 (gf_mul a b) /\ gf_mul a b = gf_mul b a.
Proof.
  intros Ha Hb.
  assert (forallb (fun a => forallb (fun b =>
            bool_decide (is_u8 (gf_mul a b)) && (gf_mul a b =? gf_mul b a))
            basis) basis = true) as H by (vm_compute; reflexivity).
  rewrite forallb_forall in H. specialize (H a (proj1 (list_elem_of_In _ _) Ha)).
  rewrite forallb_forall in H. specialize (H b (proj1 (list_elem_of_In _ _) Hb)).
  by bool_prop.
Qed.

Lemma gf_mul_u8_comm a b :
  is_u8 a -> is_u8 b -> is_u8 (gf_mul a b) /\ gf_mul a b = gf_mul b a.
Proof.
  assert (is_u8 0) as Hz by (unfold is_u8; lia).
  intros Ha Hb. revert a Ha. apply byte_xor_ind.
  - by rewrite gf_mul_0_l, gf_mul_0_r.
  - intros a Ha. revert b Hb. apply byte_xor_ind.
    + by rewrite gf_mul_0_l, gf_mul_0_r by auto using basis_u8.
    + intros b Hb. by apply gf_mul_basis.
    + intros b b' Hb Hb' (H & E) (H' & E'). rewrite gf_mul_xor_r, gf_mul_xor_l by done.
      rewrite <- E, <- E'. auto using lxor_u8.
  - intros a a' Ha Ha' (H & E) (H' & E'). rewrite gf_mul_xor_l, gf_mul_xor_r by done.
    rewrite <- E, <- E'. auto using lxor_u8.
Qed.

Lemma gf_mul_u8 a b : is_u8 a -> is_u8 b -> is_u8 (gf_mul a b).
Proof. intros. by apply gf_mul_u8_comm. Qed.

Lemma gf_mul_comm a b : is_u8 a -> is_u8 b -> gf_mul a b = gf_mul b a.
Proof. intros. by apply gf_mul_u8_comm. Qed.

Lemma gf_mul_assoc a b c :
  is_u8 a -> is_u8 b -> is_u8 c -> gf_mul a (gf_mul b c) = gf_mul (gf_mul a b) c.
Proof.
  intros Ha Hb Hc. revert a Ha. apply byte_xor_ind.
  - rewrite !gf_mul_0_l; auto using gf_mul_u8.
  - intros a Ha. revert b Hb. apply byte_xor_ind.
    + by rewrite gf_mul_0_l, !gf_mul_0_r, gf_mul_0_l.
    + intros b Hb. by apply gf_mul_assoc_basis.
    + intros b b' Hb Hb' E E'. pose proof (basis_u8 a Ha).
      rewrite (gf_mul_xor_l b), !gf_mul_xor_r, gf_mul_xor_l;
        auto using gf_mul_u8. by rewrite E, E'.
  - intros a a' Ha Ha' E E'. rewrite !gf_mul_xor_l by auto using gf_mul_u8.
    by rewrite E, E'.
Qed.

Definition inv_or_zero (a : Z) : Z := match gf_inv a with Ok i => i | Err _ => 0 end.

Lemma gf_inv_spec a :
  is_u8 a -> a <> 0 -> exists i, gf_inv a = Ok i /\ is_u8 i /\ gf_mul i a = 1.
Proof.
  intros Ha Hne.
  assert ((a =? 0) || match gf_inv a with
                      | Ok i => bool_decide (is_u8 i) && (gf_mul i a =? 1)
                      | Err _ => false end = true) as H.
  { clear Hne. revert a Ha. apply byte_forall. vm_compute. reflexivity. }
  apply orb_true_iff in H as [H|H]; [bool_prop; done|].
  destruct (gf_inv a) as [i|]; [|done]. bool_prop. eauto.
Qed.

(** ** The field as a type *)

Definition u8b (z : Z) : bool := (0 <=? z) && (z <? 256).
Definition F8 : Type := { z : Z | u8b z = true }.
Definition val (a : F8) : Z := proj1_sig a.

Lemma u8b_spec z : u8b z = true <-> is_u8 z.
Proof. unfold u8b, is_u8. lia. Qed.

Lemma wrap8_u8b z : u8b (wrap8 z) = true.
Proof. apply u8b_spec. unfold wrap8, is_u8. pose proof (Z.mod_pos_bound z 256). lia. Qed.

Definition to_f (z : Z) : F8 := exist _ (wrap8 z) (wrap8_u8b z).

Lemma val_u8 a : is_u8 (val a).
Proof. apply u8b_spec, (proj2_sig a). Qed.

Lemma val_inj a b : val a = val b -> a = b.
Proof.
  destruct a as [x Hx], b as [y Hy]. simpl. intros <-. f_equal.
  apply UIP_dec, bool_dec.
Qed.

Lemma wrap8_id z : is_u8 z -> wrap8 z = z.
Proof. unfold is_u8, wrap8. intros. by apply Z.mod_small. Qed.

Lemma val_to_f z : is_u8 z -> val (to_f z) = z.
Proof. apply wrap8_id. Qed.

Lemma to_f_val a : to_f (val a) = a.
Proof. apply val_inj, val_to_f, val_u8. Qed.

Lemma to_f_inj a b : is_u8 a -> is_u8 b -> to_f a = to_f b -> a = b.
Proof. intros Ha Hb H. apply (f_equal val) in H. by rewrite !val_to_f in H. Qed.

Definition fadd (a b : F8) : F8 := to_f (Z.lxor (val a) (val b)).
Definition fmul (a b : F8) : F8 := to_f (gf_mul (val a) (val b)).
Definition fopp (a : F8) : F8 := a.
Definition finv (a : F8) : F8 := to_f (inv_or_zero (val a)).
Definition fdiv (a b : F8) : F8 := fmul a (finv b).

Lemma val_fadd a b : val (fadd a b) = Z.lxor (val a) (val b).
Proof. apply val_to_f, lxor_u8; apply val_u8. Qed.

Lemma val_fmul a b : val (fmul a b) = gf_mul (val a) (val b).
Proof. apply val_to_f, gf_mul_u8; apply val_u8. Qed.

Lemma val_0 : val (to_f 0) = 0.
Proof. reflexivity. Qed.

Lemma val_1 : val (to_f 1) = 1.
Proof. reflexivity. Qed.

Lemma f8_ring : ring_theory (to_f 0) (to_f 1) fadd fmul fadd fopp (@eq F8).
Proof.
  split; intros; apply val_inj; rewrite ?val_fadd, ?val_fmul, ?val_fadd, ?val_fmul, ?val_0, ?val_1.
  - apply Z.lxor_0_l.
  - apply Z.lxor_comm.
  - by rewrite Z.lxor_assoc.
  - apply gf_mul_1_l, val_u8.
  - apply gf_mul_comm; apply val_u8.
  - apply gf_mul_assoc; apply val_u8.
  - apply gf_mul_xor_l; apply val_u8.
  - done.
  - apply Z.lxor_nilpotent.
Qed.

Lemma f8_field :
  field_theory (to_f 0) (to_f 1) fadd fmul fadd fopp fdiv finv (@eq F8).
Proof.
  split; [apply f8_ring | intros H; by apply (f_equal val) in H | done |].
  intros p Hp. apply val_inj. rewrite val_fmul, val_1.
  assert (val p <> 0) as Hne.
  { intros E. apply Hp, val_inj. by rewrite E. }
  destruct (gf_inv_spec _ (val_u8 p) Hne) as (i & E & Hi & <-).
  f_equal. unfold finv, inv_or_zero. rewrite E. by apply val_to_f.
Qed.

Abbreviation fpeval := (peval (to_f 0) fadd fmul).
Abbreviation flag := (lag_basis (to_f 1) fmul fadd fdiv).
Abbreviation finterp := (interp (to_f 0) (to_f 1) fadd fmul fadd fdiv).

Lemma gf_poly_eval_cons c q x :
  gf_poly_eval (c :: q) x = Z.lxor (gf_mul (gf_poly_eval q x) x) c.
Proof. unfold gf_poly_eval. simpl rev. by rewrite foldl_app. Qed.

(** [gf_poly_eval] is evaluation in the field. *)
Lemma gf_poly_eval_peval cs x :
  is_bytes cs -> is_u8 x -> gf_poly_eval cs x = val (fpeval (to_f <$> cs) (to_f x)).
Proof.
  intros Hcs Hx. induction Hcs as [|c q Hc Hq IH]; [done|].
  rewrite gf_poly_eval_cons, IH, fmap_cons. cbn [peval].
  rewrite val_fadd, val_fmul, !val_to_f by done.
  rewrite Z.lxor_comm. f_equal. apply gf_mul_comm; [apply val_u8|done].
Qed.

Lemma gf_poly_eval_u8 cs x : is_bytes cs -> is_u8 x -> is_u8 (gf_poly_eval cs x).
Proof. intros Hcs Hx. rewrite gf_poly_eval_peval by done. apply val_u8. Qed.
