(* ===== verification/ShamirTheory.v ===== *)
(** * Correctness of the secret-sharing scheme

    Theorems on the definitions of Shamir.v: splitting is total and produces
    the evaluations of one polynomial per secret byte, reconstruction is
    interpolation at zero, and fewer shares than the threshold determine
    nothing. *)

From S2P Require Import Prelude Errors Primitives SamplePrimitives Lagrange Shamir.
From Stdlib Require Import Ring Field.

(** ** Reconstruction is interpolation *)

Definition shares_ok (shares : list ShamirShare) : Prop :=
  NoDup (index <$> shares) /\ Forall (fun s => is_u8 (index s) /\ index s <> 0) shares.

Lemma check_index_fold shares : forall seen,
  try_fold check_index seen shares = Ok (list_to_set (index <$> shares) ∪ seen)
  <-> NoDup (index <$> shares) /\ Forall (fun s => index s <> 0 /\ index s ∉ seen) shares.
Proof.
  induction shares as [|s shares IH]; intros seen.
  - simpl. split; [intros _; split; constructor|]. intros _. f_equal. set_solver.
  - cbn [try_fold]. rewrite fmap_cons, NoDup_cons, Forall_cons. unfold check_index at 1.
    destruct (index s =? 0) eqn:E0; [simpl; split; [done|]; bool_prop; naive_solver|].
    case_bool_decide as Hin; [simpl; split; [done|]; naive_solver|].
    cbn [res_bind]. rewrite list_to_set_cons.
    replace ({[index s]} ∪ list_to_set (index <$> shares) ∪ seen)
      with (list_to_set (index <$> shares) ∪ ({[index s]} ∪ seen) : gset Z) by set_solver.
    rewrite IH. bool_prop. rewrite !Forall_forall, list_elem_of_fmap. split.
    + intros (Hnd & Hall). split; [split; [|done]|set_solver].
      intros (s' & Es & Hs'). apply Hall in Hs'. set_solver.
    + intros ((Hni & Hnd) & (_ & Hs) & Hall). split; [done|]. intros s' Hs'.
      split; [by apply Hall|]. specialize (Hall _ Hs') as [_ Hsn].
      intros [E|E]%elem_of_union; [|done]. apply elem_of_singleton in E.
      apply Hni. eauto.
Qed.

Lemma check_index_result shares : forall seen seen',
  try_fold check_index seen shares = Ok seen' ->
  seen' = list_to_set (index <$> shares) ∪ seen.
Proof.
  induction shares as [|s shares IH]; intros seen seen'; cbn [try_fold].
  - intros [= <-]. simpl. set_solver.
  - intros H. res_inv. unfold check_index in Hr. res_inv. apply IH in H as ->.
    rewrite fmap_cons, list_to_set_cons. set_solver.
Qed.

Lemma check_index_error shares : forall seen e,
  try_fold check_index seen shares = Err e -> exists m, e = ThresholdError m.
Proof.
  induction shares as [|s shares IH]; intros seen e; cbn [try_fold]; [done|].
  destruct (check_index seen s) as [seen'|e'] eqn:E; cbn [res_bind]; [apply IH|].
  intros [= <-]. unfold check_index in E. repeat case_match; simplify_eq; eauto.
Qed.

Lemma gf_div_field xk d :
  is_u8 xk -> is_u8 d -> d <> 0 -> gf_div xk d = Ok (val (fdiv (to_f xk) (to_f d))).
Proof.
  intros Hx Hd Hne. unfold gf_div. rewrite (proj2 (Z.eqb_neq d 0)) by done.
  unfold fdiv. rewrite val_fmul, val_to_f by done. unfold finv, inv_or_zero.
  rewrite (val_to_f d) by done.
  destruct (gf_inv_spec d Hd Hne) as (i & -> & Hi & _). rewrite val_to_f by done.
  destruct (xk =? 0) eqn:E; [|done]. bool_prop. subst. by rewrite gf_mul_0_l.
Qed.

Lemma to_f_lxor a b : is_u8 a -> is_u8 b -> to_f (Z.lxor a b) = fadd (to_f a) (to_f b).
Proof. intros Ha Hb. apply val_inj. rewrite val_fadd, !val_to_f; auto using lxor_u8. Qed.

Lemma lxor_nonzero a b : a <> b -> Z.lxor a b <> 0.
Proof. intros H E. by apply Z.lxor_eq in E. Qed.

Add Field F8field : f8_field.

Definition fidx (s : ShamirShare) : F8 := to_f (index s).

(** The factors contributed by a run of shares other than [j]. *)
Lemma weight_run j xj run : forall w,
  is_u8 xj ->
  Forall (fun ks => fst ks <> j /\ is_u8 (index (snd ks)) /\ index (snd ks) <> xj) run ->
  try_fold (weight_step j xj) (val w) run
  = Ok (val (fmul w (flag (to_f xj) (fidx <$> (snd <$> run)) (to_f 0)))).
Proof.
  induction run as [|[k s] run IH]; intros w Hxj Hall; cbn [try_fold].
  - do 2 f_equal. unfold lag_basis. simpl. ring.
  - apply Forall_cons in Hall as ((Hk & Hs & Hne) & Hall). simpl in Hk, Hs, Hne.
    unfold weight_step at 1. rewrite bool_decide_false by exact Hk.
    rewrite gf_div_field by auto using lxor_u8, lxor_nonzero. cbn [res_bind].
    rewrite <- val_fmul, IH by done. do 2 f_equal.
    rewrite !fmap_cons, lag_basis_cons. cbn [snd]. rewrite to_f_lxor by done.
    change (fidx s) with (to_f (index s)). assert (fadd (to_f 0) (to_f (index s)) = to_f (index s)) as E by ring.
    rewrite E. ring.
Qed.

Lemma fmap_snd_imap {A} (f : nat -> nat) (l : list A) :
  snd <$> imap (fun i x => (f i, x)) l = l.
Proof.
  revert f. induction l as [|x l IH]; intros f; [done|]. simpl. f_equal. apply (IH (f ∘ S)).
Qed.

Lemma fmap_snd_enumerate {A} (l : list A) : snd <$> enumerate l = l.
Proof. apply (fmap_snd_imap (fun i => i)). Qed.

Lemma enumerate_split {A} (pre : list A) s rest :
  enumerate (pre ++ s :: rest)
  = enumerate pre ++ (length pre, s) :: imap (fun i x => (length pre + S i, x)%nat) rest.
Proof.
  unfold enumerate. rewrite imap_app. simpl. do 2 f_equal.
  by rewrite Nat.add_0_r.
Qed.

Lemma weight_split pre s rest :
  shares_ok (pre ++ s :: rest) ->
  weight (pre ++ s :: rest) (length pre, s)
  = Ok (val (flag (fidx s) ((fidx <$> pre) ++ (fidx <$> rest)) (to_f 0))).
Proof.
  intros (Hnd & Hall). unfold weight. rewrite enumerate_split, try_fold_app.
  rewrite fmap_app, fmap_cons in Hnd. apply NoDup_app in Hnd as (_ & Hdis & Hnd2).
  apply NoDup_cons in Hnd2 as (Hns & _).
  apply Forall_app in Hall as (Hpre & Hall). apply Forall_cons in Hall as ((Hs & _) & Hrest).
  rewrite <- val_1 at 1. rewrite weight_run; [cbn [res_bind try_fold]|done|].
  - unfold weight_step at 1. rewrite bool_decide_true by done. cbn [res_bind].
    rewrite weight_run; [|done|].
    + do 2 f_equal. rewrite (lag_basis_app _ _ _ _ _ _ _ _ f8_field).
      rewrite fmap_snd_imap, fmap_snd_enumerate. change (fidx s) with (to_f (index s)). ring.
    + apply Forall_lookup. intros i [k x] Hi. apply list_lookup_imap_Some in Hi as (y & Hy & [= -> ->]).
      simpl. split; [lia|]. rewrite Forall_lookup in Hrest. destruct (Hrest _ _ Hy). split; [done|].
      intros E. apply Hns. rewrite <- E. apply list_elem_of_fmap. exists y.
      split; [done|]. by eapply list_elem_of_lookup_2.
  - apply Forall_lookup. intros i [k x] Hi. unfold enumerate in Hi.
    apply list_lookup_imap_Some in Hi as (y & Hy & [= -> ->]). simpl.
    pose proof (lookup_lt_Some _ _ _ Hy). split; [lia|].
    rewrite Forall_lookup in Hpre. destruct (Hpre _ _ Hy). split; [done|].
    intros E. apply (Hdis (index y)).
    + apply list_elem_of_fmap. exists y. split; [done|]. by eapply list_elem_of_lookup_2.
    + rewrite E. left.
Qed.

(** The weights of the shares [post], when the shares [pre] come before them. *)
Fixpoint weights_of (pre post : list ShamirShare) : list Z :=
  match post with
  | [] => []
  | s :: rest =>
      val (flag (fidx s) ((fidx <$> pre) ++ (fidx <$> rest)) (to_f 0))
      :: weights_of (pre ++ [s]) rest
  end.

Lemma try_map_weights post : forall pre,
  shares_ok (pre ++ post) ->
  try_map (weight (pre ++ post)) (imap (fun i s => (length pre + i, s)%nat) post)
  = Ok (weights_of pre post).
Proof.
  induction post as [|s rest IH]; intros pre Hok; [done|].
  cbn [imap try_map weights_of]. rewrite Nat.add_0_r, weight_split by done. cbn [res_bind].
  specialize (IH (pre ++ [s])). rewrite <- app_assoc in IH. simpl in IH.
  rewrite length_app in IH. simpl in IH.
  rewrite (imap_ext _ (fun i x => (length pre + 1 + i, x)%nat)).
  - by rewrite IH.
  - intros i x _. simpl. f_equal. lia.
Qed.

Definition point_at (b : nat) (s : ShamirShare) : F8 * F8 :=
  (fidx s, to_f (data s !!! b)).

Lemma map_fst_points b shares : map fst (point_at b <$> shares) = fidx <$> shares.
Proof. induction shares as [|s shares IH]; [done|]. simpl. by f_equal. Qed.

Lemma combine_byte_run b post : forall pre acc,
  Forall (fun s => is_u8 (data s !!! b)) post ->
  foldl (fun acc '(share, w) => Z.lxor acc (gf_mul (data share !!! b) w)) acc
        (zip post (weights_of pre post))
  = Z.lxor acc (val (finterp (point_at b <$> pre) (point_at b <$> post) (to_f 0))).
Proof.
  induction post as [|s rest IH]; intros pre acc Hall.
  - simpl. by rewrite Z.lxor_0_r.
  - apply Forall_cons in Hall as (Hs & Hall). cbn [weights_of zip zip_with foldl].
    rewrite IH by done.
    change (point_at b <$> s :: rest)
      with ((fidx s, to_f (data s !!! b)) :: (point_at b <$> rest)). cbn [interp].
    rewrite val_fadd, val_fmul, val_to_f by done.
    rewrite Z.lxor_assoc, fmap_app. do 3 f_equal.
    rewrite !map_fst_points. reflexivity.
Qed.

Definition data_ok (s : ShamirShare) : Prop := length (data s) = 32%nat /\ is_bytes (data s).

Lemma data_byte s b : data_ok s -> is_u8 (data s !!! b).
Proof.
  intros (Hl & Hb). destruct (data s !! b) as [x|] eqn:E.
  - rewrite (list_lookup_total_correct _ _ _ E). by eapply Forall_lookup_1.
  - rewrite list_lookup_total_alt, E. unfold is_u8; simpl; lia.
Qed.

(** Reconstruction from well-formed shares is interpolation at zero. *)
Lemma combine_shares_interp shares :
  (2 <= length shares)%nat -> shares_ok shares -> Forall data_ok shares ->
  combine_shares shares
  = Ok ((fun b => val (finterp [] (point_at b <$> shares) (to_f 0))) <$> seq 0 32).
Proof.
  intros Hlen Hok Hdata. unfold combine_shares.
  rewrite (proj2 (Nat.eqb_neq (length shares) 0)) by lia.
  rewrite (proj2 (check_index_fold shares ∅)).
  2: { destruct Hok as (Hnd & Hall). split; [done|].
       eapply Forall_impl; [exact Hall|]. simpl. set_solver. }
  cbn [res_bind]. rewrite (proj2 (Nat.ltb_ge (length shares) 2)) by lia.
  pose proof (try_map_weights shares [] Hok) as Hw. simpl in Hw.
  unfold enumerate.
  rewrite (imap_ext pair (fun i s => (i, s))) by done. rewrite Hw. cbn [res_bind].
  f_equal. apply list_fmap_ext. intros _ b _. unfold combine_byte.
  rewrite (combine_byte_run b shares [] 0).
  - by rewrite Z.lxor_0_l.
  - eapply Forall_impl; [exact Hdata|]. intros s Hs. by apply data_byte.
Qed.

(** ** What splitting produces *)

Section SplitSpec.
Context {G : Type} (next_u32 : G -> Z * G).

Lemma draw_coeffs_ok n : forall g cs g',
  draw_coeffs next_u32 n g = (cs, g') -> length cs = n /\ is_bytes cs.
Proof.
  induction n as [|n IH]; intros g cs g' H; simpl in H.
  - injection H as <- _. split; [done|constructor].
  - destruct (next_u32 g) as [r g1]. destruct (draw_coeffs next_u32 n g1) as [cs' g2] eqn:E.
    injection H as <- _. apply IH in E as (Hl & Hb). simpl. split; [lia|].
    constructor; [|done]. unfold is_u8.
    assert (Z.land r 255 = r mod 256) as -> by (apply (Z.land_ones r 8); lia).
    pose proof (Z.mod_pos_bound r 256). lia.
Qed.

(** The polynomials drawn for the byte positions [0 .. k-1]. *)
Definition draw_poly (secret : bytes) (threshold : Z) (st : list bytes * G) (b : nat)
  : list bytes * G :=
  let (cs, g') := draw_coeffs next_u32 (Z.to_nat threshold - 1) (snd st) in
  (fst st ++ [secret !!! b :: cs], g').
Definition draw_polys (secret : bytes) (threshold : Z) (k : nat) (g : G) : list bytes * G :=
  foldl (draw_poly secret threshold) ([], g) (seq 0 k).

Lemma draw_polys_S secret t k g :
  draw_polys secret t (S k) g = draw_poly secret t (draw_polys secret t k g) k.
Proof. unfold draw_polys. by rewrite seq_S, foldl_app. Qed.

Lemma draw_polys_ok secret t g k :
  length (fst (draw_polys secret t k g)) = k /\
  forall b p, fst (draw_polys secret t k g) !! b = Some p ->
    exists cs, p = secret !!! b :: cs /\ length cs = (Z.to_nat t - 1)%nat /\ is_bytes cs.
Proof.
  induction k as [|k (Hl & IH)]; [by split|].
  rewrite draw_polys_S. unfold draw_poly.
  destruct (draw_coeffs _ _ _) as [cs g'] eqn:E. apply draw_coeffs_ok in E as (Hcl & Hcb).
  simpl. rewrite length_app, Hl. split; [simpl; lia|]. intros b p Hp.
  apply lookup_app_Some in Hp as [Hp|(Hb & Hp)]; [by apply IH|].
  rewrite Hl in *. apply list_lookup_singleton_Some in Hp as (Eb & <-).
  replace b with k by lia. eauto.
Qed.

Definition share_buf (polys : list bytes) (i : nat) (buf : bytes) : Prop :=
  length buf = 32%nat /\
  forall b p, polys !! b = Some p ->
    buf !! b = Some (gf_poly_eval p (wrap8 (Z.of_nat i + 1))).

Lemma split_loop secret t n g k :
  (k <= 32)%nat ->
  let r := foldl (split_byte next_u32 secret t) (replicate n (replicate 32 0), g) (seq 0 k) in
  snd r = snd (draw_polys secret t k g) /\ length (fst r) = n /\
  forall i buf, fst r !! i = Some buf -> share_buf (fst (draw_polys secret t k g)) i buf.
Proof.
  induction k as [|k IH]; intros Hk; cbv zeta.
  - simpl. split; [done|]. split; [by rewrite length_replicate|].
    intros i buf H. apply lookup_replicate_1 in H as (-> & _). by split.
  - destruct IH as (Hg & Hlen & Hbuf); [lia|].
    destruct (draw_polys_ok secret t g k) as (Hpl & _).
    rewrite draw_polys_S, seq_S, foldl_app. cbn [foldl Nat.add].
    destruct (foldl _ _ (seq 0 k)) as [sd g1]. simpl in Hg, Hlen, Hbuf. subst g1.
    unfold split_byte, draw_poly.
    destruct (draw_coeffs _ _ _) as [cs g'] eqn:E. simpl. split; [done|].
    rewrite length_imap. split; [done|]. intros i buf' Hi.
    apply list_lookup_imap_Some in Hi as (buf & Hi & ->).
    destruct (Hbuf _ _ Hi) as (Hl & Hev). split; [by rewrite length_insert|].
    intros b p Hp. apply lookup_app_Some in Hp as [Hp|(Hb & Hp)].
    + pose proof (lookup_lt_Some _ _ _ Hp). rewrite list_lookup_insert_ne by lia. by apply Hev.
    + apply list_lookup_singleton_Some in Hp as (Eb & <-). replace b with k by lia.
      apply list_lookup_insert_eq. lia.
Qed.

(** A share of a split: its index and, for every byte, the value of that
    byte's polynomial. *)
Lemma split_share secret t n g shares g' i s :
  split_secret next_u32 secret t n g = (Ok shares, g') -> shares !! i = Some s ->
  2 <= t <= n /\ length shares = Z.to_nat n /\
  index s = wrap8 (Z.of_nat i + 1) /\
  share_buf (fst (draw_polys secret t 32 g)) i (data s).
Proof.
  unfold split_secret. destruct (t <? 2) eqn:Et; [done|].
  destruct (n <? t) eqn:En; [done|].
  pose proof (split_loop secret t (Z.to_nat n) g 32 (le_n _)) as (_ & Hlen & Hbuf).
  destruct (foldl _ _ _) as [sd g1]. simpl in Hlen, Hbuf. intros [= <- <-] Hi.
  apply list_lookup_imap_Some in Hi as (buf & Hi & ->). simpl. rewrite length_imap.
  bool_prop. split_and!; [lia|lia|done|done|]. by apply Hbuf.
Qed.
End SplitSpec.

Lemma share_buf_data_ok polys i s :
  length polys = 32%nat -> Forall is_bytes polys ->
  share_buf polys i (data s) -> data_ok s.
Proof.
  intros Hl Hp (Hd & Hev). split; [done|]. apply Forall_lookup. intros b x Hx.
  pose proof (lookup_lt_Some _ _ _ Hx).
  destruct (lookup_lt_is_Some_2 polys b) as (p & Hb); [lia|].
  rewrite (Hev _ _ Hb) in Hx. injection Hx as <-. apply gf_poly_eval_u8.
  - by eapply Forall_lookup_1.
  - apply u8b_spec, wrap8_u8b.
Qed.

Lemma map_lookup_total (l : bytes) : (fun b => l !!! b) <$> seq 0 (length l) = l.
Proof.
  apply list_eq. intros i. rewrite list_lookup_fmap.
  destruct (decide (i < length l)%nat) as [Hi|Hi].
  - rewrite lookup_seq_lt by done. simpl. symmetry. by apply list_lookup_lookup_total_lt.
  - rewrite !lookup_ge_None_2; [done|lia|rewrite length_seq; lia].
Qed.

Lemma bytes_lookup_total (l : bytes) b : is_bytes l -> is_u8 (l !!! b).
Proof.
  intros H. destruct (l !! b) as [x|] eqn:E.
  - rewrite (list_lookup_total_correct _ _ _ E). by eapply Forall_lookup_1.
  - rewrite list_lookup_total_alt, E. unfold is_u8; simpl; lia.
Qed.

(** A subset of the shares of a split: the facts reconstruction needs. *)
Lemma split_subset {G} (next : G -> Z * G) secret t n g shares g' (sub : list ShamirShare) :
  is_bytes secret -> n <= 255 ->
  split_secret next secret t n g = (Ok shares, g') ->
  (forall s, s ∈ sub -> s ∈ shares) ->
  forall s, s ∈ sub -> exists i,
    0 <= Z.of_nat i + 1 <= 255 /\ shares !! i = Some s /\
    index s = Z.of_nat i + 1 /\ data_ok s /\
    share_buf (fst (draw_polys next secret t 32 g)) i (data s).
Proof.
  intros Hs Hn Hsp Hsub s Hin. apply Hsub, list_elem_of_lookup in Hin as (i & Hi).
  destruct (split_share next secret t n g shares g' i s Hsp Hi) as (Ht & Hl & Hidx & Hbuf).
  pose proof (lookup_lt_Some _ _ _ Hi). exists i.
  rewrite wrap8_id in Hidx by (unfold is_u8; lia).
  split_and!; [lia|lia|done|done| |done].
  destruct (draw_polys_ok next secret t g 32) as (Hpl & Hp).
  eapply share_buf_data_ok; [exact Hpl| |exact Hbuf]. apply Forall_lookup.
  intros b p Hb. destruct (Hp _ _ Hb) as (cs & -> & _ & Hcs).
  constructor; [by apply bytes_lookup_total|done].
Qed.

Lemma fidx_nodup sub : shares_ok sub -> NoDup (fidx <$> sub).
Proof.
  intros (Hnd & Hall). induction sub as [|s sub IH]; [constructor|].
  rewrite fmap_cons in *. apply NoDup_cons in Hnd as (Hni & Hnd).
  apply Forall_cons in Hall as ((Hs & _) & Hall).
  constructor; [|by apply IH]. intros (s' & E & Hs')%list_elem_of_fmap.
  apply Hni, list_elem_of_fmap. exists s'. split; [|done].
  rewrite Forall_forall in Hall. apply to_f_inj in E; [done|done|by apply Hall].
Qed.

Section Roundtrip.
Context {G : Type} (next : G -> Z * G) (secret : bytes) (t n : Z) (g g' : G).
Context (shares sub : list ShamirShare).
Context (Hs : is_bytes secret) (Hn : n <= 255)
        (Hsp : split_secret next secret t n g = (Ok shares, g'))
        (Hsub : forall s, s ∈ sub -> s ∈ shares).

Lemma subset_shares_ok : NoDup sub -> shares_ok sub.
Proof using Hs Hn Hsp Hsub.
  pose proof (split_subset next secret t n g shares g' sub Hs Hn Hsp Hsub) as Hfacts.
  intros Hnd. split.
  - apply NoDup_fmap_2_strong; [|done]. intros s s' H1 H2 E.
    destruct (Hfacts s H1) as (i & _ & Hi & Ei & _).
    destruct (Hfacts s' H2) as (i' & _ & Hi' & Ei' & _).
    assert (i = i') as <- by lia. congruence.
  - apply Forall_forall. intros s Hin. destruct (Hfacts s Hin) as (i & ? & _ & -> & _).
    unfold is_u8. lia.
Qed.

Lemma subset_interp b :
  (b < 32)%nat -> NoDup sub -> 2 <= t <= blen sub ->
  val (finterp [] (point_at b <$> sub) (to_f 0)) = secret !!! b.
Proof using Hs Hn Hsp Hsub.
  intros Hb Hnd Ht.
  pose proof (split_subset next secret t n g shares g' sub Hs Hn Hsp Hsub) as Hfacts.
  destruct (draw_polys_ok next secret t g 32) as (Hpl & Hp).
  destruct (lookup_lt_is_Some_2 (fst (draw_polys next secret t 32 g)) b) as (p & Hpb); [lia|].
  destruct (Hp _ _ Hpb) as (cs & -> & Hcl & Hcs).
  pose proof (bytes_lookup_total secret b Hs) as Hsb. unfold blen in Ht.
  rewrite (interp_peval _ _ _ _ _ _ _ _ f8_field (to_f <$> (secret !!! b :: cs))).
  - rewrite fmap_cons. cbn [peval].
    transitivity (val (to_f (secret !!! b))); [|by apply val_to_f]. f_equal. ring.
  - rewrite map_fst_points. by apply NoDup_ListNoDup, fidx_nodup, subset_shares_ok.
  - rewrite !length_fmap. simpl. lia.
  - destruct sub; [simpl in Ht; lia|done].
  - intros x y Hin. apply list_elem_of_In, list_elem_of_fmap in Hin as (s & [= -> ->] & Hin).
    destruct (Hfacts s Hin) as (i & Hi & _ & Ei & _ & _ & Hev).
    apply val_inj. unfold fidx. rewrite <- gf_poly_eval_peval;
      [|by constructor | unfold is_u8; lia].
    rewrite (list_lookup_total_correct _ _ _ (Hev _ _ Hpb)), Ei.
    rewrite wrap8_id by (unfold is_u8; lia). rewrite val_to_f; [done|].
    apply gf_poly_eval_u8; [by constructor | unfold is_u8; lia].
Qed.
End Roundtrip.

Lemma split_ok_threshold {G} (next : G -> Z * G) secret t n g shares g' :
  split_secret next secret t n g = (Ok shares, g') -> 2 <= t <= n.
Proof. unfold split_secret. repeat case_match; intros; simplify_eq; bool_prop; lia. Qed.

(** Reconstruction from a part of the shares, for the components that split a secret. *)
Lemma combine_subset {G} (next : G -> Z * G) secret t n g shares g'
    (sub : list ShamirShare) :
  is_bytes secret -> length secret = 32%nat -> n <= 255 ->
  split_secret next secret t n g = (Ok shares, g') ->
  (forall s, s ∈ sub -> s ∈ shares) -> NoDup sub -> t <= blen sub ->
  combine_shares sub = Ok secret.
Proof.
  intros Hs Hlen Hn Hsp Hsub Hnd Ht.
  pose proof (split_ok_threshold _ _ _ _ _ _ _ Hsp).
  rewrite combine_shares_interp.
  - f_equal. etransitivity; [|apply map_lookup_total]. rewrite Hlen.
    apply list_fmap_ext. intros b0 b Hb. apply lookup_seq in Hb as (-> & Hb). simpl.
    eapply subset_interp; eauto. lia.
  - unfold blen in Ht. lia.
  - eapply subset_shares_ok; eauto.
  - apply Forall_forall. intros s Hin.
    by destruct (split_subset next secret t n g shares g' sub Hs Hn Hsp Hsub s Hin)
      as (? & _ & _ & _ & ? & _).
Qed.

(** C5: any [threshold] (or more) distinct shares produced by [split_secret],
    whatever the random generator, are combined by [combine_shares] into the
    original 32-byte secret. *)
Theorem split_combine_roundtrip {G} (next : G -> Z * G) secret t n g shares g'
    (sub : list ShamirShare) :
  is_bytes secret -> length secret = 32%nat -> n <= 255 ->
  split_secret next secret t n g = (Ok shares, g') ->
  (forall s, s ∈ sub -> s ∈ shares) -> NoDup sub -> t <= blen sub ->
  combine_shares sub = Ok secret.
Proof. apply combine_subset. Qed.

(** A linear congruential generator, for the examples. *)
Definition lcg (g : Z) : Z * Z := let g' := (g * 1103515245 + 12345) mod 4294967296 in (g', g').
Definition sample_secret : bytes := seqZ 100 32.
Definition sample_shares : list ShamirShare :=
  match fst (split_secret lcg sample_secret 3 5 42) with Ok l => l | Err _ => [] end.

Lemma split_combine_roundtrip_witness :
  combine_shares (drop 2 sample_shares) = Ok sample_secret.
Proof.
  apply (split_combine_roundtrip lcg sample_secret 3 5 42 sample_shares
           (snd (split_secret lcg sample_secret 3 5 42))).
  - apply (bool_decide_eq_true_1 (is_bytes sample_secret)). vm_compute. reflexivity.
  - reflexivity.
  - lia.
  - vm_compute. reflexivity.
  - intros s Hs. rewrite <- (take_drop 2 sample_shares). apply elem_of_app. by right.
  - apply (bool_decide_eq_true_1 (NoDup (drop 2 sample_shares))). vm_compute. reflexivity.
  - vm_compute. discriminate.
Defined.

(** ** Secrecy below the threshold *)

Definition on_points (cs : bytes) (pts : list (Z * Z)) : Prop :=
  Forall (fun '(x, y) => gf_poly_eval cs x = y) pts.
Definition points_ok (pts : list (Z * Z)) : Prop :=
  NoDup pts.*1 /\ Forall (fun '(x, y) => is_u8 x /\ x <> 0 /\ is_u8 y) pts.

Definition fpoint (p : Z * Z) : F8 * F8 := (to_f (fst p), to_f (snd p)).

Lemma fpoints_nodup pts : points_ok pts -> List.NoDup (map fst (fpoint <$> pts)).
Proof.
  intros (Hnd & Hall). apply NoDup_ListNoDup. induction pts as [|[x y] pts IH]; [constructor|].
  rewrite fmap_cons in *. apply NoDup_cons in Hnd as (Hni & Hnd).
  apply Forall_cons in Hall as ((Hx & _) & Hall). simpl. constructor; [|by apply IH].
  intros Hin%list_elem_of_In. apply in_map_iff in Hin as (q & E & Hin).
  apply list_elem_of_In, list_elem_of_fmap in Hin as ([x' y'] & -> & Hin). simpl in E.
  apply Hni, list_elem_of_fmap. exists (x', y'). split; [|done].
  rewrite Forall_forall in Hall. destruct (Hall _ Hin).
  by apply to_f_inj in E.
Qed.

Lemma fpoints_nonzero pts : points_ok pts -> ~ In (to_f 0) (map fst (fpoint <$> pts)).
Proof.
  intros (_ & Hall) Hin. apply in_map_iff in Hin as (q & E & Hin).
  apply list_elem_of_In, list_elem_of_fmap in Hin as ([x y] & -> & Hin). simpl in E.
  rewrite Forall_forall in Hall. destruct (Hall _ Hin) as (Hx & Hne & _).
  apply (f_equal val) in E. rewrite val_to_f, val_0 in E; done.
Qed.

Lemma on_points_field s cs pts :
  is_bytes (s :: cs) -> points_ok pts ->
  (forall x y, In (x, y) (fpoint <$> pts) -> fpeval (to_f s :: (to_f <$> cs)) x = y)
  <-> on_points (s :: cs) pts.
Proof.
  intros Hcs (_ & Hall). unfold on_points. rewrite Forall_forall in Hall. rewrite Forall_forall.
  rewrite <- fmap_cons. split.
  - intros H [x y] Hin. destruct (Hall _ Hin) as (Hx & _ & Hy).
    rewrite gf_poly_eval_peval, (H (to_f x) (to_f y)), val_to_f; try done.
    apply list_elem_of_In, list_elem_of_fmap. by exists (x, y).
  - intros H x y Hin. apply list_elem_of_In, list_elem_of_fmap in Hin as ([x' y'] & [= -> ->] & Hin).
    destruct (Hall _ Hin) as (Hx & _ & Hy). specialize (H _ Hin). cbn [fst snd].
    apply val_inj. by rewrite <- gf_poly_eval_peval, H, val_to_f.
Qed.

Lemma fmap_val_to_f cs : is_bytes cs -> val <$> (to_f <$> cs) = cs.
Proof.
  intros H. rewrite <- list_fmap_compose. rewrite <- (list_fmap_id cs) at 2.
  apply Forall_fmap_ext. eapply Forall_impl; [exact H|]. intros z Hz. by apply val_to_f.
Qed.

Lemma fmap_to_f_val (cs : list F8) : to_f <$> (val <$> cs) = cs.
Proof. induction cs as [|a cs IH]; [done|]. rewrite !fmap_cons, to_f_val. by f_equal. Qed.

Lemma fmap_val_bytes (cs : list F8) : is_bytes (val <$> cs).
Proof. apply Forall_fmap, Forall_true. intros; apply val_u8. Qed.

Lemma secrecy_exists s pts :
  is_u8 s -> points_ok pts ->
  exists cs, (is_bytes cs /\ length cs = length pts) /\ on_points (s :: cs) pts.
Proof.
  intros Hs Hok.
  destruct (coefficients_bijection _ _ _ _ _ _ _ _ f8_field (to_f s) (fpoint <$> pts)
              (fpoints_nodup _ Hok) (fpoints_nonzero _ Hok)) as (cs & (Hl & Hev) & _).
  rewrite length_fmap in Hl. exists (val <$> cs).
  split; [split; [apply fmap_val_bytes | by rewrite length_fmap]|].
  apply on_points_field; [constructor; [done|apply fmap_val_bytes] | done |].
  by rewrite fmap_to_f_val.
Qed.

(** C6: for a fixed secret byte and any values at [threshold - 1] distinct
    nonzero share indices there is exactly one vector of [threshold - 1]
    random coefficients that produces those values: the shares held below the
    threshold are equally likely under every secret. *)
Theorem shamir_perfect_secrecy s pts :
  is_u8 s -> points_ok pts ->
  exists! cs, (is_bytes cs /\ length cs = length pts) /\ on_points (s :: cs) pts.
Proof.
  intros Hs Hok. destruct (secrecy_exists s pts Hs Hok) as (cs & (Hb & Hl) & Hon).
  exists cs. split; [done|]. intros cs' ((Hb' & Hl') & Hon').
  destruct (coefficients_bijection _ _ _ _ _ _ _ _ f8_field (to_f s) (fpoint <$> pts)
              (fpoints_nodup _ Hok) (fpoints_nonzero _ Hok)) as (ds & _ & Huniq).
  assert (forall es, is_bytes es -> length es = length pts -> on_points (s :: es) pts ->
            ds = to_f <$> es) as Heq.
  { intros es He Hle Hone. apply Huniq. rewrite !length_fmap. split; [done|].
    apply on_points_field; [by constructor | done | done]. }
  rewrite <- (fmap_val_to_f cs Hb), <- (fmap_val_to_f cs' Hb').
  by rewrite <- (Heq cs), <- (Heq cs').
Qed.

Lemma shamir_perfect_secrecy_witness :
  exists! cs, (is_bytes cs /\ length cs = 2%nat) /\ on_points (77 :: cs) [(3, 200); (9, 14)].
Proof.
  apply (shamir_perfect_secrecy 77 [(3, 200); (9, 14)]).
  - unfold is_u8; lia.
  - split; [apply (bool_decide_eq_true_1 (NoDup [3; 9])); reflexivity|].
    repeat constructor; unfold is_u8; simpl; lia.
Defined.

(** A generator that replays a list of draws. *)
Definition replay (l : list Z) : Z * list Z :=
  match l with [] => (0, []) | x :: rest => (x, rest) end.

Lemma draw_coeffs_replay cs rest :
  is_bytes cs -> draw_coeffs replay (length cs) (cs ++ rest) = (cs, rest).
Proof.
  induction 1 as [|c cs Hc Hcs IH]; [done|]. simpl. rewrite IH. do 2 f_equal.
  assert (Z.land c 255 = c mod 256) as -> by (apply (Z.land_ones c 8); lia).
  by apply wrap8_id.
Qed.

Lemma draw_polys_replay secret t css : forall rest,
  Forall (fun cs => is_bytes cs /\ length cs = (Z.to_nat t - 1)%nat) css ->
  draw_polys replay secret t (length css) (concat css ++ rest)
  = (imap (fun b cs => secret !!! b :: cs) css, rest).
Proof.
  induction css as [|cs css IH] using rev_ind; intros rest Hall; [done|].
  apply Forall_app in Hall as (Hall & Hcs). apply Forall_singleton in Hcs as (Hb & Hl).
  rewrite length_app. simpl. rewrite Nat.add_1_r, draw_polys_S.
  rewrite concat_app. simpl. rewrite app_nil_r, <- app_assoc, IH by done.
  unfold draw_poly. cbn [fst snd]. rewrite <- Hl, draw_coeffs_replay by done.
  rewrite imap_app. simpl. by rewrite Nat.add_0_r.
Qed.

Lemma choose_list {A} (P : nat -> A -> Prop) k :
  (forall b, (b < k)%nat -> exists x, P b x) ->
  exists l, length l = k /\ forall b x, l !! b = Some x -> P b x.
Proof.
  induction k as [|k IH]; intros H; [by exists []|].
  destruct IH as (l & Hl & Hp); [intros; apply H; lia|].
  destruct (H k) as (x & Hx); [lia|]. exists (l ++ [x]). rewrite length_app. simpl.
  split; [lia|]. intros b y [Hy|(Hb & Hy)]%lookup_app_Some; [by apply Hp|].
  apply list_lookup_singleton_Some in Hy as (Eb & <-). by replace b with k by lia.
Qed.

Lemma split_secret_total {G} (next : G -> Z * G) secret t n g :
  2 <= t <= n -> exists shares g',
    split_secret next secret t n g = (Ok shares, g') /\ length shares = Z.to_nat n.
Proof.
  intros Ht. unfold split_secret. rewrite (proj2 (Z.ltb_ge t 2)) by lia.
  rewrite (proj2 (Z.ltb_ge n t)) by lia.
  pose proof (split_loop next secret t (Z.to_nat n) g 32 (le_n _)) as (_ & Hlen & _).
  destruct (foldl _ _ _) as [sd g1]. simpl in Hlen. do 2 eexists. split; [done|].
  by rewrite length_imap.
Qed.

(** The points that a set of shares reveals about byte [b]. *)
Definition points_of (b : nat) (sub : list ShamirShare) : list (Z * Z) :=
  (fun s => (index s, data s !!! b)) <$> sub.

Lemma points_of_ok b sub : shares_ok sub -> Forall data_ok sub -> points_ok (points_of b sub).
Proof.
  intros (Hnd & Hall) Hd. split.
  - unfold points_of. by rewrite <- list_fmap_compose.
  - apply Forall_fmap. rewrite Forall_forall in Hd. rewrite Forall_forall in Hall.
    apply Forall_forall. intros s Hs. destruct (Hall _ Hs). simpl.
    split_and!; [done..|by apply data_byte, Hd].
Qed.

(** Two buffers that hold, at every byte, the value of the same polynomials. *)
Lemma same_data (secret2 : bytes) css i (sub : list ShamirShare) ix ds ds2 :
  0 <= Z.of_nat i + 1 <= 255 -> ix = Z.of_nat i + 1 ->
  length css = 32%nat -> length ds = 32%nat -> length ds2 = 32%nat ->
  {| index := ix; data := ds |} ∈ sub ->
  (forall b cs, css !! b = Some cs ->
     (is_bytes cs /\ length cs = length (points_of b sub)) /\
     on_points (secret2 !!! b :: cs) (points_of b sub)) ->
  (forall b p, imap (fun b cs => secret2 !!! b :: cs) css !! b = Some p ->
     ds2 !! b = Some (gf_poly_eval p (wrap8 (Z.of_nat i + 1)))) ->
  ds2 = ds.
Proof.
  intros Hi -> Hcl Hds Hds2 Hin Hcss Hev. apply list_eq_same_length with 32%nat; [done..|].
  intros b x y Hb Hx Hy.
  destruct (lookup_lt_is_Some_2 css b) as (cs & Hc); [lia|].
  destruct (Hcss _ _ Hc) as (_ & Hon).
  assert (imap (fun b cs => secret2 !!! b :: cs) css !! b = Some (secret2 !!! b :: cs)) as Hp.
  { apply list_lookup_imap_Some. eauto. }
  rewrite (Hev _ _ Hp) in Hx. injection Hx as <-.
  rewrite wrap8_id by (unfold is_u8; lia).
  unfold on_points, points_of in Hon. rewrite Forall_fmap, Forall_forall in Hon.
  specialize (Hon _ Hin). simpl in Hon. rewrite Hon.
  by rewrite (list_lookup_total_correct _ _ _ Hy).
Qed.

Lemma split_final_state {G} (next : G -> Z * G) secret t n g shares g' :
  split_secret next secret t n g = (Ok shares, g') ->
  g' = snd (draw_polys next secret t 32 g).
Proof.
  pose proof (split_loop next secret t (Z.to_nat n) g 32 (le_n _)) as (Hg & _).
  unfold split_secret. repeat case_match; intros; simplify_eq. exact Hg.
Qed.

(** [threshold - 1] shares of a split of one secret are also shares of a
    split of any other secret under some draws of the generator. *)
Theorem split_hides_secret {G} (next : G -> Z * G) secret secret2 t n g shares g'
    (sub : list ShamirShare) :
  is_bytes secret -> is_bytes secret2 -> n <= 255 ->
  split_secret next secret t n g = (Ok shares, g') ->
  (forall s, s ∈ sub -> s ∈ shares) -> NoDup sub -> blen sub = t - 1 ->
  exists draws shares2, split_secret replay secret2 t n draws = (Ok shares2, []) /\
                        forall s, s ∈ sub -> s ∈ shares2.
Proof.
  intros Hs Hs2 Hn Hsp Hsub Hnd Hlen.
  pose proof (split_ok_threshold _ _ _ _ _ _ _ Hsp) as Ht.
  pose proof (split_subset next secret t n g shares g' sub Hs Hn Hsp Hsub) as Hfacts.
  assert (shares_ok sub) as Hok
    by exact (subset_shares_ok next secret t n g g' shares sub Hs Hn Hsp Hsub Hnd).
  assert (Forall data_ok sub) as Hdata.
  { apply Forall_forall. intros s Hin. by destruct (Hfacts s Hin) as (? & _ & _ & _ & ? & _). }
  destruct (choose_list (fun b cs => (is_bytes cs /\ length cs = length (points_of b sub)) /\
      on_points (secret2 !!! b :: cs) (points_of b sub)) 32) as (css & Hcl & Hcss).
  { intros b _. apply secrecy_exists; [by apply bytes_lookup_total | by apply points_of_ok]. }
  assert (Forall (fun cs => is_bytes cs /\ length cs = (Z.to_nat t - 1)%nat) css) as Hdraw.
  { apply Forall_lookup. intros b cs Hb. destruct (Hcss _ _ Hb) as ((? & ->) & _).
    unfold points_of, blen in *. rewrite length_fmap. split; [done|lia]. }
  pose proof (draw_polys_replay secret2 t css [] Hdraw) as Hpolys.
  rewrite Hcl, app_nil_r in Hpolys.
  destruct (split_secret_total replay secret2 t n (concat css) Ht) as (shares2 & g2 & Hsp2 & Hl2).
  exists (concat css), shares2. split.
  - rewrite Hsp2. f_equal. by rewrite (split_final_state _ _ _ _ _ _ _ Hsp2), Hpolys.
  - intros s Hin. destruct (Hfacts s Hin) as (i & Hi & Hsi & Ei & (Hds & _) & _).
    destruct (split_share next secret t n g shares g' i s Hsp Hsi) as (_ & Hl1 & _).
    pose proof (lookup_lt_Some _ _ _ Hsi).
    destruct (lookup_lt_is_Some_2 shares2 i) as (s2 & Hs2i); [lia|].
    destruct (split_share replay secret2 t n _ shares2 g2 i s2 Hsp2 Hs2i) as (_ & _ & Ei2 & Hd2 & Hev).
    rewrite wrap8_id in Ei2 by (unfold is_u8; lia).
    assert (s2 = s) as <-; [|by eapply list_elem_of_lookup_2].
    destruct s as [ix ds], s2 as [ix2 ds2]. simpl in *. f_equal; [lia|].
    rewrite Hpolys in Hev. by apply (same_data secret2 css i sub ix ds ds2).
Qed.

Lemma split_hides_secret_witness :
  exists draws shares2,
    split_secret replay (replicate 32 0) 3 5 draws = (Ok shares2, []) /\
    forall s, s ∈ take 2 sample_shares -> s ∈ shares2.
Proof.
  apply (split_hides_secret lcg sample_secret (replicate 32 0) 3 5 42 sample_shares
           (snd (split_secret lcg sample_secret 3 5 42)) (take 2 sample_shares)).
  - apply (bool_decide_eq_true_1 (is_bytes sample_secret)). vm_compute. reflexivity.
  - apply (bool_decide_eq_true_1 (is_bytes (replicate 32 0))). vm_compute. reflexivity.
  - lia.
  - vm_compute. reflexivity.
  - intros s Hs. rewrite <- (take_drop 2 sample_shares). apply elem_of_app. by left.
  - apply (bool_decide_eq_true_1 (NoDup (take 2 sample_shares))). vm_compute. reflexivity.
  - vm_compute. reflexivity.
Defined.

(** ** Totality and rejection *)

(** [split_secret] succeeds exactly when [2 <= threshold <= total_shares],
    and then hands out [total_shares] shares of 32 bytes with the distinct
    nonzero indices 1, 2, ..., [total_shares]. *)
Theorem split_secret_spec {G} (next : G -> Z * G) secret t n g :
  is_bytes secret -> n <= 255 ->
  match split_secret next secret t n g with
  | (Ok shares, _) => 2 <= t <= n /\ index <$> shares = seqZ 1 n /\ Forall data_ok shares
  | (Err e, g') => g' = g /\ (t < 2 \/ n < t) /\ exists m, e = ThresholdError m
  end.
Proof.
  intros Hs Hn. destruct (split_secret next secret t n g) as [[shares|e] g'] eqn:E.
  - pose proof (split_ok_threshold _ _ _ _ _ _ _ E) as Ht. split; [done|].
    pose proof (split_subset next secret t n g shares g' shares Hs Hn E (fun s H => H)) as Hf.
    split; [|apply Forall_forall; intros s Hin; by destruct (Hf s Hin) as (? & _ & _ & _ & ? & _)].
    destruct (split_secret_total next secret t n g Ht) as (? & ? & E' & Hl).
    rewrite E in E'. simplify_eq.
    apply list_eq_same_length with (Z.to_nat n);
      [by rewrite length_seqZ | by rewrite length_fmap |].
    intros i u v Hi Hu Hv. rewrite list_lookup_fmap in Hu.
    apply fmap_Some in Hu as (s & Hsi & ->).
    apply lookup_seqZ in Hv as (-> & _).
    destruct (split_share next secret t n g _ _ i s E Hsi) as (_ & _ & -> & _).
    rewrite wrap8_id by (unfold is_u8; lia). lia.
  - revert E. unfold split_secret. repeat case_match; intros; simplify_eq; bool_prop; eauto 6.
Qed.

Lemma split_secret_spec_witness :
  index <$> sample_shares = seqZ 1 5.
Proof.
  pose proof (split_secret_spec lcg sample_secret 3 5 42) as H.
  assert (split_secret lcg sample_secret 3 5 42
          = (Ok sample_shares, snd (split_secret lcg sample_secret 3 5 42))) as E
    by (vm_compute; reflexivity).
  rewrite E in H. apply H; [|lia].
  apply (bool_decide_eq_true_1 (is_bytes sample_secret)). vm_compute. reflexivity.
Defined.

(** On shares with byte indices and 32-byte payloads, [combine_shares]
    succeeds exactly when there are at least two shares, no index is zero and
    no index is repeated; otherwise it reports a threshold error. *)
Theorem combine_shares_accepts shares :
  Forall (fun s => is_u8 (index s)) shares -> Forall data_ok shares ->
  match combine_shares shares with
  | Ok out => (2 <= length shares)%nat /\ shares_ok shares /\ length out = 32%nat /\ is_bytes out
  | Err e => ~ ((2 <= length shares)%nat /\ shares_ok shares) /\ exists m, e = ThresholdError m
  end.
Proof.
  intros Hu Hd.
  destruct (decide ((2 <= length shares)%nat /\ NoDup (index <$> shares)
                    /\ Forall (fun s => index s <> 0) shares)) as [(Hl & Hnd & H0)|Hbad].
  - assert (shares_ok shares) as Hok by (split; [done|]; by apply Forall_and).
    rewrite combine_shares_interp by done. split_and!; [done..| |].
    + by rewrite length_fmap.
    + apply Forall_fmap, Forall_true. intros; apply val_u8.
  - assert (~ ((2 <= length shares)%nat /\ shares_ok shares)) as Hn.
    { intros (Hl & Hnd & H0). apply Hbad. apply Forall_and in H0. tauto. }
    unfold combine_shares. destruct (Nat.eqb _ _) eqn:E0; [eauto|].
    destruct (try_fold check_index ∅ shares) as [seen|e] eqn:Ef; simpl.
    + destruct (Nat.ltb _ _) eqn:El; [eauto|]. exfalso. apply Hbad.
      apply Nat.ltb_ge in El. pose proof (check_index_result _ _ _ Ef) as ->.
      apply check_index_fold in Ef as (Hnd & H0). split_and!; [done..|].
      eapply Forall_impl; [exact H0|]. simpl. tauto.
    + split; [done|]. by eapply check_index_error.
Qed.

Lemma combine_shares_accepts_witness :
  match combine_shares sample_shares with
  | Ok out => (2 <= length sample_shares)%nat /\ shares_ok sample_shares /\
              length out = 32%nat /\ is_bytes out
  | Err e => False
  end.
Proof.
  pose proof (combine_shares_accepts sample_shares) as H.
  assert (is_ok (combine_shares sample_shares) = true) as Hok by (vm_compute; reflexivity).
  destruct (combine_shares sample_shares); [|discriminate Hok]. apply H.
  - apply (bool_decide_eq_true_1 (Forall (fun s => is_u8 (index s)) sample_shares)).
    vm_compute. reflexivity.
  - apply (bool_decide_eq_true_1
      (Forall (fun s => length (data s) = 32%nat /\ is_bytes (data s)) sample_shares)).
    vm_compute. reflexivity.
Defined.

(** [gf_mul], exclusive or and [gf_div] are the operations of a field on
    bytes: closed, commutative, associative, distributive, with unit 1, every
    nonzero byte invertible and division by zero rejected. *)
Theorem gf_byte_field a b c :
  is_u8 a -> is_u8 b -> is_u8 c ->
  is_u8 (gf_mul a b) /\ gf_mul a b = gf_mul b a /\
  gf_mul a (gf_mul b c) = gf_mul (gf_mul a b) c /\
  gf_mul a (Z.lxor b c) = Z.lxor (gf_mul a b) (gf_mul a c) /\
  gf_mul 1 a = a /\
  match gf_div a b with
  | Ok q => b <> 0 /\ is_u8 q /\ gf_mul q b = a
  | Err e => b = 0 /\ e = ThresholdError "Division by zero in GF(2^8)"
  end.
Proof.
  intros Ha Hb Hc. split_and!; auto using gf_mul_u8, gf_mul_comm, gf_mul_assoc,
    gf_mul_xor_r, gf_mul_1_l.
  destruct (decide (b = 0)) as [->|Hne]; [done|].
  rewrite gf_div_field by done. split_and!; [done|apply val_u8|].
  rewrite <- (val_to_f b) at 2 by done. rewrite <- val_fmul.
  rewrite <- (val_to_f a) at 2 by done. f_equal. field.
  intros E. apply Hne. apply to_f_inj in E; [done|done|unfold is_u8; lia].
Qed.

Lemma gf_byte_field_witness : gf_mul 0x53 (gf_mul 0xCA 7) = gf_mul (gf_mul 0x53 0xCA) 7.
Proof. apply (gf_byte_field 0x53 0xCA 7); unfold is_u8; lia. Defined.

(** ** Text form of a share *)

Lemma lower_hex_not_space c : is_lower_hex c = true -> is_whitespace c = false.
Proof. unfold is_lower_hex, is_whitespace, is_ascii_digit. lia. Qed.

Lemma trim_0x_id s : Forall (fun c => is_lower_hex c = true) s -> trim_0x s = s.
Proof.
  destruct 1 as [|c1 s _ Hs]; [done|]. destruct Hs as [|c2 s H2 _].
  - simpl. repeat case_match; done.
  - assert (c2 <> 120) as Hne by (intros ->; discriminate H2).
    simpl. repeat case_match; simplify_eq; try done.
Qed.

(** Printing a share and parsing it back under the same index gives the
    share. *)
Theorem share_hex_roundtrip (HX : Hex) (HL : HexLaws HX) s :
  data_ok s -> from_hex (index s) (to_hex s) = Ok s.
Proof.
  intros (Hl & Hb). unfold from_hex, to_hex. pose proof (hex_encode_digits _ Hb) as Hd.
  rewrite trim_id, trim_0x_id, hex_decode_encode; [|done..|].
  - simpl. unfold blen. rewrite Hl. by destruct s.
  - eapply Forall_impl; [exact Hd|]. simpl. apply lower_hex_not_space.
Qed.

Lemma share_hex_roundtrip_witness :
  from_hex 9 (to_hex {| index := 9; data := sample_secret |})
  = Ok {| index := 9; data := sample_secret |}.
Proof.
  apply (share_hex_roundtrip sample_hex sample_hex_laws {| index := 9; data := sample_secret |}).
  split; [reflexivity|].
  apply (bool_decide_eq_true_1 (is_bytes sample_secret)). vm_compute. reflexivity.
Defined.
