(* ===== verification/FastCdc.v ===== *)
(** * Content-defined chunking

    Model of src/crates/snapshot/src/fastcdc.rs: the SplitMix64 gear matrix, the
    configuration with its two masks, the named profiles, and the chunking loop
    with its two phases.  Sizes are [usize] values kept in [Z]; the rolling hash
    is a wrapping [u64].

    A while loop is a [Fixpoint] on fuel.  The inner loops get the number of
    iterations that their bound leaves, so they never stop early.  The outer
    loop gets one unit of fuel per input byte plus one and returns [None] when
    it would run on; [fastcdc_partition] shows that a configuration accepted by
    [FastCdcConfig::new] never runs out. *)

From S2P Require Import Prelude.

(** ** The gear matrix *)

Fixpoint gear_rows (n : nat) (state : Z) : list Z :=
  match n with
  | O => []
  | S n' =>
      let state' := wrap64 (state + 0x9e3779b97f4a7c15) in
      let z := state' in
      let z := wrap64 (Z.lxor z (Z.shiftr z 30) * 0xbf58476d1ce4e5b9) in
      let z := wrap64 (Z.lxor z (Z.shiftr z 27) * 0x94d049bb133111eb) in
      Z.lxor z (Z.shiftr z 31) :: gear_rows n' state'
  end.

Definition generate_gear_matrix : list Z := gear_rows 256 0x853c49e6748fea9b.
Definition GEAR_MATRIX : list Z := Eval vm_compute in generate_gear_matrix.

(** ** Configuration *)

Definition DEFAULT_MIN_SIZE : Z := 4 * 1024.
Definition DEFAULT_AVG_SIZE : Z := 16 * 1024.
Definition DEFAULT_MAX_SIZE : Z := 64 * 1024.

Record FastCdcConfig : Type := {
  min_size : Z;
  avg_size : Z;
  max_size : Z;
  mask_s : Z;
  mask_l : Z;
}.

(** [FastCdcConfig::new]; [None] is the panic of a failed assertion or of an
    oversized shift.  [next_power_of_two().trailing_zeros()] is the rounded-up
    binary logarithm. *)
Definition config_new (min_size avg_size max_size : Z) : option FastCdcConfig :=
  if negb (0 <? min_size) then None
  else if negb (min_size <=? avg_size) then None
  else if negb (avg_size <=? max_size) then None
  else
    let bits := Z.log2_up avg_size in
    if 64 <=? bits + 1 then None
    else
      Some {| min_size := min_size; avg_size := avg_size; max_size := max_size;
              mask_s := sat_sub (Z.shiftl 1 (bits + 1)) 1;
              mask_l := sat_sub (Z.shiftl 1 (sat_sub bits 1)) 1 |}.

Definition config_default : option FastCdcConfig :=
  config_new DEFAULT_MIN_SIZE DEFAULT_AVG_SIZE DEFAULT_MAX_SIZE.

Definition config_from_profile (profile : str) : option FastCdcConfig :=
  let p := to_ascii_lowercase <$> trim profile in
  if bool_decide (p = lit "small") then config_new (2 * 1024) (8 * 1024) (32 * 1024)
  else if bool_decide (p = lit "large") then config_new (16 * 1024) (64 * 1024) (256 * 1024)
  else config_default.

(** The argument is the value of CIPHERVAULT_CHUNK_PROFILE when it is set. *)
Definition config_from_env (env : option str) : option FastCdcConfig :=
  match env with
  | Some profile => config_from_profile profile
  | None => config_default
  end.

(** ** Chunking *)

(** [while i < limit]: the position and hash the loop stops with and the cut it
    found, if any.  [fuel] is [limit - i]. *)
Fixpoint scan (fuel : nat) (data : bytes) (cursor : Z) (mask : Z) (i hash : Z)
  : Z * Z * option Z :=
  match fuel with
  | O => (i, hash, None)
  | S fuel' =>
      let byte := data !!! Z.to_nat (cursor + i) in
      let hash' := wrap64 (wrap64 (Z.shiftl hash 1) + GEAR_MATRIX !!! Z.to_nat byte) in
      if Z.land hash' mask =? 0 then (i, hash', Some (i + 1))
      else scan fuel' data cursor mask (i + 1) hash'
  end.

(** The cut point of the chunk that starts at [cursor] when more than
    [min_size] bytes remain. *)
Definition cut_point (config : FastCdcConfig) (data : bytes) (cursor : Z) : Z :=
  let remaining := blen data - cursor in
  let max_chunk := Z.min remaining (max_size config) in
  let normal_split := Z.min remaining (avg_size config) in
  let i := min_size config in
  let '(i1, hash1, found1) :=
    scan (Z.to_nat (normal_split - i)) data cursor (mask_s config) i 0 in
  let cut1 := default max_chunk found1 in
  if (cut1 =? max_chunk) && (normal_split <? max_chunk) then
    let '(_, _, found2) :=
      scan (Z.to_nat (max_chunk - i1)) data cursor (mask_l config) i1 hash1 in
    default cut1 found2
  else cut1.

Definition slice (data : bytes) (from to : Z) : bytes :=
  take (Z.to_nat (to - from)) (drop (Z.to_nat from) data).

Fixpoint chunk_loop (fuel : nat) (config : FastCdcConfig) (data : bytes) (cursor : Z)
  : option (list bytes) :=
  if cursor <? blen data then
    match fuel with
    | O => None
    | S fuel' =>
        let remaining := blen data - cursor in
        if remaining <=? min_size config then Some [slice data cursor (blen data)]
        else
          let cut := cut_point config data cursor in
          rest ← chunk_loop fuel' config data (cursor + cut);
          Some (slice data cursor (cursor + cut) :: rest)
    end
  else Some [].

Definition fastcdc_chunk (config : FastCdcConfig) (data : bytes) : option (list bytes) :=
  if Nat.eqb (length data) 0 then Some []
  else chunk_loop (S (length data)) config data 0.

#[global] Instance FastCdcConfig_eq_dec : EqDecision FastCdcConfig.
Proof. solve_decision. Defined.

(** ** Configurations are valid *)

Definition config_ok (c : FastCdcConfig) : Prop :=
  0 < min_size c /\ min_size c <= avg_size c <= max_size c.

Lemma config_new_ok a b c cfg : config_new a b c = Some cfg -> config_ok cfg.
Proof.
  unfold config_new. repeat case_match; intros; simplify_eq; bool_prop.
  unfold config_ok; simpl; lia.
Qed.

Lemma config_from_env_ok env : exists cfg, config_from_env env = Some cfg /\ config_ok cfg.
Proof.
  assert (forall a b c, is_Some (config_new a b c) ->
            exists cfg, config_new a b c = Some cfg /\ config_ok cfg) as H.
  { intros a b c (cfg & E). eauto using config_new_ok. }
  destruct env as [p|]; simpl; [unfold config_from_profile; repeat case_match|];
    apply H; eexists; reflexivity.
Qed.

(** Every profile name, known or not, and an unset variable select a valid
    configuration: positive minimum, ordered sizes. *)
Theorem config_from_env_valid env :
  exists cfg, config_from_env env = Some cfg /\ config_ok cfg.
Proof. apply config_from_env_ok. Qed.

(** ** The cut point *)

Lemma scan_spec fuel : forall data cursor mask i hash i' hash' found,
  scan fuel data cursor mask i hash = (i', hash', found) ->
  i <= i' <= i + Z.of_nat fuel /\
  match found with
  | Some cut => cut = i' + 1 /\ cut <= i + Z.of_nat fuel
  | None => i' = i + Z.of_nat fuel
  end.
Proof.
  induction fuel as [|fuel IH]; intros data cursor mask i hash i' hash' found; simpl.
  - intros [= <- <- <-]. lia.
  - case_match.
    + intros [= <- <- <-]. lia.
    + intros Hs%IH. destruct found; lia.
Qed.

Lemma cut_point_bounds config data cursor :
  config_ok config -> 0 <= cursor -> min_size config < blen data - cursor ->
  min_size config <= cut_point config data cursor
  /\ cut_point config data cursor <= Z.min (blen data - cursor) (max_size config).
Proof.
  intros (Hmin & Hord) Hc Hrem. unfold cut_point.
  destruct (scan _ _ _ (mask_s config) _ _) as [[i1 h1] f1] eqn:E1.
  apply scan_spec in E1 as (Hi1 & Hf1).
  assert (min_size config <= default (Z.min (blen data - cursor) (max_size config)) f1
          <= Z.min (blen data - cursor) (max_size config)) as Hcut.
  { destruct f1 as [cut|]; simpl in *; lia. }
  destruct (andb _ _) eqn:E; [|lia].
  destruct (scan _ _ _ (mask_l config) _ _) as [[i2 h2] f2] eqn:E2.
  apply scan_spec in E2 as (Hi2 & Hf2). destruct f2 as [cut|]; simpl in *; [|lia].
  destruct f1; simpl in *; lia.
Qed.

(** ** Termination, partition and size bounds *)

Lemma slice_length data from to :
  0 <= from <= to -> to <= blen data -> blen (slice data from to) = to - from.
Proof. unfold slice, blen. intros. rewrite length_take, length_drop. lia. Qed.

Lemma slice_drop data from to :
  0 <= from <= to -> drop (Z.to_nat from) data = slice data from to ++ drop (Z.to_nat to) data.
Proof.
  intros H. unfold slice. rewrite <- (take_drop (Z.to_nat (to - from)) (drop (Z.to_nat from) data)) at 1.
  rewrite drop_drop. do 2 f_equal. lia.
Qed.

(** All chunks are within [lo, hi], except that the last may be shorter. *)
Fixpoint sizes_ok (lo hi : Z) (chunks : list bytes) : Prop :=
  match chunks with
  | [] => True
  | [c] => 0 < blen c <= hi
  | c :: rest => lo <= blen c <= hi /\ sizes_ok lo hi rest
  end.

Lemma sizes_ok_cons lo hi c rest :
  0 < lo -> lo <= blen c <= hi -> sizes_ok lo hi rest -> sizes_ok lo hi (c :: rest).
Proof. intros Hlo Hc Hr. destruct rest; simpl in *; [lia|auto]. Qed.

Lemma chunk_loop_spec config data fuel : forall cursor,
  config_ok config -> 0 <= cursor <= blen data -> blen data - cursor < Z.of_nat fuel ->
  exists chunks, chunk_loop fuel config data cursor = Some chunks /\
    concat chunks = drop (Z.to_nat cursor) data /\
    sizes_ok (min_size config) (max_size config) chunks.
Proof.
  induction fuel as [|fuel IH]; intros cursor Hok Hc Hf; [unfold blen in *; lia|].
  cbn [chunk_loop]. destruct (cursor <? blen data) eqn:E1; bool_prop.
  2: { exists []. split; [done|]. split; [|done].
       rewrite drop_ge; [done|unfold blen in *; lia]. }
  destruct (_ <=? _) eqn:E2; bool_prop.
  - eexists. split; [done|]. split.
    + simpl. rewrite app_nil_r. unfold slice. apply take_ge.
      rewrite length_drop. unfold blen. lia.
    + simpl. rewrite slice_length by lia. destruct Hok. lia.
  - pose proof (cut_point_bounds config data cursor Hok (proj1 Hc)) as Hcut.
    set (cut := cut_point config data cursor) in *. pose proof Hok as (Hmin & Hord).
    destruct (IH (cursor + cut)) as (chunks & -> & Hcat & Hsz); [done|lia|lia|].
    eexists. split; [done|]. split.
    + simpl. rewrite Hcat. symmetry. apply slice_drop. lia.
    + apply sizes_ok_cons; [done| |done]. rewrite slice_length; lia.
Qed.

Lemma fastcdc_spec config data :
  config_ok config ->
  exists chunks, fastcdc_chunk config data = Some chunks /\ concat chunks = data /\
                 sizes_ok (min_size config) (max_size config) chunks.
Proof.
  intros Hok. unfold fastcdc_chunk. destruct data as [|b data]; [by exists []|].
  cbn [length Nat.eqb].
  destruct (chunk_loop_spec config (b :: data) (S (length (b :: data))) 0 Hok) as (cs & H);
    [unfold blen; lia|unfold blen; lia|]. exists cs. exact H.
Qed.

(** C33: with a valid configuration, chunking terminates on every input; the
    chunks concatenate to the input, each is at most [max_size] long, and each
    but the last is at least [min_size] long. *)
Theorem fastcdc_partition config data :
  config_ok config ->
  exists chunks, fastcdc_chunk config data = Some chunks /\ concat chunks = data /\
                 sizes_ok (min_size config) (max_size config) chunks.
Proof. intros Hok. apply fastcdc_spec, Hok. Qed.

Definition tiny_config : FastCdcConfig :=
  {| min_size := 2; avg_size := 4; max_size := 8; mask_s := 7; mask_l := 1 |}.
Definition tiny_data : bytes := (fun i => (i * 31 + 7) mod 256) <$> seqZ 0 60.

Lemma fastcdc_partition_witness :
  exists chunks, fastcdc_chunk tiny_config tiny_data = Some chunks /\ concat chunks = tiny_data /\
                 sizes_ok 2 8 chunks.
Proof. apply (fastcdc_partition tiny_config tiny_data). unfold config_ok; simpl; lia. Defined.

(** ** Locality *)

Lemma scan_drop fuel : forall data cursor mask i hash,
  0 <= cursor -> 0 <= i ->
  scan fuel data cursor mask i hash = scan fuel (drop (Z.to_nat cursor) data) 0 mask i hash.
Proof.
  induction fuel as [|fuel IH]; intros data cursor mask i hash Hc Hi; [done|]. cbn [scan].
  rewrite lookup_total_drop. replace (Z.to_nat cursor + Z.to_nat (0 + i))%nat
    with (Z.to_nat (cursor + i)) by lia.
  case_match; [done|]. apply IH; lia.
Qed.

Lemma blen_drop (data : bytes) cursor :
  0 <= cursor <= blen data -> blen (drop (Z.to_nat cursor) data) = blen data - cursor.
Proof. unfold blen. intros. rewrite length_drop. lia. Qed.

Lemma cut_point_drop config data cursor :
  config_ok config -> 0 <= cursor <= blen data ->
  cut_point config data cursor = cut_point config (drop (Z.to_nat cursor) data) 0.
Proof.
  intros (Hmin & _) Hc. unfold cut_point. rewrite blen_drop, Z.sub_0_r by lia.
  rewrite scan_drop by lia. destruct (scan _ _ 0 (mask_s config) _ _) as [[i1 h1] f1] eqn:E1.
  apply scan_spec in E1 as (Hi & _). by rewrite (scan_drop _ data) by lia.
Qed.

Lemma slice_drop_shift data cursor from to :
  0 <= cursor -> 0 <= from <= to ->
  slice (drop (Z.to_nat cursor) data) from to = slice data (cursor + from) (cursor + to).
Proof. intros. unfold slice. rewrite drop_drop. f_equal; [lia|f_equal; lia]. Qed.

Lemma chunk_loop_drop config fuel : forall data cursor,
  config_ok config -> 0 <= cursor <= blen data ->
  chunk_loop fuel config data cursor = chunk_loop fuel config (drop (Z.to_nat cursor) data) 0.
Proof.
  induction fuel as [|fuel IH]; intros data cursor Hok Hc; cbn [chunk_loop];
    rewrite blen_drop by lia.
  - replace (0 <? blen data - cursor) with (cursor <? blen data) by lia. done.
  - replace (0 <? blen data - cursor) with (cursor <? blen data) by lia.
    destruct (cursor <? blen data) eqn:E0; [|done]. rewrite Z.sub_0_r.
    destruct (_ <=? _) eqn:E; bool_prop.
    + rewrite slice_drop_shift by lia. do 3 f_equal; lia.
    + pose proof (cut_point_bounds config data cursor Hok (proj1 Hc) E) as Hcut.
      rewrite <- cut_point_drop by (auto; lia).
      set (cut := cut_point config data cursor) in *. pose proof Hok as (Hmin & _).
      rewrite IH by (auto; lia).
      rewrite (IH (drop _ data) (0 + cut)) by (auto; rewrite blen_drop by lia; lia).
      rewrite drop_drop, slice_drop_shift by lia.
      replace (Z.to_nat cursor + Z.to_nat (0 + cut))%nat with (Z.to_nat (cursor + cut)) by lia.
      by rewrite Z.add_0_r.
Qed.

Lemma chunk_loop_fuel config fuel : forall fuel' data cursor chunks,
  chunk_loop fuel config data cursor = Some chunks -> (fuel <= fuel')%nat ->
  chunk_loop fuel' config data cursor = Some chunks.
Proof.
  induction fuel as [|fuel IH]; intros fuel' data cursor chunks H Hle.
  - simpl in H. destruct fuel'; simpl; destruct (cursor <? blen data); done.
  - destruct fuel' as [|fuel']; [lia|]. cbn [chunk_loop] in *.
    destruct (cursor <? blen data); [|done]. destruct (_ <=? _); [done|].
    apply bind_Some in H as (rest & Hr & H). rewrite (IH fuel' _ _ rest Hr) by lia. exact H.
Qed.

(** The first chunk and the chunking of what follows it. *)
Lemma fastcdc_step config data :
  config_ok config -> min_size config < blen data ->
  exists rest, fastcdc_chunk config (drop (Z.to_nat (cut_point config data 0)) data) = Some rest /\
    fastcdc_chunk config data = Some (take (Z.to_nat (cut_point config data 0)) data :: rest).
Proof.
  intros Hok Hlen. pose proof Hok as (Hmin & _).
  pose proof (cut_point_bounds config data 0 Hok (Z.le_refl 0)) as Hcut.
  rewrite Z.sub_0_r in Hcut. specialize (Hcut Hlen). set (cut := cut_point config data 0) in *.
  destruct (fastcdc_spec config (drop (Z.to_nat cut) data) Hok) as (rest & Hrest & _).
  exists rest. split; [done|]. unfold fastcdc_chunk at 1.
  destruct data as [|b data]; [unfold blen in Hlen; simpl in Hlen; lia|].
  set (d := b :: data) in *. replace (Nat.eqb (length d) 0) with false by done.
  cbn [chunk_loop]. replace (0 <? blen d) with true by lia.
  replace (blen d - 0 <=? min_size config) with false by lia. fold cut.
  rewrite chunk_loop_drop by (auto; lia). replace (0 + cut) with cut by lia.
  assert (chunk_loop (length d) config (drop (Z.to_nat cut) d) 0 = Some rest) as ->.
  { unfold fastcdc_chunk in Hrest. destruct (Nat.eqb _ 0) eqn:E.
    - apply Nat.eqb_eq, nil_length_inv in E. rewrite E. by destruct d.
    - eapply chunk_loop_fuel; [exact Hrest|]. rewrite length_drop. unfold blen in Hlen. lia. }
  simpl. do 2 f_equal. unfold slice. simpl. f_equal. lia.
Qed.

Lemma fastcdc_short config data :
  data <> [] -> blen data <= min_size config -> fastcdc_chunk config data = Some [data].
Proof.
  intros Hne Hlen. unfold fastcdc_chunk. destruct data as [|b data]; [done|].
  set (d := b :: data) in *. replace (Nat.eqb (length d) 0) with false by done.
  assert (0 < blen d) by (unfold d, blen; cbn [length]; lia).
  cbn [chunk_loop]. replace (0 <? blen d) with true by lia.
  rewrite Z.sub_0_r. replace (blen d <=? min_size config) with true by lia.
  do 2 f_equal. unfold slice. apply take_ge. unfold blen. cbn [Z.to_nat drop]. lia.
Qed.

Lemma fastcdc_tail config data c t :
  config_ok config -> fastcdc_chunk config data = Some (c :: t) ->
  fastcdc_chunk config (drop (length c) data) = Some t.
Proof.
  intros Hok H. destruct (decide (data = [])) as [->|Hne]; [done|].
  destruct (Z.le_gt_cases (blen data) (min_size config)) as [Hs|Hl].
  - rewrite fastcdc_short in H by done. simplify_eq. by rewrite drop_ge.
  - destruct (fastcdc_step config data Hok Hl) as (rest & Hr & E).
    rewrite E in H. simplify_eq. rewrite <- Hr. f_equal. rewrite length_take.
    pose proof (cut_point_bounds config data 0 Hok (Z.le_refl 0)).
    f_equal. unfold blen in *. lia.
Qed.

Lemma fastcdc_suffix config cs : forall data t,
  config_ok config -> fastcdc_chunk config data = Some (cs ++ t) ->
  fastcdc_chunk config (drop (length (concat cs)) data) = Some t.
Proof.
  induction cs as [|c cs IH]; intros data t Hok H; [by rewrite drop_0|].
  simpl in H. apply fastcdc_tail in H; [|done]. apply IH in H; [|done].
  simpl. by rewrite length_app, <- drop_drop.
Qed.

(** Boundaries resynchronise.  When two inputs end with the same suffix
    and both have a chunk boundary where it starts, all following chunks are
    identical, so their encrypted objects are shared. *)
Theorem fastcdc_resync config p1 p2 s cs1 t1 cs2 t2 :
  config_ok config ->
  fastcdc_chunk config (p1 ++ s) = Some (cs1 ++ t1) -> concat cs1 = p1 ->
  fastcdc_chunk config (p2 ++ s) = Some (cs2 ++ t2) -> concat cs2 = p2 ->
  t1 = t2.
Proof.
  intros Hok H1 <- H2 <-. apply fastcdc_suffix in H1, H2; [|done..].
  rewrite drop_app_length in H1, H2. congruence.
Qed.

(** Two inputs that differ before byte 12 of the first and meet at its third
    boundary, 18 bytes in. *)
Definition tiny_edit : bytes := replicate 16 7 ++ drop 12 tiny_data.
Definition chunks_of (data : bytes) : list bytes := default [] (fastcdc_chunk tiny_config data).

Lemma fastcdc_resync_witness : drop 3 (chunks_of tiny_data) = drop 3 (chunks_of tiny_edit).
Proof.
  apply (fastcdc_resync tiny_config (take 18 tiny_data) (take 22 tiny_edit) (drop 18 tiny_data)
           (take 3 (chunks_of tiny_data)) (drop 3 (chunks_of tiny_data))
           (take 3 (chunks_of tiny_edit)) (drop 3 (chunks_of tiny_edit)));
    [unfold config_ok; simpl; lia|vm_compute; reflexivity..].
Defined.

(** ** Edits beyond the window *)

Lemma scan_ext fuel : forall d1 d2 mask i hash,
  0 <= i -> (forall k, i <= k < i + Z.of_nat fuel -> d1 !!! Z.to_nat k = d2 !!! Z.to_nat k) ->
  scan fuel d1 0 mask i hash = scan fuel d2 0 mask i hash.
Proof.
  induction fuel as [|fuel IH]; intros d1 d2 mask i hash Hi H; [done|]. cbn [scan].
  rewrite !Z.add_0_l, (H i) by lia. case_match; [done|]. apply IH; [lia|].
  intros k Hk. apply H. lia.
Qed.

Lemma cut_point_window config p a b :
  config_ok config -> max_size config <= blen p ->
  cut_point config (p ++ a) 0 = cut_point config (p ++ b) 0.
Proof.
  intros (Hmin & Hord) Hp. unfold cut_point. rewrite !blen_app, !Z.sub_0_r.
  pose proof (blen_nonneg a). pose proof (blen_nonneg b).
  replace (Z.min (blen p + blen a) (max_size config)) with (max_size config) by lia.
  replace (Z.min (blen p + blen b) (max_size config)) with (max_size config) by lia.
  replace (Z.min (blen p + blen a) (avg_size config)) with (avg_size config) by lia.
  replace (Z.min (blen p + blen b) (avg_size config)) with (avg_size config) by lia.
  assert (forall k, 0 <= k < max_size config ->
            (p ++ a) !!! Z.to_nat k = (p ++ b) !!! Z.to_nat k) as Hsame.
  { intros k Hk. rewrite !lookup_total_app_l by (unfold blen in Hp; lia). done. }
  rewrite (scan_ext _ (p ++ a) (p ++ b)) by (try intros; try apply Hsame; lia).
  destruct (scan _ (p ++ b) 0 (mask_s config) _ _) as [[i1 h1] f1] eqn:E1.
  apply scan_spec in E1 as (Hi & _).
  by rewrite (scan_ext _ (p ++ a) (p ++ b)) by (try intros; try apply Hsame; lia).
Qed.

(** An edit leaves alone every chunk that ends at least [max_size] bytes
    before it: the same chunks are cut from both inputs. *)
Theorem fastcdc_edit_locality config cs : forall p a b t,
  config_ok config ->
  fastcdc_chunk config (p ++ a) = Some (cs ++ t) ->
  blen (concat cs) + max_size config <= blen p ->
  exists t', fastcdc_chunk config (p ++ b) = Some (cs ++ t').
Proof.
  induction cs as [|c cs IH]; intros p a b t Hok H Hlen.
  - destruct (fastcdc_spec config (p ++ b) Hok) as (t' & Ht & _). eauto.
  - pose proof Hok as (Hmin & Hord). simpl in Hlen. rewrite blen_app in Hlen.
    pose proof (blen_nonneg (concat cs)). pose proof (blen_nonneg c).
    assert (forall z, min_size config < blen (p ++ z)) as Hbig.
    { intros z. rewrite blen_app. pose proof (blen_nonneg z).
      destruct (Z.eq_dec (blen c) 0); [|lia].
      destruct (fastcdc_spec config (p ++ a) Hok) as (cs' & E & _ & Hsz).
      rewrite H in E. injection E as <-. simpl in Hsz. destruct (cs ++ t); lia. }
    destruct (fastcdc_step config (p ++ a) Hok (Hbig a)) as (ra & Hra & Ea).
    destruct (fastcdc_step config (p ++ b) Hok (Hbig b)) as (rb & Hrb & Eb).
    rewrite Ea in H. injection H as Hc Hrest. rewrite Eb.
    rewrite <- (cut_point_window config p a b) in * by (auto; lia).
    pose proof (cut_point_bounds config (p ++ a) 0 Hok (Z.le_refl 0)) as Hcut.
    rewrite Z.sub_0_r in Hcut. specialize (Hcut (Hbig a)).
    set (cut := cut_point config (p ++ a) 0) in *.
    assert (Z.to_nat cut <= length p)%nat as Hcp by (unfold blen in *; lia).
    rewrite take_app_le in Hc by done. rewrite drop_app_le in Hra, Hrb by done.
    assert (blen c = cut) as Hcl.
    { rewrite <- Hc. unfold blen. rewrite length_take. lia. }
    destruct (IH (drop (Z.to_nat cut) p) a b t Hok) as (t' & Ht').
    + by rewrite Hra, Hrest.
    + rewrite blen_drop by (unfold blen in *; lia). lia.
    + rewrite Ht' in Hrb. injection Hrb as <-. exists t'.
      by rewrite take_app_le, Hc by done.
Qed.

Lemma fastcdc_edit_locality_witness :
  exists t', fastcdc_chunk tiny_config (take 30 tiny_data ++ [1; 2; 3])
             = Some ([[7; 38; 69; 100; 131]; [162; 193; 224; 255; 30; 61]] ++ t').
Proof.
  apply (fastcdc_edit_locality tiny_config [[7; 38; 69; 100; 131]; [162; 193; 224; 255; 30; 61]]
           (take 30 tiny_data) (drop 30 tiny_data) [1; 2; 3] (drop 2 (chunks_of tiny_data)));
    [unfold config_ok; simpl; lia|vm_compute; reflexivity|vm_compute; discriminate].
Defined.
