(* ===== verification/Crypto.v ===== *)
(** * The crypto crate over its primitives

    src/crates/crypto/src: authenticated encryption (aead.rs), the Blake2b and
    HKDF key derivations (kdf.rs, chunk_v2.rs, keys.rs), domain-separated
    signatures (signatures.rs), scoped envelopes and DEK wrapping (envelope.rs),
    sealed boxes (sealed_box.rs) and passphrase backups (password.rs,
    passphrase_backup.rs).  Bytes the source draws from the OS generator are
    arguments.  A fixed-size array is a list; a length that a proof needs is a
    hypothesis of its lemma. *)

From S2P Require Import Prelude Errors Primitives SamplePrimitives.

(** ** aead.rs *)

Definition NONCE_SIZE : Z := 24.
Definition TAG_SIZE : Z := 16.
Definition KEY_SIZE : Z := 32.

Section Aead.
Context {XC : XChaCha}.

(** [XChaCha20Poly1305::new_from_slice]: a key of any other length is refused. *)
Definition new_from_slice (key : bytes) : result CryptoError bytes :=
  bail? negb (blen key =? KEY_SIZE) with InvalidKeyLength KEY_SIZE (blen key) ;;
  Ok key.

Definition encrypt_with_nonce (key nonce plaintext aad : bytes) : result CryptoError bytes :=
  let? cipher := new_from_slice key in
  let? ciphertext := ok_or (xchacha_encrypt cipher nonce aad plaintext) AuthTagVerificationFailed in
  Ok ciphertext.

Definition encrypt_chunk_with_nonce (key nonce plaintext aad : bytes) : result CryptoError bytes :=
  let? ciphertext := encrypt_with_nonce key nonce plaintext aad in
  Ok (nonce ++ ciphertext).

(** [nonce] is what the generator fills in. *)
Definition encrypt_chunk (nonce key plaintext aad : bytes) : result CryptoError bytes :=
  encrypt_chunk_with_nonce key nonce plaintext aad.

Definition decrypt_with_nonce (key nonce ciphertext aad : bytes) : result CryptoError bytes :=
  bail? blen ciphertext <? TAG_SIZE with AuthTagVerificationFailed ;;
  let? cipher := new_from_slice key in
  ok_or (xchacha_decrypt cipher nonce aad ciphertext) AuthTagVerificationFailed.

Definition decrypt_chunk (key chunk_payload aad : bytes) : result CryptoError bytes :=
  bail? blen chunk_payload <? NONCE_SIZE + TAG_SIZE with AuthTagVerificationFailed ;;
  let nonce := take 24 chunk_payload in
  let ciphertext := drop 24 chunk_payload in
  let? cipher := new_from_slice key in
  let? plaintext := ok_or (xchacha_decrypt cipher nonce aad ciphertext) AuthTagVerificationFailed in
  Ok plaintext.

Context {XL : XChaChaLaws XC}.

Lemma new_from_slice_ok key cipher :
  new_from_slice key = Ok cipher <-> cipher = key /\ blen key = 32.
Proof.
  unfold new_from_slice, KEY_SIZE. destruct (blen key =? 32) eqn:E; simpl; bool_prop;
    split; [intros [= ->]; auto | intros [-> _]; auto | intros [=] | lia].
Qed.

Lemma new_from_slice_32 key : blen key = 32 -> new_from_slice key = Ok key.
Proof. intros H. by apply new_from_slice_ok. Qed.

Lemma encrypt_with_nonce_ok key nonce m aad c :
  encrypt_with_nonce key nonce m aad = Ok c <->
  blen key = 32 /\ xchacha_encrypt key nonce aad m = Some c.
Proof.
  unfold encrypt_with_nonce. split.
  - intros H. res_inv. apply new_from_slice_ok in Hr as (-> & ?). done.
  - intros (H & E). rewrite new_from_slice_32 by done. simpl. by rewrite E.
Qed.

Lemma encrypt_with_nonce_len key nonce m aad c :
  encrypt_with_nonce key nonce m aad = Ok c -> blen c = blen m + 16.
Proof.
  rewrite encrypt_with_nonce_ok. intros (_ & E). apply xchacha_length in E. unfold blen; lia.
Qed.

(** Decryption is the partial inverse of encryption: it accepts exactly what
    encryption of its result under the same key, nonce and AAD produces. *)
Lemma decrypt_with_nonce_ok key nonce c aad m :
  decrypt_with_nonce key nonce c aad = Ok m <-> encrypt_with_nonce key nonce m aad = Ok c.
Proof.
  unfold decrypt_with_nonce. split.
  - intros H. res_inv. apply new_from_slice_ok in Hr as (-> & ?).
    apply encrypt_with_nonce_ok. split; [done|]. by apply xchacha_sound.
  - intros H. pose proof (encrypt_with_nonce_len _ _ _ _ _ H).
    apply encrypt_with_nonce_ok in H as (Hk & E). unfold TAG_SIZE.
    pose proof (blen_nonneg m). replace (blen c <? 16) with false by lia.
    rewrite new_from_slice_32 by done. simpl. by rewrite (xchacha_roundtrip _ _ _ _ _ E).
Qed.

Lemma decrypt_with_nonce_err key nonce c aad e :
  blen key = 32 -> decrypt_with_nonce key nonce c aad = Err e -> e = AuthTagVerificationFailed.
Proof.
  intros Hk. unfold decrypt_with_nonce. rewrite new_from_slice_32 by done. simpl.
  destruct (blen c <? TAG_SIZE); [by intros [= <-]|]. by destruct xchacha_decrypt; intros [= <-].
Qed.

Lemma decrypt_chunk_split key payload aad :
  40 <= blen payload ->
  decrypt_chunk key payload aad = decrypt_with_nonce key (take 24 payload) (drop 24 payload) aad.
Proof.
  intros H. unfold decrypt_chunk, decrypt_with_nonce, NONCE_SIZE, TAG_SIZE.
  replace (blen payload <? 24 + 16) with false by lia.
  replace (blen (drop 24 payload) <? 16) with false by bool_lia.
  destruct (new_from_slice key); simpl; [|done]. by destruct xchacha_decrypt.
Qed.

Lemma decrypt_chunk_ok key payload aad m :
  decrypt_chunk key payload aad = Ok m <->
  exists nonce, length nonce = 24%nat /\ encrypt_chunk_with_nonce key nonce m aad = Ok payload.
Proof.
  unfold encrypt_chunk_with_nonce. split.
  - intros H. assert (40 <= blen payload) as Hlen.
    { unfold decrypt_chunk, NONCE_SIZE, TAG_SIZE in H. res_inv; bool_prop; lia. }
    rewrite decrypt_chunk_split in H by done. apply decrypt_with_nonce_ok in H.
    exists (take 24 payload). unfold blen in Hlen. split; [rewrite length_take; lia|].
    rewrite H. simpl. by rewrite take_drop.
  - intros (nonce & Hn & H). res_inv. pose proof (encrypt_with_nonce_len _ _ _ _ _ Hr).
    pose proof (blen_nonneg m). rewrite decrypt_chunk_split.
    + rewrite <- Hn, take_app_length, drop_app_length. by apply decrypt_with_nonce_ok.
    + rewrite blen_app. unfold blen at 1. lia.
Qed.
End Aead.

(** [decrypt_chunk] accepts exactly the payloads [encrypt_chunk] can
    produce: it returns [m] if and only if the payload is 24 nonce bytes followed
    by the encryption of [m] under that key, nonce and AAD. *)
Theorem decrypt_chunk_inverse {XC : XChaCha} {XL : XChaChaLaws XC} key payload aad m :
  decrypt_chunk key payload aad = Ok m <->
  exists nonce, length nonce = 24%nat /\ encrypt_chunk nonce key m aad = Ok payload.
Proof. apply decrypt_chunk_ok. Qed.

Lemma decrypt_chunk_inverse_witness :
  let key := replicate 32 3 in
  let payload := replicate 24 9 ++ [1; 2; 3] ++ sample_tag key (replicate 24 9) [7] [1; 2; 3] in
  decrypt_chunk key payload [7] = Ok [1; 2; 3].
Proof.
  apply decrypt_chunk_inverse. exists (replicate 24 9). split; [done|vm_compute; reflexivity].
Defined.

(** ** Splitting concatenated fields *)

(** Peels the equal-length head fields off an equation between buffers. *)
Ltac peel H :=
  let E := fresh "Eq" in
  apply app_inj_1 in H;
  [destruct H as [E H] | by (autorewrite with cv_len; cbn [length]; try congruence; lia)].

(** ** kdf.rs *)

Definition CTX_RECOVERY_SIGNING : bytes := lit "CV_RSIGN".
Definition CTX_RECOVERY_ENCRYPT : bytes := lit "CV_RENCR".
Definition CTX_RECOVERY_LOCATOR : bytes := lit "CV_RLOCA".
Definition CTX_MANIFEST_KEY : bytes := lit "CV_MANIF".
Definition CTX_FILE_KEY : bytes := lit "CV_FVERS".
Definition CTX_CHUNK_NONCE : bytes := lit "CV_CNONC".

(** The four hash inputs built by the module, as the sequence of [update]s. *)
Inductive KdfInput : Type :=
| SubkeyInput (ctx : bytes) (subkey_id : Z) (master_key : bytes)
| FileKeyInput (epoch : Z) (master_key plaintext_sha256 : bytes)
| ChunkNonceInput (chunk_index : Z) (file_version_key chunk_digest : bytes)
| FileVersionIdInput (vault_id : bytes) (epoch : Z) (plaintext_sha256 : bytes).

Definition hasher_input (u : KdfInput) : bytes :=
  match u with
  | SubkeyInput ctx subkey_id master_key =>
      lit "CipherVault-KDF-v1" ++ ctx ++ to_le_bytes 8 subkey_id ++ master_key
  | FileKeyInput epoch master_key plaintext_sha256 =>
      lit "CipherVault-KDF-v1" ++ CTX_FILE_KEY ++ to_le_bytes 8 epoch ++ master_key ++ plaintext_sha256
  | ChunkNonceInput chunk_index file_version_key chunk_digest =>
      lit "CipherVault-KDF-v1" ++ CTX_CHUNK_NONCE ++ to_le_bytes 4 chunk_index ++ file_version_key
      ++ chunk_digest
  | FileVersionIdInput vault_id epoch plaintext_sha256 =>
      lit "CipherVault-FileVersionID-v1" ++ vault_id ++ to_le_bytes 8 epoch ++ plaintext_sha256
  end.

(** The widths the Rust types of the arguments impose. *)
Definition kdf_input_ok (u : KdfInput) : Prop :=
  match u with
  | SubkeyInput ctx subkey_id master_key =>
      length ctx = 8%nat /\ is_u64 subkey_id /\ length master_key = 32%nat
  | FileKeyInput epoch master_key digest =>
      is_u64 epoch /\ length master_key = 32%nat /\ length digest = 32%nat
  | ChunkNonceInput chunk_index file_version_key digest =>
      is_u32 chunk_index /\ length file_version_key = 32%nat /\ length digest = 32%nat
  | FileVersionIdInput vault_id epoch digest =>
      length vault_id = 32%nat /\ is_u64 epoch /\ length digest = 32%nat
  end.

Section Kdf.
Context {B2 : Blake2b512}.

Definition derive_subkey (master_key : bytes) (subkey_id : Z) (ctx : bytes)
  : result CryptoError bytes :=
  Ok (take 32 (blake2b512 (hasher_input (SubkeyInput ctx subkey_id master_key)))).

Definition derive_file_version_key (master_key : bytes) (epoch : Z) (plaintext_sha256 : bytes)
  : result CryptoError bytes :=
  Ok (take 32 (blake2b512 (hasher_input (FileKeyInput epoch master_key plaintext_sha256)))).

Definition derive_chunk_nonce (file_version_key : bytes) (chunk_index : Z) (chunk_digest : bytes)
  : bytes :=
  take 24 (blake2b512 (hasher_input (ChunkNonceInput chunk_index file_version_key chunk_digest))).

Definition derive_file_version_id (vault_id : bytes) (epoch : Z) (plaintext_sha256 : bytes) : bytes :=
  take 32 (blake2b512 (hasher_input (FileVersionIdInput vault_id epoch plaintext_sha256))).

(** keys.rs: the recovery secret, the epoch key and the file key are newtypes
    over 32 bytes; the [generate] constructors return what the generator drew. *)
Definition derive_recovery_signing_key (secret : bytes) : result CryptoError bytes :=
  let? seed := derive_subkey secret 1 CTX_RECOVERY_SIGNING in
  Ok seed.

Definition derive_recovery_encryption_keys `{X25519} (secret : bytes)
  : result CryptoError (bytes * bytes) :=
  let? seed := derive_subkey secret 1 CTX_RECOVERY_ENCRYPT in
  let sk := seed in
  let pk := x_public sk in
  Ok (sk, pk).

Definition derive_recovery_locator (secret : bytes) : result CryptoError bytes :=
  derive_subkey secret 1 CTX_RECOVERY_LOCATOR.

Definition derive_manifest_key (epoch_key : bytes) (epoch : Z) : result CryptoError bytes :=
  derive_subkey epoch_key epoch CTX_MANIFEST_KEY.

Definition VaultEpochKey_derive_file_version_key (epoch_key : bytes) (epoch : Z)
  (plaintext_sha256 : bytes) : result CryptoError bytes :=
  let? key_bytes := derive_file_version_key epoch_key epoch plaintext_sha256 in
  Ok key_bytes.
End Kdf.

Lemma u64_range z : is_u64 z -> 0 <= z < 256 ^ Z.of_nat 8.
Proof. unfold is_u64, u64_max. intros. change (256 ^ Z.of_nat 8) with 18446744073709551616. lia. Qed.
Lemma u32_range z : is_u32 z -> 0 <= z < 256 ^ Z.of_nat 4.
Proof. unfold is_u32, u32_max. intros. change (256 ^ Z.of_nat 4) with 4294967296. lia. Qed.

Lemma hasher_input_length u : kdf_input_ok u ->
  length (hasher_input u) =
  match u with
  | SubkeyInput _ _ _ => 66%nat
  | FileKeyInput _ _ _ => 98%nat
  | ChunkNonceInput _ _ _ => 94%nat
  | FileVersionIdInput _ _ _ => 100%nat
  end.
Proof.
  destruct u; simpl; intros (? & ? & ?); autorewrite with cv_len; cbn -[lit]; rewrite ?length_app;
    cbn [length]; len_solve.
Qed.

Lemma hasher_input_inj u v :
  kdf_input_ok u -> kdf_input_ok v -> hasher_input u = hasher_input v -> u = v.
Proof.
  intros Hu Hv H. pose proof (f_equal length H) as Hlen.
  rewrite !hasher_input_length in Hlen by done.
  destruct u, v; try discriminate Hlen; clear Hlen; simpl in Hu, Hv;
    destruct Hu as (? & ? & ?), Hv as (? & ? & ?); cbn [hasher_input] in H.
  all: peel H; peel H; peel H.
  - apply to_le_bytes_inj in Eq1; [by subst|by apply u64_range..].
  - peel H. apply to_le_bytes_inj in Eq1; [by subst|by apply u64_range..].
  - peel H. apply to_le_bytes_inj in Eq1; [by subst|by apply u32_range..].
  - apply to_le_bytes_inj in Eq1; [by subst|by apply u64_range..].
Qed.

(** The Blake2b derivations are domain separated: two derivations (subkey,
    file key, chunk nonce, file-version id) that differ in kind or in any
    argument hash different inputs. *)
Theorem kdf_domain_separation u v :
  kdf_input_ok u -> kdf_input_ok v -> u <> v -> hasher_input u <> hasher_input v.
Proof. intros Hu Hv Hne H. apply Hne. by apply hasher_input_inj. Qed.

(** A manifest subkey and a file key over the same epoch key and epoch. *)
Lemma kdf_domain_separation_witness :
  hasher_input (SubkeyInput CTX_FILE_KEY 7 (replicate 32 1))
  <> hasher_input (FileKeyInput 7 (replicate 32 1) (replicate 32 0)).
Proof.
  apply kdf_domain_separation; [| |discriminate]; simpl; unfold is_u64, u64_max;
    repeat split; lia.
Defined.

(** ** chunk_v2.rs *)

Definition V2_SALT : bytes := lit "CipherVault-ChunkWire-v2/HKDF-SHA256".

Definition v2_info (domain vault : bytes) (epoch : Z) (binding : bytes) : bytes :=
  to_le_bytes 2 (blen domain mod 65536) ++ domain ++ vault ++ to_le_bytes 8 epoch ++ binding.

Section ChunkV2.
Context {HK : HkdfSha256}.

Definition expand (n : nat) (secret domain vault : bytes) (epoch : Z) (binding : bytes) : bytes :=
  hkdf_expand V2_SALT secret (v2_info domain vault epoch binding) n.

Definition derive_v2_chunk_domain_key (epoch_key vault : bytes) (epoch : Z) : bytes :=
  expand 32 epoch_key (lit "chunk-domain-key") vault epoch (replicate 32 0).

Definition derive_v2_file_version_id (domain_key vault : bytes) (epoch : Z) (digest : bytes) : bytes :=
  expand 32 domain_key (lit "opaque-file-id") vault epoch digest.

Definition derive_v2_chunk_id (domain_key vault : bytes) (epoch : Z) (digest : bytes) : bytes :=
  expand 32 domain_key (lit "opaque-chunk-id") vault epoch digest.

Definition derive_v2_chunk_key_nonce (domain_key vault : bytes) (epoch : Z) (opaque_id : bytes)
  : bytes * bytes :=
  (expand 32 domain_key (lit "chunk-aead-key") vault epoch opaque_id,
   expand 24 domain_key (lit "chunk-aead-nonce") vault epoch opaque_id).

(** Two different info strings with the same [n]-byte output under one secret. *)
Definition hkdf_collision (secret : bytes) (n : nat) : Prop :=
  exists i j, i <> j /\ hkdf_expand V2_SALT secret i n = hkdf_expand V2_SALT secret j n.
End ChunkV2.

Lemma v2_info_inj d v e b d' v' e' b' :
  blen d < 65536 -> blen d' < 65536 -> length v = 32%nat -> length v' = 32%nat ->
  is_u64 e -> is_u64 e' ->
  v2_info d v e b = v2_info d' v' e' b' -> d = d' /\ v = v' /\ e = e' /\ b = b'.
Proof.
  intros Hd Hd' Hv Hv' He He' H. unfold v2_info in H. peel H.
  pose proof (blen_nonneg d). pose proof (blen_nonneg d').
  rewrite !Z.mod_small in Eq by lia. apply to_le_bytes_inj in Eq; [|simpl; lia..].
  unfold blen in Eq. apply Nat2Z.inj in Eq. peel H. peel H. peel H.
  apply to_le_bytes_inj in Eq2; [auto|by apply u64_range..].
Qed.

Lemma expand_binding `{HkdfSha256} n k d v e b d' v' e' b' :
  blen d < 65536 -> blen d' < 65536 -> length v = 32%nat -> length v' = 32%nat ->
  is_u64 e -> is_u64 e' ->
  expand n k d v e b = expand n k d' v' e' b' ->
  (d = d' /\ v = v' /\ e = e' /\ b = b') \/ hkdf_collision k n.
Proof.
  intros ?????? H0. destruct (decide (v2_info d v e b = v2_info d' v' e' b')) as [E|E].
  - left. by apply v2_info_inj.
  - right. by exists (v2_info d v e b), (v2_info d' v' e' b').
Qed.

(** Version-2 chunks do not reuse a key and nonce: equal key and nonce
    under one domain key belong to the same vault, epoch and opaque chunk id,
    unless HKDF itself produced the same output for two different inputs. *)
Theorem v2_key_nonce_unique {HK : HkdfSha256} dk vault epoch id vault' epoch' id' :
  length vault = 32%nat -> length vault' = 32%nat -> is_u64 epoch -> is_u64 epoch' ->
  derive_v2_chunk_key_nonce dk vault epoch id = derive_v2_chunk_key_nonce dk vault' epoch' id' ->
  (vault = vault' /\ epoch = epoch' /\ id = id') \/ hkdf_collision dk 32.
Proof.
  intros ???? [= H _]. apply expand_binding in H; [|done..]. naive_solver.
Qed.

Lemma v2_key_nonce_unique_witness :
  let v := replicate 32 5 in
  (v = v /\ 3 = 3 /\ [1] = [1]) \/ hkdf_collision (replicate 32 1) 32.
Proof.
  apply (v2_key_nonce_unique (replicate 32 1) (replicate 32 5) 3 [1] (replicate 32 5) 3 [1]);
    [done|done|unfold is_u64, u64_max; lia..|reflexivity].
Defined.

(** ** signatures.rs *)

Definition SIGNATURE_DOMAIN_PREFIX : bytes := lit "CipherVault-Ed25519-v1:".

Definition signature_payload (context message : bytes) : bytes :=
  SIGNATURE_DOMAIN_PREFIX ++ context ++ [58] ++ message.

Section Signatures.
Context {ED : Ed25519}.

Definition sign_with_domain (signing_key context message : bytes) : bytes :=
  ed_sign signing_key (signature_payload context message).

Definition verify_with_domain (verifying_key_bytes context message signature_bytes : bytes)
  : result CryptoError unit :=
  bail? negb (vk_from_bytes_ok verifying_key_bytes) with SignatureVerificationFailed ;;
  bail? negb (ed_verify verifying_key_bytes (signature_payload context message) signature_bytes)
    with SignatureVerificationFailed ;;
  Ok tt.

Lemma verify_sign_with_domain `{!Ed25519Laws ED} sk context message :
  verify_with_domain (verifying_key sk) context message (sign_with_domain sk context message) = Ok tt.
Proof. unfold verify_with_domain, sign_with_domain. by rewrite verifying_key_ok, ed_sign_verify. Qed.

Lemma verify_with_domain_ok vk context message sig :
  verify_with_domain vk context message sig = Ok tt <->
  vk_from_bytes_ok vk = true /\ ed_verify vk (signature_payload context message) sig = true.
Proof.
  unfold verify_with_domain. destruct (vk_from_bytes_ok vk), (ed_verify _ _ _); naive_solver.
Qed.
End Signatures.

(** A separator that occurs in neither context splits the payload uniquely. *)
Lemma signature_payload_inj c c' m m' :
  58 ∉ c -> 58 ∉ c' -> signature_payload c m = signature_payload c' m' -> c = c' /\ m = m'.
Proof.
  unfold signature_payload. intros Hc Hc' H. apply app_inv_head in H. revert c' Hc' H.
  induction c as [|x c IH]; intros [|y c'] Hc' H; simpl in H.
  - by injection H.
  - injection H as <- _. exfalso. apply Hc'. by left.
  - injection H as -> _. exfalso. apply Hc. by left.
  - injection H as -> H. destruct (IH ltac:(set_solver) c' ltac:(set_solver) H). by subst.
Qed.

(** ** envelope.rs *)

Definition SCOPE_AAD_DOMAIN : bytes := lit "CipherVault-ScopeAAD-v1".
Definition KEK_WRAP_DOMAIN : bytes := lit "cv-kek-wrap-v1".

Definition scope_aad (tenant_id project_id environment_id secret_id : bytes) (version : Z) : bytes :=
  SCOPE_AAD_DOMAIN ++ tenant_id ++ project_id ++ environment_id ++ secret_id ++ to_be_bytes 4 version.

Record SealedSecret : Type := { sealed_nonce : bytes; sealed_ciphertext : bytes }.
Record WrappedDek : Type := { wrapped_kek_id : str; wrapped_nonce : bytes; wrapped_blob : bytes }.

(** The trait of the source: a backend wraps and unwraps data-encryption keys. *)
Class KeyWrappingService (S : Type) : Type := {
  wrap_dek : bytes -> S -> bytes -> result CryptoError WrappedDek; (* nonce drawn, self, dek *)
  unwrap_dek : S -> WrappedDek -> result CryptoError bytes;
}.
(** What a backend promises its callers. *)
Class KeyWrappingLaws (S : Type) (K : KeyWrappingService S) : Prop := {
  unwrap_wrap : forall nonce (s : S) dek w,
    length dek = 32%nat -> wrap_dek nonce s dek = Ok w -> unwrap_dek s w = Ok dek;
}.

Record LocalKekService : Type := { kek_id : str; kek : bytes }.

Section Envelope.
Context {XC : XChaCha}.

Definition seal_secret_value (nonce dek plaintext aad : bytes) : result CryptoError SealedSecret :=
  let? ciphertext := encrypt_with_nonce dek nonce plaintext aad in
  Ok {| sealed_nonce := nonce; sealed_ciphertext := ciphertext |}.

Definition open_secret_value (dek : bytes) (sealed : SealedSecret) (aad : bytes)
  : result CryptoError bytes :=
  bail? blen (sealed_ciphertext sealed) <? TAG_SIZE with AuthTagVerificationFailed ;;
  decrypt_with_nonce dek (sealed_nonce sealed) (sealed_ciphertext sealed) aad.

Definition wrap_aad (self : LocalKekService) : bytes := KEK_WRAP_DOMAIN ++ as_bytes (kek_id self).

Definition local_wrap_dek (nonce : bytes) (self : LocalKekService) (dek : bytes)
  : result CryptoError WrappedDek :=
  let? blob := encrypt_with_nonce (kek self) nonce dek (wrap_aad self) in
  Ok {| wrapped_kek_id := kek_id self; wrapped_nonce := nonce; wrapped_blob := blob |}.

Definition local_unwrap_dek (self : LocalKekService) (wrapped : WrappedDek)
  : result CryptoError bytes :=
  bail? negb (bool_decide (wrapped_kek_id wrapped = kek_id self)) with AuthTagVerificationFailed ;;
  bail? blen (wrapped_blob wrapped) <? TAG_SIZE with AuthTagVerificationFailed ;;
  let? raw := decrypt_with_nonce (kek self) (wrapped_nonce wrapped) (wrapped_blob wrapped)
                (wrap_aad self) in
  bail? negb (blen raw =? KEY_SIZE) with InvalidKeyLength KEY_SIZE (blen raw) ;;
  Ok raw.

#[global] Instance local_kek_service : KeyWrappingService LocalKekService :=
  {| wrap_dek := local_wrap_dek; unwrap_dek := local_unwrap_dek |}.

Context {XL : XChaChaLaws XC}.

Lemma encrypt_not_short key nonce m aad c :
  encrypt_with_nonce key nonce m aad = Ok c -> (blen c <? TAG_SIZE) = false.
Proof.
  intros H. apply encrypt_with_nonce_len in H. pose proof (blen_nonneg m).
  unfold TAG_SIZE. apply Z.ltb_ge. lia.
Qed.

Lemma open_secret_value_ok dek sealed aad m :
  open_secret_value dek sealed aad = Ok m <->
  seal_secret_value (sealed_nonce sealed) dek m aad = Ok sealed.
Proof.
  destruct sealed as [nonce c]. unfold open_secret_value, seal_secret_value; simpl. split.
  - intros H. res_inv. apply decrypt_with_nonce_ok in H. by rewrite H.
  - intros H. res_inv. rewrite (encrypt_not_short _ _ _ _ _ Hr).
    by apply decrypt_with_nonce_ok.
Qed.

#[global] Instance local_kek_laws : KeyWrappingLaws LocalKekService local_kek_service.
Proof.
  split; simpl; unfold local_wrap_dek, local_unwrap_dek, KEY_SIZE.
  intros nonce s dek w Hd Hw. res_inv. simpl.
  rewrite bool_decide_true, (encrypt_not_short _ _ _ _ _ Hr) by done. simpl.
  rewrite (proj2 (decrypt_with_nonce_ok _ _ _ _ _) Hr). simpl.
  unfold blen. by rewrite Hd.
Qed.
(** The local service unwraps only what it wraps. *)
Lemma local_unwrap_sound (s : LocalKekService) w dek :
  unwrap_dek s w = Ok dek -> length dek = 32%nat /\ wrap_dek (wrapped_nonce w) s dek = Ok w.
Proof.
  simpl. unfold local_wrap_dek, local_unwrap_dek, KEY_SIZE. destruct w as [i n b]. intros H. simpl in *. res_inv. bool_prop. subst.
  apply decrypt_with_nonce_ok in Hr. unfold blen in *. split; [lia|]. by rewrite Hr.
Qed.
End Envelope.

Lemma scope_aad_inj t p e s v t' p' e' s' v' :
  Forall (fun i => length i = 16%nat) [t; p; e; s; t'; p'; e'; s'] ->
  is_u32 v -> is_u32 v' ->
  scope_aad t p e s v = scope_aad t' p' e' s' v' ->
  t = t' /\ p = p' /\ e = e' /\ s = s' /\ v = v'.
Proof.
  rewrite !Forall_cons. intros (? & ? & ? & ? & ? & ? & ? & ? & _) Hv Hv' Ha.
  unfold scope_aad in Ha. peel Ha. peel Ha. peel Ha. peel Ha. peel Ha.
  apply to_be_bytes_inj in Ha; [auto|by apply u32_range..].
Qed.

(** A ciphertext that authenticates under two different AADs with one key and
    nonce: a forgery against the AEAD. *)
Definition aead_forgery `{XChaCha} (key nonce ciphertext : bytes) : Prop :=
  exists aad aad' m m', aad <> aad' /\
    xchacha_encrypt key nonce aad m = Some ciphertext /\
    xchacha_encrypt key nonce aad' m' = Some ciphertext.

(** A value sealed under a wrapped DEK is recovered by unwrapping the DEK
    and opening the value in the same scope, for every key-wrapping backend
    that keeps its promise. *)
Theorem envelope_roundtrip {XC : XChaCha} {XL : XChaChaLaws XC}
  {S : Type} {K : KeyWrappingService S} {KL : KeyWrappingLaws S K}
  (svc : S) wrap_nonce nonce dek value aad wrapped sealed :
  wrap_dek wrap_nonce svc dek = Ok wrapped -> seal_secret_value nonce dek value aad = Ok sealed ->
  (let? key := unwrap_dek svc wrapped in open_secret_value key sealed aad) = Ok value.
Proof.
  intros Hw Hs. assert (length dek = 32%nat) as Hd.
  { unfold seal_secret_value in Hs. res_inv. apply encrypt_with_nonce_ok in Hr as (Hl & _).
    unfold blen in Hl. lia. }
  rewrite (unwrap_wrap wrap_nonce svc dek wrapped Hd Hw). simpl. apply open_secret_value_ok.
  unfold seal_secret_value in *. res_inv. simpl. by rewrite Hr.
Qed.

Definition sample_kek : LocalKekService := {| kek_id := lit "kek-1"; kek := replicate 32 4 |}.
Definition sample_scope : bytes :=
  scope_aad (replicate 16 1) (replicate 16 2) (replicate 16 3) (replicate 16 4) 1.

Lemma envelope_roundtrip_witness :
  (let dek := replicate 32 8 in
   let? wrapped := wrap_dek (replicate 24 5) sample_kek dek in
   let? sealed := seal_secret_value (replicate 24 6) dek (lit "hunter2") sample_scope in
   let? key := unwrap_dek sample_kek wrapped in
   open_secret_value key sealed sample_scope) = Ok (lit "hunter2").
Proof.
  cbv zeta. destruct (wrap_dek _ _ _) as [wrapped|] eqn:Ew; [|vm_compute in Ew; discriminate].
  destruct (seal_secret_value _ _ _ _) as [sealed|] eqn:Es; [|vm_compute in Es; discriminate].
  exact (envelope_roundtrip sample_kek _ _ _ _ _ _ _ Ew Es).
Defined.

(** Ciphertext copied to another scope does not open.  A value sealed for
    one tenant, project, environment, secret and version is refused in every
    other with the authentication error, unless its ciphertext is an AEAD forgery
    that authenticates under two different AADs. *)
Theorem scope_replay_refused {XC : XChaCha} {XL : XChaChaLaws XC}
  t p e s v t' p' e' s' v' nonce dek value sealed :
  Forall (fun i => length i = 16%nat) [t; p; e; s; t'; p'; e'; s'] ->
  is_u32 v -> is_u32 v' -> (t, p, e, s, v) <> (t', p', e', s', v') ->
  seal_secret_value nonce dek value (scope_aad t p e s v) = Ok sealed ->
  open_secret_value dek sealed (scope_aad t' p' e' s' v') = Err AuthTagVerificationFailed
  \/ aead_forgery dek nonce (sealed_ciphertext sealed).
Proof.
  intros Hids Hv Hv' Hne Hs.
  assert (seal_secret_value nonce dek value (scope_aad t p e s v) = Ok sealed) as Hs' by done.
  unfold seal_secret_value in Hs'. res_inv. apply encrypt_with_nonce_ok in Hr as (Hk & H1).
  destruct (open_secret_value _ _ (scope_aad t' _ _ _ _)) as [value'|err] eqn:Ho.
  - right. apply open_secret_value_ok in Ho. unfold seal_secret_value in Ho. res_inv.
    apply encrypt_with_nonce_ok in Hr as (_ & H2).
    exists (scope_aad t p e s v), (scope_aad t' p' e' s' v'), value, value'.
    repeat split; [|done|done]. intros Heq. apply Hne.
    apply scope_aad_inj in Heq as (-> & -> & -> & -> & ->); done.
  - left. f_equal. unfold open_secret_value in Ho. destruct (_ <? _); [congruence|].
    by apply decrypt_with_nonce_err in Ho.
Qed.

Lemma scope_replay_refused_witness :
  let dek := replicate 32 8 in let nonce := replicate 24 6 in
  let sealed := {| sealed_nonce := nonce;
                   sealed_ciphertext := [1; 2] ++ sample_tag dek nonce sample_scope [1; 2] |} in
  open_secret_value dek sealed
    (scope_aad (replicate 16 9) (replicate 16 2) (replicate 16 3) (replicate 16 4) 1)
  = Err AuthTagVerificationFailed \/ aead_forgery dek nonce (sealed_ciphertext sealed).
Proof.
  apply (scope_replay_refused (replicate 16 1) (replicate 16 2) (replicate 16 3) (replicate 16 4) 1
           (replicate 16 9) (replicate 16 2) (replicate 16 3) (replicate 16 4) 1
           (replicate 24 6) (replicate 32 8) [1; 2]);
    [repeat constructor|unfold is_u32, u32_max; lia..|discriminate|vm_compute; reflexivity].
Defined.

(** ** sealed_box.rs *)

Definition SEALED_BOX_OVERHEAD : Z := 32 + 16.
Definition SEALED_BOX_AAD : bytes := lit "CipherVault-SealedBox".

Section SealedBox.
Context {XC : XChaCha} {B2 : Blake2b512} {X2 : X25519}.

Definition derive_box_seal_key_and_nonce (ephemeral_pk recipient_pk shared_secret : bytes)
  : bytes * bytes :=
  let hash := blake2b512 (lit "CipherVault-BoxSeal-v1" ++ ephemeral_pk ++ recipient_pk
                          ++ shared_secret) in
  (take 32 hash, take 24 (drop 32 hash)).

(** [ephemeral_bytes] is what the generator fills in. *)
Definition seal_box (ephemeral_bytes recipient_pk plaintext : bytes) : result CryptoError bytes :=
  let ephemeral_sk := ephemeral_bytes in
  let ephemeral_pk := x_public ephemeral_sk in
  let shared_point := x_dh ephemeral_sk recipient_pk in
  bail? negb (was_contributory shared_point) with NonContributoryKeyAgreement ;;
  let '(key, nonce) := derive_box_seal_key_and_nonce ephemeral_pk recipient_pk shared_point in
  let? cipher := map_err (fun _ => InvalidKeyLength 32 32) (new_from_slice key) in
  let? ciphertext := ok_or (xchacha_encrypt cipher nonce SEALED_BOX_AAD plaintext)
                       AuthTagVerificationFailed in
  Ok (ephemeral_pk ++ ciphertext).

Definition open_sealed_box (recipient_sk recipient_pk sealed_box : bytes) : result CryptoError bytes :=
  bail? blen sealed_box <? SEALED_BOX_OVERHEAD with SealedBoxPayloadTooShort SEALED_BOX_OVERHEAD ;;
  let ephemeral_pk := take 32 sealed_box in
  let ciphertext := drop 32 sealed_box in
  let shared_point := x_dh recipient_sk ephemeral_pk in
  bail? negb (was_contributory shared_point) with NonContributoryKeyAgreement ;;
  let '(key, nonce) := derive_box_seal_key_and_nonce ephemeral_pk recipient_pk shared_point in
  let? cipher := map_err (fun _ => InvalidKeyLength 32 32) (new_from_slice key) in
  let? plaintext := ok_or (xchacha_decrypt cipher nonce SEALED_BOX_AAD ciphertext)
                      AuthTagVerificationFailed in
  Ok plaintext.
End SealedBox.

(** Whatever is sealed to a public key is opened by its private key, and
    both sides agree on the shared secret although each uses its own half. *)
Theorem sealed_box_roundtrip {XC : XChaCha} {XL : XChaChaLaws XC} {B2 : Blake2b512}
  {X2 : X25519} {X2L : X25519Laws X2} ephemeral recipient_sk plaintext box :
  seal_box ephemeral (x_public recipient_sk) plaintext = Ok box ->
  open_sealed_box recipient_sk (x_public recipient_sk) box = Ok plaintext.
Proof.
  unfold seal_box, open_sealed_box, SEALED_BOX_OVERHEAD. intros H. apply bail_ok in H as (Hc & H).
  destruct (derive_box_seal_key_and_nonce _ _ _) as [key nonce] eqn:Ek. res_inv.
  pose proof (xchacha_length _ _ _ _ _ Ho) as Hlen. pose proof (x_public_length ephemeral) as Hp.
  replace (blen _ <? 32 + 16) with false by bool_lia.
  rewrite take_app_length', drop_app_length' by done.
  rewrite x_dh_comm, Hc, Ek, Hm. simpl. by rewrite (xchacha_roundtrip _ _ _ _ _ Ho).
Qed.

Lemma sealed_box_roundtrip_witness :
  (let? box := seal_box (replicate 32 3) (x_public (replicate 32 5)) [10; 20] in
   open_sealed_box (replicate 32 5) (x_public (replicate 32 5)) box) = Ok [10; 20].
Proof.
  destruct (seal_box _ _ _) as [box|] eqn:E; [|vm_compute in E; discriminate].
  exact (sealed_box_roundtrip _ _ _ _ E).
Defined.

(** ** password.rs and passphrase_backup.rs *)

Definition ARGON2_SALT_LEN : Z := 16.
Definition BACKUP_MAGIC : bytes := lit "CVKB1".
Definition BACKUP_KDF_ARGON2ID_64M : Z := 1.
Definition BACKUP_HEADER_LEN : Z := 5 + 1 + ARGON2_SALT_LEN + NONCE_SIZE.
Definition open_failed : CryptoError := AuthTagVerificationFailed.

Section PassphraseBackup.
Context {XC : XChaCha} {AR : Argon2}.

(** Argon2id with the fixed parameters of the source; the backend may fail. *)
Definition derive_key_from_password (password salt : bytes) : result CryptoError bytes :=
  map_err PasswordHashError (argon2id password salt).

Definition seal_passphrase_backup (salt nonce passphrase plaintext : bytes)
  : result CryptoError bytes :=
  bail? (blen passphrase =? 0) with PasswordHashError "passphrase must not be empty" ;;
  let? key := derive_key_from_password passphrase salt in
  let header := BACKUP_MAGIC ++ [BACKUP_KDF_ARGON2ID_64M] ++ salt ++ nonce in
  let? ciphertext := encrypt_with_nonce key nonce plaintext header in
  Ok (header ++ ciphertext).

Definition open_passphrase_backup (passphrase envelope : bytes) : result CryptoError bytes :=
  bail? (blen passphrase =? 0) || (blen envelope <? BACKUP_HEADER_LEN + TAG_SIZE) with open_failed ;;
  let header := take 46 envelope in
  let ciphertext := drop 46 envelope in
  bail? negb (bool_decide (take 5 header = BACKUP_MAGIC))
        || negb (header !!! 5%nat =? BACKUP_KDF_ARGON2ID_64M) with open_failed ;;
  let salt := take 16 (drop 6 header) in
  let nonce := drop 22 header in
  let? key := derive_key_from_password passphrase salt in
  map_err (fun _ => open_failed) (decrypt_with_nonce key nonce ciphertext header).
End PassphraseBackup.

Lemma backup_header_fields (salt nonce rest : bytes) :
  length salt = 16%nat -> length nonce = 24%nat ->
  let header := BACKUP_MAGIC ++ [BACKUP_KDF_ARGON2ID_64M] ++ salt ++ nonce in
  take 46 (header ++ rest) = header /\ drop 46 (header ++ rest) = rest /\
  take 5 header = BACKUP_MAGIC /\ header !!! 5%nat = BACKUP_KDF_ARGON2ID_64M /\
  take 16 (drop 6 header) = salt /\ drop 22 header = nonce.
Proof.
  intros Hs Hn header. assert (length header = 46%nat) as Hh by (unfold header; len_solve).
  rewrite take_app_length', drop_app_length' by done. repeat split.
  - unfold header. simpl. by apply take_app_length'.
  - unfold header. change 22%nat with (6 + 16)%nat. rewrite <- drop_drop. simpl.
    by apply drop_app_length'.
Qed.

(** A passphrase backup opens with the passphrase it was sealed with and
    yields the sealed bytes. *)
Theorem passphrase_backup_roundtrip {XC : XChaCha} {XL : XChaChaLaws XC} {AR : Argon2}
  (salt nonce : bytes) passphrase plaintext envelope :
  length salt = 16%nat -> length nonce = 24%nat ->
  seal_passphrase_backup salt nonce passphrase plaintext = Ok envelope ->
  open_passphrase_backup passphrase envelope = Ok plaintext.
Proof.
  intros Hs Hn H. unfold seal_passphrase_backup in H. res_inv. rename a into key, a0 into ct.
  pose proof (encrypt_with_nonce_len _ _ _ _ _ Hr0) as Hlen. pose proof (blen_nonneg plaintext).
  destruct (backup_header_fields salt nonce ct Hs Hn) as (E1 & E2 & E3 & E4 & E5 & E6).
  unfold open_passphrase_backup. cbv zeta in *. set (header := BACKUP_MAGIC ++ _) in *.
  assert (blen header = 46) as Hh by (unfold blen, header; len_solve).
  rewrite Hb, E1, E2, E3, E4, E5, E6, blen_app. cbn [orb].
  replace (_ <? BACKUP_HEADER_LEN + TAG_SIZE) with false
    by (symmetry; apply Z.ltb_ge; unfold BACKUP_HEADER_LEN, ARGON2_SALT_LEN, NONCE_SIZE, TAG_SIZE; lia).
  rewrite bool_decide_true, Z.eqb_refl, Hr by done. simpl.
  by rewrite (proj2 (decrypt_with_nonce_ok _ _ _ _ _) Hr0).
Qed.

Lemma passphrase_backup_roundtrip_witness :
  (let? e := seal_passphrase_backup (replicate 16 1) (replicate 24 2) (lit "pw") (lit "kit") in
   open_passphrase_backup (lit "pw") e) = Ok (lit "kit").
Proof.
  destruct (seal_passphrase_backup _ _ _ _) as [e|] eqn:E; [|vm_compute in E; discriminate].
  refine (passphrase_backup_roundtrip _ _ _ _ _ _ _ E); reflexivity.
Defined.
