(* ===== verification/Schema.v ===== *)
(** * The format crate: canonical records, signatures and content identifiers

    src/crates/format/src/canonical.rs and schema.rs, with the hardware-token
    interface and its software simulator of src/crates/crypto/src/hsm.rs.  A
    record is a [Record] with the source's fields; CBOR is an interface at each
    record type.  The records that carry a signature are instances of [Signed],
    so that signing and verifying are stated once; each record then has its own
    [sign]/[verify] as in the source. *)

From S2P Require Import Prelude Errors Primitives SamplePrimitives Crypto.

(** ** canonical.rs *)

Definition MAX_RECORD_SIZE : Z := 16 * 1024 * 1024.

Definition to_canonical_cbor {T : Type} `{Cbor T} (value : T) : result FormatError bytes :=
  let? buf := map_err SerializationError (cbor_write value) in
  bail? blen buf >? MAX_RECORD_SIZE with SizeLimitExceeded MAX_RECORD_SIZE (blen buf) ;;
  Ok buf.

Definition from_canonical_cbor {T : Type} `{Cbor T} (b : bytes) : result FormatError T :=
  bail? blen b >? MAX_RECORD_SIZE with SizeLimitExceeded MAX_RECORD_SIZE (blen b) ;;
  map_err DeserializationError (cbor_read b).

Definition compute_digest `{Sha256} (b : bytes) : bytes := sha256 b.

Section CanonicalFacts.
Context {T : Type} {CB : Cbor T} {CL : CborLaws T CB}.

Lemma to_canonical_cbor_ok (v : T) b :
  to_canonical_cbor v = Ok b <-> cbor_write v = Ok b /\ blen b <= MAX_RECORD_SIZE.
Proof.
  unfold to_canonical_cbor. split.
  - intros H. res_inv. split; [done|]. rewrite Z.gtb_ltb in Hb. bool_prop. lia.
  - intros (-> & H). simpl. rewrite Z.gtb_ltb.
    by replace (MAX_RECORD_SIZE <? blen b) with false by bool_lia.
Qed.

Lemma canonical_roundtrip (v : T) b :
  to_canonical_cbor v = Ok b -> from_canonical_cbor b = Ok v.
Proof.
  rewrite to_canonical_cbor_ok. intros (Hw & Hl). unfold from_canonical_cbor.
  rewrite Z.gtb_ltb. replace (MAX_RECORD_SIZE <? blen b) with false by bool_lia.
  by rewrite (cbor_roundtrip v b Hw).
Qed.

Lemma canonical_inj (v w : T) b :
  to_canonical_cbor v = Ok b -> to_canonical_cbor w = Ok b -> v = w.
Proof. intros Hv Hw. apply canonical_roundtrip in Hv, Hw. congruence. Qed.

(** Records with equal content identifiers are equal, or SHA-256 collided. *)
Lemma digest_inj `{Sha256} (v w : T) b c :
  to_canonical_cbor v = Ok b -> to_canonical_cbor w = Ok c ->
  compute_digest b = compute_digest c -> v = w \/ sha256_collision.
Proof.
  intros Hv Hw Hd. destruct (decide (b = c)) as [<-|Hne].
  - left. by eapply canonical_inj.
  - right. by exists b, c.
Qed.
End CanonicalFacts.

(** ** crypto/hsm.rs: the signing authority behind a hardware slot *)

Inductive HsmSlot : Type := Authentication | DigitalSignature | KeyManagement | CardAuthentication.
#[global] Instance HsmSlot_eq_dec : EqDecision HsmSlot.
Proof. solve_decision. Defined.

Definition piv_slot_hex (slot : HsmSlot) : string :=
  match slot with
  | Authentication => "9A"
  | DigitalSignature => "9C"
  | KeyManagement => "9D"
  | CardAuthentication => "9E"
  end.

(** [{:?}] of a slot. *)
Definition slot_debug (slot : HsmSlot) : string :=
  match slot with
  | Authentication => "Authentication"
  | DigitalSignature => "DigitalSignature"
  | KeyManagement => "KeyManagement"
  | CardAuthentication => "CardAuthentication"
  end.

(** The trait: public keys, signatures and key agreement by slot. *)
Class HardwareSecurityModule (M : Type) : Type := {
  get_public_key : M -> HsmSlot -> result CryptoError bytes;
  sign_message : M -> HsmSlot -> bytes -> bytes -> result CryptoError bytes; (* domain, message *)
  ecdh_key_agreement : M -> HsmSlot -> bytes -> result CryptoError bytes;
}.
(** What a signing slot promises: its signatures verify under its public key. *)
Class HsmLaws (M : Type) (H : HardwareSecurityModule M) `{Ed25519} : Prop := {
  hsm_sign_verify : forall (m : M) slot domain message sig,
    sign_message m slot domain message = Ok sig ->
    exists pk, get_public_key m slot = Ok pk /\ length pk = 32%nat /\ length sig = 64%nat /\
               verify_with_domain pk domain message sig = Ok tt;
}.

Record SoftwareHsmSimulator : Type := { sig_key : bytes; ecdh_key : bytes }.

Section Simulator.
Context {ED : Ed25519} {X2 : X25519}.

Definition sim_get_public_key (self : SoftwareHsmSimulator) (slot : HsmSlot)
  : result CryptoError bytes :=
  match slot with
  | DigitalSignature | Authentication => Ok (verifying_key (sig_key self))
  | KeyManagement | CardAuthentication => Ok (x_public (ecdh_key self))
  end.

Definition sim_sign_message (self : SoftwareHsmSimulator) (slot : HsmSlot) (domain message : bytes)
  : result CryptoError bytes :=
  bail? negb (bool_decide (slot = DigitalSignature)) && negb (bool_decide (slot = Authentication))
    with HsmError ("Slot " +:+ slot_debug slot +:+ " does not support digital signatures") ;;
  Ok (sign_with_domain (sig_key self) domain message).

Definition sim_sign_digest (self : SoftwareHsmSimulator) (slot : HsmSlot) (domain digest : bytes)
  : result CryptoError bytes := sim_sign_message self slot domain digest.

Definition sim_ecdh_key_agreement (self : SoftwareHsmSimulator) (slot : HsmSlot) (peer : bytes)
  : result CryptoError bytes :=
  bail? negb (bool_decide (slot = KeyManagement)) && negb (bool_decide (slot = CardAuthentication))
    with HsmError ("Slot " +:+ slot_debug slot +:+ " does not support key agreement") ;;
  Ok (x_dh (ecdh_key self) peer).

#[global] Instance simulator_hsm : HardwareSecurityModule SoftwareHsmSimulator :=
  {| get_public_key := sim_get_public_key;
     sign_message := sim_sign_message;
     ecdh_key_agreement := sim_ecdh_key_agreement |}.

#[global] Instance simulator_laws `{!Ed25519Laws ED} : HsmLaws SoftwareHsmSimulator simulator_hsm.
Proof.
  split. intros m slot domain message sig H. simpl in H. unfold sim_sign_message in H. res_inv.
  exists (verifying_key (sig_key m)).
  split; [by destruct slot|]. split; [apply verifying_key_length|].
  split; [apply ed_sign_length|]. apply verify_sign_with_domain.
Qed.
End Simulator.

(** ** Signed records *)

(** A record whose [signature] field covers the other fields. *)
Class Signed (T : Type) : Type := {
  signature_of : T -> bytes;
  with_signature : T -> bytes -> T;
  signed_domain : bytes;
  bad_signature_length : string;
}.
Class SignedLaws (T : Type) (S : Signed T) : Prop := {
  signature_with : forall (r : T) s, signature_of (with_signature r s) = s;
  with_with : forall (r : T) s s', with_signature (with_signature r s) s' = with_signature r s';
  with_self : forall r : T, with_signature r (signature_of r) = r;
  domain_colon_free : 58 ∉ signed_domain;
}.

Section SignedRecord.
Context {T : Type} {SG : Signed T} {CB : Cbor T} {ED : Ed25519}.

Definition unsigned_bytes (self : T) : result FormatError bytes :=
  to_canonical_cbor (with_signature self []).

Definition sign_record (sk : bytes) (self : T) : result FormatError T :=
  let? unsigned := unsigned_bytes self in
  let sig := sign_with_domain sk signed_domain unsigned in
  Ok (with_signature self sig).

Definition sign_record_with_hsm {M : Type} `{HardwareSecurityModule M} (hsm : M) (slot : HsmSlot)
  (self : T) : result FormatError T :=
  let? unsigned := unsigned_bytes self in
  let? sig := map_err FormatCrypto (sign_message hsm slot signed_domain unsigned) in
  Ok (with_signature self sig).

Definition verify_record (pk : bytes) (self : T) : result FormatError unit :=
  bail? negb (blen (signature_of self) =? 64) with MalformedRecord bad_signature_length ;;
  let? unsigned := unsigned_bytes self in
  map_err FormatCrypto (verify_with_domain pk signed_domain unsigned (signature_of self)).

Context {SL : SignedLaws T SG} {CL : CborLaws T CB} {EL : Ed25519Laws ED}.

Lemma unsigned_bytes_with self s : unsigned_bytes (with_signature self s) = unsigned_bytes self.
Proof. unfold unsigned_bytes. by rewrite with_with. Qed.

Lemma sign_verify_record sk self self' :
  sign_record sk self = Ok self' -> verify_record (verifying_key sk) self' = Ok tt.
Proof.
  unfold sign_record, verify_record. intros H. res_inv.
  rewrite signature_with, unsigned_bytes_with. unfold blen.
  unfold sign_with_domain at 1. rewrite ed_sign_length, Hr. simpl.
  by rewrite verify_sign_with_domain.
Qed.

Lemma hsm_sign_verify_record {M : Type} {HM : HardwareSecurityModule M} {HL : HsmLaws M HM}
  (m : M) slot self self' :
  sign_record_with_hsm m slot self = Ok self' ->
  exists pk, get_public_key m slot = Ok pk /\ verify_record pk self' = Ok tt.
Proof.
  unfold sign_record_with_hsm, verify_record. intros H. res_inv.
  destruct (hsm_sign_verify _ _ _ _ _ Hm) as (pk & Hpk & Hl & Hs & Hv).
  exists pk. split; [done|]. rewrite signature_with, unsigned_bytes_with. unfold blen.
  rewrite Hs, Hr. simpl. by rewrite Hv.
Qed.

(** A signature that verifies for two records verifies for one signed content:
    the records differ at most in the signature field. *)
Lemma unsigned_bytes_inj r r' b :
  unsigned_bytes r = Ok b -> unsigned_bytes r' = Ok b ->
  with_signature r [] = with_signature r' [].
Proof. apply canonical_inj. Qed.
End SignedRecord.

(** ** schema.rs *)

Definition PROTOCOL_VERSION : Z := 1.
Definition CHUNK_WIRE_VERSION_V2 : Z := 2.

Module Genesis.
Record GenesisRecord : Type := {
  version : Z; vault_id : bytes; recovery_signing_pk : bytes; recovery_encryption_pk : bytes;
  policy_digest : bytes; created_at_utc : Z; creation_nonce : bytes; signature : bytes;
}.
#[global] Instance signed : Signed GenesisRecord := {|
  signature_of := signature;
  with_signature r s :=
    {| version := version r; vault_id := vault_id r; recovery_signing_pk := recovery_signing_pk r;
       recovery_encryption_pk := recovery_encryption_pk r; policy_digest := policy_digest r;
       created_at_utc := created_at_utc r; creation_nonce := creation_nonce r; signature := s |};
  signed_domain := lit "genesis_record";
  bad_signature_length := "Invalid key or signature length in genesis";
|}.
#[global] Instance signed_laws : SignedLaws GenesisRecord signed.
Proof. split; try done; [by intros []|vm_compute; set_solver]. Qed.

Definition sign `{Cbor GenesisRecord, Ed25519} (recovery_sk : bytes) (self : GenesisRecord)
  : result FormatError GenesisRecord := sign_record recovery_sk self.

(** The genesis record verifies under the key it carries. *)
Definition verify `{Cbor GenesisRecord, Ed25519} (self : GenesisRecord) : result FormatError unit :=
  bail? negb (blen (recovery_signing_pk self) =? 32) || negb (blen (signature self) =? 64)
    with MalformedRecord "Invalid key or signature length in genesis" ;;
  let? unsigned := unsigned_bytes self in
  map_err FormatCrypto
    (verify_with_domain (recovery_signing_pk self) (lit "genesis_record") unsigned (signature self)).
End Genesis.

Module DeviceCert.
Record DeviceCertificate : Type := {
  version : Z; vault_id : bytes; certificate_id : bytes; device_signing_pk : bytes;
  permissions : Z; authority_generation : Z; issued_at_utc : Z; signature : bytes;
}.
#[global] Instance signed : Signed DeviceCertificate := {|
  signature_of := signature;
  with_signature r s :=
    {| version := version r; vault_id := vault_id r; certificate_id := certificate_id r;
       device_signing_pk := device_signing_pk r; permissions := permissions r;
       authority_generation := authority_generation r; issued_at_utc := issued_at_utc r;
       signature := s |};
  signed_domain := lit "device_certificate";
  bad_signature_length := "Invalid signature length in device cert";
|}.
#[global] Instance signed_laws : SignedLaws DeviceCertificate signed.
Proof. split; try done; [by intros []|vm_compute; set_solver]. Qed.

Definition sign `{Cbor DeviceCertificate, Ed25519} (recovery_sk : bytes) (self : DeviceCertificate)
  : result FormatError DeviceCertificate := sign_record recovery_sk self.
Definition verify `{Cbor DeviceCertificate, Ed25519} (recovery_pk : bytes) (self : DeviceCertificate)
  : result FormatError unit := verify_record recovery_pk self.
End DeviceCert.

Module Envelope.
Record EpochEnvelope : Type := {
  version : Z; vault_id : bytes; epoch : Z; recipient_fingerprint : bytes;
  sealed_epoch_key : bytes; created_at_utc : Z; signer_device_id : bytes; signature : bytes;
}.
#[global] Instance signed : Signed EpochEnvelope := {|
  signature_of := signature;
  with_signature r s :=
    {| version := version r; vault_id := vault_id r; epoch := epoch r;
       recipient_fingerprint := recipient_fingerprint r; sealed_epoch_key := sealed_epoch_key r;
       created_at_utc := created_at_utc r; signer_device_id := signer_device_id r; signature := s |};
  signed_domain := lit "epoch_envelope";
  bad_signature_length := "Invalid signature length in epoch envelope";
|}.
#[global] Instance signed_laws : SignedLaws EpochEnvelope signed.
Proof. split; try done; [by intros []|vm_compute; set_solver]. Qed.

Definition sign `{Cbor EpochEnvelope, Ed25519} (device_sk : bytes) (self : EpochEnvelope)
  : result FormatError EpochEnvelope := sign_record device_sk self.
Definition sign_with_hsm {M : Type} `{Cbor EpochEnvelope, HardwareSecurityModule M} (hsm : M)
  (slot : HsmSlot) (self : EpochEnvelope) : result FormatError EpochEnvelope :=
  sign_record_with_hsm hsm slot self.
Definition verify `{Cbor EpochEnvelope, Ed25519} (device_pk : bytes) (self : EpochEnvelope)
  : result FormatError unit := verify_record device_pk self.
End Envelope.

Module Chunk.
Record ChunkWireObject : Type := {
  version : Z; vault_id : bytes; file_version_id : bytes; chunk_index : Z; total_chunks : Z;
  declared_padded_length : Z; key_epoch : Z; payload : bytes;
}.
#[global] Instance eq_dec : EqDecision ChunkWireObject.
Proof. solve_decision. Defined.

Definition compute_aad (self : ChunkWireObject) : bytes :=
  to_le_bytes 4 (version self) ++ vault_id self ++ file_version_id self
  ++ to_le_bytes 4 (chunk_index self) ++ to_le_bytes 4 (total_chunks self)
  ++ to_le_bytes 4 (declared_padded_length self) ++ to_le_bytes 8 (key_epoch self).

Definition compute_cid `{Cbor ChunkWireObject, Sha256} (self : ChunkWireObject)
  : result FormatError bytes :=
  let? b := to_canonical_cbor self in
  Ok (compute_digest b).

(** The field widths of the Rust struct, with the 32-byte identifiers every
    reader of chunks insists on. *)
Definition header_ok (c : ChunkWireObject) : Prop :=
  is_u32 (version c) /\ length (vault_id c) = 32%nat /\ length (file_version_id c) = 32%nat /\
  is_u32 (chunk_index c) /\ is_u32 (total_chunks c) /\ is_u32 (declared_padded_length c) /\
  is_u64 (key_epoch c).

(** Everything but the payload. *)
Definition header (c : ChunkWireObject) : Z * bytes * bytes * Z * Z * Z * Z :=
  (version c, vault_id c, file_version_id c, chunk_index c, total_chunks c,
   declared_padded_length c, key_epoch c).

Lemma compute_cid_inj `{Sha256} {CB : Cbor ChunkWireObject} {CL : CborLaws _ CB} c c' cid :
  compute_cid c = Ok cid -> compute_cid c' = Ok cid -> c = c' \/ sha256_collision.
Proof.
  unfold compute_cid. intros H1 H2. apply res_bind_ok in H1 as (b & Hb & [= H1]).
  apply res_bind_ok in H2 as (b' & Hb' & [= H2]). eapply digest_inj; [done..|congruence].
Qed.
End Chunk.

Module Manifest.
Record ManifestFileEntry : Type := {
  file_id : bytes; relative_path : str; file_version_id : bytes; raw_length : Z;
  padded_length : Z; plaintext_sha256 : bytes; file_version_key : bytes; chunk_cids : list bytes;
  is_deleted : bool;
}.
Record SnapshotManifest : Type := {
  version : Z; vault_id : bytes; epoch : Z; snapshot_id : bytes; files : list ManifestFileEntry;
}.
End Manifest.

Module Snapshot.
Record SnapshotRecord : Type := {
  version : Z; vault_id : bytes; snapshot_id : bytes; parent_snapshot_ids : list bytes;
  device_id : bytes; device_counter : Z; authority_generation : Z; epoch : Z;
  encrypted_manifest_cid : bytes; encrypted_manifest_len : Z; advisory_timestamp_utc : Z;
  signature : bytes;
}.
#[global] Instance signed : Signed SnapshotRecord := {|
  signature_of := signature;
  with_signature r s :=
    {| version := version r; vault_id := vault_id r; snapshot_id := snapshot_id r;
       parent_snapshot_ids := parent_snapshot_ids r; device_id := device_id r;
       device_counter := device_counter r; authority_generation := authority_generation r;
       epoch := epoch r; encrypted_manifest_cid := encrypted_manifest_cid r;
       encrypted_manifest_len := encrypted_manifest_len r;
       advisory_timestamp_utc := advisory_timestamp_utc r; signature := s |};
  signed_domain := lit "snapshot_record";
  bad_signature_length := "Invalid signature length in snapshot record";
|}.
#[global] Instance signed_laws : SignedLaws SnapshotRecord signed.
Proof. split; try done; [by intros []|vm_compute; set_solver]. Qed.

Definition sign `{Cbor SnapshotRecord, Ed25519} (device_sk : bytes) (self : SnapshotRecord)
  : result FormatError SnapshotRecord := sign_record device_sk self.
Definition sign_with_hsm {M : Type} `{Cbor SnapshotRecord, HardwareSecurityModule M} (hsm : M)
  (slot : HsmSlot) (self : SnapshotRecord) : result FormatError SnapshotRecord :=
  sign_record_with_hsm hsm slot self.
Definition verify `{Cbor SnapshotRecord, Ed25519} (device_pk : bytes) (self : SnapshotRecord)
  : result FormatError unit := verify_record device_pk self.
Definition compute_record_cid `{Cbor SnapshotRecord, Sha256} (self : SnapshotRecord)
  : result FormatError bytes :=
  let? b := to_canonical_cbor self in
  Ok (compute_digest b).
End Snapshot.

Module Closure.
Record RecoveryClosure : Type := {
  snapshot_id : bytes; snapshot_record_cid : bytes; manifest_cid : bytes;
  envelope_ids : list bytes; chunk_cids : list bytes; total_bytes : Z;
}.
Record RecoverySet : Type := { closure : RecoveryClosure; locator : bytes; records : list bytes }.

Definition compute_base_closure_digest `{Cbor RecoveryClosure, Sha256} (self : RecoveryClosure)
  : result FormatError bytes :=
  let? b := to_canonical_cbor self in
  Ok (compute_digest b).
End Closure.

Module Head.
Record HeadRecord : Type := {
  version : Z; vault_id : bytes; snapshot_id : bytes; parent_snapshot_ids : list bytes;
  closure_digest : bytes; device_id : bytes; device_counter : Z; signature : bytes;
}.
#[global] Instance eq_dec : EqDecision HeadRecord.
Proof. solve_decision. Defined.
#[global] Instance signed : Signed HeadRecord := {|
  signature_of := signature;
  with_signature r s :=
    {| version := version r; vault_id := vault_id r; snapshot_id := snapshot_id r;
       parent_snapshot_ids := parent_snapshot_ids r; closure_digest := closure_digest r;
       device_id := device_id r; device_counter := device_counter r; signature := s |};
  signed_domain := lit "head_record";
  bad_signature_length := "Invalid signature length in head record";
|}.
#[global] Instance signed_laws : SignedLaws HeadRecord signed.
Proof. split; try done; [by intros []|vm_compute; set_solver]. Qed.

Definition sign `{Cbor HeadRecord, Ed25519} (device_sk : bytes) (self : HeadRecord)
  : result FormatError HeadRecord := sign_record device_sk self.
Definition sign_with_hsm {M : Type} `{Cbor HeadRecord, HardwareSecurityModule M} (hsm : M)
  (slot : HsmSlot) (self : HeadRecord) : result FormatError HeadRecord :=
  sign_record_with_hsm hsm slot self.
Definition verify `{Cbor HeadRecord, Ed25519} (device_pk : bytes) (self : HeadRecord)
  : result FormatError unit := verify_record device_pk self.
End Head.

Module Checkpoint.
Record CheckpointEvidence : Type := {
  version : Z; commitment : bytes; salt : bytes; head_record_cid : bytes; chain_id : Z;
  contract_address : bytes; tx_hash : bytes; block_number : Z; timestamp_utc : Z;
}.

Definition compute_commitment `{Sha256} (salt head_record_cid : bytes) : bytes :=
  sha256 (lit "CIPHERVAULT-ANCHOR-V1" ++ salt ++ head_record_cid).

Definition new `{Sha256} (salt head_record_cid : bytes) (chain_id : Z)
  (contract_address tx_hash : bytes) (block_number timestamp_utc : Z) : CheckpointEvidence :=
  {| version := PROTOCOL_VERSION; commitment := compute_commitment salt head_record_cid;
     salt := salt; head_record_cid := head_record_cid; chain_id := chain_id;
     contract_address := contract_address; tx_hash := tx_hash; block_number := block_number;
     timestamp_utc := timestamp_utc |}.

Definition verify_commitment `{Sha256} (self : CheckpointEvidence) : bool :=
  if negb (blen (salt self) =? 32) || negb (blen (head_record_cid self) =? 32)
     || negb (blen (commitment self) =? 32)
  then false
  else bool_decide (commitment self = compute_commitment (salt self) (head_record_cid self)).
End Checkpoint.

Module Placement.
Record PlacementUpdate : Type := {
  version : Z; closure_digest : bytes; object_cid : bytes; source_operator : str;
  target_operator : str; updated_at_utc : Z; verified_readback : bool; signature : bytes;
}.
End Placement.

(** ** A sample serializer for the record types

    A length-prefixed encoding that satisfies the round-trip law of the [Cbor]
    interface at every record type; it lets the examples run and shows that the
    law can hold.  It is not CBOR. *)

Class Codec (A : Type) : Type := {
  enc : A -> list Z;
  dec : list Z -> option (A * list Z);
}.
Class CodecLaw (A : Type) (C : Codec A) : Prop := {
  dec_enc : forall (a : A) rest, dec (enc a ++ rest) = Some (a, rest);
}.

#[global] Instance codec_Z : Codec Z := {|
  enc z := [z];
  dec l := match l with [] => None | z :: r => Some (z, r) end;
|}.
#[global] Instance codec_Z_law : CodecLaw Z codec_Z.
Proof. split. done. Qed.

#[global] Instance codec_bool : Codec bool := {|
  enc b := [Z.b2z b];
  dec l := match l with [] => None | z :: r => Some (z =? 1, r) end;
|}.
#[global] Instance codec_bool_law : CodecLaw bool codec_bool.
Proof. split. by intros []. Qed.

Fixpoint dec_n {A : Type} `{Codec A} (n : nat) (l : list Z) : option (list A * list Z) :=
  match n with
  | O => Some ([], l)
  | S n' => '(a, r) ← dec l; '(t, r') ← dec_n n' r; Some (a :: t, r')
  end.
#[global] Instance codec_list {A : Type} `{Codec A} : Codec (list A) := {|
  enc l := blen l :: concat (enc <$> l);
  dec l := match l with [] => None | n :: r => dec_n (Z.to_nat n) r end;
|}.
#[global] Instance codec_list_law {A : Type} `{CodecLaw A} : CodecLaw (list A) codec_list.
Proof.
  split. intros l rest. simpl. unfold blen. rewrite Nat2Z.id.
  induction l as [|a l IH]; [done|]. cbn [length dec_n]. rewrite fmap_cons. cbn [concat].
  rewrite <- (assoc_L (++)), dec_enc. cbn [mbind option_bind]. by rewrite IH.
Qed.

#[global] Instance codec_prod {A B : Type} `{Codec A, Codec B} : Codec (A * B) := {|
  enc p := enc p.1 ++ enc p.2;
  dec l := '(a, r) ← dec l; '(b, r') ← dec r; Some ((a, b), r');
|}.
#[global] Instance codec_prod_law {A B : Type} `{CodecLaw A, CodecLaw B} : CodecLaw (A * B) codec_prod.
Proof. split. intros [a b] rest. simpl. rewrite <- (assoc_L (++)), dec_enc. simpl. by rewrite dec_enc. Qed.

(** A codec for a record through its tuple of fields. *)
Definition codec_iso {R T : Type} `{Codec T} (f : R -> T) (g : T -> R) : Codec R := {|
  enc r := enc (f r);
  dec l := '(t, r) ← dec l; Some (g t, r);
|}.
Lemma codec_iso_law {R T : Type} `{CodecLaw T} (f : R -> T) (g : T -> R) :
  (forall r, g (f r) = r) -> CodecLaw R (codec_iso f g).
Proof. intros E. split. intros r rest. simpl. rewrite dec_enc. simpl. by rewrite E. Qed.

(** The serializer interface from a codec; trailing input is refused. *)
#[global] Instance sample_cbor {T : Type} `{Codec T} : Cbor T := {|
  cbor_write v := Ok (enc v);
  cbor_read b := match dec b with Some (v, []) => Ok v | _ => Err "invalid encoding"%string end;
|}.
#[global] Instance sample_cbor_laws {T : Type} `{CodecLaw T} : CborLaws T sample_cbor.
Proof.
  split. simpl. intros v b [= <-]. rewrite <- (app_nil_r (enc v)) at 1. by rewrite dec_enc.
Qed.

#[global] Instance codec_genesis : Codec Genesis.GenesisRecord := codec_iso
  (fun '(Genesis.Build_GenesisRecord a b c d e f g h) => (a, b, c, d, e, f, g, h))
  (fun '(a, b, c, d, e, f, g, h) => Genesis.Build_GenesisRecord a b c d e f g h).
#[global] Instance codec_genesis_law : CodecLaw _ codec_genesis.
Proof. apply codec_iso_law. by intros []. Qed.

#[global] Instance codec_device_cert : Codec DeviceCert.DeviceCertificate := codec_iso
  (fun '(DeviceCert.Build_DeviceCertificate a b c d e f g h) => (a, b, c, d, e, f, g, h))
  (fun '(a, b, c, d, e, f, g, h) => DeviceCert.Build_DeviceCertificate a b c d e f g h).
#[global] Instance codec_device_cert_law : CodecLaw _ codec_device_cert.
Proof. apply codec_iso_law. by intros []. Qed.

#[global] Instance codec_envelope : Codec Envelope.EpochEnvelope := codec_iso
  (fun '(Envelope.Build_EpochEnvelope a b c d e f g h) => (a, b, c, d, e, f, g, h))
  (fun '(a, b, c, d, e, f, g, h) => Envelope.Build_EpochEnvelope a b c d e f g h).
#[global] Instance codec_envelope_law : CodecLaw _ codec_envelope.
Proof. apply codec_iso_law. by intros []. Qed.

#[global] Instance codec_chunk : Codec Chunk.ChunkWireObject := codec_iso
  (fun '(Chunk.Build_ChunkWireObject a b c d e f g h) => (a, b, c, d, e, f, g, h))
  (fun '(a, b, c, d, e, f, g, h) => Chunk.Build_ChunkWireObject a b c d e f g h).
#[global] Instance codec_chunk_law : CodecLaw _ codec_chunk.
Proof. apply codec_iso_law. by intros []. Qed.

#[global] Instance codec_entry : Codec Manifest.ManifestFileEntry := codec_iso
  (fun '(Manifest.Build_ManifestFileEntry a b c d e f g h i) => (a, b, c, d, e, f, g, h, i))
  (fun '(a, b, c, d, e, f, g, h, i) => Manifest.Build_ManifestFileEntry a b c d e f g h i).
#[global] Instance codec_entry_law : CodecLaw _ codec_entry.
Proof. apply codec_iso_law. by intros []. Qed.

#[global] Instance codec_manifest : Codec Manifest.SnapshotManifest := codec_iso
  (fun '(Manifest.Build_SnapshotManifest a b c d e) => (a, b, c, d, e))
  (fun '(a, b, c, d, e) => Manifest.Build_SnapshotManifest a b c d e).
#[global] Instance codec_manifest_law : CodecLaw _ codec_manifest.
Proof. apply codec_iso_law. by intros []. Qed.

#[global] Instance codec_snapshot : Codec Snapshot.SnapshotRecord := codec_iso
  (fun '(Snapshot.Build_SnapshotRecord a b c d e f g h i j k l) => (a, b, c, d, e, f, g, h, i, j, k, l))
  (fun '(a, b, c, d, e, f, g, h, i, j, k, l) => Snapshot.Build_SnapshotRecord a b c d e f g h i j k l).
#[global] Instance codec_snapshot_law : CodecLaw _ codec_snapshot.
Proof. apply codec_iso_law. by intros []. Qed.

#[global] Instance codec_closure : Codec Closure.RecoveryClosure := codec_iso
  (fun '(Closure.Build_RecoveryClosure a b c d e f) => (a, b, c, d, e, f))
  (fun '(a, b, c, d, e, f) => Closure.Build_RecoveryClosure a b c d e f).
#[global] Instance codec_closure_law : CodecLaw _ codec_closure.
Proof. apply codec_iso_law. by intros []. Qed.

#[global] Instance codec_head : Codec Head.HeadRecord := codec_iso
  (fun '(Head.Build_HeadRecord a b c d e f g h) => (a, b, c, d, e, f, g, h))
  (fun '(a, b, c, d, e, f, g, h) => Head.Build_HeadRecord a b c d e f g h).
#[global] Instance codec_head_law : CodecLaw _ codec_head.
Proof. apply codec_iso_law. by intros []. Qed.

(** ** Theorems on the signed records

    What a signature over a record commits to, that signing and verifying agree
    on every record kind and signing authority, that a chunk's AAD fixes its
    whole header, and that checkpoint commitments bind. *)

Section AnyRecord.
Context {CG : Cbor Genesis.GenesisRecord} {CD : Cbor DeviceCert.DeviceCertificate}
  {CE : Cbor Envelope.EpochEnvelope} {CS : Cbor Snapshot.SnapshotRecord}
  {CH : Cbor Head.HeadRecord} {ED : Ed25519}.

(** The five kinds of record that carry a signature. *)
Inductive AnyRecord : Type :=
| AGenesis (r : Genesis.GenesisRecord)
| ADevice (r : DeviceCert.DeviceCertificate)
| AEnvelope (r : Envelope.EpochEnvelope)
| ASnapshot (r : Snapshot.SnapshotRecord)
| AHead (r : Head.HeadRecord).

(** The bytes handed to Ed25519 for a record. *)
Definition payload_of {T : Type} `{Signed T, Cbor T} (r : T) : result FormatError bytes :=
  let? unsigned := unsigned_bytes r in Ok (signature_payload signed_domain unsigned).

Definition signed_payload (a : AnyRecord) : result FormatError bytes :=
  match a with
  | AGenesis r => payload_of r
  | ADevice r => payload_of r
  | AEnvelope r => payload_of r
  | ASnapshot r => payload_of r
  | AHead r => payload_of r
  end.

(** A record with its signature field emptied. *)
Definition strip (a : AnyRecord) : AnyRecord :=
  match a with
  | AGenesis r => AGenesis (with_signature r [])
  | ADevice r => ADevice (with_signature r [])
  | AEnvelope r => AEnvelope (with_signature r [])
  | ASnapshot r => ASnapshot (with_signature r [])
  | AHead r => AHead (with_signature r [])
  end.

Lemma payload_of_inj {T T' : Type} {SG : Signed T} {SG' : Signed T'} {CB : Cbor T} {CB' : Cbor T'}
  {SL : SignedLaws T SG} {SL' : SignedLaws T' SG'} (r : T) (r' : T') p :
  payload_of r = Ok p -> payload_of r' = Ok p ->
  @signed_domain T SG = @signed_domain T' SG' /\
  exists b, unsigned_bytes r = Ok b /\ unsigned_bytes r' = Ok b.
Proof.
  unfold payload_of. intros H H'. apply res_bind_ok in H as (b & Hb & [= H]).
  apply res_bind_ok in H' as (b' & Hb' & [= H']). rewrite <- H' in H.
  apply signature_payload_inj in H as (Hd & ->); [|apply domain_colon_free..]. eauto.
Qed.
End AnyRecord.

(** C34: the bytes under a record signature determine the kind of the record and
    every field but the signature, so a signature made for one kind of record is
    never one for another. *)
Theorem record_signature_binding
  {CG : Cbor Genesis.GenesisRecord} {CD : Cbor DeviceCert.DeviceCertificate}
  {CE : Cbor Envelope.EpochEnvelope} {CS : Cbor Snapshot.SnapshotRecord} {CH : Cbor Head.HeadRecord}
  {LG : CborLaws _ CG} {LD : CborLaws _ CD} {LE : CborLaws _ CE} {LS : CborLaws _ CS}
  {LH : CborLaws _ CH} (a b : AnyRecord) p :
  signed_payload a = Ok p -> signed_payload b = Ok p -> strip a = strip b.
Proof.
  destruct a as [r|r|r|r|r], b as [r'|r'|r'|r'|r']; cbn [signed_payload strip]; intros H H';
    destruct (payload_of_inj r r' p H H') as (Hd & u & Hu & Hu'); try (vm_compute in Hd; discriminate Hd);
    f_equal; by eapply unsigned_bytes_inj.
Qed.

Definition sample_head : Head.HeadRecord :=
  {| Head.version := 1; Head.vault_id := replicate 32 1; Head.snapshot_id := replicate 32 2;
     Head.parent_snapshot_ids := []; Head.closure_digest := replicate 32 3;
     Head.device_id := replicate 32 4; Head.device_counter := 5; Head.signature := [] |}.

Lemma record_signature_binding_witness :
  strip (AHead sample_head) = strip (AHead (with_signature sample_head (replicate 64 9))).
Proof.
  destruct (signed_payload (AHead sample_head)) as [p|] eqn:E; [|vm_compute in E; discriminate].
  apply (record_signature_binding _ _ p); [exact E|]. rewrite <- E. reflexivity.
Defined.

(** A record signed with a software key verifies under its public key, and
    a record signed by a hardware slot verifies under the slot's public key, for
    every kind of signed record and every token that keeps the interface. *)
Theorem sign_then_verify {T : Type} {SG : Signed T} {CB : Cbor T} {ED : Ed25519}
  {SL : SignedLaws T SG} {EL : Ed25519Laws ED}
  {M : Type} {HM : HardwareSecurityModule M} {HL : HsmLaws M HM} sk (token : M) slot (r r' : T) :
  (sign_record sk r = Ok r' -> verify_record (verifying_key sk) r' = Ok tt) /\
  (sign_record_with_hsm token slot r = Ok r' ->
   exists pk, get_public_key token slot = Ok pk /\ verify_record pk r' = Ok tt).
Proof. split; [apply sign_verify_record|apply hsm_sign_verify_record]. Qed.

Definition sample_token : SoftwareHsmSimulator :=
  {| sig_key := replicate 32 6; ecdh_key := replicate 32 7 |}.

Lemma sign_then_verify_witness :
  (let? r := sign_record (replicate 32 5) sample_head in
   verify_record (verifying_key (replicate 32 5)) r) = Ok tt /\
  exists r pk, sign_record_with_hsm sample_token DigitalSignature sample_head = Ok r /\
    get_public_key sample_token DigitalSignature = Ok pk /\ verify_record pk r = Ok tt.
Proof.
  split.
  - destruct (sign_record _ _) as [r|] eqn:E; [|vm_compute in E; discriminate].
    exact (proj1 (sign_then_verify (replicate 32 5) sample_token DigitalSignature _ _) E).
  - destruct (sign_record_with_hsm sample_token _ _) as [r|] eqn:E; [|vm_compute in E; discriminate].
    destruct (proj2 (sign_then_verify [] sample_token DigitalSignature _ _) E) as (pk & ? & ?). eauto.
Defined.

(** The genesis record is self-signed: signing it with the key whose public half
    it carries makes it verify. *)
Lemma genesis_sign_verify {CB : Cbor Genesis.GenesisRecord} {ED : Ed25519} {EL : Ed25519Laws ED}
  sk r r' :
  Genesis.recovery_signing_pk r = verifying_key sk ->
  Genesis.sign sk r = Ok r' -> Genesis.verify r' = Ok tt.
Proof.
  intros Hpk H. apply sign_verify_record in H as Hv. unfold Genesis.sign, sign_record in H. res_inv.
  unfold verify_record in Hv. apply bail_ok in Hv as (Hl & Hv). unfold Genesis.verify.
  change (Genesis.recovery_signing_pk _) with (Genesis.recovery_signing_pk r).
  rewrite Hpk. unfold blen at 1. rewrite verifying_key_length.
  change (signature_of ?x) with (Genesis.signature x) in Hl. rewrite Hl. exact Hv.
Qed.

(** The AAD of a chunk fixes its whole header: version, vault, file or
    opaque id, index, count, length and epoch. *)
Theorem chunk_aad_binding c c' :
  Chunk.header_ok c -> Chunk.header_ok c' ->
  Chunk.compute_aad c = Chunk.compute_aad c' -> Chunk.header c = Chunk.header c'.
Proof.
  intros (V & Hv & Hf & I & T & D & E) (V' & Hv' & Hf' & I' & T' & D' & E') H.
  unfold Chunk.compute_aad, Chunk.header in *.
  peel H. peel H. peel H. peel H. peel H. peel H.
  apply to_le_bytes_inj in Eq, Eq2, Eq3, Eq4, H;
    [|by (apply u32_range || apply u64_range)..]. congruence.
Qed.

Definition sample_chunk (index : Z) : Chunk.ChunkWireObject :=
  {| Chunk.version := 1; Chunk.vault_id := replicate 32 1; Chunk.file_version_id := replicate 32 2;
     Chunk.chunk_index := index; Chunk.total_chunks := 3; Chunk.declared_padded_length := 4096;
     Chunk.key_epoch := 7; Chunk.payload := [] |}.

Lemma chunk_aad_binding_witness : Chunk.compute_aad (sample_chunk 0) <> Chunk.compute_aad (sample_chunk 1).
Proof.
  intros H. assert (forall i, 0 <= i <= 1 -> Chunk.header_ok (sample_chunk i)) as Hok.
  { intros i Hi. unfold Chunk.header_ok, is_u32, is_u64, u32_max, u64_max; simpl. lia. }
  pose proof (chunk_aad_binding _ _ (Hok 0 ltac:(lia)) (Hok 1 ltac:(lia)) H) as E. discriminate E.
Defined.

(** Checkpoint evidence built for a salt and head verifies, and evidence
    that verifies with the same commitment names the same salt and head, unless the
    two pairs have one SHA-256. *)
Theorem checkpoint_commitment_binding {SH : Sha256} {SL : Sha256Laws SH}
  (s h : bytes) chain addr tx block ts (e : Checkpoint.CheckpointEvidence) :
  length s = 32%nat -> length h = 32%nat ->
  let mine := Checkpoint.new s h chain addr tx block ts in
  Checkpoint.verify_commitment mine = true /\
  (Checkpoint.verify_commitment e = true -> Checkpoint.commitment e = Checkpoint.commitment mine ->
   (Checkpoint.salt e = s /\ Checkpoint.head_record_cid e = h) \/
   (Checkpoint.salt e ++ Checkpoint.head_record_cid e <> s ++ h /\
    Checkpoint.compute_commitment (Checkpoint.salt e) (Checkpoint.head_record_cid e) = Checkpoint.compute_commitment s h)).
Proof.
  intros Hs Hh mine. unfold Checkpoint.verify_commitment, mine; simpl. unfold blen. split.
  - rewrite Hs, Hh. unfold Checkpoint.compute_commitment at 1. rewrite sha256_length. simpl.
    by apply bool_decide_true.
  - destruct (_ || _) eqn:E; [done|]. intros Hv Hc. bool_prop. rewrite Hv in Hc.
    destruct (decide (Checkpoint.salt e ++ Checkpoint.head_record_cid e = s ++ h)) as [Heq|Hne].
    + left. apply app_inj_1 in Heq; [done|lia].
    + by right.
Qed.

Lemma checkpoint_commitment_binding_witness :
  Checkpoint.verify_commitment
    (Checkpoint.new (replicate 32 1) (replicate 32 2) 42161 (replicate 20 3) (replicate 32 4) 9 10) = true.
Proof.
  apply (checkpoint_commitment_binding (replicate 32 1) (replicate 32 2) 42161 (replicate 20 3)
           (replicate 32 4) 9 10
           (Checkpoint.new (replicate 32 1) (replicate 32 2) 1 [] [] 0 0)); reflexivity.
Defined.
