(* ===== verification/Kit.v ===== *)
(** * Recovery kits

    src/crates/recovery/src/kit.rs: the offline kit with the recovery secret, its printed
    sheet, and the guardian shares a kit is split into.

    CRC-32 (crc32fast) and the scrubbing of vectors (zeroize) are interfaces; the clock and
    the random generator are arguments. *)

From S2P Require Import Prelude Errors Primitives SamplePrimitives Shamir Crypto Schema.

Class Crc32 : Type := { crc32 : bytes -> Z }.
Class Crc32Laws (C : Crc32) : Prop := { crc32_u32 : forall b, is_u32 (crc32 b) }.
(** [Zeroize for Vec<u8>] *)
Class Zeroize : Type := { zeroize_vec : bytes -> bytes }.
Class ZeroizeLaws (Z' : Zeroize) : Prop := { zeroize_clears : forall b, zeroize_vec b = [] }.

Module RecoveryError.
Inductive RecoveryError : Type :=
| ChecksumMismatch (expected calculated : Z)
| HexDecodeError (e : string)
| InvalidKeyLength (n : Z)
| CryptoError (e : Errors.CryptoError)
| FormatError (e : Errors.FormatError)
| InvalidKitFormat (msg : str)
| InvalidSignature (msg : str)
| InvalidChallenge (msg : str).
End RecoveryError.
Abbreviation RecoveryError := RecoveryError.RecoveryError.

(** ** Text of the standard library *)

(** [str::trim_start_matches] of a non-empty text: the prefix is removed as often as it is
    there.  Each round removes a character, so the fuel is enough. *)
Fixpoint trim_matches (fuel : nat) (pat s : str) : str :=
  match fuel with
  | O => s
  | S fuel' => if starts_with pat s then trim_matches fuel' pat (drop (length pat) s) else s
  end.
Definition trim_start_matches (pat s : str) : str := trim_matches (length s) pat s.

(** [str::strip_prefix] *)
Definition strip_prefix (pat s : str) : option str :=
  if starts_with pat s then Some (drop (length pat) s) else None.

(** [str::lines]: a line ends with a line feed, or with a carriage return and a line feed; what
    follows the last line feed is a line when it is not empty. *)
Definition strip_cr (s : str) : str :=
  match rev s with 13 :: rest => rev rest | _ => s end.
Fixpoint ended_lines (pieces : list str) : list str :=
  match pieces with
  | [] => []
  | [last] => if bool_decide (last = []) then [] else [last]
  | piece :: rest => strip_cr piece :: ended_lines rest
  end.
Definition lines (text : str) : list str := ended_lines (split_on 10 text).

(** [str::split] on a non-empty text. *)
Fixpoint split_text (fuel : nat) (pat acc s : str) : list str :=
  match fuel, s with
  | O, _ | _, [] => [rev acc]
  | S fuel', c :: rest =>
      if starts_with pat s then rev acc :: split_text fuel' pat [] (drop (length pat) s)
      else split_text fuel' pat (c :: acc) rest
  end.
Definition split_str (pat s : str) : list str := split_text (length s) pat [] s.

(** [str::split_whitespace] *)
Definition split_whitespace (s : str) : list str :=
  List.filter (fun w => negb (bool_decide (w = []))) (split_on 32 ((fun c => if is_whitespace c then 32 else c) <$> s)).

(** [u32::from_str_radix(s, 16).ok()] *)
Definition hex_value (c : Z) : Z :=
  if is_ascii_digit c then c - 48 else if is_ascii_lowercase c then c - 87 else c - 55.
Definition parse_hex_digits (s : str) : Z := foldl (fun acc c => acc * 16 + hex_value c) 0 s.
Definition u32_from_hex (s : str) : option Z :=
  let digits := match s with 43 :: rest => rest | _ => s end in
  if bool_decide (digits = []) || negb (forallb is_ascii_hexdigit digits) then None
  else if parse_hex_digits digits <=? u32_max then Some (parse_hex_digits digits) else None.

(** [format!("{:#010x}", n)] of a [u32] *)
Definition hex_char (d : Z) : Z := if d <? 10 then 48 + d else 87 + d.
Fixpoint hex_digits (k : nat) (n : Z) : str :=
  match k with
  | O => []
  | S k' => hex_digits k' (n / 16) ++ [hex_char (n mod 16)]
  end.
Definition show_checksum (n : Z) : str := lit "0x" ++ hex_digits 8 n.

(** [join("\n")] *)
Fixpoint join_lines (l : list str) : str :=
  match l with
  | [] => []
  | [s] => s
  | s :: rest => s ++ 10 :: join_lines rest
  end.

(** The text of a sheet: each of these is followed by a line feed. *)
Definition sheet (ls : list str) : str := ls ≫= fun l => l ++ [10].
Definition heavy_rule : str := replicate 80 61.
Definition light_rule : str := replicate 80 45.
Definition em_dash : str := [8212].
Definition operator_lines (endpoints : list str) : str :=
  join_lines ((fun e => lit "  - " ++ e) <$> endpoints).

(** ** The offline kit *)

Module Kit.
Record OfflineRecoveryKit : Type := {
  version : Z; vault_id_hex : str; recovery_secret_hex : str; checksum : Z;
  recovery_signing_pk_hex : str; recovery_encryption_pk_hex : str; recovery_locator_hex : str;
  operator_endpoints : list str; created_at_utc : Z;
}.

Section Kit.
Context {HX : Hex} {B2 : Blake2b512} {ED : Ed25519} {X2 : X25519} {XC : XChaCha} {CR : Crc32} {ZR : Zeroize}.
Import RecoveryError.

Definition hex_decoded (s : str) : result RecoveryError bytes := map_err HexDecodeError (hex_decode s).

(** The secret, the descriptors derived from it, and [now] of the clock. *)
Definition create (now : Z) (vault_id secret : bytes) (operator_endpoints : list str)
  : result RecoveryError OfflineRecoveryKit :=
  let? signing_key := map_err CryptoError (derive_recovery_signing_key secret) in
  let? (_, enc_pk) := map_err CryptoError (derive_recovery_encryption_keys secret) in
  let? locator := map_err CryptoError (derive_recovery_locator secret) in
  Ok {| version := 1; vault_id_hex := hex_encode vault_id; recovery_secret_hex := hex_encode secret;
        checksum := crc32 secret; recovery_signing_pk_hex := hex_encode (verifying_key signing_key);
        recovery_encryption_pk_hex := hex_encode enc_pk; recovery_locator_hex := hex_encode locator;
        operator_endpoints := operator_endpoints; created_at_utc := now |}.

Definition mismatch : RecoveryError :=
  InvalidKitFormat (lit "Recovery kit public descriptors do not match its secret").

(** A wrong length is reported after the buffer was scrubbed. *)
Definition validate_and_extract_secret (self : OfflineRecoveryKit) : result RecoveryError bytes :=
  let? raw_bytes := hex_decoded (recovery_secret_hex self) in
  bail? negb (blen raw_bytes =? 32) with InvalidKeyLength (blen (zeroize_vec raw_bytes)) ;;
  let calculated := crc32 raw_bytes in
  bail? negb (calculated =? checksum self) with ChecksumMismatch (checksum self) calculated ;;
  let secret := raw_bytes in
  let? signing := map_err CryptoError (derive_recovery_signing_key secret) in
  let? (_, encryption) := map_err CryptoError (derive_recovery_encryption_keys secret) in
  bail? negb (version self =? 1) with mismatch ;;
  let? vault_id := hex_decoded (vault_id_hex self) in
  bail? negb (blen vault_id =? 32) with mismatch ;;
  bail? negb (eq_ignore_ascii_case (recovery_signing_pk_hex self) (hex_encode (verifying_key signing))) with mismatch ;;
  bail? negb (eq_ignore_ascii_case (recovery_encryption_pk_hex self) (hex_encode encryption)) with mismatch ;;
  let? locator := map_err CryptoError (derive_recovery_locator secret) in
  bail? negb (eq_ignore_ascii_case (recovery_locator_hex self) (hex_encode locator)) with mismatch ;;
  Ok secret.

Definition printable_lines (self : OfflineRecoveryKit) : list str :=
  [ heavy_rule;
    lit "                    CIPHERVAULT " ++ em_dash ++ lit " EMERGENCY OFFLINE RECOVERY KIT";
    heavy_rule;
    lit "CRITICAL: Store this document in TWO physically separate, secure locations.";
    lit "Do NOT commit this to Git, upload to cloud storage, or store only on one laptop.";
    lit "Loss of this secret means permanent, unrecoverable loss of your encrypted vault.";
    heavy_rule;
    [];
    lit "Vault ID:              " ++ vault_id_hex self;
    lit "Creation Date (UTC):   " ++ show_Z (created_at_utc self);
    [];
    lit "MASTER RECOVERY SECRET R:";
    recovery_secret_hex self;
    [];
    lit "Checksum (CRC32):      " ++ show_checksum (checksum self);
    [];
    light_rule;
    lit "PUBLIC / BOOTSTRAP DESCRIPTORS (Not Secret)";
    light_rule;
    lit "Recovery Signing PK:   " ++ recovery_signing_pk_hex self;
    lit "Recovery Encrypt PK:   " ++ recovery_encryption_pk_hex self;
    lit "Recovery Locator:      " ++ recovery_locator_hex self;
    [];
    lit "Configured Operators:";
    operator_lines (operator_endpoints self);
    heavy_rule ].
Definition format_printable (self : OfflineRecoveryKit) : str := sheet (printable_lines self).

Definition open_envelope (self : OfflineRecoveryKit) (envelope : Envelope.EpochEnvelope)
  : result RecoveryError bytes :=
  let? secret := validate_and_extract_secret self in
  let? (enc_sk, enc_pk) := map_err CryptoError (derive_recovery_encryption_keys secret) in
  let? vault_id := hex_decoded (vault_id_hex self) in
  bail? negb (bool_decide (Envelope.vault_id envelope = vault_id))
        || negb (bool_decide (Envelope.recipient_fingerprint envelope = enc_pk))
    with InvalidKitFormat (lit "Epoch envelope vault/recipient mismatch") ;;
  let? raw_key := map_err CryptoError (open_sealed_box enc_sk enc_pk (Envelope.sealed_epoch_key envelope)) in
  bail? negb (blen raw_key =? 32) with InvalidKeyLength (blen raw_key) ;;
  Ok raw_key.

(** The variables of the parser, as the kit they end up in. *)
Definition blank : OfflineRecoveryKit :=
  {| version := 1; vault_id_hex := []; recovery_secret_hex := []; checksum := 0; recovery_signing_pk_hex := [];
     recovery_encryption_pk_hex := []; recovery_locator_hex := []; operator_endpoints := []; created_at_utc := 0 |}.
Definition set_vault_id_hex (v : str) '(Build_OfflineRecoveryKit n _ sec sum sig enc loc ops at_ : OfflineRecoveryKit) : OfflineRecoveryKit :=
  Build_OfflineRecoveryKit n v sec sum sig enc loc ops at_.
Definition set_recovery_secret_hex (v : str) '(Build_OfflineRecoveryKit n vid _ sum sig enc loc ops at_ : OfflineRecoveryKit) : OfflineRecoveryKit :=
  Build_OfflineRecoveryKit n vid v sum sig enc loc ops at_.
Definition set_checksum (v : Z) '(Build_OfflineRecoveryKit n vid sec _ sig enc loc ops at_ : OfflineRecoveryKit) : OfflineRecoveryKit :=
  Build_OfflineRecoveryKit n vid sec v sig enc loc ops at_.
Definition set_recovery_signing_pk_hex (v : str) '(Build_OfflineRecoveryKit n vid sec sum _ enc loc ops at_ : OfflineRecoveryKit) : OfflineRecoveryKit :=
  Build_OfflineRecoveryKit n vid sec sum v enc loc ops at_.
Definition set_recovery_encryption_pk_hex (v : str) '(Build_OfflineRecoveryKit n vid sec sum sig _ loc ops at_ : OfflineRecoveryKit) : OfflineRecoveryKit :=
  Build_OfflineRecoveryKit n vid sec sum sig v loc ops at_.
Definition set_recovery_locator_hex (v : str) '(Build_OfflineRecoveryKit n vid sec sum sig enc _ ops at_ : OfflineRecoveryKit) : OfflineRecoveryKit :=
  Build_OfflineRecoveryKit n vid sec sum sig enc v ops at_.
Definition push_endpoint (v : str) '(Build_OfflineRecoveryKit n vid sec sum sig enc loc ops at_ : OfflineRecoveryKit) : OfflineRecoveryKit :=
  Build_OfflineRecoveryKit n vid sec sum sig enc loc (ops ++ [v]) at_.
Definition set_created_at_utc (v : Z) '(Build_OfflineRecoveryKit n vid sec sum sig enc loc ops _ : OfflineRecoveryKit) : OfflineRecoveryKit :=
  Build_OfflineRecoveryKit n vid sec sum sig enc loc ops v.

(** What follows the label of a line. *)
Definition value_of (label line : str) : str := trim (trim_start_matches label line).

(** The loop over the trimmed lines; the line after the heading of the secret is the secret. *)
Fixpoint parse_lines (ls : list str) (k : OfflineRecoveryKit) : OfflineRecoveryKit :=
  match ls with
  | [] => k
  | line :: rest =>
      if starts_with (lit "Vault ID:") line then
        parse_lines rest (set_vault_id_hex (value_of (lit "Vault ID:") line) k)
      else if starts_with (lit "Creation Date (UTC):") line then
        parse_lines rest (set_created_at_utc (default 0 (parse_uint u64_max (value_of (lit "Creation Date (UTC):") line))) k)
      else if starts_with (lit "MASTER RECOVERY SECRET R:") line then
        match rest with
        | next :: rest' => parse_lines rest' (set_recovery_secret_hex (trim next) k)
        | [] => k
        end
      else if starts_with (lit "Checksum (CRC32):") line then
        let clean_hex := trim_start_matches (lit "0x") (value_of (lit "Checksum (CRC32):") line) in
        parse_lines rest (set_checksum (default 0 (u32_from_hex clean_hex)) k)
      else if starts_with (lit "Recovery Signing PK:") line then
        parse_lines rest (set_recovery_signing_pk_hex (value_of (lit "Recovery Signing PK:") line) k)
      else if starts_with (lit "Recovery Encrypt PK:") line then
        parse_lines rest (set_recovery_encryption_pk_hex (value_of (lit "Recovery Encrypt PK:") line) k)
      else if starts_with (lit "Recovery Locator:") line then
        parse_lines rest (set_recovery_locator_hex (value_of (lit "Recovery Locator:") line) k)
      else if starts_with (lit "- http://") line || starts_with (lit "- https://") line then
        parse_lines rest (push_endpoint (value_of (lit "- ") line) k)
      else parse_lines rest k
  end.

Definition parse_from_printable (text : str) : result RecoveryError OfflineRecoveryKit :=
  let kit := parse_lines (trim <$> lines text) blank in
  bail? bool_decide (recovery_secret_hex kit = []) || bool_decide (vault_id_hex kit = [])
    with InvalidKitFormat (lit "Missing Vault ID or Recovery Secret in text") ;;
  let? _ := validate_and_extract_secret kit in
  Ok kit.
End Kit.
End Kit.

(** ** Guardian shares *)

Module Guardian.
Record ThresholdRecoveryKit : Type := {
  version : Z; vault_id_hex : str; guardian_index : Z; threshold : Z; total_shares : Z; share_data_hex : str;
  checksum : Z; recovery_signing_pk_hex : str; recovery_encryption_pk_hex : str; recovery_locator_hex : str;
  operator_endpoints : list str; created_at_utc : Z;
}.

Section Guardian.
Context {HX : Hex} {B2 : Blake2b512} {ED : Ed25519} {X2 : X25519} {CR : Crc32} {ZR : Zeroize}.
Import RecoveryError.

Definition guardian_of (kit : Kit.OfflineRecoveryKit) (threshold total_shares : Z) (share : ShamirShare)
  : ThresholdRecoveryKit :=
  {| version := 1; vault_id_hex := Kit.vault_id_hex kit; guardian_index := index share; threshold := threshold;
     total_shares := total_shares; share_data_hex := to_hex share; checksum := crc32 (data share);
     recovery_signing_pk_hex := Kit.recovery_signing_pk_hex kit;
     recovery_encryption_pk_hex := Kit.recovery_encryption_pk_hex kit;
     recovery_locator_hex := Kit.recovery_locator_hex kit;
     operator_endpoints := Kit.operator_endpoints kit; created_at_utc := Kit.created_at_utc kit |}.

Definition split_kit {G : Type} (next_u32 : G -> Z * G) (kit : Kit.OfflineRecoveryKit) (threshold total_shares : Z) (g : G)
  : result RecoveryError (list ThresholdRecoveryKit) * G :=
  match Kit.validate_and_extract_secret kit with
  | Err e => (Err e, g)
  | Ok secret =>
      let '(shares, g') := split_secret next_u32 secret threshold total_shares g in
      (let? shares := map_err CryptoError shares in Ok (guardian_of kit threshold total_shares <$> shares), g')
  end.

(** A wrong length is reported after the buffer was scrubbed, as for the kit. *)
Definition validate_and_extract_share (self : ThresholdRecoveryKit) : result RecoveryError ShamirShare :=
  bail? negb (version self =? 1) || (threshold self <? 2) || (total_shares self <? threshold self)
        || (guardian_index self =? 0) || (guardian_index self >? total_shares self)
    with InvalidKitFormat (lit "Invalid guardian threshold/index parameters") ;;
  let? raw_bytes := Kit.hex_decoded (share_data_hex self) in
  bail? negb (blen raw_bytes =? 32) with InvalidKeyLength (blen (zeroize_vec raw_bytes)) ;;
  let calculated := crc32 raw_bytes in
  bail? negb (calculated =? checksum self) with ChecksumMismatch (checksum self) calculated ;;
  Ok {| index := guardian_index self; data := raw_bytes |}.

(** One round of the loop that compares a share with the first one. *)
Definition consistent (first kit : ThresholdRecoveryKit) : result RecoveryError unit :=
  bail? negb (bool_decide (vault_id_hex kit = vault_id_hex first))
    with InvalidKitFormat (lit "Mismatched Vault ID across guardian shares") ;;
  bail? negb (threshold kit =? threshold first) || negb (total_shares kit =? total_shares first)
    with InvalidKitFormat (lit "Mismatched threshold parameters across guardian shares") ;;
  bail? negb (version kit =? version first) || negb (created_at_utc kit =? created_at_utc first)
        || negb (bool_decide (recovery_signing_pk_hex kit = recovery_signing_pk_hex first))
        || negb (bool_decide (recovery_encryption_pk_hex kit = recovery_encryption_pk_hex first))
        || negb (bool_decide (recovery_locator_hex kit = recovery_locator_hex first))
    with InvalidKitFormat (lit "Mismatched recovery share set/public descriptors") ;;
  Ok tt.

(** The kit of the reconstructed secret, when its descriptors are those of the shares. *)
Definition rebuild (now : Z) (first : ThresholdRecoveryKit) (secret : bytes) : result RecoveryError Kit.OfflineRecoveryKit :=
  let? vault_id_bytes := Kit.hex_decoded (vault_id_hex first) in
  bail? negb (blen vault_id_bytes =? 32) with InvalidKeyLength (blen vault_id_bytes) ;;
  let? reconstructed := Kit.create now vault_id_bytes secret (operator_endpoints first) in
  bail? negb (bool_decide (Kit.recovery_signing_pk_hex reconstructed = recovery_signing_pk_hex first))
        || negb (bool_decide (Kit.recovery_encryption_pk_hex reconstructed = recovery_encryption_pk_hex first))
        || negb (bool_decide (Kit.recovery_locator_hex reconstructed = recovery_locator_hex first))
    with InvalidKitFormat (lit "Reconstructed secret does not match guardian public descriptors; mixed/corrupt share set") ;;
  Ok reconstructed.

Definition combine_kits (now : Z) (kits : list ThresholdRecoveryKit) : result RecoveryError Kit.OfflineRecoveryKit :=
  match kits with
  | [] => Err (InvalidKitFormat (lit "No guardian kits provided"))
  | first :: _ =>
      bail? blen kits <? threshold first
        with InvalidKitFormat (lit "Insufficient guardian shares: received " ++ show_Z (blen kits)
                               ++ lit ", requires at least " ++ show_Z (threshold first)) ;;
      let? _ := for_each (consistent first) kits in
      let? shares := try_map validate_and_extract_share kits in
      let? secret := map_err CryptoError (combine_shares shares) in
      rebuild now first secret
  end.

Definition sheet_lines (self : ThresholdRecoveryKit) : list str :=
  [ heavy_rule;
    lit "          CIPHERVAULT " ++ em_dash ++ lit " GUARDIAN EMERGENCY RECOVERY SHARE";
    heavy_rule;
    lit "GUARDIAN SHARE:        " ++ show_Z (guardian_index self) ++ lit " of " ++ show_Z (total_shares self);
    lit "REQUIRED THRESHOLD:    Any " ++ show_Z (threshold self) ++ lit " of " ++ show_Z (total_shares self)
      ++ lit " guardian shares required to restore vault";
    lit "CRITICAL: Store this document in a physically separate, secure location.";
    lit "Do NOT share this secret with unauthorized personnel.";
    heavy_rule;
    [];
    lit "Vault ID:              " ++ vault_id_hex self;
    lit "Creation Date (UTC):   " ++ show_Z (created_at_utc self);
    [];
    lit "GUARDIAN RECOVERY SHARE DATA:";
    share_data_hex self;
    [];
    lit "Checksum (CRC32):      " ++ show_checksum (checksum self);
    [];
    light_rule;
    lit "PUBLIC / BOOTSTRAP DESCRIPTORS (Not Secret)";
    light_rule;
    lit "Recovery Signing PK:   " ++ recovery_signing_pk_hex self;
    lit "Recovery Encrypt PK:   " ++ recovery_encryption_pk_hex self;
    lit "Recovery Locator:      " ++ recovery_locator_hex self;
    [];
    lit "Configured Operators:";
    operator_lines (operator_endpoints self);
    heavy_rule ].
Definition format_guardian_sheet (self : ThresholdRecoveryKit) : str := sheet (sheet_lines self).

(** The variables of the parser, as the share they end up in. *)
Definition blank : ThresholdRecoveryKit :=
  {| version := 1; vault_id_hex := []; guardian_index := 0; threshold := 0; total_shares := 0; share_data_hex := [];
     checksum := 0; recovery_signing_pk_hex := []; recovery_encryption_pk_hex := []; recovery_locator_hex := [];
     operator_endpoints := []; created_at_utc := 0 |}.
Definition set_vault_id_hex (v : str) '(Build_ThresholdRecoveryKit n _ ix m total share sum sig enc loc ops at_ : ThresholdRecoveryKit) : ThresholdRecoveryKit :=
  Build_ThresholdRecoveryKit n v ix m total share sum sig enc loc ops at_.
Definition set_guardian_index (v : Z) '(Build_ThresholdRecoveryKit n vid _ m total share sum sig enc loc ops at_ : ThresholdRecoveryKit) : ThresholdRecoveryKit :=
  Build_ThresholdRecoveryKit n vid v m total share sum sig enc loc ops at_.
Definition set_threshold (v : Z) '(Build_ThresholdRecoveryKit n vid ix _ total share sum sig enc loc ops at_ : ThresholdRecoveryKit) : ThresholdRecoveryKit :=
  Build_ThresholdRecoveryKit n vid ix v total share sum sig enc loc ops at_.
Definition set_total_shares (v : Z) '(Build_ThresholdRecoveryKit n vid ix m _ share sum sig enc loc ops at_ : ThresholdRecoveryKit) : ThresholdRecoveryKit :=
  Build_ThresholdRecoveryKit n vid ix m v share sum sig enc loc ops at_.
Definition set_share_data_hex (v : str) '(Build_ThresholdRecoveryKit n vid ix m total _ sum sig enc loc ops at_ : ThresholdRecoveryKit) : ThresholdRecoveryKit :=
  Build_ThresholdRecoveryKit n vid ix m total v sum sig enc loc ops at_.
Definition set_checksum (v : Z) '(Build_ThresholdRecoveryKit n vid ix m total share _ sig enc loc ops at_ : ThresholdRecoveryKit) : ThresholdRecoveryKit :=
  Build_ThresholdRecoveryKit n vid ix m total share v sig enc loc ops at_.
Definition set_recovery_signing_pk_hex (v : str) '(Build_ThresholdRecoveryKit n vid ix m total share sum _ enc loc ops at_ : ThresholdRecoveryKit) : ThresholdRecoveryKit :=
  Build_ThresholdRecoveryKit n vid ix m total share sum v enc loc ops at_.
Definition set_recovery_encryption_pk_hex (v : str) '(Build_ThresholdRecoveryKit n vid ix m total share sum sig _ loc ops at_ : ThresholdRecoveryKit) : ThresholdRecoveryKit :=
  Build_ThresholdRecoveryKit n vid ix m total share sum sig v loc ops at_.
Definition set_recovery_locator_hex (v : str) '(Build_ThresholdRecoveryKit n vid ix m total share sum sig enc _ ops at_ : ThresholdRecoveryKit) : ThresholdRecoveryKit :=
  Build_ThresholdRecoveryKit n vid ix m total share sum sig enc v ops at_.
Definition push_endpoint (v : str) '(Build_ThresholdRecoveryKit n vid ix m total share sum sig enc loc ops at_ : ThresholdRecoveryKit) : ThresholdRecoveryKit :=
  Build_ThresholdRecoveryKit n vid ix m total share sum sig enc loc (ops ++ [v]) at_.
Definition set_created_at_utc (v : Z) '(Build_ThresholdRecoveryKit n vid ix m total share sum sig enc loc ops _ : ThresholdRecoveryKit) : ThresholdRecoveryKit :=
  Build_ThresholdRecoveryKit n vid ix m total share sum sig enc loc ops v.

(** One line of the sheet. *)
Definition parse_line (k : ThresholdRecoveryKit) (line : str) : ThresholdRecoveryKit :=
  match strip_prefix (lit "GUARDIAN SHARE:") line with
  | Some stripped =>
      match split_str (lit "of") stripped with
      | [first; second] =>
          set_total_shares (default 0 (parse_uint u8_max (trim second)))
            (set_guardian_index (default 0 (parse_uint u8_max (trim first))) k)
      | _ => k
      end
  | None =>
  match strip_prefix (lit "REQUIRED THRESHOLD:") line with
  | Some stripped =>
      match split_whitespace stripped with
      | any :: m :: _ :: _ :: _ =>
          if eq_ignore_ascii_case any (lit "any") then set_threshold (default 0 (parse_uint u8_max m)) k else k
      | _ => k
      end
  | None =>
  match strip_prefix (lit "Vault ID:") line with
  | Some stripped => set_vault_id_hex (trim stripped) k
  | None =>
  match strip_prefix (lit "Creation Date (UTC):") line with
  | Some stripped => set_created_at_utc (default 0 (parse_uint u64_max (trim stripped))) k
  | None =>
  match strip_prefix (lit "Checksum (CRC32):") line with
  | Some stripped => set_checksum (default 0 (u32_from_hex (trim_start_matches (lit "0x") (trim stripped)))) k
  | None =>
  match strip_prefix (lit "Recovery Signing PK:") line with
  | Some stripped => set_recovery_signing_pk_hex (trim stripped) k
  | None =>
  match strip_prefix (lit "Recovery Encrypt PK:") line with
  | Some stripped => set_recovery_encryption_pk_hex (trim stripped) k
  | None =>
  match strip_prefix (lit "Recovery Locator:") line with
  | Some stripped => set_recovery_locator_hex (trim stripped) k
  | None =>
  match strip_prefix (lit "- ") line with
  | Some stripped => if starts_with (lit "http") stripped then push_endpoint (trim stripped) k else k
  | None => if (str_len line =? 64) && is_ok (hex_decode line) then set_share_data_hex line k else k
  end end end end end end end end end.

Definition parse_from_printable (text : str) : result RecoveryError ThresholdRecoveryKit :=
  let kit := foldl parse_line blank (trim <$> lines text) in
  bail? (guardian_index kit =? 0) || (threshold kit =? 0) || (total_shares kit =? 0)
        || bool_decide (share_data_hex kit = [])
    with InvalidKitFormat (lit "Missing or invalid guardian share parameters in sheet") ;;
  let? _ := validate_and_extract_share kit in
  Ok kit.
End Guardian.
End Guardian.
