(* ===== verification/KitTheory.v ===== *)
(** * Recovery kits work when they are needed

    A kit that validates prints to a sheet that parses to it; the sheets of enough guardians
    give the kit back; whatever [combine_kits] returns is a kit that validates and carries the
    descriptors of the shares. *)

From S2P Require Import Prelude Errors Primitives SamplePrimitives Names Shamir ShamirTheory Crypto Schema Kit.

(** ** Numbers in text *)

Lemma forallb_of {A} (p : A -> bool) l : Forall (fun c => p c = true) l -> forallb p l = true.
Proof. induction 1 as [|c l Hc _ IH]; [done|]. cbn. by rewrite Hc. Qed.

Lemma parse_digits_app a b : parse_digits (a ++ b) = foldl (fun acc c => acc * 10 + digit_value c) (parse_digits a) b.
Proof. apply foldl_app. Qed.

Definition decimal (n : Z) (ds : str) : Prop := Forall (fun c => is_ascii_digit c = true) ds /\ parse_digits ds = n.

Lemma pretty_N_char_digit x : (x < 10)%N -> Z.of_N (Ascii.N_of_ascii (pretty_N_char x)) = 48 + Z.of_N x.
Proof.
  intros H. assert (x ∈ [0; 1; 2; 3; 4; 5; 6; 7; 8; 9]%N) as Hx.
  { rewrite !elem_of_cons. lia. }
  repeat (apply elem_of_cons in Hx as [->|Hx]; [reflexivity|]). by apply elem_of_nil in Hx.
Qed.

Lemma pretty_go x : forall s, exists ds, lit (pretty_N_go x s) = ds ++ lit s /\ decimal (Z.of_N x) ds /\ ((0 < x)%N -> ds <> []).
Proof.
  induction (N.lt_wf_0 x) as [x _ IH]. intros s. destruct (decide (x = 0%N)) as [->|Hx].
  - exists []. rewrite pretty_N_go_0. repeat split; [constructor|lia].
  - rewrite pretty_N_go_step by lia.
    destruct (IH (x `div` 10)%N ltac:(apply N.div_lt; lia) (String.String (pretty_N_char (x `mod` 10)) s)) as (ds & E & [Hd Hv] & _).
    assert (x `mod` 10 < 10)%N as Hm by (by apply N.mod_lt).
    pose proof (pretty_N_char_digit _ Hm) as Hc. exists (ds ++ [48 + Z.of_N (x `mod` 10)]). split; [|split; [split|]].
    + rewrite E, <-app_assoc. f_equal. unfold lit. cbn [String.list_ascii_of_string fmap list_fmap]. by rewrite Hc.
    + apply Forall_app. split; [done|]. constructor; [|done]. unfold is_ascii_digit. clear -Hm. generalize dependent (x `mod` 10)%N. intros m Hm. apply andb_true_intro. split; apply Z.leb_le; lia.
    + rewrite parse_digits_app, Hv. cbn. unfold digit_value. pose proof (N.div_mod x 10 ltac:(done)) as Hx'. lia.
    + intros _. by destruct ds.
Qed.

Lemma show_decimal n : 0 <= n -> decimal n (show_Z n) /\ show_Z n <> [].
Proof.
  intros Hn. unfold show_Z. assert (lit (pretty n) = lit (pretty (Z.to_N n))) as -> by (destruct n; [done..|lia]).
  unfold pretty, pretty_N. case_decide as H0.
  - assert (n = 0) as -> by lia. split; [|done]. split; [by repeat constructor|done].
  - destruct (pretty_go (Z.to_N n) "") as (ds & E & Hd & Hne). rewrite E. change (lit "") with (@nil Z).
    rewrite app_nil_r. split; [|apply Hne; lia]. by rewrite Z2N.id in Hd by lia.
Qed.

Lemma parse_uint_decimal max n ds : decimal n ds -> ds <> [] -> n <= max -> parse_uint max ds = Some n.
Proof.
  intros [Hd Hv] Hne Hn. unfold parse_uint. destruct ds as [|c rest]; [done|].
  assert (c <> 43) as Hc by (apply Forall_inv in Hd; unfold is_ascii_digit in Hd; bool_prop; lia).
  replace (match c :: rest with 43 :: rest' => rest' | _ => c :: rest end) with (c :: rest)
    by (repeat (case_match; try done); lia).
  rewrite bool_decide_eq_false_2 by done. rewrite (forallb_of _ _ Hd). cbn [negb orb]. rewrite Hv. by replace (n <=? max) with true by bool_lia.
Qed.
Lemma parse_show max n : 0 <= n <= max -> parse_uint max (show_Z n) = Some n.
Proof. intros Hn. destruct (show_decimal n) as [Hd Hne]; [lia|]. apply parse_uint_decimal; [done..|lia]. Qed.

(** ** The checksum *)

Lemma hex_digits_spec k : forall n, 0 <= n -> length (hex_digits k n) = k /\ Forall (fun c => is_lower_hex c = true) (hex_digits k n) /\
  parse_hex_digits (hex_digits k n) = n mod 16 ^ Z.of_nat k.
Proof.
  induction k as [|k IH]; intros n Hn; cbn [hex_digits].
  - repeat split; [constructor|]. change (16 ^ Z.of_nat 0) with 1. by rewrite Z.mod_1_r.
  - destruct (IH (n / 16)) as (Hl & Hd & Hv); [by apply Z.div_pos|]. pose proof (Z.mod_pos_bound n 16 ltac:(lia)) as Hm. split_and!.
    + rewrite length_app, Hl. cbn. lia.
    + apply Forall_app. split; [done|]. constructor; [|done].
      revert Hm. generalize (n mod 16). intros m Hm. unfold is_lower_hex, hex_char. destruct (m <? 10) eqn:E; unfold is_ascii_digit; lia.
    + unfold parse_hex_digits. rewrite foldl_app. fold (parse_hex_digits (hex_digits k (n / 16))). rewrite Hv. cbn.
      assert (hex_value (hex_char (n mod 16)) = n mod 16) as ->.
      { revert Hm. generalize (n mod 16). intros m Hm. unfold hex_value, hex_char, is_ascii_digit, is_ascii_lowercase.
        destruct (m <? 10) eqn:E.
        - replace ((48 <=? 48 + m) && (48 + m <=? 57)) with true by lia. lia.
        - replace ((48 <=? 87 + m) && (87 + m <=? 57)) with false by lia.
          replace ((97 <=? 87 + m) && (87 + m <=? 122)) with true by lia. lia. }
      replace (Z.of_nat (S k)) with (Z.of_nat k + 1) by lia. rewrite Z.pow_add_r, (Z.mul_comm (16 ^ _)) by lia.
      change (16 ^ 1) with 16. rewrite Z.rem_mul_r by lia. lia.
Qed.

Lemma lower_hexdigit c : is_lower_hex c = true -> is_ascii_hexdigit c = true.
Proof. unfold is_lower_hex, is_ascii_hexdigit. intros H. unfold is_ascii_digit in *. lia. Qed.

(** ** Lines and their edges *)

(** Text without white space, not empty: what a value of a sheet is. *)
Definition solid (s : str) : Prop := Forall (fun c => is_whitespace c = false) s /\ s <> [].
Definition hexadecimal (s : str) : Prop := Forall (fun c => is_ascii_hexdigit c = true) s /\ s <> [].

(** The text starts with a visible character. *)
Definition edge (s : str) : bool := match s with [] => false | c :: _ => negb (is_whitespace c) end.

Lemma edge_app a b : edge a = true -> edge (a ++ b) = true.
Proof. by destruct a. Qed.
Lemma edge_rev_app a b : edge (rev b) = true -> edge (rev (a ++ b)) = true.
Proof. rewrite rev_app_distr. apply edge_app. Qed.
Lemma solid_edge s : solid s -> edge s = true.
Proof. intros [Hs Hne]. destruct Hs as [|c s Hc _]; [done|]. cbn. by rewrite Hc. Qed.
Lemma solid_rev s : solid s -> solid (rev s).
Proof. intros [Hs Hne]. split; [by apply Forall_rev|]. intros E. apply Hne. by rewrite <-(rev_involutive s), E. Qed.
Lemma solid_edge_rev s : solid s -> edge (rev s) = true.
Proof. intros Hs. by apply solid_edge, solid_rev. Qed.
Lemma trim_edges s : edge s = true -> edge (rev s) = true -> trim s = s.
Proof.
  assert (forall s, edge s = true -> trim_start s = s) as H.
  { intros [|c r]; [done|]. cbn. by destruct (is_whitespace c). }
  intros Hs Hr. unfold trim, trim_end. rewrite (H s Hs), (H _ Hr). apply rev_involutive.
Qed.
Lemma solid_trim s : solid s -> trim s = s.
Proof. intros Hs. apply trim_edges; [by apply solid_edge|by apply solid_edge_rev]. Qed.

Lemma hexdigit_not_space c : is_ascii_hexdigit c = true -> is_whitespace c = false.
Proof. unfold is_ascii_hexdigit, is_ascii_digit, is_whitespace. lia. Qed.
Lemma digit_not_space c : is_ascii_digit c = true -> is_whitespace c = false.
Proof. unfold is_ascii_digit, is_whitespace. lia. Qed.
Lemma hexadecimal_solid s : hexadecimal s -> solid s.
Proof. intros [Hs Hne]. split; [|done]. eapply Forall_impl; [exact Hs|]. apply hexdigit_not_space. Qed.
Lemma show_solid n : 0 <= n -> solid (show_Z n).
Proof.
  intros Hn. destruct (show_decimal n Hn) as [[Hd _] Hne]. split; [|done]. eapply Forall_impl; [exact Hd|].
  apply digit_not_space.
Qed.
Lemma trim_start_spaces k s : trim_start (replicate k 32 ++ s) = trim_start s.
Proof. by induction k. Qed.
Lemma trim_spaces k s : edge s = true -> edge (rev s) = true -> trim (replicate k 32 ++ s) = s.
Proof. intros Hs Hr. unfold trim. rewrite trim_start_spaces. by apply trim_edges. Qed.

(** A line that a sheet can carry. *)
Definition line_ok (l : str) : Prop := (10 ∉ l) /\ strip_cr l = l.
Lemma line_ok_edge l : 10 ∉ l -> (l = [] \/ edge (rev l) = true) -> line_ok l.
Proof.
  intros Hl He. split; [done|]. unfold strip_cr. destruct He as [->|He]; [done|].
  destruct (rev l) as [|c r]; [done|]. cbn in He. destruct (decide (c = 13)) as [->|Hc]; [done|].
  repeat (case_match; try done); lia.
Qed.
Lemma solid_no_newline s : solid s -> 10 ∉ s.
Proof. intros [Hs _] Hin. eapply Forall_forall in Hs; [|exact Hin]. done. Qed.
Lemma line_ok_field a v : 10 ∉ a -> solid v -> line_ok (a ++ v).
Proof.
  intros Ha Hv. apply line_ok_edge; [|right; by apply edge_rev_app, solid_edge_rev].
  rewrite elem_of_app. intros [?|H]; [done|]. by apply solid_no_newline in H.
Qed.

Lemma ended_lines_cons a rest : rest <> [] -> ended_lines (a :: rest) = strip_cr a :: ended_lines rest.
Proof. by destruct rest. Qed.
Lemma split_on_nonempty sep s : split_on sep s <> [].
Proof. destruct (split_on_join sep s) as (p & ps & -> & _). done. Qed.
Lemma lines_sheet ls : Forall line_ok ls -> lines (sheet ls) = ls.
Proof.
  unfold lines. induction 1 as [|l ls [Hn Hc] _ IH]; [done|].
  unfold sheet. rewrite bind_cons, <-app_assoc. cbn [app]. fold (sheet ls). rewrite split_on_app by done.
  rewrite ended_lines_cons by apply split_on_nonempty. by rewrite Hc, IH.
Qed.

(** The rows of the operators; the text has an empty row when there are none. *)
Definition operator_rows (endpoints : list str) : list str :=
  if bool_decide (endpoints = []) then [[]] else (fun e => lit "  - " ++ e) <$> endpoints.
Lemma sheet_app a b : sheet (a ++ b) = sheet a ++ sheet b.
Proof. apply bind_app. Qed.
Lemma sheet_operators es : sheet [operator_lines es] = sheet (operator_rows es).
Proof.
  unfold operator_rows, operator_lines. case_bool_decide as He; [by rewrite He|]. destruct es as [|e es]; [done|]. clear He.
  revert e. induction es as [|e' es IH]; intros e; [done|]. specialize (IH e').
  unfold sheet at 2. rewrite fmap_cons, bind_cons. fold (sheet ((fun e => lit "  - " ++ e) <$> e' :: es)). rewrite <-IH.
  unfold sheet. cbn [mbind list_bind]. rewrite !app_nil_r. cbn [fmap list_fmap join_lines]. by rewrite <-!app_assoc.
Qed.

(** ** Labels *)

Lemma starts_with_long p l v : (length p <=? length l)%nat = true -> starts_with p (l ++ v) = starts_with p l.
Proof.
  revert l. induction p as [|a p IH]; intros [|c l]; [done..|]. cbn. intros Hl. by rewrite IH.
Qed.
Lemma starts_with_refl p v : starts_with p (p ++ v) = true.
Proof. apply starts_with_spec. by exists v. Qed.
(** A text in an alphabet does not start with a label that leaves it. *)
Lemma starts_with_alphabet (f : Z -> bool) p s : Forall (fun c => f c = true) s -> forallb f p = false -> starts_with p s = false.
Proof.
  intros Hs Hp. apply not_true_iff_false. intros (r & ->)%starts_with_spec. apply Forall_app in Hs as [Hs _].
  by rewrite forallb_of in Hp.
Qed.

(** Decides the tests of a line whose beginning is known. *)
Ltac tests :=
  repeat match goal with
  | |- context [starts_with ?p (lit ?l ++ ?v)] =>
      rewrite (starts_with_long p (lit l) v) by (vm_compute; reflexivity);
      let b := eval vm_compute in (starts_with p (lit l)) in change (starts_with p (lit l)) with b
  end; cbn [orb andb].

Lemma trim_matches_stop fuel pat s : starts_with pat s = false -> trim_matches fuel pat s = s.
Proof. intros H. destruct fuel; [done|]. cbn. by rewrite H. Qed.
Lemma trim_matches_once pat s : pat <> [] -> starts_with pat s = false -> trim_start_matches pat (pat ++ s) = s.
Proof.
  intros Hp Hs. unfold trim_start_matches. destruct pat as [|a pat]; [done|]. cbn [app length trim_matches].
  change (a :: pat ++ s) with ((a :: pat) ++ s). rewrite starts_with_refl. change (S (length pat)) with (length (a :: pat)).
  rewrite drop_app_length. by apply trim_matches_stop.
Qed.

(** A label followed by at least one space and a value. *)
Lemma value_of_line label k v : edge label = true -> solid v ->
  Kit.value_of label (label ++ replicate (S k) 32 ++ v) = v.
Proof.
  intros Hl Hv. unfold Kit.value_of. rewrite trim_matches_once.
  - apply trim_spaces; [by apply solid_edge|by apply solid_edge_rev].
  - by intros ->.
  - destruct label as [|c l]; [done|]. cbn in *. destruct (Z.eqb_spec c 32) as [->|]; [done|by cbn].
Qed.
Lemma strip_prefix_line label rest : strip_prefix label (label ++ rest) = Some rest.
Proof. unfold strip_prefix. by rewrite starts_with_refl, drop_app_length. Qed.
Lemma strip_prefix_none label s : starts_with label s = false -> strip_prefix label s = None.
Proof. unfold strip_prefix. by intros ->. Qed.

Lemma checksum_read n : is_u32 n -> u32_from_hex (trim_start_matches (lit "0x") (show_checksum n)) = Some n.
Proof.
  intros [H0 Hmax]. destruct (hex_digits_spec 8 n H0) as (Hl & Hd & Hv). unfold show_checksum.
  assert (Forall (fun c => is_ascii_hexdigit c = true) (hex_digits 8 n)) as Hx by (eapply Forall_impl; [exact Hd|apply lower_hexdigit]).
  rewrite trim_matches_once; [|done|by apply (starts_with_alphabet is_ascii_hexdigit)].
  unfold u32_from_hex. destruct (hex_digits 8 n) as [|c ds]; [done|].
  assert (c <> 43) as Hc by (apply Forall_inv in Hx; unfold is_ascii_hexdigit, is_ascii_digit in Hx; lia).
  replace (match c :: ds with 43 :: rest => rest | _ => c :: ds end) with (c :: ds) by (repeat (case_match; try done); lia).
  rewrite bool_decide_eq_false_2 by done. rewrite (forallb_of _ _ Hx). cbn [negb orb]. rewrite Hv.
  unfold u32_max in *. rewrite Z.mod_small by (cbn; lia). by replace (n <=? 4294967295) with true by bool_lia.
Qed.
Lemma checksum_solid n : 0 <= n -> solid (show_checksum n).
Proof.
  intros H0. destruct (hex_digits_spec 8 n H0) as (_ & Hd & _). split; [|done]. unfold show_checksum. apply Forall_app.
  split; [by repeat constructor|]. eapply Forall_impl; [exact Hd|]. intros c Hc. by apply hexdigit_not_space, lower_hexdigit.
Qed.

(** An endpoint as the parser of a kit expects it. *)
Definition endpoint_ok (e : str) : Prop :=
  (starts_with (lit "http://") e || starts_with (lit "https://") e = true) /\ Forall (fun c => is_whitespace c = false) e.
Lemma endpoint_solid e : endpoint_ok e -> solid e.
Proof. intros [Hs Hw]. split; [done|]. by intros ->. Qed.

Lemma endpoint_head e : endpoint_ok e -> exists r, e = 104 :: r.
Proof. intros [[H|H]%orb_true_iff _]; apply starts_with_spec in H as (r & ->); by eexists. Qed.
Lemma line_ok_closed l : bool_decide (10 ∉ l) && bool_decide (strip_cr l = l) = true -> line_ok l.
Proof. intros [H1 H2]%andb_true_iff. by apply bool_decide_eq_true_1 in H1, H2. Qed.

(** Lines of a sheet: closed text, or a label and a value that is known to be solid. *)
Ltac line_ok := lazymatch goal with
  | |- line_ok (_ ++ em_dash ++ _) => apply line_ok_closed; vm_compute; reflexivity
  | |- line_ok (lit ?a ++ _) =>
      apply line_ok_field; [apply (bool_decide_eq_true_1 (10 ∉ lit a)); vm_compute; reflexivity|];
      first [done | by apply hexadecimal_solid | apply show_solid; lia | apply checksum_solid; lia ]
  | H : hexadecimal ?v |- line_ok ?v => apply (line_ok_field []); [set_solver|by apply hexadecimal_solid]
  | |- line_ok _ => apply line_ok_closed; vm_compute; reflexivity
  end.

Module KitFacts.
Import Kit.
Section KitFacts.
Context {HX : Hex} {HL : HexLaws HX} {B2 : Blake2b512} {BL : Blake2b512Laws B2} {ED : Ed25519} {EL : Ed25519Laws ED}
  {X2 : X25519} {X2L : X25519Laws X2} {XC : XChaCha} {XL : XChaChaLaws XC} {CR : Crc32} {CL : Crc32Laws CR} {ZR : Zeroize}.


(** The descriptors a secret determines. *)
Definition signing_pk (secret : bytes) : bytes :=
  verifying_key (take 32 (blake2b512 (hasher_input (SubkeyInput CTX_RECOVERY_SIGNING 1 secret)))).
Definition encryption_sk (secret : bytes) : bytes :=
  take 32 (blake2b512 (hasher_input (SubkeyInput CTX_RECOVERY_ENCRYPT 1 secret))).
Definition locator (secret : bytes) : bytes :=
  take 32 (blake2b512 (hasher_input (SubkeyInput CTX_RECOVERY_LOCATOR 1 secret))).

Lemma kit_created now vault_id secret endpoints : create now vault_id secret endpoints =
  Ok {| version := 1; vault_id_hex := hex_encode vault_id; recovery_secret_hex := hex_encode secret; checksum := crc32 secret;
        recovery_signing_pk_hex := hex_encode (signing_pk secret);
        recovery_encryption_pk_hex := hex_encode (x_public (encryption_sk secret));
        recovery_locator_hex := hex_encode (locator secret); operator_endpoints := endpoints; created_at_utc := now |}.
Proof. reflexivity. Qed.

(** What [validate_and_extract_secret] accepts. *)
Record valid (k : OfflineRecoveryKit) (secret : bytes) : Prop := {
  v_version : version k = 1;
  v_secret : hex_decode (recovery_secret_hex k) = Ok secret /\ length secret = 32%nat;
  v_checksum : checksum k = crc32 secret;
  v_vault : exists vault_id, hex_decode (vault_id_hex k) = Ok vault_id /\ length vault_id = 32%nat;
  v_signing : to_ascii_lowercase <$> recovery_signing_pk_hex k = hex_encode (signing_pk secret);
  v_encryption : to_ascii_lowercase <$> recovery_encryption_pk_hex k = hex_encode (x_public (encryption_sk secret));
  v_locator : to_ascii_lowercase <$> recovery_locator_hex k = hex_encode (locator secret);
}.

Lemma locator_bytes secret : is_bytes (locator secret).
Proof. apply Forall_take, blake2b512_bytes. Qed.
Lemma lower_hex_encode b : is_bytes b -> to_ascii_lowercase <$> hex_encode b = hex_encode b.
Proof.
  intros Hb. rewrite <-(list_fmap_id (hex_encode b)) at 2. apply Forall_fmap_ext.
  eapply Forall_impl; [by apply hex_encode_digits|]. intros c. apply lower_hex_fixed.
Qed.
Lemma eq_ignore_case_encode s b : is_bytes b -> eq_ignore_ascii_case s (hex_encode b) = true <-> to_ascii_lowercase <$> s = hex_encode b.
Proof. intros Hb. unfold eq_ignore_ascii_case. by rewrite bool_decide_eq_true, (lower_hex_encode b Hb). Qed.

Lemma validate_unfold k : validate_and_extract_secret k =
  let? raw := hex_decoded (recovery_secret_hex k) in
  bail? negb (blen raw =? 32) with RecoveryError.InvalidKeyLength (blen (zeroize_vec raw)) ;;
  bail? negb (crc32 raw =? checksum k) with RecoveryError.ChecksumMismatch (checksum k) (crc32 raw) ;;
  bail? negb (version k =? 1) with mismatch ;;
  let? vault_id := hex_decoded (vault_id_hex k) in
  bail? negb (blen vault_id =? 32) with mismatch ;;
  bail? negb (eq_ignore_ascii_case (recovery_signing_pk_hex k) (hex_encode (signing_pk raw))) with mismatch ;;
  bail? negb (eq_ignore_ascii_case (recovery_encryption_pk_hex k) (hex_encode (x_public (encryption_sk raw)))) with mismatch ;;
  bail? negb (eq_ignore_ascii_case (recovery_locator_hex k) (hex_encode (locator raw))) with mismatch ;;
  Ok raw.
Proof. reflexivity. Qed.

Lemma validate_valid k secret : validate_and_extract_secret k = Ok secret <-> valid k secret.
Proof.
  rewrite validate_unfold. unfold hex_decoded. split.
  - intros H. res_inv. bool_prop.
    repeat match goal with H : eq_ignore_ascii_case _ _ = true |- _ =>
      apply eq_ignore_case_encode in H; [|first [apply verifying_key_bytes | apply x_public_bytes | apply locator_bytes]] end.
    unfold blen in *. split; try done; [split; [done|lia]|eexists; split; [done|lia]].
  - intros [Hv [Hs Hl] Hc (vid & Hd & Hvl) H1%eq_ignore_case_encode H2%eq_ignore_case_encode H3%eq_ignore_case_encode];
      [|apply locator_bytes|apply x_public_bytes|apply verifying_key_bytes].
    rewrite Hs, Hd. cbn [map_err res_bind]. unfold blen. rewrite Hl, Hvl, Hc, (Z.eqb_refl (crc32 secret)), Hv, H1, H2, H3. reflexivity.
Qed.

(** The texts of a valid kit can be printed. *)
Lemma lower_hexadecimal s b : is_bytes b -> length b = 32%nat -> to_ascii_lowercase <$> s = hex_encode b -> hexadecimal s /\ length s = 64%nat.
Proof.
  intros Hb Hl E. assert (length s = 64%nat) as Hs by (by rewrite <-(length_fmap to_ascii_lowercase s), E, hex_encode_length, Hl).
  split; [|done]. split; [|by destruct s]. pose proof (hex_encode_digits b Hb) as Hd. rewrite <-E in Hd.
  apply Forall_fmap in Hd. eapply Forall_impl; [exact Hd|]. intros c. cbn. unfold is_lower_hex, is_ascii_hexdigit, to_ascii_lowercase, is_ascii_digit.
  destruct (is_ascii_uppercase c) eqn:Ec; unfold is_ascii_uppercase in Ec; lia.
Qed.
Lemma decoded_hexadecimal s b : hex_decode s = Ok b -> length b = 32%nat -> hexadecimal s /\ length s = 64%nat.
Proof. intros [Hb E]%hex_decode_lower Hl. by eapply lower_hexadecimal. Qed.
Lemma valid_hexadecimal k secret : valid k secret -> Forall hexadecimal
  [vault_id_hex k; recovery_secret_hex k; recovery_signing_pk_hex k; recovery_encryption_pk_hex k; recovery_locator_hex k].
Proof.
  intros [_ [Hs Hl] _ (vid & Hd & Hvl) H1 H2 H3].
  assert (length (locator secret) = 32%nat) as Hll by (unfold locator; by rewrite length_take, blake2b512_length).
  apply decoded_hexadecimal in Hs as [Hs _]; [|done]. apply decoded_hexadecimal in Hd as [Hd _]; [|done].
  apply lower_hexadecimal in H1 as [H1 _]; [|apply verifying_key_bytes|apply verifying_key_length].
  apply lower_hexadecimal in H2 as [H2 _]; [|apply x_public_bytes|apply x_public_length].
  apply lower_hexadecimal in H3 as [H3 _]; [|apply locator_bytes|done]. by rewrite !Forall_cons, Forall_nil.
Qed.

(** *** Reading a sheet line by line *)

Definition labels : list str :=
  [lit "Vault ID:"; lit "Creation Date (UTC):"; lit "MASTER RECOVERY SECRET R:"; lit "Checksum (CRC32):"; lit "Recovery Signing PK:";
   lit "Recovery Encrypt PK:"; lit "Recovery Locator:"; lit "- http://"; lit "- https://"].
Lemma parse_noise line rest k : existsb (fun p => starts_with p line) labels = false -> parse_lines (line :: rest) k = parse_lines rest k.
Proof.
  unfold labels. cbn [existsb]. rewrite !orb_false_iff. intros (H1 & H2 & H3 & H4 & H5 & H6 & H7 & H8 & H9 & _).
  cbn [parse_lines]. by rewrite H1, H2, H3, H4, H5, H6, H7, H8, H9.
Qed.

(** A line of a label, the spaces after it and a value. *)
Lemma trim_field a v : edge a = true -> solid v -> trim (a ++ v) = a ++ v.
Proof. intros Ha Hv. apply trim_edges; [by apply edge_app|by apply edge_rev_app, solid_edge_rev]. Qed.
Ltac field n := intros; rewrite trim_field by done; cbn [parse_lines]; tests; repeat f_equal;
  lazymatch goal with H : solid ?v |- Kit.value_of ?l _ = ?v => exact (value_of_line l n v eq_refl H) end.

Lemma parse_vault v rest k : solid v ->
  parse_lines (trim (lit "Vault ID:              " ++ v) :: rest) k = parse_lines rest (set_vault_id_hex v k).
Proof. field 13%nat. Qed.
Lemma parse_signing v rest k : solid v ->
  parse_lines (trim (lit "Recovery Signing PK:   " ++ v) :: rest) k = parse_lines rest (set_recovery_signing_pk_hex v k).
Proof. field 2%nat. Qed.
Lemma parse_encryption v rest k : solid v ->
  parse_lines (trim (lit "Recovery Encrypt PK:   " ++ v) :: rest) k = parse_lines rest (set_recovery_encryption_pk_hex v k).
Proof. field 2%nat. Qed.
Lemma parse_locator v rest k : solid v ->
  parse_lines (trim (lit "Recovery Locator:      " ++ v) :: rest) k = parse_lines rest (set_recovery_locator_hex v k).
Proof. field 5%nat. Qed.
Lemma parse_date n rest k : is_u64 n ->
  parse_lines (trim (lit "Creation Date (UTC):   " ++ show_Z n) :: rest) k = parse_lines rest (set_created_at_utc n k).
Proof.
  intros Hn. assert (solid (show_Z n)) as Hs by (apply show_solid, Hn). transitivity (parse_lines rest (set_created_at_utc (default 0 (parse_uint u64_max (show_Z n))) k)).
  - field 2%nat.
  - by rewrite (parse_show u64_max n Hn).
Qed.
Lemma parse_checksum n rest k : is_u32 n ->
  parse_lines (trim (lit "Checksum (CRC32):      " ++ show_checksum n) :: rest) k = parse_lines rest (set_checksum n k).
Proof.
  intros Hn. assert (solid (show_checksum n)) as Hs by (apply checksum_solid, Hn).
  transitivity (parse_lines rest (set_checksum (default 0 (u32_from_hex (trim_start_matches (lit "0x") (show_checksum n)))) k)).
  - field 5%nat.
  - by rewrite (checksum_read n Hn).
Qed.
Lemma parse_secret v rest k : solid v ->
  parse_lines (trim (lit "MASTER RECOVERY SECRET R:") :: trim v :: rest) k = parse_lines rest (set_recovery_secret_hex v k).
Proof.
  intros Hv. rewrite (solid_trim v Hv). replace (trim (lit "MASTER RECOVERY SECRET R:")) with (lit "MASTER RECOVERY SECRET R:" ++ []) by (vm_compute; reflexivity).
  cbn [parse_lines]. tests. by rewrite (solid_trim v Hv).
Qed.
Lemma parse_endpoint e rest k : endpoint_ok e ->
  parse_lines (trim (lit "  - " ++ e) :: rest) k = parse_lines rest (push_endpoint e k).
Proof.
  intros He. pose proof (endpoint_solid e He) as Hs. change (lit "  - " ++ e) with (replicate 2 32 ++ (lit "- " ++ e)).
  rewrite trim_spaces by (by (apply edge_app + apply edge_rev_app, solid_edge_rev)). cbn [parse_lines].
  replace (starts_with (lit "- http://") (lit "- " ++ e) || starts_with (lit "- https://") (lit "- " ++ e)) with true
    by (symmetry; exact (proj1 He)). cbn [orb]. f_equal. f_equal. unfold value_of. rewrite trim_matches_once; [by apply solid_trim|done|].
  destruct (endpoint_head e He) as (r & ->). done.
Qed.
Lemma parse_endpoints es rest : forall k, Forall endpoint_ok es ->
  parse_lines ((trim <$> operator_rows es) ++ rest) k = parse_lines rest (foldl (fun k e => push_endpoint e k) k es).
Proof.
  intros k Hes. unfold operator_rows. case_bool_decide as He; [by rewrite He|]. clear He. revert k.
  induction Hes as [|e es He _ IH]; intros k; [done|]. rewrite fmap_cons, fmap_cons, <-app_comm_cons, parse_endpoint by done. apply IH.
Qed.
Lemma push_endpoints es k : foldl (fun k e => push_endpoint e k) k es =
  Build_OfflineRecoveryKit (version k) (vault_id_hex k) (recovery_secret_hex k) (checksum k) (recovery_signing_pk_hex k)
    (recovery_encryption_pk_hex k) (recovery_locator_hex k) (operator_endpoints k ++ es) (created_at_utc k).
Proof.
  revert k. induction es as [|e es IH]; intros []; cbn; [by rewrite app_nil_r|]. rewrite IH. cbn. by rewrite <-app_assoc.
Qed.

(** The lines of a sheet, with the operators in their rows. *)
Definition head_lines (k : OfflineRecoveryKit) : list str := take 24 (printable_lines k).
Lemma printable_text k : format_printable k = sheet (head_lines k ++ operator_rows (operator_endpoints k) ++ [heavy_rule]).
Proof. rewrite !sheet_app, <-sheet_operators, <-!sheet_app. reflexivity. Qed.

Lemma rows_ok es : Forall endpoint_ok es -> Forall line_ok (operator_rows es).
Proof.
  intros Hes. unfold operator_rows. case_bool_decide; [repeat constructor; set_solver|]. apply Forall_fmap.
  eapply Forall_impl; [exact Hes|]. intros e He. apply line_ok_field; [|by apply endpoint_solid].
  apply (bool_decide_eq_true_1 (10 ∉ lit "  - ")). vm_compute. reflexivity.
Qed.
Lemma kit_head_ok k secret : valid k secret -> is_u64 (created_at_utc k) -> Forall line_ok (head_lines k).
Proof.
  intros Hv Hn. pose proof (valid_hexadecimal k secret Hv) as Hx. rewrite !Forall_cons in Hx. destruct Hx as (H1 & H2 & H3 & H4 & H5 & _).
  assert (is_u32 (checksum k)) as [Hc _] by (rewrite (v_checksum _ _ Hv); apply crc32_u32). destruct Hn as [Hn _].
  unfold head_lines, printable_lines. cbn [take]. rewrite !Forall_cons, Forall_nil.
  split_and!; try done; line_ok.
Qed.

Ltac noise := rewrite parse_noise by (vm_compute; reflexivity).
Lemma parse_head k secret rest : valid k secret -> is_u64 (created_at_utc k) ->
  parse_lines ((trim <$> head_lines k) ++ rest) blank =
  parse_lines rest (Build_OfflineRecoveryKit 1 (vault_id_hex k) (recovery_secret_hex k) (checksum k) (recovery_signing_pk_hex k)
    (recovery_encryption_pk_hex k) (recovery_locator_hex k) [] (created_at_utc k)).
Proof.
  intros Hv Hn. pose proof (valid_hexadecimal k secret Hv) as Hx. rewrite !Forall_cons in Hx. destruct Hx as (H1 & H2 & H3 & H4 & H5 & _).
  assert (is_u32 (checksum k)) as Hc by (rewrite (v_checksum _ _ Hv); apply crc32_u32). apply hexadecimal_solid in H1, H2, H3, H4, H5.
  unfold head_lines, printable_lines. cbn [take fmap list_fmap app].
  do 8 noise. rewrite parse_vault by done. rewrite parse_date by done. noise. rewrite parse_secret by done. noise.
  rewrite parse_checksum by done. do 4 noise. rewrite parse_signing, parse_encryption, parse_locator by done. do 2 noise. reflexivity.
Qed.

(** C37: every kit that validates, with operators that are plain web addresses, is what
    [parse_from_printable] reads from the sheet [format_printable] prints: no field is lost or
    changed by the paper. *)
Theorem kit_sheet_roundtrip k secret : validate_and_extract_secret k = Ok secret -> is_u64 (created_at_utc k) ->
  Forall endpoint_ok (operator_endpoints k) ->
  parse_from_printable (format_printable k) = Ok k.
Proof.
  intros Hs Hn Hes. pose proof (proj1 (validate_valid _ _) Hs) as Hv. pose proof (valid_hexadecimal k secret Hv) as Hx.
  rewrite !Forall_cons in Hx. destruct Hx as ([_ H1] & [_ H2] & _). unfold parse_from_printable. rewrite printable_text, lines_sheet.
  - rewrite !fmap_app, (parse_head k secret) by done. rewrite parse_endpoints by done. rewrite push_endpoints. cbn [fmap list_fmap].
    rewrite parse_noise by (vm_compute; reflexivity). cbn [parse_lines operator_endpoints app version vault_id_hex recovery_secret_hex
      checksum recovery_signing_pk_hex recovery_encryption_pk_hex recovery_locator_hex created_at_utc].
    assert (Build_OfflineRecoveryKit 1 (vault_id_hex k) (recovery_secret_hex k) (checksum k) (recovery_signing_pk_hex k)
      (recovery_encryption_pk_hex k) (recovery_locator_hex k) (operator_endpoints k) (created_at_utc k) = k) as ->
      by (destruct Hv as [Hv _ _ _ _ _ _], k; cbn in *; by subst).
    rewrite !bool_decide_eq_false_2 by done. cbn [orb]. by rewrite Hs.
  - rewrite !Forall_app. split; [by eapply kit_head_ok|]. split; [by apply rows_ok|]. rewrite Forall_singleton. line_ok.
Qed.

(** A kit that was created validates. *)
Lemma locator_length secret : length (locator secret) = 32%nat.
Proof. unfold locator. by rewrite length_take, blake2b512_length. Qed.
Lemma create_valid now vault_id secret endpoints k : is_bytes vault_id -> length vault_id = 32%nat -> is_bytes secret -> length secret = 32%nat ->
  create now vault_id secret endpoints = Ok k -> valid k secret.
Proof.
  intros Hvb Hvl Hsb Hsl. rewrite kit_created. intros [= <-].
  split; cbn; try done; [by rewrite hex_decode_encode|exists vault_id; by rewrite hex_decode_encode|..]; apply lower_hex_encode;
    [apply verifying_key_bytes|apply x_public_bytes|apply locator_bytes].
Qed.

(** The epoch key that was sealed to the recovery key of a vault is opened with the kit of that vault. *)
Lemma envelope_opens k secret vault_id ephemeral key box envelope : valid k secret -> hex_decode (vault_id_hex k) = Ok vault_id ->
  seal_box ephemeral (x_public (encryption_sk secret)) key = Ok box -> length key = 32%nat ->
  Envelope.vault_id envelope = vault_id -> Envelope.recipient_fingerprint envelope = x_public (encryption_sk secret) ->
  Envelope.sealed_epoch_key envelope = box -> open_envelope k envelope = Ok key.
Proof.
  intros Hk%validate_valid Hd Hbox Hl E1 E2 E3. unfold open_envelope. rewrite Hk. cbn [res_bind].
  change (derive_recovery_encryption_keys secret) with (@Ok CryptoError _ (encryption_sk secret, x_public (encryption_sk secret))).
  cbn [map_err res_bind]. unfold hex_decoded. rewrite Hd, E1, E2, E3. cbn [map_err res_bind]. rewrite !bool_decide_eq_true_2 by done. cbn [negb orb].
  rewrite (sealed_box_roundtrip _ _ _ _ Hbox). cbn [map_err res_bind]. unfold blen. by rewrite Hl.
Qed.
(** It is opened with no kit of another vault. *)
Lemma envelope_other_vault k envelope vault_id key : open_envelope k envelope = Ok key -> hex_decode (vault_id_hex k) = Ok vault_id ->
  Envelope.vault_id envelope = vault_id.
Proof.
  unfold open_envelope, hex_decoded. intros H Hd. rewrite Hd in H. apply res_bind_ok in H as (secret & _ & H).
  apply res_bind_ok in H as ([sk pk] & _ & H). cbn [map_err res_bind] in H. apply bail_ok in H as [Hb _].
  apply orb_false_iff in Hb as [Hb _]. by apply negb_false_iff, bool_decide_eq_true_1 in Hb.
Qed.

(** A secret of a wrong length is reported as one of length zero: the buffer is scrubbed, which clears it, before its length is taken. *)
Lemma wrong_length_reported {ZL : ZeroizeLaws ZR} k b : hex_decode (recovery_secret_hex k) = Ok b -> length b <> 32%nat ->
  validate_and_extract_secret k = Err (RecoveryError.InvalidKeyLength 0).
Proof.
  intros Hd Hl. rewrite validate_unfold. unfold hex_decoded. rewrite Hd. cbn [map_err res_bind]. rewrite zeroize_clears. unfold blen.
  by replace (Z.of_nat (length b) =? 32) with false by lia.
Qed.
End KitFacts.
End KitFacts.

(** ** Guardian sheets *)

Lemma try_map_inverse {E A B} (f : B -> result E A) (h : A -> B) xs : (forall x, x ∈ xs -> f (h x) = Ok x) -> try_map f (h <$> xs) = Ok xs.
Proof.
  induction xs as [|x xs IH]; intros H; [done|]. rewrite fmap_cons. cbn [try_map]. rewrite H by set_solver. cbn [res_bind].
  rewrite IH by set_solver. done.
Qed.

Lemma split_text_skip c p a : forall fuel acc rest, c ∉ a ->
  split_text (length a + fuel) (c :: p) acc (a ++ rest) = split_text fuel (c :: p) (rev a ++ acc) rest.
Proof.
  induction a as [|d a IH]; intros fuel acc rest Ha; [done|]. cbn [length Nat.add app split_text].
  assert (starts_with (c :: p) (d :: a ++ rest) = false) as -> by (cbn; destruct (Z.eqb_spec c d) as [->|]; [set_solver|done]).
  rewrite IH by set_solver. cbn [rev]. by rewrite <-app_assoc.
Qed.
Lemma split_text_none c p s fuel acc : c ∉ s -> split_text (length s + fuel) (c :: p) acc s = [rev acc ++ s].
Proof.
  intros Hs. rewrite <-(app_nil_r s) at 2. rewrite split_text_skip by done.
  assert (split_text fuel (c :: p) (rev s ++ acc) [] = [rev (rev s ++ acc)]) as -> by (by destruct fuel).
  by rewrite rev_app_distr, rev_involutive.
Qed.
(** A text that occurs once, between two that lack its first character. *)
Lemma split_str_two c p a b : c ∉ a -> c ∉ b -> split_str (c :: p) (a ++ (c :: p) ++ b) = [a; b].
Proof.
  intros Ha Hb. unfold split_str. rewrite length_app, split_text_skip by done. cbn [app length split_text].
  change (c :: p ++ b) with ((c :: p) ++ b). rewrite starts_with_refl. change (S (length p)) with (length (c :: p)). rewrite drop_app_length.
  rewrite length_app, (Nat.add_comm (length p)), split_text_none by done. by rewrite app_nil_r, rev_involutive.
Qed.

(** Words between single spaces. *)
Definition spaced (s : str) : list str := List.filter (fun w => negb (bool_decide (w = []))) (split_on 32 s).
Lemma spaced_word w rest : solid w -> spaced (w ++ 32 :: rest) = w :: spaced rest.
Proof.
  intros [Hw Hne]. unfold spaced. rewrite split_on_app; [by cbn; rewrite bool_decide_eq_false_2|].
  intros Hin. eapply Forall_forall in Hw; [|exact Hin]. done.
Qed.
Lemma space_map_solid w : Forall (fun c => is_whitespace c = false) w -> (fun c => if is_whitespace c then 32 else c) <$> w = w.
Proof. induction 1 as [|c w Hc _ IH]; [done|]. rewrite fmap_cons, IH. by rewrite Hc. Qed.
Lemma words_after w rest : solid w -> split_whitespace (w ++ 32 :: rest) = w :: split_whitespace rest.
Proof.
  intros Hw. unfold split_whitespace. fold (spaced ((fun c => if is_whitespace c then 32 else c) <$> w ++ 32 :: rest)).
  rewrite fmap_app, fmap_cons, space_map_solid by apply Hw. apply (spaced_word w _ Hw).
Qed.

Module GuardianFacts.
Import Guardian.
Section GuardianFacts.
Context {HX : Hex} {HL : HexLaws HX} {B2 : Blake2b512} {BL : Blake2b512Laws B2} {ED : Ed25519} {EL : Ed25519Laws ED}
  {X2 : X25519} {X2L : X25519Laws X2} {CR : Crc32} {CL : Crc32Laws CR} {ZR : Zeroize}.

Definition labels : list str :=
  [lit "GUARDIAN SHARE:"; lit "REQUIRED THRESHOLD:"; lit "Vault ID:"; lit "Creation Date (UTC):"; lit "Checksum (CRC32):";
   lit "Recovery Signing PK:"; lit "Recovery Encrypt PK:"; lit "Recovery Locator:"; lit "- "].
Lemma parse_unlabelled k line : existsb (fun p => starts_with p line) labels = false ->
  parse_line k line = if (str_len line =? 64) && is_ok (hex_decode line) then set_share_data_hex line k else k.
Proof.
  unfold labels. cbn [existsb]. rewrite !orb_false_iff. intros (H1 & H2 & H3 & H4 & H5 & H6 & H7 & H8 & H9 & _).
  unfold parse_line, strip_prefix. by rewrite H1, H2, H3, H4, H5, H6, H7, H8, H9.
Qed.
Lemma read_noise k line : existsb (fun p => starts_with p line) labels || (str_len line =? 64) = false -> parse_line k line = k.
Proof. intros [H1 H2]%orb_false_iff. rewrite parse_unlabelled by done. by rewrite H2. Qed.

Ltac field n := intros; rewrite KitFacts.trim_field by done; unfold parse_line, strip_prefix; tests;
  lazymatch goal with H : solid ?v |- _ =>
    let E := fresh in
    assert (trim (replicate n 32 ++ v) = v) as E by (apply trim_spaces; [by apply solid_edge|by apply solid_edge_rev]);
    rewrite <-E at 2; reflexivity end.

Lemma read_vault k v : solid v -> parse_line k (trim (lit "Vault ID:              " ++ v)) = set_vault_id_hex v k.
Proof. field 14%nat. Qed.
Lemma read_signing k v : solid v -> parse_line k (trim (lit "Recovery Signing PK:   " ++ v)) = set_recovery_signing_pk_hex v k.
Proof. field 3%nat. Qed.
Lemma read_encryption k v : solid v -> parse_line k (trim (lit "Recovery Encrypt PK:   " ++ v)) = set_recovery_encryption_pk_hex v k.
Proof. field 3%nat. Qed.
Lemma read_locator k v : solid v -> parse_line k (trim (lit "Recovery Locator:      " ++ v)) = set_recovery_locator_hex v k.
Proof. field 6%nat. Qed.
Lemma read_date k n : is_u64 n -> parse_line k (trim (lit "Creation Date (UTC):   " ++ show_Z n)) = set_created_at_utc n k.
Proof.
  intros Hn. assert (solid (show_Z n)) as Hs by (apply show_solid, Hn).
  transitivity (set_created_at_utc (default 0 (parse_uint u64_max (show_Z n))) k); [field 3%nat|by rewrite (parse_show u64_max n Hn)].
Qed.
Lemma read_checksum k n : is_u32 n -> parse_line k (trim (lit "Checksum (CRC32):      " ++ show_checksum n)) = set_checksum n k.
Proof.
  intros Hn. assert (solid (show_checksum n)) as Hs by (apply checksum_solid, Hn).
  transitivity (set_checksum (default 0 (u32_from_hex (trim_start_matches (lit "0x") (show_checksum n)))) k); [field 6%nat|by rewrite (checksum_read n Hn)].
Qed.
Lemma parse_share k v b : hex_decode v = Ok b -> length b = 32%nat -> parse_line k (trim v) = set_share_data_hex v k.
Proof.
  intros Hd Hl. destruct (KitFacts.decoded_hexadecimal v b Hd Hl) as [Hv Hlen]. rewrite (solid_trim v) by (by apply hexadecimal_solid).
  destruct Hv as [Hv _]. rewrite parse_unlabelled.
  - rewrite Hd, ascii_str_len; [by unfold blen; rewrite Hlen|]. eapply Forall_impl; [exact Hv|]. intros c. cbn.
    unfold is_ascii_hexdigit, is_ascii_digit. lia.
  - unfold labels. cbn [existsb]. by rewrite !(starts_with_alphabet is_ascii_hexdigit _ v Hv) by (vm_compute; reflexivity).
Qed.
Lemma digits_absent n c : 0 <= n -> is_ascii_digit c = false -> c ∉ show_Z n.
Proof.
  intros Hn Hc Hin. destruct (show_decimal n Hn) as [[Hd _] _]. eapply Forall_forall in Hd; [|exact Hin]. cbn in Hd. congruence.
Qed.
Lemma parse_position k i n : 0 <= i <= 255 -> 0 <= n <= 255 ->
  parse_line k (trim (lit "GUARDIAN SHARE:        " ++ show_Z i ++ lit " of " ++ show_Z n)) = set_total_shares n (set_guardian_index i k).
Proof.
  intros Hi Hn. assert (solid (show_Z i)) as Hsi by (apply show_solid; lia). assert (solid (show_Z n)) as Hsn by (apply show_solid; lia).
  rewrite trim_edges; [|done|by apply edge_rev_app, edge_rev_app, edge_rev_app, solid_edge_rev].
  unfold parse_line, strip_prefix. tests.
  change (drop (length (lit "GUARDIAN SHARE:")) (lit "GUARDIAN SHARE:        " ++ show_Z i ++ lit " of " ++ show_Z n))
    with (replicate 8 32 ++ show_Z i ++ [32] ++ lit "of" ++ [32] ++ show_Z n).
  replace (replicate 8 32 ++ show_Z i ++ [32] ++ lit "of" ++ [32] ++ show_Z n)
    with ((replicate 8 32 ++ show_Z i ++ [32]) ++ lit "of" ++ ([32] ++ show_Z n)) by (by rewrite <-!app_assoc).
  assert (forall m, 0 <= m -> 111 ∉ show_Z m) as Ho by (intros; by apply digits_absent).
  change (lit "of") with (111 :: [102]). rewrite split_str_two.
  - change (replicate 8 32 ++ show_Z i ++ [32]) with (replicate 8 32 ++ (show_Z i ++ [32])).
    assert (trim (replicate 8 32 ++ show_Z i ++ [32]) = show_Z i) as ->.
    { unfold trim. rewrite trim_start_spaces. unfold trim_end. destruct (show_Z i) as [|c r] eqn:E; [by destruct Hsi|].
      rewrite <-E in *. assert (trim_start (show_Z i ++ [32]) = show_Z i ++ [32]) as ->.
      { rewrite E. cbn. pose proof (solid_edge _ Hsi) as He. rewrite E in He. cbn in He. by destruct (is_whitespace c). }
      rewrite rev_app_distr. cbn [rev app]. change (trim_start (32 :: rev (show_Z i))) with (trim_start (rev (show_Z i))).
      rewrite trim_start_id by apply (solid_rev _ Hsi). apply rev_involutive. }
    assert (trim ([32] ++ show_Z n) = show_Z n) as ->
      by (apply (trim_spaces 1); [by apply solid_edge|by apply solid_edge_rev]).
    by rewrite !parse_show.
  - specialize (Ho i ltac:(lia)). rewrite !not_elem_of_app. split; [|split; [done|set_solver]].
    apply (bool_decide_eq_true_1 (111 ∉ replicate 8 32)). vm_compute. reflexivity.
  - specialize (Ho n ltac:(lia)). set_solver.
Qed.
Lemma words_spaces n s : split_whitespace (replicate n 32 ++ s) = split_whitespace s.
Proof. by induction n. Qed.
Lemma parse_threshold k t n : 0 <= t <= 255 -> 0 <= n <= 255 ->
  parse_line k (trim (lit "REQUIRED THRESHOLD:    Any " ++ show_Z t ++ lit " of " ++ show_Z n ++ lit " guardian shares required to restore vault"))
  = set_threshold t k.
Proof.
  intros Ht Hn. assert (solid (show_Z t)) as Hst by (apply show_solid; lia). assert (solid (show_Z n)) as Hsn by (apply show_solid; lia).
  rewrite trim_edges; [|done|by apply edge_rev_app, edge_rev_app, edge_rev_app, edge_rev_app].
  unfold parse_line, strip_prefix. tests.
  change (drop (length (lit "REQUIRED THRESHOLD:")) (lit "REQUIRED THRESHOLD:    Any " ++ show_Z t ++ lit " of " ++ show_Z n ++ lit " guardian shares required to restore vault"))
    with (replicate 4 32 ++ lit "Any" ++ 32 :: show_Z t ++ 32 :: lit "of" ++ 32 :: show_Z n ++ 32 :: lit "guardian shares required to restore vault").
  rewrite words_spaces, !words_after by (done || by (split; [by repeat constructor|])). by rewrite parse_show.
Qed.
Lemma read_endpoint k e : endpoint_ok e -> parse_line k (trim (lit "  - " ++ e)) = push_endpoint e k.
Proof.
  intros He. pose proof (endpoint_solid e He) as Hs. change (lit "  - " ++ e) with (replicate 2 32 ++ (lit "- " ++ e)).
  rewrite trim_spaces by (by (apply edge_app + apply edge_rev_app, solid_edge_rev)). unfold parse_line, strip_prefix.
  assert (starts_with (lit "http") e = true) as Hh.
  { destruct He as [[H|H]%orb_true_iff _]; apply starts_with_spec in H as (r & ->); reflexivity. }
  transitivity (if starts_with (lit "http") e then push_endpoint (trim e) k else k); [reflexivity|]. by rewrite Hh, (solid_trim e Hs).
Qed.

(** What a share needs to be printed and read back. *)
Record printable (g : ThresholdRecoveryKit) : Prop := {
  p_version : version g = 1;
  p_threshold : 2 <= threshold g <= total_shares g /\ total_shares g <= u8_max;
  p_index : 1 <= guardian_index g <= total_shares g;
  p_share : exists b, hex_decode (share_data_hex g) = Ok b /\ length b = 32%nat /\ checksum g = crc32 b;
  p_texts : Forall hexadecimal [vault_id_hex g; recovery_signing_pk_hex g; recovery_encryption_pk_hex g; recovery_locator_hex g];
  p_endpoints : Forall endpoint_ok (operator_endpoints g);
  p_date : is_u64 (created_at_utc g);
}.

Lemma read_endpoints es : forall k, Forall endpoint_ok es -> foldl parse_line k (trim <$> operator_rows es) = foldl (fun k e => push_endpoint e k) k es.
Proof.
  intros k Hes. unfold operator_rows. case_bool_decide as He.
  - rewrite He. cbn [fmap list_fmap foldl]. by rewrite read_noise by (vm_compute; reflexivity).
  - clear He. revert k. induction Hes as [|e es He _ IH]; intros k; [done|]. rewrite !fmap_cons. cbn [foldl]. by rewrite read_endpoint.
Qed.
Lemma read_push_endpoints es k : foldl (fun k e => push_endpoint e k) k es =
  Build_ThresholdRecoveryKit (version k) (vault_id_hex k) (guardian_index k) (threshold k) (total_shares k) (share_data_hex k) (checksum k)
    (recovery_signing_pk_hex k) (recovery_encryption_pk_hex k) (recovery_locator_hex k) (operator_endpoints k ++ es) (created_at_utc k).
Proof. revert k. induction es as [|e es IH]; intros []; cbn; [by rewrite app_nil_r|]. rewrite IH. cbn. by rewrite <-app_assoc. Qed.

Definition head_lines (g : ThresholdRecoveryKit) : list str := take 25 (sheet_lines g).
Lemma sheet_text g : format_guardian_sheet g = sheet (head_lines g ++ operator_rows (operator_endpoints g) ++ [heavy_rule]).
Proof. rewrite !sheet_app, <-sheet_operators, <-!sheet_app. reflexivity. Qed.

Lemma printable_checksum g : printable g -> is_u32 (checksum g).
Proof. intros [_ _ _ (b & _ & _ & ->) _ _ _]. apply crc32_u32. Qed.
Ltac no_newline := lazymatch goal with
  | |- _ ∉ show_Z _ => apply digits_absent; [lia|done]
  | |- 10 ∉ lit ?a => apply (bool_decide_eq_true_1 (10 ∉ lit a)); vm_compute; reflexivity
  end.
Lemma share_head_ok g : printable g -> Forall line_ok (head_lines g).
Proof.
  intros Hp. destruct (printable_checksum g Hp) as [Hc _]. destruct Hp as [_ Ht Hi (b & Hd & Hl & _) Hx _ [Hn _]].
  rewrite !Forall_cons in Hx. destruct Hx as (H1 & H2 & H3 & H4 & _). destruct (KitFacts.decoded_hexadecimal _ _ Hd Hl) as [Hs _].
  unfold head_lines, sheet_lines. cbn [take]. rewrite !Forall_cons, Forall_nil.
  split_and!; try done; try line_ok.
  - apply line_ok_edge; [|right; apply edge_rev_app, edge_rev_app, edge_rev_app, solid_edge_rev, show_solid; lia].
    by rewrite !not_elem_of_app; split_and!; no_newline.
  - apply line_ok_edge; [|right; by apply edge_rev_app, edge_rev_app, edge_rev_app, edge_rev_app].
    by rewrite !not_elem_of_app; split_and!; no_newline.
Qed.
Lemma fold_step k line k' rest : parse_line k line = k' -> foldl parse_line k (line :: rest) = foldl parse_line k' rest.
Proof. by intros <-. Qed.
Ltac noise := erewrite fold_step by (apply read_noise; vm_compute; reflexivity).
Lemma read_head g rest : printable g -> foldl parse_line blank ((trim <$> head_lines g) ++ rest) =
  foldl parse_line (Build_ThresholdRecoveryKit 1 (vault_id_hex g) (guardian_index g) (threshold g) (total_shares g) (share_data_hex g) (checksum g)
    (recovery_signing_pk_hex g) (recovery_encryption_pk_hex g) (recovery_locator_hex g) [] (created_at_utc g)) rest.
Proof.
  intros Hp. pose proof (printable_checksum g Hp) as Hc. destruct Hp as [_ Ht Hi (b & Hd & Hl & _) Hx _ Hn].
  rewrite !Forall_cons in Hx. destruct Hx as (H1 & H2 & H3 & H4 & _). apply hexadecimal_solid in H1, H2, H3, H4.
  unfold head_lines, sheet_lines. unfold u8_max in Ht. cbn [take fmap list_fmap app].
  do 3 noise. erewrite fold_step by (apply parse_position; lia). erewrite fold_step by (apply parse_threshold; lia). do 4 noise.
  erewrite fold_step by (by apply read_vault). erewrite fold_step by (by apply read_date). do 2 noise.
  erewrite fold_step by (by eapply parse_share). noise. erewrite fold_step by (by apply read_checksum). do 4 noise.
  erewrite fold_step by (by apply read_signing). erewrite fold_step by (by apply read_encryption).
  erewrite fold_step by (by apply read_locator). do 2 noise. reflexivity.
Qed.

Lemma printable_share g : printable g -> exists b, hex_decode (share_data_hex g) = Ok b /\ length b = 32%nat /\
  validate_and_extract_share g = Ok {| index := guardian_index g; data := b |}.
Proof.
  intros [Hv Ht Hi (b & Hd & Hl & Hc) _ _ _]. exists b. split; [done|]. split; [done|]. unfold validate_and_extract_share, Kit.hex_decoded.
  rewrite Hv, Hd. cbn [map_err res_bind]. unfold blen. rewrite Hl, Hc, (Z.eqb_refl (crc32 b)).
  by replace (negb (1 =? 1) || (threshold g <? 2) || (total_shares g <? threshold g) || (guardian_index g =? 0) || (guardian_index g >? total_shares g))
    with false by lia.
Qed.

(** A share that validates and carries printable texts survives being printed and typed in. *)
Theorem guardian_sheet_roundtrip g : printable g -> parse_from_printable (format_guardian_sheet g) = Ok g.
Proof.
  intros Hp. destruct (printable_share g Hp) as (b & Hd & Hl & Hs). destruct (KitFacts.decoded_hexadecimal _ _ Hd Hl) as [[_ Hne] _].
  unfold parse_from_printable. rewrite sheet_text, lines_sheet.
  - rewrite !fmap_app, read_head, foldl_app, read_endpoints by (done || apply Hp). rewrite read_push_endpoints. cbn [fmap list_fmap].
    noise. cbn [foldl operator_endpoints app version vault_id_hex guardian_index threshold total_shares share_data_hex checksum
      recovery_signing_pk_hex recovery_encryption_pk_hex recovery_locator_hex created_at_utc].
    assert (Build_ThresholdRecoveryKit 1 (vault_id_hex g) (guardian_index g) (threshold g) (total_shares g) (share_data_hex g) (checksum g)
      (recovery_signing_pk_hex g) (recovery_encryption_pk_hex g) (recovery_locator_hex g) (operator_endpoints g) (created_at_utc g) = g) as ->
      by (destruct Hp as [Hv _ _ _ _ _ _], g; cbn in *; by subst).
    destruct Hp as [_ Ht Hi _ _ _ _]. rewrite (bool_decide_eq_false_2 _ Hne), Hs.
    by replace ((guardian_index g =? 0) || (threshold g =? 0) || (total_shares g =? 0) || false) with false by lia.
  - rewrite !Forall_app. split; [by apply share_head_ok|]. split; [by apply KitFacts.rows_ok, Hp|]. rewrite Forall_singleton. line_ok.
Qed.

(** ** Splitting and combining *)

Section Split.
Context {G : Type} (next_u32 : G -> Z * G).

Lemma split_guardian kit secret t n (g g' : G) shares s : KitFacts.valid kit secret -> n <= u8_max ->
  is_u64 (Kit.created_at_utc kit) -> Forall endpoint_ok (Kit.operator_endpoints kit) ->
  split_secret next_u32 secret t n g = (Ok shares, g') -> s ∈ shares ->
  printable (guardian_of kit t n s) /\ validate_and_extract_share (guardian_of kit t n s) = Ok s.
Proof.
  intros Hv Hn Hdate Hes Hsp Hs. assert (is_bytes secret) as Hb by (eapply hex_decode_lower, Hv).
  destruct (split_subset next_u32 secret t n g shares g' shares Hb Hn Hsp (fun s H => H) s Hs) as (i & _ & Hi & Hidx & [Hl Hd] & _).
  destruct (split_share next_u32 secret t n g shares g' i s Hsp Hi) as (Ht & Hlen & _). apply lookup_lt_Some in Hi.
  assert (printable (guardian_of kit t n s)) as Hp.
  { pose proof (KitFacts.valid_hexadecimal kit secret Hv) as Hx. rewrite !Forall_cons in Hx. destruct Hx as (H1 & H2 & H3 & H4 & H5 & _).
    split; cbn; try done; [lia|..].
    - exists (data s). unfold to_hex. by rewrite hex_decode_encode.
    - by rewrite !Forall_cons, Forall_nil. }
  split; [done|]. destruct (printable_share _ Hp) as (b & Hh & _ & ->). cbn in Hh. unfold to_hex in Hh. rewrite hex_decode_encode in Hh by done.
  injection Hh as <-. by destruct s.
Qed.

Lemma split_kit_ok kit secret t n g gs g' : KitFacts.valid kit secret -> split_kit next_u32 kit t n g = (Ok gs, g') ->
  exists shares, split_secret next_u32 secret t n g = (Ok shares, g') /\ gs = guardian_of kit t n <$> shares.
Proof.
  intros Hv%KitFacts.validate_valid. unfold split_kit. rewrite Hv. destruct (split_secret _ _ _ _ _) as [[shares|e] g1]; cbn; [|done].
  intros [= <- <-]. eauto.
Qed.

(** A part of an image is the image of a part. *)
Lemma fmap_part {A B} (f : A -> B) (l : list A) (sub : list B) : (forall b, b ∈ sub -> b ∈ f <$> l) ->
  exists part, sub = f <$> part /\ forall a, a ∈ part -> a ∈ l.
Proof.
  induction sub as [|b sub IH]; intros H; [exists []; split; [done|set_solver]|].
  destruct IH as (part & -> & Hp); [set_solver|]. destruct (proj1 (list_elem_of_fmap f l b)) as (a & -> & Ha); [set_solver|].
  exists (a :: part). split; [done|]. set_solver.
Qed.

Lemma consistent_split kit t n s s' : consistent (guardian_of kit t n s) (guardian_of kit t n s') = Ok tt.
Proof. unfold consistent. cbn. rewrite !bool_decide_eq_true_2, !Z.eqb_refl by done. reflexivity. Qed.

Lemma rebuild_create now vault_id secret (first : ThresholdRecoveryKit) endpoints : is_bytes vault_id -> length vault_id = 32%nat ->
  vault_id_hex first = hex_encode vault_id -> operator_endpoints first = endpoints ->
  recovery_signing_pk_hex first = hex_encode (KitFacts.signing_pk secret) ->
  recovery_encryption_pk_hex first = hex_encode (x_public (KitFacts.encryption_sk secret)) ->
  recovery_locator_hex first = hex_encode (KitFacts.locator secret) ->
  rebuild now first secret = Kit.create now vault_id secret endpoints.
Proof.
  intros Hb Hl E1 E2 E3 E4 E5. unfold rebuild, Kit.hex_decoded. rewrite E1, E2, E3, E4, E5, hex_decode_encode by done. cbn [map_err res_bind].
  unfold blen. rewrite Hl, KitFacts.kit_created. cbn [res_bind]. by rewrite !bool_decide_eq_true_2.
Qed.

(** C7: a kit whose endpoints are web addresses (they begin with http:// or https:// and hold no white space;
    the printed sheet loses others) is split into at most 255 guardian shares and every share is printed; any
    [threshold] of the sheets, typed in again and combined, give the kit of the same vault, secret, keys and
    operators, whatever the random generator drew. *)
Theorem guardian_recovery now0 now vault_id secret endpoints kit t n g gs g' (sub : list ThresholdRecoveryKit) :
  is_bytes vault_id -> length vault_id = 32%nat -> is_bytes secret -> length secret = 32%nat -> is_u64 now0 -> Forall endpoint_ok endpoints ->
  n <= u8_max -> Kit.create now0 vault_id secret endpoints = Ok kit -> split_kit next_u32 kit t n g = (Ok gs, g') ->
  (forall k, k ∈ sub -> k ∈ gs) -> NoDup sub -> t <= blen sub ->
  (let? typed := try_map parse_from_printable (format_guardian_sheet <$> sub) in combine_kits now typed)
  = Kit.create now vault_id secret endpoints.
Proof.
  intros Hvb Hvl Hsb Hsl Hnow Hes Hn Hkit Hsplit Hsub Hnd Ht. pose proof (KitFacts.create_valid _ _ _ _ _ Hvb Hvl Hsb Hsl Hkit) as Hv.
  destruct (split_kit_ok kit secret t n g gs g' Hv Hsplit) as (shares & Hsp & ->).
  destruct (fmap_part _ shares sub Hsub) as (part & -> & Hpart). apply NoDup_fmap_1 in Hnd. unfold blen in Ht. rewrite length_fmap in Ht.
  rewrite KitFacts.kit_created in Hkit. apply Ok_inj in Hkit.
  assert (forall s, s ∈ part -> printable (guardian_of kit t n s) /\ validate_and_extract_share (guardian_of kit t n s) = Ok s) as Hg.
  { intros s Hs. apply (split_guardian kit secret t n g g' shares); [done|done|by subst kit|by subst kit|done|by apply Hpart]. }
  rewrite (try_map_inverse parse_from_printable format_guardian_sheet).
  2: { intros k (s & -> & Hs)%list_elem_of_fmap. by apply guardian_sheet_roundtrip, Hg. }
  cbn [res_bind]. pose proof (split_ok_threshold _ _ _ _ _ _ _ Hsp) as Htn.
  destruct part as [|s0 part']; [cbn in Ht; lia|]. set (part := s0 :: part') in *.
  change (combine_kits now (guardian_of kit t n <$> part)) with
    (bail? blen (guardian_of kit t n <$> part) <? t
       with RecoveryError.InvalidKitFormat (lit "Insufficient guardian shares: received " ++ show_Z (blen (guardian_of kit t n <$> part))
                               ++ lit ", requires at least " ++ show_Z t) ;;
     let? _ := for_each (consistent (guardian_of kit t n s0)) (guardian_of kit t n <$> part) in
     let? shares := try_map validate_and_extract_share (guardian_of kit t n <$> part) in
     let? secret := map_err RecoveryError.CryptoError (combine_shares shares) in
     rebuild now (guardian_of kit t n s0) secret).
  unfold blen. rewrite length_fmap. replace (Z.of_nat (length part) <? t) with false by lia.
  assert (for_each (consistent (guardian_of kit t n s0)) (guardian_of kit t n <$> part) = Ok tt) as ->.
  { apply for_each_ok, Forall_fmap, Forall_true. intros s. apply consistent_split. }
  rewrite (try_map_inverse validate_and_extract_share (guardian_of kit t n)) by (intros s Hs; by apply Hg). cbn [res_bind].
  rewrite (combine_subset next_u32 secret t n g shares g' part) by (done || (unfold blen; lia)). cbn [map_err res_bind].
  apply rebuild_create; [done|done|by subst kit..].
Qed.
End Split.

(** Descriptors in the letter case of [hex::encode]. *)
Definition lower_case (s : str) : Prop := to_ascii_lowercase <$> s = s.

Lemma rebuild_ok now first secret k : rebuild now first secret = Ok k -> exists vault_id, hex_decode (vault_id_hex first) = Ok vault_id /\
  length vault_id = 32%nat /\ Kit.create now vault_id secret (operator_endpoints first) = Ok k /\
  Kit.recovery_signing_pk_hex k = recovery_signing_pk_hex first /\
  Kit.recovery_encryption_pk_hex k = recovery_encryption_pk_hex first /\ Kit.recovery_locator_hex k = recovery_locator_hex first.
Proof.
  unfold rebuild, Kit.hex_decoded. intros H. apply res_bind_ok in H as (vid & Hd & H). apply bail_ok in H as [Hl H].
  apply res_bind_ok in H as (r & Hr & H). apply bail_ok in H as [Hb H]. apply Ok_inj in H as ->. exists vid.
  destruct (hex_decode (vault_id_hex first)); [|done]. cbn in Hd. apply Ok_inj in Hd as ->. bool_prop.
  repeat match goal with H : bool_decide _ = true |- _ => apply bool_decide_eq_true_1 in H end. unfold blen in *. split_and!; [done|lia|done..].
Qed.

Lemma create_lower_case now vault_id secret endpoints k : Kit.create now vault_id secret endpoints = Ok k ->
  lower_case (Kit.recovery_signing_pk_hex k) /\ lower_case (Kit.recovery_encryption_pk_hex k) /\ lower_case (Kit.recovery_locator_hex k).
Proof.
  rewrite KitFacts.kit_created. intros [= <-]. split_and!; apply KitFacts.lower_hex_encode;
    [apply verifying_key_bytes|apply x_public_bytes|apply KitFacts.locator_bytes].
Qed.

Lemma combine_ok now kits k : combine_kits now kits = Ok k -> exists first rest shares secret, kits = first :: rest /\
  threshold first <= blen kits /\ Forall (fun g => consistent first g = Ok tt) kits /\
  Forall2 (fun g s => validate_and_extract_share g = Ok s) kits shares /\ combine_shares shares = Ok secret /\ rebuild now first secret = Ok k.
Proof.
  unfold combine_kits. destruct kits as [|first rest]; [done|]. intros H. apply bail_ok in H as [Hb H]. apply res_bind_ok in H as ([] & Hc & H).
  apply res_bind_ok in H as (shares & Hs & H). apply res_bind_ok in H as (secret & Hm & H). exists first, rest, shares, secret.
  destruct (combine_shares shares) as [x|]; [|done]. cbn in Hm. apply Ok_inj in Hm as ->. apply for_each_ok in Hc. apply try_map_ok in Hs.
  split_and!; try done. lia.
Qed.

(** C38: a kit whose public descriptors are written with a capital letter validates and can be split, since
    [validate_and_extract_secret] ignores the letter case, but [combine_kits] compares exactly: no set of
    its shares, not even all of them, gives the kit back. *)
Theorem capital_kit_lost {G : Type} (next_u32 : G -> Z * G) kit secret t n g gs g' now sub :
  Kit.validate_and_extract_secret kit = Ok secret -> split_kit next_u32 kit t n g = (Ok gs, g') ->
  ~ (lower_case (Kit.recovery_signing_pk_hex kit) /\ lower_case (Kit.recovery_encryption_pk_hex kit) /\ lower_case (Kit.recovery_locator_hex kit)) ->
  (forall k, k ∈ sub -> k ∈ gs) -> is_ok (combine_kits now sub) = false.
Proof.
  intros Hv%KitFacts.validate_valid Hsp Hcase Hsub. destruct (combine_kits now sub) as [k|] eqn:E; [|done]. destruct Hcase.
  apply combine_ok in E as (first & rest & shares & s & -> & _ & _ & _ & _ & H).
  apply rebuild_ok in H as (vid & _ & _ & Hk & E1 & E2 & E3). apply create_lower_case in Hk. rewrite E1, E2, E3 in Hk.
  destruct (split_kit_ok next_u32 kit secret t n g gs g' Hv Hsp) as (all & _ & ->).
  destruct (proj1 (list_elem_of_fmap _ _ _) (Hsub first ltac:(set_solver))) as (x & -> & _). exact Hk.
Qed.

Lemma combine_shares_bytes shares secret : Forall data_ok shares -> Forall (fun s => is_u8 (index s)) shares ->
  combine_shares shares = Ok secret -> is_bytes secret /\ length secret = 32%nat /\ NoDup (index <$> shares).
Proof.
  intros Hd Hi H. pose proof H as H'. unfold combine_shares in H'. apply bail_ok in H' as [_ H']. apply res_bind_ok in H' as (seen & Hc & H').
  apply bail_ok in H' as [Hl _]. apply Nat.ltb_ge in Hl. pose proof (check_index_result _ _ _ Hc) as ->. apply check_index_fold in Hc as [Hnd Hc].
  rewrite combine_shares_interp in H; [|done| |done].
  - apply Ok_inj in H as <-. split_and!; [|by rewrite length_fmap|done]. apply Forall_fmap, Forall_true. intros b. apply val_u8.
  - split; [done|]. rewrite !Forall_forall in *. naive_solver.
Qed.
Lemma extracted_share g s : is_u8 (guardian_index g) -> validate_and_extract_share g = Ok s ->
  data_ok s /\ is_u8 (index s) /\ index s = guardian_index g /\ 2 <= threshold g.
Proof.
  unfold validate_and_extract_share, Kit.hex_decoded, is_u8. intros Ht H. apply bail_ok in H as [Hb H]. apply res_bind_ok in H as (b & Hd & H).
  apply bail_ok in H as [Hl H]. apply bail_ok in H as [_ H]. apply Ok_inj in H as <-. cbn [index]. bool_prop.
  destruct (hex_decode (share_data_hex g)) as [b'|] eqn:E; [|done]. cbn in Hd. apply Ok_inj in Hd as ->. apply hex_decode_lower in E as [E _].
  unfold blen in *. split_and!; try done; try lia. split; cbn; [lia|done].
Qed.

(** What [combine_kits] returns validates, and carries what every share says of it. *)
Theorem combine_kits_sound now kits k : Forall (fun g => is_u8 (guardian_index g)) kits -> combine_kits now kits = Ok k ->
  is_ok (Kit.validate_and_extract_secret k) = true /\ NoDup (guardian_index <$> kits) /\ Kit.created_at_utc k = now /\
  Forall (fun g => 2 <= threshold g <= blen kits /\ to_ascii_lowercase <$> vault_id_hex g = Kit.vault_id_hex k /\
    recovery_signing_pk_hex g = Kit.recovery_signing_pk_hex k /\ recovery_encryption_pk_hex g = Kit.recovery_encryption_pk_hex k /\
    recovery_locator_hex g = Kit.recovery_locator_hex k) kits.
Proof.
  intros Hu (first & rest & shares & secret & Ek & Ht & Hc & Hs & Hcomb & Hr)%combine_ok.
  assert (Forall2 (fun g s => data_ok s /\ is_u8 (index s) /\ index s = guardian_index g /\ 2 <= threshold g) kits shares) as Hx.
  { clear -Hu Hs HL. induction Hs as [|g s kits shares Hg _ IH]; [constructor|]. apply Forall_cons in Hu as [Hu Hu']. constructor; [|by apply IH].
    by apply extracted_share. }
  destruct (combine_shares_bytes shares secret) as (Hb & Hl & Hnd); [| |done|].
  1, 2: eapply Forall2_Forall_r; [exact Hx|]; apply Forall_true; naive_solver.
  assert (index <$> shares = guardian_index <$> kits) as Ei.
  { clear -Hx. induction Hx as [|g s kits shares (_ & _ & E & _) _ IH]; [done|]. by rewrite !fmap_cons, E, IH. }
  rewrite Ei in Hnd. apply rebuild_ok in Hr as (vid & Hd & Hvl & Hk & E1 & E2 & E3). apply hex_decode_lower in Hd as [Hvb Hd].
  pose proof (KitFacts.create_valid _ _ _ _ _ Hvb Hvl Hb Hl Hk) as Hv%KitFacts.validate_valid. rewrite KitFacts.kit_created in Hk.
  apply Ok_inj in Hk. split_and!; [by rewrite Hv|done|by subst k|]. rewrite Forall_forall in *. intros g Hg.
  apply list_elem_of_lookup in Hg as Hg'. destruct Hg' as (i & Hgi). destruct (Forall2_lookup_l _ _ _ _ _ Hx Hgi) as (s & _ & _ & _ & _ & Hth).
  specialize (Hc g Hg). unfold consistent in Hc. res_inv. bool_prop.
  repeat match goal with H : bool_decide _ = true |- _ => apply bool_decide_eq_true_1 in H end.
  split_and!; try congruence; try lia. subst k. cbn. congruence.
Qed.
End GuardianFacts.
End GuardianFacts.

(** ** A sample kit *)

#[global] Instance sample_crc32 : Crc32 := {| crc32 b := foldl (fun acc x => wrap32 (31 * acc + x)) 7 b |}.
#[global] Instance sample_crc32_laws : Crc32Laws sample_crc32.
Proof.
  split. intros b. cbn. destruct b as [|x b _] using rev_ind; [unfold is_u32, u32_max; cbn; lia|]. rewrite foldl_app. cbn.
  unfold is_u32, u32_max, wrap32. pose proof (Z.mod_pos_bound (31 * foldl (fun acc x => wrap32 (31 * acc + x)) 7 b + x) 4294967296 ltac:(lia)). unfold wrap32 in *. lia.
Qed.
#[global] Instance sample_zeroize : Zeroize := {| zeroize_vec _ := [] |}.

Definition sample_kit (at_utc : Z) : Kit.OfflineRecoveryKit :=
  match Kit.create at_utc (replicate 32 7) sample_secret [lit "https://op1.example.com"; lit "http://10.0.0.2:8080"] with
  | Ok k => k
  | Err _ => Kit.blank
  end.
Definition capital_kit : Kit.OfflineRecoveryKit := Kit.set_recovery_locator_hex (to_ascii_uppercase <$> Kit.recovery_locator_hex (sample_kit 5)) (sample_kit 5).
Definition guardians (k : Kit.OfflineRecoveryKit) : list Guardian.ThresholdRecoveryKit :=
  match fst (Guardian.split_kit lcg k 2 3 42) with Ok gs => gs | Err _ => [] end.

Lemma sample_endpoints_ok : Forall endpoint_ok (Kit.operator_endpoints (sample_kit 5)).
Proof. vm_compute. repeat constructor. Qed.

Lemma kit_sheet_roundtrip_witness : Kit.parse_from_printable (Kit.format_printable (sample_kit 1700000000)) = Ok (sample_kit 1700000000).
Proof.
  apply (KitFacts.kit_sheet_roundtrip (sample_kit 1700000000) sample_secret).
  - vm_compute. reflexivity.
  - split; vm_compute; discriminate.
  - exact sample_endpoints_ok.
Defined.

Lemma guardian_recovery_witness :
  (let? typed := try_map Guardian.parse_from_printable (Guardian.format_guardian_sheet <$> drop 1 (guardians (sample_kit 5))) in Guardian.combine_kits 9 typed)
  = Ok (sample_kit 9).
Proof.
  refine (GuardianFacts.guardian_recovery lcg 5 9 (replicate 32 7) sample_secret _ (sample_kit 5) 2 3 42 (guardians (sample_kit 5))
    (snd (Guardian.split_kit lcg (sample_kit 5) 2 3 42)) (drop 1 (guardians (sample_kit 5))) _ _ _ _ _ sample_endpoints_ok _ _ _ _ _ _).
  - apply (bool_decide_eq_true_1 (is_bytes (replicate 32 7))). vm_compute. reflexivity.
  - reflexivity.
  - apply (bool_decide_eq_true_1 (is_bytes sample_secret)). vm_compute. reflexivity.
  - reflexivity.
  - split; vm_compute; discriminate.
  - vm_compute. discriminate.
  - vm_compute. reflexivity.
  - vm_compute. reflexivity.
  - intros k Hk. rewrite <-(take_drop 1 (guardians (sample_kit 5))). apply elem_of_app. by right.
  - vm_compute. repeat constructor; rewrite ?elem_of_cons, ?elem_of_nil; naive_solver.
  - vm_compute. discriminate.
Defined.

Lemma capital_kit_lost_witness : is_ok (fst (Guardian.split_kit lcg capital_kit 2 3 42)) = true /\ length (guardians capital_kit) = 3%nat /\
  is_ok (Guardian.combine_kits 9 (guardians capital_kit)) = false.
Proof.
  split; [vm_compute; reflexivity|]. split; [vm_compute; reflexivity|].
  apply (GuardianFacts.capital_kit_lost lcg capital_kit sample_secret 2 3 42 (guardians capital_kit) (snd (Guardian.split_kit lcg capital_kit 2 3 42))).
  - vm_compute. reflexivity.
  - vm_compute. reflexivity.
  - intros (_ & _ & H). vm_compute in H. discriminate.
  - done.
Defined.
