(* ===== verification/Paths.v ===== *)
(** * Relative-path safety

    [validate_safe_relative_path] of src/crates/snapshot/src/engine.rs, over the
    standard library's [Path::components], and the shape of what it accepts: a
    path that it accepts names a descendant of any directory it is joined to. *)

From S2P Require Import Prelude Errors.

(** ** [std::path] *)

Inductive Component : Type :=
| RootDir
| CurDir
| ParentDir
| Normal (s : str).

Definition SLASH : Z := 47.
Definition BACKSLASH : Z := 92.
Definition DOT : Z := 46.

(** One piece between slashes after the first: empty pieces and [.] vanish. *)
Definition piece (p : str) : option Component :=
  if bool_decide (p = []) then None
  else if bool_decide (p = [DOT]) then None
  else if bool_decide (p = [DOT; DOT]) then Some ParentDir
  else Some (Normal p).

(** [Path::components] on a slash-separated path: a leading slash is the root, a
    leading [.] is kept. *)
Definition components (s : str) : list Component :=
  match split_on SLASH s with
  | [] => []
  | first :: rest =>
      match first with
      | [] => (if bool_decide (s = []) then [] else [RootDir]) ++ omap piece rest
      | _ => if bool_decide (first = [DOT]) then CurDir :: omap piece rest
             else omap piece (first :: rest)
      end
  end.

(** ** engine.rs *)

Definition illegal_char (ch : Z) : bool :=
  (ch <? 32) || (ch =? 0) || (ch =? 60) || (ch =? 62) || (ch =? 58) || (ch =? 34)
  || (ch =? 124) || (ch =? 63) || (ch =? 42).

Definition reserved_names : list str :=
  lit <$> ["CON"; "PRN"; "AUX"; "NUL"; "COM1"; "COM2"; "COM3"; "COM4"; "COM5"; "COM6"; "COM7";
           "COM8"; "COM9"; "LPT1"; "LPT2"; "LPT3"; "LPT4"; "LPT5"; "LPT6"; "LPT7"; "LPT8"; "LPT9"]%string.

Definition stem (s : str) : str := to_ascii_uppercase <$> default [] (head (split_on DOT s)).

Definition check_char (path_str : str) (ch : Z) : result SnapshotError unit :=
  bail? illegal_char ch
    with UnsafePath (lit "Path contains illegal character '" ++ [ch] ++ lit "': " ++ path_str) ;;
  Ok tt.

Definition check_component (path_str : str) (comp : Component) : result SnapshotError unit :=
  match comp with
  | Normal s =>
      bail? bool_decide (last s = Some DOT) || bool_decide (last s = Some 32)
        with UnsafePath (lit "Component ends with space or dot: " ++ path_str) ;;
      bail? bool_decide (stem s ∈ reserved_names)
        with UnsafePath (lit "Windows reserved device name rejected: " ++ path_str) ;;
      Ok tt
  | _ => Err (UnsafePath (lit "Unsafe path component rejected: " ++ path_str))
  end.

Definition validate_safe_relative_path (path_str : str) : result SnapshotError unit :=
  bail? bool_decide (path_str = []) with UnsafePath (lit "Path cannot be empty") ;;
  let? _ := for_each (check_char path_str) path_str in
  let normalized := replace_char BACKSLASH SLASH path_str in
  for_each (check_component path_str) (components normalized).

(** ** What is accepted *)

(** A component that is a plain file name on every platform. *)
Definition safe_name (s : str) : Prop :=
  s <> [] /\ s <> [DOT] /\ s <> [DOT; DOT] /\ (SLASH ∉ s) /\ (BACKSLASH ∉ s) /\
  Forall (fun c => illegal_char c = false) s /\
  last s <> Some DOT /\ last s <> Some 32 /\ (stem s ∉ reserved_names).

(** Lexical resolution of a path against a directory, a [..] removing the last
    name: what opening [dir.join(path)] reaches when no component is a link. *)
Definition resolve (dir : list str) (cs : list Component) : list str :=
  foldl (fun d c => match c with
                    | RootDir => []
                    | CurDir => d
                    | ParentDir => take (length d - 1) d
                    | Normal s => d ++ [s]
                    end) dir cs.

Definition normals (names : list str) : list Component := Normal <$> names.

Lemma resolve_normals dir names : resolve dir (normals names) = dir ++ names.
Proof.
  revert dir; induction names as [|s names IH]; intros dir.
  - simpl. by rewrite app_nil_r.
  - change (resolve dir (normals (s :: names))) with (resolve (dir ++ [s]) (normals names)).
    rewrite IH. by rewrite <- app_assoc.
Qed.

Lemma split_on_pieces sep s : Forall (fun p => (sep ∉ p) /\ (forall c, c ∈ p -> c ∈ s)) (split_on sep s).
Proof.
  induction s as [|c s IH]; simpl; [apply Forall_singleton; set_solver|].
  destruct (c =? sep) eqn:E.
  - constructor; [set_solver|]. eapply Forall_impl; [exact IH|]. simpl. set_solver.
  - apply Z.eqb_neq in E. destruct (split_on sep s) as [|p ps]; [apply Forall_singleton; set_solver|].
    apply Forall_cons in IH as (Hp & IH). constructor; [set_solver|].
    eapply Forall_impl; [exact IH|]. simpl. set_solver.
Qed.

Lemma components_normal s c n :
  c ∈ components s -> c = Normal n ->
  n <> [] /\ n <> [DOT] /\ n <> [DOT; DOT] /\ (SLASH ∉ n) /\ (forall x, x ∈ n -> x ∈ s).
Proof.
  intros Hin ->. pose proof (split_on_pieces SLASH s) as Hp. rewrite Forall_forall in Hp.
  assert (exists p, p ∈ split_on SLASH s /\ piece p = Some (Normal n)) as (p & Hs & E).
  { unfold components in Hin. destruct (split_on SLASH s) as [|first rest]; [set_solver|].
    assert (Normal n ∈ omap piece rest ->
            exists p, p ∈ first :: rest /\ piece p = Some (Normal n)) as Hrest.
    { rewrite list_elem_of_omap. set_solver. }
    assert (Normal n ∈ omap piece (first :: rest) ->
            exists p, p ∈ first :: rest /\ piece p = Some (Normal n)) as Hall.
    { rewrite list_elem_of_omap. set_solver. }
    destruct first as [|x first]; repeat case_bool_decide; set_solver. }
  unfold piece in E. repeat case_bool_decide; simplify_eq. destruct (Hp _ Hs) as (Hslash & Hsub).
  repeat split; auto.
Qed.

Lemma replace_char_spec a b s c : c ∈ replace_char a b s -> (c = b /\ a ∈ s) \/ (c <> a /\ c ∈ s).
Proof.
  unfold replace_char. rewrite list_elem_of_fmap. intros (x & -> & Hx).
  destruct (x =? a) eqn:E; bool_prop; [left; by subst|by right].
Qed.

Lemma replace_char_idem s :
  replace_char BACKSLASH SLASH (replace_char BACKSLASH SLASH s) = replace_char BACKSLASH SLASH s.
Proof.
  unfold replace_char. rewrite <- list_fmap_compose. apply list_fmap_ext. intros _ c _. simpl.
  unfold BACKSLASH, SLASH. by destruct (c =? 92) eqn:E; [|rewrite E].
Qed.

Lemma validate_ok p :
  validate_safe_relative_path p = Ok tt <->
  p <> [] /\ Forall (fun c => illegal_char c = false) p /\
  Forall (fun c => check_component p c = Ok tt) (components (replace_char BACKSLASH SLASH p)).
Proof.
  unfold validate_safe_relative_path. case_bool_decide; [naive_solver|].
  destruct (for_each (check_char p) p) as [[]|e] eqn:E; simpl.
  - apply for_each_ok in E. rewrite for_each_ok. split; [|naive_solver]. intros. repeat split; auto.
    eapply Forall_impl; [exact E|]. unfold check_char. intros c. by destruct (illegal_char c).
  - split; [done|]. intros (_ & H' & _). exfalso.
    assert (for_each (check_char p) p = Ok tt) as E'; [|congruence].
    apply for_each_ok. eapply Forall_impl; [exact H'|]. unfold check_char. by intros c ->.
Qed.

(** The error text apart, a component is judged without the whole path. *)
Lemma check_component_path p q c : check_component p c = Ok tt -> check_component q c = Ok tt.
Proof. destruct c as [| | |s]; simpl; try done. by repeat case_match. Qed.

Lemma validate_replaced p :
  validate_safe_relative_path p = Ok tt ->
  validate_safe_relative_path (replace_char BACKSLASH SLASH p) = Ok tt.
Proof.
  rewrite !validate_ok. intros (Hne & Hc & Hcomp). rewrite replace_char_idem. repeat split.
  - by destruct p.
  - rewrite Forall_forall in *. intros c [(-> & _)|(_ & Hin)]%replace_char_spec; [done|auto].
  - eapply Forall_impl; [exact Hcomp|]. simpl. eauto using check_component_path.
Qed.

Lemma components_nonempty s : s <> [] -> components s <> [].
Proof.
  intros Hs. unfold components. destruct (split_on SLASH s) as [|[|x first] rest] eqn:E.
  - destruct s as [|c s]; [done|]. simpl in E. repeat case_match; done.
  - by rewrite bool_decide_false.
  - case_bool_decide; [done|]. simpl. unfold piece. rewrite !bool_decide_false by done.
    by case_bool_decide.
Qed.

Lemma validate_names p :
  validate_safe_relative_path p = Ok tt ->
  exists names, components (replace_char BACKSLASH SLASH p) = normals names /\
                names <> [] /\ Forall safe_name names.
Proof.
  rewrite validate_ok. intros (Hne & Hc & Hcomp). set (q := replace_char BACKSLASH SLASH p) in *.
  assert (exists names, components q = normals names) as (names & E).
  { clear -Hcomp. induction (components q) as [|c cs IH]; [by exists []|].
    apply Forall_cons in Hcomp as (Hx & Hcomp). destruct (IH Hcomp) as (names & ->).
    destruct c as [| | |s]; try done. by exists (s :: names). }
  exists names. split; [done|]. split.
  - intros ->. apply (components_nonempty q); [unfold q; by destruct p|done].
  - apply Forall_forall. intros s Hs. assert (Normal s ∈ components q) as Hin.
    { rewrite E. unfold normals. by apply list_elem_of_fmap_2. }
    destruct (components_normal _ _ _ Hin eq_refl) as (? & ? & ? & ? & Hsub).
    rewrite Forall_forall in Hcomp. specialize (Hcomp _ Hin). simpl in Hcomp. res_inv. bool_prop.
    repeat split; auto.
    + intros Hb. apply Hsub, replace_char_spec in Hb as [(? & _)|(? & _)]; done.
    + rewrite Forall_forall in *. intros c Hcin.
      apply Hsub, replace_char_spec in Hcin as [(-> & _)|(_ & Hcin)]; [done|auto].
Qed.

(** ** Plain names are accepted *)

Fixpoint join_slash (names : list str) : str :=
  match names with
  | [] => []
  | [s] => s
  | s :: rest => s ++ SLASH :: join_slash rest
  end.

Lemma split_join names :
  names <> [] -> Forall safe_name names -> split_on SLASH (join_slash names) = names.
Proof.
  induction names as [|s names IH]; intros Hne Hs; [done|].
  apply Forall_cons in Hs as ((_ & _ & _ & Hslash & _) & Hs).
  destruct names as [|s' names]; [by apply split_on_none|].
  cbn [join_slash]. rewrite split_on_app by done. f_equal. by apply IH.
Qed.

Lemma piece_safe s : safe_name s -> piece s = Some (Normal s).
Proof.
  intros (H1 & H2 & H3 & _). unfold piece. by rewrite !bool_decide_false by done.
Qed.

Lemma components_join names :
  names <> [] -> Forall safe_name names -> components (join_slash names) = normals names.
Proof.
  intros Hne Hs. unfold components. rewrite split_join by done.
  destruct names as [|[|x s] names]; [done| |].
  - apply Forall_cons in Hs as ((? & _) & _). done.
  - rewrite bool_decide_false.
    + clear Hne. induction Hs as [|n ns Hn Hns IH]; [done|].
      cbn [omap list_omap]. rewrite piece_safe by done. by rewrite IH.
    + apply Forall_cons in Hs as ((_ & ? & _) & _). done.
Qed.

Lemma join_slash_chars names c :
  c ∈ join_slash names -> c = SLASH \/ exists s, s ∈ names /\ c ∈ s.
Proof.
  induction names as [|s [|s' names] IH]; [set_solver..|].
  cbn [join_slash]. rewrite elem_of_app, elem_of_cons. intros [H|[H|H]]; [set_solver..|].
  destruct (IH H) as [?|(t & ? & ?)]; [by left|right; exists t; set_solver].
Qed.

Lemma replace_char_none s : BACKSLASH ∉ s -> replace_char BACKSLASH SLASH s = s.
Proof.
  intros H. unfold replace_char. rewrite <- (list_fmap_id s) at 2. apply list_fmap_ext.
  intros i c Hc. replace (c =? BACKSLASH) with false; [done|].
  symmetry. apply Z.eqb_neq. intros ->. apply H. by eapply list_elem_of_lookup_2.
Qed.

Lemma safe_names_validate names :
  names <> [] -> Forall safe_name names -> validate_safe_relative_path (join_slash names) = Ok tt.
Proof.
  intros Hne Hs. pose proof Hs as Hs'. rewrite Forall_forall in Hs'.
  assert (forall c, c ∈ join_slash names -> illegal_char c = false /\ c <> BACKSLASH) as Hc.
  { intros c [->|(s & Hin & Hcs)]%join_slash_chars; [done|].
    destruct (Hs' _ Hin) as (_ & _ & _ & _ & Hb & Hl & _). rewrite Forall_forall in Hl.
    split; [by apply Hl|]. by intros ->. }
  rewrite validate_ok, replace_char_none by (intros Hb; by apply Hc in Hb as (_ & ?)).
  rewrite components_join by done. split; [|split].
  - intros E. assert (components (join_slash names) = []) as E' by by rewrite E.
    rewrite components_join in E' by done. by destruct names.
  - apply Forall_forall. intros c Hin. by apply Hc.
  - apply Forall_fmap. eapply Forall_impl; [exact Hs|].
    intros s (_ & _ & _ & _ & _ & _ & H1 & H2 & H3). simpl.
    by rewrite !bool_decide_false by done.
Qed.

(** Every accepted path is a nonempty sequence of plain names (no root,
    [.], [..], separator, control or stream character, trailing dot or space, or
    reserved device name), so that it stays below the directory it is joined to;
    and every nonempty sequence of such names joined by slashes is accepted. *)
Theorem safe_relative_path_correct dir p names :
  (validate_safe_relative_path p = Ok tt ->
   exists ns, ns <> [] /\ Forall safe_name ns /\
     resolve dir (components (replace_char BACKSLASH SLASH p)) = dir ++ ns) /\
  (names <> [] -> Forall safe_name names -> validate_safe_relative_path (join_slash names) = Ok tt).
Proof.
  split; [|apply safe_names_validate].
  intros (ns & E & Hne & Hs)%validate_names. exists ns. rewrite E. auto using resolve_normals.
Qed.

Lemma safe_relative_path_correct_witness :
  exists ns, ns <> [] /\ Forall safe_name ns /\
    resolve [lit "vault"] (components (replace_char BACKSLASH SLASH (lit "src\lib/mod.rs")))
    = [lit "vault"] ++ ns.
Proof.
  apply (proj1 (safe_relative_path_correct [lit "vault"] (lit "src\lib/mod.rs") [])).
  vm_compute. reflexivity.
Defined.

(** Traversal, absolute paths, streams and device names are refused. *)
Example refused_paths :
  Forall (fun p => is_ok (validate_safe_relative_path (lit p)) = false)
    ["../x"; "a/../b"; "/etc"; "\etc"; "c:x"; "nul"; "Com1.txt"; "a./b"; "a /b"; "."; ""]%string.
Proof. repeat constructor. Qed.
