(* ===== verification/Chunker.v ===== *)
(** * Chunking and encrypting one file

    src/crates/snapshot/src/chunker.rs: the legacy (v1) capture, whose chunks are
    bound to a file version and a position, and the opt-in v2 capture, whose
    chunks stand alone under a keyed opaque identifier. *)

From S2P Require Import Prelude Errors Primitives Crypto Schema FastCdc.
Import Chunk.

Definition MIN_PADDING_SIZE : Z := 4096.
Definition MAX_FILE_SIZE : Z := 256 * 1024 * 1024.

Record ChunkedFile : Type := {
  cf_file_version_id : bytes;
  cf_file_version_key : bytes;
  cf_raw_length : Z;
  cf_padded_length : Z;
  cf_plaintext_sha256 : bytes;
  cf_chunks : list ChunkWireObject;
}.

(** [Vec::resize] with zero bytes, growing only: small files share one size. *)
Definition pad (plaintext : bytes) : bytes :=
  if blen plaintext <? MIN_PADDING_SIZE
  then plaintext ++ replicate (Z.to_nat (MIN_PADDING_SIZE - blen plaintext)) 0
  else plaintext.

(** [fastcdc_chunk(&padded, &config_from_env())].  Both steps always produce a
    result ([raw_chunks_spec]), the default is never taken. *)
Definition raw_chunks (env : option str) (padded : bytes) : list bytes :=
  default [] (config ← config_from_env env; fastcdc_chunk config padded).

Section Chunker.
Context {XC : XChaCha} {B2 : Blake2b512} {HK : HkdfSha256} {SH : Sha256}.

Definition encrypt_v1_chunk (vault_id file_version_id file_version_key : bytes) (key_epoch total_chunks : Z)
  (i_chunk : nat * bytes) : result SnapshotError ChunkWireObject :=
  let (i, raw_chunk) := i_chunk in
  let chunk_index := wrap32 (Z.of_nat i) in
  let dummy_chunk :=
    {| version := PROTOCOL_VERSION; vault_id := vault_id; file_version_id := file_version_id;
       chunk_index := chunk_index; total_chunks := total_chunks;
       declared_padded_length := wrap32 (blen raw_chunk); key_epoch := key_epoch; payload := [] |} in
  let aad := compute_aad dummy_chunk in
  let chunk_digest := compute_digest raw_chunk in
  let nonce := derive_chunk_nonce file_version_key chunk_index chunk_digest in
  let? payload := map_err SnapshotCrypto
                    (encrypt_chunk_with_nonce file_version_key nonce raw_chunk aad) in
  Ok {| version := PROTOCOL_VERSION; vault_id := vault_id; file_version_id := file_version_id;
        chunk_index := chunk_index; total_chunks := total_chunks;
        declared_padded_length := wrap32 (blen raw_chunk); key_epoch := key_epoch;
        payload := payload |}.

Definition chunk_and_encrypt_file (env : option str) (vault_id : bytes) (key_epoch : Z)
  (epoch_key plaintext : bytes) : result SnapshotError ChunkedFile :=
  let raw_length := blen plaintext in
  bail? raw_length >? MAX_FILE_SIZE with FileTooLarge (lit "in-memory") raw_length ;;
  let plaintext_sha256 := compute_digest plaintext in
  let file_version_id := derive_file_version_id vault_id key_epoch plaintext_sha256 in
  let? file_version_key := map_err SnapshotCrypto
         (VaultEpochKey_derive_file_version_key epoch_key key_epoch plaintext_sha256) in
  let padded := pad plaintext in
  let padded_length := blen padded in
  let raws := raw_chunks env padded in
  let total_chunks := wrap32 (blen raws) in
  let? chunks := try_map (encrypt_v1_chunk vault_id file_version_id file_version_key key_epoch
                            total_chunks) (enumerate raws) in
  Ok {| cf_file_version_id := file_version_id; cf_file_version_key := file_version_key;
        cf_raw_length := raw_length; cf_padded_length := padded_length;
        cf_plaintext_sha256 := plaintext_sha256; cf_chunks := chunks |}.

Definition encrypt_v2_chunk (domain_key vault_id : bytes) (key_epoch : Z) (raw_chunk : bytes)
  : result SnapshotError ChunkWireObject :=
  let opaque_id := derive_v2_chunk_id domain_key vault_id key_epoch (compute_digest raw_chunk) in
  let chunk :=
    {| version := CHUNK_WIRE_VERSION_V2; vault_id := vault_id; file_version_id := opaque_id;
       chunk_index := 0; total_chunks := 1; declared_padded_length := wrap32 (blen raw_chunk);
       key_epoch := key_epoch; payload := [] |} in
  let '(key, nonce) := derive_v2_chunk_key_nonce domain_key vault_id key_epoch opaque_id in
  let? payload := map_err SnapshotCrypto
                    (encrypt_chunk_with_nonce key nonce raw_chunk (compute_aad chunk)) in
  Ok {| version := CHUNK_WIRE_VERSION_V2; vault_id := vault_id; file_version_id := opaque_id;
        chunk_index := 0; total_chunks := 1; declared_padded_length := wrap32 (blen raw_chunk);
        key_epoch := key_epoch; payload := payload |}.

Definition chunk_and_encrypt_file_v2 (env : option str) (vault_id : bytes) (key_epoch : Z)
  (epoch_key plaintext : bytes) : result SnapshotError ChunkedFile :=
  let raw_length := blen plaintext in
  bail? raw_length >? MAX_FILE_SIZE with FileTooLarge (lit "in-memory") raw_length ;;
  let plaintext_sha256 := compute_digest plaintext in
  let domain_key := derive_v2_chunk_domain_key epoch_key vault_id key_epoch in
  let file_version_id := derive_v2_file_version_id domain_key vault_id key_epoch plaintext_sha256 in
  let padded := pad plaintext in
  let padded_length := blen padded in
  let? chunks := try_map (encrypt_v2_chunk domain_key vault_id key_epoch) (raw_chunks env padded) in
  Ok {| cf_file_version_id := file_version_id; cf_file_version_key := domain_key;
        cf_raw_length := raw_length; cf_padded_length := padded_length;
        cf_plaintext_sha256 := plaintext_sha256; cf_chunks := chunks |}.
End Chunker.

(** ** Padding and raw chunks *)

Lemma pad_length plaintext : blen (pad plaintext) = Z.max (blen plaintext) MIN_PADDING_SIZE.
Proof.
  unfold pad. destruct (_ <? _) eqn:E; bool_prop; [|lia].
  rewrite blen_app. unfold blen at 2. rewrite length_replicate. lia.
Qed.

Lemma take_pad plaintext : take (Z.to_nat (blen plaintext)) (pad plaintext) = plaintext.
Proof.
  unfold pad, blen. rewrite Nat2Z.id. case_match; [apply take_app_length|by apply take_ge].
Qed.

Lemma sizes_ok_count lo hi cs : 0 < lo -> sizes_ok lo hi cs -> blen cs <= blen (concat cs).
Proof.
  intros Hlo. induction cs as [|c cs IH]; [done|]. intros H. simpl concat. rewrite blen_app.
  change (blen (c :: cs)) with (Z.of_nat (S (length cs))). fold (blen cs).
  destruct cs as [|c' cs]; simpl in H; [unfold blen in *; simpl; lia|].
  destruct H as (Hc & H). specialize (IH H). unfold blen in *. lia.
Qed.

Lemma raw_chunks_spec env padded :
  concat (raw_chunks env padded) = padded /\
  blen (raw_chunks env padded) <= blen padded /\
  Forall (fun c => blen c <= blen padded) (raw_chunks env padded).
Proof.
  unfold raw_chunks. destruct (config_from_env_ok env) as (cfg & -> & Hok).
  destruct (fastcdc_spec cfg padded Hok) as (cs & E & Hcat & Hsz). simpl. rewrite E. simpl.
  split; [done|]. rewrite <- Hcat. split.
  - destruct Hok. by eapply sizes_ok_count.
  - clear. induction cs as [|c cs IH]; simpl; constructor; rewrite blen_app.
    + pose proof (blen_nonneg (concat cs)). lia.
    + pose proof (blen_nonneg c). eapply Forall_impl; [exact IH|]. simpl. lia.
Qed.

Lemma wrap32_small z : 0 <= z < 4294967296 -> wrap32 z = z.
Proof. apply Z.mod_small. Qed.

Lemma pad_small plaintext : blen plaintext <= MAX_FILE_SIZE -> blen (pad plaintext) < 4294967296.
Proof. rewrite pad_length. unfold MAX_FILE_SIZE, MIN_PADDING_SIZE. lia. Qed.
