(* ===== verification/Engine.v ===== *)
(** * Snapshot capture and decryption

    src/crates/snapshot/src/engine.rs.  Capture reads the tracked files, chunks
    and encrypts them, and signs a record of the encrypted manifest; decryption
    authenticates the manifest, finds the chunks by content identifier, checks
    every binding and rebuilds the files.

    What the operating system answers while a file is captured is the input
    [FileProbe]: link probes of its ancestors, canonical paths, the two handle
    stats, the bytes read, and the path stat (the unix build).  Random bytes and
    the clock are arguments too. *)

From S2P Require Import Prelude Errors Primitives Crypto Schema FastCdc Paths Chunker.

(** ** Write policy and signer *)

Inductive ChunkWriteVersion : Type := LegacyV1 | V2.

Definition from_setting (value : option str) : result SnapshotError ChunkWriteVersion :=
  match value with
  | None => Ok LegacyV1
  | Some v =>
      if bool_decide (v = lit "0") then Ok LegacyV1
      else if bool_decide (v = lit "1") then Ok V2
      else Err (InvalidInput (lit "CIPHERVAULT_CHUNK_V2_WRITE must be exactly 0 or 1; unset defaults to legacy v1"))
  end.

Inductive EnvVar : Type := Present (value : str) | NotPresent | NotUnicode.

Definition from_env (var : EnvVar) : result SnapshotError ChunkWriteVersion :=
  match var with
  | Present value => from_setting (Some value)
  | NotPresent => from_setting None
  | NotUnicode => Err (InvalidInput (lit "CIPHERVAULT_CHUNK_V2_WRITE is not valid Unicode"))
  end.

Inductive DeviceSigner (M : Type) : Type :=
| Software (sk : bytes)
| Hardware (hsm : M) (slot : HsmSlot).
Arguments Software {M} sk.
Arguments Hardware {M} hsm slot.

Definition sign_snapshot {M : Type} `{HardwareSecurityModule M, Cbor Snapshot.SnapshotRecord, Ed25519}
  (self : DeviceSigner M) (record : Snapshot.SnapshotRecord)
  : result SnapshotError Snapshot.SnapshotRecord :=
  match self with
  | Software sk => map_err SnapshotFormat (Snapshot.sign sk record)
  | Hardware hsm slot => map_err SnapshotFormat (Snapshot.sign_with_hsm hsm slot record)
  end.

(** ** What the operating system answers *)

Inductive LinkProbe : Type := Regular | Symlink | NotFound | ProbeError (msg : string).

Record Stat : Type := { st_len : Z; st_modified : result string Z; st_dev : Z; st_ino : Z }.

Record FileProbe : Type := {
  fp_display : str;                               (* full_path.display() *)
  fp_links : list (str * LinkProbe);              (* symlink_metadata of each ancestor *)
  fp_exists : bool;
  fp_canonical : result string (list str);
  fp_open : result string unit;                   (* open_regular_file *)
  fp_pre_stat : result string Stat;
  fp_read : Z -> result string bytes;             (* take(limit).read_to_end *)
  fp_post_stat : result string Stat;
  fp_links_after : list (str * LinkProbe);
  fp_canonical_after : result string (list str);
  fp_path_stat : result string Stat;
}.

Definition check_link (component : str * LinkProbe) : result SnapshotError unit :=
  match component.2 with
  | Regular => Ok tt
  | Symlink => Err (UnsafePath (lit "Refusing symlink or reparse point: " ++ component.1))
  | NotFound => Ok tt
  | ProbeError msg => Err (IoError msg)
  end.

Definition validate_no_links (ancestors : list (str * LinkProbe)) : result SnapshotError unit :=
  for_each check_link ancestors.

(** [Path::starts_with], by components. *)
Definition path_starts_with (path base : list str) : bool :=
  bool_decide (take (length base) path = base).

Definition io {A : Type} (r : result string A) : result SnapshotError A := map_err IoError r.

Definition stat_changed (pre post path : Stat) : result SnapshotError bool :=
  if negb (st_len pre =? st_len post) then Ok true
  else
    let? pre_m := io (st_modified pre) in
    let? post_m := io (st_modified post) in
    if negb (pre_m =? post_m) then Ok true
    else if negb (st_len path =? st_len post) then Ok true
    else
      let? path_m := io (st_modified path) in
      let? post_m' := io (st_modified post) in
      Ok (negb (path_m =? post_m')).

(** The coherent read of one existing file. *)
Definition read_tracked (canonical_root : list str) (rel_path : str) (probe : FileProbe)
  : result SnapshotError bytes :=
  let? canonical := io (fp_canonical probe) in
  bail? negb (path_starts_with canonical canonical_root) with UnsafePath (fp_display probe) ;;
  let? _ := io (fp_open probe) in
  let? pre_stat := io (fp_pre_stat probe) in
  bail? st_len pre_stat >? MAX_FILE_SIZE with FileTooLarge rel_path (st_len pre_stat) ;;
  let? contents := io (fp_read probe (MAX_FILE_SIZE + 1)) in
  bail? blen contents >? MAX_FILE_SIZE with FileTooLarge rel_path (blen contents) ;;
  let? post_stat := io (fp_post_stat probe) in
  let? _ := validate_no_links (fp_links_after probe) in
  let? canonical' := io (fp_canonical_after probe) in
  bail? negb (path_starts_with canonical' canonical_root) with UnsafePath (fp_display probe) ;;
  let? path_stat := io (fp_path_stat probe) in
  bail? negb (st_dev path_stat =? st_dev post_stat) || negb (st_ino path_stat =? st_ino post_stat)
    with ConcurrentModification rel_path ;;
  let? changed := stat_changed pre_stat post_stat path_stat in
  bail? changed with ConcurrentModification rel_path ;;
  Ok contents.

(** ** Capture *)

Record Tracked : Type := { t_path : str; t_file_id : bytes; t_probe : FileProbe }.

Record CaptureState : Type := {
  manifest_entries : list Manifest.ManifestFileEntry;
  all_chunks : list Chunk.ChunkWireObject;
  all_chunk_cids : list bytes;
  total_bytes : Z;
  captured_file_hashes : list (str * option bytes);
}.

Definition manifest_aad (vault_id : bytes) (epoch : Z) : bytes :=
  lit "CipherVault-Manifest:" ++ vault_id ++ to_le_bytes 8 epoch.

Definition tombstone (rel_path : str) (file_id : bytes) : Manifest.ManifestFileEntry :=
  {| Manifest.file_id := file_id;
     Manifest.relative_path := replace_char BACKSLASH SLASH rel_path;
     Manifest.file_version_id := replicate 32 0; Manifest.raw_length := 0;
     Manifest.padded_length := 0; Manifest.plaintext_sha256 := replicate 32 0;
     Manifest.file_version_key := replicate 32 0; Manifest.chunk_cids := [];
     Manifest.is_deleted := true |}.

Definition file_entry (rel_path : str) (file_id : bytes) (chunked : ChunkedFile) (cids : list bytes)
  : Manifest.ManifestFileEntry :=
  {| Manifest.file_id := file_id;
     Manifest.relative_path := replace_char BACKSLASH SLASH rel_path;
     Manifest.file_version_id := cf_file_version_id chunked;
     Manifest.raw_length := cf_raw_length chunked;
     Manifest.padded_length := cf_padded_length chunked;
     Manifest.plaintext_sha256 := cf_plaintext_sha256 chunked;
     Manifest.file_version_key := cf_file_version_key chunked;
     Manifest.chunk_cids := cids; Manifest.is_deleted := false |}.

Record SnapshotOutput : Type := {
  so_record : Snapshot.SnapshotRecord;
  so_encrypted_manifest : bytes;
  so_manifest_cid : bytes;
  so_chunks : list Chunk.ChunkWireObject;
  so_closure : Closure.RecoveryClosure;
  so_captured_file_hashes : list (str * option bytes);
}.

Section Capture.
Context {XC : XChaCha} {B2 : Blake2b512} {HK : HkdfSha256} {SH : Sha256} {ED : Ed25519}
  {CC : Cbor Chunk.ChunkWireObject} {CM : Cbor Manifest.SnapshotManifest}
  {CS : Cbor Snapshot.SnapshotRecord} {M : Type} {HM : HardwareSecurityModule M}.

(** One iteration of the loop over the tracked files. *)
Definition capture_file (env : option str) (vault_id : bytes) (epoch : Z) (epoch_key : bytes)
  (write_version : ChunkWriteVersion) (canonical_root : list str) (st : CaptureState) (t : Tracked)
  : result SnapshotError CaptureState :=
  let rel_path := t_path t in
  let? _ := validate_safe_relative_path rel_path in
  let? _ := validate_no_links (fp_links (t_probe t)) in
  if negb (fp_exists (t_probe t)) then
    Ok {| manifest_entries := manifest_entries st ++ [tombstone rel_path (t_file_id t)];
          all_chunks := all_chunks st; all_chunk_cids := all_chunk_cids st;
          total_bytes := total_bytes st;
          captured_file_hashes := captured_file_hashes st ++ [(rel_path, None)] |}
  else
    let? contents := read_tracked canonical_root rel_path (t_probe t) in
    let? chunked :=
      match write_version with
      | LegacyV1 => chunk_and_encrypt_file env vault_id epoch epoch_key contents
      | V2 => chunk_and_encrypt_file_v2 env vault_id epoch epoch_key contents
      end in
    let? cids := try_map (fun c => map_err SnapshotFormat (Chunk.compute_cid c)) (cf_chunks chunked) in
    Ok {| manifest_entries := manifest_entries st ++ [file_entry rel_path (t_file_id t) chunked cids];
          all_chunks := all_chunks st ++ cf_chunks chunked;
          all_chunk_cids := all_chunk_cids st ++ cids;
          total_bytes := wrap64 (total_bytes st + cf_raw_length chunked);
          captured_file_hashes :=
            captured_file_hashes st ++ [(rel_path, Some (cf_plaintext_sha256 chunked))] |}.

Definition capture_files (env : option str) (vault_id : bytes) (epoch : Z) (epoch_key : bytes)
  (write_version : ChunkWriteVersion) (canonical_root : list str) (tracked : list Tracked)
  : result SnapshotError CaptureState :=
  try_fold (capture_file env vault_id epoch epoch_key write_version canonical_root)
    {| manifest_entries := []; all_chunks := []; all_chunk_cids := []; total_bytes := 0;
       captured_file_hashes := [] |} tracked.

(** [root_links] and [canonical_root] are the probes of the vault root;
    [snapshot_id] and [manifest_nonce] are drawn; [now] is the clock. *)
Definition create_snapshot_with_signer_and_write_version
  (env : option str) (root_links : list (str * LinkProbe)) (root_canonical : result string (list str))
  (snapshot_id manifest_nonce : bytes) (now : Z)
  (tracked : list Tracked) (vault_id : bytes) (epoch : Z) (epoch_key : bytes)
  (parent_ids : list bytes) (device_id : bytes) (device_counter authority_generation : Z)
  (signer : DeviceSigner M) (write_version : ChunkWriteVersion)
  : result SnapshotError SnapshotOutput :=
  let? _ := validate_no_links root_links in
  let? canonical_root := io root_canonical in
  let? st := capture_files env vault_id epoch epoch_key write_version canonical_root tracked in
  let manifest :=
    {| Manifest.version := PROTOCOL_VERSION; Manifest.vault_id := vault_id; Manifest.epoch := epoch;
       Manifest.snapshot_id := snapshot_id; Manifest.files := manifest_entries st |} in
  let? manifest_bytes := map_err SnapshotFormat (to_canonical_cbor manifest) in
  let? manifest_key := map_err SnapshotCrypto (derive_manifest_key epoch_key epoch) in
  let? encrypted_manifest := map_err SnapshotCrypto
         (encrypt_chunk manifest_nonce manifest_key manifest_bytes (manifest_aad vault_id epoch)) in
  let manifest_cid := compute_digest encrypted_manifest in
  let? record := sign_snapshot signer
    {| Snapshot.version := PROTOCOL_VERSION; Snapshot.vault_id := vault_id;
       Snapshot.snapshot_id := snapshot_id; Snapshot.parent_snapshot_ids := parent_ids;
       Snapshot.device_id := device_id; Snapshot.device_counter := device_counter;
       Snapshot.authority_generation := authority_generation; Snapshot.epoch := epoch;
       Snapshot.encrypted_manifest_cid := manifest_cid;
       Snapshot.encrypted_manifest_len := blen encrypted_manifest;
       Snapshot.advisory_timestamp_utc := wrap64 now; Snapshot.signature := [] |} in
  let? record_cid := map_err SnapshotFormat (Snapshot.compute_record_cid record) in
  Ok {| so_record := record; so_encrypted_manifest := encrypted_manifest;
        so_manifest_cid := manifest_cid; so_chunks := all_chunks st;
        so_closure :=
          {| Closure.snapshot_id := snapshot_id; Closure.snapshot_record_cid := record_cid;
             Closure.manifest_cid := manifest_cid; Closure.envelope_ids := [];
             Closure.chunk_cids := all_chunk_cids st; Closure.total_bytes := total_bytes st |};
        so_captured_file_hashes := captured_file_hashes st |}.

(** The public entry points fix the signer or the write policy. *)
Definition create_snapshot_with_signer (policy : EnvVar) env root_links root_canonical snapshot_id
  manifest_nonce now tracked vault_id epoch epoch_key parent_ids device_id device_counter
  authority_generation (signer : DeviceSigner M) : result SnapshotError SnapshotOutput :=
  let? write_version := from_env policy in
  create_snapshot_with_signer_and_write_version env root_links root_canonical snapshot_id
    manifest_nonce now tracked vault_id epoch epoch_key parent_ids device_id device_counter
    authority_generation signer write_version.

Definition create_snapshot (policy : EnvVar) env root_links root_canonical snapshot_id
  manifest_nonce now tracked vault_id epoch epoch_key parent_ids device_id device_counter
  authority_generation (device_sk : bytes) : result SnapshotError SnapshotOutput :=
  create_snapshot_with_signer policy env root_links root_canonical snapshot_id manifest_nonce now
    tracked vault_id epoch epoch_key parent_ids device_id device_counter authority_generation
    (Software device_sk).

Definition create_snapshot_with_write_version env root_links root_canonical snapshot_id
  manifest_nonce now tracked vault_id epoch epoch_key parent_ids device_id device_counter
  authority_generation (device_sk : bytes) (write_version : ChunkWriteVersion)
  : result SnapshotError SnapshotOutput :=
  create_snapshot_with_signer_and_write_version env root_links root_canonical snapshot_id
    manifest_nonce now tracked vault_id epoch epoch_key parent_ids device_id device_counter
    authority_generation (Software device_sk) write_version.
End Capture.

(** ** Decryption *)

Definition MAX_RESTORE_FILE_SIZE : Z := 256 * 1024 * 1024.

Record DecryptedFile : Type := { df_relative_path : str; df_plaintext : bytes }.
#[global] Instance DecryptedFile_eq_dec : EqDecision DecryptedFile.
Proof. solve_decision. Defined.

Section Decrypt.
Context {XC : XChaCha} {B2 : Blake2b512} {HK : HkdfSha256} {SH : Sha256} {HX : Hex}
  {CC : Cbor Chunk.ChunkWireObject} {CM : Cbor Manifest.SnapshotManifest}.

Definition crypto {A : Type} (r : result CryptoError A) : result SnapshotError A :=
  map_err SnapshotCrypto r.

(** The index by content identifier: a later chunk replaces an earlier one. *)
Definition index_chunk (m : gmap bytes Chunk.ChunkWireObject) (c : Chunk.ChunkWireObject)
  : result SnapshotError (gmap bytes Chunk.ChunkWireObject) :=
  let? cid := map_err SnapshotFormat (Chunk.compute_cid c) in
  Ok (<[cid := c]> m).
Definition index_chunks (chunks : list Chunk.ChunkWireObject)
  : result SnapshotError (gmap bytes Chunk.ChunkWireObject) :=
  try_fold index_chunk ∅ chunks.

(** The two chunk readers, by wire version. *)
Definition open_v1 (entry : Manifest.ManifestFileEntry) (position : nat) (chunk : Chunk.ChunkWireObject)
  : result SnapshotError bytes :=
  bail? negb (bool_decide (Chunk.file_version_id chunk = Manifest.file_version_id entry))
        || negb (Chunk.chunk_index chunk =? Z.of_nat position)
        || negb (Chunk.total_chunks chunk =? blen (Manifest.chunk_cids entry))
    with InvalidInput (lit "Legacy chunk order/file binding mismatch") ;;
  crypto (decrypt_chunk (Manifest.file_version_key entry) (Chunk.payload chunk)
            (Chunk.compute_aad chunk)).

Definition open_v2 (domain_key vault_id : bytes) (epoch : Z) (entry : Manifest.ManifestFileEntry)
  (chunk : Chunk.ChunkWireObject) : result SnapshotError bytes :=
  bail? negb (Chunk.chunk_index chunk =? 0) || negb (Chunk.total_chunks chunk =? 1)
        || negb (bool_decide (Manifest.file_version_key entry = domain_key))
    with InvalidInput (lit "Invalid v2 chunk header or domain key") ;;
  let opaque_id := Chunk.file_version_id chunk in
  let '(key, nonce) := derive_v2_chunk_key_nonce domain_key vault_id epoch opaque_id in
  bail? (blen (Chunk.payload chunk) <? 24) || negb (bool_decide (take 24 (Chunk.payload chunk) = nonce))
    with InvalidInput (lit "Invalid v2 deterministic nonce") ;;
  let? plaintext := crypto (decrypt_chunk key (Chunk.payload chunk) (Chunk.compute_aad chunk)) in
  bail? negb (bool_decide (derive_v2_chunk_id domain_key vault_id epoch (compute_digest plaintext)
                           = opaque_id))
    with InvalidInput (lit "V2 opaque chunk identifier mismatch") ;;
  Ok plaintext.

(** One iteration over an entry's chunks: the bytes assembled and the wire
    version seen so far. *)
Definition restore_chunk (domain_key vault_id : bytes) (epoch : Z)
  (chunk_map : gmap bytes Chunk.ChunkWireObject) (entry : Manifest.ManifestFileEntry)
  (st : bytes * option Z) (position_cid : nat * bytes) : result SnapshotError (bytes * option Z) :=
  let (assembled_padded, wire_version) := st in
  let (position, expected_cid) := position_cid in
  let path := Manifest.relative_path entry in
  bail? negb (blen expected_cid =? 32)
    with InvalidInput (lit "Invalid chunk CID length for " ++ path) ;;
  let? chunk := ok_or (chunk_map !! expected_cid) (MissingChunk path (hex_encode expected_cid)) in
  bail? negb (bool_decide (Chunk.vault_id chunk = vault_id)) || negb (Chunk.key_epoch chunk =? epoch)
        || negb (blen (Chunk.file_version_id chunk) =? 32)
    with InvalidInput (lit "Chunk vault/epoch/identifier mismatch") ;;
  bail? match wire_version with Some v => negb (v =? Chunk.version chunk) | None => false end
    with InvalidInput (lit "Mixed chunk wire versions in one file") ;;
  let? decrypted :=
    (if Chunk.version chunk =? PROTOCOL_VERSION then open_v1 entry position chunk
     else if Chunk.version chunk =? CHUNK_WIRE_VERSION_V2 then open_v2 domain_key vault_id epoch entry chunk
     else Err (InvalidInput (lit "Unsupported chunk wire version"))) in
  bail? negb (blen decrypted =? Chunk.declared_padded_length chunk)
        || (sat_add64 (blen assembled_padded) (blen decrypted) >? Manifest.padded_length entry)
    with InvalidInput (lit "Chunk/manifest padded length mismatch") ;;
  Ok (assembled_padded ++ decrypted, Some (Chunk.version chunk)).

(** One iteration over the manifest; a tombstone yields nothing. *)
Definition restore_entry (domain_key vault_id : bytes) (epoch : Z)
  (chunk_map : gmap bytes Chunk.ChunkWireObject) (entry : Manifest.ManifestFileEntry)
  : result SnapshotError (option DecryptedFile) :=
  if Manifest.is_deleted entry then Ok None
  else
    let path := Manifest.relative_path entry in
    let raw_length := Manifest.raw_length entry in
    let padded_length := Manifest.padded_length entry in
    let? _ := validate_safe_relative_path path in
    bail? negb (blen (Manifest.file_version_key entry) =? 32)
      with InvalidInput (lit "Invalid file_version_key length for " ++ path ++ lit ": expected 32, got "
                         ++ show_Z (blen (Manifest.file_version_key entry))) ;;
    bail? (padded_length >? MAX_RESTORE_FILE_SIZE) || (raw_length >? MAX_RESTORE_FILE_SIZE)
      with FileTooLarge path (Z.max raw_length padded_length) ;;
    bail? raw_length >? padded_length
      with IntegrityMismatch path (lit "padded >= raw (raw=" ++ show_Z raw_length ++ lit ")")
             (lit "padded=" ++ show_Z padded_length) ;;
    let? assembled := try_fold (restore_chunk domain_key vault_id epoch chunk_map entry) ([], None)
                        (enumerate (Manifest.chunk_cids entry)) in
    let (assembled_padded, wire_version) := assembled : bytes * option Z in
    bail? negb (blen assembled_padded =? padded_length)
      with IntegrityMismatch path (show_Z raw_length ++ lit " bytes")
             (show_Z (blen assembled_padded) ++ lit " bytes") ;;
    let plaintext := take (Z.to_nat raw_length) assembled_padded in
    let actual_sha256 := compute_digest plaintext in
    bail? negb (bool_decide (actual_sha256 = Manifest.plaintext_sha256 entry))
      with IntegrityMismatch path (hex_encode (Manifest.plaintext_sha256 entry))
             (hex_encode actual_sha256) ;;
    bail? bool_decide (wire_version = Some CHUNK_WIRE_VERSION_V2)
          && negb (bool_decide (derive_v2_file_version_id domain_key vault_id epoch actual_sha256
                                = Manifest.file_version_id entry))
      with InvalidInput (lit "V2 file version identifier mismatch") ;;
    Ok (Some {| df_relative_path := path; df_plaintext := plaintext |}).

Definition decrypt_snapshot (vault_id epoch_key : bytes) (epoch : Z) (encrypted_manifest : bytes)
  (chunks : list Chunk.ChunkWireObject) : result SnapshotError (list DecryptedFile) :=
  let? manifest_key := crypto (derive_manifest_key epoch_key epoch) in
  let? manifest_bytes := crypto (decrypt_chunk manifest_key encrypted_manifest
                                   (manifest_aad vault_id epoch)) in
  let? manifest := map_err SnapshotFormat (from_canonical_cbor manifest_bytes) in
  bail? negb (Manifest.version manifest =? PROTOCOL_VERSION)
        || negb (bool_decide (Manifest.vault_id manifest = vault_id))
        || negb (Manifest.epoch manifest =? epoch)
    with InvalidInput (lit "Manifest version/vault/epoch mismatch") ;;
  let domain_key := derive_v2_chunk_domain_key epoch_key vault_id epoch in
  let? chunk_map := index_chunks chunks in
  let? files := try_map (restore_entry domain_key vault_id epoch chunk_map) (Manifest.files manifest) in
  Ok (omap id files).
End Decrypt.
