(* ===== verification/EngineTheory.v ===== *)
(** * Capture and decryption agree

    Decryption of what capture produced returns exactly the captured files, for
    both wire versions; and whatever decryption returns, from any input, is what
    an authenticated manifest describes. *)

From S2P Require Import Prelude Errors Primitives SamplePrimitives Crypto Schema FastCdc Paths Chunker Engine.

(** ** The loop over an entry's chunks *)

Lemma assemble_loop {E : Type} (f : bytes * option Z -> nat * bytes -> result E (bytes * option Z))
  ver bound raws : forall (cids : list bytes) k acc wv,
  length cids = length raws -> (wv = None \/ wv = Some ver) ->
  (forall i raw cid acc wv, raws !! i = Some raw -> cids !! i = Some cid ->
     (wv = None \/ wv = Some ver) -> blen acc + blen raw <= bound ->
     f (acc, wv) ((k + i)%nat, cid) = Ok (acc ++ raw, Some ver)) ->
  blen acc + blen (concat raws) <= bound ->
  try_fold f (acc, wv) (imap (fun i c => ((k + i)%nat, c)) cids)
  = Ok (acc ++ concat raws, match raws with [] => wv | _ => Some ver end).
Proof.
  induction raws as [|raw raws IH]; intros [|cid cids] k acc wv Hlen Hwv Hstep Hb; try done.
  - simpl. by rewrite app_nil_r.
  - simpl concat in *. rewrite blen_app in Hb. pose proof (blen_nonneg (concat raws)).
    rewrite imap_cons. cbn [try_fold]. rewrite (Hstep 0%nat raw cid acc wv) by (done || lia). simpl.
    rewrite (imap_ext _ (fun i c => ((S k + i)%nat, c))) by (intros; simpl; f_equal; lia).
    rewrite (IH cids (S k) (acc ++ raw) (Some ver)).
    + rewrite <- app_assoc. by destruct raws.
    + by injection Hlen.
    + by right.
    + intros i r c a w Hr Hc Hw Ha. replace (S k + i)%nat with (k + S i)%nat by lia. by apply Hstep.
    + rewrite blen_app. lia.
Qed.

Lemma concat_element_le (l : list bytes) i (x : bytes) : l !! i = Some x -> blen x <= blen (concat l).
Proof.
  revert i; induction l as [|y l IH]; intros [|i] H; simpl in H; try done;
    simpl concat; rewrite blen_app.
  - simplify_eq. pose proof (blen_nonneg (concat l)). lia.
  - pose proof (blen_nonneg y). specialize (IH _ H). lia.
Qed.

Section Roundtrip.
Context {XC : XChaCha} {XL : XChaChaLaws XC} {B2 : Blake2b512} {BL : Blake2b512Laws B2}
  {HK : HkdfSha256} {KL : HkdfSha256Laws HK} {SH : Sha256} {SL : Sha256Laws SH} {HX : Hex}
  {CC : Cbor Chunk.ChunkWireObject} {CCL : CborLaws _ CC}
  {CM : Cbor Manifest.SnapshotManifest} {CML : CborLaws _ CM}.

Implicit Types (entry : Manifest.ManifestFileEntry) (c : Chunk.ChunkWireObject).

Lemma cid_length c cid : Chunk.compute_cid c = Ok cid -> length cid = 32%nat.
Proof. unfold Chunk.compute_cid. intros H. res_inv. apply sha256_length. Qed.

Lemma derive_lengths :
  (forall v e d, length (derive_file_version_id v e d) = 32%nat) /\
  (forall k i d, length (derive_chunk_nonce k i d) = 24%nat) /\
  (forall k e d fk, derive_file_version_key k e d = Ok fk -> length fk = 32%nat) /\
  (forall k e mk, derive_manifest_key k e = Ok mk -> length mk = 32%nat).
Proof.
  unfold derive_file_version_id, derive_chunk_nonce, derive_file_version_key, derive_manifest_key,
    derive_subkey.
  repeat split; intros; try (res_inv; try match goal with H : Ok _ = Ok _ |- _ => injection H as <- end);
    rewrite length_take, blake2b512_length; lia.
Qed.

(** The common part of both chunk readers: the surrounding checks pass and the
    reader returns the raw chunk. *)
Lemma restore_chunk_step dk vault epoch m entry acc wv position cid c raw :
  Chunk.compute_cid c = Ok cid -> m !! cid = Some c ->
  Chunk.vault_id c = vault -> Chunk.key_epoch c = epoch -> length (Chunk.file_version_id c) = 32%nat ->
  (wv = None \/ wv = Some (Chunk.version c)) ->
  (if Chunk.version c =? PROTOCOL_VERSION then open_v1 entry position c
   else if Chunk.version c =? CHUNK_WIRE_VERSION_V2 then open_v2 dk vault epoch entry c
   else Err (InvalidInput (lit "Unsupported chunk wire version"))) = Ok raw ->
  Chunk.declared_padded_length c = blen raw ->
  blen acc + blen raw <= Manifest.padded_length entry ->
  restore_chunk dk vault epoch m entry (acc, wv) (position, cid) = Ok (acc ++ raw, Some (Chunk.version c)).
Proof.
  intros Hcid Hm Hv He Hf Hwv Hopen Hlen Hpad. unfold restore_chunk.
  pose proof (cid_length _ _ Hcid) as Hl. unfold blen at 1. rewrite Hl, Hm. simpl.
  rewrite bool_decide_true, He, Z.eqb_refl by done. unfold blen at 1. rewrite Hf. simpl.
  replace (match wv with Some v => negb (v =? Chunk.version c) | None => false end) with false
    by (destruct Hwv as [->| ->]; [done|by rewrite Z.eqb_refl]).
  rewrite Hopen. cbn [res_bind]. rewrite Hlen, Z.eqb_refl. simpl.
  rewrite Z.gtb_ltb. replace (_ <? _) with false; [done|].
  symmetry. apply Z.ltb_ge. unfold sat_add64. lia.
Qed.

Lemma open_v1_encrypted vault fvid fvk epoch total i raw c entry :
  encrypt_v1_chunk vault fvid fvk epoch total (i, raw) = Ok c ->
  Z.of_nat i < 4294967296 ->
  Manifest.file_version_id entry = fvid -> Manifest.file_version_key entry = fvk ->
  blen (Manifest.chunk_cids entry) = total ->
  open_v1 entry i c = Ok raw.
Proof.
  unfold encrypt_v1_chunk. intros H Hi <- <- <-. res_inv. unfold open_v1. simpl.
  rewrite bool_decide_true, wrap32_small, !Z.eqb_refl by (done || lia). simpl.
  rewrite (proj2 (decrypt_chunk_ok _ a _ raw)); [done|]. rewrite wrap32_small in Hm by lia.
  destruct derive_lengths as (_ & Hn & _). eauto.
Qed.

Lemma open_v2_encrypted dk vault epoch raw c entry :
  encrypt_v2_chunk dk vault epoch raw = Ok c ->
  Manifest.file_version_key entry = dk ->
  open_v2 dk vault epoch entry c = Ok raw.
Proof.
  unfold encrypt_v2_chunk. destruct (derive_v2_chunk_key_nonce _ _ _ _) as [key nonce] eqn:Ek.
  intros H Hk. res_inv. unfold open_v2.
  cbn [Chunk.chunk_index Chunk.total_chunks Chunk.file_version_id Chunk.payload].
  rewrite bool_decide_true, Ek by done. cbn [Z.eqb Pos.eqb negb orb].
  assert (length nonce = 24%nat) as Hn.
  { unfold derive_v2_chunk_key_nonce in Ek. injection Ek as _ <-. apply hkdf_length. }
  pose proof Hm as Hm'. unfold encrypt_chunk_with_nonce in Hm'. res_inv.
  rewrite take_app_length' by done. rewrite bool_decide_true by done.
  replace (blen (nonce ++ _) <? 24) with false by (symmetry; apply Z.ltb_ge; rewrite blen_app;
    unfold blen; lia). cbn [negb orb].
  rewrite (proj2 (decrypt_chunk_ok key _ _ raw)); [|eauto]. cbn [crypto map_err res_bind]. by rewrite bool_decide_true.
Qed.

(** ** One entry *)

Lemma restore_entry_assembled dk vault epoch m entry contents ver :
  Manifest.is_deleted entry = false ->
  validate_safe_relative_path (Manifest.relative_path entry) = Ok tt ->
  length (Manifest.file_version_key entry) = 32%nat ->
  blen contents <= MAX_FILE_SIZE ->
  Manifest.raw_length entry = blen contents ->
  Manifest.padded_length entry = blen (pad contents) ->
  Manifest.plaintext_sha256 entry = compute_digest contents ->
  try_fold (restore_chunk dk vault epoch m entry) ([], None) (enumerate (Manifest.chunk_cids entry))
    = Ok (pad contents, ver) ->
  (ver = Some CHUNK_WIRE_VERSION_V2 ->
   derive_v2_file_version_id dk vault epoch (compute_digest contents) = Manifest.file_version_id entry) ->
  restore_entry dk vault epoch m entry
  = Ok (Some {| df_relative_path := Manifest.relative_path entry; df_plaintext := contents |}).
Proof.
  intros Hdel Hp Hk Hmax Hr Hpad Hsha Hloop Hv2. unfold restore_entry.
  rewrite Hdel, Hp, Hr, Hpad. cbn [res_bind]. unfold blen at 1. rewrite Hk.
  pose proof (pad_length contents) as Hpl. unfold MAX_RESTORE_FILE_SIZE. rewrite !Z.gtb_ltb.
  unfold MAX_FILE_SIZE, MIN_PADDING_SIZE in *. pose proof (blen_nonneg contents).
  replace (_ <? blen (pad contents)) with false by (symmetry; apply Z.ltb_ge; lia).
  replace (_ <? blen contents) with false by (symmetry; apply Z.ltb_ge; lia).
  replace (_ <? blen contents) with false by (symmetry; apply Z.ltb_ge; lia).
  simpl. rewrite Hloop. cbn [res_bind]. rewrite Z.eqb_refl, take_pad. simpl.
  rewrite bool_decide_true by done. simpl.
  case_bool_decide as Hver; [|done]. by rewrite bool_decide_true by auto.
Qed.

Lemma chunk_v1_facts env vault epoch ek contents cf :
  chunk_and_encrypt_file env vault epoch ek contents = Ok cf ->
  blen contents <= MAX_FILE_SIZE /\ length (cf_file_version_id cf) = 32%nat /\
  length (cf_file_version_key cf) = 32%nat /\ cf_raw_length cf = blen contents /\
  cf_padded_length cf = blen (pad contents) /\ cf_plaintext_sha256 cf = compute_digest contents /\
  Forall2 (fun ic c => encrypt_v1_chunk vault (cf_file_version_id cf) (cf_file_version_key cf) epoch
             (blen (raw_chunks env (pad contents))) ic = Ok c)
    (enumerate (raw_chunks env (pad contents))) (cf_chunks cf).
Proof.
  unfold chunk_and_encrypt_file. intros H. rewrite Z.gtb_ltb in H. res_inv. bool_prop.
  simpl. destruct derive_lengths as (H1 & _ & H3 & _).
  destruct (raw_chunks_spec env (pad contents)) as (_ & Hc & _). pose proof (pad_small contents Hb).
  rewrite wrap32_small in Hr0 by (pose proof (blen_nonneg (raw_chunks env (pad contents))); lia).
  apply try_map_ok in Hr0. repeat split; auto.
  unfold VaultEpochKey_derive_file_version_key in Hm. res_inv. eauto.
Qed.

Lemma chunk_v2_facts env vault epoch ek contents cf :
  chunk_and_encrypt_file_v2 env vault epoch ek contents = Ok cf ->
  blen contents <= MAX_FILE_SIZE /\
  cf_file_version_key cf = derive_v2_chunk_domain_key ek vault epoch /\
  cf_file_version_id cf = derive_v2_file_version_id (derive_v2_chunk_domain_key ek vault epoch) vault
                            epoch (compute_digest contents) /\
  cf_raw_length cf = blen contents /\
  cf_padded_length cf = blen (pad contents) /\ cf_plaintext_sha256 cf = compute_digest contents /\
  Forall2 (fun raw c => encrypt_v2_chunk (derive_v2_chunk_domain_key ek vault epoch) vault epoch raw = Ok c)
    (raw_chunks env (pad contents)) (cf_chunks cf).
Proof.
  unfold chunk_and_encrypt_file_v2. intros H. rewrite Z.gtb_ltb in H. res_inv. bool_prop.
  apply try_map_ok in Hr. simpl. auto 10.
Qed.

(** The indexed chunks of one file. *)
Definition indexed (m : gmap bytes Chunk.ChunkWireObject) (cs : list Chunk.ChunkWireObject) : Prop :=
  forall c cid, c ∈ cs -> Chunk.compute_cid c = Ok cid -> m !! cid = Some c.

Lemma cids_spec (cs : list Chunk.ChunkWireObject) cids :
  try_map (fun c => map_err SnapshotFormat (Chunk.compute_cid c)) cs = Ok cids ->
  Forall2 (fun c cid => Chunk.compute_cid c = Ok cid) cs cids.
Proof.
  rewrite try_map_ok. intros H. eapply Forall2_impl; [exact H|]. simpl. intros c cid E. by res_inv.
Qed.

Lemma lookup3 {A B C : Type} (P : A -> B -> Prop) (Q : B -> C -> Prop) xs ys zs i x z :
  Forall2 P xs ys -> Forall2 Q ys zs -> xs !! i = Some x -> zs !! i = Some z ->
  exists y, y ∈ ys /\ P x y /\ Q y z.
Proof.
  intros HP HQ Hx Hz. destruct (Forall2_lookup_l _ _ _ _ _ HP Hx) as (y & Hy & Hp).
  destruct (Forall2_lookup_l _ _ _ _ _ HQ Hy) as (z' & Hz' & Hq). simplify_eq.
  exists y. split; [by eapply list_elem_of_lookup_2|done].
Qed.

Lemma loop_v1 env vault epoch ek contents cf cids m rel fid dk :
  chunk_and_encrypt_file env vault epoch ek contents = Ok cf ->
  Forall2 (fun c cid => Chunk.compute_cid c = Ok cid) (cf_chunks cf) cids -> indexed m (cf_chunks cf) ->
  exists ver, (ver = None \/ ver = Some PROTOCOL_VERSION) /\
  try_fold (restore_chunk dk vault epoch m (file_entry rel fid cf cids)) ([], None) (enumerate cids)
  = Ok (pad contents, ver).
Proof.
  intros Hcf Hcids Hm. destruct (chunk_v1_facts _ _ _ _ _ _ Hcf) as (Hmax & Hf & Hk & Hr & Hp & Hs & Hc).
  set (raws := raw_chunks env (pad contents)) in *.
  destruct (raw_chunks_spec env (pad contents)) as (Hcat & Hcount & Hsize).
  pose proof (pad_small contents Hmax) as Hsmall. fold raws in Hcat, Hcount, Hsize.
  assert (length cids = length raws) as Hlen.
  { rewrite <- (Forall2_length _ _ _ Hcids), <- (Forall2_length _ _ _ Hc). apply length_imap. }
  eexists. split; cycle 1.
  - unfold enumerate. erewrite (assemble_loop _ PROTOCOL_VERSION (blen (pad contents)) raws cids 0);
      [by rewrite Hcat| done | by left | | rewrite Hcat; simpl; unfold blen; simpl; lia].
    intros i raw cid acc wv Hraw Hcid Hwv Hb. simpl plus.
    assert (enumerate raws !! i = Some (i, raw)) as Hi.
    { unfold enumerate. by rewrite list_lookup_imap, Hraw. }
    destruct (lookup3 _ _ _ _ _ _ _ _ Hc Hcids Hi Hcid) as (c & Hin & He & Hid).
    assert (Chunk.version c = PROTOCOL_VERSION /\ Chunk.vault_id c = vault /\
            Chunk.key_epoch c = epoch /\ Chunk.file_version_id c = cf_file_version_id cf /\
            Chunk.declared_padded_length c = blen raw) as (Hv & Hva & Hep & Hfv & Hd).
    { pose proof He as He'. unfold encrypt_v1_chunk in He'. res_inv. simpl. rewrite wrap32_small; [done|].
      rewrite Forall_lookup in Hsize. specialize (Hsize _ _ Hraw). pose proof (blen_nonneg raw). lia. }
    rewrite <- Hv. apply restore_chunk_step; rewrite ?Hv; auto; [by rewrite Hfv| |simpl; lia].
    cbn [Z.eqb Pos.eqb PROTOCOL_VERSION]. eapply open_v1_encrypted; [exact He| | | |].
    + apply lookup_lt_Some in Hraw. unfold blen in *. lia.
    + done.
    + done.
    + simpl. unfold blen. by rewrite Hlen.
  - destruct raws; auto.
Qed.

Lemma loop_v2 env vault epoch ek contents cf cids m rel fid :
  chunk_and_encrypt_file_v2 env vault epoch ek contents = Ok cf ->
  Forall2 (fun c cid => Chunk.compute_cid c = Ok cid) (cf_chunks cf) cids -> indexed m (cf_chunks cf) ->
  exists ver,
  try_fold (restore_chunk (derive_v2_chunk_domain_key ek vault epoch) vault epoch m
              (file_entry rel fid cf cids)) ([], None) (enumerate cids)
  = Ok (pad contents, ver).
Proof.
  intros Hcf Hcids Hm. destruct (chunk_v2_facts _ _ _ _ _ _ Hcf) as (Hmax & Hk & Hf & Hr & Hp & Hs & Hc).
  set (raws := raw_chunks env (pad contents)) in *.
  destruct (raw_chunks_spec env (pad contents)) as (Hcat & Hcount & Hsize).
  pose proof (pad_small contents Hmax) as Hsmall. fold raws in Hcat, Hcount, Hsize.
  assert (length cids = length raws) as Hlen.
  { by rewrite <- (Forall2_length _ _ _ Hcids), <- (Forall2_length _ _ _ Hc). }
  eexists. unfold enumerate.
  erewrite (assemble_loop _ CHUNK_WIRE_VERSION_V2 (blen (pad contents)) raws cids 0);
    [by rewrite Hcat| done | by left | | rewrite Hcat; simpl; unfold blen; simpl; lia].
  intros i raw cid acc wv Hraw Hcid Hwv Hb. simpl plus.
  destruct (lookup3 _ _ _ _ _ _ _ _ Hc Hcids Hraw Hcid) as (c & Hin & He & Hid).
  assert (Chunk.version c = CHUNK_WIRE_VERSION_V2 /\ Chunk.vault_id c = vault /\
          Chunk.key_epoch c = epoch /\ length (Chunk.file_version_id c) = 32%nat /\
          Chunk.declared_padded_length c = blen raw) as (Hv & Hva & Hep & Hfv & Hd).
  { pose proof He as He'. unfold encrypt_v2_chunk in He'.
    destruct (derive_v2_chunk_key_nonce _ _ _ _). res_inv. simpl. rewrite wrap32_small; [repeat split; apply hkdf_length|].
    rewrite Forall_lookup in Hsize. specialize (Hsize _ _ Hraw). pose proof (blen_nonneg raw). lia. }
  rewrite <- Hv. apply restore_chunk_step; rewrite ?Hv; auto; [|simpl; lia].
  cbn [Z.eqb Pos.eqb PROTOCOL_VERSION CHUNK_WIRE_VERSION_V2]. by apply open_v2_encrypted.
Qed.

(** The version-dependent encryption step of capture. *)
Definition encrypt_file (wv : ChunkWriteVersion) (env : option str) (vault : bytes) (epoch : Z)
  (ek contents : bytes) : result SnapshotError ChunkedFile :=
  match wv with
  | LegacyV1 => chunk_and_encrypt_file env vault epoch ek contents
  | V2 => chunk_and_encrypt_file_v2 env vault epoch ek contents
  end.

Lemma restore_captured_entry wv env vault epoch ek contents cf cids m rel fid :
  encrypt_file wv env vault epoch ek contents = Ok cf ->
  Forall2 (fun c cid => Chunk.compute_cid c = Ok cid) (cf_chunks cf) cids -> indexed m (cf_chunks cf) ->
  validate_safe_relative_path rel = Ok tt ->
  restore_entry (derive_v2_chunk_domain_key ek vault epoch) vault epoch m (file_entry rel fid cf cids)
  = Ok (Some {| df_relative_path := replace_char BACKSLASH SLASH rel; df_plaintext := contents |}).
Proof.
  intros Hcf Hcids Hm Hrel. apply validate_replaced in Hrel. destruct wv; simpl in Hcf.
  - destruct (chunk_v1_facts _ _ _ _ _ _ Hcf) as (Hmax & Hf & Hk & Hr & Hp & Hs & Hc).
    destruct (loop_v1 _ _ _ _ _ _ _ _ rel fid (derive_v2_chunk_domain_key ek vault epoch) Hcf Hcids Hm)
      as (ver & Hver & Hloop).
    eapply (restore_entry_assembled _ _ _ _ (file_entry rel fid cf cids)); eauto.
    intros ->. by destruct Hver.
  - destruct (chunk_v2_facts _ _ _ _ _ _ Hcf) as (Hmax & Hk & Hf & Hr & Hp & Hs & Hc).
    destruct (loop_v2 _ _ _ _ _ _ _ _ rel fid Hcf Hcids Hm) as (ver & Hloop).
    eapply (restore_entry_assembled _ _ _ _ (file_entry rel fid cf cids)); eauto.
    simpl. rewrite Hk. apply hkdf_length.
Qed.

(** ** The index *)

Lemma index_fold cs : forall m0,
  Forall (fun c => exists cid, Chunk.compute_cid c = Ok cid) cs ->
  exists m, try_fold index_chunk m0 cs = Ok m /\
    forall cid, (exists c, c ∈ cs /\ Chunk.compute_cid c = Ok cid /\ m !! cid = Some c) \/
                (m !! cid = m0 !! cid /\ forall c, c ∈ cs -> Chunk.compute_cid c <> Ok cid).
Proof.
  induction cs as [|c cs IH]; intros m0 Hall; [exists m0; split; [done|]; right; set_solver|].
  apply Forall_cons in Hall as ((cid0 & Hc) & Hall). cbn [try_fold].
  unfold index_chunk at 1. rewrite Hc. simpl.
  destruct (IH (<[cid0:=c]> m0) Hall) as (m & E & Hm). exists m. split; [done|]. intros cid.
  destruct (Hm cid) as [(c' & Hin & Hc' & Hl)|(Hl & Hno)]; [left; exists c'; set_solver|].
  destruct (decide (cid0 = cid)) as [->|Hne].
  - left. exists c. rewrite lookup_insert in Hl. rewrite decide_True in Hl by done. set_solver.
  - right. rewrite lookup_insert_ne in Hl by done. split; [done|].
    intros c'' [->|Hin]%elem_of_cons; [congruence|by apply Hno].
Qed.

(** No two different chunks of a list share a content identifier. *)
Definition cids_unique (cs : list Chunk.ChunkWireObject) : Prop :=
  forall c c', c ∈ cs -> c' ∈ cs -> Chunk.compute_cid c = Chunk.compute_cid c' ->
    is_ok (Chunk.compute_cid c) = true -> c = c'.

(** Two chunks of a list whose different encodings have the same hash. *)
Definition chunk_collision (cs : list Chunk.ChunkWireObject) : Prop :=
  exists c c' b b', c ∈ cs /\ c' ∈ cs /\ to_canonical_cbor c = Ok b /\ to_canonical_cbor c' = Ok b' /\
    b <> b' /\ sha256 b = sha256 b'.

Lemma cid_clash cs c c' cid : c ∈ cs -> c' ∈ cs -> c <> c' ->
  Chunk.compute_cid c = Ok cid -> Chunk.compute_cid c' = Ok cid -> chunk_collision cs.
Proof.
  intros Hc Hc' Hne E E'. unfold Chunk.compute_cid in E, E'. apply res_bind_ok in E as (b & Eb & E).
  apply res_bind_ok in E' as (b' & Eb' & E'). exists c, c', b, b'. split_and!; [done..| |].
  - intros <-. apply Hne. apply canonical_roundtrip in Eb, Eb'. congruence.
  - unfold compute_digest in *. congruence.
Qed.

Lemma cids_unique_or_collision cs : cids_unique cs \/ chunk_collision cs.
Proof.
  set (clash := fun c c' => c <> c' /\
                 match Chunk.compute_cid c, Chunk.compute_cid c' with
                 | Ok x, Ok y => x = y | _, _ => False end).
  assert (forall c c', Decision (clash c c')) as Hd.
  { intros c c'. unfold clash. destruct (Chunk.compute_cid c), (Chunk.compute_cid c'); apply _. }
  destruct (decide (Exists (fun c => Exists (clash c) cs) cs)) as [He|Hne].
  - right. apply Exists_exists in He as (c & Hc & (c' & Hc' & Hne & Hx)%Exists_exists).
    destruct (Chunk.compute_cid c) eqn:E, (Chunk.compute_cid c') eqn:E'; try done. subst.
    by apply (cid_clash cs c c' _ Hc Hc' Hne E E').
  - left. intros c c' Hc Hc' Heq Hok. destruct (decide (c = c')) as [|Hn]; [done|]. exfalso.
    apply Hne. apply Exists_exists. exists c. split; [done|]. apply Exists_exists. exists c'.
    split; [done|]. unfold clash. rewrite <- Heq. by destruct (Chunk.compute_cid c).
Qed.

Lemma index_chunks_spec cs :
  Forall (fun c => exists cid, Chunk.compute_cid c = Ok cid) cs -> cids_unique cs ->
  exists m, index_chunks cs = Ok m /\ indexed m cs.
Proof.
  intros Hall Hu. destruct (index_fold cs ∅ Hall) as (m & E & Hm). exists m. split; [done|].
  intros c cid Hin Hc. destruct (Hm cid) as [(c' & Hin' & Hc' & Hl)|(_ & Hno)].
  - rewrite Hl. f_equal. symmetry. apply Hu; [done..|congruence|by rewrite Hc].
  - by destruct (Hno c Hin).
Qed.

(** ** The whole capture *)

(** What a tracked file should decrypt to: nothing for a deleted file, and the
    bytes of its coherent read under its normalized path otherwise. *)
Definition captured (canonical_root : list str) (t : Tracked) : option DecryptedFile :=
  if fp_exists (t_probe t) then
    match read_tracked canonical_root (t_path t) (t_probe t) with
    | Ok contents => Some {| df_relative_path := replace_char BACKSLASH SLASH (t_path t);
                             df_plaintext := contents |}
    | Err _ => None
    end
  else None.

Definition has_cid (c : Chunk.ChunkWireObject) : Prop := exists cid, Chunk.compute_cid c = Ok cid.

Lemma capture_file_step env vault epoch ek wv root st t st' :
  capture_file env vault epoch ek wv root st t = Ok st' ->
  exists cs entry, all_chunks st' = all_chunks st ++ cs /\
    manifest_entries st' = manifest_entries st ++ [entry] /\ Forall has_cid cs /\
    all_chunk_cids st' = all_chunk_cids st ++ Manifest.chunk_cids entry /\
    Forall2 (fun c cid => Chunk.compute_cid c = Ok cid) cs (Manifest.chunk_cids entry) /\
    forall m, indexed m cs ->
      restore_entry (derive_v2_chunk_domain_key ek vault epoch) vault epoch m entry
      = Ok (captured root t).
Proof.
  unfold capture_file. intros H. apply res_bind_ok in H as ([] & Hrel & H).
  apply res_bind_ok in H as (u & _ & H). unfold captured.
  destruct (fp_exists (t_probe t)); cbn [negb] in H.
  - apply res_bind_ok in H as (contents & Hread & H). rewrite Hread.
    apply res_bind_ok in H as (cf & Hcf & H). apply res_bind_ok in H as (cids & Hcids & H).
    res_inv. apply cids_spec in Hcids. exists (cf_chunks cf), (file_entry (t_path t) (t_file_id t) cf cids).
    repeat split; [|exact Hcids|].
    + apply Forall_forall. intros c Hc. apply list_elem_of_lookup in Hc as (i & Hi).
      destruct (Forall2_lookup_l _ _ _ _ _ Hcids Hi) as (cid & _ & ?). by exists cid.
    + intros m Hm. by apply (restore_captured_entry wv env).
  - res_inv. exists [], (tombstone (t_path t) (t_file_id t)). simpl. rewrite !app_nil_r.
    repeat split; constructor.
Qed.

Lemma capture_fold env vault epoch ek wv root tracked : forall st st',
  try_fold (capture_file env vault epoch ek wv root) st tracked = Ok st' ->
  exists cs entries, all_chunks st' = all_chunks st ++ cs /\
    manifest_entries st' = manifest_entries st ++ entries /\ Forall has_cid cs /\
    forall m, indexed m cs ->
      try_map (restore_entry (derive_v2_chunk_domain_key ek vault epoch) vault epoch m) entries
      = Ok (captured root <$> tracked).
Proof.
  induction tracked as [|t tracked IH]; intros st st' H.
  - injection H as <-. exists [], []. rewrite !app_nil_r. repeat split; constructor.
  - cbn [try_fold] in H. apply res_bind_ok in H as (st1 & H1 & H).
    apply capture_file_step in H1 as (cs1 & e & Hc1 & He1 & Hcid1 & _ & _ & Hm1).
    apply IH in H as (cs & es & Hc & He & Hcid & Hm). exists (cs1 ++ cs), (e :: es).
    rewrite Hc, Hc1, He, He1, <- !app_assoc. repeat split; [by apply Forall_app|].
    intros m Hall. cbn [try_map]. rewrite Hm1; [|intros c cid Hin; apply Hall; set_solver].
    cbn [res_bind]. rewrite Hm; [done|intros c cid Hin; apply Hall; set_solver].
Qed.

Lemma omap_id_fmap {A B : Type} (f : A -> option B) (l : list A) : omap id (f <$> l) = omap f l.
Proof.
  induction l as [|a l IH]; [done|]. rewrite fmap_cons. cbn [omap list_omap]. unfold id at 1.
  by destruct (f a); rewrite IH.
Qed.
End Roundtrip.

Lemma capture_decrypts
  {XC : XChaCha} {XL : XChaChaLaws XC} {B2 : Blake2b512} {BL : Blake2b512Laws B2}
  {HK : HkdfSha256} {KL : HkdfSha256Laws HK} {SH : Sha256} {SL : Sha256Laws SH} {HX : Hex}
  {ED : Ed25519} {CC : Cbor Chunk.ChunkWireObject} {CCL : CborLaws _ CC}
  {CM : Cbor Manifest.SnapshotManifest} {CML : CborLaws _ CM} {CS : Cbor Snapshot.SnapshotRecord}
  {M : Type} {HM : HardwareSecurityModule M}
  env links root sid nonce now tracked vault epoch ek parents dev ctr gen (signer : DeviceSigner M) wv out :
  length nonce = 24%nat ->
  create_snapshot_with_signer_and_write_version env links (Ok root) sid nonce now tracked vault epoch
    ek parents dev ctr gen signer wv = Ok out ->
  decrypt_snapshot vault ek epoch (so_encrypted_manifest out) (so_chunks out)
    = Ok (omap (captured root) tracked)
  \/ chunk_collision (so_chunks out).
Proof.
  intros Hn H. unfold create_snapshot_with_signer_and_write_version in H.
  apply res_bind_ok in H as (u & _ & H). cbn [io map_err res_bind] in H.
  apply res_bind_ok in H as (st & Hst & H). apply capture_fold in Hst as (cs & es & Hcs & Hes & Hcid & Hm).
  simpl in Hcs, Hes. subst cs es. res_inv. simpl.
  destruct (cids_unique_or_collision (all_chunks st)) as [Hu|]; [left|by right].
  destruct (index_chunks_spec _ Hcid Hu) as (m & Ei & Hind).
  unfold decrypt_snapshot. cbn [crypto map_err res_bind].
  match goal with H : to_canonical_cbor _ = Ok _ |- _ => apply canonical_roundtrip in H end.
  unfold derive_manifest_key in *.
  destruct (derive_subkey ek epoch CTX_MANIFEST_KEY) as [mk|] eqn:Ek; [|done].
  simplify_eq. cbn [crypto map_err res_bind].
  erewrite (proj2 (decrypt_chunk_ok _ _ _ _)); [|by eauto]. cbn [crypto map_err res_bind].
  match goal with H : from_canonical_cbor _ = Ok _ |- _ => rewrite H end. cbn [map_err res_bind Manifest.version Manifest.vault_id Manifest.epoch Manifest.files].
  rewrite bool_decide_true, !Z.eqb_refl by done. cbn [negb orb].
  rewrite Ei. cbn [res_bind]. rewrite (Hm m Hind). cbn [res_bind]. by rewrite omap_id_fmap.
Qed.

(** C3: decrypting a fresh snapshot with the vault's epoch key returns exactly
    the files that capture read, in order, under their normalized paths, with
    deleted files left out, whatever the write version, chunking profile and
    signer; the only escape is that the capture itself holds two chunks with
    different encodings and the same SHA-256. *)
Theorem capture_decrypt_roundtrip
  {XC : XChaCha} {XL : XChaChaLaws XC} {B2 : Blake2b512} {BL : Blake2b512Laws B2}
  {HK : HkdfSha256} {KL : HkdfSha256Laws HK} {SH : Sha256} {SL : Sha256Laws SH} {HX : Hex}
  {ED : Ed25519} {CC : Cbor Chunk.ChunkWireObject} {CCL : CborLaws _ CC}
  {CM : Cbor Manifest.SnapshotManifest} {CML : CborLaws _ CM} {CS : Cbor Snapshot.SnapshotRecord}
  {M : Type} {HM : HardwareSecurityModule M}
  env links root sid nonce now tracked vault epoch ek parents dev ctr gen (signer : DeviceSigner M) wv out :
  length nonce = 24%nat ->
  create_snapshot_with_signer_and_write_version env links (Ok root) sid nonce now tracked vault epoch
    ek parents dev ctr gen signer wv = Ok out ->
  decrypt_snapshot vault ek epoch (so_encrypted_manifest out) (so_chunks out)
    = Ok (omap (captured root) tracked)
  \/ chunk_collision (so_chunks out).
Proof. apply capture_decrypts. Qed.

Definition sample_stat : Stat := {| st_len := 5; st_modified := Ok 100; st_dev := 1; st_ino := 2 |}.
Definition sample_probe (exists_ : bool) (contents : bytes) : FileProbe :=
  {| fp_display := lit "/v/notes\a.txt"; fp_links := [(lit "/v", Regular)]; fp_exists := exists_;
     fp_canonical := Ok [lit "v"; lit "notes"; lit "a.txt"]; fp_open := Ok tt;
     fp_pre_stat := Ok sample_stat; fp_read := fun _ => Ok contents; fp_post_stat := Ok sample_stat;
     fp_links_after := []; fp_canonical_after := Ok [lit "v"; lit "notes"; lit "a.txt"];
     fp_path_stat := Ok sample_stat |}.
Definition sample_tracked : list Tracked :=
  [{| t_path := lit "notes\a.txt"; t_file_id := replicate 32 1; t_probe := sample_probe true (lit "hello") |};
   {| t_path := lit "gone.txt"; t_file_id := replicate 32 2; t_probe := sample_probe false [] |};
   {| t_path := lit ".env"; t_file_id := replicate 32 3; t_probe := sample_probe true [] |}].

Abbreviation sample_capture wv :=
  (create_snapshot_with_signer_and_write_version None [] (Ok [lit "v"]) (replicate 32 9) (replicate 24 8)
    1700000000 sample_tracked (replicate 32 7) 3 (replicate 32 6) [] (replicate 32 5) 1 0
    (Software (M := SoftwareHsmSimulator) (replicate 32 4)) wv).

Definition sample_restore (wv : ChunkWriteVersion) : result SnapshotError (list DecryptedFile) :=
  let? out := sample_capture wv in
  decrypt_snapshot (replicate 32 7) (replicate 32 6) 3 (so_encrypted_manifest out) (so_chunks out).

(** The files that come back are the two that exist, for both versions. *)
Lemma sample_restore_evaluates wv :
  match sample_restore wv with Ok files => files | Err _ => [] end
  = [{| df_relative_path := lit "notes/a.txt"; df_plaintext := lit "hello" |};
     {| df_relative_path := lit ".env"; df_plaintext := [] |}].
Proof. destruct wv; vm_compute; reflexivity. Qed.

Lemma sample_run wv : exists out files, sample_capture wv = Ok out /\
  decrypt_snapshot (replicate 32 7) (replicate 32 6) 3 (so_encrypted_manifest out) (so_chunks out)
  = Ok files /\ length files = 2%nat.
Proof.
  pose proof (sample_restore_evaluates wv) as Hr. unfold sample_restore in Hr.
  destruct (sample_capture wv) as [out|]; [|discriminate Hr]. cbn [res_bind] in Hr.
  destruct (decrypt_snapshot _ _ _ _ _) as [files|] eqn:F; [|discriminate Hr].
  exists out, files. split; [done|]. split; [exact F|]. by rewrite Hr.
Qed.

Lemma capture_decrypt_roundtrip_witness :
  exists out, sample_capture V2 = Ok out /\
  (decrypt_snapshot (replicate 32 7) (replicate 32 6) 3 (so_encrypted_manifest out) (so_chunks out)
   = Ok (omap (captured [lit "v"]) sample_tracked) \/ chunk_collision (so_chunks out)).
Proof.
  destruct (sample_run V2) as (out & _ & E & _). exists out. split; [exact E|].
  refine (capture_decrypt_roundtrip _ _ _ _ _ _ _ _ _ _ _ _ _ _ _ _ _ _ E). reflexivity.
Defined.

(** ** Whatever decryption returns is what the manifest describes *)

(** A returned file against its manifest entry. *)
Definition authentic `{Sha256} (entry : Manifest.ManifestFileEntry) (f : DecryptedFile) : Prop :=
  df_relative_path f = Manifest.relative_path entry /\
  validate_safe_relative_path (df_relative_path f) = Ok tt /\
  compute_digest (df_plaintext f) = Manifest.plaintext_sha256 entry /\
  (is_u64 (Manifest.raw_length entry) -> blen (df_plaintext f) = Manifest.raw_length entry) /\
  blen (df_plaintext f) <= MAX_RESTORE_FILE_SIZE.

Section Sound.
Context {XC : XChaCha} {B2 : Blake2b512} {HK : HkdfSha256} {SH : Sha256} {HX : Hex}
  {CC : Cbor Chunk.ChunkWireObject} {CM : Cbor Manifest.SnapshotManifest}.

Lemma restore_entry_sound dk vault epoch m entry o :
  restore_entry dk vault epoch m entry = Ok o ->
  match o with
  | None => Manifest.is_deleted entry = true
  | Some f => Manifest.is_deleted entry = false /\ authentic entry f
  end.
Proof.
  unfold restore_entry. destruct (Manifest.is_deleted entry) eqn:Hd; [by intros [= <-]|].
  intros H. apply res_bind_ok in H as ([] & Hp & H). rewrite !Z.gtb_ltb in H.
  apply bail_ok in H as (_ & H). apply bail_ok in H as (Hmax & H). apply bail_ok in H as (Hle & H).
  apply res_bind_ok in H as ([assembled ver] & _ & H). apply bail_ok in H as (Hlen & H).
  apply bail_ok in H as (Hsha & H). apply bail_ok in H as (_ & H). injection H as <-. bool_prop.
  split; [done|]. unfold authentic, is_u64; simpl. unfold blen in *. rewrite length_take. repeat split; auto; lia.
Qed.

Lemma restore_entries_sound dk vault epoch m entries os :
  Forall2 (fun e o => restore_entry dk vault epoch m e = Ok o) entries os ->
  Forall2 authentic (filter (fun e => Manifest.is_deleted e = false) entries) (omap id os).
Proof.
  induction 1 as [|e o es os He _ IH]; [constructor|]. apply restore_entry_sound in He.
  destruct o as [f|].
  - destruct He as (Hd & Ha). rewrite filter_cons_True by done. cbn [omap list_omap id]. by constructor.
  - rewrite filter_cons_False by congruence. exact IH.
Qed.

Lemma decrypted_sizes vault ek epoch em chunks files :
  decrypt_snapshot vault ek epoch em chunks = Ok files ->
  Forall (fun f => blen (df_plaintext f) <= MAX_RESTORE_FILE_SIZE) files.
Proof.
  unfold decrypt_snapshot. intros H. apply res_bind_ok in H as (mk & _ & H).
  apply res_bind_ok in H as (mb & _ & H). apply res_bind_ok in H as (man & _ & H).
  apply bail_ok in H as (_ & H). apply res_bind_ok in H as (m & _ & H).
  apply res_bind_ok in H as (os & Hos & H). apply Ok_inj in H as <-.
  apply try_map_ok, restore_entries_sound in Hos. eapply Forall2_Forall_r; [exact Hos|].
  apply Forall_forall. intros e _ f Ha. apply Ha.
Qed.
End Sound.

(** C4: whatever bytes and chunks are offered, the files [decrypt_snapshot]
    returns are those of a manifest that authenticates under the epoch's manifest
    key for this vault and epoch: one file per live entry in order, with a safe
    path, the entry's SHA-256 digest and the entry's length. *)
Theorem decrypt_snapshot_sound
  {XC : XChaCha} {B2 : Blake2b512} {HK : HkdfSha256} {SH : Sha256} {HX : Hex}
  {CC : Cbor Chunk.ChunkWireObject} {CM : Cbor Manifest.SnapshotManifest}
  vault ek epoch em chunks files :
  decrypt_snapshot vault ek epoch em chunks = Ok files ->
  exists mk mb manifest, derive_manifest_key ek epoch = Ok mk /\
    decrypt_chunk mk em (manifest_aad vault epoch) = Ok mb /\
    from_canonical_cbor mb = Ok manifest /\
    Manifest.vault_id manifest = vault /\ Manifest.epoch manifest = epoch /\
    Forall2 authentic (filter (fun e => Manifest.is_deleted e = false) (Manifest.files manifest)) files.
Proof.
  unfold decrypt_snapshot. intros H. apply res_bind_ok in H as (mk & Hk & H).
  apply res_bind_ok in H as (mb & Hd & H). apply res_bind_ok in H as (man & Hc & H).
  apply bail_ok in H as (Hb & H). apply res_bind_ok in H as (m & _ & H).
  apply res_bind_ok in H as (os & Hos & H). apply Ok_inj in H as <-. bool_prop.
  apply try_map_ok, restore_entries_sound in Hos. unfold crypto in *. res_inv.
  exists mk, mb, man. auto 10.
Qed.

Lemma decrypt_snapshot_sound_witness :
  exists out files mk mb manifest, sample_capture V2 = Ok out /\ length files = 2%nat /\
    derive_manifest_key (replicate 32 6) 3 = Ok mk /\
    decrypt_chunk mk (so_encrypted_manifest out) (manifest_aad (replicate 32 7) 3) = Ok mb /\
    from_canonical_cbor mb = Ok manifest /\
    Manifest.vault_id manifest = replicate 32 7 /\ Manifest.epoch manifest = 3 /\
    Forall2 authentic (filter (fun e => Manifest.is_deleted e = false) (Manifest.files manifest)) files.
Proof.
  destruct (sample_run V2) as (out & files & E & F & Hlen).
  destruct (decrypt_snapshot_sound _ _ _ _ _ _ F) as (mk & mb & man & H1 & H2 & H3 & H4 & H5 & H6).
  exists out, files, mk, mb, man. auto 10.
Defined.
