(* ===== verification/Vouchers.v ===== *)
(** * Write vouchers and the spend ledger

    src/crates/storage/src/vouchers.rs: signed quota grants and the per-operator
    ledger that charges writes against them.  The two HashMaps are [gmap]s keyed
    by the text of a nonce or a holder key; [u64] counters use the saturating
    operations of the source.  JSON is an interface, since serde_json is a
    third-party crate. *)

From S2P Require Import Prelude Errors Primitives SamplePrimitives Crypto.

Definition VOUCHER_VERSION : Z := 1.

Definition forbidden (message : str) : StorageError := ServerError 403 message.

Definition valid_nonce_key (nonce : str) : bool :=
  (str_len nonce =? 64)
  && forallb (fun byte => is_ascii_hexdigit byte && negb (is_ascii_uppercase byte)) (as_bytes nonce).

(** The same rule serves vouchers and invites; [kind] is the word the message
    starts with. *)
Definition decode_canonical_hex_as `{Hex} (kind : str) (field what : str) (len : Z)
  : result StorageError bytes :=
  let? b := map_err (fun _ => forbidden (kind ++ lit " " ++ what ++ lit " must be hex"))
              (hex_decode field) in
  bail? negb (blen b =? len)
    with forbidden (kind ++ lit " " ++ what ++ lit " must be " ++ show_Z len ++ lit " bytes") ;;
  bail? negb (bool_decide (hex_encode b = field))
    with forbidden (kind ++ lit " " ++ what ++ lit " must be lowercase hex") ;;
  Ok b.

Definition decode_canonical_hex `{Hex} (field what : str) (len : Z) : result StorageError bytes :=
  decode_canonical_hex_as (lit "voucher") field what len.

Record WriteVoucher : Type := {
  v_version : Z; issuer_pk_hex : str; holder_pk_hex : str; quota_bytes : Z; expires_utc : Z;
  nonce_hex : str; signature_hex : str;
}.

Definition voucher_domain : bytes := lit "operator_write_voucher".

Section Voucher.
Context {HX : Hex} {ED : Ed25519}.

Definition signing_bytes (self : WriteVoucher) : bytes :=
  lit "ciphervault-write-voucher-v1:" ++ to_le_bytes 4 (v_version self) ++ lit ":"
  ++ as_bytes (issuer_pk_hex self) ++ lit ":" ++ as_bytes (holder_pk_hex self) ++ lit ":"
  ++ to_le_bytes 8 (quota_bytes self) ++ lit ":" ++ to_le_bytes 8 (expires_utc self) ++ lit ":"
  ++ as_bytes (nonce_hex self).

Definition with_voucher_signature (v : WriteVoucher) (sig : str) : WriteVoucher :=
  {| v_version := v_version v; issuer_pk_hex := issuer_pk_hex v; holder_pk_hex := holder_pk_hex v;
     quota_bytes := quota_bytes v; expires_utc := expires_utc v; nonce_hex := nonce_hex v;
     signature_hex := sig |}.

(** [nonce] is drawn at random; [now] is the clock. *)
Definition issue (nonce : bytes) (now : Z) (issuer : bytes) (holder_pk_hex : str)
  (quota_bytes ttl_secs : Z) : result StorageError WriteVoucher :=
  let? holder := map_err (fun _ => forbidden (lit "voucher holder key must be hex"))
                   (hex_decode holder_pk_hex) in
  bail? negb (blen holder =? 32) with forbidden (lit "voucher holder key must be 32 bytes") ;;
  bail? quota_bytes =? 0 with forbidden (lit "voucher quota must be positive") ;;
  bail? ttl_secs =? 0 with forbidden (lit "voucher TTL must be positive") ;;
  let voucher :=
    {| v_version := VOUCHER_VERSION; issuer_pk_hex := hex_encode (verifying_key issuer);
       holder_pk_hex := holder_pk_hex; quota_bytes := quota_bytes;
       expires_utc := sat_add64 now ttl_secs; nonce_hex := hex_encode nonce; signature_hex := [] |} in
  let sig := sign_with_domain issuer voucher_domain (signing_bytes voucher) in
  Ok (with_voucher_signature voucher (hex_encode sig)).

Definition verify (self : WriteVoucher) (expected_issuer_pk_hex : str) (now_utc : Z)
  : result StorageError unit :=
  bail? negb (v_version self =? VOUCHER_VERSION)
    with forbidden (lit "unsupported voucher version " ++ show_Z (v_version self)) ;;
  bail? negb (eq_ignore_ascii_case (issuer_pk_hex self) expected_issuer_pk_hex)
    with forbidden (lit "voucher issuer mismatch") ;;
  let? issuer := decode_canonical_hex (issuer_pk_hex self) (lit "issuer key") 32 in
  let? _ := decode_canonical_hex (holder_pk_hex self) (lit "holder key") 32 in
  let? _ := decode_canonical_hex (nonce_hex self) (lit "nonce") 32 in
  let? sig := decode_canonical_hex (signature_hex self) (lit "signature") 64 in
  let? _ := map_err (fun _ => forbidden (lit "voucher signature verification failed"))
              (verify_with_domain issuer voucher_domain (signing_bytes self) sig) in
  bail? quota_bytes self =? 0 with forbidden (lit "voucher quota must be positive") ;;
  bail? now_utc >? expires_utc self with forbidden (lit "voucher expired") ;;
  Ok tt.
End Voucher.

(** ** The ledger *)

Record VoucherCharge : Type := {
  c_quota_bytes : Z; c_expires_utc : Z; c_spent_bytes : Z; c_holder_pk_hex : str;
}.
#[global] Instance VoucherCharge_eq_dec : EqDecision VoucherCharge.
Proof. solve_decision. Defined.

Record VoucherLedger : Type := {
  max_quota_bytes : Z;
  user_quota_bytes : Z;
  spent : gmap str VoucherCharge;
  holder_spent : gmap str Z;
}.

Definition new (max_quota_bytes : Z) : VoucherLedger :=
  {| max_quota_bytes := max_quota_bytes; user_quota_bytes := 0; spent := ∅; holder_spent := ∅ |}.

Definition set_max_quota (m : Z) (self : VoucherLedger) : VoucherLedger :=
  {| max_quota_bytes := m; user_quota_bytes := user_quota_bytes self; spent := spent self;
     holder_spent := holder_spent self |}.
Definition set_user_quota_bytes (q : Z) (self : VoucherLedger) : VoucherLedger :=
  {| max_quota_bytes := max_quota_bytes self; user_quota_bytes := q; spent := spent self;
     holder_spent := holder_spent self |}.
Definition with_maps (s : gmap str VoucherCharge) (h : gmap str Z) (self : VoucherLedger) : VoucherLedger :=
  {| max_quota_bytes := max_quota_bytes self; user_quota_bytes := user_quota_bytes self;
     spent := s; holder_spent := h |}.

Definition prune_expired (now_utc : Z) (self : VoucherLedger) : VoucherLedger :=
  with_maps (filter (fun kv => c_expires_utc kv.2 >= now_utc) (spent self)) (holder_spent self) self.

Definition charge_with_spent (c : VoucherCharge) (s : Z) : VoucherCharge :=
  {| c_quota_bytes := c_quota_bytes c; c_expires_utc := c_expires_utc c; c_spent_bytes := s;
     c_holder_pk_hex := c_holder_pk_hex c |}.

Definition fresh_charge (v : WriteVoucher) : VoucherCharge :=
  {| c_quota_bytes := quota_bytes v; c_expires_utc := expires_utc v; c_spent_bytes := 0;
     c_holder_pk_hex := holder_pk_hex v |}.

(** The outcome and the ledger afterwards: pruning happens before the checks,
    so it stays even when the charge is refused. *)
Definition try_consume `{Hex, Ed25519} (voucher : WriteVoucher) (expected_issuer_pk_hex : str)
  (now_utc bytes : Z) (self : VoucherLedger) : result StorageError unit * VoucherLedger :=
  let self := prune_expired now_utc self in
  let outcome :=
    let? _ := verify voucher expected_issuer_pk_hex now_utc in
    bail? quota_bytes voucher >? max_quota_bytes self
      with forbidden (lit "voucher quota exceeds operator maximum") ;;
    let '(pinned_quota, pinned_expiry, pinned_spent) :=
      match spent self !! nonce_hex voucher with
      | Some entry => (c_quota_bytes entry, c_expires_utc entry, c_spent_bytes entry)
      | None => (quota_bytes voucher, expires_utc voucher, 0)
      end in
    bail? negb (pinned_quota =? quota_bytes voucher) || negb (pinned_expiry =? expires_utc voucher)
      with forbidden (lit "voucher terms changed for nonce") ;;
    bail? sat_add64 pinned_spent bytes >? pinned_quota
      with ServerError 429 (lit "voucher quota exhausted") ;;
    let holder_total := default 0 (holder_spent self !! holder_pk_hex voucher) in
    bail? (user_quota_bytes self >? 0) && (sat_add64 holder_total bytes >? user_quota_bytes self)
      with ServerError 429 (lit "user quota exhausted") ;;
    let holder_spent' := <[holder_pk_hex voucher := sat_add64 holder_total bytes]> (holder_spent self) in
    let entry := default (fresh_charge voucher) (spent self !! nonce_hex voucher) in
    let spent' := <[nonce_hex voucher :=
                      charge_with_spent entry (sat_add64 (c_spent_bytes entry) bytes)]> (spent self) in
    Ok (with_maps spent' holder_spent' self) in
  match outcome with
  | Ok self' => (Ok tt, self')
  | Err e => (Err e, self)
  end.

Definition release (nonce_hex : str) (bytes : Z) (self : VoucherLedger) : VoucherLedger :=
  match spent self !! nonce_hex with
  | None => self
  | Some entry =>
      let released := Z.min bytes (c_spent_bytes entry) in
      let spent' := <[nonce_hex := charge_with_spent entry (c_spent_bytes entry - released)]> (spent self) in
      let holder := c_holder_pk_hex entry in
      if bool_decide (holder = []) then with_maps spent' (holder_spent self) self
      else match holder_spent self !! holder with
           | Some total =>
               let total' := sat_sub total released in
               with_maps spent'
                 (if total' =? 0 then delete holder (holder_spent self)
                  else <[holder := total']> (holder_spent self)) self
           | None => with_maps spent' (holder_spent self) self
           end
  end.

(** ** Persistence *)

Record PersistedVoucherLedger : Type := {
  p_version : Z;
  p_spent : gmap str VoucherCharge;
  p_holder_spent : gmap str Z;
}.

(** A parsed file: an object with a version field, which then decodes as the
    struct or not, or a bare map of charges from before the field existed. *)
Inductive LedgerValue : Type :=
| Versioned (stored : result string PersistedVoucherLedger)
| Unversioned (charges : result string (gmap str VoucherCharge)).

Class LedgerJson : Type := {
  ledger_to_vec : PersistedVoucherLedger -> result string bytes;
  ledger_from_slice : bytes -> result string LedgerValue;
}.
Class LedgerJsonLaws (J : LedgerJson) : Prop := {
  ledger_json_roundtrip : forall p b,
    ledger_to_vec p = Ok b -> ledger_from_slice b = Ok (Versioned (Ok p));
}.

Definition encode `{LedgerJson} (self : VoucherLedger) : result string bytes :=
  ledger_to_vec {| p_version := 2; p_spent := spent self; p_holder_spent := holder_spent self |}.

Definition add_active (totals : gmap str Z) (charge : VoucherCharge) : gmap str Z :=
  if bool_decide (c_holder_pk_hex charge = []) then totals
  else <[c_holder_pk_hex charge :=
           sat_add64 (default 0 (totals !! c_holder_pk_hex charge)) (c_spent_bytes charge)]> totals.
Definition active_totals (charges : list VoucherCharge) : gmap str Z := foldl add_active ∅ charges.

Definition charge_ok (kv : str * VoucherCharge) : bool :=
  valid_nonce_key kv.1 && (c_spent_bytes kv.2 <=? c_quota_bytes kv.2).

(** Entry by entry, [or_default] then [max]: a key-wise merge. *)
Definition merge_totals (totals active : gmap str Z) : gmap str Z :=
  merge (fun t a => match a with
                    | Some a => Some (Z.max (default 0 t) a)
                    | None => t
                    end) totals active.

Definition decode_into `{LedgerJson} (b : bytes) (self : VoucherLedger) : result string VoucherLedger :=
  let? value := ledger_from_slice b in
  let? parts :=
    match value with
    | Versioned stored =>
        let? stored := stored in
        bail? negb (p_version stored =? 2) with "Unsupported voucher ledger version"%string ;;
        bail? existsb (fun kv => negb (valid_nonce_key kv.1)) (map_to_list (p_holder_spent stored))
          with "Invalid holder key in ledger"%string ;;
        Ok (p_spent stored, p_holder_spent stored)
    | Unversioned charges => let? charges := charges in Ok (charges, ∅)
    end in
  let '(charges, totals) := parts : gmap str VoucherCharge * gmap str Z in
  bail? existsb (fun kv => negb (charge_ok kv)) (map_to_list charges)
    with "Invalid voucher charge in ledger"%string ;;
  let spent' := filter (fun kv => charge_ok kv = true) charges in
  let active := active_totals (snd <$> map_to_list spent') in
  Ok (with_maps spent' (merge_totals totals active) self).
