(* ===== verification/VouchersTheory.v ===== *)
(** * Theorems on vouchers and the ledger

    Which issued vouchers verify, that no history of charges and releases
    overspends a voucher or a user cap, that a refused charge changes nothing but
    expired entries, and that a restart loses no spend. *)

From S2P Require Import Prelude Errors Primitives SamplePrimitives Crypto Vouchers.

(** ** Canonical hex fields *)

Section CanonicalHex.
Context {HX : Hex} {HL : HexLaws HX}.

Lemma decode_canonical_hex_ok kind f what n b :
  decode_canonical_hex_as kind f what n = Ok b <-> f = hex_encode b /\ is_bytes b /\ blen b = n.
Proof.
  unfold decode_canonical_hex_as. split.
  - intros H. res_inv. bool_prop. apply hex_decode_lower in Hm as (? & _). auto.
  - intros (-> & Hb & Hn). rewrite hex_decode_encode by done. simpl.
    rewrite Hn, Z.eqb_refl, bool_decide_true by done. done.
Qed.

Lemma decode_canonical_encode kind what b n :
  is_bytes b -> length b = n -> decode_canonical_hex_as kind (hex_encode b) what (Z.of_nat n) = Ok b.
Proof. intros Hb <-. by apply decode_canonical_hex_ok. Qed.

Lemma lower_hex_ascii c : is_lower_hex c = true ->
  0 <= c < 128 /\ is_ascii_hexdigit c = true /\ is_ascii_uppercase c = false.
Proof.
  unfold is_lower_hex, is_ascii_hexdigit, is_ascii_digit, is_ascii_uppercase. lia.
Qed.

Lemma as_bytes_ascii s : Forall (fun c => 0 <= c < 128) s -> as_bytes s = s.
Proof.
  unfold as_bytes. induction 1 as [|c s Hc _ IH]; [done|]. rewrite bind_cons, IH. unfold utf8_char.
  by replace (c <? 128) with true by bool_lia.
Qed.

Lemma as_bytes_hex b : is_bytes b -> as_bytes (hex_encode b) = hex_encode b.
Proof.
  intros Hb. apply as_bytes_ascii. eapply Forall_impl; [apply hex_encode_digits, Hb|].
  simpl. intros c Hc. by apply lower_hex_ascii.
Qed.

Lemma canonical_valid_nonce b : is_bytes b -> blen b = 32 -> valid_nonce_key (hex_encode b) = true.
Proof.
  intros Hb Hl. unfold valid_nonce_key. rewrite <- as_bytes_len, as_bytes_hex by done.
  unfold blen in *. rewrite hex_encode_length by done.
  replace (Z.of_nat (2 * length b) =? 64) with true by bool_lia. simpl.
  apply forallb_forall. intros c Hc. apply list_elem_of_In in Hc.
  pose proof (hex_encode_digits b Hb) as Hd. rewrite Forall_forall in Hd.
  destruct (lower_hex_ascii c (Hd _ Hc)) as (_ & -> & ->). done.
Qed.

Lemma hex_encode_issuer b : is_bytes b -> eq_ignore_ascii_case (hex_encode b) (hex_encode b) = true.
Proof. intros _. unfold eq_ignore_ascii_case. by apply bool_decide_true. Qed.
End CanonicalHex.

(** An issued voucher verifies for its issuer exactly until its expiry and
    exactly when the holder key was given in lowercase: [issue] accepts a key in
    any letter case, and one with an uppercase digit yields a voucher that never
    verifies. *)
Theorem voucher_issue_verify {HX : Hex} {HL : HexLaws HX} {ED : Ed25519} {EL : Ed25519Laws ED}
  nonce now sk holder quota ttl v t :
  length nonce = 32%nat -> is_bytes nonce ->
  issue nonce now sk holder quota ttl = Ok v ->
  (verify v (hex_encode (verifying_key sk)) t = Ok tt <->
   t <= expires_utc v /\ to_ascii_lowercase <$> holder = holder).
Proof.
  intros Hn Hnb Hi. unfold issue in Hi. res_inv. bool_prop.
  pose proof (hex_decode_lower _ _ Hm) as (Hab & Hlow). unfold verify. simpl.
  rewrite hex_encode_issuer by apply verifying_key_bytes. simpl. rewrite Z.gtb_ltb.
  unfold decode_canonical_hex.
  change 32 with (Z.of_nat 32). change 64 with (Z.of_nat 64).
  rewrite (decode_canonical_encode _ _ (verifying_key sk)), (decode_canonical_encode _ _ nonce),
    (decode_canonical_encode _ _ (sign_with_domain _ _ _))
    by (done || apply verifying_key_bytes || apply verifying_key_length || apply ed_sign_bytes
        || apply ed_sign_length).
  cbn [res_bind]. change (signing_bytes (with_voucher_signature ?x _)) with (signing_bytes x).
  rewrite verify_sign_with_domain. cbn [map_err res_bind].
  split.
  - intros H. apply res_bind_ok in H as (b & Hb' & H). apply decode_canonical_hex_ok in Hb' as (-> & Hb' & _).
    res_inv. bool_prop. split; [done|]. by apply hex_encode_fixed.
  - intros (Ht & Hh). rewrite (proj2 (decode_canonical_hex_ok _ _ _ 32 a))
      by (rewrite <- Hlow, Hh; auto). cbn [res_bind].
    replace (quota =? 0) with false by bool_lia. by replace (_ <? t) with false by bool_lia.
Qed.

Abbreviation sample_voucher holder quota :=
  (issue (replicate 32 1) 1000 (replicate 32 2) holder quota 60).

Lemma voucher_issue_verify_witness :
  let lower := hex_encode (replicate 32 171) in
  let upper := to_ascii_uppercase <$> lower in
  (let? v := sample_voucher lower 100 in verify v (hex_encode (verifying_key (replicate 32 2))) 1060) = Ok tt
  /\ is_ok (sample_voucher upper 100) = true
  /\ is_ok (let? v := sample_voucher upper 100 in
            verify v (hex_encode (verifying_key (replicate 32 2))) 1060) = false.
Proof.
  cbv zeta. split; [|vm_compute; auto].
  destruct (issue _ _ _ _ _ _) as [v|] eqn:E; [|vm_compute in E; discriminate]. cbn [res_bind].
  assert (is_bytes (replicate 32 1)) as Hb by (apply Forall_replicate; unfold is_u8; lia).
  apply (proj2 (voucher_issue_verify (replicate 32 1) _ _ _ _ _ v 1060 eq_refl Hb E)).
  vm_compute in E. injection E as <-. vm_compute. split; [discriminate|reflexivity].
Defined.

(** ** Histories of a ledger *)

(** Same grant: nonce and pinned terms. *)
Definition same_grant (v w : WriteVoucher) : bool :=
  bool_decide (nonce_hex w = nonce_hex v) && (quota_bytes w =? quota_bytes v)
  && (expires_utc w =? expires_utc v).

(** The bytes a release returns to a grant and to a holder. *)
Definition returned (nonce : str) (b : Z) (l : VoucherLedger) : Z :=
  match spent l !! nonce with Some e => Z.min b (c_spent_bytes e) | None => 0 end.
Definition pinned_holder (nonce : str) (l : VoucherLedger) : str :=
  match spent l !! nonce with Some e => c_holder_pk_hex e | None => [] end.

Section History.
Context {HX : Hex} {ED : Ed25519}.
Variables (issuer : str) (v : WriteVoucher) (holder : str) (cap : Z).

(** A history under a forward clock: the ledger it leads to, the bytes accepted
    under grant [v] less those released to it, and the same for [holder]. *)
Inductive history : Z -> VoucherLedger -> Z -> Z -> Prop :=
| h_new m : history 0 (set_user_quota_bytes cap (new m)) 0 0
| h_consume t l s u w now b :
    history t l s u -> t <= now -> 0 <= b ->
    let accepted := is_ok (try_consume w issuer now b l).1 in
    history now (try_consume w issuer now b l).2
      (s + if accepted && same_grant v w then b else 0)
      (u + if accepted && bool_decide (holder_pk_hex w = holder) then b else 0)
| h_release t l s u n b :
    history t l s u -> 0 <= b ->
    history t (release n b l)
      (s - if bool_decide (n = nonce_hex v) then returned n b l else 0)
      (u - if bool_decide (pinned_holder n l = holder) then returned n b l else 0)
| h_prune t l s u now : history t l s u -> t <= now -> history now (prune_expired now l) s u
| h_set_max t l s u m : history t l s u -> history t (set_max_quota m l) s u.

(** What an accepted charge establishes and does. *)
Lemma try_consume_inv w now b l :
  (exists e, try_consume w issuer now b l = (Err e, prune_expired now l)) \/
  let l' := prune_expired now l in
  let entry := default (fresh_charge w) (spent l' !! nonce_hex w) in
  let total := default 0 (holder_spent l' !! holder_pk_hex w) in
  now <= expires_utc w /\ c_quota_bytes entry = quota_bytes w /\ c_expires_utc entry = expires_utc w /\
  sat_add64 (c_spent_bytes entry) b <= c_quota_bytes entry /\
  (0 < user_quota_bytes l -> sat_add64 total b <= user_quota_bytes l) /\
  try_consume w issuer now b l =
    (Ok tt, with_maps (<[nonce_hex w := charge_with_spent entry (sat_add64 (c_spent_bytes entry) b)]> (spent l'))
              (<[holder_pk_hex w := sat_add64 total b]> (holder_spent l')) l').
Proof.
  unfold try_consume. cbv zeta. set (l' := prune_expired now l).
  set (entry := default (fresh_charge w) (spent l' !! nonce_hex w)).
  destruct (res_bind (verify w issuer now) _) as [l2|e] eqn:E; [right|left; eauto].
  apply res_bind_ok in E as ([] & Hv & E).
  assert (now <= expires_utc w) as Hnow.
  { unfold verify in Hv. res_inv. rewrite Z.gtb_ltb in *. bool_prop. lia. }
  replace (match spent l' !! nonce_hex w with
           | Some e => (c_quota_bytes e, c_expires_utc e, c_spent_bytes e)
           | None => (quota_bytes w, expires_utc w, 0) end)
    with (c_quota_bytes entry, c_expires_utc entry, c_spent_bytes entry) in E
    by (unfold entry; by destruct (spent l' !! nonce_hex w)).
  rewrite !Z.gtb_ltb in E. apply bail_ok in E as (_ & E). apply bail_ok in E as (Hterms & E).
  apply bail_ok in E as (Hq & E). apply bail_ok in E as (Hu & E). apply Ok_inj in E as <-.
  bool_prop. repeat split; auto. intros Hpos. change (user_quota_bytes l') with (user_quota_bytes l) in Hu.
  destruct (0 <? user_quota_bytes l) eqn:Ep; bool_prop; [|lia]. simpl in Hu. by bool_prop.
Qed.

Lemma prune_lookup now l n e :
  spent (prune_expired now l) !! n = Some e <-> spent l !! n = Some e /\ now <= c_expires_utc e.
Proof. simpl. rewrite map_lookup_filter_Some. simpl. naive_solver lia. Qed.

(** What the ledger knows of grant [v] at time [t] when [s] bytes are out. *)
Definition grant_inv (t : Z) (l : VoucherLedger) (s : Z) : Prop :=
  s <= 0 \/
  (exists e, spent l !! nonce_hex v = Some e /\ c_quota_bytes e = quota_bytes v /\
             c_expires_utc e = expires_utc v /\ s <= c_spent_bytes e <= quota_bytes v) \/
  (expires_utc v < t /\ s <= quota_bytes v).

Definition charges_nonneg (l : VoucherLedger) : Prop :=
  forall n e, spent l !! n = Some e -> 0 <= c_spent_bytes e.

Definition holder_total (h : str) (l : VoucherLedger) : Z := default 0 (holder_spent l !! h).

Definition user_inv (l : VoucherLedger) (u : Z) : Prop :=
  (forall h, 0 <= holder_total h l) /\ user_quota_bytes l = cap /\ u <= holder_total holder l /\
  (0 < cap -> holder_total holder l <= cap).

Lemma grant_inv_prune t now l s :
  t <= now -> grant_inv t l s -> grant_inv now (prune_expired now l) s.
Proof.
  intros Ht [H|[(e & He & Hq & Hx & Hs)|(Hx & Hs)]]; [by left| |right; right; lia].
  destruct (Z.le_gt_cases now (expires_utc v)); [|right; right; lia].
  right; left. exists e. rewrite prune_lookup. split; [split; [done|lia]|done].
Qed.

Lemma charges_nonneg_prune now l : charges_nonneg l -> charges_nonneg (prune_expired now l).
Proof. intros H n e (He & _)%prune_lookup. by eapply H. Qed.

Lemma entry_nonneg l w :
  charges_nonneg l -> 0 <= c_spent_bytes (default (fresh_charge w) (spent l !! nonce_hex w)).
Proof. intros H. destruct (spent l !! nonce_hex w) eqn:E; simpl; [by eapply H|lia]. Qed.

Lemma sat_add_le a b m : sat_add64 a b <= m -> m < u64_max -> a + b <= m.
Proof. unfold sat_add64. lia. Qed.

Lemma consume_grant t l s w now b :
  quota_bytes v < u64_max -> t <= now -> 0 <= b -> charges_nonneg l -> grant_inv t l s ->
  charges_nonneg (try_consume w issuer now b l).2 /\
  grant_inv now (try_consume w issuer now b l).2
    (s + if is_ok (try_consume w issuer now b l).1 && same_grant v w then b else 0).
Proof.
  intros Hq Ht Hb Hnn Hg. apply (grant_inv_prune _ now) in Hg; [|done].
  apply (charges_nonneg_prune now) in Hnn.
  destruct (try_consume_inv w now b l) as [(e & ->)|(Hnow & Eq & Ex & Hs & _ & ->)]; simpl;
    [by rewrite Z.add_0_r|].
  set (l' := prune_expired now l) in *. set (entry := default _ _) in *.
  pose proof (entry_nonneg l' w Hnn) as Hen. fold entry in Hen. split.
  - intros n e. simpl. rewrite lookup_insert. case_decide; [|by apply Hnn].
    intros [= <-]. simpl. unfold sat_add64, u64_max. lia.
  - destruct (same_grant v w) eqn:Esame; unfold same_grant in Esame.
    + apply andb_true_iff in Esame as [[Hn Hqw]%andb_true_iff Hxw]. bool_prop.
      right; left. eexists. simpl. rewrite Hn. split; [by apply lookup_insert_eq|]. simpl.
      assert (c_spent_bytes entry + b <= quota_bytes v) as Hsum by (apply sat_add_le; [lia|done]).
      assert (sat_add64 (c_spent_bytes entry) b = c_spent_bytes entry + b) as -> by (unfold sat_add64; lia).
      split; [lia|]. split; [lia|].
      destruct Hg as [Hg|[(e & He & _ & _ & Hse)|(Hg & _)]]; [lia| |lia].
      unfold entry in *. rewrite Hn, He in *. simpl in *. lia.
    + rewrite Z.add_0_r. destruct Hg as [Hg|[(e & He & Hqe & Hxe & Hse)|Hg]]; [by left| |by right; right].
      right; left. exists e. split; [|done]. simpl. rewrite lookup_insert_ne; [done|].
      intros Hn. unfold entry in *. rewrite Hn, He in *. simpl in *.
      rewrite bool_decide_true in Esame by done. simpl in Esame.
      apply andb_false_iff in Esame as [Esame|Esame]; bool_prop; lia.
Qed.

Lemma release_spent n b l :
  spent (release n b l) =
  match spent l !! n with
  | Some e => <[n := charge_with_spent e (c_spent_bytes e - Z.min b (c_spent_bytes e))]> (spent l)
  | None => spent l
  end.
Proof. unfold release. repeat case_match; simplify_eq; done. Qed.

Lemma release_grant t l s n b :
  0 <= b -> charges_nonneg l -> grant_inv t l s ->
  charges_nonneg (release n b l) /\
  grant_inv t (release n b l) (s - if bool_decide (n = nonce_hex v) then returned n b l else 0).
Proof.
  intros Hb Hnn Hg. unfold returned.
  assert (0 <= match spent l !! n with Some e => Z.min b (c_spent_bytes e) | None => 0 end) as Hret.
  { destruct (spent l !! n) eqn:E; [|lia]. specialize (Hnn _ _ E). lia. }
  split.
  - intros n' e. rewrite release_spent. destruct (spent l !! n) as [e0|] eqn:E; [|by apply Hnn].
    rewrite lookup_insert. case_decide; [|by apply Hnn]. intros [= <-]. simpl. lia.
  - destruct Hg as [Hg|[(e & He & Hqe & Hxe & Hse)|Hg]]; [left; case_bool_decide; lia| |right; right; case_bool_decide; lia].
    right; left. rewrite release_spent. case_bool_decide as Hn.
    + subst. rewrite He in *. eexists. split; [by apply lookup_insert_eq|]. simpl. lia.
    + exists e. rewrite Z.sub_0_r. split; [|done]. destruct (spent l !! n); [|done].
      by rewrite lookup_insert_ne.
Qed.

Lemma holder_total_insert h h' z m mx uq sp :
  holder_total h {| max_quota_bytes := mx; user_quota_bytes := uq; spent := sp;
                    holder_spent := <[h' := z]> m |}
  = if decide (h' = h) then z else default 0 (m !! h).
Proof. unfold holder_total. simpl. rewrite lookup_insert. by case_decide. Qed.

Lemma consume_user l u w now b :
  0 < cap < u64_max -> 0 <= b -> user_inv l u ->
  user_inv (try_consume w issuer now b l).2
    (u + if is_ok (try_consume w issuer now b l).1 && bool_decide (holder_pk_hex w = holder) then b else 0).
Proof.
  intros Hcap Hb (Hnn & Hq & Hu & Hle).
  destruct (try_consume_inv w now b l) as [(e & ->)|(_ & _ & _ & _ & Hut & ->)]; simpl;
    [by rewrite Z.add_0_r|].
  simpl in Hut. set (total := default 0 _) in *.
  pose proof (Hnn (holder_pk_hex w)) as Hnw. change (holder_total _ l) with total in Hnw.
  rewrite Hq in Hut. specialize (Hut (proj1 Hcap)). apply sat_add_le in Hut as Hsum; [|lia].
  assert (sat_add64 total b = total + b) as -> by (unfold sat_add64; lia).
  unfold user_inv, with_maps. cbn [user_quota_bytes prune_expired with_maps holder_spent].
  split; [|split; [done|]].
  - intros h. rewrite holder_total_insert. case_decide; [lia|]. apply Hnn.
  - rewrite holder_total_insert. case_bool_decide as Hh.
    + rewrite decide_True by done. rewrite <- Hh in Hu. change (holder_total _ l) with total in Hu. lia.
    + rewrite decide_False by done. rewrite Z.add_0_r. auto.
Qed.

Lemma release_holder n b l h :
  charges_nonneg l -> 0 <= b -> (forall h, 0 <= holder_total h l) ->
  0 <= holder_total h (release n b l) /\
  holder_total h (release n b l) <= holder_total h l /\
  holder_total h l - (if bool_decide (pinned_holder n l = h) then returned n b l else 0)
    <= holder_total h (release n b l).
Proof.
  intros Hnn Hb Htot. unfold release, pinned_holder, returned. pose proof (Htot h) as Hh.
  destruct (spent l !! n) as [e|] eqn:E; [|case_bool_decide; lia].
  specialize (Hnn _ _ E). case_bool_decide as He.
  { change (holder_total h (with_maps _ _ l)) with (holder_total h l). case_bool_decide; lia. }
  destruct (holder_spent l !! c_holder_pk_hex e) as [total|] eqn:Et.
  2: { change (holder_total h (with_maps _ _ l)) with (holder_total h l). case_bool_decide; lia. }
  pose proof (Htot (c_holder_pk_hex e)) as Ht. unfold holder_total in *. rewrite Et in Ht. simpl in *.
  unfold sat_sub. destruct (_ =? 0) eqn:Ez; bool_prop.
  - rewrite lookup_delete. case_decide; [|by rewrite bool_decide_false; [lia|]].
    subst h. rewrite bool_decide_true, Et in * by done. simpl in *. lia.
  - rewrite lookup_insert. case_decide; [|by rewrite bool_decide_false; [lia|]].
    subst h. rewrite bool_decide_true, Et in * by done. simpl in *. lia.
Qed.

Lemma release_user l u n b :
  charges_nonneg l -> 0 <= b -> user_inv l u ->
  user_inv (release n b l) (u - if bool_decide (pinned_holder n l = holder) then returned n b l else 0).
Proof.
  intros Hnn Hb (Htot & Hq & Hu & Hle). pose proof (release_holder n b l holder Hnn Hb Htot) as (H1 & H2 & H3).
  split; [|split; [|lia]].
  - intros h. by apply release_holder.
  - unfold release. by repeat case_match.
Qed.

Lemma history_inv t l s u :
  0 < cap < u64_max -> quota_bytes v < u64_max -> history t l s u ->
  charges_nonneg l /\ grant_inv t l s /\ user_inv l u.
Proof.
  intros Hcap Hq. induction 1 as [m|t l s u w now b _ (Hnn & Hg & Hu) Ht Hb acc
    |t l s u n b _ (Hnn & Hg & Hu) Hb|t l s u now _ (Hnn & Hg & Hu) Ht|t l s u m _ (Hnn & Hg & Hu)].
  - assert (forall h, holder_total h (set_user_quota_bytes cap (new m)) = 0) as H0.
    { intros h. unfold holder_total. simpl. by rewrite lookup_empty. }
    split; [done|]. split; [by left|]. unfold user_inv. rewrite !H0.
    split; [intros h; by rewrite H0|]. split; [done|lia].
  - destruct (consume_grant _ _ _ w now b Hq Ht Hb Hnn Hg). auto using consume_user.
  - destruct (release_grant _ _ _ n b Hb Hnn Hg). auto using release_user.
  - split; [by apply charges_nonneg_prune|]. split; [by eapply grant_inv_prune|exact Hu].
  - done.
Qed.
End History.

(** C31: under a clock that does not run backwards, no history of charges,
    releases, prunings and maximum changes lets more bytes out under one grant
    than its quota, nor more to one holder, over all its vouchers, than the user
    cap.  (The bounds are below the saturation point of the counters.) *)
Theorem ledger_never_overspends {HX : Hex} {ED : Ed25519} issuer v holder cap t l s u :
  0 <= quota_bytes v < u64_max -> 0 < cap < u64_max ->
  history issuer v holder cap t l s u -> s <= quota_bytes v /\ u <= cap.
Proof.
  intros Hq Hcap H. destruct (history_inv _ _ _ _ _ _ _ _ Hcap (proj2 Hq) H) as (_ & Hg & Hu).
  destruct Hu as (_ & _ & Hu & Hle). split; [|lia].
  destruct Hg as [Hg|[(e & _ & _ & _ & Hs)|(_ & Hs)]]; lia.
Qed.

(** Two writes of 40 bytes under a 100-byte grant, one released. *)
Lemma ledger_never_overspends_witness :
  exists v l s u, sample_voucher (hex_encode (replicate 32 171)) 100 = Ok v /\
    history (hex_encode (verifying_key (replicate 32 2))) v (holder_pk_hex v) 1000 1030 l s u /\
    s = 40 /\ u = 40 /\ s <= quota_bytes v /\ u <= 1000.
Proof.
  destruct (issue _ _ _ _ _ _) as [v|] eqn:E; [|vm_compute in E; discriminate].
  pose (iss := hex_encode (verifying_key (replicate 32 2))).
  pose proof (h_new iss v (holder_pk_hex v) 1000 500) as H.
  eapply (h_consume _ _ _ _ _ _ _ _ v 1010 40) in H; [|lia..].
  eapply (h_consume _ _ _ _ _ _ _ _ v 1030 40) in H; [|lia..].
  eapply (h_release _ _ _ _ _ _ _ _ (nonce_hex v) 40) in H; [|lia].
  exists v. do 3 eexists. split; [reflexivity|]. split; [exact H|].
  assert (quota_bytes v = 100) as Hq by (vm_compute in E; by injection E as <-).
  assert (0 <= quota_bytes v < u64_max) as Hr by (rewrite Hq; unfold u64_max; lia).
  assert (0 < 1000 < u64_max) as Hc by (unfold u64_max; lia).
  pose proof (ledger_never_overspends _ _ _ _ _ _ _ _ Hr Hc H) as Hle.
  vm_compute in E. injection E as <-. split; [vm_compute; reflexivity|].
  split; [vm_compute; reflexivity|]. exact Hle.
Defined.

Lemma verify_err {HX : Hex} {ED : Ed25519} w issuer now e :
  verify w issuer now = Err e -> exists msg, e = ServerError 403 msg.
Proof.
  unfold verify, decode_canonical_hex, decode_canonical_hex_as, forbidden. intros H.
  err_inv; subst; eauto.
Qed.

(** A refused charge leaves every unexpired charge and every holder total as
    they were, and the refusal is a 403 or a 429. *)
Theorem refused_charge_unchanged {HX : Hex} {ED : Ed25519} voucher issuer now b l e l' :
  try_consume voucher issuer now b l = (Err e, l') ->
  l' = prune_expired now l /\ holder_spent l' = holder_spent l /\
  (forall n c, now <= c_expires_utc c -> spent l' !! n = Some c <-> spent l !! n = Some c) /\
  exists status msg, e = ServerError status msg /\ (status = 403 \/ status = 429).
Proof.
  intros H. assert (l' = prune_expired now l) as ->.
  { unfold try_consume in H. by destruct (res_bind _ _); simplify_eq. }
  split; [done|]. split; [done|]. split; [intros n c Hc; rewrite prune_lookup; naive_solver|].
  unfold try_consume in H. destruct (res_bind _ _) as [|e'] eqn:E; simplify_eq.
  apply res_bind_err in E as [E|([] & _ & E)]; [apply verify_err in E as (msg & ->); eauto|].
  destruct (match spent _ !! _ with Some _ => _ | None => _ end) as [[q x] s].
  unfold forbidden in E. err_inv; subst; eauto.
Qed.

Lemma refused_charge_unchanged_witness :
  exists v e l', sample_voucher (hex_encode (replicate 32 171)) 100 = Ok v /\
    try_consume v (hex_encode (verifying_key (replicate 32 2))) 1010 101 (new 500) = (Err e, l') /\
    l' = prune_expired 1010 (new 500) /\
    exists status msg, e = ServerError status msg /\ (status = 403 \/ status = 429).
Proof.
  destruct (issue _ _ _ _ _ _) as [v|] eqn:E; [|vm_compute in E; discriminate].
  destruct (try_consume v (hex_encode (verifying_key (replicate 32 2))) 1010 101 (new 500))
    as [[[]|e] l'] eqn:Ec.
  - exfalso. vm_compute in E. injection E as <-. vm_compute in Ec. discriminate.
  - exists v, e, l'. destruct (refused_charge_unchanged _ _ _ _ _ _ _ Ec) as (H1 & _ & _ & H2). auto.
Defined.

(** ** Restart *)

(** The shape every reachable ledger has and [decode_into] insists on. *)
Definition ledger_valid (l : VoucherLedger) : Prop :=
  (forall n c, spent l !! n = Some c -> charge_ok (n, c) = true) /\
  (forall h z, holder_spent l !! h = Some z -> valid_nonce_key h = true).

Section Restart.
Context {HX : Hex} {HL : HexLaws HX} {ED : Ed25519}.

Lemma verify_canonical w issuer now :
  verify w issuer now = Ok tt ->
  valid_nonce_key (nonce_hex w) = true /\ valid_nonce_key (holder_pk_hex w) = true.
Proof.
  unfold verify, decode_canonical_hex. intros H.
  do 2 apply bail_ok in H as (_ & H). apply res_bind_ok in H as (b1 & _ & H).
  apply res_bind_ok in H as (b2 & H2 & H). apply res_bind_ok in H as (b3 & H3 & _).
  apply decode_canonical_hex_ok in H2 as (-> & ? & ?), H3 as (-> & ? & ?).
  auto using canonical_valid_nonce.
Qed.

Lemma try_consume_verified w issuer now b l :
  is_ok (try_consume w issuer now b l).1 = true -> verify w issuer now = Ok tt.
Proof. unfold try_consume. by destruct (verify w issuer now) as [[]|]. Qed.

Lemma ledger_valid_prune now l : ledger_valid l -> ledger_valid (prune_expired now l).
Proof. intros (H1 & H2). split; [|done]. intros n c (Hc & _)%prune_lookup. auto. Qed.

Lemma ledger_valid_consume w issuer now b l :
  ledger_valid l -> ledger_valid (try_consume w issuer now b l).2.
Proof.
  intros Hv. apply (ledger_valid_prune now) in Hv. pose proof (try_consume_verified w issuer now b l) as Hok.
  destruct (try_consume_inv issuer w now b l) as [(e & ->)|(_ & _ & _ & Hs & _ & Et)]; [done|].
  rewrite Et in *. destruct (verify_canonical _ _ _ (Hok eq_refl)) as (Hn & Hh). destruct Hv as (H1 & H2).
  split; intros k x; cbn [with_maps snd spent holder_spent]; rewrite lookup_insert; case_decide as Hk.
  - subst k. intros [= <-]. unfold charge_ok. simpl. rewrite Hn. apply Z.leb_le. exact Hs.
  - apply H1.
  - by subst k.
  - apply H2.
Qed.

Lemma ledger_valid_release n b l : ledger_valid l -> 0 <= b -> charges_nonneg l -> ledger_valid (release n b l).
Proof.
  intros (H1 & H2) Hb Hnn. split.
  - intros k c. rewrite release_spent. destruct (spent l !! n) as [e|] eqn:E; [|apply H1].
    rewrite lookup_insert. case_decide; [subst|apply H1]. intros [= <-]. specialize (H1 _ _ E).
    specialize (Hnn _ _ E). unfold charge_ok in *. simpl in *. apply andb_true_iff in H1 as [-> H1].
    cbn [andb]. bool_prop. bool_lia.
  - intros k z. unfold release. destruct (spent l !! n) as [e|]; [|apply H2].
    case_bool_decide; [apply H2|]. destruct (holder_spent l !! c_holder_pk_hex e) as [t|] eqn:E; [|apply H2].
    simpl. destruct (_ =? 0); [rewrite lookup_delete|rewrite lookup_insert]; case_decide; try apply H2; [done|].
    subst. intros _. eauto.
Qed.

Lemma history_valid issuer v holder cap t l s u :
  0 < cap < u64_max -> quota_bytes v < u64_max ->
  history issuer v holder cap t l s u -> ledger_valid l.
Proof.
  intros Hc Hq H. induction H as [m|t l s u w now b H IH Ht Hb acc|t l s u n b H IH Hb|t l s u now H IH Ht|].
  - split; intros k x; simpl; by rewrite lookup_empty.
  - by apply ledger_valid_consume.
  - destruct (history_inv _ _ _ _ _ _ _ _ Hc Hq H) as (Hnn & _). by apply ledger_valid_release.
  - by apply ledger_valid_prune.
  - done.
Qed.
End Restart.

Lemma existsb_map_false {V : Type} (P : str * V -> bool) (m : gmap str V) :
  (forall k x, m !! k = Some x -> P (k, x) = true) -> existsb (fun kv => negb (P kv)) (map_to_list m) = false.
Proof.
  intros H. destruct (existsb _ _) eqn:E; [|done]. apply existsb_exists in E as ([k x] & Hin & Hp).
  apply list_elem_of_In, elem_of_map_to_list in Hin. by rewrite (H _ _ Hin) in Hp.
Qed.

Lemma merge_totals_le totals active h :
  default 0 (totals !! h) <= default 0 (merge_totals totals active !! h).
Proof.
  unfold merge_totals. rewrite lookup_merge. unfold diag_None.
  destruct (totals !! h), (active !! h); simpl; lia.
Qed.

(** A ledger that was persisted and restored after any history keeps every
    charge exactly and never lowers a holder's total, under the configuration of
    the restarted process. *)
Theorem ledger_restart_keeps_spend {HX : Hex} {HL : HexLaws HX} {ED : Ed25519}
  {J : LedgerJson} {JL : LedgerJsonLaws J} issuer v holder cap t l s u b fresh :
  0 < cap < u64_max -> quota_bytes v < u64_max ->
  history issuer v holder cap t l s u -> encode l = Ok b ->
  exists l', decode_into b fresh = Ok l' /\ spent l' = spent l /\
    (forall h, holder_total h l <= holder_total h l') /\
    max_quota_bytes l' = max_quota_bytes fresh /\ user_quota_bytes l' = user_quota_bytes fresh.
Proof.
  intros Hc Hq H He. apply history_valid in H as (H1 & H2); [|done..].
  unfold encode in He. apply ledger_json_roundtrip in He. unfold decode_into. rewrite He. cbn [res_bind].
  cbn [p_version p_spent p_holder_spent]. rewrite Z.eqb_refl.
  rewrite (existsb_map_false (fun kv => valid_nonce_key kv.1)) by apply H2. cbn [negb res_bind].
  rewrite (existsb_map_false charge_ok) by apply H1.
  rewrite map_filter_id by (intros; by apply H1).
  eexists. split; [reflexivity|]. repeat split. intros h. apply merge_totals_le.
Qed.

(** A sample serializer that keeps the parsed value at the side of the bytes: a
    constant function is enough for one ledger. *)
Definition one_ledger_json (p0 : PersistedVoucherLedger) : LedgerJson := {|
  ledger_to_vec p := if decide (p_version p = p_version p0 /\ p_spent p = p_spent p0 /\
                                p_holder_spent p = p_holder_spent p0) then Ok [1] else Err "other"%string;
  ledger_from_slice b := Ok (Versioned (Ok p0));
|}.
Lemma one_ledger_json_laws p0 : LedgerJsonLaws (one_ledger_json p0).
Proof.
  split. simpl. intros p b. case_decide as H; [|done]. intros _. destruct p, p0. simpl in H.
  by destruct H as (-> & -> & ->).
Qed.

Lemma ledger_restart_keeps_spend_witness :
  exists v l, sample_voucher (hex_encode (replicate 32 171)) 100 = Ok v /\
    l = (try_consume v (hex_encode (verifying_key (replicate 32 2))) 1010 40
           (set_user_quota_bytes 1000 (new 500))).2 /\
    let J := one_ledger_json {| p_version := 2; p_spent := spent l; p_holder_spent := holder_spent l |} in
    exists l', decode_into [1] (new 7) = Ok l' /\ spent l' = spent l /\
      (forall h, holder_total h l <= holder_total h l') /\ max_quota_bytes l' = 7 /\ user_quota_bytes l' = 0.
Proof.
  destruct (issue _ _ _ _ _ _) as [v|] eqn:E; [|vm_compute in E; discriminate].
  eexists v, _. split; [reflexivity|]. split; [reflexivity|]. set (l := _.2). intros J.
  pose proof (h_new (hex_encode (verifying_key (replicate 32 2))) v (holder_pk_hex v) 1000 500) as H.
  eapply (h_consume _ _ _ _ _ _ _ _ v 1010 40) in H; [|lia..].
  assert (quota_bytes v < u64_max) as Hq by (vm_compute in E; by injection E as <-).
  assert (0 < 1000 < u64_max) as Hc by (unfold u64_max; lia).
  eapply (@ledger_restart_keeps_spend _ _ _ J (one_ledger_json_laws _)); [exact Hc|exact Hq|exact H|].
  unfold encode. simpl. by rewrite decide_True.
Defined.
