(* ===== verification/Invites.v ===== *)
(** * Fleet join invites

    src/crates/storage/src/invites.rs: single-issuer (v1) and quorum (v2)
    admission tickets, the offline ceremony that builds a quorum ticket, and the
    verification every fleet node runs against its pinned keys. *)

From S2P Require Import Prelude Errors Primitives SamplePrimitives Crypto Vouchers VouchersTheory.

Module Invite.
Definition INVITE_VERSION : Z := 1.
Definition INVITE_VERSION_V2 : Z := 2.
Definition invite_domain : bytes := lit "operator_join_invite".

Record InviteSignature : Type := { is_signer_pk_hex : str; is_signature_hex : str }.

Record JoinInvite : Type := {
  version : Z; issuer_pk_hex : str; node_pk_hex : str; expires_utc : Z; nonce_hex : str;
  signature_hex : str; signatures : list InviteSignature;
}.

Record InviteRequest : Type := { r_node_pk_hex : str; r_expires_utc : Z; r_nonce_hex : str }.
#[global] Instance InviteRequest_eq_dec : EqDecision InviteRequest.
Proof. solve_decision. Defined.

Record InviteApproval : Type := { request : InviteRequest; signer_pk_hex : str; a_signature_hex : str }.

Section Invite.
Context {HX : Hex} {ED : Ed25519}.

Definition decode_canonical_hex (field what : str) (len : Z) : result StorageError bytes :=
  decode_canonical_hex_as (lit "invite") field what len.

(** [nonce] is drawn at random; [now] is the clock, here and below. *)
Definition request_new (nonce : bytes) (now : Z) (node_pk_hex : str) (ttl_secs : Z)
  : result StorageError InviteRequest :=
  let? node := map_err (fun _ => forbidden (lit "invite node key must be hex")) (hex_decode node_pk_hex) in
  bail? negb (blen node =? 32) with forbidden (lit "invite node key must be 32 bytes") ;;
  bail? ttl_secs =? 0 with forbidden (lit "invite TTL must be positive") ;;
  Ok {| r_node_pk_hex := hex_encode node; r_expires_utc := sat_add64 now ttl_secs;
        r_nonce_hex := hex_encode nonce |}.

Definition validate (self : InviteRequest) (now_utc : Z) : result StorageError unit :=
  let? _ := decode_canonical_hex (r_node_pk_hex self) (lit "node key") 32 in
  let? _ := decode_canonical_hex (r_nonce_hex self) (lit "nonce") 32 in
  bail? now_utc >? r_expires_utc self with forbidden (lit "invite expired") ;;
  Ok tt.

Definition quorum_signing_bytes (node_pk_hex : str) (expires_utc : Z) (nonce_hex : str) : bytes :=
  lit "ciphervault-join-invite-v2:" ++ to_le_bytes 4 INVITE_VERSION_V2 ++ lit ":"
  ++ as_bytes node_pk_hex ++ lit ":" ++ to_le_bytes 8 expires_utc ++ lit ":" ++ as_bytes nonce_hex.

Definition approve (now : Z) (signer : bytes) (request : InviteRequest)
  : result StorageError InviteApproval :=
  let? _ := validate request now in
  let msg := quorum_signing_bytes (r_node_pk_hex request) (r_expires_utc request)
               (r_nonce_hex request) in
  let sig := sign_with_domain signer invite_domain msg in
  Ok {| request := request; signer_pk_hex := hex_encode (verifying_key signer);
        a_signature_hex := hex_encode sig |}.

Definition signing_bytes (self : JoinInvite) : bytes :=
  lit "ciphervault-join-invite-v1:" ++ to_le_bytes 4 (version self) ++ lit ":"
  ++ as_bytes (issuer_pk_hex self) ++ lit ":" ++ as_bytes (node_pk_hex self) ++ lit ":"
  ++ to_le_bytes 8 (expires_utc self) ++ lit ":" ++ as_bytes (nonce_hex self).

Definition issue (nonce : bytes) (now : Z) (issuer : bytes) (node_pk_hex : str) (ttl_secs : Z)
  : result StorageError JoinInvite :=
  let? node := map_err (fun _ => forbidden (lit "invite node key must be hex")) (hex_decode node_pk_hex) in
  bail? negb (blen node =? 32) with forbidden (lit "invite node key must be 32 bytes") ;;
  bail? ttl_secs =? 0 with forbidden (lit "invite TTL must be positive") ;;
  let invite :=
    {| version := INVITE_VERSION; issuer_pk_hex := hex_encode (verifying_key issuer);
       node_pk_hex := node_pk_hex; expires_utc := sat_add64 now ttl_secs;
       nonce_hex := hex_encode nonce; signature_hex := []; signatures := [] |} in
  let sig := sign_with_domain issuer invite_domain (signing_bytes invite) in
  Ok {| version := version invite; issuer_pk_hex := issuer_pk_hex invite;
        node_pk_hex := node_pk_hex; expires_utc := expires_utc invite;
        nonce_hex := nonce_hex invite; signature_hex := hex_encode sig; signatures := [] |}.

Definition verify (self : JoinInvite) (expected_issuer_pk_hex : str) (now_utc : Z)
  : result StorageError unit :=
  bail? negb (version self =? INVITE_VERSION)
    with forbidden (lit "unsupported invite version " ++ show_Z (version self)) ;;
  bail? match signatures self with [] => false | _ => true end
    with forbidden (lit "v1 invite must not carry quorum signatures") ;;
  bail? negb (eq_ignore_ascii_case (issuer_pk_hex self) expected_issuer_pk_hex)
    with forbidden (lit "invite issuer mismatch") ;;
  let? issuer := decode_canonical_hex (issuer_pk_hex self) (lit "issuer key") 32 in
  let? _ := decode_canonical_hex (node_pk_hex self) (lit "node key") 32 in
  let? _ := decode_canonical_hex (nonce_hex self) (lit "nonce") 32 in
  let? sig := decode_canonical_hex (signature_hex self) (lit "signature") 64 in
  let? _ := map_err (fun _ => forbidden (lit "invite signature verification failed"))
              (verify_with_domain issuer invite_domain (signing_bytes self) sig) in
  bail? now_utc >? expires_utc self with forbidden (lit "invite expired") ;;
  Ok tt.

Definition quorum_default (set_size : Z) : Z := set_size / 2 + 1.

(** One approval of the ceremony: the signers seen and the signatures so far. *)
Definition combine_step (req : InviteRequest) (body : bytes)
  (st : list str * list InviteSignature) (approval : InviteApproval)
  : result StorageError (list str * list InviteSignature) :=
  let (seen, sigs) := st in
  bail? negb (bool_decide (request approval = req)) with forbidden (lit "approval signs a different request") ;;
  let? signer := decode_canonical_hex (signer_pk_hex approval) (lit "signer key") 32 in
  let signer_norm := hex_encode signer in
  bail? bool_decide (signer_norm ∈ seen) with forbidden (lit "duplicate approval signer") ;;
  let? sig := decode_canonical_hex (a_signature_hex approval) (lit "signature") 64 in
  let? _ := map_err (fun _ => forbidden (lit "invite signature verification failed"))
              (verify_with_domain signer invite_domain body sig) in
  Ok (seen ++ [signer_norm],
      sigs ++ [{| is_signer_pk_hex := signer_norm; is_signature_hex := a_signature_hex approval |}]).

Definition issue_quorum (now : Z) (req : InviteRequest) (approvals : list InviteApproval)
  : result StorageError JoinInvite :=
  let? _ := validate req now in
  bail? match approvals with [] => true | _ => false end
    with forbidden (lit "quorum ticket needs at least one approval") ;;
  let body := quorum_signing_bytes (r_node_pk_hex req) (r_expires_utc req) (r_nonce_hex req) in
  let? st := try_fold (combine_step req body) ([], []) approvals in
  Ok {| version := INVITE_VERSION_V2; issuer_pk_hex := []; node_pk_hex := r_node_pk_hex req;
        expires_utc := r_expires_utc req; nonce_hex := r_nonce_hex req; signature_hex := [];
        signatures := st.2 |}.

Definition pinned_key (key : str) : result StorageError str :=
  let? b := map_err (fun _ => forbidden (lit "pinned fleet key must be hex"))
              (hex_decode (to_ascii_lowercase <$> trim key)) in
  bail? negb (blen b =? 32) with forbidden (lit "pinned fleet key must be 32 bytes") ;;
  Ok (hex_encode b).

(** The (signer, signature, body) triples a ticket carries. *)
Definition approvals_of (self : JoinInvite) : result StorageError (list (str * str * bytes)) :=
  if version self =? INVITE_VERSION then
    bail? match signatures self with [] => false | _ => true end
      with forbidden (lit "v1 invite must not carry quorum signatures") ;;
    Ok [(issuer_pk_hex self, signature_hex self, signing_bytes self)]
  else
    bail? negb (bool_decide (issuer_pk_hex self = [])) || negb (bool_decide (signature_hex self = []))
      with forbidden (lit "v2 invite must not carry v1 issuer fields") ;;
    bail? match signatures self with [] => true | _ => false end
      with forbidden (lit "v2 invite carries no signatures") ;;
    let body := quorum_signing_bytes (node_pk_hex self) (expires_utc self) (nonce_hex self) in
    Ok ((fun s => (is_signer_pk_hex s, is_signature_hex s, body)) <$> signatures self).

Definition count_step (set : list str) (distinct : list str) (approval : str * str * bytes)
  : result StorageError (list str) :=
  let '(signer_hex, sig_hex, body) := approval in
  let? signer := decode_canonical_hex signer_hex (lit "signer key") 32 in
  let signer_norm := hex_encode signer in
  bail? negb (bool_decide (signer_norm ∈ set)) with forbidden (lit "invite signer not in fleet key set") ;;
  let? sig := decode_canonical_hex sig_hex (lit "signature") 64 in
  let? _ := map_err (fun _ => forbidden (lit "invite signature verification failed"))
              (verify_with_domain signer invite_domain body sig) in
  Ok (if bool_decide (signer_norm ∈ distinct) then distinct else distinct ++ [signer_norm]).

Definition verify_quorum (self : JoinInvite) (pinned_keys : list str) (quorum_k now_utc : Z)
  : result StorageError (list str) :=
  bail? negb (version self =? INVITE_VERSION) && negb (version self =? INVITE_VERSION_V2)
    with forbidden (lit "unsupported invite version " ++ show_Z (version self)) ;;
  bail? match pinned_keys with [] => true | _ => false end with forbidden (lit "no fleet keys pinned") ;;
  bail? (quorum_k =? 0) || (quorum_k >? blen pinned_keys) with forbidden (lit "invalid quorum threshold") ;;
  let? _ := decode_canonical_hex (node_pk_hex self) (lit "node key") 32 in
  let? _ := decode_canonical_hex (nonce_hex self) (lit "nonce") 32 in
  let? set := try_map pinned_key pinned_keys in
  let? approvals := approvals_of self in
  let? distinct := try_fold (count_step set) [] approvals in
  bail? blen distinct <? quorum_k
    with forbidden (lit "invite quorum not reached (have " ++ show_Z (blen distinct) ++ lit " of "
                    ++ show_Z quorum_k ++ lit ")") ;;
  bail? now_utc >? expires_utc self with forbidden (lit "invite expired") ;;
  Ok distinct.
End Invite.
End Invite.

(** ** Theorems on join invites

    An accepted ticket carries valid approvals of at least K different pinned
    keys over its own body; the ceremony's output is accepted; tickets of the two
    versions never share a body. *)

Import Invite.

(** The bytes every approval of a ticket must sign. *)
Definition ticket_body (inv : JoinInvite) : bytes :=
  if version inv =? INVITE_VERSION then signing_bytes inv
  else quorum_signing_bytes (node_pk_hex inv) (expires_utc inv) (nonce_hex inv).

(** [s] is the key of a pinned keyholder who signed [body]. *)
Definition approved_by `{Hex, Ed25519} (pinned : list str) (body : bytes) (s : str) : Prop :=
  (exists p, p ∈ pinned /\ pinned_key p = Ok s) /\
  exists pk sig, s = hex_encode pk /\ verify_with_domain pk invite_domain body sig = Ok tt.

Section Quorum.
Context {HX : Hex} {HL : HexLaws HX} {ED : Ed25519}.

Lemma approvals_bodies inv aps :
  approvals_of inv = Ok aps -> Forall (fun a => a.2 = ticket_body inv) aps.
Proof.
  unfold approvals_of, ticket_body. destruct (version inv =? INVITE_VERSION); intros H; res_inv.
  - by constructor.
  - apply Forall_fmap, Forall_true. done.
Qed.

Lemma count_step_inv set distinct a d' :
  count_step set distinct a = Ok d' ->
  exists s pk sig, s ∈ set /\ s = hex_encode pk /\ verify_with_domain pk invite_domain a.2 sig = Ok tt /\
    d' = if bool_decide (s ∈ distinct) then distinct else distinct ++ [s].
Proof.
  destruct a as [[sh gh] body]. unfold count_step. intros H.
  apply res_bind_ok in H as (pk & _ & H). apply bail_ok in H as (Hin & H).
  apply res_bind_ok in H as (sig & _ & H). apply res_bind_ok in H as ([] & Hv & H).
  apply Ok_inj in H as <-. bool_prop. exists (hex_encode pk), pk, sig. simpl.
  destruct (verify_with_domain _ _ _ _) as [[]|] eqn:E; done.
Qed.

Lemma count_fold set body aps distinct d' :
  Forall (fun a => a.2 = body) aps -> try_fold (count_step set) distinct aps = Ok d' ->
  (forall s, s ∈ distinct -> s ∈ set /\ exists pk sig, s = hex_encode pk /\
       verify_with_domain pk invite_domain body sig = Ok tt) -> NoDup distinct ->
  NoDup d' /\ forall s, s ∈ d' -> s ∈ set /\ exists pk sig, s = hex_encode pk /\
       verify_with_domain pk invite_domain body sig = Ok tt.
Proof.
  intros Hb H Hd Hnd. rewrite Forall_forall in Hb.
  refine (try_fold_inv _ (fun d => NoDup d /\ forall s, s ∈ d -> s ∈ set /\ exists pk sig, s = hex_encode pk /\
       verify_with_domain pk invite_domain body sig = Ok tt) _ _ _ _ (conj Hnd Hd) H).
  intros d a d2 Ha (Hnd' & Hd') Hstep.
  apply count_step_inv in Hstep as (s & pk & sig & Hs & Heq & Hv & ->). rewrite (Hb _ Ha) in Hv.
  case_bool_decide as Hin; [done|]. split; [apply NoDup_app; split; [done|]; split;
    [set_solver|apply NoDup_singleton]|].
  intros s' [Hs'|Hs']%elem_of_app; [auto|]. apply list_elem_of_singleton in Hs' as ->. eauto.
Qed.

Lemma pinned_set pinned set s :
  try_map pinned_key pinned = Ok set -> s ∈ set -> exists p, p ∈ pinned /\ pinned_key p = Ok s.
Proof.
  rewrite try_map_ok. intros H (i & Hi)%list_elem_of_lookup.
  destruct (Forall2_lookup_r _ _ _ _ _ H Hi) as (p & Hp & E). eauto using list_elem_of_lookup_2.
Qed.

(** ** The ceremony *)

(** An approval that any node accepts for [body]. *)
Definition good_approval (body : bytes) (a : InviteApproval) : Prop :=
  exists pk sig, decode_canonical_hex (signer_pk_hex a) (lit "signer key") 32 = Ok pk /\
    decode_canonical_hex (a_signature_hex a) (lit "signature") 64 = Ok sig /\
    verify_with_domain pk invite_domain body sig = Ok tt.

Definition as_signature (a : InviteApproval) : InviteSignature :=
  {| is_signer_pk_hex := signer_pk_hex a; is_signature_hex := a_signature_hex a |}.

Lemma combine_fold req body aps : forall seen sigs st,
  try_fold (combine_step req body) (seen, sigs) aps = Ok st -> NoDup seen ->
  st.2 = sigs ++ (as_signature <$> aps) /\ NoDup (seen ++ (signer_pk_hex <$> aps)) /\
  Forall (good_approval body) aps.
Proof.
  induction aps as [|a aps IH]; intros seen sigs st H Hnd.
  - injection H as <-. rewrite !app_nil_r. done.
  - cbn [try_fold] in H. apply res_bind_ok in H as (st1 & H1 & H). unfold combine_step in H1.
    apply bail_ok in H1 as (_ & H1). apply res_bind_ok in H1 as (pk & Hpk & H1).
    apply bail_ok in H1 as (Hfresh & H1). apply res_bind_ok in H1 as (sig & Hsig & H1).
    apply res_bind_ok in H1 as ([] & Hv & H1). apply Ok_inj in H1 as <-. bool_prop.
    pose proof Hpk as Hpk'. apply decode_canonical_hex_ok in Hpk' as (Hs & _). rewrite <- Hs in *.
    apply IH in H as (E & Hnd' & Hg); [|apply NoDup_app; split; [done|]; split;
      [set_solver|apply NoDup_singleton]].
    rewrite <- !app_assoc in *. repeat split; [done|done|]. constructor; [|done].
    exists pk, sig. destruct (verify_with_domain _ _ _ _) as [[]|]; done.
Qed.

Lemma count_good set body aps : forall d,
  Forall (good_approval body) aps -> (forall a, a ∈ aps -> signer_pk_hex a ∈ set) ->
  NoDup (d ++ (signer_pk_hex <$> aps)) ->
  try_fold (count_step set) d ((fun s => (is_signer_pk_hex s, is_signature_hex s, body)) <$> (as_signature <$> aps))
  = Ok (d ++ (signer_pk_hex <$> aps)).
Proof.
  induction aps as [|a aps IH]; intros d Hg Hset Hnd; [by rewrite app_nil_r|].
  apply Forall_cons in Hg as ((pk & sig & Hpk & Hsig & Hv) & Hg).
  rewrite !fmap_cons in *. cbn [try_fold]. unfold count_step at 1. cbn [is_signer_pk_hex is_signature_hex as_signature].
  rewrite Hpk. cbn [res_bind]. apply decode_canonical_hex_ok in Hpk as (Hs & _). rewrite <- Hs.
  rewrite bool_decide_true by (apply Hset; set_solver). cbn [negb]. rewrite Hsig. cbn [res_bind].
  rewrite Hv. cbn [map_err res_bind].
  rewrite bool_decide_false by (apply NoDup_app in Hnd as (_ & Hd & _); intros Hin; apply (Hd _ Hin); set_solver).
  rewrite IH; [by rewrite <- app_assoc|done|set_solver|by rewrite <- app_assoc].
Qed.

Lemma pinned_set_exists pinned :
  Forall (fun p => is_ok (pinned_key p) = true) pinned ->
  exists set, try_map pinned_key pinned = Ok set /\
    forall p s, p ∈ pinned -> pinned_key p = Ok s -> s ∈ set.
Proof.
  induction 1 as [|p ps Hp _ (set & E & Hin)]; [exists []; set_solver|]. simpl.
  destruct (pinned_key p) as [s|] eqn:Ep; [|done]. rewrite E. exists (s :: set). split; [done|].
  intros p' s' [->|Hp']%elem_of_cons Hk; [|right; eauto].
  rewrite Ep in Hk. apply Ok_inj in Hk as ->. by left.
Qed.
End Quorum.

(** A ticket passes [verify_quorum] only before its expiry and with valid
    signatures over its body by at least [k] different pinned keys, [k] being
    positive; the returned list is those keys without repetition. *)
Theorem quorum_verification_sound {HX : Hex} {HL : HexLaws HX} {ED : Ed25519}
  inv pinned k now signers :
  0 <= k -> verify_quorum inv pinned k now = Ok signers ->
  0 < k <= blen signers /\ NoDup signers /\ now <= expires_utc inv /\
  Forall (approved_by pinned (ticket_body inv)) signers.
Proof.
  intros Hk H. unfold verify_quorum in H.
  apply bail_ok in H as (_ & H). apply bail_ok in H as (_ & H). apply bail_ok in H as (Hq & H).
  apply res_bind_ok in H as (b1 & _ & H). apply res_bind_ok in H as (b2 & _ & H).
  apply res_bind_ok in H as (set & Hset & H). apply res_bind_ok in H as (aps & Haps & H).
  apply res_bind_ok in H as (d & Hd & H). apply bail_ok in H as (Hlen & H).
  rewrite Z.gtb_ltb in H. apply bail_ok in H as (Hx & H). apply Ok_inj in H as ->. bool_prop.
  apply approvals_bodies in Haps.
  destruct (count_fold set (ticket_body inv) aps [] signers Haps Hd) as (Hnd & Hall);
    [set_solver|constructor|]. repeat split; [lia|lia|done|done|].
  apply Forall_forall. intros s Hs. destruct (Hall _ Hs) as (Hin & Hsig). split; [|done].
  by eapply pinned_set.
Qed.

(** The ceremony is complete: a ticket combined from approvals of distinct
    keyholders, all of them pinned and at least [k], is accepted until its expiry
    and the signers come back in order. *)
Theorem quorum_ceremony_accepted {HX : Hex} {HL : HexLaws HX} {ED : Ed25519}
  req approvals now inv pinned k t :
  issue_quorum now req approvals = Ok inv ->
  Forall (fun a => exists p, p ∈ pinned /\ pinned_key p = Ok (signer_pk_hex a)) approvals ->
  Forall (fun p => is_ok (pinned_key p) = true) pinned ->
  0 < k <= blen approvals -> k <= blen pinned -> t <= r_expires_utc req ->
  verify_quorum inv pinned k t = Ok (signer_pk_hex <$> approvals).
Proof.
  intros H Hsig Hpin Hk Hkp Ht. unfold issue_quorum in H. apply res_bind_ok in H as ([] & Hval & H).
  apply bail_ok in H as (_ & H). apply res_bind_ok in H as (st & Hst & H). apply Ok_inj in H as <-.
  apply combine_fold in Hst as (E & Hnd & Hg); [|constructor]. simpl in E, Hnd.
  unfold validate in Hval. apply res_bind_ok in Hval as (b1 & Hn & Hval).
  apply res_bind_ok in Hval as (b2 & Hc & _).
  destruct (pinned_set_exists pinned Hpin) as (set & Eset & Hin).
  unfold verify_quorum. cbn [version node_pk_hex nonce_hex expires_utc]. cbn [Z.eqb Pos.eqb INVITE_VERSION
    INVITE_VERSION_V2 negb andb]. rewrite !Z.gtb_ltb.
  destruct pinned as [|p0 ps]; [unfold blen in Hkp; simpl in Hkp; lia|].
  replace (k =? 0) with false by (symmetry; apply Z.eqb_neq; lia).
  replace (_ <? k) with false by (symmetry; apply Z.ltb_ge; lia). cbn [orb].
  rewrite Hn, Hc. cbn [res_bind]. rewrite Eset. cbn [res_bind]. unfold approvals_of.
  cbn [version issuer_pk_hex signature_hex signatures node_pk_hex expires_utc nonce_hex]. rewrite E.
  cbn [Z.eqb Pos.eqb INVITE_VERSION INVITE_VERSION_V2]. rewrite !bool_decide_true by done. cbn [negb orb].
  destruct approvals as [|a aps]; [unfold blen in Hk; simpl in Hk; lia|].
  change (match as_signature <$> a :: aps with [] => true | _ => false end) with false. cbn [res_bind].
  rewrite count_good; [|done| |done].
  - cbn [res_bind app].
    replace (_ <? k) with false by (symmetry; apply Z.ltb_ge; unfold blen in *; rewrite length_fmap; lia).
    by replace (_ <? t) with false by (symmetry; apply Z.ltb_ge; lia).
  - intros x Hx. rewrite Forall_forall in Hsig. destruct (Hsig _ Hx) as (p & Hp & Ep). eauto.
Qed.

Definition keyholders : list bytes := [replicate 32 1; replicate 32 2; replicate 32 3].
Definition fleet_keys : list str := (fun sk => lit " " ++ (to_ascii_uppercase <$> hex_encode (verifying_key sk))) <$> keyholders.
Definition sample_request : InviteRequest :=
  {| r_node_pk_hex := hex_encode (replicate 32 9); r_expires_utc := 2000;
     r_nonce_hex := hex_encode (replicate 32 8) |}.
Definition sample_approvals : list InviteApproval :=
  match try_map (fun sk => approve 1000 sk sample_request) (take 2 keyholders) with
  | Ok a => a | Err _ => [] end.
Abbreviation sample_ticket := (issue_quorum 1000 sample_request sample_approvals).

Lemma quorum_ceremony_accepted_witness :
  exists inv, sample_ticket = Ok inv /\
    verify_quorum inv fleet_keys 2 2000 = Ok (signer_pk_hex <$> sample_approvals).
Proof.
  destruct (issue_quorum _ _ _) as [inv|] eqn:E; [|vm_compute in E; discriminate].
  exists inv. split; [reflexivity|].
  apply (quorum_ceremony_accepted sample_request sample_approvals 1000 inv fleet_keys 2 2000 E).
  - repeat constructor.
    + exists (fleet_keys !!! 0%nat). split; [by left|vm_compute; reflexivity].
    + exists (fleet_keys !!! 1%nat). split; [by right; left|vm_compute; reflexivity].
  - repeat constructor.
  - vm_compute. split; [reflexivity|discriminate].
  - vm_compute. discriminate.
  - vm_compute. discriminate.
Defined.

Lemma quorum_verification_sound_witness :
  exists inv signers, sample_ticket = Ok inv /\ verify_quorum inv fleet_keys 2 1500 = Ok signers /\
    0 < 2 <= blen signers /\ NoDup signers /\ 1500 <= expires_utc inv /\
    Forall (approved_by fleet_keys (ticket_body inv)) signers.
Proof.
  destruct (issue_quorum _ _ _) as [inv|] eqn:E; [|vm_compute in E; discriminate].
  destruct (verify_quorum inv fleet_keys 2 1500) as [signers|] eqn:Ev;
    [|vm_compute in E; injection E as <-; vm_compute in Ev; discriminate].
  exists inv, signers. split; [reflexivity|]. split; [exact Ev|].
  apply (quorum_verification_sound inv fleet_keys 2 1500 signers); [lia|exact Ev].
Defined.

(** A v1 body and a v2 body are never the same bytes. *)
Lemma ticket_versions_apart inv node expires nonce :
  signing_bytes inv <> quorum_signing_bytes node expires nonce.
Proof. unfold signing_bytes, quorum_signing_bytes. intros H. apply app_inj_1 in H as [H _]; [|done]. by vm_compute in H. Qed.
