(* ===== verification/OperatorCore.v ===== *)
(** * What the operator's stores share

    src/services/operator/src/state.rs: limits read from the environment, account
    and device bindings, the security switches, the lock stripes, and the atomic
    replacement of a JSON document on disk.

    A document is written to a temporary file, renamed into place, and the directory
    is synced: a failure before the rename leaves the old document, a failure of the
    last step leaves the new one, and both are reported as errors. *)

From S2P Require Import Prelude Errors Primitives.

(** ** Numbers in the environment *)

Definition strip_last (set : list Z) (s : str) : option str :=
  match rev s with
  | c :: rest => if bool_decide (c ∈ set) then Some (rev rest) else None
  | [] => None
  end.

Definition parse_byte_size (value : str) : option Z :=
  let text := trim value in
  let text := default text (strip_last [66; 98] text) in
  let '(digits, multiplier) :=
    match strip_last [77; 109] text with
    | Some number => (number, 1024 * 1024)
    | None => match strip_last [75; 107] text with
              | Some number => (number, 1024)
              | None => (text, 1)
              end
    end in
  number ← u64_parse (trim digits);
  if number * multiplier <=? u64_max then Some (number * multiplier) else None.

Definition Env : Type := string -> option str.
Definition env_value (env : Env) (name : string) : option str :=
  raw ← trim <$> env name; if bool_decide (raw = []) then None else Some raw.

Definition operator_limit_from_env (env : Env) (name : string) (default floor : Z) : Z :=
  match env_value env name with
  | None => default
  | Some raw => match parse_byte_size raw with
                | Some b => if floor <=? b then b else default
                | None => default
                end
  end.
Definition operator_secs_from_env (env : Env) (name : string) (default floor : Z) : Z :=
  match env_value env name with
  | None => default
  | Some raw => match u64_parse raw with
                | Some secs => if floor <=? secs then secs else default
                | None => default
                end
  end.

Definition MAX_OBJECT_SIZE : Z := 4 * 1024 * 1024.
Definition MAX_RECOVERY_RECORD_SIZE : Z := 64 * 1024.
Definition MAX_RECOVERY_RESPONSE_BYTES : Z := 16 * 1024 * 1024.
Definition DEFAULT_PROBATION_SECS : Z := 86400.
Definition DEFAULT_JOIN_LIVENESS_GRACE_SECS : Z := 7200.

Definition max_object_size (env : Env) : Z :=
  operator_limit_from_env env "CIPHERVAULT_MAX_OBJECT_SIZE" MAX_OBJECT_SIZE (512 * 1024).
Definition max_recovery_record_size (env : Env) : Z :=
  operator_limit_from_env env "CIPHERVAULT_MAX_RECOVERY_RECORD_SIZE" MAX_RECOVERY_RECORD_SIZE (4 * 1024).
Definition max_recovery_response_bytes (env : Env) : Z :=
  operator_limit_from_env env "CIPHERVAULT_MAX_RECOVERY_RESPONSE_BYTES" MAX_RECOVERY_RESPONSE_BYTES (1024 * 1024).
Definition min_probation_secs (env : Env) : Z :=
  operator_secs_from_env env "CIPHERVAULT_PROBATION_SECS" DEFAULT_PROBATION_SECS 60.
Definition join_liveness_grace_secs (env : Env) : Z :=
  operator_secs_from_env env "CIPHERVAULT_JOIN_LIVENESS_GRACE_SECS" DEFAULT_JOIN_LIVENESS_GRACE_SECS 60.

(** A limit from the environment never falls below its floor. *)
Lemma limit_floor env name default floor : floor <= default -> floor <= operator_limit_from_env env name default floor.
Proof.
  intros Hd. unfold operator_limit_from_env. destruct (env_value env name) as [raw|]; [|done].
  destruct (parse_byte_size raw) as [b|]; [|done]. destruct (Z.leb_spec floor b); done.
Qed.
Lemma secs_floor env name default floor : floor <= default -> floor <= operator_secs_from_env env name default floor.
Proof.
  intros Hd. unfold operator_secs_from_env. destruct (env_value env name) as [raw|]; [|done].
  destruct (u64_parse raw) as [b|]; [|done]. destruct (Z.leb_spec floor b); done.
Qed.
Lemma probation_at_least_a_minute env : 60 <= min_probation_secs env.
Proof. by apply secs_floor. Qed.

(** ** Account and device bindings *)

Definition lower (s : str) : str := to_ascii_lowercase <$> s.

Section Bindings.
Context {HX : Hex}.

Definition hex_len_is (n : Z) (s : str) : bool :=
  match hex_decode s with Ok b => blen b =? n | Err _ => false end.

Definition valid_account_id (value : str) : bool :=
  let value := trim value in
  (str_len value =? 39) && eq_ignore_ascii_case (take 7 value) (lit "cvacct_") && hex_len_is 16 (drop 7 value).
Definition valid_device_id (value : str) : bool := hex_len_is 32 (trim value).

Definition clean (value : option str) : option str :=
  v ← trim <$> value; if bool_decide (v = []) then None else Some (lower v).

Definition normalize_identity_binding (account_id device_id_hex : option str)
  : result str (option str * option str) :=
  let account := clean account_id in
  let device := clean device_id_hex in
  bail? match account with Some a => negb (valid_account_id a) | None => false end
    with lit "account_id must use the cvacct_<32 hex characters> format" ;;
  bail? match device with Some d => negb (valid_device_id d) | None => false end
    with lit "device_id_hex must be 32-byte hex" ;;
  bail? negb (Bool.eqb (bool_decide (account = None)) (bool_decide (device = None)))
    with lit "account_id and device_id_hex must be supplied together" ;;
  Ok (account, device).
End Bindings.

(** ** Security switches *)

Record OperatorSecurityConfig : Type := { strict_auth : bool; require_enrollment : bool }.
Definition switch_enabled (value : option str) (default : bool) : bool :=
  match value with
  | Some v => negb (bool_decide (lower (trim v) ∈ [lit "0"; lit "false"; lit "no"]))
  | None => default
  end.
Definition from_flags (strict enrollment : option str) : OperatorSecurityConfig :=
  let strict_auth := switch_enabled strict true in
  {| strict_auth := strict_auth; require_enrollment := strict_auth || switch_enabled enrollment false |}.
Definition legacy : OperatorSecurityConfig := {| strict_auth := false; require_enrollment := false |}.

(** Enrollment is off only when both switches were turned off in so many words, the
    second one possibly by leaving it unset. *)
Lemma enrollment_off strict enrollment :
  require_enrollment (from_flags strict enrollment) = false ->
  exists v, strict = Some v /\ lower (trim v) ∈ [lit "0"; lit "false"; lit "no"].
Proof.
  simpl. intros (Hs & _)%orb_false_iff. destruct strict as [v|]; [|done]. exists v. split; [done|].
  simpl in Hs. apply negb_false_iff, bool_decide_eq_true in Hs. done.
Qed.

(** ** Lock stripes *)

Definition IO_STRIPE_COUNT : Z := 64.
Definition fnv_step (hash byte : Z) : Z := wrap64 (Z.lxor hash byte * 0x0100000001b3).
Definition io_stripe (key : str) : Z := foldl fnv_step 0xcbf29ce484222325 (as_bytes key) mod IO_STRIPE_COUNT.

(** ** Documents *)

Class JsonDoc (T : Type) : Type := { doc_write : T -> result str bytes; doc_read : bytes -> option T }.
Class JsonDocLaws (T : Type) (J : JsonDoc T) : Prop := {
  doc_roundtrip : forall v b, doc_write v = Ok b -> doc_read b = Some v;
}.

Inductive PersistOutcome : Type := Saved | NotSaved (msg : str) | Unsynced (msg : str).
Definition persist_atomic (o : PersistOutcome) (b : bytes) (file : option bytes) : result str unit * option bytes :=
  match o with
  | Saved => (Ok tt, Some b)
  | NotSaved msg => (Err msg, file)
  | Unsynced msg => (Err msg, Some b)
  end.
Definition persist_doc {T} `{JsonDoc T} (o : PersistOutcome) (v : T) (file : option bytes)
  : result str unit * option bytes :=
  match doc_write v with
  | Ok b => persist_atomic o b file
  | Err e => (Err e, file)
  end.
Definition read_doc {T} `{JsonDoc T} (file : option bytes) : option T := b ← file; doc_read b.

(** A document that was saved is the one read back. *)
Lemma persist_doc_ok {T} `{J : JsonDoc T} `{!JsonDocLaws T J} o (v : T) file u file' :
  persist_doc o v file = (Ok u, file') -> read_doc file' = Some v.
Proof.
  unfold persist_doc. destruct (doc_write v) as [b|] eqn:E; [|done]. destruct o; [|done..].
  intros [= _ <-]. simpl. by eapply doc_roundtrip.
Qed.

(** A document on disk after a write: the old one or the new one. *)
Definition written {T} `{JsonDoc T} (v : T) (old new : option bytes) : Prop :=
  new = old \/ exists b, doc_write v = Ok b /\ new = Some b.
Lemma persist_written {T} `{JsonDoc T} o (v : T) f r f' : persist_doc o v f = (r, f') -> written v f f'.
Proof.
  unfold persist_doc, written. destruct (doc_write v) as [b|]; [|intros [= _ <-]; auto].
  destruct o; intros [= _ <-]; eauto.
Qed.

(** A document that is on disk. *)
Definition saved {T} `{JsonDoc T} (v : T) (f : option bytes) : Prop := exists b, doc_write v = Ok b /\ f = Some b.
Lemma persist_saved {T} `{JsonDoc T} o (v : T) f u f' : persist_doc o v f = (Ok u, f') -> saved v f'.
Proof. unfold persist_doc, saved. destruct (doc_write v) as [b|]; [|done]. destruct o; [|done..]. intros [= _ <-]. eauto. Qed.
Lemma saved_read {T} `{J : JsonDoc T} `{!JsonDocLaws T J} (v : T) f : saved v f -> read_doc f = Some v.
Proof. intros (b & Hb & ->). simpl. by eapply doc_roundtrip. Qed.

(** The two outcomes of the one write in the goal. *)
Ltac persisting f E :=
  match goal with |- context [persist_doc ?o ?v ?g] => destruct (persist_doc o v g) as [[[]|] f] eqn:E end.

(** ** Sample document formats

    A number that encodes the document stands for its JSON text: enough to run the
    examples, and to show that the law of [JsonDoc] can hold. *)

Section Countable.
Context {T : Type} `{Countable T}.

Definition countable_doc : JsonDoc T :=
  {| doc_write v := Ok [Zpos (encode v)];
     doc_read b := match b with [Zpos p] => decode p | _ => None end |}.

Lemma countable_doc_laws : JsonDocLaws T countable_doc.
Proof. split. simpl. intros v b [= <-]. apply decode_encode. Qed.
End Countable.
