(* ===== verification/Admission.v ===== *)
(** * Admission of fleet nodes

    The membership half of src/services/operator/src/state.rs, with the peer
    descriptors of src/crates/storage/src/types.rs: ticket joins, control-plane
    announcements, refreshes, probation and graduation, over the four tables of the
    node and the documents that persist them.

    Every reading of the clock, every value of the environment and the outcome of
    every write to disk belong to the call; counters of the metrics endpoint and log
    lines are left out. *)

From S2P Require Import Prelude Errors Sorting Tables Primitives Names Crypto Invites OperatorCore.

#[local] Open Scope tx_scope.

Definition MAX_ACTIVE_PEERS : Z := 128.
Definition MAX_PEER_ANNOUNCE_AGE_SECS : Z := 86400.
Definition MAX_PEER_ANNOUNCE_SKEW_SECS : Z := 3600.

(** ** Peer descriptors *)

Module Peer.
Record PeerDescriptor : Type := {
  operator_id : str; endpoint : str; signing_pk_hex : str; timestamp_utc : Z; signature_hex : str;
}.
#[export] Instance PeerDescriptor_eq_dec : EqDecision PeerDescriptor.
Proof. solve_decision. Defined.

Fixpoint trim_start_char (c : Z) (s : str) : str :=
  match s with
  | [] => []
  | x :: rest => if x =? c then trim_start_char c rest else s
  end.
Definition trim_end_matches (c : Z) (s : str) : str := rev (trim_start_char c (rev s)).

Definition gossip_domain : bytes := lit "operator_peer_gossip".
Definition signing_bytes (self : PeerDescriptor) : bytes :=
  as_bytes (operator_id self) ++ lit ":" ++ as_bytes (trim_end_matches 47 (endpoint self)) ++ lit ":"
  ++ as_bytes (signing_pk_hex self) ++ lit ":" ++ to_le_bytes 8 (timestamp_utc self).

Section Peer.
Context {HX : Hex} {ED : Ed25519}.

Definition sign (self : PeerDescriptor) (signing_key : bytes) : PeerDescriptor :=
  {| operator_id := operator_id self; endpoint := endpoint self; signing_pk_hex := signing_pk_hex self;
     timestamp_utc := timestamp_utc self;
     signature_hex := hex_encode (sign_with_domain signing_key gossip_domain (signing_bytes self)) |}.
Definition new (operator_id endpoint : str) (signing_key : bytes) (now : Z) : PeerDescriptor :=
  sign {| operator_id := operator_id; endpoint := endpoint;
          signing_pk_hex := hex_encode (verifying_key signing_key); timestamp_utc := now;
          signature_hex := [] |} signing_key.

Definition bad (msg : str) : StorageError := ServerError 400 msg.
Definition verify (self : PeerDescriptor) : result StorageError unit :=
  let? pk := map_err (fun e => bad (lit "Invalid peer signing_pk_hex: " ++ lit e)) (hex_decode (signing_pk_hex self)) in
  bail? negb (blen pk =? 32) with bad (lit "Peer signing_pk must be 32 bytes") ;;
  let? sig := map_err (fun e => bad (lit "Invalid peer signature_hex: " ++ lit e)) (hex_decode (signature_hex self)) in
  bail? negb (blen sig =? 64) with bad (lit "Peer signature must be 64 bytes") ;;
  map_err (fun e => bad (lit "Cryptographic peer announcement signature invalid: " ++ display_crypto_error e))
    (verify_with_domain pk gossip_domain (signing_bytes self) sig).
End Peer.
End Peer.
Import Peer (PeerDescriptor).

(** ** Tables and documents *)

Inductive MembershipStatus : Type := Probation | Full.
#[export] Instance MembershipStatus_eq_dec : EqDecision MembershipStatus.
Proof. solve_decision. Defined.

Record PeerMembership : Type := {
  pm_status : MembershipStatus; pm_joined_utc : Z; pm_last_seen_utc : Z; pm_graduated_utc : option Z;
}.
Record MembershipView : Type := {
  vw_operator_id : str; vw_endpoint : str; vw_signing_pk_hex : str; vw_status : MembershipStatus;
  vw_joined_utc : option Z; vw_last_seen_utc : option Z; vw_graduated_utc : option Z;
}.
Record AdmissionRecord : Type := {
  ad_admitted_utc : Z; ad_node_pk_hex : str; ad_operator_id : str; ad_nonce_hex : str; ad_expires_utc : Z;
  ad_ticket_version : Z; ad_signer_pks : list str; ad_ticket_sha256 : str;
}.
Inductive JoinAuth : Type :=
| Legacy (key : str)
| Quorum (set : list str) (threshold : Z).

Record Admission : Type := MkAdmission {
  peer_routing_table : gmap str PeerDescriptor;
  peer_membership : gmap str PeerMembership;
  spent_invites : gmap str Z;
  admissions : list AdmissionRecord;
  peers_file : option bytes;
  membership_file : option bytes;
  spent_file : option bytes;
  admissions_file : option bytes;
}.
Definition with_routing (t : gmap str PeerDescriptor) (s : Admission) : Admission :=
  let 'MkAdmission _ m p a f1 f2 f3 f4 := s in MkAdmission t m p a f1 f2 f3 f4.
Definition with_membership (t : gmap str PeerMembership) (s : Admission) : Admission :=
  let 'MkAdmission r _ p a f1 f2 f3 f4 := s in MkAdmission r t p a f1 f2 f3 f4.
Definition with_spent (t : gmap str Z) (s : Admission) : Admission :=
  let 'MkAdmission r m _ a f1 f2 f3 f4 := s in MkAdmission r m t a f1 f2 f3 f4.
Definition with_admissions (t : list AdmissionRecord) (s : Admission) : Admission :=
  let 'MkAdmission r m p _ f1 f2 f3 f4 := s in MkAdmission r m p t f1 f2 f3 f4.

(** ** Calls *)

Record JoinCall : Type := {
  jc_now : string -> Z;                    (* each reading of the clock *)
  jc_env : Env;
  jc_persist : string -> PersistOutcome;   (* each write of a document *)
}.

Definition ATx (A : Type) : Type := Tx Admission str A.
Definition table_len {V} (t : gmap str V) : Z := Z.of_nat (size t).
(** The previous entry of a table, put back. *)
Definition restore {V} (k : str) (previous : option V) (t : gmap str V) : gmap str V :=
  match previous with Some v => <[k := v]> t | None => delete k t end.

Section Admission.
Context {HX : Hex} {ED : Ed25519} {SH : Sha256}.
Context {JP : JsonDoc (gmap str PeerDescriptor)} {JM : JsonDoc (gmap str PeerMembership)}.
Context {JS : JsonDoc (gmap str Z)} {JA : JsonDoc (list AdmissionRecord)} {JI : JsonDoc Invite.JoinInvite}.
Variable c : JoinCall.

Definition persist_peer_routing_table (at_ : string) (records : gmap str PeerDescriptor) : ATx unit := fun s =>
  let 'MkAdmission r m p a f1 f2 f3 f4 := s in
  let '(out, f) := persist_doc (jc_persist c at_) records f1 in (out, MkAdmission r m p a f f2 f3 f4).
Definition persist_peer_membership (at_ : string) (records : gmap str PeerMembership) : ATx unit := fun s =>
  let 'MkAdmission r m p a f1 f2 f3 f4 := s in
  let '(out, f) := persist_doc (jc_persist c at_) records f2 in (out, MkAdmission r m p a f1 f f3 f4).
Definition persist_spent_invites (at_ : string) (records : gmap str Z) : ATx unit := fun s =>
  let 'MkAdmission r m p a f1 f2 f3 f4 := s in
  let '(out, f) := persist_doc (jc_persist c at_) records f3 in (out, MkAdmission r m p a f1 f2 f f4).
Definition persist_admissions (at_ : string) (records : list AdmissionRecord) : ATx unit := fun s =>
  let 'MkAdmission r m p a f1 f2 f3 f4 := s in
  let '(out, f) := persist_doc (jc_persist c at_) records f4 in (out, MkAdmission r m p a f1 f2 f3 f).

(** [if let Err(error) = write { eprintln!(...) }] *)
Definition best_effort (m : ATx unit) : ATx unit := tcatch m (fun _ => tret (Ok tt)).

Definition http_endpoint (endpoint : str) : bool :=
  let e := trim endpoint in
  (starts_with (lit "https://") e || starts_with (lit "http://") e)
  && negb (bool_decide (64 ∈ e)) && negb (existsb (fun b => b <? 32) (as_bytes e)).

Definition validate_peer_descriptor (peer : PeerDescriptor) : result str unit :=
  let? _ := map_err (fun e => lit "Invalid peer signature: " ++ display_storage_error e) (Peer.verify peer) in
  let now := jc_now c "validate" in
  bail? Peer.timestamp_utc peer >? sat_add64 now MAX_PEER_ANNOUNCE_SKEW_SECS
    with lit "Peer announcement timestamp is too far in the future" ;;
  bail? sat_sub now (Peer.timestamp_utc peer) >=? MAX_PEER_ANNOUNCE_AGE_SECS
    with lit "Peer announcement is stale" ;;
  bail? negb (http_endpoint (Peer.endpoint peer))
    with lit "Peer endpoint must be an absolute HTTP(S) URL without credentials" ;;
  Ok tt.

Definition fresh_peers (now : Z) (t : gmap str PeerDescriptor) : gmap str PeerDescriptor :=
  filter (fun kv => sat_sub now (Peer.timestamp_utc kv.2) < 86400) t.

Definition insert_peer (peer : PeerDescriptor) : ATx Z :=
  do table <- tget (fun s => fresh_peers (jc_now c "insert") (peer_routing_table s)) ;;
  tmodify (with_routing table) ;;;
  let id := Peer.operator_id peer in
  if bool_decide (table !! id = None) && (table_len table >=? MAX_ACTIVE_PEERS) then
    tret (Err (lit "Peer routing table capacity reached")) else
  let inserted := <[id := peer]> table in
  tmodify (with_routing inserted) ;;;
  tcatch (persist_peer_routing_table "insert_peer" inserted) (fun error =>
    tmodify (with_routing (restore id (table !! id) inserted)) ;;;
    tret (Err (lit "Unable to persist peer routing table: " ++ error))) ;;;
  tret (Ok (table_len inserted)).

(** ** Standing *)

Definition mark_probation_member (id : str) (now : Z) : ATx unit :=
  do table <- tget peer_membership ;;
  let updated := match table !! id with
    | Some r => {| pm_status := pm_status r; pm_joined_utc := pm_joined_utc r; pm_last_seen_utc := now;
                   pm_graduated_utc := pm_graduated_utc r |}
    | None => {| pm_status := Probation; pm_joined_utc := now; pm_last_seen_utc := now; pm_graduated_utc := None |}
    end in
  tmodify (with_membership (<[id := updated]> table)) ;;;
  tcatch (persist_peer_membership "probation" (<[id := updated]> table)) (fun error =>
    tmodify (with_membership (restore id (table !! id) (<[id := updated]> table))) ;;;
    tret (Err (lit "Unable to persist peer membership: " ++ error))).

Definition mark_full_member (id : str) : ATx bool :=
  let now := jc_now c "full" in
  do table <- tget peer_membership ;;
  let newly_full := negb match table !! id with Some r => bool_decide (pm_status r = Full) | None => false end in
  let updated := {| pm_status := Full; pm_joined_utc := default now (pm_joined_utc <$> table !! id);
                    pm_last_seen_utc := now; pm_graduated_utc := Some now |} in
  tmodify (with_membership (<[id := updated]> table)) ;;;
  tcatch (persist_peer_membership "full" (<[id := updated]> table)) (fun error =>
    tmodify (with_membership (restore id (table !! id) (<[id := updated]> table))) ;;;
    tret (Err (lit "Unable to persist peer membership: " ++ error))) ;;;
  tret (Ok newly_full).

Definition served (now : Z) (r : PeerMembership) : bool :=
  bool_decide (pm_status r = Probation) && (min_probation_secs (jc_env c) <=? sat_sub now (pm_joined_utc r)).
Definition graduate (now : Z) (r : PeerMembership) : PeerMembership :=
  {| pm_status := Full; pm_joined_utc := pm_joined_utc r; pm_last_seen_utc := pm_last_seen_utc r;
     pm_graduated_utc := Some now |}.
Definition seen (now : Z) (r : PeerMembership) : PeerMembership :=
  {| pm_status := pm_status r; pm_joined_utc := pm_joined_utc r; pm_last_seen_utc := now;
     pm_graduated_utc := pm_graduated_utc r |}.
Definition back_to_probation (r : PeerMembership) : PeerMembership :=
  {| pm_status := Probation; pm_joined_utc := pm_joined_utc r; pm_last_seen_utc := pm_last_seen_utc r;
     pm_graduated_utc := None |}.

Definition note_peer_liveness (id : str) (now : Z) : ATx MembershipStatus :=
  do table <- tget peer_membership ;;
  match table !! id with
  | None => tret (Ok Full)
  | Some record =>
      let updated := if served now (seen now record) then graduate now (seen now record) else seen now record in
      tmodify (with_membership (<[id := updated]> table)) ;;;
      tcatch (persist_peer_membership "liveness" (<[id := updated]> table)) (fun error =>
        tmodify (with_membership (<[id := record]> (<[id := updated]> table))) ;;;
        tret (Err (lit "Unable to persist peer membership: " ++ error))) ;;;
      tret (Ok (pm_status updated))
  end.

Definition note_peer_heartbeat (id : str) : ATx unit :=
  let now := jc_now c "heartbeat" in
  do table <- tget peer_membership ;;
  match table !! id with
  | None => tret (Ok tt)
  | Some record =>
      if served now (seen now record) then
        let updated := graduate now (seen now record) in
        tmodify (with_membership (<[id := updated]> table)) ;;;
        tcatch (persist_peer_membership "heartbeat" (<[id := updated]> table)) (fun _ =>
          tmodify (with_membership (<[id := back_to_probation updated]> table)))
      else tmodify (with_membership (<[id := seen now record]> table))
  end.

Definition graduate_peer (id : str) : ATx bool :=
  do known <- tget (fun s => bool_decide (is_Some (peer_routing_table s !! id))
                             || bool_decide (is_Some (peer_membership s !! id))) ;;
  if negb known then tret (Ok false) else mark_full_member id ;;; tret (Ok true).

Definition is_probationary (s : Admission) (id : str) : bool :=
  match peer_membership s !! id with Some r => bool_decide (pm_status r = Probation) | None => false end.

Definition get_active_peers : ATx (list PeerDescriptor) :=
  do table <- tget (fun s => fresh_peers (jc_now c "active") (peer_routing_table s)) ;;
  tmodify (with_routing table) ;;;
  tret (Ok (snd <$> map_to_list table)).

(** Served, and seen lately. *)
Definition flips (now : Z) (r : PeerMembership) : bool :=
  served now r && (sat_sub now (pm_last_seen_utc r) <=? join_liveness_grace_secs (jc_env c)).
Definition view_of (membership : gmap str PeerMembership) (peer : PeerDescriptor) : MembershipView :=
  let record := membership !! Peer.operator_id peer in
  {| vw_operator_id := Peer.operator_id peer; vw_endpoint := Peer.endpoint peer;
     vw_signing_pk_hex := Peer.signing_pk_hex peer; vw_status := default Full (pm_status <$> record);
     vw_joined_utc := pm_joined_utc <$> record; vw_last_seen_utc := pm_last_seen_utc <$> record;
     vw_graduated_utc := record ≫= pm_graduated_utc |}.
Definition view_le (a b : MembershipView) : bool := lex_le (as_bytes (vw_operator_id a)) (as_bytes (vw_operator_id b)).

Definition membership_snapshot : ATx (list MembershipView) :=
  let now := jc_now c "snapshot" in
  do table <- tget peer_membership ;;
  let flipped := (fun r => if flips now r then graduate now r else r) <$> table in
  (if bool_decide (map_Forall (fun _ r => flips now r = false) table) then tret (Ok tt) else
   tmodify (with_membership flipped) ;;;
   tcatch (persist_peer_membership "snapshot" flipped) (fun _ =>
     tmodify (with_membership
       (map_imap (fun id r => Some (match table !! id with
                                    | Some old => if flips now old then back_to_probation r else r
                                    | None => r
                                    end)) flipped)))) ;;;
  do peers <- get_active_peers ;;
  do membership <- tget peer_membership ;;
  tret (Ok (sort view_le (view_of membership <$> peers))).

(** ** Announcements and joins *)

Definition trusted_key (peer : PeerDescriptor) : bool :=
  match jc_env c "CIPHERVAULT_TRUSTED_PEER_KEYS" with
  | Some allowed => existsb (fun v => negb (bool_decide (v = [])) && bool_decide (v = lower (Peer.signing_pk_hex peer)))
                      ((fun v => lower (trim v)) <$> split_on 44 allowed)
  | None => true
  end.

Definition rollback_peer_insert (at_ : string) (id : str) (previous : option PeerDescriptor) : ATx unit :=
  do table <- tget peer_routing_table ;;
  let restored := restore id previous table in
  tmodify (with_routing restored) ;;;
  best_effort (persist_peer_routing_table at_ restored).

Definition register_peer (peer : PeerDescriptor) : ATx Z :=
  tret (validate_peer_descriptor peer) ;;;
  if negb (trusted_key peer) then tret (Err (lit "Peer signing key is not in the configured trust registry")) else
  let id := Peer.operator_id peer in
  do previous <- tget (fun s => peer_routing_table s !! id) ;;
  do count <- insert_peer peer ;;
  tcatch (mark_full_member id ;;; tret (Ok count)) (fun error =>
    rollback_peer_insert "register_rollback" id previous ;;; tret (Err error)).

Definition refresh_peer_join (peer : PeerDescriptor) : ATx MembershipStatus :=
  tret (validate_peer_descriptor peer) ;;;
  let id := Peer.operator_id peer in
  do stored <- tget (fun s => peer_routing_table s !! id) ;;
  if negb match stored with
          | Some p => eq_ignore_ascii_case (Peer.signing_pk_hex p) (Peer.signing_pk_hex peer)
          | None => false
          end
  then tret (Err (lit "Unknown joiner: no routing entry for this operator id and key")) else
  insert_peer peer ;;;
  note_peer_liveness id (jc_now c "refresh").

Definition spend_invite (nonce : str) (expires : Z) (id : str) (now : Z) : ATx unit :=
  do admitted <- tget (fun s => bool_decide (is_Some (peer_membership s !! id))) ;;
  do table <- tget (fun s => filter (fun kv => now < kv.2) (spent_invites s)) ;;
  tmodify (with_spent table) ;;;
  if bool_decide (is_Some (table !! nonce)) then
    if negb admitted then tret (Err (lit "Join invite was already spent")) else tret (Ok tt)
  else
    let spent := <[nonce := expires]> table in
    tmodify (with_spent spent) ;;;
    tcatch (persist_spent_invites "spend" spent) (fun error =>
      tmodify (with_spent (delete nonce spent)) ;;;
      tret (Err (lit "Unable to persist spent invites: " ++ error))).

Definition unspend_invite (at_ : string) (nonce : str) : ATx unit :=
  do table <- tget spent_invites ;;
  if bool_decide (is_Some (table !! nonce)) then
    tmodify (with_spent (delete nonce table)) ;;; best_effort (persist_spent_invites at_ (delete nonce table))
  else tret (Ok tt).

Definition log_admission (record : AdmissionRecord) : ATx unit :=
  do log <- tget admissions ;;
  tmodify (with_admissions (log ++ [record])) ;;;
  tcatch (persist_admissions "admission" (log ++ [record])) (fun error =>
    tmodify (with_admissions log) ;;; tret (Err (lit "Unable to persist admission log: " ++ error))).

Definition restore_membership (id : str) (previous : option PeerMembership) : ATx unit :=
  do table <- tget peer_membership ;;
  let restored := restore id previous table in
  tmodify (with_membership restored) ;;;
  best_effort (persist_peer_membership "restore" restored).

Definition CLOSED : str := lit "Verified join is not configured on this node".
Definition join_auth_config : result str JoinAuth :=
  let env := jc_env c in
  match env_value env "CIPHERVAULT_FLEET_KEYS" with
  | Some list_ =>
      let set := filter (fun k => k <> []) (trim <$> split_on 44 list_) in
      bail? bool_decide (set = []) with CLOSED ;;
      match env_value env "CIPHERVAULT_QUORUM_K" with
      | None => Ok (Quorum set (Invite.quorum_default (blen set)))
      | Some text =>
          match u64_parse text with
          | Some value => if (1 <=? value) && (value <=? blen set) then Ok (Quorum set value) else Err CLOSED
          | None => Err CLOSED
          end
      end
  | None =>
      match env_value env "CIPHERVAULT_FLEET_KEY" with
      | Some key => Ok (Legacy key)
      | None => Err CLOSED
      end
  end.

(** The approving fleet keys of a ticket, under the configured rule. *)
Definition ticket_signers (auth : JoinAuth) (invite : Invite.JoinInvite) (now : Z) : result str (list str) :=
  match auth with
  | Legacy key =>
      let? _ := map_err display_storage_error (Invite.verify invite key now) in Ok [Invite.issuer_pk_hex invite]
  | Quorum set threshold => map_err display_storage_error (Invite.verify_quorum invite set threshold now)
  end.

Definition join_with_invite (peer : PeerDescriptor) (invite : Invite.JoinInvite) : ATx Z :=
  do auth <- tret join_auth_config ;;
  let now := jc_now c "join" in
  do signers <- tret (ticket_signers auth invite now) ;;
  if negb (eq_ignore_ascii_case (Peer.signing_pk_hex peer) (Invite.node_pk_hex invite)) then
    tret (Err (lit "Invite node key does not match the announced descriptor")) else
  tret (validate_peer_descriptor peer) ;;;
  let id := Peer.operator_id peer in
  let nonce := Invite.nonce_hex invite in
  spend_invite nonce (Invite.expires_utc invite) id now ;;;
  do previous_peer <- tget (fun s => peer_routing_table s !! id) ;;
  do previous_membership <- tget (fun s => peer_membership s !! id) ;;
  do count <- tcatch (insert_peer peer) (fun error => unspend_invite "unspend_insert" nonce ;;; tret (Err error)) ;;
  tcatch (mark_probation_member id now) (fun error =>
    rollback_peer_insert "rollback_membership" id previous_peer ;;;
    unspend_invite "unspend_membership" nonce ;;; tret (Err error)) ;;;
  do ticket_json <- tret (doc_write invite) ;;
  let record := {| ad_admitted_utc := now; ad_node_pk_hex := Invite.node_pk_hex invite; ad_operator_id := id;
                   ad_nonce_hex := nonce; ad_expires_utc := Invite.expires_utc invite;
                   ad_ticket_version := Invite.version invite; ad_signer_pks := signers;
                   ad_ticket_sha256 := hex_encode (sha256 ticket_json) |} in
  tcatch (log_admission record) (fun error =>
    rollback_peer_insert "rollback_log" id previous_peer ;;;
    restore_membership id previous_membership ;;;
    unspend_invite "unspend_log" nonce ;;; tret (Err error)) ;;;
  tret (Ok count).

(** ** Restart *)

Definition load_peer (now : Z) (id : str) (peer : PeerDescriptor) : bool :=
  bool_decide (Peer.operator_id peer = id) && is_ok (Peer.verify peer)
  && (sat_sub now (Peer.timestamp_utc peer) <? 86400).
Definition restart (s : Admission) : Admission :=
  let now := jc_now c "load" in
  {| peer_routing_table := filter (fun kv => load_peer now kv.1 kv.2 = true) (default ∅ (read_doc (peers_file s)));
     peer_membership := filter (fun kv => pm_joined_utc kv.2 <= pm_last_seen_utc kv.2)
                          (default ∅ (read_doc (membership_file s)));
     spent_invites := filter (fun kv => now < kv.2) (default ∅ (read_doc (spent_file s)));
     admissions := default [] (read_doc (admissions_file s));
     peers_file := peers_file s; membership_file := membership_file s; spent_file := spent_file s;
     admissions_file := admissions_file s |}.
End Admission.
