(* ===== verification/AdmissionTheory.v ===== *)
(** * On what standing a member is admitted

    Histories of the calls of [Admission], restarts among them: full membership is
    earned or granted by the control plane. *)

From S2P Require Import Prelude Errors Sorting Tables Primitives SamplePrimitives Names Crypto Invites OperatorCore Admission.

#[local] Open Scope tx_scope.
Import Peer (PeerDescriptor).

Inductive JoinAction : Type :=
| JRegister (peer : PeerDescriptor)
| JJoin (peer : PeerDescriptor) (invite : Invite.JoinInvite)
| JRefresh (peer : PeerDescriptor)
| JHeartbeat (id : str)
| JGraduate (id : str)
| JSnapshot
| JActive
| JRestart.

Section Theory.
Context {HX : Hex} {ED : Ed25519} {SH : Sha256}.
Context {JP : JsonDoc (gmap str PeerDescriptor)} {JM : JsonDoc (gmap str PeerMembership)}.
Context {JS : JsonDoc (gmap str Z)} {JA : JsonDoc (list AdmissionRecord)} {JI : JsonDoc Invite.JoinInvite}.

Definition act (c : JoinCall) (a : JoinAction) (s : Admission) : Admission :=
  match a with
  | JRegister peer => (register_peer c peer s).2
  | JJoin peer invite => (join_with_invite c peer invite s).2
  | JRefresh peer => (refresh_peer_join c peer s).2
  | JHeartbeat id => (note_peer_heartbeat c id s).2
  | JGraduate id => (graduate_peer c id s).2
  | JSnapshot => (membership_snapshot c s).2
  | JActive => (get_active_peers c s).2
  | JRestart => restart c s
  end.
Definition acts (h : list (JoinCall * JoinAction)) (s : Admission) : Admission :=
  foldl (fun s ca => act ca.1 ca.2 s) s h.

(** ** Writes *)

Definition set_files (f1 f2 f3 f4 : option bytes) (s : Admission) : Admission :=
  MkAdmission (peer_routing_table s) (peer_membership s) (spent_invites s) (admissions s) f1 f2 f3 f4.

Lemma hoare_persist_peers I c at_ v s (Q : unit -> Admission -> Prop) :
  (forall f, I (set_files f (membership_file s) (spent_file s) (admissions_file s) s)) ->
  (forall f, Q tt (set_files f (membership_file s) (spent_file s) (admissions_file s) s)) ->
  hoare I (persist_peer_routing_table c at_ v) s Q.
Proof.
  intros HI HQ. unfold hoare, persist_peer_routing_table. destruct s as [r m p a f1 f2 f3 f4].
  destruct (persist_doc _ _ _) as [[[]|] f]; [apply HQ|apply HI].
Qed.
Lemma hoare_persist_membership I c at_ v s (Q : unit -> Admission -> Prop) :
  (forall f, written v (membership_file s) f -> I (set_files (peers_file s) f (spent_file s) (admissions_file s) s)) ->
  (forall f, written v (membership_file s) f -> Q tt (set_files (peers_file s) f (spent_file s) (admissions_file s) s)) ->
  hoare I (persist_peer_membership c at_ v) s Q.
Proof.
  intros HI HQ. unfold hoare, persist_peer_membership. destruct s as [r m p a f1 f2 f3 f4].
  destruct (persist_doc _ _ _) as [[[]|] f] eqn:E; apply persist_written in E; [by apply HQ|by apply HI].
Qed.
Lemma hoare_persist_spent I c at_ v s (Q : unit -> Admission -> Prop) :
  (forall f, I (set_files (peers_file s) (membership_file s) f (admissions_file s) s)) ->
  (forall f, Q tt (set_files (peers_file s) (membership_file s) f (admissions_file s) s)) ->
  hoare I (persist_spent_invites c at_ v) s Q.
Proof.
  intros HI HQ. unfold hoare, persist_spent_invites. destruct s as [r m p a f1 f2 f3 f4].
  destruct (persist_doc _ _ _) as [[[]|] f]; [apply HQ|apply HI].
Qed.
Lemma hoare_persist_admissions I c at_ v s (Q : unit -> Admission -> Prop) :
  (forall f, I (set_files (peers_file s) (membership_file s) (spent_file s) f s)) ->
  (forall f, Q tt (set_files (peers_file s) (membership_file s) (spent_file s) f s)) ->
  hoare I (persist_admissions c at_ v) s Q.
Proof.
  intros HI HQ. unfold hoare, persist_admissions. destruct s as [r m p a f1 f2 f3 f4].
  destruct (persist_doc _ _ _) as [[[]|] f]; [apply HQ|apply HI].
Qed.

(** ** Standing is earned or granted *)

Section Standing.
Context {LM : JsonDocLaws (gmap str PeerMembership) JM}.
(** The operators that the control plane has named so far. *)
Variable W : str -> Prop.

Definition earned (id : str) (r : PeerMembership) : Prop :=
  pm_status r = Full -> W id \/ exists g, pm_graduated_utc r = Some g /\ pm_joined_utc r + 60 <= g.
Definition standing (t : gmap str PeerMembership) : Prop := map_Forall earned t.
(** In memory and on disk. *)
Definition standing_ok (s : Admission) : Prop :=
  standing (peer_membership s) /\ forall t, read_doc (membership_file s) = Some t -> standing t.

Lemma standing_insert id r t : standing t -> earned id r -> standing (<[id := r]> t).
Proof. intros Ht Hr. by apply map_Forall_insert_2. Qed.
Lemma standing_restore id o t : standing t -> (forall r, o = Some r -> earned id r) -> standing (restore id o t).
Proof. intros Ht Ho. destruct o as [r|]; simpl; [by apply standing_insert; [|apply Ho]|by apply map_Forall_delete]. Qed.
Lemma standing_lookup id r t : standing t -> t !! id = Some r -> earned id r.
Proof. intros Ht Hr. by apply (Ht id). Qed.

(** Only the membership table and its document matter. *)
Lemma standing_frame s s' :
  standing_ok s -> peer_membership s' = peer_membership s -> membership_file s' = membership_file s -> standing_ok s'.
Proof. intros (Hm & Hf) E1 E2. split; [by rewrite E1|by rewrite E2]. Qed.
Lemma standing_files s f1 f3 f4 : standing_ok s -> standing_ok (set_files f1 (membership_file s) f3 f4 s).
Proof. intros Hs. by eapply standing_frame. Qed.
Lemma standing_routing s t : standing_ok s -> standing_ok (with_routing t s).
Proof. intros Hs. by destruct s. Qed.
Lemma standing_spent s t : standing_ok s -> standing_ok (with_spent t s).
Proof. intros Hs. by destruct s. Qed.
Lemma standing_log s t : standing_ok s -> standing_ok (with_admissions t s).
Proof. intros Hs. by destruct s. Qed.
Lemma standing_membership s t : standing_ok s -> standing t -> standing_ok (with_membership t s).
Proof. intros (Hm & Hf) Ht. by destruct s. Qed.

Lemma standing_written s v f :
  standing_ok s -> standing v -> written v (membership_file s) f ->
  standing_ok (set_files (peers_file s) f (spent_file s) (admissions_file s) s).
Proof.
  intros (Hm & Hf) Hv Hw. split; [done|]. simpl. destruct Hw as [->|(b & Hb & ->)]; [done|].
  simpl. intros t Ht. apply doc_roundtrip in Hb. rewrite Hb in Ht. by injection Ht as <-.
Qed.
Create HintDb standing.
Lemma standing_persist c at_ v s :
  standing_ok s -> standing v -> hoare standing_ok (persist_peer_membership c at_ v) s (fun _ => standing_ok).
Proof. intros Hs Hv. apply hoare_persist_membership; intros f Hf; by eapply standing_written. Qed.
Lemma standing_persist_peers c at_ v s :
  standing_ok s -> hoare standing_ok (persist_peer_routing_table c at_ v) s (fun _ => standing_ok).
Proof. intros Hs. apply hoare_persist_peers; intros f; by apply standing_files. Qed.
Lemma standing_persist_spent c at_ v s :
  standing_ok s -> hoare standing_ok (persist_spent_invites c at_ v) s (fun _ => standing_ok).
Proof. intros Hs. apply hoare_persist_spent; intros f; by apply standing_files. Qed.
Lemma standing_persist_admissions c at_ v s :
  standing_ok s -> hoare standing_ok (persist_admissions c at_ v) s (fun _ => standing_ok).
Proof. intros Hs. apply hoare_persist_admissions; intros f; by apply standing_files. Qed.
Lemma standing_mem s : standing_ok s -> standing (peer_membership s).
Proof. by intros (Hm & _). Qed.
#[local] Hint Resolve standing_insert standing_restore standing_lookup standing_routing standing_spent standing_log
  standing_membership standing_persist standing_persist_peers standing_persist_spent standing_persist_admissions
  standing_mem : standing.
Ltac keeps := keep ltac:(first [solve [eauto 6 with standing nocore] | solve [eauto 8 with standing nocore] | solve [eauto 10 with standing nocore] | idtac]).

(** Every call keeps the standing; a promotion needs the control plane or the time served. *)
Lemma insert_standing c peer s : standing_ok s -> hoare standing_ok (insert_peer c peer) s (fun _ => standing_ok).
Proof. intros Hs. unfold insert_peer. keeps. Qed.

Lemma probation_standing c id now s : standing_ok s -> hoare standing_ok (mark_probation_member c id now) s (fun _ => standing_ok).
Proof.
  intros Hs. unfold mark_probation_member. apply hoare_get_bind. set (updated := match _ !! id with Some _ => _ | None => _ end).
  assert (earned id updated) as Hu.
  { unfold updated. destruct (_ !! id) as [r|] eqn:E; [exact (standing_lookup _ _ _ (standing_mem _ Hs) E)|done]. }
  keeps.
Qed.

Lemma full_standing c id s : W id -> standing_ok s -> hoare standing_ok (mark_full_member c id) s (fun _ => standing_ok).
Proof.
  intros Hw Hs. assert (forall r, earned id r) as Hu by (intros r _; by left). unfold mark_full_member. keeps.
Qed.

Lemma graduate_earned c now id r : served c now r = true -> earned id (graduate now r).
Proof.
  unfold served. intros (_ & Ht)%andb_true_iff _. right. exists now. split; [done|]. simpl.
  apply Z.leb_le in Ht. pose proof (probation_at_least_a_minute (jc_env c)). unfold sat_sub in Ht. lia.
Qed.
Lemma seen_earned now id r : earned id r -> earned id (seen now r).
Proof. done. Qed.
Lemma back_earned id r : earned id (back_to_probation r).
Proof. done. Qed.
#[local] Hint Resolve seen_earned graduate_earned back_earned : standing.

Lemma liveness_standing c id now s : standing_ok s -> hoare standing_ok (note_peer_liveness c id now) s (fun _ => standing_ok).
Proof.
  intros Hs. unfold note_peer_liveness. apply hoare_get_bind. destruct (_ !! id) as [record|] eqn:E; [|keeps].
  assert (earned id record) as Hr by eauto with standing. set (updated := if served _ _ _ then _ else _).
  assert (earned id updated) as Hu by (unfold updated; destruct (served _ _ _) eqn:Es; eauto with standing). keeps.
Qed.

Lemma heartbeat_standing c id s : standing_ok s -> hoare standing_ok (note_peer_heartbeat c id) s (fun _ => standing_ok).
Proof.
  intros Hs. unfold note_peer_heartbeat. cbv zeta. apply hoare_get_bind. destruct (_ !! id) as [record|] eqn:E; [|keeps].
  assert (earned id record) as Hr by eauto with standing. keeps.
Qed.

Lemma best_effort_standing m s :
  hoare standing_ok m s (fun _ => standing_ok) -> hoare standing_ok (best_effort m) s (fun _ => standing_ok).
Proof. intros Hm. unfold best_effort. keeps. Qed.
#[local] Hint Resolve best_effort_standing insert_standing probation_standing full_standing liveness_standing : standing.

Lemma rollback_standing c at_ id previous s :
  standing_ok s -> hoare standing_ok (rollback_peer_insert c at_ id previous) s (fun _ => standing_ok).
Proof. intros Hs. unfold rollback_peer_insert. keeps. Qed.

Lemma active_standing c s : standing_ok s -> hoare standing_ok (get_active_peers c) s (fun _ => standing_ok).
Proof. intros Hs. unfold get_active_peers. keeps. Qed.

Lemma flips_standing c now t : standing t -> standing ((fun r => if flips c now r then graduate now r else r) <$> t).
Proof.
  intros Ht id r. rewrite lookup_fmap. destruct (t !! id) as [r0|] eqn:E; [|done]. intros [= <-].
  destruct (flips c now r0) eqn:Ef; [|eauto with standing]. unfold flips in Ef. apply andb_true_iff in Ef as (Es & _). eauto with standing.
Qed.
#[local] Hint Resolve rollback_standing active_standing flips_standing : standing.

Lemma snapshot_standing c s : standing_ok s -> hoare standing_ok (membership_snapshot c) s (fun _ => standing_ok).
Proof.
  intros Hs. unfold membership_snapshot. keeps.
  all: apply standing_membership; [done|]; intros id r; rewrite map_lookup_imap, lookup_fmap.
  all: destruct (_ !! id) as [r0|] eqn:E; [|done]; simpl; intros [= <-].
  all: destruct (flips c _ r0); [done|]; eauto with standing.
Qed.

Lemma register_standing c peer s :
  W (Peer.operator_id peer) -> standing_ok s -> hoare standing_ok (register_peer c peer) s (fun _ => standing_ok).
Proof. intros Hw Hs. unfold register_peer. keeps. Qed.

Lemma refresh_standing c peer s : standing_ok s -> hoare standing_ok (refresh_peer_join c peer) s (fun _ => standing_ok).
Proof. intros Hs. unfold refresh_peer_join. keeps. Qed.

Lemma unspend_standing c at_ nonce s : standing_ok s -> hoare standing_ok (unspend_invite c at_ nonce) s (fun _ => standing_ok).
Proof. intros Hs. unfold unspend_invite. keeps. Qed.

Lemma spend_standing c nonce expires id now s :
  standing_ok s -> hoare standing_ok (spend_invite c nonce expires id now) s (fun _ => standing_ok).
Proof. intros Hs. unfold spend_invite. keeps. Qed.

Lemma log_standing c record s : standing_ok s -> hoare standing_ok (log_admission c record) s (fun _ => standing_ok).
Proof. intros Hs. unfold log_admission. keeps. Qed.

Lemma restore_standing c id previous s :
  standing_ok s -> (forall r, previous = Some r -> earned id r) ->
  hoare standing_ok (restore_membership c id previous) s (fun _ => standing_ok).
Proof. intros Hs Hp. unfold restore_membership. keeps. Qed.
#[local] Hint Resolve unspend_standing spend_standing log_standing restore_standing : standing.

Lemma join_standing c peer invite s : standing_ok s -> hoare standing_ok (join_with_invite c peer invite) s (fun _ => standing_ok).
Proof. intros Hs. unfold join_with_invite. keeps. Qed.

Lemma graduate_standing c id s : W id -> standing_ok s -> hoare standing_ok (graduate_peer c id) s (fun _ => standing_ok).
Proof. intros Hw Hs. unfold graduate_peer. keeps. Qed.

Lemma restart_standing c s : standing_ok s -> standing_ok (restart c s).
Proof.
  intros (Hm & Hf). split; [|done]. simpl. intros id r (Hr & _)%map_lookup_filter_Some.
  destruct (read_doc (membership_file s)) as [t|]; [by apply (Hf t eq_refl)|done].
Qed.
End Standing.

(** The control plane named the operator: an announcement under the service token, or
    an explicit graduation. *)
Definition named (id : str) (h : list (JoinCall * JoinAction)) : Prop :=
  exists c, (c, JGraduate id) ∈ h \/ exists peer, (c, JRegister peer) ∈ h /\ Peer.operator_id peer = id.

Lemma act_standing {LM : JsonDocLaws (gmap str PeerMembership) JM} W c a s :
  (forall id, named id [(c, a)] -> W id) -> standing_ok W s -> standing_ok W (act c a s).
Proof.
  intros HW Hs. destruct a; simpl; try apply hoare_state.
  - apply register_standing; [|done]. apply HW. exists c. right. exists peer. by split; [apply list_elem_of_here|].
  - by apply join_standing.
  - by apply refresh_standing.
  - by apply heartbeat_standing.
  - apply graduate_standing; [|done]. apply HW. exists c. left. apply list_elem_of_here.
  - by apply snapshot_standing.
  - by apply active_standing.
  - by apply restart_standing.
Qed.

Lemma acts_standing {LM : JsonDocLaws (gmap str PeerMembership) JM} W h s :
  (forall id, named id h -> W id) -> standing_ok W s -> standing_ok W (acts h s).
Proof.
  revert s; induction h as [|[c a] h IH]; intros s HW Hs; [done|]. simpl. apply IH.
  - intros id (c' & Hc). apply HW. exists c'. set_solver.
  - apply act_standing; [|done]. intros id (c' & Hc). apply HW. exists c'. set_solver.
Qed.

(** C18: on a node that starts without members, in every history of joins, announcements,
    refreshes, heartbeats, snapshots and restarts, whatever writes fail: a recorded full
    member was named by the control plane, or was on probation for at least a minute,
    in memory and on disk. *)
Theorem probation_served {LM : JsonDocLaws (gmap str PeerMembership) JM} h s id r t :
  peer_membership s = ∅ -> read_doc (T := gmap str PeerMembership) (membership_file s) = None ->
  peer_membership (acts h s) = t \/ read_doc (membership_file (acts h s)) = Some t ->
  t !! id = Some r -> pm_status r = Full ->
  named id h \/ exists g, pm_graduated_utc r = Some g /\ pm_joined_utc r + 60 <= g.
Proof.
  intros Em Ef Ht Hr Hfull.
  destruct (acts_standing (fun id => named id h) h s) as (Hm & Hf); [done|split; [by rewrite Em|by rewrite Ef]|].
  assert (standing (fun id => named id h) t) as Hst by (destruct Ht as [<-|Ht]; [done|by apply Hf]).
  by apply (standing_lookup _ id r t Hst Hr).
Qed.
End Theory.
