(* ===== verification/AdmissionJoin.v ===== *)
(** * What a join does

    A join that fails leaves the tables as they were, a join that succeeds rests on a
    verified ticket and leaves evidence, a spent ticket is refused, and an admitted
    node becomes a full member.  The last part shows where tickets can be used again
    and probation be lost. *)

From S2P Require Import Prelude Errors Sorting Tables Primitives SamplePrimitives Names Crypto Invites OperatorCore Admission AdmissionTheory.

#[local] Open Scope tx_scope.
Import Peer (PeerDescriptor).

Section Theory.
Context {HX : Hex} {ED : Ed25519} {SH : Sha256}.
Context {JP : JsonDoc (gmap str PeerDescriptor)} {JM : JsonDoc (gmap str PeerMembership)}.
Context {JS : JsonDoc (gmap str Z)} {JA : JsonDoc (list AdmissionRecord)} {JI : JsonDoc Invite.JoinInvite}.

(** ** Specifications of the calls *)

Lemma restore_insert {V} (t : gmap str V) id x : restore id (t !! id) (<[id := x]> t) = t.
Proof.
  destruct (t !! id) as [v|] eqn:E; simpl; [by rewrite insert_insert_eq, insert_id|by rewrite delete_insert_id].
Qed.

Definition on_probation (previous : option PeerMembership) (now : Z) : PeerMembership :=
  match previous with
  | Some r => seen now r
  | None => {| pm_status := Probation; pm_joined_utc := now; pm_last_seen_utc := now; pm_graduated_utc := None |}
  end.
Definition unexpired (now : Z) (p : gmap str Z) : gmap str Z := filter (fun kv => now < kv.2) p.

Section Join.
Variable c : JoinCall.

Lemma insert_peer_spec peer r m p a f1 f2 f3 f4 :
  let t := fresh_peers (jc_now c "insert") r in
  let t' := <[Peer.operator_id peer := peer]> t in
  hoare (fun s' => exists f, written t' f1 f /\ s' = MkAdmission t m p a f f2 f3 f4)
    (insert_peer c peer) (MkAdmission r m p a f1 f2 f3 f4)
    (fun n s' => n = table_len t' /\ exists f, saved t' f /\ s' = MkAdmission t' m p a f f2 f3 f4).
Proof.
  intros t t'. unfold insert_peer. apply hoare_get_bind, hoare_modify_bind. cbv zeta. cbn [peer_routing_table with_routing].
  fold t. destruct (_ && _); [apply hoare_ret; [exists f1; split; [by left|done]|done]|].
  unfold hoare, tmodify, tbind, tcatch, persist_peer_routing_table; simpl. fold t'.
  persisting f E; simpl; [by eauto using persist_saved|].
  exists f. apply persist_written in E. unfold t'. by rewrite restore_insert.
Qed.

Lemma probation_spec id now r m p a f1 f2 f3 f4 :
  let m' := <[id := on_probation (m !! id) now]> m in
  hoare (fun s' => exists f, written m' f2 f /\ s' = MkAdmission r m p a f1 f f3 f4)
    (mark_probation_member c id now) (MkAdmission r m p a f1 f2 f3 f4)
    (fun _ s' => exists f, saved m' f /\ s' = MkAdmission r m' p a f1 f f3 f4).
Proof.
  intros m'. unfold mark_probation_member, hoare, tbind, tget, tmodify, tcatch, persist_peer_membership; simpl.
  change (match m !! id with Some _ => _ | None => _ end) with (on_probation (m !! id) now). fold m'.
  persisting f E; simpl; [by eauto using persist_saved|].
  exists f. apply persist_written in E. unfold m'. by rewrite restore_insert.
Qed.

Lemma spend_spec nonce expires id now r m p a f1 f2 f3 f4 :
  let t := unexpired now p in
  hoare (fun s' => exists f, written (<[nonce := expires]> t) f3 f /\ (t !! nonce = None \/ f = f3) /\ s' = MkAdmission r m t a f1 f2 f f4)
    (spend_invite c nonce expires id now) (MkAdmission r m p a f1 f2 f3 f4)
    (fun _ s' => (is_Some (t !! nonce) /\ is_Some (m !! id) /\ s' = MkAdmission r m t a f1 f2 f3 f4) \/
       (t !! nonce = None /\ exists f, saved (<[nonce := expires]> t) f /\
          s' = MkAdmission r m (<[nonce := expires]> t) a f1 f2 f f4)).
Proof.
  intros t. unfold spend_invite. apply hoare_get_bind, hoare_get_bind, hoare_modify_bind. cbn. fold (unexpired now p). fold t.
  destruct (decide (is_Some (t !! nonce))) as [Hs|Hs].
  - rewrite (bool_decide_true (is_Some (t !! nonce))) by done. case_bool_decide; simpl; (apply hoare_ret; [exists f3; split; [by left|auto]|naive_solver]).
  - rewrite (bool_decide_false (is_Some (t !! nonce))) by done. apply eq_None_not_Some in Hs.
    unfold hoare, tbind, tget, tmodify, tcatch, persist_spent_invites; simpl.
    persisting f E; simpl; [by eauto 6 using persist_saved|].
    exists f. apply persist_written in E. rewrite delete_insert_id by done. auto.
Qed.

Lemma unspend_spec at_ nonce r m p a f1 f2 f3 f4 :
  hoare (fun _ => False) (unspend_invite c at_ nonce) (MkAdmission r m p a f1 f2 f3 f4)
    (fun _ s' => exists f, written (delete nonce p) f3 f /\ s' = MkAdmission r m (delete nonce p) a f1 f2 f f4).
Proof.
  unfold unspend_invite, best_effort, hoare, tbind, tget, tmodify, tcatch, persist_spent_invites; simpl.
  case_bool_decide as Hn; simpl.
  - persisting f E; simpl; eauto using persist_written.
  - apply eq_None_not_Some in Hn. rewrite delete_id by done. exists f3. split; [by left|done].
Qed.

Lemma rollback_spec at_ id previous r m p a f1 f2 f3 f4 :
  hoare (fun _ => False) (rollback_peer_insert c at_ id previous) (MkAdmission r m p a f1 f2 f3 f4)
    (fun _ s' => exists f, written (restore id previous r) f1 f /\ s' = MkAdmission (restore id previous r) m p a f f2 f3 f4).
Proof.
  unfold rollback_peer_insert, best_effort, hoare, tbind, tget, tmodify, tcatch, persist_peer_routing_table; simpl.
  persisting f E; simpl; eauto using persist_written.
Qed.

Lemma restore_spec id previous r m p a f1 f2 f3 f4 :
  hoare (fun _ => False) (restore_membership c id previous) (MkAdmission r m p a f1 f2 f3 f4)
    (fun _ s' => exists f, written (restore id previous m) f2 f /\ s' = MkAdmission r (restore id previous m) p a f1 f f3 f4).
Proof.
  unfold restore_membership, best_effort, hoare, tbind, tget, tmodify, tcatch, persist_peer_membership; simpl.
  persisting f E; simpl; eauto using persist_written.
Qed.

Lemma log_spec record r m p a f1 f2 f3 f4 :
  hoare (fun s' => exists f, (f = f4 \/ (exists msg, jc_persist c "admission" = Unsynced msg) /\ saved (a ++ [record]) f) /\ s' = MkAdmission r m p a f1 f2 f3 f)
    (log_admission c record) (MkAdmission r m p a f1 f2 f3 f4)
    (fun _ s' => exists f, saved (a ++ [record]) f /\ s' = MkAdmission r m p (a ++ [record]) f1 f2 f3 f).
Proof.
  unfold log_admission, hoare, tbind, tget, tmodify, tcatch, persist_admissions; simpl.
  persisting f E; simpl; [eauto using persist_saved|]. exists f. split; [|done]. unfold persist_doc in E.
  destruct (doc_write (a ++ [record])) as [b|] eqn:Eb; [|injection E as _ <-; by left]. destruct (jc_persist c _) as [|msg|msg]; [done|injection E as _ <-; by left|].
  injection E as _ <-. right. split; [eauto|]. by exists b.
Qed.

Definition evidence (peer : PeerDescriptor) (invite : Invite.JoinInvite) (signers : list str) (json : bytes) : AdmissionRecord :=
  {| ad_admitted_utc := jc_now c "join"; ad_node_pk_hex := Invite.node_pk_hex invite;
     ad_operator_id := Peer.operator_id peer; ad_nonce_hex := Invite.nonce_hex invite;
     ad_expires_utc := Invite.expires_utc invite; ad_ticket_version := Invite.version invite;
     ad_signer_pks := signers; ad_ticket_sha256 := hex_encode (sha256 json) |}.

(** The document on disk is the old one or one of these. *)
Definition left_on_disk {T} `{JsonDoc T} (ts : list T) (f f' : option bytes) : Prop := f' = f \/ exists t, t ∈ ts /\ saved t f'.
Lemma left_refl {T} `{JsonDoc T} (ts : list T) f : left_on_disk ts f f.
Proof. by left. Qed.
Lemma left_write {T} `{JsonDoc T} (ts : list T) t f f1 f2 : t ∈ ts -> left_on_disk ts f f1 -> written t f1 f2 -> left_on_disk ts f f2.
Proof. intros Ht Hl [->|Hs]; [done|]. right. by exists t. Qed.
Lemma left_saved {T} `{JsonDoc T} (ts : list T) t f f1 : t ∈ ts -> saved t f1 -> left_on_disk ts f f1.
Proof. right. by exists t. Qed.

(** A failed join.  In memory, evidence and standing are untouched, the routing table loses at most stale entries, and of
    the spends that are not expired at most the one of the ticket is dropped (also when an earlier join had spent it).
    On disk, the evidence is untouched unless its write was reported as unsynced; the other documents hold what they
    held, what the join wrote, or what its rollback wrote. *)
Definition join_undone (peer : PeerDescriptor) (invite : Invite.JoinInvite) (s s' : Admission) : Prop :=
  let now := jc_now c "join" in
  let id := Peer.operator_id peer in
  let nonce := Invite.nonce_hex invite in
  let live := unexpired now (spent_invites s) in
  let routes := <[id := peer]> (fresh_peers (jc_now c "insert") (peer_routing_table s)) in
  admissions s' = admissions s /\ peer_membership s' = peer_membership s /\
  fresh_peers (jc_now c "insert") (peer_routing_table s) ⊆ peer_routing_table s' /\ peer_routing_table s' ⊆ peer_routing_table s /\
  (spent_invites s' = spent_invites s \/ spent_invites s' = live \/ spent_invites s' = delete nonce live) /\
  (admissions_file s' = admissions_file s \/
   (exists msg, jc_persist c "admission" = Unsynced msg) /\
   exists signers json, saved (admissions s ++ [evidence peer invite signers json]) (admissions_file s')) /\
  left_on_disk [routes; restore id (peer_routing_table s !! id) routes] (peers_file s) (peers_file s') /\
  left_on_disk [<[id := on_probation (peer_membership s !! id) now]> (peer_membership s); peer_membership s] (membership_file s) (membership_file s') /\
  left_on_disk [<[nonce := Invite.expires_utc invite]> live; delete nonce live] (spent_file s) (spent_file s').

(** A join that succeeded: a ticket that verifies under the configured fleet keys and
    names the key of the joiner, unspent or presented by a recorded member; the route,
    the standing, the evidence and the spent nonce, each in memory and on disk. *)
Definition join_done (peer : PeerDescriptor) (invite : Invite.JoinInvite) (n : Z) (s s' : Admission) : Prop :=
  let now := jc_now c "join" in
  let id := Peer.operator_id peer in
  let nonce := Invite.nonce_hex invite in
  let live := unexpired now (spent_invites s) in
  exists auth signers json, join_auth_config c = Ok auth /\ ticket_signers auth invite now = Ok signers /\
    eq_ignore_ascii_case (Peer.signing_pk_hex peer) (Invite.node_pk_hex invite) = true /\
    validate_peer_descriptor c peer = Ok tt /\ doc_write invite = Ok json /\
    (live !! nonce = None \/ is_Some (peer_membership s !! id)) /\
    peer_routing_table s' = <[id := peer]> (fresh_peers (jc_now c "insert") (peer_routing_table s)) /\
    n = table_len (peer_routing_table s') /\
    peer_membership s' = <[id := on_probation (peer_membership s !! id) now]> (peer_membership s) /\
    spent_invites s' = <[nonce := default (Invite.expires_utc invite) (live !! nonce)]> live /\
    admissions s' = admissions s ++ [evidence peer invite signers json] /\
    saved (peer_routing_table s') (peers_file s') /\ saved (peer_membership s') (membership_file s') /\
    saved (admissions s') (admissions_file s') /\
    (live !! nonce = None -> saved (spent_invites s') (spent_file s')).

Lemma fresh_subseteq now r : fresh_peers now r ⊆ r.
Proof. apply map_filter_subseteq. Qed.
Lemma unexpired_subseteq now p : unexpired now p ⊆ p.
Proof. apply map_filter_subseteq. Qed.

(** The route put back: the entry read before stale ones were dropped. *)
Lemma rolled_back now id (peer : PeerDescriptor) r :
  fresh_peers now r ⊆ restore id (r !! id) (<[id := peer]> (fresh_peers now r)) /\
  restore id (r !! id) (<[id := peer]> (fresh_peers now r)) ⊆ r.
Proof.
  pose proof (fresh_subseteq now r) as Hsub. rewrite map_subseteq_spec in Hsub.
  rewrite !map_subseteq_spec. destruct (r !! id) as [old|] eqn:E; simpl; split; intros k x.
  - rewrite insert_insert_eq. intros Hk. destruct (decide (id = k)) as [<-|]; [|by rewrite lookup_insert_ne].
    rewrite lookup_insert_eq. apply Hsub in Hk. congruence.
  - rewrite insert_insert_eq. destruct (decide (id = k)) as [<-|]; [rewrite lookup_insert_eq; congruence|].
    rewrite lookup_insert_ne by done. apply Hsub.
  - intros Hk. destruct (decide (id = k)) as [<-|]; [apply Hsub in Hk; congruence|].
    by rewrite lookup_delete_ne, lookup_insert_ne.
  - intros (Hk & Hx)%lookup_delete_Some. rewrite lookup_insert_ne in Hx by done. by apply Hsub.
Qed.

Lemma spend_spec' nonce expires id now r m p a f1 f2 f3 f4 :
  let live := unexpired now p in
  let p' := <[nonce := default expires (live !! nonce)]> live in
  hoare (fun s' => exists f, written (<[nonce := expires]> live) f3 f /\ s' = MkAdmission r m live a f1 f2 f f4)
    (spend_invite c nonce expires id now) (MkAdmission r m p a f1 f2 f3 f4)
    (fun _ s' => exists f, s' = MkAdmission r m p' a f1 f2 f f4 /\ (live !! nonce = None -> saved p' f) /\
                   (live !! nonce = None \/ is_Some (m !! id)) /\ written (<[nonce := expires]> live) f3 f).
Proof.
  intros live p'. pose proof (spend_spec nonce expires id now r m p a f1 f2 f3 f4) as H. unfold hoare in *.
  fold live in H. destruct (spend_invite _ _ _ _ _ _) as [[u|e] s'].
  - destruct H as [((e & He) & Hm & ->)|(Hn & f & Hf & ->)]; unfold p'.
    + exists f3. rewrite He. simpl. rewrite insert_id by done. unfold written. naive_solver.
    + exists f. rewrite Hn. simpl. split; [done|]. split; [done|]. split; [by left|by right].
  - destruct H as (f & Hw & _ & ->). eauto.
Qed.

Section Undoing.
Variables (peer : PeerDescriptor) (invite : Invite.JoinInvite).
Variables (r : gmap str PeerDescriptor) (m : gmap str PeerMembership) (p : gmap str Z) (a : list AdmissionRecord) (f1 f2 f3 f4 : option bytes).
Let s : Admission := MkAdmission r m p a f1 f2 f3 f4.
Let id : str := Peer.operator_id peer.
Let nonce : str := Invite.nonce_hex invite.
Let live : gmap str Z := unexpired (jc_now c "join") p.
Let routes : gmap str PeerDescriptor := <[id := peer]> (fresh_peers (jc_now c "insert") r).
Let standing : gmap str PeerMembership := <[id := on_probation (m !! id) (jc_now c "join")]> m.

Lemma undone_intro r' p' g1 g2 g3 g4 :
  fresh_peers (jc_now c "insert") r ⊆ r' -> r' ⊆ r -> (p' = p \/ p' = live \/ p' = delete nonce live) ->
  (g4 = f4 \/ (exists msg, jc_persist c "admission" = Unsynced msg) /\ exists signers json, saved (a ++ [evidence peer invite signers json]) g4) ->
  left_on_disk [routes; restore id (r !! id) routes] f1 g1 -> left_on_disk [standing; m] f2 g2 ->
  left_on_disk [<[nonce := Invite.expires_utc invite]> live; delete nonce live] f3 g3 ->
  join_undone peer invite s (MkAdmission r' m p' a g1 g2 g3 g4).
Proof. intros H1 H2 H3 H4 H5 H6 H7. unfold join_undone. cbn. by split_and!. Qed.

Lemma left_spent g3 g3' x : written (<[nonce := Invite.expires_utc invite]> live) f3 g3 -> written (delete nonce (<[nonce := x]> live)) g3 g3' ->
  left_on_disk [<[nonce := Invite.expires_utc invite]> live; delete nonce live] f3 g3'.
Proof.
  intros H1 H2. rewrite delete_insert_eq in H2. eapply left_write; [|eapply left_write; [|apply left_refl|exact H1]|exact H2]; set_solver.
Qed.
Lemma undone_refl : join_undone peer invite s s.
Proof. apply undone_intro; auto using left_refl, fresh_subseteq. Qed.

Lemma join_spec json :
  doc_write invite = Ok json -> hoare (join_undone peer invite s) (join_with_invite c peer invite) s (fun n => join_done peer invite n s).
Proof.
  intros Hjson. unfold join_with_invite.
  assert (forall A (x : result str A), hoare (join_undone peer invite s) (tret x) s (fun v s' => s' = s /\ x = Ok v)) as Hret.
  { intros A x. apply hoare_ret; [apply undone_refl|]. by intros v ->. }
  eapply hoare_bind; [apply Hret|]. intros auth ? (-> & Hauth).
  eapply hoare_bind; [apply Hret|]. intros signers ? (-> & Hsigners).
  destruct (eq_ignore_ascii_case _ _) eqn:Hkey; cbn [negb]; [|apply hoare_ret; [apply undone_refl|done]].
  eapply hoare_bind; [apply Hret|]. intros [] ? (-> & Hvalid).
  eapply hoare_bind.
  { eapply hoare_conseq; [apply spend_spec'| |intros u s' H; exact H]. intros s' (f & Hw & ->).
    apply undone_intro; auto using left_refl, fresh_subseteq. eapply left_write; [|apply left_refl|exact Hw]. set_solver. }
  intros _ ? (g3 & -> & Hspent & Hopen & Hw3). apply hoare_get_bind, hoare_get_bind. simpl. fold id nonce live.
  destruct (rolled_back (jc_now c "insert") id peer r) as (Hback1 & Hback2).
  assert (forall g1, written routes f1 g1 -> left_on_disk [routes; restore id (r !! id) routes] f1 g1) as Hleft1.
  { intros g1 Hg1. eapply left_write; [|apply left_refl|exact Hg1]. set_solver. }
  assert (forall g1 g1', saved routes g1 -> written (restore id (r !! id) routes) g1 g1' -> left_on_disk [routes; restore id (r !! id) routes] f1 g1') as Hleft1'.
  { intros g1 g1' Hg1 Hg1'. eapply left_write; [|eapply left_saved; [|exact Hg1]|exact Hg1']; set_solver. }
  eapply hoare_bind.
  { eapply hoare_catch; [apply insert_peer_spec|]. intros e ? (g1 & Hg1 & ->).
    eapply hoare_bind; [apply hoare_sure, unspend_spec|]. intros _ ? (g3' & Hg3 & ->). apply hoare_ret; [|done].
    apply undone_intro; auto using left_refl, fresh_subseteq; [rewrite delete_insert_eq; auto|by eapply left_spent]. }
  intros n ? (Hn & g1 & Hg1 & ->). eapply hoare_bind.
  { eapply hoare_catch; [apply probation_spec|]. intros e ? (g2 & Hg2 & ->).
    eapply hoare_bind; [apply hoare_sure, rollback_spec|]. intros _ ? (g1' & Hg1' & ->).
    eapply hoare_bind; [apply hoare_sure, unspend_spec|]. intros _ ? (g3' & Hg3 & ->). apply hoare_ret; [|done].
    apply undone_intro; eauto; [rewrite delete_insert_eq; auto| |by eapply left_spent].
    eapply left_write; [|apply left_refl|exact Hg2]. set_solver. }
  intros _ ? (g2 & Hg2 & ->). rewrite Hjson.
  apply hoare_done_bind. eapply hoare_bind.
  { eapply hoare_catch; [apply log_spec|]. intros e ? (g4 & Hg4 & ->).
    eapply hoare_bind; [apply hoare_sure, rollback_spec|]. intros _ ? (g1' & Hg1' & ->).
    eapply hoare_bind; [apply hoare_sure, restore_spec|]. intros _ ? (g2' & Hg2' & ->).
    eapply hoare_bind; [apply hoare_sure, unspend_spec|]. intros _ ? (g3' & Hg3 & ->). apply hoare_ret; [|done].
    rewrite restore_insert in Hg2' |- *. apply undone_intro; eauto; [rewrite delete_insert_eq; auto| | |by eapply left_spent].
    - destruct Hg4 as [->|(Hu & Hs)]; [by left|]. right. split; [done|]. by exists signers, json.
    - eapply left_write; [|eapply left_saved; [|exact Hg2]|exact Hg2']; set_solver. }
  intros _ ? (g4 & Hg4 & ->). apply hoare_done. exists auth, signers, json. simpl.
  repeat (split; [done|]). exact Hspent.
Qed.
End Undoing.

(** ** Outcomes of a join *)

Lemma join_ok peer invite json s n s' :
  doc_write invite = Ok json -> join_with_invite c peer invite s = (Ok n, s') -> join_done peer invite n s s'.
Proof.
  intros Hj E. destruct s as [r m p a f1 f2 f3 f4]. pose proof (join_spec peer invite r m p a f1 f2 f3 f4 json Hj) as H.
  by eapply hoare_ok in H.
Qed.

(** C19: a join that succeeds rests on a ticket of the configured fleet keys for the key of
    the joiner, unspent unless the operator is already a member; it leaves the route,
    the standing (probation for a newcomer), the evidence and the spent nonce behind,
    in memory and, but for a spend that was on record before, on disk.  A join that
    fails, at whatever check or write (of a ticket that can be serialised), leaves
    evidence and standing in memory alone,
    drops only stale routes, and forgets no unexpired spend but possibly that of its own
    ticket, also when an earlier join had spent it.  On disk, the evidence is what it was
    unless its write was reported as not synced; routes, standing and spends are each
    what they were, what the join wrote, or what its rollback wrote. *)
Theorem join_outcome peer invite json s :
  doc_write invite = Ok json ->
  match join_with_invite c peer invite s with
  | (Ok n, s') => join_done peer invite n s s'
  | (Err _, s') => join_undone peer invite s s'
  end.
Proof. intros Hj. destruct s as [r m p a f1 f2 f3 f4]. by apply (join_spec peer invite r m p a f1 f2 f3 f4 json). Qed.

(** A spent ticket admits no further operator while its spend is on record. *)
Theorem spent_ticket_refused peer invite json s e :
  doc_write invite = Ok json ->
  spent_invites s !! Invite.nonce_hex invite = Some e -> jc_now c "join" < e ->
  peer_membership s !! Peer.operator_id peer = None ->
  exists err, (join_with_invite c peer invite s).1 = Err err.
Proof.
  intros Hj Hs Hnow Hm. destruct (join_with_invite c peer invite s) as [[n|err] s'] eqn:E; [|by eexists].
  destruct (join_ok _ _ _ _ _ _ Hj E) as (auth & signers & j & _ & _ & _ & _ & _ & [Hlive|Hmem] & _); exfalso.
  - eapply map_lookup_filter_None in Hlive. destruct Hlive as [Hlive|Hlive]; [congruence|]. by apply (Hlive e).
  - rewrite Hm in Hmem. by destruct Hmem.
Qed.

(** A member that rejoins keeps its standing, whichever key it joins with. *)
Lemma join_takes_over_route peer invite json s n s' r :
  doc_write invite = Ok json -> join_with_invite c peer invite s = (Ok n, s') ->
  peer_membership s !! Peer.operator_id peer = Some r ->
  peer_routing_table s' !! Peer.operator_id peer = Some peer /\
  exists r', peer_membership s' !! Peer.operator_id peer = Some r' /\ pm_status r' = pm_status r.
Proof.
  intros Hj E Hr. destruct (join_ok _ _ _ _ _ _ Hj E) as (auth & signers & j & H). decompose [and] H. clear H.
  repeat match goal with H : ?t s' = _ |- _ => rewrite H; clear H end. rewrite !lookup_insert_eq, Hr. split; [done|].
  by exists (seen (jc_now c "join") r).
Qed.

(** ** Progress *)

(** Every document can be written. *)
Definition healthy : Prop :=
  (forall at_, jc_persist c at_ = Saved) /\
  (forall t : gmap str PeerDescriptor, exists b, doc_write t = Ok b) /\
  (forall t : gmap str PeerMembership, exists b, doc_write t = Ok b) /\
  (forall t : gmap str Z, exists b, doc_write t = Ok b) /\
  (forall t : list AdmissionRecord, exists b, doc_write t = Ok b).
Definition has_room (id : str) (r : gmap str PeerDescriptor) : Prop :=
  let t := fresh_peers (jc_now c "insert") r in is_Some (t !! id) \/ table_len t < MAX_ACTIVE_PEERS.

Section Healthy.
Hypothesis Hok : healthy.

Lemma persist_healthy {T} `{JsonDoc T} at_ (v : T) f :
  (exists b, doc_write v = Ok b) -> exists f', persist_doc (jc_persist c at_) v f = (Ok tt, f').
Proof. destruct Hok as (-> & _). intros (b & Hb). unfold persist_doc. rewrite Hb. by eexists. Qed.

Ltac writes := match goal with |- context [persist_doc (jc_persist c ?a) ?v ?f] =>
  destruct (persist_healthy a v f) as (? & ->); [apply Hok|done] end.

Lemma insert_returns peer r m p a f1 f2 f3 f4 :
  has_room (Peer.operator_id peer) r -> returns (insert_peer c peer) (MkAdmission r m p a f1 f2 f3 f4).
Proof.
  unfold has_room. intros Hroom. unfold insert_peer, returns. apply hoare_get_bind, hoare_modify_bind. cbn.
  set (t := fresh_peers _ r) in *. destruct (_ && _) eqn:Eb.
  { apply andb_true_iff in Eb as (E1 & E2). apply bool_decide_eq_true in E1. destruct Hroom as [(? & ?)|?]; [congruence|lia]. }
  unfold hoare, tbind, tmodify, tcatch, persist_peer_routing_table; simpl. writes.
Qed.
Lemma probation_returns id now r m p a f1 f2 f3 f4 :
  returns (mark_probation_member c id now) (MkAdmission r m p a f1 f2 f3 f4).
Proof. unfold mark_probation_member, returns, hoare, tbind, tget, tmodify, tcatch, persist_peer_membership; simpl. writes. Qed.
Lemma spend_returns nonce expires id now r m p a f1 f2 f3 f4 :
  unexpired now p !! nonce = None -> returns (spend_invite c nonce expires id now) (MkAdmission r m p a f1 f2 f3 f4).
Proof.
  intros Hn. unfold spend_invite, returns. apply hoare_get_bind, hoare_get_bind, hoare_modify_bind. cbn. fold (unexpired now p).
  rewrite Hn, bool_decide_false by by intros [??].
  unfold hoare, tbind, tmodify, tcatch, persist_spent_invites; simpl. writes.
Qed.
Lemma log_returns record r m p a f1 f2 f3 f4 : returns (log_admission c record) (MkAdmission r m p a f1 f2 f3 f4).
Proof. unfold log_admission, returns, hoare, tbind, tget, tmodify, tcatch, persist_admissions; simpl. writes. Qed.

Lemma join_returns peer invite json auth signers s :
  doc_write invite = Ok json -> join_auth_config c = Ok auth -> ticket_signers auth invite (jc_now c "join") = Ok signers ->
  eq_ignore_ascii_case (Peer.signing_pk_hex peer) (Invite.node_pk_hex invite) = true ->
  validate_peer_descriptor c peer = Ok tt -> unexpired (jc_now c "join") (spent_invites s) !! Invite.nonce_hex invite = None ->
  has_room (Peer.operator_id peer) (peer_routing_table s) ->
  returns (join_with_invite c peer invite) s.
Proof.
  intros Hj Ha Hs Hk Hv Hn Hroom. destruct s as [r m p a f1 f2 f3 f4]. unfold join_with_invite, returns.
  rewrite Ha. apply hoare_done_bind. cbv zeta. rewrite Hs. apply hoare_done_bind. rewrite Hk. cbn [negb].
  rewrite Hv. apply hoare_done_bind.
  eapply hoare_bind; [eapply returns_with; [by apply spend_returns|apply spend_spec']|]. intros _ ? (g3 & -> & _).
  apply hoare_get_bind, hoare_get_bind.
  eapply hoare_bind; [eapply catch_unused, returns_with; [by apply insert_returns|apply insert_peer_spec]|].
  intros n ? (_ & g1 & _ & ->).
  eapply hoare_bind; [eapply catch_unused, returns_with; [by apply probation_returns|apply probation_spec]|].
  intros _ ? (g2 & _ & ->). rewrite Hj. apply hoare_done_bind.
  eapply hoare_bind; [eapply catch_unused, log_returns|]. done.
Qed.

Lemma heartbeat_graduates id s r :
  peer_membership s !! id = Some r -> pm_status r = Probation ->
  pm_joined_utc r + min_probation_secs (jc_env c) <= jc_now c "heartbeat" ->
  exists s', note_peer_heartbeat c id s = (Ok tt, s') /\
    peer_membership s' = <[id := graduate (jc_now c "heartbeat") (seen (jc_now c "heartbeat") r)]> (peer_membership s) /\
    saved (peer_membership s') (membership_file s').
Proof.
  intros Hr Hp Ht. destruct s as [t m p a f1 f2 f3 f4]; simpl in *.
  unfold note_peer_heartbeat, tbind, tget, tmodify, tcatch, persist_peer_membership; simpl. rewrite Hr.
  assert (served c (jc_now c "heartbeat") (seen (jc_now c "heartbeat") r) = true) as ->.
  { unfold served, seen; simpl. rewrite Hp. apply andb_true_iff. split; [done|]. unfold sat_sub.
    pose proof (probation_at_least_a_minute (jc_env c)). apply Z.leb_le. lia. }
  destruct (proj1 (proj2 (proj2 Hok)) (<[id := graduate (jc_now c "heartbeat") (seen (jc_now c "heartbeat") r)]> m)) as (b & Hb).
  simpl. unfold persist_doc. rewrite Hb, (proj1 Hok). simpl. eexists. split; [done|]. split; [done|]. by exists b.
Qed.
End Healthy.
End Join.

(** On a node whose documents can be written, an operator that presents a fresh ticket
    of the fleet for its key, with room in the routing table, is admitted; and the first
    heartbeat after its probation makes it a full member, in memory and on disk. *)
Theorem admitted_node_graduates c c' peer invite json auth signers s :
  healthy c -> healthy c' ->
  doc_write invite = Ok json -> join_auth_config c = Ok auth -> ticket_signers auth invite (jc_now c "join") = Ok signers ->
  eq_ignore_ascii_case (Peer.signing_pk_hex peer) (Invite.node_pk_hex invite) = true ->
  validate_peer_descriptor c peer = Ok tt -> unexpired (jc_now c "join") (spent_invites s) !! Invite.nonce_hex invite = None ->
  has_room c (Peer.operator_id peer) (peer_routing_table s) -> peer_membership s !! Peer.operator_id peer = None ->
  jc_now c "join" + min_probation_secs (jc_env c') <= jc_now c' "heartbeat" ->
  exists n s1, join_with_invite c peer invite s = (Ok n, s1) /\ is_probationary s1 (Peer.operator_id peer) = true /\
  exists s2, note_peer_heartbeat c' (Peer.operator_id peer) s1 = (Ok tt, s2) /\
    pm_status <$> peer_membership s2 !! Peer.operator_id peer = Some Full /\
    saved (peer_membership s2) (membership_file s2).
Proof.
  intros Hc Hc' Hj Ha Hs Hk Hv Hn Hroom Hnew Ht. set (id := Peer.operator_id peer) in *.
  destruct (returns_ok _ _ (join_returns c Hc _ _ _ _ _ _ Hj Ha Hs Hk Hv Hn Hroom)) as (n & s1 & E).
  exists n, s1. split; [done|]. destruct (join_ok _ _ _ _ _ _ _ Hj E) as (? & ? & ? & H). decompose [and] H.
  assert (peer_membership s1 !! id = Some (on_probation None (jc_now c "join"))) as Hm.
  { repeat match goal with H : peer_membership s1 = _ |- _ => rewrite H end. fold id. by rewrite lookup_insert_eq, Hnew. }
  split; [unfold is_probationary; by rewrite Hm|].
  destruct (heartbeat_graduates c' Hc' id s1 _ Hm eq_refl Ht) as (s2 & E2 & Em & Hd).
  exists s2. split; [done|]. split; [by rewrite Em, lookup_insert_eq|done].
Qed.

(** ** Where tickets and standing leak *)

(** The routing table is full for the operator, or its document cannot be written. *)
Definition insert_blocked (c : JoinCall) (id : str) (r : gmap str PeerDescriptor) : Prop :=
  (exists msg, jc_persist c "insert_peer" = NotSaved msg) \/
  (fresh_peers (jc_now c "insert") r !! id = None /\ MAX_ACTIVE_PEERS <= table_len (fresh_peers (jc_now c "insert") r)).
Lemma insert_fails c peer s :
  insert_blocked c (Peer.operator_id peer) (peer_routing_table s) -> exists e, (insert_peer c peer s).1 = Err e.
Proof.
  intros Hb. destruct s as [r m p a f1 f2 f3 f4]. unfold insert_blocked in Hb. cbn in Hb.
  unfold insert_peer, tbind at 1, tget, tbind at 1, tmodify; cbn. set (t := fresh_peers _ r) in *.
  destruct Hb as [(msg & Hm)|(Hn & Hlen)].
  - destruct (_ && _); [by eexists|]. unfold tbind, tcatch, persist_peer_routing_table; cbn.
    unfold persist_doc. rewrite Hm. destruct (doc_write _); simpl; by eexists.
  - rewrite Hn, bool_decide_true by done. rewrite (proj2 (Z.geb_le _ _) Hlen). by eexists.
Qed.

(** A member that presents its own ticket again and is turned away (the table is full,
    or the write fails) gets the ticket unspent: another operator can use it. *)
Theorem failed_rejoin_reopens_ticket c peer invite auth signers s e :
  join_auth_config c = Ok auth -> ticket_signers auth invite (jc_now c "join") = Ok signers ->
  eq_ignore_ascii_case (Peer.signing_pk_hex peer) (Invite.node_pk_hex invite) = true ->
  validate_peer_descriptor c peer = Ok tt ->
  spent_invites s !! Invite.nonce_hex invite = Some e -> jc_now c "join" < e ->
  is_Some (peer_membership s !! Peer.operator_id peer) ->
  insert_blocked c (Peer.operator_id peer) (peer_routing_table s) ->
  exists err s', join_with_invite c peer invite s = (Err err, s') /\ spent_invites s' !! Invite.nonce_hex invite = None.
Proof.
  intros Ha Hs Hk Hv Hsp Hnow Hm Hb. destruct s as [r m p a f1 f2 f3 f4]; cbn in *.
  assert (unexpired (jc_now c "join") p !! Invite.nonce_hex invite = Some e) as Hlive by (by apply map_lookup_filter_Some).
  unfold join_with_invite. rewrite Ha. unfold tbind at 1, tret at 1. cbv zeta. rewrite Hs. unfold tbind at 1, tret at 1.
  rewrite Hk. cbn [negb]. rewrite Hv. unfold tbind at 1, tret at 1. unfold tbind at 1.
  assert (spend_invite c (Invite.nonce_hex invite) (Invite.expires_utc invite) (Peer.operator_id peer) (jc_now c "join")
            (MkAdmission r m p a f1 f2 f3 f4) =
          (Ok tt, MkAdmission r m (unexpired (jc_now c "join") p) a f1 f2 f3 f4)) as ->.
  { unfold spend_invite, tbind, tget, tmodify; cbn. fold (unexpired (jc_now c "join") p). rewrite Hlive.
    rewrite bool_decide_true by done. by rewrite bool_decide_true. }
  unfold tbind at 1, tget at 1, tbind at 1, tget at 1, tbind at 1, tcatch at 1.
  set (s1 := MkAdmission _ _ _ _ _ _ _ _). destruct (insert_fails c peer s1 Hb) as (err & Herr).
  pose proof (insert_peer_spec c peer r m (unexpired (jc_now c "join") p) a f1 f2 f3 f4) as Hspec. fold s1 in Hspec.
  unfold hoare in Hspec. destruct (insert_peer c peer s1) as [[n|e1] s2]; [done|]. destruct Hspec as (g1 & _ & ->).
  unfold tbind at 1.
  pose proof (unspend_spec c "unspend_insert" (Invite.nonce_hex invite) (fresh_peers (jc_now c "insert") r) m
                (unexpired (jc_now c "join") p) a g1 f2 f3 f4) as Hu. unfold hoare in Hu.
  destruct (unspend_invite _ _ _ _) as [[[]|] s3]; [|done]. destruct Hu as (g3 & _ & ->).
  eexists _, _. split; [done|]. cbn. apply lookup_delete_eq.
Qed.

(** At its expiry second a ticket still verifies, but its spend has been forgotten. *)
Lemma ticket_respent_at_expiry c peer invite json auth signers s :
  healthy c -> doc_write invite = Ok json ->
  join_auth_config c = Ok auth -> ticket_signers auth invite (jc_now c "join") = Ok signers ->
  eq_ignore_ascii_case (Peer.signing_pk_hex peer) (Invite.node_pk_hex invite) = true ->
  validate_peer_descriptor c peer = Ok tt -> has_room c (Peer.operator_id peer) (peer_routing_table s) ->
  spent_invites s !! Invite.nonce_hex invite = Some (Invite.expires_utc invite) ->
  jc_now c "join" = Invite.expires_utc invite ->
  exists n s', join_with_invite c peer invite s = (Ok n, s').
Proof.
  intros Hc Hj Ha Hs Hk Hv Hroom Hsp Hnow. apply returns_ok. eapply join_returns; try done.
  apply map_lookup_filter_None. right. intros x Hx. simpl. rewrite Hnow. rewrite Hsp in Hx. injection Hx as <-. lia.
Qed.

(** A clock that steps back lets a refresh record a sighting before the admission; such
    a record is dropped on restart, and an operator without a record is a full member. *)
Lemma clock_step_back_ends_probation {LM : JsonDocLaws (gmap str PeerMembership) JM} c c' id now s r st s' :
  peer_membership s !! id = Some r -> pm_status r = Probation -> now < pm_joined_utc r ->
  note_peer_liveness c id now s = (Ok st, s') -> is_probationary (restart c' s') id = false.
Proof.
  intros Hr Hp Hnow. destruct s as [t m p a f1 f2 f3 f4]; cbn in Hr.
  unfold note_peer_liveness, tbind at 1, tget at 1. cbn. rewrite Hr.
  assert (served c now (seen now r) = false) as ->.
  { unfold served, sat_sub; cbn. pose proof (probation_at_least_a_minute (jc_env c)).
    apply andb_false_iff. right. apply Z.leb_gt. lia. }
  unfold tbind, tmodify, tcatch, persist_peer_membership; cbn.
  persisting f E; [|done]. intros [= _ <-]. apply persist_saved, saved_read in E.
  unfold is_probationary, restart; cbn [peer_membership membership_file]. rewrite E.
  match goal with |- match ?t with _ => _ end = _ => destruct t as [x|] eqn:Ex end; [|done].
  apply map_lookup_filter_Some in Ex as (Ex & Hle). simpl in Ex, Hle.
  rewrite lookup_insert_eq in Ex. injection Ex as <-. cbn in Hle. lia.
Qed.
End Theory.

(** ** Examples *)

#[local] Existing Instance Peer.PeerDescriptor_eq_dec.
#[export] Instance PeerDescriptor_countable : Countable PeerDescriptor.
Proof.
  by refine (inj_countable'
    (fun p => (Peer.operator_id p, Peer.endpoint p, Peer.signing_pk_hex p, Peer.timestamp_utc p, Peer.signature_hex p))
    (fun '(a, b, c, d, e) => Peer.Build_PeerDescriptor a b c d e) _); intros [].
Defined.
#[export] Instance PeerMembership_eq_dec : EqDecision PeerMembership.
Proof. solve_decision. Defined.
#[export] Instance PeerMembership_countable : Countable PeerMembership.
Proof.
  by refine (inj_countable'
    (fun r => (bool_decide (pm_status r = Full), pm_joined_utc r, pm_last_seen_utc r, pm_graduated_utc r))
    (fun '(a, b, c, d) => Build_PeerMembership (if a then Full else Probation) b c d) _); intros [[] ? ? ?].
Defined.
#[export] Instance AdmissionRecord_eq_dec : EqDecision AdmissionRecord.
Proof. solve_decision. Defined.
#[export] Instance AdmissionRecord_countable : Countable AdmissionRecord.
Proof.
  by refine (inj_countable'
    (fun r => (ad_admitted_utc r, ad_node_pk_hex r, ad_operator_id r, ad_nonce_hex r, ad_expires_utc r,
               ad_ticket_version r, ad_signer_pks r, ad_ticket_sha256 r))
    (fun '(a, b, c, d, e, f, g, h) => Build_AdmissionRecord a b c d e f g h) _); intros [].
Defined.
Definition sample_invite_doc : JsonDoc Invite.JoinInvite :=
  {| doc_write i := Ok (Invite.signing_bytes i); doc_read _ := None |}.

Definition JPeers : JsonDoc (gmap str PeerDescriptor) := countable_doc.
Definition JMembers : JsonDoc (gmap str PeerMembership) := countable_doc.
Definition JSpent : JsonDoc (gmap str Z) := countable_doc.
Definition JLog : JsonDoc (list AdmissionRecord) := countable_doc.
#[local] Existing Instances JPeers JMembers JSpent JLog sample_invite_doc.
#[local] Instance JMembers_laws : JsonDocLaws (gmap str PeerMembership) JMembers := countable_doc_laws.

Definition fleet_sk : bytes := replicate 32 5.
Definition node_sk : bytes := replicate 32 9.
Definition node_pk : str := hex_encode (verifying_key node_sk).
Definition sample_invite : Invite.JoinInvite :=
  match Invite.issue (replicate 32 8) 1000 fleet_sk node_pk 600 with
  | Ok i => i
  | Err _ => Invite.Build_JoinInvite 0 [] [] 0 [] [] []
  end.
Definition node_peer (id : str) : PeerDescriptor := Peer.new id (lit "https://node") node_sk 1000.
Definition fleet_env : Env := fun name =>
  if bool_decide (name = "CIPHERVAULT_FLEET_KEY"%string) then Some (hex_encode (verifying_key fleet_sk)) else None.
(** A call at [now] on which the write named by [failing] fails. *)
Definition call_at (now : Z) (failing : option string) : JoinCall :=
  {| jc_now := fun _ => now; jc_env := fleet_env;
     jc_persist := fun at_ => if bool_decide (failing = Some at_) then NotSaved (lit "disk full") else Saved |}.
Definition first_node : Admission := MkAdmission ∅ ∅ ∅ [] None None None None.
Definition alpha : str := lit "op-alpha".
Definition joined : Admission := (join_with_invite (call_at 1100 None) (node_peer alpha) sample_invite first_node).2.

Example sample_join : (join_with_invite (call_at 1100 None) (node_peer alpha) sample_invite first_node).1 = Ok 1.
Proof. vm_compute. reflexivity. Qed.

(** The node joins, is not graduated by an early heartbeat, and is by a late one. *)
Definition sample_history : list (JoinCall * JoinAction) :=
  [(call_at 1100 None, JJoin (node_peer alpha) sample_invite); (call_at 1130 None, JHeartbeat alpha);
   (call_at 5000000 None, JHeartbeat alpha); (call_at 5000001 None, JRestart)].

Lemma probation_served_witness :
  exists r, peer_membership (acts sample_history first_node) !! alpha = Some r /\ pm_status r = Full /\
    (named alpha sample_history \/ exists g, pm_graduated_utc r = Some g /\ pm_joined_utc r + 60 <= g).
Proof.
  destruct (peer_membership (acts sample_history first_node) !! alpha) as [r|] eqn:E; [|vm_compute in E; discriminate].
  exists r. split; [reflexivity|].
  assert (pm_status r = Full) as Hf by (vm_compute in E; injection E as <-; reflexivity).
  split; [exact Hf|]. refine (probation_served sample_history first_node alpha r _ _ _ _ E Hf).
  - reflexivity.
  - reflexivity.
  - left. reflexivity.
Defined.

Lemma join_outcome_witness :
  exists json, doc_write sample_invite = Ok json /\
  match join_with_invite (call_at 1100 None) (node_peer alpha) sample_invite first_node with
  | (Ok n, s') => join_done (call_at 1100 None) (node_peer alpha) sample_invite n first_node s'
  | (Err _, s') => join_undone (call_at 1100 None) (node_peer alpha) sample_invite first_node s'
  end.
Proof. eexists. split; [reflexivity|]. eapply (join_outcome (call_at 1100 None)). reflexivity. Defined.

Lemma spent_ticket_refused_witness :
  exists err, (join_with_invite (call_at 1200 None) (node_peer (lit "op-beta")) sample_invite joined).1 = Err err.
Proof.
  apply (spent_ticket_refused (call_at 1200 None) (node_peer (lit "op-beta")) sample_invite
           (Invite.signing_bytes sample_invite) joined 1600); vm_compute; reflexivity.
Defined.

Lemma call_healthy now : healthy (call_at now None).
Proof. split; [done|]. repeat split; intros t; by eexists. Qed.

Lemma admitted_node_graduates_witness :
  exists n s1, join_with_invite (call_at 1100 None) (node_peer alpha) sample_invite first_node = (Ok n, s1) /\
  is_probationary s1 alpha = true /\
  exists s2, note_peer_heartbeat (call_at 5000000 None) alpha s1 = (Ok tt, s2) /\
    pm_status <$> peer_membership s2 !! alpha = Some Full /\ saved (peer_membership s2) (membership_file s2).
Proof.
  eapply (admitted_node_graduates (call_at 1100 None) (call_at 5000000 None) (node_peer alpha) sample_invite
           (Invite.signing_bytes sample_invite)); try (vm_compute; reflexivity); try apply call_healthy.
  - right. vm_compute. reflexivity.
  - vm_compute. discriminate.
Defined.

(** The node presents its ticket again while the routing table cannot be written. *)
Lemma failed_rejoin_reopens_ticket_witness :
  exists err s', join_with_invite (call_at 1200 (Some "insert_peer"%string)) (node_peer alpha) sample_invite joined = (Err err, s') /\
    spent_invites s' !! Invite.nonce_hex sample_invite = None.
Proof.
  eapply (failed_rejoin_reopens_ticket (call_at 1200 (Some "insert_peer"%string)) (node_peer alpha) sample_invite) with (e := 1600);
    try (vm_compute; reflexivity).
  - vm_compute. eexists. reflexivity.
  - left. eexists. reflexivity.
Defined.
