(* ===== verification/OperatorAuth.v ===== *)
(** * Identities, challenges and sessions of the operator

    The authentication half of src/services/operator/src/state.rs: enrollment and
    revocation of device identities, login by a signed challenge, sessions and the
    checks every request makes, with the three documents that survive a restart.

    The clock, the random bytes, the iteration order of the hash maps and the outcome
    of every write belong to the call.  Appends to events.log are best effort and have
    no reader; they and the counters of the metrics endpoint are left out. *)

From S2P Require Import Prelude Errors Tables Primitives Crypto OperatorCore.

#[local] Open Scope tx_scope.

Definition MAX_ACTIVE_CHALLENGES : Z := 5000.
Definition MAX_ACTIVE_SESSIONS : Z := 5000.
Definition PERMISSION_READ : Z := 1.
Definition PERMISSION_WRITE : Z := 2.
Definition PERMISSION_FLEET_ADMIN : Z := Z.shiftl 1 16.
Definition PERMISSION_VAULT_DEFAULT : Z := Z.lor PERMISSION_READ PERMISSION_WRITE.
Definition u32_all : Z := 2 ^ 32 - 1.

Definition Binding : Type := option str * option str.

Record ChallengeRecord : Type := {
  ch_nonce_hex : str; ch_expires_at_utc : Z; ch_vault_id_hex : str; ch_public_key_hex : str;
  ch_account_id : option str; ch_device_id_hex : option str;
}.
Record PersistedSession : Type := {
  ps_token : str; ps_expires_at_utc : Z; ps_public_key_hex : str; ps_vault_id_hex : str;
  ps_account_id : option str; ps_device_id_hex : option str;
}.
Record PersistedChallenge : Type := {
  pc_challenge_id : str; pc_nonce_hex : str; pc_expires_at_utc : Z; pc_vault_id_hex : str;
  pc_public_key_hex : str; pc_account_id : option str; pc_device_id_hex : option str;
}.
Record EnrolledIdentity : Type := {
  en_vault_id_hex : str; en_public_key_hex : str; en_permissions : Z; en_enrolled_at_utc : Z;
  en_revoked_at_utc : option Z; en_account_id : option str; en_device_id_hex : option str;
}.

Record Auth : Type := MkAuth {
  challenges : gmap str ChallengeRecord;
  sessions : gmap str Z;
  session_keys : gmap str bytes;
  session_vaults : gmap str str;
  session_bindings : gmap str Binding;
  enrolled_identities : list EnrolledIdentity;
  identities_file : option bytes;
  sessions_file : option bytes;
  challenges_file : option bytes;
}.
Definition with_challenges (t : gmap str ChallengeRecord) (s : Auth) : Auth :=
  let 'MkAuth _ e k v b i f1 f2 f3 := s in MkAuth t e k v b i f1 f2 f3.
Definition with_identities (t : list EnrolledIdentity) (s : Auth) : Auth :=
  let 'MkAuth h e k v b _ f1 f2 f3 := s in MkAuth h e k v b t f1 f2 f3.
Definition with_sessions (e : gmap str Z) (k : gmap str bytes) (v : gmap str str) (b : gmap str Binding) (s : Auth) : Auth :=
  let 'MkAuth h _ _ _ _ i f1 f2 f3 := s in MkAuth h e k v b i f1 f2 f3.

Record AuthCall : Type := {
  ac_now : string -> Z;
  ac_persist : string -> PersistOutcome;
  ac_id_bytes : bytes; ac_nonce_bytes : bytes; ac_token_bytes : bytes;   (* drawn at random *)
  ac_iter : forall V : Type, gmap str V -> list (str * V);               (* order of a hash map *)
}.
Definition UTx (A : Type) : Type := Tx Auth str A.

(** [Iterator::min_by_key]: the first of the least elements. *)
Definition min_by_key {A} (f : A -> Z) (l : list A) : option A :=
  foldl (fun acc x => match acc with
                      | None => Some x
                      | Some y => if f x <? f y then Some x else acc
                      end) None l.

Definition is_none_or {A} (o : option A) (p : A -> bool) : bool := match o with Some a => p a | None => true end.

Section Auth.
Context {HX : Hex} {ED : Ed25519}.
Context {JE : JsonDoc (list EnrolledIdentity)} {JN : JsonDoc (list PersistedSession)} {JC : JsonDoc (list PersistedChallenge)}.
Variable security : OperatorSecurityConfig.
Variable c : AuthCall.

(** ** Documents *)

Definition persist_enrolled_identities (at_ : string) : UTx unit := fun s =>
  let 'MkAuth h e k v b i f1 f2 f3 := s in
  let '(out, f) := persist_doc (ac_persist c at_) i f1 in (out, MkAuth h e k v b i f f2 f3).

Definition session_records (s : Auth) : list PersistedSession :=
  omap (fun te : str * Z =>
    let '(token, expires) := te in
    key ← session_keys s !! token; vault ← session_vaults s !! token;
    Some {| ps_token := token; ps_expires_at_utc := expires; ps_public_key_hex := hex_encode key;
            ps_vault_id_hex := vault; ps_account_id := session_bindings s !! token ≫= fst;
            ps_device_id_hex := session_bindings s !! token ≫= snd |}) (ac_iter c _ (sessions s)).
Definition persist_sessions (at_ : string) : UTx unit := fun s =>
  let '(out, f) := persist_doc (ac_persist c at_) (session_records s) (sessions_file s) in
  let 'MkAuth h e k v b i f1 _ f3 := s in (out, MkAuth h e k v b i f1 f f3).

Definition challenge_record (p : str * ChallengeRecord) : PersistedChallenge :=
  let '(id, r) := p in
  {| pc_challenge_id := id; pc_nonce_hex := ch_nonce_hex r; pc_expires_at_utc := ch_expires_at_utc r;
     pc_vault_id_hex := ch_vault_id_hex r; pc_public_key_hex := ch_public_key_hex r;
     pc_account_id := ch_account_id r; pc_device_id_hex := ch_device_id_hex r |}.
Definition persist_challenges (at_ : string) : UTx unit := fun s =>
  let '(out, f) := persist_doc (ac_persist c at_) (challenge_record <$> ac_iter c _ (challenges s)) (challenges_file s) in
  let 'MkAuth h e k v b i f1 f2 _ := s in (out, MkAuth h e k v b i f1 f2 f).

(** ** Identities *)

Definition same_identity (vault_id_hex public_key_hex : str) (i : EnrolledIdentity) : bool :=
  bool_decide (en_vault_id_hex i = vault_id_hex) && bool_decide (en_public_key_hex i = public_key_hex).

Definition is_identity_enrolled_with_binding (identities : list EnrolledIdentity)
  (vault_id_hex public_key_hex : str) (account_id device_id_hex : option str) : bool :=
  let vault_id_hex := lower (trim vault_id_hex) in
  let public_key_hex := lower (trim public_key_hex) in
  match normalize_identity_binding account_id device_id_hex with
  | Err _ => false
  | Ok (account_id, device_id_hex) =>
      existsb (fun i => bool_decide (en_revoked_at_utc i = None) && same_identity vault_id_hex public_key_hex i
                        && is_none_or (en_account_id i) (fun bound => bool_decide (account_id = Some bound))
                        && is_none_or (en_device_id_hex i) (fun bound => bool_decide (device_id_hex = Some bound)))
        identities
  end.

(** The first match is updated in place, otherwise a new identity is appended. *)
Fixpoint update_first (p : EnrolledIdentity -> bool) (f : EnrolledIdentity -> EnrolledIdentity)
  (l : list EnrolledIdentity) : option (list EnrolledIdentity) :=
  match l with
  | [] => None
  | i :: rest => if p i then Some (f i :: rest) else rest' ← update_first p f rest; Some (i :: rest')
  end.
Definition re_enroll (permissions : Z) (account_id device_id_hex : option str) (i : EnrolledIdentity) : EnrolledIdentity :=
  let bound := bool_decide (is_Some account_id) in
  {| en_vault_id_hex := en_vault_id_hex i; en_public_key_hex := en_public_key_hex i; en_permissions := permissions;
     en_enrolled_at_utc := en_enrolled_at_utc i; en_revoked_at_utc := None;
     en_account_id := if bound then account_id else en_account_id i;
     en_device_id_hex := if bound then device_id_hex else en_device_id_hex i |}.

Definition enroll_identity_with_binding (vault_id_hex public_key_hex : str) (permissions : Z)
  (account_id device_id_hex : option str) : UTx unit :=
  let permissions := if permissions =? u32_all then PERMISSION_VAULT_DEFAULT else permissions in
  let vault_id_hex := lower (trim vault_id_hex) in
  let public_key_hex := lower (trim public_key_hex) in
  if negb (hex_len_is 32 vault_id_hex) then tret (Err (lit "vault_id_hex must be 32-byte hex")) else
  if negb (hex_len_is 32 public_key_hex) then tret (Err (lit "public_key_hex must be 32-byte hex")) else
  do binding <- tret (normalize_identity_binding account_id device_id_hex) ;;
  let '(account_id, device_id_hex) := binding in
  do identities <- tget enrolled_identities ;;
  let fresh := {| en_vault_id_hex := vault_id_hex; en_public_key_hex := public_key_hex; en_permissions := permissions;
                  en_enrolled_at_utc := Z.max 0 (ac_now c "enroll"); en_revoked_at_utc := None;
                  en_account_id := account_id; en_device_id_hex := device_id_hex |} in
  tmodify (with_identities
    (default (identities ++ [fresh])
       (update_first (same_identity vault_id_hex public_key_hex) (re_enroll permissions account_id device_id_hex) identities))) ;;;
  persist_enrolled_identities "enroll".

Definition enroll_identity (vault_id_hex public_key_hex : str) (permissions : Z) : UTx unit :=
  enroll_identity_with_binding vault_id_hex public_key_hex permissions None None.

(** ** Revocation *)

Definition set_revoked (at_ : option Z) (i : EnrolledIdentity) : EnrolledIdentity :=
  {| en_vault_id_hex := en_vault_id_hex i; en_public_key_hex := en_public_key_hex i; en_permissions := en_permissions i;
     en_enrolled_at_utc := en_enrolled_at_utc i; en_revoked_at_utc := at_;
     en_account_id := en_account_id i; en_device_id_hex := en_device_id_hex i |}.
Definition to_revoke (vault_id_hex public_key_hex : str) (i : EnrolledIdentity) : bool :=
  same_identity vault_id_hex public_key_hex i && bool_decide (en_revoked_at_utc i = None).
Definition revoked_indices (vault_id_hex public_key_hex : str) (l : list EnrolledIdentity) : list nat :=
  fst <$> filter (fun ni => to_revoke vault_id_hex public_key_hex ni.2 = true) (enumerate l).
Definition set_at (at_ : option Z) (indices : list nat) (l : list EnrolledIdentity) : list EnrolledIdentity :=
  foldl (fun l n => alter (set_revoked at_) n l) l indices.

Definition remove_all {V} (tokens : list str) (t : gmap str V) : gmap str V := foldr delete t tokens.
(** Entries of [removed] put back where there were any. *)
Definition put_back {V} (removed : list (str * option V)) (t : gmap str V) : gmap str V :=
  foldl (fun t kv => match kv.2 with Some v => <[kv.1 := v]> t | None => t end) t removed.
Definition removed_from {V} (tokens : list str) (t : gmap str V) : list (str * option V) := (fun k => (k, t !! k)) <$> tokens.

(** The sessions of a key are dropped, and put back when that cannot be recorded.  Their
    bindings stay behind. *)
Definition revoke_sessions_of (public_key_hex : str) : UTx unit :=
  do tokens <- tget (fun s => fst <$> filter (fun tk => hex_encode tk.2 = public_key_hex) (ac_iter c _ (session_keys s))) ;;
  if bool_decide (tokens = []) then tret (Ok tt) else
  do before <- tget id ;;
  tmodify (fun s => with_sessions (remove_all tokens (sessions s)) (remove_all tokens (session_keys s))
                      (remove_all tokens (session_vaults s)) (session_bindings s) s) ;;;
  tcatch (persist_sessions "revoke_identity_sessions") (fun error =>
    tmodify (fun s => with_sessions (put_back (removed_from tokens (sessions before)) (sessions s))
                        (put_back (removed_from tokens (session_keys before)) (session_keys s))
                        (put_back (removed_from tokens (session_vaults before)) (session_vaults s))
                        (session_bindings s) s) ;;;
    tret (Err (lit "Unable to persist session revocation: " ++ error))).

Definition revoke_identity (vault_id_hex public_key_hex : str) : UTx bool :=
  let vault_id_hex := lower (trim vault_id_hex) in
  let public_key_hex := lower (trim public_key_hex) in
  let now := Z.max 0 (ac_now c "revoke") in
  do identities <- tget enrolled_identities ;;
  let indices := revoked_indices vault_id_hex public_key_hex identities in
  tmodify (with_identities (set_at (Some now) indices identities)) ;;;
  if bool_decide (indices = []) then tret (Ok false) else
  tcatch (persist_enrolled_identities "revoke_identity") (fun error =>
    tmodify (with_identities (set_at None indices (set_at (Some now) indices identities))) ;;;
    tret (Err (lit "Unable to persist identity revocation: " ++ error))) ;;;
  revoke_sessions_of public_key_hex ;;;
  tret (Ok true).

(** ** Challenges *)

(** Room for one more entry: the least recent one makes way at capacity. *)
Definition evicted {V} (key : V -> Z) (max : Z) (t : gmap str V) : option str :=
  if Z.of_nat (size t) >=? max then fst <$> min_by_key (fun kv => key kv.2) (ac_iter c _ t) else None.
Definition drop_key {V} (k : option str) (t : gmap str V) : gmap str V :=
  match k with Some k => delete k t | None => t end.

Definition issue_challenge_with_binding (vault_id_hex public_key_hex : str) (account_id device_id_hex : option str)
  : UTx (str * str * Z) :=
  if negb (hex_len_is 32 vault_id_hex) then tret (Err (lit "vault_id_hex must be 32-byte hex")) else
  if negb (hex_len_is 32 public_key_hex) then tret (Err (lit "public_key_hex must be 32-byte hex")) else
  do binding <- tret (normalize_identity_binding account_id device_id_hex) ;;
  let '(account_id, device_id_hex) := binding in
  let vault_id_hex := lower vault_id_hex in
  let public_key_hex := lower public_key_hex in
  do identities <- tget enrolled_identities ;;
  if require_enrollment security
     && negb (is_identity_enrolled_with_binding identities vault_id_hex public_key_hex account_id device_id_hex)
  then tret (Err (lit "device identity is not enrolled for this vault")) else
  let challenge_id := hex_encode (ac_id_bytes c) in
  let nonce_hex := hex_encode (ac_nonce_bytes c) in
  let now := ac_now c "issue" in
  let expires_at := now + 300 in
  do table <- tget (fun s => filter (fun kv => now < ch_expires_at_utc kv.2) (challenges s)) ;;
  let table := drop_key (evicted ch_expires_at_utc MAX_ACTIVE_CHALLENGES table) table in
  let record := {| ch_nonce_hex := nonce_hex; ch_expires_at_utc := expires_at; ch_vault_id_hex := vault_id_hex;
                   ch_public_key_hex := public_key_hex; ch_account_id := account_id; ch_device_id_hex := device_id_hex |} in
  tmodify (with_challenges (<[challenge_id := record]> table)) ;;;
  tcatch (persist_challenges "issue") (fun error =>
    tmodify (fun s => with_challenges (delete challenge_id (challenges s)) s) ;;;
    tret (Err (lit "Unable to persist challenges: " ++ error))) ;;;
  tret (Ok (challenge_id, nonce_hex, expires_at)).

Definition issue_challenge (vault_id_hex public_key_hex : str) : UTx (str * str * Z) :=
  issue_challenge_with_binding vault_id_hex public_key_hex None None.

(** ** Sessions *)

Definition challenge_domain : bytes := lit "operator_challenge".

(** The signature check of a login: the key that answered the challenge. *)
Definition answered (challenge : ChallengeRecord) (public_key_hex signature_hex : str) : option bytes :=
  match hex_decode public_key_hex, hex_decode signature_hex, hex_decode (ch_nonce_hex challenge) with
  | Ok pk, Ok sig, Ok nonce =>
      if (blen pk =? 32) && (blen sig =? 64) && is_ok (verify_with_domain pk challenge_domain nonce sig)
      then Some pk else None
  | _, _, _ => None
  end.

Definition remove_session (token : str) (s : Auth) : Auth :=
  with_sessions (delete token (sessions s)) (delete token (session_keys s)) (delete token (session_vaults s))
    (delete token (session_bindings s)) s.
Definition live_only {V : Type} (live : gmap str Z) (t : gmap str V) : gmap str V := filter (fun kv : str * V => is_Some (live !! kv.1)) t.

Definition create_session (now : Z) (pk : bytes) (challenge : ChallengeRecord) : UTx (option str) :=
  let token := hex_encode (ac_token_bytes c) in
  let token_exp := now + 3600 in
  do live <- tget (fun s => filter (fun kv => now < kv.2) (sessions s)) ;;
  let oldest := evicted id MAX_ACTIVE_SESSIONS live in
  tmodify (fun s => with_sessions
    (<[token := token_exp]> (drop_key oldest live))
    (<[token := pk]> (drop_key oldest (live_only live (session_keys s))))
    (<[token := ch_vault_id_hex challenge]> (drop_key oldest (live_only live (session_vaults s))))
    (<[token := (ch_account_id challenge, ch_device_id_hex challenge)]> (drop_key oldest (live_only live (session_bindings s))))
    s) ;;;
  tcatch (persist_sessions "login") (fun error =>
    tmodify (remove_session token) ;;; tret (Err (lit "Unable to persist session: " ++ error))) ;;;
  tret (Ok (Some token)).

Definition verify_and_create_session (challenge_id public_key_hex signature_hex : str) : UTx (option str) :=
  let now := ac_now c "verify" in
  do found <- tget (fun s => challenges s !! challenge_id) ;;
  tmodify (fun s => with_challenges (delete challenge_id (challenges s)) s) ;;;
  match found with
  | None => tret (Ok None)
  | Some challenge =>
      tcatch (persist_challenges "verify") (fun error =>
        tret (Err (lit "Unable to persist challenge removal: " ++ error))) ;;;
      if now >? ch_expires_at_utc challenge then tret (Ok None) else
      if negb (eq_ignore_ascii_case (ch_public_key_hex challenge) public_key_hex) then tret (Ok None) else
      do identities <- tget enrolled_identities ;;
      if require_enrollment security
         && negb (is_identity_enrolled_with_binding identities (ch_vault_id_hex challenge)
                    (ch_public_key_hex challenge) (ch_account_id challenge) (ch_device_id_hex challenge))
      then tret (Ok None) else
      match answered challenge public_key_hex signature_hex with
      | None => tret (Ok None)
      | Some pk => create_session now pk challenge
      end
  end.

Definition revoke_session (token : str) : UTx bool :=
  do before <- tget id ;;
  tmodify (remove_session token) ;;;
  if bool_decide (is_Some (sessions before !! token)) then
    tcatch (persist_sessions "revoke_session") (fun error =>
      tmodify (fun s => with_sessions
        (put_back [(token, sessions before !! token)] (sessions s))
        (put_back [(token, session_keys before !! token)] (session_keys s))
        (put_back [(token, session_vaults before !! token)] (session_vaults s))
        (put_back [(token, session_bindings before !! token)] (session_bindings s)) s) ;;;
      tret (Err (lit "Unable to persist session revocation: " ++ error))) ;;;
    tret (Ok true)
  else tret (Ok false).

(** ** Checks of a request *)

Definition get_session_public_key (s : Auth) (token : str) : option bytes := session_keys s !! token.
Definition get_session_vault_id (s : Auth) (token : str) : option str := session_vaults s !! token.

Definition anonymous : str := lit "recovery_anonymous".
Definition validate_write_session (s : Auth) (token : str) : bool :=
  if bool_decide (token = []) || bool_decide (token = anonymous) then false else
  match sessions s !! token with
  | Some expires_at => ac_now c "validate" <=? expires_at
  | None => false
  end.
Definition validate_read_session (s : Auth) (token : str) : bool :=
  if bool_decide (token = anonymous) then true else validate_write_session s token.

Definition validate_session_for_vault (s : Auth) (token vault_id_hex : str) : bool :=
  if negb (validate_write_session s token) then false else
  match get_session_vault_id s token with
  | None => false
  | Some scope =>
      if negb (eq_ignore_ascii_case scope vault_id_hex) then false else
      if require_enrollment security then
        match get_session_public_key s token with
        | None => false
        | Some public_key =>
            let binding := default (None, None) (session_bindings s !! token) in
            is_identity_enrolled_with_binding (enrolled_identities s) scope (hex_encode public_key) binding.1 binding.2
        end
      else true
  end.

Definition session_has_permission (s : Auth) (token vault_id_hex : str) (permission : Z) : bool :=
  if negb (validate_session_for_vault s token vault_id_hex) then false else
  match get_session_public_key s token with
  | None => false
  | Some key =>
      match find (fun i => eq_ignore_ascii_case (en_vault_id_hex i) vault_id_hex
                           && bool_decide (en_public_key_hex i = hex_encode key)) (enrolled_identities s) with
      | Some i => bool_decide (en_revoked_at_utc i = None) && (Z.land (en_permissions i) permission =? permission)
      | None => negb (require_enrollment security) && negb (permission =? PERMISSION_FLEET_ADMIN)
      end
  end.

(** ** Restart *)

Definition load_identity (i : EnrolledIdentity) : option EnrolledIdentity :=
  let i := {| en_vault_id_hex := en_vault_id_hex i; en_public_key_hex := en_public_key_hex i;
              en_permissions := if en_permissions i =? u32_all then PERMISSION_VAULT_DEFAULT else en_permissions i;
              en_enrolled_at_utc := en_enrolled_at_utc i; en_revoked_at_utc := en_revoked_at_utc i;
              en_account_id := en_account_id i; en_device_id_hex := en_device_id_hex i |} in
  if hex_len_is 32 (en_vault_id_hex i) && hex_len_is 32 (en_public_key_hex i)
     && bool_decide (en_vault_id_hex i = lower (en_vault_id_hex i))
     && bool_decide (en_public_key_hex i = lower (en_public_key_hex i))
     && is_none_or (en_account_id i) valid_account_id && is_none_or (en_device_id_hex i) valid_device_id
     && Bool.eqb (bool_decide (is_Some (en_account_id i))) (bool_decide (is_Some (en_device_id_hex i)))
  then Some i else None.

Definition load_session (now : Z) (s : Auth) (r : PersistedSession) : Auth :=
  if (ps_expires_at_utc r <=? now) || bool_decide (ps_token r = []) then s else
  match hex_decode (ps_public_key_hex r) with
  | Err _ => s
  | Ok key =>
      if negb (blen key =? 32) || negb (hex_len_is 32 (ps_vault_id_hex r)) then s else
      match normalize_identity_binding (ps_account_id r) (ps_device_id_hex r) with
      | Err _ => s
      | Ok binding =>
          let t := ps_token r in
          with_sessions (<[t := ps_expires_at_utc r]> (sessions s)) (<[t := key]> (session_keys s))
            (<[t := ps_vault_id_hex r]> (session_vaults s)) (<[t := binding]> (session_bindings s)) s
      end
  end.

Definition load_challenge (now : Z) (t : gmap str ChallengeRecord) (r : PersistedChallenge) : gmap str ChallengeRecord :=
  if (pc_expires_at_utc r <=? now) || bool_decide (pc_challenge_id r = []) then t else
  if negb (hex_len_is 32 (pc_nonce_hex r)) || negb (hex_len_is 32 (pc_vault_id_hex r))
     || negb (hex_len_is 32 (pc_public_key_hex r)) then t else
  <[pc_challenge_id r := {| ch_nonce_hex := pc_nonce_hex r; ch_expires_at_utc := pc_expires_at_utc r;
                            ch_vault_id_hex := pc_vault_id_hex r; ch_public_key_hex := pc_public_key_hex r;
                            ch_account_id := pc_account_id r; ch_device_id_hex := pc_device_id_hex r |}]> t.

Definition restart_auth (s : Auth) : Auth :=
  let 'MkAuth _ _ _ _ _ _ f1 f2 f3 := s in
  let identities := omap load_identity (default [] (read_doc f1)) in
  let s1 := MkAuth ∅ ∅ ∅ ∅ ∅ identities f1 f2 f3 in
  let s2 := foldl (load_session (ac_now c "load_sessions")) s1 (default [] (read_doc f2)) in
  with_challenges (foldl (load_challenge (ac_now c "load_challenges")) ∅ (default [] (read_doc f3))) s2.
End Auth.
