(* ===== verification/OperatorAuthTheory.v ===== *)
(** * Who holds a session of the operator

    Over every history of enrollments, revocations, challenges, logins and restarts,
    whatever writes fail: a session belongs to a key that signed the nonce of a
    challenge, of an identity that was enrolled; revoked identities stay out; the
    tables agree and stay bounded; a challenge is answered once. *)

From S2P Require Import Prelude Errors Tables Primitives SamplePrimitives Crypto OperatorCore OperatorAuth.

#[local] Open Scope tx_scope.

Inductive AuthAction : Type :=
| AEnroll (vault_id_hex public_key_hex : str) (permissions : Z) (account_id device_id_hex : option str)
| ARevokeIdentity (vault_id_hex public_key_hex : str)
| AIssue (vault_id_hex public_key_hex : str) (account_id device_id_hex : option str)
| AVerify (challenge_id public_key_hex signature_hex : str)
| ARevokeSession (token : str)
| ARestart.

Lemma lower_idem s : lower (lower s) = lower s.
Proof.
  unfold lower. rewrite <- list_fmap_compose. apply list_fmap_ext. intros _ x _.
  unfold compose, to_ascii_lowercase, is_ascii_uppercase. destruct ((65 <=? x) && (x <=? 90)) eqn:E; [|by rewrite E].
  replace (_ && _) with false; [done|]. symmetry. apply andb_false_iff. lia.
Qed.

(** ** Tables put back *)

Lemma put_back_all {V} (ts : list str) (m m' : gmap str V) :
  (forall k, k ∉ ts -> m' !! k = m !! k) -> (forall k, m' !! k = None \/ m' !! k = m !! k) ->
  put_back (removed_from ts m) m' = m.
Proof.
  revert m'; induction ts as [|t ts IH]; intros m' Hout Hin; simpl.
  - apply map_eq. intros k. apply Hout. set_solver.
  - destruct (m !! t) as [v|] eqn:E; apply IH.
    + intros k Hk. destruct (decide (k = t)) as [->|]; [by rewrite lookup_insert_eq|].
      rewrite lookup_insert_ne by done. apply Hout. set_solver.
    + intros k. destruct (decide (k = t)) as [->|]; [right; by rewrite lookup_insert_eq|].
      rewrite lookup_insert_ne by done. apply Hin.
    + intros k Hk. destruct (decide (k = t)) as [->|]; [|apply Hout; set_solver].
      destruct (Hin t) as [->|?]; [by rewrite E|done].
    + apply Hin.
Qed.
Lemma remove_all_lookup {V} (ts : list str) (m : gmap str V) k :
  remove_all ts m !! k = if bool_decide (k ∈ ts) then None else m !! k.
Proof.
  unfold remove_all. induction ts as [|t ts IH]; [done|]. simpl.
  destruct (decide (k = t)) as [->|Hne]; [rewrite lookup_delete_eq, bool_decide_true by set_solver; done|].
  rewrite lookup_delete_ne by done. rewrite IH. apply (f_equal (fun b : bool => if b then _ else _)), bool_decide_ext. set_solver.
Qed.
Lemma put_back_removed {V} (ts : list str) (m : gmap str V) : put_back (removed_from ts m) (remove_all ts m) = m.
Proof.
  apply put_back_all; intros k; rewrite remove_all_lookup; case_bool_decide; auto. done.
Qed.
Lemma put_back_one {V} (t : str) (m : gmap str V) : put_back [(t, m !! t)] (delete t m) = m.
Proof. exact (put_back_removed [t] m). Qed.

Lemma set_at_lookup at_ (ns : list nat) l k :
  set_at at_ ns l !! k = if bool_decide (k ∈ ns) then set_revoked at_ <$> l !! k else l !! k.
Proof.
  unfold set_at. revert l; induction ns as [|n ns IH]; intros l; [done|]. simpl. rewrite IH.
  destruct (decide (k = n)) as [->|Hne].
  - rewrite (bool_decide_true (n ∈ n :: ns)) by set_solver. rewrite list_lookup_alter_eq.
    case_bool_decide; [|done]. by destruct (l !! n).
  - rewrite list_lookup_alter_ne by done. apply (f_equal (fun b : bool => if b then _ else _)), bool_decide_ext. set_solver.
Qed.

Lemma elem_of_revoked v p l k :
  k ∈ revoked_indices v p l <-> exists i, l !! k = Some i /\ to_revoke v p i = true.
Proof.
  unfold revoked_indices. rewrite list_elem_of_fmap. split.
  - intros ([n i] & -> & Hin). apply list_elem_of_filter in Hin as (Hr & Hin). exists i. split; [|done].
    by apply elem_of_lookup_imap in Hin as (? & ? & [= -> ->] & ?).
  - intros (i & Hi & Hr). exists (k, i). split; [done|]. apply list_elem_of_filter. split; [done|].
    apply elem_of_lookup_imap. eauto.
Qed.
Lemma set_at_undo v p at_ l : set_at None (revoked_indices v p l) (set_at (Some at_) (revoked_indices v p l) l) = l.
Proof.
  apply list_eq. intros k. rewrite !set_at_lookup. case_bool_decide as Hk; [|done].
  apply elem_of_revoked in Hk as (i & -> & Hr). simpl. f_equal.
  unfold to_revoke in Hr. apply andb_true_iff in Hr as (_ & Hr). apply bool_decide_eq_true in Hr.
  destruct i; simpl in *. by subst.
Qed.

(** ** Eviction *)

Lemma min_by_key_elem {A} (f : A -> Z) l x : min_by_key f l = Some x -> x ∈ l.
Proof.
  unfold min_by_key. assert (forall acc, foldl (fun acc x => match acc with None => Some x
      | Some y => if f x <? f y then Some x else acc end) acc l = Some x -> x ∈ l \/ acc = Some x) as H.
  { induction l as [|y l IH]; intros acc; simpl; [by right|]. intros Hx. apply IH in Hx as [Hx|Hx]; [left; by right|].
    destruct acc as [z|]; [|injection Hx as ->; left; by left].
    destruct (f y <? f z); [injection Hx as ->; left; by left|by right]. }
  intros Hx. apply H in Hx as [?|?]; done.
Qed.
Lemma min_by_key_None {A} (f : A -> Z) l : min_by_key f l = None -> l = [].
Proof.
  unfold min_by_key. set (step := fun acc x => _). assert (forall l y, is_Some (foldl step (Some y) l)) as H.
  { intros l'. induction l' as [|z l' IH]; intros y; simpl; [done|]. destruct (f z <? f y); apply IH. }
  destruct l as [|x l]; [done|]. simpl. intros E. destruct (H l x) as (? & ?). congruence.
Qed.

Lemma omap_length {A B} (f : A -> option B) l : (length (omap f l) <= length l)%nat.
Proof. induction l as [|x l IH]; [done|]. cbn. destruct (f x); simpl; lia. Qed.

(** What a call may rely on: hash maps are iterated over completely, random bytes are bytes. *)
Definition call_ok (c : AuthCall) : Prop :=
  (forall V (m : gmap str V), ac_iter c V m ≡ₚ map_to_list m) /\ is_bytes (ac_nonce_bytes c).

Lemma evicted_room {V} (c : AuthCall) (key : V -> Z) (max : Z) (m : gmap str V) (k : str) (x : V) :
  call_ok c -> 0 < max -> Z.of_nat (size m) <= max ->
  Z.of_nat (size (<[k := x]> (drop_key (evicted c key max m) m))) <= max.
Proof.
  intros (Hi & _) Hmax Hs. set (d := drop_key _ m).
  assert (Z.of_nat (size d) < max) as Hd.
  { unfold d, drop_key, evicted. destruct (Z.geb_spec (Z.of_nat (size m)) max) as [Hge|Hlt]; [|done].
    destruct (min_by_key _ _) as [[k' v]|] eqn:E; simpl.
    - apply min_by_key_elem in E. rewrite Hi in E. apply elem_of_map_to_list in E.
      rewrite map_size_delete_Some by done. assert (size m <> 0%nat) by (intros Hz; apply map_size_empty_iff in Hz; subst m; done). lia.
    - apply min_by_key_None in E. pose proof (Hi V m) as Hp. rewrite E in Hp. apply Permutation_nil, map_to_list_empty_iff in Hp.
      subst m. rewrite map_size_empty in Hge. lia. }
  rewrite map_size_insert. destruct (d !! k); unfold id; lia.
Qed.

Section Theory.
Context {HX : Hex} {HL : HexLaws HX} {ED : Ed25519}.
Context {JE : JsonDoc (list EnrolledIdentity)} {JN : JsonDoc (list PersistedSession)} {JC : JsonDoc (list PersistedChallenge)}.
Context {LE : JsonDocLaws _ JE} {LN : JsonDocLaws _ JN} {LC : JsonDocLaws _ JC}.
Variable security : OperatorSecurityConfig.

Definition uact (c : AuthCall) (a : AuthAction) (s : Auth) : Auth :=
  match a with
  | AEnroll v p perm acc dev => (enroll_identity_with_binding c v p perm acc dev s).2
  | ARevokeIdentity v p => (revoke_identity c v p s).2
  | AIssue v p acc dev => (issue_challenge_with_binding security c v p acc dev s).2
  | AVerify id pk sig => (verify_and_create_session security c id pk sig s).2
  | ARevokeSession t => (revoke_session c t s).2
  | ARestart => restart_auth c s
  end.
Definition uacts (h : list (AuthCall * AuthAction)) (s : Auth) : Auth := foldl (fun s ca => uact ca.1 ca.2 s) s h.

(** ** Writes *)

Lemma hoare_persist_identities c at_ h e k v b i f1 f2 f3 :
  hoare (fun s' => exists f, written i f1 f /\ s' = MkAuth h e k v b i f f2 f3)
    (persist_enrolled_identities c at_) (MkAuth h e k v b i f1 f2 f3)
    (fun _ s' => exists f, saved i f /\ s' = MkAuth h e k v b i f f2 f3).
Proof.
  unfold hoare, persist_enrolled_identities. persisting f E; [by eauto using persist_saved|by eauto using persist_written].
Qed.
Lemma hoare_persist_sessions c at_ h e k v b i f1 f2 f3 :
  let l := session_records c (MkAuth h e k v b i f1 f2 f3) in
  hoare (fun s' => exists f, written l f2 f /\ s' = MkAuth h e k v b i f1 f f3)
    (persist_sessions c at_) (MkAuth h e k v b i f1 f2 f3)
    (fun _ s' => exists f, saved l f /\ s' = MkAuth h e k v b i f1 f f3).
Proof.
  intros l. unfold hoare, persist_sessions. fold l. cbn [sessions_file].
  persisting f E; [by eauto using persist_saved|by eauto using persist_written].
Qed.
Lemma hoare_persist_challenges c at_ h e k v b i f1 f2 f3 :
  let l := challenge_record <$> ac_iter c _ h in
  hoare (fun s' => exists f, written l f3 f /\ s' = MkAuth h e k v b i f1 f2 f)
    (persist_challenges c at_) (MkAuth h e k v b i f1 f2 f3)
    (fun _ s' => exists f, saved l f /\ s' = MkAuth h e k v b i f1 f2 f).
Proof.
  intros l. unfold hoare, persist_challenges. cbn [challenges]. fold l. cbn [challenges_file].
  persisting f E; [by eauto using persist_saved|by eauto using persist_written].
Qed.

(** What a document holds once it was written, or not. *)
Definition on_disk {T} `{JsonDoc T} (P : T -> Prop) (f : option bytes) : Prop := forall v, read_doc f = Some v -> P v.
Lemma on_disk_written {T} `{J : JsonDoc T} `{!JsonDocLaws T J} (P : T -> Prop) v f f' :
  on_disk P f -> P v -> written v f f' -> on_disk P f'.
Proof.
  intros Hf Hv [->|(b & Hb & ->)]; [done|]. intros v'. simpl. rewrite (doc_roundtrip _ _ Hb). by intros [= <-].
Qed.
Lemma on_disk_saved {T} `{J : JsonDoc T} `{!JsonDocLaws T J} (P : T -> Prop) v f : P v -> saved v f -> on_disk P f.
Proof. intros Hv Hs v'. rewrite (saved_read _ _ Hs). by intros [= <-]. Qed.

Lemma enrolled_sound l v p acc dev :
  is_identity_enrolled_with_binding l v p acc dev = true ->
  exists i, i ∈ l /\ en_revoked_at_utc i = None /\ en_vault_id_hex i = lower (trim v) /\ en_public_key_hex i = lower (trim p).
Proof.
  unfold is_identity_enrolled_with_binding. destruct (normalize_identity_binding _ _) as [[a d]|]; [|done].
  intros (i & Hi & Hp)%existsb_exists. exists i. split; [by apply list_elem_of_In|].
  apply andb_true_iff in Hp as (Hp & _). apply andb_true_iff in Hp as (Hp & _). apply andb_true_iff in Hp as (Hr & Hp).
  unfold same_identity in Hp. apply andb_true_iff in Hp as (Hv & Hp).
  apply bool_decide_eq_true in Hr, Hv, Hp. done.
Qed.

(** ** The invariant *)

Section Invariant.
Variable issued : str -> ChallengeRecord -> Prop.
Variable login : str -> bytes -> str -> Prop.
Variable enrolled : str -> str -> Prop.
Hypothesis login_bytes : forall t pk v, login t pk v -> is_bytes pk.

Definition of_persisted (r : PersistedChallenge) : ChallengeRecord :=
  {| ch_nonce_hex := pc_nonce_hex r; ch_expires_at_utc := pc_expires_at_utc r; ch_vault_id_hex := pc_vault_id_hex r;
     ch_public_key_hex := pc_public_key_hex r; ch_account_id := pc_account_id r; ch_device_id_hex := pc_device_id_hex r |}.

Definition ch_ok (t : gmap str ChallengeRecord) : Prop :=
  map_Forall issued t /\ Z.of_nat (size t) <= MAX_ACTIVE_CHALLENGES.
Definition ses_ok (e : gmap str Z) (k : gmap str bytes) (v : gmap str str) : Prop :=
  dom k = dom e /\ dom v = dom e /\ Z.of_nat (size e) <= MAX_ACTIVE_SESSIONS /\
  forall t pk vt, k !! t = Some pk -> v !! t = Some vt -> login t pk vt.
Definition id_ok (l : list EnrolledIdentity) : Prop :=
  Forall (fun i => enrolled (en_vault_id_hex i) (en_public_key_hex i)) l.
Definition ch_doc (l : list PersistedChallenge) : Prop :=
  blen l <= MAX_ACTIVE_CHALLENGES /\ Forall (fun r => issued (pc_challenge_id r) (of_persisted r)) l.
Definition ses_doc (l : list PersistedSession) : Prop :=
  blen l <= MAX_ACTIVE_SESSIONS /\
  Forall (fun r => exists pk, ps_public_key_hex r = hex_encode pk /\ login (ps_token r) pk (ps_vault_id_hex r)) l.

Record auth_ok (s : Auth) : Prop := {
  ok_challenges : ch_ok (challenges s);
  ok_sessions : ses_ok (sessions s) (session_keys s) (session_vaults s);
  ok_identities : id_ok (enrolled_identities s);
  ok_challenges_file : on_disk ch_doc (challenges_file s);
  ok_sessions_file : on_disk ses_doc (sessions_file s);
  ok_identities_file : on_disk id_ok (identities_file s);
}.

Lemma ch_doc_of c t : call_ok c -> ch_ok t -> ch_doc (challenge_record <$> ac_iter c _ t).
Proof.
  intros (Hi & _) (Ht & Hs). split.
  - unfold blen. rewrite length_fmap, (Permutation_length (Hi _ t)), length_map_to_list. done.
  - apply Forall_fmap, Forall_forall. intros [id r] Hr. rewrite Hi in Hr. apply elem_of_map_to_list in Hr.
    specialize (Ht id r Hr). unfold compose; simpl. by destruct r.
Qed.
Lemma ses_doc_of c s : call_ok c -> ses_ok (sessions s) (session_keys s) (session_vaults s) -> ses_doc (session_records c s).
Proof.
  intros (Hi & _) (Hk & Hv & Hs & Hl). unfold session_records. split.
  - unfold blen. etrans; [apply inj_le, omap_length|]. rewrite (Permutation_length (Hi _ (sessions s))), length_map_to_list. done.
  - apply Forall_forall. intros r ([t e] & _ & Hr)%list_elem_of_omap. simpl in Hr.
    destruct (session_keys s !! t) as [pk|] eqn:Ek; [|done]. destruct (session_vaults s !! t) as [vt|] eqn:Ev; [|done].
    injection Hr as <-. simpl. eauto.
Qed.

Lemma ses_sub (e : gmap str Z) (k : gmap str bytes) (v : gmap str str) e' k' v' :
  ses_ok e k v -> e' ⊆ e -> k' ⊆ k -> v' ⊆ v -> dom k' = dom e' -> dom v' = dom e' -> ses_ok e' k' v'.
Proof.
  intros (_ & _ & Hs & Hl) He Hk Hv Dk Dv. repeat split; [done|done| |].
  - apply map_subseteq_size in He. lia.
  - intros t pk vt Hpk Hvt. apply (Hl t); [by eapply lookup_weaken|by eapply lookup_weaken].
Qed.
Lemma ses_delete (e : gmap str Z) (k : gmap str bytes) (v : gmap str str) t : ses_ok e k v -> ses_ok (delete t e) (delete t k) (delete t v).
Proof.
  intros H. pose proof H as (Hk & Hv & _). eapply ses_sub; [done|apply delete_subseteq..| |]; rewrite !dom_delete_L; set_solver.
Qed.
Lemma ses_remove (e : gmap str Z) (k : gmap str bytes) (v : gmap str str) (ts : list str) : ses_ok e k v -> ses_ok (remove_all ts e) (remove_all ts k) (remove_all ts v).
Proof. intros H. unfold remove_all. induction ts as [|t ts IH]; [done|]. by apply ses_delete. Qed.
Lemma ses_drop (e : gmap str Z) (k : gmap str bytes) (v : gmap str str) o : ses_ok e k v -> ses_ok (drop_key o e) (drop_key o k) (drop_key o v).
Proof. intros H. destruct o; [by apply ses_delete|done]. Qed.
Lemma ses_live (e : gmap str Z) (k : gmap str bytes) (v : gmap str str) (live : gmap str Z) : ses_ok e k v -> live ⊆ e -> ses_ok live (live_only live k) (live_only live v).
Proof.
  intros H Hl. pose proof H as (Hk & Hv & _). assert (dom live ⊆ dom e) as Hd by (by apply subseteq_dom).
  assert (forall V (m : gmap str V), dom live ⊆ dom m -> dom (live_only live m) = dom live) as Hdom.
  { intros V m Hm. apply set_eq. intros t. rewrite !elem_of_dom. unfold live_only. split.
    - intros (x & Hx). by apply map_lookup_filter_Some in Hx as (_ & Hx).
    - intros Ht. assert (t ∈ dom m) as (x & Hx)%elem_of_dom by (apply Hm; by apply elem_of_dom).
      exists x. by apply map_lookup_filter_Some. }
  eapply ses_sub; [done|done|apply map_filter_subseteq|apply map_filter_subseteq| |]; apply Hdom; set_solver.
Qed.
Lemma ses_insert (e : gmap str Z) (k : gmap str bytes) (v : gmap str str) t x pk vt :
  ses_ok e k v -> login t pk vt -> Z.of_nat (size (<[t := x]> e)) <= MAX_ACTIVE_SESSIONS ->
  ses_ok (<[t := x]> e) (<[t := pk]> k) (<[t := vt]> v).
Proof.
  intros (Hk & Hv & _ & Hl) Hlog Hs. repeat split; [by rewrite !dom_insert_L, Hk|by rewrite !dom_insert_L, Hv|done|].
  intros t' pk' vt'. destruct (decide (t = t')) as [<-|].
  - rewrite !lookup_insert_eq. by intros [= <-] [= <-].
  - rewrite !lookup_insert_ne by done. apply Hl.
Qed.

Lemma keep_persist_identities c at_ s :
  auth_ok s -> hoare auth_ok (persist_enrolled_identities c at_) s (fun _ => auth_ok).
Proof.
  intros H. destruct s as [h e k v b i f1 f2 f3]. pose proof H as [H1 H2 H3 H4 H5 H6].
  eapply hoare_conseq; [apply hoare_persist_identities| |].
  - intros d (f & Hf & ->). constructor; try done. by eapply on_disk_written.
  - intros u d (f & Hf & ->). constructor; try done. by eapply on_disk_saved.
Qed.
Lemma keep_persist_sessions c at_ s :
  call_ok c -> auth_ok s -> hoare auth_ok (persist_sessions c at_) s (fun _ => auth_ok).
Proof.
  intros Hc H. pose proof (ses_doc_of c s Hc (ok_sessions _ H)) as Hd.
  destruct s as [h e k v b i f1 f2 f3]. pose proof H as [H1 H2 H3 H4 H5 H6].
  eapply hoare_conseq; [apply hoare_persist_sessions| |].
  - intros d (f & Hf & ->). constructor; try done. by eapply on_disk_written.
  - intros u d (f & Hf & ->). constructor; try done. by eapply on_disk_saved.
Qed.
Lemma keep_persist_challenges c at_ s :
  call_ok c -> auth_ok s -> hoare auth_ok (persist_challenges c at_) s (fun _ => auth_ok).
Proof.
  intros Hc H. pose proof (ch_doc_of c _ Hc (ok_challenges _ H)) as Hd.
  destruct s as [h e k v b i f1 f2 f3]. pose proof H as [H1 H2 H3 H4 H5 H6].
  eapply hoare_conseq; [apply hoare_persist_challenges| |].
  - intros d (f & Hf & ->). constructor; try done. by eapply on_disk_written.
  - intros u d (f & Hf & ->). constructor; try done. by eapply on_disk_saved.
Qed.

Lemma auth_challenges s t : auth_ok s -> ch_ok t -> auth_ok (with_challenges t s).
Proof. intros [] Ht. destruct s. by constructor. Qed.
Lemma auth_identities s l : auth_ok s -> id_ok l -> auth_ok (with_identities l s).
Proof. intros [] Ht. destruct s. by constructor. Qed.
Lemma auth_sessions s e k v b : auth_ok s -> ses_ok e k v -> auth_ok (with_sessions e k v b s).
Proof. intros [] Ht. destruct s. by constructor. Qed.
Lemma auth_remove t s : auth_ok s -> auth_ok (remove_session t s).
Proof. intros H. apply auth_sessions; [done|]. apply ses_delete, H. Qed.
Lemma ch_delete t id : ch_ok t -> ch_ok (delete id t).
Proof.
  intros (Ht & Hs). split; [by apply map_Forall_delete|]. pose proof (map_subseteq_size _ _ (delete_subseteq t id)). lia.
Qed.
Create HintDb auth.
#[local] Hint Resolve keep_persist_identities keep_persist_sessions keep_persist_challenges auth_challenges auth_identities
  auth_sessions auth_remove ch_delete ok_challenges ok_sessions ok_identities : auth.
Ltac keeps := keep ltac:(eauto 6 with auth nocore).

Lemma update_first_ok p f l l' :
  update_first p f l = Some l' -> (forall i, en_vault_id_hex (f i) = en_vault_id_hex i /\ en_public_key_hex (f i) = en_public_key_hex i) ->
  id_ok l -> id_ok l'.
Proof.
  unfold id_ok. revert l'; induction l as [|i l IH]; intros l' Hl Hf H; [done|]. simpl in Hl. apply Forall_cons in H as (Hi & H).
  destruct (p i).
  - injection Hl as <-. constructor; [|done]. by destruct (Hf i) as (-> & ->).
  - destruct (update_first p f l) as [l''|]; [|done]. injection Hl as <-. constructor; [done|]. by apply IH.
Qed.

Lemma enroll_ok c v p perm acc dev s :
  enrolled (lower (trim v)) (lower (trim p)) -> auth_ok s ->
  hoare auth_ok (enroll_identity_with_binding c v p perm acc dev) s (fun _ => auth_ok).
Proof.
  intros He Hs. unfold enroll_identity_with_binding. keeps. destruct a as [acc' dev']. keeps.
  apply keep_persist_identities, auth_identities; [done|].
  match goal with H : auth_ok ?d |- _ => pose proof (ok_identities _ H) as Hi end.
  destruct (update_first _ _ _) as [l|] eqn:E; simpl; [by eapply update_first_ok in E|].
  apply Forall_app. split; [done|]. by repeat constructor.
Qed.

Lemma set_at_ok at_ (ns : list nat) l : id_ok l -> id_ok (set_at at_ ns l).
Proof.
  intros Hl. apply Forall_lookup. intros n i. rewrite set_at_lookup.
  destruct (l !! n) as [j|] eqn:E; [|by case_bool_decide]. pose proof (Forall_lookup_1 _ _ _ _ Hl E) as Hj.
  case_bool_decide; intros [= <-]; done.
Qed.
#[local] Hint Resolve set_at_ok ses_remove : auth.

Lemma revoke_sessions_ok c pk s :
  call_ok c -> auth_ok s -> hoare auth_ok (revoke_sessions_of c pk) s (fun _ => auth_ok).
Proof.
  intros Hc Hs. unfold revoke_sessions_of. apply hoare_get_bind. set (ts := fst <$> _).
  case_bool_decide; [by apply keep_ret|]. apply hoare_get_bind, hoare_modify_bind.
  assert (auth_ok (with_sessions (remove_all ts (sessions s)) (remove_all ts (session_keys s))
                     (remove_all ts (session_vaults s)) (session_bindings s) s)) as H1 by eauto with auth.
  pose proof (ses_doc_of c _ Hc (ok_sessions _ H1)) as Hd.
  destruct s as [h e k v b i f1 f2 f3]. pose proof Hs as [? ? ? ? ? ?]. cbn in *.
  eapply hoare_catch; [eapply hoare_mono; [apply hoare_persist_sessions|]|].
  - intros _ d (f & Hf & ->). destruct H1. constructor; try done. by eapply on_disk_saved.
  - intros err d (f & Hf & ->). apply hoare_modify_bind, keep_ret. cbn. rewrite !put_back_removed.
    constructor; try done. by eapply on_disk_written.
Qed.
#[local] Hint Resolve revoke_sessions_ok : auth.

Lemma revoke_identity_ok c v p s :
  call_ok c -> auth_ok s -> hoare auth_ok (revoke_identity c v p) s (fun _ => auth_ok).
Proof. intros Hc Hs. unfold revoke_identity. keeps. Qed.

Lemma issue_ok c v p acc dev s :
  call_ok c -> auth_ok s ->
  (forall r, ch_nonce_hex r = hex_encode (ac_nonce_bytes c) -> ch_vault_id_hex r = lower v ->
             ch_public_key_hex r = lower p -> issued (hex_encode (ac_id_bytes c)) r) ->
  hoare auth_ok (issue_challenge_with_binding security c v p acc dev) s (fun _ => auth_ok).
Proof.
  intros Hc Hs Hi. unfold issue_challenge_with_binding. keeps. destruct a as [acc' dev']. keep idtac; eauto 6 with auth nocore.
  match goal with H : auth_ok ?d |- _ => rename d into s1, H into H1 end.
  apply keep_persist_challenges, auth_challenges; [done..|].
  pose proof (ok_challenges _ H1) as (Hall & Hsz). set (now := ac_now c "issue").
  set (t := filter _ _). assert (t ⊆ challenges s1) as Hsub by apply map_filter_subseteq. split.
  - apply map_Forall_insert_2; [by apply Hi|].
    assert (map_Forall issued t) as Ht by (intros k r Hr; apply (Hall k), (lookup_weaken _ _ _ _ Hr Hsub)).
    unfold drop_key. destruct (evicted _ _ _ _); [by apply map_Forall_delete|done].
  - apply evicted_room; [done|done|]. apply map_subseteq_size in Hsub. lia.
Qed.

Lemma create_ok c now pk r s :
  call_ok c -> auth_ok s -> login (hex_encode (ac_token_bytes c)) pk (ch_vault_id_hex r) ->
  hoare auth_ok (create_session c now pk r) s (fun _ => auth_ok).
Proof.
  intros Hc Hs Hlog. unfold create_session. keep idtac; eauto 6 with auth nocore.
  apply keep_persist_sessions; [done|]. apply auth_sessions; [done|].
  set (live := filter _ _). assert (live ⊆ sessions s) as Hsub by apply map_filter_subseteq.
  pose proof (ok_sessions _ Hs) as Hses. apply ses_insert; [by apply ses_drop, (ses_live _ _ _ live Hses)|done|].
  apply evicted_room; [done|done|]. apply map_subseteq_size in Hsub. destruct Hses as (_ & _ & Hsz & _). lia.
Qed.

Lemma verify_ok c id pkh sig s :
  call_ok c -> auth_ok s ->
  (forall r pk, issued id r -> eq_ignore_ascii_case (ch_public_key_hex r) pkh = true -> answered r pkh sig = Some pk ->
     (require_enrollment security = true -> enrolled (lower (trim (ch_vault_id_hex r))) (lower (trim (ch_public_key_hex r)))) ->
     login (hex_encode (ac_token_bytes c)) pk (ch_vault_id_hex r)) ->
  hoare auth_ok (verify_and_create_session security c id pkh sig) s (fun _ => auth_ok).
Proof.
  intros Hc Hs Hl. unfold verify_and_create_session. cbv zeta. apply hoare_get_bind, hoare_modify_bind.
  destruct (challenges s !! id) as [r|] eqn:Er; [|keeps].
  assert (issued id r) as Hi by (by apply (ok_challenges _ Hs)).
  destruct (answered r pkh sig) as [pk|] eqn:Ea; [|keeps]. keep idtac; eauto 6 with auth nocore.
  apply create_ok; [done|done|]. apply Hl; [done| |done|].
  - match goal with H : negb (eq_ignore_ascii_case _ _) = false |- _ => by apply negb_false_iff in H end.
  - intros Hreq. rewrite Hreq in *. match goal with H : true && negb _ = false |- _ => simpl in H; apply negb_false_iff, enrolled_sound in H;
      destruct H as (i & Hin & _ & <- & <-) end.
    match goal with H : auth_ok ?d, Hin : i ∈ enrolled_identities ?d |- _ =>
      pose proof (ok_identities _ H) as Hid; unfold id_ok in Hid; rewrite Forall_forall in Hid; by apply Hid end.
Qed.

Lemma revoke_session_ok c t s : call_ok c -> auth_ok s -> hoare auth_ok (revoke_session c t) s (fun _ => auth_ok).
Proof.
  intros Hc Hs. unfold revoke_session. apply hoare_get_bind, hoare_modify_bind. pose proof (auth_remove t s Hs) as H1.
  case_bool_decide; [|by apply keep_ret]. apply (hoare_bind _ _ _ _ (fun _ => auth_ok)); [|intros _ d Hd; by apply keep_ret].
  pose proof (ses_doc_of c _ Hc (ok_sessions _ H1)) as Hd.
  destruct s as [h e k v b i f1 f2 f3]. pose proof Hs as [? ? ? ? ? ?].
  unfold id, remove_session; cbn [sessions session_keys session_vaults session_bindings with_sessions].
  eapply hoare_catch; [eapply hoare_mono; [apply hoare_persist_sessions|]|].
  - intros _ d (f & Hf & ->). destruct H1. constructor; try done. by eapply on_disk_saved.
  - intros err d (f & Hf & ->). apply hoare_modify_bind, keep_ret.
    cbn [sessions session_keys session_vaults session_bindings with_sessions]. rewrite !put_back_one.
    constructor; try done. by eapply on_disk_written.
Qed.

Lemma load_sessions_ok now l s :
  Forall (fun r => exists pk, ps_public_key_hex r = hex_encode pk /\ login (ps_token r) pk (ps_vault_id_hex r)) l ->
  auth_ok s -> Z.of_nat (size (sessions s)) + blen l <= MAX_ACTIVE_SESSIONS ->
  auth_ok (foldl (load_session now) s l).
Proof.
  revert s; induction l as [|r l IH]; intros s Hl Hs Hlen; [done|]. simpl. apply Forall_cons in Hl as ((pk & Epk & Hlog) & Hl).
  unfold blen in *. simpl in Hlen.
  assert (auth_ok (load_session now s r) /\ Z.of_nat (size (sessions (load_session now s r))) <= Z.of_nat (size (sessions s)) + 1) as (H1 & H2).
  { unfold load_session. destruct (_ || _); [split; [done|lia]|].
    rewrite Epk, hex_decode_encode by (by eapply login_bytes).
    destruct (_ || _); [split; [done|lia]|]. destruct (normalize_identity_binding _ _) as [bd|]; [|split; [done|lia]]. cbv zeta.
    assert (Z.of_nat (size (<[ps_token r := ps_expires_at_utc r]> (sessions s))) <= Z.of_nat (size (sessions s)) + 1).
    { rewrite map_size_insert. destruct (sessions s !! _); unfold id; lia. }
    split; [|by destruct s]. apply auth_sessions; [done|]. apply ses_insert; [apply Hs|done|lia]. }
  apply IH; [done|done|]. lia.
Qed.

Lemma load_challenges_ok now l t :
  Forall (fun r => issued (pc_challenge_id r) (of_persisted r)) l -> ch_ok t ->
  Z.of_nat (size t) + blen l <= MAX_ACTIVE_CHALLENGES -> ch_ok (foldl (load_challenge now) t l).
Proof.
  revert t; induction l as [|r l IH]; intros t Hl (Ht & Hsz) Hlen; [done|]. simpl. apply Forall_cons in Hl as (Hr & Hl).
  unfold blen in *. simpl in Hlen. unfold load_challenge at 2.
  destruct (_ || _); [apply IH; [done|done|lia]|]. destruct (_ || _); [apply IH; [done|done|lia]|].
  assert (Z.of_nat (size (<[pc_challenge_id r := of_persisted r]> t)) <= Z.of_nat (size t) + 1).
  { rewrite map_size_insert. destruct (t !! _); unfold id; lia. }
  apply IH; [done| |unfold of_persisted in *; lia]. split; [by apply map_Forall_insert_2|unfold of_persisted in *; lia].
Qed.

Lemma load_identity_same i j : load_identity i = Some j ->
  en_vault_id_hex j = en_vault_id_hex i /\ en_public_key_hex j = en_public_key_hex i /\ en_revoked_at_utc j = en_revoked_at_utc i.
Proof. unfold load_identity. destruct (_ && _); [|done]. by intros [= <-]. Qed.

Lemma restart_ok c s : auth_ok s -> auth_ok (restart_auth c s).
Proof.
  intros Hs. destruct s as [h e k v b i f1 f2 f3]. destruct Hs as [_ _ _ Hch Hses Hid]. cbn in *. unfold restart_auth.
  assert (auth_ok (MkAuth ∅ ∅ ∅ ∅ ∅ (omap load_identity (default [] (read_doc f1))) f1 f2 f3)) as H0.
  { constructor; try done.
    - cbn. unfold id_ok. destruct (read_doc f1) as [l|] eqn:E; [|constructor]. cbn. apply Forall_forall.
      intros j (x & Hx & Hj)%list_elem_of_omap. apply load_identity_same in Hj as (-> & -> & _).
      specialize (Hid _ E). unfold id_ok in Hid. rewrite Forall_forall in Hid. by apply Hid. }
  apply auth_challenges.
  - destruct (read_doc f2) as [l|] eqn:E; [|done]. destruct (Hses _ E) as (Hlen & Hl). cbn.
    apply load_sessions_ok; [done|done|]. cbn. rewrite map_size_empty. lia.
  - destruct (read_doc f3) as [l|] eqn:E; [|done]. destruct (Hch _ E) as (Hlen & Hl). cbn.
    apply load_challenges_ok; [done|done|]. rewrite map_size_empty. lia.
Qed.
End Invariant.

(** ** Histories *)

Definition enrolled_in (h : list (AuthCall * AuthAction)) (vault pk : str) : Prop :=
  exists c v p perm acc dev, (c, AEnroll v p perm acc dev) ∈ h /\ lower (trim v) = vault /\ lower (trim p) = pk.
Definition issued_in (h : list (AuthCall * AuthAction)) (id : str) (r : ChallengeRecord) : Prop :=
  exists c v p acc dev, (c, AIssue v p acc dev) ∈ h /\ id = hex_encode (ac_id_bytes c) /\ is_bytes (ac_nonce_bytes c) /\
    ch_nonce_hex r = hex_encode (ac_nonce_bytes c) /\ ch_vault_id_hex r = lower v /\ ch_public_key_hex r = lower p.
(** A login: the key [pk] signed the nonce of a challenge that was issued to it for the
    vault, the token was drawn by that call, and the identity had been enrolled. *)
Definition logged_in (h : list (AuthCall * AuthAction)) (token : str) (pk : bytes) (vault : str) : Prop :=
  is_bytes pk /\
  exists c v p acc dev c' id pkh sigh sig,
    (c, AIssue v p acc dev) ∈ h /\ (c', AVerify id pkh sigh) ∈ h /\ id = hex_encode (ac_id_bytes c) /\
    token = hex_encode (ac_token_bytes c') /\ vault = lower v /\ hex_encode pk = lower p /\
    hex_decode sigh = Ok sig /\ verify_with_domain pk challenge_domain (ac_nonce_bytes c) sig = Ok tt /\
    (require_enrollment security = true -> enrolled_in h (lower (trim vault)) (lower (trim (hex_encode pk)))).

Definition new_node : Auth := MkAuth ∅ ∅ ∅ ∅ ∅ [] None None None.

Lemma answered_ok r pkh sigh pk :
  answered r pkh sigh = Some pk ->
  hex_decode pkh = Ok pk /\ exists sig nonce, hex_decode sigh = Ok sig /\ hex_decode (ch_nonce_hex r) = Ok nonce /\
    verify_with_domain pk challenge_domain nonce sig = Ok tt.
Proof.
  unfold answered. destruct (hex_decode pkh) as [pk'|]; [|done]. destruct (hex_decode sigh) as [sig|]; [|done].
  destruct (hex_decode (ch_nonce_hex r)) as [nonce|]; [|done]. destruct (_ && _) eqn:E; [|done]. intros [= ->].
  apply andb_true_iff in E as (_ & E). split; [done|]. exists sig, nonce. split; [done|]. split; [done|].
  by destruct (verify_with_domain _ _ _ _) as [[]|].
Qed.

Lemma login_intro h c' id pkh sigh r pk :
  (c', AVerify id pkh sigh) ∈ h -> issued_in h id r -> eq_ignore_ascii_case (ch_public_key_hex r) pkh = true ->
  answered r pkh sigh = Some pk ->
  (require_enrollment security = true -> enrolled_in h (lower (trim (ch_vault_id_hex r))) (lower (trim (ch_public_key_hex r)))) ->
  logged_in h (hex_encode (ac_token_bytes c')) pk (ch_vault_id_hex r).
Proof.
  intros Hv (c & v & p & acc & dev & Hi & -> & Hn & En & Ev & Ep) Hpk (Hd & sig & nonce & Hs & Hnonce & Hver)%answered_ok Henr.
  rewrite En, hex_decode_encode in Hnonce by done. injection Hnonce as <-.
  pose proof (hex_decode_lower _ _ Hd) as (Hb & Hlow). split; [done|].
  assert (hex_encode pk = lower p) as Ek.
  { unfold eq_ignore_ascii_case in Hpk. apply bool_decide_eq_true in Hpk. rewrite <- Hlow, <- Hpk, Ep.
    apply lower_idem. }
  rewrite Ep, <- Ek in Henr. exists c, v, p, acc, dev, c', (hex_encode (ac_id_bytes c)), pkh, sigh, sig. done.
Qed.

Lemma acts_ok h h0 s :
  Forall (fun ca => call_ok ca.1) h -> (forall ca, ca ∈ h -> ca ∈ h0) ->
  auth_ok (issued_in h0) (logged_in h0) (enrolled_in h0) s ->
  auth_ok (issued_in h0) (logged_in h0) (enrolled_in h0) (uacts h s).
Proof.
  assert (forall t pk v, logged_in h0 t pk v -> is_bytes pk) as Hb by (by intros t pk v (Hb & _)).
  revert s; induction h as [|[c a] h IH]; intros s Hc Hin Hs; [done|]. apply Forall_cons in Hc as (Hc & Hcs). simpl in *.
  apply IH; [done|intros ca Hca; apply Hin; by right|]. clear IH.
  assert ((c, a) ∈ h0) as Ha by (apply Hin; by left). destruct a; simpl; try apply hoare_state.
  - apply enroll_ok; try done. by eexists _, _, _, _, _, _.
  - by apply revoke_identity_ok.
  - apply issue_ok; try done. intros r En Ev Ep. eexists _, _, _, _, _. destruct Hc as (_ & Hn). by repeat split.
  - apply verify_ok; try done. intros r pk ? ? ? ?. by eapply login_intro.
  - by apply revoke_session_ok.
  - by apply restart_ok.
Qed.

Lemma auth_history_ok h : Forall (fun ca => call_ok ca.1) h -> auth_ok (issued_in h) (logged_in h) (enrolled_in h) (uacts h new_node).
Proof. intros Hc. apply acts_ok; [done|done|]. constructor; try done. by constructor. Qed.

(** A session and the login it comes from. *)
Lemma session_login h token expires :
  Forall (fun ca => call_ok ca.1) h -> sessions (uacts h new_node) !! token = Some expires ->
  exists pk vault, get_session_public_key (uacts h new_node) token = Some pk /\
    get_session_vault_id (uacts h new_node) token = Some vault /\ logged_in h token pk vault.
Proof.
  intros Hc He. destruct (ok_sessions _ _ _ _ (auth_history_ok h Hc)) as (Dk & Dv & _ & Hl).
  assert (token ∈ dom (sessions (uacts h new_node))) as Hd by (by apply elem_of_dom).
  assert (is_Some (session_keys (uacts h new_node) !! token)) as (pk & Hpk) by (by apply elem_of_dom; rewrite Dk).
  assert (is_Some (session_vaults (uacts h new_node) !! token)) as (vt & Hvt) by (by apply elem_of_dom; rewrite Dv).
  exists pk, vt. split; [done|]. split; [done|]. by apply (Hl token).
Qed.

(** C14: in every history of a node, whatever writes fail and whenever it restarts, a session
    belongs to a key that signed the nonce of a challenge issued to that key for the
    vault of the session; with enrollment required, to an identity that was enrolled. *)
Theorem session_authenticated h token expires :
  Forall (fun ca => call_ok ca.1) h -> sessions (uacts h new_node) !! token = Some expires ->
  exists pk vault, get_session_public_key (uacts h new_node) token = Some pk /\
    get_session_vault_id (uacts h new_node) token = Some vault /\ logged_in h token pk vault.
Proof. apply session_login. Qed.

(** The tables of a node never outgrow their limits, and every session has its key and
    its vault. *)
Theorem auth_tables_bounded h :
  Forall (fun ca => call_ok ca.1) h ->
  let s := uacts h new_node in
  Z.of_nat (size (challenges s)) <= MAX_ACTIVE_CHALLENGES /\ Z.of_nat (size (sessions s)) <= MAX_ACTIVE_SESSIONS /\
  dom (session_keys s) = dom (sessions s) /\ dom (session_vaults s) = dom (sessions s).
Proof.
  intros Hc s. destruct (auth_history_ok h Hc) as [(_ & H1) (H2 & H3 & H4 & _) _ _ _ _]. done.
Qed.

(** ** A challenge is answered once *)

Section Spent.
Variable id0 : str.

(** The challenge is neither in memory nor on disk. *)
Definition gone (s : Auth) : Prop :=
  challenges s !! id0 = None /\ on_disk (Forall (fun r => pc_challenge_id r <> id0)) (challenges_file s).

Lemma gone_doc c t : call_ok c -> t !! id0 = None -> Forall (fun r => pc_challenge_id r <> id0) (challenge_record <$> ac_iter c _ t).
Proof.
  intros (Hi & _) Ht. apply Forall_fmap, Forall_forall. intros [id r] Hr. rewrite Hi in Hr. apply elem_of_map_to_list in Hr.
  unfold compose; simpl. intros ->. congruence.
Qed.
Lemma gone_identities c at_ s : gone s -> hoare gone (persist_enrolled_identities c at_) s (fun _ => gone).
Proof.
  intros H. destruct s as [h e k v b i f1 f2 f3].
  eapply hoare_conseq; [apply hoare_persist_identities| |]; [intros d (f & _ & ->)|intros u d (f & _ & ->)]; done.
Qed.
Lemma gone_sessions c at_ s : gone s -> hoare gone (persist_sessions c at_) s (fun _ => gone).
Proof.
  intros H. destruct s as [h e k v b i f1 f2 f3].
  eapply hoare_conseq; [apply hoare_persist_sessions| |]; [intros d (f & _ & ->)|intros u d (f & _ & ->)]; done.
Qed.
Lemma gone_challenges c at_ s : call_ok c -> gone s -> hoare gone (persist_challenges c at_) s (fun _ => gone).
Proof.
  intros Hc (Hm & Hd). destruct s as [h e k v b i f1 f2 f3]. pose proof (gone_doc c h Hc Hm) as Hl.
  eapply hoare_conseq; [apply hoare_persist_challenges| |]; [intros d (f & Hf & ->)|intros u d (f & Hf & ->)]; split; try done.
  - by eapply on_disk_written.
  - by eapply on_disk_saved.
Qed.
Lemma gone_with_identities l s : gone s -> gone (with_identities l s).
Proof. by destruct s. Qed.
Lemma gone_with_sessions e k v b s : gone s -> gone (with_sessions e k v b s).
Proof. by destruct s. Qed.
Lemma gone_remove t s : gone s -> gone (remove_session t s).
Proof. by destruct s. Qed.
Lemma gone_with_challenges t s : gone s -> t !! id0 = None -> gone (with_challenges t s).
Proof. intros (Hm & Hd) Ht. by destruct s. Qed.
Lemma gone_delete id s : gone s -> gone (with_challenges (delete id (challenges s)) s).
Proof.
  intros H. apply gone_with_challenges; [done|]. destruct (decide (id = id0)) as [->|]; [apply lookup_delete_eq|].
  rewrite lookup_delete_ne by done. apply H.
Qed.
Create HintDb spent.
#[local] Hint Resolve gone_identities gone_sessions gone_challenges gone_with_identities gone_with_sessions gone_remove gone_delete : spent.
Ltac spent := keep ltac:(eauto 6 with spent nocore).

Lemma create_gone c now pk r s : gone s -> hoare gone (create_session c now pk r) s (fun _ => gone).
Proof. intros Hs. unfold create_session. spent. Qed.
Lemma revoke_sessions_gone c pk s : gone s -> hoare gone (revoke_sessions_of c pk) s (fun _ => gone).
Proof. intros Hs. unfold revoke_sessions_of. spent. Qed.
#[local] Hint Resolve create_gone revoke_sessions_gone : spent.

Lemma issue_gone c v p acc dev s :
  call_ok c -> hex_encode (ac_id_bytes c) <> id0 -> gone s ->
  hoare gone (issue_challenge_with_binding security c v p acc dev) s (fun _ => gone).
Proof.
  intros Hc Hid Hs. unfold issue_challenge_with_binding. spent. destruct a as [acc' dev']. spent.
  apply gone_challenges; [done|]. apply gone_with_challenges; [done|]. rewrite lookup_insert_ne by done.
  match goal with H : gone ?d |- _ => destruct H as (Hm & _) end. unfold drop_key. set (t := filter _ _).
  assert (t !! id0 = None) as Ht by (apply map_lookup_filter_None; by left).
  destruct (evicted _ _ _ _) as [k|]; [|done]. by apply lookup_delete_None; right.
Qed.
Lemma verify_gone c id pkh sig s : call_ok c -> gone s -> hoare gone (verify_and_create_session security c id pkh sig) s (fun _ => gone).
Proof.
  intros Hc Hs. unfold verify_and_create_session. spent. destruct (challenges s !! id) as [r|]; [|spent].
  destruct (answered r pkh sig); spent.
Qed.
Lemma load_challenges_gone now l t :
  Forall (fun r => pc_challenge_id r <> id0) l -> t !! id0 = None -> foldl (load_challenge now) t l !! id0 = None.
Proof.
  revert t; induction l as [|r l IH]; intros t Hl Ht; [done|]. apply Forall_cons in Hl as (Hr & Hl). simpl. apply IH; [done|].
  unfold load_challenge. destruct (_ || _); [done|]. destruct (_ || _); [done|]. by rewrite lookup_insert_ne.
Qed.
Lemma restart_gone c s : gone s -> gone (restart_auth c s).
Proof.
  intros (_ & Hd). destruct s as [h e k v b i f1 f2 f3]. cbn in Hd. unfold restart_auth.
  assert (forall l d, challenges_file (foldl (load_session (ac_now c "load_sessions")) d l) = challenges_file d) as Hf.
  { induction l as [|r l IH]; intros d; [done|]. simpl. rewrite IH. unfold load_session.
    destruct (_ || _); [done|]. destruct (hex_decode _); [|done]. destruct (_ || _); [done|].
    destruct (normalize_identity_binding _ _); [|done]. by destruct d. }
  set (d := foldl (load_session _) _ _). assert (challenges_file d = f3) as Ef by apply Hf. destruct d as [h' e' k' v' b' i' g1 g2 g3].
  cbn in Ef. subst g3. split; [|done]. cbn. apply load_challenges_gone; [|done].
  destruct (read_doc f3) as [l|] eqn:E; [by apply Hd|constructor].
Qed.

Lemma acts_gone h s :
  Forall (fun ca => call_ok ca.1) h ->
  (forall c v p acc dev, (c, AIssue v p acc dev) ∈ h -> hex_encode (ac_id_bytes c) <> id0) -> gone s -> gone (uacts h s).
Proof.
  revert s; induction h as [|[c a] h IH]; intros s Hc Hn Hs; [done|]. apply Forall_cons in Hc as (Hc & Hcs). simpl in *.
  apply IH; [done|intros; eapply Hn; by right|]. destruct a; simpl; try apply hoare_state.
  - unfold enroll_identity_with_binding. spent. destruct a as [acc' dev']. spent.
  - unfold revoke_identity. spent.
  - apply issue_gone; try done. eapply Hn. by left.
  - by apply verify_gone.
  - unfold revoke_session. spent.
  - by apply restart_gone.
Qed.
End Spent.

Lemma verify_consumes c id pkh sig s :
  call_ok c -> hoare (fun _ => True) (verify_and_create_session security c id pkh sig) s
                 (fun o s' => is_Some o -> gone id s').
Proof.
  intros Hc. unfold verify_and_create_session. cbv zeta. apply hoare_get_bind, hoare_modify_bind.
  destruct (challenges s !! id) as [r|]; [|apply hoare_done; by intros []].
  apply (hoare_bind _ _ _ _ (fun _ => gone id)).
  - destruct s as [h e k v b i f1 f2 f3]. cbn.
    eapply (hoare_catch _ (fun _ => True)); [|intros err d _; by apply hoare_ret].
    eapply hoare_conseq; [apply hoare_persist_challenges|done|]. intros _ d (f & Hf & ->).
    split; [apply lookup_delete_eq|]. eapply on_disk_saved; [|done]. apply gone_doc; [done|apply lookup_delete_eq].
  - intros _ d Hd. assert (forall x, hoare (E := str) (fun _ => True) (tret (Ok None)) d (fun (o : option str) s' => is_Some o -> x s')) as Hn
      by (intros x; apply hoare_done; by intros []).
    destruct (_ >? _); [apply Hn|]. destruct (negb _); [apply Hn|]. apply hoare_get_bind. destruct (_ && _); [apply Hn|].
    destruct (answered _ _ _) as [pk|]; [|apply Hn].
    eapply hoare_conseq; [by apply create_gone|done|]. done.
Qed.

(** A challenge that was answered with a session is never answered again, across writes
    that fail and restarts, unless the same identifier is drawn for a new challenge. *)
Theorem challenge_single_use c id pkh sig s token s1 h c' pkh' sig' :
  call_ok c -> verify_and_create_session security c id pkh sig s = (Ok (Some token), s1) ->
  Forall (fun ca => call_ok ca.1) h ->
  (forall c v p acc dev, (c, AIssue v p acc dev) ∈ h -> hex_encode (ac_id_bytes c) <> id) ->
  (verify_and_create_session security c' id pkh' sig' (uacts h s1)).1 = Ok None.
Proof.
  intros Hc E Hh Hn. pose proof (verify_consumes c id pkh sig s Hc) as H. unfold hoare in H. rewrite E in H.
  destruct (acts_gone id h s1 Hh Hn (H (ltac:(by eexists)))) as (Hm & _).
  unfold verify_and_create_session, tbind, tget, tmodify. cbn. by rewrite Hm.
Qed.
End Theory.

(** ** Examples *)

#[export] Instance EnrolledIdentity_eq_dec : EqDecision EnrolledIdentity.
Proof. solve_decision. Defined.
#[export] Instance EnrolledIdentity_countable : Countable EnrolledIdentity.
Proof.
  by refine (inj_countable'
    (fun i => (en_vault_id_hex i, en_public_key_hex i, en_permissions i, en_enrolled_at_utc i, en_revoked_at_utc i,
               en_account_id i, en_device_id_hex i))
    (fun '(a, b, c, d, e, f, g) => Build_EnrolledIdentity a b c d e f g) _); intros [].
Defined.
#[export] Instance PersistedSession_eq_dec : EqDecision PersistedSession.
Proof. solve_decision. Defined.
#[export] Instance PersistedSession_countable : Countable PersistedSession.
Proof.
  by refine (inj_countable'
    (fun r => (ps_token r, ps_expires_at_utc r, ps_public_key_hex r, ps_vault_id_hex r, ps_account_id r, ps_device_id_hex r))
    (fun '(a, b, c, d, e, f) => Build_PersistedSession a b c d e f) _); intros [].
Defined.
#[export] Instance PersistedChallenge_eq_dec : EqDecision PersistedChallenge.
Proof. solve_decision. Defined.
#[export] Instance PersistedChallenge_countable : Countable PersistedChallenge.
Proof.
  by refine (inj_countable'
    (fun r => (pc_challenge_id r, pc_nonce_hex r, pc_expires_at_utc r, pc_vault_id_hex r, pc_public_key_hex r,
               pc_account_id r, pc_device_id_hex r))
    (fun '(a, b, c, d, e, f, g) => Build_PersistedChallenge a b c d e f g) _); intros [].
Defined.
Definition JIdentities : JsonDoc (list EnrolledIdentity) := countable_doc.
Definition JSessions : JsonDoc (list PersistedSession) := countable_doc.
Definition JChallenges : JsonDoc (list PersistedChallenge) := countable_doc.
#[export] Existing Instances JIdentities JSessions JChallenges.
#[export] Instance JIdentities_laws : JsonDocLaws _ JIdentities := countable_doc_laws.
#[export] Instance JSessions_laws : JsonDocLaws _ JSessions := countable_doc_laws.
#[export] Instance JChallenges_laws : JsonDocLaws _ JChallenges := countable_doc_laws.

Definition strict : OperatorSecurityConfig := from_flags None None.
(** A call at [now] on which the write named by [failing] fails. *)
Definition auth_call (now : Z) (failing : option string) : AuthCall :=
  {| ac_now := fun _ => now; ac_persist := fun at_ => if bool_decide (failing = Some at_) then NotSaved (lit "disk full") else Saved;
     ac_id_bytes := replicate 16 1; ac_nonce_bytes := replicate 32 2; ac_token_bytes := replicate 32 3;
     ac_iter := fun V => map_to_list |}.
Lemma auth_call_ok now failing : call_ok (auth_call now failing).
Proof. split; [done|]. apply Forall_replicate. unfold is_u8. lia. Qed.

Definition device_sk : bytes := replicate 32 7.
Definition device_pk : str := hex_encode (verifying_key device_sk).
Definition vault : str := hex_encode (replicate 32 4).
Definition challenge_id : str := hex_encode (replicate 16 1).
Definition token : str := hex_encode (replicate 32 3).
Definition answer : str := hex_encode (sign_with_domain device_sk challenge_domain (replicate 32 2)).
Definition first_day : list (AuthCall * AuthAction) :=
  [(auth_call 1000 None, AEnroll vault device_pk 3 None None); (auth_call 1010 None, AIssue vault device_pk None None);
   (auth_call 1020 None, AVerify challenge_id device_pk answer); (auth_call 1030 None, ARestart)].
Definition after_first_day : Auth := uacts strict first_day new_node.
Lemma first_day_calls : Forall (fun ca => call_ok ca.1) first_day.
Proof. do 4 (apply Forall_cons_2; [apply auth_call_ok|]); apply Forall_nil_2. Qed.

Lemma session_authenticated_witness :
  exists pk v, get_session_public_key after_first_day token = Some pk /\
    get_session_vault_id after_first_day token = Some v /\ logged_in strict first_day token pk v.
Proof. apply (session_authenticated strict first_day token 4620); [exact first_day_calls|vm_compute; reflexivity]. Defined.

Lemma auth_tables_bounded_witness :
  Z.of_nat (size (challenges after_first_day)) <= MAX_ACTIVE_CHALLENGES /\
  Z.of_nat (size (sessions after_first_day)) <= MAX_ACTIVE_SESSIONS /\
  dom (session_keys after_first_day) = dom (sessions after_first_day) /\
  dom (session_vaults after_first_day) = dom (sessions after_first_day).
Proof. exact (auth_tables_bounded strict first_day first_day_calls). Defined.

Abbreviation login_of s := (verify_and_create_session strict (auth_call 1020 None) challenge_id device_pk answer s).
Lemma challenge_single_use_witness :
  let s := uacts strict (take 2 first_day) new_node in
  (login_of s).1 = Ok (Some token) /\
  (verify_and_create_session strict (auth_call 1040 None) challenge_id device_pk answer
     (uacts strict [(auth_call 1030 None, ARestart)] (login_of s).2)).1 = Ok None.
Proof.
  intros s. assert ((login_of s).1 = Ok (Some token)) as E1 by (vm_compute; reflexivity). split; [exact E1|].
  apply (challenge_single_use strict (auth_call 1020 None) challenge_id device_pk answer s token (login_of s).2).
  - apply auth_call_ok.
  - rewrite <- E1. apply surjective_pairing.
  - apply Forall_cons_2; [apply auth_call_ok|apply Forall_nil_2].
  - intros c v p acc dev Hin. apply list_elem_of_singleton in Hin. discriminate.
Defined.
