(* ===== verification/OperatorRevocation.v ===== *)
(** * Revocation at the operator

    A revoked identity stays out, across restarts and failing writes, until it is
    enrolled again; its sessions go with it.  The last part shows what is left when
    one of the two documents cannot be written. *)

From S2P Require Import Prelude Errors Tables Primitives SamplePrimitives Crypto OperatorCore OperatorAuth OperatorAuthTheory.

#[local] Open Scope tx_scope.

Section Revocation.
Context {HX : Hex} {HL : HexLaws HX} {ED : Ed25519}.
Context {JE : JsonDoc (list EnrolledIdentity)} {JN : JsonDoc (list PersistedSession)} {JC : JsonDoc (list PersistedChallenge)}.
Context {LE : JsonDocLaws _ JE} {LN : JsonDocLaws _ JN} {LC : JsonDocLaws _ JC}.
Variable security : OperatorSecurityConfig.

(** ** Without an active enrollment *)

Section Out.
Variables v0 p0 : str.

Definition is_out (i : EnrolledIdentity) : Prop := same_identity v0 p0 i = true -> is_Some (en_revoked_at_utc i).
Definition out (s : Auth) : Prop := Forall is_out (enrolled_identities s) /\ on_disk (Forall is_out) (identities_file s).

Lemma out_identities c at_ s : out s -> hoare out (persist_enrolled_identities c at_) s (fun _ => out).
Proof.
  intros (Hm & Hd). destruct s as [h e k v b i f1 f2 f3].
  eapply hoare_conseq; [apply hoare_persist_identities| |]; [intros d (f & Hf & ->)|intros u d (f & Hf & ->)]; split; try done.
  - by eapply on_disk_written.
  - by eapply on_disk_saved.
Qed.
Lemma out_sessions c at_ s : out s -> hoare out (persist_sessions c at_) s (fun _ => out).
Proof.
  intros H. destruct s as [h e k v b i f1 f2 f3].
  eapply hoare_conseq; [apply hoare_persist_sessions| |]; [intros d (f & _ & ->)|intros u d (f & _ & ->)]; done.
Qed.
Lemma out_challenges c at_ s : out s -> hoare out (persist_challenges c at_) s (fun _ => out).
Proof.
  intros H. destruct s as [h e k v b i f1 f2 f3].
  eapply hoare_conseq; [apply hoare_persist_challenges| |]; [intros d (f & _ & ->)|intros u d (f & _ & ->)]; done.
Qed.
Lemma out_with_identities l s : out s -> Forall is_out l -> out (with_identities l s).
Proof. intros (Hm & Hd) Hl. by destruct s. Qed.
Lemma out_with_sessions e k v b s : out s -> out (with_sessions e k v b s).
Proof. by destruct s. Qed.
Lemma out_remove t s : out s -> out (remove_session t s).
Proof. by destruct s. Qed.
Lemma out_with_challenges t s : out s -> out (with_challenges t s).
Proof. by destruct s. Qed.

Lemma set_at_out at_ (ns : list nat) l :
  (forall n i, n ∈ ns -> l !! n = Some i -> is_Some at_ \/ same_identity v0 p0 i = false) ->
  Forall is_out l -> Forall is_out (set_at at_ ns l).
Proof.
  intros Hn Hl. apply Forall_lookup. intros n i. rewrite set_at_lookup.
  destruct (l !! n) as [j|] eqn:E; [|by case_bool_decide]. pose proof (Forall_lookup_1 _ _ _ _ Hl E) as Hj.
  case_bool_decide as Hin; intros [= <-]; [|done]. intros Hs. destruct (Hn n j Hin E) as [?|Hf]; [done|].
  unfold same_identity in *; simpl in Hs. congruence.
Qed.
Lemma out_revoked v p now l : Forall is_out l -> Forall is_out (set_at (Some now) (revoked_indices v p l) l).
Proof. intros Hl. apply set_at_out; [|done]. intros. left. by eexists. Qed.
Lemma out_mem s : out s -> Forall is_out (enrolled_identities s).
Proof. by intros (? & _). Qed.
Create HintDb out.
#[local] Hint Resolve out_identities out_sessions out_challenges out_with_identities out_with_sessions out_remove
  out_with_challenges out_revoked out_mem : out.
Ltac outs := keep ltac:(eauto 6 with out nocore).

Lemma enroll_out c v p perm acc dev s :
  (lower (trim v), lower (trim p)) <> (v0, p0) -> out s ->
  hoare out (enroll_identity_with_binding c v p perm acc dev) s (fun _ => out).
Proof.
  intros Hne Hs. unfold enroll_identity_with_binding. outs. destruct a as [acc' dev']. outs.
  match goal with H : out ?d |- _ => rename d into s1, H into H1 end.
  apply out_identities, out_with_identities; [done|]. pose proof (out_mem _ H1) as Hl.
  assert (forall i, same_identity (lower (trim v)) (lower (trim p)) i = true -> same_identity v0 p0 i = false) as Hother.
  { unfold same_identity. intros i. destruct (bool_decide_reflect (en_vault_id_hex i = v0)) as [Ev|]; [|done].
    destruct (bool_decide_reflect (en_public_key_hex i = p0)) as [Ep|]; [|done]. rewrite Ev, Ep.
    intros (E1 & E2)%andb_true_iff. apply bool_decide_eq_true in E1, E2. congruence. }
  destruct (update_first _ _ _) as [l'|] eqn:E; simpl.
  - revert l' E; induction Hl as [|i l Hi Hl IH]; intros l' E; [done|]. simpl in E.
    destruct (same_identity _ _ i) eqn:Es.
    + injection E as <-. constructor; [|done]. intros Hs0. pose proof (Hother _ Es) as Hf.
      unfold same_identity in *; simpl in Hs0. congruence.
    + destruct (update_first _ _ l) as [l''|]; [|done]. injection E as <-. constructor; [done|]. by apply IH.
  - apply Forall_app. split; [done|]. constructor; [|constructor]. intros Hs0. exfalso.
    assert (same_identity v0 p0 {| en_vault_id_hex := lower (trim v); en_public_key_hex := lower (trim p); en_permissions := perm;
      en_enrolled_at_utc := 0; en_revoked_at_utc := None; en_account_id := None; en_device_id_hex := None |} = false) as Hf
      by (apply Hother; unfold same_identity; simpl; by rewrite !bool_decide_true).
    unfold same_identity in *; simpl in *. congruence.
Qed.

Lemma revoke_sessions_out c pk s : out s -> hoare out (revoke_sessions_of c pk) s (fun _ => out).
Proof. intros Hs. unfold revoke_sessions_of. outs. Qed.
Lemma create_out c now pk r s : out s -> hoare out (create_session c now pk r) s (fun _ => out).
Proof. intros Hs. unfold create_session. outs. Qed.
#[local] Hint Resolve revoke_sessions_out create_out : out.

Lemma revoke_identity_out c v p s : out s -> hoare out (revoke_identity c v p) s (fun _ => out).
Proof. intros Hs. unfold revoke_identity. outs. all: rewrite set_at_undo; eauto with out. Qed.

Lemma load_session_identities now l s :
  enrolled_identities (foldl (load_session now) s l) = enrolled_identities s /\
  identities_file (foldl (load_session now) s l) = identities_file s.
Proof.
  revert s; induction l as [|r l IH]; intros s; [done|]. simpl. destruct (IH (load_session now s r)) as (-> & ->).
  unfold load_session. destruct (_ || _); [done|]. destruct (hex_decode _); [|done]. destruct (_ || _); [done|].
  destruct (normalize_identity_binding _ _); [|done]. by destruct s.
Qed.
Lemma restart_out c s : out s -> out (restart_auth c s).
Proof.
  intros (_ & Hd). destruct s as [h e k v b i f1 f2 f3]. cbn in Hd. unfold restart_auth. apply out_with_challenges.
  unfold out. set (s1 := MkAuth ∅ ∅ ∅ ∅ ∅ _ f1 f2 f3).
  destruct (load_session_identities (ac_now c "load_sessions") (default [] (read_doc f2)) s1) as (-> & ->). split; [|done]. cbn.
  destruct (read_doc f1) as [l|] eqn:E; [|constructor]. specialize (Hd _ E). cbn. apply Forall_forall.
  intros j (x & Hx & Hj)%list_elem_of_omap. rewrite Forall_forall in Hd. specialize (Hd x Hx).
  apply load_identity_same in Hj as (E1 & E2 & E3). unfold is_out, same_identity in *. by rewrite E1, E2, E3.
Qed.

Lemma acts_out h s :
  (forall c v p perm acc dev, (c, AEnroll v p perm acc dev) ∈ h -> (lower (trim v), lower (trim p)) <> (v0, p0)) ->
  out s -> out (uacts security h s).
Proof.
  revert s; induction h as [|[c a] h IH]; intros s Hn Hs; [done|]. simpl.
  apply IH; [intros; eapply Hn; by right|]. destruct a; simpl; try apply hoare_state.
  - apply enroll_out; [|done]. eapply Hn. by left.
  - by apply revoke_identity_out.
  - unfold issue_challenge_with_binding. outs. destruct a as [acc' dev']. outs.
  - unfold verify_and_create_session. outs. destruct (challenges s !! _) as [r|]; [|outs]. destruct (answered _ _ _); outs.
  - unfold revoke_session. outs.
  - by apply restart_out.
Qed.

Lemma out_not_enrolled s v p acc dev :
  out s -> lower (trim v) = v0 -> lower (trim p) = p0 ->
  is_identity_enrolled_with_binding (enrolled_identities s) v p acc dev = false.
Proof.
  intros (Hm & _) Ev Ep. destruct (is_identity_enrolled_with_binding _ _ _ _ _) eqn:E; [|done]. exfalso.
  apply enrolled_sound in E as (i & Hi & Hr & E1 & E2). rewrite Forall_forall in Hm. specialize (Hm i Hi).
  unfold is_out, same_identity in Hm. rewrite E1, E2, Ev, Ep, !bool_decide_true, Hr in Hm by done. by destruct (Hm eq_refl).
Qed.
End Out.

(** ** What a revocation does *)

Definition keyless (pk : str) (s : Auth) : Prop :=
  forall t key, session_keys s !! t = Some key -> hex_encode key <> pk.

Lemma revoked_all v p now l i :
  i ∈ set_at (Some now) (revoked_indices v p l) l -> same_identity v p i = true -> is_Some (en_revoked_at_utc i).
Proof.
  intros (n & Hn)%list_elem_of_lookup Hs. rewrite set_at_lookup in Hn. case_bool_decide as Hin.
  - destruct (l !! n) as [j|]; [|done]. injection Hn as <-. by eexists.
  - destruct (en_revoked_at_utc i) eqn:Er; [by eexists|]. exfalso. apply Hin, elem_of_revoked. exists i. split; [done|].
    unfold to_revoke. rewrite Hs, Er. done.
Qed.

Lemma revoke_sessions_spec c pk s :
  call_ok c -> hoare (fun _ => True) (revoke_sessions_of c pk) s
    (fun _ s' => keyless pk s' /\ enrolled_identities s' = enrolled_identities s /\ identities_file s' = identities_file s).
Proof.
  intros (Hi & _). unfold revoke_sessions_of. apply hoare_get_bind. set (ts := fst <$> _).
  assert (forall t key, session_keys s !! t = Some key -> hex_encode key = pk -> t ∈ ts) as Hts.
  { intros t key Hk E. unfold ts. apply list_elem_of_fmap. exists (t, key). split; [done|]. apply list_elem_of_filter.
    split; [done|]. rewrite Hi. by apply elem_of_map_to_list. }
  case_bool_decide as Hnil.
  - apply hoare_done. split; [|done]. intros t key Hk E. specialize (Hts t key Hk E). rewrite Hnil in Hts. by apply elem_of_nil in Hts.
  - apply hoare_get_bind, hoare_modify_bind. destruct s as [h e k v b i f1 f2 f3]. cbn in *.
    eapply (hoare_catch _ (fun _ => True)); [|intros err d _; apply hoare_modify_bind; by apply hoare_ret].
    eapply hoare_conseq; [apply hoare_persist_sessions|done|]. intros _ d (f & _ & ->). split; [|done].
    intros t key. cbn. rewrite remove_all_lookup. case_bool_decide as Hin; [done|]. intros Hk E. apply Hin. by eapply Hts.
Qed.

Lemma revoke_identity_spec c v p s :
  call_ok c -> hoare (fun _ => True) (revoke_identity c v p) s
    (fun b s' => b = true -> out (lower (trim v)) (lower (trim p)) s' /\ keyless (lower (trim p)) s').
Proof.
  intros Hc. destruct s as [h e k vs b i f1 f2 f3]. unfold revoke_identity. cbv zeta. apply hoare_get_bind, hoare_modify_bind.
  cbn [enrolled_identities with_identities]. set (v' := lower (trim v)). set (p' := lower (trim p)).
  case_bool_decide; [by apply hoare_done|]. apply (hoare_bind _ _ _ _ (fun _ => out v' p')).
  - eapply (hoare_catch _ (fun _ => True)); [|intros err d _; apply hoare_modify_bind; by apply hoare_ret].
    eapply hoare_conseq; [apply hoare_persist_identities|done|]. intros _ d (f & Hf & ->).
    assert (Forall (is_out v' p') (set_at (Some (0 `max` ac_now c "revoke")) (revoked_indices v' p' i) i)) as Hl
      by (apply Forall_forall; intros j Hj Hs; by eapply revoked_all in Hj).
    split; [done|]. by eapply on_disk_saved.
  - intros _ d Hd. eapply hoare_bind; [by apply revoke_sessions_spec|]. intros _ d' (Hk & E1 & E2).
    apply hoare_done. intros _. split; [|done]. unfold out. by rewrite E1, E2.
Qed.

(** C16: where the operator requires enrollment, a revocation that succeeds is final until the
    identity is enrolled again: at once no session of the key is left, and after any
    history of calls, failing writes and restarts the operator issues it no challenge and
    lets no session of it pass. *)
Theorem revoked_stays_out c v p s s1 h :
  require_enrollment security = true -> call_ok c -> revoke_identity c v p s = (Ok true, s1) ->
  (forall c v' p' perm acc dev, (c, AEnroll v' p' perm acc dev) ∈ h ->
     (lower (trim v'), lower (trim p')) <> (lower (trim v), lower (trim p))) ->
  keyless (lower (trim p)) s1 /\
  let s2 := uacts security h s1 in
  (forall c' v' p' acc dev, lower (trim (lower v')) = lower (trim v) -> lower (trim (lower p')) = lower (trim p) ->
     exists e, (issue_challenge_with_binding security c' v' p' acc dev s2).1 = Err e) /\
  (forall c' token vault permission scope key,
     get_session_vault_id s2 token = Some scope -> get_session_public_key s2 token = Some key ->
     lower (trim scope) = lower (trim v) -> lower (trim (hex_encode key)) = lower (trim p) ->
     session_has_permission security c' s2 token vault permission = false).
Proof.
  intros Hreq Hc E Hn. pose proof (revoke_identity_spec c v p s Hc) as H. unfold hoare in H. rewrite E in H.
  destruct (H eq_refl) as (Hout & Hk). split; [done|]. intros s2.
  assert (out (lower (trim v)) (lower (trim p)) s2) as H2 by (by apply acts_out). split.
  - intros c' v' p' acc dev Ev Ep. unfold issue_challenge_with_binding. destruct (negb _); [by eexists|]. destruct (negb _); [by eexists|].
    unfold tbind at 1, tret at 1. destruct (normalize_identity_binding acc dev) as [[a d]|]; [|by eexists].
    unfold tbind at 1, tget at 1. rewrite Hreq, (out_not_enrolled _ _ s2 (lower v') (lower p') _ _ H2 Ev Ep). by eexists.
  - intros c' token vault permission scope key Hs Hkey Ev Ep. unfold session_has_permission, validate_session_for_vault.
    destruct (validate_write_session c' s2 token); [|done]. cbn [negb]. rewrite Hs.
    destruct (eq_ignore_ascii_case scope vault); [|done]. cbn [negb]. rewrite Hreq, Hkey.
    by rewrite (out_not_enrolled _ _ s2 scope (hex_encode key) _ _ H2 Ev Ep).
Qed.

(** ** What a permission rests on *)

(** With enrollment required, a request passes only with a live session for the vault
    whose key has an active enrollment there, one that carries the permission. *)
Theorem permission_sound c s token vault permission :
  require_enrollment security = true -> session_has_permission security c s token vault permission = true ->
  exists expires scope key i,
    sessions s !! token = Some expires /\ ac_now c "validate" <= expires /\ token <> anonymous /\
    get_session_vault_id s token = Some scope /\ eq_ignore_ascii_case scope vault = true /\
    get_session_public_key s token = Some key /\
    is_identity_enrolled_with_binding (enrolled_identities s) scope (hex_encode key)
      (default (None, None) (session_bindings s !! token)).1 (default (None, None) (session_bindings s !! token)).2 = true /\
    i ∈ enrolled_identities s /\ eq_ignore_ascii_case (en_vault_id_hex i) vault = true /\ en_public_key_hex i = hex_encode key /\
    en_revoked_at_utc i = None /\ Z.land (en_permissions i) permission = permission.
Proof.
  intros Hreq. unfold session_has_permission, validate_session_for_vault, validate_write_session.
  destruct (bool_decide_reflect (token = [])); [done|]. destruct (bool_decide_reflect (token = anonymous)); [done|]. cbn [orb].
  destruct (sessions s !! token) as [expires|]; [|done]. destruct (Z.leb_spec (ac_now c "validate") expires); [|done]. cbn [negb].
  destruct (get_session_vault_id s token) as [scope|]; [|done]. destruct (eq_ignore_ascii_case scope vault) eqn:Es; [|done]. cbn [negb].
  rewrite Hreq. destruct (get_session_public_key s token) as [key|]; [|done].
  destruct (is_identity_enrolled_with_binding _ _ _ _ _) eqn:Een; [|done]. cbn [negb].
  destruct (find _ _) as [i|] eqn:Ei; [|done]. apply find_some in Ei as (Hin & Hi).
  apply andb_true_iff in Hi as (Hv & Hp). apply bool_decide_eq_true in Hp.
  intros (Hr & Hperm)%andb_true_iff. apply bool_decide_eq_true in Hr. apply Z.eqb_eq in Hperm.
  exists expires, scope, key, i. repeat (split; [done|]). split; [by apply list_elem_of_In|]. done.
Qed.

(** ** Writes that fail *)

(** When the identity is recorded as revoked but the sessions cannot be recorded, the call
    fails with the sessions in place, and calling it again does nothing: the sessions of
    the revoked key stay. *)
Theorem revocation_retry_keeps_sessions c c' v p s b :
  let l := set_at (Some (Z.max 0 (ac_now c "revoke"))) (revoked_indices (lower (trim v)) (lower (trim p)) (enrolled_identities s))
             (enrolled_identities s) in
  ac_persist c "revoke_identity" = Saved -> doc_write l = Ok b ->
  (exists msg, ac_persist c "revoke_identity_sessions" = NotSaved msg) ->
  revoked_indices (lower (trim v)) (lower (trim p)) (enrolled_identities s) <> [] ->
  fst <$> filter (fun tk => hex_encode tk.2 = lower (trim p)) (ac_iter c _ (session_keys s)) <> [] ->
  exists e s1, revoke_identity c v p s = (Err e, s1) /\ revoke_identity c' v p s1 = (Ok false, s1) /\
    sessions s1 = sessions s /\ session_keys s1 = session_keys s /\ session_vaults s1 = session_vaults s.
Proof.
  intros l Hid Hb (msg & Hses) Hidx Hts. destruct s as [h e k vs bd i f1 f2 f3]. cbn in l, Hidx, Hts.
  set (p' := lower (trim p)) in *. set (v' := lower (trim v)) in *. set (ts := fst <$> _) in Hts.
  assert (exists err, revoke_identity c v p (MkAuth h e k vs bd i f1 f2 f3) = (Err err, MkAuth h e k vs bd l (Some b) f2 f3)) as (err & E).
  { unfold revoke_identity, tbind at 1, tget at 1. cbv zeta. fold p' v'. unfold tbind at 1, tmodify at 1. cbn. fold l.
    rewrite bool_decide_false by done. unfold tbind at 1, tcatch at 1, persist_enrolled_identities. cbn.
    unfold persist_doc. rewrite Hid, Hb. cbn. unfold tbind at 1, revoke_sessions_of, tbind at 1, tget at 1. cbn. fold p' ts.
    rewrite bool_decide_false by done. unfold tbind, tget, tmodify, tcatch, persist_sessions, persist_doc. rewrite Hses.
    match goal with |- context [doc_write ?x] => destruct (doc_write x) end; cbn; rewrite !put_back_removed; by eexists. }
  exists err. eexists. split; [exact E|]. split; [|done].
  unfold revoke_identity, tbind, tget, tmodify. cbn [enrolled_identities with_identities]. cbv zeta. fold p' v'.
  assert (revoked_indices v' p' l = []) as ->.
  { apply elem_of_nil_inv. intros n (j & Hj & Hr)%elem_of_revoked. unfold to_revoke in Hr. apply andb_true_iff in Hr as (Hs & Hr).
    apply bool_decide_eq_true in Hr. apply list_elem_of_lookup_2 in Hj. apply revoked_all in Hj as (? & ?); [congruence|done]. }
  done.
Qed.

(** An enrollment whose write fails is reported as an error and yet active. *)
Lemma failed_enrollment_active c v p perm s msg :
  hex_len_is 32 (lower (trim v)) = true -> hex_len_is 32 (lower (trim p)) = true ->
  Forall (fun i => same_identity (lower (trim v)) (lower (trim p)) i = false) (enrolled_identities s) ->
  ac_persist c "enroll" = NotSaved msg ->
  exists e s', enroll_identity c v p perm s = (Err e, s') /\
    is_identity_enrolled_with_binding (enrolled_identities s') v p None None = true.
Proof.
  intros Hv Hp Hnew Hf. destruct s as [h e k vs bd i f1 f2 f3]. cbn in Hnew.
  unfold enroll_identity, enroll_identity_with_binding. rewrite Hv, Hp. cbn [negb].
  set (v' := lower (trim v)) in *. set (p' := lower (trim p)) in *.
  unfold tbind, tret, tget, tmodify. cbn.
  assert (forall f, update_first (same_identity v' p') f i = None) as Hu.
  { intros f. clear -Hnew. induction Hnew as [|j i Hj Hn IH]; [done|]. simpl. rewrite Hj. by rewrite IH. }
  rewrite Hu. cbn. unfold persist_doc. rewrite Hf.
  match goal with |- context [doc_write ?x] => destruct (doc_write x) end; cbn; (eexists _, _; split; [done|]); unfold is_identity_enrolled_with_binding; cbn; fold v' p';
    (apply existsb_exists; eexists; split; [apply in_or_app; right; left; reflexivity|]);
    unfold same_identity; cbn; by rewrite !bool_decide_true.
Qed.
End Revocation.

(** ** Examples *)

Abbreviation revocation c := (revoke_identity c vault device_pk after_first_day).

Lemma revoked_stays_out_witness :
  let s1 := (revocation (auth_call 1040 None)).2 in
  let h := [(auth_call 1050 None, ARestart)] in
  keyless (lower (trim device_pk)) s1 /\
  let s2 := uacts strict h s1 in
  (forall c' v' p' acc dev, lower (trim (lower v')) = lower (trim vault) -> lower (trim (lower p')) = lower (trim device_pk) ->
     exists e, (issue_challenge_with_binding strict c' v' p' acc dev s2).1 = Err e) /\
  (forall c' tok vlt permission scope key,
     get_session_vault_id s2 tok = Some scope -> get_session_public_key s2 tok = Some key ->
     lower (trim scope) = lower (trim vault) -> lower (trim (hex_encode key)) = lower (trim device_pk) ->
     session_has_permission strict c' s2 tok vlt permission = false).
Proof.
  intros s1 h. apply (revoked_stays_out strict (auth_call 1040 None) vault device_pk after_first_day s1 h).
  - reflexivity.
  - apply auth_call_ok.
  - assert ((revocation (auth_call 1040 None)).1 = Ok true) as E1 by (vm_compute; reflexivity).
    rewrite <- E1. apply surjective_pairing.
  - intros c v p perm acc dev Hin. apply list_elem_of_singleton in Hin. discriminate.
Defined.

Lemma permission_sound_witness :
  session_has_permission strict (auth_call 1040 None) after_first_day token vault PERMISSION_WRITE = true /\
  exists expires scope key i,
    sessions after_first_day !! token = Some expires /\ ac_now (auth_call 1040 None) "validate" <= expires /\ token <> anonymous /\
    get_session_vault_id after_first_day token = Some scope /\ eq_ignore_ascii_case scope vault = true /\
    get_session_public_key after_first_day token = Some key /\
    is_identity_enrolled_with_binding (enrolled_identities after_first_day) scope (hex_encode key)
      (default (None, None) (session_bindings after_first_day !! token)).1
      (default (None, None) (session_bindings after_first_day !! token)).2 = true /\
    i ∈ enrolled_identities after_first_day /\ eq_ignore_ascii_case (en_vault_id_hex i) vault = true /\
    en_public_key_hex i = hex_encode key /\ en_revoked_at_utc i = None /\
    Z.land (en_permissions i) PERMISSION_WRITE = PERMISSION_WRITE.
Proof.
  assert (session_has_permission strict (auth_call 1040 None) after_first_day token vault PERMISSION_WRITE = true) as E
    by (vm_compute; reflexivity).
  split; [exact E|]. apply (permission_sound strict (auth_call 1040 None)); [reflexivity|exact E].
Defined.

Lemma revocation_retry_keeps_sessions_witness :
  exists e s1, revocation (auth_call 1040 (Some "revoke_identity_sessions"%string)) = (Err e, s1) /\
    revoke_identity (auth_call 1050 None) vault device_pk s1 = (Ok false, s1) /\
    sessions s1 = sessions after_first_day /\ session_keys s1 = session_keys after_first_day /\
    session_vaults s1 = session_vaults after_first_day.
Proof.
  eapply (revocation_retry_keeps_sessions (auth_call 1040 (Some "revoke_identity_sessions"%string)) (auth_call 1050 None)
            vault device_pk after_first_day).
  - reflexivity.
  - reflexivity.
  - eexists. reflexivity.
  - vm_compute. discriminate.
  - vm_compute. discriminate.
Defined.
