(* ===== verification/RecoveryLog.v ===== *)
(** * Recovery logs of the operator

    The append-only log that src/services/operator/src/state.rs keeps for each recovery
    locator: length-prefixed records, authorised against the genesis record and the
    device certificates that the log itself holds, read whole or in pages.

    A log is the contents of one file.  Opening, cutting off an interrupted tail and
    writing can each fail, and a write that fails leaves any prefix of the new frame
    behind; a crash during a write leaves the same. *)

From S2P Require Import Prelude Errors Primitives Crypto Schema OperatorCore.

Definition MAX_RECORDS_PER_LOCATOR : Z := 10000.
Definition MAX_RECOVERY_LOG_BYTES : Z := 64 * 1024 * 1024.
Definition RECOVERY_PAGE_BYTES : Z := 1024 * 1024.

Record RecoveryPage : Type := { records : list bytes; next_cursor : option Z }.

Definition u32_from_be_bytes (prefix : bytes) : Z := from_le_bytes (rev prefix).
(** Four bytes of length, big endian, and the record. *)
Definition frame (record : bytes) : bytes := to_be_bytes 4 (blen record mod 2 ^ 32) ++ record.

Section RecoveryLog.
Context {HX : Hex} {ED : Ed25519}.
Context {CG : Cbor Genesis.GenesisRecord} {CD : Cbor DeviceCert.DeviceCertificate} {CH : Cbor Head.HeadRecord}.
Context {CE : Cbor Envelope.EpochEnvelope} {CS : Cbor Snapshot.SnapshotRecord}.
Variable env : Env.

(** ** Reading *)

(** The frames from the current position; the fuel is one more than the bytes left. *)
Fixpoint scan_frames (fuel : nat) (content : bytes) (count offset : Z) : result str (list bytes * Z * Z) :=
  match fuel with
  | O => Ok ([], count, offset)
  | S fuel =>
      if blen content <? 4 then Ok ([], count, offset) else
      let len := u32_from_be_bytes (take 4 content) in
      if (len =? 0) || (len >? max_recovery_record_size env) then Err (lit "Invalid recovery record length") else
      let rest := drop 4 content in
      if blen rest <? len then Ok ([], count, offset) else
      let record := take (Z.to_nat len) rest in
      if count + 1 >? MAX_RECORDS_PER_LOCATOR then Err (lit "Recovery log exceeds record limit") else
      let? out := scan_frames fuel (drop (Z.to_nat len) rest) (count + 1) (offset + 4 + len) in
      Ok (record :: out.1.1, out.1.2, out.2)
  end.
Definition scan_recovery_log (log : option bytes) : result str (list bytes * Z * Z) :=
  match log with
  | None => Ok ([], 0, 0)
  | Some content =>
      bail? blen content >? MAX_RECOVERY_LOG_BYTES with lit "Recovery log exceeds byte limit" ;;
      scan_frames (S (length content)) content 0 0
  end.

Definition valid_locator (locator_hex : str) : bool := (str_len locator_hex =? 64) && is_ok (hex_decode locator_hex).
Definition get_recovery_records (locator_hex : str) (log : option bytes) : list bytes :=
  if negb (valid_locator locator_hex) then [] else
  match scan_recovery_log log with
  | Ok (out, _, _) => out
  | Err _ => []
  end.

(** The loop of a page: [content] starts at [offset], the file ends at [end_]. *)
Fixpoint page_loop (fuel : nat) (content : bytes) (offset end_ : Z) (seen : Z) (out : list bytes) : result str (list bytes * Z) :=
  match fuel with
  | O => Ok (out, offset)
  | S fuel =>
      if negb (offset <? end_) then Ok (out, offset) else
      if blen content <? 4 then Err (lit "Incomplete recovery log tail; repair required") else
      let len := u32_from_be_bytes (take 4 content) in
      if (len =? 0) || (len >? max_recovery_record_size env) || (offset + 4 + len >? end_)
      then Err (lit "Invalid or incomplete recovery record") else
      if (seen + len >? RECOVERY_PAGE_BYTES) && negb (bool_decide (out = [])) then Ok (out, offset) else
      let rest := drop 4 content in
      page_loop fuel (drop (Z.to_nat len) rest) (offset + 4 + len) end_ (seen + len) (out ++ [take (Z.to_nat len) rest])
  end.
Definition get_recovery_page (locator_hex : str) (cursor : Z) (log : option bytes) : result str RecoveryPage :=
  bail? negb (hex_len_is 32 locator_hex) with lit "Invalid recovery locator" ;;
  match log with
  | None => if cursor =? 0 then Ok {| records := []; next_cursor := None |} else Err (lit "No such file or directory")
  | Some content =>
      let end_ := blen content in
      bail? (end_ >? MAX_RECOVERY_LOG_BYTES) || (cursor >? end_) with lit "Invalid recovery cursor or oversized log" ;;
      let rest := drop (Z.to_nat cursor) content in
      let? out := page_loop (S (length rest)) rest cursor end_ 0 [] in
      Ok {| records := out.1; next_cursor := if out.2 <? end_ then Some out.2 else None |}
  end.

(** ** Authority *)

(** The recovery key that the log registers, and the devices it certifies. *)
Record Authority : Type := { registered_recovery_pk : option bytes; authorized_device_pks : list bytes }.
Definition no_authority : Authority := {| registered_recovery_pk := None; authorized_device_pks := [] |}.

Definition note_genesis (r : bytes) (a : Authority) : Authority :=
  match from_canonical_cbor (T := Genesis.GenesisRecord) r with
  | Ok genesis =>
      if is_ok (Genesis.verify genesis) && (blen (Genesis.recovery_signing_pk genesis) =? 32)
      then {| registered_recovery_pk := Some (Genesis.recovery_signing_pk genesis);
              authorized_device_pks := authorized_device_pks a |}
      else a
  | Err _ => a
  end.
(** The device key of a certificate that the recovery key signed. *)
Definition certified (r_pk : bytes) (r : bytes) : option bytes :=
  match from_canonical_cbor (T := DeviceCert.DeviceCertificate) r with
  | Ok cert => if is_ok (DeviceCert.verify r_pk cert) && (blen (DeviceCert.device_signing_pk cert) =? 32)
               then Some (DeviceCert.device_signing_pk cert) else None
  | Err _ => None
  end.
Definition note_device (r : bytes) (a : Authority) : Authority :=
  match registered_recovery_pk a ≫= (fun r_pk => certified r_pk r) with
  | Some pk => if bool_decide (pk ∈ authorized_device_pks a) then a
               else {| registered_recovery_pk := registered_recovery_pk a;
                       authorized_device_pks := authorized_device_pks a ++ [pk] |}
  | None => a
  end.
Definition visit (a : Authority) (r : bytes) : Authority := note_device r (note_genesis r a).
Definition authority (log : list bytes) : Authority := foldl visit no_authority log.

(** One of the certified devices, or the recovery key, signed it. *)
Definition signed_by_authority (a : Authority) (verifies : bytes -> bool) : bool :=
  existsb verifies (authorized_device_pks a)
  || match registered_recovery_pk a with Some r_pk => verifies r_pk | None => false end.

Definition genesis_authorized (a : Authority) (record : bytes) : bool :=
  match from_canonical_cbor (T := Genesis.GenesisRecord) record with
  | Ok genesis =>
      (Genesis.version genesis =? PROTOCOL_VERSION) && is_ok (Genesis.verify genesis)
      && (blen (Genesis.recovery_signing_pk genesis) =? 32)
      && match registered_recovery_pk a with
         | Some existing => bool_decide (existing = Genesis.recovery_signing_pk genesis)
         | None => true
         end
  | Err _ => false
  end.
Definition certificate_authorized (a : Authority) (record : bytes) : bool :=
  match from_canonical_cbor (T := DeviceCert.DeviceCertificate) record with
  | Ok cert =>
      (DeviceCert.version cert =? PROTOCOL_VERSION) && (blen (DeviceCert.device_signing_pk cert) =? 32)
      && match registered_recovery_pk a with Some r_pk => is_ok (DeviceCert.verify r_pk cert) | None => false end
  | Err _ => false
  end.
Definition head_authorized (a : Authority) (record : bytes) : bool :=
  match from_canonical_cbor (T := Head.HeadRecord) record with
  | Ok head => (Head.version head =? PROTOCOL_VERSION) && (blen (Head.snapshot_id head) =? 32)
               && signed_by_authority a (fun pk => is_ok (Head.verify pk head))
  | Err _ => false
  end.
Definition envelope_authorized (a : Authority) (record : bytes) : bool :=
  match from_canonical_cbor (T := Envelope.EpochEnvelope) record with
  | Ok envelope => (Envelope.version envelope =? PROTOCOL_VERSION) && (blen (Envelope.recipient_fingerprint envelope) =? 32)
                   && signed_by_authority a (fun pk => is_ok (Envelope.verify pk envelope))
  | Err _ => false
  end.
Definition snapshot_authorized (a : Authority) (record : bytes) : bool :=
  match from_canonical_cbor (T := Snapshot.SnapshotRecord) record with
  | Ok snap => (Snapshot.version snap =? PROTOCOL_VERSION) && signed_by_authority a (fun pk => is_ok (Snapshot.verify pk snap))
  | Err _ => false
  end.
Definition is_authorized (a : Authority) (record : bytes) : bool :=
  genesis_authorized a record || certificate_authorized a record || head_authorized a record
  || envelope_authorized a record || snapshot_authorized a record.

Definition is_trusted_caller (a : Authority) (record : bytes) (caller_pk : option bytes) : bool :=
  match caller_pk, registered_recovery_pk a with
  | Some c_pk, Some r_pk =>
      bool_decide (c_pk = r_pk) || bool_decide (c_pk ∈ authorized_device_pks a)
      || bool_decide (certified r_pk record = Some c_pk)
  | _, _ => true
  end.

(** ** Appending *)

Record AppendIo : Type := {
  io_open : option str;              (* opening fails with this error *)
  io_truncate : option (str * bool); (* cutting the tail fails; was the file cut? *)
  io_write : option (str * nat);     (* writing fails; bytes of the frame that stay *)
}.

Definition UNAUTHORIZED : str :=
  lit "Record failed cryptographic authorization against registered vault recovery key or authorized device certificate".

Definition write_frame (io : AppendIo) (record : bytes) (count offset : Z) (log : option bytes) : result str Z * option bytes :=
  match io_open io with
  | Some e => (Err e, log)
  | None =>
      let content := default [] log in
      let cut := take (Z.to_nat offset) content in
      match (if blen content =? offset then None else io_truncate io) with
      | Some (e, true) => (Err e, Some cut)
      | Some (e, false) => (Err e, Some content)
      | None =>
          match io_write io with
          | Some (e, kept) => (Err e, Some (cut ++ take kept (frame record)))
          | None => (Ok (count + 1), Some (cut ++ frame record))
          end
      end
  end.

Definition append_authorized_recovery_record_inner (io : AppendIo) (locator_hex : str) (record : bytes)
  (caller_pk : option bytes) (log : option bytes) : result str Z * option bytes :=
  if negb (valid_locator locator_hex) then (Err (lit "Invalid recovery locator (must be 64 hex characters)"), log) else
  let limit := max_recovery_record_size env in
  if blen record >? limit then (Err (lit "Record exceeds maximum size limit of " ++ show_Z limit ++ lit " bytes"), log) else
  match scan_recovery_log log with
  | Err e => (Err e, log)
  | Ok (existing, count, committed_offset) =>
      let a := authority existing in
      if (count >=? MAX_RECORDS_PER_LOCATOR) || (sat_add64 committed_offset (4 + blen record) >? MAX_RECOVERY_LOG_BYTES)
      then (Err (lit "Locator recovery log capacity exceeded"), log) else
      if negb (is_authorized a record) then (Err UNAUTHORIZED, log) else
      if negb (is_trusted_caller a record caller_pk)
      then (Err (lit "Caller session key is not authorized for this vault locator"), log) else
      write_frame io record count committed_offset log
  end.
End RecoveryLog.
