(* ===== verification/RecoveryLogTheory.v ===== *)
(** * What a recovery log keeps

    Every log that appends have produced, however they were interrupted, reads back as
    the records that were acknowledged (and possibly one that was written but not
    acknowledged), each of them authorised by the records before it; pages put together
    are the whole log. *)

From S2P Require Import Prelude Errors Primitives SamplePrimitives Crypto Schema OperatorCore RecoveryLog.

Section Theory.
Context {HX : Hex} {ED : Ed25519}.
Context {CG : Cbor Genesis.GenesisRecord} {CD : Cbor DeviceCert.DeviceCertificate} {CH : Cbor Head.HeadRecord}.
Context {CE : Cbor Envelope.EpochEnvelope} {CS : Cbor Snapshot.SnapshotRecord}.
Variable env : Env.
Abbreviation limit := (max_recovery_record_size env).

(** ** Frames *)

Definition fits (r : bytes) : Prop := 0 < blen r <= limit /\ blen r < 2 ^ 32.
Definition frames (rs : list bytes) : bytes := concat (frame <$> rs).
(** What an interrupted write leaves: less than a frame. *)
Definition torn (b : bytes) : Prop := exists r n, fits r /\ (n < length (frame r))%nat /\ b = take n (frame r).

Lemma u32_be b : 0 <= b < 2 ^ 32 -> u32_from_be_bytes (to_be_bytes 4 b) = b.
Proof. intros Hb. unfold u32_from_be_bytes, to_be_bytes. rewrite rev_involutive. by apply from_to_le_bytes. Qed.
Lemma frame_length r : blen (frame r) = 4 + blen r.
Proof. unfold blen, frame. rewrite length_app, length_to_be_bytes. lia. Qed.
Lemma frame_prefix r rest : fits r -> u32_from_be_bytes (take 4 (frame r ++ rest)) = blen r.
Proof.
  intros (Hr & H32). unfold frame. rewrite <- app_assoc, take_app_length' by (symmetry; apply length_to_be_bytes).
  rewrite u32_be; rewrite Z.mod_small; unfold blen in *; lia.
Qed.
Lemma frame_body r rest : drop 4 (frame r ++ rest) = r ++ rest.
Proof. unfold frame. by rewrite <- app_assoc, drop_app_length' by (symmetry; apply length_to_be_bytes). Qed.
Lemma frames_cons r rs : frames (r :: rs) = frame r ++ frames rs.
Proof. done. Qed.
Lemma frames_app rs rs' : frames (rs ++ rs') = frames rs ++ frames rs'.
Proof. unfold frames. by rewrite fmap_app, concat_app. Qed.

(** ** Scanning *)

Definition log_size (rs : list bytes) : Z := blen (frames rs).

Lemma scan_torn fuel b count offset : torn b -> (0 < fuel)%nat -> scan_frames env fuel b count offset = Ok ([], count, offset).
Proof.
  intros (r & n & Hr & Hn & ->) Hf. destruct fuel as [|fuel]; [lia|]. cbn [scan_frames].
  destruct (Z.ltb_spec (blen (take n (frame r))) 4) as [|H4]; [done|].
  assert (4 <= n)%nat as Hn4 by (unfold blen in H4; rewrite length_take in H4; lia).
  assert (u32_from_be_bytes (take 4 (take n (frame r))) = blen r) as ->.
  { rewrite take_take, Nat.min_l by lia. rewrite <- (frame_prefix r [] Hr). by rewrite app_nil_r. }
  destruct Hr as (Hr & _). replace (blen r =? 0) with false by (symmetry; apply Z.eqb_neq; lia).
  replace (blen r >? limit) with false by lia. cbn [orb].
  replace (blen (drop 4 (take n (frame r))) <? blen r) with true; [done|].
  symmetry. apply Z.ltb_lt. pose proof (frame_length r) as Hl. unfold blen in *. rewrite length_drop, length_take. lia.
Qed.

Lemma scan_frames_ok rs b : forall fuel count offset,
  Forall fits rs -> torn b -> (length (frames rs ++ b) < fuel)%nat -> count + blen rs <= MAX_RECORDS_PER_LOCATOR ->
  scan_frames env fuel (frames rs ++ b) count offset = Ok (rs, count + blen rs, offset + log_size rs).
Proof.
  induction rs as [|r rs IH]; intros fuel count offset Hrs Hb Hf Hc.
  - cbn [app frames]. rewrite scan_torn by (done || lia). unfold log_size, blen. simpl. by rewrite !Z.add_0_r.
  - apply Forall_cons in Hrs as (Hr & Hrs). rewrite frames_cons, <- app_assoc in *.
    pose proof (frame_length r) as Hfl.
    assert (length (frame r ++ frames rs ++ b) = length (frame r) + length (frames rs ++ b))%nat as Hl by (by rewrite length_app).
    assert (blen (r :: rs) = 1 + blen rs) as Hcons by (unfold blen; simpl; lia).
    assert (Z.of_nat (length (frame r)) = 4 + blen r) as Hfr by (exact Hfl).
    pose proof Hr as (Hpos & _). pose proof (blen_nonneg rs).
    destruct fuel as [|fuel]; [lia|]. cbn [scan_frames].
    replace (blen (frame r ++ frames rs ++ b) <? 4) with false by (symmetry; apply Z.ltb_ge; unfold blen; lia).
    rewrite frame_prefix, frame_body by done.
    replace (blen r =? 0) with false by lia. replace (blen r >? limit) with false by lia. cbn [orb].
    replace (blen (r ++ frames rs ++ b) <? blen r) with false by (symmetry; apply Z.ltb_ge; unfold blen; rewrite length_app; lia).
    replace (count + 1 >? MAX_RECORDS_PER_LOCATOR) with false by lia.
    assert (Z.to_nat (blen r) = length r) as -> by (unfold blen; lia). rewrite take_app_length, drop_app_length.
    rewrite IH by (done || lia). cbn [res_bind fst snd]. unfold log_size. rewrite frames_cons.
    f_equal. f_equal; [f_equal; lia|]. unfold blen in *. rewrite length_app. lia.
Qed.

(** ** Logs *)

(** A file that holds these records, and possibly a torn frame. *)
Definition holds (log : option bytes) (rs : list bytes) : Prop :=
  Forall fits rs /\ blen rs <= MAX_RECORDS_PER_LOCATOR /\
  match log with
  | None => rs = []
  | Some content => blen content <= MAX_RECOVERY_LOG_BYTES /\ exists b, content = frames rs ++ b /\ torn b
  end.

Lemma limit_floor_4k : 4 * 1024 <= limit.
Proof. by apply limit_floor. Qed.
Lemma torn_nil : torn [].
Proof.
  exists [0], 0%nat. split; [|split; [|done]].
  - pose proof limit_floor_4k. unfold fits, blen. simpl. lia.
  - rewrite <- (Nat2Z.id (length _)). change (Z.of_nat (length (frame [0]))) with (blen (frame [0])).
    rewrite frame_length. unfold blen. simpl. lia.
Qed.
Lemma scan_holds log rs : holds log rs -> scan_recovery_log env log = Ok (rs, blen rs, log_size rs).
Proof.
  intros (Hf & Hn & Hl). destruct log as [content|]; [|by subst rs]. destruct Hl as (Hs & b & -> & Hb).
  unfold scan_recovery_log. replace (_ >? MAX_RECOVERY_LOG_BYTES) with false by lia.
  rewrite scan_frames_ok by (done || lia). done.
Qed.

(** The prefix of a frame is torn, or the frame. *)
Lemma take_frame r n : fits r -> torn (take n (frame r)) \/ take n (frame r) = frame r.
Proof.
  intros Hr. destruct (decide (n < length (frame r))%nat); [left; by exists r, n|right; apply take_ge; lia].
Qed.
Lemma holds_full log rs record :
  holds log rs -> fits record -> blen rs < MAX_RECORDS_PER_LOCATOR -> log_size rs + 4 + blen record <= MAX_RECOVERY_LOG_BYTES ->
  holds (Some (frames rs ++ frame record)) (rs ++ [record]).
Proof.
  intros (Hf & Hn & _) Hr Hlt Hsz. split; [apply Forall_app; split; [done|by constructor]|].
  split; [unfold blen in *; rewrite length_app; simpl; lia|].
  split; [pose proof (frame_length record); unfold log_size, blen in *; rewrite length_app; lia|].
  exists []. split; [|apply torn_nil]. rewrite frames_app, app_nil_r. f_equal. unfold frames. cbn. by rewrite app_nil_r.
Qed.
Lemma holds_part log rs record n :
  holds log rs -> fits record -> blen rs < MAX_RECORDS_PER_LOCATOR -> log_size rs + 4 + blen record <= MAX_RECOVERY_LOG_BYTES ->
  let log' := Some (frames rs ++ take n (frame record)) in holds log' rs \/ holds log' (rs ++ [record]).
Proof.
  intros Hl Hr Hlt Hsz log'. destruct (take_frame record n Hr) as [Ht|E]; [left|right].
  - destruct Hl as (Hf & Hn & _). split; [done|]. split; [done|]. split; [|by eexists].
    pose proof (frame_length record). unfold log_size, blen in *. rewrite length_app, length_take. lia.
  - unfold log'. rewrite E. by eapply holds_full.
Qed.
Lemma holds_cut log rs : holds log rs -> holds (Some (frames rs)) rs.
Proof.
  intros (Hf & Hn & Hl). split; [done|]. split; [done|].
  destruct log as [content|]; [|subst rs]; [destruct Hl as (Hs & b & -> & _)|]; (split; [|exists []; rewrite app_nil_r; split; [done|apply torn_nil]]).
  - unfold blen in *. rewrite length_app in Hs. lia.
  - unfold blen. simpl. done.
Qed.

(** ** Appending *)

(** No record is empty: the decoders need at least one byte. *)
Definition nothing_decodes : Prop :=
  is_ok (cbor_read (T := Genesis.GenesisRecord) []) = false /\ is_ok (cbor_read (T := DeviceCert.DeviceCertificate) []) = false /\
  is_ok (cbor_read (T := Head.HeadRecord) []) = false /\ is_ok (cbor_read (T := Envelope.EpochEnvelope) []) = false /\
  is_ok (cbor_read (T := Snapshot.SnapshotRecord) []) = false.
Lemma authorized_nonempty a record : nothing_decodes -> is_authorized a record = true -> 0 < blen record.
Proof.
  intros (H1 & H2 & H3 & H4 & H5) H. destruct record as [|x record]; [|unfold blen; simpl; lia]. exfalso. revert H.
  unfold is_authorized, genesis_authorized, certificate_authorized, head_authorized, envelope_authorized, snapshot_authorized,
    from_canonical_cbor. cbn [res_bind].
  destruct (cbor_read (T := Genesis.GenesisRecord) []); [done|]. destruct (cbor_read (T := DeviceCert.DeviceCertificate) []); [done|].
  destruct (cbor_read (T := Head.HeadRecord) []); [done|]. destruct (cbor_read (T := Envelope.EpochEnvelope) []); [done|].
  destruct (cbor_read (T := Snapshot.SnapshotRecord) []); done.
Qed.

Lemma capacity_fits rs record :
  0 < blen record -> (blen record >? limit) = false ->
  (sat_add64 (log_size rs) (4 + blen record) >? MAX_RECOVERY_LOG_BYTES) = false ->
  fits record /\ log_size rs + 4 + blen record <= MAX_RECOVERY_LOG_BYTES.
Proof.
  intros Hpos Hsz Hcap. rewrite Z.gtb_ltb in Hsz, Hcap. apply Z.ltb_ge in Hsz, Hcap. unfold sat_add64 in Hcap.
  assert (MAX_RECOVERY_LOG_BYTES < u64_max) as H1 by done. assert (MAX_RECOVERY_LOG_BYTES < 2 ^ 32) as H2 by done.
  pose proof (blen_nonneg (frames rs)) as H3. change (blen (frames rs)) with (log_size rs) in H3.
  generalize dependent MAX_RECOVERY_LOG_BYTES. intros m. unfold fits. generalize u64_max. lia.
Qed.

Lemma append_step io locator record caller log rs out log' :
  nothing_decodes -> holds log rs ->
  append_authorized_recovery_record_inner env io locator record caller log = (out, log') ->
  match out with
  | Ok n => n = blen rs + 1 /\ holds log' (rs ++ [record]) /\ is_authorized (authority rs) record = true
  | Err _ => holds log' rs \/ (holds log' (rs ++ [record]) /\ is_authorized (authority rs) record = true)
  end.
Proof.
  intros Hcbor Hl. unfold append_authorized_recovery_record_inner.
  destruct (valid_locator locator); [|intros [= <- <-]; by left]. cbn [negb]. cbv zeta.
  destruct (blen record >? limit) eqn:Esz; [intros [= <- <-]; by left|]. rewrite (scan_holds log rs Hl).
  destruct (_ || _) eqn:Ecap; [intros [= <- <-]; by left|]. apply orb_false_iff in Ecap as (Ec & Eb).
  destruct (is_authorized (authority rs) record) eqn:Ea; [|intros [= <- <-]; by left]. cbn [negb].
  destruct (is_trusted_caller _ _ _); [|intros [= <- <-]; by left]. cbn [negb].
  pose proof (authorized_nonempty _ _ Hcbor Ea) as Hpos.
  destruct (capacity_fits rs record Hpos Esz Eb) as (Hfit & Hcap).
  assert (blen rs < MAX_RECORDS_PER_LOCATOR) as Hlt by lia.
  unfold write_frame. destruct (io_open io) as [e|]; [intros [= <- <-]; by left|].
  assert (take (Z.to_nat (log_size rs)) (default [] log) = frames rs) as ->.
  { destruct Hl as (_ & _ & Hl). destruct log as [content|]; [|by subst rs]. destruct Hl as (_ & b & -> & _). simpl.
    apply take_app_length'. unfold log_size, blen. lia. }
  assert (holds (Some (default [] log)) rs) as Hsame.
  { destruct log as [content|]; [done|]. pose proof (holds_cut _ _ Hl) as H. destruct Hl as (_ & _ & ->). exact H. }
  destruct (if blen (default [] log) =? log_size rs then None else io_truncate io) as [[e []]|].
  - intros [= <- <-]. left. by eapply holds_cut.
  - intros [= <- <-]. by left.
  - destruct (io_write io) as [[e kept]|]; intros [= <- <-].
    + destruct (holds_part log rs record kept) as [H|H]; [done|done|lia|lia|by left|by right].
    + split; [done|]. split; [|done]. eapply holds_full; (done || lia).
Qed.

(** ** Histories *)

Record AppendCall : Type := { ap_io : AppendIo; ap_record : bytes; ap_caller : option bytes }.

(** The acknowledged records with their sequence numbers, and the log. *)
Fixpoint appends (locator : str) (h : list AppendCall) (log : option bytes) : list (bytes * Z) * option bytes :=
  match h with
  | [] => ([], log)
  | call :: h =>
      let '(out, log') := append_authorized_recovery_record_inner env (ap_io call) locator (ap_record call) (ap_caller call) log in
      let '(acks, log'') := appends locator h log' in
      (match out with Ok n => (ap_record call, n) :: acks | Err _ => acks end, log'')
  end.

(** Each record was authorised by the records before it. *)
Definition chain (rs : list bytes) : Prop := forall i r, rs !! i = Some r -> is_authorized (authority (take i rs)) r = true.

Lemma chain_snoc rs r : chain rs -> is_authorized (authority rs) r = true -> chain (rs ++ [r]).
Proof.
  intros Hc Hr i x Hi. apply lookup_app_Some in Hi as [Hi|(Hlen & Hi)].
  - rewrite take_app_le by (apply lookup_lt_Some in Hi; lia). by apply Hc.
  - apply list_lookup_singleton_Some in Hi as (E & <-). by rewrite take_app_length' by lia.
Qed.

Lemma appends_ok locator h : forall log rs acks log',
  nothing_decodes -> holds log rs -> chain rs -> appends locator h log = (acks, log') ->
  exists rs', holds log' (rs ++ rs') /\ chain (rs ++ rs') /\ Forall (fun r => r ∈ ap_record <$> h) rs' /\
    forall record n, (record, n) ∈ acks -> 0 < n /\ (rs ++ rs') !! Z.to_nat (n - 1) = Some record.
Proof.
  induction h as [|call h IH]; intros log rs acks log' Hcb Hl Hc E.
  { simpl in E. injection E as <- <-. exists []. rewrite app_nil_r. do 3 (split; [done|]). by intros ?? ?%elem_of_nil. }
  cbn [appends] in E. destruct (append_authorized_recovery_record_inner _ _ _ _ _ _) as [out log1] eqn:E1.
  destruct (appends locator h log1) as [acks2 log2] eqn:E2. injection E as <- <-.
  pose proof (append_step _ _ _ _ _ _ _ _ Hcb Hl E1) as Hstep.
  assert (forall rs1, holds log1 (rs ++ rs1) -> chain (rs ++ rs1) -> Forall (fun r => r ∈ ap_record <$> call :: h) rs1 ->
    exists rs', holds log2 (rs ++ rs') /\ chain (rs ++ rs') /\ Forall (fun r => r ∈ ap_record <$> call :: h) rs' /\
      (forall i r, (rs ++ rs1) !! i = Some r -> (rs ++ rs') !! i = Some r) /\
      forall record n, (record, n) ∈ acks2 -> 0 < n /\ (rs ++ rs') !! Z.to_nat (n - 1) = Some record) as Hnext.
  { intros rs1 H1 H2 H3. destruct (IH log1 (rs ++ rs1) acks2 log2 Hcb H1 H2 E2) as (rs2 & G1 & G2 & G3 & G4).
    exists (rs1 ++ rs2). rewrite app_assoc. do 2 (split; [done|]). split; [|split; [|exact G4]].
    - apply Forall_app. split; [done|]. eapply Forall_impl; [exact G3|]. intros x Hx. by right.
    - intros i r Hi. by apply lookup_app_l_Some. }
  destruct out as [n|e].
  - destruct Hstep as (-> & H1 & Ha). destruct (Hnext [ap_record call]) as (rs' & G1 & G2 & G3 & G4 & G5);
      [done|by apply chain_snoc|repeat constructor|].
    exists rs'. do 3 (split; [done|]). intros record n [[= -> ->]|H]%elem_of_cons; [|by apply G5].
    split; [unfold blen; lia|]. apply G4.
    replace (Z.to_nat _) with (length rs) by (unfold blen; lia). by rewrite lookup_app_r, Nat.sub_diag.
  - destruct Hstep as [H1|(H1 & Ha)].
    + destruct (Hnext []) as (rs' & G1 & G2 & G3 & _ & G5); [by rewrite app_nil_r|by rewrite app_nil_r|constructor|]. by exists rs'.
    + destruct (Hnext [ap_record call]) as (rs' & G1 & G2 & G3 & _ & G5); [done|by apply chain_snoc|repeat constructor|]. by exists rs'.
Qed.

(** C17: whatever appends were tried on a locator, with whatever errors, torn writes and
    rollbacks that failed: each acknowledged record is read back at its sequence number,
    nothing is read that was not presented, and each record was authorised by the
    genesis record and the certificates before it. *)
Theorem recovery_log_durable locator h acks log :
  nothing_decodes -> valid_locator locator = true -> appends locator h None = (acks, log) ->
  let rs := get_recovery_records env locator log in
  (forall record n, (record, n) ∈ acks -> 0 < n /\ rs !! Z.to_nat (n - 1) = Some record) /\
  (forall record, record ∈ rs -> record ∈ ap_record <$> h) /\ chain rs.
Proof.
  intros Hcb Hv E rs. destruct (appends_ok locator h None [] acks log Hcb) as (rs' & Hl & Hc & Hin & Ha);
    [split; [constructor|done]|by intros ?? ?|done|].
  assert (rs = rs') as ->.
  { unfold rs, get_recovery_records. rewrite Hv, (scan_holds _ _ Hl). done. }
  split; [done|]. split; [|done]. rewrite Forall_forall in Hin. done.
Qed.

(** ** The recovery key of a log does not change *)

(** One byte string that is a genesis record for another recovery key and at the same
    time an authorised record of another kind. *)
Definition two_faced (a : Authority) (r : bytes) : Prop :=
  exists g, from_canonical_cbor (T := Genesis.GenesisRecord) r = Ok g /\ Genesis.verify g = Ok tt /\
    registered_recovery_pk a <> Some (Genesis.recovery_signing_pk g) /\
    certificate_authorized a r || head_authorized a r || envelope_authorized a r || snapshot_authorized a r = true.

Lemma note_device_pk r a : registered_recovery_pk (note_device r a) = registered_recovery_pk a.
Proof. unfold note_device. destruct (_ ≫= _); [|done]. by case_bool_decide. Qed.
Lemma visit_pk a r pk :
  registered_recovery_pk a = Some pk -> is_authorized a r = true ->
  registered_recovery_pk (visit a r) = Some pk \/ two_faced a r.
Proof.
  intros Hpk Ha. unfold visit. rewrite note_device_pk. unfold note_genesis.
  destruct (from_canonical_cbor r) as [g|] eqn:Eg; [|by left].
  destruct (is_ok (Genesis.verify g) && _) eqn:Ev; [|by left]. apply andb_true_iff in Ev as (Ev & _). cbn [registered_recovery_pk].
  destruct (decide (pk = Genesis.recovery_signing_pk g)) as [->|Hne]; [by left|]. right. exists g.
  split; [done|]. split; [by destruct (Genesis.verify g) as [[]|]|]. split; [congruence|].
  unfold is_authorized in Ha. replace (genesis_authorized a r) with false in Ha; [done|].
  unfold genesis_authorized. rewrite Eg, Hpk, (bool_decide_false (pk = _)) by done. by rewrite andb_false_r.
Qed.

(** Once a genesis record has registered the recovery key of a log, every later record
    leaves it, unless the log holds a record of two kinds at once. *)
Theorem recovery_key_fixed rs i j pk :
  chain rs -> (i <= j)%nat -> registered_recovery_pk (authority (take i rs)) = Some pk ->
  registered_recovery_pk (authority (take j rs)) = Some pk \/
  exists k r, rs !! k = Some r /\ two_faced (authority (take k rs)) r.
Proof.
  intros Hc Hij Hi. induction Hij as [|j Hij IH]; [by left|]. destruct IH as [IH|IH]; [|by right].
  destruct (rs !! j) as [r|] eqn:Er.
  - rewrite (take_S_r _ _ _ Er). unfold authority. rewrite foldl_app. cbn [foldl]. fold (authority (take j rs)).
    destruct (visit_pk _ r pk IH (Hc _ _ Er)) as [?|?]; [by left|]. right. by exists j, r.
  - apply lookup_ge_None in Er. rewrite take_ge in IH by done. left. by rewrite take_ge by lia.
Qed.

(** ** Pages *)

Lemma page_step rs b fuel offset end_ seen out r :
  fits r -> end_ = offset + log_size (r :: rs) + blen b ->
  page_loop env (S fuel) (frames (r :: rs) ++ b) offset end_ seen out =
  if (seen + blen r >? RECOVERY_PAGE_BYTES) && negb (bool_decide (out = [])) then Ok (out, offset)
  else page_loop env fuel (frames rs ++ b) (offset + 4 + blen r) end_ (seen + blen r) (out ++ [r]).
Proof.
  intros Hr ->. pose proof Hr as (Hpos & _). pose proof (frame_length r) as Hf. cbn [page_loop]. unfold log_size.
  rewrite frames_cons, <- app_assoc. pose proof (blen_nonneg (frames rs)). pose proof (blen_nonneg b).
  assert (blen (frame r ++ frames rs) = 4 + blen r + blen (frames rs)) as El by (unfold blen in *; rewrite length_app; lia).
  rewrite El. replace (offset <? _) with true by lia. cbn [negb].
  replace (blen (frame r ++ frames rs ++ b) <? 4) with false
    by (symmetry; apply Z.ltb_ge; unfold blen in *; rewrite length_app; lia).
  rewrite frame_prefix, frame_body by done.
  replace (blen r =? 0) with false by lia. replace (blen r >? limit) with false by lia.
  replace (offset + 4 + blen r >? _) with false by lia. cbn [orb].
  assert (Z.to_nat (blen r) = length r) as -> by (unfold blen; lia). by rewrite take_app_length, drop_app_length.
Qed.

Lemma page_loop_ok rs : forall fuel offset seen out,
  Forall fits rs -> (length rs < fuel)%nat ->
  exists rs1 rs2, rs = rs1 ++ rs2 /\ (out = [] -> rs <> [] -> rs1 <> []) /\
    page_loop env fuel (frames rs) offset (offset + log_size rs) seen out = Ok (out ++ rs1, offset + log_size rs1).
Proof.
  induction rs as [|r rs IH]; intros fuel offset seen out Hrs Hf; (destruct fuel as [|fuel]; [simpl in Hf; lia|]).
  - exists [], []. split; [done|]. split; [done|]. cbn [page_loop]. unfold log_size. change (blen (frames [])) with 0.
    replace (offset <? offset + 0) with false by lia. cbn [negb]. by rewrite app_nil_r, Z.add_0_r.
  - apply Forall_cons in Hrs as (Hr & Hrs). pose proof (page_step rs [] fuel offset (offset + log_size (r :: rs)) seen out r Hr) as Hp.
    rewrite !app_nil_r in Hp. rewrite Hp by (unfold blen; simpl; lia). clear Hp.
    destruct ((seen + blen r >? RECOVERY_PAGE_BYTES) && negb (bool_decide (out = []))) eqn:Eb.
    + exists [], (r :: rs). split; [done|]. split; [|by rewrite app_nil_r; unfold log_size; change (blen (frames [])) with 0; rewrite Z.add_0_r].
      intros ->. by rewrite andb_false_r in Eb.
    + destruct (IH fuel (offset + 4 + blen r) (seen + blen r) (out ++ [r])) as (rs1 & rs2 & -> & _ & Hp); [done|simpl in Hf; lia|].
      exists (r :: rs1), rs2. split; [done|]. split; [done|].
      assert (forall x, log_size (r :: x) = 4 + blen r + log_size x) as El.
      { intros x. unfold log_size. rewrite frames_cons. pose proof (frame_length r). unfold blen in *. rewrite length_app. lia. }
      rewrite El. replace (offset + (4 + blen r + log_size (rs1 ++ rs2))) with (offset + 4 + blen r + log_size (rs1 ++ rs2)) by lia.
      rewrite Hp, <- app_assoc, El. do 2 f_equal. lia.
Qed.

(** A reader that follows the cursors, at most [fuel] pages far. *)
Fixpoint walk (fuel : nat) (locator : str) (cursor : Z) (log : option bytes) : result str (list bytes) :=
  match fuel with
  | O => Err (lit "too many pages")
  | S fuel =>
      let? page := get_recovery_page env locator cursor log in
      match next_cursor page with
      | None => Ok (records page)
      | Some cursor => let? rest := walk fuel locator cursor log in Ok (records page ++ rest)
      end
  end.

Lemma frames_length rs : (length rs <= length (frames rs))%nat.
Proof.
  induction rs as [|r rs IH]; [done|]. rewrite frames_cons, length_app. pose proof (frame_length r) as H.
  pose proof (blen_nonneg r). unfold blen in *. simpl. lia.
Qed.
Lemma log_size_app rs rs' : log_size (rs ++ rs') = log_size rs + log_size rs'.
Proof. unfold log_size, blen. rewrite frames_app, length_app. lia. Qed.

Lemma page_ok locator pre rs :
  hex_len_is 32 locator = true -> holds (Some (frames (pre ++ rs))) (pre ++ rs) ->
  exists rs1 rs2, rs = rs1 ++ rs2 /\ (rs <> [] -> rs1 <> []) /\
    get_recovery_page env locator (log_size pre) (Some (frames (pre ++ rs))) =
    Ok {| records := rs1;
          next_cursor := if log_size (pre ++ rs1) <? log_size (pre ++ rs) then Some (log_size (pre ++ rs1)) else None |}.
Proof.
  intros Hv (Hf & _ & Hs & _). unfold get_recovery_page. rewrite Hv. cbn [negb]. fold (log_size (pre ++ rs)) in *.
  assert (0 <= log_size pre /\ log_size pre <= log_size (pre ++ rs)) as (H0 & H1).
  { rewrite log_size_app. pose proof (blen_nonneg (frames rs)). pose proof (blen_nonneg (frames pre)). unfold log_size. lia. }
  replace (log_size (pre ++ rs) >? MAX_RECOVERY_LOG_BYTES) with false by lia.
  replace (log_size pre >? log_size (pre ++ rs)) with false by lia. cbn [orb].
  assert (drop (Z.to_nat (log_size pre)) (frames (pre ++ rs)) = frames rs) as ->.
  { rewrite frames_app. apply drop_app_length'. unfold log_size, blen. lia. }
  apply Forall_app in Hf as (_ & Hf).
  destruct (page_loop_ok rs (S (length (frames rs))) (log_size pre) 0 []) as (rs1 & rs2 & -> & Hne & Hp);
    [done|pose proof (frames_length rs); lia|].
  exists rs1, rs2. split; [done|]. split; [by apply Hne|].
  rewrite (log_size_app pre (rs1 ++ rs2)), Hp. cbn [res_bind fst snd app]. by rewrite (log_size_app pre rs1).
Qed.

Lemma walk_ok locator fuel : forall pre rs,
  hex_len_is 32 locator = true -> holds (Some (frames (pre ++ rs))) (pre ++ rs) -> (length rs < fuel)%nat ->
  walk fuel locator (log_size pre) (Some (frames (pre ++ rs))) = Ok rs.
Proof.
  induction fuel as [|fuel IH]; intros pre rs Hv Hl Hf; [lia|]. cbn [walk].
  destruct (page_ok locator pre rs Hv Hl) as (rs1 & rs2 & -> & Hne & ->). cbn [res_bind records next_cursor].
  destruct (Z.ltb_spec (log_size (pre ++ rs1)) (log_size (pre ++ rs1 ++ rs2))) as [Hlt|Hge].
  - rewrite app_assoc in *. rewrite IH; [done|done|done|].
    destruct rs1 as [|r rs1]; [|simpl in Hf; rewrite length_app in *; lia].
    exfalso. apply Hne; [|done]. intros Hnil. simpl in Hnil. subst rs2. rewrite !app_nil_r in Hlt. lia.
  - rewrite app_assoc, log_size_app in Hge. destruct rs2 as [|r rs2]; [by rewrite app_nil_r|].
    exfalso. unfold log_size in Hge. rewrite frames_cons in Hge. pose proof (frame_length r) as Hfr.
    pose proof (blen_nonneg r). unfold blen in *. rewrite length_app in Hge. lia.
Qed.

(** Following the cursors from the start yields the whole log, for a log that does not end
    in an interrupted write. *)
Theorem page_walk_complete locator rs :
  hex_len_is 32 locator = true -> valid_locator locator = true -> holds (Some (frames rs)) rs ->
  walk (S (length rs)) locator 0 (Some (frames rs)) = Ok (get_recovery_records env locator (Some (frames rs))).
Proof.
  intros Hv Hv' Hl. unfold get_recovery_records. rewrite Hv', (scan_holds _ _ Hl). cbn [negb].
  apply (walk_ok locator (S (length rs)) []); [done|done|lia].
Qed.

(** On a log that ends in an interrupted write, the full read returns every acknowledged
    record, but the page with the tail is refused. *)
Lemma page_refuses_torn_tail locator rs b :
  hex_len_is 32 locator = true -> valid_locator locator = true -> holds (Some (frames rs ++ b)) rs -> torn b -> b <> [] ->
  log_size rs <= RECOVERY_PAGE_BYTES ->
  get_recovery_records env locator (Some (frames rs ++ b)) = rs /\
  exists e, get_recovery_page env locator 0 (Some (frames rs ++ b)) = Err e.
Proof.
  intros Hv Hv' Hl Hb Hne Hsz. split; [unfold get_recovery_records; by rewrite Hv', (scan_holds _ _ Hl)|].
  unfold get_recovery_page. rewrite Hv. cbn [negb]. destruct Hl as (Hf & _ & Hs & _). pose proof (blen_nonneg (frames rs ++ b)).
  replace (_ >? MAX_RECOVERY_LOG_BYTES) with false by lia. replace (0 >? _) with false by lia. cbn [orb]. rewrite drop_0.
  assert (forall fuel offset seen out, (length rs < fuel)%nat -> seen + log_size rs <= RECOVERY_PAGE_BYTES ->
    exists e, page_loop env fuel (frames rs ++ b) offset (offset + log_size rs + blen b) seen out = Err e) as Hloop.
  { clear Hs Hsz Hv' H. induction Hf as [|r rs Hr Hf IH]; intros fuel offset seen out Hfuel Hseen; (destruct fuel as [|fuel]; [simpl in Hfuel; lia|]).
    - destruct Hb as (r & n & Hr & Hn & ->). cbn [page_loop frames concat fmap list_fmap app]. change (log_size []) with 0.
      assert (0 < blen (take n (frame r))) as Hpos by (unfold blen; destruct (take n (frame r)); [done|simpl; lia]).
      replace (offset <? _) with true by lia. cbn [negb].
      destruct (Z.ltb_spec (blen (take n (frame r))) 4) as [|H4]; [by eexists|].
      assert (u32_from_be_bytes (take 4 (take n (frame r))) = blen r) as ->.
      { unfold blen in H4. rewrite length_take in H4. rewrite take_take, Nat.min_l by lia.
        rewrite <- (frame_prefix r [] Hr). by rewrite app_nil_r. }
      replace (offset + 4 + blen r >? _) with true; [rewrite orb_true_r; by eexists|].
      pose proof (frame_length r) as Hfl. symmetry. unfold blen in *. rewrite length_take.
      rewrite Z.gtb_ltb. apply Z.ltb_lt. lia.
    - pose proof (page_step rs b fuel offset (offset + log_size (r :: rs) + blen b) seen out r Hr eq_refl) as ->.
      assert (log_size (r :: rs) = 4 + blen r + log_size rs) as El.
      { unfold log_size. rewrite frames_cons. pose proof (frame_length r). unfold blen in *. rewrite length_app. lia. }
      rewrite El in Hseen. assert (0 <= log_size rs) as H0 by apply blen_nonneg.
      replace (seen + blen r >? RECOVERY_PAGE_BYTES) with false by lia. cbn [andb].
      rewrite El. replace (offset + (4 + blen r + log_size rs) + blen b) with (offset + 4 + blen r + log_size rs + blen b) by lia.
      apply IH; [simpl in Hfuel; lia|lia]. }
  destruct (Hloop (S (length (frames rs ++ b))) 0 0 []) as (e & He); [rewrite length_app; pose proof (frames_length rs); lia|lia|].
  exists e. replace (blen (frames rs ++ b)) with (0 + log_size rs + blen b) by (unfold log_size, blen; rewrite length_app; lia).
  rewrite He. done.
Qed.
End Theory.

(** ** Examples *)

Definition no_env : Env := fun _ => None.
Definition recovery_sk : bytes := replicate 32 6.
Definition sample_genesis : bytes :=
  match Genesis.sign recovery_sk
          (Genesis.Build_GenesisRecord 1 (replicate 32 1) (verifying_key recovery_sk) (replicate 32 2) (replicate 32 3) 1000
             (replicate 32 4) []) with
  | Ok g => match to_canonical_cbor g with Ok b => b | Err _ => [] end
  | Err _ => []
  end.
Definition sample_certificate : bytes :=
  match DeviceCert.sign recovery_sk
          (DeviceCert.Build_DeviceCertificate 1 (replicate 32 1) (replicate 32 5) (verifying_key (replicate 32 9)) 3 1 1000 []) with
  | Ok g => match to_canonical_cbor g with Ok b => b | Err _ => [] end
  | Err _ => []
  end.
Definition locator : str := hex_encode (replicate 32 8).
Definition io_ok : AppendIo := {| io_open := None; io_truncate := None; io_write := None |}.
(** The first write of the certificate is torn, the second goes through. *)
Definition sample_calls : list AppendCall :=
  [{| ap_io := io_ok; ap_record := sample_genesis; ap_caller := None |};
   {| ap_io := {| io_open := None; io_truncate := None; io_write := Some (lit "disk full", 17%nat) |};
      ap_record := sample_certificate; ap_caller := None |};
   {| ap_io := io_ok; ap_record := sample_certificate; ap_caller := Some (verifying_key recovery_sk) |}].
Abbreviation sample_run := (appends no_env locator sample_calls None).

Lemma sample_nothing_decodes : nothing_decodes.
Proof. repeat split. Qed.

Lemma recovery_log_durable_witness :
  let rs := get_recovery_records no_env locator sample_run.2 in
  sample_run.1 = [(sample_genesis, 1); (sample_certificate, 2)] /\
  (forall record n, (record, n) ∈ sample_run.1 -> 0 < n /\ rs !! Z.to_nat (n - 1) = Some record) /\
  (forall record, record ∈ rs -> record ∈ ap_record <$> sample_calls) /\ chain rs.
Proof.
  split; [vm_compute; reflexivity|].
  apply (recovery_log_durable no_env locator sample_calls sample_run.1 sample_run.2).
  - exact sample_nothing_decodes.
  - vm_compute. reflexivity.
  - apply surjective_pairing.
Defined.

Lemma sample_chain : chain [sample_genesis; sample_certificate].
Proof. intros [|[|i]] r Hr; [injection Hr as <-; vm_compute; reflexivity..|discriminate]. Qed.

Lemma recovery_key_fixed_witness :
  registered_recovery_pk (authority (take 2 [sample_genesis; sample_certificate])) = Some (verifying_key recovery_sk) \/
  exists k r, [sample_genesis; sample_certificate] !! k = Some r /\
    two_faced (authority (take k [sample_genesis; sample_certificate])) r.
Proof.
  apply (recovery_key_fixed [sample_genesis; sample_certificate] 1 2).
  - exact sample_chain.
  - lia.
  - vm_compute. reflexivity.
Defined.

Lemma sample_holds : holds no_env (Some (frames [sample_genesis; sample_certificate])) [sample_genesis; sample_certificate].
Proof.
  split; [|split; [vm_compute; discriminate|]].
  - repeat constructor; vm_compute; congruence.
  - split; [vm_compute; discriminate|]. exists []. split; [by rewrite app_nil_r|apply torn_nil].
Qed.
Lemma page_walk_complete_witness :
  walk no_env 3 locator 0 (Some (frames [sample_genesis; sample_certificate])) =
  Ok (get_recovery_records no_env locator (Some (frames [sample_genesis; sample_certificate]))).
Proof.
  apply (page_walk_complete no_env locator [sample_genesis; sample_certificate]).
  - vm_compute. reflexivity.
  - vm_compute. reflexivity.
  - exact sample_holds.
Defined.
