(* ===== verification/ObjectStore.v ===== *)
(** * Objects, leases and the write gate of the operator

    The storage half of src/services/operator/src/state.rs, with the receipts of
    src/crates/storage/src/types.rs and the proof of src/crates/storage/src/lib.rs: the
    voucher gate in front of every write, content-addressed objects, proofs of storage,
    leases with their owners, and appends to recovery logs that are paid for.

    Files of a directory are a map from names to contents.  The clock, the environment,
    random bytes and the outcome of every read and write belong to the call; counters of
    the metrics endpoint and the token bucket of repair pushes are left out. *)

From S2P Require Import Prelude Errors Sorting Tables Primitives Crypto Schema Vouchers OperatorCore RecoveryLog.

#[local] Open Scope tx_scope.

(** ** Receipts *)

Module Pos.
Record ProofOfStorageReceipt : Type := {
  operator_id : str; cid_hex : str; nonce_hex : str; proof_hex : str; signature_hex : str; size_bytes : Z;
}.
Definition pos_domain : bytes := lit "operator_pos".
Definition signing_bytes (self : ProofOfStorageReceipt) : bytes :=
  as_bytes (operator_id self) ++ lit ":" ++ as_bytes (cid_hex self) ++ lit ":" ++ as_bytes (nonce_hex self) ++ lit ":"
  ++ as_bytes (proof_hex self) ++ lit ":" ++ to_le_bytes 8 (size_bytes self).
Definition bad (msg : str) : StorageError := ServerError 400 msg.

Section Pos.
Context {HX : Hex} {ED : Ed25519} {SH : Sha256}.
Definition verify (self : ProofOfStorageReceipt) (operator_pk expected_proof : bytes) : result StorageError unit :=
  let expected_proof_hex := hex_encode expected_proof in
  bail? negb (bool_decide (lower (proof_hex self) = lower expected_proof_hex))
    with bad (lit "Proof-of-Storage proof mismatch: expected " ++ expected_proof_hex ++ lit ", received " ++ proof_hex self) ;;
  let? sig := map_err (fun e => bad (lit "Invalid hex in PoS signature: " ++ lit e)) (hex_decode (signature_hex self)) in
  bail? negb (blen sig =? 64) with bad (lit "Invalid PoS signature length (expected 64 bytes)") ;;
  map_err (fun e => bad (lit "Cryptographic Proof-of-Storage signature invalid: " ++ display_crypto_error e))
    (verify_with_domain operator_pk pos_domain (signing_bytes self) sig).

Definition compute_pos_proof (cid nonce data : bytes) : bytes := sha256 (lit "CIPHERVAULT-POS-V1" ++ cid ++ nonce ++ data).
End Pos.
End Pos.

Module Lease.
Record LeaseReceipt : Type := {
  lease_id : str; operator_id : str; closure_digest_hex : str; term_days : Z; bytes_ : Z;
  issued_at_utc : Z; expires_at_utc : Z; signature_hex : str;
}.
Definition lease_domain : bytes := lit "operator_lease".
Definition signed_fields : Type := str * str * str * Z * Z * Z * Z.
Definition fields (self : LeaseReceipt) : signed_fields :=
  (lease_id self, operator_id self, closure_digest_hex self, term_days self, bytes_ self, issued_at_utc self, expires_at_utc self).
Definition with_signature (self : LeaseReceipt) (sig : str) : LeaseReceipt :=
  {| lease_id := lease_id self; operator_id := operator_id self; closure_digest_hex := closure_digest_hex self;
     term_days := term_days self; bytes_ := bytes_ self; issued_at_utc := issued_at_utc self;
     expires_at_utc := expires_at_utc self; signature_hex := sig |}.
Definition bad (msg : str) : StorageError := ServerError 400 msg.

Section Lease.
Context {HX : Hex} {ED : Ed25519}.
(** [serde_json::to_vec] of the tuple of signed fields. *)
Variable fields_json : signed_fields -> bytes.

Definition signing_bytes (self : LeaseReceipt) : bytes := fields_json (fields self).
Definition verify (self : LeaseReceipt) (operator_pk : bytes) : result StorageError unit :=
  let? sig := map_err (fun e => bad (lit "Invalid hex in lease signature: " ++ lit e)) (hex_decode (signature_hex self)) in
  bail? negb (blen sig =? 64) with bad (lit "Invalid lease signature length (expected 64 bytes)") ;;
  map_err (fun e => bad (lit "Cryptographic lease signature invalid: " ++ display_crypto_error e))
    (verify_with_domain operator_pk lease_domain (signing_bytes self) sig).
End Lease.
End Lease.
Import Lease (LeaseReceipt).

(** ** State *)

Record Store : Type := MkStore {
  objects : gmap str bytes;
  leases : gmap str bytes;      (* <id>.json *)
  owners : gmap str bytes;      (* <id>.owner *)
  logs : gmap str bytes;        (* recovery/<locator>.log *)
  voucher_ledger : VoucherLedger;
  ledger_file : option bytes;
  ledger_failed : bool;
  vouchers_required : bool;
}.
Definition with_objects (t : gmap str bytes) (s : Store) : Store :=
  let 'MkStore _ l w g v f b r := s in MkStore t l w g v f b r.
Definition with_leases (t : gmap str bytes) (s : Store) : Store :=
  let 'MkStore o _ w g v f b r := s in MkStore o t w g v f b r.
Definition with_owners (t : gmap str bytes) (s : Store) : Store :=
  let 'MkStore o l _ g v f b r := s in MkStore o l t g v f b r.
Definition with_logs (t : gmap str bytes) (s : Store) : Store :=
  let 'MkStore o l w _ v f b r := s in MkStore o l w t v f b r.
Definition with_ledger (t : VoucherLedger) (s : Store) : Store :=
  let 'MkStore o l w g _ f b r := s in MkStore o l w g t f b r.

Record StoreCall : Type := {
  sc_now : string -> Z;
  sc_env : Env;
  sc_persist : string -> PersistOutcome;
  sc_read : string -> bool;             (* a file that is there can be read *)
  sc_random : bytes;                    (* drawn at random *)
  sc_append : AppendIo;
  sc_owner : option (str * nat);        (* writing a new owner file fails; bytes of it that stay *)
}.

Definition map_terr {S E F A} (f : E -> F) (m : Tx S E A) : Tx S F A := fun s => let '(r, s') := m s in (map_err f r, s').

Section Store.
Context {HX : Hex} {ED : Ed25519} {SH : Sha256} {LJ : LedgerJson} {JL : JsonDoc LeaseReceipt}.
Context {CG : Cbor Genesis.GenesisRecord} {CD : Cbor DeviceCert.DeviceCertificate} {CH : Cbor Head.HeadRecord}.
Context {CE : Cbor Envelope.EpochEnvelope} {CS : Cbor Snapshot.SnapshotRecord}.
Variable fields_json : Lease.signed_fields -> bytes.
Variables (operator_id : str) (signing_key : bytes).
Variable c : StoreCall.

(** ** The write gate *)

Definition issuer_pk_hex : str := hex_encode (verifying_key signing_key).
Definition issue_voucher (holder_pk_hex : str) (quota_bytes ttl_secs : Z) : result StorageError WriteVoucher :=
  Vouchers.issue (sc_random c) (sc_now c "voucher") signing_key holder_pk_hex quota_bytes ttl_secs.

Definition persist_voucher_ledger (at_ : string) (encoded : bytes) : Tx Store str unit := fun s =>
  let 'MkStore o l w g v f b r := s in
  let '(out, f') := persist_atomic (sc_persist c at_) encoded f in (out, MkStore o l w g v f' b r).

Definition encode_ledger (ledger : VoucherLedger) : result StorageError bytes :=
  map_err (fun e => ServerError 500 (lit "Unable to encode voucher ledger: " ++ lit e)) (Vouchers.encode ledger).
Definition unable_to_persist (e : str) : StorageError := ServerError 500 (lit "Unable to persist voucher ledger: " ++ e).

Definition authorize_write (voucher : option WriteVoucher) (bytes : Z) : Tx Store StorageError (option (str * Z)) :=
  do failed <- tget ledger_failed ;;
  if failed then tret (Err (ServerError 503 (lit "Voucher accounting unavailable; repair the persisted ledger"))) else
  match voucher with
  | Some voucher =>
      do consumed <- tget (fun s => try_consume voucher issuer_pk_hex (sc_now c "charge") bytes (voucher_ledger s)) ;;
      tmodify (with_ledger consumed.2) ;;;
      tret consumed.1 ;;;
      do encoded <- tret (encode_ledger consumed.2) ;;
      tcatch (map_terr unable_to_persist (persist_voucher_ledger "charge" encoded)) (fun error =>
        tmodify (with_ledger (release (nonce_hex voucher) bytes consumed.2)) ;;; tret (Err error)) ;;;
      tret (Ok (Some (nonce_hex voucher, bytes)))
  | None =>
      do required <- tget vouchers_required ;;
      if required then tret (Err (ServerError 403 (lit "write voucher required"))) else tret (Ok None)
  end.

Definition release_write (charge : option (str * Z)) : Tx Store StorageError unit :=
  match charge with
  | None => tret (Ok tt)
  | Some (nonce, bytes) =>
      do ledger <- tget (fun s => release nonce bytes (voucher_ledger s)) ;;
      tmodify (with_ledger ledger) ;;;
      do encoded <- tret (encode_ledger ledger) ;;
      map_terr unable_to_persist (persist_voucher_ledger "release" encoded)
  end.

Definition require_voucher_legacy : Tx Store str unit :=
  do required <- tget vouchers_required ;;
  if required then tret (Err (lit "write voucher required")) else tret (Ok tt).

(** ** Objects *)

Definition read_object (at_ : string) (cid_hex : str) (s : Store) : option bytes :=
  if sc_read c at_ then objects s !! cid_hex else None.

Definition persist_object (at_ : string) (cid_hex : str) (b : bytes) : Tx Store str unit := fun s =>
  let '(out, f) := persist_atomic (sc_persist c at_) b (objects s !! cid_hex) in
  (out, with_objects (match f with Some b => <[cid_hex := b]> (objects s) | None => objects s end) s).

Definition put_object_inner (cid_hex : str) (b : bytes) : Tx Store str bool :=
  let limit := max_object_size (sc_env c) in
  if blen b >? limit then tret (Err (lit "Object exceeds maximum size limit of " ++ show_Z limit ++ lit " bytes")) else
  if negb (str_len cid_hex =? 64) then tret (Err (lit "Invalid CID length (must be 64 hex characters)")) else
  do expected_digest <- tret (map_err lit (hex_decode cid_hex)) ;;
  if negb (blen expected_digest =? 32) then tret (Err (lit "Invalid CID digest length")) else
  if negb (bool_decide (compute_digest b = expected_digest)) then tret (Err (lit "Digest mismatch")) else
  do stored <- tget (read_object "put" cid_hex) ;;
  if bool_decide (stored = Some b) then tret (Ok false) else persist_object "object" cid_hex b ;;; tret (Ok true).

Definition put_object (cid_hex : str) (b : bytes) : Tx Store str unit :=
  require_voucher_legacy ;;; put_object_inner cid_hex b ;;; tret (Ok tt).
Definition put_repair_object (cid_hex : str) (b : bytes) : Tx Store str bool := put_object_inner cid_hex b.

Definition object_matches (cid_hex : str) (b : bytes) (s : Store) : bool :=
  (str_len cid_hex =? 64) && bool_decide (read_object "match" cid_hex s = Some b).

Definition put_object_with_voucher (cid_hex : str) (b : bytes) (voucher : option WriteVoucher) : Tx Store StorageError unit :=
  do already_present <- tget (object_matches cid_hex b) ;;
  let billable := if already_present : bool then 0 else blen b in
  do charge <- authorize_write voucher billable ;;
  do net_new <- tcatch (map_terr (ServerError 400) (put_object_inner cid_hex b)) (fun e =>
    tcatch (release_write charge) (fun _ => tret (Ok tt)) ;;; tret (Err e)) ;;
  if net_new : bool then tret (Ok tt) else release_write charge.

Definition has_object (s : Store) (cid_hex : str) : bool := (str_len cid_hex =? 64) && bool_decide (is_Some (objects s !! cid_hex)).
Definition get_object (s : Store) (cid_hex : str) : option bytes :=
  if negb (str_len cid_hex =? 64) || negb (is_ok (hex_decode cid_hex)) then None else read_object "get" cid_hex s.

(** [entries] is the listing of the directory. *)
Fixpoint collect_cids (limit : nat) (entries : list str) : list bytes :=
  match limit, entries with
  | S limit', name :: rest =>
      match (if str_len name =? 64 then hex_decode name else Err ""%string) with
      | Ok raw => if blen raw =? 32 then raw :: collect_cids limit' rest else collect_cids limit rest
      | Err _ => collect_cids limit rest
      end
  | _, _ => []
  end.
Definition list_object_cids (entries : list str) (offset limit : nat) : list bytes := collect_cids limit (drop offset entries).

Definition generate_pos_proof (s : Store) (cid_hex : str) (nonce : bytes) : result str Pos.ProofOfStorageReceipt :=
  bail? negb (str_len cid_hex =? 64) with lit "Invalid CID length (must be 64 hex characters)" ;;
  let? cid := map_err lit (hex_decode cid_hex) in
  bail? negb (blen cid =? 32) with lit "Invalid CID digest length" ;;
  match read_object "pos" cid_hex s with
  | None => Err (lit "Object not found")
  | Some b =>
      let receipt := {| Pos.operator_id := operator_id; Pos.cid_hex := lower cid_hex; Pos.nonce_hex := hex_encode nonce;
                        Pos.proof_hex := hex_encode (Pos.compute_pos_proof cid nonce b); Pos.signature_hex := [];
                        Pos.size_bytes := blen b |} in
      let sig := sign_with_domain signing_key Pos.pos_domain (Pos.signing_bytes receipt) in
      Ok {| Pos.operator_id := Pos.operator_id receipt; Pos.cid_hex := Pos.cid_hex receipt;
            Pos.nonce_hex := Pos.nonce_hex receipt; Pos.proof_hex := Pos.proof_hex receipt;
            Pos.signature_hex := hex_encode sig; Pos.size_bytes := Pos.size_bytes receipt |}
  end.

(** ** Leases *)

Definition persist_lease (receipt : LeaseReceipt) : Tx Store str LeaseReceipt :=
  let receipt := Lease.with_signature receipt
    (hex_encode (sign_with_domain signing_key Lease.lease_domain (Lease.signing_bytes fields_json receipt))) in
  do serialized <- tret (doc_write receipt) ;;
  (fun s => let '(out, f) := persist_atomic (sc_persist c "lease") serialized (leases s !! Lease.lease_id receipt) in
            (out, with_leases (match f with Some b => <[Lease.lease_id receipt := b]> (leases s) | None => leases s end) s)) ;;;
  tret (Ok receipt).

Definition create_lease_inner (closure_digest_hex : str) (bytes term_days : Z) : Tx Store str LeaseReceipt :=
  if negb (str_len closure_digest_hex =? 64) || negb (is_ok (hex_decode closure_digest_hex)) || (term_days =? 0)
  then tret (Err (lit "Invalid closure digest or retention term")) else
  let now := sc_now c "lease" in
  persist_lease {| Lease.lease_id := hex_encode (sc_random c); Lease.operator_id := operator_id;
                   Lease.closure_digest_hex := closure_digest_hex; Lease.term_days := term_days; Lease.bytes_ := bytes;
                   Lease.issued_at_utc := now; Lease.expires_at_utc := now + term_days * 86400; Lease.signature_hex := [] |}.
Definition create_lease (closure_digest_hex : str) (bytes term_days : Z) : Tx Store str LeaseReceipt :=
  require_voucher_legacy ;;; create_lease_inner closure_digest_hex bytes term_days.
Definition create_lease_with_voucher (closure_digest_hex : str) (bytes term_days : Z) (voucher : option WriteVoucher)
  : Tx Store StorageError LeaseReceipt :=
  authorize_write voucher 0 ;;; map_terr (ServerError 500) (create_lease_inner closure_digest_hex bytes term_days).

Definition valid_lease_id (lease_id : str) : bool := (str_len lease_id =? 32) && is_ok (hex_decode lease_id).
Definition owns (owner : option bytes) (caller_vault : option str) : bool :=
  match caller_vault, owner with
  | Some vault, Some owner => eq_ignore_ascii_case (trim owner) vault
  | None, None => true
  | _, _ => false
  end.

Definition renew_lease_inner (lease_id : str) (additional_days bytes : Z) (caller_vault : option str) : Tx Store str LeaseReceipt :=
  if negb (valid_lease_id lease_id) || (additional_days =? 0) then tret (Err (lit "Invalid lease ID or retention term")) else
  do s <- tget id ;;
  if negb (owns (owners s !! lease_id) caller_vault) then tret (Err (lit "Lease ownership does not match caller vault")) else
  match leases s !! lease_id ≫= doc_read with
  | None => tret (Err (lit "lease file cannot be read"))
  | Some receipt =>
      tret (map_err display_storage_error (Lease.verify fields_json receipt (verifying_key signing_key))) ;;;
      if negb (Lease.bytes_ receipt =? bytes) then tret (Err (lit "Lease byte count mismatch")) else
      if Lease.term_days receipt + additional_days >? u32_max then tret (Err (lit "Retention overflow")) else
      let expires := Z.max (Lease.expires_at_utc receipt) (sc_now c "renew") + additional_days * 86400 in
      if expires >? u64_max then tret (Err (lit "Expiry overflow")) else
      persist_lease {| Lease.lease_id := Lease.lease_id receipt; Lease.operator_id := Lease.operator_id receipt;
                       Lease.closure_digest_hex := Lease.closure_digest_hex receipt;
                       Lease.term_days := Lease.term_days receipt + additional_days; Lease.bytes_ := Lease.bytes_ receipt;
                       Lease.issued_at_utc := Lease.issued_at_utc receipt; Lease.expires_at_utc := expires;
                       Lease.signature_hex := Lease.signature_hex receipt |}
  end.
Definition renew_lease (lease_id : str) (additional_days bytes : Z) : Tx Store str LeaseReceipt :=
  require_voucher_legacy ;;; renew_lease_inner lease_id additional_days bytes None.
Definition renew_lease_with_voucher (lease_id : str) (additional_days bytes : Z) (voucher : option WriteVoucher)
  : Tx Store StorageError LeaseReceipt :=
  authorize_write voucher 0 ;;; map_terr (ServerError 400) (renew_lease_inner lease_id additional_days bytes None).
Definition renew_owned_lease_with_voucher (lease_id : str) (additional_days bytes : Z) (vault_id_hex : str)
  (voucher : option WriteVoucher) : Tx Store StorageError LeaseReceipt :=
  authorize_write voucher 0 ;;;
  map_terr (ServerError 403) (renew_lease_inner lease_id additional_days bytes (Some vault_id_hex)).

Definition record_lease_owner (lease_id vault_id_hex : str) : Tx Store str unit :=
  if negb (valid_lease_id lease_id) then tret (Err (lit "Invalid lease ID")) else
  if negb (str_len vault_id_hex =? 64) || negb (is_ok (hex_decode vault_id_hex)) then tret (Err (lit "Invalid vault ID")) else
  do s <- tget id ;;
  match owners s !! lease_id with
  | None =>
      let text := as_bytes (lower vault_id_hex) in
      match sc_owner c with
      | None => tmodify (with_owners (<[lease_id := text]> (owners s)))
      | Some (e, kept) => tmodify (with_owners (<[lease_id := take kept text]> (owners s))) ;;; tret (Err e)
      end
  | Some owner =>
      if eq_ignore_ascii_case (trim owner) vault_id_hex then tret (Ok tt)
      else tret (Err (lit "Lease already belongs to another vault"))
  end.

(** [names] lists the directory; entries that cannot be read or checked are skipped. *)
Definition owned_lease (s : Store) (vault_id_hex : str) (lease_id : str) : option LeaseReceipt :=
  if negb (valid_lease_id lease_id) then None else
  owner ← owners s !! lease_id;
  if negb (bool_decide (trim owner = vault_id_hex)) then None else
  receipt ← leases s !! lease_id ≫= doc_read;
  if is_ok (Lease.verify fields_json receipt (verifying_key signing_key)) then Some receipt else None.
Definition expiry_le (a b : LeaseReceipt) : bool := Lease.expires_at_utc a <=? Lease.expires_at_utc b.
Definition list_leases_for_vault (names : list str) (s : Store) (vault_id_hex : str) : list LeaseReceipt :=
  sort expiry_le (omap (owned_lease s vault_id_hex) names).

(** ** Recovery records *)

Definition append_inner (locator_hex : str) (record : bytes) (caller_pk : option bytes) : Tx Store str Z := fun s =>
  let '(out, log) := append_authorized_recovery_record_inner (sc_env c) (sc_append c) locator_hex record caller_pk
                       (logs s !! locator_hex) in
  (out, with_logs (match log with Some b => <[locator_hex := b]> (logs s) | None => logs s end) s).
Definition append_authorized_recovery_record (locator_hex : str) (record : bytes) (caller_pk : option bytes) : Tx Store str Z :=
  require_voucher_legacy ;;; append_inner locator_hex record caller_pk.
Definition append_recovery_record (locator_hex : str) (record : bytes) : Tx Store str Z :=
  append_authorized_recovery_record locator_hex record None.
Definition append_recovery_record_with_voucher (locator_hex : str) (record : bytes) (caller_pk : option bytes)
  (voucher : option WriteVoucher) : Tx Store StorageError Z :=
  do charge <- authorize_write voucher (blen record) ;;
  tcatch (map_terr (ServerError 400) (append_inner locator_hex record caller_pk)) (fun e =>
    tcatch (release_write charge) (fun _ => tret (Ok tt)) ;;; tret (Err e)).

(** ** Restart *)

Definition load_voucher_ledger (s : Store) : Store :=
  let 'MkStore o l w g _ f _ r := s in
  match f with
  | None => MkStore o l w g (Vouchers.new u64_max) f false r
  | Some b => match decode_into b (Vouchers.new u64_max) with
              | Ok ledger => MkStore o l w g ledger f false r
              | Err _ => MkStore o l w g (Vouchers.new u64_max) f true r
              end
  end.
End Store.
