(* ===== verification/ObjectStoreTheory.v ===== *)
(** * What the object store promises

    Objects carry the digest that names them and, once stored, stay; a voucher is
    charged for the bytes that are new, and for nothing when the write fails; a proof of
    storage is accepted for the data it was made from and no other. *)

From S2P Require Import Prelude Errors Sorting Tables Primitives SamplePrimitives Crypto Schema Vouchers VouchersTheory OperatorCore RecoveryLog RecoveryLogTheory ObjectStore.

#[local] Open Scope tx_scope.
Import Lease (LeaseReceipt).

Inductive StoreAction : Type :=
| SPut (cid_hex : str) (b : bytes)
| SPutVoucher (cid_hex : str) (b : bytes) (voucher : option WriteVoucher)
| SRepair (cid_hex : str) (b : bytes)
| SCreateLease (closure_digest_hex : str) (bytes term_days : Z) (voucher : option WriteVoucher)
| SRenewLease (lease_id : str) (additional_days bytes : Z) (voucher : option WriteVoucher)
| SRenewOwned (lease_id : str) (additional_days bytes : Z) (vault_id_hex : str) (voucher : option WriteVoucher)
| SOwner (lease_id vault_id_hex : str)
| SAppend (locator_hex : str) (record : bytes) (caller_pk : option bytes) (voucher : option WriteVoucher)
| SReload.

Lemma hoare_map_terr {S E F A} (f : E -> F) (m : Tx S E A) (I : S -> Prop) d Q : hoare I m d Q -> hoare I (map_terr f m) d Q.
Proof. unfold hoare, map_terr. by destruct (m d) as [[a|e] d']. Qed.

Create HintDb objects.

Section Theory.
Context {HX : Hex} {ED : Ed25519} {SH : Sha256} {LJ : LedgerJson} {JL : JsonDoc LeaseReceipt}.
Context {CG : Cbor Genesis.GenesisRecord} {CD : Cbor DeviceCert.DeviceCertificate} {CH : Cbor Head.HeadRecord}.
Context {CE : Cbor Envelope.EpochEnvelope} {CS : Cbor Snapshot.SnapshotRecord}.
Variable fields_json : Lease.signed_fields -> bytes.
Variables (operator_id : str) (signing_key : bytes).

Definition sact (c : StoreCall) (a : StoreAction) (s : Store) : Store :=
  match a with
  | SPut cid b => (put_object c cid b s).2
  | SPutVoucher cid b v => (put_object_with_voucher signing_key c cid b v s).2
  | SRepair cid b => (put_repair_object c cid b s).2
  | SCreateLease d n t v => (create_lease_with_voucher fields_json operator_id signing_key c d n t v s).2
  | SRenewLease l d n v => (renew_lease_with_voucher fields_json signing_key c l d n v s).2
  | SRenewOwned l d n w v => (renew_owned_lease_with_voucher fields_json signing_key c l d n w v s).2
  | SOwner l w => (record_lease_owner c l w s).2
  | SAppend l r pk v => (append_recovery_record_with_voucher signing_key c l r pk v s).2
  | SReload => load_voucher_ledger s
  end.
Definition sacts (h : list (StoreCall * StoreAction)) (s : Store) : Store := foldl (fun s ca => sact ca.1 ca.2 s) s h.

(** ** Content addresses *)

(** An object is named by its digest. *)
Definition named_by_digest (name : str) (b : bytes) : Prop := hex_decode name = Ok (compute_digest b).
Definition addressed (t : gmap str bytes) : Prop := map_Forall named_by_digest t.

(** Calls that do not touch the objects keep whatever holds of them. *)
Section Objects.
Variable P : gmap str bytes -> Prop.
Definition of_objects (s : Store) : Prop := P (objects s).

Lemma of_ledger l s : of_objects s -> of_objects (with_ledger l s).
Proof. by destruct s. Qed.
Lemma of_leases l s : of_objects s -> of_objects (with_leases l s).
Proof. by destruct s. Qed.
Lemma of_owners l s : of_objects s -> of_objects (with_owners l s).
Proof. by destruct s. Qed.
Lemma of_logs l s : of_objects s -> of_objects (with_logs l s).
Proof. by destruct s. Qed.
Lemma of_persist_ledger c at_ e s : of_objects s -> hoare of_objects (persist_voucher_ledger c at_ e) s (fun _ => of_objects).
Proof. intros H. destruct s. unfold hoare, persist_voucher_ledger. by destruct (persist_atomic _ _ _) as [[u|] f]. Qed.
#[local] Hint Resolve of_ledger of_leases of_owners of_logs of_persist_ledger hoare_map_terr : objects.
Ltac frames := keep ltac:(eauto 6 with objects nocore).

Lemma of_authorize c v n s : of_objects s -> hoare of_objects (authorize_write signing_key c v n) s (fun _ => of_objects).
Proof. intros H. unfold authorize_write. destruct v; frames. Qed.
Lemma of_release c charge s : of_objects s -> hoare of_objects (release_write c charge) s (fun _ => of_objects).
Proof. intros H. unfold release_write. destruct charge as [[nonce n]|]; frames. Qed.
Lemma of_legacy s : of_objects s -> hoare of_objects require_voucher_legacy s (fun _ => of_objects).
Proof. intros H. unfold require_voucher_legacy. frames. Qed.
Lemma of_persist_lease c r s : of_objects s -> hoare of_objects (persist_lease fields_json signing_key c r) s (fun _ => of_objects).
Proof.
  intros H. unfold persist_lease. cbv zeta. apply keep_bind; [by apply keep_ret|]. intros b d Hd.
  apply keep_bind; [|intros; by apply keep_ret]. unfold hoare. destruct (persist_atomic _ _ _) as [[u|] f]; by apply of_leases.
Qed.
#[local] Hint Resolve of_persist_lease : objects.
Lemma of_create c d n t s :
  of_objects s -> hoare of_objects (create_lease_inner fields_json operator_id signing_key c d n t) s (fun _ => of_objects).
Proof. intros H. unfold create_lease_inner. frames. Qed.
Lemma of_renew c l d n w s :
  of_objects s -> hoare of_objects (renew_lease_inner fields_json signing_key c l d n w) s (fun _ => of_objects).
Proof. intros H. unfold renew_lease_inner. frames. destruct (_ ≫= _); frames. Qed.
Lemma of_append c l r pk s : of_objects s -> hoare of_objects (append_inner c l r pk) s (fun _ => of_objects).
Proof.
  intros H. unfold hoare, append_inner. destruct (append_authorized_recovery_record_inner _ _ _ _ _ _) as [[n|] f]; by apply of_logs.
Qed.
Lemma of_owner c l w s : of_objects s -> hoare of_objects (record_lease_owner c l w) s (fun _ => of_objects).
Proof. intros H. unfold record_lease_owner. frames. destruct (owners (id s) !! l); [frames|]. destruct (sc_owner c) as [[e k]|]; frames. Qed.
Lemma of_load s : of_objects s -> of_objects (load_voucher_ledger s).
Proof.
  intros H. destruct s as [o l w g v f x r]. unfold load_voucher_ledger. destruct f as [b|]; [|done]. by destruct (decode_into _ _).
Qed.
End Objects.
#[local] Hint Resolve of_authorize of_release of_legacy of_create of_renew of_append of_owner hoare_map_terr : objects.

Section Growth.
Variable t0 : gmap str bytes.
(** The objects of [t0] are still there. *)
Definition grown : Store -> Prop :=
  of_objects (fun t => addressed t /\ forall name b, t0 !! name = Some b -> t !! name = Some b \/ sha256_collision).
Ltac grows := keep ltac:(unfold grown in *; eauto 6 with objects nocore).

Lemma grown_insert name b s :
  grown s -> named_by_digest name b -> grown (with_objects (<[name := b]> (objects s)) s).
Proof.
  intros (Ha & Hg) Hn. destruct s as [o l w g v f x r]. cbn in *. split; [by apply map_Forall_insert_2|]. cbn.
  intros name' b' Hb. destruct (decide (name = name')) as [<-|]; [|rewrite lookup_insert_ne by done; by apply Hg].
  rewrite lookup_insert_eq. destruct (Hg _ _ Hb) as [Ho|]; [|by right]. destruct (decide (b = b')) as [->|Hne]; [by left|]. right.
  exists b, b'. split; [done|]. specialize (Ha _ _ Ho). unfold named_by_digest, compute_digest in *. congruence.
Qed.
Lemma grown_persist c at_ cid b s :
  grown s -> named_by_digest cid b -> hoare grown (persist_object c at_ cid b) s (fun _ => grown).
Proof.
  intros H Hn. unfold hoare, persist_object, persist_atomic. pose proof (grown_insert cid b s H Hn) as Hi.
  assert (grown (with_objects (match objects s !! cid with Some b0 => <[cid := b0]> (objects s) | None => objects s end) s)) as Hs.
  { destruct (objects s !! cid) eqn:E; [rewrite insert_id by done|]; by destruct s. }
  by destruct (sc_persist c at_).
Qed.
Lemma grown_put c cid b s : grown s -> hoare grown (put_object_inner c cid b) s (fun _ => grown).
Proof.
  intros H. unfold put_object_inner. cbv zeta. destruct (_ >? _); [by apply keep_ret|]. destruct (negb _); [by apply keep_ret|].
  destruct (hex_decode cid) as [dg|] eqn:Ed; [|exact H]. apply hoare_done_bind.
  destruct (negb _); [by apply keep_ret|]. case_bool_decide as Hd; [|by apply keep_ret]. cbn [negb].
  apply hoare_get_bind. case_bool_decide; [by apply keep_ret|].
  apply keep_bind; [|intros; by apply keep_ret]. apply grown_persist; [done|]. unfold named_by_digest. by rewrite Ed, Hd.
Qed.
#[local] Hint Resolve grown_put : objects.

Lemma grown_put_voucher c cid b v s :
  grown s -> hoare grown (put_object_with_voucher signing_key c cid b v) s (fun _ => grown).
Proof. intros H. unfold put_object_with_voucher. grows. all: apply hoare_map_terr, grown_put; done. Qed.

Lemma sact_grown c a s : grown s -> grown (sact c a s).
Proof.
  intros H. destruct a; simpl; try apply hoare_state.
  - unfold put_object. grows.
  - by apply grown_put_voucher.
  - by apply grown_put.
  - unfold create_lease_with_voucher. grows.
  - unfold renew_lease_with_voucher. grows.
  - unfold renew_owned_lease_with_voucher. grows.
  - by apply of_owner.
  - unfold append_recovery_record_with_voucher. grows.
  - by apply of_load.
Qed.
Lemma sacts_grown h s : grown s -> grown (sacts h s).
Proof. revert s; induction h as [|[c a] h IH]; intros s H; [done|]. simpl. by apply IH, sact_grown. Qed.
End Growth.

Lemma put_stores c cid b s :
  hoare (fun _ => True) (put_object_inner c cid b) s
    (fun _ s' => objects s' !! cid = Some b /\ str_len cid = 64 /\ is_ok (hex_decode cid) = true).
Proof.
  unfold put_object_inner. cbv zeta. destruct (_ >? _); [by apply hoare_ret|].
  destruct (Z.eqb_spec (str_len cid) 64) as [Hl|]; [|by apply hoare_ret]. cbn [negb].
  destruct (hex_decode cid) as [dg|] eqn:Ed; [|done]. apply hoare_done_bind.
  destruct (negb _); [by apply hoare_ret|]. destruct (negb _); [by apply hoare_ret|].
  apply hoare_get_bind. unfold read_object. case_bool_decide as Hs.
  - apply hoare_done. by destruct (sc_read c "put").
  - eapply hoare_bind; [|intros u d Hd; apply hoare_done; exact Hd]. unfold hoare, persist_object, persist_atomic.
    destruct (sc_persist c "object"); [|done..]. destruct s; cbn. split; [apply lookup_insert_eq|done].
Qed.

(** An object that was stored is served, unchanged, after any history of puts, repairs,
    leases, appends and restarts, whatever fails, or SHA-256 has collided. *)
Theorem stored_object_served c cid b voucher s s1 h c' :
  addressed (objects s) -> put_object_with_voucher signing_key c cid b voucher s = (Ok tt, s1) -> sc_read c' "get" = true ->
  get_object c' (sacts h s1) cid = Some b \/ sha256_collision.
Proof.
  intros Ha E Hread.
  assert (hoare (fun _ => True) (put_object_with_voucher signing_key c cid b voucher) s
            (fun _ s' => objects s' !! cid = Some b /\ str_len cid = 64 /\ is_ok (hex_decode cid) = true)) as Hput.
  { set (Q := fun t : gmap str bytes => t !! cid = Some b /\ str_len cid = 64 /\ is_ok (hex_decode cid) = true).
    unfold put_object_with_voucher. apply hoare_get_bind. cbv zeta.
    apply (hoare_bind _ _ _ _ (fun _ _ => True)); [apply hoare_any|]. intros charge d _.
    apply (hoare_bind _ _ _ _ (fun _ => of_objects Q)).
    - eapply (hoare_catch _ (fun _ => True)); [apply hoare_map_terr, put_stores|]. intros e d' _. apply hoare_fails.
    - intros net d' Hd. destruct net; [by apply hoare_done|]. eapply hoare_conseq; [by apply of_release|done|done]. }
  unfold hoare in Hput. rewrite E in Hput. destruct Hput as (Hb & Hl & Hh).
  assert (grown (objects s1) s1) as Hg.
  { split; [|by left]. assert (grown ∅ s) as H0 by (by split).
    pose proof (hoare_state _ _ _ (grown_put_voucher ∅ c cid b voucher s H0)) as Hs. rewrite E in Hs. apply Hs. }
  destruct (sacts_grown (objects s1) h s1 Hg) as (_ & Hkeep). destruct (Hkeep _ _ Hb) as [Ho|]; [left|by right].
  unfold get_object, read_object. rewrite Hl, Hh, Hread. cbn. done.
Qed.

(** ** Charges *)

(** The bytes charged to a grant that has not expired by [now]. *)
Definition charged (now : Z) (nonce : str) (l : VoucherLedger) : Z :=
  default 0 (c_spent_bytes <$> spent (prune_expired now l) !! nonce).
Lemma charged_prune now nonce l : charged now nonce (prune_expired now l) = charged now nonce l.
Proof.
  unfold charged. f_equal. f_equal. apply option_eq. intros e. rewrite !prune_lookup. naive_solver.
Qed.

Lemma consume_charged w issuer now n l m :
  charges_nonneg l -> quota_bytes w < u64_max -> 0 <= n ->
  let '(out, l') := try_consume w issuer now n l in
  charges_nonneg l' /\
  charged now m l' = charged now m l + (if is_ok out && bool_decide (m = nonce_hex w) then n else 0).
Proof.
  intros Hnn Hq Hn. destruct (try_consume_inv issuer w now n l) as [(e & ->)|(Hnow & Eq & Ex & Hs & _ & ->)].
  { cbn [is_ok andb]. rewrite charged_prune, Z.add_0_r. split; [by apply charges_nonneg_prune|done]. }
  set (l1 := prune_expired now l) in *. set (entry := default _ _) in *. cbn [is_ok andb].
  pose proof (entry_nonneg l1 w (charges_nonneg_prune now l Hnn)) as Hen. fold entry in Hen.
  assert (c_spent_bytes entry + n <= quota_bytes w) as Hsum by (apply sat_add_le; lia).
  assert (sat_add64 (c_spent_bytes entry) n = c_spent_bytes entry + n) as -> by (unfold sat_add64; lia).
  split.
  - intros k x. simpl. rewrite lookup_insert. case_decide; [|apply (charges_nonneg_prune now l Hnn)]. intros [= <-]. simpl. lia.
  - unfold charged at 1. set (l2 := with_maps _ _ _). case_bool_decide as Hm.
    + subst m. assert (spent (prune_expired now l2) !! nonce_hex w = Some (charge_with_spent entry (c_spent_bytes entry + n))) as ->.
      { apply prune_lookup. split; [apply lookup_insert_eq|]. simpl. lia. }
      simpl. unfold charged. fold l1. unfold entry. destruct (spent l1 !! nonce_hex w); done.
    + rewrite Z.add_0_r, <- (charged_prune now m l). fold l1. unfold charged. f_equal. f_equal. apply option_eq. intros x.
      rewrite !prune_lookup. simpl. by rewrite lookup_insert_ne.
Qed.

Lemma release_charged n b l now m :
  charges_nonneg l -> 0 <= b ->
  charges_nonneg (release n b l) /\
  charged now m (release n b l) = charged now m l - (if bool_decide (m = n) then Z.min b (charged now m l) else 0).
Proof.
  intros Hnn Hb. split.
  - intros k x. rewrite release_spent. destruct (spent l !! n) as [e|] eqn:E; [|apply Hnn].
    rewrite lookup_insert. case_decide; [|apply Hnn]. intros [= <-]. simpl. specialize (Hnn _ _ E). lia.
  - unfold charged. simpl. rewrite release_spent. destruct (spent l !! n) as [e|] eqn:E.
    + case_bool_decide as Hm.
      * subst m. rewrite !map_lookup_filter, lookup_insert_eq, E. simpl.
        destruct (decide (c_expires_utc e >= now)); [|by rewrite !option_guard_False; simpl; lia].
        rewrite !option_guard_True by done. simpl. lia.
      * rewrite Z.sub_0_r, !map_lookup_filter, lookup_insert_ne by done. done.
    + case_bool_decide as Hm; [|lia]. subst m. rewrite map_lookup_filter, E. simpl. lia.
Qed.

Section Charges.
Variable c : StoreCall.
Hypothesis encodes : forall l, exists b, Vouchers.encode l = Ok b.
Abbreviation now := (sc_now c "charge").

(** Same objects, and the ledger differs from [l] by [d] on each grant. *)
Definition shifted (t : gmap str bytes) (l : VoucherLedger) (d : str -> Z) (s' : Store) : Prop :=
  objects s' = t /\ charges_nonneg (voucher_ledger s') /\
  forall m, charged now m (voucher_ledger s') = charged now m l + d m.
Definition on_nonce (nonce : str) (n : Z) (m : str) : Z := if bool_decide (m = nonce) then n else 0.

Lemma charged_nonneg m l : charges_nonneg l -> 0 <= charged now m l.
Proof.
  intros Hnn. unfold charged. destruct (spent (prune_expired now l) !! m) as [e|] eqn:E; simpl; [|lia].
  apply prune_lookup in E as (E & _). by eapply Hnn.
Qed.
Lemma persist_ledger_shift at_ e t l d s :
  shifted t l d s -> hoare (shifted t l d) (map_terr unable_to_persist (persist_voucher_ledger c at_ e)) s (fun _ => shifted t l d).
Proof.
  intros H. apply hoare_map_terr. destruct s. unfold hoare, persist_voucher_ledger. by destruct (persist_atomic _ _ _) as [[u|] f].
Qed.
Lemma release_undoes t l l' nonce n s :
  objects s = t -> charges_nonneg l' -> (forall m, charged now m l' = charged now m l + on_nonce nonce n m) ->
  charges_nonneg l -> 0 <= n -> shifted t l (fun _ => 0) (with_ledger (release nonce n l') s).
Proof.
  intros Ho Hnn Hc Hl Hn. destruct s as [o ls w g v f x r]; cbn in *. split; [done|]. split; [by apply release_charged|].
  intros m. cbn. rewrite (proj2 (release_charged nonce n l' now m Hnn Hn)), Hc. unfold on_nonce.
  pose proof (charged_nonneg m l Hl). case_bool_decide; lia.
Qed.

Lemma authorize_shift w n s :
  charges_nonneg (voucher_ledger s) -> quota_bytes w < u64_max -> 0 <= n ->
  hoare (shifted (objects s) (voucher_ledger s) (fun _ => 0)) (authorize_write signing_key c (Some w) n) s
    (fun ch s' => ch = Some (nonce_hex w, n) /\ shifted (objects s) (voucher_ledger s) (on_nonce (nonce_hex w) n) s').
Proof.
  intros Hnn Hq Hn. unfold authorize_write. apply hoare_get_bind.
  assert (shifted (objects s) (voucher_ledger s) (fun _ => 0) s) as H0 by (do 2 (split; [done|]); intros m; lia).
  destruct (ledger_failed s); [by apply hoare_ret|]. apply hoare_get_bind, hoare_modify_bind.
  assert (forall m, charges_nonneg (try_consume w (issuer_pk_hex signing_key) now n (voucher_ledger s)).2 /\
    charged now m (try_consume w (issuer_pk_hex signing_key) now n (voucher_ledger s)).2 =
    charged now m (voucher_ledger s) +
      (if is_ok (try_consume w (issuer_pk_hex signing_key) now n (voucher_ledger s)).1 && bool_decide (m = nonce_hex w) then n else 0)) as Hc.
  { intros m. pose proof (consume_charged w (issuer_pk_hex signing_key) now n (voucher_ledger s) m Hnn Hq Hn) as Hc.
    by destruct (try_consume _ _ _ _ _). }
  destruct (try_consume w (issuer_pk_hex signing_key) now n (voucher_ledger s)) as [[[]|e] l1]; cbn [fst snd is_ok andb] in *.
  - apply hoare_done_bind. destruct (encodes l1) as (eb & Heb). unfold encode_ledger. rewrite Heb. apply hoare_done_bind.
    assert (shifted (objects s) (voucher_ledger s) (on_nonce (nonce_hex w) n) (with_ledger l1 s)) as H1.
    { destruct s; cbn in *. split; [done|]. split; [apply (Hc [])|]. intros m. apply Hc. }
    eapply hoare_bind; [|intros u d Hd; apply hoare_done; split; [done|exact Hd]].
    eapply hoare_catch; [by apply persist_ledger_shift|]. intros e d Hd. apply hoare_modify_bind, hoare_ret; [|done].
    destruct Hd as (Ho & _). apply release_undoes; [done|apply (Hc [])|intros m; apply Hc|done|done].
  - unfold hoare, tbind, tret. destruct s; cbn in *. split; [done|]. split; [apply (Hc [])|]. intros m. apply Hc.
Qed.

Lemma release_shift t l nonce n s :
  shifted t l (on_nonce nonce n) s -> charges_nonneg l -> 0 <= n ->
  hoare (shifted t l (fun _ => 0)) (release_write c (Some (nonce, n))) s (fun _ => shifted t l (fun _ => 0)).
Proof.
  intros (Ho & Hnn & Hc) Hl Hn. unfold release_write. apply hoare_get_bind, hoare_modify_bind.
  destruct (encodes (release nonce n (voucher_ledger s))) as (eb & Heb). unfold encode_ledger. rewrite Heb. apply hoare_done_bind.
  by apply persist_ledger_shift, release_undoes.
Qed.

Lemma put_shift cid b s l d :
  sc_read c "put" = true -> shifted (objects s) l d s ->
  hoare (fun s' => exists t, shifted t l d s') (put_object_inner c cid b) s
    (fun net s' => net = negb (bool_decide (objects s !! cid = Some b)) /\ exists t, shifted t l d s').
Proof.
  intros Hr H. assert (exists t, shifted t l d s) as He by (by eexists). unfold put_object_inner. cbv zeta.
  destruct (_ >? _); [by apply hoare_ret|]. destruct (negb _); [by apply hoare_ret|].
  destruct (hex_decode cid) as [dg|]; [|exact He]. apply hoare_done_bind.
  destruct (negb _); [by apply hoare_ret|]. destruct (negb _); [by apply hoare_ret|].
  apply hoare_get_bind. unfold read_object. rewrite Hr. case_bool_decide as Hs; [by apply hoare_done|].
  eapply (hoare_bind _ _ _ _ (fun _ s' => exists t, shifted t l d s')); [|intros u d' Hd; by apply hoare_done].
  destruct H as (_ & H1 & H2). unfold hoare, persist_object. destruct (persist_atomic _ _ _) as [[u|] f]; destruct s; cbn in *;
    (eexists; split; [done|]; by split).
Qed.

(** A put under a voucher charges the grant for the bytes that were not stored yet, and
    for nothing when it fails, at whatever step; other grants are not charged.  (The
    ledger can be encoded, and files that are there can be read.) *)
Theorem put_charges_net_new cid b w s :
  sc_read c "match" = true -> sc_read c "put" = true ->
  charges_nonneg (voucher_ledger s) -> quota_bytes w < u64_max ->
  let '(out, s') := put_object_with_voucher signing_key c cid b (Some w) s in
  forall m, charged now m (voucher_ledger s') =
    charged now m (voucher_ledger s) +
    if is_ok out && bool_decide (m = nonce_hex w) && negb (bool_decide (objects s !! cid = Some b)) then blen b else 0.
Proof.
  intros Hr1 Hr2 Hnn Hq. set (l := voucher_ledger s). set (present := bool_decide (objects s !! cid = Some b)).
  set (n := if object_matches c cid b s then 0 else blen b).
  assert (0 <= n) as Hn by (unfold n; pose proof (blen_nonneg b); destruct (object_matches c cid b s); lia).
  assert (hoare (fun s' => exists t, shifted t l (fun _ => 0) s') (put_object_with_voucher signing_key c cid b (Some w)) s
    (fun _ s' => exists t, shifted t l (on_nonce (nonce_hex w) (if present then 0 else blen b)) s')) as H.
  { unfold put_object_with_voucher. apply hoare_get_bind. cbv zeta. fold n.
    eapply hoare_bind; [eapply hoare_conseq; [by apply authorize_shift|by eexists|]|].
    { intros ch s' H. exact H. }
    intros ch s1 (-> & H1). pose proof H1 as (Ho & _).
    eapply hoare_bind.
    - eapply hoare_catch; [apply hoare_map_terr, put_shift; [done|rewrite Ho; exact H1]|]. intros e d (t & Hd).
      eapply hoare_bind; [|intros u d' Hd'; apply hoare_ret; [exact Hd'|done]].
      eapply hoare_catch; [eapply hoare_conseq; [by apply release_shift|intros d' Hd'; exact Hd'|intros u d' Hd'; by exists t]|].
      intros e' d' Hd'. apply hoare_done. by exists t.
    - intros net d (-> & t & Hd). rewrite Ho. fold present. destruct present eqn:Ep; cbn [negb].
      + eapply hoare_conseq; [by apply release_shift|intros d' Hd'; by exists t|]. intros u d' Hd'. exists t.
        destruct Hd' as (? & ? & Hm). split; [done|]. split; [done|]. intros m. rewrite Hm. unfold on_nonce. by case_bool_decide.
      + apply hoare_done. exists t. unfold n, object_matches, read_object in Hd. rewrite Hr1 in Hd. fold present in Hd.
        by rewrite Ep, andb_false_r in Hd. }
  unfold hoare in H. destruct (put_object_with_voucher _ _ _ _ _ _) as [[u|e] s']; destruct H as (t & _ & _ & H); intros m; rewrite H;
    cbn [is_ok andb]; [|done]. unfold on_nonce. case_bool_decide; [|done]. by destruct present.
Qed.
End Charges.

(** ** Proofs of storage *)

(** The operator that holds an object proves it to a client that holds the same data;
    data for which such a receipt is accepted are the stored ones, or the proofs of the two collide. *)
Theorem pos_proof_exact {HL : HexLaws HX} {EL : Ed25519Laws ED} {SL : Sha256Laws SH} c s cid_hex cid nonce data b receipt :
  hex_decode cid_hex = Ok cid -> objects s !! cid_hex = Some b ->
  generate_pos_proof operator_id signing_key c s cid_hex nonce = Ok receipt ->
  Pos.verify receipt (verifying_key signing_key) (Pos.compute_pos_proof cid nonce b) = Ok tt /\
  (Pos.verify receipt (verifying_key signing_key) (Pos.compute_pos_proof cid nonce data) = Ok tt ->
   data = b \/ (data <> b /\ Pos.compute_pos_proof cid nonce data = Pos.compute_pos_proof cid nonce b)).
Proof.
  intros Hcid Hb. unfold generate_pos_proof. rewrite Hcid. destruct (negb _); [done|]. cbn [map_err res_bind]. destruct (negb _); [done|].
  unfold read_object. destruct (sc_read c "pos"); [|done]. rewrite Hb. intros [= <-].
  assert (forall x, is_bytes (Pos.compute_pos_proof cid nonce x)) as Hpb by (intros x; apply sha256_bytes). split.
  - unfold Pos.verify. cbn [Pos.proof_hex Pos.signature_hex]. rewrite bool_decide_true by done. cbn [negb].
    unfold Pos.signing_bytes. cbn [Pos.operator_id Pos.cid_hex Pos.nonce_hex Pos.proof_hex Pos.size_bytes].
    set (msg := _ ++ _). rewrite hex_decode_encode by apply ed_sign_bytes. cbn [map_err res_bind].
    assert (blen (sign_with_domain signing_key Pos.pos_domain msg) = 64) as -> by (unfold blen, sign_with_domain; by rewrite ed_sign_length).
    cbn [Z.eqb Pos.eqb negb]. by rewrite verify_sign_with_domain.
  - unfold Pos.verify. cbn [Pos.proof_hex]. intros H. case_bool_decide as He; [|done]. clear H.
    unfold lower in He. rewrite !hex_encode_fixed in He by apply Hpb. apply (f_equal hex_decode) in He.
    rewrite !hex_decode_encode in He by apply Hpb. injection He as He.
    destruct (decide (data = b)) as [|Hne]; [by left|]. by right.
Qed.

(** ** Leases *)

Lemma trim_length x : (length (trim x) <= length x)%nat.
Proof.
  assert (forall y, length (trim_start y) <= length y)%nat as H.
  { induction y as [|a y IH]; simpl; [done|]. destruct (is_whitespace a); simpl; lia. }
  unfold trim, trim_end. rewrite length_rev. pose proof (H (rev (trim_start x))) as H1. rewrite length_rev in H1.
  pose proof (H x). lia.
Qed.

(** A write of the owner file that stops short leaves a lease that nobody owns and nobody
    can claim or renew. *)
Lemma torn_owner_locks_lease c e kept id vault s :
  valid_lease_id id = true -> str_len vault = 64 -> is_ok (hex_decode vault) = true -> owners s !! id = None ->
  sc_owner c = Some (e, kept) -> (kept < 64)%nat -> length (as_bytes (lower vault)) = 64%nat ->
  exists s1, record_lease_owner c id vault s = (Err e, s1) /\
    forall c' vault', length vault' = 64%nat ->
      (exists err, (record_lease_owner c' id vault' s1).1 = Err err) /\
      forall days n caller, caller = None \/ caller = Some vault' ->
        exists err, (renew_lease_inner fields_json signing_key c' id days n caller s1).1 = Err err.
Proof.
  intros Hid Hlen Hhex Hown Hc Hk Htext. destruct s as [o l w g v f x r]. cbn in Hown.
  exists (MkStore o l (<[id := take kept (as_bytes (lower vault))]> w) g v f x r). split.
  { unfold record_lease_owner. rewrite Hid, Hlen, Hhex. unfold tbind, tget, tmodify. cbn. by rewrite Hown, Hc. }
  intros c' vault' Hv'. set (owner := take kept (as_bytes (lower vault))).
  assert (eq_ignore_ascii_case (trim owner) vault' = false) as Hno.
  { unfold eq_ignore_ascii_case. apply bool_decide_eq_false. intros E. apply (f_equal length) in E. rewrite !length_fmap in E.
    pose proof (trim_length owner) as Ht. unfold owner in Ht, E. rewrite length_take in Ht. lia. }
  split.
  - unfold record_lease_owner. rewrite Hid. cbn [negb]. destruct (_ || _); [by eexists|]. unfold tbind, tget. cbn.
    rewrite lookup_insert_eq. fold owner. rewrite Hno. by eexists.
  - intros days n caller Hcaller. unfold renew_lease_inner. rewrite Hid. cbn [negb orb]. destruct (days =? 0); [by eexists|].
    unfold tbind at 1, tget at 1. cbn. rewrite lookup_insert_eq. unfold owns.
    destruct Hcaller as [->| ->]; [by eexists|]. fold owner. rewrite Hno. by eexists.
Qed.

(** A renewal extends the promise: the receipt it returns verifies, keeps what was leased,
    and expires no earlier than before. *)
Theorem renewal_extends {HL : HexLaws HX} {EL : Ed25519Laws ED} c lid days n caller s old receipt s' :
  leases s !! lid ≫= doc_read = Some old -> 0 <= days ->
  renew_lease_inner fields_json signing_key c lid days n caller s = (Ok receipt, s') ->
  Lease.verify fields_json receipt (verifying_key signing_key) = Ok tt /\
  Lease.closure_digest_hex receipt = Lease.closure_digest_hex old /\ Lease.bytes_ receipt = n /\
  Lease.lease_id receipt = Lease.lease_id old /\ Lease.term_days receipt = Lease.term_days old + days /\
  Lease.expires_at_utc old + days * 86400 <= Lease.expires_at_utc receipt <= u64_max /\
  (exists b, doc_write receipt = Ok b /\ leases s' !! Lease.lease_id receipt = Some b).
Proof.
  intros Hold Hdays. unfold renew_lease_inner. destruct (_ || _); [done|]. unfold tbind at 1, tget at 1, id. cbn.
  destruct (negb _); [done|]. rewrite Hold. unfold tbind at 1, tret at 1.
  destruct (Lease.verify fields_json old _) as [[]|]; [|done]. cbn [map_err].
  destruct (Z.eqb_spec (Lease.bytes_ old) n) as [Hn|]; [|done]. cbn [negb]. destruct (_ >? u32_max) eqn:E32; [done|].
  destruct (_ >? u64_max) eqn:E64; [done|]. unfold persist_lease. cbv zeta. set (r := Lease.with_signature _ _).
  unfold tbind at 1, tret at 1. destruct (doc_write r) as [b|] eqn:Eb; [|done].
  unfold tbind, tret, persist_atomic. destruct (sc_persist c "lease"); [|done..]. intros [= <- <-].
  split; [|split; [done|split; [done|split; [done|split; [done|split; [cbn in *; lia|exists b; split; [done|by destruct s; apply lookup_insert_eq]]]]]]].
  unfold Lease.verify. cbn [r Lease.signature_hex Lease.with_signature]. rewrite hex_decode_encode by apply ed_sign_bytes. cbn [map_err res_bind].
  set (msg := Lease.signing_bytes _ _).
  assert (blen (sign_with_domain signing_key Lease.lease_domain msg) = 64) as -> by (unfold blen, sign_with_domain; by rewrite ed_sign_length).
  cbn [Z.eqb Pos.eqb negb]. change (Lease.signing_bytes fields_json (Lease.with_signature _ _)) with msg. by rewrite verify_sign_with_domain.
Qed.
End Theory.

(** ** Examples *)

#[local] Instance sample_ledger_json : LedgerJson :=
  {| ledger_to_vec _ := Ok [1]; ledger_from_slice _ := Err "no ledger"%string |}.
#[local] Instance sample_lease_doc : JsonDoc LeaseReceipt := {| doc_write _ := Ok [1]; doc_read _ := None |}.
Definition sample_fields_json (_ : Lease.signed_fields) : bytes := [].

Definition store_call (now : Z) (failing : option string) : StoreCall :=
  {| sc_now := fun _ => now; sc_env := no_env;
     sc_persist := fun at_ => if bool_decide (failing = Some at_) then NotSaved (lit "disk full") else Saved;
     sc_read := fun _ => true; sc_random := replicate 16 1; sc_append := io_ok; sc_owner := None |}.
Definition operator_sk : bytes := replicate 32 5.
Definition sample_voucher : WriteVoucher :=
  match Vouchers.issue (replicate 32 2) 1000 operator_sk (hex_encode (verifying_key (replicate 32 3))) 100 600 with
  | Ok v => v
  | Err _ => {| v_version := 0; Vouchers.issuer_pk_hex := []; holder_pk_hex := []; quota_bytes := 0; expires_utc := 0;
                nonce_hex := []; signature_hex := [] |}
  end.
Definition empty_store : Store := MkStore ∅ ∅ ∅ ∅ (Vouchers.new 1000) None false true.
Definition payload : bytes := lit "ciphertext".
Definition payload_cid : str := hex_encode (compute_digest payload).
Abbreviation put_at now failing :=
  (put_object_with_voucher operator_sk (store_call now failing) payload_cid payload (Some sample_voucher)).
Definition stored : Store := (put_at 1100 None empty_store).2.
(** The same object again, then a restart. *)
Definition later : list (StoreCall * StoreAction) :=
  [(store_call 1200 None, SPutVoucher payload_cid payload (Some sample_voucher)); (store_call 1300 None, SReload)].

Lemma stored_object_served_witness :
  get_object (store_call 1400 None) (sacts sample_fields_json (lit "op") operator_sk later stored) payload_cid = Some payload
  \/ sha256_collision.
Proof.
  apply (stored_object_served sample_fields_json (lit "op") operator_sk (store_call 1100 None) payload_cid payload (Some sample_voucher)
           empty_store stored later).
  - apply map_Forall_empty.
  - assert ((put_at 1100 None empty_store).1 = Ok tt) as E by (vm_compute; reflexivity). rewrite <- E. apply surjective_pairing.
  - reflexivity.
Defined.

(** A put that is stored, and one whose file cannot be written. *)
Lemma put_charges_net_new_witness :
  charged 1100 (nonce_hex sample_voucher) (voucher_ledger stored) = 10 /\
  forall m, charged 1100 m (voucher_ledger (put_at 1100 (Some "object"%string) empty_store).2) =
    charged 1100 m (voucher_ledger empty_store) + 0.
Proof.
  assert (forall l, exists b, Vouchers.encode l = Ok b) as Henc by (intros l; eexists; reflexivity).
  assert (charges_nonneg (voucher_ledger empty_store)) as Hnn by (intros n e; cbn; by rewrite lookup_empty).
  split.
  - pose proof (put_charges_net_new operator_sk (store_call 1100 None) Henc payload_cid payload sample_voucher empty_store
                  eq_refl eq_refl Hnn eq_refl) as H.
    unfold stored. destruct (put_at 1100 None empty_store) as [out s'] eqn:E.
    assert (out = Ok tt) as -> by (apply (f_equal fst) in E; vm_compute in E; by rewrite <- E).
    cbn [snd]. rewrite H. vm_compute. reflexivity.
  - pose proof (put_charges_net_new operator_sk (store_call 1100 (Some "object"%string)) Henc payload_cid payload sample_voucher empty_store
                  eq_refl eq_refl Hnn eq_refl) as H.
    destruct (put_at 1100 (Some "object"%string) empty_store) as [out s'] eqn:E.
    assert (is_ok out = false) as Ho by (apply (f_equal fst) in E; vm_compute in E; by rewrite <- E).
    rewrite Ho in H. exact H.
Defined.

Lemma pos_proof_exact_witness :
  exists receipt, generate_pos_proof (lit "op") operator_sk (store_call 1200 None) stored payload_cid (replicate 32 7) = Ok receipt /\
  Pos.verify receipt (verifying_key operator_sk) (Pos.compute_pos_proof (compute_digest payload) (replicate 32 7) payload) = Ok tt /\
  (Pos.verify receipt (verifying_key operator_sk) (Pos.compute_pos_proof (compute_digest payload) (replicate 32 7) (lit "x")) = Ok tt ->
   lit "x" = payload \/ (lit "x" <> payload /\
     Pos.compute_pos_proof (compute_digest payload) (replicate 32 7) (lit "x") = Pos.compute_pos_proof (compute_digest payload) (replicate 32 7) payload)).
Proof.
  destruct (generate_pos_proof (lit "op") operator_sk (store_call 1200 None) stored payload_cid (replicate 32 7)) as [receipt|] eqn:E;
    [|vm_compute in E; discriminate].
  exists receipt. split; [reflexivity|].
  apply (pos_proof_exact (lit "op") operator_sk (store_call 1200 None) stored payload_cid (compute_digest payload) (replicate 32 7)
           (lit "x") payload receipt); [vm_compute; reflexivity|vm_compute; reflexivity|exact E].
Defined.
