(* ===== verification/Pool.v ===== *)
(** * The client's side of storage

    src/crates/storage/src: client.rs (identity and digest checks around the transport of one
    operator), pool.rs (replication to a quorum, recovery queries, discovery of peers) and the
    operator identity of types.rs.

    What an operator answers is an arbitrary function of the request and of the moment at
    which the client asks, so that an operator can lie and change its mind.  The clock, the
    random nonces and the order in which concurrent pipelines complete are arguments. *)

From stdpp Require Import sorting.
From S2P Require Import Prelude Sorting Errors Primitives SamplePrimitives Names Crypto Vouchers OperatorCore Admission ObjectStore.
Import Peer (PeerDescriptor).
Import Lease (LeaseReceipt).

(** ** Messages (types.rs) *)

Record OperatorInfo : Type := {
  operator_id : str; operator_signing_pk_hex : str; supported_version : Z; retention_terms : str;
  identity_signature_hex : str; identity_expires_at_utc : Z;
}.
Record ChallengeRequest : Type := {
  cr_vault_id_hex : str; cr_public_key_hex : str; cr_account_id : option str; cr_device_id_hex : option str;
}.
Record ChallengeResponse : Type := { ch_challenge_id : str; ch_nonce_hex : str; ch_expires_at_utc : Z }.
Record SessionRequest : Type := { sr_challenge_id : str; sr_public_key_hex : str; sr_signature_hex : str }.
Record SessionResponse : Type := { se_token : str; se_expires_at_utc : Z }.

(** The place of a call in the client's program: its name, and positions in the lists it goes through. *)
Definition Moment : Type := string * list nat.

(** [OperatorTransport]: the answers of one operator. *)
Record OperatorTransport : Type := {
  request_challenge : ChallengeRequest -> result StorageError ChallengeResponse;
  redeem_session : SessionRequest -> result StorageError SessionResponse;
  fetch_info : Moment -> result StorageError OperatorInfo;
  send_object : Moment -> str -> bytes -> bytes -> result StorageError unit;
  fetch_object_bytes : Moment -> str -> bytes -> result StorageError bytes;
  challenge_object_pos : Moment -> str -> bytes -> bytes -> result StorageError Pos.ProofOfStorageReceipt;
  commit_lease : str -> bytes -> Z -> Z -> result StorageError LeaseReceipt;
  ask_renewal : Moment -> str -> str -> Z -> Z -> result StorageError LeaseReceipt;
  append_recovery_record : Moment -> str -> bytes -> bytes -> result StorageError Z;
  get_recovery_records : Moment -> bytes -> result StorageError (list bytes);
  get_peers : result StorageError (list PeerDescriptor);
}.

Record OperatorClient : Type := MkClient {
  endpoint : str; transport : OperatorTransport; vault_scope : option str; account_identity : option (str * str);
  trace_id : option str; pinned_key : option bytes; pin_error : option str;
}.

(** One use of the clients: the clock in seconds since the epoch, and the bytes drawn. *)
Record Run : Type := { clock : Moment -> Z; nonce : Moment -> bytes }.

Definition identity_fields : Type := str * str * Z * str * Z.
Definition identity_domain : bytes := lit "operator_identity".

Section Client.
Context {HX : Hex} {ED : Ed25519} {SH : Sha256}.
(** [serde_json::to_vec] of the signed tuples. *)
Variable identity_json : identity_fields -> bytes.
Variable lease_json : Lease.signed_fields -> bytes.

Definition identity_signing_bytes (self : OperatorInfo) : bytes :=
  identity_json (operator_id self, operator_signing_pk_hex self, supported_version self, retention_terms self,
                 identity_expires_at_utc self).
Definition verify_identity_signature (self : OperatorInfo) : bool :=
  match hex_decode (operator_signing_pk_hex self), hex_decode (identity_signature_hex self) with
  | Ok pk, Ok sig =>
      if negb (blen pk =? 32) || negb (blen sig =? 64) then false
      else is_ok (verify_with_domain pk identity_domain (identity_signing_bytes self) sig)
  | _, _ => false
  end.

(** ** client.rs *)

Definition with_transport (endpoint : str) (t : OperatorTransport) : OperatorClient :=
  MkClient (Peer.trim_end_matches 47 endpoint) t None None None None None.
Definition with_account_identity (account_id device_id_hex : str) (c : OperatorClient) : OperatorClient :=
  let 'MkClient e t v _ tr p x := c in
  MkClient e t v (Some (to_ascii_lowercase <$> trim account_id, to_ascii_lowercase <$> trim device_id_hex)) tr p x.
Definition clear_account_identity (c : OperatorClient) : OperatorClient :=
  let 'MkClient e t v _ tr p x := c in MkClient e t v None tr p x.
Definition set_trace_id (id : str) (c : OperatorClient) : OperatorClient :=
  let 'MkClient e t v a _ p x := c in MkClient e t v a (Some (to_ascii_lowercase <$> trim id)) p x.
Definition clear_trace_id (c : OperatorClient) : OperatorClient :=
  let 'MkClient e t v a _ p x := c in MkClient e t v a None p x.
Definition pin_signing_key (key : bytes) (c : OperatorClient) : OperatorClient :=
  let 'MkClient e t v a tr _ _ := c in MkClient e t v a tr (Some key) None.
Definition reject_identity_pin (error : str) (c : OperatorClient) : OperatorClient :=
  let 'MkClient e t v a tr p _ := c in MkClient e t v a tr p (Some error).
Definition new_pinned (endpoint : str) (t : OperatorTransport) (signing_key : bytes) : OperatorClient :=
  pin_signing_key signing_key (with_transport endpoint t).

Definition bad_gateway (msg : str) : StorageError := ServerError 502 msg.
Definition get_info (r : Run) (at_ : Moment) (c : OperatorClient) : result StorageError OperatorInfo :=
  match pin_error c with
  | Some error => Err (bad_gateway error)
  | None =>
      let? info := fetch_info (transport c) at_ in
      bail? negb (verify_identity_signature info) || (identity_expires_at_utc info <=? Z.max (clock r at_) 0)
        with bad_gateway (lit "Operator identity signature verification failed") ;;
      bail? match pinned_key c with
            | Some key => negb (eq_ignore_ascii_case (operator_signing_pk_hex info) (hex_encode key))
            | None => false
            end
        with bad_gateway (lit "Operator identity differs from its enrolled key") ;;
      Ok info
  end.
Definition get_info_pinned (r : Run) (at_ : Moment) (expected_signing_key : bytes) (c : OperatorClient)
  : result StorageError OperatorInfo :=
  let? info := get_info r at_ c in
  bail? negb (eq_ignore_ascii_case (operator_signing_pk_hex info) (hex_encode expected_signing_key))
        || negb (verify_identity_signature info)
    with bad_gateway (lit "Operator identity does not match the pinned signing key") ;;
  bail? negb (identity_expires_at_utc info =? 0) && (wrap64 (clock r at_) >? identity_expires_at_utc info)
    with bad_gateway (lit "Operator identity descriptor has expired") ;;
  Ok info.

Definition challenge_domain : bytes := lit "operator_challenge".
Definition authenticate (vault_id signing_key : bytes) (c : OperatorClient) : result StorageError str * OperatorClient :=
  let pk_hex := hex_encode (verifying_key signing_key) in
  let vault_hex := hex_encode vault_id in
  match request_challenge (transport c)
          {| cr_vault_id_hex := vault_hex; cr_public_key_hex := pk_hex; cr_account_id := fst <$> account_identity c;
             cr_device_id_hex := snd <$> account_identity c |} with
  | Err e => (Err e, c)
  | Ok challenge =>
      match hex_decode (ch_nonce_hex challenge) with
      | Err e => (Err (ServerError 500 (lit e)), c)
      | Ok nonce_bytes =>
          let sig := sign_with_domain signing_key challenge_domain nonce_bytes in
          match redeem_session (transport c)
                  {| sr_challenge_id := ch_challenge_id challenge; sr_public_key_hex := pk_hex; sr_signature_hex := hex_encode sig |} with
          | Err e => (Err e, c)
          | Ok session =>
              let 'MkClient e t _ a tr p x := c in (Ok (se_token session), MkClient e t (Some vault_hex) a tr p x)
          end
      end
  end.

Definition get_object (at_ : Moment) (token : str) (cid : bytes) (c : OperatorClient) : result StorageError bytes :=
  let? b := fetch_object_bytes (transport c) at_ token cid in
  let actual_digest := sha256 b in
  bail? negb (bool_decide (actual_digest = cid)) with DigestMismatch (hex_encode cid) (hex_encode cid) (hex_encode actual_digest) ;;
  Ok b.

(** ** pool.rs *)

Definition DEFAULT_OBJECT_CONCURRENCY : Z := 4.
Definition MAX_OBJECT_CONCURRENCY : Z := 32.
Definition DEFAULT_REQUIRED_REPLICAS : Z := 3.

Record MultiOperatorPool : Type := { clients : list OperatorClient; object_concurrency : Z }.

(** [Vec::dedup_by]: of equal neighbours the first stays. *)
Fixpoint dedup_by {A} (same : A -> A -> bool) (l : list A) : list A :=
  match l with
  | [] => []
  | x :: rest => match dedup_by same rest with
                 | [] => [x]
                 | y :: ys => if same x y then x :: ys else x :: y :: ys
                 end
  end.

(** [str::rsplit_once] *)
Definition rsplit_once (sep : Z) (s : str) : option (str * str) :=
  match rev (split_on sep s) with
  | last :: first :: rest => Some (foldl (fun acc p => p ++ sep :: acc) first rest, last)
  | _ => None
  end.
Definition split_once (sep : Z) (s : str) : option (str * str) :=
  match split_on sep s with
  | first :: rest => match rest with
                     | [] => None
                     | p :: ps => Some (first, foldl (fun acc q => acc ++ sep :: q) p ps)
                     end
  | [] => None
  end.
Fixpoint find_map {A B} (f : A -> option B) (l : list A) : option B :=
  match l with
  | [] => None
  | x :: rest => match f x with Some y => Some y | None => find_map f rest end
  end.

Definition decode_key (hex : str) : option bytes :=
  match hex_decode hex with Ok b => if blen b =? 32 then Some b else None | Err _ => None end.
Definition pin_of (pins endpoint : str) : option str :=
  find_map (fun entry =>
    match rsplit_once 61 (trim entry) with
    | Some (configured, key) => if bool_decide (Peer.trim_end_matches 47 (trim configured) = endpoint) then Some (trim key) else None
    | None => None
    end) (split_on 44 pins).
Definition pinned_client (pins : option str) (dial : str -> OperatorTransport) (endpoint : str) : OperatorClient :=
  let client := with_transport endpoint (dial endpoint) in
  match pins with
  | None => client
  | Some pins =>
      match pin_of pins endpoint ≫= decode_key with
      | Some key => pin_signing_key key client
      | None => reject_identity_pin (lit "Configured operator pin missing or invalid for " ++ endpoint) client
      end
  end.

(** [new] reads CIPHERVAULT_OPERATOR_PINS; [dial] opens the transport of an endpoint. *)
Definition new (env : Env) (dial : str -> OperatorTransport) (endpoints : list str) : MultiOperatorPool :=
  let endpoints := dedup_by (fun a b => bool_decide (a = b)) (sort lex_le (Peer.trim_end_matches 47 <$> endpoints)) in
  {| clients := pinned_client (env "CIPHERVAULT_OPERATOR_PINS"%string) dial <$> endpoints;
     object_concurrency := DEFAULT_OBJECT_CONCURRENCY |}.
Definition from_clients (cs : list OperatorClient) : MultiOperatorPool :=
  {| clients := dedup_by (fun a b => bool_decide (endpoint a = endpoint b)) (sort (fun a b => lex_le (endpoint a) (endpoint b)) cs);
     object_concurrency := DEFAULT_OBJECT_CONCURRENCY |}.
Definition endpoints (self : MultiOperatorPool) : list str := endpoint <$> clients self.
Definition on_clients (f : OperatorClient -> OperatorClient) (self : MultiOperatorPool) : MultiOperatorPool :=
  {| clients := f <$> clients self; object_concurrency := object_concurrency self |}.
Definition set_account_identity (account_id device_id_hex : str) : MultiOperatorPool -> MultiOperatorPool :=
  on_clients (with_account_identity account_id device_id_hex).
Definition set_object_concurrency (concurrency : Z) (self : MultiOperatorPool) : MultiOperatorPool :=
  {| clients := clients self; object_concurrency := Z.max 1 (Z.min concurrency MAX_OBJECT_CONCURRENCY) |}.

(** *** Discovery *)

Definition enrolled (env : Env) (peer : PeerDescriptor) : bool :=
  existsb (fun entry =>
    match split_once 61 (trim entry) with
    | Some (id, key) => bool_decide (trim id = Peer.operator_id peer) && eq_ignore_ascii_case (trim key) (Peer.signing_pk_hex peer)
    | None => false
    end) (split_on 44 (default [] (env "CIPHERVAULT_TRUSTED_OPERATOR_IDENTITIES"%string))).
Definition fresh_peer (env : Env) (now : Z) (peer : PeerDescriptor) : bool :=
  enrolled env peer && is_ok (Peer.verify peer) && (Peer.timestamp_utc peer <=? sat_add64 now 300)
  && (sat_sub now (Peer.timestamp_utc peer) <=? 86400).

(** One peer of one client's answer; the position identifies the calls it leads to. *)
Definition consider_peer (env : Env) (r : Run) (dial : str -> OperatorTransport) (existing : list str) (i : nat)
  (new_clients : list OperatorClient) (j_peer : nat * PeerDescriptor) : list OperatorClient :=
  let '(j, peer) := j_peer in
  let at_ : Moment := ("discover"%string, [i; j]) in
  let now := Z.max (clock r at_) 0 in
  if fresh_peer env now peer then
    let normalized := Peer.trim_end_matches 47 (Peer.endpoint peer) in
    if negb (bool_decide (normalized ∈ existing)) && negb (bool_decide (normalized ∈ endpoint <$> new_clients)) then
      match decode_key (Peer.signing_pk_hex peer) with
      | None => new_clients
      | Some key =>
          let candidate := new_pinned normalized (dial normalized) key in
          if is_ok (get_info_pinned r at_ key candidate) then new_clients ++ [candidate] else new_clients
      end
    else new_clients
  else new_clients.
Definition consider_client (env : Env) (r : Run) (dial : str -> OperatorTransport) (existing : list str)
  (new_clients : list OperatorClient) (i_client : nat * OperatorClient) : list OperatorClient :=
  let '(i, client) := i_client in
  match get_peers (transport client) with
  | Ok peers => foldl (consider_peer env r dial existing i) new_clients (enumerate peers)
  | Err _ => new_clients
  end.
Definition discover_and_expand_peers (env : Env) (r : Run) (dial : str -> OperatorTransport) (self : MultiOperatorPool)
  : Z * MultiOperatorPool :=
  let existing := (fun c => Peer.trim_end_matches 47 (endpoint c)) <$> clients self in
  let new_clients := foldl (consider_client env r dial existing) [] (enumerate (clients self)) in
  (blen new_clients, {| clients := clients self ++ new_clients; object_concurrency := object_concurrency self |}).

(** *** Replication *)

Definition authenticate_all (vault_id signing_key : bytes) (self : MultiOperatorPool) : list (OperatorClient * str) :=
  omap (fun c => match authenticate vault_id signing_key c with
                 | (Ok token, c') => Some (c', token)
                 | (Err _, _) => None
                 end) (clients self).

(** What is replicated. *)
Record Closure : Type := {
  objects : list (bytes * bytes); closure_digest : bytes; total_bytes : Z; term_days : Z; locator : bytes;
  head_record_bytes : bytes; recovery_records : list bytes;
}.

(** [slice::chunks]; a chunk holds at least one element, so the fuel is enough. *)
Fixpoint chunks_of {A} (fuel n : nat) (l : list A) : list (list A) :=
  match fuel, l with
  | S fuel', _ :: _ => take n l :: chunks_of fuel' n (drop n l)
  | _, _ => []
  end.
Definition chunks {A} (n : Z) (l : list A) : list (list A) := chunks_of (length l) (Z.to_nat n) l.

Definition upload (r : Run) (client : OperatorClient) (token : str) (i_object : nat * (bytes * bytes)) : bool :=
  let '(i, (cid, data)) := i_object in
  let challenge_nonce := nonce r ("upload"%string, [i]) in
  let expected_proof := Pos.compute_pos_proof cid challenge_nonce data in
  let already_present :=
    match challenge_object_pos (transport client) ("upload"%string, [i]) token cid challenge_nonce with
    | Ok proof => bool_decide (Pos.proof_hex proof = hex_encode expected_proof)
    | Err _ => false
    end in
  already_present || is_ok (send_object (transport client) ("upload"%string, [i]) token cid data).

Definition readback (r : Run) (client : OperatorClient) (token : str) (pk : bytes) (i_object : nat * (bytes * bytes)) : bool :=
  let '(i, (cid, data)) := i_object in
  let nonce_ := nonce r ("readback"%string, [i]) in
  let expected_proof := Pos.compute_pos_proof cid nonce_ data in
  match challenge_object_pos (transport client) ("readback"%string, [i]) token cid nonce_ with
  | Ok receipt => is_ok (Pos.verify receipt pk expected_proof)
  | Err _ => match get_object ("readback"%string, [i]) token cid client with
             | Ok b => bool_decide (sha256 b = cid)
             | Err _ => false
             end
  end.

(** The receipt matches the operator and the request. *)
Definition receipt_ok (k : Closure) (info : OperatorInfo) (pk : bytes) (receipt : LeaseReceipt) : bool :=
  is_ok (Lease.verify lease_json receipt pk) && bool_decide (Lease.operator_id receipt = operator_id info)
  && bool_decide (Lease.closure_digest_hex receipt = hex_encode (closure_digest k))
  && (Lease.bytes_ receipt =? total_bytes k) && (Lease.term_days receipt =? term_days k).

(** A rejection by the server is passed over, any other failure ends the pipeline. *)
Definition published (client : OperatorClient) (token : str) (k : Closure) (i_record : nat * bytes) : bool :=
  match append_recovery_record (transport client) ("record"%string, [i_record.1]) token (locator k) i_record.2 with
  | Ok _ => true
  | Err (ServerError _ _) => true
  | Err _ => false
  end.

Definition discovered_all (k : Closure) (discovered : list bytes) : bool :=
  bool_decide (head_record_bytes k ∈ discovered) && forallb (fun r => bool_decide (r ∈ discovered)) (recovery_records k).

Definition replicate_to_single_operator (r : Run) (k : Closure) (object_concurrency : Z) (client : OperatorClient) (token : str)
  : option (bytes * LeaseReceipt) :=
  let batches := chunks (Z.max object_concurrency 1) (enumerate (objects k)) in
  if negb (forallb (forallb (upload r client token)) batches) then None else
  match commit_lease (transport client) token (closure_digest k) (total_bytes k) (term_days k) with
  | Err _ => None
  | Ok receipt =>
  match get_info r ("identity"%string, []) client with
  | Err _ => None
  | Ok info =>
  match decode_key (operator_signing_pk_hex info) with
  | None => None
  | Some pk =>
      if negb (receipt_ok k info pk receipt) then None
      else if negb (forallb (forallb (readback r client token pk)) batches) then None
      else if negb (forallb (published client token k) (enumerate (recovery_records k))) then None
      else match append_recovery_record (transport client) ("head"%string, []) token (locator k) (head_record_bytes k) with
           | Err _ => None
           | Ok _ => match get_recovery_records (transport client) ("discovery"%string, []) (locator k) with
                     | Err _ => None
                     | Ok discovered => if discovered_all k discovered then Some (pk, receipt) else None
                     end
           end
  end end end.

Definition Outcome : Type := option (bytes * str * LeaseReceipt).
(** The loop over the pipelines in the order they complete: one receipt per key, and an early
    exit when the pipelines that are left cannot reach the quorum. *)
Fixpoint collect (required : Z) (pending : list Outcome) (verified_receipts : list (str * LeaseReceipt)) (verified_keys : gset bytes)
  : list (str * LeaseReceipt) :=
  match pending with
  | [] => verified_receipts
  | outcome :: rest =>
      let '(receipts, keys) :=
        match outcome with
        | Some (pk, endpoint, receipt) =>
            if bool_decide (pk ∈ verified_keys) then (verified_receipts, verified_keys)
            else (verified_receipts ++ [(endpoint, receipt)], {[ pk ]} ∪ verified_keys)
        | None => (verified_receipts, verified_keys)
        end in
      if blen receipts + blen rest <? required then receipts else collect required rest receipts keys
  end.

Definition by_operator (a b : str * LeaseReceipt) : bool := lex_le (Lease.operator_id a.2) (Lease.operator_id b.2).
Definition pipeline (r : Run) (k : Closure) (object_concurrency : Z) (session : OperatorClient * str) : Outcome :=
  let '(client, token) := session in
  (fun '(pk, receipt) => (pk, endpoint client, receipt)) <$> replicate_to_single_operator r k object_concurrency client token.

(** [schedule] is the order in which the pipelines complete. *)
Definition replicate_and_verify_inner (r : Run) (schedule : list Outcome -> list Outcome) (vault_id signing_key : bytes) (k : Closure)
  (required_replicas : Z) (self : MultiOperatorPool) : result StorageError (list (str * LeaseReceipt)) :=
  let sessions := authenticate_all vault_id signing_key self in
  bail? blen sessions <? required_replicas with QuorumDeficit required_replicas (blen sessions) ;;
  let pending := schedule (pipeline r k (object_concurrency self) <$> sessions) in
  let verified_receipts := sort by_operator (collect required_replicas pending [] ∅) in
  bail? blen verified_receipts <? required_replicas with QuorumDeficit required_replicas (blen verified_receipts) ;;
  Ok verified_receipts.
Definition replicate_and_verify (r : Run) (schedule : list Outcome -> list Outcome) (vault_id signing_key : bytes) (k : Closure)
  (required_replicas : Z) (self : MultiOperatorPool) : result StorageError (list LeaseReceipt) :=
  let? receipts := replicate_and_verify_inner r schedule vault_id signing_key k required_replicas self in
  Ok (snd <$> receipts).

(** *** Recovery *)

Definition query_recovery_records (locator : bytes) (self : MultiOperatorPool) : list bytes :=
  foldl (fun all_records record => if bool_decide (record ∈ all_records) then all_records else all_records ++ [record]) []
    (clients self ≫= fun c => match get_recovery_records (transport c) ("query"%string, []) locator with Ok l => l | Err _ => [] end).

Definition fetch_object_from_any (schedule : list (result StorageError bytes) -> list (result StorageError bytes)) (cid : bytes)
  (self : MultiOperatorPool) : result StorageError bytes :=
  match find_map (fun answer => match answer with
                                | Ok b => if bool_decide (sha256 b = cid) then Some b else None
                                | Err _ => None
                                end)
          (schedule (get_object ("fetch"%string, []) (lit "recovery_anonymous") cid <$> clients self)) with
  | Some b => Ok b
  | None => Err (OperatorUnreachable (lit "all") (lit "Object " ++ hex_encode cid ++ lit " not found on any surviving operator"))
  end.

(** ** Theorems *)

(** *** One operator *)

(** What a pipeline that succeeds has checked. *)
Record holds_closure (r : Run) (k : Closure) (client : OperatorClient) (token : str) (pk : bytes) (receipt : LeaseReceipt) : Prop := {
  h_info : exists info, get_info r ("identity"%string, []) client = Ok info /\ decode_key (operator_signing_pk_hex info) = Some pk /\
    Lease.operator_id receipt = operator_id info;
  h_receipt : Lease.verify lease_json receipt pk = Ok tt /\ Lease.closure_digest_hex receipt = hex_encode (closure_digest k) /\
    Lease.bytes_ receipt = total_bytes k /\ Lease.term_days receipt = term_days k;
  h_objects : forall i cid data, objects k !! i = Some (cid, data) ->
    (exists proof, challenge_object_pos (transport client) ("readback"%string, [i]) token cid (nonce r ("readback"%string, [i])) = Ok proof /\
       Pos.verify proof pk (Pos.compute_pos_proof cid (nonce r ("readback"%string, [i])) data) = Ok tt) \/
    (exists b, fetch_object_bytes (transport client) ("readback"%string, [i]) token cid = Ok b /\ sha256 b = cid);
  h_records : exists discovered, get_recovery_records (transport client) ("discovery"%string, []) (locator k) = Ok discovered /\
    head_record_bytes k ∈ discovered /\ Forall (fun record => record ∈ discovered) (recovery_records k);
}.

Lemma chunks_of_concat {A} fuel n (l : list A) : (0 < n)%nat -> (length l <= fuel)%nat -> concat (chunks_of fuel n l) = l.
Proof.
  intros Hn. revert l. induction fuel as [|fuel IH]; intros [|x l] Hf; cbn in Hf; [done|lia|done|].
  cbn [chunks_of concat]. rewrite IH; [apply take_drop|]. rewrite length_drop. cbn. lia.
Qed.
Lemma forallb_concat {A} (f : A -> bool) ls : forallb (forallb f) ls = forallb f (concat ls).
Proof. induction ls as [|l ls IH]; [done|]. cbn. by rewrite forallb_app, IH. Qed.
(** Batches do not matter to the outcome. *)
Lemma batches_all {A} (f : A -> bool) concurrency (l : list A) : forallb (forallb f) (chunks (Z.max concurrency 1) l) = forallb f l.
Proof. unfold chunks. rewrite forallb_concat, chunks_of_concat by lia. done. Qed.

Lemma passed_unit {E} (x : result E unit) : is_ok x = true -> x = Ok tt.
Proof. by destruct x as [[]|]. Qed.
Lemma forallb_enumerate {A} (f : nat * A -> bool) (l : list A) : forallb f (enumerate l) = true -> forall i x, l !! i = Some x -> f (i, x) = true.
Proof.
  intros H i x Hi. rewrite forallb_forall in H. apply H, list_elem_of_In, list_elem_of_lookup. exists i. unfold enumerate.
  by rewrite list_lookup_imap, Hi.
Qed.

Lemma single_operator_sound r k concurrency client token pk receipt :
  replicate_to_single_operator r k concurrency client token = Some (pk, receipt) -> holds_closure r k client token pk receipt.
Proof.
  unfold replicate_to_single_operator. rewrite !batches_all. destruct (forallb (upload r client token) _); [|done]. cbn [negb].
  destruct (commit_lease _ _ _ _ _) as [rc|]; [|done]. destruct (get_info _ _ _) as [info|] eqn:Ei; [|done].
  destruct (decode_key _) as [key|] eqn:Ek; [|done]. rewrite batches_all. destruct (receipt_ok _ _ _ _) eqn:Er; [|done]. cbn [negb].
  destruct (forallb (readback r client token key) _) eqn:Eb; [|done]. cbn [negb]. destruct (forallb (published _ _ _) _); [|done]. cbn [negb].
  destruct (append_recovery_record _ _ _ _ _); [|done]. destruct (get_recovery_records _ _ _) as [ds|] eqn:Ed; [|done].
  destruct (discovered_all k ds) eqn:Ea; [|done]. intros [= <- <-]. unfold receipt_ok in Er. unfold discovered_all in Ea. bool_prop.
  repeat match goal with H : bool_decide _ = true |- _ => apply bool_decide_eq_true_1 in H end. split.
  - by exists info.
  - split_and!; [by apply passed_unit|done..].
  - intros i cid data Hi. pose proof (forallb_enumerate _ _ Eb i _ Hi) as Hr. cbn in Hr.
    destruct (challenge_object_pos _ _ _ _ _) as [proof|] eqn:Ep; [left; exists proof; split; [done|by apply passed_unit]|right].
    unfold get_object in Hr. destruct (fetch_object_bytes _ _ _ _) as [b|]; [|done]. cbn [res_bind] in Hr. exists b. split; [done|].
    case_bool_decide; done.
  - exists ds. split_and!; [done|done|]. apply Forall_forall. intros x Hx. eapply forallb_forall in H0; [|by apply list_elem_of_In].
    by apply bool_decide_eq_true_1 in H0.
Qed.

(** *** The quorum *)

Definition key_of (o : bytes * str * LeaseReceipt) : bytes := o.1.1.
Definition filed (o : bytes * str * LeaseReceipt) : str * LeaseReceipt := (o.1.2, o.2).
Definition successes (outcomes : list Outcome) : list (bytes * str * LeaseReceipt) := omap id outcomes.
Definition keys_of (outcomes : list Outcome) : gset bytes := list_to_set (key_of <$> successes outcomes).

Lemma keys_of_cons o rest : keys_of (o :: rest) = match o with Some x => {[ key_of x ]} ∪ keys_of rest | None => keys_of rest end.
Proof. by destruct o. Qed.
Lemma keys_of_perm a b : a ≡ₚ b -> keys_of a = keys_of b.
Proof. intros Hp. unfold keys_of, successes. apply leibniz_equiv. by rewrite Hp. Qed.
Lemma size_union_bound (a b : gset bytes) : (size (a ∪ b) <= size a + size b)%nat.
Proof. rewrite size_union_alt. pose proof (subseteq_size (b ∖ a) b ltac:(set_solver)). lia. Qed.
Lemma keys_of_size outcomes : Z.of_nat (size (keys_of outcomes)) <= blen outcomes.
Proof.
  induction outcomes as [|o rest IH]; [done|]. rewrite keys_of_cons. unfold blen in *. cbn [length].
  destruct o as [x|]; [|lia]. pose proof (size_union_bound {[key_of x]} (keys_of rest)) as H. rewrite size_singleton in H. lia.
Qed.

(** The early exit loses no quorum: a quorum is collected exactly when enough keys succeed. *)
Lemma collect_count required pending : forall receipts keys, blen receipts = Z.of_nat (size keys) ->
  required <= blen (collect required pending receipts keys) <-> required <= Z.of_nat (size (keys ∪ keys_of pending)).
Proof.
  induction pending as [|o rest IH]; intros receipts keys Hl; cbn [collect].
  - rewrite Hl. change (keys_of []) with (∅ : gset bytes). by rewrite union_empty_r_L.
  - set (next := match o with Some _ => _ | None => _ end).
    assert (blen next.1 = Z.of_nat (size next.2) /\ next.2 ∪ keys_of rest = keys ∪ keys_of (o :: rest)) as [Hn Hk].
    { rewrite keys_of_cons. unfold next. destruct o as [[[pk e] rc]|]; [|done]. unfold key_of. cbn [fst]. case_bool_decide as Hin; cbn [fst snd].
      - split; [done|]. set_solver.
      - rewrite blen_app, Hl, size_union, size_singleton by set_solver. split; [unfold blen; cbn [length]; lia|set_solver]. }
    destruct next as [receipts' keys']. cbn [fst snd] in *. rewrite <-Hk. destruct (Z.ltb_spec (blen receipts' + blen rest) required) as [Hlt|Hge].
    + pose proof (size_union_bound keys' (keys_of rest)). pose proof (keys_of_size rest). unfold blen in *. lia.
    + by apply IH.
Qed.

(** What is collected is one success per key. *)
Lemma collect_chosen required pending : forall receipts keys, exists chosen, collect required pending receipts keys = receipts ++ (filed <$> chosen) /\
  NoDup (key_of <$> chosen) /\ Forall (fun o => (key_of o ∉ keys) /\ Some o ∈ pending) chosen.
Proof.
  induction pending as [|o rest IH]; intros receipts keys; cbn [collect].
  - exists []. rewrite app_nil_r. split_and!; [done|constructor|done].
  - assert (forall receipts keys', keys ⊆ keys' -> exists chosen, (if blen receipts + blen rest <? required then receipts else collect required rest receipts keys')
      = receipts ++ (filed <$> chosen) /\ NoDup (key_of <$> chosen) /\ Forall (fun x => (key_of x ∉ keys') /\ (key_of x ∉ keys) /\ Some x ∈ o :: rest) chosen) as Hrest.
    { intros rs keys' Hk. destruct (_ <? _); [exists []; rewrite app_nil_r; split_and!; [done|constructor|done]|].
      destruct (IH rs keys') as (chosen & -> & Hnd & Hf). exists chosen. split_and!; [done..|]. eapply Forall_impl; [exact Hf|]. set_solver. }
    destruct o as [[[pk e] rc]|].
    + case_bool_decide as Hin; [destruct (Hrest receipts keys ltac:(done)) as (chosen & E & Hnd & Hf)|
        destruct (Hrest (receipts ++ [(e, rc)]) ({[pk]} ∪ keys) ltac:(set_solver)) as (chosen & E & Hnd & Hf)].
      * exists chosen. split_and!; [done..|]. eapply Forall_impl; [exact Hf|]. naive_solver.
      * exists ((pk, e, rc) :: chosen). rewrite E, <-app_assoc. split_and!; [done| |].
        -- rewrite fmap_cons. constructor; [|done]. intros (x & Ex & Hx)%list_elem_of_fmap. rewrite Forall_forall in Hf.
           destruct (Hf x Hx) as [Hn _]. cbn in Ex. set_solver.
        -- constructor; [set_solver|]. eapply Forall_impl; [exact Hf|]. naive_solver.
    + destruct (Hrest receipts keys ltac:(done)) as (chosen & E & Hnd & Hf). exists chosen. split_and!; [done..|].
      eapply Forall_impl; [exact Hf|]. naive_solver.
Qed.

Section Quorum.
Variable r : Run.
Variable schedule : list Outcome -> list Outcome.
Hypothesis Hschedule : forall l, schedule l ≡ₚ l.
Variables (vault_id signing_key : bytes) (k : Closure) (required : Z) (pool : MultiOperatorPool).

Definition outcomes : list Outcome := pipeline r k (object_concurrency pool) <$> authenticate_all vault_id signing_key pool.

Lemma sort_length {A} (le : A -> A -> bool) (l : list A) : blen (sort le l) = blen l.
Proof. unfold blen. by rewrite (sort_perm le l). Qed.

Lemma inner_ok receipts : replicate_and_verify_inner r schedule vault_id signing_key k required pool = Ok receipts <->
  required <= Z.of_nat (size (keys_of outcomes)) /\ receipts = sort by_operator (collect required (schedule outcomes) [] ∅).
Proof.
  unfold replicate_and_verify_inner. fold outcomes. rewrite sort_length.
  pose proof (collect_count required (schedule outcomes) [] ∅ ltac:(done)) as Hc. rewrite union_empty_l_L, (keys_of_perm _ _ (Hschedule outcomes)) in Hc.
  assert (Z.of_nat (size (keys_of outcomes)) <= blen (authenticate_all vault_id signing_key pool)) as Hs.
  { etransitivity; [apply keys_of_size|]. unfold outcomes, blen. by rewrite length_fmap. }
  split.
  - intros H. apply bail_ok in H as [_ H]. apply bail_ok in H as [Hb H]. apply Ok_inj in H as <-. split; [|done]. apply Hc. lia.
  - intros [Hk ->]. pose proof (proj2 Hc Hk) as Hl.
    replace (blen (authenticate_all vault_id signing_key pool) <? required) with false by lia.
    by replace (blen (collect required (schedule outcomes) [] ∅) <? required) with false by lia.
Qed.

(** C39: in whatever order the pipelines of the operators complete, replication reports success exactly when the
    operators whose pipelines succeed have at least the required number of different keys: the early exit
    gives up no quorum, and one key at several endpoints counts once. *)
Theorem quorum_exact : is_ok (replicate_and_verify_inner r schedule vault_id signing_key k required pool) = true <->
  required <= Z.of_nat (size (keys_of outcomes)).
Proof.
  destruct (replicate_and_verify_inner _ _ _ _ _ _ _) as [receipts|e] eqn:E; cbn [is_ok].
  - apply inner_ok in E as [E _]. done.
  - split; [done|]. intros Hk. pose proof (proj2 (inner_ok _) (conj Hk eq_refl)) as E'. congruence.
Qed.

(** C11: whatever the operators answer, every receipt that replication returns comes from an operator that logged
    the client in and signed the lease for this closure with the key of its verified identity, that proved the
    possession of every object under a fresh nonce with that key or served it, and whose log returned the head
    and all recovery records; the keys are different and at least as many as required. *)
Theorem replicated_quorum receipts : replicate_and_verify_inner r schedule vault_id signing_key k required pool = Ok receipts ->
  exists held : list (OperatorClient * str * bytes * LeaseReceipt),
    required <= blen held /\ receipts ≡ₚ (fun '(client, _, _, receipt) => (endpoint client, receipt)) <$> held /\
    NoDup ((fun '(_, _, pk, _) => pk) <$> held) /\
    Forall (fun '(client, token, pk, receipt) => (client, token) ∈ authenticate_all vault_id signing_key pool /\
      holds_closure r k client token pk receipt) held.
Proof.
  intros [Hk ->]%inner_ok. destruct (collect_chosen required (schedule outcomes) [] ∅) as (chosen & E & Hnd & Hf).
  assert (exists held : list (OperatorClient * str * bytes * LeaseReceipt),
    chosen = (fun '(client, _, pk, receipt) => (pk, endpoint client, receipt)) <$> held /\
    Forall (fun '(client, token, pk, receipt) => (client, token) ∈ authenticate_all vault_id signing_key pool /\
      holds_closure r k client token pk receipt) held) as (held & -> & Hheld).
  { clear E Hnd. induction Hf as [|o chosen [_ Ho] _ (held & -> & IH)]; [by exists []|].
    rewrite Hschedule in Ho. apply list_elem_of_fmap in Ho as ([client token] & Eo & Hin). cbn in Eo.
    destruct (replicate_to_single_operator _ _ _ _ _) as [[pk rc]|] eqn:Es; [|done]. cbn in Eo. injection Eo as ->.
    exists ((client, token, pk, rc) :: held). split; [done|]. constructor; [|done]. split; [done|]. by eapply single_operator_sound. }
  pose proof (collect_count required (schedule outcomes) [] ∅ ltac:(done)) as Hc. rewrite union_empty_l_L, (keys_of_perm _ _ (Hschedule outcomes)) in Hc.
  apply Hc in Hk. rewrite E in Hk. cbn [app] in Hk. unfold blen in Hk. rewrite !length_fmap in Hk. exists held. split_and!; [done| | |done].
  - rewrite sort_perm, E. cbn [app]. rewrite <-list_fmap_compose. apply reflexive_eq, list_fmap_ext. by intros i [[[c t] pk] rc] _.
  - rewrite <-list_fmap_compose in Hnd. erewrite list_fmap_ext; [exact Hnd|]. by intros i [[[c t] pk] rc] _.
Qed.
End Quorum.

(** *** Pinned identities *)

Context {HL : HexLaws HX}.

Lemma decode_key_same hex key pk : length key = 32%nat -> is_bytes key ->
  eq_ignore_ascii_case hex (hex_encode key) = true -> decode_key hex = Some pk -> pk = key.
Proof.
  intros Hl Hb He. unfold decode_key. destruct (hex_decode hex) as [b|] eqn:E; [|done]. case_match; [|done]. intros [= <-].
  apply hex_decode_lower in E as [Hbb E]. unfold eq_ignore_ascii_case in He. apply bool_decide_eq_true_1 in He. rewrite E in He.
  assert (to_ascii_lowercase <$> hex_encode key = hex_encode key) as Hk.
  { rewrite <-(list_fmap_id (hex_encode key)) at 2. apply Forall_fmap_ext. eapply Forall_impl; [by apply hex_encode_digits|]. intros c. apply lower_hex_fixed. }
  rewrite Hk in He. pose proof (hex_decode_encode b Hbb) as H1. rewrite He, hex_decode_encode in H1 by done. by injection H1.
Qed.
Lemma decode_key_bytes hex key : decode_key hex = Some key -> is_bytes key /\ length key = 32%nat.
Proof.
  unfold decode_key. destruct (hex_decode hex) as [b|] eqn:E; [|done]. case_match eqn:Hl; [|done]. intros [= <-].
  apply hex_decode_lower in E as [Hb _]. split; [done|]. unfold blen in Hl. lia.
Qed.

(** Logging in changes the scope of a client only. *)
Lemma authenticate_client vault_id signing_key c res c' : authenticate vault_id signing_key c = (res, c') ->
  endpoint c' = endpoint c /\ transport c' = transport c /\ pinned_key c' = pinned_key c /\ pin_error c' = pin_error c.
Proof.
  unfold authenticate. intros H. destruct (request_challenge _ _); [|by injection H as <- <-]. destruct (hex_decode _); [|by injection H as <- <-].
  destruct (redeem_session _ _); [|by injection H as <- <-]. destruct c. by injection H as <- <-.
Qed.
Lemma session_client vault_id signing_key pool c token : (c, token) ∈ authenticate_all vault_id signing_key pool ->
  exists c0, c0 ∈ clients pool /\ endpoint c = endpoint c0 /\ transport c = transport c0 /\ pinned_key c = pinned_key c0 /\ pin_error c = pin_error c0.
Proof.
  unfold authenticate_all. intros (c0 & Hin & H)%list_elem_of_omap. exists c0. split; [done|].
  destruct (authenticate vault_id signing_key c0) as [[t|] c'] eqn:E; [|done]. injection H as <- <-. by eapply authenticate_client.
Qed.

Lemma pinned_info r at_ c info key pk : get_info r at_ c = Ok info -> pinned_key c = Some key -> length key = 32%nat -> is_bytes key ->
  decode_key (operator_signing_pk_hex info) = Some pk -> pk = key.
Proof.
  unfold get_info. intros H Hp Hl Hb. destruct (pin_error c); [done|]. rewrite Hp in H. res_inv. bool_prop. intros Hd.
  by eapply decode_key_same.
Qed.

(** An operator of a pool with configured pins counts only with the key that is configured for its endpoint. *)
Lemma pinned_holder env dial eps pins r k vault_id signing_key c token pk receipt : env "CIPHERVAULT_OPERATOR_PINS"%string = Some pins ->
  (c, token) ∈ authenticate_all vault_id signing_key (new env dial eps) -> holds_closure r k c token pk receipt ->
  exists e, endpoint c = Peer.trim_end_matches 47 e /\ pin_of pins e ≫= decode_key = Some pk.
Proof.
  intros He (c0 & Hc & Hep & _ & Hk & Hx)%session_client Hh. unfold new in Hc. cbn [clients] in Hc. rewrite He in Hc.
  apply list_elem_of_fmap in Hc as (e & -> & _). exists e. destruct (h_info _ _ _ _ _ _ Hh) as (info & Hi & Hd & _). unfold pinned_client in *.
  destruct (pin_of pins e ≫= decode_key) as [key|] eqn:Ep.
  - apply bind_Some in Ep as (hex & _ & Ekey). apply decode_key_bytes in Ekey as [Hb Hl]. cbn in Hep, Hk. split; [done|]. f_equal.
    by eapply eq_sym, pinned_info.
  - cbn in Hx. unfold get_info in Hi. by rewrite Hx in Hi.
Qed.

(** *** Recovery *)

Lemma find_map_Some {A B} (f : A -> option B) l y : find_map f l = Some y -> exists x, x ∈ l /\ f x = Some y.
Proof.
  induction l as [|x l IH]; [done|]. cbn. destruct (f x) as [z|] eqn:E; [intros [= <-]; exists x; set_solver|].
  intros (x' & Hx & Hf)%IH. exists x'. set_solver.
Qed.
Lemma find_map_None {A B} (f : A -> option B) l : find_map f l = None -> forall x, x ∈ l -> f x = None.
Proof.
  induction l as [|x l IH]; [set_solver|]. cbn. destruct (f x) eqn:E; [done|]. intros H y [->|Hy]%elem_of_cons; [done|]. by apply IH.
Qed.

(** What is fetched has the digest that names it, and is fetched whenever some operator serves it, in whatever order the answers come. *)
Lemma fetch_any_sound schedule cid pool b : fetch_object_from_any schedule cid pool = Ok b -> sha256 b = cid.
Proof.
  unfold fetch_object_from_any. destruct (find_map _ _) as [x|] eqn:E; [|done]. intros [= <-]. apply find_map_Some in E as ([y|] & _ & H); [|done].
  case_bool_decide; [by injection H as <-|done].
Qed.
Lemma fetch_any_live schedule cid pool c b : (forall l, schedule l ≡ₚ l) -> c ∈ clients pool ->
  fetch_object_bytes (transport c) ("fetch"%string, []) (lit "recovery_anonymous") cid = Ok b -> sha256 b = cid ->
  exists b', fetch_object_from_any schedule cid pool = Ok b' /\ sha256 b' = cid.
Proof.
  intros Hs Hc Hf Hd. destruct (fetch_object_from_any schedule cid pool) as [b'|e] eqn:E; [exists b'; split; [done|by eapply fetch_any_sound]|].
  unfold fetch_object_from_any in E. destruct (find_map _ _) eqn:En; [done|].
  exfalso. assert (Ok b ∈ schedule (get_object ("fetch"%string, []) (lit "recovery_anonymous") cid <$> clients pool)) as Hin.
  { rewrite Hs. apply list_elem_of_fmap. exists c. split; [|done]. unfold get_object. rewrite Hf. cbn [res_bind]. by rewrite bool_decide_eq_true_2. }
  apply (find_map_None _ _ En) in Hin. by rewrite bool_decide_eq_true_2 in Hin.
Qed.
(** The query returns every record that some operator returns, once. *)
Lemma query_records_exact locator pool : NoDup (query_recovery_records locator pool) /\ forall record,
  record ∈ query_recovery_records locator pool <-> exists c l, c ∈ clients pool /\
    get_recovery_records (transport c) ("query"%string, []) locator = Ok l /\ record ∈ l.
Proof.
  unfold query_recovery_records. set (all := clients pool ≫= _).
  assert (forall l acc : list bytes, NoDup acc -> let out := foldl (fun a x => if bool_decide (x ∈ a) then a else a ++ [x]) acc l in
    NoDup out /\ forall x, x ∈ out <-> x ∈ acc \/ x ∈ l) as Hfold.
  { induction l as [|x l IH]; intros acc Hnd; cbn; [set_solver|]. case_bool_decide as Hin.
    - destruct (IH acc Hnd) as [H1 H2]. split; [done|]. set_solver.
    - destruct (IH (acc ++ [x])) as [H1 H2]; [apply NoDup_app; split_and!; [done|set_solver|apply NoDup_singleton]|]. split; [done|].
      intros y. rewrite H2. set_solver. }
  destruct (Hfold all [] ltac:(constructor)) as [H1 H2]. split; [exact H1|]. intros record. rewrite (H2 record). unfold all.
  rewrite list_elem_of_bind. split.
  - intros [?|(c & Hr & Hc)]; [set_solver|]. destruct (get_recovery_records _ _ _) as [l|] eqn:E; [|set_solver]. eauto.
  - intros (c & l & Hc & E & Hr). right. exists c. by rewrite E.
Qed.

(** *** Discovery *)

(** A client that discovery may add. *)
Definition admitted_peer (env : Env) (r : Run) (c : OperatorClient) : Prop := exists at_ peer key,
  fresh_peer env (Z.max (clock r at_) 0) peer = true /\ decode_key (Peer.signing_pk_hex peer) = Some key /\ pinned_key c = Some key /\
  is_ok (get_info_pinned r at_ key c) = true.
Lemma trim_slash_idem s : Peer.trim_end_matches 47 (Peer.trim_end_matches 47 s) = Peer.trim_end_matches 47 s.
Proof.
  unfold Peer.trim_end_matches. rewrite rev_involutive. f_equal. induction (rev s) as [|c l IH]; [done|]. cbn.
  destruct (Z.eqb_spec c 47); [done|]. cbn. by destruct (Z.eqb_spec c 47).
Qed.
Definition additions_ok (env : Env) (r : Run) (existing : list str) (cs : list OperatorClient) : Prop :=
  Forall (admitted_peer env r) cs /\ NoDup (endpoint <$> cs) /\ Forall (fun c => endpoint c ∉ existing) cs.

Lemma consider_peer_ok env r dial existing i cs jp : additions_ok env r existing cs ->
  additions_ok env r existing (consider_peer env r dial existing i cs jp).
Proof.
  intros Hok. destruct jp as [j peer]. unfold consider_peer. destruct (fresh_peer _ _ _) eqn:Ef; [|done].
  destruct (negb _ && negb _) eqn:En; [|done]. destruct (decode_key _) as [key|] eqn:Ek; [|done]. destruct (is_ok _) eqn:Eo; [|done].
  destruct Hok as (H1 & H2 & H3). bool_prop. repeat match goal with H : bool_decide _ = false |- _ => apply bool_decide_eq_false_1 in H end.
  unfold additions_ok. rewrite fmap_app, !Forall_app, !Forall_singleton, NoDup_app. cbn [new_pinned with_transport pin_signing_key endpoint fmap list_fmap].
  rewrite trim_slash_idem. split_and!; try done; [by exists ("discover"%string, [i; j]), peer, key|set_solver|apply NoDup_singleton].
Qed.
Lemma discover_sound env r dial pool : NoDup (Peer.trim_end_matches 47 <$> endpoints pool) -> Forall (fun c => Peer.trim_end_matches 47 (endpoint c) = endpoint c) (clients pool) ->
  let '(n, pool') := discover_and_expand_peers env r dial pool in
  NoDup (endpoints pool') /\ blen (clients pool') = blen (clients pool) + n /\
  Forall (fun c => c ∈ clients pool \/ admitted_peer env r c) (clients pool').
Proof.
  intros Hnd Hnorm. unfold discover_and_expand_peers. set (existing := _ <$> clients pool).
  assert (additions_ok env r existing (foldl (consider_client env r dial existing) [] (enumerate (clients pool)))) as (H1 & H2 & H3).
  { assert (forall l cs, additions_ok env r existing cs -> additions_ok env r existing (foldl (consider_client env r dial existing) cs l)) as H.
    { induction l as [|[i c] l IH]; intros cs Hcs; [done|]. apply IH. unfold consider_client. destruct (get_peers _) as [peers|]; [|done].
      generalize (enumerate peers). intros ps. revert cs Hcs. induction ps as [|p ps IHp]; intros cs Hcs; [done|]. by apply IHp, consider_peer_ok. }
    apply H. by repeat split; constructor. }
  assert (existing = endpoints pool) as Ee.
  { unfold existing, endpoints. clear -Hnorm. induction Hnorm as [|c l E _ IH]; [done|]. by rewrite !fmap_cons, IH, E. }
  rewrite Ee in *. unfold endpoints. cbn [clients]. split_and!.
  - rewrite fmap_app. apply NoDup_app. split_and!; [|intros e He (c & -> & Hc)%list_elem_of_fmap; rewrite Forall_forall in H3; by eapply H3|done].
    unfold endpoints in Hnd, Ee. rewrite <-list_fmap_compose in Hnd. unfold existing in Ee. unfold compose in Hnd. by rewrite Ee in Hnd.
  - by rewrite blen_app.
  - apply Forall_app. split; [apply Forall_forall; auto|]. eapply Forall_impl; [exact H1|]. auto.
Qed.

(** *** The order of completion *)

Lemma collect_all required pending : forall receipts keys, NoDup (key_of <$> successes pending) ->
  Forall (fun o => key_of o ∉ keys) (successes pending) -> required <= blen receipts + blen (successes pending) ->
  collect required pending receipts keys = receipts ++ (filed <$> successes pending).
Proof.
  assert (forall l, blen (successes l) <= blen l) as Hle.
  { intros l. unfold successes, blen. induction l as [|[o|] l IH]; cbn [omap list_omap length]; cbn; lia. }
  induction pending as [|o rest IH]; intros receipts keys Hnd Hk Hr; cbn [collect]; [by rewrite app_nil_r|].
  destruct o as [[[pk e] rc]|].
  - change (successes (Some (pk, e, rc) :: rest)) with ((pk, e, rc) :: successes rest) in *. rewrite fmap_cons in Hnd. apply NoDup_cons in Hnd as [Hn Hnd].
    apply Forall_cons in Hk as [Hpk Hk]. rewrite bool_decide_eq_false_2 by done.
    assert (blen (receipts ++ [(e, rc)]) = blen receipts + 1) as El by (rewrite blen_app; done).
    unfold blen in Hr. cbn [length] in Hr. specialize (Hle rest). unfold blen in Hle, El |- *.
    assert ((Z.of_nat (length (receipts ++ [(e, rc)])) + Z.of_nat (length rest) <? required) = false) as -> by (apply Z.ltb_ge; lia).
    rewrite IH; [by rewrite <-app_assoc|done| |unfold blen; lia].
    apply Forall_forall. intros x Hx. rewrite Forall_forall in Hk. specialize (Hk x Hx).
    assert (key_of x <> pk) by (intros <-; apply Hn, list_elem_of_fmap; by exists x). set_solver.
  - change (successes (None :: rest)) with (successes rest) in *. specialize (Hle rest).
    replace (blen receipts + blen rest <? required) with false by lia. by apply IH.
Qed.

Lemma sort_filed_perm (a b : list (str * LeaseReceipt)) : NoDup ((fun x => Lease.operator_id x.2) <$> a) -> a ≡ₚ b -> sort by_operator a = sort by_operator b.
Proof.
  intros Hnd Hp. set (R := fun x y => by_operator x y = true).
  assert (forall x y, by_operator x y = false -> by_operator y x = true) as Ht by (intros x y; apply lex_le_total).
  assert (forall x y z, by_operator x y = true -> by_operator y z = true -> by_operator x z = true) as Htr by (intros x y z; apply lex_le_trans).
  apply (StronglySorted_unique_strong R).
  - intros x y Hx Hy H1 H2. rewrite sort_perm in Hx, Hy. rewrite <-Hp in Hy.
    assert (Lease.operator_id x.2 = Lease.operator_id y.2) as E by (by apply lex_le_anti).
    apply list_elem_of_lookup in Hx as (i & Hi), Hy as (j & Hj).
    assert (i = j) as <-; [|congruence]. eapply NoDup_lookup; [exact Hnd| |]; rewrite list_lookup_fmap; [by rewrite Hi|by rewrite Hj, E].
  - by apply sort_strongly_sorted.
  - by apply sort_strongly_sorted.
  - by rewrite !sort_perm.
Qed.

(** When the operators that succeed have different keys and different names, the receipts do not depend on the order in which the pipelines complete. *)
Lemma completion_order r schedule schedule' vault_id signing_key k required pool receipts :
  (forall l, schedule l ≡ₚ l) -> (forall l, schedule' l ≡ₚ l) ->
  NoDup (key_of <$> successes (outcomes r vault_id signing_key k pool)) ->
  NoDup ((fun o => Lease.operator_id o.2) <$> successes (outcomes r vault_id signing_key k pool)) ->
  replicate_and_verify_inner r schedule vault_id signing_key k required pool = Ok receipts ->
  replicate_and_verify_inner r schedule' vault_id signing_key k required pool = Ok receipts.
Proof.
  intros Hs Hs' Hk Hn [Hq ->]%(inner_ok r schedule Hs). apply (inner_ok r schedule' Hs'). split; [done|].
  set (os := outcomes r vault_id signing_key k pool) in *.
  assert (forall s, (forall l, s l ≡ₚ l) -> successes (s os) ≡ₚ successes os) as Hp by (intros s H; unfold successes; by rewrite H).
  assert (Z.of_nat (size (keys_of os)) <= blen (successes os)) as Hsz.
  { unfold keys_of. rewrite size_list_to_set by done. unfold blen. by rewrite length_fmap. }
  assert (forall s, (forall l, s l ≡ₚ l) -> collect required (s os) [] ∅ = filed <$> successes (s os)) as Hc.
  { intros s H. rewrite collect_all; [done| | |].
    - by rewrite (Hp s H).
    - apply Forall_true. intros x. set_solver.
    - unfold blen in *. rewrite (Hp s H). cbn. lia. }
  rewrite (Hc schedule Hs), (Hc schedule' Hs'). apply sort_filed_perm.
  - rewrite <-list_fmap_compose. rewrite (Hp schedule Hs). exact Hn.
  - by rewrite (Hp schedule Hs), (Hp schedule' Hs').
Qed.
End Client.

(** ** A sample pool *)

Definition sample_identity_json (f : identity_fields) : bytes := let '(id, pk, _, terms, _) := f in as_bytes id ++ as_bytes pk ++ as_bytes terms.
Definition sample_lease_json (f : Lease.signed_fields) : bytes := let '(id, op, digest, _, _, _, _) := f in as_bytes id ++ as_bytes op ++ as_bytes digest.
Definition sample_closure : Closure :=
  {| objects := [(sha256 [1; 2; 3], [1; 2; 3]); (sha256 [9], [9])]; closure_digest := sha256 [4]; total_bytes := 4; term_days := 90;
     locator := [6]; head_record_bytes := [7; 7]; recovery_records := [[8]] |}.
Definition sample_run : Run := {| clock _ := 1000; nonce at_ := replicate 32 (Z.of_nat (length at_.2)) |}.

Definition sample_info (sk : bytes) (name : str) : OperatorInfo :=
  let unsigned := {| operator_id := name; operator_signing_pk_hex := hex_encode (verifying_key sk); supported_version := 1;
                     retention_terms := lit "90-day"; identity_signature_hex := []; identity_expires_at_utc := 5000 |} in
  {| operator_id := name; operator_signing_pk_hex := hex_encode (verifying_key sk); supported_version := 1; retention_terms := lit "90-day";
     identity_signature_hex := hex_encode (sign_with_domain sk identity_domain (identity_signing_bytes sample_identity_json unsigned));
     identity_expires_at_utc := 5000 |}.
Definition sample_proof (sk : bytes) (name : str) (cid nonce_ data : bytes) : Pos.ProofOfStorageReceipt :=
  let unsigned := {| Pos.operator_id := name; Pos.cid_hex := hex_encode cid; Pos.nonce_hex := hex_encode nonce_;
                     Pos.proof_hex := hex_encode (Pos.compute_pos_proof cid nonce_ data); Pos.signature_hex := []; Pos.size_bytes := blen data |} in
  {| Pos.operator_id := name; Pos.cid_hex := hex_encode cid; Pos.nonce_hex := hex_encode nonce_;
     Pos.proof_hex := hex_encode (Pos.compute_pos_proof cid nonce_ data);
     Pos.signature_hex := hex_encode (sign_with_domain sk Pos.pos_domain (Pos.signing_bytes unsigned)); Pos.size_bytes := blen data |}.
Definition sample_lease (sk : bytes) (name : str) (digest : bytes) (n days : Z) : LeaseReceipt :=
  let unsigned := {| Lease.lease_id := lit "lease"; Lease.operator_id := name; Lease.closure_digest_hex := hex_encode digest; Lease.term_days := days;
                     Lease.bytes_ := n; Lease.issued_at_utc := 1000; Lease.expires_at_utc := 9000; Lease.signature_hex := [] |} in
  Lease.with_signature unsigned (hex_encode (sign_with_domain sk Lease.lease_domain (Lease.signing_bytes sample_lease_json unsigned))).

Definition honest (sk : bytes) (name : str) : OperatorTransport :=
  let stored cid := default [] (snd <$> head (List.filter (fun o => bool_decide (o.1 = cid)) (objects sample_closure))) in
  {| request_challenge _ := Ok {| ch_challenge_id := lit "c"; ch_nonce_hex := lit "0506"; ch_expires_at_utc := 2000 |};
     redeem_session _ := Ok {| se_token := lit "t"; se_expires_at_utc := 2000 |};
     fetch_info _ := Ok (sample_info sk name);
     send_object _ _ _ _ := Ok tt;
     fetch_object_bytes _ _ cid := Ok (stored cid);
     challenge_object_pos _ _ cid nonce_ := Ok (sample_proof sk name cid nonce_ (stored cid));
     commit_lease _ digest n days := Ok (sample_lease sk name digest n days);
     ask_renewal _ _ _ _ _ := Err InvalidReceiptSignature;
     append_recovery_record _ _ _ _ := Ok 1;
     get_recovery_records _ _ := Ok [[8]; [7; 7]];
     get_peers := Ok [] |}.
(** An operator that answers a challenge of storage with a proof over other data. *)
Definition forgetful (sk : bytes) (name : str) : OperatorTransport :=
  let t := honest sk name in
  {| request_challenge := request_challenge t; redeem_session := redeem_session t; fetch_info := fetch_info t; send_object := send_object t;
     fetch_object_bytes := fetch_object_bytes t; challenge_object_pos _ _ cid nonce_ := Ok (sample_proof sk name cid nonce_ []);
     commit_lease := commit_lease t; ask_renewal := ask_renewal t; append_recovery_record := append_recovery_record t; get_recovery_records := get_recovery_records t;
     get_peers := get_peers t |}.

Definition sample_pool : MultiOperatorPool :=
  from_clients [with_transport (lit "http://b") (honest (replicate 32 2) (lit "op-b")); with_transport (lit "http://a/") (honest (replicate 32 1) (lit "op-a"));
                with_transport (lit "http://d") (forgetful (replicate 32 4) (lit "op-d")); with_transport (lit "http://c") (honest (replicate 32 3) (lit "op-c"))].
Definition replicate_sample (schedule : list Outcome -> list Outcome) (required : Z) (pool : MultiOperatorPool) : result StorageError (list (str * LeaseReceipt)) :=
  replicate_and_verify_inner sample_identity_json sample_lease_json sample_run schedule (replicate 32 7) (replicate 32 8) sample_closure required pool.

Definition filed_at (x : result StorageError (list (str * LeaseReceipt))) : option (list str) :=
  match x with Ok l => Some (fst <$> l) | Err _ => None end.

Lemma rev_schedule (l : list Outcome) : rev l ≡ₚ l.
Proof. symmetry. apply Permutation_rev. Qed.

Example three_of_four : filed_at (replicate_sample (@rev Outcome) 3 sample_pool) =
  Some [lit "http://a"; lit "http://b"; lit "http://c"] /\ replicate_sample (@rev Outcome) 4 sample_pool = Err (QuorumDeficit 4 0).
Proof. vm_compute. split; reflexivity. Qed.

Lemma quorum_exact_witness : is_ok (replicate_sample (@rev Outcome) 3 sample_pool) = true.
Proof.
  unfold replicate_sample.
  apply (proj2 (quorum_exact sample_identity_json sample_lease_json sample_run (@rev Outcome) rev_schedule (replicate 32 7) (replicate 32 8)
    sample_closure 3 sample_pool)).
  apply Z.leb_le. vm_compute. reflexivity.
Defined.
Lemma sample_replicated : is_ok (replicate_and_verify_inner sample_identity_json sample_lease_json sample_run (@rev Outcome) (replicate 32 7) (replicate 32 8)
    sample_closure 3 sample_pool) = true.
Proof. vm_compute. reflexivity. Qed.
Lemma replicated_quorum_witness : exists held : list (OperatorClient * str * bytes * LeaseReceipt), 3 <= blen held /\
  NoDup ((fun '(_, _, pk, _) => pk) <$> held) /\
  Forall (fun '(client, token, pk, receipt) => holds_closure sample_identity_json sample_lease_json sample_run sample_closure client token pk receipt) held.
Proof.
  pose proof sample_replicated as Hok. destruct (replicate_and_verify_inner sample_identity_json sample_lease_json sample_run (@rev Outcome) (replicate 32 7) (replicate 32 8)
    sample_closure 3 sample_pool) as [receipts|e] eqn:E; [|discriminate Hok]. clear Hok.
  destruct (replicated_quorum sample_identity_json sample_lease_json sample_run (@rev Outcome) rev_schedule (replicate 32 7) (replicate 32 8)
    sample_closure 3 sample_pool receipts E) as (held & H1 & _ & H3 & H4).
  exists held. split; [exact H1|]. split; [exact H3|]. eapply Forall_impl; [exact H4|]. intros [[[c t] pk] rc] [_ H]. exact H.
Defined.

(** Two endpoints of one operator: which of them is filed depends on the order of completion. *)
Definition mirrored_pool : MultiOperatorPool :=
  from_clients [with_transport (lit "http://a") (honest (replicate 32 1) (lit "op-a")); with_transport (lit "http://mirror") (honest (replicate 32 1) (lit "op-a"))].
Example completion_order_leaks :
  filed_at (replicate_sample id 1 mirrored_pool) = Some [lit "http://a"] /\
  filed_at (replicate_sample (@rev Outcome) 1 mirrored_pool) = Some [lit "http://mirror"].
Proof. vm_compute. split; reflexivity. Qed.
