(* ===== verification/Approval.v ===== *)
(** * Out-of-band approvals

    src/crates/recovery/src/approval.rs: approval challenges and signed receipts.
    Random identifiers and the clock are arguments. *)

From S2P Require Import Prelude Errors Primitives SamplePrimitives Crypto.

(** [Display] of the crypto error, as the receipts embed it. *)
Definition crypto_display (e : CryptoError) : str :=
  match e with
  | AuthTagVerificationFailed =>
      lit "Authentication tag verification failed: ciphertext or AAD tampered"
  | InvalidKeyLength x a => lit "Invalid key length: expected " ++ show_Z x ++ lit ", got " ++ show_Z a
  | InvalidNonceLength x a => lit "Invalid nonce length: expected " ++ show_Z x ++ lit ", got " ++ show_Z a
  | InvalidKdfContext => lit "KDF context must be exactly 8 bytes"
  | SignatureVerificationFailed => lit "Cryptographic signature verification failed"
  | SealedBoxPayloadTooShort m => lit "Sealed box payload too short: minimum length " ++ show_Z m
  | NonContributoryKeyAgreement =>
      lit "Sealed box key agreement rejected a non-contributory X25519 public key"
  | PasswordHashError m => lit "Argon2 password hashing error: " ++ lit m
  | RngError m => lit "Randomness generation error: " ++ lit m
  | HsmError m => lit "Hardware Security Module error: " ++ lit m
  | ThresholdError m => lit "Threshold secret sharing error: " ++ lit m
  end.

(** The variants of [RecoveryError] the module uses. *)
Inductive ApprovalError : Type :=
| InvalidSignature (msg : str)
| InvalidChallenge (msg : str).

Inductive ApprovalAction : Type := EmergencyRecovery | KeyRotation | SnapshotRollback | GuardianRevocation.

(** [format!("{:?}", action)] *)
Definition action_debug (a : ApprovalAction) : string :=
  match a with
  | EmergencyRecovery => "EmergencyRecovery"
  | KeyRotation => "KeyRotation"
  | SnapshotRollback => "SnapshotRollback"
  | GuardianRevocation => "GuardianRevocation"
  end.

Record ApprovalChallenge : Type := {
  challenge_id : str; vault_id_hex : str; action : ApprovalAction; requester_device_id_hex : str;
  nonce_hex : str; created_at_utc : Z; expires_at_utc : Z; details : str;
}.

Record SignedApprovalReceipt : Type := {
  r_challenge_id : str; approver_name : str; approver_pk_hex : str; approved_at_utc : Z;
  signature_hex : str;
}.

Definition approval_domain : bytes := lit "out_of_band_approval".

Section Approval.
Context {HX : Hex} {ED : Ed25519}.

Definition new (id_bytes nonce_bytes : bytes) (now : Z) (vault_id : bytes) (action : ApprovalAction)
  (requester_device_id : bytes) (details : str) (validity_seconds : Z) : ApprovalChallenge :=
  {| challenge_id := hex_encode id_bytes; vault_id_hex := hex_encode vault_id; action := action;
     requester_device_id_hex := hex_encode requester_device_id; nonce_hex := hex_encode nonce_bytes;
     created_at_utc := now; expires_at_utc := wrap64 (now + validity_seconds); details := details |}.

Definition challenge_bytes (self : ApprovalChallenge) : bytes :=
  lit "CipherVault-ApprovalChallenge-v1:" ++ as_bytes (challenge_id self) ++ lit ":"
  ++ as_bytes (vault_id_hex self) ++ lit ":" ++ lit (action_debug (action self)) ++ lit ":"
  ++ as_bytes (requester_device_id_hex self) ++ lit ":" ++ as_bytes (nonce_hex self) ++ lit ":"
  ++ to_le_bytes 8 (expires_at_utc self) ++ lit ":" ++ as_bytes (details self).

Definition is_expired (now : Z) (self : ApprovalChallenge) : bool := now >? expires_at_utc self.

Definition compute_signing_bytes (challenge : ApprovalChallenge) (approver_name approver_pk_hex : str)
  (approved_at_utc : Z) : bytes :=
  challenge_bytes challenge ++ lit ":" ++ as_bytes approver_name ++ lit ":"
  ++ as_bytes approver_pk_hex ++ lit ":" ++ to_le_bytes 8 approved_at_utc.

Definition receipt_bytes (self : SignedApprovalReceipt) (challenge : ApprovalChallenge) : bytes :=
  compute_signing_bytes challenge (approver_name self) (approver_pk_hex self) (approved_at_utc self).

Definition sign (now : Z) (challenge : ApprovalChallenge) (approver_name : str) (signing_key : bytes)
  : SignedApprovalReceipt :=
  let pk_hex := hex_encode (verifying_key signing_key) in
  let msg := compute_signing_bytes challenge approver_name pk_hex now in
  {| r_challenge_id := challenge_id challenge; approver_name := approver_name;
     approver_pk_hex := pk_hex; approved_at_utc := now;
     signature_hex := hex_encode (sign_with_domain signing_key approval_domain msg) |}.

Definition verify (now : Z) (self : SignedApprovalReceipt) (challenge : ApprovalChallenge)
  : result ApprovalError unit :=
  bail? negb (bool_decide (r_challenge_id self = challenge_id challenge))
    with InvalidSignature (lit "Receipt challenge ID does not match challenge") ;;
  bail? is_expired now challenge with InvalidChallenge (lit "Approval challenge has expired") ;;
  let? pk_bytes := map_err (fun e => InvalidSignature (lit "Invalid approver public key hex: " ++ lit e))
                     (hex_decode (approver_pk_hex self)) in
  bail? negb (blen pk_bytes =? 32) with InvalidSignature (lit "Approver public key must be 32 bytes") ;;
  let? sig_bytes := map_err (fun e => InvalidSignature (lit "Invalid signature hex: " ++ lit e))
                      (hex_decode (signature_hex self)) in
  bail? negb (blen sig_bytes =? 64) with InvalidSignature (lit "Approval signature must be 64 bytes") ;;
  map_err (fun e => InvalidSignature (lit "Approval signature invalid: " ++ crypto_display e))
    (verify_with_domain pk_bytes approval_domain (receipt_bytes self challenge) sig_bytes).

Context {HL : HexLaws HX} {EL : Ed25519Laws ED}.

(** A receipt verifies when its signature was made over the same bytes. *)
Lemma verify_resigned now r c sk :
  r_challenge_id r = challenge_id c -> approver_pk_hex r = hex_encode (verifying_key sk) ->
  signature_hex r = hex_encode (sign_with_domain sk approval_domain (receipt_bytes r c)) ->
  (verify now r c = Ok tt <-> now <= expires_at_utc c).
Proof.
  intros Hid Hpk Hsig. unfold verify, is_expired. rewrite Hid, bool_decide_true, Hpk, Hsig by done.
  rewrite !hex_decode_encode by (apply verifying_key_bytes || apply ed_sign_bytes). cbn [negb map_err res_bind].
  unfold blen, sign_with_domain at 1. rewrite verifying_key_length, ed_sign_length, verify_sign_with_domain.
  rewrite Z.gtb_ltb. destruct (_ <? now) eqn:E; bool_prop; simpl; split; (done || lia).
Qed.
End Approval.

(** A signed receipt verifies for its own challenge exactly until the
    challenge expires, and never for a challenge with another identifier. *)
Theorem receipt_sign_verify {HX : Hex} {HL : HexLaws HX} {ED : Ed25519} {EL : Ed25519Laws ED}
  signed_at now c c' name sk :
  (verify now (sign signed_at c name sk) c = Ok tt <-> now <= expires_at_utc c) /\
  (challenge_id c' <> challenge_id c -> is_ok (verify now (sign signed_at c name sk) c') = false).
Proof.
  split; [by apply verify_resigned with (sk := sk)|]. intros Hne. unfold verify. simpl.
  by rewrite bool_decide_false.
Qed.

Definition demo_challenge (details : str) : ApprovalChallenge :=
  new (replicate 16 1) (replicate 32 2) 1000 (replicate 32 3) KeyRotation (replicate 32 4) details 600.

Lemma receipt_sign_verify_witness :
  verify 1600 (sign 1100 (demo_challenge (lit "rotate")) (lit "ada") (replicate 32 7)) (demo_challenge (lit "rotate")) = Ok tt.
Proof.
  apply (proj1 (receipt_sign_verify 1100 1600 (demo_challenge (lit "rotate")) (demo_challenge []) (lit "ada") (replicate 32 7))).
  vm_compute. discriminate.
Defined.

Definition with_details (c : ApprovalChallenge) (d : str) : ApprovalChallenge :=
  {| challenge_id := challenge_id c; vault_id_hex := vault_id_hex c; action := action c;
     requester_device_id_hex := requester_device_id_hex c; nonce_hex := nonce_hex c;
     created_at_utc := created_at_utc c; expires_at_utc := expires_at_utc c; details := d |}.

Lemma as_bytes_app s t : as_bytes (s ++ t) = as_bytes s ++ as_bytes t.
Proof. unfold as_bytes. by rewrite bind_app. Qed.

(** The signed bytes do not separate the free-text details from the approver's
    name: a receipt for details [d:x] by [name] is, with the same signature, a
    receipt for details [d] by [x:name]. *)
Theorem approval_text_ambiguous {HX : Hex} {HL : HexLaws HX} {ED : Ed25519} {EL : Ed25519Laws ED}
  signed_at now c (d x name : str) sk :
  now <= expires_at_utc c ->
  let r := sign signed_at (with_details c (d ++ lit ":" ++ x)) name sk in
  let r' := {| r_challenge_id := r_challenge_id r; approver_name := x ++ lit ":" ++ name;
               approver_pk_hex := approver_pk_hex r; approved_at_utc := approved_at_utc r;
               signature_hex := signature_hex r |} in
  verify now r' (with_details c d) = Ok tt.
Proof.
  intros Hnow r r'.
  assert (receipt_bytes r' (with_details c d) = receipt_bytes r (with_details c (d ++ lit ":" ++ x))) as E.
  { unfold receipt_bytes, compute_signing_bytes, challenge_bytes.
    cbn [r' r sign with_details details approver_name approver_pk_hex approved_at_utc challenge_id
         vault_id_hex action requester_device_id_hex nonce_hex expires_at_utc].
    rewrite !as_bytes_app, <- !app_assoc. reflexivity. }
  apply (verify_resigned now r' (with_details c d) sk); [done|done| |done]. by rewrite E.
Qed.
