(* ===== verification/Anchor.v ===== *)
(** * Anchoring client

    src/crates/storage/src/chain.rs: the calls of the registry contract, the reading of
    what an Ethereum node answers, and the evaluation of an anchor from it.

    A node is a function from a method and its parameters to an HTTP reply; the body is
    a JSON tree.  The relayer client of the same file only forwards HTTP. *)

From S2P Require Import Prelude Errors Primitives Schema Shamir OperatorCore.

(** ** What a node answers *)

Inductive Json : Type :=
| JNull
| JBool (b : bool)
| JNumber (n : Z)
| JString (s : str)
| JArray (l : list Json)
| JObject (fields : list (string * Json)).
(** [value["key"]]: null when there is no such member. *)
Fixpoint field_of (fields : list (string * Json)) (key : string) : option Json :=
  match fields with
  | [] => None
  | (k, v) :: rest => if bool_decide (k = key) then Some v else field_of rest key
  end.
Definition get (v : Json) (key : string) : option Json :=
  match v with JObject fields => field_of fields key | _ => None end.
Definition at_key (v : Json) (key : string) : Json := default JNull (get v key).
Definition as_str (v : Json) : option str := match v with JString s => Some s | _ => None end.
Definition as_array (v : Json) : option (list Json) := match v with JArray l => Some l | _ => None end.
Definition is_null (v : Json) : bool := match v with JNull => true | _ => false end.

Inductive HttpReply : Type :=
| NoReply (msg : string)
| Reply (status : Z) (body : result string Json).
Definition Rpc : Type := string -> list str -> HttpReply.

Definition is_success (status : Z) : bool := (200 <=? status) && (status <=? 299).
(** [send().await?], the status check, and [json().await?]. *)
Definition call (rpc : Rpc) (method : string) (params : list str) (failed : str) : result StorageError Json :=
  match rpc method params with
  | NoReply msg => Err (HttpError msg)
  | Reply status body =>
      bail? negb (is_success status) with ServerError status failed ;;
      map_err HttpError body
  end.

(** [u64::from_str_radix(s, 16)]: digit by digit, a bad digit before an overflow. *)
Definition hex_digit (c : Z) : option Z :=
  if is_ascii_digit c then Some (c - 48)
  else if (97 <=? c) && (c <=? 102) then Some (c - 87)
  else if (65 <=? c) && (c <=? 70) then Some (c - 55) else None.
Fixpoint radix16 (acc : Z) (s : str) : result string Z :=
  match s with
  | [] => Ok acc
  | c :: rest =>
      match hex_digit c with
      | None => Err "invalid digit found in string"%string
      | Some d => if acc * 16 + d >? u64_max then Err "number too large to fit in target type"%string
                  else radix16 (acc * 16 + d) rest
      end
  end.
Definition from_str_radix_16 (s : str) : result string Z :=
  match s with
  | [] => Err "cannot parse integer from empty string"%string
  | 43 :: [] => Err "invalid digit found in string"%string
  | 43 :: rest => radix16 0 rest
  | _ => radix16 0 s
  end.

(** ** Receipts and reports *)

Inductive AnchorFinalityStage : Type :=
| Pending
| SequencerConfirmed (block_number : Z)
| L2Confirmed (block_number : Z)
| DeeplyConfirmed (block_number : Z).
#[export] Instance AnchorFinalityStage_eq_dec : EqDecision AnchorFinalityStage.
Proof. solve_decision. Defined.

Record ReceiptLog : Type := { address : bytes; topics : list bytes }.
Record TransactionReceipt : Type := {
  transaction_hash : bytes; block_number : Z; status : bool; to : bytes; receipt_logs : list ReceiptLog;
}.
Record AnchorVerificationReport : Type := {
  commitment_hex : str; preimage_valid : bool; contract_address_hex : str; report_chain_id : Z;
  recorded_block_number : Z; current_chain_block : Z; finality_stage : AnchorFinalityStage;
  on_chain_confirmed : bool; receipt_verified : bool; receipt_block_number : option Z; report_tx_hash_hex : str;
}.

Definition COMMITMENT_PUBLISHED_TOPIC : bytes :=
  [0x41; 0x1d; 0x96; 0x20; 0xa5; 0x5d; 0xe9; 0xc9; 0xaf; 0x8c; 0x06; 0x20; 0x74; 0x43; 0x8b; 0xac;
   0x6f; 0x30; 0xb3; 0xec; 0xb3; 0xef; 0xaa; 0xac; 0x8a; 0xd1; 0x2b; 0xa2; 0xce; 0xe0; 0x2d; 0xaa].

Definition receipt_binds_commitment (receipt : TransactionReceipt) (registry_address commitment : bytes) : bool :=
  bool_decide (to receipt = registry_address)
  && existsb (fun log => bool_decide (address log = registry_address)
                         && bool_decide (topics log !! 0%nat = Some COMMITMENT_PUBLISHED_TOPIC)
                         && bool_decide (topics log !! 1%nat = Some commitment)) (receipt_logs receipt).

Definition evaluate_anchor_confirmation (preimage_valid tx_hash_present : bool) (receipt : option TransactionReceipt)
  (contract_block : option Z) (current_block : Z) (registry_address commitment : bytes)
  : bool * bool * AnchorFinalityStage :=
  let receipt_ok := match receipt with Some receipt => status receipt | None => false end in
  let receipt_bound := match receipt with
                       | Some receipt => receipt_binds_commitment receipt registry_address commitment
                       | None => false
                       end in
  let receipt_verified := tx_hash_present && receipt_ok && receipt_bound && bool_decide (is_Some contract_block) in
  let on_chain_confirmed := bool_decide (is_Some contract_block) && receipt_verified in
  if negb preimage_valid || negb on_chain_confirmed then (receipt_verified, on_chain_confirmed, Pending) else
  let effective_block := default current_block (block_number <$> receipt) in
  let confirmations := sat_sub current_block effective_block in
  let finality_stage := if confirmations >=? 50400 then DeeplyConfirmed effective_block
                        else if confirmations >=? 64 then L2Confirmed effective_block
                        else SequencerConfirmed effective_block in
  (receipt_verified, on_chain_confirmed, finality_stage).

(** ** The client *)

Class Keccak256 : Type := { keccak256 : bytes -> bytes }.

Section Client.
Context {HX : Hex} {KE : Keccak256} {SH : Sha256}.
Variables (rpc : Rpc) (chain_id : Z) (contract_address : bytes).

Definition decode_hex_fixed (n : nat) (value : str) : option bytes :=
  let clean := trim_0x value in
  if negb (str_len clean =? 2 * Z.of_nat n) then None else
  match hex_decode clean with Ok b => Some b | Err _ => None end.

Definition compute_selector (signature : string) : bytes := take 4 (keccak256 (lit signature)).
Definition encode_publish_calldata (commitment : bytes) : bytes := compute_selector "publish(bytes32)" ++ commitment.
Definition encode_get_first_seen_calldata (commitment : bytes) : bytes :=
  compute_selector "getFirstSeenBlock(bytes32)" ++ commitment.
Definition hex0x (b : bytes) : str := lit "0x" ++ hex_encode b.

Definition get_block_number : result StorageError Z :=
  let? body := call rpc "eth_blockNumber" [] (lit "Failed to fetch block number") in
  match as_str (at_key body "result") with
  | None => Err (ServerError 500 (lit "Missing result in eth_blockNumber"))
  | Some hex_str => map_err (fun e => ServerError 500 (lit "Invalid hex block number: " ++ lit e))
                      (from_str_radix_16 (trim_0x hex_str))
  end.

Definition query_first_seen_block (commitment : bytes) : result StorageError (option Z) :=
  let? body := call rpc "eth_call" [hex0x contract_address; hex0x (encode_get_first_seen_calldata commitment)]
                 (lit "eth_call failed") in
  match as_str (at_key body "result") with
  | None => Ok None
  | Some res_str =>
      let trimmed := trim_0x res_str in
      if bool_decide (trimmed = []) || forallb (fun c => c =? 48) trimmed then Ok None else
      let? block := map_err (fun e => ServerError 500 (lit "Invalid hex block number from contract: " ++ lit e))
                      (from_str_radix_16 trimmed) in
      if block =? 0 then Ok None else Ok (Some block)
  end.

Definition decode_log (entry : Json) : option ReceiptLog :=
  address ← as_str (at_key entry "address") ≫= decode_hex_fixed 20;
  Some {| address := address;
          topics := omap (fun t => as_str t ≫= decode_hex_fixed 32) (default [] (as_array (at_key entry "topics"))) |}.
Definition decode_receipt (tx_hash : bytes) (res : Json) : TransactionReceipt :=
  let block_hex := default (lit "0x0") (as_str (at_key res "blockNumber")) in
  let status_hex := default (lit "0x0") (as_str (at_key res "status")) in
  {| transaction_hash := tx_hash;
     block_number := match from_str_radix_16 (trim_0x block_hex) with Ok n => n | Err _ => 0 end;
     status := bool_decide (status_hex = lit "0x1") || bool_decide (status_hex = lit "0x01") || bool_decide (status_hex = lit "1");
     to := default (replicate 20 0) (as_str (at_key res "to") ≫= decode_hex_fixed 20);
     receipt_logs := omap decode_log (default [] (as_array (at_key res "logs"))) |}.
Definition get_transaction_receipt (tx_hash : bytes) : result StorageError (option TransactionReceipt) :=
  let? body := call rpc "eth_getTransactionReceipt" [hex0x tx_hash] (lit "Failed to fetch transaction receipt") in
  Ok (if is_null (at_key body "result") then None else Some (decode_receipt tx_hash (at_key body "result"))).

Definition send_raw_transaction (raw_tx_hex : str) : result StorageError bytes :=
  let formatted_hex := if starts_with (lit "0x") raw_tx_hex then raw_tx_hex else lit "0x" ++ raw_tx_hex in
  let? body := call rpc "eth_sendRawTransaction" [formatted_hex] (lit "eth_sendRawTransaction HTTP request failed") in
  match get body "error" with
  | Some err =>
      let msg := default (lit "Unknown RPC error") (as_str (at_key err "message")) in
      Err (ServerError 400 (lit "eth_sendRawTransaction failed: " ++ msg))
  | None =>
      match as_str (at_key body "result") with
      | None => Err (ServerError 500 (lit "Missing result in eth_sendRawTransaction response"))
      | Some tx_hash_str =>
          let? hash_bytes := map_err (fun e => ServerError 500 (lit "Invalid hex in transaction hash: " ++ lit e))
                               (hex_decode (trim_0x tx_hash_str)) in
          bail? negb (blen hash_bytes =? 32)
            with ServerError 500 (lit "Invalid transaction hash length: expected 32 bytes, got " ++ show_Z (blen hash_bytes)) ;;
          Ok hash_bytes
      end
  end.

Definition ok_or {A} (r : result StorageError A) (d : A) : A := match r with Ok a => a | Err _ => d end.
Definition tx_hash_present (tx_hash : bytes) : bool := (blen tx_hash =? 32) && existsb (fun b => negb (b =? 0)) tx_hash.

Definition verify_evidence (evidence : Checkpoint.CheckpointEvidence) : result StorageError AnchorVerificationReport :=
  bail? negb (Checkpoint.chain_id evidence =? chain_id)
    with ServerError 400 (lit "Checkpoint chain id " ++ show_Z (Checkpoint.chain_id evidence)
                          ++ lit " does not match configured chain " ++ show_Z chain_id) ;;
  bail? negb (blen (Checkpoint.contract_address evidence) =? 20)
        || negb (bool_decide (Checkpoint.contract_address evidence = contract_address))
    with ServerError 400 (lit "Checkpoint contract address does not match the configured registry") ;;
  let preimage_valid := Checkpoint.verify_commitment evidence in
  let commitment_arr := if blen (Checkpoint.commitment evidence) =? 32 then Checkpoint.commitment evidence else replicate 32 0 in
  let current_block := ok_or get_block_number (Checkpoint.block_number evidence) in
  let contract_block := ok_or (query_first_seen_block commitment_arr) None in
  let present := tx_hash_present (Checkpoint.tx_hash evidence) in
  let receipt := if present then ok_or (get_transaction_receipt (Checkpoint.tx_hash evidence)) None else None in
  let '(receipt_verified, on_chain_confirmed, finality_stage) :=
    evaluate_anchor_confirmation preimage_valid present receipt contract_block current_block contract_address commitment_arr in
  Ok {| commitment_hex := hex_encode (Checkpoint.commitment evidence); preimage_valid := preimage_valid;
        contract_address_hex := hex_encode (Checkpoint.contract_address evidence);
        report_chain_id := Checkpoint.chain_id evidence; recorded_block_number := Checkpoint.block_number evidence;
        current_chain_block := current_block; finality_stage := finality_stage; on_chain_confirmed := on_chain_confirmed;
        receipt_verified := receipt_verified; receipt_block_number := block_number <$> receipt;
        report_tx_hash_hex := hex_encode (Checkpoint.tx_hash evidence) |}.
End Client.
