(* ===== verification/OperatorRelay.v ===== *)
(** * Relayed checkpoints and approval challenges of the operator

    The two registries of src/services/operator/src/state.rs that are kept in memory and
    rewritten whole on every change: receipts of checkpoints queued for the chain, and
    approval challenges with the receipts collected for them. *)

From S2P Require Import Prelude Errors Tables Primitives Crypto Schema Shamir Approval OperatorCore Anchor.

#[local] Open Scope tx_scope.

Definition MAX_RELAYED_CHECKPOINTS : Z := 5000.

Record RelayerReceipt : Type := {
  rr_commitment_hex : str; rr_tx_hash_hex : str; rr_block_number : Z; rr_status : str; rr_timestamp : Z;
}.
#[export] Instance RelayerReceipt_eq_dec : EqDecision RelayerReceipt.
Proof. solve_decision. Defined.
Definition Collected : Type := ApprovalChallenge * list SignedApprovalReceipt.

Record Relay : Type := MkRelay {
  relayed_checkpoints : gmap str RelayerReceipt;
  approval_challenges : gmap str Collected;
  checkpoint_file : option bytes;
  approval_file : option bytes;
}.
Definition with_checkpoints (t : gmap str RelayerReceipt) (s : Relay) : Relay :=
  let 'MkRelay _ a f g := s in MkRelay t a f g.
Definition with_approvals (t : gmap str Collected) (s : Relay) : Relay := let 'MkRelay c _ f g := s in MkRelay c t f g.

Record RelayCall : Type := { rl_now : string -> Z; rl_persist : PersistOutcome }.
Definition RTx (A : Type) : Type := Tx Relay str A.

Section Relay.
Context {HX : Hex} {ED : Ed25519} {SH : Sha256}.
Context {JC : JsonDoc (gmap str RelayerReceipt)} {JA : JsonDoc (gmap str Collected)}.
Variable c : RelayCall.

(** ** Checkpoints *)

Definition persist_relayed_checkpoints (records : gmap str RelayerReceipt) : RTx unit := fun s =>
  let 'MkRelay t a f g := s in
  let '(out, f') := persist_doc (rl_persist c) records f in (out, MkRelay t a f' g).
Definition unable_relay (error : str) : str := lit "Unable to persist relayed checkpoint: " ++ error.

Definition queued : str := lit "QueuedForRelay".
Definition confirmed : str := lit "SequencerConfirmed".
Definition relay_checkpoint (evidence : Checkpoint.CheckpointEvidence) : RTx RelayerReceipt :=
  if negb (Checkpoint.verify_commitment evidence)
  then tret (Err (lit "Invalid commitment preimage math: salt and head do not match commitment")) else
  let commitment_hex := hex_encode (Checkpoint.commitment evidence) in
  do table <- tget relayed_checkpoints ;;
  match table !! commitment_hex with
  | Some existing => tret (Ok existing)
  | None =>
      if Z.of_nat (size table) >=? MAX_RELAYED_CHECKPOINTS then tret (Err (lit "Relayer checkpoint capacity reached")) else
      let receipt := {| rr_commitment_hex := commitment_hex; rr_tx_hash_hex := []; rr_block_number := 0;
                        rr_status := queued; rr_timestamp := rl_now c "relay" |} in
      let inserted := <[commitment_hex := receipt]> table in
      tmodify (with_checkpoints inserted) ;;;
      tcatch (persist_relayed_checkpoints inserted) (fun error =>
        tmodify (with_checkpoints (delete commitment_hex inserted)) ;;; tret (Err (unable_relay error))) ;;;
      tret (Ok receipt)
  end.

Definition settle (tx_hash_hex : str) (block_number : Z) (status : str) (r : RelayerReceipt) : RelayerReceipt :=
  {| rr_commitment_hex := rr_commitment_hex r; rr_tx_hash_hex := tx_hash_hex; rr_block_number := block_number;
     rr_status := status; rr_timestamp := rr_timestamp r |}.

Definition confirm_relayed_checkpoint (evidence : Checkpoint.CheckpointEvidence) (report : AnchorVerificationReport)
  : RTx RelayerReceipt :=
  if negb (preimage_valid report) || negb (on_chain_confirmed report) || negb (receipt_verified report)
  then tret (Err (lit "Checkpoint has no independently verified on-chain receipt")) else
  let commitment := hex_encode (Checkpoint.commitment evidence) in
  match receipt_block_number report with
  | Some block_number =>
      if negb (bool_decide (Anchor.commitment_hex report = commitment)) || negb (tx_hash_present (Checkpoint.tx_hash evidence))
      then tret (Err (lit "Independent checkpoint receipt does not match evidence")) else
      do table <- tget relayed_checkpoints ;;
      match table !! commitment with
      | None => tret (Err (lit "Checkpoint is not queued for relay"))
      | Some previous =>
          let updated := settle (hex_encode (Checkpoint.tx_hash evidence)) block_number confirmed previous in
          let settled := <[commitment := updated]> table in
          tmodify (with_checkpoints settled) ;;;
          tcatch (persist_relayed_checkpoints settled) (fun error =>
            tmodify (with_checkpoints (<[commitment := previous]> settled)) ;;; tret (Err (unable_relay error))) ;;;
          tret (Ok updated)
      end
  | None => tret (Err (lit "Independent checkpoint receipt does not match evidence"))
  end.

Definition update_relayed_checkpoint (commitment_hex tx_hash_hex : str) (block_number : Z) (status : str)
  : RTx (option RelayerReceipt) :=
  do table <- tget relayed_checkpoints ;;
  match table !! commitment_hex with
  | None => tret (Ok None)
  | Some previous =>
      let updated := settle tx_hash_hex block_number status previous in
      let settled := <[commitment_hex := updated]> table in
      tmodify (with_checkpoints settled) ;;;
      tcatch (persist_relayed_checkpoints settled ;;; tret (Ok (Some updated))) (fun _ =>
        tmodify (with_checkpoints (<[commitment_hex := previous]> settled)) ;;; tret (Ok None))
  end.

Definition get_relayed_checkpoint (s : Relay) (commitment_hex : str) : option RelayerReceipt :=
  relayed_checkpoints s !! commitment_hex.

(** ** Approvals *)

Definition persist_approval_challenges (records : gmap str Collected) : RTx unit := fun s =>
  let 'MkRelay t a f g := s in
  let '(out, g') := persist_doc (rl_persist c) records g in (out, MkRelay t a f g').
Definition unable_approval (error : str) : str := lit "Unable to persist approval challenges: " ++ error.
Definition display_approval_error (e : ApprovalError) : str :=
  match e with
  | InvalidSignature msg => lit "Invalid cryptographic signature: " ++ msg
  | InvalidChallenge msg => lit "Invalid or expired authorization challenge: " ++ msg
  end.

Definition unexpired (now : Z) (t : gmap str Collected) : gmap str Collected :=
  filter (fun kv : str * Collected => expires_at_utc kv.2.1 > now) t.

Definition register_approval_challenge (challenge : ApprovalChallenge) : RTx unit :=
  if is_expired (rl_now c "expired") challenge then tret (Err (lit "Challenge is already expired")) else
  do kept <- tget (fun s => unexpired (rl_now c "register") (approval_challenges s)) ;;
  let inserted := <[challenge_id challenge := (challenge, [])]> kept in
  tmodify (with_approvals inserted) ;;;
  tcatch (persist_approval_challenges inserted) (fun error =>
    tmodify (with_approvals (delete (challenge_id challenge) inserted)) ;;; tret (Err (unable_approval error))).

Definition pending (now : Z) (p : Collected) : bool := (expires_at_utc p.1 >? now) && bool_decide (p.2 = []).
(** In the order of the table's iteration. *)
Definition get_pending_challenges (s : Relay) : list ApprovalChallenge :=
  (fun kv : str * Collected => kv.2.1) <$> filter (fun kv : str * Collected => pending (rl_now c "pending") kv.2) (map_to_list (approval_challenges s)).

Definition get_challenge_status (s : Relay) (id : str) : option Collected := approval_challenges s !! id.

Definition recorded (receipt : SignedApprovalReceipt) (receipts : list SignedApprovalReceipt) : bool :=
  existsb (fun r => bool_decide (approver_pk_hex r = approver_pk_hex receipt)) receipts.
Definition submit_approval_receipt (receipt : SignedApprovalReceipt) : RTx Z :=
  let id := r_challenge_id receipt in
  do table <- tget approval_challenges ;;
  match table !! id with
  | None => tret (Err (lit "Challenge ID not found or already expired"))
  | Some (challenge, receipts) =>
      tret (map_err (fun e => lit "Invalid receipt: " ++ display_approval_error e)
              (Approval.verify (rl_now c "verify") receipt challenge)) ;;;
      let collected := if recorded receipt receipts then receipts else receipts ++ [receipt] in
      let updated := <[id := (challenge, collected)]> table in
      tmodify (with_approvals updated) ;;;
      tcatch (persist_approval_challenges updated) (fun error =>
        tmodify (with_approvals (<[id := (challenge, receipts)]> updated)) ;;; tret (Err (unable_approval error))) ;;;
      tret (Ok (Z.of_nat (length collected)))
  end.

(** ** Restart *)

Definition known_status (status : str) : bool :=
  bool_decide (status ∈ [queued; confirmed; lit "ParentDataFinalized"; lit "AssertionSettled"]).
Definition load_checkpoint (commitment : str) (receipt : RelayerReceipt) : bool :=
  let tx_hash := trim_0x (rr_tx_hash_hex receipt) in
  (str_len commitment =? 64) && is_ok (hex_decode commitment) && bool_decide (rr_commitment_hex receipt = commitment)
  && (bool_decide (tx_hash = []) || ((str_len tx_hash =? 64) && is_ok (hex_decode tx_hash)))
  && known_status (rr_status receipt).
Definition load_approval (now checked : Z) (p : str * Collected) : option Collected :=
  let '(id, (challenge, receipts)) := p in
  if negb (bool_decide (challenge_id challenge = id)) || (expires_at_utc challenge <=? now) then None else
  Some (challenge, filter (fun r => bool_decide (r_challenge_id r = id) && is_ok (Approval.verify checked r challenge)) receipts).
Definition restart_relay (s : Relay) : Relay :=
  let 'MkRelay _ _ f g := s in
  MkRelay (filter (fun kv : str * RelayerReceipt => load_checkpoint kv.1 kv.2) (default ∅ (read_doc (T := gmap str RelayerReceipt) f)))
          (map_imap (fun id p => load_approval (rl_now c "load") (rl_now c "verify") (id, p)) (default ∅ (read_doc (T := gmap str Collected) g))) f g.
End Relay.
