(* ===== verification/OperatorHandlers.v ===== *)
(** * HTTP interface of the operator

    The handlers of src/services/operator/src/handlers.rs over the state of
    src/services/operator/src/state.rs as a whole: who may call what, and what a call
    does to sessions, objects, leases, recovery logs, checkpoints, approvals and peers.

    Routing, body parsing and rendering are axum's: a handler gets the parsed request and
    returns a value, or a status and a message.  Health, metrics and swarm addresses only
    report. *)

From S2P Require Import Prelude Errors Sorting Tables Primitives Crypto Schema Shamir Vouchers Invites Approval.
From S2P Require Import OperatorCore Admission OperatorAuth RecoveryLog ObjectStore Anchor OperatorRelay.

#[local] Open Scope tx_scope.

(** ** Requests *)

(** A header is absent, not readable as text, or a text. *)
Definition Headers : Type := string -> option (option str).
Definition header_str (h : Headers) (name : string) : option str := h name ≫= id.

Definition Refusal : Type := Z * str.
Definition BAD_REQUEST : Z := 400.
Definition UNAUTHORIZED : Z := 401.
Definition FORBIDDEN : Z := 403.
Definition NOT_FOUND : Z := 404.
Definition CONFLICT : Z := 409.
Definition INTERNAL_SERVER_ERROR : Z := 500.
Definition BAD_GATEWAY : Z := 502.
Definition SERVICE_UNAVAILABLE : Z := 503.

Record IdentityRequest : Type := {
  ir_vault_id_hex : str; ir_public_key_hex : str; ir_permissions : Z; ir_account_id : option str; ir_device_id_hex : option str;
}.
Record ChallengeRequest : Type := {
  cr_vault_id_hex : str; cr_public_key_hex : str; cr_account_id : option str; cr_device_id_hex : option str;
}.

(** ** State *)

Record Operator : Type := MkOperator { auth : Auth; store : Store; relay : Relay; admission : Admission }.
Definition OTx (A : Type) : Type := Tx Operator Refusal A.

Definition on_auth {E A} (m : Tx Auth E A) : Tx Operator E A := fun s =>
  let '(r, a) := m (auth s) in (r, MkOperator a (store s) (relay s) (admission s)).
Definition on_store {E A} (m : Tx Store E A) : Tx Operator E A := fun s =>
  let '(r, t) := m (store s) in (r, MkOperator (auth s) t (relay s) (admission s)).
Definition on_relay {E A} (m : Tx Relay E A) : Tx Operator E A := fun s =>
  let '(r, t) := m (relay s) in (r, MkOperator (auth s) (store s) t (admission s)).
Definition on_admission {E A} (m : Tx Admission E A) : Tx Operator E A := fun s =>
  let '(r, t) := m (admission s) in (r, MkOperator (auth s) (store s) (relay s) t).

Record HttpCall : Type := {
  hc_env : Env;
  hc_now : Z;
  hc_busy : bool;                       (* no permit is left for blocking work *)
  hc_auth : AuthCall; hc_store : StoreCall; hc_relay : RelayCall; hc_join : JoinCall;
  hc_rpc : Rpc;                         (* the configured node *)
  hc_leases : list str;                 (* listing of the lease directory *)
}.

(** ** Guards *)

Definition extract_token (h : Headers) : option str :=
  s ← header_str h "Authorization"; if starts_with (lit "Bearer ") s then Some (drop 7 s) else None.
Definition extract_vault_id (h : Headers) : option str := header_str h "X-CipherVault-Id".
Definition SERVICE_TOKEN : string := "CIPHERVAULT_OPERATOR_SERVICE_TOKEN".
Definition service_token_matches (provided expected : str) : bool := bool_decide (as_bytes provided = as_bytes expected).

Definition require_service_token (env : Env) (h : Headers) : result Refusal unit :=
  match env SERVICE_TOKEN with
  | None => Err (SERVICE_UNAVAILABLE, lit "Operator identity administration is not configured")
  | Some expected =>
      if bool_decide (expected = [])
         || is_none_or (header_str h "X-CipherVault-Service-Token") (fun provided => negb (service_token_matches provided expected))
      then Err (UNAUTHORIZED, lit "Invalid service token") else Ok tt
  end.

Section Guards.
Context {HX : Hex}.
Variable security : OperatorSecurityConfig.
Variables (env : Env) (c : AuthCall).

Definition require_session (s : Auth) (h : Headers) (write : bool) : result Refusal str :=
  match extract_token h with
  | None => Err (UNAUTHORIZED, lit "Missing bearer token")
  | Some token =>
      if negb write && bool_decide (token = anonymous) then Ok token else
      match extract_vault_id h with
      | None => Err (BAD_REQUEST, lit "Missing X-CipherVault-Id header")
      | Some vault_id =>
          bail? negb (hex_len_is 32 vault_id) with (BAD_REQUEST, lit "X-CipherVault-Id must be 32-byte hex") ;;
          let permission := if write then PERMISSION_WRITE else PERMISSION_READ in
          bail? negb (session_has_permission security c s token vault_id permission)
            with (UNAUTHORIZED, lit "Invalid, expired, or out-of-scope session token") ;;
          Ok token
      end
  end.

Definition require_control_auth (s : Auth) (h : Headers) : result Refusal unit :=
  let by_token := match env SERVICE_TOKEN with
                  | Some expected =>
                      negb (bool_decide (expected = []))
                      && match header_str h "X-CipherVault-Service-Token" with
                         | Some provided => service_token_matches provided expected
                         | None => false
                         end
                  | None => false
                  end in
  if by_token then Ok tt else
  if negb (strict_auth security) && bool_decide (extract_token h = None) then Ok tt else
  let? token := require_session s h true in
  let vault := default [] (extract_vault_id h) in
  bail? negb (session_has_permission security c s token vault PERMISSION_FLEET_ADMIN)
    with (FORBIDDEN, lit "Fleet administrator capability required") ;;
  Ok tt.

(** [None]: every vault; [Some vault]: that vault only. *)
Definition approval_scope (s : Auth) (h : Headers) (write : bool) : result Refusal (option str) :=
  if is_ok (require_service_token env h) || (negb (strict_auth security) && bool_decide (extract_token h = None)) then Ok None else
  let? token := require_session s h write in
  let vault := default [] (extract_vault_id h) in
  if session_has_permission security c s token vault PERMISSION_FLEET_ADMIN then Ok None else Ok (Some (lower vault)).
End Guards.

Definition in_scope (scope : option str) (vault : str) : bool := is_none_or scope (fun scope => eq_ignore_ascii_case scope vault).
Definition enforce_approval_scope (scope : option str) (vault : str) : result Refusal unit :=
  if negb (in_scope scope vault) then Err (FORBIDDEN, lit "Approval belongs to another vault") else Ok tt.

Definition storage_error_response (e : StorageError) : Refusal :=
  match e with
  | ServerError status message => (if (100 <=? status) && (status <=? 999) then status else INTERNAL_SERVER_ERROR, message)
  | other => (BAD_REQUEST, display_storage_error other)
  end.
Definition join_error_response (error : str) : Refusal :=
  if starts_with (lit "Unable to persist") error then (INTERNAL_SERVER_ERROR, error)
  else if bool_decide (error = lit "Join invite was already spent") then (CONFLICT, error)
  else if bool_decide (error = lit "Verified join is not configured on this node")
          || bool_decide (error = lit "Invite node key does not match the announced descriptor")
          || starts_with (lit "Server returned error 403") error
       then (FORBIDDEN, error) else (BAD_REQUEST, error).
Definition refresh_error_response (error : str) : Refusal :=
  if starts_with (lit "Unable to persist") error then (INTERNAL_SERVER_ERROR, error)
  else if starts_with (lit "Unknown joiner") error then (NOT_FOUND, error) else (BAD_REQUEST, error).
Definition graduate_error_response (error : str) : Refusal :=
  if starts_with (lit "Unable to persist") error then (INTERNAL_SERVER_ERROR, error) else (BAD_REQUEST, error).

Definition parse_disable_flag (raw : str) : bool :=
  let raw := lower (trim raw) in bool_decide (raw ∈ [lit "1"; lit "true"; lit "yes"]).
Definition lease_list_disabled (env : Env) : bool := parse_disable_flag (default [] (env "CIPHERVAULT_DISABLE_LEASE_LIST")).

Definition configured_anchor (hex_decode : str -> result string bytes) (env : Env) : result str (option (Z * bytes)) :=
  let present name := match env name with Some v => if bool_decide (trim v = []) then None else Some v | None => None end in
  match present "ARBITRUM_RPC_URL"%string with
  | None => Ok None
  | Some _ =>
      let? chain_id := match present "ARBITRUM_CHAIN_ID"%string with
                       | None => Ok 42161
                       | Some v => match u64_parse v with
                                   | Some n => Ok n
                                   | None => Err (lit "ARBITRUM_CHAIN_ID must be an unsigned integer")
                                   end
                       end in
      let contract := match env "CIPHERVAULT_REGISTRY_CONTRACT"%string with
                      | Some v => Some v
                      | None => env "ARBITRUM_CONTRACT_ADDRESS"%string
                      end in
      match contract with
      | None => Ok None
      | Some contract =>
          if bool_decide (trim contract = []) then Ok None else
          match hex_decode (trim_0x (trim contract)) with
          | Err _ => Err (lit "CIPHERVAULT_REGISTRY_CONTRACT must be 20-byte hex")
          | Ok address =>
              bail? negb (blen address =? 20) with lit "CIPHERVAULT_REGISTRY_CONTRACT must be 20-byte hex" ;;
              bail? bool_decide (address = replicate 20 0) with lit "CIPHERVAULT_REGISTRY_CONTRACT cannot be the zero address" ;;
              Ok (Some (chain_id, address))
          end
      end
  end.

(** ** Handlers *)

Inductive ApiRequest : Type :=
| PostChallenge (req : ChallengeRequest)
| PostSession (challenge_id public_key_hex signature_hex : str)
| PostEnrollIdentity (req : IdentityRequest)
| PostRevokeIdentity (req : IdentityRequest)
| GetEnrolledIdentities
| PostIssueVoucher (holder_pk_hex : str) (quota_bytes ttl_secs : Z)
| PostRevokeSession
| PutObject (cid : str) (body : bytes)
| GetObject (cid : str)
| PostObjectChallenge (cid nonce_hex : str)
| PostLease (closure_digest_hex : str) (byte_count term_days : Z)
| ListLeases (limit : option str)
| PostRenewLease (lease_id : str) (additional_days byte_count : Z)
| PostRecoveryRecord (locator : str) (body : bytes)
| GetRecoveryRecords (locator : str) (cursor : Z)
| PostRelayerCheckpoint (evidence : Checkpoint.CheckpointEvidence)
| GetRelayerCheckpoint (commitment : str)
| PostPeerAnnounce (peer : Peer.PeerDescriptor)
| GetPeers
| PostPeerJoin (descriptor : Peer.PeerDescriptor) (invite : Invite.JoinInvite)
| PostPeerJoinRefresh (descriptor : Peer.PeerDescriptor)
| GetPeerMembership
| GetPeerAdmissions
| PostPeerGraduate (operator_id : str)
| PostApprovalChallenge (challenge : ApprovalChallenge)
| GetPendingChallenges
| GetChallengeStatus (id : str)
| PostSubmitApproval (receipt : SignedApprovalReceipt).

Inductive Answer : Type :=
| Done
| Challenge (challenge_id nonce_hex : str) (expires_at_utc : Z)
| Session (token : str) (expires_at_utc : Z)
| Identities (l : list EnrolledIdentity)
| Voucher (v : WriteVoucher)
| Object (b : bytes)
| Proof (receipt : Pos.ProofOfStorageReceipt)
| LeaseIs (receipt : Lease.LeaseReceipt)
| Leases (l : list Lease.LeaseReceipt) (total : Z)
| Appended (sequence : Z)
| Records (records_hex : list str) (next_cursor : option Z)
| CheckpointIs (receipt : RelayerReceipt)
| PeerCount (status operator_id : str) (count : Z)
| Peers (l : list Peer.PeerDescriptor)
| Standing (status : MembershipStatus)
| Members (l : list MembershipView)
| Admissions (l : list AdmissionRecord)
| Challenges (l : list ApprovalChallenge)
| ChallengeIs (challenge : ApprovalChallenge) (receipts : list SignedApprovalReceipt)
| ApprovalCount (count : Z).

Section Handlers.
Context {HX : Hex} {ED : Ed25519} {SH : Sha256} {KE : Keccak256} {LJ : LedgerJson} {JL : JsonDoc Lease.LeaseReceipt}.
Context {CG : Cbor Genesis.GenesisRecord} {CD : Cbor DeviceCert.DeviceCertificate} {CH : Cbor Head.HeadRecord}.
Context {CE : Cbor Envelope.EpochEnvelope} {CS : Cbor Snapshot.SnapshotRecord}.
Context {JE : JsonDoc (list EnrolledIdentity)} {JN : JsonDoc (list PersistedSession)} {JC : JsonDoc (list PersistedChallenge)}.
Context {JP : JsonDoc (gmap str Peer.PeerDescriptor)} {JM : JsonDoc (gmap str PeerMembership)}.
Context {JS : JsonDoc (gmap str Z)} {JA : JsonDoc (list AdmissionRecord)} {JI : JsonDoc Invite.JoinInvite}.
Context {JR : JsonDoc (gmap str RelayerReceipt)} {JO : JsonDoc (gmap str Collected)}.
(** [serde_json] at the lease fields and at a voucher header. *)
Variables (fields_json : Lease.signed_fields -> bytes) (voucher_json : str -> result str WriteVoucher).
Variables (operator_id : str) (signing_key : bytes) (security : OperatorSecurityConfig).
Variables (c : HttpCall) (h : Headers).

Definition guard {A} (f : Auth -> result Refusal A) : OTx A := do s <- tget auth ;; tret (f s).
Definition session_guard (write : bool) : OTx str := guard (fun a => require_session security (hc_auth c) a h write).
Definition control_guard : OTx unit := guard (fun a => require_control_auth security (hc_env c) (hc_auth c) a h).
Definition scope_guard (write : bool) : OTx (option str) := guard (fun a => approval_scope security (hc_env c) (hc_auth c) a h write).
Definition service_guard : OTx unit := tret (require_service_token (hc_env c) h).
Definition bounded_io {A} (m : OTx A) : OTx A :=
  if hc_busy c then tret (Err (SERVICE_UNAVAILABLE, lit "Operator I/O capacity exhausted; retry later")) else m.
Definition refuse {A} (status : Z) (m : Tx Operator str A) : OTx A := map_terr (fun e => (status, e)) m.
Definition or_refuse {A} (o : option A) (e : Refusal) : OTx A := tret (match o with Some a => Ok a | None => Err e end).

Definition extract_voucher : result Refusal (option WriteVoucher) :=
  match h "X-CipherVault-Voucher"%string with
  | None => Ok None
  | Some None => Err (BAD_REQUEST, lit "Invalid voucher header encoding")
  | Some (Some text) => match voucher_json text with
                        | Ok v => Ok (Some v)
                        | Err e => Err (BAD_REQUEST, lit "Invalid voucher: " ++ e)
                        end
  end.

Definition post_challenge (req : ChallengeRequest) : OTx Answer :=
  let account_id := match cr_account_id req with Some a => Some a | None => header_str h "X-CipherVault-Account-Id" end in
  let device_id_hex := match cr_device_id_hex req with Some d => Some d | None => header_str h "X-CipherVault-Device-Id" end in
  do out <- refuse BAD_REQUEST (on_auth (issue_challenge_with_binding security (hc_auth c) (cr_vault_id_hex req)
                                          (cr_public_key_hex req) account_id device_id_hex)) ;;
  tret (Ok (Challenge out.1.1 out.1.2 out.2)).

Definition post_session (challenge_id public_key_hex signature_hex : str) : OTx Answer :=
  do token <- refuse INTERNAL_SERVER_ERROR
                (on_auth (verify_and_create_session security (hc_auth c) challenge_id public_key_hex signature_hex)) ;;
  do token <- or_refuse token (UNAUTHORIZED, lit "Invalid challenge response or expired") ;;
  tret (Ok (Session token (hc_now c + 3600))).

Definition post_enroll_identity (req : IdentityRequest) : OTx Answer :=
  service_guard ;;;
  refuse BAD_REQUEST (on_auth (enroll_identity_with_binding (hc_auth c) (ir_vault_id_hex req) (ir_public_key_hex req)
                                 (ir_permissions req) (ir_account_id req) (ir_device_id_hex req))) ;;;
  tret (Ok Done).

Definition post_revoke_identity (req : IdentityRequest) : OTx Answer :=
  service_guard ;;;
  do revoked <- refuse INTERNAL_SERVER_ERROR (on_auth (revoke_identity (hc_auth c) (ir_vault_id_hex req) (ir_public_key_hex req))) ;;
  tret (if revoked : bool then Ok Done else Err (NOT_FOUND, lit "Identity is not enrolled")).

Definition get_enrolled_identities : OTx Answer :=
  service_guard ;;; do l <- tget (fun s => enrolled_identities (auth s)) ;; tret (Ok (Identities l)).

Definition post_issue_voucher (holder_pk_hex : str) (quota_bytes ttl_secs : Z) : OTx Answer :=
  service_guard ;;;
  do voucher <- tret (map_err storage_error_response (issue_voucher signing_key (hc_store c) holder_pk_hex quota_bytes ttl_secs)) ;;
  tret (Ok (Voucher voucher)).

Definition post_revoke_session : OTx Answer :=
  do token <- session_guard true ;;
  do revoked <- refuse INTERNAL_SERVER_ERROR (on_auth (revoke_session (hc_auth c) token)) ;;
  tret (if revoked : bool then Ok Done else Err (UNAUTHORIZED, lit "Session is no longer active")).

Definition put_object (cid : str) (body : bytes) : OTx Answer :=
  session_guard true ;;;
  do voucher <- tret extract_voucher ;;
  bounded_io (map_terr storage_error_response
    (on_store (put_object_with_voucher signing_key (hc_store c) cid body voucher))) ;;;
  tret (Ok Done).

Definition get_object (cid : str) : OTx Answer :=
  session_guard false ;;;
  do found <- bounded_io (tget (fun s => ObjectStore.get_object (hc_store c) (store s) cid)) ;;
  do b <- or_refuse found (NOT_FOUND, lit "Object not found") ;;
  tret (Ok (Object b)).

Definition pos_refusal (e : str) : Refusal :=
  if bool_decide (e = lit "Object not found") then (NOT_FOUND, e) else (BAD_REQUEST, e).
Definition post_object_challenge (cid nonce_hex : str) : OTx Answer :=
  session_guard false ;;;
  do nonce <- tret (map_err (fun e => (BAD_REQUEST, lit "Invalid hex in nonce: " ++ lit e)) (hex_decode nonce_hex)) ;;
  if negb (blen nonce =? 32) then tret (Err (BAD_REQUEST, lit "Invalid challenge nonce length (expected 32 bytes)")) else
  do s <- tget store ;;
  do receipt <- tret (map_err pos_refusal (generate_pos_proof operator_id signing_key (hc_store c) s cid nonce)) ;;
  tret (Ok (Proof receipt)).

Definition post_lease (closure_digest_hex : str) (byte_count term_days : Z) : OTx Answer :=
  session_guard true ;;;
  do voucher <- tret extract_voucher ;;
  do receipt <- map_terr storage_error_response
    (on_store (create_lease_with_voucher fields_json operator_id signing_key (hc_store c) closure_digest_hex byte_count term_days voucher)) ;;
  match extract_vault_id h with
  | None => tret (Ok (LeaseIs receipt))
  | Some vault_id_hex =>
      map_terr (fun e => (INTERNAL_SERVER_ERROR, lit "Lease ownership could not be persisted: " ++ e))
        (on_store (record_lease_owner (hc_store c) (Lease.lease_id receipt) vault_id_hex)) ;;;
      tret (Ok (LeaseIs receipt))
  end.

Definition list_limit (limit : option str) : Z := match limit with None => 100 | Some raw => default 0 (u64_parse raw) end.
Definition list_leases (limit : option str) : OTx Answer :=
  if lease_list_disabled (hc_env c) then tret (Err (FORBIDDEN, lit "Lease listing is disabled on this operator")) else
  session_guard true ;;;
  do vault_id_hex <- or_refuse (extract_vault_id h) (BAD_REQUEST, lit "Missing X-CipherVault-Id header") ;;
  let limit := list_limit limit in
  if (limit =? 0) || (limit >? 1000) then tret (Err (BAD_REQUEST, lit "limit must be between 1 and 1000")) else
  do leases <- tget (fun s => list_leases_for_vault fields_json signing_key (hc_leases c) (store s) vault_id_hex) ;;
  tret (Ok (Leases (take (Z.to_nat limit) leases) (Z.of_nat (length leases)))).

Definition post_renew_lease (lease_id : str) (additional_days byte_count : Z) : OTx Answer :=
  session_guard true ;;;
  do voucher <- tret extract_voucher ;;
  do receipt <- map_terr storage_error_response
    (on_store (renew_owned_lease_with_voucher fields_json signing_key (hc_store c) lease_id additional_days byte_count
                 (default [] (extract_vault_id h)) voucher)) ;;
  tret (Ok (LeaseIs receipt)).

Definition post_recovery_record (locator : str) (body : bytes) : OTx Answer :=
  do token <- or_refuse (extract_token h) (UNAUTHORIZED, lit "Missing bearer token") ;;
  session_guard true ;;;
  do caller_pk <- tget (fun s => get_session_public_key (auth s) token) ;;
  do voucher <- tret extract_voucher ;;
  do sequence <- bounded_io (map_terr storage_error_response
    (on_store (append_recovery_record_with_voucher signing_key (hc_store c) locator body caller_pk voucher))) ;;
  tret (Ok (Appended sequence)).

Definition get_recovery_records (locator : str) (cursor : Z) : OTx Answer :=
  do page <- bounded_io (do s <- tget store ;;
    tret (map_err (fun e => (BAD_REQUEST, e)) (get_recovery_page (sc_env (hc_store c)) locator cursor (logs s !! locator)))) ;;
  tret (Ok (Records (hex_encode <$> records page) (next_cursor page))).

Definition post_relayer_checkpoint (evidence : Checkpoint.CheckpointEvidence) : OTx Answer :=
  control_guard ;;;
  do receipt <- refuse BAD_REQUEST (on_relay (relay_checkpoint (hc_relay c) evidence)) ;;
  do client <- tret (map_err (fun e => (SERVICE_UNAVAILABLE, lit "Invalid anchor verification configuration: " ++ e))
                       (configured_anchor hex_decode (hc_env c))) ;;
  match client with
  | None => tret (Ok (CheckpointIs receipt))
  | Some (chain_id, address) =>
      match verify_evidence (hc_rpc c) chain_id address evidence with
      | Ok report =>
          if on_chain_confirmed report && receipt_verified report then
            do confirmed <- refuse BAD_GATEWAY (on_relay (confirm_relayed_checkpoint (hc_relay c) evidence report)) ;;
            tret (Ok (CheckpointIs confirmed))
          else tret (Ok (CheckpointIs receipt))
      | Err _ => tret (Ok (CheckpointIs receipt))
      end
  end.

Definition get_relayer_checkpoint (commitment : str) : OTx Answer :=
  map_terr (fun _ => (UNAUTHORIZED, [])) control_guard ;;;
  do found <- tget (fun s => get_relayed_checkpoint (relay s) commitment) ;;
  do receipt <- or_refuse found (NOT_FOUND, []) ;;
  tret (Ok (CheckpointIs receipt)).

Definition post_peer_announce (peer : Peer.PeerDescriptor) : OTx Answer :=
  control_guard ;;;
  do count <- refuse BAD_REQUEST (on_admission (register_peer (hc_join c) peer)) ;;
  tret (Ok (PeerCount (lit "registered") [] count)).

Definition get_peers : OTx Answer :=
  control_guard ;;;
  do peers <- refuse INTERNAL_SERVER_ERROR (on_admission (get_active_peers (hc_join c))) ;;
  tret (Ok (Peers peers)).

Definition post_peer_join (descriptor : Peer.PeerDescriptor) (invite : Invite.JoinInvite) : OTx Answer :=
  do count <- map_terr join_error_response (on_admission (join_with_invite (hc_join c) descriptor invite)) ;;
  do probation <- tget (fun s => is_probationary (admission s) (Peer.operator_id descriptor)) ;;
  tret (Ok (PeerCount (lit (if probation : bool then "probation" else "full")) (Peer.operator_id descriptor) count)).

Definition post_peer_join_refresh (descriptor : Peer.PeerDescriptor) : OTx Answer :=
  do status <- map_terr refresh_error_response (on_admission (refresh_peer_join (hc_join c) descriptor)) ;;
  tret (Ok (Standing status)).

Definition get_peer_membership : OTx Answer :=
  control_guard ;;;
  do views <- refuse INTERNAL_SERVER_ERROR (on_admission (membership_snapshot (hc_join c))) ;;
  tret (Ok (Members views)).

Definition get_peer_admissions : OTx Answer :=
  control_guard ;;; do l <- tget (fun s => admissions (admission s)) ;; tret (Ok (Admissions l)).

Definition post_peer_graduate (id : str) : OTx Answer :=
  control_guard ;;;
  do graduated <- map_terr graduate_error_response (on_admission (graduate_peer (hc_join c) id)) ;;
  tret (if graduated : bool then Ok Done else Err (NOT_FOUND, lit "Unknown operator id")).

Definition post_approval_challenge (challenge : ApprovalChallenge) : OTx Answer :=
  do scope <- scope_guard true ;;
  tret (enforce_approval_scope scope (vault_id_hex challenge)) ;;;
  refuse BAD_REQUEST (on_relay (register_approval_challenge (hc_relay c) challenge)) ;;;
  tret (Ok Done).

Definition get_pending_challenges : OTx Answer :=
  do scope <- scope_guard false ;;
  do l <- tget (fun s => OperatorRelay.get_pending_challenges (hc_relay c) (relay s)) ;;
  tret (Ok (Challenges (filter (fun challenge => in_scope scope (vault_id_hex challenge)) l))).

Definition get_challenge_status (id : str) : OTx Answer :=
  do scope <- scope_guard false ;;
  do found <- tget (fun s => OperatorRelay.get_challenge_status (relay s) id) ;;
  do p <- or_refuse found (NOT_FOUND, lit "Approval challenge not found") ;;
  tret (enforce_approval_scope scope (vault_id_hex p.1)) ;;;
  tret (Ok (ChallengeIs p.1 p.2)).

Definition post_submit_approval (receipt : SignedApprovalReceipt) : OTx Answer :=
  do scope <- scope_guard true ;;
  do found <- tget (fun s => OperatorRelay.get_challenge_status (relay s) (r_challenge_id receipt)) ;;
  do p <- or_refuse found (NOT_FOUND, lit "Approval challenge not found") ;;
  tret (enforce_approval_scope scope (vault_id_hex p.1)) ;;;
  do count <- refuse BAD_REQUEST (on_relay (submit_approval_receipt (hc_relay c) receipt)) ;;
  tret (Ok (ApprovalCount count)).

(** The router. *)
Definition serve (r : ApiRequest) : OTx Answer :=
  match r with
  | PostChallenge req => post_challenge req
  | PostSession id pk sig => post_session id pk sig
  | PostEnrollIdentity req => post_enroll_identity req
  | PostRevokeIdentity req => post_revoke_identity req
  | GetEnrolledIdentities => get_enrolled_identities
  | PostIssueVoucher holder quota ttl => post_issue_voucher holder quota ttl
  | PostRevokeSession => post_revoke_session
  | PutObject cid body => put_object cid body
  | GetObject cid => get_object cid
  | PostObjectChallenge cid nonce => post_object_challenge cid nonce
  | PostLease digest count days => post_lease digest count days
  | ListLeases limit => list_leases limit
  | PostRenewLease id days count => post_renew_lease id days count
  | PostRecoveryRecord locator body => post_recovery_record locator body
  | GetRecoveryRecords locator cursor => get_recovery_records locator cursor
  | PostRelayerCheckpoint evidence => post_relayer_checkpoint evidence
  | GetRelayerCheckpoint commitment => get_relayer_checkpoint commitment
  | PostPeerAnnounce peer => post_peer_announce peer
  | GetPeers => get_peers
  | PostPeerJoin descriptor invite => post_peer_join descriptor invite
  | PostPeerJoinRefresh descriptor => post_peer_join_refresh descriptor
  | GetPeerMembership => get_peer_membership
  | GetPeerAdmissions => get_peer_admissions
  | PostPeerGraduate id => post_peer_graduate id
  | PostApprovalChallenge challenge => post_approval_challenge challenge
  | GetPendingChallenges => get_pending_challenges
  | GetChallengeStatus id => get_challenge_status id
  | PostSubmitApproval receipt => post_submit_approval receipt
  end.
End Handlers.
