(* ===== verification/SampleOperator.v ===== *)
(** * A sample operator

    Formats and calls with which the examples run whole requests: everything that a
    document or a voucher header holds is read back as it was written, and the device
    that is enrolled answers its challenge. *)

From S2P Require Import Prelude Errors Tables Primitives SamplePrimitives Crypto Schema Vouchers Invites Approval.
From S2P Require Import OperatorCore Admission AdmissionJoin OperatorAuth OperatorAuthTheory RecoveryLog RecoveryLogTheory.
From S2P Require Import ObjectStore ObjectStoreTheory Anchor OperatorRelay OperatorHandlers.

#[export] Instance RelayerReceipt_countable : Countable RelayerReceipt.
Proof.
  by refine (inj_countable'
    (fun r => (rr_commitment_hex r, rr_tx_hash_hex r, rr_block_number r, rr_status r, rr_timestamp r))
    (fun '(a, b, c, d, e) => Build_RelayerReceipt a b c d e) _); intros [].
Defined.
Definition action_code (a : ApprovalAction) : Z :=
  match a with EmergencyRecovery => 0 | KeyRotation => 1 | SnapshotRollback => 2 | GuardianRevocation => 3 end.
Definition action_of (z : Z) : ApprovalAction :=
  match z with 0 => EmergencyRecovery | 1 => KeyRotation | 2 => SnapshotRollback | _ => GuardianRevocation end.
#[export] Instance ApprovalAction_eq_dec : EqDecision ApprovalAction.
Proof. solve_decision. Defined.
#[export] Instance ApprovalAction_countable : Countable ApprovalAction.
Proof. by refine (inj_countable' action_code action_of _); intros []. Defined.
#[export] Instance ApprovalChallenge_eq_dec : EqDecision ApprovalChallenge.
Proof. solve_decision. Defined.
#[export] Instance ApprovalChallenge_countable : Countable ApprovalChallenge.
Proof.
  by refine (inj_countable'
    (fun r => (Approval.challenge_id r, vault_id_hex r, action r, requester_device_id_hex r, Approval.nonce_hex r,
               created_at_utc r, expires_at_utc r, details r))
    (fun '(a, b, c, d, e, f, g, h) => Build_ApprovalChallenge a b c d e f g h) _); intros [].
Defined.
#[export] Instance SignedApprovalReceipt_eq_dec : EqDecision SignedApprovalReceipt.
Proof. solve_decision. Defined.
#[export] Instance SignedApprovalReceipt_countable : Countable SignedApprovalReceipt.
Proof.
  by refine (inj_countable'
    (fun r => (r_challenge_id r, approver_name r, approver_pk_hex r, approved_at_utc r, Approval.signature_hex r))
    (fun '(a, b, c, d, e) => Build_SignedApprovalReceipt a b c d e) _); intros [].
Defined.
Definition JReceipts : JsonDoc (gmap str RelayerReceipt) := countable_doc.
Definition JApprovals : JsonDoc (gmap str Collected) := countable_doc.
#[export] Existing Instances JPeers JMembers JSpent JLog sample_invite_doc JReceipts JApprovals.
#[export] Instance JReceipts_laws : JsonDocLaws _ JReceipts := countable_doc_laws.
#[export] Instance JApprovals_laws : JsonDocLaws _ JApprovals := countable_doc_laws.
#[export] Instance sample_ledger : LedgerJson :=
  {| ledger_to_vec _ := Ok [1]; ledger_from_slice _ := Err "no ledger"%string |}.
#[export] Instance sample_leases : JsonDoc Lease.LeaseReceipt := {| doc_write _ := Ok [1]; doc_read _ := None |}.
#[export] Instance sample_keccak : Keccak256 := {| keccak256 := sha256 |}.

(** The header of the sample voucher is the word [voucher]. *)
Definition sample_voucher_json (text : str) : result str WriteVoucher :=
  if bool_decide (text = lit "voucher") then Ok sample_voucher else Err (lit "expected value").

Definition no_rpc : Rpc := fun _ _ => NoReply "connection refused".
Definition admin_env : Env := fun name => if bool_decide (name = SERVICE_TOKEN) then Some (lit "s3cret") else None.
Definition relay_call (now : Z) : RelayCall := {| rl_now := fun _ => now; rl_persist := Saved |}.
Definition http_call (now : Z) : HttpCall :=
  {| hc_env := admin_env; hc_now := now; hc_busy := false; hc_auth := auth_call now None; hc_store := store_call now None;
     hc_relay := relay_call now; hc_join := call_at now None; hc_rpc := no_rpc; hc_leases := [] |}.
Definition headers (fields : list (string * str)) : Headers := fun name =>
  (fun kv => Some kv.2) <$> find (fun kv => bool_decide (kv.1 = name)) fields.
Definition admin : Headers := headers [("X-CipherVault-Service-Token"%string, lit "s3cret")].
Definition bearer (token vault : str) : list (string * str) :=
  [("Authorization"%string, lit "Bearer " ++ token); ("X-CipherVault-Id"%string, vault)].
Definition device : Headers := headers (bearer token vault ++ [("X-CipherVault-Voucher"%string, lit "voucher")]).

Definition new_operator : Operator :=
  MkOperator new_node empty_store (MkRelay ∅ ∅ None None) first_node.
Abbreviation request now h r :=
  (serve sample_fields_json sample_voucher_json (lit "op") operator_sk strict (http_call now) h r).
Definition identity : IdentityRequest :=
  {| ir_vault_id_hex := vault; ir_public_key_hex := device_pk; ir_permissions := 3; ir_account_id := None; ir_device_id_hex := None |}.
Definition login_request : ChallengeRequest :=
  {| cr_vault_id_hex := vault; cr_public_key_hex := device_pk; cr_account_id := None; cr_device_id_hex := None |}.
(** The administrator enrolls the device, and the device logs in. *)
Definition logged_in_operator : Operator :=
  let s1 := (request 1000 admin (PostEnrollIdentity identity) new_operator).2 in
  let s2 := (request 1010 (headers []) (PostChallenge login_request) s1).2 in
  (request 1020 (headers []) (PostSession challenge_id device_pk answer) s2).2.

Example device_session : session_has_permission strict (auth_call 1030 None) (auth logged_in_operator) token vault PERMISSION_WRITE = true.
Proof. vm_compute. reflexivity. Qed.
Example device_put : (request 1100 device (PutObject payload_cid payload) logged_in_operator).1 = Ok Done.
Proof. vm_compute. reflexivity. Qed.
