(* ===== verification/OperatorAccess.v ===== *)
(** * Who may change what on the operator

    Every request of the HTTP interface against the rights that its headers carry. *)

From S2P Require Import Prelude Errors Tables Primitives SamplePrimitives Crypto Schema Vouchers Invites Approval.
From S2P Require Import OperatorCore Admission OperatorAuth OperatorAuthTheory RecoveryLog ObjectStore Anchor OperatorRelay OperatorHandlers.

#[local] Open Scope tx_scope.

(** ** Running a handler *)

Lemma guard_run {A B} (g : Auth -> result Refusal A) (k : A -> OTx B) s :
  tbind (guard g) k s = match g (auth s) with Ok a => k a s | Err e => (Err e, s) end.
Proof. unfold tbind, guard, tget, tret. unfold tbind. cbn. by destruct (g (auth s)). Qed.
Lemma get_run {S E A B} (f : S -> A) (k : A -> Tx S E B) s : tbind (tget f) k s = k (f s) s.
Proof. done. Qed.
Lemma check_run {S E A B} (r : result E A) (k : A -> Tx S E B) s :
  tbind (tret r) k s = match r with Ok a => k a s | Err e => (Err e, s) end.
Proof. by destruct r. Qed.

(** ** Frames *)

Section Frames.
Context {T : Type} (f : Operator -> T).

Definition keeps {E A} (m : Tx Operator E A) : Prop := forall s, f (m s).2 = f s.
Lemma keeps_bind {E A B} (m : Tx Operator E A) (k : A -> Tx Operator E B) : keeps m -> (forall a, keeps (k a)) -> keeps (tbind m k).
Proof.
  intros Hm Hk s. unfold tbind. specialize (Hm s). destruct (m s) as [[a|e] s']; cbn in *; [|done]. by rewrite Hk.
Qed.
Lemma keeps_ret {E A} (r : result E A) : keeps (tret r).
Proof. done. Qed.
Lemma keeps_get {E A} (g : Operator -> A) : keeps (E := E) (tget g).
Proof. done. Qed.
Lemma keeps_terr {E F A} (g : E -> F) (m : Tx Operator E A) : keeps m -> keeps (map_terr g m).
Proof. intros Hm s. unfold map_terr. specialize (Hm s). by destruct (m s). Qed.
Lemma keeps_io {A} c (m : OTx A) : keeps m -> keeps (bounded_io c m).
Proof. intros Hm. unfold bounded_io. by destruct (hc_busy c). Qed.
Lemma keeps_guard {A} (g : Auth -> result Refusal A) : keeps (guard g).
Proof. done. Qed.

(** A change needs [P]. *)
Definition only_if {A} (m : OTx A) (P : Auth -> Prop) : Prop := forall s, f (m s).2 <> f s -> P (auth s).
Lemma only_if_keeps {A} (m : OTx A) P : keeps m -> only_if m P.
Proof. intros Hm s Hne. by rewrite Hm in Hne. Qed.
Lemma only_if_guard {A B} (g : Auth -> result Refusal A) (k : A -> OTx B) (P : Auth -> Prop) :
  (forall a v, g a = Ok v -> P a) -> only_if (tbind (guard g) k) P.
Proof.
  intros Hg s. rewrite guard_run. destruct (g (auth s)) as [v|e] eqn:E; [|done].
  intros _. by eapply Hg.
Qed.
Lemma only_if_check {A B} (r : result Refusal A) (k : A -> OTx B) (P : Auth -> Prop) :
  (is_ok r = true -> forall a, P a) -> only_if (tbind (tret r) k) P.
Proof. intros Hr s. rewrite check_run. destruct r; [|done]. intros _. by apply Hr. Qed.
Lemma only_if_skip {A B} (r : result Refusal A) (k : A -> OTx B) P : (forall a, only_if (k a) P) -> only_if (tbind (tret r) k) P.
Proof. intros Hk s. rewrite check_run. destruct r; [apply Hk|done]. Qed.
Lemma only_if_terr {A B} (g : Refusal -> Refusal) (m : OTx A) (k : A -> OTx B) P :
  only_if m P -> (forall a, keeps (k a)) -> only_if (tbind (map_terr g m) k) P.
Proof.
  intros Hm Hk s. unfold tbind, map_terr. specialize (Hm s). destruct (m s) as [[a|e] s']; cbn in *; [|done]. by rewrite Hk.
Qed.
End Frames.

Lemma keeps_auth {T E A} (g : Operator -> T) (m : Tx Auth E A) :
  (forall a a' t r d, g (MkOperator a t r d) = g (MkOperator a' t r d)) -> keeps g (on_auth m).
Proof. intros Hg [a t r d]. unfold on_auth. cbn. destruct (m a). apply Hg. Qed.
Lemma keeps_store {T E A} (g : Operator -> T) (m : Tx Store E A) :
  (forall a t t' r d, g (MkOperator a t r d) = g (MkOperator a t' r d)) -> keeps g (on_store m).
Proof. intros Hg [a t r d]. unfold on_store. cbn. destruct (m t). apply Hg. Qed.
Lemma keeps_relay {T E A} (g : Operator -> T) (m : Tx Relay E A) :
  (forall a t r r' d, g (MkOperator a t r d) = g (MkOperator a t r' d)) -> keeps g (on_relay m).
Proof. intros Hg [a t r d]. unfold on_relay. cbn. destruct (m r). apply Hg. Qed.
Lemma keeps_admission {T E A} (g : Operator -> T) (m : Tx Admission E A) :
  (forall a t r d d', g (MkOperator a t r d) = g (MkOperator a t r d')) -> keeps g (on_admission m).
Proof. intros Hg [a t r d]. unfold on_admission. cbn. destruct (m d). apply Hg. Qed.

(** Walks through a handler that does not reach the part in question. *)
Ltac frames :=
  repeat (cbv zeta; lazymatch goal with
  | |- forall _, _ => intros ?
  | |- keeps _ (tbind _ _) => apply keeps_bind
  | |- keeps _ (tret _) => apply keeps_ret
  | |- keeps _ (tget _) => apply keeps_get
  | |- keeps _ (map_terr _ _) => apply keeps_terr
  | |- keeps _ (refuse _ _) => apply keeps_terr
  | |- keeps _ (or_refuse _ _) => apply keeps_ret
  | |- keeps _ (bounded_io _ _) => apply keeps_io
  | |- keeps _ (guard _) => apply keeps_guard
  | |- keeps _ (session_guard _ _ _ _) => apply keeps_guard
  | |- keeps _ (control_guard _ _ _) => apply keeps_guard
  | |- keeps _ (scope_guard _ _ _ _) => apply keeps_guard
  | |- keeps _ (service_guard _ _) => apply keeps_ret
  | |- keeps _ (on_auth _) => apply keeps_auth; done
  | |- keeps _ (on_store _) => apply keeps_store; done
  | |- keeps _ (on_relay _) => apply keeps_relay; done
  | |- keeps _ (on_admission _) => apply keeps_admission; done
  | |- keeps _ (if ?b then _ else _) => destruct b
  | |- keeps _ (match ?x with _ => _ end) => destruct x
  end).

(** ** Identities stay as they are *)

Create HintDb ids.
Section Identities.
Context {HX : Hex} {ED : Ed25519}.
Context {JE : JsonDoc (list EnrolledIdentity)} {JN : JsonDoc (list PersistedSession)} {JC : JsonDoc (list PersistedChallenge)}.
Variable security : OperatorSecurityConfig.
Variable l : list EnrolledIdentity.
Definition same_ids (a : Auth) : Prop := enrolled_identities a = l.

Lemma ids_sessions c at_ s : same_ids s -> hoare same_ids (persist_sessions c at_) s (fun _ => same_ids).
Proof. intros Hs. unfold hoare, persist_sessions. destruct s as [h e k v b i f1 f2 f3]. destruct (persist_doc _ _ _) as [[u|e'] f']; done. Qed.
Lemma ids_challenges c at_ s : same_ids s -> hoare same_ids (persist_challenges c at_) s (fun _ => same_ids).
Proof. intros Hs. unfold hoare, persist_challenges. destruct s as [h e k v b i f1 f2 f3]. destruct (persist_doc _ _ _) as [[u|e'] f']; done. Qed.
Lemma ids_with_sessions e k v b s : same_ids s -> same_ids (with_sessions e k v b s).
Proof. by destruct s. Qed.
Lemma ids_with_challenges t s : same_ids s -> same_ids (with_challenges t s).
Proof. by destruct s. Qed.
Lemma ids_remove t s : same_ids s -> same_ids (remove_session t s).
Proof. apply ids_with_sessions. Qed.
Hint Resolve ids_sessions ids_challenges ids_with_sessions ids_with_challenges ids_remove : ids.
Ltac ids := keep ltac:(eauto 6 with ids nocore).

Lemma ids_issue c v p acc dev s : same_ids s -> hoare same_ids (issue_challenge_with_binding security c v p acc dev) s (fun _ => same_ids).
Proof. intros Hs. unfold issue_challenge_with_binding. ids. destruct a as [acc' dev']. ids. Qed.
Lemma ids_create c now pk r s : same_ids s -> hoare same_ids (create_session c now pk r) s (fun _ => same_ids).
Proof. intros Hs. unfold create_session. ids. Qed.
Lemma ids_verify c id pkh sig s : same_ids s -> hoare same_ids (verify_and_create_session security c id pkh sig) s (fun _ => same_ids).
Proof.
  intros Hs. unfold verify_and_create_session. ids. destruct (challenges s !! id); ids.
  destruct (answered _ _ _); [by apply ids_create|]. ids.
Qed.
Lemma ids_revoke c t s : same_ids s -> hoare same_ids (revoke_session c t) s (fun _ => same_ids).
Proof. intros Hs. unfold revoke_session. ids. Qed.
End Identities.

Lemma keeps_ids {E A} (m : Tx Auth E A) :
  (forall l s, same_ids l s -> hoare (same_ids l) m s (fun _ => same_ids l)) ->
  keeps (fun s => enrolled_identities (auth s)) (on_auth m).
Proof.
  intros Hm [a t r d]. unfold on_auth. cbn. specialize (Hm _ a eq_refl). apply hoare_state in Hm. by destruct (m a).
Qed.

(** The two registries of the relay do not touch each other. *)
Create HintDb registries.
Section Registries.
Context {HX : Hex} {ED : Ed25519} {SH : Sha256}.
Context {JR : JsonDoc (gmap str RelayerReceipt)} {JO : JsonDoc (gmap str Collected)}.
Variable c : RelayCall.

Section Checkpoints.
Variable t0 : gmap str RelayerReceipt * option bytes.
Definition same_checkpoints (s : Relay) : Prop := (relayed_checkpoints s, checkpoint_file s) = t0.
Lemma cps_persist t s : same_checkpoints s -> hoare same_checkpoints (persist_approval_challenges c t) s (fun _ => same_checkpoints).
Proof. destruct s. unfold hoare, persist_approval_challenges. by persisting f E. Qed.
Lemma cps_with t s : same_checkpoints s -> same_checkpoints (with_approvals t s).
Proof. by destruct s. Qed.
Hint Resolve cps_persist cps_with : registries.
Lemma register_checkpoints ch s : same_checkpoints s -> hoare same_checkpoints (register_approval_challenge c ch) s (fun _ => same_checkpoints).
Proof. intros Hs. unfold register_approval_challenge. keep ltac:(eauto 6 with registries nocore). Qed.
Lemma submit_checkpoints r s : same_checkpoints s -> hoare same_checkpoints (submit_approval_receipt c r) s (fun _ => same_checkpoints).
Proof.
  intros Hs. unfold submit_approval_receipt. apply hoare_get_bind. destruct (_ !! _) as [[ch rs]|]; keep ltac:(eauto 6 with registries nocore).
Qed.
End Checkpoints.

Section Approvals.
Variable t0 : gmap str Collected * option bytes.
Definition same_approvals (s : Relay) : Prop := (approval_challenges s, approval_file s) = t0.
Lemma apr_persist t s : same_approvals s -> hoare same_approvals (persist_relayed_checkpoints c t) s (fun _ => same_approvals).
Proof. destruct s. unfold hoare, persist_relayed_checkpoints. by persisting f E. Qed.
Lemma apr_with t s : same_approvals s -> same_approvals (with_checkpoints t s).
Proof. by destruct s. Qed.
Hint Resolve apr_persist apr_with : registries.
Lemma relay_approvals e s : same_approvals s -> hoare same_approvals (relay_checkpoint c e) s (fun _ => same_approvals).
Proof.
  intros Hs. unfold relay_checkpoint. destruct (negb _); [by apply keep_ret|]. apply hoare_get_bind.
  destruct (_ !! _); keep ltac:(eauto 6 with registries nocore).
Qed.
Lemma confirm_approvals e r s : same_approvals s -> hoare same_approvals (confirm_relayed_checkpoint c e r) s (fun _ => same_approvals).
Proof.
  intros Hs. unfold confirm_relayed_checkpoint. destruct (_ || _); [by apply keep_ret|]. cbv zeta.
  destruct (receipt_block_number r); [|by apply keep_ret]. destruct (_ || _); [by apply keep_ret|]. apply hoare_get_bind.
  destruct (_ !! _); keep ltac:(eauto 6 with registries nocore).
Qed.
End Approvals.
End Registries.

Lemma keeps_fst {E A T U} (f : Operator -> T) (g : Operator -> U) (m : Tx Operator E A) : keeps (fun s => (f s, g s)) m -> keeps f m.
Proof. intros Hm s. specialize (Hm s). by simplify_eq. Qed.
Lemma keeps_part {E A T} (g : Relay -> T) (m : Tx Relay E A) :
  (forall t s, g s = t -> hoare (fun s => g s = t) m s (fun _ s => g s = t)) -> keeps (fun s => g (relay s)) (on_relay m).
Proof.
  intros Hm [a t r d]. unfold on_relay. cbn. specialize (Hm _ r eq_refl). apply (hoare_state (fun s => g s = g r)) in Hm. by destruct (m r).
Qed.

(** ** Rights *)

Lemma lower_idem' v : to_ascii_lowercase <$> lower v = to_ascii_lowercase <$> v.
Proof. apply lower_idem. Qed.

Section Access.
Context {HX : Hex} {ED : Ed25519} {SH : Sha256} {KE : Keccak256} {LJ : LedgerJson} {JL : JsonDoc Lease.LeaseReceipt}.
Context {CG : Cbor Genesis.GenesisRecord} {CD : Cbor DeviceCert.DeviceCertificate} {CH : Cbor Head.HeadRecord}.
Context {CE : Cbor Envelope.EpochEnvelope} {CS : Cbor Snapshot.SnapshotRecord}.
Context {JE : JsonDoc (list EnrolledIdentity)} {JN : JsonDoc (list PersistedSession)} {JC : JsonDoc (list PersistedChallenge)}.
Context {JP : JsonDoc (gmap str Peer.PeerDescriptor)} {JM : JsonDoc (gmap str PeerMembership)}.
Context {JS : JsonDoc (gmap str Z)} {JA : JsonDoc (list AdmissionRecord)} {JI : JsonDoc Invite.JoinInvite}.
Context {JR : JsonDoc (gmap str RelayerReceipt)} {JO : JsonDoc (gmap str Collected)}.
Variables (fields_json : Lease.signed_fields -> bytes) (voucher_json : str -> result str WriteVoucher).
Variables (operator_id : str) (signing_key : bytes) (security : OperatorSecurityConfig).
Variables (c : HttpCall) (h : Headers).

(** The headers name a live session for the vault with the permission. *)
Definition session_with (permission : Z) (vault : str) (a : Auth) : Prop := exists token,
  extract_token h = Some token /\ extract_vault_id h = Some vault /\
  session_has_permission security (hc_auth c) a token vault permission = true.
(** The headers carry the service token. *)
Definition service : Prop := exists expected provided,
  hc_env c SERVICE_TOKEN = Some expected /\ expected <> [] /\
  header_str h "X-CipherVault-Service-Token" = Some provided /\ as_bytes provided = as_bytes expected.
(** Migration mode: no strict authentication, and no bearer token. *)
Definition open_mode : Prop := strict_auth security = false /\ extract_token h = None.

Definition may_write (a : Auth) : Prop := exists vault, session_with PERMISSION_WRITE vault a.
Definition may_control (a : Auth) : Prop :=
  service \/ open_mode \/ exists vault, session_with PERMISSION_WRITE vault a /\ session_with PERMISSION_FLEET_ADMIN vault a.
Definition may_approve (vault : str) (a : Auth) : Prop :=
  service \/ open_mode \/
  exists mine, session_with PERMISSION_WRITE mine a /\ (session_with PERMISSION_FLEET_ADMIN mine a \/ eq_ignore_ascii_case mine vault = true).

Lemma require_session_write a token :
  require_session security (hc_auth c) a h true = Ok token ->
  extract_token h = Some token /\ exists vault, extract_vault_id h = Some vault /\
  session_has_permission security (hc_auth c) a token vault PERMISSION_WRITE = true.
Proof.
  unfold require_session. destruct (extract_token h) as [t|]; [|done]. cbn [negb andb].
  destruct (extract_vault_id h) as [v|]; [|done]. destruct (hex_len_is 32 v); [|done]. cbn [negb].
  destruct (session_has_permission _ _ _ _ _ _) eqn:E; [|done]. cbn. intros [= ->]. eauto.
Qed.
Lemma require_session_may a token : require_session security (hc_auth c) a h true = Ok token -> may_write a.
Proof. intros (Ht & v & Hv & Hp)%require_session_write. exists v, token. auto. Qed.

Lemma service_ok : is_ok (require_service_token (hc_env c) h) = true -> service.
Proof.
  unfold require_service_token, service. destruct (hc_env c SERVICE_TOKEN) as [t|]; [|done]. case_bool_decide as Hne; [done|].
  destruct (header_str h _) as [p|]; [|done]. cbn. unfold service_token_matches. case_bool_decide; [|done]. intros _. by exists t, p.
Qed.
Lemma is_ok_of {E A} (r : result E A) a : r = Ok a -> is_ok r = true.
Proof. by intros ->. Qed.

Lemma control_ok a u : require_control_auth security (hc_env c) (hc_auth c) a h = Ok u -> may_control a.
Proof.
  unfold require_control_auth. set (by_token := match hc_env c SERVICE_TOKEN with Some _ => _ | None => _ end).
  destruct by_token eqn:Eb; [intros _; left|].
  - subst by_token. unfold service. destruct (hc_env c SERVICE_TOKEN) as [t|]; [|done]. apply andb_prop in Eb as (Hn & Hp).
    destruct (header_str h _) as [p|]; [|done]. unfold service_token_matches in Hp. bool_prop. eauto 8.
  - destruct (strict_auth security) eqn:Es; cbn [negb andb]; [|case_bool_decide as Ht; [intros _; by right; left|]];
      (destruct (require_session _ _ _ _ _) as [t|] eqn:Er; [|done]; apply require_session_write in Er as (Ht' & v & Hv & Hp);
       cbn; rewrite Hv; cbn; destruct (session_has_permission _ _ _ _ _ PERMISSION_FLEET_ADMIN) eqn:Ef; [|done];
       intros _; right; right; exists v; split; exists t; auto).
Qed.

Lemma scope_ok a scope vault :
  approval_scope security (hc_env c) (hc_auth c) a h true = Ok scope -> in_scope scope vault = true -> may_approve vault a.
Proof.
  unfold approval_scope. destruct (is_ok (require_service_token _ _)) eqn:Es; [intros _ _; left; by apply service_ok|]. cbn [orb].
  destruct (negb (strict_auth security) && bool_decide (extract_token h = None)) eqn:Eo.
  { intros _ _. right; left. unfold open_mode. by bool_prop. }
  destruct (require_session _ _ _ _ _) as [t|] eqn:Er; [|done]. apply require_session_write in Er as (Ht & v & Hv & Hp).
  cbn. rewrite Hv. cbn. intros E Hin. right; right. exists v. split; [by exists t|].
  destruct (session_has_permission _ _ _ _ _ PERMISSION_FLEET_ADMIN) eqn:Ef; [left; by exists t|]. right.
  injection E as <-. cbn in Hin. unfold eq_ignore_ascii_case in *. bool_prop. rewrite lower_idem' in Hin. by apply bool_decide_eq_true_2.
Qed.

Abbreviation serve_ := (serve fields_json voucher_json operator_id signing_key security c h).

Ltac opened :=
  cbn [serve]; match goal with |- only_if _ ?m _ => let m' := eval red in m in change m with m' end.
Ltac guarded :=
  first [ apply only_if_keeps; solve [frames]
        | eapply only_if_guard; intros ??; first [apply require_session_may | apply control_ok]
        | apply only_if_check; intros ??; by apply service_ok ].

Lemma store_guarded r : only_if store (serve_ r) may_write.
Proof.
  destruct r; opened; try guarded.
  apply only_if_skip. intros token. guarded.
Qed.

Lemma identities_guarded r : only_if (fun s => enrolled_identities (auth s)) (serve_ r) (fun _ => service).
Proof.
  destruct r; opened; try guarded; apply only_if_keeps; frames; apply keeps_ids; intros.
  - by apply ids_issue.
  - by apply ids_verify.
  - by apply ids_revoke.
Qed.

Lemma checkpoints_guarded r :
  only_if (fun s => relayed_checkpoints (relay s)) (serve_ r) may_control.
Proof.
  destruct r; opened; try guarded; apply only_if_keeps; frames;
    apply (keeps_fst _ (fun s => checkpoint_file (relay s))), (keeps_part (fun r => (relayed_checkpoints r, checkpoint_file r))); intros.
  - by apply register_checkpoints.
  - by apply submit_checkpoints.
Qed.

Lemma admission_guarded r :
  only_if admission (serve_ r) may_control \/
  (exists d i, r = PostPeerJoin d i) \/ (exists d, r = PostPeerJoinRefresh d).
Proof. destruct r; try (left; opened; by guarded); right; eauto. Qed.

(** A change of the approvals is a challenge registered, or a receipt submitted, for a
    vault that the headers give a right to. *)
Lemma approvals_guarded r s :
  approval_challenges (relay (serve_ r s).2) <> approval_challenges (relay s) ->
  (exists ch, r = PostApprovalChallenge ch /\ may_approve (vault_id_hex ch) (auth s)) \/
  (exists rc ch rs, r = PostSubmitApproval rc /\ approval_challenges (relay s) !! r_challenge_id rc = Some (ch, rs) /\
                    may_approve (vault_id_hex ch) (auth s)).
Proof.
  assert (forall m : OTx Answer, keeps (fun s => approval_challenges (relay s)) m ->
          approval_challenges (relay (m s).2) <> approval_challenges (relay s) -> False) as Hk by (intros m Hm Hne; by rewrite Hm in Hne).
  destruct r; cbn [serve]; intros Hne;
    try (exfalso; revert Hne; apply Hk;
         match goal with |- keeps _ ?m => let m' := eval red in m in change m with m' end; frames;
         apply (keeps_fst _ (fun s => approval_file (relay s))), (keeps_part (fun r => (approval_challenges r, approval_file r))); intros;
         first [by apply relay_approvals | by apply confirm_approvals]).
  - left. eexists; split; [done|]. revert Hne. unfold post_approval_challenge, scope_guard. rewrite guard_run.
    destruct (approval_scope _ _ _ _ _ _) as [scope|] eqn:Es; [|done]. rewrite check_run. unfold enforce_approval_scope.
    destruct (in_scope scope _) eqn:Ei; [|done]. intros _. by eapply scope_ok.
  - right. revert Hne. unfold post_submit_approval, scope_guard. rewrite guard_run.
    destruct (approval_scope _ _ _ _ _ _) as [scope|] eqn:Es; [|done]. rewrite get_run. unfold or_refuse. rewrite check_run.
    unfold OperatorRelay.get_challenge_status. destruct (approval_challenges (relay s) !! _) as [[ch rs]|] eqn:El; [|done].
    rewrite check_run. unfold enforce_approval_scope. cbn [fst].
    destruct (in_scope scope _) eqn:Ei; [|done]. intros _. exists receipt, ch, rs. split; [done|]. split; [done|]. by eapply scope_ok.
Qed.

(** What a request does to the sessions and identities. *)
Definition auth_event (r : ApiRequest) (a : Auth) : list (AuthCall * AuthAction) :=
  match r with
  | PostChallenge req =>
      [(hc_auth c, AIssue (cr_vault_id_hex req) (cr_public_key_hex req)
                     (match cr_account_id req with Some a => Some a | None => header_str h "X-CipherVault-Account-Id" end)
                     (match cr_device_id_hex req with Some d => Some d | None => header_str h "X-CipherVault-Device-Id" end))]
  | PostSession id pk sig => [(hc_auth c, AVerify id pk sig)]
  | PostEnrollIdentity req =>
      if is_ok (require_service_token (hc_env c) h)
      then [(hc_auth c, AEnroll (ir_vault_id_hex req) (ir_public_key_hex req) (ir_permissions req) (ir_account_id req) (ir_device_id_hex req))]
      else []
  | PostRevokeIdentity req =>
      if is_ok (require_service_token (hc_env c) h) then [(hc_auth c, ARevokeIdentity (ir_vault_id_hex req) (ir_public_key_hex req))] else []
  | PostRevokeSession =>
      match require_session security (hc_auth c) a h true with Ok t => [(hc_auth c, ARevokeSession t)] | Err _ => [] end
  | _ => []
  end.

Lemma auth_run {E A B} (m : Tx Auth E A) (g : E -> Refusal) (k : A -> OTx B) s :
  (forall a, keeps auth (k a)) -> auth (tbind (map_terr g (on_auth m)) k s).2 = (m (auth s)).2.
Proof.
  intros Hk. unfold tbind, map_terr, on_auth. destruct (m (auth s)) as [[v|e] a']; cbn; [by rewrite Hk|done].
Qed.
Lemma auth_serve r s : auth (serve_ r s).2 = uacts security (auth_event r (auth s)) (auth s).
Proof.
  destruct r; cbn [serve auth_event];
    try (match goal with |- auth (?m s).2 = _ => let m' := eval red in m in cut (keeps auth m'); [intros H; exact (H s)|solve [frames]] end).
  - unfold post_challenge, refuse. cbv zeta. rewrite auth_run by frames. done.
  - unfold post_session, refuse. rewrite auth_run by frames. done.
  - unfold post_enroll_identity, service_guard, refuse. rewrite check_run. destruct (require_service_token _ _); [|done].
    rewrite auth_run by frames. done.
  - unfold post_revoke_identity, service_guard, refuse. rewrite check_run. destruct (require_service_token _ _); [|done].
    rewrite auth_run by frames. done.
  - unfold post_revoke_session, session_guard, refuse. rewrite guard_run. destruct (require_session _ _ _ _ _); [|done].
    rewrite auth_run by frames. done.
Qed.

(** C12: whatever the request and whatever fails while it runs: objects, leases, logs and the
    voucher ledger change only for a session with write permission on the vault that the
    request names; identities only for the service token; checkpoints and peers only for
    the service token or a session with write and fleet-admin permission, and, where the
    operator does not run strict authentication, for a request without a bearer token
    (peers also by a join); and approvals only when a challenge is registered that names a
    vault, or a receipt is submitted to a stored challenge of a vault, for which the
    request has the service token, write permission, fleet-admin permission elsewhere, or
    the same open mode.  A registration may replace a challenge that has the same
    identifier, also one of another vault. *)
Theorem operator_access r s :
  let s' := (serve_ r s).2 in
  (store s' <> store s -> may_write (auth s)) /\
  (enrolled_identities (auth s') <> enrolled_identities (auth s) -> service) /\
  (relayed_checkpoints (relay s') <> relayed_checkpoints (relay s) -> may_control (auth s)) /\
  (admission s' <> admission s ->
   may_control (auth s) \/ (exists d i, r = PostPeerJoin d i) \/ (exists d, r = PostPeerJoinRefresh d)) /\
  (approval_challenges (relay s') <> approval_challenges (relay s) ->
   (exists ch, r = PostApprovalChallenge ch /\ may_approve (vault_id_hex ch) (auth s)) \/
   (exists rc ch rs, r = PostSubmitApproval rc /\ approval_challenges (relay s) !! r_challenge_id rc = Some (ch, rs) /\
                     may_approve (vault_id_hex ch) (auth s))).
Proof.
  intros s'. split; [apply store_guarded|]. split; [apply identities_guarded|]. split; [apply checkpoints_guarded|].
  split; [|apply approvals_guarded]. intros Hne. destruct (admission_guarded r) as [Hg|Hj]; [left; by apply Hg|by right].
Qed.
End Access.

(** ** Histories *)

Section History.
Context {HX : Hex} {HL : HexLaws HX} {ED : Ed25519} {SH : Sha256} {KE : Keccak256} {LJ : LedgerJson} {JL : JsonDoc Lease.LeaseReceipt}.
Context {CG : Cbor Genesis.GenesisRecord} {CD : Cbor DeviceCert.DeviceCertificate} {CH : Cbor Head.HeadRecord}.
Context {CE : Cbor Envelope.EpochEnvelope} {CS : Cbor Snapshot.SnapshotRecord}.
Context {JE : JsonDoc (list EnrolledIdentity)} {JN : JsonDoc (list PersistedSession)} {JC : JsonDoc (list PersistedChallenge)}.
Context {LE : JsonDocLaws _ JE} {LN : JsonDocLaws _ JN} {LC : JsonDocLaws _ JC}.
Context {JP : JsonDoc (gmap str Peer.PeerDescriptor)} {JM : JsonDoc (gmap str PeerMembership)}.
Context {JS : JsonDoc (gmap str Z)} {JA : JsonDoc (list AdmissionRecord)} {JI : JsonDoc Invite.JoinInvite}.
Context {JR : JsonDoc (gmap str RelayerReceipt)} {JO : JsonDoc (gmap str Collected)}.
Variables (fields_json : Lease.signed_fields -> bytes) (voucher_json : str -> result str WriteVoucher).
Variables (operator_id : str) (signing_key : bytes) (security : OperatorSecurityConfig).

Inductive Event : Type := Http (h : Headers) (r : ApiRequest) | Reboot.
Definition reboot (c : HttpCall) (s : Operator) : Operator :=
  MkOperator (restart_auth (hc_auth c) (auth s)) (load_voucher_ledger (store s)) (restart_relay (hc_relay c) (relay s))
    (restart (hc_join c) (admission s)).
Definition react (ce : HttpCall * Event) (s : Operator) : Operator :=
  match ce.2 with
  | Http h r => (serve fields_json voucher_json operator_id signing_key security ce.1 h r s).2
  | Reboot => reboot ce.1 s
  end.
Definition run (history : list (HttpCall * Event)) (s : Operator) : Operator := foldl (fun s ce => react ce s) s history.

(** The part of a history that concerns sessions and identities. *)
Definition auth_events (ce : HttpCall * Event) (a : Auth) : list (AuthCall * AuthAction) :=
  match ce.2 with Http h r => auth_event security ce.1 h r a | Reboot => [(hc_auth ce.1, ARestart)] end.
Fixpoint auth_history (history : list (HttpCall * Event)) (s : Operator) : list (AuthCall * AuthAction) :=
  match history with
  | [] => []
  | ce :: rest => auth_events ce (auth s) ++ auth_history rest (react ce s)
  end.

Lemma react_auth ce s : auth (react ce s) = uacts security (auth_events ce (auth s)) (auth s).
Proof. destruct ce as [c [h r|]]; [apply auth_serve|done]. Qed.
Lemma run_auth history s : auth (run history s) = uacts security (auth_history history s) (auth s).
Proof.
  revert s; induction history as [|ce history IH]; intros s; [done|].
  change (run (ce :: history) s) with (run history (react ce s)). cbn [auth_history]. rewrite IH, react_auth. unfold uacts. by rewrite foldl_app.
Qed.
Lemma auth_history_calls history s :
  Forall (fun ce => call_ok (hc_auth ce.1)) history -> Forall (fun ca => call_ok ca.1) (auth_history history s).
Proof.
  intros Hh. revert s; induction Hh as [|[c e] history Hc _ IH]; intros s; [constructor|]. cbn. apply Forall_app. split; [|apply IH].
  assert (forall a : AuthAction, Forall (fun ca : AuthCall * AuthAction => call_ok ca.1) [(hc_auth c, a)]) as Ha by (intros a; apply Forall_cons_2; [exact Hc|apply Forall_nil_2]).
  destruct e as [h r|]; cbn; [|apply Ha]. destruct r; cbn; repeat case_match; first [apply Ha | apply Forall_nil_2].
Qed.

(** In every history of an operator that starts without sessions, a request that changes
    objects, leases, logs or the ledger comes with the token of a session for the vault it
    names, and that session was opened by a key that signed the nonce of a challenge
    issued to it for that vault. *)
Theorem stored_data_needs_login history s0 c h r :
  auth s0 = new_node -> Forall (fun ce => call_ok (hc_auth ce.1)) history ->
  let s := run history s0 in
  store (serve fields_json voucher_json operator_id signing_key security c h r s).2 <> store s ->
  exists token vault scope pk, extract_token h = Some token /\ extract_vault_id h = Some vault /\
    eq_ignore_ascii_case scope vault = true /\ logged_in security (auth_history history s0) token pk scope.
Proof.
  intros H0 Hc s Hne. apply store_guarded in Hne as (vault & token & Ht & Hv & Hp). exists token, vault.
  pose proof (run_auth history s0) as Ea. fold s in Ea. rewrite H0 in Ea. rewrite Ea in Hp.
  unfold session_has_permission, validate_session_for_vault, validate_write_session in Hp.
  destruct (bool_decide (token = []) || _); [done|]. destruct (sessions _ !! token) as [e|] eqn:Es; [|done].
  destruct (session_login security _ token e (auth_history_calls _ s0 Hc) Es) as (pk & scope & _ & Hs & Hl). rewrite Hs in Hp.
  exists scope, pk. destruct (_ <=? e); [|done]. destruct (eq_ignore_ascii_case scope vault); done.
Qed.
End History.
