(* ===== verification/OperatorTenants.v ===== *)
(** * What a tenant of the operator sees

    Answers about approvals and leases are limited to the vault of the session, except
    for the anonymous token of clean-machine recovery, which reads the approvals of any
    vault it names; and a challenge is registered over another vault's. *)

From S2P Require Import Prelude Errors Sorting Tables Primitives SamplePrimitives Crypto Schema Vouchers Invites Approval.
From S2P Require Import OperatorCore Admission AdmissionJoin OperatorAuth OperatorAuthTheory RecoveryLog ObjectStore ObjectStoreTheory.
From S2P Require Import Anchor OperatorRelay OperatorHandlers SampleOperator OperatorAccess.

#[local] Open Scope tx_scope.



Section Tenants.
Context {HX : Hex} {ED : Ed25519} {SH : Sha256} {KE : Keccak256} {LJ : LedgerJson} {JL : JsonDoc Lease.LeaseReceipt}.
Context {CG : Cbor Genesis.GenesisRecord} {CD : Cbor DeviceCert.DeviceCertificate} {CH : Cbor Head.HeadRecord}.
Context {CE : Cbor Envelope.EpochEnvelope} {CS : Cbor Snapshot.SnapshotRecord}.
Context {JE : JsonDoc (list EnrolledIdentity)} {JN : JsonDoc (list PersistedSession)} {JC : JsonDoc (list PersistedChallenge)}.
Context {JP : JsonDoc (gmap str Peer.PeerDescriptor)} {JM : JsonDoc (gmap str PeerMembership)}.
Context {JS : JsonDoc (gmap str Z)} {JA : JsonDoc (list AdmissionRecord)} {JI : JsonDoc Invite.JoinInvite}.
Context {JR : JsonDoc (gmap str RelayerReceipt)} {JO : JsonDoc (gmap str Collected)}.
Variables (fields_json : Lease.signed_fields -> bytes) (voucher_json : str -> result str WriteVoucher).
Variables (operator_id : str) (signing_key : bytes) (security : OperatorSecurityConfig).
Variables (c : HttpCall) (h : Headers).
Abbreviation serve_ := (serve fields_json voucher_json operator_id signing_key security c h).


Lemma in_scope_lower mine v : in_scope (Some (lower mine)) v = eq_ignore_ascii_case mine v.
Proof. cbn. unfold eq_ignore_ascii_case. by rewrite lower_idem'. Qed.




(** The token that anyone may use to read ciphertext on a clean machine also reads
    approvals: with it, and without a session, the pending challenges of any vault named
    in the header are listed, and any challenge of that vault is returned with its
    receipts. *)
Theorem anonymous_reads_approvals vault s :
  is_ok (require_service_token (hc_env c) h) = false ->
  extract_token h = Some anonymous -> extract_vault_id h = Some vault ->
  serve_ GetPendingChallenges s =
    (Ok (Challenges (filter (fun ch => eq_ignore_ascii_case vault (vault_id_hex ch))
                            (OperatorRelay.get_pending_challenges (hc_relay c) (relay s)))), s) /\
  (forall (id : str) ch rs, approval_challenges (relay s) !! id = Some ((ch, rs) : Collected) -> eq_ignore_ascii_case vault (vault_id_hex ch) = true ->
    serve_ (GetChallengeStatus id) s = (Ok (ChallengeIs ch rs), s)).
Proof.
  intros Hns Ht Hv.
  assert (approval_scope security (hc_env c) (hc_auth c) (auth s) h false = Ok (Some (lower vault))) as Hs.
  { unfold approval_scope. rewrite Hns, Ht, (bool_decide_false (Some anonymous = None)) by done. rewrite andb_false_r. cbn [orb].
    unfold require_session. rewrite Ht, Hv, bool_decide_true by done. cbn. unfold session_has_permission, validate_session_for_vault, validate_write_session.
    rewrite (bool_decide_true (anonymous = anonymous)), orb_true_r by done. done. }
  split.
  - cbn [serve]. unfold get_pending_challenges, scope_guard. rewrite guard_run, Hs, get_run. unfold tret. do 3 f_equal.
    apply list_filter_iff. intros ch. by rewrite in_scope_lower.
  - intros id ch rs Hid Hin. cbn [serve]. unfold get_challenge_status, scope_guard. rewrite guard_run, Hs, get_run.
    unfold OperatorRelay.get_challenge_status, or_refuse. rewrite Hid, check_run. unfold enforce_approval_scope. cbn [fst snd].
    by rewrite in_scope_lower, Hin.
Qed.

(** Registering a challenge checks the vault of the new challenge only: one that carries
    the identifier of another vault's challenge replaces it, with the receipts. *)
Theorem challenge_replaced_across_vaults ch old rs s u s' :
  approval_challenges (relay s) !! Approval.challenge_id ch = Some ((old, rs) : Collected) ->
  serve_ (PostApprovalChallenge ch) s = (Ok u, s') ->
  approval_challenges (relay s') !! Approval.challenge_id ch = Some ((ch, []) : Collected) /\
  (exists scope, approval_scope security (hc_env c) (hc_auth c) (auth s) h true = Ok scope /\ in_scope scope (vault_id_hex ch) = true).
Proof.
  intros Hold. cbn [serve]. unfold post_approval_challenge, scope_guard. rewrite guard_run.
  destruct (approval_scope _ _ _ _ _ _) as [scope|]; [|done]. rewrite check_run. unfold enforce_approval_scope.
  destruct (in_scope scope _) eqn:Ei; [|done]. cbn [negb]. intros E. split; [|by exists scope].
  apply tbind_ok in E as (v & s1 & E & (_ & ->)%tret_ok). revert E. unfold refuse, map_terr, on_relay.
  destruct (register_approval_challenge _ ch (relay s)) as [[[]|e] r'] eqn:Er; [|done]. intros [= _ <-]. cbn [relay].
  revert Er. unfold register_approval_challenge. destruct (is_expired _ _); [done|]. rewrite get_run.
  destruct (relay s) as [t a f g]. unfold tbind, tmodify, tcatch, persist_approval_challenges. cbn.
  persisting f' Ep; [|done]. intros [= <-]. cbn. apply lookup_insert_eq.
Qed.
End Tenants.

(** ** Examples *)

Lemma operator_access_witness :
  may_write strict (http_call 1100) device (auth logged_in_operator).
Proof.
  apply (proj1 (operator_access sample_fields_json sample_voucher_json (lit "op") operator_sk strict (http_call 1100) device
                  (PutObject payload_cid payload) logged_in_operator)).
  intros E. apply (f_equal (fun t => bool_decide (objects t = ∅))) in E. vm_compute in E. discriminate E.
Defined.

Definition login_day : list (HttpCall * Event) :=
  [(http_call 1000, Http admin (PostEnrollIdentity identity)); (http_call 1010, Http (headers []) (PostChallenge login_request));
   (http_call 1020, Http (headers []) (PostSession challenge_id device_pk answer)); (http_call 1050, Reboot)].
Abbreviation run_ := (run sample_fields_json sample_voucher_json (lit "op") operator_sk strict).
Lemma stored_data_needs_login_witness :
  exists token vault scope pk, extract_token device = Some token /\ extract_vault_id device = Some vault /\
    eq_ignore_ascii_case scope vault = true /\
    logged_in strict (auth_history sample_fields_json sample_voucher_json (lit "op") operator_sk strict login_day new_operator) token pk scope.
Proof.
  eapply (stored_data_needs_login sample_fields_json sample_voucher_json (lit "op") operator_sk strict login_day new_operator
            (http_call 1100) device (PutObject payload_cid payload)).
  - reflexivity.
  - repeat (apply Forall_cons_2; [apply auth_call_ok|]). apply Forall_nil_2.
  - intros E. apply (f_equal (fun t => bool_decide (objects t = ∅))) in E. vm_compute in E. discriminate E.
Defined.

(** The administrator opens a challenge for another vault and one for the device's. *)
Definition other_vault : str := hex_encode (replicate 32 6).
Definition approval_for (id vault : str) : ApprovalChallenge :=
  {| Approval.challenge_id := id; vault_id_hex := vault; action := KeyRotation; requester_device_id_hex := [];
     Approval.nonce_hex := []; created_at_utc := 1000; expires_at_utc := 9000; details := [] |}.
Definition approving_operator : Operator :=
  let s1 := (request 1100 admin (PostApprovalChallenge (approval_for (lit "a") other_vault)) logged_in_operator).2 in
  (request 1110 admin (PostApprovalChallenge (approval_for (lit "b") vault)) s1).2.
Definition nobody : Headers := headers (bearer anonymous other_vault).


(** Nobody lists the challenge of the vault that the header names. *)
Lemma anonymous_reads_approvals_witness :
  exists l, request 1200 nobody GetPendingChallenges approving_operator = (Ok (Challenges l), approving_operator) /\
    Approval.challenge_id <$> l = [lit "a"].
Proof.
  eexists. split.
  - apply (proj1 (anonymous_reads_approvals sample_fields_json sample_voucher_json (lit "op") operator_sk strict (http_call 1200) nobody
                    other_vault approving_operator eq_refl eq_refl eq_refl)).
  - vm_compute. reflexivity.
Defined.

(** The device registers its own challenge under the identifier of the other vault's. *)
Lemma challenge_replaced_across_vaults_witness :
  let s' := (request 1200 device (PostApprovalChallenge (approval_for (lit "a") vault)) approving_operator).2 in
  approval_challenges (relay s') !! lit "a" = Some ((approval_for (lit "a") vault, []) : Collected) /\ vault <> other_vault.
Proof.
  intros s'. split; [|vm_compute; discriminate].
  refine (proj1 (challenge_replaced_across_vaults sample_fields_json sample_voucher_json (lit "op") operator_sk strict (http_call 1200) device
            (approval_for (lit "a") vault) (approval_for (lit "a") other_vault) [] approving_operator Done s' _ _)).
  - vm_compute. reflexivity.
  - assert ((request 1200 device (PostApprovalChallenge (approval_for (lit "a") vault)) approving_operator).1 = Ok Done) as E1
      by (vm_compute; reflexivity). rewrite <- E1. apply surjective_pairing.
Defined.
