(* ===== verification/OperatorRelayTheory.v ===== *)
(** * What the relay and the approvals of the operator promise

    A checkpoint that is reported as confirmed was seen on the chain; the receipts of an
    approval challenge verify and come from different keys. *)

From S2P Require Import Prelude Errors Tables Primitives SamplePrimitives Crypto Schema Shamir Vouchers Invites Approval.
From S2P Require Import OperatorCore Admission AdmissionJoin OperatorAuth OperatorAuthTheory RecoveryLog ObjectStore ObjectStoreTheory.
From S2P Require Import Anchor OperatorRelay OperatorHandlers SampleOperator OperatorAccess.

#[local] Open Scope tx_scope.

(** ** Anchors *)

Section Anchors.
Context {HX : Hex} {KE : Keccak256} {SH : Sha256}.

(** What the node answered about the transaction of the evidence. *)
Record anchored (rpc : Rpc) (registry : bytes) (ev : Checkpoint.CheckpointEvidence) (tx : TransactionReceipt) : Prop := {
  an_preimage : Checkpoint.verify_commitment ev = true;
  an_hash : tx_hash_present (Checkpoint.tx_hash ev) = true;
  an_receipt : get_transaction_receipt rpc (Checkpoint.tx_hash ev) = Ok (Some tx);
  an_status : status tx = true;
  an_to : to tx = registry;
  an_published : exists log rest, log ∈ receipt_logs tx /\ address log = registry /\
    topics log = COMMITMENT_PUBLISHED_TOPIC :: Checkpoint.commitment ev :: rest;
  an_registered : exists b, query_first_seen_block rpc registry (Checkpoint.commitment ev) = Ok (Some b);
}.

Lemma commitment_length ev : Checkpoint.verify_commitment ev = true -> (blen (Checkpoint.commitment ev) =? 32) = true.
Proof. unfold Checkpoint.verify_commitment. by destruct (blen (Checkpoint.commitment ev) =? 32); rewrite ?orb_true_r. Qed.
Lemma ok_or_some {A} (r : result StorageError (option A)) a : ok_or r None = Some a -> r = Ok (Some a).
Proof. destruct r as [o|]; cbn; [|done]. by intros ->. Qed.

Lemma binds_published tx registry commitment :
  receipt_binds_commitment tx registry commitment = true ->
  to tx = registry /\ exists log rest, log ∈ receipt_logs tx /\ address log = registry /\ topics log = COMMITMENT_PUBLISHED_TOPIC :: commitment :: rest.
Proof.
  unfold receipt_binds_commitment. rewrite andb_true_iff, bool_decide_eq_true, existsb_exists. intros (Hto & log & Hin & Hlog). split; [done|].
  rewrite !andb_true_iff, !bool_decide_eq_true in Hlog. destruct Hlog as ((Ha & H0) & H1). exists log.
  destruct (topics log) as [|t0 [|t1 rest]] eqn:E; cbn in H0, H1; simplify_eq. exists rest. split; [by apply list_elem_of_In|done].
Qed.

(** A report that is confirmed, with its preimage valid, rests on an anchored transaction. *)
Lemma report_anchored rpc chain registry ev report :
  verify_evidence rpc chain registry ev = Ok report ->
  preimage_valid report = true -> on_chain_confirmed report = true -> receipt_verified report = true ->
  exists tx, anchored rpc registry ev tx /\ receipt_block_number report = Some (block_number tx) /\
    finality_stage report =
      (let depth := sat_sub (current_chain_block report) (block_number tx) in
       if depth >=? 50400 then DeeplyConfirmed (block_number tx)
       else if depth >=? 64 then L2Confirmed (block_number tx) else SequencerConfirmed (block_number tx)).
Proof.
  unfold verify_evidence. destruct (negb _); [done|]. destruct (_ || _); [done|].
  unfold evaluate_anchor_confirmation. cbv zeta.
  set (receipt := if tx_hash_present _ then _ else _).
  destruct (tx_hash_present (Checkpoint.tx_hash ev)) eqn:Eh; cbn [andb].
  2: { rewrite andb_false_r, orb_true_r. by intros [= <-]. }
  destruct receipt as [tx|] eqn:Er; cbn [andb].
  2: { rewrite andb_false_r, orb_true_r. by intros [= <-]. }
  destruct (status tx) eqn:Es; cbn [andb].
  2: { rewrite andb_false_r, orb_true_r. by intros [= <-]. }
  destruct (receipt_binds_commitment _ _ _) eqn:Eb; cbn [andb].
  2: { rewrite andb_false_r, orb_true_r. by intros [= <-]. }
  destruct (ok_or (query_first_seen_block _ _ _) None) as [b|] eqn:Eq; cbn -[Z.geb].
  2: { rewrite orb_true_r. by intros [= <-]. }
  destruct (Checkpoint.verify_commitment ev) eqn:Ev; [|by intros [= <-]]. cbn -[Z.geb]. intros [= <-] _ _ _. cbn -[Z.geb].
  rewrite (commitment_length ev Ev) in Eb, Eq. exists tx. subst receipt. split; [|done].
  apply binds_published in Eb as (Hto & Hpub). split; try done; [by apply ok_or_some|]. exists b. by apply ok_or_some.
Qed.

(** The stage that is reported never overstates what was seen: apart from pending, it
    names the block of an anchored transaction and a depth below the head of the report. *)
Theorem anchor_stage_sound rpc chain registry ev report :
  verify_evidence rpc chain registry ev = Ok report -> finality_stage report <> Pending ->
  exists tx, anchored rpc registry ev tx /\
    match finality_stage report with
    | Pending => False
    | SequencerConfirmed n => n = block_number tx
    | L2Confirmed n => n = block_number tx /\ n + 64 <= current_chain_block report
    | DeeplyConfirmed n => n = block_number tx /\ n + 50400 <= current_chain_block report
    end.
Proof.
  intros E Hne.
  assert (preimage_valid report = true /\ on_chain_confirmed report = true /\ receipt_verified report = true) as (H1 & H2 & H3).
  { revert E Hne. unfold verify_evidence. destruct (negb _); [done|]. destruct (_ || _); [done|]. unfold evaluate_anchor_confirmation.
    cbv zeta. set (present := tx_hash_present _). set (receipt := if present then _ else _).
    set (rv := present && _ && _ && _). destruct (Checkpoint.verify_commitment ev); [|by intros [= <-]].
    destruct (bool_decide _ && rv) eqn:Ec; [|by intros [= <-]]. apply andb_prop in Ec as (Ec1 & Ec2). cbn -[Z.geb].
    intros [= <-] _. done. }
  destruct (report_anchored _ _ _ _ _ E H1 H2 H3) as (tx & Ha & _ & Es). exists tx. split; [done|]. rewrite Es. cbv zeta. unfold sat_sub.
  destruct (_ >=? 50400) eqn:E1; [split; [done|]; lia|]. destruct (_ >=? 64) eqn:E2; [split; [done|]; lia|done].
Qed.
End Anchors.

(** ** Checkpoints *)

Section Checkpoints.
Context {HX : Hex} {ED : Ed25519} {SH : Sha256} {KE : Keccak256}.
Context {JR : JsonDoc (gmap str RelayerReceipt)} {JO : JsonDoc (gmap str Collected)} {LR : JsonDocLaws _ JR}.
Variable c : RelayCall.
Variable backed : str -> RelayerReceipt -> Prop.

Definition cps_ok (s : Relay) : Prop :=
  map_Forall backed (relayed_checkpoints s) /\ on_disk (map_Forall backed) (checkpoint_file s).
Lemma cps_ok_with t s : cps_ok s -> map_Forall backed t -> cps_ok (with_checkpoints t s).
Proof. destruct s. by intros (_ & Hd) Ht. Qed.
Lemma cps_ok_persist t s : cps_ok s -> map_Forall backed t -> hoare cps_ok (persist_relayed_checkpoints c t) s (fun _ => cps_ok).
Proof.
  destruct s as [m a f g]. intros (Hm & Hd) Ht. unfold hoare, persist_relayed_checkpoints.
  persisting f' E; apply persist_written in E; (split; [done|]); cbn; by eapply on_disk_written.
Qed.
Create HintDb cps.
Hint Resolve cps_ok_with cps_ok_persist : cps.

Lemma relay_ok ev s :
  (forall t, backed (hex_encode (Checkpoint.commitment ev))
     {| rr_commitment_hex := hex_encode (Checkpoint.commitment ev); rr_tx_hash_hex := []; rr_block_number := 0;
        rr_status := queued; rr_timestamp := t |}) ->
  cps_ok s -> hoare cps_ok (relay_checkpoint c ev) s (fun _ => cps_ok).
Proof.
  intros Hq Hs. unfold relay_checkpoint. destruct (negb _); [by apply keep_ret|]. apply hoare_get_bind. destruct (_ !! _); [by apply keep_ret|].
  destruct (_ >=? _); [by apply keep_ret|]. cbv zeta. pose proof (proj1 Hs) as Hm.
  match goal with |- context [<[?k := ?v]> ?t] => set (t' := <[k := v]> t); assert (map_Forall backed t') as Ht by (by apply map_Forall_insert_2);
    pose proof (map_Forall_delete _ t' k Ht) as Ht' end.
  keep ltac:(eauto 6 with cps nocore).
Qed.
Lemma confirm_ok ev report s :
  (forall b r, receipt_block_number report = Some b -> preimage_valid report = true -> on_chain_confirmed report = true ->
     receipt_verified report = true -> backed (hex_encode (Checkpoint.commitment ev)) r ->
     backed (hex_encode (Checkpoint.commitment ev)) (settle (hex_encode (Checkpoint.tx_hash ev)) b confirmed r)) ->
  cps_ok s -> hoare cps_ok (confirm_relayed_checkpoint c ev report) s (fun _ => cps_ok).
Proof.
  intros Hc Hs. unfold confirm_relayed_checkpoint.
  destruct (preimage_valid report); [|by apply keep_ret]. destruct (on_chain_confirmed report); [|by apply keep_ret].
  destruct (receipt_verified report); [|by apply keep_ret]. cbn [negb orb]. cbv zeta.
  destruct (receipt_block_number report) as [b|]; [|by apply keep_ret]. destruct (_ || _); [by apply keep_ret|]. apply hoare_get_bind.
  destruct (relayed_checkpoints s !! _) as [prev|] eqn:El; [|by apply keep_ret].
  pose proof (proj1 Hs) as Hm. pose proof (Hm _ _ El) as Hp. pose proof (Hc b prev eq_refl eq_refl eq_refl eq_refl Hp) as Hb.
  match goal with |- context [<[?k := ?v]> (relayed_checkpoints s)] => set (t' := <[k := v]> (relayed_checkpoints s));
    assert (map_Forall backed t') as Ht by (by apply map_Forall_insert_2); assert (map_Forall backed (<[k := prev]> t')) as Ht' by (by apply map_Forall_insert_2) end.
  keep ltac:(eauto 6 with cps nocore).
Qed.
Lemma restart_relay_ok s : cps_ok s -> cps_ok (restart_relay c s).
Proof.
  destruct s as [m a f g]. intros (_ & Hd). split; [|done]. cbn. intros k r Hk.
  apply map_lookup_filter_Some in Hk as (Hk & _). destruct (read_doc (T := gmap str RelayerReceipt) f) as [t|] eqn:E; [by eapply Hd|done].
Qed.
End Checkpoints.

(** ** Approvals *)

Section Approvals.
Context {HX : Hex} {ED : Ed25519}.
Context {JO : JsonDoc (gmap str Collected)} {LO : JsonDocLaws _ JO} {JR : JsonDoc (gmap str RelayerReceipt)}.
Variable c : RelayCall.

(** The key named in the receipt signed the challenge. *)
Definition authentic (r : SignedApprovalReceipt) (ch : ApprovalChallenge) : Prop := exists pk sig,
  hex_decode (approver_pk_hex r) = Ok pk /\ hex_decode (Approval.signature_hex r) = Ok sig /\
  verify_with_domain pk approval_domain (receipt_bytes r ch) sig = Ok tt.
Lemma verify_authentic now r ch : Approval.verify now r ch = Ok tt -> r_challenge_id r = Approval.challenge_id ch /\ authentic r ch.
Proof.
  unfold Approval.verify. case_bool_decide as Hid; [|done]. cbn [negb]. destruct (is_expired _ _); [done|].
  destruct (hex_decode (approver_pk_hex r)) as [pk|] eqn:Ep; [|done]. cbn. destruct (blen pk =? 32); [|done]. cbn.
  destruct (hex_decode (Approval.signature_hex r)) as [sig|] eqn:Es; [|done]. cbn. destruct (blen sig =? 64); [|done]. cbn.
  destruct (verify_with_domain _ _ _ _) as [[]|] eqn:Ev; [|done]. intros _. split; [done|]. by exists pk, sig.
Qed.

Definition collected_ok (id : str) (p : Collected) : Prop :=
  Approval.challenge_id p.1 = id /\ NoDup (approver_pk_hex <$> p.2) /\ Forall (fun r => r_challenge_id r = id /\ authentic r p.1) p.2.
Definition apr_ok (s : Relay) : Prop :=
  map_Forall collected_ok (approval_challenges s) /\ on_disk (map_Forall collected_ok) (approval_file s).
Lemma apr_ok_with t s : apr_ok s -> map_Forall collected_ok t -> apr_ok (with_approvals t s).
Proof. destruct s. by intros (_ & Hd) Ht. Qed.
Lemma apr_ok_persist t s : apr_ok s -> map_Forall collected_ok t -> hoare apr_ok (persist_approval_challenges c t) s (fun _ => apr_ok).
Proof.
  destruct s as [m a f g]. intros (Hm & Hd) Ht. unfold hoare, persist_approval_challenges.
  persisting f' E; apply persist_written in E; (split; [done|]); cbn; by eapply on_disk_written.
Qed.
Create HintDb apr.
Hint Resolve apr_ok_with apr_ok_persist : apr.

Lemma register_ok ch s : apr_ok s -> hoare apr_ok (register_approval_challenge c ch) s (fun _ => apr_ok).
Proof.
  intros Hs. unfold register_approval_challenge. destruct (is_expired _ _); [by apply keep_ret|]. apply hoare_get_bind. cbv zeta.
  set (t' := <[_ := _]> _).
  assert (map_Forall collected_ok t') as Ht.
  { apply map_Forall_insert_2; [split; [done|]; split; [apply NoDup_nil_2|apply Forall_nil_2]|]. intros k p Hk.
    apply map_lookup_filter_Some in Hk as (Hk & _). by apply (proj1 Hs). }
  pose proof (map_Forall_delete _ t' (Approval.challenge_id ch) Ht) as Ht'. keep ltac:(eauto 6 with apr nocore).
Qed.
Lemma recorded_false r rs : recorded r rs = false -> approver_pk_hex r ∉ approver_pk_hex <$> rs.
Proof.
  unfold recorded. intros Hf (r' & E & Hin)%list_elem_of_fmap. apply not_true_iff_false in Hf. apply Hf, existsb_exists.
  exists r'. split; [by apply list_elem_of_In|]. by apply bool_decide_eq_true.
Qed.
Lemma collect_ok now r ch rs :
  collected_ok (Approval.challenge_id ch) (ch, rs) -> Approval.verify now r ch = Ok tt ->
  collected_ok (Approval.challenge_id ch) (ch, if recorded r rs then rs else rs ++ [r]).
Proof.
  intros (_ & Hn & Hf) Hv. destruct (recorded r rs) eqn:Er; [done|]. split; [done|]. cbn in *. split.
  - rewrite fmap_app. apply NoDup_snoc; [done|]. by apply recorded_false.
  - apply Forall_app. split; [done|]. apply Forall_cons_2; [exact (verify_authentic _ _ _ Hv)|apply Forall_nil_2].
Qed.
Lemma submit_ok r s : apr_ok s -> hoare apr_ok (submit_approval_receipt c r) s (fun _ => apr_ok).
Proof.
  intros Hs. unfold submit_approval_receipt. cbv zeta. apply hoare_get_bind.
  destruct (approval_challenges s !! r_challenge_id r) as [[ch rs]|] eqn:El; [|by apply keep_ret].
  pose proof (proj1 Hs _ _ El) as Hp. pose proof (proj1 Hp) as Hid. cbn in Hid. rewrite <- Hid in *.
  destruct (Approval.verify (rl_now c "verify") r ch) as [[]|] eqn:Ev; [|exact Hs].
  pose proof (collect_ok _ _ _ _ Hp Ev) as Hc. set (t' := <[Approval.challenge_id ch := (ch, if recorded r rs then rs else rs ++ [r])]> (approval_challenges s)).
  assert (map_Forall collected_ok t') as Ht by (apply map_Forall_insert_2; [done|exact (proj1 Hs)]).
  assert (map_Forall collected_ok (<[Approval.challenge_id ch := (ch, rs)]> t')) as Ht' by (by apply map_Forall_insert_2).
  keep ltac:(eauto 6 with apr nocore).
Qed.
Lemma restart_approvals_ok s : apr_ok s -> apr_ok (restart_relay c s).
Proof.
  destruct s as [m a f g]. intros (_ & Hd). split; [|done]. cbn. intros id p Hp. rewrite map_lookup_imap in Hp.
  destruct (read_doc (T := gmap str Collected) g) as [t|] eqn:E; [|done]. cbn in Hp.
  destruct (t !! id) as [[ch rs]|] eqn:Et; [|done]. cbn in Hp. specialize (Hd _ E _ _ Et). destruct Hd as (Hid & Hn & Hf).
  destruct (_ || _); [done|]. injection Hp as <-. split; [done|]. cbn in *. split.
  - apply NoDup_fmap_2_strong; [|by apply NoDup_filter; eapply NoDup_fmap_1].
    intros x y (_ & Hx)%list_elem_of_filter (_ & Hy)%list_elem_of_filter. by eapply key_unique.
  - apply Forall_forall. intros r Hr. apply list_elem_of_filter in Hr as (_ & Hr). by eapply Forall_forall in Hf.
Qed.
End Approvals.

Section History.
Context {HX : Hex} {HL : HexLaws HX} {ED : Ed25519} {SH : Sha256} {KE : Keccak256} {LJ : LedgerJson} {JL : JsonDoc Lease.LeaseReceipt}.
Context {CG : Cbor Genesis.GenesisRecord} {CD : Cbor DeviceCert.DeviceCertificate} {CH : Cbor Head.HeadRecord}.
Context {CE : Cbor Envelope.EpochEnvelope} {CS : Cbor Snapshot.SnapshotRecord}.
Context {JE : JsonDoc (list EnrolledIdentity)} {JN : JsonDoc (list PersistedSession)} {JC : JsonDoc (list PersistedChallenge)}.
Context {JP : JsonDoc (gmap str Peer.PeerDescriptor)} {JM : JsonDoc (gmap str PeerMembership)}.
Context {JS : JsonDoc (gmap str Z)} {JA : JsonDoc (list AdmissionRecord)} {JI : JsonDoc Invite.JoinInvite}.
Context {JR : JsonDoc (gmap str RelayerReceipt)} {JO : JsonDoc (gmap str Collected)} {LR : JsonDocLaws _ JR} {LO : JsonDocLaws _ JO}.
Variables (fields_json : Lease.signed_fields -> bytes) (voucher_json : str -> result str WriteVoucher).
Variables (operator_id : str) (signing_key : bytes) (security : OperatorSecurityConfig).
Abbreviation react_ := (react fields_json voucher_json operator_id signing_key security).
Abbreviation run_ := (run fields_json voucher_json operator_id signing_key security).

(** The checkpoint was posted in the history, and the node that was configured then
    answered with an anchored transaction, whose hash and block are recorded. *)
Definition seen_on_chain (history : list (HttpCall * Event)) (key : str) (r : RelayerReceipt) : Prop :=
  exists c h ev chain registry tx, (c, Http h (PostRelayerCheckpoint ev)) ∈ history /\
    configured_anchor hex_decode (hc_env c) = Ok (Some (chain, registry)) /\ anchored (hc_rpc c) registry ev tx /\
    key = hex_encode (Checkpoint.commitment ev) /\ rr_tx_hash_hex r = hex_encode (Checkpoint.tx_hash ev) /\
    rr_block_number r = block_number tx.
Definition backed (history : list (HttpCall * Event)) (key : str) (r : RelayerReceipt) : Prop :=
  rr_commitment_hex r = key /\
  ((rr_status r = queued /\ rr_tx_hash_hex r = [] /\ rr_block_number r = 0) \/ (rr_status r = confirmed /\ seen_on_chain history key r)).

Lemma post_checkpoint_ok history c h ev s :
  (c, Http h (PostRelayerCheckpoint ev)) ∈ history -> cps_ok (backed history) (relay s) ->
  cps_ok (backed history) (relay (post_relayer_checkpoint security c h ev s).2).
Proof.
  intros Hin Hs. unfold post_relayer_checkpoint, control_guard. rewrite guard_run. destruct (require_control_auth _ _ _ _ _); [|done].
  unfold refuse, map_terr, on_relay, tbind at 1.
  assert (cps_ok (backed history) (relay_checkpoint (hc_relay c) ev (relay s)).2) as H1.
  { apply hoare_state, relay_ok; [|done]. intros t. split; [done|]. by left. }
  destruct (relay_checkpoint _ ev (relay s)) as [[receipt|e] r1]; [|done]. cbn in H1. cbn [map_err]. rewrite check_run.
  destruct (configured_anchor _ _) as [[[chain registry]|]|] eqn:Ea; [|done|done]. cbn.
  destruct (verify_evidence _ _ _ _) as [report|] eqn:Ev; [|done]. destruct (_ && _); [|done]. unfold tbind. cbn.
  assert (cps_ok (backed history) (confirm_relayed_checkpoint (hc_relay c) ev report r1).2) as H2.
  { apply hoare_state, confirm_ok; [|done]. intros b r Hb Hp Hc Hr (Hk & _). split; [done|]. right. split; [done|].
    destruct (report_anchored _ _ _ _ _ Ev Hp Hc Hr) as (tx & Ha & Hn & _). rewrite Hb in Hn. injection Hn as ->.
    by exists c, h, ev, chain, registry, tx. }
  by destruct (confirm_relayed_checkpoint _ ev report r1) as [[]].
Qed.

(** Every other request leaves the checkpoints, in memory and on disk, alone. *)
Lemma other_requests c h r :
  match r with
  | PostRelayerCheckpoint _ => True
  | _ => keeps (fun s => (relayed_checkpoints (relay s), checkpoint_file (relay s)))
           (serve fields_json voucher_json operator_id signing_key security c h r)
  end.
Proof.
  destruct r; cbn [serve]; try done; (match goal with |- keeps _ ?m => let m' := eval red in m in change m with m' end); frames;
    apply (keeps_part (fun r => (relayed_checkpoints r, checkpoint_file r))); intros; first [by apply register_checkpoints|by apply submit_checkpoints].
Qed.
Lemma react_checkpoints history ce s :
  ce ∈ history -> cps_ok (backed history) (relay s) -> cps_ok (backed history) (relay (react_ ce s)).
Proof.
  intros Hin Hs. destruct ce as [c [h r|]]; [|by apply restart_relay_ok]. unfold react. cbn [fst snd].
  pose proof (other_requests c h r) as Hk.
  assert ((exists ev, r = PostRelayerCheckpoint ev) \/
          keeps (fun s => (relayed_checkpoints (relay s), checkpoint_file (relay s)))
            (serve fields_json voucher_json operator_id signing_key security c h r)) as [(ev & ->)|Hk'] by (destruct r; eauto).
  - by apply post_checkpoint_ok.
  - specialize (Hk' s). injection Hk' as E1 E2. unfold cps_ok in *. by rewrite E1, E2.
Qed.
Lemma run_checkpoints history done_ s :
  (forall ce, ce ∈ done_ -> ce ∈ history) -> cps_ok (backed history) (relay s) -> cps_ok (backed history) (relay (run_ done_ s)).
Proof.
  revert s; induction done_ as [|ce rest IH]; intros s Hin Hs; [done|]. apply (IH (react_ ce s)); [intros; apply Hin; by right|].
  apply react_checkpoints; [apply Hin; by left|done].
Qed.

(** C20: in every history of an operator that starts without checkpoints, whatever the client
    put into its evidence and across restarts and writes that fail: a checkpoint is queued
    with no transaction, or it is confirmed and the configured node itself returned a
    successful receipt that publishes this commitment in the registry, together with the
    registration, and the recorded hash and block are those of that transaction. *)
Theorem checkpoint_confirmed_on_chain history s0 (key : str) r :
  relayed_checkpoints (relay s0) = ∅ -> checkpoint_file (relay s0) = None ->
  relayed_checkpoints (relay (run_ history s0)) !! key = Some r ->
  rr_commitment_hex r = key /\
  ((rr_status r = queued /\ rr_tx_hash_hex r = [] /\ rr_block_number r = 0) \/ (rr_status r = confirmed /\ seen_on_chain history key r)).
Proof.
  intros Hm Hf. assert (cps_ok (backed history) (relay s0)) as H0.
  { split; [rewrite Hm; apply map_Forall_empty|]. rewrite Hf. by intros v. }
  intros Hk. exact (proj1 (run_checkpoints history history s0 (fun ce H => H) H0) key r Hk).
Qed.

Lemma other_approvals c h r :
  match r with
  | PostApprovalChallenge _ | PostSubmitApproval _ => True
  | _ => keeps (fun s => (approval_challenges (relay s), approval_file (relay s)))
           (serve fields_json voucher_json operator_id signing_key security c h r)
  end.
Proof.
  destruct r; cbn [serve]; try done; (match goal with |- keeps _ ?m => let m' := eval red in m in change m with m' end); frames;
    apply (keeps_part (fun r => (approval_challenges r, approval_file r))); intros; first [by apply relay_approvals|by apply confirm_approvals].
Qed.
Lemma relay_bind {E A B} (I : Relay -> Prop) (g : E -> Refusal) (m : Tx Relay E A) (k : A -> OTx B) s :
  hoare I m (relay s) (fun _ => I) -> (forall a, keeps relay (k a)) -> I (relay (tbind (map_terr g (on_relay m)) k s).2).
Proof.
  intros Hm%hoare_state Hk. unfold tbind, map_terr, on_relay. destruct (m (relay s)) as [[a|e] r]; cbn in *; [by rewrite Hk|done].
Qed.
Lemma react_approvals ce s : apr_ok (relay s) -> apr_ok (relay (react_ ce s)).
Proof.
  intros Hs. destruct ce as [c [h r|]]; [|by apply restart_approvals_ok]. unfold react. cbn [fst snd].
  assert (keeps (fun s => (approval_challenges (relay s), approval_file (relay s)))
            (serve fields_json voucher_json operator_id signing_key security c h r) \/
          (exists ch, r = PostApprovalChallenge ch) \/ (exists rc, r = PostSubmitApproval rc)) as [Hk|[(ch & ->)|(rc & ->)]]
    by (pose proof (other_approvals c h r); destruct r; eauto).
  - specialize (Hk s). injection Hk as E1 E2. unfold apr_ok in *. by rewrite E1, E2.
  - cbn [serve]. unfold post_approval_challenge, scope_guard, refuse. rewrite guard_run. destruct (approval_scope _ _ _ _ _ _); [|done].
    rewrite check_run. destruct (enforce_approval_scope _ _); [|done]. apply relay_bind; [by apply register_ok|frames].
  - cbn [serve]. unfold post_submit_approval, scope_guard, refuse, or_refuse. rewrite guard_run. destruct (approval_scope _ _ _ _ _ _); [|done].
    rewrite get_run, check_run. destruct (OperatorRelay.get_challenge_status _ _) as [p|]; [|done]. rewrite check_run.
    destruct (enforce_approval_scope _ _); [|done]. apply relay_bind; [by apply submit_ok|frames].
Qed.

(** In every history of an operator that starts without approvals, across restarts and
    writes that fail: each challenge is stored under its own identifier, and the receipts
    collected for it name pairwise different keys, each of which signed that challenge. *)
Theorem approvals_authentic history s0 (id : str) ch rs :
  approval_challenges (relay s0) = ∅ -> approval_file (relay s0) = None ->
  approval_challenges (relay (run_ history s0)) !! id = Some ((ch, rs) : Collected) ->
  Approval.challenge_id ch = id /\ NoDup (approver_pk_hex <$> rs) /\ Forall (fun r => r_challenge_id r = id /\ authentic r ch) rs.
Proof.
  intros Hm Hf. assert (apr_ok (relay s0)) as H0.
  { split; [rewrite Hm; apply map_Forall_empty|]. rewrite Hf. by intros v. }
  assert (apr_ok (relay (run_ history s0))) as (Ht & _).
  { clear Hm Hf. revert s0 H0; induction history as [|ce rest IH]; intros s0 H0; [done|]. apply (IH (react_ ce s0)). by apply react_approvals. }
  intros Hk. exact (Ht id (ch, rs) Hk).
Qed.
End History.

(** ** Examples *)

Definition registry : bytes := replicate 20 9.
Definition tx_hash : bytes := replicate 32 8.
Definition evidence (claimed_block : Z) : Checkpoint.CheckpointEvidence :=
  Checkpoint.new (replicate 32 1) (replicate 32 2) 42161 registry tx_hash claimed_block 1000.
Definition published : Json := JObject [
  ("blockNumber", JString (lit "0x64")); ("status", JString (lit "0x1")); ("to", JString (hex0x registry));
  ("logs", JArray [JObject [("address", JString (hex0x registry));
    ("topics", JArray [JString (hex0x COMMITMENT_PUBLISHED_TOPIC); JString (hex0x (Checkpoint.commitment (evidence 0)))])]])]%string.
(** A node at block [head]; [None] when it does not answer for its head. *)
Definition node_rpc (head : option str) (receipt : Json) : Rpc := fun method _ =>
  let ok v := Reply 200 (Ok (JObject [("result"%string, v)])) in
  if bool_decide (method = "eth_blockNumber"%string) then match head with Some n => ok (JString n) | None => NoReply "timeout" end
  else if bool_decide (method = "eth_call"%string) then ok (JString (lit "0x01"))
  else ok receipt.

Lemma anchor_stage_sound_witness :
  exists report, verify_evidence (node_rpc (Some (lit "0xaa")) published) 42161 registry (evidence 0) = Ok report /\
    finality_stage report = L2Confirmed 100 /\
    exists tx, anchored (node_rpc (Some (lit "0xaa")) published) registry (evidence 0) tx /\ 100 = block_number tx.
Proof.
  destruct (verify_evidence (node_rpc (Some (lit "0xaa")) published) 42161 registry (evidence 0)) as [report|] eqn:E;
    [|vm_compute in E; discriminate].
  assert (finality_stage report = L2Confirmed 100) as Es by (vm_compute in E; injection E as <-; reflexivity).
  exists report. split; [reflexivity|]. split; [exact Es|].
  destruct (anchor_stage_sound _ _ _ _ report E) as (tx & Ha & Hb); [rewrite Es; discriminate|].
  rewrite Es in Hb. exists tx. split; [exact Ha|]. exact (proj1 Hb).
Defined.

(** The depth is counted from two numbers that the node need not have given: when it does
    not answer for its head, the block number in the client's evidence is the head, and a
    receipt without a block number counts from block 0. *)
Example client_names_the_head :
  finality_stage <$> (match verify_evidence (node_rpc None published) 42161 registry (evidence 50500) with Ok r => Some r | Err _ => None end)
  = Some (DeeplyConfirmed 100).
Proof. vm_compute. reflexivity. Qed.
Definition unmined : Json := match published with JObject fields => JObject (tail fields) | v => v end.
Example receipt_without_block_is_deep :
  finality_stage <$> (match verify_evidence (node_rpc (Some (lit "0xffff")) unmined) 42161 registry (evidence 0) with Ok r => Some r | Err _ => None end)
  = Some (DeeplyConfirmed 0).
Proof. vm_compute. reflexivity. Qed.

Definition relay_env : Env := fun name =>
  if bool_decide (name = SERVICE_TOKEN) then Some (lit "s3cret")
  else if bool_decide (name = "ARBITRUM_RPC_URL"%string) then Some (lit "https://node")
  else if bool_decide (name = "CIPHERVAULT_REGISTRY_CONTRACT"%string) then Some (hex0x registry) else None.
Definition relayer_call (rpc : Rpc) : HttpCall :=
  let c := http_call 1100 in
  {| hc_env := relay_env; hc_now := hc_now c; hc_busy := false; hc_auth := hc_auth c; hc_store := hc_store c;
     hc_relay := hc_relay c; hc_join := hc_join c; hc_rpc := rpc; hc_leases := [] |}.
Abbreviation run_sample := (run sample_fields_json sample_voucher_json (lit "op") operator_sk strict).
(** Posted while the node is down, again once the transaction is mined, then a restart. *)
Definition anchoring : list (HttpCall * Event) :=
  [(relayer_call no_rpc, Http admin (PostRelayerCheckpoint (evidence 0)));
   (relayer_call (node_rpc (Some (lit "0x65")) published), Http admin (PostRelayerCheckpoint (evidence 0)));
   (http_call 1200, Reboot)].

Lemma checkpoint_confirmed_on_chain_witness :
  exists r, relayed_checkpoints (relay (run_sample anchoring new_operator)) !! hex_encode (Checkpoint.commitment (evidence 0)) = Some r /\
    rr_status r = confirmed /\ seen_on_chain anchoring (hex_encode (Checkpoint.commitment (evidence 0))) r.
Proof.
  assert (rr_status <$> relayed_checkpoints (relay (run_sample anchoring new_operator)) !! hex_encode (Checkpoint.commitment (evidence 0))
          = Some confirmed) as H by (vm_compute; reflexivity).
  destruct (relayed_checkpoints (relay (run_sample anchoring new_operator)) !! hex_encode (Checkpoint.commitment (evidence 0))) as [r|] eqn:E;
    [|discriminate H].
  injection H as Es. exists r. split; [reflexivity|]. split; [exact Es|].
  destruct (checkpoint_confirmed_on_chain sample_fields_json sample_voucher_json (lit "op") operator_sk strict anchoring new_operator
              (hex_encode (Checkpoint.commitment (evidence 0))) r eq_refl eq_refl E) as (_ & [(Hq & _)|(_ & Hs)]); [|exact Hs].
  rewrite Es in Hq. discriminate Hq.
Defined.

(** One approver, and the same approver again with the key in capital letters. *)
Definition ask : ApprovalChallenge :=
  {| Approval.challenge_id := lit "a"; vault_id_hex := vault; action := KeyRotation; requester_device_id_hex := [];
     Approval.nonce_hex := []; created_at_utc := 1000; expires_at_utc := 9000; details := [] |}.
Definition guardian_sk : bytes := replicate 32 10.
Definition guardian_receipt (pk_hex : str) : SignedApprovalReceipt :=
  {| r_challenge_id := lit "a"; approver_name := lit "ada"; approver_pk_hex := pk_hex; approved_at_utc := 1100;
     Approval.signature_hex :=
       hex_encode (sign_with_domain guardian_sk approval_domain (compute_signing_bytes ask (lit "ada") pk_hex 1100)) |}.
Definition guardian_pk : str := hex_encode (verifying_key guardian_sk).
Definition approving : list (HttpCall * Event) :=
  [(http_call 1100, Http admin (PostApprovalChallenge ask)); (http_call 1110, Http admin (PostSubmitApproval (guardian_receipt guardian_pk)));
   (http_call 1120, Http admin (PostSubmitApproval (guardian_receipt guardian_pk))); (http_call 1130, Reboot)].

Lemma approvals_authentic_witness :
  exists rs, approval_challenges (relay (run_sample approving new_operator)) !! lit "a" = Some ((ask, rs) : Collected) /\
    length rs = 1%nat /\ Forall (fun r => r_challenge_id r = lit "a" /\ authentic r ask) rs.
Proof.
  assert ((fun p : Collected => (p.1, length p.2)) <$> approval_challenges (relay (run_sample approving new_operator)) !! lit "a" = Some (ask, 1%nat))
    as H by (vm_compute; reflexivity).
  destruct (approval_challenges (relay (run_sample approving new_operator)) !! lit "a") as [[ch rs]|] eqn:E; [|discriminate H].
  injection H as -> Hl.
  exists rs. split; [reflexivity|]. split; [exact Hl|].
  destruct (approvals_authentic sample_fields_json sample_voucher_json (lit "op") operator_sk strict approving new_operator (lit "a") ask rs
              eq_refl eq_refl E) as (_ & _ & Hf). exact Hf.
Defined.

Example approver_counted_twice :
  (request 1140 admin (PostSubmitApproval (guardian_receipt (to_ascii_uppercase <$> guardian_pk))) (run_sample approving new_operator)).1
  = Ok (ApprovalCount 2).
Proof. vm_compute. reflexivity. Qed.
