(* ===== verification/OperatorSession.v ===== *)
(** * A day of a device

    On an operator whose disk works, an enrolled device gets a challenge, answers it,
    stores an object and reads it back, through the HTTP interface. *)

From S2P Require Import Prelude Errors Tables Primitives SamplePrimitives Crypto Schema Vouchers VouchersTheory Invites Approval.
From S2P Require Import OperatorCore Admission AdmissionJoin OperatorAuth OperatorAuthTheory RecoveryLog ObjectStore ObjectStoreTheory.
From S2P Require Import Anchor OperatorRelay OperatorHandlers SampleOperator OperatorAccess.

#[local] Open Scope tx_scope.

Lemma persist_sure {T} `{JsonDoc T} (v : T) file : (exists b, doc_write v = Ok b) -> exists f, persist_doc Saved v file = (Ok tt, f).
Proof. intros (b & E). unfold persist_doc. rewrite E. by eexists. Qed.
Lemma tcatch_ok {S E A} (m : Tx S E A) g s a s' : m s = (Ok a, s') -> tcatch m g s = (Ok a, s').
Proof. unfold tcatch. by intros ->. Qed.
Lemma tbind_run {S E A B} (m : Tx S E A) (k : A -> Tx S E B) s a s' : m s = (Ok a, s') -> tbind m k s = k a s'.
Proof. unfold tbind. by intros ->. Qed.

Lemma token_long {HX : Hex} {HL : HexLaws HX} b : is_bytes b -> length b = 32%nat -> hex_encode b <> [] /\ hex_encode b <> anonymous.
Proof. intros Hb Hl. pose proof (hex_encode_length b Hb) as E. rewrite Hl in E. split; intros E'; rewrite E' in E; discriminate E. Qed.

Section Device.
Context {HX : Hex} {HL : HexLaws HX} {ED : Ed25519} {EL : Ed25519Laws ED}.
Context {JE : JsonDoc (list EnrolledIdentity)} {JN : JsonDoc (list PersistedSession)} {JC : JsonDoc (list PersistedChallenge)}.
Hypothesis sessions_written : forall l : list PersistedSession, exists b, doc_write l = Ok b.
Hypothesis challenges_written : forall l : list PersistedChallenge, exists b, doc_write l = Ok b.
Variable security : OperatorSecurityConfig.

(** The disk works and what is drawn at random are bytes. *)
Definition healthy_auth (c : AuthCall) : Prop :=
  (forall at_, ac_persist c at_ = Saved) /\ is_bytes (ac_nonce_bytes c) /\ is_bytes (ac_token_bytes c) /\ length (ac_token_bytes c) = 32%nat.

Variables (sk vault_id : bytes).
Hypothesis vault_bytes : is_bytes vault_id.
Hypothesis vault_length : length vault_id = 32%nat.
Definition vault_hex : str := hex_encode vault_id.
Definition pk_hex : str := hex_encode (verifying_key sk).

(** The identity that counts for the device is active and may read and write. *)
Definition enrolled_device (l : list EnrolledIdentity) : Prop :=
  is_identity_enrolled_with_binding l vault_hex pk_hex None None = true /\
  exists i, find (fun i => eq_ignore_ascii_case (en_vault_id_hex i) vault_hex && bool_decide (en_public_key_hex i = pk_hex)) l = Some i /\
    en_revoked_at_utc i = None /\ Z.land (en_permissions i) PERMISSION_WRITE = PERMISSION_WRITE /\
    Z.land (en_permissions i) PERMISSION_READ = PERMISSION_READ.

Lemma hex_len_encode b : is_bytes b -> length b = 32%nat -> hex_len_is 32 (hex_encode b) = true.
Proof. intros Hb Hl. unfold hex_len_is. rewrite hex_decode_encode by done. unfold blen. by rewrite Hl. Qed.
Lemma lower_encode b : is_bytes b -> lower (hex_encode b) = hex_encode b.
Proof. intros Hb. by apply (hex_decode_lower (hex_encode b) b), hex_decode_encode. Qed.
Lemma vault_hex_ok : hex_len_is 32 vault_hex = true /\ lower vault_hex = vault_hex.
Proof. split; [by apply hex_len_encode|by apply lower_encode]. Qed.
Lemma pk_hex_ok : hex_len_is 32 pk_hex = true /\ lower pk_hex = pk_hex.
Proof. split; [apply hex_len_encode; [apply verifying_key_bytes|apply verifying_key_length]|apply lower_encode, verifying_key_bytes]. Qed.

Lemma issue_runs c s :
  healthy_auth c -> enrolled_device (enrolled_identities s) ->
  exists s', issue_challenge_with_binding security c vault_hex pk_hex None None s
    = (Ok (hex_encode (ac_id_bytes c), hex_encode (ac_nonce_bytes c), ac_now c "issue" + 300), s') /\
  challenges s' !! hex_encode (ac_id_bytes c) =
    Some {| ch_nonce_hex := hex_encode (ac_nonce_bytes c); ch_expires_at_utc := ac_now c "issue" + 300;
            ch_vault_id_hex := vault_hex; ch_public_key_hex := pk_hex; ch_account_id := None; ch_device_id_hex := None |} /\
  enrolled_identities s' = enrolled_identities s.
Proof.
  intros (Hp & _) (He & _). unfold issue_challenge_with_binding.
  destruct vault_hex_ok as (-> & Ev), pk_hex_ok as (-> & Ep). cbn [negb]. rewrite check_run.
  change (normalize_identity_binding None None) with (Ok (E := str) (@None str, @None str)). cbv beta iota zeta.
  rewrite Ev, Ep, get_run. rewrite He, andb_false_r. cbv zeta. rewrite get_run. destruct s as [h e k v b i f1 f2 f3].
  unfold tbind at 1, tmodify, with_challenges. cbv iota beta. set (t := <[_ := _]> _).
  destruct (persist_sure (challenge_record <$> ac_iter c _ t) f3 (challenges_written _)) as (f & Ef).
  eexists. split; [|split].
  - erewrite tbind_run; [|apply tcatch_ok; unfold persist_challenges; cbn [challenges challenges_file]; rewrite Hp, Ef; reflexivity]. reflexivity.
  - apply lookup_insert_eq.
  - done.
Qed.

(** What a login leaves behind. *)
Definition signed_in (token : str) (expires : Z) (s : Auth) : Prop :=
  sessions s !! token = Some expires /\ session_keys s !! token = Some (verifying_key sk) /\
  session_vaults s !! token = Some vault_hex /\ session_bindings s !! token = Some (None, None).
Definition response (nonce : bytes) : str := hex_encode (sign_with_domain sk challenge_domain nonce).

Lemma verify_runs c s id nonce expires :
  healthy_auth c -> enrolled_device (enrolled_identities s) -> is_bytes nonce ->
  challenges s !! id = Some {| ch_nonce_hex := hex_encode nonce; ch_expires_at_utc := expires; ch_vault_id_hex := vault_hex;
                               ch_public_key_hex := pk_hex; ch_account_id := None; ch_device_id_hex := None |} ->
  ac_now c "verify" <= expires ->
  exists s', verify_and_create_session security c id pk_hex (response nonce) s = (Ok (Some (hex_encode (ac_token_bytes c))), s') /\
    signed_in (hex_encode (ac_token_bytes c)) (ac_now c "verify" + 3600) s' /\ enrolled_identities s' = enrolled_identities s.
Proof.
  intros (Hp & _ & Htb & _) (He & _) Hn Hc Hnow. unfold verify_and_create_session. cbv zeta. rewrite get_run, Hc.
  destruct s as [h e k v b i f1 f2 f3]. unfold tbind at 1, tmodify at 1, with_challenges. cbv iota beta. cbn [challenges] in *.
  destruct (persist_sure (challenge_record <$> ac_iter c _ (delete id h)) f3 (challenges_written _)) as (f & Ef).
  erewrite tbind_run; [|apply tcatch_ok; unfold persist_challenges; cbn [challenges challenges_file]; rewrite Hp, Ef; reflexivity].
  cbn [ch_expires_at_utc]. destruct (Z.gtb_spec (ac_now c "verify") expires); [lia|]. cbn [ch_public_key_hex].
  unfold eq_ignore_ascii_case. rewrite bool_decide_true by done. cbn [negb]. rewrite get_run. cbn [enrolled_identities ch_vault_id_hex ch_account_id ch_device_id_hex].
  cbn [enrolled_identities] in He. rewrite He, andb_false_r.
  assert (answered {| ch_nonce_hex := hex_encode nonce; ch_expires_at_utc := expires; ch_vault_id_hex := vault_hex;
                      ch_public_key_hex := pk_hex; ch_account_id := None; ch_device_id_hex := None |} pk_hex (response nonce) = Some (verifying_key sk)) as ->.
  { unfold answered, pk_hex, response. cbn [ch_nonce_hex].
    rewrite !hex_decode_encode by (done || apply verifying_key_bytes || apply ed_sign_bytes). unfold blen.
    rewrite verifying_key_length. unfold sign_with_domain at 1. rewrite ed_sign_length, verify_sign_with_domain. done. }
  unfold create_session. cbv zeta. rewrite get_run. unfold tbind at 1, tmodify at 1, with_sessions. cbv iota beta.
  cbn [ch_vault_id_hex ch_account_id ch_device_id_hex]. set (st := MkAuth _ _ _ _ _ _ _ _ _).
  destruct (persist_sure (session_records c st) f2 (sessions_written _)) as (f' & Ef').
  eexists. split; [|split].
  - erewrite tbind_run; [|apply tcatch_ok; unfold persist_sessions; rewrite Hp; change (sessions_file st) with f2; rewrite Ef'; reflexivity]. reflexivity.
  - subst st. cbn. repeat split; apply lookup_insert_eq.
  - done.
Qed.

Lemma signed_in_may c s token expires permission :
  signed_in token expires s -> enrolled_device (enrolled_identities s) -> token <> [] -> token <> anonymous ->
  ac_now c "validate" <= expires -> permission = PERMISSION_WRITE \/ permission = PERMISSION_READ ->
  session_has_permission security c s token vault_hex permission = true.
Proof.
  intros (Hs & Hk & Hv & Hb) (He & i & Hf & Hr & Hw & Hrd) H1 H2 Hnow Hperm.
  unfold session_has_permission, validate_session_for_vault, validate_write_session, get_session_vault_id, get_session_public_key.
  rewrite (bool_decide_false (token = [])), (bool_decide_false (token = anonymous)), Hs, Hv, Hk, Hb by done. cbn [orb].
  destruct (Z.leb_spec (ac_now c "validate") expires); [|lia]. cbn [negb]. unfold eq_ignore_ascii_case at 1.
  rewrite bool_decide_true by done. cbn -[is_identity_enrolled_with_binding]. change (hex_encode (verifying_key sk)) with pk_hex.
  destruct (require_enrollment security); rewrite ?He; cbn [negb]; rewrite Hf, Hr, bool_decide_true by done;
    destruct Hperm as [->| ->]; rewrite ?Hw, ?Hrd; done.
Qed.
End Device.

Section Day.
Context {HX : Hex} {HL : HexLaws HX} {ED : Ed25519} {EL : Ed25519Laws ED} {SH : Sha256} {SL : Sha256Laws SH} {KE : Keccak256}.
Context {LJ : LedgerJson} {JL : JsonDoc Lease.LeaseReceipt}.
Context {CG : Cbor Genesis.GenesisRecord} {CD : Cbor DeviceCert.DeviceCertificate} {CH : Cbor Head.HeadRecord}.
Context {CE : Cbor Envelope.EpochEnvelope} {CS : Cbor Snapshot.SnapshotRecord}.
Context {JE : JsonDoc (list EnrolledIdentity)} {JN : JsonDoc (list PersistedSession)} {JC : JsonDoc (list PersistedChallenge)}.
Context {JP : JsonDoc (gmap str Peer.PeerDescriptor)} {JM : JsonDoc (gmap str PeerMembership)}.
Context {JS : JsonDoc (gmap str Z)} {JA : JsonDoc (list AdmissionRecord)} {JI : JsonDoc Invite.JoinInvite}.
Context {JR : JsonDoc (gmap str RelayerReceipt)} {JO : JsonDoc (gmap str Collected)}.
Variables (fields_json : Lease.signed_fields -> bytes) (voucher_json : str -> result str WriteVoucher).
Variables (operator_id : str) (signing_key : bytes) (security : OperatorSecurityConfig).
Abbreviation serve_ := (serve fields_json voucher_json operator_id signing_key security).

Lemma address_length body : str_len (hex_encode (compute_digest body)) = 64.
Proof.
  rewrite <- as_bytes_len, as_bytes_hex by apply sha256_bytes. unfold blen. rewrite hex_encode_length by apply sha256_bytes.
  unfold compute_digest. by rewrite sha256_length.
Qed.
(** A put without a voucher, where none is required. *)
Lemma put_runs c body s :
  sc_persist c "object" = Saved -> ledger_failed s = false -> vouchers_required s = false -> blen body <= max_object_size (sc_env c) ->
  let cid := hex_encode (compute_digest body) in
  exists s', put_object_with_voucher signing_key c cid body None s = (Ok tt, s') /\ objects s' !! cid = Some body.
Proof.
  intros Hp Hf Hv Hsize cid. unfold put_object_with_voucher. rewrite get_run. cbv zeta.
  erewrite tbind_run; [|unfold authorize_write; rewrite get_run, Hf, get_run, Hv; reflexivity].
  assert (exists net s', put_object_inner c cid body s = (Ok net, s')) as (net & s' & E).
  { unfold put_object_inner. cbv zeta. destruct (Z.gtb_spec (blen body) (max_object_size (sc_env c))); [lia|].
    unfold cid. rewrite address_length. cbn [negb Z.eqb Pos.eqb]. rewrite check_run, hex_decode_encode by apply sha256_bytes. cbn [negb Z.eqb Pos.eqb map_err].
    unfold blen at 1, compute_digest at 1. rewrite sha256_length. change (negb (Z.of_nat 32 =? 32)) with false. cbv iota.
    rewrite (bool_decide_true (compute_digest body = compute_digest body)) by done. cbn [negb]. rewrite get_run. case_bool_decide; [by eexists _, _|].
    unfold tbind, persist_object, persist_atomic. rewrite Hp. by eexists _, _. }
  pose proof (put_stores c cid body s) as Hs. unfold hoare in Hs. rewrite E in Hs.
  exists s'. split; [|apply Hs]. erewrite tbind_run; [|apply tcatch_ok; unfold map_terr; rewrite E; reflexivity].
  by destruct net.
Qed.

(** The four requests: a challenge for the key, its answer, a put and a get. *)
Section Requests.
Variables (sk vault_id body : bytes) (c1 c2 c3 c4 : HttpCall) (h1 h2 h3 : Headers) (s : Operator).
Definition token_of (c : HttpCall) : str := hex_encode (ac_token_bytes (hc_auth c)).
Definition day1 : result Refusal Answer * Operator :=
  serve_ c1 h1 (PostChallenge {| cr_vault_id_hex := vault_hex vault_id; cr_public_key_hex := pk_hex sk; cr_account_id := None; cr_device_id_hex := None |}) s.
Definition day2 : result Refusal Answer * Operator :=
  serve_ c2 h2 (PostSession (hex_encode (ac_id_bytes (hc_auth c1))) (pk_hex sk) (response sk (ac_nonce_bytes (hc_auth c1)))) day1.2.
Definition day3 : result Refusal Answer * Operator := serve_ c3 h3 (PutObject (hex_encode (compute_digest body)) body) day2.2.
Definition day4 : result Refusal Answer * Operator := serve_ c4 h3 (GetObject (hex_encode (compute_digest body))) day3.2.

Record good_day : Prop := {
  gd_sessions : forall l : list PersistedSession, exists b, doc_write l = Ok b;
  gd_challenges : forall l : list PersistedChallenge, exists b, doc_write l = Ok b;
  gd_vault : is_bytes vault_id /\ length vault_id = 32%nat;
  gd_disk : healthy_auth (hc_auth c1) /\ healthy_auth (hc_auth c2) /\ sc_persist (hc_store c3) "object" = Saved /\ sc_read (hc_store c4) "get" = true;
  gd_free : hc_busy c3 = false /\ hc_busy c4 = false;
  gd_plain : header_str h1 "X-CipherVault-Account-Id" = None /\ header_str h1 "X-CipherVault-Device-Id" = None;
  gd_bearer : extract_token h3 = Some (token_of c2) /\ extract_vault_id h3 = Some (vault_hex vault_id) /\ h3 "X-CipherVault-Voucher"%string = None;
  gd_answered : ac_now (hc_auth c2) "verify" <= ac_now (hc_auth c1) "issue" + 300;
  gd_live : ac_now (hc_auth c3) "validate" <= ac_now (hc_auth c2) "verify" + 3600 /\
            ac_now (hc_auth c4) "validate" <= ac_now (hc_auth c2) "verify" + 3600;
  gd_open : ledger_failed (store s) = false /\ vouchers_required (store s) = false /\ blen body <= max_object_size (sc_env (hc_store c3));
  gd_enrolled : enrolled_device sk vault_id (enrolled_identities (auth s));
}.

Lemma session_passes c a expires write :
  is_bytes vault_id -> length vault_id = 32%nat -> healthy_auth (hc_auth c2) -> extract_token h3 = Some (token_of c2) ->
  extract_vault_id h3 = Some (vault_hex vault_id) -> signed_in sk vault_id (token_of c2) expires a ->
  enrolled_device sk vault_id (enrolled_identities a) -> ac_now (hc_auth c) "validate" <= expires ->
  require_session security (hc_auth c) a h3 write = Ok (token_of c2).
Proof.
  intros Hb Hl (_ & _ & Htb & Htl) Ht Hv Hs He Hnow. destruct (token_long _ Htb Htl) as (H1 & H2). fold (token_of c2) in H1, H2.
  unfold require_session. rewrite Ht, Hv, (bool_decide_false (token_of c2 = anonymous)), andb_false_r by done.
  destruct (vault_hex_ok vault_id Hb Hl) as (-> & _). cbn [negb].
  erewrite (signed_in_may security sk vault_id Hl (hc_auth c) a (token_of c2) expires) by (done || by destruct write; [left|right]). done.
Qed.

(** C15: an enrolled device can work on a good day: its challenge is issued, its signature opens
    a session, and the object it stores in that session is the one it reads back.  On such
    a day the operator asks for no vouchers and its ledger has not failed, its writes and
    reads work and it is not busy, the request carries no account or device binding, the
    object is within the size limit, the challenge is answered within its 300 seconds, and
    the session is used within its 3600. *)
Theorem enrolled_device_can_work :
  good_day ->
  day1.1 = Ok (Challenge (hex_encode (ac_id_bytes (hc_auth c1))) (hex_encode (ac_nonce_bytes (hc_auth c1))) (ac_now (hc_auth c1) "issue" + 300)) /\
  day2.1 = Ok (Session (token_of c2) (hc_now c2 + 3600)) /\ day3.1 = Ok Done /\ day4.1 = Ok (Object body).
Proof.
  intros [Hjs Hjc (Hvb & Hvl) (Hc1 & Hc2 & Hc3 & Hc4) (Hb3 & Hb4) (Ha & Hd) (Ht & Hv & Hw) Hans (Hn3 & Hn4) (Hf & Hreq & Hsize) He].
  unfold day4, day3, day2, day1. cbn [serve]. unfold post_challenge. cbv zeta. cbn [cr_account_id cr_device_id_hex cr_vault_id_hex cr_public_key_hex].
  rewrite Ha, Hd.
  destruct (issue_runs Hjc security sk vault_id Hvb Hvl (hc_auth c1) (auth s) Hc1 He) as (a1 & E1 & Hch & Hi1).
  erewrite tbind_run; [|unfold refuse, map_terr, on_auth; rewrite E1; reflexivity]. cbn [fst snd tret]. split; [done|].
  destruct (verify_runs Hjs Hjc security sk vault_id Hvl (hc_auth c2) a1 _ (ac_nonce_bytes (hc_auth c1)) _ Hc2 (eq_ind_r (enrolled_device sk vault_id) He Hi1)
              (proj1 (proj2 Hc1)) Hch Hans) as (a2 & E2 & Hin & Hi2).
  unfold post_session.
  erewrite tbind_run; [|unfold refuse, map_terr, on_auth; cbn [auth tret snd]; rewrite E2; reflexivity]. cbn [or_refuse].
  unfold or_refuse. rewrite check_run. cbn [fst snd tret]. split; [done|].
  assert (enrolled_device sk vault_id (enrolled_identities a2)) as He2 by (by rewrite Hi2, Hi1).
  unfold put_object, session_guard. rewrite guard_run. cbn [auth].
  rewrite (session_passes c3 a2 _ true Hvb Hvl Hc2 Ht Hv Hin He2 Hn3), check_run. unfold extract_voucher. rewrite Hw.
  destruct (put_runs (hc_store c3) body (store s) Hc3 Hf Hreq Hsize) as (t & E3 & Ho).
  erewrite tbind_run; [|unfold bounded_io; rewrite Hb3; unfold map_terr, on_store; cbn [store tret snd]; rewrite E3; reflexivity].
  cbn [fst snd tret]. split; [done|]. unfold get_object, session_guard. rewrite guard_run. cbn [auth].
  rewrite (session_passes c4 a2 _ false Hvb Hvl Hc2 Ht Hv Hin He2 Hn4). unfold bounded_io. rewrite Hb4, get_run. cbn [store].
  assert (ObjectStore.get_object (hc_store c4) t (hex_encode (compute_digest body)) = Some body) as ->; [|done].
  unfold ObjectStore.get_object, read_object. rewrite Hc4, Ho, hex_decode_encode by apply sha256_bytes. by rewrite address_length.
Qed.
End Requests.
End Day.

(** ** Example *)

(** An operator that asks for no vouchers, where the administrator has enrolled the device. *)
Definition open_operator : Operator :=
  (request 1000 admin (PostEnrollIdentity identity)
     (MkOperator new_node (MkStore ∅ ∅ ∅ ∅ (Vouchers.new 1000) None false false) (MkRelay ∅ ∅ None None) first_node)).2.
Definition plain_device : Headers := headers (bearer token vault).

Lemma is_bytes_replicate n z : 0 <= z < 256 -> is_bytes (replicate n z).
Proof. intros Hz. apply Forall_replicate. exact Hz. Qed.
Lemma http_call_healthy now : healthy_auth (hc_auth (http_call now)).
Proof. split; [done|]. split; [apply is_bytes_replicate; lia|]. split; [apply is_bytes_replicate; lia|done]. Qed.

Lemma enrolled_device_can_work_witness :
  (day4 sample_fields_json sample_voucher_json (lit "op") operator_sk strict device_sk (replicate 32 4) payload
     (http_call 1010) (http_call 1020) (http_call 1030) (http_call 1040) (headers []) (headers []) plain_device open_operator).1
  = Ok (Object payload).
Proof.
  refine (proj2 (proj2 (proj2 (enrolled_device_can_work sample_fields_json sample_voucher_json (lit "op") operator_sk strict device_sk (replicate 32 4)
            payload (http_call 1010) (http_call 1020) (http_call 1030) (http_call 1040) (headers []) (headers []) plain_device open_operator _)))).
  constructor.
  - intros l. eexists. reflexivity.
  - intros l. eexists. reflexivity.
  - split; [apply is_bytes_replicate; lia|reflexivity].
  - repeat split; try apply http_call_healthy.
  - split; reflexivity.
  - split; reflexivity.
  - split; [vm_compute; reflexivity|]. split; vm_compute; reflexivity.
  - vm_compute. discriminate.
  - split; vm_compute; discriminate.
  - split; [reflexivity|]. split; [reflexivity|]. vm_compute. discriminate.
  - split; [vm_compute; reflexivity|]. eexists. split; [vm_compute; reflexivity|]. repeat split.
Defined.
