(* ===== verification/RateLimit.v ===== *)
(** * Flood guard of the operator's HTTP interface

    The sliding-window limiter of src/services/operator/src/lib.rs and the choice of the
    key a request is counted under.

    Instants are nanoseconds of a clock that does not run backwards; [origin] is the first
    instant it can represent.  IP addresses are a type with decidable equality, its parser
    and its printer. *)

From Stdlib Require Import Sorted.
From S2P Require Import Prelude OperatorCore.

Definition DEFAULT_HTTP_RATE_LIMIT_PER_MIN : Z := 600.
Definition HTTP_RATE_WINDOW : Z := 60 * 1000000000.
Definition MAX_HTTP_RATE_TRACKED_KEYS : Z := 4096.

Definition http_rate_limit_per_min (env : Env) : Z :=
  match trim <$> env "CIPHERVAULT_HTTP_RATE_LIMIT_PER_MIN"%string with
  | Some value => if bool_decide (value = []) then DEFAULT_HTTP_RATE_LIMIT_PER_MIN
                  else default DEFAULT_HTTP_RATE_LIMIT_PER_MIN (parse_uint u32_max value)
  | None => DEFAULT_HTTP_RATE_LIMIT_PER_MIN
  end.

Abbreviation Hits := (gmap str (list Z)).

Section Limiter.
Variable origin : Z.

Definition checked_sub (now : Z) (d : Z) : option Z := if now - d <? origin then None else Some (now - d).
Fixpoint pop_front_while (p : Z -> bool) (times : list Z) : list Z :=
  match times with
  | t :: rest => if p t then pop_front_while p rest else times
  | [] => []
  end.
Definition expire (window_start : option Z) (times : list Z) : list Z :=
  match window_start with Some start => pop_front_while (fun t => t <=? start) times | None => times end.

Definition allowed_at (hits : Hits) (key : str) (limit now : Z) : bool * Hits :=
  let window_start := checked_sub now HTTP_RATE_WINDOW in
  let hits := if Z.of_nat (size hits) >? MAX_HTTP_RATE_TRACKED_KEYS `div` 2
              then omap (fun times => let times := expire window_start times in if bool_decide (times = []) then None else Some times) hits
              else hits in
  if bool_decide (hits !! key = None) && (Z.of_nat (size hits) >=? MAX_HTTP_RATE_TRACKED_KEYS) then (false, hits) else
  let times := expire window_start (default [] (hits !! key)) in
  if Z.of_nat (length times) >=? limit then (false, <[key := times]> hits) else (true, <[key := times ++ [now]]> hits).

(** The flood guard in front of every route. *)
Definition http_rate_limit (limit : Z) (hits : Hits) (key : str) (now : Z) : bool * Hits :=
  if limit =? 0 then (true, hits) else allowed_at hits key limit now.

(** ** What is promised *)

(** The requests of [key] that were let through, among all of them. *)
Definition granted_to (key : str) (granted : list (str * Z)) : list Z := snd <$> filter (fun g => g.1 = key) granted.
Definition recent (now : Z) (times : list Z) : list Z := filter (fun t => now - HTTP_RATE_WINDOW < t) times.

(** One request after the other: the table, and what was let through. *)
Definition step (limit : Z) (st : Hits * list (str * Z)) (req : str * Z) : Hits * list (str * Z) :=
  let '(b, hits) := allowed_at st.1 req.1 limit req.2 in (hits, if b then st.2 ++ [req] else st.2).
Definition history (limit : Z) (reqs : list (str * Z)) : Hits * list (str * Z) := foldl (step limit) (∅, []) reqs.

Lemma filter_keeps (P : Z -> Prop) `{!forall x, Decision (P x)} l : Forall P l -> filter P l = l.
Proof. induction 1 as [|x l Hx _ IH]; [done|]. by rewrite filter_cons_True, IH. Qed.
Lemma pop_sorted start times :
  StronglySorted Z.le times -> pop_front_while (fun t => t <=? start) times = filter (fun t => start < t) times.
Proof.
  intros Hs. induction Hs as [|t times _ IH Hall]; [done|]. cbn [pop_front_while].
  destruct (Z.leb_spec t start).
  - rewrite IH, filter_cons_False by lia. done.
  - rewrite filter_cons_True by lia. f_equal. symmetry. apply filter_keeps. eapply Forall_impl; [exact Hall|]. cbn. lia.
Qed.
Lemma expire_recent now times :
  StronglySorted Z.le times -> Forall (fun t => origin <= t) times -> expire (checked_sub now HTTP_RATE_WINDOW) times = recent now times.
Proof.
  intros Hs Ho. unfold expire, checked_sub, recent. destruct (Z.ltb_spec (now - HTTP_RATE_WINDOW) origin).
  - symmetry. apply filter_keeps. eapply Forall_impl; [exact Ho|]. cbn. lia.
  - by apply pop_sorted.
Qed.
Lemma recent_mono now now' times : now <= now' -> recent now' (recent now times) = recent now' times.
Proof.
  intros Hle. unfold recent. induction times as [|t times IH]; [done|]. rewrite !(filter_cons _ t).
  destruct (decide (now - HTTP_RATE_WINDOW < t)); [rewrite filter_cons|rewrite decide_False by lia]; [|done].
  destruct (decide _); [by rewrite IH|done].
Qed.

(** ** The table follows what was let through *)

Definition times_ok (now : Z) (times : list Z) : Prop := StronglySorted Z.le times /\ Forall (fun t => origin <= t <= now) times.
Record follows (now : Z) (hits : Hits) (granted : list (str * Z)) : Prop := {
  fo_recent : forall key, recent now (default [] (hits !! key)) = recent now (granted_to key granted);
  fo_times : map_Forall (fun _ => times_ok now) hits;
  fo_size : Z.of_nat (size hits) <= MAX_HTTP_RATE_TRACKED_KEYS;
}.

Lemma times_later now now' times : now <= now' -> times_ok now times -> times_ok now' times.
Proof. intros Hle (Hs & Ht). split; [done|]. eapply Forall_impl; [exact Ht|]. cbn. lia. Qed.
Lemma follows_later now now' hits granted : now <= now' -> follows now hits granted -> follows now' hits granted.
Proof.
  intros Hle [Hr Ht Hs]. split; [|eapply map_Forall_impl; [exact Ht|]; intros ? ?; by apply times_later|done].
  intros key. by rewrite <- (recent_mono now), Hr, recent_mono.
Qed.
Lemma times_expire now times : times_ok now times -> expire (checked_sub now HTTP_RATE_WINDOW) times = recent now times.
Proof. intros (Hs & Ht). apply expire_recent; [done|]. eapply Forall_impl; [exact Ht|]. cbn. lia. Qed.
Lemma strongly_filter (P : Z -> Prop) `{!forall x, Decision (P x)} l : StronglySorted Z.le l -> StronglySorted Z.le (filter P l).
Proof.
  induction 1 as [|x l _ IH Hx]; [constructor|]. rewrite filter_cons. case_decide; [|done]. constructor; [done|].
  apply Forall_forall. intros y (_ & Hy)%list_elem_of_filter. by eapply Forall_forall in Hx.
Qed.
Lemma times_recent now times : times_ok now times -> times_ok now (recent now times).
Proof.
  intros (Hs & Ht). split; [by apply strongly_filter|]. apply Forall_forall. intros y (_ & Hy)%list_elem_of_filter. by eapply Forall_forall in Ht.
Qed.
Lemma strongly_snoc l x : StronglySorted Z.le l -> Forall (fun y => y <= x) l -> StronglySorted Z.le (l ++ [x]).
Proof.
  induction 1 as [|y l _ IH Hy]; intros Hx; [repeat constructor|]. apply Forall_cons in Hx as (Hyx & Hx). cbn. constructor; [by apply IH|].
  apply Forall_app. split; [done|]. by apply Forall_singleton.
Qed.

Lemma strongly_split l l' : StronglySorted Z.le (l ++ l') -> StronglySorted Z.le l /\ forall x y, x ∈ l -> y ∈ l' -> x <= y.
Proof.
  induction l as [|z l IH]; cbn; [intros _; split; [constructor|set_solver]|]. intros H. inversion H as [|? ? Hs Hz]; subst.
  destruct (IH Hs) as (Hl & Hle). apply Forall_app in Hz as (Hz & Hz'). split; [by constructor|].
  intros x y [->|Hx]%elem_of_cons Hy; [|by apply Hle]. by eapply Forall_forall in Hz'.
Qed.

(** The eviction of idle keys. *)
Definition evict (now : Z) (hits : Hits) : Hits :=
  if Z.of_nat (size hits) >? MAX_HTTP_RATE_TRACKED_KEYS `div` 2
  then omap (fun times => let times := expire (checked_sub now HTTP_RATE_WINDOW) times in if bool_decide (times = []) then None else Some times) hits
  else hits.
Lemma evict_lookup now hits key times :
  map_Forall (fun _ => times_ok now) hits -> (Z.of_nat (size hits) >? MAX_HTTP_RATE_TRACKED_KEYS `div` 2) = true ->
  evict now hits !! key = Some times -> exists old, hits !! key = Some old /\ times = recent now old /\ times <> [].
Proof.
  intros Ht E. unfold evict. rewrite E, lookup_omap. destruct (hits !! key) as [old|] eqn:Eo; [|done]. cbn.
  rewrite times_expire by exact (Ht _ _ Eo). case_bool_decide; [done|]. intros [= <-]. eauto.
Qed.
Lemma evict_follows now hits granted : follows now hits granted -> follows now (evict now hits) granted.
Proof.
  intros [Hr Ht Hs]. destruct (Z.of_nat (size hits) >? MAX_HTTP_RATE_TRACKED_KEYS `div` 2) eqn:E; [|unfold evict; by rewrite E].
  split.
  - intros key. rewrite <- Hr. unfold evict. rewrite E, lookup_omap. destruct (hits !! key) as [times|] eqn:Ek; [|done]. cbn.
    rewrite times_expire by exact (Ht _ _ Ek). case_bool_decide as Hn; [symmetry; exact Hn|by apply recent_mono].
  - intros key times Hk. apply evict_lookup in Hk as (old & Ho & -> & _); [|done..]. by apply times_recent, (Ht key).
  - unfold evict. rewrite E. etrans; [|exact Hs]. apply inj_le. rewrite <- !size_dom. apply subseteq_size.
    intros k (times & Hk)%elem_of_dom. rewrite lookup_omap in Hk. apply elem_of_dom. by destruct (hits !! k).
Qed.

Lemma follows_insert now hits granted key times granted' :
  follows now hits granted -> times_ok now times -> (forall k, k <> key -> granted_to k granted' = granted_to k granted) ->
  recent now times = recent now (granted_to key granted') ->
  is_Some (hits !! key) \/ Z.of_nat (size hits) < MAX_HTTP_RATE_TRACKED_KEYS -> follows now (<[key := times]> hits) granted'.
Proof.
  intros [Hr Ht Hs] Hok Hother Hkey Hroom. split.
  - intros k. destruct (decide (k = key)) as [->|Hk]; [by rewrite lookup_insert_eq|]. rewrite lookup_insert_ne by done. by rewrite Hr, Hother.
  - by apply map_Forall_insert_2.
  - destruct (decide (is_Some (hits !! key))) as [Hi|Hi].
    + by rewrite map_size_insert_Some.
    + rewrite map_size_insert_None by (by apply eq_None_not_Some). destruct Hroom; [done|lia].
Qed.
Lemma granted_snoc key now granted k :
  granted_to k (granted ++ [(key, now)]) = granted_to k granted ++ (if decide (key = k) then [now] else []).
Proof. unfold granted_to. rewrite filter_app, filter_cons, fmap_app. cbn. by destruct (decide (key = k)). Qed.
Lemma recent_snoc now l x : recent now (recent now l ++ [x]) = recent now (l ++ [x]).
Proof. pose proof (recent_mono now now l (Z.le_refl _)) as E. unfold recent in *. by rewrite !filter_app, E. Qed.

(** One request, decided on what was let through before. *)
Definition used (now : Z) (key : str) (granted : list (str * Z)) : Z := Z.of_nat (length (recent now (granted_to key granted))).
(** The table is full of clients that were let through within the window. *)
Definition crowded (now : Z) (granted : list (str * Z)) : Prop :=
  exists keys : gset str, MAX_HTTP_RATE_TRACKED_KEYS <= Z.of_nat (size keys) /\ forall k, k ∈ keys -> recent now (granted_to k granted) <> [].

Lemma allowed_follows hits key limit now granted :
  origin <= now -> follows now hits granted ->
  let '(b, hits') := allowed_at hits key limit now in
  follows now hits' (if b then granted ++ [(key, now)] else granted) /\
  (if b then used now key granted < limit else limit <= used now key granted \/ crowded now granted).
Proof.
  intros Horg Hf. unfold allowed_at. fold (evict now hits). pose proof (evict_follows now hits granted Hf) as Hf'.
  set (hits1 := evict now hits) in *. pose proof Hf' as [Hr Ht Hs]. destruct (bool_decide_reflect (hits1 !! key = None)) as [Hn|Hn]; cbn [andb].
  2: assert (is_Some (hits1 !! key)) as Hsome by (by apply not_eq_None_Some).
  1: destruct (Z.geb_spec (Z.of_nat (size hits1)) MAX_HTTP_RATE_TRACKED_KEYS) as [Hfull|Hroom].
  { split; [done|]. right. exists (dom hits1). rewrite size_dom. split; [lia|]. intros k (times & Hk)%elem_of_dom.
    rewrite <- Hr, Hk. change (default [] (Some times)) with times.
    assert ((Z.of_nat (size hits) >? MAX_HTTP_RATE_TRACKED_KEYS `div` 2) = true) as Eh.
    { destruct (_ >? _) eqn:E; [done|]. exfalso. subst hits1. unfold evict in Hfull. rewrite E in Hfull.
      unfold MAX_HTTP_RATE_TRACKED_KEYS in *. change (4096 `div` 2) with 2048 in E. rewrite Z.gtb_ltb, Z.ltb_ge in E. lia. }
    apply (evict_lookup now hits k times) in Hk as (old & _ & -> & Hne); [|apply Hf|done]. by rewrite recent_mono. }
  all: assert (times_ok now (default [] (hits1 !! key))) as Hok by (destruct (hits1 !! key) eqn:E; cbn; [by apply (Ht key)|split; constructor]).
  all: rewrite times_expire by done; rewrite (Hr key).
  all: assert (times_ok now (recent now (granted_to key granted))) as Hok' by (rewrite <- Hr; by apply times_recent).
  all: destruct (Z.geb_spec (Z.of_nat (length (recent now (granted_to key granted)))) limit) as [Hge|Hlt];
    [split; [apply (follows_insert now hits1 granted); auto; by rewrite recent_mono|left; unfold used; lia]|].
  all: split; [|unfold used; lia]; apply (follows_insert now hits1 granted); auto; [|intros k Hk; by rewrite granted_snoc, decide_False, app_nil_r|].
  all: try (by rewrite granted_snoc, decide_True, recent_snoc by done).
  all: destruct Hok' as (Hs1 & Hs2); split; [apply strongly_snoc; [done|]; eapply Forall_impl; [exact Hs2|]; cbn; lia|].
  all: apply Forall_app; split; [done|]; apply Forall_singleton; lia.
Qed.

(** Requests in the order of a clock that does not run backwards. *)
Definition in_order (reqs : list (str * Z)) : Prop :=
  StronglySorted Z.le (snd <$> reqs) /\ Forall (fun r => origin <= r.2) reqs.

(** Folding a history that ends at [now]. *)
Lemma history_follows limit reqs now :
  in_order (reqs ++ [([], now)]) -> follows now (history limit reqs).1 (history limit reqs).2.
Proof.
  revert now; induction reqs as [|[key at_] reqs IH] using rev_ind; intros now (Hs & Ho).
  - split; [done|apply map_Forall_empty|done].
  - rewrite fmap_app in Hs. apply Forall_app in Ho as (Ho & _). apply Forall_app in Ho as (Ho & Hat). apply Forall_cons in Hat as (Hat & _). cbn in Hat.
    apply strongly_split in Hs as (Hs1 & Hle). specialize (Hle at_ now ltac:(rewrite fmap_app; set_solver) ltac:(set_solver)).
    unfold history. rewrite foldl_app. cbn. fold (history limit reqs). unfold step. cbn.
    assert (follows at_ (history limit reqs).1 (history limit reqs).2) as Hf.
    { apply IH. split; [by rewrite fmap_app in *|]. apply Forall_app. split; [exact Ho|apply Forall_cons_2; [exact Hat|apply Forall_nil_2]]. }
    pose proof (allowed_follows _ key limit at_ _ Hat Hf) as H. destruct (allowed_at _ _ _ _) as [b hits']. destruct H as (H & _).
    apply (follows_later at_); [done|]. by destruct b.
Qed.

(** C21: the limiter is exact: after any history, a request is let through when fewer than
    [limit] requests of its key were in the sixty seconds before, and it is refused only
    when that many were, or when 4096 other clients fill the table; the table never grows
    beyond that. *)
Theorem rate_limit_exact limit reqs key now :
  in_order (reqs ++ [(key, now)]) ->
  let '(hits, granted) := history limit reqs in
  let '(b, hits') := allowed_at hits key limit now in
  (if b then used now key granted < limit else limit <= used now key granted \/ crowded now granted) /\
  Z.of_nat (size hits') <= MAX_HTTP_RATE_TRACKED_KEYS.
Proof.
  intros Ho. assert (in_order (reqs ++ [([], now)])) as Ho'.
  { destruct Ho as (Hs & Ho). split; [by rewrite fmap_app in *|]. apply Forall_app in Ho as (Ho & Hn). apply Forall_app. split; [done|].
    apply Forall_cons in Hn as (Hn & _). apply Forall_cons_2; [exact Hn|apply Forall_nil_2]. }
  assert (origin <= now) as Hn by (destruct Ho as (_ & Ho); apply Forall_app in Ho as (_ & Ho); by apply Forall_cons in Ho as (Ho & _)).
  pose proof (history_follows limit reqs now Ho') as Hf. destruct (history limit reqs) as [hits granted]. cbn in Hf.
  pose proof (allowed_follows hits key limit now granted Hn Hf) as H. destruct (allowed_at hits key limit now) as [b hits'].
  destruct H as (H1 & H2). split; [done|]. exact (fo_size _ _ _ H1).
Qed.

Lemma filter_length_mono (P Q : Z -> Prop) `{!forall x, Decision (P x)} `{!forall x, Decision (Q x)} l :
  (forall x, P x -> Q x) -> (length (filter P l) <= length (filter Q l))%nat.
Proof.
  intros HPQ. induction l as [|x l IH]; [done|]. rewrite !filter_cons. repeat case_decide; cbn; try lia. by exfalso; eauto.
Qed.

(** In every period of sixty seconds, at most [limit] requests of a client are let
    through. *)
Theorem rate_limit_window limit reqs key start :
  0 <= limit -> in_order reqs ->
  Z.of_nat (length (filter (fun t => start < t <= start + HTTP_RATE_WINDOW) (granted_to key (history limit reqs).2))) <= limit.
Proof.
  intros Hl. induction reqs as [|[k now] reqs IH] using rev_ind; intros Ho; [done|]. pose proof Ho as (Hs & Hall).
  rewrite fmap_app in Hs. apply strongly_split in Hs as (Hs & _). apply Forall_app in Hall as (Hall & Hn). apply Forall_cons in Hn as (Hn & _).
  specialize (IH (conj Hs Hall)). unfold history. rewrite foldl_app. cbn. fold (history limit reqs). unfold step. cbn.
  assert (in_order (reqs ++ [([], now)])) as Ho'.
  { destruct Ho as (Ho1 & _). split; [by rewrite fmap_app in *|]. apply Forall_app. split; [done|apply Forall_cons_2; [exact Hn|apply Forall_nil_2]]. }
  pose proof (allowed_follows _ k limit now _ Hn (history_follows limit reqs now Ho')) as H.
  destruct (allowed_at _ _ _ _) as [b hits']. destruct H as (_ & H). destruct b; [|done]. cbn [snd]. rewrite granted_snoc.
  destruct (decide (k = key)) as [->|]; [|by rewrite app_nil_r]. rewrite filter_app, length_app, filter_cons.
  case_decide as Hw; cbn; [|lia]. unfold used in H.
  pose proof (filter_length_mono (fun t => start < t <= start + HTTP_RATE_WINDOW) (fun t => now - HTTP_RATE_WINDOW < t)
                (granted_to key (history limit reqs).2) ltac:(cbv beta in *; intros; lia)) as Hm. unfold recent in H. lia.
Qed.
End Limiter.

(** ** The key of a client *)

Section ClientKey.
Context {Ip : Type} `{EqDecision Ip}.
Variables (parse_ip : str -> option Ip) (show_ip : Ip -> str).

(** From the nearest proxy towards the client, up to the first address that is not a
    trusted proxy. *)
Fixpoint walk (trusted : list Ip) (entries : list str) : option str :=
  match entries with
  | [] => None
  | value :: rest =>
      match parse_ip (trim value) with
      | None => None
      | Some ip => if bool_decide (ip ∈ trusted) then walk trusted rest else Some (show_ip ip)
      end
  end.
Definition comma : Z := 44.
Definition http_client_key (trusted_proxies : option str) (peer : option Ip) (x_forwarded_for : option str) : str :=
  match peer with
  | None => lit "unknown"
  | Some addr =>
      let trusted := omap (fun entry => parse_ip (trim entry)) (split_on comma (default [] trusted_proxies)) in
      if bool_decide (addr ∈ trusted) then
        match x_forwarded_for ≫= (fun forwarded => walk trusted (rev (split_on comma forwarded))) with
        | Some key => key
        | None => show_ip addr
        end
      else show_ip addr
  end.

Lemma split_on_sep sep s rest : split_on sep (s ++ sep :: rest) = split_on sep s ++ split_on sep rest.
Proof.
  induction s as [|c s IH]; cbn [split_on app]; [by rewrite Z.eqb_refl|]. destruct (c =? sep); [by rewrite IH|]. rewrite IH.
  destruct (split_on sep s) eqn:E; [|done]. destruct s as [|d s]; cbn in E; [done|]. destruct (d =? sep); [done|]. by destruct (split_on sep s).
Qed.
Lemma walk_app trusted l l' key : walk trusted l = Some key -> walk trusted (l ++ l') = Some key.
Proof.
  induction l as [|v l IH]; [done|]. cbn. destruct (parse_ip (trim v)); [|done]. by case_bool_decide; [apply IH|].
Qed.

(** A client cannot choose the key it is counted under: without a trusted proxy the header
    is not read, and what a client puts in front of the addresses that the proxies
    appended changes nothing. *)
Theorem client_key_unspoofable trusted_proxies addr real key spoofed :
  let trusted := omap (fun entry => parse_ip (trim entry)) (split_on comma (default [] trusted_proxies)) in
  (addr ∉ trusted -> forall header, http_client_key trusted_proxies (Some addr) header = show_ip addr) /\
  (addr ∈ trusted -> walk trusted (rev (split_on comma real)) = Some key ->
   http_client_key trusted_proxies (Some addr) (Some real) = key /\
   http_client_key trusted_proxies (Some addr) (Some (spoofed ++ comma :: real)) = key).
Proof.
  intros trusted. unfold http_client_key. fold trusted. split; intros Hin.
  - intros header. by rewrite bool_decide_false.
  - intros Hw. rewrite !bool_decide_true by done. cbn. rewrite Hw. split; [done|]. rewrite split_on_sep, rev_app_distr.
    by rewrite (walk_app _ _ _ key).
Qed.
End ClientKey.

(** ** Examples *)

Definition second : Z := 1000000000.
Definition burst : list (str * Z) := [(lit "a", second); (lit "a", 2 * second); (lit "b", 2 * second); (lit "a", 3 * second)].
Lemma burst_in_order now : 3 * second <= now -> in_order 0 (burst ++ [(lit "a", now)]).
Proof.
  unfold burst, second. intros Hn. split; cbn.
  - repeat (constructor; [|repeat (apply Forall_cons_2; [lia|]); apply Forall_nil_2]). constructor.
  - repeat (apply Forall_cons_2; [cbn; lia|]). apply Forall_nil_2.
Qed.
(** With two requests a minute, the third one of [a] waits for the first to leave. *)
Lemma rate_limit_exact_witness :
  (history 0 2 burst).2 = take 3 burst /\
  (used (61 * second) (lit "a") (take 3 burst) < 2 /\ Z.of_nat (size (allowed_at 0 (history 0 2 burst).1 (lit "a") 2 (61 * second)).2) <= 4096).
Proof.
  split; [vm_compute; reflexivity|].
  pose proof (rate_limit_exact 0 2 burst (lit "a") (61 * second) (burst_in_order (61 * second) ltac:(unfold second; lia))) as H.
  assert ((history 0 2 burst).2 = take 3 burst) as Eg by (vm_compute; reflexivity).
  assert (fst (allowed_at 0 (history 0 2 burst).1 (lit "a") 2 (61 * second)) = true) as Ea by (vm_compute; reflexivity).
  rewrite (surjective_pairing (history 0 2 burst)), Eg in H. cbv beta iota in H.
  rewrite (surjective_pairing (allowed_at 0 _ _ _ _)), Ea in H. exact H.
Defined.
Lemma rate_limit_window_witness :
  Z.of_nat (length (filter (fun t => 0 < t <= 0 + HTTP_RATE_WINDOW) (granted_to (lit "a") (history 0 2 burst).2))) <= 2.
Proof.
  apply (rate_limit_window 0 2 burst (lit "a") 0); [lia|].
  destruct (burst_in_order (61 * second) ltac:(unfold second; lia)) as (Hs & Ho). split.
  - rewrite fmap_app in Hs. exact (proj1 (strongly_split _ _ Hs)).
  - exact (proj1 (proj1 (Forall_app _ _ _) Ho)).
Defined.
Lemma client_key_unspoofable_witness :
  http_client_key (fun s => Some s) id (Some (lit "proxy")) (Some (lit "proxy")) (Some (lit "forged,client, proxy")) = lit "client".
Proof.
  exact (proj2 (proj2 (client_key_unspoofable (fun s => Some s) id (Some (lit "proxy")) (lit "proxy") (lit "client, proxy") (lit "client") (lit "forged"))
    ltac:(vm_compute; left) eq_refl)).
Defined.
