(* ===== verification/Trust.v ===== *)
(** * Recovery trust: the head, its snapshot and its envelope

    src/crates/recovery/src/trust.rs.  Records fetched from operators are opaque
    bytes; authority comes from the offline root key only.  HashMaps are [gmap]s.
    The ancestry traversal is a loop over a stack with fuel: it returns [None]
    when the fuel runs out, which the theorems below exclude for the fuel
    [select_head] gives it. *)

From S2P Require Import Prelude Errors Primitives SamplePrimitives Crypto Schema.

Abbreviation HeadRecord := Head.HeadRecord.
Abbreviation DeviceCertificate := DeviceCert.DeviceCertificate.

Definition err {A : Type} (msg : string) : result string A := Err msg.

Definition is_empty {A : Type} (l : list A) : bool := match l with [] => true | _ => false end.

(** [Vec::sort_by_key(|c| Reverse(c.authority_generation))], a stable sort. *)
Fixpoint insert_cert (c : DeviceCertificate) (l : list DeviceCertificate) : list DeviceCertificate :=
  match l with
  | [] => [c]
  | d :: rest =>
      if DeviceCert.authority_generation c >=? DeviceCert.authority_generation d then c :: l
      else d :: insert_cert c rest
  end.
Definition sort_certs (l : list DeviceCertificate) : list DeviceCertificate := foldr insert_cert [] l.

(** ** The traversal *)

Abbreviation Graph := (gmap bytes (list bytes)).

Record Traversal : Type := {
  pending : list (bytes * bool);    (* top of the stack first *)
  states : gmap bytes Z;
  nonmaximal : gset bytes;
}.

(** One iteration of [while let Some((node, exiting)) = pending.pop()]. *)
Definition visit (graph : Graph) (node : bytes) (exiting : bool) (rest : list (bytes * bool))
  (st : gmap bytes Z) (nm : gset bytes) : result string Traversal :=
  if exiting then Ok {| pending := rest; states := <[node := 2]> st; nonmaximal := nm |}
  else if bool_decide (st !! node = Some 1) then err "Cycle in authenticated recovery ancestry"
  else if bool_decide (st !! node = Some 2) then Ok {| pending := rest; states := st; nonmaximal := nm |}
  else
    let parents := default [] (graph !! node) in
    Ok {| pending := ((fun p => (p, false)) <$> rev parents) ++ (node, true) :: rest;
          states := <[node := 1]> st;
          nonmaximal := list_to_set parents ∪ nm |}.

Fixpoint traverse (fuel : nat) (graph : Graph) (t : Traversal) : option (result string Traversal) :=
  match pending t with
  | [] => Some (Ok t)
  | (node, exiting) :: rest =>
      match fuel with
      | O => None
      | S fuel' =>
          match visit graph node exiting rest (states t) (nonmaximal t) with
          | Err e => Some (Err e)
          | Ok t' => traverse fuel' graph t'
          end
      end
  end.

(** The outer loop, one traversal per candidate with shared state. *)
Fixpoint traverse_all (fuel : nat) (graph : Graph) (ids : list bytes) (st : gmap bytes Z) (nm : gset bytes)
  : option (result string (gset bytes)) :=
  match ids with
  | [] => Some (Ok nm)
  | id :: ids' =>
      match traverse fuel graph {| pending := [(id, false)]; states := st; nonmaximal := nm |} with
      | None => None
      | Some (Err e) => Some (Err e)
      | Some (Ok t) => traverse_all fuel graph ids' (states t) (nonmaximal t)
      end
  end.

(** Work left: one entry, one exit and one push per parent of each new node. *)
Definition todo (graph : Graph) (st : gmap bytes Z) (nodes : list bytes) : nat :=
  foldr (fun n acc => ((if decide (is_Some (st !! n)) then 0
                        else S (length (default [] (graph !! n)))) + acc)%nat) 0%nat nodes.
Definition universe (graph : Graph) (ids : list bytes) : list bytes :=
  ids ++ (fst <$> map_to_list graph) ++ concat (snd <$> map_to_list graph).
Definition traversal_fuel (graph : Graph) (ids : list bytes) : nat :=
  S (todo graph ∅ (universe graph ids)).

(** ** Authenticated heads *)

Definition Pair : Type := HeadRecord * DeviceCertificate.
Definition counter_key (p : Pair) : Z * bytes * bytes * Z :=
  (DeviceCert.authority_generation p.2, DeviceCert.device_signing_pk p.2, Head.device_id p.1,
   Head.device_counter p.1).

Record Bindings : Type := {
  device_counters : gmap (Z * bytes * bytes * Z) bytes;
  authenticated_bindings : gmap bytes HeadRecord;
  b_graph : Graph;
}.

Definition conflict {V : Type} `{EqDecision V} (previous : option V) (v : V) : bool :=
  match previous with Some p => negb (bool_decide (p = v)) | None => false end.

Definition bind_head (b : Bindings) (p : Pair) : result string Bindings :=
  let head := p.1 in
  bail? conflict (authenticated_bindings b !! Head.snapshot_id head) head
    with "Conflicting authenticated head bindings for the same snapshot"%string ;;
  bail? conflict (device_counters b !! counter_key p) (Head.snapshot_id head)
    with "Conflicting certified device counters; explicit fork resolution required"%string ;;
  bail? conflict (b_graph b !! Head.snapshot_id head) (Head.parent_snapshot_ids head)
    with "Conflicting authenticated ancestry for the same snapshot"%string ;;
  Ok {| device_counters := <[counter_key p := Head.snapshot_id head]> (device_counters b);
        authenticated_bindings := <[Head.snapshot_id head := head]> (authenticated_bindings b);
        b_graph := <[Head.snapshot_id head := Head.parent_snapshot_ids head]> (b_graph b) |}.

Definition generation_of (p : Pair) : Z := DeviceCert.authority_generation p.2.

Section Trust.
Context {ED : Ed25519} {CD : Cbor DeviceCertificate} {CH : Cbor HeadRecord}
  {CE : Cbor Envelope.EpochEnvelope} {CS : Cbor Snapshot.SnapshotRecord} {SH : Sha256}.

Definition decode_ok {T : Type} `{Cbor T} (r : bytes) : option T :=
  match from_canonical_cbor r with Ok v => Some v | Err _ => None end.

Definition trusted_cert (vault root_pk : bytes) (c : DeviceCertificate) : bool :=
  (DeviceCert.version c =? PROTOCOL_VERSION) && bool_decide (DeviceCert.vault_id c = vault)
  && (blen (DeviceCert.device_signing_pk c) =? 32) && negb (Z.land (DeviceCert.permissions c) 1 =? 0)
  && is_ok (DeviceCert.verify root_pk c).

Definition trusted_certs (records : list bytes) (vault root_pk : bytes) : list DeviceCertificate :=
  sort_certs (filter (fun c => trusted_cert vault root_pk c = true) (omap decode_ok records)).

Definition well_formed_head (vault : bytes) (head : HeadRecord) : bool :=
  (Head.version head =? PROTOCOL_VERSION) && bool_decide (Head.vault_id head = vault)
  && (blen (Head.snapshot_id head) =? 32)
  && forallb (fun parent => blen parent =? 32) (Head.parent_snapshot_ids head).

(** The first certificate, in generation order, whose device signed the head.
    Trusted certificates carry 32-byte keys, so the array conversion succeeds. *)
Definition signs_head (head : HeadRecord) (c : DeviceCertificate) : bool :=
  (blen (Head.device_id head) =? 32) && is_ok (Head.verify (DeviceCert.device_signing_pk c) head).
Definition authenticate (certs : list DeviceCertificate) (vault : bytes) (record : bytes) : option Pair :=
  head ← decode_ok record;
  if negb (well_formed_head vault head) then None
  else (fun c => (head, c)) <$> List.find (signs_head head) certs.

Definition select_head (records : list bytes) (vault root_pk : bytes)
  : option (result string Pair) :=
  let certs := trusted_certs records vault root_pk in
  if is_empty certs then
    Some (err "No trusted device certificates found; refusing self-authorized recovery")
  else
  let heads := omap (authenticate certs vault) records in
  if is_empty heads then Some (err "No cryptographically authenticated HeadRecords found")
  else
  match try_fold bind_head {| device_counters := ∅; authenticated_bindings := ∅; b_graph := ∅ |} heads with
  | Err e => Some (Err e)
  | Ok b =>
  let generation := foldr Z.max 0 (generation_of <$> heads) in
  let candidates := filter (fun p => generation_of p = generation) heads in
  let ids := (fun p : Pair => Head.snapshot_id p.1) <$> candidates in
  match traverse_all (traversal_fuel (b_graph b) ids) (b_graph b) ids ∅ ∅ with
  | None => None
  | Some (Err e) => Some (Err e)
  | Some (Ok nonmaximal) =>
      let maximal : gmap bytes Pair :=
        foldl (fun m p => if bool_decide (Head.snapshot_id p.1 ∈ nonmaximal) then m
                          else <[Head.snapshot_id p.1 := p]> m) ∅ candidates in
      match map_to_list maximal with
      | [(_, p)] => Some (Ok p)
      | _ => Some (err "Conflicting certified DAG heads; explicit fork resolution required")
      end
  end end.

Definition verify_snapshot (record : Snapshot.SnapshotRecord) (head : HeadRecord) (cert : DeviceCertificate)
  : result string unit :=
  bail? negb (blen (DeviceCert.device_signing_pk cert) =? 32) with "could not convert slice to array"%string ;;
  let? _ := map_err (fun _ => "record verification failed"%string)
              (Snapshot.verify (DeviceCert.device_signing_pk cert) record) in
  if (Snapshot.version record =? PROTOCOL_VERSION)
     && bool_decide (Snapshot.vault_id record = Head.vault_id head)
     && bool_decide (Snapshot.device_id record = Head.device_id head)
     && (Snapshot.device_counter record =? Head.device_counter head)
     && bool_decide (Snapshot.parent_snapshot_ids record = Head.parent_snapshot_ids head)
     && (Snapshot.authority_generation record =? DeviceCert.authority_generation cert)
  then
    let? cid := map_err (fun _ => "record encoding failed"%string) (Snapshot.compute_record_cid record) in
    bail? negb (bool_decide (cid = Head.snapshot_id head))
      with "Snapshot authority or head binding mismatch"%string ;;
    Ok tt
  else err "Snapshot authority or head binding mismatch".

Definition envelope_matches (record : Snapshot.SnapshotRecord) (pk recipient : bytes)
  (e : Envelope.EpochEnvelope) : bool :=
  (Envelope.version e =? PROTOCOL_VERSION) && bool_decide (Envelope.vault_id e = Snapshot.vault_id record)
  && (Envelope.epoch e =? Snapshot.epoch record)
  && bool_decide (Envelope.signer_device_id e = Snapshot.device_id record)
  && bool_decide (Envelope.recipient_fingerprint e = recipient) && is_ok (Envelope.verify pk e).

Definition select_envelope (records : list bytes) (record : Snapshot.SnapshotRecord)
  (cert : DeviceCertificate) (recipient : bytes) : result string Envelope.EpochEnvelope :=
  bail? negb (blen (DeviceCert.device_signing_pk cert) =? 32) with "could not convert slice to array"%string ;;
  ok_or (List.find (envelope_matches record (DeviceCert.device_signing_pk cert) recipient)
           (omap decode_ok records))
    "No authenticated epoch envelope for this snapshot and recovery key"%string.
End Trust.

(** ** Theorems on recovery trust

    The selection of the recovery head always ends, and a selected head is rooted
    in the offline key, of the newest authority generation, and the only one of
    that generation that no other supersedes. *)

(** ** The traversal ends *)

Section Traversal.
Variable graph : Graph.

Definition deg (n : bytes) : nat := length (default [] (graph !! n)).

Lemma todo_insert st nodes k v : (todo graph (<[k := v]> st) nodes <= todo graph st nodes)%nat.
Proof.
  induction nodes as [|n nodes IH]; simpl; [lia|].
  destruct (decide (is_Some (st !! n))) as [Hs|Hn].
  - rewrite decide_True; [lia|]. by apply lookup_insert_is_Some'; right.
  - destruct (decide _); simpl; lia.
Qed.

Lemma todo_fresh st nodes k v :
  k ∈ nodes -> st !! k = None ->
  (todo graph (<[k := v]> st) nodes + S (deg k) <= todo graph st nodes)%nat.
Proof.
  intros Hin Hk. induction nodes as [|n nodes IH]; [set_solver|]. simpl.
  destruct (decide (n = k)) as [->|Hne].
  - rewrite decide_True by (by apply lookup_insert_is_Some'; left).
    rewrite decide_False by (rewrite Hk; by intros [? [=]]).
    pose proof (todo_insert st nodes k v). unfold deg. lia.
  - assert (k ∈ nodes) as Hin' by set_solver. specialize (IH Hin').
    rewrite (lookup_insert_ne st k n v) by done. lia.
Qed.

(** Every stacked node is known, and known nodes are closed under parents. *)
Definition closed (nodes : list bytes) : Prop :=
  forall n p, n ∈ nodes -> p ∈ default [] (graph !! n) -> p ∈ nodes.

Definition marks (st : gmap bytes Z) : Prop := forall n z, st !! n = Some z -> z = 1 \/ z = 2.

Lemma marks_insert st k z : marks st -> z = 1 \/ z = 2 -> marks (<[k := z]> st).
Proof. intros H Hz n z'. rewrite lookup_insert. case_decide; [by intros [= <-]|apply H]. Qed.

Lemma traverse_total nodes fuel : forall t,
  closed nodes -> (forall n e, (n, e) ∈ pending t -> n ∈ nodes) -> marks (states t) ->
  (length (pending t) + todo graph (states t) nodes <= fuel)%nat ->
  exists r, traverse fuel graph t = Some r /\
    forall t', r = Ok t' -> marks (states t') /\
      (todo graph (states t') nodes <= todo graph (states t) nodes)%nat.
Proof.
  induction fuel as [|fuel IH]; intros [p st nm] Hcl Hp Hmk Hf; simpl in *;
    (destruct p as [|[node exiting] rest]; [eexists; split; [done|]; by intros t' [= <-]|]); [simpl in Hf; lia|].
  assert (node ∈ nodes) as Hnode by (eapply Hp; by left).
  assert (forall n e, (n, e) ∈ rest -> n ∈ nodes) as Hrest by (intros; eapply Hp; by right).
  simpl in Hf. unfold visit. destruct exiting.
  - pose proof (todo_insert st nodes node 2).
    destruct (IH {| pending := rest; states := <[node := 2]> st; nonmaximal := nm |}) as (r & E & Hr);
      [done|done|by apply marks_insert; [|right]|simpl; lia|].
    exists r. split; [done|]. intros t' Ht'. destruct (Hr _ Ht') as (? & Hle). simpl in Hle. split; [done|lia].
  - case_bool_decide as H1; [by eexists|]. case_bool_decide as H2.
    { apply (IH {| pending := rest; states := st; nonmaximal := nm |}); [done|done|done|simpl; lia]. }
    assert (st !! node = None) as Hn.
    { destruct (st !! node) as [z|] eqn:E; [|done]. destruct (Hmk _ _ E); congruence. }
    set (parents := default [] (graph !! node)).
    pose proof (todo_fresh st nodes node 1 Hnode Hn) as Ht. unfold deg in Ht. fold parents in Ht.
    destruct (IH {| pending := ((fun p => (p, false)) <$> rev parents) ++ (node, true) :: rest;
                    states := <[node := 1]> st; nonmaximal := list_to_set parents ∪ nm |})
      as (r & E & Hr); [done| |by apply marks_insert; [|left]
                        |simpl; rewrite length_app, length_fmap, length_rev; simpl; lia|].
    + simpl. intros n e [Hin|[Hin|Hin]%elem_of_cons]%elem_of_app; [|by simplify_eq|by eapply Hrest].
      apply list_elem_of_fmap in Hin as (q & [= -> ->] & Hq). apply (Hcl node); [done|].
      apply list_elem_of_In. apply list_elem_of_In in Hq. by apply in_rev.
    + exists r. split; [done|]. intros t' Ht'. destruct (Hr _ Ht') as (? & Hle). simpl in Hle. split; [done|lia].
Qed.

Lemma traverse_all_total nodes fuel ids : forall st nm,
  closed nodes -> (forall n, n ∈ ids -> n ∈ nodes) -> marks st ->
  (S (todo graph st nodes) <= fuel)%nat -> is_Some (traverse_all fuel graph ids st nm).
Proof.
  induction ids as [|id ids IH]; intros st nm Hcl Hin Hmk Hf; [by eexists|]. cbn [traverse_all].
  destruct (traverse_total nodes fuel {| pending := [(id, false)]; states := st; nonmaximal := nm |})
    as (r & E & Hr); [done|simpl; intros n e He; apply list_elem_of_singleton in He; set_solver|done|simpl; lia|].
  rewrite E. destruct r as [t|e]; [|by eexists]. destruct (Hr t eq_refl) as (Hmk' & Hle). simpl in Hle.
  apply IH; [done|set_solver|done|lia].
Qed.

Lemma universe_closed ids : closed (universe graph ids).
Proof.
  intros n p _ Hp. unfold universe. rewrite !elem_of_app. right; right.
  destruct (graph !! n) as [ps|] eqn:E; [|simpl in Hp; set_solver]. simpl in Hp.
  apply list_elem_of_In, in_concat. exists ps. split; [|by apply list_elem_of_In].
  apply list_elem_of_In, list_elem_of_fmap. exists (n, ps). split; [done|]. by apply elem_of_map_to_list.
Qed.

(** ** What counts as superseded *)

(** Ancestors of the given snapshots, themselves included. *)
Inductive reach (ids : list bytes) : bytes -> Prop :=
| reach_id n : n ∈ ids -> reach ids n
| reach_parent n p : reach ids n -> p ∈ default [] (graph !! n) -> reach ids p.

(** Recorded as a parent of such an ancestor. *)
Definition superseded (ids : list bytes) (s : bytes) : Prop :=
  exists n, reach ids n /\ s ∈ default [] (graph !! n).

Lemma traverse_superseded ids fuel : forall t t',
  (forall n e, (n, e) ∈ pending t -> reach ids n) -> (forall s, s ∈ nonmaximal t -> superseded ids s) ->
  traverse fuel graph t = Some (Ok t') -> forall s, s ∈ nonmaximal t' -> superseded ids s.
Proof.
  induction fuel as [|fuel IH]; intros [p st nm] t' Hp Hnm; simpl in *;
    (destruct p as [|[node exiting] rest]; [by intros [= <-]|]); [done|].
  assert (reach ids node) as Hnode by (eapply Hp; by left).
  assert (forall n e, (n, e) ∈ rest -> reach ids n) as Hrest by (intros; eapply Hp; by right).
  unfold visit. destruct exiting; [intros H; eapply IH; [| |exact H]; done|].
  case_bool_decide; [done|]. case_bool_decide; [intros H'; eapply IH; [| |exact H']; done|].
  intros H'. eapply IH; [| |exact H']; simpl.
  - intros n e [Hin|[Hin|Hin]%elem_of_cons]%elem_of_app; [|by simplify_eq|by eapply Hrest].
    apply list_elem_of_fmap in Hin as (q & [= -> ->] & Hq). eapply reach_parent; [exact Hnode|].
    apply list_elem_of_In. apply list_elem_of_In in Hq. by apply in_rev.
  - intros s [Hs%elem_of_list_to_set|Hs]%elem_of_union; [exists node; auto|auto].
Qed.

Lemma traverse_all_superseded all fuel ids : forall st nm nm',
  (forall n, n ∈ ids -> n ∈ all) -> (forall s, s ∈ nm -> superseded all s) ->
  traverse_all fuel graph ids st nm = Some (Ok nm') -> forall s, s ∈ nm' -> superseded all s.
Proof.
  induction ids as [|id ids IH]; intros st nm nm' Hin Hnm H; simpl in H; [by injection H as <-|].
  destruct (traverse _ _ _) as [[t|]|] eqn:E; [|done..].
  eapply IH; [| |exact H]; [set_solver|]. eapply traverse_superseded; [| |exact E]; simpl; [|done].
  intros n e He. apply list_elem_of_singleton in He as [= -> ->]. apply reach_id. set_solver.
Qed.
End Traversal.

(** ** Selecting the maximal candidate *)

Abbreviation snap p := (Head.snapshot_id (fst p)).

Definition keep_maximal (nm : gset bytes) (m : gmap bytes Pair) (p : Pair) : gmap bytes Pair :=
  if bool_decide (snap p ∈ nm) then m else <[snap p := p]> m.

Lemma keep_maximal_spec nm cands : forall m,
  let m' := foldl (keep_maximal nm) m cands in
  (forall k p, m' !! k = Some p -> m !! k = Some p \/ (p ∈ cands /\ snap p = k)) /\
  (forall k, is_Some (m !! k) -> is_Some (m' !! k)) /\
  (forall q, q ∈ cands -> snap q ∉ nm -> is_Some (m' !! snap q)).
Proof.
  induction cands as [|c cands IH]; intros m; simpl; [repeat split; [auto|auto|set_solver]|].
  destruct (IH (keep_maximal nm m c)) as (H1 & H2 & H3). simpl in *.
  assert (forall k, is_Some (m !! k) -> is_Some (keep_maximal nm m c !! k)) as Hk.
  { intros k Hs. unfold keep_maximal. case_bool_decide; [done|]. apply lookup_insert_is_Some'. by right. }
  repeat split.
  - intros k p Hp. destruct (H1 _ _ Hp) as [Hm|(Hin & Hs)]; [|right; set_solver].
    unfold keep_maximal in Hm. case_bool_decide; [by left|].
    rewrite lookup_insert in Hm. case_decide; [simplify_eq; right; set_solver|by left].
  - auto.
  - intros q [->|Hq]%elem_of_cons Hnm; [|auto]. apply H2. unfold keep_maximal.
    rewrite bool_decide_false by done. apply lookup_insert_is_Some'. by left.
Qed.

Lemma elem_of_sort_certs c l : c ∈ sort_certs l <-> c ∈ l.
Proof.
  assert (forall d l, c ∈ insert_cert d l <-> c = d \/ c ∈ l) as Hins.
  { intros d l'. induction l' as [|e l' IH]; simpl; [set_solver|]. case_match; set_solver. }
  induction l as [|d l IH]; simpl; [done|]. rewrite Hins, IH. set_solver.
Qed.

Lemma bind_heads_graph heads : forall b b',
  try_fold bind_head b heads = Ok b' ->
  forall n ps, b_graph b' !! n = Some ps ->
    b_graph b !! n = Some ps \/ exists p, p ∈ heads /\ snap p = n /\ Head.parent_snapshot_ids p.1 = ps.
Proof.
  induction heads as [|h heads IH]; intros b b' H n ps Hn; [injection H as <-; by left|].
  cbn [try_fold] in H. apply res_bind_ok in H as (b1 & Hb1 & H).
  destruct (IH _ _ H _ _ Hn) as [Hg|(p & Hp & Hs)]; [|right; exists p; set_solver].
  unfold bind_head in Hb1. do 3 apply bail_ok in Hb1 as (_ & Hb1). injection Hb1 as <-. simpl in Hg.
  rewrite lookup_insert in Hg. case_decide; [|by left]. simplify_eq. right. exists h. set_solver.
Qed.

Lemma max_generation (heads : list Pair) p :
  p ∈ heads -> generation_of p <= foldr Z.max 0 (generation_of <$> heads).
Proof.
  induction heads as [|h heads IH]; [set_solver|]. rewrite fmap_cons. cbn [foldr].
  intros [->|H]%elem_of_cons; [lia|]. specialize (IH H). lia.
Qed.

Section Authority.
Context {ED : Ed25519} {CD : Cbor DeviceCertificate} {CH : Cbor HeadRecord}.

(** The head is signed by the device of a certificate that the root key signed,
    both for this vault and both among the records. *)
Definition rooted (records : list bytes) (vault root_pk : bytes) (p : Pair) : Prop :=
  (exists r, r ∈ records /\ from_canonical_cbor r = Ok p.1) /\
  (exists r, r ∈ records /\ from_canonical_cbor r = Ok p.2) /\
  DeviceCert.verify root_pk p.2 = Ok tt /\ DeviceCert.vault_id p.2 = vault /\
  Z.land (DeviceCert.permissions p.2) 1 <> 0 /\
  Head.verify (DeviceCert.device_signing_pk p.2) p.1 = Ok tt /\ Head.vault_id p.1 = vault.

Lemma decode_ok_some {T : Type} `{Cbor T} r (v : T) : decode_ok r = Some v -> from_canonical_cbor r = Ok v.
Proof. unfold decode_ok. case_match; congruence. Qed.

Lemma is_ok_tt {E : Type} (r : result E unit) : is_ok r = true -> r = Ok tt.
Proof. by destruct r as [[]|]. Qed.

Lemma authenticate_rooted records vault root_pk p :
  p ∈ omap (authenticate (trusted_certs records vault root_pk) vault) records ->
  rooted records vault root_pk p.
Proof.
  rewrite list_elem_of_omap. intros (r & Hr & H). unfold authenticate in H.
  apply bind_Some in H as (head & Hd & H). apply decode_ok_some in Hd.
  destruct (well_formed_head vault head) eqn:Ewf; [|done]. simpl in H.
  apply fmap_Some in H as (c & Hf & ->). apply find_some in Hf as (Hc & Hs).
  apply list_elem_of_In in Hc. unfold trusted_certs in Hc. apply elem_of_sort_certs, list_elem_of_filter in Hc as (Ht & Hc).
  apply list_elem_of_omap in Hc as (r' & Hr' & Hd'). apply decode_ok_some in Hd'.
  unfold trusted_cert in Ht. unfold well_formed_head in Ewf. unfold signs_head in Hs. bool_prop.
  unfold rooted. simpl. repeat split; eauto using is_ok_tt.
Qed.
End Authority.

(** C30: selecting a recovery head always ends.  A selected head is rooted in
    the offline key; no authenticated head has a newer authority generation; and
    every other authenticated head of the same generation is recorded as a parent
    in the ancestry of that generation's heads, so exactly one branch tip
    remains. *)
Theorem select_head_sound {ED : Ed25519} {CD : Cbor DeviceCertificate} {CH : Cbor HeadRecord}
  records vault root_pk :
  let heads := omap (authenticate (trusted_certs records vault root_pk) vault) records in
  exists r, select_head records vault root_pk = Some r /\
  forall p, r = Ok p ->
    p ∈ heads /\ rooted records vault root_pk p /\
    (forall q, q ∈ heads -> generation_of q <= generation_of p) /\
    exists graph, (forall n ps, graph !! n = Some ps ->
                     exists h, h ∈ heads /\ snap h = n /\ Head.parent_snapshot_ids h.1 = ps) /\
      forall q, q ∈ heads -> generation_of q = generation_of p ->
        snap q = snap p \/
        superseded graph ((fun h : Pair => snap h) <$> filter (fun h => generation_of h = generation_of p) heads)
          (snap q).
Proof.
  intros heads. unfold select_head. cbv zeta. fold heads.
  assert (forall p, p ∈ heads -> rooted records vault root_pk p) as Hroot by (intros; by apply authenticate_rooted).
  clearbody heads. destruct (is_empty (trusted_certs records vault root_pk)); [by eexists|].
  destruct (is_empty heads); [by eexists|].
  destruct (try_fold bind_head _ heads) as [b|e] eqn:Eb; [|by eexists].
  set (gen := foldr Z.max 0 _). set (cands := filter _ heads). set (ids := _ <$> cands).
  destruct (traverse_all_total (b_graph b) (universe (b_graph b) ids) (traversal_fuel (b_graph b) ids) ids ∅ ∅)
    as (r & Er); [apply universe_closed|intros n Hn; unfold universe; set_solver|by intros n z; rewrite lookup_empty|done|].
  rewrite Er. destruct r as [nm|e]; [|by eexists].
  destruct (keep_maximal_spec nm cands ∅) as (H1 & _ & H3).
  change (foldl _ ∅ cands) with (foldl (keep_maximal nm) ∅ cands).
  set (m := foldl (keep_maximal nm) ∅ cands) in *.
  destruct (map_to_list m) as [|[k p] [|]] eqn:Em; [by eexists| |by eexists].
  eexists. split; [reflexivity|]. intros p' [= <-].
  assert (m !! k = Some p) as Hk by (apply elem_of_map_to_list; rewrite Em; by left).
  destruct (H1 _ _ Hk) as [Hbad|(Hp & Hs)]; [by rewrite lookup_empty in Hbad|].
  apply list_elem_of_filter in Hp as (Hgen & Hp). rewrite Hgen. split; [done|]. split; [by apply Hroot|].
  split; [by intros; apply max_generation|]. exists (b_graph b). split.
  - intros n ps Hn. destruct (bind_heads_graph _ _ _ Eb _ _ Hn) as [Hbad|?]; [cbn [b_graph] in Hbad; by rewrite lookup_empty in Hbad|done].
  - intros q Hq Hqg. destruct (decide (snap q ∈ nm)) as [Hnm|Hnm].
    + right. eapply traverse_all_superseded; [| |exact Er|exact Hnm]; [done|set_solver].
    + left. destruct (H3 q) as (x & Hx); [by apply list_elem_of_filter|done|].
      assert ((snap q, x) ∈ map_to_list m) as Hin by (by apply elem_of_map_to_list).
      rewrite Em in Hin. apply list_elem_of_singleton in Hin as [= -> ->]. done.
Qed.

(** A chain of two heads by one certified device: the child is selected. *)
Definition demo_vault : bytes := replicate 32 1.
Definition demo_cert : DeviceCertificate :=
  {| DeviceCert.version := 1; DeviceCert.vault_id := demo_vault; DeviceCert.certificate_id := [];
     DeviceCert.device_signing_pk := verifying_key (replicate 32 6); DeviceCert.permissions := 3;
     DeviceCert.authority_generation := 2; DeviceCert.issued_at_utc := 0; DeviceCert.signature := [] |}.
Definition demo_head (id : Z) (parents : list bytes) (counter : Z) : HeadRecord :=
  {| Head.version := 1; Head.vault_id := demo_vault; Head.snapshot_id := replicate 32 id;
     Head.parent_snapshot_ids := parents; Head.closure_digest := []; Head.device_id := replicate 32 9;
     Head.device_counter := counter; Head.signature := [] |}.
Definition demo_records (heads : list HeadRecord) : result FormatError (list bytes) :=
  let? cert := DeviceCert.sign (replicate 32 5) demo_cert in
  let? cert_bytes := to_canonical_cbor cert in
  let? head_bytes := try_map (fun h => let? s := Head.sign (replicate 32 6) h in to_canonical_cbor s) heads in
  Ok (cert_bytes :: head_bytes).
Definition demo_select (heads : list HeadRecord) : option bytes :=
  match demo_records heads with
  | Ok records =>
      match select_head records demo_vault (verifying_key (replicate 32 5)) with
      | Some (Ok p) => Some (snap p)
      | _ => None
      end
  | Err _ => None
  end.
Example select_head_chain :
  demo_select [demo_head 20 [replicate 32 10] 2; demo_head 10 [] 1] = Some (replicate 32 20).
Proof. vm_compute. reflexivity. Qed.
(** A fork is refused. *)
Example select_head_fork : demo_select [demo_head 20 [] 2; demo_head 10 [] 1] = None.
Proof. vm_compute. reflexivity. Qed.
