(* ===== verification/Maintenance.v ===== *)
(** * The maintenance service

    src/services/maintenance/src: engine.rs (audits of a recovery closure, repair of missing
    replicas, renewal of leases), scheduler.rs (validation of an inventory and one job over
    it) and db.rs (the history, the inventories and the schedule of jobs).

    The service works through the clients of [Pool]; operators answer arbitrarily.  Tasks that
    run at once have independent results, except where one of them is taken first: there the
    order of completion is an argument.  A [HashMap] that is iterated over is the list of its
    entries in the order of the iteration.  A statement of the database can fail, as the
    oracle of the job says. *)

From stdpp Require Import sorting.
From S2P Require Import Prelude Sorting Tables Errors Primitives SamplePrimitives Names Crypto Schema Kit OperatorCore Trust Admission ObjectStore Pool.
Import Lease (LeaseReceipt).
#[local] Open Scope tx_scope.

(** ** Reports *)

Record ObjectReplicaStatus : Type := { cid : bytes; present_on : list str; missing_on : list str }.
Record AuditReport : Type := {
  a_closure_digest : bytes; total_objects : Z; healthy_count : Z; degraded_count : Z; lost_count : Z;
  operator_counts : gmap str Z; degraded_objects : list ObjectReplicaStatus;
}.
Record RecoveryAudit : Type := {
  a_objects : AuditReport; recoverable_operators : list str; discovery_missing : list str;
  a_required_replicas : Z; healthy : bool; checked_at_utc : Z;
}.
Record RepairResult : Type := {
  objects_repaired : Z; objects_failed : Z; placement_updates : list Placement.PlacementUpdate; elapsed_secs : Z;
}.

Definition unique {A} `{EqDecision A} : list A -> list A := dedup_by (fun a b => bool_decide (a = b)).

Section Maintenance.
Context {HX : Hex} {ED : Ed25519} {SH : Sha256} {CC : Cbor Closure.RecoveryClosure}
  {CD : Cbor DeviceCert.DeviceCertificate} {CH : Cbor Head.HeadRecord}.
Variable identity_json : identity_fields -> bytes.
Variable lease_json : Lease.signed_fields -> bytes.

(** ** engine.rs *)

(** [MaintenanceEngine::from_clients]; the engine is its clients, their endpoints follow. *)
Definition engine_clients (cs : list OperatorClient) : list OperatorClient := clients (from_clients cs).

Definition engine_sessions (vault_id signing_key : bytes) (cs : list OperatorClient) : gmap str str :=
  foldl (fun tokens c => match (authenticate vault_id signing_key c).1 with
                         | Ok token => <[endpoint c := token]> tokens
                         | Err _ => tokens
                         end) ∅ cs.

Definition ids32 (l : list bytes) : list bytes := List.filter (fun id => blen id =? 32) l.
Definition all_cids (closure : Closure.RecoveryClosure) : list bytes :=
  unique (sort lex_le (ids32 ([Closure.snapshot_record_cid closure; Closure.manifest_cid closure]
                              ++ Closure.envelope_ids closure ++ Closure.chunk_cids closure))).

Definition operator_pk (r : Run) (at_ : Moment) (c : OperatorClient) : option bytes :=
  match get_info identity_json r at_ c with Ok info => decode_key (operator_signing_pk_hex info) | Err _ => None end.

(** A proof of storage that names the object, the nonce and the size. *)
Definition proven (r : Run) (at_ : Moment) (c : OperatorClient) (token : str) (pk id data : bytes) : bool :=
  match challenge_object_pos (transport c) at_ token id (nonce r at_) with
  | Ok receipt => is_ok (Pos.verify receipt pk (Pos.compute_pos_proof id (nonce r at_) data))
                  && bool_decide (Pos.cid_hex receipt = hex_encode id) && bool_decide (Pos.nonce_hex receipt = hex_encode (nonce r at_))
                  && (Pos.size_bytes receipt =? blen data)
  | Err _ => false
  end.
Definition served (at_ : Moment) (c : OperatorClient) (token : str) (id : bytes) : bool :=
  match get_object at_ token id c with Ok b => bool_decide (sha256 b = id) | Err _ => false end.
Definition probe (r : Run) (phase : string) (sessions : gmap str str) (data : option bytes) (i_id : nat * bytes) (c : OperatorClient) : bool :=
  let '(i, id) := i_id in
  match sessions !! endpoint c with
  | None => false
  | Some token =>
      match data, operator_pk r (phase, []) c with
      | Some data, Some pk => proven r (phase, [i]) c token pk id data
      | _, _ => false
      end || served (phase, [i]) c token id
  end.

Definition status_of (r : Run) (phase : string) (sessions : gmap str str) (local_objects : gmap bytes bytes) (cs : list OperatorClient)
  (i_id : nat * bytes) : ObjectReplicaStatus :=
  let present := probe r phase sessions (local_objects !! i_id.2) i_id in
  {| cid := i_id.2; present_on := endpoint <$> List.filter present cs; missing_on := endpoint <$> List.filter (fun c => negb (present c)) cs |}.

(** One round of the loop over the objects. *)
Definition count_status (clients_len : Z) (report : AuditReport) (s : ObjectReplicaStatus) : AuditReport :=
  let counts := foldl (fun m e => <[e := default 0 (m !! e) + 1]> m) (operator_counts report) (present_on s) in
  if negb (bool_decide (present_on s = [])) && (blen (present_on s) =? clients_len) then
    {| a_closure_digest := a_closure_digest report; total_objects := total_objects report; healthy_count := healthy_count report + 1;
       degraded_count := degraded_count report; lost_count := lost_count report; operator_counts := counts;
       degraded_objects := degraded_objects report |}
  else if negb (bool_decide (present_on s = [])) then
    {| a_closure_digest := a_closure_digest report; total_objects := total_objects report; healthy_count := healthy_count report;
       degraded_count := degraded_count report + 1; lost_count := lost_count report; operator_counts := counts;
       degraded_objects := degraded_objects report ++ [s] |}
  else
    {| a_closure_digest := a_closure_digest report; total_objects := total_objects report; healthy_count := healthy_count report;
       degraded_count := degraded_count report; lost_count := lost_count report + 1; operator_counts := counts;
       degraded_objects := degraded_objects report ++ [s] |}.

Definition audit_closure_with_cache (r : Run) (phase : string) (closure : Closure.RecoveryClosure) (sessions : gmap str str)
  (local_objects : gmap bytes bytes) (cs : list OperatorClient) : result str AuditReport :=
  let? digest := map_err display_format_error (Closure.compute_base_closure_digest closure) in
  let ids := all_cids closure in
  bail? bool_decide (ids = []) with lit "Empty recovery inventory" ;;
  Ok (foldl (count_status (blen cs))
        {| a_closure_digest := digest; total_objects := blen ids; healthy_count := 0; degraded_count := 0; lost_count := 0;
           operator_counts := foldl (fun m c => <[endpoint c := 0]> m) ∅ cs; degraded_objects := [] |}
        (status_of r phase sessions local_objects cs <$> enumerate ids)).

Definition discovery_ok (phase : string) (set : Closure.RecoverySet) (head : bytes) (c : OperatorClient) : bool :=
  match get_recovery_records (transport c) (phase, []) (Closure.locator set) with
  | Ok discovered => bool_decide (head ∈ discovered) && forallb (fun record => bool_decide (record ∈ discovered)) (Closure.records set)
  | Err _ => false
  end.
(** One round of the loop over the operators: which are missing, which recover, and the keys counted. *)
Definition judge_operator (r : Run) (phase : string) (set : Closure.RecoverySet) (head : bytes) (report : AuditReport)
  (acc : list str * list str * gset bytes) (c : OperatorClient) : list str * list str * gset bytes :=
  let '(missing, recoverable, keys) := acc in
  if discovery_ok phase set head c then
    if bool_decide (operator_counts report !! endpoint c = Some (total_objects report)) then
      match operator_pk r ((phase +:+ "-key")%string, []) c with
      | Some key => if bool_decide (key ∈ keys) then acc else (missing, recoverable ++ [endpoint c], {[ key ]} ∪ keys)
      | None => acc
      end
    else acc
  else (missing ++ [endpoint c], recoverable, keys).

Definition audit_recovery_set_with_cache (r : Run) (phase : string) (set : Closure.RecoverySet) (head : bytes) (sessions : gmap str str)
  (local_objects : gmap bytes bytes) (cs : list OperatorClient) : result str RecoveryAudit :=
  let? report := audit_closure_with_cache r phase (Closure.closure set) sessions local_objects cs in
  let '(missing, recoverable, _) := foldl (judge_operator r phase set head report) ([], [], ∅) cs in
  let recoverable := unique (sort lex_le recoverable) in
  Ok {| a_objects := report; recoverable_operators := recoverable; discovery_missing := missing; a_required_replicas := 3;
        healthy := (blen recoverable >=? 3) && (lost_count report =? 0); checked_at_utc := clock r (phase, []) |}.

(** *** Repair *)

Definition within_moment (at_ : Moment) (i : nat) : Moment := (at_.1, at_.2 ++ [i]).

Definition client_at (cs : list OperatorClient) (e : str) : option OperatorClient := List.find (fun c => bool_decide (endpoint c = e)) cs.

(** The copies that survive, in the order in which the reads complete. *)
Definition sources (at_ : Moment) (cs : list OperatorClient) (sessions : gmap str str) (item : ObjectReplicaStatus)
  : list (str * result StorageError bytes) :=
  omap (fun e => match client_at cs e, sessions !! e with
                 | Some c, Some token => Some (e, get_object (within_moment at_ O) token (cid item) c)
                 | _, _ => None
                 end) (present_on item).
Definition surviving (item : ObjectReplicaStatus) (reads : list (str * result StorageError bytes)) : option (str * bytes) :=
  find_map (fun '(e, answer) => match answer with
                                | Ok b => if bool_decide (sha256 b = cid item) then Some (e, b) else None
                                | Err _ => None
                                end) reads.
Definition placement_message (closure_digest id : bytes) (target_ep : str) (now : Z) : bytes :=
  as_bytes (hex_encode closure_digest ++ lit ":" ++ hex_encode id ++ lit ":" ++ target_ep ++ lit ":" ++ show_Z now).
Definition placement (signing_key closure_digest id : bytes) (source_ep target_ep : str) (now : Z) : Placement.PlacementUpdate :=
  {| Placement.version := PROTOCOL_VERSION; Placement.closure_digest := closure_digest; Placement.object_cid := id;
     Placement.source_operator := source_ep; Placement.target_operator := target_ep; Placement.updated_at_utc := now;
     Placement.verified_readback := true;
     Placement.signature := sign_with_domain signing_key (lit "placement_update") (placement_message closure_digest id target_ep now) |}.
(** One operator that lacks the object: upload and readback. *)
Definition repair_target (r : Run) (from : Moment) (cs : list OperatorClient) (sessions : gmap str str) (signing_key closure_digest id : bytes)
  (source_ep : str) (b : bytes) (acc : bool * list Placement.PlacementUpdate) (i_target : nat * str) : bool * list Placement.PlacementUpdate :=
  let '(repaired_all, updates) := acc in
  let '(i, target_ep) := i_target in
  let at_ : Moment := within_moment from (S i) in
  match sessions !! target_ep, client_at cs target_ep with
  | Some token, Some c =>
      if is_ok (send_object (transport c) at_ token id b) then
        match get_object at_ token id c with
        | Ok readback => if bool_decide (sha256 readback = id)
                         then (repaired_all, updates ++ [placement signing_key closure_digest id source_ep target_ep (wrap64 (clock r at_))])
                         else (false, updates)
        | Err _ => (false, updates)
        end
      else (false, updates)
  | _, _ => (false, updates)
  end.
Definition repair_single_object (r : Run) (at_ : Moment) (schedule : list (str * result StorageError bytes) -> list (str * result StorageError bytes))
  (cs : list OperatorClient) (sessions : gmap str str) (signing_key closure_digest : bytes) (item : ObjectReplicaStatus)
  : bool * list Placement.PlacementUpdate :=
  if bool_decide (present_on item = []) then (false, [])
  else match surviving item (schedule (sources at_ cs sessions item)) with
       | None => (false, [])
       | Some (source_ep, b) =>
           foldl (repair_target r at_ cs sessions signing_key closure_digest (cid item) source_ep b) (true, []) (enumerate (missing_on item))
       end.

(** The outcomes are kept by object: an object that were listed twice would count once. *)
Definition Outcomes : Type := gmap bytes (bool * list Placement.PlacementUpdate).
Definition count_outcome (acc : Z * Z * list Placement.PlacementUpdate * Outcomes) (item : ObjectReplicaStatus)
  : Z * Z * list Placement.PlacementUpdate * Outcomes :=
  let '(repaired, failed, updates, outcomes) := acc in
  match outcomes !! cid item with
  | Some (true, placements) => (repaired + 1, failed, updates ++ placements, delete (cid item) outcomes)
  | Some (false, placements) => (repaired, failed + 1, updates ++ placements, delete (cid item) outcomes)
  | None => (repaired, failed + 1, updates, outcomes)
  end.
Definition repair_closure (r : Run) (phase : string) (schedule : list (str * result StorageError bytes) -> list (str * result StorageError bytes))
  (elapsed : Z) (audit : AuditReport) (sessions : gmap str str) (signing_key : bytes) (cs : list OperatorClient) : RepairResult :=
  let outcomes := foldl (fun (m : Outcomes) '(i, item) =>
    <[cid item := repair_single_object r (phase, [i]) schedule cs sessions signing_key (a_closure_digest audit) item]> m)
    ∅ (enumerate (degraded_objects audit)) in
  let '(repaired, failed, updates, _) := foldl count_outcome (0, 0, [], outcomes) (degraded_objects audit) in
  {| objects_repaired := repaired; objects_failed := failed; placement_updates := updates; elapsed_secs := elapsed |}.

(** *** Leases *)

(** The operators that can renew, by the name they declare; [cs] in the order in which they answer. *)
Definition renewers (r : Run) (phase : string) (sessions : gmap str str) (cs : list OperatorClient) : gmap str (OperatorClient * str * bytes) :=
  foldl (fun m c => match get_info identity_json r (phase, []) c with
                    | Ok info => match decode_key (operator_signing_pk_hex info), sessions !! endpoint c with
                                 | Some pk, Some token => <[operator_id info := (c, token, pk)]> m
                                 | _, _ => m
                                 end
                    | Err _ => m
                    end) ∅ cs.
Definition extends (pk : bytes) (additional_days : Z) (previous renewed : LeaseReceipt) : bool :=
  is_ok (Lease.verify lease_json renewed pk)
  && bool_decide (Lease.lease_id renewed = Lease.lease_id previous) && bool_decide (Lease.operator_id renewed = Lease.operator_id previous)
  && bool_decide (Lease.closure_digest_hex renewed = Lease.closure_digest_hex previous) && (Lease.bytes_ renewed =? Lease.bytes_ previous)
  && (Lease.issued_at_utc renewed =? Lease.issued_at_utc previous)
  && (Lease.term_days renewed =? Z.min (Lease.term_days previous + additional_days) u32_max)
  && (Lease.expires_at_utc renewed >=? sat_add64 (Lease.expires_at_utc previous) (additional_days * 86400)).
Definition renew_one (phase : string) (ops : gmap str (OperatorClient * str * bytes)) (additional_days : Z) (i_receipt : nat * LeaseReceipt)
  : option LeaseReceipt :=
  let '(i, receipt) := i_receipt in
  '(c, token, pk) ← ops !! Lease.operator_id receipt;
  if is_ok (Lease.verify lease_json receipt pk) then
    match ask_renewal (transport c) (phase, [i]) token (Lease.lease_id receipt) additional_days (Lease.bytes_ receipt) with
    | Ok renewed => if extends pk additional_days receipt renewed then Some renewed else None
    | Err _ => None
    end
  else None.
Definition renew_leases (r : Run) (phase : string) (receipts : list LeaseReceipt) (sessions : gmap str str) (additional_days : Z)
  (answered : list OperatorClient) : list LeaseReceipt :=
  omap (renew_one phase (renewers r phase sessions answered) additional_days) (enumerate receipts).

(** ** scheduler.rs *)

Record MaintenanceInventory : Type := {
  i_set : Closure.RecoverySet; i_head : bytes; i_vault_id : bytes; recovery_signing_pk : bytes;
  operator_keys : list (str * bytes); required_replicas : Z; leases : list LeaseReceipt;
  account_id : option str; device_id_hex : option str;
}.
Definition with_leases (ls : list LeaseReceipt) (i : MaintenanceInventory) : MaintenanceInventory :=
  {| i_set := i_set i; i_head := i_head i; i_vault_id := i_vault_id i; recovery_signing_pk := recovery_signing_pk i;
     operator_keys := operator_keys i; required_replicas := required_replicas i; leases := ls;
     account_id := account_id i; device_id_hex := device_id_hex i |}.

Definition validate (self : MaintenanceInventory) : result str unit :=
  bail? negb ((required_replicas self >? 0) && (required_replicas self <=? 32)) with lit "Invalid replica target" ;;
  bail? negb (blen (operator_keys self) <=? 32) with lit "Too many operators in inventory" ;;
  bail? negb (eqb (bool_decide (is_Some (account_id self))) (bool_decide (is_Some (device_id_hex self))))
    with lit "Incomplete account/device binding" ;;
  let records := Closure.records (i_set self) ++ [i_head self] in
  match select_head records (i_vault_id self) (recovery_signing_pk self) with
  | None => Err []  (* excluded by the fuel of [select_head] *)
  | Some (Err e) => Err (lit e)
  | Some (Ok (head, _)) =>
      let closure := Closure.closure (i_set self) in
      let? supplied := map_err display_format_error (from_canonical_cbor (T := Head.HeadRecord) (i_head self)) in
      bail? negb (bool_decide (head = supplied)) with lit "Inventory head is not the authenticated maximal head" ;;
      let? digest := map_err display_format_error (Closure.compute_base_closure_digest closure) in
      bail? negb (bool_decide (Head.closure_digest head = digest) && bool_decide (Head.snapshot_id head = Closure.snapshot_record_cid closure))
        with lit "Inventory does not match signed head" ;;
      bail? negb ((blen (Closure.snapshot_id closure) =? 32) && (blen (Closure.manifest_cid closure) =? 32)
                  && (blen (Closure.chunk_cids closure) <=? 10000)
                  && forallb (fun id => blen id =? 32) (Closure.chunk_cids closure ++ Closure.envelope_ids closure))
        with lit "Invalid closure object identifiers" ;;
      Ok tt
  end.

Definition inventory_client (dial : str -> OperatorTransport) (self : MaintenanceInventory) (entry : str * bytes) : OperatorClient :=
  let '(e, key) := entry in
  let client := new_pinned e (dial (Peer.trim_end_matches 47 e)) key in
  match account_id self, device_id_hex self with
  | Some account, Some device => with_account_identity account device client
  | _, _ => client
  end.
Definition engine (dial : str -> OperatorTransport) (self : MaintenanceInventory) : list OperatorClient :=
  engine_clients (inventory_client dial self <$> operator_keys self).

(** ** db.rs *)

Record TrackedVault : Type := {
  label : str; registered_at_utc : Z; last_audit_at_utc : option Z; last_status : str; replica_count : Z;
}.
Record AuditRecord : Type := {
  ar_locator_hex : str; ar_timestamp_utc : Z; ar_healthy : bool; ar_total_objects : Z; ar_degraded_objects : Z; ar_details_json : bytes;
}.
Record RepairRecord : Type := {
  rr_locator_hex : str; rr_timestamp_utc : Z; rr_objects_repaired : Z; rr_objects_failed : Z; rr_lag_secs : Z;
}.
Record JobRow : Type := { attempts : Z; next_attempt_utc : Z; last_error : option str }.
Record OperatorNode : Type := { last_seen_utc : Z; latency_ms : Z; is_healthy : bool }.
Record MaintenanceDb : Type := MkDb {
  tracked_vaults : gmap str TrackedVault; audit_history : list AuditRecord; repair_history : list RepairRecord;
  operator_nodes : gmap str OperatorNode; maintenance_inventory : gmap str bytes; maintenance_jobs : gmap str JobRow;
}.
Definition with_tracked (f : gmap str TrackedVault -> gmap str TrackedVault) (d : MaintenanceDb) : MaintenanceDb :=
  let 'MkDb v a p o i j := d in MkDb (f v) a p o i j.
Definition with_audits (f : list AuditRecord -> list AuditRecord) (d : MaintenanceDb) : MaintenanceDb :=
  let 'MkDb v a p o i j := d in MkDb v (f a) p o i j.
Definition with_repairs (f : list RepairRecord -> list RepairRecord) (d : MaintenanceDb) : MaintenanceDb :=
  let 'MkDb v a p o i j := d in MkDb v a (f p) o i j.
Definition with_nodes (f : gmap str OperatorNode -> gmap str OperatorNode) (d : MaintenanceDb) : MaintenanceDb :=
  let 'MkDb v a p o i j := d in MkDb v a p (f o) i j.
Definition with_inventories (f : gmap str bytes -> gmap str bytes) (d : MaintenanceDb) : MaintenanceDb :=
  let 'MkDb v a p o i j := d in MkDb v a p o (f i) j.
Definition with_jobs (f : gmap str JobRow -> gmap str JobRow) (d : MaintenanceDb) : MaintenanceDb :=
  let 'MkDb v a p o i j := d in MkDb v a p o i (f j).

Context {JI : JsonDoc MaintenanceInventory} {JR : JsonDoc RecoveryAudit}.
(** [str::to_lowercase] *)
Variable to_lowercase : str -> str.

(** A use of the database: which statements fail (one whose number does not fit its column among them), with which message,
    and the clock. *)
Record DbCall : Type := { m_fails : string -> bool; m_error : str; m_now : string -> Z }.
Definition DTx : Type -> Type := Tx MaintenanceDb str.
Definition statement (c : DbCall) (name : string) (f : MaintenanceDb -> MaintenanceDb) : DTx unit :=
  execute_if (m_fails c name) (m_error c) (fun d => Some (f d)).
Definition select {A} (c : DbCall) (name : string) (f : MaintenanceDb -> A) : DTx A := query_if (m_fails c name) (m_error c) f.

Definition clean_locator (locator_hex : str) : str := to_lowercase (trim_start_matches (lit "0x") (trim locator_hex)).

Definition register_vault (c : DbCall) (locator_hex : str) (label_ : option str) : DTx unit :=
  let clean := clean_locator locator_hex in
  if negb (str_len clean =? 64) || negb (is_ok (hex_decode clean)) then
    tret (Err (lit "Invalid vault locator: must be 32 bytes (64 hex characters)"))
  else
    let lbl := default (lit "Production Vault") label_ in
    statement c "register" (with_tracked (fun t =>
      <[clean := match t !! clean with
                 | Some v => {| label := lbl; registered_at_utc := registered_at_utc v; last_audit_at_utc := last_audit_at_utc v;
                                last_status := last_status v; replica_count := replica_count v |}
                 | None => {| label := lbl; registered_at_utc := wrap64 (m_now c "register"); last_audit_at_utc := None;
                              last_status := lit "Registered"; replica_count := 3 |}
                 end]> t)).

Definition set_status (status : str) (at_ : option Z) (v : TrackedVault) : TrackedVault :=
  {| label := label v; registered_at_utc := registered_at_utc v;
     last_audit_at_utc := match at_ with Some now => Some now | None => last_audit_at_utc v end;
     last_status := status; replica_count := replica_count v |}.
Definition record_audit (c : DbCall) (locator_hex : str) (healthy_ : bool) (total degraded : Z) (details : bytes) : DTx unit :=
  let clean := clean_locator locator_hex in
  let now := wrap64 (m_now c "audit") in
  statement c "insert_audit" (with_audits (fun l => l ++ [{| ar_locator_hex := clean; ar_timestamp_utc := now; ar_healthy := healthy_;
    ar_total_objects := total; ar_degraded_objects := degraded; ar_details_json := details |}])) ;;;
  statement c "update_status" (with_tracked (alter (set_status (if healthy_ then lit "Healthy" else lit "Degraded") (Some now)) clean)).
Definition record_unverified (c : DbCall) (locator details : str) : DTx unit :=
  record_audit c locator false 0 0 (as_bytes details) ;;;
  statement c "unverified" (with_tracked (alter (set_status (lit "Unverified") None) locator)).
Definition record_repair (c : DbCall) (locator_hex : str) (repaired failed lag : Z) : DTx unit :=
  statement c "insert_repair" (with_repairs (fun l => l ++ [{| rr_locator_hex := clean_locator locator_hex;
    rr_timestamp_utc := wrap64 (m_now c "repair"); rr_objects_repaired := repaired; rr_objects_failed := failed; rr_lag_secs := lag |}])).
Definition update_operator_health (c : DbCall) (endpoint_ : str) (latency : Z) (healthy_ : bool) : DTx unit :=
  statement c "health" (with_nodes (<[endpoint_ := {| last_seen_utc := wrap64 (m_now c "health"); latency_ms := latency; is_healthy := healthy_ |}]>)).

Definition store_inventory (c : DbCall) (inventory : MaintenanceInventory) : DTx unit :=
  tret (validate inventory) ;;;
  let locator_hex := hex_encode (Closure.locator (i_set inventory)) in
  do exists_ <- select c "exists" (fun d => bool_decide (is_Some (tracked_vaults d !! locator_hex))) ;;
  (if exists_ then tret (Ok tt) else register_vault c locator_hex None) ;;;
  do json <- tret (doc_write inventory) ;;
  statement c "insert_inventory" (with_inventories (<[locator_hex := json]>)) ;;;
  statement c "replicas" (with_tracked (alter (fun v =>
    {| label := label v; registered_at_utc := registered_at_utc v; last_audit_at_utc := last_audit_at_utc v; last_status := last_status v;
       replica_count := required_replicas inventory |}) locator_hex)).
Definition get_inventory (c : DbCall) (locator_hex : str) : DTx (option MaintenanceInventory) :=
  do json <- select c "inventory" (fun d => maintenance_inventory d !! locator_hex) ;;
  match json with
  | None => tret (Ok None)
  | Some b => match doc_read b with Some i => tret (Ok (Some i)) | None => tret (Err (m_error c)) end
  end.

Definition job_due (c : DbCall) (locator_hex : str) (now : Z) : DTx bool :=
  do due <- select c "due" (fun d => next_attempt_utc <$> maintenance_jobs d !! locator_hex) ;;
  tret (Ok (match due with None => true | Some due => due <=? now end)).
(** The delay before the next attempt: doubled for each failure in a row, up to an hour. *)
Definition job_attempts (previous : option Z) (failed : bool) : Z :=
  if failed then Z.min (Z.min (default 0 previous + 1) u32_max) 20 else 0.
Definition job_delay (interval_secs attempts_ : Z) (failed : bool) : Z :=
  if failed then Z.min (sat_mul64 (Z.max interval_secs 1) (Z.shiftl 1 (Z.min attempts_ 10))) 3600 else Z.max interval_secs 1.
Definition record_job_result (c : DbCall) (locator_hex : str) (interval_secs : Z) (error : option str) : DTx unit :=
  do previous <- select c "attempts" (fun d => attempts <$> maintenance_jobs d !! locator_hex) ;;
  let failed := bool_decide (is_Some error) in
  let attempts_ := job_attempts previous failed in
  let next := wrap64 (Z.max (m_now c "job") 0 + job_delay interval_secs attempts_ failed) in
  statement c "job" (with_jobs (<[locator_hex := {| attempts := attempts_; next_attempt_utc := next; last_error := error |}]>)).

Record FleetSummary : Type := {
  total_tracked_vaults : Z; healthy_vaults : Z; degraded_vaults : Z; total_audits_recorded : Z; online_operators : Z;
  total_operators : Z; total_repairs_recorded : Z; total_repair_failures : Z; last_repair_lag_secs : Z;
}.
Definition sum (l : list Z) : Z := foldr Z.add 0 l.
Definition get_fleet_summary (c : DbCall) : DTx FleetSummary :=
  do total <- select c "vaults" (fun d => Z.of_nat (size (tracked_vaults d))) ;;
  do ok <- select c "healthy" (fun d => Z.of_nat (size (filter (fun kv => last_status kv.2 = lit "Healthy") (tracked_vaults d)))) ;;
  do audits <- select c "audits" (fun d => blen (audit_history d)) ;;
  do ops <- select c "operators" (fun d => Z.of_nat (size (operator_nodes d))) ;;
  do online <- select c "online" (fun d => Z.of_nat (size (filter (fun kv => is_healthy kv.2 = true) (operator_nodes d)))) ;;
  do repairs <- select c "repairs" (fun d => sum (rr_objects_repaired <$> repair_history d)) ;;
  do failures <- select c "failures" (fun d => sum (rr_objects_failed <$> repair_history d)) ;;
  do lag <- select c "lag" (fun d => default 0 (rr_lag_secs <$> last (repair_history d))) ;;
  tret (Ok {| total_tracked_vaults := total; healthy_vaults := ok; degraded_vaults := Z.max (total - ok) 0; total_audits_recorded := audits;
              online_operators := online; total_operators := ops; total_repairs_recorded := repairs; total_repair_failures := failures;
              last_repair_lag_secs := lag |}).

Definition by_registration (a b : str * TrackedVault) : bool := registered_at_utc a.2 <=? registered_at_utc b.2.
Definition list_vaults (c : DbCall) : DTx (list (str * TrackedVault)) := select c "list_vaults" (fun d => sort by_registration (map_to_list (tracked_vaults d))).
Definition list_operator_nodes (c : DbCall) : DTx (list (str * OperatorNode)) :=
  select c "list_nodes" (fun d => sort (fun a b => lex_le a.1 b.1) (map_to_list (operator_nodes d))).
Definition get_recent_audits (c : DbCall) (limit : Z) : DTx (list AuditRecord) :=
  select c "recent" (fun d => take (Z.to_nat limit) (sort (fun a b => ar_timestamp_utc b <=? ar_timestamp_utc a) (audit_history d))).

(** ** One job *)

Record JobState : Type := { j_db : MaintenanceDb; j_inventory : MaintenanceInventory; j_sent : list (str * bytes) }.
Definition JTx : Type -> Type := Tx JobState str.
Definition on_db {A} (m : DTx A) : JTx A := fun s =>
  let '(x, d) := m (j_db s) in (x, {| j_db := d; j_inventory := j_inventory s; j_sent := j_sent s |}).
Definition set_inventory (i : MaintenanceInventory) : JTx unit := tmodify (fun s => {| j_db := j_db s; j_inventory := i; j_sent := j_sent s |}).
Definition sent (records : list (str * bytes)) : JTx unit :=
  tmodify (fun s => {| j_db := j_db s; j_inventory := j_inventory s; j_sent := j_sent s ++ records |}).

Record JobCall : Type := {
  jc_run : Run; jc_db : DbCall; jc_dial : str -> OperatorTransport; jc_key : option bytes; jc_elapsed : Z;
  jc_reads : list (str * result StorageError bytes) -> list (str * result StorageError bytes);
  jc_answered : list OperatorClient -> list OperatorClient;
}.

(** The records that are sent again to an operator whose log lacks some. *)
Definition republish (c : JobCall) (key : bytes) (inventory : MaintenanceInventory) (report : RecoveryAudit) (write_sessions : gmap str str)
  (entry : str * bytes) : list (str * bytes) :=
  let '(e, _) := entry in
  if bool_decide (e ∈ discovery_missing report) && bool_decide (is_Some (write_sessions !! e)) then
    let client := inventory_client (jc_dial c) inventory entry in
    match (authenticate (i_vault_id inventory) key client).1 with
    | Ok _ =>
        let existing := match get_recovery_records (transport client) ("republish"%string, []) (Closure.locator (i_set inventory)) with
                        | Ok l => l | Err _ => [] end in
        (fun record => (e, record)) <$> List.filter (fun record => negb (bool_decide (record ∈ existing)))
                                          (Closure.records (i_set inventory) ++ [i_head inventory])
    | Err _ => []
    end
  else [].

Definition same_lease (a b : LeaseReceipt) : bool :=
  bool_decide (Lease.lease_id a = Lease.lease_id b) && bool_decide (Lease.operator_id a = Lease.operator_id b).
(** [*previous = renewed] for the first lease with the same names. *)
Fixpoint replace_lease (renewed : LeaseReceipt) (ls : list LeaseReceipt) : list LeaseReceipt :=
  match ls with
  | [] => []
  | l :: rest => if same_lease l renewed then renewed :: rest else l :: replace_lease renewed rest
  end.
Definition due_leases (now : Z) (ls : list LeaseReceipt) : list LeaseReceipt :=
  List.filter (fun l => Lease.expires_at_utc l <? sat_add64 now (14 * 86400)) ls.

Definition key_at (inventory : MaintenanceInventory) (e : str) : option bytes :=
  snd <$> List.find (fun entry => bool_decide (entry.1 = e)) (operator_keys inventory).
Definition distinct_keys (inventory : MaintenanceInventory) (recoverable : list str) : gset bytes :=
  list_to_set (omap (key_at inventory) recoverable).
Definition judged (inventory : MaintenanceInventory) (report : RecoveryAudit) : RecoveryAudit :=
  {| a_objects := a_objects report; recoverable_operators := recoverable_operators report; discovery_missing := discovery_missing report;
     a_required_replicas := required_replicas inventory;
     healthy := (Z.of_nat (size (distinct_keys inventory (recoverable_operators report))) >=? required_replicas inventory)
                && (lost_count (a_objects report) =? 0);
     checked_at_utc := checked_at_utc report |}.

Definition all_sessions (cs : list OperatorClient) (write_sessions : gmap str str) : gmap str str :=
  foldl (fun m c => match m !! endpoint c with Some _ => m | None => <[endpoint c := lit "recovery_anonymous"]> m end) write_sessions cs.

(** Repair of the objects and of the logs, and the audit that follows. *)
Definition repair_step (c : JobCall) (key : bytes) (inventory : MaintenanceInventory) (cs : list OperatorClient) (sessions write_sessions : gmap str str)
  (report : RecoveryAudit) : JTx RecoveryAudit :=
  let locator_hex := hex_encode (Closure.locator (i_set inventory)) in
  if (negb (bool_decide (degraded_objects (a_objects report) = [])) || negb (bool_decide (discovery_missing report = [])))
     && negb (bool_decide (write_sessions = ∅)) then
    let result := repair_closure (jc_run c) "repair" (jc_reads c) (jc_elapsed c) (a_objects report) write_sessions key cs in
    on_db (record_repair (jc_db c) locator_hex (objects_repaired result) (objects_failed result) (elapsed_secs result)) ;;;
    sent (operator_keys inventory ≫= republish c key inventory report write_sessions) ;;;
    tret (audit_recovery_set_with_cache (jc_run c) "reaudit" (i_set inventory) (i_head inventory) sessions ∅ cs)
  else tret (Ok report).
Definition renew_step (c : JobCall) (cs : list OperatorClient) (write_sessions : gmap str str) : JTx unit :=
  do inventory <- tget j_inventory ;;
  let due := due_leases (Z.max (clock (jc_run c) ("due"%string, [])) 0) (leases inventory) in
  if bool_decide (due = []) then tret (Ok tt)
  else
    let renewed := renew_leases (jc_run c) "renew" due write_sessions 30 (jc_answered c cs) in
    let inventory' := with_leases (foldl (fun ls l => replace_lease l ls) (leases inventory) renewed) inventory in
    set_inventory inventory' ;;;
    on_db (store_inventory (jc_db c) inventory').

Definition run_inventory_job (c : JobCall) : JTx RecoveryAudit :=
  do inventory <- tget j_inventory ;;
  tret (validate inventory) ;;;
  let cs := engine (jc_dial c) inventory in
  let write_sessions := match jc_key c with Some key => engine_sessions (i_vault_id inventory) key cs | None => ∅ end in
  let sessions := all_sessions cs write_sessions in
  do report <- tret (audit_recovery_set_with_cache (jc_run c) "audit" (i_set inventory) (i_head inventory) sessions ∅ cs) ;;
  do report <- match jc_key c with
               | None => tret (Ok report)
               | Some key => do report <- repair_step c key inventory cs sessions write_sessions report ;;
                             renew_step c cs write_sessions ;;;
                             tret (Ok report)
               end ;;
  let report := judged inventory report in
  do details <- tret (doc_write report) ;;
  on_db (record_audit (jc_db c) (hex_encode (Closure.locator (i_set inventory))) (healthy report) (total_objects (a_objects report))
           (degraded_count (a_objects report) + lost_count (a_objects report)) details) ;;;
  tret (Ok report).

(** [read_inventory]: the size of the file, and its bytes. *)
Definition read_inventory (len : result str Z) (content : result str bytes) : result str MaintenanceInventory :=
  let? n := len in
  bail? negb (n <=? 16 * 1024 * 1024) with lit "Inventory exceeds 16 MiB limit" ;;
  let? b := content in
  match doc_read b with
  | None => Err (lit "Invalid maintenance inventory JSON")
  | Some inventory => let? _ := validate inventory in Ok inventory
  end.

(** ** main.rs: one vault in a round of the daemon *)

Definition quoted (s : string) : str := [34] ++ lit s ++ [34].
Definition no_inventory_json : str :=
  lit "{" ++ quoted "verification" ++ lit ":" ++ quoted "unverified" ++ lit "," ++ quoted "reason" ++ lit ":"
  ++ quoted "trusted recovery inventory required" ++ lit "}".

Record RoundCall : Type := { rc_now : Z; rc_due : DbCall; rc_inventory : DbCall; rc_job : JobCall; rc_unverified : DbCall; rc_result : DbCall }.
Definition unverified (c : RoundCall) (interval_secs : Z) (locator_hex details error : str) : DTx unit :=
  record_unverified (rc_unverified c) locator_hex details ;;;
  record_job_result (rc_result c) locator_hex interval_secs (Some error).
(** [unverified_json] is [json!] of the error of a job. *)
Definition job_round (unverified_json : str -> str) (c : RoundCall) (interval_secs : Z) (locator_hex : str) (inventory : MaintenanceInventory) : DTx unit := fun d =>
  let '(outcome, s) := run_inventory_job (rc_job c) {| j_db := d; j_inventory := inventory; j_sent := [] |} in
  match outcome with
  | Ok report => record_job_result (rc_result c) locator_hex interval_secs
                   (if healthy report then None else Some (lit "Recovery closure or discovery deficit remains")) (j_db s)
  | Err error => unverified c interval_secs locator_hex (unverified_json error) error (j_db s)
  end.
Definition vault_round (unverified_json : str -> str) (c : RoundCall) (interval_secs : Z) (locator_hex : str) : DTx unit :=
  do due <- job_due (rc_due c) locator_hex (Z.max (rc_now c) 0) ;;
  if negb due then tret (Ok tt)
  else
    do stored <- get_inventory (rc_inventory c) locator_hex ;;
    match stored with
    | None => unverified c interval_secs locator_hex no_inventory_json (lit "Trusted recovery inventory required")
    | Some inventory => job_round unverified_json c interval_secs locator_hex inventory
    end.

(** ** Theorems *)

(** *** Clients of an engine *)

Lemma dedup_by_subset {A} (same : A -> A -> bool) l x : x ∈ dedup_by same l -> x ∈ l.
Proof.
  induction l as [|y l IH]; [done|]. cbn. destruct (dedup_by same l) as [|z zs]; [set_solver|]. destruct (same y z); set_solver.
Qed.
Lemma dedup_by_length {A} (same : A -> A -> bool) l : (length (dedup_by same l) <= length l)%nat.
Proof. induction l as [|y l IH]; [done|]. cbn. destruct (dedup_by same l) as [|z zs]; [cbn; lia|]. destruct (same y z); cbn in *; lia. Qed.

Section Dedup.
Context {A : Type} (f : A -> str).
Let le (a b : A) : Prop := lex_le (f a) (f b) = true.
Lemma dedup_by_sorted l : StronglySorted le l ->
  StronglySorted le (dedup_by (fun a b => bool_decide (f a = f b)) l) /\ NoDup (f <$> dedup_by (fun a b => bool_decide (f a = f b)) l).
Proof.
  induction 1 as [|x l Hl [IHs IHn] Hx]; [split; constructor|]. cbn. pose proof (dedup_by_subset (fun a b => bool_decide (f a = f b)) l) as Hsub.
  destruct (dedup_by _ l) as [|y ys]; [by split; repeat constructor; set_solver|]. rewrite fmap_cons in IHn. apply NoDup_cons in IHn as [Hy IHn].
  inversion_clear IHs as [|? ? Hys Hley]. rewrite Forall_forall in Hx, Hley. case_bool_decide as E.
  - split; [constructor; [done|]; apply Forall_forall; intros z Hz; apply Hx, Hsub; set_solver|]. rewrite fmap_cons, E. by constructor.
  - assert (le x y) as Hxy by (apply Hx, Hsub; set_solver). split.
    + constructor; [by constructor; [|apply Forall_forall]|]. apply Forall_forall. intros z Hz. apply Hx, Hsub; set_solver.
    + rewrite !fmap_cons. constructor; [|by constructor]. intros [Ey|(z & Ez & Hz)%list_elem_of_fmap]%elem_of_cons; [done|].
      apply E. specialize (Hley z Hz). unfold le in *. rewrite <-Ez in Hley. by apply lex_le_anti.
Qed.
End Dedup.

Lemma sort_lex_sorted {A} (f : A -> str) l : StronglySorted (fun a b => lex_le (f a) (f b) = true) (sort (fun a b => lex_le (f a) (f b)) l).
Proof. apply sort_strongly_sorted; [intros x y; apply lex_le_total|intros x y z; apply lex_le_trans]. Qed.
Lemma engine_nodup cs : NoDup (endpoint <$> engine_clients cs).
Proof. apply (dedup_by_sorted endpoint). apply (sort_lex_sorted endpoint). Qed.
Lemma engine_subset cs c : c ∈ engine_clients cs -> c ∈ cs.
Proof. intros H%dedup_by_subset. by rewrite sort_perm in H. Qed.
Lemma unique_subset (l : list str) x : x ∈ unique (sort lex_le l) -> x ∈ l.
Proof. intros H%dedup_by_subset. by rewrite sort_perm in H. Qed.
Lemma unique_length (l : list str) : (length (unique (sort lex_le l)) <= length l)%nat.
Proof. etransitivity; [apply dedup_by_length|]. by rewrite (sort_perm lex_le l). Qed.

(** *** What an audit counts *)

Definition tally (e : str) (l : list str) : Z := blen (List.filter (fun x => bool_decide (x = e)) l).
Lemma tally_cons e x l : tally e (x :: l) = (if bool_decide (x = e) then 1 else 0) + tally e l.
Proof. unfold tally. cbn. case_bool_decide; unfold blen; cbn [length]; lia. Qed.
Lemma bump_counts l e : forall m n, m !! e = Some n -> foldl (fun (m : gmap str Z) x => <[x := default 0 (m !! x) + 1]> m) m l !! e = Some (n + tally e l).
Proof.
  induction l as [|x l IH]; intros m n Hm; [cbn; by rewrite Z.add_0_r|]. cbn [foldl]. rewrite tally_cons. case_bool_decide as E.
  - subst x. rewrite (IH _ (n + 1)); [f_equal; lia|]. by rewrite lookup_insert_eq, Hm.
  - rewrite (IH _ n); [f_equal; lia|]. by rewrite lookup_insert_ne.
Qed.
Lemma count_status_counts n report st : operator_counts (count_status n report st)
  = foldl (fun (m : gmap str Z) x => <[x := default 0 (m !! x) + 1]> m) (operator_counts report) (present_on st)
  /\ total_objects (count_status n report st) = total_objects report.
Proof. unfold count_status. by repeat case_match. Qed.
Lemma count_all n e : forall sts report m, operator_counts report !! e = Some m ->
  operator_counts (foldl (count_status n) report sts) !! e = Some (m + foldr (fun st acc => tally e (present_on st) + acc) 0 sts) /\
  total_objects (foldl (count_status n) report sts) = total_objects report.
Proof.
  induction sts as [|st sts IH]; intros report m Hm; cbn [foldl foldr]; [by rewrite Z.add_0_r|].
  destruct (count_status_counts n report st) as [Ec Et]. destruct (IH (count_status n report st) (m + tally e (present_on st))) as [E1 E2].
  - rewrite Ec. by apply bump_counts.
  - rewrite E1, E2, Et. split; [f_equal; lia|done].
Qed.
Lemma start_counts (cs : list OperatorClient) (c : OperatorClient) (m : gmap str Z) : c ∈ cs \/ m !! endpoint c = Some 0 -> foldl (fun m c => <[endpoint c := 0]> m) m cs !! endpoint c = Some 0.
Proof.
  revert m. induction cs as [|x cs IH]; intros m [H|H]; [set_solver|done|..]; cbn [foldl]; apply IH.
  - apply elem_of_cons in H as [->|H]; [right; apply lookup_insert_eq|by left].
  - right. destruct (decide (endpoint x = endpoint c)) as [->|Hne]; [apply lookup_insert_eq|by rewrite lookup_insert_ne].
Qed.
(** An operator appears once in the list of those that hold an object. *)
Lemma tally_holder (p : OperatorClient -> bool) (cs : list OperatorClient) (c : OperatorClient) : NoDup (endpoint <$> cs) -> c ∈ cs ->
  tally (endpoint c) (endpoint <$> List.filter p cs) = if p c then 1 else 0.
Proof.
  assert (forall l : list OperatorClient, endpoint c ∉ endpoint <$> l -> tally (endpoint c) (endpoint <$> List.filter p l) = 0) as H0.
  { induction l as [|x l IH]; intros Hn; [done|]. rewrite fmap_cons in Hn. cbn [List.filter]. destruct (p x); [|apply IH; set_solver].
    rewrite fmap_cons, tally_cons. rewrite bool_decide_eq_false_2 by set_solver. rewrite IH by set_solver. done. }
  induction cs as [|x l IH]; intros Hnd Hc; [set_solver|]. rewrite fmap_cons in Hnd. apply NoDup_cons in Hnd as [Hx Hnd]. cbn [List.filter].
  apply elem_of_cons in Hc as [<-|Hc].
  - destruct (p c); [rewrite fmap_cons, tally_cons, bool_decide_eq_true_2 by done; rewrite H0 by done; done|by apply H0].
  - assert (endpoint x <> endpoint c) as Hep by (intros E; apply Hx; rewrite E; by apply list_elem_of_fmap_2).
    destruct (p x); [rewrite fmap_cons, tally_cons, bool_decide_eq_false_2 by done; by rewrite IH|by apply IH].
Qed.

Context {HL : HexLaws HX}.

(** *** A healthy report *)

(** The objects an operator is counted for are all of them exactly when it answered for each. *)
Lemma tally_all (p : OperatorClient -> nat * bytes -> bool) e (c : OperatorClient) (cs : list OperatorClient) (mk : nat * bytes -> ObjectReplicaStatus) l : e = endpoint c ->
  (forall x, present_on (mk x) = endpoint <$> List.filter (fun c => p c x) cs) -> NoDup (endpoint <$> cs) -> c ∈ cs ->
  foldr (fun st acc => tally e (present_on st) + acc) 0 (mk <$> l) <= blen l /\
  (foldr (fun st acc => tally e (present_on st) + acc) 0 (mk <$> l) = blen l -> Forall (fun x => p c x = true) l).
Proof.
  intros -> Hmk Hnd Hc. induction l as [|x l [IH1 IH2]]; [done|]. rewrite fmap_cons. cbn [foldr]. rewrite Hmk.
  rewrite (tally_holder (fun c => p c x) cs c Hnd Hc). unfold blen in *. cbn [length]. destruct (p c x) eqn:E; split; try lia.
  intros H. constructor; [done|]. apply IH2. lia.
Qed.

Lemma complete_probes r phase closure sessions local (cs : list OperatorClient) report c : audit_closure_with_cache r phase closure sessions local cs = Ok report ->
  NoDup (endpoint <$> cs) -> c ∈ cs -> operator_counts report !! endpoint c = Some (total_objects report) ->
  forall i id, all_cids closure !! i = Some id -> probe r phase sessions (local !! id) (i, id) c = true.
Proof.
  unfold audit_closure_with_cache. intros H Hnd Hc Ho. res_inv.
  set (sts := status_of r phase sessions local cs <$> _) in *.
  match type of Ho with operator_counts (foldl _ ?r0 _) !! _ = _ => set (r0_ := r0) in * end.
  destruct (count_all (blen cs) (endpoint c) sts r0_ 0) as [Ec Et]; [apply start_counts; by left|]. rewrite Ec, Et in Ho. injection Ho as Ho.
  intros i id Hi. assert (enumerate (all_cids closure) !! i = Some (i, id)) as He by (unfold enumerate; by rewrite list_lookup_imap, Hi).
  refine (Forall_lookup_1 (fun x => probe r phase sessions (local !! x.2) x c = true) _ i (i, id) _ He).
  eapply (tally_all (fun c x => probe r phase sessions (local !! x.2) x c) (endpoint c) c cs (status_of r phase sessions local cs)); [done| |exact Hnd|exact Hc|].
  - intros x. reflexivity.
  - fold sts. rewrite Z.add_0_l in Ho. rewrite Ho. unfold r0_. cbn [total_objects]. unfold blen, enumerate. by rewrite length_imap.
Qed.

(** An operator that recovers the vault: its verified key, the objects it served and the records of its log. *)
Record recovers (r : Run) (phase : string) (set : Closure.RecoverySet) (head : bytes) (sessions : gmap str str) (c : OperatorClient) (key : bytes) : Prop := {
  rc_key : operator_pk r ((phase +:+ "-key")%string, []) c = Some key;
  rc_objects : exists token, sessions !! endpoint c = Some token /\ forall i id, all_cids (Closure.closure set) !! i = Some id ->
    exists b, get_object (phase, [i]) token id c = Ok b /\ sha256 b = id;
  rc_log : exists l, get_recovery_records (transport c) (phase, []) (Closure.locator set) = Ok l /\ head ∈ l /\
    Forall (fun record => record ∈ l) (Closure.records set);
}.

(** What the loop over the operators collects. *)
Lemma judge_all r phase set head report (cs : list OperatorClient) : forall (l : list OperatorClient) m0 r0 k0 missing recoverable keys,
  (forall c, c ∈ l -> c ∈ cs) -> foldl (judge_operator r phase set head report) (m0, r0, k0) l = (missing, recoverable, keys) ->
  exists held : list (OperatorClient * bytes), recoverable = r0 ++ (endpoint ∘ fst <$> held) /\ NoDup (snd <$> held) /\
    Forall (fun h => h.2 ∉ k0) held /\
    Forall (fun '(c, key) => c ∈ cs /\ discovery_ok phase set head c = true /\ operator_counts report !! endpoint c = Some (total_objects report) /\
      operator_pk r ((phase +:+ "-key")%string, []) c = Some key) held.
Proof.
  induction l as [|c l IH]; intros m0 r0 k0 missing recoverable keys Hsub H; cbn [foldl] in H.
  { injection H as <- <- <-. exists []. rewrite app_nil_r. by repeat constructor. }
  assert (forall c, c ∈ l -> c ∈ cs) as Hsub' by (intros; apply Hsub; set_solver). unfold judge_operator in H at 2.
  destruct (discovery_ok phase set head c) eqn:Ed; [|by eapply IH]. case_bool_decide as Ec; [|by eapply IH].
  destruct (operator_pk _ _ _) as [key|] eqn:Ek; [|by eapply IH]. case_bool_decide as Ein; [by eapply IH|].
  apply IH in H as (held & -> & Hnd & Hk & Hh); [|done]. exists ((c, key) :: held). rewrite !fmap_cons, <-app_assoc. split_and!; [done| | |].
  - constructor; [|done]. intros (h & E & Hin)%list_elem_of_fmap. rewrite Forall_forall in Hk. specialize (Hk h Hin). cbn in E. set_solver.
  - constructor; [done|]. eapply Forall_impl; [exact Hk|]. set_solver.
  - constructor; [|done]. split_and!; [apply Hsub; set_solver|done..].
Qed.

Lemma discovery_log phase set head c : discovery_ok phase set head c = true ->
  exists l, get_recovery_records (transport c) (phase, []) (Closure.locator set) = Ok l /\ head ∈ l /\ Forall (fun record => record ∈ l) (Closure.records set).
Proof.
  unfold discovery_ok. destruct (get_recovery_records _ _ _) as [l|]; [|done]. intros [H1 H2]%andb_true_iff. exists l.
  apply bool_decide_eq_true_1 in H1. split_and!; [done..|]. apply Forall_forall. intros x Hx. rewrite forallb_forall in H2.
  specialize (H2 x (proj1 (list_elem_of_In _ _) Hx)). cbn beta in H2. by apply bool_decide_eq_true_1 in H2.
Qed.

Lemma served_all r phase closure sessions c : (exists id, id ∈ all_cids closure) ->
  (forall i id, all_cids closure !! i = Some id -> probe r phase sessions None (i, id) c = true) ->
  exists token, sessions !! endpoint c = Some token /\ forall i id, all_cids closure !! i = Some id ->
    exists b, get_object (phase, [i]) token id c = Ok b /\ sha256 b = id.
Proof.
  intros (id0 & (i0 & H0)%list_elem_of_lookup) H. unfold probe in H. destruct (sessions !! endpoint c) as [token|] eqn:Et; [|by specialize (H _ _ H0)].
  exists token. split; [done|]. intros i id Hi. specialize (H i id Hi). cbn in H. unfold served in H.
  destruct (get_object _ _ _ _) as [b|] eqn:E; [|done]. exists b. split; [done|]. by apply bool_decide_eq_true_1 in H.
Qed.

(** The operators that an audit without a cache reports as recoverable. *)
Lemma recoverable_holders r phase set head sessions (cs : list OperatorClient) report : NoDup (endpoint <$> cs) ->
  audit_recovery_set_with_cache r phase set head sessions ∅ cs = Ok report ->
  exists held : list (OperatorClient * bytes), recoverable_operators report = unique (sort lex_le (endpoint ∘ fst <$> held)) /\
    NoDup (snd <$> held) /\ Forall (fun '(c, key) => c ∈ cs /\ recovers r phase set head sessions c key) held.
Proof.
  intros Hnd. unfold audit_recovery_set_with_cache. intros H. apply res_bind_ok in H as (objects & Ho & H).
  destruct (foldl _ _ _) as [[missing recoverable] keys] eqn:E. injection H as <-. cbn [recoverable_operators].
  apply (judge_all _ _ _ _ _ cs) in E as (held & -> & Hn & _ & Hh); [|done]. exists held. split_and!; [done..|].
  eapply Forall_impl; [exact Hh|]. intros [c key] (Hc & Hd & Hcount & Hk). split; [done|]. pose proof (complete_probes _ _ _ _ _ _ _ _ Ho Hnd Hc Hcount) as Hp.
  split; [done| |by apply discovery_log]. eapply served_all; [|intros i id Hi; specialize (Hp i id Hi); by rewrite lookup_empty in Hp].
  unfold audit_closure_with_cache in Ho. res_inv. bool_prop. destruct (all_cids (Closure.closure set)) as [|x xs]; [done|]. exists x. set_solver.
Qed.

(** *** Jobs *)

(** The report of a job is that of its last audit, judged by the inventory. *)
Lemma job_report c s report s' : run_inventory_job c s = (Ok report, s') ->
  validate (j_inventory s) = Ok tt /\ exists phase sessions audit,
    audit_recovery_set_with_cache (jc_run c) phase (i_set (j_inventory s)) (i_head (j_inventory s)) sessions ∅
      (engine (jc_dial c) (j_inventory s)) = Ok audit /\ report = judged (j_inventory s) audit.
Proof.
  unfold run_inventory_job. intros H. apply tbind_ok in H as (inv & s1 & [= <- <-] & H). apply tbind_ok in H as ([] & s2 & [Hv ->]%tret_ok & H).
  apply tbind_ok in H as (audit & s3 & [Ha ->]%tret_ok & H). apply tbind_ok in H as (audit' & s4 & Hr & H). apply tbind_ok in H as (details & s5 & [_ _]%tret_ok & H).
  apply tbind_ok in H as (u & s6 & _ & H). apply tret_ok in H as [[= <-] _]. split; [done|].
  destruct (jc_key c) as [key|]; [|apply tret_ok in Hr as [[= <-] _]; by eauto].
  apply tbind_ok in Hr as (audit2 & s7 & H2 & H3). apply tbind_ok in H3 as (u2 & s8 & _ & H3). apply tret_ok in H3 as [[= <-] _]. unfold repair_step in H2. destruct (_ && _).
  - apply tbind_ok in H2 as (u3 & s9 & _ & H2). apply tbind_ok in H2 as (u4 & s10 & _ & H2). apply tret_ok in H2 as [H2 _]. by eauto.
  - apply tret_ok in H2 as [[= <-] _]. by eauto.
Qed.

(** A client of the engine dials one entry of the inventory, with its key pinned. *)
Lemma engine_client dial inventory client : client ∈ engine dial inventory -> exists e key, (e, key) ∈ operator_keys inventory /\
  endpoint client = Peer.trim_end_matches 47 e /\ transport client = dial (Peer.trim_end_matches 47 e) /\ pinned_key client = Some key.
Proof.
  intros H%engine_subset. apply list_elem_of_fmap in H as ([e key] & -> & Hin). exists e, key. unfold inventory_client. split; [done|].
  by destruct (account_id inventory), (device_id_hex inventory).
Qed.
Lemma key_count inventory l : (size (distinct_keys inventory l) <= length l)%nat.
Proof.
  unfold distinct_keys. induction l as [|x l IH]; [done|]. cbn. destruct (key_at inventory x) as [key|]; [|lia]. cbn.
  pose proof (size_union_bound {[ key ]} (list_to_set (omap (key_at inventory) l) : gset bytes)) as H. rewrite size_singleton in H. lia.
Qed.

(** The head that an inventory is about. *)
Lemma validate_head inventory : validate inventory = Ok tt -> 0 < required_replicas inventory /\ exists head via,
  select_head (Closure.records (i_set inventory) ++ [i_head inventory]) (i_vault_id inventory) (recovery_signing_pk inventory) = Some (Ok (head, via)) /\
  from_canonical_cbor (i_head inventory) = Ok head /\ Closure.compute_base_closure_digest (Closure.closure (i_set inventory)) = Ok (Head.closure_digest head).
Proof.
  unfold validate. intros H. apply bail_ok in H as [Hr H]. split; [lia|]. do 2 apply bail_ok in H as [_ H].
  destruct (select_head _ _ _) as [[[head via]|]|] eqn:Es; [|done..]. exists head, via. split; [done|].
  destruct (from_canonical_cbor _) as [supplied|] eqn:Ef; [|done]. cbn [map_err res_bind] in H. apply bail_ok in H as [Hs H].
  destruct (Closure.compute_base_closure_digest _) as [digest|] eqn:Ed; [|done]. cbn [map_err res_bind] in H. apply bail_ok in H as [Hd _].
  bool_prop. by subst.
Qed.

(** Keys are arrays of 32 bytes. *)
Definition typed_keys (inventory : MaintenanceInventory) : Prop :=
  Forall (fun entry => length entry.2 = 32%nat /\ is_bytes entry.2) (operator_keys inventory).

(** Whatever the operators answer, a job that reports a healthy vault has found as many operators as the inventory
    requires, with different keys that the inventory pins, each of which served every object of the closure
    that the authenticated maximal head signs, and returned the head and all recovery records. *)
Theorem healthy_report c s report s' : typed_keys (j_inventory s) -> run_inventory_job c s = (Ok report, s') -> healthy report = true ->
  (exists head via, select_head (Closure.records (i_set (j_inventory s)) ++ [i_head (j_inventory s)]) (i_vault_id (j_inventory s))
      (recovery_signing_pk (j_inventory s)) = Some (Ok (head, via)) /\ from_canonical_cbor (i_head (j_inventory s)) = Ok head /\
    Closure.compute_base_closure_digest (Closure.closure (i_set (j_inventory s))) = Ok (Head.closure_digest head)) /\
  exists phase sessions (held : list (OperatorClient * bytes)),
    required_replicas (j_inventory s) <= blen held /\ NoDup (snd <$> held) /\
    Forall (fun '(client, key) => (exists e, (e, key) ∈ operator_keys (j_inventory s) /\ endpoint client = Peer.trim_end_matches 47 e /\
        transport client = jc_dial c (Peer.trim_end_matches 47 e)) /\
      recovers (jc_run c) phase (i_set (j_inventory s)) (i_head (j_inventory s)) sessions client key) held.
Proof.
  intros Ht [Hv (phase & sessions & audit & Ha & ->)]%job_report Hh. split; [by apply validate_head|]. exists phase, sessions.
  apply recoverable_holders in Ha as (held & Er & Hnd & Hf); [|apply engine_nodup]. exists held. split_and!; [|done|].
  - cbn [judged healthy] in Hh. pose proof (key_count (j_inventory s) (recoverable_operators audit)) as H1. rewrite Er in H1 at 2.
    pose proof (unique_length (endpoint ∘ fst <$> held)) as H2. rewrite length_fmap in H2. unfold blen. lia.
  - eapply Forall_impl; [exact Hf|]. intros [client key] [(e & pin & Hin & He & Htr & Hp)%engine_client Hr]. split; [|done].
    exists e. assert (key = pin) as ->; [|done]. unfold typed_keys in Ht. rewrite Forall_forall in Ht. destruct (Ht _ Hin) as [Hl Hb]. pose proof (rc_key _ _ _ _ _ _ _ Hr) as Hk.
    unfold operator_pk in Hk. destruct (get_info _ _ _ _) as [info|] eqn:Ei; [|done]. by eapply pinned_info.
Qed.

(** *** Endpoints spelled with a slash *)

Lemma key_at_slash inventory e : Forall (fun entry => Peer.trim_end_matches 47 entry.1 <> entry.1) (operator_keys inventory) ->
  key_at inventory (Peer.trim_end_matches 47 e) = None.
Proof.
  unfold key_at. intros H. destruct (List.find _ _) as [entry|] eqn:E; [|done]. apply find_some in E as [Hin He]. apply list_elem_of_In in Hin.
  apply bool_decide_eq_true_1 in He. rewrite Forall_forall in H. exfalso. apply (H _ Hin). by rewrite He, trim_slash_idem.
Qed.
Lemma distinct_none inventory l : Forall (fun e => key_at inventory e = None) l -> distinct_keys inventory l = ∅.
Proof. unfold distinct_keys. intros H. replace (omap (key_at inventory) l) with (@nil bytes); [done|]. induction H as [|x l E _ IH]; [done|]. cbn. by rewrite E. Qed.

(** A vault whose inventory spells every endpoint with a final slash is never reported healthy, whatever the operators hold: the
    clients drop the slash, and the report looks their endpoints up among the names as they are spelled. *)
Theorem slash_never_healthy c s report s' : Forall (fun entry => Peer.trim_end_matches 47 entry.1 <> entry.1) (operator_keys (j_inventory s)) ->
  run_inventory_job c s = (Ok report, s') -> healthy report = false.
Proof.
  intros Hs [Hv (phase & sessions & audit & Ha & ->)]%job_report. apply validate_head in Hv as [Hr _].
  apply recoverable_holders in Ha as (held & Er & _ & Hf); [|apply engine_nodup]. cbn [judged healthy].
  rewrite distinct_none; [rewrite size_empty, Z.geb_leb; change (Z.of_nat 0) with 0; by rewrite (proj2 (Z.leb_gt _ _) Hr)|]. rewrite Er. apply Forall_forall. intros e He%unique_subset.
  apply list_elem_of_fmap in He as ([client key] & -> & Hin). rewrite Forall_forall in Hf. destruct (Hf _ Hin) as [(e & pin & _ & He & _)%engine_client _].
  change ((endpoint ∘ fst) (client, key)) with (endpoint client). rewrite He. by apply key_at_slash.
Qed.

(** *** Leases *)

(** A promise that replaces another: the same but for its term, and no shorter. *)
Definition kept (old new : LeaseReceipt) : Prop :=
  Lease.lease_id new = Lease.lease_id old /\ Lease.operator_id new = Lease.operator_id old /\
  Lease.closure_digest_hex new = Lease.closure_digest_hex old /\ Lease.bytes_ new = Lease.bytes_ old /\
  Lease.issued_at_utc new = Lease.issued_at_utc old /\ Lease.expires_at_utc old <= Lease.expires_at_utc new.
Definition names (l : LeaseReceipt) : str * str := (Lease.lease_id l, Lease.operator_id l).

Lemma replace_kept old cur previous renewed : Forall2 kept old cur -> NoDup (names <$> old) -> previous ∈ old -> kept previous renewed ->
  Forall2 kept old (replace_lease renewed cur).
Proof.
  intros Hf Hnd Hp Hk. assert (names renewed = names previous) as En by (destruct Hk as (E1 & E2 & _); unfold names; congruence).
  induction Hf as [|o x old cur Hox Hf IH]; [done|]. rewrite fmap_cons in Hnd. apply NoDup_cons in Hnd as [Hn Hnd].
  assert (names x = names o) as Ex by (destruct Hox as (E1 & E2 & _); unfold names; congruence). cbn [replace_lease].
  destruct (same_lease x renewed) eqn:Es.
  - constructor; [|done]. assert (names x = names renewed) as Er by (unfold same_lease in Es; bool_prop; unfold names; congruence).
    apply elem_of_cons in Hp as [<-|Hp]; [done|]. exfalso. apply Hn. rewrite <-Ex, Er, En. by apply list_elem_of_fmap_2.
  - constructor; [done|]. apply elem_of_cons in Hp as [->|Hp]; [|by apply IH]. exfalso. assert (names x = names renewed) as [= E1 E2] by congruence.
    unfold same_lease in Es. rewrite !bool_decide_eq_true_2 in Es by congruence. done.
Qed.

Lemma renewed_kept r phase due sessions answered renewed : Forall (fun l => 0 <= Lease.expires_at_utc l <= u64_max) due ->
  renewed ∈ renew_leases r phase due sessions 30 answered -> exists previous, previous ∈ due /\ kept previous renewed.
Proof.
  intros Ht ([i previous] & Hin & H)%list_elem_of_omap. assert (previous ∈ due) as Hp.
  { unfold enumerate in Hin. apply elem_of_lookup_imap in Hin as (j & y & [= -> ->] & Hy). by eapply list_elem_of_lookup_2. }
  exists previous. split; [done|]. unfold renew_one in H. destruct (_ !! _) as [[[client token] pk]|]; [|done]. cbn in H.
  destruct (is_ok _); [|done]. destruct (ask_renewal _ _ _ _ _ _) as [l|]; [|done]. destruct (extends _ _ _ _) eqn:Ee; [|done]. injection H as ->.
  unfold extends in Ee. rewrite Forall_forall in Ht. specialize (Ht _ Hp). unfold sat_add64 in Ee. bool_prop. unfold kept. split_and!; try done; lia.
Qed.

Lemma hoare_on_db {A} (m : DTx A) s (I : JobState -> Prop) : (forall d, I {| j_db := d; j_inventory := j_inventory s; j_sent := j_sent s |}) ->
  hoare I (on_db m) s (fun _ => I).
Proof. intros H. unfold hoare, on_db. destruct (m (j_db s)) as [[a|e] d]; apply H. Qed.
Lemma kept_refl l : kept l l.
Proof. by repeat split. Qed.

(** The inventory of a job, with some promises replaced. *)
Definition renewed_from (inventory : MaintenanceInventory) (s : JobState) : Prop :=
  exists ls, j_inventory s = with_leases ls inventory /\ Forall2 kept (leases inventory) ls.
Lemma renewed_same inventory s : j_inventory s = inventory -> renewed_from inventory s.
Proof. intros Hs. unfold renewed_from. rewrite Hs. exists (leases inventory). split; [by destruct inventory|]. apply Forall_Forall2_diag, Forall_forall. intros; apply kept_refl. Qed.

Lemma replace_all_kept old renewed : forall cur, NoDup (names <$> old) -> Forall2 kept old cur ->
  Forall (fun l => exists previous, previous ∈ old /\ kept previous l) renewed -> Forall2 kept old (foldl (fun ls l => replace_lease l ls) cur renewed).
Proof.
  induction renewed as [|l renewed IH]; intros cur Hnd Hf Hr; [done|]. apply Forall_cons in Hr as [(previous & Hp & Hk) Hr].
  cbn [foldl]. apply IH; [done| |done]. by eapply replace_kept.
Qed.

Section Renewal.
Variable inventory : MaintenanceInventory.
Hypothesis distinct_leases : NoDup (names <$> leases inventory).
Hypothesis u64_leases : Forall (fun l => 0 <= Lease.expires_at_utc l <= u64_max) (leases inventory).

Lemma renew_step_kept c cs write_sessions s : j_inventory s = inventory -> hoare (renewed_from inventory) (renew_step c cs write_sessions) s (fun _ => renewed_from inventory).
Proof.
  intros Hs. unfold renew_step. apply hoare_get_bind. rewrite Hs. case_bool_decide; [by apply hoare_done, renewed_same|]. apply hoare_modify_bind.
  set (ls := foldl _ _ _). assert (Forall2 kept (leases inventory) ls) as Hls.
  { apply replace_all_kept; [done|apply Forall_Forall2_diag, Forall_forall; intros; apply kept_refl|]. apply Forall_forall. intros l Hl.
    apply renewed_kept in Hl as (previous & Hin & Hk).
    - exists previous. split; [|done]. unfold due_leases in Hin. apply list_elem_of_In, filter_In in Hin as [Hin _]. by apply list_elem_of_In.
    - apply Forall_forall. intros x Hx. unfold due_leases in Hx. apply list_elem_of_In, filter_In in Hx as [Hx _]. rewrite Forall_forall in u64_leases.
      by apply u64_leases, list_elem_of_In. }
  apply hoare_on_db. intros d. by exists ls.
Qed.
Lemma repair_step_same c key cs sessions write_sessions report s : j_inventory s = inventory ->
  hoare (fun s' => j_inventory s' = inventory) (repair_step c key inventory cs sessions write_sessions report) s (fun _ s' => j_inventory s' = inventory).
Proof.
  intros Hs. unfold repair_step. destruct (_ && _); [|by apply hoare_done]. apply (hoare_bind _ _ _ _ (fun _ s' => j_inventory s' = inventory)); [by apply hoare_on_db|]. intros _ s1 H1.
  apply (hoare_bind _ _ _ _ (fun _ s' => j_inventory s' = inventory)); [by apply hoare_modify|]. intros _ s2 H2. by apply hoare_ret.
Qed.
End Renewal.

(** Whatever the operators and the database do, and also when the job fails, it changes nothing of its inventory but the
    leases, and puts in the place of a lease only the same promise with an expiry that is not earlier. *)
Theorem leases_never_shorten c s : NoDup (names <$> leases (j_inventory s)) ->
  Forall (fun l => 0 <= Lease.expires_at_utc l <= u64_max) (leases (j_inventory s)) ->
  renewed_from (j_inventory s) (run_inventory_job c s).2.
Proof.
  intros Hnd Hu. apply hoare_state. unfold run_inventory_job. apply hoare_get_bind.
  assert (renewed_from (j_inventory s) s) as H0 by by apply renewed_same.
  eapply hoare_bind; [apply (hoare_ret _ _ _ (fun _ s' => s' = s)); done|]. intros _ ? ->.
  eapply hoare_bind; [apply (hoare_ret _ _ _ (fun _ s' => s' = s)); done|]. intros audit ? ->.
  eapply hoare_bind with (P := fun _ => renewed_from (j_inventory s)).
  { destruct (jc_key c) as [key|]; [|by apply hoare_done]. eapply hoare_bind.
    - eapply hoare_conseq; [by apply (repair_step_same (j_inventory s))|intros s'; apply renewed_same|intros a s' H; exact H].
    - intros audit' s1 H1. apply (hoare_bind _ _ _ _ (fun _ => renewed_from (j_inventory s))); [by apply renew_step_kept|]. intros _ s2 H2. by apply hoare_done. }
  intros audit' s2 H2. eapply hoare_bind; [apply (hoare_ret _ _ _ (fun _ s' => s' = s2)); done|]. intros details ? ->.
  apply (hoare_bind _ _ _ _ (fun _ => renewed_from (j_inventory s))); [apply hoare_on_db; intros d; exact H2|]. intros _ s3 H3. by apply hoare_done.
Qed.

(** *** Repair *)

(** A placement that repair reports: an operator that lacked the object and from which it was read back. *)
Definition read_back (cs : list OperatorClient) (sessions : gmap str str) (item : ObjectReplicaStatus) (u : Placement.PlacementUpdate) : Prop :=
  Placement.object_cid u = cid item /\ Placement.target_operator u ∈ missing_on item /\
  exists c token at_ b, c ∈ cs /\ endpoint c = Placement.target_operator u /\ sessions !! endpoint c = Some token /\
    get_object at_ token (cid item) c = Ok b /\ sha256 b = cid item.

Lemma repair_target_sound r from cs sessions signing_key digest item source b acc i target : target ∈ missing_on item ->
  Forall (read_back cs sessions item) acc.2 ->
  let out := repair_target r from cs sessions signing_key digest (cid item) source b acc (i, target) in
  Forall (read_back cs sessions item) out.2 /\
  (out.1 = true -> acc.1 = true /\ exists u, out.2 = acc.2 ++ [u] /\ Placement.target_operator u = target).
Proof.
  intros Hm Ha. destruct acc as [flag updates]. unfold repair_target. destruct (sessions !! target) as [token|] eqn:Et; [|done].
  destruct (client_at cs target) as [c|] eqn:Ec; [|done]. destruct (is_ok _); [|done]. destruct (get_object _ _ _ _) as [back|] eqn:Eg; [|done].
  case_bool_decide as Eh; [|done]. cbn [fst snd] in *. split; [|by eauto]. apply Forall_app. split; [done|]. apply Forall_singleton.
  unfold client_at in Ec. apply find_some in Ec as [Hin He]. apply bool_decide_eq_true_1 in He. apply list_elem_of_In in Hin. subst target.
  split; [done|]. split; [done|]. by exists c, token, (within_moment from (S i)), back.
Qed.
(** Every placement was read back, and an object counts as repaired only if each operator that lacked it now has it. *)
Lemma repair_sound r at_ schedule cs sessions signing_key digest item :
  let out := repair_single_object r at_ schedule cs sessions signing_key digest item in
  Forall (read_back cs sessions item) out.2 /\ (out.1 = true -> Placement.target_operator <$> out.2 = missing_on item).
Proof.
  unfold repair_single_object. case_bool_decide as Hn; [done|]. destruct (surviving _ _) as [[source b]|]; [|done].
  assert (forall l acc, (forall x, x ∈ l -> x.2 ∈ missing_on item) -> Forall (read_back cs sessions item) acc.2 ->
    let out := foldl (repair_target r at_ cs sessions signing_key digest (cid item) source b) acc l in
    Forall (read_back cs sessions item) out.2 /\ (out.1 = true -> acc.1 = true /\ Placement.target_operator <$> out.2 = (Placement.target_operator <$> acc.2) ++ l.*2)) as H.
  { induction l as [|[i target] l IH]; intros acc Hl Ha; cbn [foldl fmap list_fmap snd]; [by rewrite app_nil_r|].
    destruct (repair_target_sound r at_ cs sessions signing_key digest item source b acc i target) as [H1 H2]; [by apply (Hl (i, target)); left|done|].
    destruct (IH (repair_target r at_ cs sessions signing_key digest (cid item) source b acc (i, target))) as [H3 H4]; [intros x Hx; apply Hl; by right|done|].
    split; [done|]. intros [E1 E2]%H4. apply H2 in E1 as (E1 & u & Eu & Et). split; [done|]. rewrite E2, Eu, fmap_app, <-app_assoc. cbn. by rewrite Et. }
  assert ((enumerate (missing_on item)).*2 = missing_on item) as Es.
  { unfold enumerate. generalize (missing_on item). intros l. apply list_eq. intros j. rewrite list_lookup_fmap, list_lookup_imap. by destruct (l !! j). }
  destruct (H (enumerate (missing_on item)) (true, [])) as [H1 H2]; [intros x Hx; rewrite <-Es; by apply list_elem_of_fmap_2|constructor|].
  split; [done|]. intros E. apply H2 in E as [_ E]. by rewrite Es in E.
Qed.

(** *** The schedule *)

(** A failed job is tried again within the hour, however often it has failed. *)
Lemma retry_within_hour previous interval : 0 <= default 0 previous -> 1 <= job_delay interval (job_attempts previous true) true <= 3600.
Proof.
  intros Hp. unfold job_delay, job_attempts. set (n := Z.min (Z.min (Z.min (default 0 previous + 1) u32_max) 20) 10).
  assert (0 <= n) as Hn by (unfold n, u32_max; lia). rewrite Z.shiftl_1_l. assert (1 <= 2 ^ n) as H2 by (pose proof (Z.pow_pos_nonneg 2 n); lia).
  assert (1 <= Z.max interval 1 * 2 ^ n) as Hm by nia. unfold sat_mul64, u64_max. lia.
Qed.
(** The next attempt is due exactly when its delay has passed. *)
Lemma due_after_delay c locator interval error (d d' : MaintenanceDb) u now : record_job_result c locator interval error d = (Ok u, d') ->
  forall c' due d'', job_due c' locator now d' = (Ok due, d'') ->
  due = (wrap64 (Z.max (m_now c "job") 0 + job_delay interval (job_attempts (attempts <$> maintenance_jobs d !! locator) (bool_decide (is_Some error))) (bool_decide (is_Some error))) <=? now).
Proof.
  unfold record_job_result, job_due, select, statement. intros H c' due d'' H'.
  apply tbind_ok in H as (previous & d1 & (_ & -> & ->)%query_if_ok & H). apply execute_if_ok in H as [_ [= <-]].
  apply tbind_ok in H' as (row & d2 & (_ & -> & ->)%query_if_ok & H'). apply tret_ok in H' as [[= <-] _]. destruct d. cbn.
  by rewrite lookup_insert_eq.
Qed.
End Maintenance.

(** ** A sample vault *)

Definition m_closure : Closure.RecoveryClosure :=
  {| Closure.snapshot_id := replicate 32 1; Closure.snapshot_record_cid := sha256 [1; 2; 3]; Closure.manifest_cid := sha256 [9];
     Closure.envelope_ids := []; Closure.chunk_cids := []; Closure.total_bytes := 4 |}.
Definition m_head : Head.HeadRecord :=
  {| Head.version := 1; Head.vault_id := demo_vault; Head.snapshot_id := sha256 [1; 2; 3]; Head.parent_snapshot_ids := [];
     Head.closure_digest := match Closure.compute_base_closure_digest m_closure with Ok d => d | Err _ => [] end;
     Head.device_id := replicate 32 9; Head.device_counter := 1; Head.signature := [] |}.
Definition m_records : list bytes := match demo_records [m_head] with Ok l => l | Err _ => [] end.
Definition m_set : Closure.RecoverySet := {| Closure.closure := m_closure; Closure.locator := replicate 32 6; Closure.records := take 1 m_records |}.
Definition m_lease (days expires : Z) : LeaseReceipt :=
  let l := sample_lease (replicate 32 1) (lit "op-a") (replicate 32 2) 4 days in
  {| Lease.lease_id := Lease.lease_id l; Lease.operator_id := Lease.operator_id l; Lease.closure_digest_hex := Lease.closure_digest_hex l; Lease.term_days := days;
     Lease.bytes_ := 4; Lease.issued_at_utc := 1000; Lease.expires_at_utc := expires; Lease.signature_hex := Lease.signature_hex l |}.

(** An operator with the records of the vault and the objects of the sample closure, but for those it lacks. *)
Definition keeper (sk : bytes) (name : str) (lacks : bytes -> bool) : OperatorTransport :=
  let t := honest sk name in
  {| request_challenge := request_challenge t; redeem_session := redeem_session t; fetch_info := fetch_info t; send_object := send_object t;
     fetch_object_bytes at_ token id := if lacks id then Err InvalidReceiptSignature else fetch_object_bytes t at_ token id;
     challenge_object_pos := challenge_object_pos t; commit_lease := commit_lease t;
     ask_renewal _ _ _ days _ := Ok (m_lease (90 + days) (9000 + days * 86400));
     append_recovery_record := append_recovery_record t; get_recovery_records _ _ := Ok m_records; get_peers := get_peers t |}.
Definition m_dial (e : str) : OperatorTransport :=
  if bool_decide (e = lit "http://a") then keeper (replicate 32 1) (lit "op-a") (fun _ => false)
  else if bool_decide (e = lit "http://b") then keeper (replicate 32 2) (lit "op-b") (fun _ => false)
  else keeper (replicate 32 3) (lit "op-c") (fun id => bool_decide (id = sha256 [9])).
Definition m_inventory (slash : str) : MaintenanceInventory :=
  {| i_set := m_set; i_head := default [] (m_records !! 1%nat); i_vault_id := demo_vault; recovery_signing_pk := verifying_key (replicate 32 5);
     operator_keys := (fun '(e, n) => (e ++ slash, verifying_key (replicate 32 n))) <$> [(lit "http://c", 3); (lit "http://a", 1); (lit "http://b", 2)];
     required_replicas := 2; leases := [m_lease 90 9000]; account_id := None; device_id_hex := None |}.
Definition m_state (slash : str) : JobState := {| j_db := MkDb ∅ [] [] ∅ ∅ ∅; j_inventory := m_inventory slash; j_sent := [] |}.
Definition m_call : JobCall :=
  {| jc_run := sample_run; jc_db := {| m_fails _ := false; m_error := []; m_now _ := 1000 |}; jc_dial := m_dial; jc_key := Some (replicate 32 8);
     jc_elapsed := 1; jc_reads := id; jc_answered := id |}.
#[local] Instance m_inventory_doc : JsonDoc MaintenanceInventory := {| doc_write _ := Ok []; doc_read _ := None |}.
#[local] Instance m_report_doc : JsonDoc RecoveryAudit := {| doc_write _ := Ok []; doc_read _ := None |}.
Definition m_job (slash : str) : result str RecoveryAudit * JobState :=
  run_inventory_job sample_identity_json sample_lease_json (fmap to_ascii_lowercase) m_call (m_state slash).

Definition seen (x : result str RecoveryAudit) : option (bool * list str * Z) :=
  match x with Ok report => Some (healthy report, recoverable_operators report, lost_count (a_objects report)) | Err _ => None end.
Example job_runs : seen (m_job []).1 = Some (true, [lit "http://a"; lit "http://b"], 0) /\ seen (m_job (lit "/")).1 = Some (false, [lit "http://a"; lit "http://b"], 0) /\
  (Lease.expires_at_utc <$> leases (j_inventory (m_job []).2)) = [9000 + 30 * 86400] /\ length (repair_history (j_db (m_job []).2)) = 1%nat.
Proof. vm_compute. split_and!; reflexivity. Qed.

Lemma m_typed slash : typed_keys (m_inventory slash).
Proof. unfold typed_keys, m_inventory. cbn [operator_keys fmap list_fmap]. repeat (apply Forall_cons; split; [split; [vm_compute; reflexivity|apply verifying_key_bytes]|]). constructor. Qed.
Lemma m_healthy : match run_inventory_job sample_identity_json sample_lease_json (fmap to_ascii_lowercase) m_call (m_state []) with
                  | (Ok report, _) => healthy report | (Err _, _) => false end = true.
Proof. vm_compute. reflexivity. Qed.
Lemma healthy_report_witness : exists phase sessions (held : list (OperatorClient * bytes)), 2 <= blen held /\ NoDup (snd <$> held) /\
  Forall (fun '(client, key) => recovers sample_identity_json sample_run phase m_set (default [] (m_records !! 1%nat)) sessions client key) held.
Proof.
  pose proof m_healthy as H. destruct (run_inventory_job sample_identity_json sample_lease_json (fmap to_ascii_lowercase) m_call (m_state [])) as [[report|e] s'] eqn:E; [|discriminate H].
  destruct (healthy_report sample_identity_json sample_lease_json (fmap to_ascii_lowercase) m_call (m_state []) report s' (m_typed []) E H)
    as [_ (phase & sessions & held & H1 & H2 & H3)].
  exists phase, sessions, held. split; [exact H1|]. split; [exact H2|]. eapply Forall_impl; [exact H3|]. intros [client key] [_ Hr]. exact Hr.
Defined.

Lemma m_slash : Forall (fun entry => Peer.trim_end_matches 47 entry.1 <> entry.1) (operator_keys (m_inventory (lit "/"))).
Proof. unfold m_inventory. cbn [operator_keys fmap list_fmap]. repeat (apply Forall_cons; split; [vm_compute; discriminate|]). constructor. Qed.
Lemma m_slash_runs : is_ok (run_inventory_job sample_identity_json sample_lease_json (fmap to_ascii_lowercase) m_call (m_state (lit "/"))).1 = true.
Proof. vm_compute. reflexivity. Qed.
(** The slash is all that differs from the healthy vault. *)
Lemma slash_never_healthy_witness : exists report, (m_job (lit "/")).1 = Ok report /\ healthy report = false.
Proof.
  unfold m_job. pose proof m_slash_runs as H.
  destruct (run_inventory_job sample_identity_json sample_lease_json (fmap to_ascii_lowercase) m_call (m_state (lit "/"))) as [[report|e] s'] eqn:E; [|discriminate H].
  exists report. split; [reflexivity|].
  exact (slash_never_healthy sample_identity_json sample_lease_json (fmap to_ascii_lowercase) m_call (m_state (lit "/")) report s' m_slash E).
Defined.

Lemma leases_never_shorten_witness : renewed_from (j_inventory (m_state []))
  (run_inventory_job sample_identity_json sample_lease_json (fmap to_ascii_lowercase) m_call (m_state [])).2.
Proof.
  apply (leases_never_shorten sample_identity_json sample_lease_json (fmap to_ascii_lowercase) m_call (m_state [])).
  - apply NoDup_singleton.
  - constructor; [|constructor]. vm_compute. split; discriminate.
Defined.
