(* ===== verification/Policy.v ===== *)
(** * Scope tokens and the authorization engine of the account service

    src/services/account/src: scope_tokens.rs (claims, HMAC tokens, the origin check
    and the denylist), the second-factor check of mfa.rs with its session guards
    of guards.rs, and policy.rs (roles, the permission table, grants, [authorize]).

    The tables are maps keyed by their primary keys.  [fails] says which queries
    the database answers with an error, so that the fail-closed paths are part
    of the model.  base64, HMAC and the JSON form of the claims are interfaces
    (third-party crates); identifiers drawn at random and the clock are
    arguments. *)

From S2P Require Import Prelude Primitives.

Inductive AccountServiceError : Type :=
| Database (msg : string)
| Io (msg : string)
| Invalid (msg : str).

(** ** Interfaces *)

Class Base64Url : Type := {
  url_safe_no_pad_encode : bytes -> str;
  url_safe_no_pad_decode : str -> option bytes;
  url_safe_decode : str -> option bytes;
}.
Class Base64UrlLaws (B : Base64Url) : Prop := {
  b64_roundtrip : forall b, is_bytes b -> url_safe_no_pad_decode (url_safe_no_pad_encode b) = Some b;
  (** The URL-safe alphabet: letters, digits, [-] and [_]. *)
  b64_alphabet : forall b, is_bytes b ->
    Forall (fun c => is_ascii_alphanumeric c || (c =? 45) || (c =? 95) = true) (url_safe_no_pad_encode b);
}.

Class Hmac : Type := {
  hmac_sign : bytes -> bytes -> bytes;
  hmac_verify : bytes -> bytes -> bytes -> bool; (* key message tag *)
}.
Class HmacLaws (H : Hmac) : Prop := {
  hmac_sign_verify : forall k m, hmac_verify k m (hmac_sign k m) = true;
  hmac_sign_bytes : forall k m, is_bytes (hmac_sign k m);
}.

(** ** util.rs *)

Section Util.
Context {B64 : Base64Url}.
Definition b64_encode (value : bytes) : str := url_safe_no_pad_encode value.
Definition b64_decode (value field : str) : result AccountServiceError bytes :=
  match url_safe_no_pad_decode value with
  | Some b => Ok b
  | None =>
      match url_safe_decode value with
      | Some b => Ok b
      | None => Err (Invalid (field ++ lit " must be base64url"))
      end
  end.
End Util.

Definition hash_token `{Hex, Sha256} (token : str) : str := hex_encode (sha256 (as_bytes token)).

(** ** scope_tokens.rs: claims *)

Definition SCOPE_TOKEN_PREFIX : str := lit "cvst1".
Definition SCOPE_TOKEN_MAX_PAYLOAD_BYTES : Z := 4096.
Definition SCOPE_TOKEN_SKEW_SECONDS : Z := 60.
Definition MAC_DOMAIN : bytes := lit "cv-scope-token-v1".

Record ScopeClaims : Type := {
  tenant_id : str; project_id : str; environment_id : option str;
  repository_binding_id : option str; service_id : option str; branch : option str;
  cnf : option str; origin_session_hash : option str; mfa_proof_id : option str;
  elevated_until_utc : option Z; principal_id : str; issued_at_utc : Z; expires_at_utc : Z; jti : str;
}.

(** serde_json at the claims type. *)
Class ClaimsJson : Type := {
  claims_to_vec : ScopeClaims -> result str bytes;
  claims_from_slice : bytes -> option ScopeClaims;
}.
Class ClaimsJsonLaws (J : ClaimsJson) : Prop := {
  claims_roundtrip : forall c b, claims_to_vec c = Ok b -> claims_from_slice b = Some c;
  claims_bytes : forall c b, claims_to_vec c = Ok b -> is_bytes b;
}.

Definition claims_new (random_jti : str) (tenant project principal : str) (issued expires : Z) : ScopeClaims :=
  {| tenant_id := tenant; project_id := project; environment_id := None; repository_binding_id := None;
     service_id := None; branch := None; cnf := None; origin_session_hash := None; mfa_proof_id := None;
     elevated_until_utc := None; principal_id := principal; issued_at_utc := issued;
     expires_at_utc := expires; jti := random_jti |}.

Definition for_session (tenant project : str) (environment : option str) (account : str) : ScopeClaims :=
  {| tenant_id := tenant; project_id := project; environment_id := environment;
     repository_binding_id := None; service_id := None; branch := None; cnf := None;
     origin_session_hash := None; mfa_proof_id := None; elevated_until_utc := None;
     principal_id := lit "account:" ++ account; issued_at_utc := 0; expires_at_utc := u64_max;
     jti := lit "session" |}.

Definition is_blank (s : str) : bool := match trim s with [] => true | _ => false end.

Definition validate_shape (self : ScopeClaims) : result AccountServiceError unit :=
  let invalid what := Invalid (lit "invalid scope token (" ++ lit what ++ lit ")") in
  bail? is_blank (tenant_id self) || is_blank (project_id self) || is_blank (principal_id self)
        || is_blank (jti self) with invalid "empty identity" ;;
  bail? expires_at_utc self <=? issued_at_utc self with invalid "expiry" ;;
  Ok tt.

Definition parse_signing_key `{Hex} (raw : str) : result AccountServiceError bytes :=
  let bad := Invalid (lit "scope-token signing key must be 32-byte hex") in
  let? b := map_err (fun _ => bad) (hex_decode (trim raw)) in
  bail? negb (blen b =? 32) with bad ;;
  Ok b.

(** ** scope_tokens.rs: tokens *)

Section Tokens.
Context {B64 : Base64Url} {HM : Hmac} {CJ : ClaimsJson}.

Definition mac_input (payload_b64 : str) : bytes :=
  MAC_DOMAIN ++ as_bytes SCOPE_TOKEN_PREFIX ++ lit "." ++ as_bytes payload_b64.

Definition mint_scope_token (key : bytes) (claims : ScopeClaims) : result AccountServiceError str :=
  let? _ := validate_shape claims in
  let? payload := map_err (fun err => Invalid (lit "claims not encodable: " ++ err)) (claims_to_vec claims) in
  let payload_b64 := b64_encode payload in
  let tag := hmac_sign key (mac_input payload_b64) in
  Ok (SCOPE_TOKEN_PREFIX ++ lit "." ++ payload_b64 ++ lit "." ++ b64_encode tag).

Definition verify_scope_token (key : bytes) (token : str) (now_utc : Z)
  : result AccountServiceError ScopeClaims :=
  let invalid := Invalid (lit "invalid scope token") in
  match split_on 46 (trim token) with
  | [prefix; payload_b64; mac_b64] =>
      bail? negb (bool_decide (prefix = SCOPE_TOKEN_PREFIX)) with invalid ;;
      let? mac := map_err (fun _ => invalid) (b64_decode mac_b64 (lit "scope_token")) in
      bail? negb (hmac_verify key (mac_input payload_b64) mac) with invalid ;;
      let? payload := map_err (fun _ => invalid) (b64_decode payload_b64 (lit "scope_token")) in
      bail? blen payload >? SCOPE_TOKEN_MAX_PAYLOAD_BYTES with invalid ;;
      let? claims := ok_or (claims_from_slice payload) invalid in
      let? _ := map_err (fun _ => invalid) (validate_shape claims) in
      bail? now_utc >=? expires_at_utc claims with invalid ;;
      bail? issued_at_utc claims >? sat_add64 now_utc SCOPE_TOKEN_SKEW_SECONDS with invalid ;;
      Ok claims
  | _ => Err invalid
  end.
End Tokens.

(** ** The database *)

Record Member : Type := { m_role : str; m_granted_by : str; m_granted_at : Z; m_revoked_at : option Z }.
Record Environment : Type := { e_tenant : str; e_project : str; e_tier : Z }.
Record Session : Type := {
  s_account : str; s_device : option str; s_credential : option str; s_kind : str;
  s_issued : Z; s_expires : Z; s_revoked_at : option Z;
}.
Record MfaProof : Type := { p_id : str; p_verified : Z; p_fingerprint : str }.
Record Totp : Type := { t_ciphertext : str; t_enabled : bool; t_revoked_at : option Z }.

Record Connection : Type := {
  project_members : gmap (str * str) Member;
  environments : gmap str Environment;
  sessions : gmap str Session;
  devices : gmap (str * str) (option Z);            (* revoked_at_utc *)
  webauthn_credentials : gmap (str * str) (option Z);
  account_mfa_policy : gmap str bool;
  session_mfa : gmap str MfaProof;
  totp_credentials : gmap str Totp;
  scope_token_denylist : gmap str Z;                (* expires_at_utc *)
}.

Inductive Query : Type := QPolicy | QSession | QProof | QOrigin | QMember | QTier.

(** A query that fails, or its answer. *)
Definition ask {A : Type} (fails : Query -> bool) (q : Query) (answer : A) : result unit A :=
  if fails q then Err tt else Ok answer.

(** ** Denylist *)

Definition with_denylist (m : gmap str Z) (db : Connection) : Connection :=
  {| project_members := project_members db; environments := environments db; sessions := sessions db;
     devices := devices db; webauthn_credentials := webauthn_credentials db;
     account_mfa_policy := account_mfa_policy db; session_mfa := session_mfa db;
     totp_credentials := totp_credentials db; scope_token_denylist := m |}.

Definition deny_scope_token (jti : str) (expires : Z) (db : Connection) : Connection :=
  with_denylist (<[jti := expires]> (scope_token_denylist db)) db.
Definition scope_token_denied (db : Connection) (jti : str) : bool :=
  bool_decide (is_Some (scope_token_denylist db !! jti)).
(** [DELETE WHERE expires_at_utc <= now]. *)
Definition prune_scope_denylist (now : Z) (db : Connection) : Connection :=
  with_denylist (filter (fun kv => ~ kv.2 <= now) (scope_token_denylist db)) db.

(** ** guards.rs and mfa.rs *)

Definition STEP_UP_MAX_AGE_SECONDS : Z := 5 * 60.

Record SessionView : Type := {
  account_id : str; device_id_hex : option str; auth_method : str;
  sv_issued_at_utc : Z; sv_expires_at_utc : Z;
  mfa_required : bool; mfa_verified_at_utc : option Z; sv_mfa_proof_id : option str;
}.

(** The machine-readable code of the 403 response. *)
Definition require_strong_session (session : SessionView) : result string unit :=
  bail? bool_decide (auth_method session = lit "recovery") with "RECOVERY_STEP_UP_REQUIRED" ;;
  Ok tt.

Definition strong_kind (kind : str) : bool := bool_decide (kind ∈ [lit "device"; lit "webauthn"]).

Definition require_recent_primary_session (session : SessionView) (now : Z) : result string unit :=
  let? _ := require_strong_session session in
  bail? negb (strong_kind (auth_method session)) || (sv_issued_at_utc session >? now)
        || (sat_sub now (sv_issued_at_utc session) >? STEP_UP_MAX_AGE_SECONDS)
  with "AUTHENTICATION_STEP_UP_REQUIRED" ;;
  Ok tt.

Definition require_recent_strong_session (session : SessionView) (now : Z) : result string unit :=
  let? _ := require_recent_primary_session session now in
  bail? mfa_required session &&
        negb match mfa_verified_at_utc session with
             | Some verified => (verified <=? now) && (sat_sub now verified <? STEP_UP_MAX_AGE_SECONDS)
             | None => false
             end with "MFA_STEP_UP_REQUIRED" ;;
  Ok tt.

Section Db.
Context {HX : Hex} {SH : Sha256} (fails : Query -> bool).

Definition policy_required (db : Connection) (account : str) : result unit bool :=
  ask fails QPolicy (default false (account_mfa_policy db !! account)).

(** The join of session_mfa, sessions and totp_credentials. *)
Definition proof_row (db : Connection) (token_hash account : str) : option (MfaProof * str) :=
  match session_mfa db !! token_hash, sessions db !! token_hash with
  | Some p, Some s =>
      match totp_credentials db !! s_account s with
      | Some t =>
          if bool_decide (s_account s = account /\ t_enabled t = true /\ t_revoked_at t = None)
          then Some (p, t_ciphertext t) else None
      | None => None
      end
  | _, _ => None
  end.

Definition with_mfa (s : SessionView) (required : bool) (verified : option Z) (proof : option str) : SessionView :=
  {| account_id := account_id s; device_id_hex := device_id_hex s; auth_method := auth_method s;
     sv_issued_at_utc := sv_issued_at_utc s; sv_expires_at_utc := sv_expires_at_utc s;
     mfa_required := required; mfa_verified_at_utc := verified; sv_mfa_proof_id := proof |}.

Definition apply_session_status (db : Connection) (token_hash : str) (session : SessionView) (now : Z)
  : result unit SessionView :=
  let? required := policy_required db (account_id session) in
  let? proof := ask fails QProof (proof_row db token_hash (account_id session)) in
  Ok match proof with
     | Some (p, ciphertext) =>
         if strong_kind (auth_method session) && (p_verified p <=? now)
            && (sat_sub now (p_verified p) <? STEP_UP_MAX_AGE_SECONDS)
            && bool_decide (p_fingerprint p = hash_token ciphertext)
         then with_mfa session required (Some (p_verified p)) (Some (p_id p))
         else with_mfa session required None None
     | None => with_mfa session required None None
     end.

Definition strip_prefix (prefix s : str) : option str :=
  if starts_with prefix s then Some (drop (length prefix) s) else None.

Definition active_session (db : Connection) (token_hash account : str) : option Session :=
  match sessions db !! token_hash with
  | Some s => if bool_decide (s_account s = account /\ s_revoked_at s = None) then Some s else None
  | None => None
  end.

Definition scope_mfa_active (db : Connection) (claims : ScopeClaims) (now : Z) : result unit bool :=
  match strip_prefix (lit "account:") (principal_id claims) with
  | None => Ok true
  | Some account =>
      let? required := policy_required db account in
      if negb required && bool_decide (mfa_proof_id claims = None) then Ok true
      else
        match origin_session_hash claims with
        | None => Ok false
        | Some origin =>
            let? row := ask fails QSession (active_session db origin account) in
            match row with
            | None => Ok false
            | Some s =>
                let? session := apply_session_status db origin
                  {| account_id := account; device_id_hex := None; auth_method := s_kind s;
                     sv_issued_at_utc := s_issued s; sv_expires_at_utc := s_expires s;
                     mfa_required := true; mfa_verified_at_utc := None; sv_mfa_proof_id := None |} now in
                Ok ((s_expires s >? now) && is_ok (require_recent_primary_session session now)
                    && bool_decide (is_Some (sv_mfa_proof_id session))
                    && bool_decide (sv_mfa_proof_id session = mfa_proof_id claims))
            end
        end
  end.

(** ** scope_tokens.rs: the origin of a token *)

(** [device_id IS NULL OR EXISTS(... revoked_at_utc IS NULL)]. *)
Definition unrevoked (table : gmap (str * str) (option Z)) (account : str) (id : option str) : bool :=
  match id with
  | None => true
  | Some i => bool_decide (table !! (account, i) = Some None)
  end.

Definition session_live (db : Connection) (origin principal : str) (now : Z) (require_strong : bool) : bool :=
  match sessions db !! origin with
  | Some s =>
      bool_decide (lit "account:" ++ s_account s = principal) && bool_decide (s_revoked_at s = None)
      && (s_expires s >? now) && (negb require_strong || strong_kind (s_kind s))
      && unrevoked (devices db) (s_account s) (s_device s)
      && unrevoked (webauthn_credentials db) (s_account s) (s_credential s)
  | None => false
  end.

Definition scope_origin_active (db : Connection) (claims : ScopeClaims) (now : Z) (require_strong : bool)
  : result unit bool :=
  let? active := scope_mfa_active db claims now in
  if negb active then Ok false
  else
    match origin_session_hash claims with
    | None => Ok true
    | Some origin => ask fails QOrigin (session_live db origin (principal_id claims) now require_strong)
    end.
End Db.

(** ** policy.rs *)

Inductive ProjectRole : Type := Admin | Developer | Operator | Auditor.
#[global] Instance ProjectRole_eq_dec : EqDecision ProjectRole.
Proof. solve_decision. Defined.

Definition parse_role (role : str) : option ProjectRole :=
  if decide (role = lit "admin") then Some Admin
  else if decide (role = lit "developer") then Some Developer
  else if decide (role = lit "operator") then Some Operator
  else if decide (role = lit "auditor") then Some Auditor
  else None.

Definition role_str (role : ProjectRole) : str :=
  match role with
  | Admin => lit "admin"
  | Developer => lit "developer"
  | Operator => lit "operator"
  | Auditor => lit "auditor"
  end.

Inductive ScopedAction : Type :=
| ReadMetadata | ReadValue | CreateSecret | UpdateMetadata | RotateSecret | MoveSecret | RebindSecret
| DeleteSecret | ManageMembers | ManageBindings | ManagePolicies | ManageMigrations | ViewAudit.
#[global] Instance ScopedAction_eq_dec : EqDecision ScopedAction.
Proof. solve_decision. Defined.

Record AuthTarget : Type := {
  at_tenant_id : str; at_project_id : str; at_environment_id : option str;
  at_repository_binding_id : option str; at_service_id : option str;
}.

Record RequestAttributes : Type := {
  ra_branch : option str; elevated : bool; trusted_branch : bool; human_session : bool;
  recent_strong_auth : bool;
}.

Inductive PolicyDenial : Type :=
| ScopeMismatch | EnvironmentMismatch | BindingMismatch | ServiceMismatch | NoGrant
| RoleInsufficient | ProductionGate | UnknownEnvironment | AuthenticationStrength.

Definition role_allows (role : ProjectRole) (action : ScopedAction) : bool :=
  match action with
  | ReadMetadata => match role with Admin | Developer | Operator | Auditor => true end
  | ReadValue => match role with Admin | Developer | Operator => true | _ => false end
  | CreateSecret | UpdateMetadata => match role with Admin | Developer => true | _ => false end
  | RotateSecret => match role with Admin | Developer | Operator => true | _ => false end
  | ViewAudit => match role with Admin | Auditor => true | _ => false end
  | MoveSecret | RebindSecret | DeleteSecret | ManageMembers | ManageBindings | ManagePolicies
  | ManageMigrations => match role with Admin => true | _ => false end
  end.

Definition active_role (db : Connection) (project principal : str) : option ProjectRole :=
  match project_members db !! (project, principal) with
  | Some m => if decide (m_revoked_at m = None) then parse_role (m_role m) else None
  | None => None
  end.

Definition with_members (m : gmap (str * str) Member) (db : Connection) : Connection :=
  {| project_members := m; environments := environments db; sessions := sessions db;
     devices := devices db; webauthn_credentials := webauthn_credentials db;
     account_mfa_policy := account_mfa_policy db; session_mfa := session_mfa db;
     totp_credentials := totp_credentials db; scope_token_denylist := scope_token_denylist db |}.

Definition grant_project_role (project principal : str) (role : ProjectRole) (granted_by : str) (now : Z)
  (db : Connection) : Connection :=
  with_members (<[(project, principal) :=
    {| m_role := role_str role; m_granted_by := granted_by; m_granted_at := now; m_revoked_at := None |}]>
    (project_members db)) db.

Definition revoke_project_role (project principal : str) (now : Z) (db : Connection) : Connection :=
  match project_members db !! (project, principal) with
  | Some m =>
      if decide (m_revoked_at m = None)
      then with_members (<[(project, principal) :=
             {| m_role := m_role m; m_granted_by := m_granted_by m; m_granted_at := m_granted_at m;
                m_revoked_at := Some now |}]> (project_members db)) db
      else db
  | None => db
  end.

Section Authorize.
Context {HX : Hex} {SH : Sha256} (fails : Query -> bool).

Definition project_role_of (db : Connection) (project principal : str) : result unit (option ProjectRole) :=
  ask fails QMember (active_role db project principal).

Definition environment_tier (db : Connection) (target : AuthTarget) (environment : str)
  : result unit (option Z) :=
  ask fails QTier
    match environments db !! environment with
    | Some e => if decide (e_project e = at_project_id target /\ e_tenant e = at_tenant_id target)
                then Some (e_tier e) else None
    | None => None
    end.

Definition environment_matches (have want : option str) : bool :=
  match have, want with
  | None, None => true
  | Some h, Some w => bool_decide (h = w)
  | _, _ => false
  end.

Definition production_gate (db : Connection) (target : AuthTarget) (attrs : RequestAttributes)
  : result PolicyDenial unit :=
  match at_environment_id target with
  | None => Ok tt
  | Some env =>
      let? tier := map_err (fun _ => UnknownEnvironment) (environment_tier db target env) in
      match tier with
      | None => Err UnknownEnvironment
      | Some tier =>
          if tier >=? 2 then
            let on_main := trusted_branch attrs && bool_decide (ra_branch attrs = Some (lit "main")) in
            bail? negb (on_main || elevated attrs) with ProductionGate ;; Ok tt
          else Ok tt
      end
  end.

Definition authorize (db : Connection) (claims : ScopeClaims) (action : ScopedAction)
  (target : AuthTarget) (attrs : RequestAttributes) (now : Z) : result PolicyDenial ProjectRole :=
  let? active := map_err (fun _ => AuthenticationStrength)
                   (scope_origin_active fails db claims now (negb (human_session attrs))) in
  bail? negb active with AuthenticationStrength ;;
  bail? negb (bool_decide (tenant_id claims = at_tenant_id target))
        || negb (bool_decide (project_id claims = at_project_id target)) with ScopeMismatch ;;
  bail? negb (human_session attrs) && negb (environment_matches (environment_id claims) (at_environment_id target))
  with EnvironmentMismatch ;;
  bail? negb (human_session attrs)
        && negb (bool_decide (repository_binding_id claims = at_repository_binding_id target))
  with BindingMismatch ;;
  bail? negb (human_session attrs) && negb (bool_decide (service_id claims = at_service_id target))
  with ServiceMismatch ;;
  bail? human_session attrs && negb (bool_decide (action = ReadMetadata)) && negb (recent_strong_auth attrs)
  with AuthenticationStrength ;;
  let? role := map_err (fun _ => NoGrant) (project_role_of db (at_project_id target) (principal_id claims)) in
  let? role := ok_or role NoGrant in
  bail? negb (role_allows role action) with RoleInsufficient ;;
  let? _ := production_gate db target attrs in
  Ok role.
End Authorize.
