(* ===== verification/AuditChain.v ===== *)
(** * The tenant audit chain of the account service

    src/services/account/src/audit_chain.rs (event taxonomy, chain digest,
    verification and paged export) and the writer [audit_secret_event] of
    secrets.rs.  Text columns are their UTF-8 bytes.  The table
    [secret_access_events] is the list of its rows in rowid order; its schema
    (scoped.rs) makes it append-only with a primary key on [event_id] and a check
    on [result], and rusqlite refuses an unsigned value above [i64::MAX].
    JSON text is an interface, since serde_json is a third-party crate; the random
    event identifier and the clock are arguments. *)

From S2P Require Import Prelude Sorting Primitives Redact.

(** ** serde_json *)

Inductive Value : Type :=
| VString (s : bytes)
| VObject (fields : list (bytes * Value))
| VInt (n : Z)
| VOther.

Class Json : Type := {
  json_from_str : bytes -> option Value;
  json_to_string : Value -> bytes;
}.
(** An object with one text member survives printing and parsing. *)
Class JsonLaws (J : Json) : Prop := {
  json_member_roundtrip : forall k s,
    json_from_str (json_to_string (VObject [(k, VString s)])) = Some (VObject [(k, VString s)]);
}.

Definition value_get (v : Value) (k : bytes) : option Value :=
  match v with
  | VObject fields => snd <$> find (fun kv => bool_decide (kv.1 = k)) fields
  | _ => None
  end.

(** ** Taxonomy *)

Inductive AuditEventType : Type :=
| SecretCreated | SecretRead | SecretUpdated | SecretDeleted | SecretMoved | SecretRebound
| SecretRotated | MembershipGranted | MembershipRevoked | RepositoryBound | RepositoryRevoked
| TokenMinted
| Other (literal : bytes).

Definition ALL_TWELVE : list bytes :=
  [lit "secret.created"; lit "secret.read"; lit "secret.updated"; lit "secret.deleted";
   lit "secret.moved"; lit "secret.rebound"; lit "secret.rotated"; lit "membership.granted";
   lit "membership.revoked"; lit "repository.bound"; lit "repository.revoked"; lit "token.minted"].

Fixpoint position (x : bytes) (l : list bytes) : option nat :=
  match l with
  | [] => None
  | y :: rest => if bool_decide (y = x) then Some O else S <$> position x rest
  end.

Definition parse_event_type (value : bytes) : AuditEventType :=
  match position value ALL_TWELVE with
  | Some 0%nat => SecretCreated
  | Some 1%nat => SecretRead
  | Some 2%nat => SecretUpdated
  | Some 3%nat => SecretDeleted
  | Some 4%nat => SecretMoved
  | Some 5%nat => SecretRebound
  | Some 6%nat => SecretRotated
  | Some 7%nat => MembershipGranted
  | Some 8%nat => MembershipRevoked
  | Some 9%nat => RepositoryBound
  | Some 10%nat => RepositoryRevoked
  | Some 11%nat => TokenMinted
  | _ => Other value
  end.

Definition event_type_str (t : AuditEventType) : bytes :=
  match t with
  | SecretCreated => lit "secret.created"
  | SecretRead => lit "secret.read"
  | SecretUpdated => lit "secret.updated"
  | SecretDeleted => lit "secret.deleted"
  | SecretMoved => lit "secret.moved"
  | SecretRebound => lit "secret.rebound"
  | SecretRotated => lit "secret.rotated"
  | MembershipGranted => lit "membership.granted"
  | MembershipRevoked => lit "membership.revoked"
  | RepositoryBound => lit "repository.bound"
  | RepositoryRevoked => lit "repository.revoked"
  | TokenMinted => lit "token.minted"
  | Other literal => literal
  end.

Definition is_canonical (t : AuditEventType) : bool :=
  match t with Other _ => false | _ => true end.

(** ** The chain digest *)

Definition CHAIN_DOMAIN : bytes := lit "ciphervault-audit-chain-v2".
Definition GENESIS_HASH : bytes := replicate 32 0.

Record ChainFields : Type := {
  cf_prev : bytes; cf_event_type : bytes; cf_tenant_id : bytes;
  cf_project_id : option bytes; cf_environment_id : option bytes; cf_secret_id : option bytes;
  cf_secret_version : option Z; cf_principal_id : bytes; cf_request_id : bytes;
  cf_source : bytes; cf_result : bytes; cf_reason : bytes; cf_now : Z;
}.

(** What each helper feeds to the hasher. *)
Definition push_field (b : bytes) : bytes := to_be_bytes 8 (blen b) ++ b.
Definition push_opt (value : option bytes) : bytes :=
  match value with Some b => [1] ++ push_field b | None => [0] end.
Definition push_version (value : option Z) : bytes :=
  match value with Some version => [1] ++ to_be_bytes 8 (wrap64 version) | None => [0] end.

Definition chain_preimage (f : ChainFields) : bytes :=
  CHAIN_DOMAIN ++ push_field (cf_prev f) ++ push_field (cf_event_type f) ++ push_field (cf_tenant_id f)
  ++ push_opt (cf_project_id f) ++ push_opt (cf_environment_id f) ++ push_opt (cf_secret_id f)
  ++ push_version (cf_secret_version f) ++ push_field (cf_principal_id f)
  ++ push_field (cf_request_id f) ++ push_field (cf_source f) ++ push_field (cf_result f)
  ++ push_field (cf_reason f) ++ to_be_bytes 8 (cf_now f).

Definition chain_digest `{Sha256} (f : ChainFields) : bytes := sha256 (chain_preimage f).

Definition principal_from_actor `{Json} (actor_json : bytes) : option bytes :=
  match json_from_str actor_json with
  | Some v => match value_get v (lit "principal_id") with Some (VString s) => Some s | _ => None end
  | None => None
  end.

(** ** Rows and the table *)

Record AuditRow : Type := {
  event_id : bytes; event_type : bytes; tenant_id : bytes; project_id : option bytes;
  environment_id : option bytes; secret_id : option bytes; secret_version : option Z;
  actor_json : bytes; request_id : bytes; source : bytes; result_ : bytes; reason : bytes;
  prev_hash : bytes; event_hash : bytes; created_at_utc : Z;
}.

Abbreviation AuditTable := (list AuditRow).

(** [WHERE tenant_id = ? ORDER BY created_at_utc, rowid]. *)
Definition created_le (a b : AuditRow) : bool := created_at_utc a <=? created_at_utc b.
Definition tenant_rows (tenant : bytes) (table : AuditTable) : list AuditRow :=
  sort created_le (filter (fun row => tenant_id row = tenant) table).

Definition fields_of (principal running : bytes) (row : AuditRow) : ChainFields :=
  {| cf_prev := running; cf_event_type := event_type row; cf_tenant_id := tenant_id row;
     cf_project_id := project_id row; cf_environment_id := environment_id row;
     cf_secret_id := secret_id row; cf_secret_version := secret_version row;
     cf_principal_id := principal; cf_request_id := request_id row; cf_source := source row;
     cf_result := result_ row; cf_reason := reason row; cf_now := wrap64 (created_at_utc row) |}.

Definition row_linkage_ok `{Sha256, Json} (row : AuditRow) (running : bytes) : bool :=
  let recomputed := (fun principal => chain_digest (fields_of principal running row))
                    <$> principal_from_actor (actor_json row) in
  bool_decide (prev_hash row = running) && bool_decide (recomputed = Some (event_hash row)).

Record ChainReport : Type := {
  event_count : Z; valid : bool; first_bad_event_id : option bytes; head_hash : bytes;
}.

(** The loop of [verify_chain]: the running head and the first bad row. *)
Fixpoint verify_rows `{Sha256, Json} (rows : list AuditRow) (running : bytes) : bytes * option bytes :=
  match rows with
  | [] => (running, None)
  | row :: rest =>
      if row_linkage_ok row running then verify_rows rest (event_hash row)
      else (running, Some (event_id row))
  end.

Definition verify_chain `{Sha256, Json} (table : AuditTable) (tenant : bytes) : ChainReport :=
  let rows := tenant_rows tenant table in
  let (running, bad) := verify_rows rows GENESIS_HASH in
  {| event_count := blen rows; valid := negb (bool_decide (is_Some bad));
     first_bad_event_id := bad; head_hash := running |}.

(** ** The writer *)

Record SecretAuditEvent : Type := {
  ev_event_type : bytes; ev_tenant_id : bytes; ev_project_id : option bytes;
  ev_environment_id : option bytes; ev_secret_id : option bytes; ev_secret_version : option Z;
  ev_principal_id : bytes; ev_request_id : bytes; ev_source : bytes; ev_result : bytes; ev_reason : bytes;
}.

Inductive DbError : Type := ToSqlConversionFailure | ConstraintViolation.

Definition i64_max : Z := 9223372036854775807.
Definition result_check (r : bytes) : bool :=
  bool_decide (r ∈ [lit "success"; lit "denied"; lit "error"]).

Definition audit_secret_event `{Sha256, Json} (new_id : bytes) (event : SecretAuditEvent) (now : Z)
  (table : AuditTable) : result DbError AuditTable :=
  let prev := default (replicate 32 0) (event_hash <$> last (tenant_rows (ev_tenant_id event) table)) in
  let reason := redact_text (ev_reason event) in
  let digest := chain_digest
    {| cf_prev := prev; cf_event_type := ev_event_type event; cf_tenant_id := ev_tenant_id event;
       cf_project_id := ev_project_id event; cf_environment_id := ev_environment_id event;
       cf_secret_id := ev_secret_id event; cf_secret_version := ev_secret_version event;
       cf_principal_id := ev_principal_id event; cf_request_id := ev_request_id event;
       cf_source := ev_source event; cf_result := ev_result event; cf_reason := reason; cf_now := now |} in
  let actor := json_to_string (VObject [(lit "principal_id", VString (ev_principal_id event))]) in
  bail? now >? i64_max with ToSqlConversionFailure ;;
  bail? negb (result_check (ev_result event)) || bool_decide (new_id ∈ event_id <$> table)
  with ConstraintViolation ;;
  Ok (table ++
      [{| event_id := new_id; event_type := ev_event_type event; tenant_id := ev_tenant_id event;
          project_id := ev_project_id event; environment_id := ev_environment_id event;
          secret_id := ev_secret_id event; secret_version := ev_secret_version event;
          actor_json := actor; request_id := ev_request_id event; source := ev_source event;
          result_ := ev_result event; reason := reason; prev_hash := prev; event_hash := digest;
          created_at_utc := now |}]).

(** ** The paged export *)

Definition AUDIT_EXPORT_MAX_LIMIT : Z := 50000.

Inductive AuditExportError : Type := UnknownCursor.

Record AuditExportPage : Type := {
  pg_event_count : Z; pg_head_hash : bytes; pg_next_cursor : option bytes; pg_jsonl : bytes;
  pg_valid : bool; pg_first_bad_event_id : option bytes;
}.

(** A page body: running head, text, last identifier and number of rows emitted,
    or the running head and the row that breaks the chain.  [audit_row_json] is
    serde_json's rendering of a row. *)
Fixpoint page_rows `{Sha256, Json} (audit_row_json : AuditRow -> bytes) (rows : list AuditRow)
  (running out : bytes) (last_id : option bytes) (emitted : Z)
  : (bytes * bytes) + (bytes * bytes * option bytes * Z) :=
  match rows with
  | [] => inr (running, out, last_id, emitted)
  | row :: rest =>
      if row_linkage_ok row running
      then page_rows audit_row_json rest (event_hash row) (out ++ audit_row_json row ++ [10])
             (Some (event_id row)) (emitted + 1)
      else inl (running, event_id row)
  end.

(** The rows past a cursor position [(created_at_utc, rowid)]; a rowid is the
    position in the table. *)
Definition past (at_ : Z * nat) (r : nat * AuditRow) : bool :=
  (created_at_utc r.2 >? at_.1) || ((created_at_utc r.2 =? at_.1) && (at_.2 <? r.1)%nat).
Definition rows_past (tenant : bytes) (table : AuditTable) (position : option (Z * nat)) : list AuditRow :=
  snd <$> filter (fun r => match position with None => true | Some at_ => past at_ r end = true)
            (sort (fun a b => created_le a.2 b.2)
               (filter (fun r => tenant_id r.2 = tenant) (enumerate table))).

Definition verify_and_export_audit_page `{Sha256, Json} (audit_row_json : AuditRow -> bytes)
  (snapshot : AuditTable) (tenant : bytes) (after : option bytes) (limit : Z)
  : result AuditExportError AuditExportPage :=
  let limit := Z.max 1 (Z.min limit AUDIT_EXPORT_MAX_LIMIT) in
  let? start :=
    match after with
    | None => Ok (GENESIS_HASH, None)
    | Some id =>
        match find (fun r => bool_decide (tenant_id r.2 = tenant /\ event_id r.2 = id)) (enumerate snapshot) with
        | Some (rowid, row) => Ok (event_hash row, Some (created_at_utc row, rowid))
        | None => Err UnknownCursor
        end
    end in
  let rows := take (Z.to_nat (limit + 1)) (rows_past tenant snapshot start.2) in
  let has_more := blen rows >? limit in
  Ok match page_rows audit_row_json (take (Z.to_nat limit) rows) start.1 [] None 0 with
     | inl (running, bad) =>
         {| pg_event_count := 0; pg_head_hash := running; pg_next_cursor := None; pg_jsonl := [];
            pg_valid := false; pg_first_bad_event_id := Some bad |}
     | inr (running, out, last_id, emitted) =>
         {| pg_event_count := emitted; pg_head_hash := running;
            pg_next_cursor := if has_more then last_id else None; pg_jsonl := out;
            pg_valid := true; pg_first_bad_event_id := None |}
     end.
