(* ===== verification/Swarm.v ===== *)
(** * Swarm liveness and repair assignment

    src/services/operator/src/swarm/liveness.rs (signed heartbeats, their
    verification and the liveness tracker), the control-topic handler of mod.rs, and repair.rs (rendezvous repair
    plans, backoff, repair signatures).  A peer identity is its byte string,
    which is how libp2p compares and hashes it; instants and durations are
    milliseconds of one clock, an argument of each operation.  The token bucket
    of repair.rs computes in floating point and is left out. *)

From S2P Require Import Prelude Sorting Primitives SamplePrimitives Crypto.

(** ** liveness.rs *)

Definition HEARTBEAT_VERSION : Z := 1.
Definition HEARTBEAT_DOMAIN : bytes := lit "ciphervault_heartbeat_v1".
Definition HEARTBEAT_CLOCK_SKEW_MS : Z := 60000.

Record Heartbeat : Type := {
  hb_version : Z; operator_id : str; peer_id : str; seq : Z; wall_time_ms : Z; signer_pk_hex : str;
  hb_signature_hex : str;
}.

Inductive HeartbeatReject : Type := BadVersion | ClockSkew | BadSignature | StaleSeq.

(** [diff |= x ^ y] over the bytes of two equally long strings. *)
Definition constant_time_eq_hex (a b : str) : bool :=
  if negb (str_len a =? str_len b) then false
  else
    let diff := foldl (fun d '(x, y) => Z.lor d (Z.lxor x y)) 0 (zip (as_bytes a) (as_bytes b)) in
    diff =? 0.

Section Heartbeat.
Context {HX : Hex} {ED : Ed25519}.

Definition signing_bytes (self : Heartbeat) : bytes :=
  to_le_bytes 4 (hb_version self) ++ as_bytes (operator_id self) ++ lit ":" ++ as_bytes (peer_id self)
  ++ lit ":" ++ to_le_bytes 8 (seq self) ++ to_le_bytes 8 (wall_time_ms self)
  ++ as_bytes (signer_pk_hex self).

Definition sign (signing_key : bytes) (self : Heartbeat) : Heartbeat :=
  let msg := signing_bytes self in
  let sig := sign_with_domain signing_key HEARTBEAT_DOMAIN msg in
  {| hb_version := hb_version self; operator_id := operator_id self; peer_id := peer_id self;
     seq := seq self; wall_time_ms := wall_time_ms self; signer_pk_hex := signer_pk_hex self;
     hb_signature_hex := hex_encode sig |}.

(** [peer_text] is the base58 form of the peer identity. *)
Definition heartbeat_new (operator_id peer_text : str) (seq wall_time_ms : Z) (signing_key : bytes)
  : Heartbeat :=
  sign signing_key
    {| hb_version := HEARTBEAT_VERSION; operator_id := operator_id; peer_id := peer_text; seq := seq;
       wall_time_ms := wall_time_ms; signer_pk_hex := hex_encode (verifying_key signing_key);
       hb_signature_hex := [] |}.

Definition verify_heartbeat (hb : Heartbeat) (expected_pk_hex : option str) (last_seq : option Z)
  (now_ms : Z) : result HeartbeatReject unit :=
  bail? negb (hb_version hb =? HEARTBEAT_VERSION) with BadVersion ;;
  bail? Z.abs (wall_time_ms hb - now_ms) >? HEARTBEAT_CLOCK_SKEW_MS with ClockSkew ;;
  let? expected := ok_or expected_pk_hex BadSignature in
  bail? negb (constant_time_eq_hex (signer_pk_hex hb) expected) with BadSignature ;;
  let? pk := map_err (fun _ => BadSignature) (hex_decode (signer_pk_hex hb)) in
  bail? negb (blen pk =? 32) with BadSignature ;;
  let? sig := map_err (fun _ => BadSignature) (hex_decode (hb_signature_hex hb)) in
  bail? negb (blen sig =? 64) with BadSignature ;;
  let? _ := map_err (fun _ => BadSignature)
              (verify_with_domain pk HEARTBEAT_DOMAIN (signing_bytes hb) sig) in
  bail? match last_seq with Some last => seq hb <=? last | None => false end with StaleSeq ;;
  Ok tt.
End Heartbeat.

Record LivenessEntry : Type := { e_operator_id : str; last_seq_ : Z; last_seen : Z }.
Abbreviation LivenessTracker := (gmap bytes LivenessEntry).

Definition note_heartbeat (now : Z) (peer : bytes) (operator_id : str) (seq : Z) (self : LivenessTracker)
  : LivenessTracker :=
  <[peer := {| e_operator_id := operator_id; last_seq_ := seq; last_seen := now |}]> self.
Definition last_seq (self : LivenessTracker) (peer : bytes) : option Z := last_seq_ <$> self !! peer.
Definition operator_for (self : LivenessTracker) (peer : bytes) : option str := e_operator_id <$> self !! peer.

(** [Instant::elapsed] never goes negative. *)
Definition elapsed (now : Z) (e : LivenessEntry) : Z := sat_sub now (last_seen e).
Definition is_live (now timeout : Z) (self : LivenessTracker) (peer : bytes) : bool :=
  match self !! peer with Some e => elapsed now e <? timeout | None => false end.
Definition prune (now timeout : Z) (self : LivenessTracker) : LivenessTracker :=
  filter (fun kv => elapsed now kv.2 < timeout * 4) self.

(** Byte-string order, the [Ord] of peer identities and digests. *)
Fixpoint bytes_le (a b : bytes) : bool :=
  match a, b with
  | [], _ => true
  | _ :: _, [] => false
  | x :: a', y :: b' => (x <? y) || ((x =? y) && bytes_le a' b')
  end.

Definition live_peers (now timeout : Z) (self : LivenessTracker) : list bytes :=
  sort bytes_le (filter (fun p => is_live now timeout self p = true) (fst <$> map_to_list self)).
Definition live_count (now timeout : Z) (self : LivenessTracker) : Z :=
  blen (filter (fun kv => (elapsed now kv.2 <? timeout) = true) (map_to_list self)).

(** ** The control-topic handler of mod.rs *)

(** A parsed control payload; parsing is serde_json's. *)
Inductive ControlInput : Type :=
| IsHeartbeat (hb : Heartbeat)
| UnknownKind
| BadEnvelope.

Inductive MessageAcceptance : Type := Accept | Reject | Ignore.

(** The counters the handler bumps and its call into the operator state. *)
Inductive Effect : Type :=
| HeartbeatDropped (slug : string)
| ControlUnknownKind
| HeartbeatReceived
| NotePeerHeartbeat (operator_id : str).

Definition reject_slug (r : HeartbeatReject) : string :=
  match r with
  | BadVersion => "bad_version"
  | ClockSkew => "clock_skew"
  | BadSignature => "bad_signature"
  | StaleSeq => "stale_seq"
  end.

(** [table] maps operator ids to announced keys; [parse_peer] is libp2p's parser
    of peer identities; [now_ms] is the wall clock and [now] the monotonic one. *)
Definition accept_control_message `{Hex, Ed25519} (parse_peer : str -> option bytes) (table : gmap str str)
  (now_ms now : Z) (input : ControlInput) (liveness : LivenessTracker)
  : MessageAcceptance * LivenessTracker * list Effect :=
  match input with
  | BadEnvelope => (Reject, liveness, [HeartbeatDropped "bad_envelope"])
  | UnknownKind => (Ignore, liveness, [ControlUnknownKind])
  | IsHeartbeat hb =>
      match table !! operator_id hb with
      | None => (Ignore, liveness, [HeartbeatDropped "unknown_sender"])
      | Some expected_pk =>
          match parse_peer (peer_id hb) with
          | None => (Reject, liveness, [HeartbeatDropped "bad_envelope"])
          | Some peer =>
              match verify_heartbeat hb (Some expected_pk) (last_seq liveness peer) now_ms with
              | Ok _ => (Accept, note_heartbeat now peer (operator_id hb) (seq hb) liveness,
                         [HeartbeatReceived; NotePeerHeartbeat (operator_id hb)])
              | Err reason => (Reject, liveness, [HeartbeatDropped (reject_slug reason)])
              end
          end
      end
  end.

(** ** repair.rs *)

Record RepairPlan : Type := { pusher : bytes; recipients : list bytes }.

Definition score `{Sha256} (cid peer : bytes) : bytes := sha256 (peer ++ cid).

(** The tuple order on (score, peer). *)
Definition scored_le (a b : bytes * bytes) : bool :=
  if bool_decide (a.1 = b.1) then bytes_le a.2 b.2 else bytes_le a.1 b.1.

Definition scored `{Sha256} (cid : bytes) (peers : list bytes) : list (bytes * bytes) :=
  sort scored_le ((fun peer => (score cid peer, peer)) <$> peers).

Definition plan_repair `{Sha256} (cid : bytes) (holders live : list bytes) (target : Z)
  : option RepairPlan :=
  if (target =? 0) || match holders with [] => true | _ => false end || (blen holders >=? target)
  then None
  else
    match scored cid holders with
    | [] => None
    | (_, pusher) :: _ =>
        let needed := target - blen holders in
        match scored cid (filter (fun peer => peer ∉ holders) live) with
        | [] => None
        | candidates =>
            Some {| pusher := pusher; recipients := snd <$> take (Z.to_nat needed) candidates |}
        end
    end.

(** Durations in milliseconds; [drawn] is the random [u64]. *)
Definition backoff_for (drawn fails base max : Z) : Z :=
  let shifts := Z.min fails 10 in
  let grown := Z.min (base * Z.shiftl 1 shifts) max in
  let jitter_ms := if base =? 0 then 0 else drawn mod (base + 1) in
  Z.min (grown + jitter_ms) max.

Definition repair_signing_bytes (recipient_operator_id : str) (cid data : bytes) : bytes :=
  as_bytes recipient_operator_id ++ lit ":" ++ cid ++ lit ":" ++ data.
