(* ===== verification/SwarmTheory.v ===== *)
(** * Theorems on swarm liveness

    An accepted heartbeat is signed by the announced key and moves its peer's
    sequence number strictly forward. *)

From stdpp Require Import sorting.
From S2P Require Import Prelude Sorting Primitives SamplePrimitives Crypto VouchersTheory Swarm.

(** ** Heartbeats *)

(** A frame authenticates when the key the table announces for its operator
    signed it. *)
Definition announced_signature `{Hex, Ed25519} (table : gmap str str) (hb : Heartbeat) : Prop :=
  exists expected pk sig, table !! operator_id hb = Some expected /\
    constant_time_eq_hex (signer_pk_hex hb) expected = true /\ hex_decode (signer_pk_hex hb) = Ok pk /\
    hex_decode (hb_signature_hex hb) = Ok sig /\ verify_with_domain pk HEARTBEAT_DOMAIN (signing_bytes hb) sig = Ok tt.

Lemma verify_heartbeat_ok `{Hex, Ed25519} hb expected last now_ms :
  verify_heartbeat hb (Some expected) last now_ms = Ok tt ->
  Z.abs (wall_time_ms hb - now_ms) <= HEARTBEAT_CLOCK_SKEW_MS /\
  (forall l, last = Some l -> l < seq hb) /\
  constant_time_eq_hex (signer_pk_hex hb) expected = true /\
  exists pk sig, hex_decode (signer_pk_hex hb) = Ok pk /\
    hex_decode (hb_signature_hex hb) = Ok sig /\ verify_with_domain pk HEARTBEAT_DOMAIN (signing_bytes hb) sig = Ok tt.
Proof.
  unfold verify_heartbeat. intros Hv. rewrite Z.gtb_ltb in Hv. apply bail_ok in Hv as (_ & Hv).
  apply bail_ok in Hv as (Hskew & Hv). cbn [ok_or res_bind] in Hv. apply bail_ok in Hv as (Heq & Hv).
  apply res_bind_ok in Hv as (pk & Hpk & Hv). apply bail_ok in Hv as (_ & Hv).
  apply res_bind_ok in Hv as (sig & Hsig & Hv). apply bail_ok in Hv as (_ & Hv).
  apply res_bind_ok in Hv as ([] & Hs & Hv). apply bail_ok in Hv as (Hseq & _). bool_prop.
  split; [done|]. split; [intros l ->; bool_prop; lia|]. split; [done|].
  destruct (hex_decode (signer_pk_hex hb)) as [pk'|] eqn:Ed; [|done]. injection Hpk as ->.
  destruct (hex_decode (hb_signature_hex hb)) as [sig'|] eqn:Esig; [|done]. injection Hsig as ->.
  exists pk, sig. split; [done|]. split; [done|]. by destruct (verify_with_domain _ _ _ _) as [[]|].
Qed.

(** The control handler changes the tracker only when it accepts.  It
    accepts only a heartbeat within the clock skew that the announced key of its
    operator signed and whose sequence number exceeds the last one accepted for
    that peer; the peer's entry then carries that number and no other entry
    changes. *)
Theorem accept_heartbeat_sound {HX : Hex} {ED : Ed25519} parse table now_ms now input tracker verdict tracker' effects :
  accept_control_message parse table now_ms now input tracker = (verdict, tracker', effects) ->
  match verdict with
  | Accept => exists hb peer, input = IsHeartbeat hb /\ parse (peer_id hb) = Some peer /\
      announced_signature table hb /\ Z.abs (wall_time_ms hb - now_ms) <= HEARTBEAT_CLOCK_SKEW_MS /\
      (forall l, last_seq tracker peer = Some l -> l < seq hb) /\
      last_seq tracker' peer = Some (seq hb) /\
      forall other, other <> peer -> tracker' !! other = tracker !! other
  | _ => tracker' = tracker
  end.
Proof.
  unfold accept_control_message. intros Ha. destruct input as [hb| |]; [|by injection Ha as <- <- _..].
  destruct (table !! operator_id hb) as [expected|] eqn:Et; [|by injection Ha as <- <- _].
  destruct (parse (peer_id hb)) as [peer|] eqn:Ep; [|by injection Ha as <- <- _].
  destruct (verify_heartbeat _ _ _ _) as [[]|e] eqn:Ev; injection Ha as <- <- _; [|done].
  apply verify_heartbeat_ok in Ev as (Hskew & Hseq & Heq & pk & sig & Hpk & Hsig & Hs).
  exists hb, peer. split; [done|]. split; [done|]. split; [exists expected, pk, sig; auto|].
  split; [done|]. split; [done|]. unfold last_seq, note_heartbeat. split.
  - by rewrite lookup_insert_eq.
  - intros other Hne. by rewrite lookup_insert_ne.
Qed.

Definition demo_key : bytes := replicate 32 5.
Definition demo_pk : str := hex_encode (verifying_key demo_key).
Definition demo_hb (seq : Z) : Heartbeat := heartbeat_new (lit "op-1") (lit "peer-1") seq 50000 demo_key.
Definition demo_table : gmap str str := <[lit "op-1" := demo_pk]> (∅ : gmap str str).

Lemma demo_accepted :
  (accept_control_message Some demo_table 60000 7 (IsHeartbeat (demo_hb 4)) ∅).1.1 = Accept.
Proof. vm_compute. reflexivity. Qed.

Lemma accept_heartbeat_sound_witness :
  exists tracker' effects,
    accept_control_message Some demo_table 60000 7 (IsHeartbeat (demo_hb 4)) ∅ = (Accept, tracker', effects) /\
    exists hb peer, IsHeartbeat (demo_hb 4) = IsHeartbeat hb /\ Some (peer_id hb) = Some peer /\
      announced_signature demo_table hb /\ last_seq tracker' peer = Some (seq hb).
Proof.
  pose proof demo_accepted as Hv.
  destruct (accept_control_message Some demo_table 60000 7 (IsHeartbeat (demo_hb 4)) ∅)
    as [[v tracker'] effects] eqn:E. cbn [fst] in Hv. subst v.
  destruct (accept_heartbeat_sound _ _ _ _ _ _ _ _ _ E) as (hb & peer & H1 & H2 & H3 & _ & _ & H4 & _).
  exists tracker', effects. split; [reflexivity|]. eauto 8.
Defined.

(** ** A member can speak for another member's peer identity

    The handler does not compare the claimed peer identity with the one the
    operator announced: a heartbeat of one enrolled operator that names another
    operator's peer is accepted, and its sequence number then makes the honest
    peer's own heartbeats stale. *)
Definition mallory_key : bytes := replicate 32 6.
Definition two_members : gmap str str :=
  <[lit "mallory" := hex_encode (verifying_key mallory_key)]> demo_table.
Theorem heartbeat_peer_takeover :
  let forged := heartbeat_new (lit "mallory") (lit "peer-1") u64_max 50000 mallory_key in
  let '(verdict, tracker, _) := accept_control_message Some two_members 50000 0 (IsHeartbeat forged) ∅ in
  verdict = Accept /\
  accept_control_message Some two_members 50000 1 (IsHeartbeat (demo_hb 4)) tracker
  = (Reject, tracker, [HeartbeatDropped "stale_seq"]).
Proof. vm_compute. auto. Qed.

(** ** Theorems on repair planning

    A repair plan is a rendezvous selection: the lowest-scored holder pushes to the
    lowest-scored live peers that lack the object, and every node with the same
    view computes the same plan whatever order it lists its peers in. *)

Lemma bytes_le_total a : forall b, bytes_le a b = false -> bytes_le b a = true.
Proof.
  induction a as [|x a IH]; intros [|y b] H; cbn in *; try done. apply orb_false_iff in H as [Hlt H].
  destruct (Z.eqb_spec x y) as [->|Hne].
  { apply orb_true_iff. right. rewrite Z.eqb_refl. by apply IH. }
  apply orb_true_iff. left. apply Z.ltb_ge in Hlt. apply Z.ltb_lt. lia.
Qed.
Lemma bytes_le_trans a : forall b c, bytes_le a b = true -> bytes_le b c = true -> bytes_le a c = true.
Proof.
  induction a as [|x a IH]; intros [|y b] [|z c] H1 H2; cbn in *; try done.
  rewrite orb_true_iff, andb_true_iff, Z.ltb_lt, Z.eqb_eq in *.
  destruct H1 as [H1|[-> H1]], H2 as [H2|[-> H2]]; try (left; lia). right. eauto.
Qed.
Lemma bytes_le_anti a : forall b, bytes_le a b = true -> bytes_le b a = true -> a = b.
Proof.
  induction a as [|x a IH]; intros [|y b] H1 H2; cbn in *; try done.
  rewrite orb_true_iff, andb_true_iff, Z.ltb_lt, Z.eqb_eq in *.
  destruct H1 as [H1|[-> H1]], H2 as [H2|[? H2]]; try lia. f_equal. by apply IH.
Qed.

Lemma scored_le_total a b : scored_le a b = false -> scored_le b a = true.
Proof.
  unfold scored_le. destruct (decide (a.1 = b.1)) as [E|E].
  - rewrite !bool_decide_true by done. apply bytes_le_total.
  - rewrite !bool_decide_false by done. apply bytes_le_total.
Qed.
Lemma scored_le_trans a b c : scored_le a b = true -> scored_le b c = true -> scored_le a c = true.
Proof.
  unfold scored_le. intros Hab Hbc. case_bool_decide as Eab; case_bool_decide as Ebc.
  - rewrite bool_decide_true by congruence. by eapply bytes_le_trans.
  - rewrite bool_decide_false by congruence. congruence.
  - rewrite bool_decide_false by congruence. congruence.
  - case_bool_decide as Eac; [|by eapply bytes_le_trans].
    destruct Eab. apply bytes_le_anti; congruence.
Qed.
Lemma scored_le_anti a b : scored_le a b = true -> scored_le b a = true -> a = b.
Proof.
  destruct a as [s p], b as [s' p']. unfold scored_le. cbn [fst snd]. intros H1 H2.
  destruct (decide (s = s')) as [->|E].
  - rewrite !bool_decide_true in * by done. f_equal. by apply bytes_le_anti.
  - rewrite !bool_decide_false in * by done. destruct E. by apply bytes_le_anti.
Qed.

(** ** Selection *)

Section Plan.
Context {SH : Sha256}.

Definition rank (cid peer : bytes) : bytes * bytes := (score cid peer, peer).
(** [p] is at least as close to the object as [q] in the rendezvous order. *)
Definition closer (cid p q : bytes) : Prop := scored_le (rank cid p) (rank cid q) = true.
Definition candidates (holders live : list bytes) : list bytes := filter (fun p => p ∉ holders) live.
Definition ranked (cid : bytes) (peers : list bytes) : list bytes := snd <$> scored cid peers.

Lemma scored_perm cid peers : scored cid peers ≡ₚ rank cid <$> peers.
Proof. apply sort_perm. Qed.
Lemma ranked_perm cid peers : ranked cid peers ≡ₚ peers.
Proof.
  unfold ranked. rewrite scored_perm, <-list_fmap_compose. cbn. by rewrite list_fmap_id.
Qed.
Lemma scored_ranked cid peers : scored cid peers = rank cid <$> ranked cid peers.
Proof.
  unfold ranked. rewrite <-list_fmap_compose. symmetry. etrans; [|apply list_fmap_id].
  apply list_fmap_ext. intros i [s p] Hp. apply list_elem_of_lookup_2 in Hp.
  rewrite scored_perm in Hp. apply list_elem_of_fmap in Hp as (q & [= -> ->] & _). done.
Qed.
Lemma ranked_sorted cid peers : StronglySorted (closer cid) (ranked cid peers).
Proof.
  pose proof (sort_strongly_sorted scored_le scored_le_total scored_le_trans (rank cid <$> peers)) as H.
  change (sort _ _) with (scored cid peers) in H. rewrite scored_ranked in H.
  induction (ranked cid peers) as [|p l IH]; [constructor|]. inversion_clear H. constructor; [auto|].
  by rewrite Forall_fmap in *.
Qed.
Lemma ranked_perm_eq cid l1 l2 : l1 ≡ₚ l2 -> ranked cid l1 = ranked cid l2.
Proof.
  intros Hp. unfold ranked, scored. f_equal.
  apply sort_perm_eq; [apply scored_le_total|apply scored_le_trans|apply scored_le_anti|].
  by rewrite Hp.
Qed.

(** The plan in terms of ranked peers. *)
Lemma plan_repair_ranked cid holders live target :
  plan_repair cid holders live target =
  match ranked cid holders, ranked cid (candidates holders live) with
  | p :: _, (_ :: _) as cs =>
      if blen holders <? target
      then Some {| pusher := p; recipients := take (Z.to_nat (target - blen holders)) cs |}
      else None
  | _, _ => None
  end.
Proof.
  unfold plan_repair. fold (candidates holders live).
  pose proof (ranked_perm cid holders) as Hh. rewrite !scored_ranked.
  destruct holders as [|h holders].
  { apply Permutation_nil_r in Hh. rewrite Hh. by rewrite orb_true_r. }
  destruct (ranked cid (h :: holders)) as [|p ps]; [by apply Permutation_nil_cons in Hh|].
  destruct (ranked cid (candidates _ _)) as [|c cs]; rewrite !fmap_cons || rewrite fmap_nil.
  { cbn [rank]. by destruct (_ || _). }
  assert (Hguard : (target =? 0) || false || (blen (h :: holders) >=? target)
                   = negb (blen (h :: holders) <? target)).
  { rewrite orb_false_r, Z.geb_leb, Z.leb_antisym. destruct (Z.eqb_spec target 0) as [->|]; [|done].
    symmetry. apply negb_true_iff, Z.ltb_ge. unfold blen. lia. }
  rewrite Hguard. destruct (blen (h :: holders) <? target); [|done]. cbn [negb].
  unfold rank at 1. do 2 f_equal. rewrite <-fmap_cons, <-fmap_take, <-list_fmap_compose. apply list_fmap_id.
Qed.

Lemma ranked_nil cid peers : ranked cid peers = [] -> peers = [].
Proof. intros E. pose proof (ranked_perm cid peers) as Hp. rewrite E in Hp. by apply Permutation_nil_l in Hp. Qed.
Lemma ranked_head cid peers p ps : ranked cid peers = p :: ps ->
  p ∈ peers /\ forall q, q ∈ peers -> q = p \/ closer cid p q.
Proof.
  intros E. pose proof (ranked_perm cid peers) as Hp. pose proof (ranked_sorted cid peers) as Hs.
  rewrite E in Hp, Hs. split; [rewrite <-Hp; by left|]. intros q. rewrite <-Hp.
  inversion_clear Hs as [|? ? _ Hall]. rewrite elem_of_cons. rewrite Forall_forall in Hall. intuition.
Qed.
Lemma sorted_take_before {A} (R : A -> A -> Prop) n l : StronglySorted R l ->
  forall r c, r ∈ take n l -> c ∈ drop n l -> R r c.
Proof.
  intros Hs. revert n. induction Hs as [|x l Hs IH Hall]; intros [|n] r c; cbn; try (by rewrite ?elem_of_nil).
  rewrite elem_of_cons. intros [->|Hr] Hc; [|by eapply IH].
  rewrite Forall_forall in Hall. apply Hall. rewrite <-(take_drop n l). apply elem_of_app. by right.
Qed.
Lemma take_ranked cid peers n r c : r ∈ take n (ranked cid peers) ->
  c ∈ peers -> c ∉ take n (ranked cid peers) -> closer cid r c.
Proof.
  intros Hr Hc Hnc. eapply (sorted_take_before _ n); [apply ranked_sorted|done|].
  rewrite <-(ranked_perm cid peers), <-(take_drop n (ranked cid peers)), elem_of_app in Hc. naive_solver.
Qed.

(** Without a plan there is nothing to do: no holder, the target reached, or
    every live peer a holder.  A plan names the holder closest to the object as
    the pusher, and as recipients distinct live peers that lack the object: as
    many as are missing or exist, each closer than every peer left out. *)
Theorem plan_repair_rendezvous cid holders live target :
  NoDup live ->
  match plan_repair cid holders live target with
  | None => holders = [] \/ target <= blen holders \/ candidates holders live = []
  | Some plan =>
      blen holders < target /\ pusher plan ∈ holders /\
      (forall h, h ∈ holders -> h = pusher plan \/ closer cid (pusher plan) h) /\
      NoDup (recipients plan) /\ recipients plan ⊆ candidates holders live /\
      blen (recipients plan) = Z.min (target - blen holders) (blen (candidates holders live)) /\
      (forall r c, r ∈ recipients plan -> c ∈ candidates holders live -> c ∉ recipients plan -> closer cid r c)
  end.
Proof.
  intros Hlive. rewrite plan_repair_ranked. pose proof (ranked_perm cid (candidates holders live)) as Hc.
  assert (Hnd : NoDup (ranked cid (candidates holders live))) by (rewrite Hc; by apply NoDup_filter).
  destruct (ranked cid holders) as [|p ps] eqn:Eh; [left; by eapply ranked_nil|].
  destruct (ranked_head _ _ _ _ Eh) as [Hp Hmin].
  destruct (ranked cid (candidates holders live)) as [|c cs] eqn:Ec; [right; right; by eapply ranked_nil|].
  destruct (Z.ltb_spec (blen holders) target) as [Hlt|]; [|auto]. cbn [pusher recipients]. rewrite <-Ec in *.
  split; [done|]. split; [done|]. split; [done|]. split; [|split; [|split]].
  - eapply sublist_NoDup; [done|apply sublist_take].
  - intros r Hr. rewrite <-Hc. by eapply subseteq_take.
  - unfold blen in *. rewrite length_take, Hc. lia.
  - intros r q. apply take_ranked.
Qed.

(** The plan depends on the sets of holders and live peers, not on the order
    in which a node lists them, so every node with the same view computes the same
    pusher and recipients. *)
Theorem plan_repair_view cid holders holders' live live' target :
  holders ≡ₚ holders' -> live ≡ₚ live' ->
  plan_repair cid holders live target = plan_repair cid holders' live' target.
Proof.
  intros Hh Hl. rewrite !plan_repair_ranked.
  assert (Hc : candidates holders live ≡ₚ candidates holders' live').
  { unfold candidates. rewrite Hl. erewrite list_filter_iff; [done|]. intros x. cbn. by rewrite Hh. }
  rewrite (ranked_perm_eq _ _ _ Hh), (ranked_perm_eq _ _ _ Hc). unfold blen. by rewrite (Permutation_length Hh).
Qed.
End Plan.

Definition peer_n (n : Z) : bytes := [n; n + 1].
Lemma plan_repair_rendezvous_witness :
  NoDup [peer_n 1; peer_n 2; peer_n 3; peer_n 4] /\
  exists plan, plan_repair [9] [peer_n 1] [peer_n 1; peer_n 2; peer_n 3; peer_n 4] 3 = Some plan /\
    pusher plan = peer_n 1 /\ blen (recipients plan) = 2.
Proof.
  assert (HN : NoDup [peer_n 1; peer_n 2; peer_n 3; peer_n 4]) by (apply (bool_decide_unpack _); vm_compute; exact I).
  split; [exact HN|].
  pose proof (plan_repair_rendezvous [9] [peer_n 1] _ 3 HN) as H.
  destruct (plan_repair [9] [peer_n 1] _ 3) as [plan|].
  - destruct H as (_ & Hp & _ & _ & _ & Hlen & _). exists plan. split; [reflexivity|].
    split; [by apply list_elem_of_singleton in Hp|]. rewrite Hlen. reflexivity.
  - destruct H as [H|[H|H]]; [discriminate H|vm_compute in H; by destruct H|discriminate H].
Defined.
Lemma plan_repair_view_witness :
  plan_repair [9] [peer_n 1; peer_n 5] [peer_n 1; peer_n 2; peer_n 3] 3
  = plan_repair [9] [peer_n 5; peer_n 1] [peer_n 2; peer_n 1; peer_n 3] 3.
Proof. apply plan_repair_view; apply Permutation_swap. Defined.
