(* ===== verification/AuditChainTheory.v ===== *)
(** * Theorems on the audit chain

    The digest preimage is injective, so a verified head fixes every verified
    row; every history whose clock does not run backwards verifies, for every
    tenant; a clock that steps back breaks the chain; and walking the paged export
    gives exactly the whole verified chain. *)

From stdpp Require Import sorting.
From S2P Require Import Prelude Sorting Primitives SamplePrimitives Redact AuditChain.

(** ** The preimage is injective *)

Definition text_ok (b : bytes) : Prop := blen b <= u64_max.
Definition opt_ok (o : option bytes) : Prop := forall b, o = Some b -> text_ok b.
Definition is_i64 (z : Z) : Prop := - (i64_max + 1) <= z <= i64_max.

Lemma be8_inj a b : is_u64 a -> is_u64 b -> to_be_bytes 8 a = to_be_bytes 8 b -> a = b.
Proof. unfold is_u64, u64_max. intros ??. apply to_be_bytes_inj; cbn; lia. Qed.
Lemma text_u64 b : text_ok b -> is_u64 (blen b).
Proof. unfold text_ok, is_u64. pose proof (blen_nonneg b). lia. Qed.
Lemma wrap64_u64 z : is_u64 (wrap64 z).
Proof. unfold wrap64, is_u64, u64_max. pose proof (Z.mod_pos_bound z 18446744073709551616). lia. Qed.
Lemma wrap64_i64_inj a b : is_i64 a -> is_i64 b -> wrap64 a = wrap64 b -> a = b.
Proof.
  unfold is_i64, i64_max, wrap64. intros Ha Hb H.
  rewrite (Z.div_mod a 18446744073709551616), (Z.div_mod b 18446744073709551616), H by lia.
  rewrite (Z.div_mod a 18446744073709551616), H in Ha by lia.
  rewrite (Z.div_mod b 18446744073709551616) in Hb by lia.
  pose proof (Z.mod_pos_bound b 18446744073709551616). nia.
Qed.

Lemma push_field_inj a b r s : text_ok a -> text_ok b ->
  push_field a ++ r = push_field b ++ s -> a = b /\ r = s.
Proof.
  unfold push_field. rewrite <-!(assoc (++)). intros Ha Hb H.
  apply app_inj_1 in H as [Hlen H]; [|by rewrite !length_to_be_bytes].
  apply be8_inj in Hlen; [|by apply text_u64..]. apply app_inj_1 in H; [done|]. unfold blen in Hlen. lia.
Qed.
Lemma push_opt_inj a b r s : opt_ok a -> opt_ok b -> push_opt a ++ r = push_opt b ++ s -> a = b /\ r = s.
Proof.
  intros Ha Hb. destruct a as [a|], b as [b|]; intros H; try discriminate H; apply (f_equal tail) in H;
    cbn [push_opt app tail] in H; [|done].
  apply push_field_inj in H as [-> ->]; auto.
Qed.
Lemma push_version_inj a b r s :
  (forall v, a = Some v -> is_i64 v) -> (forall v, b = Some v -> is_i64 v) ->
  push_version a ++ r = push_version b ++ s -> a = b /\ r = s.
Proof.
  intros Ha Hb. destruct a as [a|], b as [b|]; intros H; try discriminate H; apply (f_equal tail) in H;
    cbn [push_version app tail] in H; [|done].
  apply app_inj_1 in H as [H ->]; [|by rewrite !length_to_be_bytes].
  apply be8_inj, wrap64_i64_inj in H; auto using wrap64_u64. by subst.
Qed.

Definition fields_ok (f : ChainFields) : Prop :=
  Forall text_ok [cf_prev f; cf_event_type f; cf_tenant_id f; cf_principal_id f; cf_request_id f;
                  cf_source f; cf_result f; cf_reason f] /\
  Forall opt_ok [cf_project_id f; cf_environment_id f; cf_secret_id f] /\
  (forall v, cf_secret_version f = Some v -> is_i64 v) /\ is_u64 (cf_now f).

Lemma chain_preimage_inj f g : fields_ok f -> fields_ok g -> chain_preimage f = chain_preimage g -> f = g.
Proof.
  intros (Ft & Fo & Fv & Fn) (Gt & Go & Gv & Gn) H.
  rewrite !Forall_cons in Ft. rewrite !Forall_cons in Gt. rewrite !Forall_cons in Fo. rewrite !Forall_cons in Go.
  destruct Ft as (?&?&?&?&?&?&?&?&_), Gt as (?&?&?&?&?&?&?&?&_), Fo as (?&?&?&_), Go as (?&?&?&_).
  unfold chain_preimage in H. apply app_inj_1 in H as [_ H]; [|done].
  do 3 (apply push_field_inj in H as [? H]; [|done..]). do 3 (apply push_opt_inj in H as [? H]; [|done..]).
  apply push_version_inj in H as [? H]; [|done..]. do 5 (apply push_field_inj in H as [? H]; [|done..]).
  apply be8_inj in H; [|done..]. destruct f, g; cbn in *. by subst.
Qed.
Lemma chain_digest_inj {SH : Sha256} f g : fields_ok f -> fields_ok g ->
  chain_digest f = chain_digest g -> f = g \/ sha256_collision.
Proof.
  intros Hf Hg H. destruct (decide (chain_preimage f = chain_preimage g)) as [E|E].
  - left. by apply chain_preimage_inj.
  - right. by exists (chain_preimage f), (chain_preimage g).
Qed.

(** ** A verified head fixes the rows *)

Section Chain.
Context {SH : Sha256} {J : Json}.

Lemma row_linkage_ok_spec row running : row_linkage_ok row running = true <->
  prev_hash row = running /\ exists p, principal_from_actor (actor_json row) = Some p /\
    event_hash row = chain_digest (fields_of p running row).
Proof.
  unfold row_linkage_ok. rewrite andb_true_iff, !bool_decide_eq_true.
  destruct (principal_from_actor _) as [p|]; cbn [fmap option_fmap option_map].
  - split; [intros [H1 [= H2]]; eauto|]. by intros (? & p' & [= <-] & ->).
  - split; [by intros [_ ?]|]. by intros (_ & p' & ? & _).
Qed.

Lemma verify_rows_snoc rows row r h :
  verify_rows (rows ++ [row]) r = (h, None) <->
  exists m, verify_rows rows r = (m, None) /\ row_linkage_ok row m = true /\ h = event_hash row.
Proof.
  revert r. induction rows as [|x rest IH]; intros r; cbn.
  - destruct (row_linkage_ok row r) eqn:E; split.
    + intros [= <-]. eauto.
    + intros (m & [= <-] & _ & ->). done.
    + done.
    + intros (m & [= <-] & Hm & _). congruence.
  - destruct (row_linkage_ok x r); [apply IH|]. split; [done|]. by intros (m & ? & _).
Qed.

Lemma verify_rows_prefix rows rest r h : verify_rows (rows ++ rest) r = (h, None) ->
  exists m, verify_rows rows r = (m, None).
Proof.
  revert r. induction rows as [|x rows IH]; intros r; cbn; [eauto|]. by destruct (row_linkage_ok x r); [apply IH|].
Qed.

(** Everything of a row that the chain covers: all columns but the event
    identifier, the actor by its principal. *)
Definition covered (row : AuditRow) : option bytes * ChainFields * bytes :=
  (principal_from_actor (actor_json row),
   {| cf_prev := prev_hash row; cf_event_type := event_type row; cf_tenant_id := tenant_id row;
      cf_project_id := project_id row; cf_environment_id := environment_id row;
      cf_secret_id := secret_id row; cf_secret_version := secret_version row;
      cf_principal_id := []; cf_request_id := request_id row; cf_source := source row;
      cf_result := result_ row; cf_reason := reason row; cf_now := created_at_utc row |},
   event_hash row).

(** Column values fit their types: texts in memory, integers in an [i64]. *)
Definition row_ok (row : AuditRow) : Prop :=
  Forall text_ok [prev_hash row; event_type row; tenant_id row; request_id row; source row; result_ row; reason row] /\
  Forall opt_ok [project_id row; environment_id row; secret_id row; principal_from_actor (actor_json row)] /\
  (forall v, secret_version row = Some v -> is_i64 v) /\ is_i64 (created_at_utc row).

Lemma fields_of_ok p row : row_ok row -> principal_from_actor (actor_json row) = Some p ->
  fields_ok (fields_of p (prev_hash row) row).
Proof.
  intros (Ht & Ho & Hv & Hc) Hp. rewrite !Forall_cons in Ht. rewrite !Forall_cons in Ho.
  split; [|split; [|split]]; [| |done|apply wrap64_u64]; rewrite !Forall_cons; cbn.
  - destruct Ho as (_ & _ & _ & Ho & _). specialize (Ho p Hp). tauto.
  - tauto.
Qed.

Lemma linked_rows_covered row row' m m' : row_ok row -> row_ok row' ->
  row_linkage_ok row m = true -> row_linkage_ok row' m' = true -> event_hash row = event_hash row' ->
  (covered row = covered row' /\ m = m') \/ sha256_collision.
Proof.
  intros Hok Hok' H H' E. apply row_linkage_ok_spec in H as (<- & p & Hp & Hd).
  apply row_linkage_ok_spec in H' as (<- & p' & Hp' & Hd'). rewrite Hd, Hd' in E.
  apply chain_digest_inj in E as [E|E]; [|by right|by apply fields_of_ok..].
  injection E. intros Hnow ? ? ? ? Hpp. intros. left. split; [|done].
  apply wrap64_i64_inj in Hnow; [|by apply Hok|by apply Hok'].
  unfold covered. rewrite Hp, Hp', Hpp, Hd, Hd', E. f_equal. f_equal. by f_equal.
Qed.

Lemma verified_rows_bound rows rows' h : Forall row_ok rows -> Forall row_ok rows' ->
  verify_rows rows GENESIS_HASH = (h, None) -> verify_rows rows' GENESIS_HASH = (h, None) ->
  covered <$> rows = covered <$> rows' \/ sha256_collision \/ exists x, sha256 x = GENESIS_HASH.
Proof.
  revert rows' h. induction rows as [|row rows IH] using rev_ind; intros rows' h Hok Hok' H H';
    destruct rows' as [|row' rows' _] using rev_ind.
  - by left.
  - apply verify_rows_snoc in H' as (m & _ & Hl & ->). injection H as Hh.
    apply row_linkage_ok_spec in Hl as (_ & p & _ & Hd). right; right. eexists. by rewrite Hh, Hd.
  - apply verify_rows_snoc in H as (m & _ & Hl & ->). injection H' as Hh.
    apply row_linkage_ok_spec in Hl as (_ & p & _ & Hd). right; right. eexists. by rewrite Hh, Hd.
  - apply verify_rows_snoc in H as (m & Hm & Hl & ->). apply verify_rows_snoc in H' as (m' & Hm' & Hl' & E).
    apply Forall_app in Hok as [Hok [Hr _]%Forall_cons], Hok' as [Hok' [Hr' _]%Forall_cons].
    destruct (linked_rows_covered _ _ _ _ Hr Hr' Hl Hl' E) as [[Hc <-]|]; [|by right; left].
    destruct (IH rows' m Hok Hok' Hm Hm') as [Hrest|]; [|by right].
    left. by rewrite !fmap_app, Hrest; cbn; rewrite Hc.
Qed.
End Chain.

(** ** Appending *)

Section Append.
Context {SH : Sha256} {J : Json} {JL : JsonLaws J}.

Lemma created_le_total a b : created_le a b = false -> created_le b a = true.
Proof. unfold created_le. lia. Qed.
Lemma created_le_trans a b c : created_le a b = true -> created_le b c = true -> created_le a c = true.
Proof. unfold created_le. lia. Qed.

Lemma tenant_rows_snoc tenant table row :
  tenant_rows tenant (table ++ [row]) =
  if decide (tenant_id row = tenant) then insert_after created_le row (tenant_rows tenant table)
  else tenant_rows tenant table.
Proof.
  unfold tenant_rows. rewrite filter_app, filter_cons, filter_nil. destruct (decide _).
  - by apply sort_snoc; [apply created_le_total|apply created_le_trans].
  - by rewrite app_nil_r.
Qed.
Lemma elem_tenant_rows tenant table row :
  row ∈ tenant_rows tenant table <-> tenant_id row = tenant /\ row ∈ table.
Proof. unfold tenant_rows. by rewrite sort_perm, list_elem_of_filter. Qed.

Lemma verified_head rows h : verify_rows rows GENESIS_HASH = (h, None) ->
  h = default GENESIS_HASH (event_hash <$> last rows).
Proof.
  destruct rows as [|row rows _] using rev_ind; [by intros [= <-]|]. rewrite last_snoc.
  by intros (m & _ & _ & ->)%verify_rows_snoc.
Qed.

Lemma verify_chain_valid table tenant : valid (verify_chain table tenant) = true <->
  exists h, verify_rows (tenant_rows tenant table) GENESIS_HASH = (h, None).
Proof.
  unfold verify_chain. destruct (verify_rows _ _) as [h [bad|]]; cbn.
  - split; [done|]. by intros [? ?].
  - split; eauto.
Qed.

Lemma audit_secret_event_ok id event now table table' :
  audit_secret_event id event now table = Ok table' ->
  exists row, table' = table ++ [row] /\ tenant_id row = ev_tenant_id event /\ created_at_utc row = now /\
    now <= i64_max /\ event_id row = id /\ (id ∉ event_id <$> table) /\
    prev_hash row = default GENESIS_HASH (event_hash <$> last (tenant_rows (ev_tenant_id event) table)) /\
    (0 <= now -> row_linkage_ok row (prev_hash row) = true).
Proof.
  unfold audit_secret_event. intros H. apply bail_ok in H as (Hn & H). apply bail_ok in H as (Hc & [= <-]).
  eexists. split; [done|]. cbn [tenant_id created_at_utc event_id prev_hash]. rewrite Z.gtb_ltb in Hn. apply Z.ltb_ge in Hn.
  apply orb_false_iff in Hc as [_ Hid]. apply bool_decide_eq_false in Hid.
  do 6 (split; [done|]). intros H0. apply row_linkage_ok_spec. split; [done|].
  exists (ev_principal_id event). cbn [actor_json event_hash]. unfold principal_from_actor.
  rewrite json_member_roundtrip. split; [done|]. unfold fields_of. cbn. do 2 f_equal.
  unfold wrap64, i64_max in *. symmetry. apply Z.mod_small. lia.
Qed.

(** Events recorded under a clock that does not run backwards. *)
Inductive log_history : Z -> AuditTable -> Prop :=
| log_empty now : log_history now []
| log_append now table id event now' table' : log_history now table -> now <= now' -> 0 <= now' ->
    audit_secret_event id event now' table = Ok table' -> log_history now' table'.

Lemma log_history_inv now table : log_history now table ->
  Forall (fun row => created_at_utc row <= now) table /\
  forall tenant, valid (verify_chain table tenant) = true.
Proof.
  induction 1 as [now|now table id event now' table' _ [Hle Hv] Hnow H0 Ha]; [by split|].
  apply audit_secret_event_ok in Ha as (row & -> & Ht & Hc & _ & _ & _ & Hp & Hl). split.
  { apply Forall_app. split; [|rewrite Forall_singleton; lia]. eapply Forall_impl; [done|]. cbn. lia. }
  intros tenant. apply verify_chain_valid. rewrite tenant_rows_snoc. destruct (decide _) as [Et|_].
  2:{ by apply verify_chain_valid. }
  rewrite insert_after_last.
  2:{ intros y Hy. apply elem_tenant_rows in Hy as [_ Hy]. rewrite Forall_forall in Hle. specialize (Hle y Hy).
      unfold created_le. lia. }
  destruct (proj1 (verify_chain_valid _ _) (Hv tenant)) as [h Hh]. exists (event_hash row).
  apply verify_rows_snoc. exists h. split; [done|]. split; [|done].
  apply verified_head in Hh as ->. rewrite <-Et, Ht, <-Hp. auto.
Qed.
End Append.

(** ** The event identifier is not covered *)

Definition with_event_id (f : bytes -> bytes) (row : AuditRow) : AuditRow :=
  {| event_id := f (event_id row); event_type := event_type row; tenant_id := tenant_id row;
     project_id := project_id row; environment_id := environment_id row; secret_id := secret_id row;
     secret_version := secret_version row; actor_json := actor_json row; request_id := request_id row;
     source := source row; result_ := result_ row; reason := reason row; prev_hash := prev_hash row;
     event_hash := event_hash row; created_at_utc := created_at_utc row |}.

Lemma verify_rows_with_id `{Sha256, Json} f rows : forall r,
  verify_rows (with_event_id f <$> rows) r = prod_map id (fmap f) (verify_rows rows r).
Proof.
  induction rows as [|row rest IH]; intros r; [done|]. cbn [fmap list_fmap verify_rows].
  change (row_linkage_ok (with_event_id f row) r) with (row_linkage_ok row r).
  destruct (row_linkage_ok row r); [apply IH|done].
Qed.
(** Renaming every event leaves the verdict and the head as they were. *)
Theorem event_id_uncovered `{Sha256, Json} f table tenant :
  valid (verify_chain (with_event_id f <$> table) tenant) = valid (verify_chain table tenant) /\
  head_hash (verify_chain (with_event_id f <$> table) tenant) = head_hash (verify_chain table tenant).
Proof.
  assert (tenant_rows tenant (with_event_id f <$> table) = with_event_id f <$> tenant_rows tenant table) as E.
  { unfold tenant_rows. rewrite filter_fmap, sort_fmap. done. }
  unfold verify_chain. rewrite E, verify_rows_with_id. by destruct (verify_rows _ _) as [h [b|]].
Qed.

(** ** Walking the paged export *)

Section Paging.
Context {SH : Sha256} {J : Json} (render : AuditRow -> bytes).

(** A table row with its rowid, and the export order. *)
Abbreviation indexed := (nat * AuditRow)%type.
Definition lex (a b : indexed) : Prop :=
  created_at_utc a.2 < created_at_utc b.2 \/ (created_at_utc a.2 = created_at_utc b.2 /\ (a.1 < b.1)%nat).
Definition indexed_rows (tenant : bytes) (table : AuditTable) : list indexed :=
  sort (fun a b => created_le a.2 b.2) (filter (fun r => tenant_id r.2 = tenant) (enumerate table)).

Lemma enumerate_snd {A} (l : list A) : snd <$> enumerate l = l.
Proof.
  unfold enumerate. rewrite fmap_imap. etrans; [|apply list_fmap_id]. apply (imap_const id).
Qed.
Lemma indexed_rows_snd tenant table : snd <$> indexed_rows tenant table = tenant_rows tenant table.
Proof.
  unfold indexed_rows, tenant_rows. rewrite <-(enumerate_snd table) at 2.
  by rewrite filter_fmap, sort_fmap.
Qed.

Lemma insert_lex (x : indexed) l : StronglySorted lex l -> Forall (fun y => (x.1 < y.1)%nat) l ->
  StronglySorted lex (insert_sorted (fun a b => created_le a.2 b.2) x l).
Proof.
  induction 1 as [|y l Hs IH Hy]; cbn; intros Hx; [by repeat constructor|].
  apply Forall_cons in Hx as [Hxy Hx]. unfold created_le at 1. destruct (_ <=? _) eqn:E.
  - assert (lex x y) as Hl by (unfold lex; lia). constructor; [by constructor|]. constructor; [done|].
    rewrite !Forall_forall in *. intros z Hz. specialize (Hy z Hz). specialize (Hx z Hz). unfold lex in *. lia.
  - constructor; [auto|]. rewrite insert_sorted_perm, Forall_cons. split; [unfold lex; lia|done].
Qed.
Lemma sort_lex l : StronglySorted (fun a b : indexed => (a.1 < b.1)%nat) l ->
  StronglySorted lex (sort (fun a b => created_le a.2 b.2) l).
Proof.
  induction 1 as [|x l Hs IH Hx]; [constructor|].
  refine (insert_lex x (sort (fun a b => created_le a.2 b.2) l) IH _). by rewrite sort_perm.
Qed.
Lemma enumerate_sorted {A} (l : list A) : StronglySorted (fun a b => (a.1 < b.1)%nat) (enumerate l).
Proof.
  unfold enumerate. assert (forall n, StronglySorted (fun a b => (a.1 < b.1)%nat) (imap (fun i x => ((n + i)%nat, x)) l)) as H;
    [|apply (H 0%nat)].
  induction l as [|x l IH]; intros n; [constructor|]. cbn. constructor.
  - erewrite imap_ext; [apply (IH (S n))|]. intros i y _. cbn. f_equal. lia.
  - apply Forall_forall. intros y (i & z & -> & _)%elem_of_lookup_imap. cbn. lia.
Qed.
Lemma indexed_rows_lex tenant table : StronglySorted lex (indexed_rows tenant table).
Proof. apply sort_lex, filter_strongly_sorted, enumerate_sorted. Qed.

Lemma past_lex (a b : indexed) : past (created_at_utc a.2, a.1) b = true <-> lex a b.
Proof. unfold past, lex. cbn [fst snd]. rewrite Z.gtb_ltb. rewrite orb_true_iff, andb_true_iff, Z.ltb_lt, Z.eqb_eq, Nat.ltb_lt. lia. Qed.
Lemma filter_after (l1 l2 : list indexed) r : StronglySorted lex (l1 ++ r :: l2) ->
  filter (fun q => past (created_at_utc r.2, r.1) q = true) (l1 ++ r :: l2) = l2.
Proof.
  intros Hs. rewrite filter_app, filter_cons. rewrite decide_False by (rewrite past_lex; unfold lex; lia).
  apply StronglySorted_app in Hs as (Hl & _ & Hr2). inversion_clear Hr2 as [|? ? _ Hr].
  rewrite (filter_none _ l1), filter_all; [done| |].
  - eapply Forall_impl; [exact Hr|]. intros q. apply past_lex.
  - apply Forall_forall. intros q Hq. rewrite past_lex. specialize (Hl q r Hq ltac:(set_solver)). unfold lex in *. lia.
Qed.

(** One page: the text of the rows and where the walk stands after them. *)
Definition lines (rows : list AuditRow) : bytes := rows ≫= (fun row => render row ++ [10]).
Lemma page_rows_spec rows : forall running out last_id emitted,
  page_rows render rows running out last_id emitted =
  match verify_rows rows running with
  | (h, None) => inr (h, out ++ lines rows,
                      match last rows with Some r => Some (event_id r) | None => last_id end, emitted + blen rows)
  | (h, Some bad) => inl (h, bad)
  end.
Proof.
  induction rows as [|row rest IH]; intros running out last_id emitted; cbn [page_rows verify_rows].
  - by rewrite app_nil_r, Z.add_0_r.
  - destruct (row_linkage_ok row running); [|done]. rewrite IH. destruct (verify_rows rest _) as [h [bad|]]; [done|].
    change (lines (row :: rest)) with ((render row ++ [10]) ++ lines rest).
    rewrite (app_assoc out (render row ++ [10])), last_cons. replace (emitted + blen (row :: rest)) with (emitted + 1 + blen rest)
      by (unfold blen; cbn [length]; lia). by destruct (last rest).
Qed.

(** The cursor that stands after the rows [l1]. *)
Definition cursor_of (l1 : list indexed) : option bytes := (fun r => event_id r.2) <$> last l1.

Lemma NoDup_fmap_eq {A B} (f : A -> B) (l : list A) x y :
  NoDup (f <$> l) -> x ∈ l -> y ∈ l -> f x = f y -> x = y.
Proof.
  intros Hn Hx Hy E. apply list_elem_of_lookup in Hx as [i Hi]. apply list_elem_of_lookup in Hy as [j Hj].
  assert (i = j) as ->; [|congruence].
  eapply (NoDup_lookup _ i j (f x) Hn); rewrite list_lookup_fmap; [by rewrite Hi|rewrite Hj; cbn; congruence].
Qed.
Lemma find_cursor tenant table r : NoDup (event_id <$> table) -> r ∈ indexed_rows tenant table ->
  find (fun q => bool_decide (tenant_id q.2 = tenant /\ event_id q.2 = event_id r.2)) (enumerate table) = Some r.
Proof.
  intros Hn Hr. unfold indexed_rows in Hr. rewrite sort_perm, list_elem_of_filter in Hr. destruct Hr as [Ht Hr].
  destruct (find _ _) as [q|] eqn:Ef.
  - apply find_some in Ef as [Hq Hb]. apply bool_decide_eq_true in Hb as [_ Hid]. apply list_elem_of_In in Hq.
    f_equal. apply (NoDup_fmap_eq (fun q : indexed => event_id q.2) (enumerate table)); [|done..].
    replace ((fun q : indexed => event_id q.2) <$> enumerate table) with (event_id <$> table); [done|].
    rewrite <-(enumerate_snd table) at 1. by rewrite <-list_fmap_compose.
  - exfalso. apply list_elem_of_In in Hr. pose proof (find_none _ _ Ef r Hr) as Hf.
    apply bool_decide_eq_false in Hf. by apply Hf.
Qed.

(** The seed and the rows of a page that starts after [l1]. *)
Lemma page_after tenant table limit (l1 l2 : list indexed) h :
  NoDup (event_id <$> table) -> 1 <= limit <= AUDIT_EXPORT_MAX_LIMIT ->
  indexed_rows tenant table = l1 ++ l2 -> verify_rows (snd <$> l1) GENESIS_HASH = (h, None) ->
  verify_and_export_audit_page render table tenant (cursor_of l1) limit =
  Ok match verify_rows (take (Z.to_nat limit) (snd <$> l2)) h with
     | (h', None) =>
         {| pg_event_count := blen (take (Z.to_nat limit) l2); pg_head_hash := h';
            pg_next_cursor := if blen l2 >? limit then cursor_of (take (Z.to_nat limit) l2) else None;
            pg_jsonl := lines (take (Z.to_nat limit) (snd <$> l2)); pg_valid := true;
            pg_first_bad_event_id := None |}
     | (h', Some bad) =>
         {| pg_event_count := 0; pg_head_hash := h'; pg_next_cursor := None; pg_jsonl := [];
            pg_valid := false; pg_first_bad_event_id := Some bad |}
     end.
Proof.
  intros Hn Hlim Hl Hv. unfold verify_and_export_audit_page.
  replace (Z.max 1 (Z.min limit AUDIT_EXPORT_MAX_LIMIT)) with limit by lia.
  assert (exists pos, match cursor_of l1 with
      | None => Ok (GENESIS_HASH, None)
      | Some id =>
          match find (fun r => bool_decide (tenant_id r.2 = tenant /\ event_id r.2 = id)) (enumerate table) with
          | Some (rowid, row) => Ok (event_hash row, Some (created_at_utc row, rowid))
          | None => Err UnknownCursor
          end
      end = Ok (h, pos) /\ rows_past tenant table pos = snd <$> l2) as (pos & -> & Hpast).
  { unfold cursor_of. destruct l1 as [|r l1 _] using rev_ind.
    - exists None. injection Hv as <-. split; [done|]. unfold rows_past.
      rewrite filter_all by (by apply Forall_forall). fold (indexed_rows tenant table). by rewrite Hl.
    - rewrite last_snoc. cbn [fmap option_fmap option_map].
      assert (r ∈ indexed_rows tenant table) as Hr by (rewrite Hl; set_solver).
      rewrite (find_cursor _ _ _ Hn Hr). destruct r as [rowid row]. rewrite fmap_app in Hv.
      apply verify_rows_snoc in Hv as (m & _ & _ & ->). eexists. split; [done|]. unfold rows_past.
      fold (indexed_rows tenant table). rewrite <-(assoc app) in Hl. cbn [app] in Hl.
      pose proof (indexed_rows_lex tenant table) as Hs. rewrite Hl in *.
      pose proof (filter_after l1 l2 (rowid, row) Hs) as Hf. cbn [fst snd] in Hf. by rewrite Hf. }
  cbn [res_bind fst snd]. rewrite Hpast, page_rows_spec. rewrite take_take.
  replace (Z.to_nat limit `min` Z.to_nat (limit + 1))%nat with (Z.to_nat limit) by lia.
  destruct (verify_rows _ h) as [h' [bad|]]; [done|]. do 2 f_equal.
  - unfold blen. rewrite !length_take, length_fmap. lia.
  - unfold blen, cursor_of. rewrite length_take, length_fmap, <-fmap_take, fmap_last.
    assert ((Z.of_nat (Z.to_nat (limit + 1) `min` length l2) >? limit) = (Z.of_nat (length l2) >? limit))
      as -> by (apply eq_true_iff_eq; rewrite !Z.gtb_lt; lia).
    by destruct (last (take _ l2)).
Qed.

(** A client that follows cursors until they disappear: the text it collects, or
    the event that breaks the chain.  [None]: out of fuel, or a cursor unknown. *)
Fixpoint export_walk (fuel : nat) (table : AuditTable) (tenant : bytes) (limit : Z) (after : option bytes)
  (collected : bytes) : option (bytes + bytes) :=
  match fuel with
  | O => None
  | S fuel' =>
      match verify_and_export_audit_page render table tenant after limit with
      | Err _ => None
      | Ok page =>
          match pg_first_bad_event_id page, pg_next_cursor page with
          | Some bad, _ => Some (inl bad)
          | None, None => Some (inr (collected ++ pg_jsonl page))
          | None, Some c => export_walk fuel' table tenant limit (Some c) (collected ++ pg_jsonl page)
          end
      end
  end.

Lemma verify_rows_app rows rest r : verify_rows (rows ++ rest) r =
  match verify_rows rows r with (m, None) => verify_rows rest m | bad => bad end.
Proof. revert r. induction rows as [|x rows IH]; intros r; cbn; [done|]. by destruct (row_linkage_ok x r). Qed.

Lemma export_walk_spec fuel : forall table tenant limit l1 l2 h collected,
  NoDup (event_id <$> table) -> 1 <= limit <= AUDIT_EXPORT_MAX_LIMIT ->
  indexed_rows tenant table = l1 ++ l2 -> verify_rows (snd <$> l1) GENESIS_HASH = (h, None) ->
  (length l2 < fuel)%nat ->
  export_walk fuel table tenant limit (cursor_of l1) collected =
  Some match (verify_rows (snd <$> l2) h).2 with
       | None => inr (collected ++ lines (snd <$> l2))
       | Some bad => inl bad
       end.
Proof.
  induction fuel as [|fuel IH]; intros table tenant limit l1 l2 h collected Hn Hlim Hl Hv Hf; [lia|].
  cbn [export_walk]. rewrite (page_after _ _ _ _ _ _ Hn Hlim Hl Hv).
  rewrite <-!fmap_take.
  assert (snd <$> l2 = (snd <$> take (Z.to_nat limit) l2) ++ (snd <$> drop (Z.to_nat limit) l2)) as ->
    by (by rewrite <-fmap_app, take_drop).
  rewrite verify_rows_app.
  destruct (verify_rows (snd <$> take _ l2) h) as [h' [bad|]] eqn:Ev; [done|]. cbn [pg_first_bad_event_id pg_next_cursor pg_jsonl].
  destruct (blen l2 >? limit) eqn:Em.
  - apply Z.gtb_lt in Em. unfold blen in Em.
    destruct (last (take (Z.to_nat limit) l2)) as [r|] eqn:El.
    2:{ apply last_None in El. apply (f_equal length) in El. rewrite length_take in El. cbn in El. lia. }
    unfold cursor_of at 1. rewrite El. cbn [fmap option_fmap option_map].
    replace (Some (event_id r.2)) with (cursor_of (l1 ++ take (Z.to_nat limit) l2))
      by (unfold cursor_of; by rewrite last_app, El).
    erewrite (IH _ _ _ _ (drop (Z.to_nat limit) l2) h'); [|done|done| | |].
    + destruct (verify_rows _ h') as [h2 [bad|]]; cbn; [done|]. unfold lines. by rewrite bind_app, (assoc app).
    + by rewrite <-(assoc app), take_drop.
    + by rewrite fmap_app, verify_rows_app, Hv.
    + rewrite length_drop. lia.
  - rewrite Z.gtb_ltb in Em. apply Z.ltb_ge in Em. unfold blen in Em.
    rewrite (drop_ge l2) by lia. rewrite fmap_nil, app_nil_r. done.
Qed.
End Paging.

(** ** Sample JSON *)

(** One-member objects only: the key length in unary, then key and text. *)
Fixpoint read_unary (s : bytes) : option (nat * bytes) :=
  match s with
  | 1 :: rest => (fun r => (S r.1, r.2)) <$> read_unary rest
  | 0 :: rest => Some (O, rest)
  | _ => None
  end.
#[global] Instance sample_json : Json := {|
  json_to_string v :=
    match v with
    | VObject [(k, VString s)] => replicate (length k) 1 ++ [0] ++ k ++ s
    | _ => []
    end;
  json_from_str t := (fun r => VObject [(take r.1 r.2, VString (drop r.1 r.2))]) <$> read_unary t;
|}.
Lemma read_unary_replicate n rest : read_unary (replicate n 1 ++ 0 :: rest) = Some (n, rest).
Proof. induction n as [|n IH]; cbn; [done|]. by rewrite IH. Qed.
#[global] Instance sample_json_laws : JsonLaws sample_json.
Proof.
  constructor. intros k s. cbn -[read_unary]. rewrite read_unary_replicate. cbn.
  by rewrite take_app_length, drop_app_length.
Qed.

(** ** The claims *)

(** C32: the audit chain is tamper evident.  Two tables whose chains of a tenant
    verify and end in the same head hash agree on every covered column of every
    row of that tenant, in number and order, unless SHA-256 collides or the
    all-zero genesis hash has a preimage. *)
Theorem audit_chain_binding {SH : Sha256} {J : Json} table table' tenant :
  Forall row_ok (tenant_rows tenant table) -> Forall row_ok (tenant_rows tenant table') ->
  valid (verify_chain table tenant) = true -> valid (verify_chain table' tenant) = true ->
  head_hash (verify_chain table tenant) = head_hash (verify_chain table' tenant) ->
  covered <$> tenant_rows tenant table = covered <$> tenant_rows tenant table' \/
  sha256_collision \/ exists x, sha256 x = GENESIS_HASH.
Proof.
  rewrite !verify_chain_valid. intros Hok Hok' [h Hh] [h' Hh']. unfold verify_chain.
  rewrite Hh, Hh'. cbn. intros <-. by eapply verified_rows_bound.
Qed.

(** Every history of recorded events under a clock that does not run
    backwards verifies for every tenant, whatever the tenants interleave: the report
    counts all the tenant's rows and its head is the hash the next event links to. *)
Theorem audit_history_verifies {SH : Sha256} {J : Json} {JL : JsonLaws J} now table tenant :
  log_history now table ->
  verify_chain table tenant =
  {| event_count := blen (filter (fun row => tenant_id row = tenant) table); valid := true;
     first_bad_event_id := None;
     head_hash := default GENESIS_HASH (event_hash <$> last (tenant_rows tenant table)) |}.
Proof.
  intros H. destruct (log_history_inv _ _ H) as [_ Hv]. specialize (Hv tenant).
  apply verify_chain_valid in Hv as [h Hh]. unfold verify_chain. rewrite Hh, (verified_head _ _ Hh).
  f_equal. unfold blen, tenant_rows. by rewrite sort_perm.
Qed.

(** A clock that steps back breaks the chain for good.  Recording an event
    with a time before that of the chain's latest event leaves a chain that no
    longer verifies, unless the latest hash repeats an earlier hash of the chain. *)
Theorem audit_clock_step_back {SH : Sha256} {J : Json} {JL : JsonLaws J} id event now table table' rows latest :
  tenant_rows (ev_tenant_id event) table = rows ++ [latest] -> now < created_at_utc latest ->
  audit_secret_event id event now table = Ok table' ->
  valid (verify_chain table' (ev_tenant_id event)) = false \/
  event_hash latest ∈ GENESIS_HASH :: (event_hash <$> rows).
Proof.
  intros Hr Hnow Ha. apply audit_secret_event_ok in Ha as (row & -> & Ht & Hc & _ & _ & _ & Hp & _).
  destruct (valid (verify_chain _ _)) eqn:Hv; [right|by left].
  apply verify_chain_valid in Hv as [h Hh]. rewrite tenant_rows_snoc, decide_True in Hh by done.
  rewrite Hr in Hh, Hp. rewrite last_snoc in Hp. cbn in Hp.
  destruct (insert_after_split created_le row (rows ++ [latest])) as (l1 & l2 & Hl & Hi & Hle).
  rewrite Hi in Hh. destruct l2  as [|z l2 _] using rev_ind.
  { rewrite app_nil_r in Hl. subst l1. assert (created_le latest row = true) as Hlr by (apply Hle; set_solver).
    unfold created_le in Hlr. rewrite Hc in Hlr. lia. }
  rewrite app_assoc in Hl. apply app_inj_2 in Hl as [-> _]; [|done].
  rewrite cons_middle, app_assoc in Hh. apply verify_rows_prefix in Hh as [m Hm].
  apply verify_rows_snoc in Hm as (m' & Hm' & Hlink & _). apply row_linkage_ok_spec in Hlink as (E & _).
  rewrite <-Hp, E, (verified_head _ _ Hm'). rewrite fmap_app. destruct (last l1) as [y|] eqn:El; cbn; [|by left].
  right. apply elem_of_app. left. apply list_elem_of_fmap_2. by apply last_Some_elem_of.
Qed.

(** A client that walks the paged export from the start, whatever the page
    size, collects exactly the lines of the tenant's whole chain when the chain
    verifies, and otherwise stops at the event full verification names.  (Event
    identifiers are the table's primary key.) *)
Theorem export_walk_complete {SH : Sha256} {J : Json} render table tenant limit :
  NoDup (event_id <$> table) -> 1 <= limit <= AUDIT_EXPORT_MAX_LIMIT ->
  export_walk render (S (length table)) table tenant limit None [] =
  Some match first_bad_event_id (verify_chain table tenant) with
       | None => inr (lines render (tenant_rows tenant table))
       | Some bad => inl bad
       end.
Proof.
  intros Hn Hlim.
  pose proof (export_walk_spec render (S (length table)) table tenant limit [] (indexed_rows tenant table)
                GENESIS_HASH [] Hn Hlim eq_refl eq_refl) as H.
  rewrite indexed_rows_snd in H. unfold cursor_of in H. cbn [last fmap option_fmap option_map app] in H.
  rewrite H.
  - unfold verify_chain. by destruct (verify_rows _ _) as [h [bad|]].
  - apply Nat.lt_succ_r. rewrite <-(length_fmap snd), indexed_rows_snd. unfold tenant_rows. rewrite sort_perm.
    apply length_filter.
Qed.

(** ** Sample logs *)

Definition demo_event (tenant : bytes) (why : string) : SecretAuditEvent :=
  {| ev_event_type := event_type_str SecretRead; ev_tenant_id := tenant; ev_project_id := Some (lit "p");
     ev_environment_id := None; ev_secret_id := Some (lit "s"); ev_secret_version := Some (-1);
     ev_principal_id := lit "account:a"; ev_request_id := lit "r"; ev_source := lit "api";
     ev_result := lit "success"; ev_reason := lit why |}.
Definition record_all (events : list (bytes * SecretAuditEvent * Z)) : AuditTable :=
  match try_fold (fun table e => audit_secret_event e.1.1 e.1.2 e.2 table) [] events with
  | Ok table => table
  | Err _ => []
  end.
Definition acme : bytes := lit "acme".
Definition ev1 : bytes * SecretAuditEvent * Z := ([1], demo_event acme "password=hunter2", 100).
Definition ev2 : bytes * SecretAuditEvent * Z := ([2], demo_event acme "audit", 100).
Definition ev3 : bytes * SecretAuditEvent * Z := ([3], demo_event (lit "other") "x", 100).
Definition acme_only : AuditTable := Eval vm_compute in record_all [ev1; ev2].
(** The same events of [acme], with one of another tenant between them. *)
Definition interleaved : AuditTable := Eval vm_compute in record_all [ev1; ev3; ev2].

Definition textb (b : bytes) : bool := blen b <=? u64_max.
Definition i64b (z : Z) : bool := (- (i64_max + 1) <=? z) && (z <=? i64_max).
Definition row_okb `{Json} (row : AuditRow) : bool :=
  forallb textb [prev_hash row; event_type row; tenant_id row; request_id row; source row; result_ row; reason row] &&
  forallb (from_option textb true)
    [project_id row; environment_id row; secret_id row; principal_from_actor (actor_json row)] &&
  from_option i64b true (secret_version row) && i64b (created_at_utc row).
Lemma row_okb_ok row : row_okb row = true -> row_ok row.
Proof.
  unfold row_okb, row_ok. rewrite !andb_true_iff, !forallb_forall. intros (((Ht & Ho) & Hv) & Hc).
  assert (forall z, i64b z = true -> is_i64 z) as Hi by (unfold i64b, is_i64; intros; bool_prop; lia).
  split; [|split; [|split]]; [| | |by apply Hi].
  - apply Forall_forall. intros b Hb. apply Z.leb_le, Ht. by apply list_elem_of_In.
  - apply Forall_forall. intros o Hb b ->. apply Z.leb_le. apply list_elem_of_In, Ho in Hb. exact Hb.
  - intros v E. rewrite E in Hv. by apply Hi.
Qed.
Lemma demo_rows_ok table : table = acme_only \/ table = interleaved -> Forall row_ok (tenant_rows acme table).
Proof.
  intros Ht. assert (forallb row_okb (tenant_rows acme table) = true) as Hb by (destruct Ht as [-> | ->]; vm_compute; reflexivity).
  rewrite forallb_forall in Hb. apply Forall_forall. intros row Hr. by apply row_okb_ok, Hb, list_elem_of_In.
Qed.
Lemma audit_chain_binding_witness :
  covered <$> tenant_rows acme acme_only = covered <$> tenant_rows acme interleaved \/
  sha256_collision \/ exists x, sha256 x = GENESIS_HASH.
Proof.
  apply audit_chain_binding; [by apply demo_rows_ok; left|by apply demo_rows_ok; right| | |];
    vm_compute; reflexivity.
Defined.
Lemma record_all_history now events table table' :
  log_history now table -> Forall (fun e => e.2 = now) events -> 0 <= now ->
  try_fold (fun table e => audit_secret_event e.1.1 e.1.2 e.2 table) table events = Ok table' ->
  log_history now table'.
Proof.
  intros H He H0. revert table H. induction He as [|e events Heq He IH]; intros table H Ht; cbn in Ht.
  - by injection Ht as <-.
  - apply res_bind_ok in Ht as (t1 & Ha & Ht). subst now. eapply IH; [|done]. by eapply log_append.
Qed.
Lemma interleaved_history : log_history 100 interleaved.
Proof.
  apply (record_all_history 100 [ev1; ev3; ev2] []); [constructor|repeat constructor|lia|].
  vm_compute. reflexivity.
Qed.
Lemma audit_history_verifies_witness :
  log_history 100 interleaved /\ event_count (verify_chain interleaved acme) = 2.
Proof.
  split; [exact interleaved_history|]. rewrite (audit_history_verifies _ _ acme interleaved_history). reflexivity.
Defined.

(** One second back after two events. *)
Definition late_event : SecretAuditEvent := demo_event acme "late".
Definition stepped_back : AuditTable := Eval vm_compute in
  match audit_secret_event [4] late_event 99 interleaved with Ok t => t | Err _ => [] end.
Lemma stepped_back_ok : audit_secret_event [4] late_event 99 interleaved = Ok stepped_back.
Proof. vm_compute. reflexivity. Qed.
Lemma interleaved_rows : exists rows latest, tenant_rows acme interleaved = rows ++ [latest] /\ 99 < created_at_utc latest.
Proof.
  destruct (tenant_rows acme interleaved) as [|row rows _] eqn:E using rev_ind; [vm_compute in E; discriminate E|].
  exists rows, row. split; [done|]. assert (row ∈ tenant_rows acme interleaved) as Hr by (rewrite E; set_solver).
  apply elem_tenant_rows in Hr as [_ Hr]. assert (Forall (fun r => 99 < created_at_utc r) interleaved) as Hf
    by (repeat constructor; vm_compute; reflexivity). rewrite Forall_forall in Hf. by apply Hf.
Qed.
Lemma audit_clock_step_back_witness :
  exists rows latest, tenant_rows acme interleaved = rows ++ [latest] /\ 99 < created_at_utc latest /\
  (valid (verify_chain stepped_back acme) = false \/ event_hash latest ∈ GENESIS_HASH :: (event_hash <$> rows)).
Proof.
  destruct interleaved_rows as (rows & latest & Hr & Hc). exists rows, latest.
  split; [exact Hr|]. split; [exact Hc|].
  exact (audit_clock_step_back [4] late_event 99 interleaved stepped_back rows latest Hr Hc stepped_back_ok).
Defined.
Example stepped_back_invalid : valid (verify_chain stepped_back acme) = false.
Proof. vm_compute. reflexivity. Qed.

Lemma export_walk_complete_witness :
  export_walk reason 4 interleaved acme 1 None [] = Some (inr (lines reason (tenant_rows acme interleaved))).
Proof.
  pose proof (export_walk_complete reason interleaved acme 1) as H. apply H.
  - apply (bool_decide_unpack _). vm_compute. exact I.
  - vm_compute. intuition discriminate.
Defined.
