(* ===== verification/PolicyTheory.v ===== *)
(** * Theorems on authorization and scope tokens

    [authorize] implements a declarative policy and denies under every database
    failure; revocation of a grant or of the origin session takes effect at once;
    a token verifies exactly when it was minted with the key and is within its
    lifetime; a revoked token stays refused for as long as it could verify. *)

From S2P Require Import Prelude Primitives SamplePrimitives Policy.

Abbreviation no_failure := (fun _ : Query => false).

(** ** Answers do not depend on failures *)

Section Failures.
Context {HX : Hex} {SH : Sha256} (fails : Query -> bool).

Lemma ask_ok {A} q (a b : A) : ask fails q a = Ok b -> ask no_failure q a = Ok b.
Proof. unfold ask. by destruct (fails q). Qed.

Lemma apply_session_status_ok db tok s now s' :
  apply_session_status fails db tok s now = Ok s' -> apply_session_status no_failure db tok s now = Ok s'.
Proof.
  unfold apply_session_status, policy_required. intros H. apply res_bind_ok in H as (r & Hr & H).
  apply res_bind_ok in H as (p & Hp & H). rewrite (ask_ok _ _ _ Hr), (ask_ok _ _ _ Hp). done.
Qed.
Lemma scope_mfa_active_ok db claims now b :
  scope_mfa_active fails db claims now = Ok b -> scope_mfa_active no_failure db claims now = Ok b.
Proof.
  unfold scope_mfa_active, policy_required. destruct (strip_prefix _ _) as [account|]; [|done].
  intros H. apply res_bind_ok in H as (r & Hr & H). rewrite (ask_ok _ _ _ Hr). cbn [res_bind].
  destruct (_ && _); [done|]. destruct (origin_session_hash claims) as [origin|]; [|done].
  apply res_bind_ok in H as (row & Hrow & H). rewrite (ask_ok _ _ _ Hrow). cbn [res_bind].
  destruct row as [s|]; [|done]. apply res_bind_ok in H as (s' & Hs & H).
  by rewrite (apply_session_status_ok _ _ _ _ _ Hs).
Qed.
Lemma scope_origin_active_ok db claims now strong b :
  scope_origin_active fails db claims now strong = Ok b ->
  scope_origin_active no_failure db claims now strong = Ok b.
Proof.
  unfold scope_origin_active. intros H. apply res_bind_ok in H as (a & Ha & H).
  rewrite (scope_mfa_active_ok _ _ _ _ Ha). cbn [res_bind]. destruct a; [|done]. cbn [negb] in *.
  destruct (origin_session_hash claims); [by eapply ask_ok|done].
Qed.
End Failures.

(** ** The declarative policy *)

(** Which role may do what. *)
Inductive may : ProjectRole -> ScopedAction -> Prop :=
| may_read_metadata role : may role ReadMetadata
| admin_may action : may Admin action
| developer_may action : action ∈ [ReadValue; CreateSecret; UpdateMetadata; RotateSecret] -> may Developer action
| operator_may action : action ∈ [ReadValue; RotateSecret] -> may Operator action
| auditor_may : may Auditor ViewAudit.

(** A membership that is not revoked, with the name of the role in its row. *)
Definition role_names : list (str * ProjectRole) :=
  [(lit "admin", Admin); (lit "developer", Developer); (lit "operator", Operator); (lit "auditor", Auditor)].
Definition holds (db : Connection) (project principal : str) (role : ProjectRole) : Prop :=
  exists m, project_members db !! (project, principal) = Some m /\ m_revoked_at m = None /\ (m_role m, role) ∈ role_names.

(** The two ways to sign in that count as strong. *)
Definition strong_method (kind : str) : Prop := kind = lit "device" \/ kind = lit "webauthn".

(** The session stands at [now]: not revoked, not expired, and neither the device nor the
    passkey it was opened with is revoked or gone. *)
Record stands (db : Connection) (s : Session) (now : Z) : Prop := {
  stands_unrevoked : s_revoked_at s = None;
  stands_unexpired : now < s_expires s;
  stands_device : forall device, s_device s = Some device -> devices db !! (s_account s, device) = Some None;
  stands_passkey : forall cred, s_credential s = Some cred -> webauthn_credentials db !! (s_account s, cred) = Some None;
}.
(** A token that names the session it was issued to is only as good as that session, which is
    of the token's principal; a workload's token needs one with a strong sign-in. *)
Definition origin_ok (db : Connection) (claims : ScopeClaims) (now : Z) (human : bool) : Prop :=
  forall origin, origin_session_hash claims = Some origin ->
  exists s, sessions db !! origin = Some s /\ principal_id claims = lit "account:" ++ s_account s /\ stands db s now /\
    (human = false -> strong_method (s_kind s)).

Section Authorize.
Context {HX : Hex} {SH : Sha256}.

(** The token carries the second-factor proof of its session: the session of the account is
    strong and at most five minutes old, and the proof is less than five minutes old and for
    the authenticator that the account has enabled now. *)
Definition factor_fresh (db : Connection) (claims : ScopeClaims) (account : str) (now : Z) : Prop :=
  exists origin s p t,
    origin_session_hash claims = Some origin /\
    (sessions db !! origin = Some s /\ s_account s = account /\ s_revoked_at s = None /\ now < s_expires s) /\
    (strong_method (s_kind s) /\ s_issued s <= now <= s_issued s + 300) /\
    (session_mfa db !! origin = Some p /\ mfa_proof_id claims = Some (p_id p) /\ p_verified p <= now < p_verified p + 300) /\
    totp_credentials db !! account = Some t /\ t_enabled t = true /\ t_revoked_at t = None /\
    p_fingerprint p = hex_encode (sha256 (as_bytes (t_ciphertext t))).
(** The token of an account that requires the second factor, or that claims a proof of it, has a fresh one. *)
Definition factor_ok (db : Connection) (claims : ScopeClaims) (now : Z) : Prop :=
  forall account, principal_id claims = lit "account:" ++ account ->
  account_mfa_policy db !! account = Some true \/ mfa_proof_id claims <> None -> factor_fresh db claims account now.

(** Production tiers need the trusted main branch or elevation. *)
Definition production_ok (attrs : RequestAttributes) (tier : Z) : Prop :=
  2 <= tier -> elevated attrs = true \/ (trusted_branch attrs = true /\ ra_branch attrs = Some (lit "main")).

Definition environment_ok (db : Connection) (target : AuthTarget) (attrs : RequestAttributes) : Prop :=
  forall env, at_environment_id target = Some env ->
  exists e, environments db !! env = Some e /\ e_project e = at_project_id target /\
            e_tenant e = at_tenant_id target /\ production_ok attrs (e_tier e).

(** A workload is confined to the scope of its token; a person needs fresh strong
    authentication for everything but metadata. *)
Definition caller_ok (claims : ScopeClaims) (action : ScopedAction) (target : AuthTarget)
  (attrs : RequestAttributes) : Prop :=
  if human_session attrs then action = ReadMetadata \/ recent_strong_auth attrs = true
  else environment_id claims = at_environment_id target /\
       repository_binding_id claims = at_repository_binding_id target /\
       service_id claims = at_service_id target.

Record permitted (db : Connection) (claims : ScopeClaims) (action : ScopedAction) (target : AuthTarget)
  (attrs : RequestAttributes) (now : Z) (role : ProjectRole) : Prop := {
  pm_factor : factor_ok db claims now;
  pm_origin : origin_ok db claims now (human_session attrs);
  pm_scope : tenant_id claims = at_tenant_id target /\ project_id claims = at_project_id target;
  pm_caller : caller_ok claims action target attrs;
  pm_role : holds db (at_project_id target) (principal_id claims) role;
  pm_action : may role action;
  pm_environment : environment_ok db target attrs;
}.

(** ** The parts of the decision against the parts of the policy *)

Lemma role_allows_spec role action : role_allows role action = true <-> may role action.
Proof.
  split.
  - destruct role, action; try discriminate; intros _; constructor; set_solver.
  - destruct 1 as [role|action|action Ha|action Ha|]; [by destruct role|by destruct action|..|done];
      repeat (apply elem_of_cons in Ha as [->|Ha]; [done|]); by apply elem_of_nil in Ha.
Qed.
Lemma parse_role_spec name role : parse_role name = Some role <-> (name, role) ∈ role_names.
Proof.
  unfold parse_role, role_names. rewrite !elem_of_cons, elem_of_nil, !pair_equal_spec. split.
  - repeat (case_decide; [intros [= <-]; tauto|]). done.
  - intros [[-> ->]|[[-> ->]|[[-> ->]|[[-> ->]|[]]]]]; reflexivity.
Qed.
Lemma active_role_spec db project principal role : active_role db project principal = Some role <-> holds db project principal role.
Proof.
  unfold active_role, holds. setoid_rewrite <- parse_role_spec. destruct (project_members db !! (project, principal)) as [m|]; [|naive_solver].
  case_decide; naive_solver.
Qed.
Lemma strong_kind_spec kind : strong_kind kind = true <-> strong_method kind.
Proof. unfold strong_kind, strong_method. rewrite bool_decide_eq_true, !elem_of_cons, elem_of_nil. tauto. Qed.
Lemma unrevoked_spec table account id :
  unrevoked table account id = true <-> forall i, id = Some i -> table !! (account, i) = Some None.
Proof. unfold unrevoked. destruct id; rewrite ?bool_decide_eq_true; naive_solver. Qed.
Lemma session_live_spec db origin principal now strong :
  session_live db origin principal now strong = true <->
  exists s, sessions db !! origin = Some s /\ principal = lit "account:" ++ s_account s /\ stands db s now /\
    (strong = true -> strong_method (s_kind s)).
Proof.
  unfold session_live. destruct (sessions db !! origin) as [s|]; [|naive_solver].
  rewrite !andb_true_iff, orb_true_iff, !bool_decide_eq_true, !unrevoked_spec, strong_kind_spec, Z.gtb_lt, negb_true_iff. split.
  - intros (((((Hp & Hr) & He) & Hs) & Hd) & Hc). exists s. split_and!; [done|done|by split|]. intros ->. by destruct Hs.
  - intros (s' & [= <-] & Hp & [Hr He Hd Hc] & Hs). split_and!; try done. destruct strong; [right|left]; auto.
Qed.

(** What the status of a session and its freshness come to. *)
Lemma proof_row_spec db origin account p ciphertext :
  proof_row db origin account = Some (p, ciphertext) <->
  exists s t, session_mfa db !! origin = Some p /\ sessions db !! origin = Some s /\ s_account s = account /\
    totp_credentials db !! account = Some t /\ t_enabled t = true /\ t_revoked_at t = None /\ t_ciphertext t = ciphertext.
Proof.
  unfold proof_row. destruct (session_mfa db !! origin) as [p'|]; [|naive_solver].
  destruct (sessions db !! origin) as [s|]; [|naive_solver]. destruct (decide (s_account s = account)) as [<-|].
  - destruct (totp_credentials db !! s_account s) as [t|]; [|naive_solver]. case_bool_decide; naive_solver.
  - destruct (totp_credentials db !! s_account s) as [t|]; [case_bool_decide|]; naive_solver.
Qed.
Lemma primary_fresh session now :
  is_ok (require_recent_primary_session session now) = true <->
  strong_method (auth_method session) /\ sv_issued_at_utc session <= now <= sv_issued_at_utc session + 300.
Proof.
  unfold require_recent_primary_session, require_strong_session, STEP_UP_MAX_AGE_SECONDS, sat_sub. case_bool_decide as Hr.
  { split; [done|]. rewrite Hr. intros ([H|H] & _); vm_compute in H; discriminate H. }
  cbn [res_bind]. rewrite <- strong_kind_spec. destruct (strong_kind (auth_method session)); cbn [negb orb]; [|by split; [|intros (? & _)]].
  destruct (_ || _) eqn:E; cbn [is_ok]; split; try done; try (intros (_ & H); lia); intros _; split; [done|lia].
Qed.
Lemma strip_prefix_spec prefix s account : strip_prefix prefix s = Some account <-> s = prefix ++ account.
Proof.
  unfold strip_prefix. destruct (starts_with prefix s) eqn:E.
  - apply starts_with_spec in E as (r & ->). rewrite drop_app_length. split; [by intros [= ->]|]. by intros ->%app_inv_head.
  - split; [done|]. intros ->. exfalso. apply not_true_iff_false in E. apply E, starts_with_spec. by exists account.
Qed.

(** The factor of a token whose session is known. *)
Definition factor_of (db : Connection) (claims : ScopeClaims) (origin account : str) (s : Session) (now : Z) : Prop :=
  exists p t, strong_method (s_kind s) /\ s_issued s <= now <= s_issued s + 300 /\
    session_mfa db !! origin = Some p /\ mfa_proof_id claims = Some (p_id p) /\ p_verified p <= now < p_verified p + 300 /\
    totp_credentials db !! account = Some t /\ t_enabled t = true /\ t_revoked_at t = None /\
    p_fingerprint p = hash_token (t_ciphertext t).
Lemma status_spec db claims origin account s view now :
  sessions db !! origin = Some s -> s_account s = account -> account_id view = account ->
  auth_method view = s_kind s -> sv_issued_at_utc view = s_issued s ->
  exists view', apply_session_status no_failure db origin view now = Ok view' /\
    (is_ok (require_recent_primary_session view' now) && bool_decide (is_Some (sv_mfa_proof_id view'))
       && bool_decide (sv_mfa_proof_id view' = mfa_proof_id claims) = true <-> factor_of db claims origin account s now).
Proof.
  intros Hs Ha Hv Hk Hi. unfold apply_session_status, policy_required, ask. cbn [res_bind]. rewrite Hv, Hk. eexists. split; [reflexivity|].
  rewrite !andb_true_iff, !bool_decide_eq_true. unfold factor_of, STEP_UP_MAX_AGE_SECONDS, sat_sub.
  destruct (proof_row db origin account) as [[p ciphertext]|] eqn:Ep.
  - apply proof_row_spec in Ep as (s' & t & Hp & Hs' & _ & Ht & He & Hr & <-). rewrite Hs in Hs'. injection Hs' as <-.
    destruct (_ && _ && _ && _) eqn:E.
    + rewrite primary_fresh. cbn [auth_method sv_issued_at_utc sv_mfa_proof_id with_mfa]. rewrite Hk, Hi.
      rewrite !andb_true_iff, bool_decide_eq_true, strong_kind_spec in E. destruct E as (((E1 & E2) & E3) & E4). split.
      * intros (((H1 & H2) & _) & H3). exists p, t. split_and!; try done; lia.
      * intros (p' & t' & H1 & H2 & Hp' & H3 & _). rewrite Hp in Hp'. injection Hp' as <-. split_and!; try done; lia.
    + cbn [sv_mfa_proof_id with_mfa]. split; [intros ((_ & [? ?]) & _); done|].
      intros (p' & t' & H1 & H2 & Hp' & H3 & H4 & Ht' & _ & _ & H5). exfalso. rewrite Hp in Hp'. injection Hp' as <-. rewrite Ht in Ht'. injection Ht' as <-.
      apply not_true_iff_false in E. apply E. rewrite !andb_true_iff, bool_decide_eq_true, strong_kind_spec. split_and!; try done; lia.
  - cbn [sv_mfa_proof_id with_mfa]. split; [intros ((_ & [? ?]) & _); done|].
    intros (p & t & _ & _ & Hp & _ & _ & Ht & He & Hr & _). exfalso.
    assert (proof_row db origin account = Some (p, t_ciphertext t)) as E by (apply proof_row_spec; eauto 10). congruence.
Qed.
Lemma active_session_spec db origin account s :
  active_session db origin account = Some s <-> sessions db !! origin = Some s /\ s_account s = account /\ s_revoked_at s = None.
Proof. unfold active_session. destruct (sessions db !! origin) as [s'|]; [case_bool_decide|]; naive_solver. Qed.

Lemma scope_mfa_active_spec db claims now : scope_mfa_active no_failure db claims now = Ok true <-> factor_ok db claims now.
Proof.
  unfold scope_mfa_active, factor_ok. destruct (strip_prefix _ _) as [account|] eqn:E.
  2: { split; [|done]. intros _ account Ha. exfalso. apply strip_prefix_spec in Ha. congruence. }
  apply strip_prefix_spec in E. unfold policy_required, ask. cbn [res_bind].
  assert ((forall a, principal_id claims = lit "account:" ++ a ->
             account_mfa_policy db !! a = Some true \/ mfa_proof_id claims <> None -> factor_fresh db claims a now) <->
          (account_mfa_policy db !! account = Some true \/ mfa_proof_id claims <> None -> factor_fresh db claims account now)) as ->.
  { split; [by auto|]. intros H a Ha. rewrite E in Ha. apply app_inv_head in Ha as <-. done. }
  destruct (negb _ && _) eqn:Eb.
  { rewrite andb_true_iff, negb_true_iff, bool_decide_eq_true in Eb. destruct Eb as (Eb & Em). split; [|done]. intros _ [H|H]; [|done]. by rewrite H in Eb. }
  assert (account_mfa_policy db !! account = Some true \/ mfa_proof_id claims <> None) as Hneed.
  { rewrite andb_false_iff, negb_false_iff, bool_decide_eq_false in Eb. destruct Eb as [Eb|?]; [left|by right].
    destruct (account_mfa_policy db !! account) as [[]|]; done. }
  trans (factor_fresh db claims account now); [|by split; auto]. unfold factor_fresh.
  destruct (origin_session_hash claims) as [origin|]; [|naive_solver].
  destruct (active_session db origin account) as [s|] eqn:Es.
  - apply active_session_spec in Es as (Hs & Ha & Hr).
    edestruct (status_spec db claims origin account s) as (view & -> & Hview); [done|done|reflexivity|reflexivity|reflexivity|].
    cbn [res_bind]. rewrite <- andb_assoc, <- andb_assoc, (andb_assoc (is_ok _)). unfold factor_of in Hview. unfold hash_token in Hview. split.
    + intros [= H]. apply andb_true_iff in H as (He & (p & t & H)%Hview). apply Z.gtb_lt in He. exists origin, s, p, t. tauto.
    + intros (origin' & s' & p & t & [= <-] & (Hs' & _ & _ & He) & H). rewrite Hs in Hs'. injection Hs' as <-. f_equal.
      apply andb_true_iff. split; [by apply Z.gtb_lt|]. apply Hview. exists p, t. tauto.
  - split; [done|]. intros (origin' & s' & p & t & [= <-] & (Hs & Ha & Hr & _) & _). exfalso.
    assert (active_session db origin account = Some s') as Hact by (by apply active_session_spec). congruence.
Qed.
Lemma scope_origin_active_spec db claims now human :
  scope_origin_active no_failure db claims now (negb human) = Ok true <-> factor_ok db claims now /\ origin_ok db claims now human.
Proof.
  rewrite <- scope_mfa_active_spec. unfold scope_origin_active, origin_ok.
  destruct (scope_mfa_active no_failure db claims now) as [[]|]; cbn [res_bind negb]; [|split; [done|by intros (? & _)]..].
  destruct (origin_session_hash claims) as [origin|]; [|split; [intros _; split; [done|naive_solver]|done]]. unfold ask. split.
  - intros [= H]. apply session_live_spec in H as (s & Hs & Hp & Hst & Hk). split; [done|]. intros o [= <-]. exists s. split_and!; auto. intros ->. auto.
  - intros (_ & H). destruct (H origin eq_refl) as (s & Hs & Hp & Hst & Hk). f_equal. apply session_live_spec. exists s. split_and!; auto.
    rewrite negb_true_iff. auto.
Qed.

Lemma environment_matches_spec a b : environment_matches a b = true <-> a = b.
Proof. destruct a, b; cbn; rewrite ?bool_decide_eq_true; naive_solver. Qed.

Lemma production_gate_spec fails db target attrs :
  (production_gate fails db target attrs = Ok tt -> environment_ok db target attrs) /\
  (environment_ok db target attrs -> production_gate no_failure db target attrs = Ok tt).
Proof.
  unfold production_gate, environment_ok, environment_tier, ask, production_ok.
  destruct (at_environment_id target) as [env|]; [|naive_solver]. split.
  - destruct (fails QTier); [done|]. cbn [map_err res_bind]. intros H env' [= <-].
    destruct (environments db !! env) as [e|]; [|done]. destruct (decide _) as [[Hp Ht]|]; [|done].
    exists e. do 3 (split; [done|]). intros Htier.
    replace (e_tier e >=? 2) with true in H by (symmetry; apply Z.geb_le; lia).
    apply bail_ok in H as (Hg & _). rewrite negb_false_iff, orb_true_iff, andb_true_iff, bool_decide_eq_true in Hg. tauto.
  - intros H. destruct (H env eq_refl) as (e & -> & Hp & Ht & Hprod). cbn [map_err res_bind].
    rewrite decide_True by done. destruct (e_tier e >=? 2) eqn:E; [|done].
    apply Z.geb_le in E. destruct (Hprod E) as [-> | [-> ->]]; [by rewrite orb_true_r|].
    by rewrite bool_decide_true.
Qed.

Lemma caller_guards (human : bool) claims action target attrs : human_session attrs = human ->
  caller_ok claims action target attrs <->
  negb human && negb (environment_matches (environment_id claims) (at_environment_id target)) = false /\
  negb human && negb (bool_decide (repository_binding_id claims = at_repository_binding_id target)) = false /\
  negb human && negb (bool_decide (service_id claims = at_service_id target)) = false /\
  human && negb (bool_decide (action = ReadMetadata)) && negb (recent_strong_auth attrs) = false.
Proof.
  intros Hh. unfold caller_ok. rewrite Hh. destruct human; cbn [negb andb].
  - rewrite andb_false_iff, !negb_false_iff, bool_decide_eq_true. tauto.
  - rewrite !negb_false_iff, !bool_decide_eq_true, environment_matches_spec. tauto.
Qed.

Lemma authorize_sound fails db claims action target attrs now role :
  authorize fails db claims action target attrs now = Ok role ->
  permitted db claims action target attrs now role.
Proof.
  unfold authorize. intros H. apply res_bind_ok in H as (active & Ha & H).
  apply bail_ok in H as (Hact & H). apply bail_ok in H as (Hscope & H). apply bail_ok in H as (H1 & H).
  apply bail_ok in H as (H2 & H). apply bail_ok in H as (H3 & H). apply bail_ok in H as (H4 & H).
  apply res_bind_ok in H as (r & Hr & H). apply res_bind_ok in H as (r' & Hr' & H).
  apply bail_ok in H as (Hallow & H). apply res_bind_ok in H as ([] & Hg & H). injection H as ->.
  destruct active; [|done]. rewrite orb_false_iff, !negb_false_iff, !bool_decide_eq_true in Hscope.
  assert (factor_ok db claims now /\ origin_ok db claims now (human_session attrs)) as (Hf & Ho).
  { apply scope_origin_active_spec. destruct (scope_origin_active fails _ _ _ _) as [b|] eqn:E; [|done]. injection Ha as ->.
    by eapply scope_origin_active_ok. }
  destruct r as [r|]; [|done]. injection Hr' as ->. unfold project_role_of, ask in Hr.
  destruct (fails QMember); [done|]. injection Hr as Hr.
  split; [done|done|done|by apply (caller_guards _ _ _ _ _ eq_refl)|by apply active_role_spec|by apply role_allows_spec, negb_false_iff|].
  by eapply production_gate_spec.
Qed.
Lemma authorize_complete db claims action target attrs now role :
  permitted db claims action target attrs now role ->
  authorize no_failure db claims action target attrs now = Ok role.
Proof.
  intros [Hf Ho (Ht & Hp) Hc Hr Hallow He]. unfold authorize.
  rewrite (proj2 (scope_origin_active_spec db claims now (human_session attrs)) (conj Hf Ho)). cbn [map_err res_bind negb].
  rewrite !bool_decide_true by done. cbn [negb orb].
  apply (caller_guards _ _ _ _ _ eq_refl) in Hc as (-> & -> & -> & ->).
  apply active_role_spec in Hr. apply role_allows_spec in Hallow.
  unfold project_role_of, ask. rewrite Hr. cbn [map_err res_bind ok_or]. rewrite Hallow. cbn [negb].
  by rewrite (proj2 (production_gate_spec no_failure db target attrs) He).
Qed.

(** C27: [authorize] decides the policy that [permitted] writes down over the rows of the tables.
    Whatever queries the database fails, a granted request is permitted: the account's second
    factor is proved afresh where it is required or claimed, the session behind the token
    stands (strong for a workload), tenant and project are the token's, a workload stays
    within its environment, binding and service and a person has fresh strong
    authentication for all but metadata, the principal has an unrevoked membership with the
    role, the role is allowed the action, and the environment exists and passes
    the production gate.  Without failures every permitted request is granted, with that role. *)
Theorem authorize_refines_policy fails db claims action target attrs now role :
  (authorize fails db claims action target attrs now = Ok role ->
   permitted db claims action target attrs now role) /\
  (permitted db claims action target attrs now role ->
   authorize no_failure db claims action target attrs now = Ok role).
Proof. split; [apply authorize_sound|apply authorize_complete]. Qed.
End Authorize.

(** ** Revocation *)

Section Revocation.
Context {HX : Hex} {SH : Sha256}.

Lemma active_role_revoke project principal t db project' principal' :
  active_role (revoke_project_role project principal t db) project' principal' =
  if decide ((project', principal') = (project, principal)) then None
  else active_role db project' principal'.
Proof.
  unfold active_role, revoke_project_role. destruct (decide _) as [[= -> ->]|Hne].
  - destruct (project_members db !! (project, principal)) as [m|] eqn:E; [|by rewrite E].
    destruct (decide (m_revoked_at m = None)) as [Hr|Hr]; [|by rewrite E, decide_False].
    cbn [project_members with_members]. by rewrite lookup_insert_eq.
  - destruct (project_members db !! (project, principal)) as [m|]; [|done]. destruct (decide (m_revoked_at m = None)); [|done].
    cbn [project_members with_members]. by rewrite lookup_insert_ne by congruence.
Qed.
(** Only the membership table changes. *)
Lemma authorize_revoke_other fails project principal t db claims action target attrs now :
  (at_project_id target, principal_id claims) <> (project, principal) ->
  authorize fails (revoke_project_role project principal t db) claims action target attrs now
  = authorize fails db claims action target attrs now.
Proof.
  intros Hne. unfold authorize at 1, project_role_of. rewrite active_role_revoke, decide_False by done.
  unfold revoke_project_role. destruct (project_members db !! (project, principal)) as [m|]; [|done].
  by destruct (decide (m_revoked_at m = None)).
Qed.

(** The session behind a token was revoked, has expired, or hangs on a revoked
    device or passkey. *)
Definition origin_dead (db : Connection) (origin : str) (now : Z) : Prop :=
  forall s, sessions db !! origin = Some s ->
  s_revoked_at s <> None \/ s_expires s <= now \/
  (exists d, s_device s = Some d /\ devices db !! (s_account s, d) <> Some None) \/
  (exists c, s_credential s = Some c /\ webauthn_credentials db !! (s_account s, c) <> Some None).

(** Revocation takes effect at once and nowhere else.  After a project role is
    revoked nothing is authorized for that principal in that project, and every
    other principal's or project's decision is what it was; a token whose origin
    session was revoked, has expired or hangs on a revoked device or passkey
    authorizes nothing. *)
Theorem revocation_takes_effect fails db claims action target attrs now :
  (forall t role, authorize fails (revoke_project_role (at_project_id target) (principal_id claims) t db)
                    claims action target attrs now <> Ok role) /\
  (forall project principal t, (at_project_id target, principal_id claims) <> (project, principal) ->
     authorize fails (revoke_project_role project principal t db) claims action target attrs now
     = authorize fails db claims action target attrs now) /\
  (forall origin role, origin_session_hash claims = Some origin -> origin_dead db origin now ->
     authorize fails db claims action target attrs now <> Ok role).
Proof.
  split; [|split; [intros; by apply authorize_revoke_other|]].
  - intros t role H. apply authorize_sound, pm_role, active_role_spec in H.
    by rewrite active_role_revoke, decide_True in H.
  - intros origin role Ho Hd H. apply authorize_sound, pm_origin in H. destruct (H origin Ho) as (s & Hs & _ & [Hr He Hdv Hcr] & _).
    destruct (Hd s Hs) as [?|[?|[(d & Ed & Hn)|(c & Ec & Hn)]]]; [done|lia|by apply Hn, Hdv|by apply Hn, Hcr].
Qed.
End Revocation.

(** ** Tokens *)

Section Tokens.
Context {B64 : Base64Url} {BL : Base64UrlLaws B64} {HM : Hmac} {HML : HmacLaws HM} {CJ : ClaimsJson} {CL : ClaimsJsonLaws CJ}.

Abbreviation plain := (fun c => is_whitespace c = false /\ c <> 46).
Lemma b64_plain b : is_bytes b -> Forall plain (b64_encode b).
Proof.
  intros Hb. eapply Forall_impl; [by apply b64_alphabet|]. intros c Hc.
  unfold is_ascii_alphanumeric, is_ascii_lowercase, is_ascii_uppercase, is_ascii_digit, is_whitespace in *. lia.
Qed.
Lemma b64_decode_encode b f : is_bytes b -> b64_decode (b64_encode b) f = Ok b.
Proof. intros Hb. unfold b64_decode, b64_encode. by rewrite b64_roundtrip. Qed.
Lemma plain_no_dot s : Forall plain s -> 46 ∉ s.
Proof. rewrite Forall_forall. intros H Hin. by destruct (H _ Hin). Qed.

Lemma token_parts payload mac : Forall plain payload -> Forall plain mac ->
  split_on 46 (trim (SCOPE_TOKEN_PREFIX ++ lit "." ++ payload ++ lit "." ++ mac)) = [SCOPE_TOKEN_PREFIX; payload; mac].
Proof.
  intros Hp Hm. rewrite trim_id.
  - change (lit ".") with [46]. cbn [app]. rewrite split_on_app by (vm_compute; set_solver).
    rewrite split_on_app by (by apply plain_no_dot). by rewrite split_on_none by (by apply plain_no_dot).
  - rewrite !Forall_app. split_and!; try (by repeat constructor); eapply Forall_impl; eauto; naive_solver.
Qed.

(** The checks on the claims themselves. *)
Definition in_lifetime (claims : ScopeClaims) (now : Z) : Prop :=
  now < expires_at_utc claims /\ issued_at_utc claims <= sat_add64 now SCOPE_TOKEN_SKEW_SECONDS.
Definition fits (claims : ScopeClaims) : Prop :=
  exists payload, claims_to_vec claims = Ok payload /\ blen payload <= SCOPE_TOKEN_MAX_PAYLOAD_BYTES.

Lemma mint_then_verify key claims token now : mint_scope_token key claims = Ok token ->
  verify_scope_token key token now = Ok claims <-> in_lifetime claims now /\ fits claims.
Proof.
  unfold mint_scope_token. intros H. apply res_bind_ok in H as ([] & Hs & H).
  apply res_bind_ok in H as (payload & Hp & H). apply Ok_inj in H as <-.
  destruct (claims_to_vec claims) as [p|] eqn:Ec; [|done]. injection Hp as ->.
  pose proof (claims_bytes _ _ Ec) as Hb. unfold verify_scope_token.
  rewrite token_parts by (apply b64_plain; auto using hmac_sign_bytes).
  rewrite bool_decide_true by done. cbn [negb]. rewrite b64_decode_encode by apply hmac_sign_bytes. cbn [map_err res_bind].
  rewrite hmac_sign_verify. cbn [negb]. rewrite b64_decode_encode by done. cbn [map_err res_bind].
  rewrite (claims_roundtrip _ _ Ec). cbn [ok_or res_bind]. rewrite Hs. cbn [map_err res_bind].
  unfold in_lifetime, fits. rewrite Z.geb_leb, !Z.gtb_ltb. split.
  - intros H. apply bail_ok in H as (H1 & H). apply bail_ok in H as (H2 & H). apply bail_ok in H as (H3 & _).
    apply Z.ltb_ge in H1, H3. apply Z.leb_gt in H2. eauto.
  - intros ((H1 & H2) & p & Hp & Hlen). rewrite Ec in Hp. injection Hp as <-.
    apply Z.ltb_ge in H2, Hlen. apply Z.leb_gt in H1. by rewrite Hlen, H1, H2.
Qed.

(** What the MAC vouches for. *)
Definition authentic_token (key : bytes) (token : str) (claims : ScopeClaims) : Prop :=
  exists payload_b64 mac_b64 mac payload,
    trim token = SCOPE_TOKEN_PREFIX ++ lit "." ++ payload_b64 ++ lit "." ++ mac_b64 /\
    b64_decode mac_b64 (lit "scope_token") = Ok mac /\
    hmac_verify key (mac_input payload_b64) mac = true /\
    b64_decode payload_b64 (lit "scope_token") = Ok payload /\ claims_from_slice payload = Some claims.

Lemma split_three s a b c : split_on 46 s = [a; b; c] -> s = a ++ lit "." ++ b ++ lit "." ++ c.
Proof.
  intros E. destruct (split_on_join 46 s) as (p & ps & E' & ->). rewrite E' in E. injection E as -> ->.
  cbn. by rewrite app_nil_r.
Qed.
Lemma verify_scope_token_sound key token now claims :
  verify_scope_token key token now = Ok claims ->
  authentic_token key token claims /\ in_lifetime claims now /\ validate_shape claims = Ok tt.
Proof.
  unfold verify_scope_token. intros H. destruct (split_on 46 (trim token)) as [|pre [|pay [|mac [|]]]] eqn:Es; try done.
  apply split_three in Es. apply bail_ok in H as (Hpre & H). apply negb_false_iff, bool_decide_eq_true in Hpre as ->.
  apply res_bind_ok in H as (tag & Htag & H). apply bail_ok in H as (Hmac & H). apply negb_false_iff in Hmac.
  apply res_bind_ok in H as (payload & Hpay & H). apply bail_ok in H as (_ & H).
  apply res_bind_ok in H as (cl & Hcl & H). apply res_bind_ok in H as ([] & Hsh & H).
  apply bail_ok in H as (He & H). apply bail_ok in H as (Hi & H). injection H as ->.
  destruct (b64_decode mac _) as [t'|] eqn:E1; [|done]. injection Htag as ->.
  destruct (b64_decode pay _) as [p'|] eqn:E2; [|done]. injection Hpay as ->.
  destruct (claims_from_slice payload) eqn:E3; [|done]. injection Hcl as ->.
  rewrite Z.geb_leb in He. rewrite Z.gtb_ltb in Hi. apply Z.leb_gt in He. apply Z.ltb_ge in Hi.
  split; [exists pay, mac, tag, payload; split_and!; assumption|]. split; [done|]. revert Hsh. by destruct (validate_shape claims) as [[]|].
Qed.

(** Scope tokens.  A minted token yields its claims exactly within its
    lifetime, the clock skew allowed, when its payload is at most 4096 bytes; and
    any accepted token carries a payload that the key's MAC covers together with the
    version prefix, decodes to the returned claims, and is within their lifetime. *)
Theorem scope_token_exact key claims token now :
  (mint_scope_token key claims = Ok token ->
   (verify_scope_token key token now = Ok claims <-> in_lifetime claims now /\ fits claims)) /\
  (verify_scope_token key token now = Ok claims ->
   authentic_token key token claims /\ in_lifetime claims now /\ validate_shape claims = Ok tt).
Proof. split; [apply mint_then_verify|apply verify_scope_token_sound]. Qed.

(** ** Revoked tokens *)

(** What the service does to the denylist as time passes: the revocation route
    denies an identifier for an hour, verification prunes. *)
Inductive denylist_run (t0 : Z) (db0 : Connection) : Z -> Connection -> Prop :=
| run_start : denylist_run t0 db0 t0 db0
| run_deny t db t' id : denylist_run t0 db0 t db -> t <= t' ->
    denylist_run t0 db0 t' (deny_scope_token id (t' + 3600) db)
| run_prune t db t' : denylist_run t0 db0 t db -> t <= t' ->
    denylist_run t0 db0 t' (prune_scope_denylist t' db).

Lemma denylist_run_keeps id t0 db0 t db :
  denylist_run t0 (deny_scope_token id (t0 + 3600) db0) t db ->
  t0 <= t /\ (t0 + 3600 <= t \/ exists e, scope_token_denylist db !! id = Some e /\ t0 + 3600 <= e).
Proof.
  induction 1 as [|t db t' id' _ [Ht IH] Hle|t db t' _ [Ht IH] Hle]; (split; [lia|]).
  - right. exists (t0 + 3600). cbn. by rewrite lookup_insert_eq.
  - destruct IH as [?|(e & He & ?)]; [left; lia|]. right. cbn. destruct (decide (id' = id)) as [->|Hne].
    + exists (t' + 3600). rewrite lookup_insert_eq. split; [done|lia].
    + exists e. by rewrite lookup_insert_ne.
  - destruct IH as [?|(e & He & ?)]; [left; lia|]. destruct (decide (t0 + 3600 <= t')); [by left|]. right.
    exists e. cbn. rewrite map_lookup_filter_Some. split; [|lia]. split; [done|]. cbn. lia.
Qed.

(** A revoked token stays dead.  Once an identifier was denied at [t0], a
    token that carries it and expires within the hour is on the denylist at every
    later time at which it still verifies, whatever was denied or pruned since. *)
Theorem revoked_token_stays_dead key token claims t0 db0 now db :
  expires_at_utc claims <= t0 + 3600 ->
  denylist_run t0 (deny_scope_token (jti claims) (t0 + 3600) db0) now db ->
  verify_scope_token key token now = Ok claims ->
  scope_token_denied db (jti claims) = true.
Proof.
  intros Hexp Hrun Hv. apply verify_scope_token_sound in Hv as (_ & (Hlt & _) & _).
  apply denylist_run_keeps in Hrun as (_ & [?|(e & He & _)]); [lia|].
  unfold scope_token_denied. apply bool_decide_eq_true. by exists e.
Qed.
End Tokens.

(** ** Samples *)

#[global] Instance ScopeClaims_eq_dec : EqDecision ScopeClaims.
Proof. solve_decision. Defined.

(** Hexadecimal digits are in the URL-safe alphabet. *)
#[global] Instance sample_base64 : Base64Url := {|
  url_safe_no_pad_encode := hex_encode;
  url_safe_no_pad_decode s := match hex_decode s with Ok b => Some b | Err _ => None end;
  url_safe_decode s := None;
|}.
#[global] Instance sample_base64_laws : Base64UrlLaws sample_base64.
Proof.
  constructor; intros b Hb; cbn [url_safe_no_pad_encode url_safe_no_pad_decode sample_base64].
  - by rewrite hex_decode_encode.
  - eapply Forall_impl; [by apply hex_encode_digits|]. intros c.
    unfold is_lower_hex, is_ascii_alphanumeric, is_ascii_digit, is_ascii_lowercase. lia.
Qed.
#[global] Instance sample_hmac : Hmac := {|
  hmac_sign k m := sha256 (k ++ m);
  hmac_verify k m t := bool_decide (t = sha256 (k ++ m));
|}.
#[global] Instance sample_hmac_laws : HmacLaws sample_hmac.
Proof. constructor; intros; [by apply bool_decide_true|apply (sha256_bytes (k ++ m))]. Qed.

Definition demo_claims : ScopeClaims :=
  claims_new (lit "jti-1") (lit "acme") (lit "billing") (lit "ci:runner") 1000 1900.
(** A serializer of one value: it refuses every other. *)
#[global] Instance one_claims_json : ClaimsJson := {|
  claims_to_vec c := if decide (c = demo_claims) then Ok [7] else Err (lit "other");
  claims_from_slice b := if decide (b = [7]) then Some demo_claims else None;
|}.
#[global] Instance one_claims_json_laws : ClaimsJsonLaws one_claims_json.
Proof.
  constructor; intros c b; cbn; (destruct (decide (c = demo_claims)) as [->|]; [|done]); intros [= <-].
  - by rewrite decide_True.
  - repeat constructor; lia.
Qed.

Definition demo_key : bytes := replicate 32 3.
Definition demo_token : str := Eval vm_compute in
  match mint_scope_token demo_key demo_claims with Ok t => t | Err _ => [] end.
Lemma demo_minted : mint_scope_token demo_key demo_claims = Ok demo_token.
Proof. vm_compute. reflexivity. Qed.

Lemma scope_token_exact_witness :
  verify_scope_token demo_key demo_token 1500 = Ok demo_claims /\
  verify_scope_token demo_key demo_token 1900 <> Ok demo_claims.
Proof.
  split.
  - apply (proj1 (scope_token_exact demo_key demo_claims demo_token 1500) demo_minted).
    split; [vm_compute; intuition discriminate|]. exists [7]. split; [reflexivity|vm_compute; discriminate].
  - intros H. apply (proj1 (scope_token_exact demo_key demo_claims demo_token 1900) demo_minted) in H.
    destruct H as [[H _] _]. vm_compute in H. discriminate H.
Defined.

Definition empty_db : Connection :=
  {| project_members := ∅; environments := ∅; sessions := ∅; devices := ∅; webauthn_credentials := ∅;
     account_mfa_policy := ∅; session_mfa := ∅; totp_credentials := ∅; scope_token_denylist := ∅ |}.
(** Denied at 1100, another identifier denied and the list pruned at 1500. *)
Lemma revoked_token_stays_dead_witness :
  scope_token_denied
    (prune_scope_denylist 1500 (deny_scope_token (lit "x") (1200 + 3600) (deny_scope_token (jti demo_claims) (1100 + 3600) empty_db)))
    (jti demo_claims) = true.
Proof.
  apply (revoked_token_stays_dead demo_key demo_token demo_claims 1100 empty_db 1500).
  - vm_compute. discriminate.
  - apply (run_prune _ _ 1200); [|lia]. apply (run_deny _ _ 1100); [|lia]. apply run_start.
  - vm_compute. reflexivity.
Defined.

(** A confined workload reads a secret of its own environment, and not one of
    another; after revocation nothing. *)
Definition demo_member : Connection :=
  grant_project_role (lit "billing") (lit "ci:runner") Developer (lit "root") 1 empty_db.
Definition demo_target (env : option str) : AuthTarget :=
  {| at_tenant_id := lit "acme"; at_project_id := lit "billing"; at_environment_id := env;
     at_repository_binding_id := None; at_service_id := None |}.
Definition workload : RequestAttributes :=
  {| ra_branch := None; elevated := false; trusted_branch := false; human_session := false; recent_strong_auth := false |}.
Example workload_granted :
  authorize no_failure demo_member demo_claims ReadValue (demo_target None) workload 1500 = Ok Developer.
Proof. vm_compute. reflexivity. Qed.
Example workload_confined :
  authorize no_failure demo_member demo_claims ReadValue (demo_target (Some (lit "prod"))) workload 1500
  = Err EnvironmentMismatch.
Proof. vm_compute. reflexivity. Qed.
Example workload_role :
  authorize no_failure demo_member demo_claims DeleteSecret (demo_target None) workload 1500 = Err RoleInsufficient.
Proof. vm_compute. reflexivity. Qed.

(** A person whose account requires the second factor, with a session of four minutes, reads the value of
    a production secret as an elevated operator of the project. *)
Definition person_db : Connection :=
  {| project_members := {[ (lit "billing", lit "account:ada") := {| m_role := lit "operator"; m_granted_by := lit "root"; m_granted_at := 1; m_revoked_at := None |} ]};
     environments := {[ lit "prod" := {| e_tenant := lit "acme"; e_project := lit "billing"; e_tier := 2 |} ]};
     sessions := {[ lit "tok" := {| s_account := lit "ada"; s_device := Some (lit "laptop"); s_credential := None; s_kind := lit "device";
                                    s_issued := 1260; s_expires := 9000; s_revoked_at := None |} ]};
     devices := {[ (lit "ada", lit "laptop") := None ]}; webauthn_credentials := ∅; account_mfa_policy := {[ lit "ada" := true ]};
     session_mfa := {[ lit "tok" := {| p_id := lit "proof"; p_verified := 1300; p_fingerprint := hash_token (lit "seed") |} ]};
     totp_credentials := {[ lit "ada" := {| t_ciphertext := lit "seed"; t_enabled := true; t_revoked_at := None |} ]}; scope_token_denylist := ∅ |}.
Definition person_claims : ScopeClaims :=
  {| tenant_id := lit "acme"; project_id := lit "billing"; environment_id := None; repository_binding_id := None; service_id := None;
     branch := None; cnf := None; origin_session_hash := Some (lit "tok"); mfa_proof_id := Some (lit "proof"); elevated_until_utc := None;
     principal_id := lit "account:ada"; issued_at_utc := 1300; expires_at_utc := 2200; jti := lit "jti-2" |}.
Definition person : RequestAttributes :=
  {| ra_branch := None; elevated := true; trusted_branch := false; human_session := true; recent_strong_auth := true |}.
Lemma person_granted : authorize no_failure person_db person_claims ReadValue (demo_target (Some (lit "prod"))) person 1500 = Ok Operator.
Proof. vm_compute. reflexivity. Qed.
Lemma authorize_refines_policy_witness :
  permitted person_db person_claims ReadValue (demo_target (Some (lit "prod"))) person 1500 Operator /\
  ~ permitted person_db person_claims ReadValue (demo_target (Some (lit "prod"))) person 1600 Operator.
Proof.
  split.
  - apply (authorize_refines_policy no_failure person_db person_claims ReadValue (demo_target (Some (lit "prod"))) person 1500 Operator).
    exact person_granted.
  - intros H. apply (proj2 (authorize_refines_policy no_failure person_db person_claims ReadValue (demo_target (Some (lit "prod"))) person 1600 Operator)) in H.
    vm_compute in H. discriminate H.
Defined.
