(* ===== verification/Grants.v ===== *)
(** * Dual-admin grants and project invites

    src/services/account/src/grants.rs: grant requests that a second admin must
    decide, and single-use invite codes; with the two membership handlers of
    secret_routes.rs that change roles ([post_project_member] and
    [delete_project_member], from the point where the caller is authenticated).

    The tables [grant_requests] and [project_invites] are lists of rows in rowid
    order; authorization reads the tables of [Policy], events go to the table of
    [AuditChain].  Statements run one by one without a transaction: each can fail,
    as the oracle of the call says, and what ran before it stays.  Random
    identifiers and the clock are arguments. *)

From S2P Require Import Prelude Sorting Tables Primitives Redact Policy AuditChain.

Definition GRANT_REQUEST_TTL_SECONDS : Z := 24 * 3600.
Definition INVITE_TTL_SECONDS : Z := 72 * 3600.

Inductive GrantError : Type :=
| Denied | NotFound | Invalid (msg : str) | SelfApproval | Expired | Db.

(** [x as i64] of a [u64] and back. *)
Definition as_i64 (x : Z) : Z := if x <=? i64_max then x else x - 18446744073709551616.
Definition as_u64 (x : Z) : Z := wrap64 x.

(** A row of [grant_requests]. *)
Record GrantRequest : Type := {
  gr_request_id : str; gr_tenant_id : str; gr_project_id : str; gr_principal_id : str; gr_role : str;
  gr_requested_by : str; gr_approved_by : option str; gr_state : str; gr_created_at : Z;
  gr_decided_at : option Z; gr_expires_at : Z;
}.
(** A row of [project_invites]. *)
Record ProjectInvite : Type := {
  pi_invite_id : str; pi_tenant_id : str; pi_project_id : str; pi_role : str; pi_invited_by : str;
  pi_code_hash_hex : str; pi_state : str; pi_created_at : Z; pi_expires_at : Z;
  pi_accepted_by : option str; pi_decided_at : option Z;
}.

Record GrantRequestView : Type := {
  grv_request_id : str; grv_tenant_id : str; grv_project_id : str; grv_principal_id : str; grv_role : str;
  grv_requested_by : str; grv_approved_by : option str; grv_state : str; grv_created_at_utc : Z;
  grv_expires_at_utc : Z;
}.
Record InviteView : Type := {
  iv_invite_id : str; iv_tenant_id : str; iv_project_id : str; iv_role : str; iv_invited_by : str;
  iv_state : str; iv_created_at_utc : Z; iv_expires_at_utc : Z; iv_accepted_by : option str;
}.

Definition grant_request_from_row (r : GrantRequest) : GrantRequestView :=
  {| grv_request_id := gr_request_id r; grv_tenant_id := gr_tenant_id r; grv_project_id := gr_project_id r;
     grv_principal_id := gr_principal_id r; grv_role := gr_role r; grv_requested_by := gr_requested_by r;
     grv_approved_by := gr_approved_by r; grv_state := gr_state r;
     grv_created_at_utc := as_u64 (gr_created_at r); grv_expires_at_utc := as_u64 (gr_expires_at r) |}.
Definition invite_from_row (r : ProjectInvite) : InviteView :=
  {| iv_invite_id := pi_invite_id r; iv_tenant_id := pi_tenant_id r; iv_project_id := pi_project_id r;
     iv_role := pi_role r; iv_invited_by := pi_invited_by r; iv_state := pi_state r;
     iv_created_at_utc := as_u64 (pi_created_at r); iv_expires_at_utc := as_u64 (pi_expires_at r);
     iv_accepted_by := pi_accepted_by r |}.

(** The tables the operations touch. *)
Record GrantDb : Type := {
  auth : Connection;
  projects : gmap str str;               (* project_id -> tenant_id *)
  grant_requests : list GrantRequest;
  project_invites : list ProjectInvite;
  events : AuditTable;
}.
Definition set_auth (f : Connection -> Connection) (d : GrantDb) : GrantDb :=
  {| auth := f (auth d); projects := projects d; grant_requests := grant_requests d;
     project_invites := project_invites d; events := events d |}.
Definition set_requests (f : list GrantRequest -> list GrantRequest) (d : GrantDb) : GrantDb :=
  {| auth := auth d; projects := projects d; grant_requests := f (grant_requests d);
     project_invites := project_invites d; events := events d |}.
Definition set_invites (f : list ProjectInvite -> list ProjectInvite) (d : GrantDb) : GrantDb :=
  {| auth := auth d; projects := projects d; grant_requests := grant_requests d;
     project_invites := f (project_invites d); events := events d |}.
Definition set_events (t : AuditTable) (d : GrantDb) : GrantDb :=
  {| auth := auth d; projects := projects d; grant_requests := grant_requests d;
     project_invites := project_invites d; events := t |}.

(** ** Statements *)

Inductive Statement : Type := STenant | SSelect | SInsert | SUpdate | SGrant | SRevoke | SList | SAudit.

(** What the process draws and meets during one call. *)
Record Call : Type := {
  c_fails : Statement -> bool;
  c_policy : Query -> bool;              (* the queries of authorize *)
  c_auth_now : Z;                        (* the clock authorize reads *)
  c_id : bytes;                          (* random_hex(8) *)
  c_code : bytes;                        (* random_hex(16) *)
  c_request_id : bytes;                  (* random_hex(8) of the handlers *)
  c_event_id : bytes;
}.

Definition G (A : Type) : Type := Tx GrantDb GrantError A.
#[local] Open Scope tx_scope.

Section Operations.
Context {HX : Hex} {SH : Sha256} {JS : Json} (c : Call).

Definition query {A} (s : Statement) (f : GrantDb -> A) : G A := query_if (c_fails c s) Db f.
Definition execute (s : Statement) (f : GrantDb -> option GrantDb) : G unit := execute_if (c_fails c s) Db f.

Definition member_target (tenant project : str) : AuthTarget :=
  {| at_tenant_id := tenant; at_project_id := project; at_environment_id := None;
     at_repository_binding_id := None; at_service_id := None |}.

Definition manage_members (claims : ScopeClaims) (attrs : RequestAttributes) (tenant project : str) : G unit :=
  fun d => (match authorize (c_policy c) (auth d) claims ManageMembers (member_target tenant project) attrs
                    (c_auth_now c) with
            | Ok _ => Ok tt
            | Err _ => Err Denied
            end, d).

Definition tenant_of (project : str) : G (option str) := query STenant (fun d => projects d !! project).

Definition audit_grant (event_type : bytes) (tenant project principal request_id reason : bytes) (now : Z)
  : G unit :=
  execute SAudit (fun d =>
    match audit_secret_event (c_event_id c)
      {| ev_event_type := event_type; ev_tenant_id := tenant; ev_project_id := Some project;
         ev_environment_id := None; ev_secret_id := None; ev_secret_version := None;
         ev_principal_id := principal; ev_request_id := request_id; ev_source := lit "api";
         ev_result := lit "success"; ev_reason := reason |} now (events d) with
    | Ok t => Some (set_events t d)
    | Err _ => None
    end).

(** A JSON object of text members, in the order of their keys. *)
Definition json_text (fields : list (string * str)) : bytes :=
  json_to_string (VObject ((fun kv => (lit kv.1, VString (as_bytes kv.2))) <$> fields)).

Definition created_first (a b : GrantRequest) : bool := gr_created_at a <=? gr_created_at b.
Definition invited_first (a b : ProjectInvite) : bool := pi_created_at a <=? pi_created_at b.

(** The pending, unexpired request for the principal, the oldest first. *)
Definition live_request (project principal : str) (now : Z) (rows : list GrantRequest) : option GrantRequest :=
  head (sort created_first (filter (fun r =>
    gr_project_id r = project /\ gr_principal_id r = principal /\ gr_role r = lit "admin"
    /\ gr_state r = lit "pending" /\ as_i64 now < gr_expires_at r) rows)).

Definition request_admin_grant (claims : ScopeClaims) (attrs : RequestAttributes)
  (project principal_id_arg request_id : str) (now : Z) : G GrantRequestView :=
  do found <- tenant_of project ;;
  do tenant <- tret (ok_or found NotFound) ;;
  manage_members claims attrs tenant project ;;;
  let principal := trim principal_id_arg in
  if bool_decide (principal = []) then tret (Err (Invalid (lit "principal_id must not be empty"))) else
  do existing <- query SSelect (fun d => live_request project principal now (grant_requests d)) ;;
  match existing with
  | Some r => tret (Ok (grant_request_from_row r))
  | None =>
      let id := lit "gr_" ++ hex_encode (c_id c) in
      let row := {| gr_request_id := id; gr_tenant_id := tenant; gr_project_id := project;
                    gr_principal_id := principal; gr_role := lit "admin";
                    gr_requested_by := principal_id claims; gr_approved_by := None;
                    gr_state := lit "pending"; gr_created_at := as_i64 now; gr_decided_at := None;
                    gr_expires_at := as_i64 (wrap64 (now + GRANT_REQUEST_TTL_SECONDS)) |} in
      execute SInsert (fun d =>
        if bool_decide (id ∈ gr_request_id <$> grant_requests d) then None
        else Some (set_requests (fun rows => rows ++ [row]) d)) ;;;
      audit_grant (lit "membership.grant_requested") (as_bytes tenant) (as_bytes project)
        (as_bytes (principal_id claims)) (as_bytes request_id)
        (json_text [("principal_id"%string, principal); ("request_id"%string, id)]) now ;;;
      tret (Ok {| grv_request_id := id; grv_tenant_id := tenant; grv_project_id := project;
                  grv_principal_id := principal; grv_role := lit "admin";
                  grv_requested_by := principal_id claims; grv_approved_by := None;
                  grv_state := lit "pending"; grv_created_at_utc := now;
                  grv_expires_at_utc := wrap64 (now + GRANT_REQUEST_TTL_SECONDS) |})
  end.

(** [UPDATE grant_requests SET state, approved_by, decided_at_utc WHERE request_id]; an
    update that does not set [approved_by] keeps it. *)
Definition decide_row (id state : str) (by_ : option str) (now : Z) (r : GrantRequest) : GrantRequest :=
  if bool_decide (gr_request_id r = id) then
    {| gr_request_id := gr_request_id r; gr_tenant_id := gr_tenant_id r; gr_project_id := gr_project_id r;
       gr_principal_id := gr_principal_id r; gr_role := gr_role r; gr_requested_by := gr_requested_by r;
       gr_approved_by := match by_ with Some _ => by_ | None => gr_approved_by r end;
       gr_state := state; gr_created_at := gr_created_at r; gr_decided_at := Some (as_i64 now);
       gr_expires_at := gr_expires_at r |}
  else r.
Definition update_request (id state : str) (by_ : option str) (now : Z) : G unit :=
  execute SUpdate (fun d => Some (set_requests (fmap (decide_row id state by_ now)) d)).

Definition grant_role (project principal : str) (role : ProjectRole) (by_ : str) (now : Z) : G unit :=
  execute SGrant (fun d => Some (set_auth (grant_project_role project principal role by_ now) d)).

Definition with_state (v : GrantRequestView) (state : str) (by_ : option str) : GrantRequestView :=
  {| grv_request_id := grv_request_id v; grv_tenant_id := grv_tenant_id v; grv_project_id := grv_project_id v;
     grv_principal_id := grv_principal_id v; grv_role := grv_role v; grv_requested_by := grv_requested_by v;
     grv_approved_by := by_; grv_state := state; grv_created_at_utc := grv_created_at_utc v;
     grv_expires_at_utc := grv_expires_at_utc v |}.

Definition decide_grant_request (claims : ScopeClaims) (attrs : RequestAttributes)
  (project request_id : str) (approve : bool) (audit_request_id : str) (now : Z) : G GrantRequestView :=
  do found <- tenant_of project ;;
  do tenant <- tret (ok_or found NotFound) ;;
  manage_members claims attrs tenant project ;;;
  do row <- query SSelect (fun d => find (fun r =>
      bool_decide (gr_request_id r = request_id /\ gr_project_id r = project)) (grant_requests d)) ;;
  do view <- tret (ok_or (grant_request_from_row <$> row) NotFound) ;;
  if bool_decide (grv_state view = lit "pending") && (now >? grv_expires_at_utc view) then
    update_request request_id (lit "expired") None now ;;;
    tret (Err Expired)
  else if negb (bool_decide (grv_state view = lit "pending")) then
    tret (Err (Invalid (lit "request is already " ++ grv_state view)))
  else if bool_decide (principal_id claims = grv_requested_by view) then tret (Err SelfApproval)
  else if approve then
    update_request request_id (lit "approved") (Some (principal_id claims)) now ;;;
    grant_role project (grv_principal_id view) Admin (principal_id claims) now ;;;
    audit_grant (event_type_str MembershipGranted) (as_bytes tenant) (as_bytes project)
      (as_bytes (principal_id claims)) (as_bytes audit_request_id)
      (json_text [("approved_by"%string, principal_id claims); ("principal_id"%string, grv_principal_id view);
                  ("request_id"%string, grv_request_id view)]) now ;;;
    tret (Ok (with_state view (lit "approved") (Some (principal_id claims))))
  else
    update_request request_id (lit "rejected") (Some (principal_id claims)) now ;;;
    audit_grant (lit "membership.grant_rejected") (as_bytes tenant) (as_bytes project)
      (as_bytes (principal_id claims)) (as_bytes audit_request_id)
      (json_text [("principal_id"%string, grv_principal_id view); ("rejected_by"%string, principal_id claims);
                  ("request_id"%string, grv_request_id view)]) now ;;;
    tret (Ok (with_state view (lit "rejected") (grv_approved_by view))).

Definition expire_request (project : str) (now : Z) (r : GrantRequest) : GrantRequest :=
  if bool_decide (gr_project_id r = project /\ gr_state r = lit "pending" /\ gr_expires_at r <= as_i64 now)
  then decide_row (gr_request_id r) (lit "expired") None now r else r.

Definition list_grant_requests (claims : ScopeClaims) (attrs : RequestAttributes) (project : str) (now : Z)
  : G (list GrantRequestView) :=
  do found <- tenant_of project ;;
  do tenant <- tret (ok_or found NotFound) ;;
  manage_members claims attrs tenant project ;;;
  execute SUpdate (fun d => Some (set_requests (fmap (expire_request project now)) d)) ;;;
  query SList (fun d => grant_request_from_row <$>
    sort created_first (filter (fun r => gr_project_id r = project) (grant_requests d))).

(** ** Invites *)

Definition code_hash (code : str) : str := hex_encode (sha256 (as_bytes code)).

(** The [CHECK] on the role of an invite. *)
Definition invite_role_check (role : str) : bool :=
  bool_decide (role ∈ [lit "developer"; lit "operator"; lit "auditor"]).

Definition create_invite (claims : ScopeClaims) (attrs : RequestAttributes) (project : str)
  (role : ProjectRole) (request_id : str) (now : Z) : G (InviteView * str) :=
  if bool_decide (role = Admin) then
    tret (Err (Invalid (lit "invites cannot carry the admin role; grant it via dual-admin request")))
  else
  do found <- tenant_of project ;;
  do tenant <- tret (ok_or found NotFound) ;;
  manage_members claims attrs tenant project ;;;
  let id := lit "inv_" ++ hex_encode (c_id c) in
  let code := hex_encode (c_code c) in
  let row := {| pi_invite_id := id; pi_tenant_id := tenant; pi_project_id := project;
                pi_role := role_str role; pi_invited_by := principal_id claims;
                pi_code_hash_hex := code_hash code; pi_state := lit "pending";
                pi_created_at := as_i64 now;
                pi_expires_at := as_i64 (wrap64 (now + INVITE_TTL_SECONDS));
                pi_accepted_by := None; pi_decided_at := None |} in
  execute SInsert (fun d =>
    if bool_decide (id ∈ pi_invite_id <$> project_invites d)
       || bool_decide (code_hash code ∈ pi_code_hash_hex <$> project_invites d)
       || negb (invite_role_check (role_str role)) then None
    else Some (set_invites (fun rows => rows ++ [row]) d)) ;;;
  audit_grant (lit "membership.invited") (as_bytes tenant) (as_bytes project)
    (as_bytes (principal_id claims)) (as_bytes request_id)
    (json_text [("invite_id"%string, id); ("role"%string, role_str role)]) now ;;;
  tret (Ok ({| iv_invite_id := id; iv_tenant_id := tenant; iv_project_id := project;
               iv_role := role_str role; iv_invited_by := principal_id claims;
               iv_state := lit "pending"; iv_created_at_utc := now;
               iv_expires_at_utc := wrap64 (now + INVITE_TTL_SECONDS); iv_accepted_by := None |}, code)).

Definition decide_invite (id state : str) (by_ : option str) (now : Z) (r : ProjectInvite) : ProjectInvite :=
  if bool_decide (pi_invite_id r = id) then
    {| pi_invite_id := pi_invite_id r; pi_tenant_id := pi_tenant_id r; pi_project_id := pi_project_id r;
       pi_role := pi_role r; pi_invited_by := pi_invited_by r; pi_code_hash_hex := pi_code_hash_hex r;
       pi_state := state; pi_created_at := pi_created_at r; pi_expires_at := pi_expires_at r;
       pi_accepted_by := match by_ with Some _ => by_ | None => pi_accepted_by r end;
       pi_decided_at := Some (as_i64 now) |}
  else r.
Definition update_invite (id state : str) (by_ : option str) (now : Z) : G unit :=
  execute SUpdate (fun d => Some (set_invites (fmap (decide_invite id state by_ now)) d)).

Definition with_invite_state (v : InviteView) (state : str) (by_ : option str) : InviteView :=
  {| iv_invite_id := iv_invite_id v; iv_tenant_id := iv_tenant_id v; iv_project_id := iv_project_id v;
     iv_role := iv_role v; iv_invited_by := iv_invited_by v; iv_state := state;
     iv_created_at_utc := iv_created_at_utc v; iv_expires_at_utc := iv_expires_at_utc v;
     iv_accepted_by := by_ |}.

Definition accept_invite (account_principal_id code request_id : str) (now : Z) : G InviteView :=
  do row <- query SSelect (fun d => find (fun r =>
      bool_decide (pi_code_hash_hex r = code_hash (trim code))) (project_invites d)) ;;
  do view <- tret (ok_or (invite_from_row <$> row) NotFound) ;;
  if bool_decide (iv_state view = lit "pending") && (now >? iv_expires_at_utc view) then
    update_invite (iv_invite_id view) (lit "expired") None now ;;;
    tret (Err Expired)
  else if negb (bool_decide (iv_state view = lit "pending")) then tret (Err NotFound)
  else
  do role <- tret (ok_or (parse_role (iv_role view)) (Invalid (lit "invite carries an unknown role"))) ;;
  update_invite (iv_invite_id view) (lit "accepted") (Some account_principal_id) now ;;;
  grant_role (iv_project_id view) account_principal_id role (iv_invited_by view) now ;;;
  audit_grant (event_type_str MembershipGranted) (as_bytes (iv_tenant_id view)) (as_bytes (iv_project_id view))
    (as_bytes account_principal_id) (as_bytes request_id)
    (json_text [("invite_id"%string, iv_invite_id view); ("principal_id"%string, account_principal_id)]) now ;;;
  tret (Ok (with_invite_state view (lit "accepted") (Some account_principal_id))).

Definition revoke_invite (claims : ScopeClaims) (attrs : RequestAttributes)
  (project invite_id request_id : str) (now : Z) : G InviteView :=
  do found <- tenant_of project ;;
  do tenant <- tret (ok_or found NotFound) ;;
  manage_members claims attrs tenant project ;;;
  do row <- query SSelect (fun d => find (fun r =>
      bool_decide (pi_invite_id r = invite_id /\ pi_project_id r = project)) (project_invites d)) ;;
  do view <- tret (ok_or (invite_from_row <$> row) NotFound) ;;
  if negb (bool_decide (iv_state view = lit "pending")) then
    tret (Err (Invalid (lit "invite is already " ++ iv_state view)))
  else
  update_invite invite_id (lit "revoked") None now ;;;
  audit_grant (lit "membership.invite_revoked") (as_bytes tenant) (as_bytes project)
    (as_bytes (principal_id claims)) (as_bytes request_id)
    (json_text [("invite_id"%string, iv_invite_id view)]) now ;;;
  tret (Ok (with_invite_state view (lit "revoked") (iv_accepted_by view))).

Definition expire_invite (project : str) (now : Z) (r : ProjectInvite) : ProjectInvite :=
  if bool_decide (pi_project_id r = project /\ pi_state r = lit "pending" /\ pi_expires_at r <= as_i64 now)
  then decide_invite (pi_invite_id r) (lit "expired") None now r else r.

Definition list_invites (claims : ScopeClaims) (attrs : RequestAttributes) (project : str) (now : Z)
  : G (list InviteView) :=
  do found <- tenant_of project ;;
  do tenant <- tret (ok_or found NotFound) ;;
  manage_members claims attrs tenant project ;;;
  execute SUpdate (fun d => Some (set_invites (fmap (expire_invite project now)) d)) ;;;
  query SList (fun d => invite_from_row <$>
    sort invited_first (filter (fun r => pi_project_id r = project) (project_invites d))).

(** ** The membership handlers of secret_routes.rs *)

Inductive MemberResponse : Type :=
| BadRequest (msg : str)                                  (* 400 *)
| ScopedDenial                                            (* 404 *)
| ServiceError                                            (* 500 *)
| Created (principal role : str)                          (* 201 *)
| Diverted (r : result GrantError GrantRequestView)       (* the request flow: 202 or its error *)
| Revoked.

Definition post_project_member (claims : ScopeClaims) (attrs : RequestAttributes)
  (project body_principal body_role : str) (now : Z) (d : GrantDb) : MemberResponse * GrantDb :=
  match parse_role body_role with
  | None => (BadRequest (lit "role must be admin, developer, operator, or auditor"), d)
  | Some role =>
      let principal := trim body_principal in
      if bool_decide (principal = []) || (str_len body_principal >? 256) then
        (BadRequest (lit "principal_id must be 1" ++ [8211] ++ lit "256 characters"), d)
      else if bool_decide (role = Admin) then
        let (r, d') := request_admin_grant claims attrs project principal (hex_encode (c_request_id c)) now d in
        (Diverted r, d')
      else
        match (tenant_of project d).1 with
        | Ok (Some tenant) =>
            match (manage_members claims attrs tenant project d).1 with
            | Err _ => (ScopedDenial, d)
            | Ok _ =>
                match grant_role project principal role (principal_id claims) now d with
                | (Err _, d') => (ServiceError, d')
                | (Ok _, d') =>
                    match audit_grant (event_type_str MembershipGranted) (as_bytes tenant) (as_bytes project)
                            (as_bytes (principal_id claims)) (as_bytes (hex_encode (c_request_id c)))
                            (as_bytes principal) now d' with
                    | (Err _, d'') => (ServiceError, d'')
                    | (Ok _, d'') => (Created principal (role_str role), d'')
                    end
                end
            end
        | _ => (ScopedDenial, d)
        end
  end.

Definition delete_project_member (claims : ScopeClaims) (attrs : RequestAttributes)
  (project query_principal : str) (now : Z) (d : GrantDb) : MemberResponse * GrantDb :=
  match (tenant_of project d).1 with
  | Ok (Some tenant) =>
      match (manage_members claims attrs tenant project d).1 with
      | Err _ => (ScopedDenial, d)
      | Ok _ =>
          match execute SRevoke (fun d => Some (set_auth (revoke_project_role project query_principal now) d)) d with
          | (Err _, d') => (ServiceError, d')
          | (Ok _, d') =>
              match audit_grant (event_type_str MembershipRevoked) (as_bytes tenant) (as_bytes project)
                      (as_bytes (principal_id claims)) (as_bytes (hex_encode (c_request_id c)))
                      (as_bytes (trim query_principal)) now d' with
              | (Err _, d'') => (ServiceError, d'')
              | (Ok _, d'') => (Revoked, d'')
              end
          end
      end
  | _ => (ScopedDenial, d)
  end.
End Operations.
