(* ===== verification/GrantsTheory.v ===== *)
(** * Four eyes, and codes that work once

    Every operation of [Grants], whatever statements fail, is a sequence of the
    small steps [micro], each with the side condition under which the code takes
    it.  The safety properties are proved of the steps and hold of any history. *)

From S2P Require Import Prelude Sorting Tables Primitives SamplePrimitives Redact Policy PolicyTheory AuditChain AuditChainTheory Grants.

#[local] Open Scope tx_scope.

(** ** Histories *)

Inductive Action : Type :=
| ARequest (claims : ScopeClaims) (attrs : RequestAttributes) (project principal request_id : str) (now : Z)
| ADecide (claims : ScopeClaims) (attrs : RequestAttributes) (project request_id : str) (approve : bool)
          (audit_request_id : str) (now : Z)
| AListRequests (claims : ScopeClaims) (attrs : RequestAttributes) (project : str) (now : Z)
| ACreateInvite (claims : ScopeClaims) (attrs : RequestAttributes) (project : str) (role : ProjectRole)
                (request_id : str) (now : Z)
| AAcceptInvite (principal code request_id : str) (now : Z)
| ARevokeInvite (claims : ScopeClaims) (attrs : RequestAttributes) (project invite_id request_id : str) (now : Z)
| AListInvites (claims : ScopeClaims) (attrs : RequestAttributes) (project : str) (now : Z)
| APostMember (claims : ScopeClaims) (attrs : RequestAttributes) (project principal role : str) (now : Z)
| ADeleteMember (claims : ScopeClaims) (attrs : RequestAttributes) (project principal : str) (now : Z).

(** ** Small steps *)

Section Micro.
(** Who may have opened, and who approved, the request of an identifier in a project. *)
Variables Op Ap : str -> str -> str -> Prop.

Inductive micro : GrantDb -> GrantDb -> Prop :=
| m_events t d : micro d (set_events t d)
| m_open row d :
    gr_request_id row ∉ gr_request_id <$> grant_requests d -> gr_state row = lit "pending" ->
    Op (gr_request_id row) (gr_project_id row) (gr_requested_by row) ->
    micro d (set_requests (fun rows => rows ++ [row]) d)
| m_decide r state by_ now d :
    r ∈ grant_requests d -> gr_state r = lit "pending" -> state <> lit "pending" ->
    (state = lit "approved" ->
     exists a, by_ = Some a /\ a <> gr_requested_by r /\ Ap (gr_request_id r) (gr_project_id r) a) ->
    micro d (set_requests (fmap (decide_row (gr_request_id r) state by_ now)) d)
| m_expire project now d : micro d (set_requests (fmap (expire_request project now)) d)
| m_promote r by_ now d :
    r ∈ grant_requests d -> gr_state r = lit "approved" ->
    micro d (set_auth (grant_project_role (gr_project_id r) (gr_principal_id r) Admin by_ now) d)
| m_grant project principal role by_ now d :
    role <> Admin -> micro d (set_auth (grant_project_role project principal role by_ now) d)
| m_revoke project principal now d : micro d (set_auth (revoke_project_role project principal now) d)
| m_invite row d :
    pi_invite_id row ∉ pi_invite_id <$> project_invites d ->
    pi_code_hash_hex row ∉ pi_code_hash_hex <$> project_invites d ->
    parse_role (pi_role row) <> Some Admin ->
    micro d (set_invites (fun rows => rows ++ [row]) d)
| m_decide_invite r state by_ now d :
    r ∈ project_invites d -> pi_state r = lit "pending" -> state <> lit "pending" ->
    micro d (set_invites (fmap (decide_invite (pi_invite_id r) state by_ now)) d)
| m_expire_invites project now d : micro d (set_invites (fmap (expire_invite project now)) d).
End Micro.

Section Theory.
Context {HX : Hex} {SH : Sha256} {JS : Json}.

Definition perform (c : Call) (a : Action) (d : GrantDb) : GrantDb :=
  match a with
  | ARequest claims attrs project principal rid now => (request_admin_grant c claims attrs project principal rid now d).2
  | ADecide claims attrs project rid approve arid now => (decide_grant_request c claims attrs project rid approve arid now d).2
  | AListRequests claims attrs project now => (list_grant_requests c claims attrs project now d).2
  | ACreateInvite claims attrs project role rid now => (create_invite c claims attrs project role rid now d).2
  | AAcceptInvite principal code rid now => (accept_invite c principal code rid now d).2
  | ARevokeInvite claims attrs project iid rid now => (revoke_invite c claims attrs project iid rid now d).2
  | AListInvites claims attrs project now => (list_invites c claims attrs project now d).2
  | APostMember claims attrs project principal role now => (post_project_member c claims attrs project principal role now d).2
  | ADeleteMember claims attrs project principal now => (delete_project_member c claims attrs project principal now d).2
  end.

Definition run (h : list (Call * Action)) (d : GrantDb) : GrantDb :=
  foldl (fun d ca => perform ca.1 ca.2 d) d h.

(** The calls that ask for an admin of a project (directly, or through the route for members) or
    approve a request of it, and whose principal makes them. *)
Definition asks (a : Action) (project who : str) : Prop :=
  match a with
  | ARequest claims _ p _ _ _ | APostMember claims _ p _ _ _ => p = project /\ principal_id claims = who
  | _ => False
  end.
Definition approves (a : Action) (id project who : str) : Prop :=
  match a with
  | ADecide claims _ p rid true _ _ => rid = id /\ p = project /\ principal_id claims = who
  | _ => False
  end.

(** Who acts holds the role of an admin in the tables that the call finds, where the request is
    not yet known, or is pending. *)
Definition fit_to_open (a : Action) (d : GrantDb) (id project who : str) : Prop :=
  asks a project who /\ active_role (auth d) project who = Some Admin /\ (id ∉ gr_request_id <$> grant_requests d).
Definition fit_to_approve (a : Action) (d : GrantDb) (id project who : str) : Prop :=
  approves a id project who /\ active_role (auth d) project who = Some Admin /\
  exists r, r ∈ grant_requests d /\ gr_request_id r = id /\ gr_project_id r = project /\ gr_state r = lit "pending".

(** ** Every operation is a sequence of small steps *)

Section Refine.
Variables (Op Ap : str -> str -> str -> Prop) (c : Call).
#[local] Abbreviation does := (Tables.does (micro Op Ap)).

Lemma does_audit et tn pr pp rid reason now d (Q : unit -> GrantDb -> Prop) :
  (forall t, Q tt (set_events t d)) -> does (audit_grant c et tn pr pp rid reason now) d Q.
Proof.
  intros HQ. apply does_execute. intros d'. destruct (audit_secret_event _ _ _ _); [|done].
  intros [= <-]. split; [constructor|done].
Qed.

Lemma does_manage claims attrs tenant project d (Q : unit -> GrantDb -> Prop) :
  (active_role (auth d) project (principal_id claims) = Some Admin -> Q tt d) ->
  does (manage_members c claims attrs tenant project) d Q.
Proof.
  intros HQ. unfold does, manage_members. destruct (authorize _ _ _ _ _ _ _) as [role|] eqn:E; [|done].
  split; [done|]. apply HQ. apply authorize_sound in E. pose proof (pm_role _ _ _ _ _ _ _ E) as Hr%active_role_spec.
  pose proof (pm_action _ _ _ _ _ _ _ E) as Hm%role_allows_spec. by destruct role.
Qed.

Lemma does_entry {A} claims attrs project (k : str -> G A) d Q :
  (forall tenant, active_role (auth d) project (principal_id claims) = Some Admin -> does (k tenant) d Q) ->
  does (do found <- tenant_of c project ;;
        do tenant <- tret (ok_or found NotFound) ;;
        manage_members c claims attrs tenant project ;;; k tenant) d Q.
Proof.
  intros Hk. eapply (does_bind _ _ _ _ (fun _ d' => d' = d)); [by apply does_query|]. intros found d' ->.
  eapply (does_bind _ _ _ _ (fun _ d' => d' = d)); [by apply does_ret|]. intros tenant d' ->.
  eapply (does_bind _ _ _ _ (fun _ d' => d' = d /\ active_role (auth d) project (principal_id claims) = Some Admin)).
  - by apply does_manage.
  - intros _ d' (-> & Ha). auto.
Qed.

Variable d : GrantDb.

Lemma request_steps claims attrs project principal rid now :
  (forall id, active_role (auth d) project (principal_id claims) = Some Admin -> (id ∉ gr_request_id <$> grant_requests d) ->
   Op id project (principal_id claims)) ->
  rtc (micro Op Ap) d (request_admin_grant c claims attrs project principal rid now d).2.
Proof.
  intros HO. apply (does_steps _ _ _ (fun _ _ => True)). unfold request_admin_grant. apply does_entry. intros tenant Ha.
  case_bool_decide; [by apply does_ret|].
  eapply (does_bind _ _ _ _ (fun _ d' => d' = d)); [by apply does_query|]. intros [r|] d' ->; [by apply does_ret|].
  eapply (does_bind _ _ _ _ (fun _ _ => True)).
  { apply does_execute. intros d'. case_bool_decide; [done|]. intros [= <-]. split; [|done].
    apply m_open; simpl; auto. }
  intros _ d' _. eapply (does_bind _ _ _ _ (fun _ _ => True)); [by apply does_audit|].
  intros _ d'' _. by apply does_ret.
Qed.

Lemma decide_steps claims attrs project rid approve arid now :
  (approve = true -> active_role (auth d) project (principal_id claims) = Some Admin ->
   forall r, r ∈ grant_requests d -> gr_request_id r = rid -> gr_project_id r = project -> gr_state r = lit "pending" ->
   Ap rid project (principal_id claims)) ->
  rtc (micro Op Ap) d (decide_grant_request c claims attrs project rid approve arid now d).2.
Proof.
  intros HA. apply (does_steps _ _ _ (fun _ _ => True)). unfold decide_grant_request. apply does_entry. intros tenant Ha.
  eapply (does_bind _ _ _ _ (fun row d' => d' = d /\ row = _)); [by apply does_query|].
  intros row d' (-> & Erow).
  eapply (does_bind _ _ _ _ (fun v d' => d' = d /\ exists r, row = Some r /\ v = grant_request_from_row r)).
  { apply does_ret. intros v Hv. split; [done|]. destruct row as [r|]; [|done]. injection Hv as <-. eauto. }
  intros v d' (-> & r & -> & ->). symmetry in Erow. apply find_row in Erow as (Hin & Hid & Hpr).
  cbn [grv_state grant_request_from_row grv_requested_by grv_principal_id].
  assert (forall state by_, gr_state r = lit "pending" -> state <> lit "pending" ->
    (state = lit "approved" -> exists a, by_ = Some a /\ a <> gr_requested_by r /\ Ap rid (gr_project_id r) a) ->
    micro Op Ap d (set_requests (fmap (decide_row rid state by_ now)) d)) as Hstep.
  { intros state by_ ???. subst rid. by apply m_decide. }
  case_bool_decide as Hpend; simpl.
  2: by apply does_ret.
  destruct (now >? _); simpl.
  { eapply (does_bind _ _ _ _ (fun _ _ => True)); [|intros; by apply does_ret].
    apply does_execute. intros d' [= <-]. split; [by apply Hstep|done]. }
  case_bool_decide as Hself; [by apply does_ret|]. destruct approve.
  - eapply (does_bind _ _ _ _ (fun _ d' => exists r', r' ∈ grant_requests d' /\ gr_state r' = lit "approved" /\
       gr_project_id r' = project /\ gr_principal_id r' = gr_principal_id r)).
    { apply does_execute. intros d' [= <-]. split.
      - apply Hstep; [done|done|]. intros _. exists (principal_id claims). rewrite Hpr. eauto.
      - exists (decide_row rid (lit "approved") (Some (principal_id claims)) now r). split.
        + simpl. by apply list_elem_of_fmap_2.
        + unfold decide_row. rewrite bool_decide_true by done. auto. }
    intros _ d' (r' & Hr' & Hs' & Hp' & Hq').
    eapply (does_bind _ _ _ _ (fun _ _ => True)).
    { apply does_execute. intros d'' [= <-]. split; [|done]. rewrite <- Hp', <- Hq'. by apply m_promote. }
    intros _ d'' _. eapply (does_bind _ _ _ _ (fun _ _ => True)); [by apply does_audit|]. intros; by apply does_ret.
  - eapply (does_bind _ _ _ _ (fun _ _ => True)).
    { apply does_execute. intros d' [= <-]. split; [by apply Hstep|done]. }
    intros _ d'' _. eapply (does_bind _ _ _ _ (fun _ _ => True)); [by apply does_audit|]. intros; by apply does_ret.
Qed.

Lemma list_requests_steps claims attrs project now :
  rtc (micro Op Ap) d (list_grant_requests c claims attrs project now d).2.
Proof.
  apply (does_steps _ _ _ (fun _ _ => True)). unfold list_grant_requests. apply does_entry. intros tenant Ha.
  eapply (does_bind _ _ _ _ (fun _ _ => True)); [|intros; by apply does_query].
  apply does_execute. intros d' [= <-]. split; [constructor|done].
Qed.

Lemma create_invite_steps claims attrs project role rid now :
  rtc (micro Op Ap) d (create_invite c claims attrs project role rid now d).2.
Proof.
  apply (does_steps _ _ _ (fun _ _ => True)). unfold create_invite.
  case_bool_decide as Hrole; [by apply does_ret|]. apply does_entry. intros tenant Ha.
  eapply (does_bind _ _ _ _ (fun _ _ => True)).
  { apply does_execute. intros d'. case_bool_decide as H1; [done|]. case_bool_decide as H2; [done|].
    destruct (invite_role_check _); [|done]. simpl. intros [= <-]. split; [|done].
    apply m_invite; simpl; auto. by destruct role. }
  intros _ d' _. eapply (does_bind _ _ _ _ (fun _ _ => True)); [by apply does_audit|]. intros; by apply does_ret.
Qed.

Lemma update_invite_steps {A} r state by_ now (k : G A) Q :
  r ∈ project_invites d -> pi_state r = lit "pending" -> state <> lit "pending" ->
  (forall d', does k d' Q) -> does (update_invite c (pi_invite_id r) state by_ now ;;; k) d Q.
Proof.
  intros Hr Hp Hs Hk. eapply (does_bind _ _ _ _ (fun _ _ => True)); [|auto].
  apply does_execute. intros d' [= <-]. split; [by apply m_decide_invite|done].
Qed.

Lemma accept_steps principal code rid now :
  (forall r, r ∈ project_invites d -> parse_role (pi_role r) <> Some Admin) ->
  rtc (micro Op Ap) d (accept_invite c principal code rid now d).2.
Proof.
  intros Hinv. apply (does_steps _ _ _ (fun _ _ => True)). unfold accept_invite.
  eapply (does_bind _ _ _ _ (fun row d' => d' = d /\ row = _)); [by apply does_query|].
  intros row d' (-> & Erow).
  eapply (does_bind _ _ _ _ (fun v d' => d' = d /\ exists r, row = Some r /\ v = invite_from_row r)).
  { apply does_ret. intros v Hv. split; [done|]. destruct row as [r|]; [|done]. injection Hv as <-. eauto. }
  intros v d' (-> & r & -> & ->). symmetry in Erow. apply find_row in Erow as (Hin & Hid).
  cbn [iv_state invite_from_row iv_invite_id iv_role].
  case_bool_decide as Hpend; simpl; [|by apply does_ret].
  destruct (now >? _); simpl.
  { apply update_invite_steps; auto. intros. by apply does_ret. }
  eapply (does_bind _ _ _ _ (fun role d' => d' = d /\ role <> Admin)).
  { apply does_ret. intros role Hrole. split; [done|]. specialize (Hinv r Hin).
    destruct (parse_role (pi_role r)); [|done]. injection Hrole as <-. congruence. }
  intros role d' (-> & Hrole). apply update_invite_steps; auto. intros d'.
  eapply (does_bind _ _ _ _ (fun _ _ => True)).
  { apply does_execute. intros d'' [= <-]. split; [by apply m_grant|done]. }
  intros _ d'' _. eapply (does_bind _ _ _ _ (fun _ _ => True)); [by apply does_audit|]. intros; by apply does_ret.
Qed.

Lemma revoke_invite_steps claims attrs project iid rid now :
  rtc (micro Op Ap) d (revoke_invite c claims attrs project iid rid now d).2.
Proof.
  apply (does_steps _ _ _ (fun _ _ => True)). unfold revoke_invite. apply does_entry. intros tenant Ha.
  eapply (does_bind _ _ _ _ (fun row d' => d' = d /\ row = _)); [by apply does_query|].
  intros row d' (-> & Erow).
  eapply (does_bind _ _ _ _ (fun v d' => d' = d /\ exists r, row = Some r /\ v = invite_from_row r)).
  { apply does_ret. intros v Hv. split; [done|]. destruct row as [r|]; [|done]. injection Hv as <-. eauto. }
  intros v d' (-> & r & -> & ->). symmetry in Erow. apply find_row in Erow as (Hin & <- & Hpr).
  cbn [iv_state invite_from_row]. case_bool_decide as Hpend; simpl; [|by apply does_ret].
  apply update_invite_steps; auto. intros d'.
  eapply (does_bind _ _ _ _ (fun _ _ => True)); [by apply does_audit|]. intros; by apply does_ret.
Qed.

Lemma list_invites_steps claims attrs project now :
  rtc (micro Op Ap) d (list_invites c claims attrs project now d).2.
Proof.
  apply (does_steps _ _ _ (fun _ _ => True)). unfold list_invites. apply does_entry. intros tenant Ha.
  eapply (does_bind _ _ _ _ (fun _ _ => True)); [|intros; by apply does_query].
  apply does_execute. intros d' [= <-]. split; [constructor|done].
Qed.

(** Ap statement in a handler: what it leaves behind is a small step away. *)
Lemma execute_steps s f d1 r d2 :
  execute c s f d1 = (r, d2) -> (forall d', f d1 = Some d' -> micro Op Ap d1 d') -> rtc (micro Op Ap) d1 d2.
Proof.
  unfold execute, execute_if. intros E Hf. destruct (c_fails c s); [by injection E as <- <-|].
  destruct (f d1) as [d'|] eqn:Ed; injection E as <- <-; [apply rtc_once, Hf|]; done.
Qed.
Lemma audit_steps et tn pr pp rid reason now d1 r d2 :
  audit_grant c et tn pr pp rid reason now d1 = (r, d2) -> rtc (micro Op Ap) d1 d2.
Proof.
  intros E. unfold audit_grant in E. eapply execute_steps; [exact E|]. intros d'. cbv beta. destruct (audit_secret_event _ _ _ _); [|done].
  intros [= <-]. constructor.
Qed.

Lemma post_member_steps claims attrs project principal role now :
  (forall id, active_role (auth d) project (principal_id claims) = Some Admin -> (id ∉ gr_request_id <$> grant_requests d) ->
   Op id project (principal_id claims)) ->
  rtc (micro Op Ap) d (post_project_member c claims attrs project principal role now d).2.
Proof.
  intros HO. unfold post_project_member. destruct (parse_role role) as [role'|]; [|done].
  destruct (_ || _); [done|]. case_bool_decide as Hrole.
  { pose proof (request_steps claims attrs project (trim principal) (hex_encode (c_request_id c)) now HO) as Hs.
    by destruct (request_admin_grant _ _ _ _ _ _ _ _). }
  destruct (tenant_of c project d).1 as [[tenant|]|]; [|done..].
  destruct (manage_members _ _ _ _ _ _).1; [|done].
  destruct (grant_role _ _ _ _ _ _ _) as [[|] d1] eqn:E1;
    (assert (rtc (micro Op Ap) d d1) as H1 by (eapply execute_steps; [exact E1|]; intros d' [= <-]; by apply m_grant));
    [|done].
  destruct (audit_grant _ _ _ _ _ _ _ _ _) as [[|] d2] eqn:E2; apply audit_steps in E2; simpl; by etrans.
Qed.

Lemma delete_member_steps claims attrs project principal now :
  rtc (micro Op Ap) d (delete_project_member c claims attrs project principal now d).2.
Proof.
  unfold delete_project_member. destruct (tenant_of c project d).1 as [[tenant|]|]; [|done..].
  destruct (manage_members _ _ _ _ _ _).1; [|done].
  destruct (execute _ _ _ _) as [[|] d1] eqn:E1;
    (assert (rtc (micro Op Ap) d d1) as H1 by (eapply execute_steps; [exact E1|]; intros d' [= <-]; by apply m_revoke));
    [|done].
  destruct (audit_grant _ _ _ _ _ _ _ _ _) as [[|] d2] eqn:E2; apply audit_steps in E2; simpl; by etrans.
Qed.

Lemma perform_steps a :
  (forall id project who, fit_to_open a d id project who -> Op id project who) ->
  (forall id project who, fit_to_approve a d id project who -> Ap id project who) ->
  (forall r, r ∈ project_invites d -> parse_role (pi_role r) <> Some Admin) ->
  rtc (micro Op Ap) d (perform c a d).
Proof.
  unfold fit_to_open, fit_to_approve. destruct a; intros HO HA Hi; simpl.
  - apply request_steps. intros id ??. by apply HO.
  - apply decide_steps. intros -> ? r ????. apply HA. split_and!; eauto 10. done.
  - apply list_requests_steps.
  - apply create_invite_steps.
  - by apply accept_steps.
  - apply revoke_invite_steps.
  - apply list_invites_steps.
  - apply post_member_steps. intros id ??. by apply HO.
  - apply delete_member_steps.
Qed.
End Refine.

(** ** The invariant *)

(** What the keys and checks of the schema guarantee. *)
Record schema (d : GrantDb) : Prop := {
  ids_unique : NoDup (gr_request_id <$> grant_requests d);
  invite_ids_unique : NoDup (pi_invite_id <$> project_invites d);
  codes_unique : NoDup (pi_code_hash_hex <$> project_invites d);
  no_admin_invites : forall r, r ∈ project_invites d -> parse_role (pi_role r) <> Some Admin;
}.

(** Every request was opened by an admin; every approved one was approved by a
    different admin; and an admin membership is an initial one or has its approved
    request. *)
Record consistent (Op Ap : str -> str -> str -> Prop) (d0 d : GrantDb) : Prop := {
  tables : schema d;
  opened : forall r, r ∈ grant_requests d -> Op (gr_request_id r) (gr_project_id r) (gr_requested_by r);
  approved : forall r, r ∈ grant_requests d -> gr_state r = lit "approved" ->
    exists a, gr_approved_by r = Some a /\ a <> gr_requested_by r /\ Ap (gr_request_id r) (gr_project_id r) a;
  admins : forall project p m, project_members (auth d) !! (project, p) = Some m -> m_role m = lit "admin" ->
    (exists m0, project_members (auth d0) !! (project, p) = Some m0 /\ m_role m0 = lit "admin") \/
    (exists r, r ∈ grant_requests d /\ gr_state r = lit "approved" /\ gr_project_id r = project /\
               gr_principal_id r = p);
}.

Lemma decide_row_id id state by_ now r : gr_request_id (decide_row id state by_ now r) = gr_request_id r.
Proof. unfold decide_row. by case_bool_decide. Qed.
Lemma expire_request_id project now r : gr_request_id (expire_request project now r) = gr_request_id r.
Proof. unfold expire_request. case_bool_decide; [apply decide_row_id|done]. Qed.
Lemma decide_invite_id id state by_ now r : pi_invite_id (decide_invite id state by_ now r) = pi_invite_id r.
Proof. unfold decide_invite. by case_bool_decide. Qed.
Lemma decide_invite_code id state by_ now r :
  pi_code_hash_hex (decide_invite id state by_ now r) = pi_code_hash_hex r.
Proof. unfold decide_invite. by case_bool_decide. Qed.
Lemma decide_invite_role id state by_ now r : pi_role (decide_invite id state by_ now r) = pi_role r.
Proof. unfold decide_invite. by case_bool_decide. Qed.

(** Ap row that is no longer pending is not touched by any step. *)
Lemma settled_row Op Ap d d' r :
  NoDup (gr_request_id <$> grant_requests d) -> micro Op Ap d d' ->
  r ∈ grant_requests d -> gr_state r <> lit "pending" -> r ∈ grant_requests d'.
Proof.
  intros Hn Hm Hr Hs. destruct Hm as [| | r' state by_ now d Hr' Hp Hst Ha|project now d| | | | | |]; simpl; try done.
  - apply elem_of_app. by left.
  - apply list_elem_of_fmap. exists r. split; [|done]. unfold decide_row. rewrite bool_decide_false; [done|].
    intros E. apply Hs. by rewrite (key_unique _ _ _ _ Hn Hr Hr' E).
  - apply list_elem_of_fmap. exists r. split; [|done]. unfold expire_request. rewrite bool_decide_false; tauto.
Qed.
Lemma settled_invite Op Ap d d' r :
  NoDup (pi_invite_id <$> project_invites d) -> micro Op Ap d d' ->
  r ∈ project_invites d -> pi_state r <> lit "pending" -> r ∈ project_invites d'.
Proof.
  intros Hn Hm Hr Hs. destruct Hm as [| | | | | | | |r' state by_ now d Hr' Hp Hst|project now d]; simpl; try done.
  - apply elem_of_app. by left.
  - apply list_elem_of_fmap. exists r. split; [|done]. unfold decide_invite. rewrite bool_decide_false; [done|].
    intros E. apply Hs. by rewrite (key_unique _ _ _ _ Hn Hr Hr' E).
  - apply list_elem_of_fmap. exists r. split; [|done]. unfold expire_invite. rewrite bool_decide_false; tauto.
Qed.

Lemma expire_request_cases project now r :
  expire_request project now r = r \/
  (gr_state (expire_request project now r) = lit "expired" /\ gr_state r = lit "pending" /\
   gr_project_id (expire_request project now r) = gr_project_id r /\
   gr_requested_by (expire_request project now r) = gr_requested_by r /\
   gr_request_id (expire_request project now r) = gr_request_id r).
Proof.
  unfold expire_request. case_bool_decide as Hc; [|by left]. right. unfold decide_row.
  rewrite bool_decide_true by done. simpl. tauto.
Qed.

Lemma decided_row_fields id state by_ now r :
  gr_project_id (decide_row id state by_ now r) = gr_project_id r /\
  gr_requested_by (decide_row id state by_ now r) = gr_requested_by r /\
  gr_request_id (decide_row id state by_ now r) = gr_request_id r.
Proof. unfold decide_row. by case_bool_decide. Qed.

Lemma consistent_requests Op Ap d0 d f :
  consistent Op Ap d0 d -> micro Op Ap d (set_requests f d) -> schema (set_requests f d) ->
  (forall r, r ∈ f (grant_requests d) -> Op (gr_request_id r) (gr_project_id r) (gr_requested_by r)) ->
  (forall r, r ∈ f (grant_requests d) -> gr_state r = lit "approved" -> r ∈ grant_requests d \/
     exists a, gr_approved_by r = Some a /\ a <> gr_requested_by r /\ Ap (gr_request_id r) (gr_project_id r) a) ->
  consistent Op Ap d0 (set_requests f d).
Proof.
  intros [[Hu _ _ _] Ho Hap Had] Hm Hn HW Hap'. split; simpl; auto.
  - intros r Hr Hs. destruct (Hap' r Hr Hs); auto.
  - intros project p m Em Hrole. destruct (Had project p m Em Hrole) as [?|(r & Hr & Hs & Hpr & Hpp)]; [by left|right].
    exists r. split; [|done]. apply (settled_row Op Ap d (set_requests f d) r Hu Hm Hr). by rewrite Hs.
Qed.

Lemma consistent_auth Op Ap d0 d f :
  consistent Op Ap d0 d -> schema (set_auth f d) ->
  (forall project p m, project_members (f (auth d)) !! (project, p) = Some m -> m_role m = lit "admin" ->
     (exists m', project_members (auth d) !! (project, p) = Some m' /\ m_role m' = lit "admin") \/
     (exists r, r ∈ grant_requests d /\ gr_state r = lit "approved" /\ gr_project_id r = project /\
                gr_principal_id r = p)) ->
  consistent Op Ap d0 (set_auth f d).
Proof.
  intros [_ Ho Hap Had] Hsc Hf. split; simpl; auto.
  intros project p m Em Hrole. destruct (Hf project p m Em Hrole) as [(m' & Em' & Hr')|?]; [|by right].
  by apply (Had project p m').
Qed.

Lemma granted_rows project principal role by_ now db project' p' m :
  project_members (grant_project_role project principal role by_ now db) !! (project', p') = Some m ->
  (project' = project /\ p' = principal /\ m_role m = role_str role) \/
  project_members db !! (project', p') = Some m.
Proof.
  unfold grant_project_role. simpl. rewrite lookup_insert_Some.
  intros [([= -> ->] & <-)|(_ & ?)]; [left|right]; done.
Qed.

Lemma expire_invite_same {B} (g : ProjectInvite -> B) project now r :
  (forall id state by_ now, g (decide_invite id state by_ now r) = g r) ->
  g (expire_invite project now r) = g r.
Proof. intros E. unfold expire_invite. by case_bool_decide. Qed.

Lemma schema_micro Op Ap d d' : schema d -> micro Op Ap d d' -> schema d'.
Proof.
  intros HC Hm. pose proof HC as [Hu Hiu Hcu Hni]. destruct Hm; split; simpl; auto.
  - rewrite fmap_app. by apply NoDup_snoc.
  - by rewrite fmap_same by apply decide_row_id.
  - by rewrite fmap_same by apply expire_request_id.
  - rewrite fmap_app. by apply NoDup_snoc.
  - rewrite fmap_app. by apply NoDup_snoc.
  - intros r [Hr| ->%list_elem_of_singleton]%elem_of_app; auto.
  - by rewrite fmap_same by apply decide_invite_id.
  - by rewrite fmap_same by apply decide_invite_code.
  - intros r' (r0 & -> & Hr0)%list_elem_of_fmap. rewrite decide_invite_role. auto.
  - rewrite fmap_same; [done|]. intros r. apply expire_invite_same. intros. apply decide_invite_id.
  - rewrite fmap_same; [done|]. intros r. apply expire_invite_same. intros. apply decide_invite_code.
  - intros r' (r0 & -> & Hr0)%list_elem_of_fmap.
    rewrite (expire_invite_same pi_role) by (intros; apply decide_invite_role). auto.
Qed.

Lemma consistent_micro Op Ap d0 d d' : consistent Op Ap d0 d -> micro Op Ap d d' -> consistent Op Ap d0 d'.
Proof.
  intros HC Hm. pose proof HC as [Hsc Ho Hap Had]. pose proof (schema_micro Op Ap d d' Hsc Hm) as Hsc'.
  destruct Hm.
  - by split.
  - apply consistent_requests; [done|by apply m_open|done|..].
    + intros r [Hr| ->%list_elem_of_singleton]%elem_of_app; auto.
    + intros r [Hr| ->%list_elem_of_singleton]%elem_of_app Hs; [by left|].
      match goal with Hp : gr_state row = _ |- _ => by rewrite Hp in Hs end.
  - apply consistent_requests; [done|by apply m_decide|done|..].
    + intros r' (r0 & -> & Hr0)%list_elem_of_fmap.
      destruct (decided_row_fields (gr_request_id r) state by_ now r0) as (-> & -> & ->). auto.
    + intros r' (r0 & -> & Hr0)%list_elem_of_fmap Hs. unfold decide_row in *.
      case_bool_decide as E; [right|by left]. simpl in *.
      assert (r0 = r) as -> by by apply (key_unique _ _ _ _ (ids_unique d Hsc)).
      match goal with Happ : state = _ -> _ |- _ => destruct (Happ Hs) as (a & -> & ? & ?) end. eauto.
  - apply consistent_requests; [done|by apply m_expire|done|..].
    + intros r' (r0 & -> & Hr0)%list_elem_of_fmap.
      destruct (expire_request_cases project now r0) as [->|(_ & _ & -> & -> & ->)]; auto.
    + intros r' (r0 & -> & Hr0)%list_elem_of_fmap Hs. left.
      destruct (expire_request_cases project now r0) as [->|(E & _)]; [done|]. by rewrite E in Hs.
  - apply consistent_auth; [done|done|]. intros project p m [(-> & -> & _)|Em]%granted_rows Hrole; [right|left]; eauto 10.
  - apply consistent_auth; [done|done|]. intros project' p m [(-> & -> & E)|Em]%granted_rows Hrole; [|left; eauto].
    rewrite Hrole in E. by destruct role.
  - apply consistent_auth; [done|done|]. intros project' p m Em Hrole. left. unfold revoke_project_role in Em.
    destruct (project_members (auth d) !! (project, principal)) as [m0|] eqn:E0; [|eauto].
    case_decide; [|eauto]. simpl in Em. apply lookup_insert_Some in Em as [([= <- <-] & <-)|(_ & ?)]; eauto.
  - by split.
  - by split.
  - by split.
Qed.

Lemma consistent_mono (Op Op' Ap Ap' : str -> str -> str -> Prop) d0 d :
  (forall r, r ∈ grant_requests d -> Op (gr_request_id r) (gr_project_id r) (gr_requested_by r) ->
   Op' (gr_request_id r) (gr_project_id r) (gr_requested_by r)) ->
  (forall r a, r ∈ grant_requests d -> gr_state r = lit "approved" -> Ap (gr_request_id r) (gr_project_id r) a ->
   Ap' (gr_request_id r) (gr_project_id r) a) ->
  consistent Op Ap d0 d -> consistent Op' Ap' d0 d.
Proof.
  intros HO HA [Hsc Ho Hap Had]. split; auto. intros r Hr Hs. destruct (Hap r Hr Hs) as (a & ? & ? & ?). eauto 10.
Qed.

(** The call that opened the request, and the one that approved it: made by [who], who held the role
    of an admin of the project in the tables just before it; the first finds no such request
    and leaves one, the second finds it pending and leaves it approved. *)
Definition opened_by (h : list (Call * Action)) (d0 : GrantDb) (id project who : str) : Prop :=
  exists k ca, h !! k = Some ca /\ fit_to_open ca.2 (run (take k h) d0) id project who /\
    (id ∈ gr_request_id <$> grant_requests (run (take (S k) h) d0)).
Definition approved_by (h : list (Call * Action)) (d0 : GrantDb) (id project who : str) : Prop :=
  exists k ca, h !! k = Some ca /\ fit_to_approve ca.2 (run (take k h) d0) id project who /\
    exists r, r ∈ grant_requests (run (take (S k) h) d0) /\ gr_request_id r = id /\ gr_state r = lit "approved".

Lemma run_snoc h ca d : run (h ++ [ca]) d = perform ca.1 ca.2 (run h d).
Proof. unfold run. by rewrite foldl_app. Qed.

Lemma run_schema h d : schema d -> schema (run h d).
Proof.
  intros Hd. induction h as [|ca h IH] using rev_ind; [done|]. rewrite run_snoc.
  eapply rtc_inv; [|apply (perform_steps (fun _ _ _ => True) (fun _ _ _ => True)); [done|done|apply IH]|exact IH].
  intros a b. apply schema_micro.
Qed.

Lemma opened_by_snoc h ca d0 id project who : opened_by h d0 id project who -> opened_by (h ++ [ca]) d0 id project who.
Proof.
  intros (k & ca' & Hk & Hf & Ha). pose proof (lookup_lt_Some _ _ _ Hk). exists k, ca'. rewrite lookup_app_l, !take_app_le by lia. done.
Qed.
Lemma approved_by_snoc h ca d0 id project who : approved_by h d0 id project who -> approved_by (h ++ [ca]) d0 id project who.
Proof.
  intros (k & ca' & Hk & Hf & Ha). pose proof (lookup_lt_Some _ _ _ Hk). exists k, ca'. rewrite lookup_app_l, !take_app_le by lia. done.
Qed.
Lemma last_call (h : list (Call * Action)) ca : (h ++ [ca]) !! length h = Some ca /\ take (length h) (h ++ [ca]) = h /\ take (S (length h)) (h ++ [ca]) = h ++ [ca].
Proof.
  split; [by rewrite lookup_app_r, Nat.sub_diag|]. rewrite take_app_length, take_ge; [done|]. rewrite length_app. cbn. lia.
Qed.

Lemma run_consistent h d0 :
  schema d0 -> grant_requests d0 = [] -> consistent (opened_by h d0) (approved_by h d0) d0 (run h d0).
Proof.
  intros Hd E. induction h as [|ca h IH] using rev_ind.
  - simpl. split; [done|..]; try (rewrite E; set_solver).
  - destruct (last_call h ca) as (Hl & Hb & Ha).
    set (Op := fun id project who => opened_by h d0 id project who \/ fit_to_open ca.2 (run h d0) id project who).
    set (Ap := fun id project who => approved_by h d0 id project who \/ fit_to_approve ca.2 (run h d0) id project who).
    assert (consistent Op Ap d0 (run (h ++ [ca]) d0)) as HC.
    { assert (consistent Op Ap d0 (run h d0)) as HC by (eapply consistent_mono; [| |exact IH]; unfold Op, Ap; auto).
      rewrite run_snoc. eapply rtc_inv; [|apply (perform_steps Op Ap)|exact HC].
      - intros x y. apply consistent_micro.
      - intros. by right.
      - intros. by right.
      - apply HC. }
    eapply consistent_mono; [| |exact HC].
    + intros r Hr [?|Hf]; [by apply opened_by_snoc|]. exists (length h), ca. rewrite Hb, Ha. split_and!; try done. by apply list_elem_of_fmap_2.
    + intros r a Hr Hs [?|Hf]; [by apply approved_by_snoc|]. exists (length h), ca. rewrite Hb, Ha. eauto 10.
Qed.

Lemma active_admin_row db project p :
  active_role db project p = Some Admin ->
  exists m, project_members db !! (project, p) = Some m /\ m_role m = lit "admin".
Proof.
  unfold active_role. destruct (project_members db !! (project, p)) as [m|]; [|done].
  case_decide; [|done]. unfold parse_role. intros Hr. exists m. split; [done|]. by repeat case_decide.
Qed.

(** An admin row in the initial tables, revoked or not. *)
Definition initial_admin (d0 : GrantDb) (project p : str) : Prop :=
  exists m, project_members (auth d0) !! (project, p) = Some m /\ m_role m = lit "admin".

Lemma new_admin_approved h d0 project p :
  schema d0 -> grant_requests d0 = [] ->
  active_role (auth (run h d0)) project p = Some Admin ->
  initial_admin d0 project p \/
  exists r a, r ∈ grant_requests (run h d0) /\ gr_state r = lit "approved" /\ gr_project_id r = project /\
    gr_principal_id r = p /\ gr_approved_by r = Some a /\ a <> gr_requested_by r /\
    opened_by h d0 (gr_request_id r) project (gr_requested_by r) /\ approved_by h d0 (gr_request_id r) project a.
Proof.
  intros Hs E Hr. pose proof (run_consistent h d0 Hs E) as [_ Ho Hap Had].
  apply active_admin_row in Hr as (m & Em & Hrole).
  destruct (Had project p m Em Hrole) as [?|(r & Hr & Hst & <- & <-)]; [by left|right].
  destruct (Hap r Hr Hst) as (a & Ha & Hne & Hw). exists r, a. auto 15.
Qed.

Lemma lone_admin h d0 project :
  schema d0 -> grant_requests d0 = [] ->
  (forall a b, initial_admin d0 project a -> initial_admin d0 project b -> a = b) ->
  forall p, active_role (auth (run h d0)) project p = Some Admin -> initial_admin d0 project p.
Proof.
  intros Hs E Huniq. remember (length h) as n eqn:Hn. revert h Hn.
  induction n as [n IH] using lt_wf_ind. intros h -> p Hp.
  destruct (new_admin_approved h d0 project p Hs E Hp) as [?|(r & a & _ & _ & _ & _ & _ & Hne & Hb & Ha)]; [done|].
  assert (forall k ca q, h !! k = Some ca -> active_role (auth (run (take k h) d0)) project q = Some Admin -> initial_admin d0 project q) as Hin.
  { intros k ca q Hk%lookup_lt_Some Hq. apply (IH (length (take k h))) with (take k h); [|done|done].
    rewrite length_take. lia. }
  destruct Hne. destruct Ha as (k & ca & Hk & (_ & Ha & _) & _), Hb as (k' & ca' & Hk' & (_ & Hb & _) & _). eauto.
Qed.

(** C28: four eyes.  In any history of requests, decisions, invites, direct grants and
    revocations that starts from tables that meet the keys and checks of their schema, with no
    grant request on record, with statements failing at will and any clock, every active admin of a project has an admin row from the start, or has an
    approved request that two different principals opened and approved: one call opened it, made
    by a principal who was an active admin of the project in the tables that the call found, and
    one call approved it while it was pending, made by another who was an active admin in the
    tables that call found.  A project that starts with at most one admin row never
    gains another admin. *)
Theorem four_eyes h d0 project p :
  schema d0 -> grant_requests d0 = [] ->
  active_role (auth (run h d0)) project p = Some Admin ->
  (initial_admin d0 project p \/
   exists r a, r ∈ grant_requests (run h d0) /\ gr_state r = lit "approved" /\ gr_project_id r = project /\
     gr_principal_id r = p /\ gr_approved_by r = Some a /\ a <> gr_requested_by r /\
     opened_by h d0 (gr_request_id r) project (gr_requested_by r) /\ approved_by h d0 (gr_request_id r) project a) /\
  ((forall a b, initial_admin d0 project a -> initial_admin d0 project b -> a = b) ->
   initial_admin d0 project p).
Proof. intros. split; [by apply new_admin_approved|]. intros. by eapply lone_admin. Qed.

Lemma settled_history h d :
  schema d ->
  (forall r, r ∈ grant_requests d -> gr_state r <> lit "pending" -> r ∈ grant_requests (run h d)) /\
  (forall r, r ∈ project_invites d -> pi_state r <> lit "pending" -> r ∈ project_invites (run h d)).
Proof.
  intros Hd. induction h as [|ca h (IH1 & IH2)] using rev_ind; [done|]. rewrite run_snoc.
  pose proof (run_schema h d Hd) as Hs.
  assert (rtc (micro (fun _ _ _ => True) (fun _ _ _ => True)) (run h d) (perform ca.1 ca.2 (run h d))) as Hsteps
    by (apply perform_steps; [done|done|apply Hs]).
  split; intros r Hr Hst; [specialize (IH1 r Hr Hst)|specialize (IH2 r Hr Hst)].
  - eapply (rtc_inv _ (fun d => schema d /\ r ∈ grant_requests d)); [|exact Hsteps|done].
    intros a b (Ha & Hin) Hm. split; [by eapply schema_micro|]. eapply settled_row; eauto. apply Ha.
  - eapply (rtc_inv _ (fun d => schema d /\ r ∈ project_invites d)); [|exact Hsteps|done].
    intros a b (Ha & Hin) Hm. split; [by eapply schema_micro|]. eapply settled_invite; eauto. apply Ha.
Qed.

(** Decisions are final.  A grant request or invite that has left the pending
    state keeps its row, unchanged, through every later history. *)
Theorem decisions_final h d :
  schema d ->
  (forall r, r ∈ grant_requests d -> gr_state r <> lit "pending" -> r ∈ grant_requests (run h d)) /\
  (forall r, r ∈ project_invites d -> pi_state r <> lit "pending" -> r ∈ project_invites (run h d)).
Proof. apply settled_history. Qed.

(** ** Successful runs *)

Lemma audit_ok c et tn pr pp rid reason now d u d' :
  audit_grant c et tn pr pp rid reason now d = (Ok u, d') -> exists t, d' = set_events t d.
Proof.
  intros (_ & E)%execute_if_ok. destruct (audit_secret_event _ _ _ _); [|done]. injection E as <-. eauto.
Qed.

Lemma accept_ok c p code rid now d v d1 :
  accept_invite c p code rid now d = (Ok v, d1) ->
  exists r, r ∈ project_invites d /\ pi_code_hash_hex r = code_hash (trim code) /\ pi_state r = lit "pending" /\
    project_invites d1 = decide_invite (pi_invite_id r) (lit "accepted") (Some p) now <$> project_invites d.
Proof.
  unfold accept_invite. intros E.
  apply tbind_ok in E as (row & d2 & (_ & -> & ->)%query_if_ok & E).
  apply tbind_ok in E as (view & d2 & (Hv & ->)%tret_ok & E).
  destruct (find _ _) as [r|] eqn:Ef; [|done]. apply find_row in Ef as (Hin & Hc). injection Hv as <-.
  exists r. split; [done|]. split; [done|]. cbn [invite_from_row iv_state iv_invite_id] in E.
  case_bool_decide as Hp; [|done]. cbn [andb negb] in E. split; [done|].
  destruct (now >? _).
  { by apply tbind_ok in E as (u & d2 & _ & (? & _)%tret_ok). }
  apply tbind_ok in E as (role & d2 & (_ & ->)%tret_ok & E).
  apply tbind_ok in E as (u & d2 & (_ & [= <-])%execute_if_ok & E).
  apply tbind_ok in E as (u' & d3 & (_ & [= <-])%execute_if_ok & E).
  apply tbind_ok in E as (u'' & d4 & (tb & ->)%audit_ok & E). by apply tret_ok in E as (_ & ->).
Qed.

(** An invite code works once.  After a code was accepted, presenting it again,
    by anyone and after any further history, is refused. *)
Theorem invite_single_use c p code rid now d v d1 h c' p' code' rid' now' :
  schema d -> accept_invite c p code rid now d = (Ok v, d1) -> trim code' = trim code ->
  let r := (accept_invite c' p' code' rid' now' (run h d1)).1 in r = Err NotFound \/ r = Err Db.
Proof.
  intros Hd E Ht. pose proof (accept_ok _ _ _ _ _ _ _ _ E) as (r & Hin & Hc & Hp & Ei).
  assert (schema d1) as Hd1.
  { pose proof (run_schema [(c, AAcceptInvite p code rid now)] d Hd) as Hs. unfold run in Hs. simpl in Hs.
    by rewrite E in Hs. }
  set (r1 := decide_invite (pi_invite_id r) (lit "accepted") (Some p) now r).
  assert (r1 ∈ project_invites d1 /\ pi_state r1 = lit "accepted" /\ pi_code_hash_hex r1 = code_hash (trim code))
    as (H1 & H2 & H3).
  { split; [rewrite Ei; by apply list_elem_of_fmap_2|]. unfold r1, decide_invite. by rewrite bool_decide_true. }
  destruct (settled_history h d1 Hd1) as (_ & Hset). specialize (Hset r1 H1).
  assert (r1 ∈ project_invites (run h d1)) as Hr1 by (apply Hset; by rewrite H2).
  pose proof (find_unique pi_code_hash_hex _ r1 (codes_unique _ (run_schema h d1 Hd1)) Hr1) as Hf.
  rewrite H3, <- Ht in Hf. unfold accept_invite, tbind, query, query_if. destruct (c_fails c' SSelect); [by right|left].
  cbn [fst]. rewrite Hf. simpl. by rewrite H2.
Qed.

(** The same call with the audit insert failing. *)
Definition audit_down (c : Call) : Call :=
  {| c_fails s := match s with SAudit => true | _ => c_fails c s end; c_policy := c_policy c;
     c_auth_now := c_auth_now c; c_id := c_id c; c_code := c_code c; c_request_id := c_request_id c;
     c_event_id := c_event_id c |}.

(** A grant is not undone when its audit event cannot be written.  If an
    approval would succeed, then with only the audit insert failing the call
    reports a database error, yet the new admin holds the role, the request is
    approved for good, and no event was recorded. *)
Theorem grant_survives_audit_failure c claims attrs project rid arid now d v d1 :
  decide_grant_request c claims attrs project rid true arid now d = (Ok v, d1) ->
  exists d2, decide_grant_request (audit_down c) claims attrs project rid true arid now d = (Err Db, d2) /\
    auth d2 = auth d1 /\ grant_requests d2 = grant_requests d1 /\ events d2 = events d /\
    active_role (auth d2) project (grv_principal_id v) = Some Admin.
Proof.
  unfold decide_grant_request. intros E.
  apply tbind_ok in E as (found & d' & (F1 & -> & ->)%query_if_ok & E).
  apply tbind_ok in E as (tenant & d' & (Ht & ->)%tret_ok & E).
  apply tbind_ok in E as ([] & d' & Hm & E). assert (d' = d) as -> by (unfold manage_members in Hm; by injection Hm).
  apply tbind_ok in E as (row & d' & (F2 & -> & ->)%query_if_ok & E).
  apply tbind_ok in E as (view & d' & (Hv & ->)%tret_ok & E).
  unfold tbind at 1, tenant_of, query at 1, query_if at 1. cbn [c_fails audit_down]. rewrite F1. cbv beta.
  unfold tbind at 1, tret at 1. rewrite Ht. unfold tbind at 1.
  change (manage_members (audit_down c)) with (manage_members c). rewrite Hm.
  unfold tbind at 1, query at 1, query_if at 1. cbn [c_fails audit_down]. rewrite F2. unfold tbind at 1, tret at 1. rewrite Hv.
  destruct (bool_decide (grv_state view = lit "pending")); [|done]. cbn [andb negb] in *.
  destruct (now >? _).
  { by apply tbind_ok in E as (u & d2 & _ & (? & _)%tret_ok). }
  case_bool_decide; [done|].
  apply tbind_ok in E as ([] & d2 & (F3 & [= <-])%execute_if_ok & E).
  apply tbind_ok in E as ([] & d3 & (F4 & [= <-])%execute_if_ok & E).
  apply tbind_ok in E as ([] & d4 & (tb & ->)%audit_ok & E). apply tret_ok in E as ([= <-] & ->).
  eexists. split.
  - unfold tbind, update_request, grant_role, execute, execute_if. cbn [c_fails audit_down]. rewrite F3, F4. reflexivity.
  - simpl. split_and!; try done. unfold active_role, grant_project_role. simpl. by rewrite lookup_insert_eq.
Qed.
End Theory.

(** ** A worked history *)

Definition admin_row (by_ : string) : Member :=
  {| m_role := lit "admin"; m_granted_by := lit by_; m_granted_at := 1; m_revoked_at := None |}.
Definition demo_db : GrantDb :=
  {| auth := {| project_members := <[(lit "p1", lit "alice") := admin_row "root"]>
                                     {[ (lit "p1", lit "dave") := admin_row "root" ]};
                environments := ∅; sessions := ∅; devices := ∅; webauthn_credentials := ∅;
                account_mfa_policy := ∅; session_mfa := ∅; totp_credentials := ∅; scope_token_denylist := ∅ |};
     projects := {[ lit "p1" := lit "t1" ]}; grant_requests := []; project_invites := []; events := [] |}.
Definition demo_call (n : Z) : Call :=
  {| c_fails _ := false; c_policy _ := false; c_auth_now := 100; c_id := replicate 8 n;
     c_code := replicate 16 n; c_request_id := replicate 8 n; c_event_id := [n] |}.
Definition demo_attrs : RequestAttributes :=
  {| ra_branch := None; elevated := false; trusted_branch := false; human_session := false;
     recent_strong_auth := false |}.
Definition claims_of (who : string) : ScopeClaims := claims_new [] (lit "t1") (lit "p1") (lit who) 1 9999.
Definition demo_id : str := Eval vm_compute in lit "gr_" ++ hex_encode (replicate 8 1).
Definition demo_history : list (Call * Action) :=
  [(demo_call 1, ARequest (claims_of "alice") demo_attrs (lit "p1") (lit " carol ") (lit "r1") 100);
   (demo_call 2, ADecide (claims_of "dave") demo_attrs (lit "p1") demo_id true (lit "r2") 101)].

Lemma demo_schema : schema demo_db.
Proof. split; [constructor..|]. intros r. by rewrite elem_of_nil. Qed.

(** Carol is an admin after the two calls, and not after the first alone. *)
Lemma demo_promoted :
  active_role (auth (run demo_history demo_db)) (lit "p1") (lit "carol") = Some Admin /\
  active_role (auth (run (take 1 demo_history) demo_db)) (lit "p1") (lit "carol") = None.
Proof. split; vm_compute; reflexivity. Qed.

Lemma four_eyes_witness :
  initial_admin demo_db (lit "p1") (lit "carol") \/
  exists r a, r ∈ grant_requests (run demo_history demo_db) /\ gr_state r = lit "approved" /\
    gr_project_id r = lit "p1" /\ gr_principal_id r = lit "carol" /\ gr_approved_by r = Some a /\
    a <> gr_requested_by r /\ opened_by demo_history demo_db (gr_request_id r) (lit "p1") (gr_requested_by r) /\
    approved_by demo_history demo_db (gr_request_id r) (lit "p1") a.
Proof.
  apply (four_eyes demo_history demo_db (lit "p1") (lit "carol")).
  - apply demo_schema.
  - reflexivity.
  - apply demo_promoted.
Defined.

Lemma demo_run_schema h : schema (run h demo_db).
Proof. apply run_schema, demo_schema. Qed.

Lemma demo_decided : exists r, grant_requests (run demo_history demo_db) = [r] /\ gr_state r <> lit "pending".
Proof. eexists. split; [vm_compute; reflexivity|done]. Qed.

Lemma decisions_final_witness :
  exists r, gr_state r <> lit "pending" /\ r ∈ grant_requests (run demo_history (run demo_history demo_db)).
Proof.
  destruct demo_decided as (r & E & Hs). exists r. split; [done|].
  apply (decisions_final demo_history (run demo_history demo_db)); [apply demo_run_schema| |done].
  rewrite E. apply list_elem_of_here.
Defined.

Definition invited : GrantDb := run
  [(demo_call 3, ACreateInvite (claims_of "alice") demo_attrs (lit "p1") Developer (lit "r3") 100)] demo_db.
Definition demo_code : str := hex_encode (replicate 16 3).

Lemma demo_accepts : exists v d1, accept_invite (demo_call 4) (lit "bob") demo_code (lit "r4") 200 invited = (Ok v, d1).
Proof. eexists _, _. vm_compute. reflexivity. Qed.

Lemma invite_single_use_witness :
  exists v d1, accept_invite (demo_call 4) (lit "bob") demo_code (lit "r4") 200 invited = (Ok v, d1) /\
  let r := (accept_invite (demo_call 5) (lit "eve") demo_code (lit "r5") 201 (run [] d1)).1 in
  r = Err NotFound \/ r = Err Db.
Proof.
  destruct demo_accepts as (v & d1 & E). exists v, d1. split; [exact E|].
  apply (invite_single_use _ _ _ _ _ _ _ _ [] (demo_call 5) (lit "eve") demo_code (lit "r5") 201
           (demo_run_schema _) E). reflexivity.
Defined.

Lemma demo_approves : exists v d1,
  decide_grant_request (demo_call 2) (claims_of "dave") demo_attrs (lit "p1") demo_id true (lit "r2") 101
    (run (take 1 demo_history) demo_db) = (Ok v, d1).
Proof. eexists _, _. vm_compute. reflexivity. Qed.

Lemma grant_survives_audit_failure_witness :
  exists v d2,
    decide_grant_request (audit_down (demo_call 2)) (claims_of "dave") demo_attrs (lit "p1") demo_id true
      (lit "r2") 101 (run (take 1 demo_history) demo_db) = (Err Db, d2) /\
    events d2 = events (run (take 1 demo_history) demo_db) /\
    active_role (auth d2) (lit "p1") (grv_principal_id v) = Some Admin.
Proof.
  destruct demo_approves as (v & d1 & E).
  destruct (grant_survives_audit_failure _ _ _ _ _ _ _ _ _ _ E) as (d2 & H1 & _ & _ & H2 & H3).
  exists v, d2. auto.
Defined.
