(* ===== verification/Migration.v ===== *)
(** * The migration ledger

    src/services/account/src/migration_ledger.rs: the per-secret state machine of a
    vault import, with [resolve_secret] and [delete_secret] of secrets.rs, which its
    rollback calls.

    The tables are lists of rows.  Submission, resolution, verification and the
    deletion of a secret run in transactions; marking, disabling and aborting run
    their statements one by one, and each can fail as the call's oracle says.
    Identifiers, the clock and event identifiers are arguments. *)

From S2P Require Import Prelude Errors Sorting Tables Primitives Names Redact Policy AuditChain Grants.

#[local] Open Scope tx_scope.

Definition ENTRY_DISCOVERED : str := lit "DISCOVERED".
Definition ENTRY_CLASSIFIED : str := lit "CLASSIFIED".
Definition ENTRY_MAPPED : str := lit "MAPPED".
Definition ENTRY_VALIDATED : str := lit "VALIDATED".
Definition ENTRY_MIGRATED : str := lit "MIGRATED".
Definition ENTRY_VERIFIED : str := lit "VERIFIED".
Definition ENTRY_LEGACY_DISABLED : str := lit "LEGACY_PATH_DISABLED".
Definition ENTRY_QUARANTINED : str := lit "QUARANTINED".
Definition RUN_PLANNING : str := lit "planning".
Definition RUN_APPLYING : str := lit "applying".
Definition RUN_VERIFYING : str := lit "verifying".
Definition RUN_COMPLETE : str := lit "complete".
Definition RUN_ABORTED : str := lit "aborted".

(** [SecretError] of secrets.rs. *)
Inductive SecretError : Type :=
| SecretNotFound | SecretConflict | SecretDenied | SecretInvalid (msg : str) | VerificationFailed
| IdempotencyConflict | RevisionMismatch | MaterializationTooLarge | SecretCrypto (e : CryptoError)
| SecretDb | SecretService.

Inductive MigrationError : Type :=
| MNotFound | MDenied | MInvalid (msg : str) | MSecrets (e : SecretError) | MDbError.

(** ** Rows *)

Record MigrationRun : Type := {
  mr_migration_id : str; mr_tenant_id : str; mr_project_id : str; mr_source_vault_id : str;
  mr_source_snapshot_hex : str; mr_created_by : str; mr_state : str; mr_created_at : Z; mr_updated_at : Z;
}.

(** The columns of an entry that no statement changes. *)
Record EntryKey : Type := {
  ek_ledger_id : str; ek_migration_id : str; ek_source_path : str; ek_source_line : Z;
  ek_idempotency_key : str; ek_created_at : Z;
}.
Record MigrationEntry : Type := MkEntry {
  me_key : EntryKey; me_name : str; me_secret_type : str; me_env : option str; me_binding : option str;
  me_service : option str; me_state : str; me_source_digest : bytes; me_target_digest : option bytes;
  me_secret_id : option str; me_reason : str; me_updated_at : Z;
}.
#[export] Instance EntryKey_eq_dec : EqDecision EntryKey.
Proof. solve_decision. Defined.
#[export] Instance MigrationEntry_eq_dec : EqDecision MigrationEntry.
Proof. solve_decision. Defined.
Definition me_ledger_id (e : MigrationEntry) : str := ek_ledger_id (me_key e).
Definition me_migration_id (e : MigrationEntry) : str := ek_migration_id (me_key e).
(** [UNIQUE (migration_id, source_path, source_line)] and [UNIQUE (migration_id, idempotency_key)]. *)
Definition natural_key (e : MigrationEntry) : str * str * Z :=
  (me_migration_id e, ek_source_path (me_key e), ek_source_line (me_key e)).
Definition idempotent_key (e : MigrationEntry) : str * str := (me_migration_id e, ek_idempotency_key (me_key e)).

(** The columns of [secrets] that the ledger reads or writes. *)
Record SecretRow : Type := {
  s_secret_id : str; s_tenant_id : str; s_project_id : str; s_environment_id : str;
  s_repository_binding_id : option str; s_service_id : option str; s_name : str; s_status : str;
  s_current_version : Z; s_updated_at : Z; s_deleted_at : option Z;
}.

Record MDb : Type := {
  md_auth : Connection;
  md_projects : gmap str str;                (* project_id -> tenant_id *)
  md_environments : list (str * str);        (* (project_id, environment_id), not deleted *)
  md_bindings : list (str * str);
  md_services : list (str * str);
  md_runs : list MigrationRun;
  md_entries : list MigrationEntry;
  md_secrets : list SecretRow;
  md_events : AuditTable;
}.
Definition set_runs (f : list MigrationRun -> list MigrationRun) (d : MDb) : MDb :=
  {| md_auth := md_auth d; md_projects := md_projects d; md_environments := md_environments d;
     md_bindings := md_bindings d; md_services := md_services d; md_runs := f (md_runs d);
     md_entries := md_entries d; md_secrets := md_secrets d; md_events := md_events d |}.
Definition set_entries (f : list MigrationEntry -> list MigrationEntry) (d : MDb) : MDb :=
  {| md_auth := md_auth d; md_projects := md_projects d; md_environments := md_environments d;
     md_bindings := md_bindings d; md_services := md_services d; md_runs := md_runs d;
     md_entries := f (md_entries d); md_secrets := md_secrets d; md_events := md_events d |}.
Definition set_secrets (f : list SecretRow -> list SecretRow) (d : MDb) : MDb :=
  {| md_auth := md_auth d; md_projects := md_projects d; md_environments := md_environments d;
     md_bindings := md_bindings d; md_services := md_services d; md_runs := md_runs d;
     md_entries := md_entries d; md_secrets := f (md_secrets d); md_events := md_events d |}.
Definition set_mevents (t : AuditTable) (d : MDb) : MDb :=
  {| md_auth := md_auth d; md_projects := md_projects d; md_environments := md_environments d;
     md_bindings := md_bindings d; md_services := md_services d; md_runs := md_runs d;
     md_entries := md_entries d; md_secrets := md_secrets d; md_events := t |}.

(** ** Views *)

Record MigrationRunView : Type := {
  mv_migration_id : str; mv_tenant_id : str; mv_project_id : str; mv_source_vault_id : str;
  mv_source_snapshot_hex : str; mv_created_by : str; mv_state : str; mv_created_at_utc : Z;
  mv_updated_at_utc : Z; mv_entry_counts : list (str * Z);
}.
Record MigrationEntryView : Type := {
  ev_key : EntryKey; ev_name : str; ev_secret_type : str; ev_target_environment_id : option str;
  ev_target_binding_id : option str; ev_target_service_id : option str; ev_state : str;
  ev_source_digest_hex : str; ev_target_digest_hex : option str; ev_secret : option str;
  ev_entry_reason : str; ev_updated_at_utc : Z;
}.
Record SubmitEntry : Type := {
  se_source_path : str; se_source_line : Z; se_name : str; se_secret_type : str;
  se_target_environment_id : str; se_target_binding_id : option str; se_target_service_id : option str;
  se_source_digest : bytes; se_idempotency_key : str;
}.

Definition entry_view_from_row `{Hex} (e : MigrationEntry) : MigrationEntryView :=
  {| ev_key := me_key e; ev_name := me_name e; ev_secret_type := me_secret_type e;
     ev_target_environment_id := me_env e; ev_target_binding_id := me_binding e;
     ev_target_service_id := me_service e; ev_state := me_state e;
     ev_source_digest_hex := hex_encode (me_source_digest e);
     ev_target_digest_hex := hex_encode <$> me_target_digest e; ev_secret := me_secret_id e;
     ev_entry_reason := me_reason e; ev_updated_at_utc := me_updated_at e |}.

(** ** Orders: text by its bytes, entries by path and line *)

Definition str_le (a b : str) : bool := lex_le (as_bytes a) (as_bytes b).
Definition path_line_le (a b : str * Z) : bool :=
  if bool_decide (a.1 = b.1) then a.2 <=? b.2 else str_le a.1 b.1.

(** ** Column updates *)

Definition upd_state (state : str) (now : Z) (e : MigrationEntry) : MigrationEntry :=
  let 'MkEntry k n ty v b s _ sd td sid r _ := e in MkEntry k n ty v b s state sd td sid r (as_i64 now).
Definition upd_quarantine (reason : str) (now : Z) (e : MigrationEntry) : MigrationEntry :=
  let 'MkEntry k n ty v b s _ sd td sid _ _ := e in
  MkEntry k n ty v b s ENTRY_QUARANTINED sd td sid reason (as_i64 now).
Definition upd_proposal (p : SubmitEntry) (now : Z) (e : MigrationEntry) : MigrationEntry :=
  let 'MkEntry k _ _ v b s st _ td sid r _ := e in
  MkEntry k (se_name p) (se_secret_type p) v b s st (se_source_digest p) td sid r (as_i64 now).
Definition upd_targets (p : SubmitEntry) (now : Z) (e : MigrationEntry) : MigrationEntry :=
  let 'MkEntry k n ty _ _ _ st sd td sid r _ := e in
  MkEntry k n ty (Some (se_target_environment_id p)) (se_target_binding_id p) (se_target_service_id p)
    st sd td sid r (as_i64 now).
Definition upd_reason (reason : str) (e : MigrationEntry) : MigrationEntry :=
  let 'MkEntry k n ty v b s st sd td sid _ u := e in MkEntry k n ty v b s st sd td sid reason u.
Definition upd_migrated (secret : str) (digest : bytes) (now : Z) (e : MigrationEntry) : MigrationEntry :=
  let 'MkEntry k n ty v b s _ sd _ _ r _ := e in
  MkEntry k n ty v b s ENTRY_MIGRATED sd (Some digest) (Some secret) r (as_i64 now).
Definition upd_remapped (name env : str) (now : Z) (e : MigrationEntry) : MigrationEntry :=
  let 'MkEntry k _ ty _ b s _ sd td sid r _ := e in
  MkEntry k name ty (Some env) b s ENTRY_MAPPED sd td sid r (as_i64 now).
Definition upd_verified (now : Z) (e : MigrationEntry) : MigrationEntry :=
  upd_reason [] (upd_state ENTRY_VERIFIED now e).
Definition upd_rolled_back (now : Z) (e : MigrationEntry) : MigrationEntry :=
  let 'MkEntry k n ty v b s _ sd _ _ _ _ := e in
  MkEntry k n ty v b s ENTRY_VALIDATED sd None None (lit "rolled back") (as_i64 now).
Definition upd_run_state (state : str) (now : Z) (r : MigrationRun) : MigrationRun :=
  {| mr_migration_id := mr_migration_id r; mr_tenant_id := mr_tenant_id r; mr_project_id := mr_project_id r;
     mr_source_vault_id := mr_source_vault_id r; mr_source_snapshot_hex := mr_source_snapshot_hex r;
     mr_created_by := mr_created_by r; mr_state := state; mr_created_at := mr_created_at r;
     mr_updated_at := as_i64 now |}.

(** ** Calls *)

Record MCall : Type := {
  mc_fails : string -> str -> bool;      (* statement, and the row it is about *)
  mc_policy : Query -> bool;
  mc_auth_now : Z;                       (* the clock authorize and delete_secret read *)
  mc_run_id : bytes;                     (* MigrationId::generate() *)
  mc_entry_id : str -> Z -> bytes;       (* MigrationEntryId::generate() of a proposal *)
  mc_event_id : str -> bytes;
}.

Definition MTx (A : Type) : Type := Tx MDb MigrationError A.

Section Ledger.
Context {HX : Hex} {SH : Sha256} {JS : Json} (c : MCall).

Definition mquery {A} (name : string) (f : MDb -> A) : MTx A := query_if (mc_fails c name []) MDbError f.
Definition mexecute (name : string) (row : str) (f : MDb -> option MDb) : MTx unit :=
  execute_if (mc_fails c name row) MDbError f.
(** [UPDATE migration_entries SET ... WHERE ledger_id = ?] *)
Definition on_entry (id : str) (f : MigrationEntry -> MigrationEntry) (e : MigrationEntry) : MigrationEntry :=
  if bool_decide (me_ledger_id e = id) then f e else e.
Definition update_entry (name : string) (id : str) (f : MigrationEntry -> MigrationEntry) : MTx unit :=
  mexecute name id (fun d => Some (set_entries (fmap (on_entry id f)) d)).
Definition on_run (id : str) (f : MigrationRun -> MigrationRun) (r : MigrationRun) : MigrationRun :=
  if bool_decide (mr_migration_id r = id) then f r else r.

Definition run_tenant (project : str) : MTx (option str) :=
  mquery "run_tenant" (fun d => md_projects d !! project).

Definition authorize_migration (claims : ScopeClaims) (project : str) (attrs : RequestAttributes) : MTx unit :=
  do tenant <- run_tenant project ;;
  fun d => (match authorize (mc_policy c) (md_auth d) claims ManageMigrations
                    (member_target (default [] tenant) project) attrs (mc_auth_now c) with
            | Ok _ => Ok tt
            | Err _ => Err MDenied
            end, d).

Definition get_row (migration ledger : str) : MTx MigrationEntry :=
  do row <- mquery "get_entry" (fun d => find (fun e =>
      bool_decide (me_migration_id e = migration /\ me_ledger_id e = ledger)) (md_entries d)) ;;
  tret (ok_or row MNotFound).
Definition get_entry (migration ledger : str) : MTx MigrationEntryView :=
  do e <- get_row migration ledger ;; tret (Ok (entry_view_from_row e)).

Definition entry_le (a b : MigrationEntry) : bool :=
  path_line_le (ek_source_path (me_key a), ek_source_line (me_key a))
               (ek_source_path (me_key b), ek_source_line (me_key b)).
Definition list_entries (migration : str) : MTx (list MigrationEntryView) :=
  mquery "list_entries" (fun d => entry_view_from_row <$>
    sort entry_le (filter (fun e => me_migration_id e = migration) (md_entries d))).

(** [SELECT state, COUNT( * ) ... GROUP BY state] into a [BTreeMap]. *)
Definition counts_of (states : list str) : list (str * Z) :=
  (fun s => (s, blen (filter (fun x => x = s) states))) <$> sort str_le (remove_dups states).
Definition count_entries (migration : str) : MTx (list (str * Z)) :=
  mquery "count_entries" (fun d =>
    counts_of (me_state <$> filter (fun e => me_migration_id e = migration) (md_entries d))).

Definition run_view (migration : str) : MTx MigrationRunView :=
  do row <- mquery "run_view" (fun d =>
      find (fun r => bool_decide (mr_migration_id r = migration)) (md_runs d)) ;;
  do r <- tret (ok_or row MNotFound) ;;
  do counts <- count_entries (mr_migration_id r) ;;
  tret (Ok {| mv_migration_id := mr_migration_id r; mv_tenant_id := mr_tenant_id r;
              mv_project_id := mr_project_id r; mv_source_vault_id := mr_source_vault_id r;
              mv_source_snapshot_hex := mr_source_snapshot_hex r; mv_created_by := mr_created_by r;
              mv_state := mr_state r; mv_created_at_utc := mr_created_at r;
              mv_updated_at_utc := mr_updated_at r; mv_entry_counts := counts |}).

Definition audit_migration (event_type : str) (run : MigrationRunView) (principal : str) (reason : bytes) (now : Z)
  : MTx unit :=
  mexecute "audit" event_type (fun d =>
    match audit_secret_event (mc_event_id c event_type)
      {| ev_event_type := event_type; ev_tenant_id := as_bytes (mv_tenant_id run);
         ev_project_id := Some (as_bytes (mv_project_id run)); ev_environment_id := None;
         ev_secret_id := None; ev_secret_version := None; ev_principal_id := as_bytes principal;
         ev_request_id := as_bytes (mv_migration_id run); ev_source := lit "migration";
         ev_result := lit "success"; ev_reason := reason |} now (md_events d) with
    | Ok t => Some (set_mevents t d)
    | Err _ => None
    end).

(** A JSON object, members in the order of their keys. *)
Definition json_object (fields : list (string * Value)) : bytes :=
  json_to_string (VObject ((fun kv => (lit kv.1, kv.2)) <$> fields)).
Definition VText (s : str) : Value := VString (as_bytes s).

Definition require_project (run : MigrationRunView) (project : str) : MTx unit :=
  if bool_decide (mv_project_id run = project) then tret (Ok tt) else tret (Err MNotFound).
Definition require_run_state (run : MigrationRunView) (states : list str) (what : string) : MTx unit :=
  if bool_decide (mv_state run ∈ states) then tret (Ok tt)
  else tret (Err (MInvalid (lit "run is " ++ mv_state run ++ lit what))).

Definition start_run (claims : ScopeClaims) (attrs : RequestAttributes)
  (project source_vault_id source_snapshot_hex : str) (now : Z) : MTx MigrationRunView :=
  authorize_migration claims project attrs ;;;
  do found <- run_tenant project ;;
  do tenant <- tret (ok_or found MNotFound) ;;
  if bool_decide (trim source_vault_id = []) || (str_len source_vault_id >? 128) then
    tret (Err (MInvalid (lit "source_vault_id must be 1-128 characters"))) else
  let snapshot := trim source_snapshot_hex in
  if negb match hex_decode snapshot with Ok b => blen b =? 32 | Err _ => false end then
    tret (Err (MInvalid (lit "source_snapshot_hex must be 64 hex characters"))) else
  let id := lit "mig_" ++ id_to_hex (mc_run_id c) in
  mexecute "insert_run" id (fun d =>
    if bool_decide (id ∈ mr_migration_id <$> md_runs d) then None
    else Some (set_runs (fun rs => rs ++
      [{| mr_migration_id := id; mr_tenant_id := tenant; mr_project_id := project;
          mr_source_vault_id := trim source_vault_id; mr_source_snapshot_hex := snapshot;
          mr_created_by := principal_id claims; mr_state := RUN_PLANNING; mr_created_at := as_i64 now;
          mr_updated_at := as_i64 now |}]) d)) ;;;
  do run <- run_view id ;;
  audit_migration (lit "migration.started") run (principal_id claims)
    (json_object [("migration_id"%string, VText (mv_migration_id run));
                  ("source_snapshot_hex"%string, VText (mv_source_snapshot_hex run));
                  ("source_vault_id"%string, VText (mv_source_vault_id run))]) now ;;;
  tret (Ok run).
(** ** Submission *)

(** [INSERT ... ON CONFLICT(migration_id, source_path, source_line) DO UPDATE]. *)
Definition insert_entry (run ledger : str) (p : SubmitEntry) (now : Z) (d : MDb) : option MDb :=
  let row := MkEntry
    {| ek_ledger_id := ledger; ek_migration_id := run; ek_source_path := se_source_path p;
       ek_source_line := se_source_line p; ek_idempotency_key := se_idempotency_key p;
       ek_created_at := as_i64 now |}
    (se_name p) (se_secret_type p) None None None ENTRY_DISCOVERED (se_source_digest p) None None [] (as_i64 now) in
  if bool_decide (natural_key row ∈ natural_key <$> md_entries d) then
    Some (set_entries (fmap (fun e => if bool_decide (natural_key e = natural_key row)
                                      then upd_proposal p now e else e)) d)
  else if bool_decide (ledger ∈ me_ledger_id <$> md_entries d)
          || bool_decide (idempotent_key row ∈ idempotent_key <$> md_entries d) then None
  else Some (set_entries (fun es => es ++ [row]) d).

Definition set_state (ledger state : str) (now : Z) : MTx unit :=
  mexecute "set_state" (ledger ++ state)
    (fun d => Some (set_entries (fmap (on_entry ledger (upd_state state now))) d)).

Definition quarantine (ledger : str) (now : Z) (reason : str) : MTx str :=
  update_entry "quarantine" ledger (upd_quarantine reason now) ;;; tret (Ok ledger).

Definition claiming_states : list str :=
  [ENTRY_MAPPED; ENTRY_VALIDATED; ENTRY_MIGRATED; ENTRY_VERIFIED; ENTRY_LEGACY_DISABLED].
(** The query for an entry of the run that already claims the name. *)
Definition rival_of (run ledger : str) (p : SubmitEntry) (d : MDb) : option MigrationEntry :=
  head (sort entry_le (filter (fun e =>
    me_migration_id e = run /\ me_ledger_id e <> ledger /\ me_env e = Some (se_target_environment_id p) /\
    me_name e = se_name p /\ me_state e ∈ claiming_states) (md_entries d))).
Definition live_named (project environment name : str) (s : SecretRow) : bool :=
  bool_decide (s_project_id s = project /\ s_environment_id s = environment /\ s_name s = name /\
               s_deleted_at s = None).

Definition validate_mapped (run : MigrationRunView) (ledger : str) (p : SubmitEntry) (now : Z) : MTx unit :=
  let fail (reason : str) : MTx unit := quarantine ledger now reason ;;; tret (Ok tt) in
  do env_exists <- mquery "env_exists" (fun d =>
    bool_decide ((mv_project_id run, se_target_environment_id p) ∈ md_environments d)) ;;
  if negb env_exists then
    fail (lit "unknown environment '" ++ se_target_environment_id p ++ lit "' in this project") else
  do binding_ok <- match se_target_binding_id p with
    | Some b => mquery "binding_ok" (fun d => bool_decide ((mv_project_id run, b) ∈ md_bindings d))
    | None => tret (Ok true)
    end ;;
  if negb binding_ok then
    fail (lit "unknown repository binding '" ++ default [] (se_target_binding_id p) ++ lit "'") else
  do service_ok <- match se_target_service_id p with
    | Some s => mquery "service_ok" (fun d => bool_decide ((mv_project_id run, s) ∈ md_services d))
    | None => tret (Ok true)
    end ;;
  if negb service_ok then
    fail (lit "unknown service '" ++ default [] (se_target_service_id p) ++ lit "'") else
  do rival <- mquery "rival" (rival_of (mv_migration_id run) ledger p) ;;
  match rival with
  | Some r => fail (lit "duplicate name '" ++ se_name p ++ lit "' in target scope (first claimed by "
                    ++ ek_source_path (me_key r) ++ lit ":" ++ show_Z (ek_source_line (me_key r)) ++ lit ")")
  | None =>
      do taken <- mquery "taken" (fun d =>
        existsb (live_named (mv_project_id run) (se_target_environment_id p) (se_name p)) (md_secrets d)) ;;
      if taken : bool then
        fail (lit "name '" ++ se_name p ++ lit "' already exists in target scope (rename to migrate)")
      else
        set_state ledger ENTRY_VALIDATED now ;;;
        update_entry "clear_reason" ledger (upd_reason [])
  end.

Definition check_proposal (p : SubmitEntry) : result MigrationError unit :=
  bail? bool_decide (trim (se_source_path p) = []) || (str_len (se_source_path p) >? 1024)
    with MInvalid (lit "source_path must be 1-1024 characters") ;;
  bail? se_source_line p <? 1 with MInvalid (lit "source_line must be >= 1") ;;
  bail? negb (blen (se_source_digest p) =? 32) with MInvalid (lit "source_digest must be 32 bytes") ;;
  bail? bool_decide (trim (se_idempotency_key p) = []) || (str_len (se_idempotency_key p) >? 128)
    with MInvalid (lit "idempotency_key must be 1-128 characters") ;;
  bail? bool_decide (trim (se_secret_type p) = []) || (str_len (se_secret_type p) >? 64)
    with MInvalid (lit "secret_type must be 1-64 characters") ;;
  Ok tt.

(** The tail of [upsert_and_validate], from the insertion on. *)
Definition advance_entry (run : MigrationRunView) (p : SubmitEntry) (now : Z) (ledger : str) : MTx str :=
  mexecute "upsert" ledger (insert_entry (mv_migration_id run) ledger p now) ;;;
  match validate_secret_name (se_name p) with
  | Err err => quarantine ledger now
      (lit "invalid secret name '" ++ se_name p ++ lit "': " ++ display_format_error err)
  | Ok _ =>
      set_state ledger ENTRY_CLASSIFIED now ;;;
      update_entry "targets" ledger (upd_targets p now) ;;;
      set_state ledger ENTRY_MAPPED now ;;;
      validate_mapped run ledger p now ;;;
      tret (Ok ledger)
  end.

Definition upsert_and_validate (run : MigrationRunView) (p : SubmitEntry) (now : Z) : MTx str :=
  tret (check_proposal p) ;;;
  do existing <- mquery "existing" (fun d => find (fun e =>
    bool_decide (natural_key e = (mv_migration_id run, se_source_path p, se_source_line p))) (md_entries d)) ;;
  match existing with
  | Some e =>
      if negb (bool_decide (ek_idempotency_key (me_key e) = se_idempotency_key p)) then
        tret (Err (MInvalid (lit "idempotency key mismatch for " ++ se_source_path p ++ lit ":"
                             ++ show_Z (se_source_line p))))
      else if bool_decide (me_state e ∈ [ENTRY_MIGRATED; ENTRY_VERIFIED; ENTRY_LEGACY_DISABLED]) then
        tret (Ok (me_ledger_id e))
      else advance_entry run p now (me_ledger_id e)
  | None => advance_entry run p now (lit "mle_" ++ id_to_hex (mc_entry_id c (se_source_path p) (se_source_line p)))
  end.

Definition open_states : list str := [RUN_PLANNING; RUN_APPLYING; RUN_VERIFYING].
Definition proposal_le (a b : SubmitEntry) : bool :=
  path_line_le (se_source_path a, se_source_line a) (se_source_path b, se_source_line b).
(** The guards every call on a run starts with. *)
Definition open_run (claims : ScopeClaims) (attrs : RequestAttributes) (project migration : str)
  (states : list str) (what : string) : MTx MigrationRunView :=
  authorize_migration claims project attrs ;;;
  do run <- run_view migration ;;
  require_project run project ;;;
  require_run_state run states what ;;;
  tret (Ok run).

Definition submit_entries (claims : ScopeClaims) (attrs : RequestAttributes) (project migration : str)
  (entries : list SubmitEntry) (now : Z) : MTx (list MigrationEntryView) :=
  do run <- open_run claims attrs project migration open_states
    " (submissions need planning/applying/verifying)" ;;
  if blen entries >? 5000 then tret (Err (MInvalid (lit "at most 5000 entries per submission"))) else
  do out <- atomically (mc_fails c "commit" migration) MDbError
    (tx_map (fun p => upsert_and_validate run p now) (sort proposal_le entries)) ;;
  tx_map (get_entry migration) out.

(** ** Migration, resolution, verification *)

Definition mark_migrated (claims : ScopeClaims) (attrs : RequestAttributes) (project migration ledger secret : str)
  (target_digest : bytes) (now : Z) : MTx MigrationEntryView :=
  do run <- open_run claims attrs project migration open_states
    " (migration needs planning/applying/verifying)" ;;
  do entry <- get_entry migration ledger ;;
  if bool_decide (ev_state entry = ENTRY_MIGRATED /\ ev_secret entry = Some secret) then tret (Ok entry)
  else if negb (bool_decide (ev_state entry = ENTRY_VALIDATED)) then
    tret (Err (MInvalid (lit "entry is " ++ ev_state entry ++ lit " (needs VALIDATED)")))
  else if negb (blen target_digest =? 32) then tret (Err (MInvalid (lit "target_digest must be 32 bytes")))
  else
    do anchored <- mquery "anchored" (fun d => existsb (fun s => bool_decide
      (s_secret_id s = secret /\ s_project_id s = project /\
       s_environment_id s = default [] (ev_target_environment_id entry) /\ s_deleted_at s = None)) (md_secrets d)) ;;
    if negb anchored then
      tret (Err (MInvalid (lit "secret_id is not a live secret in the entry's target scope")))
    else
      update_entry "migrated" ledger (upd_migrated secret target_digest now) ;;;
      (if bool_decide (mv_state run = RUN_APPLYING) then tret (Ok tt)
       else mexecute "applying" migration
              (fun d => Some (set_runs (fmap (on_run migration (upd_run_state RUN_APPLYING now))) d))) ;;;
      get_entry migration ledger.

Definition resolve_entry (claims : ScopeClaims) (attrs : RequestAttributes) (project migration ledger : str)
  (name target_environment : option str) (now : Z) : MTx MigrationEntryView :=
  do run <- open_run claims attrs project migration open_states
    " (resolve needs planning/applying/verifying)" ;;
  do entry <- get_entry migration ledger ;;
  if negb (bool_decide (ev_state entry = ENTRY_QUARANTINED)) then
    tret (Err (MInvalid (lit "entry is " ++ ev_state entry ++ lit " (resolve needs QUARANTINED)"))) else
  let name := default (ev_name entry) name in
  do env <- tret (ok_or (match target_environment with Some v => Some v | None => ev_target_environment_id entry end)
                    (MInvalid (lit "resolve needs a target environment"))) ;;
  match validate_secret_name name with
  | Err err => tret (Err (MInvalid (lit "invalid secret name '" ++ name ++ lit "': " ++ display_format_error err)))
  | Ok _ =>
      atomically (mc_fails c "commit" migration) MDbError
        (update_entry "remap" ledger (upd_remapped name env now) ;;;
         validate_mapped run ledger
           {| se_source_path := ek_source_path (ev_key entry); se_source_line := ek_source_line (ev_key entry);
              se_name := name; se_secret_type := ev_secret_type entry; se_target_environment_id := env;
              se_target_binding_id := ev_target_binding_id entry;
              se_target_service_id := ev_target_service_id entry;
              se_source_digest := match hex_decode (ev_source_digest_hex entry) with Ok b => b | Err _ => [] end;
              se_idempotency_key := ek_idempotency_key (ev_key entry) |} now) ;;;
      get_entry migration ledger
  end.

Record VerifyOutcome : Type := { vo_verified : Z; vo_quarantined : Z; vo_run_state : str }.

Definition closed_states : list str := [ENTRY_VERIFIED; ENTRY_LEGACY_DISABLED].
Definition maybe_complete (migration : str) (now : Z) : MTx unit :=
  do open <- mquery "open" (fun d => blen (filter (fun e =>
    me_migration_id e = migration /\ me_state e ∉ closed_states) (md_entries d))) ;;
  if open =? 0 then
    mexecute "complete" migration (fun d => Some (set_runs (fmap (fun r =>
      if bool_decide (mr_migration_id r = migration /\ mr_state r <> RUN_ABORTED)
      then upd_run_state RUN_COMPLETE now r else r)) d))
  else tret (Ok tt).

Definition digests_agree (e : MigrationEntry) : bool :=
  bool_decide (me_target_digest e = Some (me_source_digest e)).
Definition mismatch_reason : str := lit "digest mismatch: applied bytes differ from source".
Definition verify_entry (now : Z) (e : MigrationEntry) : MTx bool :=
  if digests_agree e
  then update_entry "verified" (me_ledger_id e) (upd_verified now) ;;; tret (Ok true)
  else update_entry "mismatch" (me_ledger_id e) (upd_quarantine mismatch_reason now) ;;; tret (Ok false).
Definition count_true (bs : list bool) : Z := blen (filter (fun b => b = true) bs).

Definition verify_run (claims : ScopeClaims) (attrs : RequestAttributes) (project migration : str) (now : Z)
  : MTx VerifyOutcome :=
  do _ <- open_run claims attrs project migration [RUN_APPLYING; RUN_VERIFYING] " (verify needs applying/verifying)" ;;
  do matches_ <- atomically (mc_fails c "commit" migration) MDbError
    (do migrated <- mquery "migrated" (fun d => filter (fun e =>
        me_migration_id e = migration /\ me_state e = ENTRY_MIGRATED) (md_entries d)) ;;
     do matches_ <- tx_map (verify_entry now) migrated ;;
     mexecute "verifying" migration
       (fun d => Some (set_runs (fmap (on_run migration (upd_run_state RUN_VERIFYING now))) d)) ;;;
     tret (Ok matches_)) ;;
  maybe_complete migration now ;;;
  do run <- run_view migration ;;
  let verified := count_true matches_ in
  let quarantined := blen matches_ - verified in
  audit_migration (lit "migration.verified") run (principal_id claims)
    (json_object [("migration_id"%string, VText (mv_migration_id run)); ("quarantined"%string, VInt quarantined);
                  ("run_state"%string, VText (mv_state run)); ("verified"%string, VInt verified)]) now ;;;
  (if bool_decide (mv_state run = RUN_COMPLETE) then
     audit_migration (lit "migration.completed") run (principal_id claims)
       (json_object [("migration_id"%string, VText (mv_migration_id run)); ("via"%string, VText (lit "verify"))]) now
   else tret (Ok tt)) ;;;
  tret (Ok {| vo_verified := verified; vo_quarantined := quarantined; vo_run_state := mv_state run |}).

(** ** Cutover and rollback *)

Definition is_verified (migration ledger : str) (e : MigrationEntry) : bool :=
  bool_decide (me_migration_id e = migration /\ me_ledger_id e = ledger /\ me_state e = ENTRY_VERIFIED).
Definition disable_one (migration : str) (now : Z) (ledger : str) : MTx unit :=
  do changed <- query_if false MDbError (fun d => existsb (is_verified migration ledger) (md_entries d)) ;;
  mexecute "disable" ledger (fun d => Some (set_entries (fmap (fun e =>
    if is_verified migration ledger e then upd_state ENTRY_LEGACY_DISABLED now e else e)) d)) ;;;
  if changed : bool then tret (Ok tt) else
  do exists_ <- mquery "disable_exists" (fun d => existsb (fun e =>
    bool_decide (me_migration_id e = migration /\ me_ledger_id e = ledger)) (md_entries d)) ;;
  if negb exists_ then tret (Err MNotFound)
  else tret (Err (MInvalid (lit "entry " ++ ledger ++ lit " is not VERIFIED"))).

Definition disable_legacy (claims : ScopeClaims) (attrs : RequestAttributes) (project migration : str)
  (ledgers : option (list str)) (now : Z) : MTx Z :=
  do run <- open_run claims attrs project migration [RUN_VERIFYING; RUN_COMPLETE]
    " (disable-legacy needs verifying/complete)" ;;
  do targets <- match ledgers with
    | Some ids => tret (Ok ids)
    | None => mquery "disable_targets" (fun d => me_ledger_id <$> filter (fun e =>
        me_migration_id e = migration /\ me_state e = ENTRY_VERIFIED) (md_entries d))
    end ;;
  tx_for_each (disable_one migration now) targets ;;;
  let disabled := blen targets in
  maybe_complete migration now ;;;
  do run' <- run_view migration ;;
  audit_migration (lit "migration.legacy_disabled") run' (principal_id claims)
    (json_object [("disabled"%string, VInt disabled); ("migration_id"%string, VText (mv_migration_id run'))]) now ;;;
  (if negb (bool_decide (mv_state run = RUN_COMPLETE)) && bool_decide (mv_state run' = RUN_COMPLETE) then
     audit_migration (lit "migration.completed") run' (principal_id claims)
       (json_object [("migration_id"%string, VText (mv_migration_id run'));
                     ("via"%string, VText (lit "disable-legacy"))]) now
   else tret (Ok tt)) ;;;
  tret (Ok disabled).

(** secrets.rs: a live secret by its identifier, and its soft deletion. *)
Definition resolve_secret (secret : str) : Tx MDb SecretError SecretRow :=
  do row <- query_if (mc_fails c "resolve_secret" secret) SecretDb (fun d => find (fun s =>
    bool_decide (s_secret_id s = secret /\ s_deleted_at s = None)) (md_secrets d)) ;;
  tret (ok_or row SecretNotFound).

Definition target_from_view (view : SecretRow) : AuthTarget :=
  {| at_tenant_id := s_tenant_id view; at_project_id := s_project_id view;
     at_environment_id := Some (s_environment_id view);
     at_repository_binding_id := s_repository_binding_id view; at_service_id := s_service_id view |}.

Definition tombstone (now : Z) (s : SecretRow) : SecretRow :=
  {| s_secret_id := s_secret_id s; s_tenant_id := s_tenant_id s; s_project_id := s_project_id s;
     s_environment_id := s_environment_id s; s_repository_binding_id := s_repository_binding_id s;
     s_service_id := s_service_id s; s_name := s_name s; s_status := lit "scheduled_deletion";
     s_current_version := s_current_version s; s_updated_at := now; s_deleted_at := Some now |}.
Definition on_secret (id : str) (f : SecretRow -> SecretRow) (s : SecretRow) : SecretRow :=
  if bool_decide (s_secret_id s = id) then f s else s.

Definition delete_secret (claims : ScopeClaims) (attrs : RequestAttributes) (secret reason request : str)
  : Tx MDb SecretError unit :=
  do view <- resolve_secret secret ;;
  (fun d => (match authorize (mc_policy c) (md_auth d) claims DeleteSecret (target_from_view view) attrs
                     (mc_auth_now c) with
             | Ok _ => Ok tt
             | Err _ => Err SecretDenied
             end, d)) ;;;
  if bool_decide (trim reason = []) then tret (Err (SecretInvalid (lit "deletion requires a reason"))) else
  let now := mc_auth_now c in
  atomically (mc_fails c "commit_delete" secret) SecretDb
    (execute_if (mc_fails c "delete_secret" secret || (now >? i64_max)) SecretDb
       (fun d => Some (set_secrets (fmap (on_secret secret (tombstone now))) d)) ;;;
     execute_if (mc_fails c "audit_delete" secret) SecretDb (fun d =>
       match audit_secret_event (mc_event_id c secret)
         {| ev_event_type := lit "secret.deleted"; ev_tenant_id := as_bytes (s_tenant_id view);
            ev_project_id := Some (as_bytes (s_project_id view));
            ev_environment_id := Some (as_bytes (s_environment_id view));
            ev_secret_id := Some (as_bytes (s_secret_id view));
            ev_secret_version := Some (s_current_version view);
            ev_principal_id := as_bytes (principal_id claims); ev_request_id := as_bytes request;
            ev_source := lit "api"; ev_result := lit "success"; ev_reason := as_bytes reason |} now (md_events d) with
       | Ok t => Some (set_mevents t d)
       | Err _ => None
       end)).

Definition scoped_to (claims : ScopeClaims) (view : SecretRow) : ScopeClaims :=
  {| Policy.tenant_id := Policy.tenant_id claims; Policy.project_id := Policy.project_id claims;
     Policy.environment_id := Some (s_environment_id view);
     Policy.repository_binding_id := s_repository_binding_id view;
     Policy.service_id := s_service_id view; branch := branch claims; cnf := cnf claims;
     origin_session_hash := origin_session_hash claims; mfa_proof_id := mfa_proof_id claims;
     elevated_until_utc := elevated_until_utc claims; Policy.principal_id := Policy.principal_id claims;
     issued_at_utc := issued_at_utc claims; expires_at_utc := expires_at_utc claims; jti := jti claims |}.

(** [match] on the outcome of a call, with [NotFound] tolerated. *)
Definition found_or {A} (absent : A) (m : Tx MDb SecretError A) : MTx A := fun d =>
  match m d with
  | (Ok a, d') => (Ok a, d')
  | (Err SecretNotFound, d') => (Ok absent, d')
  | (Err e, d') => (Err (MSecrets e), d')
  end.

Definition roll_back (claims : ScopeClaims) (attrs : RequestAttributes) (migration request : str) (now : Z)
  (e : MigrationEntry) : MTx unit :=
  match me_secret_id e with
  | Some secret =>
      do resource_claims <- found_or claims
        (do view <- resolve_secret secret ;; tret (Ok (scoped_to claims view))) ;;
      found_or tt (delete_secret resource_claims attrs secret
                     (lit "migration " ++ migration ++ lit " aborted") request)
  | None => tret (Ok tt)
  end ;;;
  update_entry "rolled_back" (me_ledger_id e) (upd_rolled_back now).

Definition abort_run (claims : ScopeClaims) (attrs : RequestAttributes) (project migration request : str) (now : Z)
  : MTx Z :=
  authorize_migration claims project attrs ;;;
  do run <- run_view migration ;;
  require_project run project ;;;
  if bool_decide (mv_state run ∈ [RUN_COMPLETE; RUN_ABORTED]) then
    tret (Err (MInvalid (lit "run is already " ++ mv_state run))) else
  do doomed <- mquery "doomed" (fun d => filter (fun e =>
    me_migration_id e = migration /\ me_state e ∈ [ENTRY_MIGRATED; ENTRY_VERIFIED]) (md_entries d)) ;;
  tx_for_each (roll_back claims attrs migration request now) doomed ;;;
  mexecute "aborted" migration
    (fun d => Some (set_runs (fmap (on_run migration (upd_run_state RUN_ABORTED now))) d)) ;;;
  do run' <- run_view migration ;;
  audit_migration (lit "migration.aborted") run' (principal_id claims)
    (json_object [("migration_id"%string, VText (mv_migration_id run')); ("rolled_back"%string, VInt (blen doomed))]) now ;;;
  tret (Ok (blen doomed)).

(** ** Reads *)

Definition get_run_detail (claims : ScopeClaims) (attrs : RequestAttributes) (project migration : str)
  : MTx (MigrationRunView * list MigrationEntryView) :=
  authorize_migration claims project attrs ;;;
  do run <- run_view migration ;;
  require_project run project ;;;
  do entries <- list_entries migration ;;
  tret (Ok (run, entries)).

Definition list_runs (claims : ScopeClaims) (attrs : RequestAttributes) (project : str)
  : MTx (list MigrationRunView) :=
  authorize_migration claims project attrs ;;;
  do tenant <- run_tenant project ;;
  do _ <- tret (ok_or tenant MNotFound) ;;
  do ids <- mquery "list_runs" (fun d => mr_migration_id <$> sort (fun a b => mr_created_at a <=? mr_created_at b)
    (filter (fun r => mr_project_id r = project) (md_runs d))) ;;
  tx_map run_view ids.
End Ledger.
