(* ===== verification/MigrationTheory.v ===== *)
(** * The life of a migration entry

    What holds of the ledger of [Migration] after any history of calls, whatever
    statements fail and whatever happens to the tables of other components between
    the calls: entries move along the edges of [entry_step], a verified entry's
    digests agree, a run claims each name of an environment once, and a complete run
    has nothing left in flight. *)

From S2P Require Import Prelude Errors Sorting Tables Primitives SamplePrimitives Names Redact Policy PolicyTheory AuditChain Grants Migration.

#[local] Open Scope tx_scope.

(** ** Edges of the state machine *)

Definition pending_states : list str := [ENTRY_VALIDATED; ENTRY_QUARANTINED].

Inductive entry_step : MigrationEntry -> MigrationEntry -> Prop :=
| step_same e : entry_step e e
| step_propose e e' :
    me_key e' = me_key e -> me_state e ∈ pending_states -> me_state e' ∈ pending_states -> entry_step e e'
| step_mark secret digest now e :
    me_state e = ENTRY_VALIDATED -> entry_step e (upd_migrated secret digest now e)
| step_verify now e :
    me_state e = ENTRY_MIGRATED -> me_target_digest e = Some (me_source_digest e) ->
    entry_step e (upd_verified now e)
| step_mismatch now e :
    me_state e = ENTRY_MIGRATED -> me_target_digest e <> Some (me_source_digest e) ->
    entry_step e (upd_quarantine mismatch_reason now e)
| step_disable now e :
    me_state e = ENTRY_VERIFIED -> entry_step e (upd_state ENTRY_LEGACY_DISABLED now e)
| step_roll_back now e :
    me_state e ∈ [ENTRY_MIGRATED; ENTRY_VERIFIED] -> entry_step e (upd_rolled_back now e).

Definition settled_states : list str := [RUN_COMPLETE; RUN_ABORTED].
Definition run_step (r r' : MigrationRun) : Prop :=
  mr_migration_id r' = mr_migration_id r /\ mr_project_id r' = mr_project_id r /\
  (mr_state r ∈ settled_states -> mr_state r' = mr_state r).

(** The rows of [old], each changed by [R], and rows added after them. *)
Definition extends {A} (R : A -> A -> Prop) (fresh : A -> Prop) (old new : list A) : Prop :=
  exists kept added, new = kept ++ added /\ Forall2 R old kept /\ Forall fresh added.

Definition evolves (R : MigrationEntry -> MigrationEntry -> Prop) (d0 d : MDb) : Prop :=
  extends R (fun e => me_state e ∈ pending_states) (md_entries d0) (md_entries d) /\
  extends run_step (fun r => mr_state r = RUN_PLANNING) (md_runs d0) (md_runs d).

(** ** The invariant *)

Definition resting_states : list str :=
  [ENTRY_VALIDATED; ENTRY_QUARANTINED; ENTRY_MIGRATED; ENTRY_VERIFIED; ENTRY_LEGACY_DISABLED].
Definition applied_states : list str := [ENTRY_MIGRATED; ENTRY_VERIFIED; ENTRY_LEGACY_DISABLED].
Definition complete_run (d : MDb) (run : str) : Prop :=
  exists r, r ∈ md_runs d /\ mr_migration_id r = run /\ mr_state r = RUN_COMPLETE.

(** What an entry's row says of it. *)
Record entry_ok (e : MigrationEntry) : Prop := {
  ok_resting : me_state e ∈ resting_states;
  ok_secret : me_state e ∈ applied_states -> is_Some (me_secret_id e);
  ok_digest : me_state e ∈ closed_states -> me_target_digest e = Some (me_source_digest e);
}.
(** Two entries that claim one name of one environment are the same. *)
Definition names_unique (es : list MigrationEntry) : Prop :=
  forall a b, a ∈ es -> b ∈ es -> me_migration_id a = me_migration_id b -> me_env a = me_env b ->
  me_name a = me_name b -> me_state a ∈ claiming_states -> me_state b ∈ claiming_states -> a = b.

Record ledger_ok (d : MDb) : Prop := {
  lk_ids : NoDup (me_ledger_id <$> md_entries d);
  lk_keys : NoDup (natural_key <$> md_entries d);
  lk_runs : NoDup (mr_migration_id <$> md_runs d);
  lk_entries : forall e, e ∈ md_entries d -> entry_ok e;
  lk_names : names_unique (md_entries d);
  lk_complete : forall e, e ∈ md_entries d -> complete_run d (me_migration_id e) -> me_state e ∈ closed_states;
}.

(** Closed facts about state names. *)
Ltac states :=
  try match goal with
  | |- _ -> _ => intros ?
  end;
  match goal with
  | |- _ ∈ _ => apply (bool_decide_unpack _); by vm_compute
  | |- _ ∉ _ => apply (bool_decide_unpack _); by vm_compute
  | |- _ <> _ => apply (bool_decide_unpack _); by vm_compute
  | H : _ ∈ _ |- _ => apply (bool_decide_pack _) in H; by vm_compute in H
  end.

(** ** Rows of a changed list *)

Lemma extends_refl {A} (R : A -> A -> Prop) fresh l : (forall x, R x x) -> extends R fresh l l.
Proof.
  intros HR. exists l, []. rewrite app_nil_r. repeat split; [|by constructor].
  induction l; constructor; auto.
Qed.
Lemma extends_mono {A} (R R' : A -> A -> Prop) fresh l l' :
  (forall x y, R x y -> R' x y) -> extends R fresh l l' -> extends R' fresh l l'.
Proof. intros HR (k & a & -> & Hk & Ha). exists k, a. split; [done|]. split; [by eapply Forall2_impl|done]. Qed.
Lemma extends_trans {A} (R : A -> A -> Prop) fresh l1 l2 l3 :
  (forall x y z, R x y -> R y z -> R x z) -> (forall x y, fresh x -> R x y -> fresh y) ->
  extends R fresh l1 l2 -> extends R fresh l2 l3 -> extends R fresh l1 l3.
Proof.
  intros HR Hf (k & a & -> & Hk & Ha) (k' & a' & -> & (k1 & k2 & H1 & H2 & ->)%Forall2_app_inv_l & Ha').
  exists k1, (k2 ++ a'). rewrite (assoc_L (++)). split; [done|]. split.
  - by eapply Forall2_trans.
  - apply Forall_app. split; [|done]. clear H1. revert Ha.
    induction H2; [constructor|]. rewrite !Forall_cons. intros (? & ?). eauto.
Qed.
(** An update of the rows. *)
Lemma extends_fmap {A} (R : A -> A -> Prop) (fresh : A -> Prop) f (l : list A) :
  (forall x, x ∈ l -> R x (f x)) -> extends R fresh l (f <$> l).
Proof.
  intros Hf. exists (f <$> l), []. rewrite app_nil_r. repeat split; [|by constructor].
  apply Forall2_fmap_r, Forall_Forall2_diag, Forall_forall. done.
Qed.
Lemma extends_snoc {A} (R : A -> A -> Prop) (fresh : A -> Prop) x (l : list A) :
  (forall y, R y y) -> fresh x -> extends R fresh l (l ++ [x]).
Proof.
  intros HR Hx. exists l, [x]. repeat split; [|by repeat constructor]. induction l; constructor; auto.
Qed.
Lemma extends_in {A} (R : A -> A -> Prop) fresh l l' x :
  extends R fresh l l' -> x ∈ l -> exists y, y ∈ l' /\ R x y.
Proof.
  intros (k & a & -> & Hk & _) Hx. apply list_elem_of_lookup in Hx as (i & Hi).
  eapply Forall2_lookup_l in Hk as (y & Hy & HR); [|done]. exists y. split; [|done].
  apply elem_of_app. left. by eapply list_elem_of_lookup_2.
Qed.
(** A second update. *)
Lemma Forall2_again {A} (R : A -> A -> Prop) f (l l' : list A) :
  Forall2 R l l' -> (forall x y, x ∈ l -> y ∈ l' -> R x y -> R x (f y)) -> Forall2 R l (f <$> l').
Proof.
  intros Hk Hf. apply Forall2_fmap_r. rewrite Forall2_lookup in Hk |- *. intros i. specialize (Hk i).
  destruct (l !! i) eqn:E1, (l' !! i) eqn:E2; inversion Hk; constructor.
  apply Hf; by eauto using list_elem_of_lookup_2.
Qed.
Lemma extends_of {A} (R : A -> A -> Prop) (fresh : A -> Prop) (l l' : list A) : Forall2 R l l' -> extends R fresh l l'.
Proof. intros Hl. exists l', []. by rewrite app_nil_r. Qed.

(** ** Keeping the invariant *)

Lemma fmap_same_in {A B} (f : A -> A) (g : A -> B) (l : list A) :
  (forall x, x ∈ l -> g (f x) = g x) -> g <$> (f <$> l) = g <$> l.
Proof.
  intros E. rewrite <- list_fmap_compose. apply list_fmap_ext. intros i x Hx.
  apply E. by eapply list_elem_of_lookup_2.
Qed.

Lemma ledger_ok_frame d d' :
  md_entries d' = md_entries d -> md_runs d' = md_runs d -> ledger_ok d -> ledger_ok d'.
Proof. intros He Hr []. unfold complete_run in *. constructor; unfold complete_run; rewrite ?He, ?Hr; auto. Qed.

(** What an update of one row must establish. *)
Record row_ok (d : MDb) (e e' : MigrationEntry) : Prop := {
  row_key : me_key e' = me_key e;
  row_entry : entry_ok e';
  row_complete : complete_run d (me_migration_id e) -> me_state e' ∈ closed_states;
}.
Definition keeps_name (e e' : MigrationEntry) : Prop :=
  me_name e' = me_name e /\ me_env e' = me_env e /\
  (me_state e' ∈ claiming_states -> me_state e ∈ claiming_states).

Lemma same_key_id e e' : me_key e' = me_key e -> me_ledger_id e' = me_ledger_id e.
Proof. unfold me_ledger_id. by intros ->. Qed.
Lemma same_key_run e e' : me_key e' = me_key e -> me_migration_id e' = me_migration_id e.
Proof. unfold me_migration_id. by intros ->. Qed.
Lemma same_key_natural e e' : me_key e' = me_key e -> natural_key e' = natural_key e.
Proof. unfold natural_key, me_migration_id. by intros ->. Qed.
#[local] Hint Resolve same_key_id same_key_run same_key_natural row_key row_entry row_complete : core.

Lemma ledger_rows d g :
  ledger_ok d -> (forall e, e ∈ md_entries d -> row_ok d e (g e)) -> names_unique (g <$> md_entries d) ->
  ledger_ok (set_entries (fmap g) d).
Proof.
  intros [] Hg Hn. constructor; simpl; try done.
  - rewrite fmap_same_in; [done|]. eauto.
  - rewrite fmap_same_in; [done|]. eauto.
  - intros e (e0 & -> & He)%list_elem_of_fmap. eauto.
  - intros e (e0 & -> & He)%list_elem_of_fmap Hc. apply (row_complete _ _ _ (Hg e0 He)).
    by rewrite <- (same_key_run _ _ (row_key _ _ _ (Hg e0 He))).
Qed.

Lemma row_refl d e : ledger_ok d -> e ∈ md_entries d -> row_ok d e e.
Proof. intros [] He. constructor; auto. Qed.

Lemma names_keep es g :
  names_unique es -> (forall e, e ∈ es -> me_key (g e) = me_key e /\ keeps_name e (g e)) -> names_unique (g <$> es).
Proof.
  intros Hn Hg a b (a0 & -> & Ha)%list_elem_of_fmap (b0 & -> & Hb)%list_elem_of_fmap.
  destruct (Hg a0 Ha) as (Ka & Na & Va & Ca), (Hg b0 Hb) as (Kb & Nb & Vb & Cb).
  rewrite Na, Nb, Va, Vb, (same_key_run _ _ Ka), (same_key_run _ _ Kb). intros Hm Hv Hna Hsa Hsb.
  by rewrite (Hn a0 b0) by auto.
Qed.

(** An update that keeps the names. *)
Lemma ledger_update d g :
  ledger_ok d -> (forall e, e ∈ md_entries d -> g e = e \/ (row_ok d e (g e) /\ keeps_name e (g e))) ->
  ledger_ok (set_entries (fmap g) d).
Proof.
  intros Hd Hg. apply ledger_rows; [done|..].
  - intros e He. destruct (Hg e He) as [->|(? & _)]; [by apply row_refl|done].
  - apply names_keep; [apply Hd|]. intros e He. destruct (Hg e He) as [->|([] & ?)]; [|done].
    split; [done|]. split; [done|]. split; [done|auto].
Qed.

Lemma ledger_runs d g :
  ledger_ok d ->
  (forall r, r ∈ md_runs d -> mr_migration_id (g r) = mr_migration_id r /\
     (mr_state (g r) = RUN_COMPLETE -> mr_state r = RUN_COMPLETE \/
        forall e, e ∈ md_entries d -> me_migration_id e = mr_migration_id r -> me_state e ∈ closed_states)) ->
  ledger_ok (set_runs (fmap g) d).
Proof.
  intros [] Hg. constructor; simpl; try done.
  - rewrite fmap_same_in; [done|]. intros r Hr. by apply Hg.
  - intros e He (r & Hr & Em & Es). simpl in Hr. apply list_elem_of_fmap in Hr as (r0 & -> & Hr).
    destruct (Hg r0 Hr) as (Hid & Hc). rewrite Hid in Em.
    destruct (Hc Es) as [Hs|Hs]; [|by eapply Hs]. apply lk_complete0; [done|]. by exists r0.
Qed.

Lemma ledger_new_run d r :
  ledger_ok d -> mr_migration_id r ∉ mr_migration_id <$> md_runs d -> mr_state r <> RUN_COMPLETE ->
  ledger_ok (set_runs (fun rs => rs ++ [r]) d).
Proof.
  intros [] Hn Hs. constructor; simpl; try done.
  - rewrite fmap_app. by apply NoDup_snoc.
  - intros e He (r' & Hr & Em & Es). simpl in Hr. apply elem_of_app in Hr as [Hr|Hr%list_elem_of_singleton]; [|by subst].
    apply lk_complete0; [done|]. by exists r'.
Qed.

Lemma open_not_complete d r :
  ledger_ok d -> r ∈ md_runs d -> mr_state r <> RUN_COMPLETE -> ~ complete_run d (mr_migration_id r).
Proof. intros Hd Hr Hs (r' & Hr' & Em & Es). apply Hs. by rewrite (key_unique _ _ r r' (lk_runs d Hd)). Qed.

(** ** One entry in focus

    Inside the transactions of submission and resolution, one row is rewritten
    several times before the names are checked again. *)

Inductive focus (d0 : MDb) (id : str) (e : MigrationEntry) : MDb -> Prop :=
| focus_old e0 :
    e0 ∈ md_entries d0 -> me_ledger_id e0 = id -> me_key e = me_key e0 -> me_state e0 ∈ pending_states ->
    focus d0 id e (set_entries (fmap (on_entry id (fun _ => e))) d0)
| focus_new :
    id ∉ me_ledger_id <$> md_entries d0 -> natural_key e ∉ natural_key <$> md_entries d0 -> me_ledger_id e = id ->
    focus d0 id e (set_entries (fun es => es ++ [e]) d0).



Lemma on_entry_other id f (es : list MigrationEntry) : id ∉ me_ledger_id <$> es -> on_entry id f <$> es = es.
Proof.
  intros Hn. rewrite <- (list_fmap_id es) at 2. apply list_fmap_ext. intros i x Hx%list_elem_of_lookup_2.
  unfold on_entry. rewrite bool_decide_false; [done|]. intros E. apply Hn. rewrite <- E. by apply list_elem_of_fmap_2.
Qed.

Lemma focus_update d0 id e d f :
  focus d0 id e d -> me_key (f e) = me_key e -> focus d0 id (f e) (set_entries (fmap (on_entry id f)) d).
Proof.
  intros Hf Hk. destruct Hf as [e0 He Hid Hke Hs|Hn Hnk Hid].
  - assert (set_entries (fmap (on_entry id f)) (set_entries (fmap (on_entry id (fun _ => e))) d0)
            = set_entries (fmap (on_entry id (fun _ => f e))) d0) as ->.
    { unfold set_entries; simpl. f_equal. rewrite <- list_fmap_compose. apply list_fmap_ext. intros i x Hx.
      unfold compose, on_entry. destruct (decide (me_ledger_id x = id)) as [E|E].
      - rewrite !(bool_decide_true (me_ledger_id x = id)) by done.
        by rewrite bool_decide_true by (by rewrite (same_key_id e0)).
      - by rewrite !(bool_decide_false (me_ledger_id x = id)). }
    eapply focus_old; eauto. congruence.
  - assert (set_entries (fmap (on_entry id f)) (set_entries (fun es => es ++ [e]) d0)
            = set_entries (fun es => es ++ [f e]) d0) as ->.
    { unfold set_entries; simpl. f_equal. rewrite fmap_app, on_entry_other by done. simpl.
      unfold on_entry. by rewrite bool_decide_true. }
    apply focus_new; [done| |]; [by rewrite (same_key_natural e)|by rewrite (same_key_id e)].
Qed.

Lemma focus_id d0 id e d : focus d0 id e d -> me_ledger_id e = id.
Proof. intros []; [|done]. by rewrite (same_key_id e0). Qed.
Lemma focus_in d0 id e d : focus d0 id e d -> e ∈ md_entries d.
Proof.
  intros [e0 He Hid Hk Hs|]; simpl; [|set_solver]. apply list_elem_of_fmap. exists e0. split; [|done].
  unfold on_entry. by rewrite bool_decide_true.
Qed.
Lemma focus_others d0 id e d x : focus d0 id e d -> x ∈ md_entries d -> x = e \/ (x ∈ md_entries d0 /\ me_ledger_id x <> id).
Proof.
  intros [e0 He Hid Hk Hs|Hn Hnk Hid] Hx; simpl in Hx.
  - apply list_elem_of_fmap in Hx as (y & -> & Hy). unfold on_entry. case_bool_decide; auto.
  - apply elem_of_app in Hx as [Hx|Hx%list_elem_of_singleton]; [|auto]. right. split; [done|].
    intros E. apply Hn. rewrite <- E. by apply list_elem_of_fmap_2.
Qed.
Lemma focus_runs d0 id e d : focus d0 id e d -> md_runs d = md_runs d0.
Proof. by intros []. Qed.

(** The names are unique again once the entry has no rival. *)
Definition no_rival (d : MDb) (e : MigrationEntry) : Prop :=
  forall x, x ∈ md_entries d -> me_ledger_id x <> me_ledger_id e -> me_migration_id x = me_migration_id e ->
  me_env x = me_env e -> me_name x = me_name e -> me_state x ∉ claiming_states.

Lemma focus_names d0 id e d :
  focus d0 id e d -> names_unique (md_entries d0) -> (me_state e ∈ claiming_states -> no_rival d e) ->
  names_unique (md_entries d).
Proof.
  intros Hf Hn Hr a b Ha Hb Hm Hv Hna Hsa Hsb. pose proof (focus_id _ _ _ _ Hf) as Hid.
  destruct (focus_others _ _ _ _ _ Hf Ha) as [->|(Ha0 & Hia)], (focus_others _ _ _ _ _ Hf Hb) as [->|(Hb0 & Hib)];
    [done|..|by apply Hn].
  - by destruct (Hr Hsa b Hb ltac:(congruence) ltac:(done) ltac:(done) ltac:(done)).
  - by destruct (Hr Hsb a Ha ltac:(congruence) ltac:(done) ltac:(done) ltac:(done)).
Qed.

Lemma pending_entry_ok e : me_state e ∈ pending_states -> entry_ok e.
Proof.
  intros Hs. assert (me_state e = ENTRY_VALIDATED \/ me_state e = ENTRY_QUARANTINED) as Hs' by set_solver.
  constructor; destruct Hs' as [->| ->]; by states.
Qed.

Definition proposed (e e' : MigrationEntry) : Prop :=
  e' = e \/ (me_key e' = me_key e /\ me_state e ∈ pending_states /\ me_state e' ∈ pending_states).
Lemma proposed_trans x y z : proposed x y -> proposed y z -> proposed x z.
Proof. unfold proposed. intros [->|(?&?&?)] [->|(?&?&?)]; auto. right. split; [congruence|done]. Qed.

Lemma run_step_refl r : run_step r r.
Proof. done. Qed.
Lemma evolves_refl (R : MigrationEntry -> MigrationEntry -> Prop) d : (forall e, R e e) -> evolves R d d.
Proof. intros HR. split; apply extends_refl; [done|apply run_step_refl]. Qed.
Lemma evolves_mono (R R' : MigrationEntry -> MigrationEntry -> Prop) d d' :
  (forall x y, R x y -> R' x y) -> evolves R d d' -> evolves R' d d'.
Proof. intros HR (He & Hr). split; [by eapply extends_mono|done]. Qed.

Lemma focus_ok d0 id e d :
  ledger_ok d0 -> focus d0 id e d -> me_state e ∈ pending_states -> (me_state e ∈ claiming_states -> no_rival d e) ->
  ~ complete_run d0 (me_migration_id e) -> ledger_ok d /\ evolves proposed d0 d.
Proof.
  intros Hd Hf Hs Hr Hc. pose proof (focus_names _ _ _ _ Hf (lk_names _ Hd) Hr) as Hn.
  assert (extends run_step (fun r => mr_state r = RUN_PLANNING) (md_runs d0) (md_runs d)) as Hruns.
  { rewrite (focus_runs _ _ _ _ Hf). apply extends_refl, run_step_refl. }
  split; [|split; [|done]]; destruct Hf as [e0 He Hid Hk Hs0|Hni Hnk Hid].
  - apply ledger_rows; [done| |done]. intros x Hx. unfold on_entry. case_bool_decide as E; [|by apply row_refl].
    assert (x = e0) as -> by (eapply key_unique; [apply (lk_ids _ Hd)|..]; congruence).
    constructor; [done|by apply pending_entry_ok|]. rewrite <- (same_key_run _ _ Hk). intros Hx'. by destruct Hc.
  - destruct Hd. constructor; simpl; try done.
    + rewrite fmap_app. apply NoDup_snoc; [done|]. by rewrite Hid.
    + rewrite fmap_app. by apply NoDup_snoc.
    + intros x [Hx|Hx%list_elem_of_singleton]%elem_of_app; [auto|]. subst. by apply pending_entry_ok.
    + intros x [Hx|Hx%list_elem_of_singleton]%elem_of_app Hcr; [by apply lk_complete0|]. subst. by destruct Hc.
  - apply extends_fmap. intros x Hx. unfold on_entry. case_bool_decide as E; [|by left].
    assert (x = e0) as -> by (eapply key_unique; [apply (lk_ids _ Hd)|..]; congruence). right. auto.
  - apply extends_snoc; [by left|done].
Qed.

Lemma upd_state_key s now e : me_key (upd_state s now e) = me_key e.
Proof. by destruct e. Qed.
Lemma upd_quarantine_key r now e : me_key (upd_quarantine r now e) = me_key e.
Proof. by destruct e. Qed.
Lemma upd_reason_key r e : me_key (upd_reason r e) = me_key e.
Proof. by destruct e. Qed.
Lemma upd_targets_key p now e : me_key (upd_targets p now e) = me_key e.
Proof. by destruct e. Qed.
Lemma upd_proposal_key p now e : me_key (upd_proposal p now e) = me_key e.
Proof. by destruct e. Qed.

Section Programs.
Context {HX : Hex} {SH : Sha256} {JS : Json} (c : MCall).

(** ** Statements that leave the ledger alone *)

Definition frame (d d' : MDb) : Prop := md_entries d' = md_entries d /\ md_runs d' = md_runs d.

Lemma hoare_mquery {A} I name (f : MDb -> A) d (Q : A -> MDb -> Prop) :
  I d -> Q (f d) d -> hoare I (mquery c name f) d Q.
Proof. apply hoare_query. Qed.
Lemma hoare_update I name id f d (Q : unit -> MDb -> Prop) :
  I d -> Q tt (set_entries (fmap (on_entry id f)) d) -> hoare I (update_entry c name id f) d Q.
Proof. intros HI HQ. apply hoare_execute; [done|]. by intros d' [= <-]. Qed.
Lemma hoare_set_state I id s now d (Q : unit -> MDb -> Prop) :
  I d -> Q tt (set_entries (fmap (on_entry id (upd_state s now))) d) -> hoare I (set_state c id s now) d Q.
Proof. intros HI HQ. apply hoare_execute; [done|]. by intros d' [= <-]. Qed.

Lemma hoare_audit I et run pp reason now d (Q : unit -> MDb -> Prop) :
  I d -> (forall t, Q tt (set_mevents t d)) -> hoare I (audit_migration c et run pp reason now) d Q.
Proof.
  intros HI HQ. apply hoare_execute; [done|]. intros d'. destruct (audit_secret_event _ _ _ _); [|done].
  intros [= <-]. by apply HQ.
Qed.

Lemma hoare_authorize I claims project attrs d (Q : unit -> MDb -> Prop) :
  I d -> Q tt d -> hoare I (authorize_migration c claims project attrs) d Q.
Proof.
  intros HI HQ. eapply (hoare_bind _ _ _ _ (fun _ d' => d' = d)); [by apply hoare_query|]. intros t d' ->.
  unfold hoare. by destruct (authorize _ _ _ _ _ _ _).
Qed.

Definition views (run : MigrationRunView) (r : MigrationRun) : Prop :=
  mv_migration_id run = mr_migration_id r /\ mv_state run = mr_state r /\ mv_project_id run = mr_project_id r.

Lemma hoare_run_view I migration d (Q : MigrationRunView -> MDb -> Prop) :
  I d -> (forall run r, r ∈ md_runs d -> mr_migration_id r = migration -> views run r -> Q run d) ->
  hoare I (run_view c migration) d Q.
Proof.
  intros HI HQ. eapply (hoare_bind _ _ _ _ (fun row d' => d' = d /\ row = _)); [by apply hoare_query|].
  intros row d' (-> & Hrow). eapply (hoare_bind _ _ _ _ (fun r d' => d' = d /\ row = Some r)).
  { apply hoare_ret; [done|]. intros r. destruct row; [|done]. by intros [= ->]. }
  intros r d' (-> & ->). symmetry in Hrow. apply find_row in Hrow as (Hin & Hid).
  eapply (hoare_bind _ _ _ _ (fun _ d' => d' = d)); [by apply hoare_query|]. intros counts d' ->.
  apply hoare_ret; [done|]. intros v [= <-]. by eapply HQ.
Qed.

Lemma hoare_open I claims attrs project migration states what d (Q : MigrationRunView -> MDb -> Prop) :
  I d ->
  (forall run r, r ∈ md_runs d -> mr_migration_id r = migration -> views run r -> mr_state r ∈ states -> Q run d) ->
  hoare I (open_run c claims attrs project migration states what) d Q.
Proof.
  intros HI HQ. eapply (hoare_bind _ _ _ _ (fun _ d' => d' = d)); [by apply hoare_authorize|]. intros _ d' ->.
  eapply (hoare_bind _ _ _ _ (fun run d' => d' = d /\ exists r, r ∈ md_runs d /\ mr_migration_id r = migration /\ views run r)).
  { apply hoare_run_view; eauto 10. }
  intros run d' (-> & r & Hr & Hid & Hv).
  eapply (hoare_bind _ _ _ _ (fun _ d' => d' = d)).
  { unfold require_project. case_bool_decide; by apply hoare_ret. }
  intros _ d' ->. eapply (hoare_bind _ _ _ _ (fun _ d' => d' = d /\ mv_state run ∈ states)).
  { unfold require_run_state. case_bool_decide; by apply hoare_ret. }
  intros _ d' (-> & Hs). apply hoare_ret; [done|]. intros v [= <-]. eapply HQ; eauto.
  by destruct Hv as (_ & <- & _).
Qed.

Lemma hoare_get_row I migration ledger d (Q : MigrationEntryView -> MDb -> Prop) :
  I d -> (forall e, e ∈ md_entries d -> me_migration_id e = migration -> me_ledger_id e = ledger ->
          Q (entry_view_from_row e) d) ->
  hoare I (get_entry c migration ledger) d Q.
Proof.
  intros HI HQ. unfold get_entry, get_row.
  eapply (hoare_bind _ _ _ _ (fun e d' => d' = d /\ e ∈ md_entries d /\ me_migration_id e = migration /\ me_ledger_id e = ledger)).
  { eapply (hoare_bind _ _ _ _ (fun row d' => d' = d /\ row = _)); [by apply hoare_query|]. intros row d' (-> & Hrow).
    apply hoare_ret; [done|]. intros e He. destruct row as [e'|]; [|done]. injection He as ->.
    symmetry in Hrow. by apply find_row in Hrow. }
  intros e d' (-> & He & Hm & Hl). apply hoare_ret; [done|]. intros v [= <-]. auto.
Qed.

(** ** The validation gate *)

(** The entry in focus has been settled: validated without a rival, or quarantined. *)
Definition settled (d0 : MDb) (ledger : str) (k : EntryKey) (d : MDb) : Prop :=
  exists e, focus d0 ledger e d /\ me_key e = k /\
  (me_state e = ENTRY_QUARANTINED \/ (me_state e = ENTRY_VALIDATED /\ no_rival d e)).

Lemma hoare_quarantine ledger now reason d0 d e :
  focus d0 ledger e d ->
  hoare (fun _ => True) (quarantine c ledger now reason) d (fun id d' => id = ledger /\ settled d0 ledger (me_key e) d').
Proof.
  intros Hf. eapply (hoare_bind _ _ _ _ (fun _ d' => settled d0 ledger (me_key e) d')).
  - apply hoare_update; [done|]. exists (upd_quarantine reason now e).
    split; [apply focus_update; [done|]|split; [|left]]; by destruct e.
  - intros _ d' Hd'. apply hoare_ret; [done|]. by intros id [= <-].
Qed.

Lemma no_rival_none run ledger p d e :
  rival_of run ledger p d = None -> me_ledger_id e = ledger -> me_migration_id e = run ->
  me_name e = se_name p -> me_env e = Some (se_target_environment_id p) -> no_rival d e.
Proof.
  unfold rival_of. intros Hr Hl Hm Hn Hv x Hx Hne Hmx Hvx Hnx Hs.
  destruct (sort _ _) as [|y l] eqn:Es; [|done].
  assert (x ∈ sort entry_le (filter (fun e => me_migration_id e = run /\ me_ledger_id e <> ledger /\
    me_env e = Some (se_target_environment_id p) /\ me_name e = se_name p /\ me_state e ∈ claiming_states) (md_entries d))) as Hin.
  { rewrite sort_perm. apply list_elem_of_filter. repeat split; try done; congruence. }
  rewrite Es in Hin. by apply not_elem_of_nil in Hin.
Qed.

Lemma hoare_fail ledger now reason d0 d e k :
  focus d0 ledger e d -> me_key e = k ->
  hoare (fun _ => True) (quarantine c ledger now reason ;;; tret (Ok tt)) d (fun _ => settled d0 ledger k).
Proof.
  intros Hf <-. eapply hoare_bind; [by apply hoare_quarantine|]. intros id d' (_ & Hd). by apply hoare_ret.
Qed.

Lemma validate_settles run ledger p now d0 d e k :
  focus d0 ledger e d -> me_key e = k -> me_migration_id e = mv_migration_id run -> me_name e = se_name p ->
  me_env e = Some (se_target_environment_id p) ->
  hoare (fun _ => True) (validate_mapped c run ledger p now) d (fun _ => settled d0 ledger k).
Proof.
  intros Hf Hk Hm Hn Hv. unfold validate_mapped.
  assert (forall reason, hoare (fun _ => True) (quarantine c ledger now reason ;;; tret (Ok tt)) d
            (fun _ => settled d0 ledger k)) as Hfail by (intros; by eapply hoare_fail).
  eapply (hoare_bind _ _ _ _ (fun _ d' => d' = d)); [by apply hoare_mquery|]. intros env_exists d' ->.
  destruct env_exists; simpl; [|apply Hfail].
  eapply (hoare_bind _ _ _ _ (fun _ d' => d' = d)).
  { destruct (se_target_binding_id p); [by apply hoare_mquery|by apply hoare_ret]. }
  intros ok d' ->. destruct ok; simpl; [|apply Hfail].
  eapply (hoare_bind _ _ _ _ (fun _ d' => d' = d)).
  { destruct (se_target_service_id p); [by apply hoare_mquery|by apply hoare_ret]. }
  intros ok d' ->. destruct ok; simpl; [|apply Hfail].
  eapply (hoare_bind _ _ _ _ (fun rival d' => d' = d /\ rival = _)); [by apply hoare_mquery|].
  intros [r|] d' (-> & Hr); [apply Hfail|]. symmetry in Hr.
  eapply (hoare_bind _ _ _ _ (fun _ d' => d' = d)); [by apply hoare_mquery|].
  intros taken d' ->. destruct taken; [apply Hfail|].
  eapply (hoare_bind _ _ _ _ (fun _ d' => d' = set_entries (fmap (on_entry ledger (upd_state ENTRY_VALIDATED now))) d)).
  { by apply hoare_set_state. }
  intros _ d' ->. apply hoare_update; [done|]. exists (upd_reason [] (upd_state ENTRY_VALIDATED now e)).
  assert (focus d0 ledger (upd_reason [] (upd_state ENTRY_VALIDATED now e))
    (set_entries (fmap (on_entry ledger (upd_reason [])))
       (set_entries (fmap (on_entry ledger (upd_state ENTRY_VALIDATED now))) d))) as Hf'.
  { apply focus_update; [apply focus_update; [done|apply upd_state_key]|apply upd_reason_key]. }
  split; [done|]. rewrite upd_reason_key, upd_state_key. split; [done|]. right. split; [by destruct e|].
  intros x Hx Hne Hmx Hvx Hnx. destruct (focus_others _ _ _ _ _ Hf' Hx) as [->|(Hx0 & Hid)]; [done|].
  assert (x ∈ md_entries d) as Hxd.
  { destruct Hf; simpl; [|set_solver]. apply list_elem_of_fmap. exists x. split; [|done].
    unfold on_entry. by rewrite bool_decide_false. }
  pose proof (focus_id _ _ _ _ Hf).
  eapply (no_rival_none _ _ _ _ e Hr); try done; [congruence|destruct e; unfold me_migration_id in *; simpl in *; congruence..].
Qed.

(** ** Submission *)

Lemma existing_none d k :
  find (fun e => bool_decide (natural_key e = k)) (md_entries d) = None -> k ∉ natural_key <$> md_entries d.
Proof.
  intros Hn (e & -> & He)%list_elem_of_fmap. eapply find_none in Hn; [|by apply list_elem_of_In].
  by rewrite bool_decide_true in Hn.
Qed.

Lemma insert_focus run ledger p now d d' :
  ledger_ok d ->
  (forall e, e ∈ md_entries d -> natural_key e = (run, se_source_path p, se_source_line p) ->
     me_ledger_id e = ledger /\ me_state e ∈ pending_states) ->
  insert_entry run ledger p now d = Some d' ->
  exists e, focus d ledger e d' /\ me_migration_id e = run /\ me_name e = se_name p.
Proof.
  intros Hd Hex. unfold insert_entry. set (row := MkEntry _ _ _ _ _ _ _ _ _ _ _ _).
  case_bool_decide as Hk.
  - intros [= <-]. apply list_elem_of_fmap in Hk as (e0 & Hk & He0). destruct (Hex e0 He0) as (Hl & Hs); [by rewrite <- Hk|].
    exists (upd_proposal p now e0). split; [|split].
    + assert (set_entries (fmap (fun e => if bool_decide (natural_key e = natural_key row) then upd_proposal p now e else e)) d
        = set_entries (fmap (on_entry ledger (fun _ => upd_proposal p now e0))) d) as ->.
      { unfold set_entries. f_equal. apply list_fmap_ext. intros i x Hx%list_elem_of_lookup_2. unfold on_entry.
        rewrite Hk. destruct (decide (x = e0)) as [->|Hne]; [by rewrite !bool_decide_true|].
        rewrite !bool_decide_false; [done|..]; intros E; apply Hne.
        - by eapply key_unique; [apply (lk_ids _ Hd)|..|congruence].
        - by eapply key_unique; [apply (lk_keys _ Hd)|..]. }
      eapply focus_old; eauto. by rewrite upd_proposal_key.
    + rewrite (same_key_run e0) by apply upd_proposal_key. unfold natural_key in Hk. by injection Hk.
    + by destruct e0.
  - destruct (bool_decide (ledger ∈ _)) eqn:Hl; [done|]. destruct (bool_decide (idempotent_key row ∈ _)); [done|].
    simpl. intros [= <-]. rewrite bool_decide_eq_false in Hl. exists row. split; [by apply focus_new|done].
Qed.

Lemma advance_settles run p now d ledger :
  ledger_ok d ->
  (forall e, e ∈ md_entries d -> natural_key e = (mv_migration_id run, se_source_path p, se_source_line p) ->
     me_ledger_id e = ledger /\ me_state e ∈ pending_states) ->
  hoare (fun _ => True) (advance_entry c run p now ledger) d (fun _ d' =>
    exists e, settled d ledger (me_key e) d' /\ me_migration_id e = mv_migration_id run).
Proof.
  intros Hd Hex. eapply (hoare_bind _ _ _ _ (fun _ d' => exists e, focus d ledger e d' /\
     me_migration_id e = mv_migration_id run /\ me_name e = se_name p)).
  { apply hoare_execute; [done|]. intros d'. by apply insert_focus. }
  intros _ d' (e & Hf & Hm & Hn). destruct (validate_secret_name _) as [u|err].
  2: { eapply hoare_mono; [by eapply hoare_quarantine|]. intros id d1 (_ & Hs). by exists e. }
  eapply (hoare_bind _ _ _ _ (fun _ d' => focus d ledger (upd_state ENTRY_CLASSIFIED now e) d')).
  { apply hoare_set_state; [done|]. by apply focus_update; [|apply upd_state_key]. }
  intros _ d1 Hf1. eapply (hoare_bind _ _ _ _ (fun _ => focus d ledger (upd_targets p now (upd_state ENTRY_CLASSIFIED now e)))).
  { apply hoare_update; [done|]. by apply focus_update; [|apply upd_targets_key]. }
  intros _ d2 Hf2. eapply (hoare_bind _ _ _ _ (fun _ => focus d ledger
    (upd_state ENTRY_MAPPED now (upd_targets p now (upd_state ENTRY_CLASSIFIED now e))))).
  { apply hoare_set_state; [done|]. by apply focus_update; [|apply upd_state_key]. }
  intros _ d3 Hf3. eapply (hoare_bind _ _ _ _ (fun _ => settled d ledger (me_key e))).
  { eapply validate_settles; [exact Hf3|by destruct e..]. }
  intros _ d4 Hs. apply hoare_ret; [done|]. intros id [= <-]. by exists e.
Qed.

Lemma settled_ok d ledger k run d' :
  ledger_ok d -> settled d ledger k d' -> ek_migration_id k = run -> ~ complete_run d run ->
  ledger_ok d' /\ evolves proposed d d'.
Proof.
  intros Hd (e & Hf & <- & Hs) <- Hc.
  eapply focus_ok; [done..| |by destruct Hs as [->|(-> & ?)]; [states|]|done].
  destruct Hs as [->|(-> & _)]; states.
Qed.

Lemma upsert_settles run p now d :
  ledger_ok d -> ~ complete_run d (mv_migration_id run) ->
  hoare (fun _ => True) (upsert_and_validate c run p now) d
    (fun _ d' => ledger_ok d' /\ evolves proposed d d' /\ md_runs d' = md_runs d).
Proof.
  intros Hd Hc. eapply (hoare_bind _ _ _ _ (fun _ d' => d' = d)); [by apply hoare_ret|]. intros _ d' ->.
  eapply (hoare_bind _ _ _ _ (fun r d' => d' = d /\ r = _)); [by apply hoare_mquery|]. intros existing d' (-> & Hex).
  assert (forall ledger d', (exists e, settled d ledger (me_key e) d' /\ me_migration_id e = mv_migration_id run) ->
    ledger_ok d' /\ evolves proposed d d' /\ md_runs d' = md_runs d) as Hdone.
  { intros ledger d' (e & Hs & Hm). rewrite (assoc and). split; [by eapply settled_ok|].
    destruct Hs as (e' & Hf & _). by eapply focus_runs. }
  destruct existing as [e|]; symmetry in Hex.
  - apply find_row in Hex as (He & Hk). case_bool_decide; simpl; [|by apply hoare_ret].
    case_bool_decide as Hs.
    + apply hoare_ret; [done|]. intros id [= <-]. split; [done|]. split; [|done].
      apply evolves_refl. by left.
    + eapply hoare_mono; [apply advance_settles; [done|]|intros ??; apply Hdone]. intros x Hx Hkx.
      rewrite (key_unique _ _ x e (lk_keys _ Hd)) by congruence. split; [done|].
      pose proof (ok_resting _ (lk_entries _ Hd e He)) as Hrest. clear -Hrest Hs.
      unfold resting_states, pending_states in *. set_solver.
  - eapply hoare_mono; [apply advance_settles; [done|]|intros ??; apply Hdone]. intros x Hx Hkx.
    apply existing_none in Hex. destruct Hex. rewrite <- Hkx. by apply list_elem_of_fmap_2.
Qed.

(** ** Calls that change rows in place *)

Record moved (R : MigrationEntry -> MigrationEntry -> Prop) (d0 d : MDb) : Prop := {
  mv_ok : ledger_ok d;
  mv_entries : Forall2 R (md_entries d0) (md_entries d);
  mv_runs : Forall2 run_step (md_runs d0) (md_runs d);
}.

Lemma moved_refl (R : MigrationEntry -> MigrationEntry -> Prop) d : (forall e, R e e) -> ledger_ok d -> moved R d d.
Proof. intros HR Hd. constructor; [done|..]; apply Forall_Forall2_diag, Forall_forall; auto using run_step_refl. Qed.
Lemma moved_evolves R R' d0 d : (forall x y, R x y -> R' x y) -> moved R d0 d -> ledger_ok d /\ evolves R' d0 d.
Proof.
  intros HR []. split; [done|]. split; apply extends_of; [|done]. by eapply Forall2_impl.
Qed.
Lemma moved_frame R d0 d d' : moved R d0 d -> frame d d' -> moved R d0 d'.
Proof. intros [] (He & Hr). constructor; [by eapply ledger_ok_frame|by rewrite He|by rewrite Hr]. Qed.

Lemma run_step_trans x y z : run_step x y -> run_step y z -> run_step x z.
Proof. intros (I1 & P1 & S1) (I2 & P2 & S2). repeat split; [congruence..|]. intros Hs. rewrite S2; [auto|by rewrite S1]. Qed.

(** A run changes its state. *)
Lemma moved_runs R d0 d g :
  moved R d0 d ->
  (forall r, r ∈ md_runs d -> run_step r (g r) /\
     (mr_state (g r) = RUN_COMPLETE -> mr_state r = RUN_COMPLETE \/
        forall e, e ∈ md_entries d -> me_migration_id e = mr_migration_id r -> me_state e ∈ closed_states)) ->
  moved R d0 (set_runs (fmap g) d).
Proof.
  intros [] Hg. constructor; simpl; [|done|].
  - apply ledger_runs; [done|]. intros r Hr. destruct (Hg r Hr) as ((Hi & _) & Hc). auto.
  - apply Forall2_again; [done|]. intros x y _ Hy Hxy. eapply run_step_trans; [done|]. by apply Hg.
Qed.

Definition unsettled (migration : str) (d : MDb) : Prop :=
  forall r, r ∈ md_runs d -> mr_migration_id r = migration -> mr_state r ∉ settled_states.

Lemma moved_run_state R d0 d migration state now :
  moved R d0 d -> unsettled migration d -> state <> RUN_COMPLETE ->
  moved R d0 (set_runs (fmap (on_run migration (upd_run_state state now))) d).
Proof.
  intros Hd Hu Hs. apply moved_runs; [done|]. intros r Hr. unfold on_run. case_bool_decide as E; [|by split; auto].
  split; [|done]. split; [done|]. split; [done|]. intros Hs'. by destruct (Hu r Hr E).
Qed.

(** A row changes, in a table where it is as it was. *)
Lemma moved_row R d0 d x f :
  ledger_ok d0 -> (forall a b, R a b -> me_key b = me_key a) -> moved R d0 d ->
  x ∈ md_entries d0 -> x ∈ md_entries d -> R x (f x) -> row_ok d x (f x) -> keeps_name x (f x) ->
  moved R d0 (set_entries (fmap (on_entry (me_ledger_id x) f)) d).
Proof.
  intros H0 HR [Hd He Hr] Hx0 Hx Hf Hrow Hkeep.
  assert (forall y, y ∈ md_entries d -> me_ledger_id y = me_ledger_id x -> y = x) as Hy
    by (intros; by eapply key_unique; [apply (lk_ids _ Hd)|..]).
  constructor; simpl; [|apply Forall2_again; [done|]|done].
  - apply ledger_update; [done|]. intros y Hyd. unfold on_entry. case_bool_decide as E; [|by left].
    rewrite (Hy y Hyd E). by right.
  - intros a b Ha Hb Hab. unfold on_entry. case_bool_decide as E; [|done]. rewrite (Hy b Hb E) in Hab |- *.
    assert (a = x) as ->; [|done]. eapply key_unique; [apply (lk_ids _ H0)|done..|]. symmetry.
    by apply same_key_id, HR.
Qed.
Lemma row_kept x id f d : x ∈ md_entries d -> me_ledger_id x <> id -> x ∈ md_entries (set_entries (fmap (on_entry id f)) d).
Proof.
  intros Hx Hn. apply list_elem_of_fmap. exists x. split; [|done]. unfold on_entry. by rewrite bool_decide_false.
Qed.

(** Nothing of the run is in flight. *)
Definition all_closed (migration : str) (d : MDb) : Prop :=
  forall e, e ∈ md_entries d -> me_migration_id e = migration -> me_state e ∈ closed_states.
(** A run with nothing in flight is complete, unless it had been aborted. *)
Definition completes (migration : str) (before d : MDb) : Prop :=
  all_closed migration d -> unsettled migration before ->
  forall r, r ∈ md_runs d -> mr_migration_id r = migration -> mr_state r = RUN_COMPLETE.

Lemma none_open migration d :
  blen (filter (fun e => me_migration_id e = migration /\ me_state e ∉ closed_states) (md_entries d)) = 0 <->
  all_closed migration d.
Proof.
  unfold blen. split.
  - intros E e He Hm. destruct (decide (me_state e ∈ closed_states)) as [|Hn]; [done|]. exfalso.
    assert (e ∈ filter (fun e => me_migration_id e = migration /\ me_state e ∉ closed_states) (md_entries d)) as Hin
      by (by apply list_elem_of_filter).
    destruct (filter _ _); [by apply not_elem_of_nil in Hin|simpl in E; lia].
  - intros Hc. rewrite filter_none; [done|]. apply Forall_forall. intros e He (Hm & Hn). by destruct Hn; apply Hc.
Qed.

Lemma hoare_maybe_complete R I d0 d migration now (Q : unit -> MDb -> Prop) :
  I d -> moved R d0 d -> (forall d', moved R d0 d' -> completes migration d d' -> Q tt d') ->
  hoare I (maybe_complete c migration now) d Q.
Proof.
  intros HI Hd HQ. eapply (hoare_bind _ _ _ _ (fun open d' => d' = d /\ open = _)); [by apply hoare_mquery|].
  intros open d' (-> & ->). destruct (_ =? 0) eqn:E.
  - apply Z.eqb_eq, none_open in E. apply hoare_execute; [done|]. intros d' [= <-].
    set (g := fun r => if bool_decide (mr_migration_id r = migration /\ mr_state r <> RUN_ABORTED) then _ else r).
    apply HQ.
    + apply moved_runs; [done|]. intros r Hr. unfold g. case_bool_decide as Hs; [|by split; auto].
      destruct Hs as (Hm & Hs). split.
      * split; [done|]. split; [done|]. simpl. intros Hset. unfold settled_states in Hset. set_solver.
      * intros _. right. intros e He Hme. apply E; [done|congruence].
    + intros _ Hu r (r0 & -> & Hr)%list_elem_of_fmap Hm. revert Hm. unfold g. case_bool_decide as Hs; [done|].
      intros Hm. destruct Hs. split; [done|]. intros Hs. apply (Hu r0 Hr Hm). rewrite Hs. states.
  - apply hoare_ret; [done|]. intros u _. destruct u. apply HQ; [done|]. intros Hall%none_open. by rewrite Hall in E.
Qed.

(** ** Every call keeps the invariant and moves entries along the edges *)

Definition lives (d0 d : MDb) : Prop := ledger_ok d /\ evolves entry_step d0 d.

Lemma lives_refl d : ledger_ok d -> lives d d.
Proof. intros Hd. split; [done|]. apply evolves_refl. constructor. Qed.
Lemma lives_frame d0 d d' : lives d0 d -> frame d d' -> lives d0 d'.
Proof.
  intros (Hd & Hs) (He & Hr). split; [by eapply ledger_ok_frame|]. unfold evolves in *. by rewrite He, Hr.
Qed.
Lemma proposed_step x y : proposed x y -> entry_step x y.
Proof. intros [->|(?&?&?)]; by constructor. Qed.
Lemma entry_step_key x y : entry_step x y -> me_key y = me_key x.
Proof. by intros []; try by destruct e. Qed.
Lemma moved_lives d0 d : moved entry_step d0 d -> lives d0 d.
Proof. by apply moved_evolves. Qed.
Lemma unsettled_of d r migration states :
  ledger_ok d -> r ∈ md_runs d -> mr_migration_id r = migration -> mr_state r ∈ states ->
  Forall (fun s => s ∉ settled_states) states -> unsettled migration d.
Proof.
  intros Hd Hr Hm Hs Hf r' Hr' Hm'. rewrite (key_unique _ _ r' r (lk_runs _ Hd)) by congruence.
  by eapply Forall_forall in Hf.
Qed.
Lemma unsettled_not_complete migration d : unsettled migration d -> ~ complete_run d migration.
Proof. intros Hu (r & Hr & Hm & Hs). apply (Hu r Hr Hm). rewrite Hs. states. Qed.
Lemma open_unsettled : Forall (fun s => s ∉ settled_states) open_states.
Proof. apply (bool_decide_unpack _). by vm_compute. Qed.

Lemma start_lives d claims attrs project vault snapshot now :
  ledger_ok d -> hoare (lives d) (start_run c claims attrs project vault snapshot now) d (fun _ => lives d).
Proof.
  intros Hd. pose proof (lives_refl d Hd) as HI. unfold start_run.
  eapply (hoare_bind _ _ _ _ (fun _ d' => d' = d)); [by apply hoare_authorize|]. intros _ d' ->.
  eapply (hoare_bind _ _ _ _ (fun _ d' => d' = d)); [by apply hoare_mquery|]. intros found d' ->.
  eapply (hoare_bind _ _ _ _ (fun _ d' => d' = d)); [by apply hoare_ret|]. intros tenant d' ->.
  destruct (_ || _); [by apply hoare_ret|]. destruct (negb _); [by apply hoare_ret|].
  eapply (hoare_bind _ _ _ _ (fun _ => lives d)).
  { apply hoare_execute; [done|]. intros d'. case_bool_decide as Hn; [done|]. intros [= <-]. split.
    - by apply ledger_new_run; [|done|states].
    - split; simpl; [apply extends_refl; constructor|]. by apply extends_snoc; [apply run_step_refl|]. }
  intros _ d' Hd'. eapply (hoare_bind _ _ _ _ (fun _ d'' => lives d d'')); [by apply hoare_run_view|].
  intros run d1 Hd1. eapply (hoare_bind _ _ _ _ (fun _ => lives d)).
  { apply hoare_audit; [done|]. by intros; eapply lives_frame. }
  intros _ d2 Hd2. by apply hoare_ret.
Qed.

Lemma get_entries_lives d0 d migration ids :
  lives d0 d -> hoare (lives d0) (tx_map (get_entry c migration) ids) d (fun _ => lives d0).
Proof.
  intros Hd. apply (hoare_map _ _ _ _ (fun _ => lives d0)); [done|]. intros x rest d' Hd'. by apply hoare_get_row.
Qed.

Lemma submit_lives d claims attrs project migration entries now :
  ledger_ok d -> hoare (lives d) (submit_entries c claims attrs project migration entries now) d (fun _ => lives d).
Proof.
  intros Hd. pose proof (lives_refl d Hd) as HI. unfold submit_entries.
  eapply (hoare_bind _ _ _ _ (fun run d' => d' = d /\ ~ complete_run d (mv_migration_id run))).
  { apply hoare_open; [done|]. intros run r Hr Hm (Hv & _ & _) Hs. split; [done|]. rewrite Hv.
    eapply unsettled_not_complete, unsettled_of; eauto using open_unsettled. }
  intros run d' (-> & Hc). destruct (_ >? _); [by apply hoare_ret|].
  eapply (hoare_bind _ _ _ _ (fun _ => lives d)); [|intros ids d' Hd'; by apply get_entries_lives].
  apply hoare_atomically; [done|].
  eapply hoare_mono; [apply (hoare_map _ _ _ _ (fun _ d' => ledger_ok d' /\ evolves proposed d d' /\ md_runs d' = md_runs d))|].
  - split; [done|]. split; [|done]. apply evolves_refl. by left.
  - intros p rest d1 (Hd1 & Hev & Hr). eapply hoare_mono; [apply upsert_settles; [done|]|].
    + unfold complete_run in *. by rewrite Hr.
    + intros id d2 (Hd2 & Hev2 & Hr2). split; [done|]. split; [|congruence].
      destruct Hev as (He1 & Hr1'), Hev2 as (He2 & Hr2'). split; [|by rewrite Hr2].
      eapply extends_trans; [exact proposed_trans| |exact He1|exact He2].
      by intros x y Hx [->|(_&_&?)].
  - intros ids d' (Hd' & Hev & _). split; [done|]. eapply evolves_mono; [|done]. apply proposed_step.
Qed.

Lemma mark_row d secret digest now e :
  ledger_ok d -> e ∈ md_entries d -> me_state e = ENTRY_VALIDATED -> ~ complete_run d (me_migration_id e) ->
  row_ok d e (upd_migrated secret digest now e) /\ keeps_name e (upd_migrated secret digest now e).
Proof.
  intros Hd He Hs Hc. split.
  - constructor; [by destruct e| |done].
    constructor; [destruct e; states|destruct e; simpl; eauto|]. intros Hx. destruct e; simpl in Hx. states.
  - unfold keeps_name. destruct e; simpl in *; subst. repeat split. states.
Qed.

Lemma mark_lives d claims attrs project migration ledger secret digest now :
  ledger_ok d -> hoare (lives d) (mark_migrated c claims attrs project migration ledger secret digest now) d (fun _ => lives d).
Proof.
  intros Hd. pose proof (lives_refl d Hd) as HI. unfold mark_migrated.
  eapply (hoare_bind _ _ _ _ (fun run d' => d' = d /\ unsettled migration d)).
  { apply hoare_open; [done|]. intros run r Hr Hm _ Hs. split; [done|]. eapply unsettled_of; eauto using open_unsettled. }
  intros run d' (-> & Hu).
  eapply (hoare_bind _ _ _ _ (fun v d' => d' = d /\ exists e, v = entry_view_from_row e /\ e ∈ md_entries d /\
    me_migration_id e = migration /\ me_ledger_id e = ledger)).
  { apply hoare_get_row; eauto 10. }
  intros v d' (-> & e & -> & He & Hm & <-). case_bool_decide; [by apply hoare_ret|].
  case_bool_decide as Hs; simpl; [|by apply hoare_ret]. destruct (negb _); [by apply hoare_ret|].
  eapply (hoare_bind _ _ _ _ (fun _ d' => d' = d)); [by apply hoare_mquery|]. intros anchored d' ->.
  destruct anchored; simpl; [|by apply hoare_ret].
  destruct (mark_row d secret digest now e) as (Hrow & Hname); [done|done|done| |].
  { rewrite Hm. by apply unsettled_not_complete. }
  eapply (hoare_bind _ _ _ _ (fun _ d' => moved entry_step d d' /\ unsettled migration d')).
  { apply hoare_update; [done|]. split; [|done].
    apply moved_row; try done; [apply entry_step_key|apply moved_refl; [constructor|done]|by constructor]. }
  intros _ d1 (Hm1 & Hu1). eapply (hoare_bind _ _ _ _ (fun _ => moved entry_step d)).
  { case_bool_decide; [by apply hoare_ret; [apply moved_lives|]|].
    apply hoare_execute; [by apply moved_lives|]. intros d2 [= <-]. apply moved_run_state; [done..|states]. }
  intros _ d2 Hm2. apply moved_lives in Hm2. by apply hoare_get_row.
Qed.

Lemma resolve_lives d claims attrs project migration ledger name env now :
  ledger_ok d -> hoare (lives d) (resolve_entry c claims attrs project migration ledger name env now) d (fun _ => lives d).
Proof.
  intros Hd. pose proof (lives_refl d Hd) as HI. unfold resolve_entry.
  eapply (hoare_bind _ _ _ _ (fun run d' => d' = d /\ unsettled migration d /\ mv_migration_id run = migration)).
  { apply hoare_open; [done|]. intros run r Hr Hm (Hv & _) Hs. split; [done|]. split; [|congruence].
    eapply unsettled_of; eauto using open_unsettled. }
  intros run d' (-> & Hu & Hrun).
  eapply (hoare_bind _ _ _ _ (fun v d' => d' = d /\ exists e, v = entry_view_from_row e /\ e ∈ md_entries d /\
    me_migration_id e = migration /\ me_ledger_id e = ledger)).
  { apply hoare_get_row; eauto 10. }
  intros v d' (-> & e & -> & He & Hm & Hl). case_bool_decide as Hs; simpl; [|by apply hoare_ret].
  eapply (hoare_bind _ _ _ _ (fun _ d' => d' = d)); [by apply hoare_ret|]. intros target d' ->.
  destruct (validate_secret_name _) as [u|err]; [|by apply hoare_ret].
  eapply (hoare_bind _ _ _ _ (fun _ => lives d)); [|intros _ d' Hd'; by apply hoare_get_row].
  apply hoare_atomically; [done|]. set (n := default _ _).
  eapply (hoare_bind _ _ _ _ (fun _ d' => focus d ledger (upd_remapped n target now e) d')).
  { apply hoare_update; [done|].
    assert (set_entries (fmap (on_entry ledger (upd_remapped n target now))) d =
            set_entries (fmap (on_entry ledger (fun _ => upd_remapped n target now e))) d) as ->.
    { unfold set_entries. f_equal. apply list_fmap_ext. intros i x Hx%list_elem_of_lookup_2. unfold on_entry.
      case_bool_decide as E; [|done]. by rewrite (key_unique _ _ x e (lk_ids _ Hd)) by congruence. }
    apply (focus_old _ _ _ e); [done|done|by destruct e|]. simpl in Hs. rewrite Hs. states. }
  intros _ d1 Hf. eapply hoare_mono.
  { eapply (validate_settles _ _ _ _ d d1 _ (me_key e)); [done|by destruct e|..|by destruct e|by destruct e].
    rewrite Hrun, <- Hm. by destruct e. }
  intros u' d2 Hst. apply settled_ok with (run := migration) in Hst as (Hok & Hev);
    [|done..|by apply unsettled_not_complete].
  split; [done|]. eapply evolves_mono; [|done]. apply proposed_step.
Qed.

(** A loop over rows of the table, each of which it changes once. *)
Section Untouched.
Context (R : MigrationEntry -> MigrationEntry -> Prop) (R_refl : forall e, R e e).
Context (R_key : forall a b, R a b -> me_key b = me_key a).

Definition untouched (d0 : MDb) (rest : list MigrationEntry) (d : MDb) : Prop :=
  moved R d0 d /\ md_runs d = md_runs d0 /\ NoDup (me_ledger_id <$> rest) /\
  forall x, x ∈ rest -> x ∈ md_entries d0 /\ x ∈ md_entries d.

Lemma untouched_filter d (P : MigrationEntry -> Prop) `{!forall x, Decision (P x)} :
  ledger_ok d -> untouched d (filter P (md_entries d)) d.
Proof.
  intros Hd. split; [by apply moved_refl|]. split; [done|]. split.
  - eapply sublist_NoDup; [apply Hd|]. apply fmap_sublist, sublist_filter.
  - intros x (_ & Hx)%list_elem_of_filter. done.
Qed.

Lemma untouched_step d0 x rest d f :
  ledger_ok d0 -> untouched d0 (x :: rest) d -> R x (f x) -> row_ok d x (f x) -> keeps_name x (f x) ->
  untouched d0 rest (set_entries (fmap (on_entry (me_ledger_id x) f)) d).
Proof.
  intros H0 (Hd & Hr & (Hnx & Hnd)%NoDup_cons & Hin) Hs Hrow Hk. destruct (Hin x) as (Hx0 & Hx); [apply list_elem_of_here|].
  split; [|split; [done|split; [done|]]].
  - by apply moved_row.
  - intros y Hy. destruct (Hin y) as (Hy0 & Hyd); [by right|]. split; [done|]. apply row_kept; [done|].
    intros E. apply Hnx. rewrite <- E. by apply list_elem_of_fmap_2.
Qed.

Lemma untouched_frame d0 rest d d' : untouched d0 rest d -> frame d d' -> untouched d0 rest d'.
Proof.
  intros (Hm & Hr & Hn & Hin) Hf. split; [by eapply moved_frame|]. destruct Hf as (He & Hr').
  split; [congruence|]. split; [done|]. by rewrite He.
Qed.
End Untouched.
#[local] Hint Resolve step_same entry_step_key : core.

Lemma verify_row d now e :
  ledger_ok d -> e ∈ md_entries d -> me_state e = ENTRY_MIGRATED -> ~ complete_run d (me_migration_id e) ->
  let e' := if digests_agree e then upd_verified now e else upd_quarantine mismatch_reason now e in
  entry_step e e' /\ row_ok d e e' /\ keeps_name e e'.
Proof.
  intros Hd He Hs Hc. pose proof (ok_secret _ (lk_entries _ Hd e He)) as Hsec. unfold digests_agree.
  case_bool_decide as Hdig; simpl; (split; [by constructor|]); destruct e; simpl in *; subst; split.
  - constructor; [done| |done]. constructor; simpl; [states|intros _; apply Hsec; states|done].
  - unfold keeps_name. repeat split. states.
  - constructor; [done|by apply pending_entry_ok; states|done].
  - unfold keeps_name. repeat split. states.
Qed.

Lemma verify_entry_step d0 now e rest d :
  ledger_ok d0 -> untouched entry_step d0 (e :: rest) d -> me_state e = ENTRY_MIGRATED -> ~ complete_run d0 (me_migration_id e) ->
  hoare (fun _ => True) (verify_entry c now e) d (fun _ => untouched entry_step d0 rest).
Proof.
  intros H0 Hu Hs Hc. pose proof Hu as (Hm & Hr & _ & Hin). destruct (Hin e) as (He0 & He); [apply list_elem_of_here|].
  assert (~ complete_run d (me_migration_id e)) as Hcd by (unfold complete_run in *; by rewrite Hr).
  destruct (verify_row d now e) as (Hst & Hrow & Hn); [apply Hm|done..|]. unfold verify_entry.
  destruct (digests_agree e); (eapply (hoare_bind _ _ _ _ (fun _ => untouched entry_step d0 rest));
    [apply hoare_update; [done|]; by apply (untouched_step _ entry_step_key)|intros _ d' Hd'; by apply hoare_ret]).
Qed.

Lemma verify_lives d claims attrs project migration now :
  ledger_ok d -> hoare (lives d) (verify_run c claims attrs project migration now) d (fun o d' =>
    lives d d' /\ (all_closed migration d' -> vo_run_state o = RUN_COMPLETE) /\
    exists r, r ∈ md_runs d' /\ mr_migration_id r = migration /\ vo_run_state o = mr_state r).
Proof.
  intros Hd. pose proof (lives_refl d Hd) as HI. unfold verify_run.
  eapply (hoare_bind _ _ _ _ (fun _ d' => d' = d /\ unsettled migration d)).
  { apply hoare_open; [done|]. intros run r Hr Hm _ Hs. split; [done|]. eapply unsettled_of; eauto.
    apply (bool_decide_unpack _). by vm_compute. }
  intros run0 d' (-> & Hu). eapply (hoare_bind _ _ _ _ (fun _ d' => moved entry_step d d' /\ unsettled migration d')).
  { apply hoare_atomically; [done|].
    eapply (hoare_bind _ _ _ _ (fun rows d' => d' = d /\ rows = _)); [by apply hoare_mquery|].
    intros rows d' (-> & ->). set (rows := filter _ _).
    eapply (hoare_bind _ _ _ _ (fun _ d' => untouched entry_step d [] d')).
    - eapply hoare_mono; [apply (hoare_map _ _ _ _ (fun rest d' => untouched entry_step d rest d' /\
        forall x, x ∈ rest -> me_state x = ENTRY_MIGRATED /\ me_migration_id x = migration))|by intros ?? (? & _)].
      + split; [by apply untouched_filter|]. intros x ((? & ?) & _)%list_elem_of_filter. done.
      + intros x rest d1 (Hun & Hall). destruct (Hall x) as (Hs & Hm); [apply list_elem_of_here|].
        eapply hoare_mono; [apply verify_entry_step; try done|].
        * rewrite Hm. by apply unsettled_not_complete.
        * intros b d2 Hun2. split; [done|]. intros y Hy. apply Hall. by right.
    - intros bs d1 (Hmv & Hr1 & _). eapply (hoare_bind _ _ _ _ (fun _ d' => moved entry_step d d' /\ unsettled migration d')).
      + apply hoare_execute; [done|]. intros d2 [= <-]. split.
        * apply moved_run_state; [done| |states]. unfold unsettled in *. by rewrite Hr1.
        * intros r (r0 & -> & Hr)%list_elem_of_fmap. unfold on_run. case_bool_decide; [|done]. intros _. simpl. states.
      + intros _ d2 Hd2. by apply hoare_ret. }
  intros bs d1 (Hd1 & Hu1). eapply (hoare_bind _ _ _ _ (fun _ d' => lives d d' /\ completes migration d1 d')).
  { eapply hoare_maybe_complete; [by apply moved_lives|done|]. intros d2 Hd2. split; [by apply moved_lives|done]. }
  intros _ d2 (Hd2 & Hcomp).
  set (post := fun state d' => lives d d' /\ (all_closed migration d' -> state = RUN_COMPLETE) /\
    exists r, r ∈ md_runs d' /\ mr_migration_id r = migration /\ state = mr_state r).
  eapply (hoare_bind _ _ _ _ (fun run => post (mv_state run))).
  { apply hoare_run_view; [done|]. intros run r Hr Hm (_ & Hvs & _). split; [done|]. rewrite Hvs.
    split; [intros Hall; by apply (Hcomp Hall)|eauto]. }
  intros run d3 Hd3.
  assert (forall d' t, post (mv_state run) d' -> post (mv_state run) (set_mevents t d')) as Hset.
  { intros d' t (Hl & Hp). split; [by eapply lives_frame|exact Hp]. }
  eapply (hoare_bind _ _ _ _ (fun _ => post (mv_state run))).
  { apply hoare_audit; [apply Hd3|]. auto. }
  intros _ d4 Hd4. eapply (hoare_bind _ _ _ _ (fun _ => post (mv_state run))).
  { case_bool_decide; [|by apply hoare_ret; [apply Hd4|]]. apply hoare_audit; [apply Hd4|]. auto. }
  intros _ d5 Hd5. apply hoare_ret; [apply Hd5|]. by intros o [= <-].
Qed.

(** ** Cutover *)

Definition disabled (e e' : MigrationEntry) : Prop :=
  e' = e \/ (me_state e = ENTRY_VERIFIED /\ exists now, e' = upd_state ENTRY_LEGACY_DISABLED now e).
Lemma disabled_step x y : disabled x y -> entry_step x y.
Proof. intros [->|(? & now & ->)]; by constructor. Qed.

Lemma disable_row d now e :
  ledger_ok d -> e ∈ md_entries d -> me_state e = ENTRY_VERIFIED ->
  row_ok d e (upd_state ENTRY_LEGACY_DISABLED now e) /\ keeps_name e (upd_state ENTRY_LEGACY_DISABLED now e).
Proof.
  intros Hd He Hs. pose proof (lk_entries _ Hd e He) as [_ Hsec Hdig]. rewrite Hs in Hsec, Hdig.
  destruct e; simpl in *; subst. split.
  - constructor; [done| |intros _; states]. constructor; simpl; [states|intros _; apply Hsec; states|].
    intros _. apply Hdig. states.
  - unfold keeps_name. repeat split. states.
Qed.

Lemma disable_one_moves d0 d migration now ledger :
  moved disabled d0 d -> hoare (moved disabled d0) (disable_one c migration now ledger) d (fun _ => moved disabled d0).
Proof.
  intros Hd. eapply (hoare_bind _ _ _ _ (fun _ d' => d' = d)); [by apply hoare_query|]. intros changed d' ->.
  eapply (hoare_bind _ _ _ _ (fun _ => moved disabled d0)).
  - apply hoare_execute; [done|]. intros d' [= <-]. destruct Hd as [Hd He Hr]. constructor; simpl; [|apply Forall2_again; [done|]|done].
    + apply ledger_update; [done|]. intros e Hin. unfold is_verified. case_bool_decide as E; [|by left].
      right. destruct E as (_ & _ & Hs). by apply disable_row.
    + intros x y Hx Hy Hxy. unfold is_verified. case_bool_decide as E; [|done]. destruct E as (_ & _ & Hs).
      destruct Hxy as [->|(Hv & n & ->)]; [by right; eauto|]. destruct x; simpl in Hs. by vm_compute in Hs.
  - intros _ d' Hd'. destruct changed; [by apply hoare_ret|].
    eapply (hoare_bind _ _ _ _ (fun _ => moved disabled d0)); [by apply hoare_mquery|].
    intros ex d1 Hd1. destruct (negb ex); by apply hoare_ret.
Qed.

Lemma disable_lives d claims attrs project migration ledgers now :
  ledger_ok d -> hoare (lives d) (disable_legacy c claims attrs project migration ledgers now) d (fun _ => lives d).
Proof.
  intros Hd. pose proof (lives_refl d Hd) as HI. unfold disable_legacy.
  assert (forall d', moved disabled d d' -> lives d d') as Hl by (intros; by eapply moved_evolves; [apply disabled_step|]).
  eapply (hoare_bind _ _ _ _ (fun _ d' => d' = d)); [by apply hoare_open|]. intros run d' ->.
  eapply (hoare_bind _ _ _ _ (fun _ d' => d' = d)).
  { destruct ledgers; [by apply hoare_ret|by apply hoare_mquery]. }
  intros targets d' ->. eapply (hoare_bind _ _ _ _ (fun _ => moved disabled d)).
  { apply (hoare_for_each _ _ _ _ (fun _ => moved disabled d)); [by apply moved_refl; [left|]|].
    intros x rest d' Hd'. pose proof (disable_one_moves d d' migration now x Hd') as Hone. unfold hoare in *.
    destruct (disable_one _ _ _ _ _) as [[u|e] d1]; auto. }
  intros _ d1 Hd1. eapply (hoare_bind _ _ _ _ (fun _ => lives d)).
  { eapply hoare_maybe_complete; [by apply Hl|done|auto]. }
  intros _ d2 Hd2. eapply (hoare_bind _ _ _ _ (fun _ => lives d)); [by apply hoare_run_view|].
  intros run' d3 Hd3. eapply (hoare_bind _ _ _ _ (fun _ => lives d)).
  { apply hoare_audit; [done|]. by intros; eapply lives_frame. }
  intros _ d4 Hd4. eapply (hoare_bind _ _ _ _ (fun _ => lives d)).
  { destruct (_ && _); [|by apply hoare_ret]. apply hoare_audit; [done|]. by intros; eapply lives_frame. }
  intros _ d5 Hd5. by apply hoare_ret.
Qed.

(** ** Rollback *)

(** No live secret has the identifier. *)
Definition dead (secret : str) (d : MDb) : Prop :=
  forall s, s ∈ md_secrets d -> s_secret_id s = secret -> s_deleted_at s <> None.
(** The ledger is as it was, and no secret has come back to life. *)
Definition cleanup (d d' : MDb) : Prop := frame d d' /\ forall secret, dead secret d -> dead secret d'.
Lemma cleanup_refl d : cleanup d d.
Proof. done. Qed.

Lemma hoare_resolve I secret d (Q : SecretRow -> MDb -> Prop) :
  I d -> (forall row, Q row d) -> hoare I (resolve_secret c secret) d Q.
Proof.
  intros HI HQ. eapply (hoare_bind _ _ _ _ (fun _ d' => d' = d)); [by apply hoare_query|]. intros row d' ->.
  by apply hoare_ret.
Qed.

Lemma hoare_delete claims attrs secret reason request d :
  hoare (cleanup d) (delete_secret c claims attrs secret reason request) d (fun _ d' => cleanup d d' /\ dead secret d').
Proof.
  eapply (hoare_bind _ _ _ _ (fun _ d' => d' = d)); [by apply hoare_resolve|]. intros view d' ->.
  eapply (hoare_bind _ _ _ _ (fun _ d' => d' = d)); [unfold hoare; by destruct (authorize _ _ _ _ _ _ _)|]. intros _ d' ->.
  case_bool_decide; [by apply hoare_ret|]. apply hoare_atomically; [done|].
  eapply (hoare_bind _ _ _ _ (fun _ d' => cleanup d d' /\ dead secret d')).
  - apply hoare_execute; [done|]. intros d' [= <-]. split; [split; [done|]|].
    + intros id Hid s (s0 & -> & Hs)%list_elem_of_fmap. unfold on_secret. case_bool_decide; [done|]. by apply Hid.
    + intros s (s0 & -> & Hs)%list_elem_of_fmap. unfold on_secret. by case_bool_decide.
  - intros _ d1 Hd1. apply hoare_execute; [done|]. intros d2. destruct (audit_secret_event _ _ _ _); [|done].
    by intros [= <-].
Qed.

Lemma not_found_dead secret d d' : resolve_secret c secret d = (Err SecretNotFound, d') -> dead secret d.
Proof.
  unfold resolve_secret, tbind, query_if. destruct (mc_fails _ _ _); [done|]. unfold tret.
  destruct (find _ _) as [s|] eqn:Hf; [done|]. intros _ s Hs Hid Hdel.
  eapply find_none in Hf; [|by apply list_elem_of_In]. by rewrite bool_decide_true in Hf.
Qed.

(** The secret of a rolled-back entry is dead, whether the call deletes it or finds it gone. *)
Lemma hoare_delete_found claims attrs secret reason request d :
  hoare (cleanup d) (found_or tt (delete_secret c claims attrs secret reason request)) d
    (fun _ d' => cleanup d d' /\ dead secret d').
Proof.
  pose proof (hoare_delete claims attrs secret reason request d) as Hdel. unfold hoare, found_or in *.
  destruct (delete_secret _ _ _ _ _ _ d) as [[u|e] d'] eqn:E; [done|].
  assert (e = SecretNotFound -> dead secret d) as Hdead.
  { intros ->. unfold delete_secret in E. unfold tbind in E at 1.
    destruct (resolve_secret c secret d) as [[view|e] d1] eqn:Er.
    - exfalso. unfold tbind in E. destruct (authorize _ _ _ _ _ _ _); [|done]. case_bool_decide; [done|].
      revert E. unfold atomically, execute_if. destruct (_ || _); [done|].
      destruct (mc_fails _ _ _); [done|]. destruct (audit_secret_event _ _ _ _); [|done].
      by destruct (mc_fails _ _ _).
    - injection E as -> ->. by eapply not_found_dead. }
  destruct e; try done. split; [done|]. apply Hdel. by apply Hdead.
Qed.

Definition doomed (migration : str) (e : MigrationEntry) : Prop :=
  me_migration_id e = migration /\ me_state e ∈ [ENTRY_MIGRATED; ENTRY_VERIFIED].
Definition rolled (migration : str) (e e' : MigrationEntry) : Prop :=
  e' = e \/ (doomed migration e /\ exists now, e' = upd_rolled_back now e).
Lemma rolled_step migration x y : rolled migration x y -> entry_step x y.
Proof. intros [->|((_ & ?) & now & ->)]; by constructor. Qed.
Lemma rolled_key migration x y : rolled migration x y -> me_key y = me_key x.
Proof. intros Hr. by apply entry_step_key, (rolled_step migration). Qed.
Lemma rolled_refl migration x : rolled migration x x.
Proof. by left. Qed.
#[local] Hint Resolve rolled_key rolled_refl : core.

Lemma roll_back_row d now e :
  ~ complete_run d (me_migration_id e) -> me_state e ∈ [ENTRY_MIGRATED; ENTRY_VERIFIED] ->
  row_ok d e (upd_rolled_back now e) /\ keeps_name e (upd_rolled_back now e).
Proof.
  intros Hc Hs. split.
  - constructor; [by destruct e| |done]. apply pending_entry_ok. destruct e. states.
  - unfold keeps_name. destruct e; simpl in *. repeat split. intros _. unfold claiming_states. set_solver.
Qed.

(** The doomed rows that the rollback has not reached are as they were; the others
    are back at VALIDATED and their secrets are dead. *)
Definition rolling (migration : str) (now : Z) (d0 : MDb) (rest : list MigrationEntry) (d : MDb) : Prop :=
  untouched (rolled migration) d0 rest d /\ Forall (doomed migration) rest /\
  forall x, x ∈ md_entries d0 -> doomed migration x ->
    x ∈ rest \/ (upd_rolled_back now x ∈ md_entries d /\ forall s, me_secret_id x = Some s -> dead s d).

Lemma rolling_cleanup migration now d0 rest d d' :
  rolling migration now d0 rest d -> cleanup d d' -> rolling migration now d0 rest d'.
Proof.
  intros (Hu & Hd & Hx) (Hf & Hdead). split; [by eapply untouched_frame|]. split; [done|].
  intros x Hx0 Hdoom. destruct (Hx x Hx0 Hdoom) as [?|(? & ?)]; [by left|right].
  destruct Hf as (-> & _). auto.
Qed.

Lemma rolling_step migration now d0 e rest d :
  ledger_ok d0 -> ~ complete_run d0 migration -> rolling migration now d0 (e :: rest) d ->
  (forall s, me_secret_id e = Some s -> dead s d) ->
  rolling migration now d0 rest (set_entries (fmap (on_entry (me_ledger_id e) (upd_rolled_back now))) d).
Proof.
  intros H0 Hc (Hu & (Hde & Hdr)%Forall_cons & Hx) Hs. pose proof Hu as (Hm & Hr & (Hne & _)%NoDup_cons & Hin).
  destruct (Hin e) as (He0 & He); [apply list_elem_of_here|].
  destruct (roll_back_row d now e) as (Hrow & Hk); [|apply Hde|].
  { rewrite (proj1 Hde). unfold complete_run in *. by rewrite Hr. }
  split; [apply untouched_step; eauto|].
  { right. eauto. }
  split; [done|]. intros x Hx0 Hdoom.
  assert (forall y, y ∈ md_entries d -> me_ledger_id y = me_ledger_id e ->
    upd_rolled_back now e ∈ md_entries (set_entries (fmap (on_entry (me_ledger_id e) (upd_rolled_back now))) d)) as Hnew.
  { intros y _ _. apply list_elem_of_fmap. exists e. split; [|done]. unfold on_entry. by rewrite bool_decide_true. }
  destruct (Hx x Hx0 Hdoom) as [[->|Hrest]%elem_of_cons|(Hback & Hdead)]; [right; split; eauto|by left|right].
  split; [|done]. destruct (decide (me_ledger_id x = me_ledger_id e)) as [E|E].
  - assert (x = e) as -> by (by eapply key_unique; [apply (lk_ids _ H0)|..]). eauto.
  - apply row_kept; [done|]. rewrite (same_key_id x); [done|by destruct x].
Qed.

Lemma hoare_scope claims secret d :
  hoare (cleanup d) (found_or claims (do view <- resolve_secret c secret ;; tret (Ok (scoped_to claims view)))) d
    (fun _ d' => d' = d).
Proof.
  unfold hoare, found_or, resolve_secret, tbind, query_if, tret. destruct (mc_fails _ _ _); [done|].
  by destruct (find _ _).
Qed.

Lemma roll_back_rolls claims attrs migration request now d0 e rest d :
  ledger_ok d0 -> ~ complete_run d0 migration -> rolling migration now d0 (e :: rest) d ->
  hoare (lives d0) (roll_back c claims attrs migration request now e) d (fun _ => rolling migration now d0 rest).
Proof.
  intros H0 Hc Hr.
  assert (forall r d', rolling migration now d0 r d' -> lives d0 d') as Hl.
  { intros r d' ((Hm & _) & _). eapply moved_evolves; [|done]. apply rolled_step. }
  eapply (hoare_bind _ _ _ _ (fun _ d' => rolling migration now d0 (e :: rest) d' /\
    forall s, me_secret_id e = Some s -> dead s d')).
  - destruct (me_secret_id e) as [secret|]; [|by apply hoare_ret; [by eapply Hl|]].
    eapply (hoare_bind _ _ _ _ (fun _ d' => d' = d)).
    { pose proof (hoare_scope claims secret d) as Hsc. unfold hoare in *.
      destruct (found_or _ _ d) as [[a|er] d1]; [done|]. eapply Hl, rolling_cleanup; done. }
    intros claims' d' ->. pose proof (hoare_delete_found claims' attrs secret
      (lit "migration " ++ migration ++ lit " aborted") request d) as Hdel. unfold hoare in *.
    destruct (found_or _ _ d) as [[a|er] d1].
    + destruct Hdel as (Hcl & Hdead). split; [by eapply rolling_cleanup|]. by intros s [= <-].
    + eapply Hl, rolling_cleanup; done.
  - intros _ d1 (Hr1 & Hdead). apply hoare_update; [by eapply Hl|]. by apply rolling_step.
Qed.

(** What a successful abort leaves: the run is aborted, none of its entries points
    at an applied secret, and the secrets they pointed at are dead. *)
Definition rolled_back (migration : str) (d d' : MDb) : Prop :=
  (exists r, r ∈ md_runs d' /\ mr_migration_id r = migration /\ mr_state r = RUN_ABORTED) /\
  (forall e, e ∈ md_entries d' -> ~ doomed migration e) /\
  forall e s, e ∈ md_entries d -> doomed migration e -> me_secret_id e = Some s -> dead s d'.

Lemma rolling_done migration now d0 d :
  ledger_ok d0 -> rolling migration now d0 [] d ->
  (forall e, e ∈ md_entries d -> ~ doomed migration e) /\
  forall e s, e ∈ md_entries d0 -> doomed migration e -> me_secret_id e = Some s -> dead s d.
Proof.
  intros H0 ((Hm & _) & _ & Hx). split.
  - intros e He Hdoom. apply list_elem_of_lookup in He as (i & Hi).
    eapply Forall2_lookup_r in Hi as Hl; [|apply (mv_entries _ _ _ Hm)]. destruct Hl as (e0 & Hi0 & Hroll).
    apply list_elem_of_lookup_2 in Hi, Hi0.
    assert (doomed migration e0) as Hd0 by (by destruct Hroll as [<-|(? & _)]).
    destruct (Hx e0 Hi0 Hd0) as [[]%not_elem_of_nil|(Hb & _)].
    assert (e = upd_rolled_back now e0) as ->.
    { eapply key_unique; [apply (lk_ids _ (mv_ok _ _ _ Hm))|done..|]. apply same_key_id.
      rewrite (rolled_key _ _ _ Hroll). by destruct e0. }
    destruct Hdoom as (_ & Hs). destruct e0. simpl in Hs. clear -Hs. states.
  - intros e s He Hdoom Hs. destruct (Hx e He Hdoom) as [[]%not_elem_of_nil|(_ & Hb)]. auto.
Qed.

Lemma abort_rolls_back d claims attrs project migration request now :
  ledger_ok d ->
  hoare (lives d) (abort_run c claims attrs project migration request now) d
    (fun _ d' => lives d d' /\ rolled_back migration d d').
Proof.
  intros Hd. pose proof (lives_refl d Hd) as HI. unfold abort_run.
  eapply (hoare_bind _ _ _ _ (fun _ d' => d' = d)); [by apply hoare_authorize|]. intros _ d' ->.
  eapply (hoare_bind _ _ _ _ (fun run d' => d' = d /\ exists r, r ∈ md_runs d /\ mr_migration_id r = migration /\ views run r)).
  { apply hoare_run_view; eauto 10. }
  intros run d' (-> & r & Hr & Hid & (Hvi & Hvs & _)).
  eapply (hoare_bind _ _ _ _ (fun _ d' => d' = d)).
  { unfold require_project. case_bool_decide; by apply hoare_ret. }
  intros _ d' ->. case_bool_decide as Hst; [by apply hoare_ret|].
  assert (unsettled migration d) as Hu.
  { intros r' Hr' Hm. rewrite (key_unique _ _ r' r (lk_runs _ Hd)) by congruence. by rewrite <- Hvs. }
  eapply (hoare_bind _ _ _ _ (fun rows d' => d' = d /\ rows = _)); [by apply hoare_mquery|].
  intros rows d' (-> & ->). set (rows := filter _ _).
  eapply (hoare_bind _ _ _ _ (fun _ => rolling migration now d [])).
  { apply (hoare_for_each _ _ _ _ (rolling migration now d)).
    - split; [by apply untouched_filter|]. split.
      + apply Forall_forall. by intros x (? & _)%list_elem_of_filter.
      + intros x Hx Hdoom. left. by apply list_elem_of_filter.
    - intros x rest d' Hroll. apply roll_back_rolls; [done| |done]. by apply unsettled_not_complete. }
  intros _ d1 Hroll. pose proof Hroll as ((Hm1 & Hr1 & _) & _). pose proof (rolling_done _ _ _ _ Hd Hroll) as (Hnd & Hdead).
  eapply (hoare_bind _ _ _ _ (fun _ d' => lives d d' /\ rolled_back migration d d')).
  { apply hoare_execute; [by eapply moved_evolves; [apply rolled_step|]|]. intros d2 [= <-]. split.
    - eapply moved_evolves; [apply rolled_step|]. apply moved_run_state; [done| |states].
      unfold unsettled. by rewrite Hr1.
    - split; [|by split]. exists (upd_run_state RUN_ABORTED now r). split; [|done]. simpl. rewrite Hr1.
      apply list_elem_of_fmap. exists r. split; [|done]. unfold on_run. by rewrite bool_decide_true. }
  intros _ d2 (Hl2 & Hrb). eapply (hoare_bind _ _ _ _ (fun _ d' => lives d d' /\ rolled_back migration d d')).
  { by apply hoare_run_view. }
  intros run' d3 (Hl3 & Hrb3). eapply (hoare_bind _ _ _ _ (fun _ d' => lives d d' /\ rolled_back migration d d')).
  { apply hoare_audit; [done|]. intros t. split; [by eapply lives_frame|done]. }
  intros _ d4 Hd4. apply hoare_ret; [apply Hd4|]. by intros n [= <-].
Qed.
End Programs.
