(* ===== verification/MigrationHistory.v ===== *)
(** * Histories of the migration ledger

    Sequences of calls of [Migration], each with its own failing statements, and of
    changes that other components make to their own tables between them. *)

From S2P Require Import Prelude Errors Sorting Tables Primitives SamplePrimitives Names Redact Policy PolicyTheory AuditChain Grants GrantsTheory Migration MigrationTheory.

#[local] Open Scope tx_scope.

Inductive LedgerCall : Type :=
| LStart (claims : ScopeClaims) (attrs : RequestAttributes) (project vault snapshot : str) (now : Z)
| LSubmit (claims : ScopeClaims) (attrs : RequestAttributes) (project migration : str) (entries : list SubmitEntry) (now : Z)
| LMark (claims : ScopeClaims) (attrs : RequestAttributes) (project migration ledger secret : str) (digest : bytes) (now : Z)
| LResolve (claims : ScopeClaims) (attrs : RequestAttributes) (project migration ledger : str)
           (name env : option str) (now : Z)
| LVerify (claims : ScopeClaims) (attrs : RequestAttributes) (project migration : str) (now : Z)
| LDisable (claims : ScopeClaims) (attrs : RequestAttributes) (project migration : str)
           (ledgers : option (list str)) (now : Z)
| LAbort (claims : ScopeClaims) (attrs : RequestAttributes) (project migration request : str) (now : Z)
| LElsewhere (tables : MDb).

(** Everything but the two tables of the ledger is replaced. *)
Definition elsewhere (t d : MDb) : MDb :=
  {| md_auth := md_auth t; md_projects := md_projects t; md_environments := md_environments t;
     md_bindings := md_bindings t; md_services := md_services t; md_runs := md_runs d;
     md_entries := md_entries d; md_secrets := md_secrets t; md_events := md_events t |}.

Section History.
Context {HX : Hex} {SH : Sha256} {JS : Json}.

Definition ledger_call (c : MCall) (a : LedgerCall) (d : MDb) : MDb :=
  match a with
  | LStart claims attrs project vault snapshot now => (start_run c claims attrs project vault snapshot now d).2
  | LSubmit claims attrs project migration entries now => (submit_entries c claims attrs project migration entries now d).2
  | LMark claims attrs project migration ledger secret digest now =>
      (mark_migrated c claims attrs project migration ledger secret digest now d).2
  | LResolve claims attrs project migration ledger name env now =>
      (resolve_entry c claims attrs project migration ledger name env now d).2
  | LVerify claims attrs project migration now => (verify_run c claims attrs project migration now d).2
  | LDisable claims attrs project migration ledgers now => (disable_legacy c claims attrs project migration ledgers now d).2
  | LAbort claims attrs project migration request now => (abort_run c claims attrs project migration request now d).2
  | LElsewhere t => elsewhere t d
  end.

Definition ledger_history (h : list (MCall * LedgerCall)) (d : MDb) : MDb :=
  foldl (fun d ca => ledger_call ca.1 ca.2 d) d h.

Lemma state_of {A} (d : MDb) (m : MTx A) Q :
  hoare (lives d) m d Q -> (forall a d', Q a d' -> lives d d') -> lives d (m d).2.
Proof. intros Hm HQ. apply hoare_state. by eapply hoare_mono. Qed.

Lemma call_lives c a d : ledger_ok d -> lives d (ledger_call c a d).
Proof.
  intros Hd. destruct a; simpl.
  1: by eapply state_of; [by apply start_lives|].
  1: by eapply state_of; [by apply submit_lives|].
  1: by eapply state_of; [by apply mark_lives|].
  1: by eapply state_of; [by apply resolve_lives|].
  1: by eapply state_of; [by apply verify_lives|]; intros ?? (? & _).
  1: by eapply state_of; [by apply disable_lives|].
  1: by eapply state_of; [by apply abort_rolls_back|]; intros ?? (? & _).
  by eapply lives_frame; [apply lives_refl|].
Qed.

Lemma history_ok h d : ledger_ok d -> ledger_ok (ledger_history h d).
Proof.
  revert d; induction h as [|[c a] h IH]; intros d Hd; [done|]. apply IH. by apply call_lives.
Qed.

(** C29: whatever calls are made and whatever fails, the ledger's rows stay consistent: entries rest only in VALIDATED, QUARANTINED, MIGRATED, VERIFIED or LEGACY_PATH_DISABLED (the intermediate states of the submission pipeline are never visible), applied entries name a secret, verified ones have a target digest equal to the source digest, a run claims a name of an environment at most once, and every entry of a complete run is verified or disabled. *)
Theorem migration_ledger_invariant h d : ledger_ok d -> ledger_ok (ledger_history h d).
Proof. apply history_ok. Qed.

(** A call, however it ends, moves each entry along at most one edge of the state machine ([entry_step]): proposals move between VALIDATED and QUARANTINED, VALIDATED entries are marked MIGRATED, MIGRATED entries are VERIFIED exactly when their digests agree and are quarantined otherwise, only VERIFIED entries are disabled, and only MIGRATED or VERIFIED ones are rolled back; no entry is removed, new ones are pending, and a complete or aborted run keeps its state. *)
Theorem migration_call_steps c a d : ledger_ok d -> evolves entry_step d (ledger_call c a d).
Proof. intros Hd. by apply call_lives. Qed.

Lemma entry_step_legacy e e' : entry_step e e' -> me_state e = ENTRY_LEGACY_DISABLED -> e' = e.
Proof.
  intros Hst Hs. destruct Hst as [|? ? ? Hp| ? ? ? ? Hp|? ? Hp|? ? Hp|? ? Hp|? ? Hp]; [done|..];
    rewrite Hs in Hp; exfalso; clear -Hp; first [by vm_compute in Hp|states].
Qed.

Lemma lives_final d d' :
  lives d d' ->
  (forall e, e ∈ md_entries d -> me_state e = ENTRY_LEGACY_DISABLED -> e ∈ md_entries d') /\
  (forall r, r ∈ md_runs d -> mr_state r ∈ settled_states ->
     exists r', r' ∈ md_runs d' /\ mr_migration_id r' = mr_migration_id r /\ mr_state r' = mr_state r).
Proof.
  intros (_ & He & Hr). split.
  - intros e Hin Hs. destruct (extends_in _ _ _ _ _ He Hin) as (e' & Hin' & Hst).
    by rewrite <- (entry_step_legacy e e').
  - intros r Hin Hs. destruct (extends_in _ _ _ _ _ Hr Hin) as (r' & Hin' & Hid & _ & Hst).
    exists r'. auto.
Qed.

(** Cutover and the end of a run are final: whatever calls follow, a row of an entry whose legacy path is disabled never changes again, and a run that is complete or aborted keeps that state. *)
Theorem migration_final h d :
  ledger_ok d ->
  (forall e, e ∈ md_entries d -> me_state e = ENTRY_LEGACY_DISABLED -> e ∈ md_entries (ledger_history h d)) /\
  (forall r, r ∈ md_runs d -> mr_state r ∈ settled_states ->
     exists r', r' ∈ md_runs (ledger_history h d) /\ mr_migration_id r' = mr_migration_id r /\ mr_state r' = mr_state r).
Proof.
  revert d; induction h as [|[c a] h IH]; intros d Hd; [simpl; eauto|].
  pose proof (call_lives c a d Hd) as Hl. destruct (lives_final _ _ Hl) as (He & Hr).
  destruct (IH _ (proj1 Hl)) as (IHe & IHr). split.
  - intros e Hin Hs. apply IHe; auto.
  - intros r Hin Hs. destruct (Hr r Hin Hs) as (r1 & H1 & I1 & S1).
    destruct (IHr r1 H1) as (r2 & H2 & I2 & S2); [by rewrite S1|]. exists r2. split; [done|]. split; congruence.
Qed.

(** When [abort_run] returns, the run is aborted, no entry of it is left MIGRATED or VERIFIED, and every secret such an entry pointed at is soft-deleted, whether the call deleted it or found it gone. *)
Theorem abort_undoes_cutover c claims attrs project migration request now d n d' :
  ledger_ok d -> abort_run c claims attrs project migration request now d = (Ok n, d') ->
  rolled_back migration d d'.
Proof.
  intros Hd E. eapply (hoare_ok _ _ _ (fun _ d' => lives d d' /\ rolled_back migration d d')); [|exact E].
  by apply abort_rolls_back.
Qed.

(** When [verify_run] returns, the run it reports is complete exactly when every entry of the run is verified or disabled. *)
Theorem verify_completes_iff c claims attrs project migration now d o d' :
  ledger_ok d -> verify_run c claims attrs project migration now d = (Ok o, d') ->
  (vo_run_state o = RUN_COMPLETE <->
   forall e, e ∈ md_entries d' -> me_migration_id e = migration -> me_state e ∈ closed_states).
Proof.
  intros Hd E. pose proof (hoare_ok _ _ _ _ _ _ (verify_lives c d claims attrs project migration now Hd) E)
    as ((Hok & _) & Hall & r & Hr & Hm & Hs). split; [|exact Hall].
  intros Hc e He Hme. apply (lk_complete _ Hok); [done|]. exists r. split; [done|]. split; congruence.
Qed.
(** ** What a rollback leaves alone *)

Section Spared.
Variables (c : MCall) (s : SecretRow).
#[local] Abbreviation spared := (fun d => s ∈ md_secrets d).

Lemma delete_spares claims attrs secret reason request d :
  spared d -> s_secret_id s <> secret ->
  hoare spared (delete_secret c claims attrs secret reason request) d (fun _ => spared).
Proof.
  intros Hs Hne. eapply (hoare_bind _ _ _ _ (fun _ d' => d' = d)); [by apply hoare_resolve|]. intros view d' ->.
  eapply (hoare_bind _ _ _ _ (fun _ d' => d' = d)); [unfold hoare; by destruct (authorize _ _ _ _ _ _ _)|]. intros _ d' ->.
  case_bool_decide; [by apply hoare_ret|]. apply hoare_atomically; [done|].
  eapply (hoare_bind _ _ _ _ (fun _ => spared)).
  - apply hoare_execute; [done|]. intros d' [= <-]. apply list_elem_of_fmap. exists s. split; [|done].
    unfold on_secret. by rewrite bool_decide_false.
  - intros _ d1 Hd1. apply hoare_execute; [done|]. intros d2. destruct (audit_secret_event _ _ _ _); [|done].
    by intros [= <-].
Qed.

Lemma found_or_spares {A} (absent : A) m d :
  hoare spared m d (fun _ => spared) -> hoare spared (found_or absent m) d (fun _ => spared).
Proof. unfold hoare, found_or. destruct (m d) as [[a|[]] d']; auto. Qed.

Lemma roll_back_spares claims attrs migration request now e d :
  spared d -> me_secret_id e <> Some (s_secret_id s) ->
  hoare spared (roll_back c claims attrs migration request now e) d (fun _ => spared).
Proof.
  intros Hs Hne. eapply (hoare_bind _ _ _ _ (fun _ => spared)).
  - destruct (me_secret_id e) as [secret|]; [|by apply hoare_ret].
    eapply (hoare_bind _ _ _ _ (fun _ => spared)).
    + apply found_or_spares. eapply (hoare_bind _ _ _ _ (fun _ => spared)); [by apply hoare_resolve|].
      intros view d' Hd'. by apply hoare_ret.
    + intros claims' d' Hd'. apply found_or_spares, delete_spares; [done|congruence].
  - intros _ d' Hd'. by apply hoare_update.
Qed.
End Spared.

(** An abort deletes no other secret than those of MIGRATED or VERIFIED entries; in particular the secret of an entry that verification quarantined for a digest mismatch stays live, although the run created it. *)
Theorem abort_spares_quarantined c claims attrs project migration request now d n d' s :
  abort_run c claims attrs project migration request now d = (Ok n, d') -> s ∈ md_secrets d ->
  (forall e, e ∈ md_entries d -> doomed migration e -> me_secret_id e <> Some (s_secret_id s)) ->
  s ∈ md_secrets d'.
Proof.
  intros E Hs Hne. eapply (hoare_ok (fun d => s ∈ md_secrets d) _ _ (fun _ d => s ∈ md_secrets d)); [|exact E].
  unfold abort_run. eapply (hoare_bind _ _ _ _ (fun _ d' => d' = d)); [by apply hoare_authorize|]. intros _ ? ->.
  eapply (hoare_bind _ _ _ _ (fun _ d' => d' = d)); [by apply hoare_run_view|]. intros run ? ->.
  eapply (hoare_bind _ _ _ _ (fun _ d' => d' = d)).
  { unfold require_project. case_bool_decide; by apply hoare_ret. }
  intros _ ? ->. case_bool_decide; [by apply hoare_ret|].
  eapply (hoare_bind _ _ _ _ (fun rows d' => d' = d /\ rows = _)); [by apply hoare_mquery|]. intros rows ? (-> & ->).
  eapply (hoare_bind _ _ _ _ (fun _ d => s ∈ md_secrets d)).
  { eapply hoare_mono; [apply (hoare_for_each _ _ _ _ (fun rest d => s ∈ md_secrets d /\
      Forall (fun e => me_secret_id e <> Some (s_secret_id s)) rest))|by intros ?? (? & _)].
    - split; [done|]. apply Forall_forall. intros e (Hd & He)%list_elem_of_filter. by apply Hne.
    - intros e rest d1 (Hs1 & (He & Hrest)%Forall_cons). eapply hoare_mono; [by apply roll_back_spares|done]. }
  intros _ d1 Hd1. eapply (hoare_bind _ _ _ _ (fun _ d => s ∈ md_secrets d)).
  { apply hoare_execute; [done|]. by intros d2 [= <-]. }
  intros _ d2 Hd2. eapply (hoare_bind _ _ _ _ (fun _ d => s ∈ md_secrets d)); [by apply hoare_run_view|].
  intros run' d3 Hd3. eapply (hoare_bind _ _ _ _ (fun _ d => s ∈ md_secrets d)); [by apply hoare_audit|].
  intros _ d4 Hd4. by apply hoare_ret.
Qed.
End History.

(** ** A worked migration *)

Definition quiet (n : Z) : MCall :=
  {| mc_fails _ _ := false; mc_policy _ := false; mc_auth_now := 100; mc_run_id := replicate 16 n;
     mc_entry_id _ line := replicate 16 line; mc_event_id ty := n :: as_bytes ty |}.
Definition vault_secret (id name : string) : SecretRow :=
  {| s_secret_id := lit id; s_tenant_id := lit "t1"; s_project_id := lit "p1"; s_environment_id := lit "e1";
     s_repository_binding_id := None; s_service_id := None; s_name := lit name; s_status := lit "active";
     s_current_version := 1; s_updated_at := 1; s_deleted_at := None |}.
Definition with_secrets (s : list SecretRow) (d : MDb) : MDb := set_secrets (fun _ => s) d.
Definition ledger_auth : Connection :=
  {| project_members := {[ (lit "p1", lit "alice") := admin_row "root" ]};
     environments := {[ lit "e1" := {| e_tenant := lit "t1"; e_project := lit "p1"; e_tier := 0 |} ]};
     sessions := ∅; devices := ∅; webauthn_credentials := ∅; account_mfa_policy := ∅; session_mfa := ∅;
     totp_credentials := ∅; scope_token_denylist := ∅ |}.
Definition empty_ledger : MDb :=
  {| md_auth := ledger_auth; md_projects := {[ lit "p1" := lit "t1" ]}; md_environments := [(lit "p1", lit "e1")];
     md_bindings := []; md_services := []; md_runs := []; md_entries := []; md_secrets := []; md_events := [] |}.
Definition proposal (line : Z) (name : string) : SubmitEntry :=
  {| se_source_path := lit ".env"; se_source_line := line; se_name := lit name; se_secret_type := lit "key_value";
     se_target_environment_id := lit "e1"; se_target_binding_id := None; se_target_service_id := None;
     se_source_digest := replicate 32 line; se_idempotency_key := lit name ++ show_Z line |}.

Definition demo_run : str := Eval vm_compute in lit "mig_" ++ hex_encode (replicate 16 1).
Definition demo_entry (line : Z) : str := lit "mle_" ++ hex_encode (replicate 16 line).
Definition migrate_demo (digest2 : Z) : list (MCall * LedgerCall) :=
  let who := claims_of "alice" in
  [(quiet 1, LStart who demo_attrs (lit "p1") (lit "vault") (hex_encode (replicate 32 7)) 10);
   (quiet 2, LSubmit who demo_attrs (lit "p1") demo_run [proposal 2 "B"; proposal 1 "A"; proposal 3 "B"] 11);
   (quiet 2, LElsewhere (with_secrets [vault_secret "s1" "A"; vault_secret "s2" "B"] empty_ledger));
   (quiet 3, LMark who demo_attrs (lit "p1") demo_run (demo_entry 1) (lit "s1") (replicate 32 1) 12);
   (quiet 4, LMark who demo_attrs (lit "p1") demo_run (demo_entry 2) (lit "s2") (replicate 32 digest2) 13);
   (quiet 5, LVerify who demo_attrs (lit "p1") demo_run 14)].

Lemma empty_ledger_ok : ledger_ok empty_ledger.
Proof. split; [apply NoDup_nil_2..| | |]; [intros e He|intros a b He|intros e He]; by apply not_elem_of_nil in He. Qed.

(** The second proposal for B, on line 3, is quarantined; the others are verified when the digests agree. *)
Lemma demo_states : me_state <$> md_entries (ledger_history (migrate_demo 2) empty_ledger) =
  [ENTRY_VERIFIED; ENTRY_VERIFIED; ENTRY_QUARANTINED].
Proof. vm_compute. reflexivity. Qed.

(** Verified entries are cut over; disabling the rest of the run's legacy paths completes nothing while line 3 is quarantined. *)
Definition cut_over : MDb := ledger_history
  (migrate_demo 2 ++ [(quiet 6, LDisable (claims_of "alice") demo_attrs (lit "p1") demo_run None 15)]) empty_ledger.

Lemma migration_ledger_invariant_witness : ledger_ok cut_over.
Proof. apply (migration_ledger_invariant _ empty_ledger). apply empty_ledger_ok. Defined.

Lemma migration_call_steps_witness :
  evolves entry_step cut_over
    (ledger_call (quiet 7) (LAbort (claims_of "alice") demo_attrs (lit "p1") demo_run (lit "r") 16) cut_over).
Proof. apply migration_call_steps. apply history_ok, empty_ledger_ok. Defined.

Lemma cut_over_disabled : exists e, head (md_entries cut_over) = Some e /\ me_state e = ENTRY_LEGACY_DISABLED.
Proof. eexists. split; vm_compute; reflexivity. Qed.
Lemma head_in {A} (l : list A) x : head l = Some x -> x ∈ l.
Proof. destruct l; [done|]. intros [= ->]. apply list_elem_of_here. Qed.

Lemma migration_final_witness : exists e, me_state e = ENTRY_LEGACY_DISABLED /\
  e ∈ md_entries (ledger_history
    [(quiet 7, LAbort (claims_of "alice") demo_attrs (lit "p1") demo_run (lit "r") 16)] cut_over).
Proof.
  destruct cut_over_disabled as (e & He & Hs). exists e. split; [done|].
  apply (migration_final _ cut_over); [apply history_ok, empty_ledger_ok|by apply head_in|done].
Defined.

(** The digest recorded for line 2 is wrong: verification quarantines it, and the
    abort that follows deletes the secret of line 1 and not the one of line 2. *)
Definition mismatched : MDb := ledger_history (migrate_demo 9) empty_ledger.
Definition demo_abort (d : MDb) : result MigrationError Z * MDb :=
  abort_run (quiet 8) (claims_of "alice") demo_attrs (lit "p1") demo_run (lit "r") 16 d.

Lemma demo_aborts : exists n d', demo_abort mismatched = (Ok n, d').
Proof. eexists _, _. vm_compute. reflexivity. Qed.
Lemma mismatched_states : me_state <$> md_entries mismatched = [ENTRY_VERIFIED; ENTRY_QUARANTINED; ENTRY_QUARANTINED] /\
  me_secret_id <$> md_entries mismatched = [Some (lit "s1"); Some (lit "s2"); None] /\
  s_secret_id <$> md_secrets mismatched = [lit "s1"; lit "s2"] /\
  s_deleted_at <$> md_secrets mismatched = [None; None].
Proof. vm_compute. auto. Qed.

Lemma abort_undoes_cutover_witness :
  exists d', (exists n, demo_abort mismatched = (Ok n, d')) /\ rolled_back demo_run mismatched d'.
Proof.
  destruct demo_aborts as (n & d' & E). exists d'. split; [by exists n|].
  apply (abort_undoes_cutover _ _ _ _ _ _ _ _ _ _ (history_ok _ _ empty_ledger_ok) E).
Defined.

Lemma mismatched_spared : exists s, s ∈ md_secrets mismatched /\ s_secret_id s = lit "s2" /\ s_deleted_at s = None /\
  (forall e, e ∈ md_entries mismatched -> doomed demo_run e -> me_secret_id e <> Some (s_secret_id s)).
Proof.
  destruct mismatched_states as (Hst & Hid & Hsid & Hdel). revert Hst Hid Hsid Hdel. generalize mismatched. intros d Hst Hid Hsid Hdel.
  destruct (md_secrets d) as [|s1 [|s2 [|]]] eqn:Es; try done. injection Hsid as H1 H2. injection Hdel as D1 D2.
  exists s2. split; [by right; left|]. split; [done|]. split; [done|]. rewrite H2.
  destruct (md_entries d) as [|e1 [|e2 [|e3 [|]]]]; try done. injection Hst as S1 S2 S3. injection Hid as I1 I2 I3.
  intros e He (_ & Hs). apply elem_of_cons in He as [->|[->|[->|[]%not_elem_of_nil]%elem_of_cons]%elem_of_cons].
  - rewrite I1. by intros [= ?].
  - rewrite S2 in Hs. clear -Hs. states.
  - rewrite S3 in Hs. clear -Hs. states.
Qed.

Lemma abort_spares_quarantined_witness :
  exists d' s, (exists n, demo_abort mismatched = (Ok n, d')) /\ s_secret_id s = lit "s2" /\ s_deleted_at s = None /\
  s ∈ md_secrets d'.
Proof.
  destruct demo_aborts as (n & d' & E). destruct mismatched_spared as (s & Hs & Hid & Hdel & Hne).
  exists d', s. split; [by exists n|]. split; [done|]. split; [done|].
  apply (abort_spares_quarantined _ _ _ _ _ _ _ _ _ _ _ E Hs Hne).
Defined.

Definition demo_verify (d : MDb) : result MigrationError VerifyOutcome * MDb :=
  verify_run (quiet 9) (claims_of "alice") demo_attrs (lit "p1") demo_run 17 d.
Lemma demo_verifies : exists o d', demo_verify mismatched = (Ok o, d').
Proof. eexists _, _. vm_compute. reflexivity. Qed.

Lemma verify_completes_iff_witness : exists o d', demo_verify mismatched = (Ok o, d') /\
  (vo_run_state o = RUN_COMPLETE <->
   forall e, e ∈ md_entries d' -> me_migration_id e = demo_run -> me_state e ∈ closed_states).
Proof.
  destruct demo_verifies as (o & d' & E). exists o, d'. split; [exact E|].
  apply (verify_completes_iff _ _ _ _ _ _ _ _ _ (history_ok _ _ empty_ledger_ok) E).
Defined.
