(* ===== verification/Secrets.v ===== *)
(** * Scoped secrets

    src/services/account/src/secrets.rs and rotation.rs, with [require_active_binding] of
    vcs.rs: creation, reading, listing, metadata, deletion, move, rebinding and rotation
    of secrets whose values are sealed under their scope.

    The tables are maps by their primary or unique keys; the constraints of the schema
    (scoped.rs) are written out where a statement can violate them.  A call carries an
    oracle that says which statement fails, the answers of the clock and the random
    bytes it draws.  The connection is held for the whole call, so a call is one step;
    what a transaction wrote is undone when its body or its commit fails. *)

From S2P Require Import Prelude Errors Sorting Tables Primitives Names Crypto Redact Policy AuditChain Grants Migration.

#[local] Open Scope tx_scope.

Definition MAX_LIST_LIMIT : Z := 500.
Definition u32_max : Z := 4294967295.

(** ** Tables *)

Record Secret : Type := MkSecret {
  sec_tenant : str; sec_project : str; sec_env : str; sec_binding : option str; sec_service : option str;
  sec_name : str; sec_type : str; sec_description : str; sec_tags : str; sec_status : str; sec_version : Z;
  sec_created_by : str; sec_created : Z; sec_updated : Z; sec_rotated : option Z; sec_expires : option Z;
  sec_accessed : option Z; sec_deleted : option Z;
}.
Record Version : Type := {
  ver_id : str; ver_key : str; ver_nonce : bytes; ver_ciphertext : bytes; ver_digest : bytes; ver_wrapped : bytes;
  ver_created_by : str; ver_created : Z;
}.
Record RotationJob : Type := {
  job_id : str; job_state : str; job_reason : str; job_created : Z; job_digest : option bytes;
  job_previous : option Z; job_committed : option Z; job_verified : option bool;
}.

(** [encryption_keys] *)
Record KeyRow : Type := { key_tenant : str; key_project : str; key_fingerprint : option bytes }.

Record SDb : Type := MkSDb {
  sd_auth : Connection;
  sd_projects : gmap str str;                 (* project_id -> tenant_id *)
  sd_services : gmap str (str * str);         (* tenant and project *)
  sd_bindings : gmap str (str * str * str);   (* tenant, project and status *)
  sd_secrets : gmap str Secret;
  sd_versions : gmap (str * Z) Version;       (* UNIQUE (secret_id, version) *)
  sd_keys : gmap str KeyRow;
  sd_jobs : gmap (str * str) RotationJob;     (* UNIQUE (secret_id, idempotency_key) *)
  sd_events : AuditTable;
}.
Definition set_sec (f : gmap str Secret -> gmap str Secret) (d : SDb) : SDb :=
  let 'MkSDb a p sv b s v k j e := d in MkSDb a p sv b (f s) v k j e.
Definition set_versions (f : gmap (str * Z) Version -> gmap (str * Z) Version) (d : SDb) : SDb :=
  let 'MkSDb a p sv b s v k j e := d in MkSDb a p sv b s (f v) k j e.
Definition set_keys (f : gmap str KeyRow -> gmap str KeyRow) (d : SDb) : SDb :=
  let 'MkSDb a p sv b s v k j e := d in MkSDb a p sv b s v (f k) j e.
Definition set_jobs (f : gmap (str * str) RotationJob -> gmap (str * str) RotationJob) (d : SDb) : SDb :=
  let 'MkSDb a p sv b s v k j e := d in MkSDb a p sv b s v k (f j) e.
Definition set_log (t : AuditTable) (d : SDb) : SDb :=
  let 'MkSDb a p sv b s v k j _ := d in MkSDb a p sv b s v k j t.

(** ** Requests and answers *)

Record CreateSecret : Type := {
  cs_project_id : str; cs_environment_id : str; cs_name : str; cs_secret_type : str; cs_description : str;
  cs_tags : list str; cs_repository_binding_id : option str; cs_service_id : option str; cs_value : bytes;
  cs_request_id : str;
}.
Record UpdateSecretMetadata : Type := {
  um_description : option str; um_tags : option (list str); um_expires_at_utc : option Z; um_status : option str;
}.
Record SecretListFilter : Type := {
  lf_project_id : str; lf_environment_id : str; lf_tag : option str; lf_status : option str; lf_q : option str; lf_limit : Z;
}.
Record MoveSecret : Type := { mo_new_name : option str; mo_new_environment_id : option str; mo_reason : str; mo_request_id : str }.
Record RebindSecret : Type := {
  rb_repository_binding_id : option (option str); rb_service_id : option (option str); rb_reason : str; rb_request_id : str;
}.
Record RotateSecret : Type := { rs_secret_id : str; rs_new_value : bytes; rs_idempotency_key : str; rs_reason : str; rs_request_id : str }.
Record RotateOutcome : Type := { ro_secret_id : str; ro_previous_version : Z; ro_current_version : Z; ro_provider_verified : bool }.

Record SecretView : Type := {
  v_secret_id : str; v_tenant_id : str; v_project_id : str; v_environment_id : str; v_repository_binding_id : option str;
  v_service_id : option str; v_name : str; v_secret_type : str; v_description : str; v_tags : list str; v_status : str;
  v_current_version : Z; v_created_by : str; v_created_at_utc : Z; v_updated_at_utc : Z; v_last_rotated_at_utc : option Z;
  v_expires_at_utc : option Z;
}.
Record SecretValueView : Type := { vv_meta : SecretView; vv_version : Z; vv_value : bytes }.

(** serde_json on tags and on the fields of a rotation request. *)
Class SecretJson : Type := {
  tags_to_json : list str -> result str str;
  tags_from_json : str -> option (list str);
  rotation_json : str -> bytes -> str -> bool -> bytes; (* principal, digest of the value, reason, verified *)
}.
Class SecretJsonLaws (J : SecretJson) : Prop := {
  tags_roundtrip : forall l text, tags_to_json l = Ok text -> tags_from_json text = Some l;
  rotation_json_inj : forall p d r b p' d' r' b', rotation_json p d r b = rotation_json p' d' r' b' -> p = p' /\ d = d' /\ r = r' /\ b = b';
}.

(** What a call draws and which of its statements fail. *)
Record SCall : Type := {
  cl_fails : string -> bool;
  cl_policy : string -> Query -> bool;
  cl_row_policy : str -> Query -> bool;   (* authorization of a listed row *)
  cl_now : string -> Z;
  cl_secret_id : bytes; cl_version_id : bytes; cl_dek : bytes; cl_nonce : bytes; cl_wrap_nonce : bytes;
  cl_job_id : bytes; cl_event_id : bytes;
}.
Definition STx (A : Type) : Type := Tx SDb SecretError A.

(** ** SQLite's LIKE with an escape character

    ASCII letters match in either case. *)
Definition PERCENT : Z := 37.
Definition UNDERSCORE : Z := 95.
Definition ESCAPE : Z := 92.
Fixpoint like (pattern : str) : str -> bool :=
  match pattern with
  | [] => fun text => bool_decide (text = [])
  | c :: rest =>
      if c =? PERCENT then
        (fix any (text : str) : bool := like rest text || match text with [] => false | _ :: text' => any text' end)
      else if c =? ESCAPE then
        match rest with
        | [] => fun _ => false
        | d :: rest' => fun text =>
            match text with [] => false | x :: text' => (to_ascii_lowercase x =? to_ascii_lowercase d) && like rest' text' end
        end
      else fun text =>
        match text with
        | [] => false
        | x :: text' => ((c =? UNDERSCORE) || (to_ascii_lowercase x =? to_ascii_lowercase c)) && like rest text'
        end
  end.

(** ** Operations *)

Section Secrets.
Context {HX : Hex} {SH : Sha256} {JS : Json} {XC : XChaCha} {SJ : SecretJson}.

Definition invalid {A} (r : result FormatError A) : result SecretError A := map_err (fun e => SecretInvalid (display_format_error e)) r.

Definition id16 (hex_str : str) (what : string) : result SecretError bytes :=
  match hex_decode (trim hex_str) with
  | Err _ => Err (SecretInvalid (lit "malformed " ++ lit what ++ lit " id"))
  | Ok raw =>
      bail? negb (blen raw =? 16) with SecretInvalid (lit "malformed " ++ lit what ++ lit " id: " ++ show_Z (blen raw) ++ lit " bytes") ;;
      Ok raw
  end.

Definition validate_tags (tags : list str) : result SecretError unit :=
  bail? blen tags >? MAX_TAGS with SecretInvalid (lit "too many tags: at most " ++ show_Z MAX_TAGS) ;;
  for_each (fun tag => invalid (validate_tag tag)) tags.

Definition secret_view_from_row (id : str) (r : Secret) : SecretView :=
  {| v_secret_id := id; v_tenant_id := sec_tenant r; v_project_id := sec_project r; v_environment_id := sec_env r;
     v_repository_binding_id := sec_binding r; v_service_id := sec_service r; v_name := sec_name r;
     v_secret_type := sec_type r; v_description := sec_description r; v_tags := default [] (tags_from_json (sec_tags r));
     v_status := sec_status r; v_current_version := sec_version r; v_created_by := sec_created_by r;
     v_created_at_utc := sec_created r; v_updated_at_utc := sec_updated r; v_last_rotated_at_utc := sec_rotated r;
     v_expires_at_utc := sec_expires r |}.
Definition target_from_view (view : SecretView) : AuthTarget :=
  {| at_tenant_id := v_tenant_id view; at_project_id := v_project_id view; at_environment_id := Some (v_environment_id view);
     at_repository_binding_id := v_repository_binding_id view; at_service_id := v_service_id view |}.

(** The version number in the associated data: [u32::try_from(v).unwrap_or(u32::MAX)]. *)
Definition version_u32 (v : Z) : Z := if (0 <=? v) && (v <=? u32_max) then v else u32_max.

Record SealedVersionParts : Type := { sp_nonce : bytes; sp_ciphertext : bytes; sp_wrapped_dek : bytes }.

Context {S : Type} {K : KeyWrappingService S}.
Variables (wrap : S) (kek_id : str).

Definition seal_version (c : SCall) (tenant_raw project_raw env_raw secret_raw : bytes) (version : Z) (value : bytes)
  : result SecretError SealedVersionParts :=
  let aad := scope_aad tenant_raw project_raw env_raw secret_raw version in
  let? sealed := map_err SecretCrypto (seal_secret_value (cl_nonce c) (cl_dek c) value aad) in
  let? wrapped := map_err SecretCrypto (wrap_dek (cl_wrap_nonce c) wrap (cl_dek c)) in
  Ok {| sp_nonce := sealed_nonce sealed; sp_ciphertext := sealed_ciphertext sealed;
        sp_wrapped_dek := wrapped_nonce wrapped ++ wrapped_blob wrapped |}.

(** The version row of a secret, opened under the scope of the view. *)
Definition open_version (view : SecretView) (ver : Version) : result SecretError bytes :=
  bail? blen (ver_wrapped ver) <? NONCE_SIZE + TAG_SIZE with SecretInvalid (lit "secret version predates envelope storage") ;;
  let? dek := map_err SecretCrypto (unwrap_dek wrap
    {| wrapped_kek_id := ver_key ver; wrapped_nonce := take (Z.to_nat NONCE_SIZE) (ver_wrapped ver);
       wrapped_blob := drop (Z.to_nat NONCE_SIZE) (ver_wrapped ver) |}) in
  bail? negb (blen (ver_nonce ver) =? NONCE_SIZE) with SecretInvalid (lit "malformed version nonce") ;;
  let? t := id16 (v_tenant_id view) "tenant" in
  let? p := id16 (v_project_id view) "project" in
  let? e := id16 (v_environment_id view) "environment" in
  let? s := id16 (v_secret_id view) "secret" in
  map_err SecretCrypto (open_secret_value dek {| sealed_nonce := ver_nonce ver; sealed_ciphertext := ver_ciphertext ver |}
                          (scope_aad t p e s (version_u32 (v_current_version view)))).

Section Call.
Variable c : SCall.

Definition query {A} (name : string) (f : SDb -> A) : STx A := query_if (cl_fails c name) SecretDb f.
(** A statement that writes; it can violate a constraint. *)
Definition statement (name : string) (f : SDb -> result SecretError SDb) : STx unit := fun d =>
  if cl_fails c name then (Err SecretDb, d) else match f d with Ok d' => (Ok tt, d') | Err e => (Err e, d) end.
(** A time that does not fit SQLite's integers is an error of the statement. *)
Definition stamped (now : Z) (f : SDb -> result SecretError SDb) (d : SDb) : result SecretError SDb :=
  bail? now >? i64_max with SecretDb ;; f d.
Definition transaction {A} (m : STx A) : STx A := query "begin" (fun _ => tt) ;;; atomically (cl_fails c "commit") SecretDb m.

Definition authorized (at_ : string) (claims : ScopeClaims) (action : ScopedAction) (target : AuthTarget)
  (attrs : RequestAttributes) : STx unit := fun d =>
  (map_err (fun _ => SecretDenied) (let? _ := authorize (cl_policy c at_) (sd_auth d) claims action target attrs (cl_now c at_) in Ok tt), d).

Definition require_row (id what : str) : STx unit :=
  do exists_ <- query "require_row" (fun d => bool_decide (is_Some (environments (sd_auth d) !! id))) ;;
  tret (if exists_ : bool then Ok tt else Err (SecretInvalid (lit "unknown " ++ what))).
Definition require_scoped_service (id tenant project : str) : STx unit :=
  do exists_ <- query "require_scoped_row" (fun d => bool_decide (sd_services d !! id = Some (tenant, project))) ;;
  tret (if exists_ : bool then Ok tt else Err SecretDenied).
Definition require_scoped_environment (id tenant project : str) : STx unit :=
  do exists_ <- query "require_scoped_row" (fun d => match environments (sd_auth d) !! id with
    | Some e => bool_decide (e_tenant e = tenant /\ e_project e = project) | None => false end) ;;
  tret (if exists_ : bool then Ok tt else Err SecretDenied).
(** vcs.rs, with the errors mapped by [map_binding_error]. *)
Definition require_active_binding (id tenant project : str) : STx unit :=
  do row <- query "require_active_binding" (fun d => sd_bindings d !! id) ;;
  tret match row with
       | None => Err (SecretInvalid (lit "unknown repository binding"))
       | Some (t, p, status) =>
           bail? negb (bool_decide (t = tenant)) || negb (bool_decide (p = project)) with SecretDenied ;;
           bail? negb (bool_decide (status = lit "active")) with SecretDenied ;;
           Ok tt
       end.
Definition when_some {A} (o : option A) (f : A -> STx unit) : STx unit := match o with Some a => f a | None => tret (Ok tt) end.

Definition resolve_secret (at_ : string) (id : str) : STx SecretView :=
  do row <- query at_ (fun d => sd_secrets d !! id) ;;
  tret match row with
       | Some r => if bool_decide (sec_deleted r = None) then Ok (secret_view_from_row id r) else Err SecretNotFound
       | None => Err SecretNotFound
       end.

Definition audit (event : AuditEventType) (tenant project env id : str) (version : Z) (principal request reason : str) (now : Z)
  : STx unit := statement "audit" (fun d =>
  match audit_secret_event (cl_event_id c)
    {| ev_event_type := event_type_str event; ev_tenant_id := as_bytes tenant; ev_project_id := Some (as_bytes project);
       ev_environment_id := Some (as_bytes env); ev_secret_id := Some (as_bytes id); ev_secret_version := Some version;
       ev_principal_id := as_bytes principal; ev_request_id := as_bytes request; ev_source := lit "api";
       ev_result := lit "success"; ev_reason := as_bytes reason |} now (sd_events d) with
  | Ok t => Ok (set_log t d)
  | Err _ => Err SecretDb
  end).
Definition audit_view (event : AuditEventType) (view : SecretView) (version : Z) (principal request reason : str) (now : Z) : STx unit :=
  audit event (v_tenant_id view) (v_project_id view) (v_environment_id view) (v_secret_id view) version principal request reason now.

(** [ON CONFLICT(key_id) DO NOTHING] *)
Definition ensure_kek_row (tenant project : str) (now : Z) : STx unit := statement "ensure_kek" (stamped now (fun d =>
  if bool_decide (is_Some (sd_keys d !! kek_id)) then Ok d else
  bail? bool_decide (sd_projects d !! project = None) with SecretDb ;;
  Ok (set_keys (<[kek_id := {| key_tenant := tenant; key_project := project; key_fingerprint := None |}]>) d))).

(** [UNIQUE (project_id, environment_id, name)] against the other rows. *)
Definition name_taken (d : SDb) (id project env name : str) : bool :=
  existsb (fun kv => negb (bool_decide (kv.1 = id)) && bool_decide (sec_project kv.2 = project /\ sec_env kv.2 = env /\ sec_name kv.2 = name))
    (map_to_list (sd_secrets d)).
Definition unknown_scope : SecretError := SecretInvalid (lit "unknown scope reference").
Definition dangling {V} (key : option str) (table : gmap str V) : bool :=
  match key with Some k => bool_decide (table !! k = None) | None => false end.
Definition insert_secret (id : str) (r : Secret) : STx unit := statement "insert_secret" (stamped (sec_created r) (fun d =>
  bail? bool_decide (is_Some (sd_secrets d !! id)) with SecretDb ;;
  bail? name_taken d id (sec_project r) (sec_env r) (sec_name r) with SecretConflict ;;
  bail? bool_decide (sd_projects d !! sec_project r = None) || bool_decide (environments (sd_auth d) !! sec_env r = None)
        || dangling (sec_binding r) (sd_bindings d) || dangling (sec_service r) (sd_services d) with unknown_scope ;;
  Ok (set_sec (<[id := r]>) d))).
Definition insert_version (id : str) (version : Z) (ver : Version) : STx unit := statement "insert_version" (stamped (ver_created ver) (fun d =>
  bail? existsb (fun kv => bool_decide (ver_id kv.2 = ver_id ver)) (map_to_list (sd_versions d)) with SecretDb ;;
  bail? bool_decide (is_Some (sd_versions d !! (id, version))) with SecretDb ;;
  bail? bool_decide (sd_secrets d !! id = None) || bool_decide (sd_keys d !! ver_key ver = None) with SecretDb ;;
  Ok (set_versions (<[(id, version) := ver]>) d))).
(** [UPDATE secrets SET ... WHERE secret_id = ?] *)
Definition update_secret (name : string) (id : str) (now : Z) (f : Secret -> Secret) : STx unit :=
  statement name (stamped now (fun d => Ok (set_sec (alter f id) d))).

Definition create_secret (claims : ScopeClaims) (attrs : RequestAttributes) (input : CreateSecret) : STx SecretView :=
  do project_tenant <- query "project_tenant" (fun d => sd_projects d !! cs_project_id input) ;;
  match project_tenant with
  | None => tret (Err (SecretInvalid (lit "unknown project")))
  | Some tenant =>
      let project := cs_project_id input in
      authorized "create" claims Policy.CreateSecret
        {| at_tenant_id := tenant; at_project_id := project; at_environment_id := Some (cs_environment_id input);
           at_repository_binding_id := cs_repository_binding_id input; at_service_id := cs_service_id input |} attrs ;;;
      tret (invalid (validate_secret_name (cs_name input))) ;;;
      tret (invalid (validate_description (cs_description input))) ;;;
      tret (validate_tags (cs_tags input)) ;;;
      if is_blank (cs_secret_type input) then tret (Err (SecretInvalid (lit "secret_type must not be empty"))) else
      require_row (cs_environment_id input) (lit "environment") ;;;
      when_some (cs_repository_binding_id input) (fun binding => require_active_binding binding (Policy.tenant_id claims) project) ;;;
      when_some (cs_service_id input) (fun service => require_scoped_service service tenant project) ;;;
      do tenant_raw <- tret (id16 (Policy.tenant_id claims) "tenant") ;;
      do project_raw <- tret (id16 project "project") ;;
      do env_raw <- tret (id16 (cs_environment_id input) "environment") ;;
      let secret_id := id_to_hex (cl_secret_id c) in
      do secret_raw <- tret (id16 secret_id "secret") ;;
      do sealed <- tret (seal_version c tenant_raw project_raw env_raw secret_raw 1 (cs_value input)) ;;
      do tags_json <- tret (map_err SecretInvalid (tags_to_json (cs_tags input))) ;;
      let now := cl_now c "write" in
      transaction (
        ensure_kek_row (Policy.tenant_id claims) project now ;;;
        insert_secret secret_id
          {| sec_tenant := Policy.tenant_id claims; sec_project := project; sec_env := cs_environment_id input;
             sec_binding := cs_repository_binding_id input; sec_service := cs_service_id input; sec_name := cs_name input;
             sec_type := cs_secret_type input; sec_description := cs_description input; sec_tags := tags_json;
             sec_status := lit "active"; sec_version := 1; sec_created_by := Policy.principal_id claims; sec_created := now;
             sec_updated := now; sec_rotated := None; sec_expires := None; sec_accessed := None; sec_deleted := None |} ;;;
        insert_version secret_id 1
          {| ver_id := id_to_hex (cl_version_id c); ver_key := kek_id; ver_nonce := sp_nonce sealed;
             ver_ciphertext := sp_ciphertext sealed; ver_digest := sha256 (cs_value input); ver_wrapped := sp_wrapped_dek sealed;
             ver_created_by := Policy.principal_id claims; ver_created := now |} ;;;
        audit SecretCreated (Policy.tenant_id claims) project (cs_environment_id input) secret_id 1 (Policy.principal_id claims)
          (cs_request_id input) [] now) ;;;
      resolve_secret "resolve_created" secret_id
  end.

Definition get_secret_metadata (claims : ScopeClaims) (attrs : RequestAttributes) (id : str) : STx SecretView :=
  do view <- resolve_secret "resolve" id ;;
  authorized "metadata" claims ReadMetadata (target_from_view view) attrs ;;;
  tret (Ok view).

Definition open_current_version (view : SecretView) : STx bytes :=
  do row <- query "current_version" (fun d => sd_versions d !! (v_secret_id view, v_current_version view)) ;;
  tret match row with Some ver => open_version view ver | None => Err SecretNotFound end.

Definition touch (now : Z) (r : Secret) : Secret :=
  let 'MkSecret t p e b sv n ty de tg st v cb cr up ro ex _ del := r in MkSecret t p e b sv n ty de tg st v cb cr up ro ex (Some now) del.
Definition get_secret_value (claims : ScopeClaims) (attrs : RequestAttributes) (id request : str) : STx SecretValueView :=
  do view <- resolve_secret "resolve" id ;;
  authorized "value" claims ReadValue (target_from_view view) attrs ;;;
  do plaintext <- open_current_version view ;;
  let now := cl_now c "write" in
  transaction (
    update_secret "touch" id now (touch now) ;;;
    audit_view SecretRead view (v_current_version view) (Policy.principal_id claims) request [] now) ;;;
  tret (Ok {| vv_meta := view; vv_version := v_current_version view; vv_value := plaintext |}).

(** The query text with its wildcards escaped, between two of its own. *)
Fixpoint escape_like (q : str) : str :=
  match q with
  | [] => []
  | ch :: rest => (if (ch =? PERCENT) || (ch =? UNDERSCORE) || (ch =? ESCAPE) then [ESCAPE; ch] else [ch]) ++ escape_like rest
  end.
Definition like_pattern (q : option str) : option str :=
  match trim <$> q with
  | Some (ch :: rest) => Some (PERCENT :: escape_like (ch :: rest) ++ [PERCENT])
  | _ => None
  end.
(** The WHERE clause of the listing. *)
Definition listed (claims : ScopeClaims) (attrs : RequestAttributes) (filter_ : SecretListFilter) (r : Secret) : bool :=
  bool_decide (sec_project r = lf_project_id filter_) && bool_decide (sec_env r = lf_environment_id filter_)
  && bool_decide (sec_deleted r = None)
  && match lf_status filter_ with None => true | Some s => bool_decide (sec_status r = s) end
  && match like_pattern (lf_q filter_) with None => true | Some pattern => like pattern (sec_name r) end
  && (human_session attrs || bool_decide (sec_binding r = Policy.repository_binding_id claims))
  && (human_session attrs || bool_decide (sec_service r = Policy.service_id claims)).
Definition by_name (a b : str * Secret) : bool := str_le (sec_name a.2) (sec_name b.2).
Definition list_secrets (claims : ScopeClaims) (attrs : RequestAttributes) (filter_ : SecretListFilter) : STx (list SecretView) :=
  do project_tenant <- query "project_tenant" (fun d => sd_projects d !! lf_project_id filter_) ;;
  authorized "list" claims ReadMetadata
    {| at_tenant_id := default [] project_tenant; at_project_id := lf_project_id filter_;
       at_environment_id := Some (lf_environment_id filter_); at_repository_binding_id := Policy.repository_binding_id claims;
       at_service_id := Policy.service_id claims |} attrs ;;;
  let limit := Z.max 1 (Z.min (lf_limit filter_) MAX_LIST_LIMIT) in
  do rows <- query "list" (fun d =>
    take (Z.to_nat limit) (sort by_name (List.filter (fun kv => listed claims attrs filter_ kv.2) (map_to_list (sd_secrets d))))) ;;
  do auth <- tget sd_auth ;;
  tret (Ok (List.filter (fun view =>
    is_ok (authorize (cl_row_policy c (v_secret_id view)) auth claims ReadMetadata (target_from_view view) attrs (cl_now c "list"))
    && match lf_tag filter_ with None => true | Some tag => bool_decide (tag ∈ v_tags view) end)
    ((fun kv => secret_view_from_row kv.1 kv.2) <$> rows))).

Definition coalesce {A} (o : option A) (a : A) : A := default a o.
Definition patched (patch : UpdateSecretMetadata) (tags : option str) (now : Z) (r : Secret) : Secret :=
  let 'MkSecret t p e b sv n ty de tg st v cb cr _ ro ex ac del := r in
  MkSecret t p e b sv n ty (coalesce (um_description patch) de) (coalesce tags tg) (coalesce (um_status patch) st) v cb cr now ro
    (match um_expires_at_utc patch with Some x => Some x | None => ex end) ac del.
Definition update_secret_metadata (claims : ScopeClaims) (attrs : RequestAttributes) (id : str) (patch : UpdateSecretMetadata)
  (request : str) : STx SecretView :=
  do view <- resolve_secret "resolve" id ;;
  authorized "update" claims UpdateMetadata (target_from_view view) attrs ;;;
  when_some (um_description patch) (fun description => tret (invalid (validate_description description))) ;;;
  when_some (um_tags patch) (fun tags => tret (validate_tags tags)) ;;;
  when_some (um_status patch) (fun status => tret (
    bail? negb (bool_decide (status ∈ [lit "active"; lit "deprecated"]))
      with SecretInvalid (lit "status must be 'active' or 'deprecated' (deletion is separate)") ;; Ok tt)) ;;;
  do tags_json <- tret match um_tags patch with
                       | None => Ok None
                       | Some tags => let? text := map_err SecretInvalid (tags_to_json tags) in Ok (Some text)
                       end ;;
  let now := cl_now c "write" in
  transaction (
    statement "update_metadata" (stamped now (fun d =>
      bail? match um_expires_at_utc patch with Some x => x >? i64_max | None => false end with SecretDb ;;
      Ok (set_sec (alter (patched patch tags_json now) id) d))) ;;;
    audit_view SecretUpdated view (v_current_version view) (Policy.principal_id claims) request [] now) ;;;
  resolve_secret "resolve_updated" id.

Definition entombed (now : Z) (r : Secret) : Secret :=
  let 'MkSecret t p e b sv n ty de tg _ v cb cr _ ro ex ac _ := r in
  MkSecret t p e b sv n ty de tg (lit "scheduled_deletion") v cb cr now ro ex ac (Some now).
Definition delete_secret (claims : ScopeClaims) (attrs : RequestAttributes) (id reason request : str) : STx unit :=
  do view <- resolve_secret "resolve" id ;;
  authorized "delete" claims DeleteSecret (target_from_view view) attrs ;;;
  if is_blank reason then tret (Err (SecretInvalid (lit "deletion requires a reason"))) else
  let now := cl_now c "write" in
  transaction (
    update_secret "entomb" id now (entombed now) ;;;
    audit_view SecretDeleted view (v_current_version view) (Policy.principal_id claims) request reason now).

Definition renamed (name env : str) (version now : Z) (r : Secret) : Secret :=
  let 'MkSecret t p _ b sv _ ty de tg st _ cb cr _ ro ex ac del := r in MkSecret t p env b sv name ty de tg st version cb cr now ro ex ac del.
(** [UPDATE secrets SET name, environment_id, current_version, updated_at_utc], with [map_constraint]. *)
Definition rename_secret (id : str) (view : SecretView) (name env : str) (version now : Z) : STx unit :=
  statement "rename" (stamped now (fun d =>
    bail? name_taken d id (v_project_id view) env name with SecretConflict ;;
    bail? negb (bool_decide (env = v_environment_id view)) && bool_decide (environments (sd_auth d) !! env = None) with unknown_scope ;;
    Ok (set_sec (alter (renamed name env version now) id) d))).
(** The current value, sealed again under the destination as the next version. *)
Definition reseal (claims : ScopeClaims) (view : SecretView) (final_env : str) (next_version now : Z) : STx unit :=
  do plaintext <- open_current_version view ;;
  do t <- tret (id16 (v_tenant_id view) "tenant") ;;
  do p <- tret (id16 (v_project_id view) "project") ;;
  do e <- tret (id16 final_env "environment") ;;
  do s <- tret (id16 (v_secret_id view) "secret") ;;
  do sealed <- tret (seal_version c t p e s (version_u32 next_version) plaintext) ;;
  insert_version (v_secret_id view) next_version
    {| ver_id := id_to_hex (cl_version_id c); ver_key := kek_id; ver_nonce := sp_nonce sealed; ver_ciphertext := sp_ciphertext sealed;
       ver_digest := sha256 plaintext; ver_wrapped := sp_wrapped_dek sealed; ver_created_by := Policy.principal_id claims;
       ver_created := now |}.
Definition move_secret (claims : ScopeClaims) (attrs : RequestAttributes) (id : str) (input : MoveSecret) : STx SecretView :=
  do view <- resolve_secret "resolve" id ;;
  authorized "move" claims Policy.MoveSecret (target_from_view view) attrs ;;;
  if is_blank (mo_reason input) then tret (Err (SecretInvalid (lit "move requires a reason"))) else
  when_some (mo_new_name input) (fun name => tret (invalid (validate_secret_name name))) ;;;
  when_some (mo_new_environment_id input) (fun env => require_scoped_environment env (v_tenant_id view) (v_project_id view)) ;;;
  if bool_decide (mo_new_name input = None /\ mo_new_environment_id input = None)
  then tret (Err (SecretInvalid (lit "move requires a new name or environment"))) else
  let final_name := default (v_name view) (mo_new_name input) in
  let final_env := default (v_environment_id view) (mo_new_environment_id input) in
  authorized "destination" claims Policy.MoveSecret
    {| at_tenant_id := v_tenant_id view; at_project_id := v_project_id view; at_environment_id := Some final_env;
       at_repository_binding_id := v_repository_binding_id view; at_service_id := v_service_id view |} attrs ;;;
  let now := cl_now c "write" in
  transaction (
    ensure_kek_row (v_tenant_id view) (v_project_id view) now ;;;
    (if negb (bool_decide (final_env = v_environment_id view)) then
       let next_version := as_i64 (v_current_version view + 1) in
       reseal claims view final_env next_version now ;;;
       rename_secret id view final_name final_env next_version now
     else rename_secret id view final_name final_env (v_current_version view) now) ;;;
    do moved <- resolve_secret "resolve_moved" id ;;
    audit_view SecretMoved moved (v_current_version moved) (Policy.principal_id claims) (mo_request_id input) (mo_reason input) now) ;;;
  resolve_secret "resolve_after_move" id.

Definition rebound (binding service : option str) (now : Z) (r : Secret) : Secret :=
  let 'MkSecret t p e _ _ n ty de tg st v cb cr _ ro ex ac del := r in MkSecret t p e binding service n ty de tg st v cb cr now ro ex ac del.
Definition rebind_secret (claims : ScopeClaims) (attrs : RequestAttributes) (id : str) (input : RebindSecret) : STx SecretView :=
  do view <- resolve_secret "resolve" id ;;
  authorized "rebind" claims Policy.RebindSecret (target_from_view view) attrs ;;;
  if is_blank (rb_reason input) then tret (Err (SecretInvalid (lit "rebind requires a reason"))) else
  when_some (mjoin (rb_repository_binding_id input)) (fun binding => require_active_binding binding (v_tenant_id view) (v_project_id view)) ;;;
  when_some (mjoin (rb_service_id input)) (fun service => require_scoped_service service (v_tenant_id view) (v_project_id view)) ;;;
  let binding := default (v_repository_binding_id view) (rb_repository_binding_id input) in
  let service := default (v_service_id view) (rb_service_id input) in
  authorized "destination" claims Policy.RebindSecret
    {| at_tenant_id := v_tenant_id view; at_project_id := v_project_id view; at_environment_id := Some (v_environment_id view);
       at_repository_binding_id := binding; at_service_id := service |} attrs ;;;
  let now := cl_now c "write" in
  transaction (
    statement "rebind" (stamped now (fun d =>
      bail? dangling binding (sd_bindings d) || dangling service (sd_services d) with SecretDb ;;
      Ok (set_sec (alter (rebound binding service now) id) d))) ;;;
    audit_view SecretRebound view (v_current_version view) (Policy.principal_id claims) (rb_request_id input) (rb_reason input) now) ;;;
  resolve_secret "resolve_rebound" id.

(** ** rotation.rs *)

(** [RotationVerifier]: the probe, and whether it is a provider's evidence. *)
Record RotationVerifier : Type := { rv_verify : bytes -> bool; provider_verified : bool }.
Definition ManualReplacementVerifier : RotationVerifier := {| rv_verify := fun _ => true; provider_verified := false |}.

Definition rotation_request_digest (claims : ScopeClaims) (input : RotateSecret) (verified : bool) : bytes :=
  sha256 (rotation_json (Policy.principal_id claims) (sha256 (rs_new_value input)) (rs_reason input) verified).
Definition existing_job (id key : str) : STx (option RotationJob) := query "existing_job" (fun d => sd_jobs d !! (id, key)).
Definition insert_job (name : string) (id key : str) (job : RotationJob) : STx unit := statement name (stamped (job_created job) (fun d =>
  bail? existsb (fun kv => bool_decide (job_id kv.2 = job_id job)) (map_to_list (sd_jobs d)) with SecretDb ;;
  bail? bool_decide (is_Some (sd_jobs d !! (id, key))) with SecretDb ;;
  bail? bool_decide (sd_secrets d !! id = None) with SecretDb ;;
  Ok (set_jobs (<[(id, key) := job]>) d))).
Definition record_job (state : str) (input : RotateSecret) (digest : bytes) (now : Z) : STx unit :=
  insert_job "record_job" (rs_secret_id input) (rs_idempotency_key input)
    {| job_id := hex_encode (cl_job_id c); job_state := state; job_reason := rs_reason input; job_created := now; job_digest := Some digest;
       job_previous := None; job_committed := None; job_verified := None |}.
Definition delete_job (id key : str) : STx unit := statement "delete_job" (fun d => Ok (set_jobs (delete (id, key)) d)).

Definition advanced (version now : Z) (r : Secret) : Secret :=
  let 'MkSecret t p e b sv n ty de tg st _ cb cr _ _ ex ac del := r in MkSecret t p e b sv n ty de tg st version cb cr now (Some now) ex ac del.

(** How the transaction of a rotation ends: left open (and dropped), or committed. *)
Inductive Ending : Type := Replayed (o : RotateOutcome) | Rotated (o : RotateOutcome) | Refused.
Definition committing (m : STx Ending) : STx Ending := fun d =>
  match m d with
  | (Ok (Replayed o), _) => (Ok (Replayed o), d)
  | (Ok e, d') => if cl_fails c "commit" then (Err SecretDb, d) else (Ok e, d')
  | (Err e, _) => (Err e, d)
  end.

Definition rotate_version (verifier : RotationVerifier) (claims : ScopeClaims) (input : RotateSecret) (view : SecretView) (digest : bytes)
  : STx Ending :=
  do t <- tret (id16 (v_tenant_id view) "tenant") ;;
  do p <- tret (id16 (v_project_id view) "project") ;;
  do e <- tret (id16 (v_environment_id view) "environment") ;;
  do s <- tret (id16 (v_secret_id view) "secret") ;;
  let next_version := v_current_version view + 1 in
  if (next_version >? u32_max) || (next_version <? 0) then tret (Err (SecretInvalid (lit "secret version limit reached"))) else
  do sealed <- tret (seal_version c t p e s (version_u32 next_version) (rs_new_value input)) ;;
  let now := cl_now c "write" in
  ensure_kek_row (v_tenant_id view) (v_project_id view) now ;;;
  insert_version (rs_secret_id input) next_version
    {| ver_id := id_to_hex (cl_version_id c); ver_key := kek_id; ver_nonce := sp_nonce sealed; ver_ciphertext := sp_ciphertext sealed;
       ver_digest := sha256 (rs_new_value input); ver_wrapped := sp_wrapped_dek sealed; ver_created_by := Policy.principal_id claims;
       ver_created := now |} ;;;
  update_secret "advance" (rs_secret_id input) now (advanced next_version now) ;;;
  insert_job "insert_job" (rs_secret_id input) (rs_idempotency_key input)
    {| job_id := hex_encode (cl_job_id c); job_state := lit "committed"; job_reason := rs_reason input; job_created := now;
       job_digest := Some digest; job_previous := Some (v_current_version view); job_committed := Some next_version;
       job_verified := Some (provider_verified verifier) |} ;;;
  audit_view SecretRotated view next_version (Policy.principal_id claims) (rs_request_id input) (rs_reason input) now ;;;
  tret (Ok (Rotated {| ro_secret_id := rs_secret_id input; ro_previous_version := v_current_version view;
                       ro_current_version := next_version; ro_provider_verified := provider_verified verifier |})).

Definition rotate_secret (verifier : RotationVerifier) (claims : ScopeClaims) (attrs : RequestAttributes) (input : RotateSecret)
  : STx RotateOutcome :=
  query "begin" (fun _ => tt) ;;;
  do ending <- committing (
    do view <- resolve_secret "resolve" (rs_secret_id input) ;;
    authorized "rotate" claims Policy.RotateSecret (target_from_view view) attrs ;;;
    if is_blank (rs_idempotency_key input) || (str_len (rs_idempotency_key input) >? 128)
    then tret (Err (SecretInvalid (lit "idempotency_key must be 1-128 characters"))) else
    let digest := rotation_request_digest claims input (provider_verified verifier) in
    let fresh :=
      if rv_verify verifier (rs_new_value input) then rotate_version verifier claims input view digest
      else record_job (lit "rolled_back") input digest (cl_now c "record") ;;; tret (Ok Refused) in
    do job <- existing_job (rs_secret_id input) (rs_idempotency_key input) ;;
    match job with
    | None => fresh
    | Some job =>
        if negb (bool_decide (job_digest job = Some digest)) then tret (Err IdempotencyConflict) else
        if bool_decide (job_state job = lit "committed") then
          tret match job_previous job, job_committed job, job_verified job with
               | Some previous, Some current, Some verified =>
                   Ok (Replayed {| ro_secret_id := rs_secret_id input; ro_previous_version := previous; ro_current_version := current;
                                   ro_provider_verified := verified |})
               | _, _, _ => Err IdempotencyConflict
               end
        else delete_job (rs_secret_id input) (rs_idempotency_key input) ;;; fresh
    end) ;;
  tret match ending with Replayed o | Rotated o => Ok o | Refused => Err VerificationFailed end.
End Call.
End Secrets.
