(* ===== verification/SecretsTheory.v ===== *)
(** * Scoped secrets keep their values

    The store refines a plain map from identifiers to values: whatever statements fail,
    a live secret opens to the value that was last written to it, a move seals it again
    under its new scope, and a deleted secret is gone. *)

From S2P Require Import Prelude Errors Sorting Tables Primitives SamplePrimitives Names Crypto Redact Policy AuditChain Grants Migration Secrets.

#[local] Open Scope tx_scope.

(** ** Programs that only read *)

Lemma reads_when {A} (o : option A) (f : A -> STx unit) : (forall a, reads (f a)) -> reads (when_some o f).
Proof. intros H. destruct o; [apply H|apply reads_ret]. Qed.

Create HintDb reading.
#[export] Hint Resolve reads_bind reads_ret reads_query reads_when : reading.
Ltac reading := repeat first [ apply reads_bind; intros | apply reads_query | apply reads_ret | apply reads_when; intros ]; try done.

(** ** Requests *)

Inductive SecretAct : Type :=
| Create (input : CreateSecret) | Metadata (id : str) | Value (id request : str) | Listing (filter_ : SecretListFilter)
| Update (id : str) (patch : UpdateSecretMetadata) (request : str) | Delete (id reason request : str)
| Move (id : str) (input : MoveSecret) | Rebind (id : str) (input : RebindSecret)
| Rotate (verifier : RotationVerifier) (input : RotateSecret).
Inductive SecretAnswer : Type :=
| AView (view : SecretView) | AValue (value : SecretValueView) | AViews (views : list SecretView) | ADone | ARotated (o : RotateOutcome).
Record Request : Type := { rq_call : SCall; rq_claims : ScopeClaims; rq_attrs : RequestAttributes; rq_act : SecretAct }.

Definition tmap {S E A B} (f : A -> B) (m : Tx S E A) : Tx S E B := do a <- m ;; tret (Ok (f a)).
Lemma hoare_tmap {S E A B} (I : S -> Prop) (f : A -> B) (m : Tx S E A) d Q : hoare I m d (fun a => Q (f a)) -> hoare I (tmap f m) d Q.
Proof. unfold hoare, tmap, tbind. by destruct (m d) as [[a|e] d']. Qed.

Section Theory.
Context {HX : Hex} {SH : Sha256} {JS : Json} {XC : XChaCha} {XL : XChaChaLaws XC} {SJ : SecretJson}.
Context {S : Type} {K : KeyWrappingService S} {KL : KeyWrappingLaws S K}.
Variables (wrap : S) (kek_id : str).
(** The service wraps under the key that the versions name, in a nonce of 24 bytes and a
    blob with its tag. *)
Hypothesis wrap_names_key : forall nonce dek w, length nonce = 24%nat -> wrap_dek nonce wrap dek = Ok w ->
  wrapped_kek_id w = kek_id /\ length (wrapped_nonce w) = 24%nat /\ TAG_SIZE <= blen (wrapped_blob w).

Definition draws_ok (c : SCall) : Prop := length (cl_nonce c) = 24%nat /\ length (cl_wrap_nonce c) = 24%nat.

(** A row opens to a value under its own scope. *)
Definition opens (id : str) (r : Secret) (versions : gmap (str * Z) Version) (m : bytes) : Prop := exists ver,
  versions !! (id, sec_version r) = Some ver /\ ver_digest ver = sha256 m /\
  open_version wrap (secret_view_from_row id r) ver = Ok m.

Record scope_of (view : SecretView) (t p e s : bytes) : Prop := {
  so_tenant : id16 (v_tenant_id view) "tenant" = Ok t; so_project : id16 (v_project_id view) "project" = Ok p;
  so_env : id16 (v_environment_id view) "environment" = Ok e; so_secret : id16 (v_secret_id view) "secret" = Ok s;
}.
Lemma seal_opens c view t p e s m sealed ver :
  draws_ok c -> scope_of view t p e s ->
  seal_version wrap c t p e s (version_u32 (v_current_version view)) m = Ok sealed ->
  ver_key ver = kek_id -> ver_nonce ver = sp_nonce sealed -> ver_ciphertext ver = sp_ciphertext sealed ->
  ver_wrapped ver = sp_wrapped_dek sealed -> open_version wrap view ver = Ok m.
Proof.
  intros (Hn & Hw) [Ht Hp He Hs] Hseal Ek En Ec Ew. unfold seal_version in Hseal. cbv zeta in Hseal.
  destruct (seal_secret_value _ _ _ _) as [box|] eqn:Eb; [|done]. destruct (wrap_dek _ _ _) as [w|] eqn:Ed; [|done].
  injection Hseal as <-. cbn [sp_nonce sp_ciphertext sp_wrapped_dek] in *.
  destruct (wrap_names_key _ _ _ Hw Ed) as (Hk & Hl & Hb). unfold open_version. rewrite Ew, blen_app.
  replace (blen (wrapped_nonce w) + blen (wrapped_blob w) <? NONCE_SIZE + TAG_SIZE) with false
    by (symmetry; apply Z.ltb_ge; unfold NONCE_SIZE; unfold blen at 1; lia).
  change (Z.to_nat NONCE_SIZE) with 24%nat. rewrite take_app_length', drop_app_length' by done. rewrite Ek, <- Hk.
  pose proof (envelope_roundtrip wrap _ _ _ _ _ w box Ed Eb) as Hr.
  replace {| wrapped_kek_id := wrapped_kek_id w; wrapped_nonce := wrapped_nonce w; wrapped_blob := wrapped_blob w |} with w by (by destruct w).
  destruct (unwrap_dek wrap w) as [key|]; [|done]. cbn in Hr |- *. rewrite En.
  assert (sealed_nonce box = cl_nonce c) as Hbn.
  { unfold seal_secret_value in Eb. destruct (encrypt_with_nonce _ _ _ _); [|done]. by injection Eb as <-. }
  replace (blen (sealed_nonce box) =? NONCE_SIZE) with true by (symmetry; apply Z.eqb_eq; unfold blen, NONCE_SIZE; rewrite Hbn; lia).
  rewrite Ht, Hp, He, Hs, Ec. cbn. replace {| sealed_nonce := sealed_nonce box; sealed_ciphertext := sealed_ciphertext box |} with box by (by destruct box).
  by rewrite Hr.
Qed.

(** ** The plain map *)

Abbreviation Vault := (gmap str bytes).
Definition holds (d : SDb) (v : Vault) : Prop := forall id : str,
  match sd_secrets d !! id with
  | Some r => match sec_deleted r with
              | None => exists m, v !! id = Some m /\ opens id r (sd_versions d) m
              | Some _ => v !! id = None
              end
  | None => v !! id = None
  end.

Lemma holds_frame d d' v : sd_secrets d' = sd_secrets d -> sd_versions d' = sd_versions d -> holds d v -> holds d' v.
Proof. unfold holds. by intros -> ->. Qed.
(** The columns that a value depends on. *)
Definition anchor (r : Secret) : str * str * str * Z * option Z := (sec_tenant r, sec_project r, sec_env r, sec_version r, sec_deleted r).
Lemma opens_anchor id r r' versions m : anchor r' = anchor r -> opens id r versions m -> opens id r' versions m.
Proof.
  unfold anchor, opens, open_version. intros [= Et Ep Ee Ev _] (ver & Hl & Hd & Ho). exists ver.
  cbn in *. rewrite Et, Ep, Ee, Ev. done.
Qed.
Lemma holds_alter d v (f : Secret -> Secret) (id : str) :
  (forall r, sd_secrets d !! id = Some r -> anchor (f r) = anchor r) -> holds d v -> holds (set_sec (alter f id) d) v.
Proof.
  intros Hf H id'. specialize (H id'). destruct d as [au pr sv bd secs vers keys jobs evs]; cbn in *. destruct (decide (id' = id)) as [->|Hne]; [|by rewrite lookup_alter_ne].
  rewrite lookup_alter_eq. destruct (secs !! id) as [r|]; [|done]. cbn. specialize (Hf r eq_refl).
  assert (sec_deleted (f r) = sec_deleted r) as -> by exact (f_equal snd Hf).
  destruct (sec_deleted r); [done|]. destruct H as (m & Hm & Ho). exists m. split; [done|]. eapply opens_anchor; [exact Hf|exact Ho].
Qed.
Lemma opens_insert id r versions m key ver :
  versions !! key = None -> opens id r versions m -> opens id r (<[key := ver]> versions) m.
Proof.
  intros Hk (ver' & Hl & Ho). exists ver'. split; [|done]. rewrite lookup_insert_ne; [done|]. by intros ->; rewrite Hk in Hl.
Qed.
Lemma holds_version d v key ver : sd_versions d !! key = None -> holds d v -> holds (set_versions (<[key := ver]>) d) v.
Proof.
  intros Hk H id. specialize (H id). destruct d as [au pr sv bd secs vers keys jobs evs]; cbn in *. destruct (_ !! id) as [r|]; [|done]. destruct (sec_deleted r); [done|].
  destruct H as (m & Hm & Ho). exists m. split; [done|]. by apply opens_insert.
Qed.
(** A live row that points to a new version, which opens to a value. *)
Lemma holds_set d v id r' ver m :
  sd_versions d !! (id, sec_version r') = None -> sec_deleted r' = None -> ver_digest ver = sha256 m ->
  open_version wrap (secret_view_from_row id r') ver = Ok m -> holds d v ->
  holds (set_sec (<[id := r']>) (set_versions (<[(id, sec_version r') := ver]>) d)) (<[id := m]> v).
Proof.
  intros Hn Hd Hdig Ho H id'. apply (holds_version _ _ _ ver Hn) in H. specialize (H id'). destruct d as [au pr sv bd secs vers keys jobs evs]; cbn in *. destruct (decide (id' = id)) as [->|Hne].
  - rewrite lookup_insert_eq, Hd. exists m. split; [apply lookup_insert_eq|]. exists ver. split; [apply lookup_insert_eq|done].
  - rewrite lookup_insert_ne, lookup_insert_ne by done. exact H.
Qed.

(** ** The statements *)

Section Calls.
Variable c : SCall.
Abbreviation transaction := (transaction c).

Lemma reads_authorized at_ claims action target attrs : reads (authorized c at_ claims action target attrs).
Proof. done. Qed.
Lemma reads_resolve at_ id : reads (resolve_secret c at_ id).
Proof. unfold resolve_secret, query. reading. Qed.
Lemma resolve_ok at_ id d view :
  resolve_secret c at_ id d = (Ok view, d) ->
  exists r, sd_secrets d !! id = Some r /\ sec_deleted r = None /\ view = secret_view_from_row id r.
Proof.
  unfold resolve_secret, query, tbind, query_if. destruct (cl_fails c at_); [done|]. cbn. destruct (_ !! id) as [r|] eqn:E; [|done].
  case_bool_decide as Hd; [|done]. unfold tret. intros [= <-]. eauto.
Qed.
Lemma reads_binding id t p : reads (require_active_binding c id t p).
Proof. unfold require_active_binding, query. reading. Qed.
Lemma reads_service id t p : reads (require_scoped_service c id t p).
Proof. unfold require_scoped_service, query. reading. Qed.
Lemma reads_environment id t p : reads (require_scoped_environment c id t p).
Proof. unfold require_scoped_environment, query. reading. Qed.
Lemma reads_row id what : reads (require_row c id what).
Proof. unfold require_row, query. reading. Qed.
Lemma reads_open view : reads (open_current_version wrap c view).
Proof. unfold open_current_version, query. reading. Qed.

Lemma hoare_statement (I : SDb -> Prop) name f d (Q : unit -> SDb -> Prop) :
  I d -> (forall d', f d = Ok d' -> Q tt d') -> hoare I (statement c name f) d Q.
Proof. intros Hd HQ. unfold hoare, statement. destruct (cl_fails c name); [done|]. destruct (f d); auto. Qed.
Lemma stamped_ok now f d d' : stamped now f d = Ok d' -> f d = Ok d'.
Proof. unfold stamped. by rewrite bail_ok; intros (_ & ?). Qed.
Lemma hoare_transaction {A} (I : SDb -> Prop) (m : STx A) d Q :
  I d -> hoare (fun _ => True) m d Q -> hoare I (transaction m) d Q.
Proof.
  intros Hd Hm. unfold Secrets.transaction. eapply hoare_bind; [apply (hoare_query _ _ _ _ _ (fun _ d' => d' = d)); done|].
  intros u d' ->. by apply hoare_atomically.
Qed.

(** Statements that leave secrets and versions alone. *)
Definition same (d d' : SDb) : Prop := sd_secrets d' = sd_secrets d /\ sd_versions d' = sd_versions d.
Lemma same_refl d : same d d.
Proof. done. Qed.
Lemma same_trans d1 d2 d3 : same d1 d2 -> same d2 d3 -> same d1 d3.
Proof. unfold same. intuition congruence. Qed.
Lemma hoare_kek t p now d : hoare (fun _ => True) (ensure_kek_row kek_id c t p now) d (fun _ => same d).
Proof.
  apply hoare_statement; [done|]. intros d' H%stamped_ok. destruct (bool_decide _); [by injection H as <-|].
  apply bail_ok in H as (_ & [= <-]). by destruct d.
Qed.
Lemma hoare_event event t p e id v pr rq re now d :
  hoare (fun _ => True) (audit c event t p e id v pr rq re now) d (fun _ => same d).
Proof. apply hoare_statement; [done|]. intros d' H. destruct (audit_secret_event _ _ _ _); [|done]. injection H as <-. by destruct d. Qed.
Lemma hoare_job name id key job d : hoare (fun _ => True) (insert_job c name id key job) d (fun _ => same d).
Proof.
  apply hoare_statement; [done|]. intros d' H%stamped_ok. repeat (apply bail_ok in H as (_ & H)). injection H as <-. by destruct d.
Qed.
Lemma hoare_delete_job id key d : hoare (fun _ => True) (delete_job c id key) d (fun _ => same d).
Proof. apply hoare_statement; [done|]. intros d' [= <-]. by destruct d. Qed.
Lemma holds_same d d' v : same d d' -> holds d v -> holds d' v.
Proof. intros (? & ?). by apply holds_frame. Qed.

(** A new version row, at a number that was free. *)
Lemma hoare_insert_version id version ver d :
  hoare (fun _ => True) (insert_version c id version ver) d (fun _ d' =>
    sd_versions d !! (id, version) = None /\ d' = set_versions (<[(id, version) := ver]>) d).
Proof.
  apply hoare_statement; [done|]. intros d' H%stamped_ok. apply bail_ok in H as (_ & H). apply bail_ok in H as (Hn & H).
  apply bail_ok in H as (_ & H). injection H as <-. split; [|done]. apply bool_decide_eq_false in Hn. by apply eq_None_not_Some.
Qed.
Lemma hoare_update_row name id now f d :
  hoare (fun _ => True) (update_secret c name id now f) d (fun _ d' => d' = set_sec (alter f id) d).
Proof. apply hoare_statement; [done|]. by intros d' [= <-]%stamped_ok. Qed.

Lemma holds_row d v id r : holds d v -> sd_secrets d !! id = Some r -> sec_deleted r = None -> exists m, v !! id = Some m /\ opens id r (sd_versions d) m.
Proof. intros Hd Hr Hl. pose proof (Hd id) as H. by rewrite Hr, Hl in H. Qed.
Lemma open_current d v id r m : holds d v -> sd_secrets d !! id = Some r -> sec_deleted r = None ->
  open_current_version wrap c (secret_view_from_row id r) d = (Ok m, d) -> v !! id = Some m.
Proof.
  intros Hd Hr Hl Ho. destruct (holds_row d v id r Hd Hr Hl) as (m' & Hm & ver & Hv & _ & Hop).
  unfold open_current_version, query, tbind, query_if in Ho. destruct (cl_fails c _); [done|]. cbn [fst snd v_secret_id v_current_version secret_view_from_row] in Ho.
  rewrite Hv in Ho. cbn in Ho. unfold tret in Ho. rewrite Hop in Ho. congruence.
Qed.

(** ** The operations *)

Variables (v : Vault) (d : SDb).
Hypothesis Hd : holds d v.
Abbreviation inv := (fun d' : SDb => holds d' v).

(** A transaction that updates one row without touching what its value depends on, and
    writes an audit event. *)
Lemma keeps_update (m : STx unit) id f event view version principal request reason now :
  (forall r, anchor (f r) = anchor r) ->
  hoare (fun _ => True) m d (fun _ d' => d' = set_sec (alter f id) d) ->
  hoare inv (transaction (m ;;; audit_view c event view version principal request reason now)) d (fun _ => inv).
Proof.
  intros Hf Hm. apply hoare_transaction; [done|]. eapply hoare_bind; [exact Hm|]. intros u d' ->.
  eapply hoare_mono; [apply hoare_event|]. intros u' d'' Hs. eapply holds_same; [exact Hs|]. by apply holds_alter.
Qed.

Lemma get_value_ok claims attrs id request :
  hoare inv (get_secret_value wrap c claims attrs id request) d (fun vv d' => holds d' v /\ v !! id = Some (vv_value vv)).
Proof.
  unfold get_secret_value. apply hoare_read_bind; [apply reads_resolve|done|]. intros view (r & Hr & Hl & ->)%resolve_ok.
  apply hoare_read_bind; [apply reads_authorized|done|]. intros u _.
  apply hoare_read_bind; [apply reads_open|done|]. intros m Hm%(open_current _ _ _ _ _ Hd Hr Hl). cbv zeta.
  eapply hoare_bind; [eapply keeps_update; [|apply hoare_update_row]; by intros []|]. intros u' d' Hd'. by apply hoare_done.
Qed.
Lemma update_metadata_ok claims attrs id patch request :
  hoare inv (update_secret_metadata c claims attrs id patch request) d (fun _ => inv).
Proof.
  unfold update_secret_metadata. apply hoare_read_bind; [apply reads_resolve|done|]. intros view _.
  do 5 (apply hoare_read_bind; [reading|done|intros ? _]). cbv zeta.
  eapply hoare_bind; [eapply keeps_update; [|apply hoare_statement; [done|]]|].
  2: { intros d' H%stamped_ok. apply bail_ok in H as (_ & H). by injection H as <-. }
  - intros []. reflexivity.
  - intros u d' Hd'. apply hoare_reads; [apply reads_resolve|done|done].
Qed.
Lemma rebind_ok claims attrs id input : hoare inv (rebind_secret c claims attrs id input) d (fun _ => inv).
Proof.
  unfold rebind_secret. apply hoare_read_bind; [apply reads_resolve|done|]. intros view _.
  apply hoare_read_bind; [apply reads_authorized|done|intros ? _]. destruct (is_blank _); [by apply hoare_ret|].
  apply hoare_read_bind; [apply reads_when; intros; apply reads_binding|done|intros ? _].
  apply hoare_read_bind; [apply reads_when; intros; apply reads_service|done|intros ? _]. cbv zeta.
  apply hoare_read_bind; [apply reads_authorized|done|intros ? _].
  eapply hoare_bind; [eapply keeps_update; [|apply hoare_statement; [done|]]|].
  2: { intros d' H%stamped_ok. apply bail_ok in H as (_ & H). by injection H as <-. }
  - intros []. reflexivity.
  - intros u d' Hd'. apply hoare_reads; [apply reads_resolve|done|done].
Qed.
Lemma delete_ok claims attrs id reason request :
  hoare inv (delete_secret c claims attrs id reason request) d (fun _ d' => is_Some (v !! id) /\ holds d' (delete id v)).
Proof.
  unfold delete_secret. apply hoare_read_bind; [apply reads_resolve|done|]. intros view (r & Hr & Hl & ->)%resolve_ok.
  apply hoare_read_bind; [apply reads_authorized|done|intros ? _]. destruct (is_blank _); [by apply hoare_ret|]. cbv zeta.
  apply hoare_transaction; [done|]. eapply hoare_bind; [apply hoare_update_row|]. intros u d' ->.
  eapply hoare_mono; [apply hoare_event|]. intros u' d'' Hs.
  split; [destruct (holds_row _ _ _ _ Hd Hr Hl) as (m & Hm & _); eauto|]. eapply holds_same; [exact Hs|].
  intros id'. pose proof (Hd id') as H. clear Hs. destruct d as [au pr sv bd secs vers keys jobs evs]. cbn in *.
  destruct (decide (id' = id)) as [->|Hne].
  - rewrite lookup_alter_eq, Hr, lookup_delete_eq. by destruct r.
  - by rewrite lookup_alter_ne, lookup_delete_ne.
Qed.

(** A version that was sealed for a scope opens in every row of that scope. *)
Lemma sealed_opens_in r' id t p e s m sealed ver :
  draws_ok c -> id16 (sec_tenant r') "tenant" = Ok t -> id16 (sec_project r') "project" = Ok p ->
  id16 (sec_env r') "environment" = Ok e -> id16 id "secret" = Ok s ->
  seal_version wrap c t p e s (version_u32 (sec_version r')) m = Ok sealed ->
  ver_key ver = kek_id -> ver_nonce ver = sp_nonce sealed -> ver_ciphertext ver = sp_ciphertext sealed ->
  ver_wrapped ver = sp_wrapped_dek sealed -> open_version wrap (secret_view_from_row id r') ver = Ok m.
Proof. intros Hc Ht Hp He Hs Hseal. eapply seal_opens; [exact Hc|by split|exact Hseal]. Qed.
Lemma tret_run {A} (r : result SecretError A) (d' : SDb) a : tret r d' = (Ok a, d') -> r = Ok a.
Proof. unfold tret. by intros [= ->]. Qed.

Lemma alter_insert (f : Secret -> Secret) (id : str) r (d' : SDb) :
  sd_secrets d' !! id = Some r -> set_sec (alter f id) d' = set_sec (<[id := f r]>) d'.
Proof.
  intros Hr. destruct d' as [au pr sv bd secs vers keys jobs evs]. cbn in *. f_equal. apply map_eq. intros k.
  destruct (decide (k = id)) as [->|Hne]; [rewrite lookup_alter_eq, Hr, lookup_insert_eq|rewrite lookup_alter_ne, lookup_insert_ne by done]; done.
Qed.

Lemma reseal_ok claims id r env next now d1 :
  draws_ok c -> same d d1 -> sd_secrets d !! id = Some r -> sec_deleted r = None ->
  hoare (fun _ => True) (reseal wrap kek_id c claims (secret_view_from_row id r) env next now) d1 (fun _ d2 => exists m ver,
    v !! id = Some m /\ sd_versions d1 !! (id, next) = None /\ d2 = set_versions (<[(id, next) := ver]>) d1 /\ ver_digest ver = sha256 m /\
    forall r', sec_tenant r' = sec_tenant r -> sec_project r' = sec_project r -> sec_env r' = env -> sec_version r' = next ->
      open_version wrap (secret_view_from_row id r') ver = Ok m).
Proof.
  intros Hc Hs Hr Hl. pose proof (holds_same _ _ _ Hs Hd) as Hd1. destruct Hs as (Es & _). rewrite <- Es in Hr. unfold reseal.
  apply hoare_read_bind; [apply reads_open|done|]. intros m Hm%(open_current _ _ _ _ _ Hd1 Hr Hl).
  do 4 (apply hoare_read_bind; [apply reads_ret|done|intros ? ?%tret_run]).
  apply hoare_read_bind; [apply reads_ret|done|intros sealed Hseal%tret_run].
  eapply hoare_mono; [apply hoare_insert_version|]. intros u d2 (Hn & ->). cbn in Hn. eexists m, _.
  split; [done|]. split; [exact Hn|]. split; [reflexivity|]. split; [done|]. intros r' Et Ep Ee Ev.
  eapply sealed_opens_in; try done; rewrite ?Et, ?Ep, ?Ee, ?Ev; done.
Qed.

Lemma move_ok claims attrs id input :
  draws_ok c -> hoare inv (move_secret wrap kek_id c claims attrs id input) d (fun _ => inv).
Proof.
  intros Hc. unfold move_secret. apply hoare_read_bind; [apply reads_resolve|done|]. intros view (r & Hr & Hl & ->)%resolve_ok.
  apply hoare_read_bind; [apply reads_authorized|done|intros ? _]. destruct (is_blank _); [by apply hoare_ret|].
  apply hoare_read_bind; [apply reads_when; intros; apply reads_ret|done|intros ? _].
  apply hoare_read_bind; [apply reads_when; intros; apply reads_environment|done|intros ? _].
  destruct (bool_decide _); [by apply hoare_ret|]. cbv zeta.
  apply hoare_read_bind; [apply reads_authorized|done|intros ? _].
  eapply (hoare_bind _ _ _ _ (fun _ => inv)); [|intros u d' Hd'; apply hoare_reads; [apply reads_resolve|done|done]].
  apply hoare_transaction; [done|]. eapply hoare_bind; [apply hoare_kek|]. intros u1 d1 Hs1.
  eapply (hoare_bind _ _ _ _ (fun _ => inv)).
  - set (env := default _ (mo_new_environment_id input)). set (name := default _ (mo_new_name input)).
    destruct (negb _) eqn:Erescope.
    + eapply hoare_bind; [apply (reseal_ok _ _ r); done|]. intros u2 d2 (m & ver & Hm & Hn & -> & Hdig & Hop).
      apply hoare_statement; [done|]. intros d' H%stamped_ok. apply bail_ok in H as (_ & H). apply bail_ok in H as (_ & H).
      injection H as <-. rewrite (alter_insert _ _ r) by (destruct Hs1 as (Es & _), d1; cbn in *; by rewrite Es).
      rewrite <- (insert_id v id m Hm). set (r' := renamed _ _ _ _ r).
      assert (sec_version r' = as_i64 (sec_version r + 1)) as Ev by (by destruct r). cbn [v_current_version secret_view_from_row] in Hn |- *.
      rewrite <- Ev in Hn |- *. apply holds_set; [done|by destruct r|done|apply Hop; by destruct r|exact (holds_same _ _ _ Hs1 Hd)].
    + apply negb_false_iff, bool_decide_eq_true in Erescope. apply hoare_statement; [done|]. intros d' H%stamped_ok.
      apply bail_ok in H as (_ & H). apply bail_ok in H as (_ & H). injection H as <-.
      apply holds_alter; [|exact (holds_same _ _ _ Hs1 Hd)]. intros r0 Hr0. destruct Hs1 as (Es & _). rewrite Es, Hr in Hr0. injection Hr0 as <-.
      unfold anchor. rewrite Erescope. by destruct r.
  - intros u2 d2 Hd2. eapply hoare_read_bind; [apply reads_resolve|done|]. intros view _. eapply hoare_mono; [apply hoare_event|].
    intros u3 d3 Hs3. exact (holds_same _ _ _ Hs3 Hd2).
Qed.

Lemma hoare_committing (I : SDb -> Prop) m (P : Ending -> SDb -> Prop) :
  I d -> hoare (fun _ => True) m d P ->
  hoare I (committing c m) d (fun e d' => match e with Replayed _ => d' = d /\ exists d0, P e d0 | _ => P e d' end).
Proof.
  unfold hoare, committing. intros HI Hm. destruct (m d) as [[[o|o|]|e] d']; try done; [eauto|..]; by destruct (cl_fails c "commit").
Qed.

(** What a rotation leaves, by how its transaction ends. *)
Definition rotated (input : RotateSecret) (e : Ending) (d' : SDb) : Prop :=
  match e with Rotated _ => holds d' (<[rs_secret_id input := rs_new_value input]> v) | _ => holds d' v end.
Lemma rotate_version_ok verifier claims input r digest d1 :
  draws_ok c -> same d d1 -> sd_secrets d !! rs_secret_id input = Some r -> sec_deleted r = None ->
  hoare (fun _ => True) (rotate_version wrap kek_id c verifier claims input (secret_view_from_row (rs_secret_id input) r) digest) d1 (rotated input).
Proof.
  intros Hc Hs Hr Hl. pose proof (holds_same _ _ _ Hs Hd) as Hd1. set (id := rs_secret_id input) in *. unfold rotate_version.
  do 4 (apply hoare_read_bind; [apply reads_ret|done|intros ? ?%tret_run]). cbv zeta. destruct (_ || _); [done|].
  apply hoare_read_bind; [apply reads_ret|done|intros sealed Hseal%tret_run].
  eapply hoare_bind; [apply hoare_kek|]. intros u2 d2 Hs2. pose proof (holds_same _ _ _ Hs2 Hd1) as Hd2.
  eapply hoare_bind; [apply hoare_insert_version|]. intros u3 d3 (Hn & ->). eapply hoare_bind; [apply hoare_update_row|]. intros u4 d4 ->.
  eapply hoare_bind; [apply hoare_job|]. intros u5 d5 Hs5. eapply hoare_bind; [apply hoare_event|]. intros u6 d6 Hs6.
  apply hoare_done. cbn. apply (holds_same _ _ _ Hs6), (holds_same _ _ _ Hs5).
  rewrite (alter_insert _ _ r) by (destruct Hs as (E1 & _), Hs2 as (E2 & _), d2; cbn in *; by rewrite E2, E1).
  set (r' := advanced _ _ r). assert (sec_version r' = sec_version r + 1) as Ev by (by destruct r).
  cbn [v_current_version secret_view_from_row] in Hn, Hseal |- *. rewrite <- Ev in Hn, Hseal |- *.
  apply holds_set; [done|by destruct r|done| |done].
  eapply sealed_opens_in; try done; by destruct r.
Qed.
Lemma rotate_ok verifier claims attrs input :
  draws_ok c ->
  hoare inv (rotate_secret wrap kek_id c verifier claims attrs input) d (fun _ d' =>
    d' = d \/ is_Some (v !! rs_secret_id input) /\ holds d' (<[rs_secret_id input := rs_new_value input]> v)).
Proof.
  intros Hc. unfold rotate_secret. apply hoare_read_bind; [apply reads_query|done|intros ? _].
  eapply hoare_bind; [apply (hoare_committing _ _ (fun e d' => is_Some (v !! rs_secret_id input) /\ rotated input e d')); [done|]|].
  2: { intros [o|o|] d'; [by intros (-> & _); left|intros (Hv & Hr); right; by split|intros (_ & Hr); exact Hr]. }
  apply hoare_read_bind; [apply reads_resolve|done|]. intros view (r & Hr & Hl & ->)%resolve_ok.
  assert (is_Some (v !! rs_secret_id input)) as Hv by (destruct (holds_row _ _ _ _ Hd Hr Hl) as (m & Hm & _); eauto).
  apply hoare_read_bind; [apply reads_authorized|done|intros ? _]. destruct (_ || _); [done|]. cbv zeta.
  match goal with |- context [if rv_verify verifier _ then ?a else ?b] => set (fresh := if rv_verify verifier (rs_new_value input) then a else b) end.
  assert (forall d1, same d d1 -> hoare (fun _ => True) fresh d1 (fun e d' => is_Some (v !! rs_secret_id input) /\ rotated input e d')) as Hfresh.
  { intros d1 Hs. unfold fresh. destruct (rv_verify _ _).
    - eapply hoare_mono; [by apply (rotate_version_ok _ _ _ r)|]. by intros.
    - eapply hoare_bind; [apply hoare_job|]. intros u d2 Hs2. apply hoare_done. split; [done|]. exact (holds_same _ _ _ Hs2 (holds_same _ _ _ Hs Hd)). }
  apply hoare_read_bind; [apply reads_query|done|]. intros [job|] _; [|by apply Hfresh].
  destruct (negb _); [done|]. destruct (bool_decide _).
  - apply hoare_ret; [done|]. intros e He. split; [done|]. destruct (job_previous job), (job_committed job), (job_verified job); try done. by injection He as <-.
  - eapply hoare_bind; [apply hoare_delete_job|]. intros u d1 Hs. by apply Hfresh.
Qed.

Lemma insert_secret_ok id r :
  hoare (fun _ => True) (insert_secret c id r) d (fun _ d' => sd_secrets d !! id = None /\ d' = set_sec (<[id := r]>) d).
Proof.
  apply hoare_statement; [done|]. intros d' H%stamped_ok. apply bail_ok in H as (Hn & H). apply bail_ok in H as (_ & H).
  apply bail_ok in H as (_ & H). injection H as <-. split; [|done]. apply bool_decide_eq_false in Hn. by apply eq_None_not_Some.
Qed.
End Calls.

Lemma create_secret_ok c v d claims attrs input :
  holds d v -> draws_ok c ->
  hoare (fun d' => holds d' v \/ exists id, v !! id = None /\ holds d' (<[id := cs_value input]> v))
    (create_secret wrap kek_id c claims attrs input) d
    (fun view d' => v !! v_secret_id view = None /\ holds d' (<[v_secret_id view := cs_value input]> v)).
Proof.
  intros Hd Hc. unfold create_secret. apply hoare_read_bind; [apply reads_query|by left|]. intros [tenant|] _; [|apply hoare_ret; [by left|done]].
  cbv zeta. apply hoare_read_bind; [apply reads_authorized|by left|intros ? _].
  do 3 (apply hoare_read_bind; [apply reads_ret|by left|intros ? _]). destruct (is_blank _); [apply hoare_ret; [by left|done]|].
  apply hoare_read_bind; [apply reads_row|by left|intros ? _].
  apply hoare_read_bind; [apply reads_when; intros; apply reads_binding|by left|intros ? _].
  apply hoare_read_bind; [apply reads_when; intros; apply reads_service|by left|intros ? _].
  do 4 (apply hoare_read_bind; [apply reads_ret|by left|intros ? ?%tret_run]).
  apply hoare_read_bind; [apply reads_ret|by left|intros sealed Hseal%tret_run].
  apply hoare_read_bind; [apply reads_ret|by left|intros tags _].
  set (id := id_to_hex (cl_secret_id c)) in *.
  eapply (hoare_bind _ _ _ _ (fun _ d' => v !! id = None /\ holds d' (<[id := cs_value input]> v))).
  - apply hoare_transaction; [by left|]. eapply hoare_bind; [apply hoare_kek|]. intros u1 d1 Hs1.
    eapply hoare_bind; [apply insert_secret_ok|]. intros u2 d2 (Hn & ->).
    eapply hoare_bind; [apply hoare_insert_version|]. intros u3 d3 (Hnv & ->). eapply hoare_mono; [apply hoare_event|]. intros u4 d4 Hs4.
    pose proof (holds_same _ _ _ Hs1 Hd) as Hd1. split; [pose proof (Hd1 id) as H'; by rewrite Hn in H'|].
    apply (holds_same _ _ _ Hs4). clear Hs4. match goal with |- context [set_sec (<[id := ?x]>) _] => set (r := x) in * end.
    replace (set_versions _ (set_sec _ d1)) with (set_sec (<[id := r]>) (set_versions (<[(id, sec_version r) :=
      {| ver_id := id_to_hex (cl_version_id c); ver_key := kek_id; ver_nonce := sp_nonce sealed; ver_ciphertext := sp_ciphertext sealed;
         ver_digest := sha256 (cs_value input); ver_wrapped := sp_wrapped_dek sealed; ver_created_by := Policy.principal_id claims;
         ver_created := cl_now c "write" |}]>) d1)) by (by destruct d1).
    apply holds_set; [destruct d1; exact Hnv|done|done| |done]. eapply (sealed_opens_in c r); try done.
  - intros u d' (Hv & Hd'). apply hoare_reads; [apply reads_resolve|right; eauto|]. by intros view (r & _ & _ & ->)%resolve_ok.
Qed.

(** ** Histories *)

Definition perform (r : Request) : STx SecretAnswer :=
  let c := rq_call r in let claims := rq_claims r in let attrs := rq_attrs r in
  match rq_act r with
  | Create input => tmap AView (create_secret wrap kek_id c claims attrs input)
  | Metadata id => tmap AView (get_secret_metadata c claims attrs id)
  | Value id request => tmap AValue (get_secret_value wrap c claims attrs id request)
  | Listing filter_ => tmap AViews (list_secrets c claims attrs filter_)
  | Update id patch request => tmap AView (update_secret_metadata c claims attrs id patch request)
  | Delete id reason request => tmap (fun _ => ADone) (delete_secret c claims attrs id reason request)
  | Move id input => tmap AView (move_secret wrap kek_id c claims attrs id input)
  | Rebind id input => tmap AView (rebind_secret c claims attrs id input)
  | Rotate verifier input => tmap ARotated (rotate_secret wrap kek_id c verifier claims attrs input)
  end.
Definition run (h : list Request) (d : SDb) : SDb := foldl (fun d r => (perform r d).2) d h.

Lemma hoare_step {A} (m : STx A) d (Q : A -> SDb -> Prop) (E : SDb -> Prop) :
  hoare E m d Q -> match m d with (Ok a, d') => Q a d' | (Err _, d') => E d' end.
Proof. done. Qed.
End Theory.
