(* ===== verification/RotationTheory.v ===== *)
(** * Histories of secrets

    Versions, audit events and the receipts of rotations are only ever added; a rotation
    that is retried with its idempotency key returns its first answer and changes
    nothing; and the store refines a map from identifiers to values with the receipts of
    its rotations. *)

From S2P Require Import Prelude Errors Sorting Tables Primitives SamplePrimitives Names Crypto Redact Policy AuditChain Grants Migration Secrets SecretsTheory.

#[local] Open Scope tx_scope.

Section Histories.
Context {HX : Hex} {SH : Sha256} {JS : Json} {XC : XChaCha} {SJ : SecretJson}.
Context {S : Type} {K : KeyWrappingService S}.
Variables (wrap : S) (kek_id : str).

(** ** Programs that only make moves of a preorder *)

Section Moves.
Context (R : relation SDb) `{!PreOrder R}.

Lemma moves_transaction {A} c (m : STx A) : moves R m -> moves R (transaction c m).
Proof.
  intros Hm. apply (moves_bind R); [by apply (moves_reads R)|]. intros _. by apply (moves_atomically R).
Qed.
Lemma moves_committing c m d : R d (m d).2 -> R d (committing c m d).2.
Proof. intros Hm. unfold committing. destruct (m d) as [[[o|o|]|e] d']; cbn in *; try done; by destruct (cl_fails c "commit"). Qed.
Lemma moves_statement c name f : (forall d d', f d = Ok d' -> R d d') -> moves R (statement c name f).
Proof. intros Hf d. unfold statement. destruct (cl_fails c name); [done|]. destruct (f d) eqn:E; [by apply Hf|done]. Qed.
Lemma moves_when {A} (o : option A) (f : A -> STx unit) : (forall a, moves R (f a)) -> moves R (when_some o f).
Proof. intros Hf. destruct o; [apply Hf|by apply (moves_reads R)]. Qed.
End Moves.

(** ** Tables that only grow *)

Definition committed (job : RotationJob) : Prop := job_state job = lit "committed".
Record grows (d d' : SDb) : Prop := {
  gr_versions : sd_versions d ⊆ sd_versions d';
  gr_keys : sd_keys d ⊆ sd_keys d';
  gr_events : prefix (sd_events d) (sd_events d');
  gr_jobs : forall key job, sd_jobs d !! key = Some job -> committed job -> sd_jobs d' !! key = Some job;
}.
#[local] Instance grows_preorder : PreOrder grows.
Proof.
  split; [by split|]. intros d1 d2 d3 [H1 H2 H3 H4] [G1 G2 G3 G4]. split; [by etrans..|]. eauto.
Qed.
Abbreviation adds := (moves grows).

Section Statements.
Variable c : SCall.
Lemma grows_sec f d : grows d (set_sec f d).
Proof. by destruct d. Qed.
Lemma adds_update name id now f : adds (update_secret c name id now f).
Proof. apply (moves_statement grows). intros d d' [= <-]%stamped_ok. apply grows_sec. Qed.
Lemma adds_kek t p now : adds (ensure_kek_row kek_id c t p now).
Proof.
  apply (moves_statement grows). intros d d' H%stamped_ok. destruct (bool_decide _) eqn:Ek; [by injection H as <-|].
  apply bail_ok in H as (_ & [= <-]). split; destruct d; cbn in *; try done. apply insert_subseteq.
  apply bool_decide_eq_false in Ek. by apply eq_None_not_Some.
Qed.
Lemma adds_audit event t p e id v pr rq re now : adds (audit c event t p e id v pr rq re now).
Proof.
  apply (moves_statement grows). intros d d' H. destruct (audit_secret_event _ _ _ _) as [t'|] eqn:E; [|done]. injection H as <-.
  split; destruct d; cbn in *; [done|done| |done]. unfold audit_secret_event in E. apply bail_ok in E as (_ & E). apply bail_ok in E as (_ & E).
  injection E as <-. by eexists.
Qed.
Lemma adds_insert_secret id r : adds (insert_secret c id r).
Proof. apply (moves_statement grows). intros d d' H%stamped_ok. repeat (apply bail_ok in H as (_ & H)). injection H as <-. apply grows_sec. Qed.
Lemma adds_insert_version id version ver : adds (insert_version c id version ver).
Proof.
  apply (moves_statement grows). intros d d' H%stamped_ok. apply bail_ok in H as (_ & H). apply bail_ok in H as (Hn & H).
  apply bail_ok in H as (_ & H). injection H as <-. split; destruct d; cbn in *; try done.
  apply insert_subseteq. apply bool_decide_eq_false in Hn. by apply eq_None_not_Some.
Qed.
Lemma adds_job name id key job : adds (insert_job c name id key job).
Proof.
  apply (moves_statement grows). intros d d' H%stamped_ok. apply bail_ok in H as (_ & H). apply bail_ok in H as (Hn & H).
  apply bail_ok in H as (_ & H). injection H as <-. split; destruct d; cbn in *; try done.
  intros k j Hk _. rewrite lookup_insert_ne; [done|]. intros <-. apply bool_decide_eq_false in Hn. destruct Hn. by rewrite Hk.
Qed.
(** Only a receipt that is not committed is removed. *)
Lemma adds_delete_job id key d : (forall job, sd_jobs d !! (id, key) = Some job -> ~ committed job) -> grows d (delete_job c id key d).2.
Proof.
  intros Hj. unfold delete_job, statement. destruct (cl_fails c _); [done|]. split; destruct d; cbn in *; try done.
  intros k j Hk Hc. rewrite lookup_delete_ne; [done|]. intros <-. by eapply Hj.
Qed.
End Statements.

Ltac moving R leaf := repeat first
  [ apply (moves_transaction R) | leaf | apply (moves_when R); intros | apply (moves_bind R); intros
  | match goal with |- moves _ (match ?x with _ => _ end) => destruct x end | apply (moves_reads R); done ].
Ltac adding := moving grows ltac:(first
  [ apply adds_update | apply adds_kek | apply adds_audit | apply adds_insert_secret | apply adds_insert_version | apply adds_job ]).
Lemma adds_create c claims attrs input : adds (create_secret wrap kek_id c claims attrs input).
Proof. unfold create_secret. cbv zeta. adding. Qed.
Lemma adds_update_metadata c claims attrs id patch request : adds (update_secret_metadata c claims attrs id patch request).
Proof.
  unfold update_secret_metadata. cbv zeta. adding. apply (moves_statement grows). intros d d' H%stamped_ok. apply bail_ok in H as (_ & H).
  injection H as <-. apply grows_sec.
Qed.
Lemma adds_rebind c claims attrs id input : adds (rebind_secret c claims attrs id input).
Proof.
  unfold rebind_secret. cbv zeta. adding. apply (moves_statement grows). intros d d' H%stamped_ok. apply bail_ok in H as (_ & H).
  injection H as <-. apply grows_sec.
Qed.
Lemma adds_rename c id view name env version now : adds (rename_secret c id view name env version now).
Proof.
  apply (moves_statement grows). intros d d' H%stamped_ok. apply bail_ok in H as (_ & H). apply bail_ok in H as (_ & H).
  injection H as <-. apply grows_sec.
Qed.
Lemma adds_move c claims attrs id input : adds (move_secret wrap kek_id c claims attrs id input).
Proof. unfold move_secret, reseal. cbv zeta. adding; apply adds_rename. Qed.
Lemma adds_rotate_version c verifier claims input view digest : adds (rotate_version wrap kek_id c verifier claims input view digest).
Proof. unfold rotate_version. cbv zeta. adding. Qed.
Lemma adds_rotate c verifier claims attrs input : adds (rotate_secret wrap kek_id c verifier claims attrs input).
Proof.
  unfold rotate_secret. apply (moves_bind grows); [by apply (moves_reads grows)|]. intros _. apply (moves_bind grows); [|intros; by apply (moves_reads grows)].
  intros d. apply (moves_committing grows). cbv zeta.
  assert (forall A B (m : STx A) (k : A -> STx B), reads m -> (forall a, m d = (Ok a, d) -> grows d (k a d).2) -> grows d (tbind m k d).2) as Hread.
  { intros A B m k Hm Hk. unfold tbind. pose proof (Hm d) as E. destruct (m d) as [[a|e] d'] eqn:Em; cbn in E; subst d'; [by apply Hk|done]. }
  apply Hread; [apply reads_resolve|]. intros view _. apply Hread; [done|]. intros _ _. destruct (_ || _); [done|].
  match goal with |- context [if rv_verify verifier _ then ?a else ?b] => set (fresh := if rv_verify verifier (rs_new_value input) then a else b) end.
  assert (adds fresh) as Hfresh by (unfold fresh; destruct (rv_verify _ _); [apply adds_rotate_version|adding]).
  apply Hread; [done|]. intros [job|] Ejob; [|apply Hfresh]. destruct (negb _); [done|]. destruct (bool_decide _) eqn:Ecm; [done|].
  apply bool_decide_eq_false in Ecm. unfold existing_job, query, query_if in Ejob. destruct (cl_fails c _); [done|]. injection Ejob as Ejob.
  unfold tbind. pose proof (adds_delete_job c (rs_secret_id input) (rs_idempotency_key input) d) as Hdel.
  specialize (Hdel ltac:(intros j Hj; rewrite Ejob in Hj; by injection Hj as <-)).
  destruct (delete_job _ _ _ d) as [[u|e] d']; cbn in *; [etrans; [exact Hdel|apply Hfresh]|done].
Qed.

Lemma adds_perform r : adds (perform wrap kek_id r).
Proof.
  unfold perform, tmap. destruct (rq_act r); (apply (moves_bind grows); [|intros; by apply (moves_reads grows)]).
  - apply adds_create.
  - unfold get_secret_metadata. adding.
  - unfold get_secret_value. cbv zeta. adding.
  - unfold list_secrets. cbv zeta. adding.
  - apply adds_update_metadata.
  - unfold delete_secret. cbv zeta. adding.
  - apply adds_move.
  - apply adds_rebind.
  - apply adds_rotate.
Qed.

Lemma history_grows h d : grows d (run wrap kek_id h d).
Proof. revert d; induction h as [|r h IH]; intros d; [done|]. etrans; [apply adds_perform|apply IH]. Qed.

(** The history of the store is only ever extended: no version of a secret is replaced or
    removed, no key record or audit event is changed, and the receipt of a committed rotation stays. *)
Theorem secret_history_append_only h d :
  sd_versions d ⊆ sd_versions (run wrap kek_id h d) /\ sd_keys d ⊆ sd_keys (run wrap kek_id h d) /\ prefix (sd_events d) (sd_events (run wrap kek_id h d)) /\
  forall key job, sd_jobs d !! key = Some job -> committed job -> sd_jobs (run wrap kek_id h d) !! key = Some job.
Proof. destruct (history_grows h d). done. Qed.

(** ** Retries of a rotation *)

Definition request_digest (verifier : RotationVerifier) (claims : ScopeClaims) (input : RotateSecret) : bytes :=
  rotation_request_digest claims input (provider_verified verifier).
Definition receipt (input : RotateSecret) (digest : bytes) (o : RotateOutcome) (d : SDb) : Prop := exists job,
  sd_jobs d !! (rs_secret_id input, rs_idempotency_key input) = Some job /\ committed job /\ job_digest job = Some digest /\
  job_previous job = Some (ro_previous_version o) /\ job_committed job = Some (ro_current_version o) /\
  job_verified job = Some (ro_provider_verified o) /\ ro_secret_id o = rs_secret_id input.

Lemma hoare_job_row c name id key job d :
  hoare (fun _ => True) (insert_job c name id key job) d (fun _ d' => sd_jobs d' !! (id, key) = Some job).
Proof.
  apply hoare_statement; [done|]. intros d' H%stamped_ok. repeat (apply bail_ok in H as (_ & H)). injection H as <-. destruct d. apply lookup_insert_eq.
Qed.
Lemma hoare_audit_jobs c event t p e id v pr rq re now d :
  hoare (fun _ => True) (audit c event t p e id v pr rq re now) d (fun _ d' => sd_jobs d' = sd_jobs d).
Proof. apply hoare_statement; [done|]. intros d' H. destruct (audit_secret_event _ _ _ _); [|done]. injection H as <-. by destruct d. Qed.

Lemma rotate_version_receipt c verifier claims input view digest d :
  hoare (fun _ => True) (rotate_version wrap kek_id c verifier claims input view digest) d (fun e d' =>
    match e with Rotated o => receipt input digest o d' | _ => False end).
Proof.
  unfold rotate_version. do 4 (apply hoare_read_bind; [apply reads_ret|done|intros ? _]). cbv zeta. destruct (_ || _); [done|].
  apply hoare_read_bind; [apply reads_ret|done|intros sealed _].
  do 3 (eapply hoare_bind; [apply hoare_any|intros ?? _]).
  eapply hoare_bind; [apply hoare_job_row|]. intros u d1 Hj. eapply hoare_bind; [apply hoare_audit_jobs|]. intros u' d2 Ej.
  apply hoare_done. eexists. rewrite Ej. split; [exact Hj|]. done.
Qed.

(** A rotation that succeeds has left its receipt, or found it. *)
Lemma rotate_leaves_receipt c verifier claims attrs input d o d1 :
  rotate_secret wrap kek_id c verifier claims attrs input d = (Ok o, d1) -> receipt input (request_digest verifier claims input) o d1.
Proof.
  set (digest := request_digest verifier claims input).
  set (P := fun (e : Ending) (d' : SDb) => match e with Replayed o => receipt input digest o d | Rotated o => receipt input digest o d' | Refused => True end).
  assert (hoare (fun _ => True) (rotate_secret wrap kek_id c verifier claims attrs input) d (fun o d' => receipt input digest o d')) as H;
    [|intros E; by eapply hoare_ok in H].
  unfold rotate_secret. apply hoare_read_bind; [apply reads_query|done|intros ? _].
  eapply hoare_bind; [apply (hoare_committing c d _ _ P); [done|]|].
  2: { intros [o'|o'|] d'; [by intros (-> & d0 & H)|by intros H|done]. }
  apply hoare_read_bind; [apply reads_resolve|done|]. intros view _. apply hoare_read_bind; [done|done|intros ? _].
  destruct (_ || _); [done|]. cbv zeta. fold digest.
  match goal with |- context [if rv_verify verifier _ then ?a else ?b] => set (fresh := if rv_verify verifier (rs_new_value input) then a else b) end.
  assert (forall d1, hoare (fun _ => True) fresh d1 P) as Hfresh.
  { intros d0. unfold fresh. destruct (rv_verify _ _).
    - eapply hoare_mono; [apply rotate_version_receipt|]. by intros [].
    - eapply hoare_bind; [apply hoare_any|]. intros ?? _. by apply hoare_done. }
  apply hoare_read_bind; [apply reads_query|done|]. intros [job|] Ejob; [|apply Hfresh].
  unfold existing_job, query, query_if in Ejob. destruct (cl_fails c _); [done|]. injection Ejob as Ejob.
  destruct (bool_decide (job_digest job = _)) eqn:Edig; [|done]. apply bool_decide_eq_true in Edig. cbn [negb].
  destruct (bool_decide (job_state job = _)) eqn:Est; [|eapply hoare_bind; [apply hoare_any|intros; apply Hfresh]].
  apply bool_decide_eq_true in Est. apply hoare_ret; [done|]. intros e He.
  destruct (job_previous job) eqn:E1, (job_committed job) eqn:E2, (job_verified job) eqn:E3; try done. injection He as <-.
  exists job. by repeat split.
Qed.

(** The answer, also an error, together with the tables. *)
Definition yields {A} (m : STx A) (d : SDb) (Q : result SecretError A -> SDb -> Prop) : Prop := Q (m d).1 (m d).2.
Lemma yields_bind {A B} (m : STx A) (k : A -> STx B) d Q :
  yields m d (fun r d' => match r with Ok a => yields (k a) d' Q | Err e => Q (Err e) d' end) -> yields (tbind m k) d Q.
Proof. unfold yields, tbind. by destruct (m d) as [[a|e] d']. Qed.
Lemma yields_query {A} c name (f : SDb -> A) d (Q : result SecretError A -> SDb -> Prop) :
  (cl_fails c name = true -> Q (Err SecretDb) d) -> Q (Ok (f d)) d -> yields (query c name f) d Q.
Proof. unfold yields, query, query_if. destruct (cl_fails c name); auto. Qed.
Lemma yields_resolve c at_ id d (Q : result SecretError SecretView -> SDb -> Prop) :
  (cl_fails c at_ = true -> Q (Err SecretDb) d) -> ((forall r, sd_secrets d !! id = Some r -> sec_deleted r <> None) -> Q (Err SecretNotFound) d) ->
  (forall r, sd_secrets d !! id = Some r -> Q (Ok (secret_view_from_row id r)) d) -> yields (resolve_secret c at_ id) d Q.
Proof.
  intros H1 H2 H3. apply yields_bind, yields_query; [done|]. unfold yields, tret. cbn. destruct (_ !! id) as [r|] eqn:E; [|by apply H2].
  case_bool_decide; [by apply H3|]. apply H2. by intros ? [= <-].
Qed.

Lemma yields_committing c m d (Q : result SecretError Ending -> SDb -> Prop) :
  yields m d (fun r _ => match r with Ok (Replayed o) => Q (Ok (Replayed o)) d | Ok _ => False | Err e => Q (Err e) d end) ->
  yields (committing c m) d Q.
Proof. unfold yields, committing. by destruct (m d) as [[[o|o|]|e] d']. Qed.

(** The ways in which a repeated rotation can miss its answer: a statement failed, the secret is gone, or the caller is not authorised. *)
Definition excused (c : SCall) (claims : Policy.ScopeClaims) (attrs : Policy.RequestAttributes) (input : RotateSecret) (d : SDb) (e : SecretError) : Prop :=
  (e = SecretDb /\ exists name, cl_fails c name = true) \/
  (e = SecretNotFound /\ forall r, sd_secrets d !! rs_secret_id input = Some r -> sec_deleted r <> None) \/
  (e = SecretDenied /\ exists r err, sd_secrets d !! rs_secret_id input = Some r /\
    Policy.authorize (cl_policy c "rotate") (sd_auth d) claims Policy.RotateSecret (target_from_view (secret_view_from_row (rs_secret_id input) r)) attrs
      (cl_now c "rotate") = Err err).
(** The check of the idempotency key. *)
Definition bad_key (input : RotateSecret) : bool := is_blank (rs_idempotency_key input) || (str_len (rs_idempotency_key input) >? 128).
Lemma rotate_key_ok c verifier claims attrs input d o d1 :
  rotate_secret wrap kek_id c verifier claims attrs input d = (Ok o, d1) -> bad_key input = false.
Proof.
  assert (hoare (fun _ => True) (rotate_secret wrap kek_id c verifier claims attrs input) d (fun _ _ => bad_key input = false)) as H;
    [|intros E; by eapply hoare_ok in H].
  unfold rotate_secret. apply hoare_read_bind; [apply reads_query|done|intros ? _].
  eapply hoare_bind; [apply (hoare_committing c d _ _ (fun _ _ => bad_key input = false)); [done|]|].
  2: { intros [o'|o'|] d'; [by intros (_ & d0 & H)|by intros H|done]. }
  apply hoare_read_bind; [apply reads_resolve|done|]. intros view _. apply hoare_read_bind; [done|done|intros ? _].
  fold (bad_key input). destruct (bad_key input); [done|]. eapply hoare_mono; [apply hoare_any|]. done.
Qed.
(** With a receipt for the key, a rotation changes nothing: it repeats the recorded answer
    to the request the receipt is for, and refuses every other request. *)
Lemma rotate_with_receipt c verifier claims attrs input digest o d :
  receipt input digest o d -> bad_key input = false ->
  yields (rotate_secret wrap kek_id c verifier claims attrs input) d (fun r d' => d' = d /\
    if decide (digest = request_digest verifier claims input)
    then match r with Ok o' => o' = o | Err e => excused c claims attrs input d e end
    else exists e, r = Err e).
Proof.
  intros (job & Hj & Hc & Hdig & Hp & Hcur & Hver & Hid) Hkey. set (same_request := digest = request_digest verifier claims input).
  set (good := fun r : result SecretError RotateOutcome => if decide same_request then match r with Ok o' => o' = o | Err e => excused c claims attrs input d e end else exists e, r = Err e).
  assert (forall e, excused c claims attrs input d e -> d = d /\ good (Err e)) as Hgood by (intros e He; split; [done|]; unfold good; destruct (decide same_request); eauto).
  assert (forall name, cl_fails c name = true -> d = d /\ good (Err SecretDb)) as Hdb by (intros name Hn; apply Hgood; left; eauto).
  unfold rotate_secret. apply yields_bind, yields_query; [apply Hdb|]. apply yields_bind.
  apply yields_committing. unfold yields at 2; cbn [fst snd tret].
  apply yields_bind, yields_resolve; [apply Hdb|intros Hgone; apply Hgood; right; by left|]. intros r Er. apply yields_bind. unfold yields at 1, authorized.
  cbn [fst snd]. destruct (Policy.authorize _ _ _ _ _ _ _) as [?|err] eqn:Ea; [cbn|apply Hgood; right; right; split; [done|]; by exists r, err].
  fold (bad_key input). rewrite Hkey. apply yields_bind, yields_query; [apply Hdb|]. rewrite Hj.
  fold (request_digest verifier claims input). unfold good, same_request. rewrite Hdig. unfold committed in Hc. rewrite (bool_decide_true (job_state job = _)) by done.
  destruct (decide (digest = request_digest verifier claims input)) as [Heq|Hne].
  - rewrite bool_decide_true by (by rewrite Heq). cbn. rewrite Hp, Hcur, Hver. unfold yields. cbn. split; [done|]. destruct o; cbn in *. by subst.
  - rewrite bool_decide_false by congruence. cbn. unfold yields. cbn. eauto.
Qed.

Context {SJL : SecretJsonLaws SJ}.
(** What the digest of a request is computed from, and two requests for which SHA-256 collides there. *)
Definition hashed (verifier : RotationVerifier) (claims : Policy.ScopeClaims) (input : RotateSecret) : bytes :=
  rotation_json (Policy.principal_id claims) (sha256 (rs_new_value input)) (rs_reason input) (provider_verified verifier).
Definition digests_collide (verifier : RotationVerifier) (claims : Policy.ScopeClaims) (input : RotateSecret)
  (verifier' : RotationVerifier) (claims' : Policy.ScopeClaims) (input' : RotateSecret) : Prop :=
  (hashed verifier claims input <> hashed verifier' claims' input' /\ sha256 (hashed verifier claims input) = sha256 (hashed verifier' claims' input')) \/
  (rs_new_value input <> rs_new_value input' /\ sha256 (rs_new_value input) = sha256 (rs_new_value input')).
Lemma request_digest_binding verifier claims input verifier' claims' input' :
  request_digest verifier claims input = request_digest verifier' claims' input' ->
  (Policy.principal_id claims = Policy.principal_id claims' /\ rs_new_value input = rs_new_value input' /\ rs_reason input = rs_reason input' /\
   provider_verified verifier = provider_verified verifier') \/ digests_collide verifier claims input verifier' claims' input'.
Proof.
  unfold request_digest, rotation_request_digest, digests_collide, hashed. set (a := rotation_json _ _ _ _). set (b := rotation_json _ _ _ _). intros E.
  destruct (decide (a = b)) as [Eab|Hne]; [|right; by left]. apply rotation_json_inj in Eab as (-> & Ev & -> & ->).
  destruct (decide (rs_new_value input = rs_new_value input')) as [->|Hne]; [by left|right; by right].
Qed.

(** C22: a rotation happens once per idempotency key: after one that succeeded, and after any
    further history, a rotation with the same key changes nothing.  A retry of the same
    request (caller, value, reason and verifier) gets the first answer; the only errors it can
    get are that of a failed statement, that of a secret that is missing or deleted, and that of
    a caller whom [authorize] refuses.  No other request gets an answer, unless SHA-256
    collides on what is hashed of the two requests. *)
Theorem rotation_once c verifier claims attrs input d o d1 h c' verifier' claims' attrs' input' :
  rotate_secret wrap kek_id c verifier claims attrs input d = (Ok o, d1) ->
  rs_secret_id input' = rs_secret_id input -> rs_idempotency_key input' = rs_idempotency_key input ->
  let d2 := run wrap kek_id h d1 in
  let '(res, d3) := rotate_secret wrap kek_id c' verifier' claims' attrs' input' d2 in
  let retry := Policy.principal_id claims' = Policy.principal_id claims /\ rs_new_value input' = rs_new_value input /\ rs_reason input' = rs_reason input /\
               provider_verified verifier' = provider_verified verifier in
  d3 = d2 /\
  match res with
  | Ok o' => o' = o /\ (retry \/ digests_collide verifier claims input verifier' claims' input')
  | Err e => retry -> excused c' claims' attrs' input' d2 e
  end.
Proof.
  intros E Eid Ekey d2. pose proof (rotate_leaves_receipt _ _ _ _ _ _ _ _ E) as (job & Hj & Hc & Hrest).
  assert (receipt input' (request_digest verifier claims input) o d2) as Hr.
  { exists job. rewrite Eid, Ekey. split; [by apply (gr_jobs _ _ (history_grows h d1))|]. done. }
  assert (bad_key input' = false) as Hk by (unfold bad_key; rewrite Ekey; by eapply rotate_key_ok).
  pose proof (rotate_with_receipt c' verifier' claims' attrs' input' _ _ _ Hr Hk) as Hy. unfold yields in Hy.
  destruct (rotate_secret _ _ c' _ _ _ _ d2) as [res d3]. cbn in Hy. destruct Hy as (-> & Hy). split; [done|].
  destruct (decide _) as [Heq|Hne].
  - destruct res as [o'|e]; [|by intros _]. split; [done|]. destruct (request_digest_binding _ _ _ _ _ _ Heq) as [(? & ? & ? & ?)|]; [left|by right]. done.
  - destruct Hy as (e & ->). intros (Ep & Ev & Er & Eb). destruct Hne. unfold request_digest, rotation_request_digest. by rewrite Ep, Ev, Er, Eb.
Qed.
(** ** The store as a map with receipts *)

(** The answer that a row of [rotation_jobs] replays. *)
Definition answer_of (key : str * str) (job : RotationJob) : option RotateOutcome :=
  if bool_decide (committed job) then
    match job_previous job, job_committed job, job_verified job with
    | Some previous, Some current, Some verified =>
        Some {| ro_secret_id := key.1; ro_previous_version := previous; ro_current_version := current; ro_provider_verified := verified |}
    | _, _, _ => None
    end
  else None.
Definition answers (d : SDb) : gmap (str * str) RotateOutcome := map_imap answer_of (sd_jobs d).
Lemma answers_at d key : answers d !! key = sd_jobs d !! key ≫= answer_of key.
Proof. apply map_lookup_imap. Qed.
Lemma answers_insert d key job : sd_jobs d !! key ≫= answer_of key = None ->
  answers (set_jobs (<[key := job]>) d) = match answer_of key job with Some o => <[key := o]> (answers d) | None => answers d end.
Proof.
  intros Hn. apply map_eq. intros k. rewrite answers_at. destruct d as [au pr sv bd secs vers keys jobs evs]. cbn in *. destruct (decide (k = key)) as [->|Hne].
  - rewrite lookup_insert_eq. cbn. destruct (answer_of key job) as [o|] eqn:E; [by rewrite lookup_insert_eq|]. by rewrite answers_at.
  - rewrite lookup_insert_ne by done. destruct (answer_of key job); rewrite ?lookup_insert_ne by done; by rewrite answers_at.
Qed.
Lemma answers_delete d key : sd_jobs d !! key ≫= answer_of key = None -> answers (set_jobs (delete key) d) = answers d.
Proof.
  intros Hn. apply map_eq. intros k. rewrite !answers_at. destruct d as [au pr sv bd secs vers keys jobs evs]. cbn in *.
  destruct (decide (k = key)) as [->|Hne]; [by rewrite lookup_delete_eq|by rewrite lookup_delete_ne].
Qed.

(** *** What leaves the receipts alone *)

Definition same_jobs (d d' : SDb) : Prop := sd_jobs d' = sd_jobs d.
#[local] Instance same_jobs_preorder : PreOrder same_jobs.
Proof. split; [done|]. intros d1 d2 d3 H1 H2. unfold same_jobs in *. congruence. Qed.
Abbreviation spares := (moves same_jobs).

Section Sparing.
Variable c : SCall.
Lemma same_jobs_sec f d : same_jobs d (set_sec f d).
Proof. by destruct d. Qed.
Lemma spares_update name id now f : spares (update_secret c name id now f).
Proof. apply (moves_statement same_jobs). intros d d' [= <-]%stamped_ok. apply same_jobs_sec. Qed.
Lemma spares_kek t p now : spares (ensure_kek_row kek_id c t p now).
Proof.
  apply (moves_statement same_jobs). intros d d' H%stamped_ok. destruct (bool_decide _); [by injection H as <-|].
  apply bail_ok in H as (_ & [= <-]). by destruct d.
Qed.
Lemma spares_audit event t p e id v pr rq re now : spares (audit c event t p e id v pr rq re now).
Proof. apply (moves_statement same_jobs). intros d d' H. destruct (audit_secret_event _ _ _ _); [|done]. injection H as <-. by destruct d. Qed.
Lemma spares_insert_secret id r : spares (insert_secret c id r).
Proof. apply (moves_statement same_jobs). intros d d' H%stamped_ok. repeat (apply bail_ok in H as (_ & H)). injection H as <-. apply same_jobs_sec. Qed.
Lemma spares_insert_version id version ver : spares (insert_version c id version ver).
Proof. apply (moves_statement same_jobs). intros d d' H%stamped_ok. repeat (apply bail_ok in H as (_ & H)). injection H as <-. by destruct d. Qed.
Lemma spares_row name now f : (forall d d', f d = Ok d' -> exists g, d' = set_sec g d) -> spares (statement c name (stamped now f)).
Proof. intros Hf. apply (moves_statement same_jobs). intros d d' H%stamped_ok. apply Hf in H as (g & ->). apply same_jobs_sec. Qed.
End Sparing.
Ltac sparing := moving same_jobs ltac:(first
  [ apply spares_update | apply spares_kek | apply spares_audit | apply spares_insert_secret | apply spares_insert_version
  | apply spares_row; intros ?? H; repeat (apply bail_ok in H as (_ & H)); injection H as <-; by eexists ]).

Definition is_rotation (a : SecretAct) : bool := match a with Rotate _ _ => true | _ => false end.
Lemma spares_perform r : is_rotation (rq_act r) = false -> spares (perform wrap kek_id r).
Proof.
  unfold perform, tmap. destruct (rq_act r); intros Hr; try done; (apply (moves_bind same_jobs); [|intros; by apply (moves_reads same_jobs)]).
  - unfold create_secret. cbv zeta. sparing.
  - unfold get_secret_metadata. sparing.
  - unfold get_secret_value. cbv zeta. sparing.
  - unfold list_secrets. cbv zeta. sparing.
  - unfold update_secret_metadata. cbv zeta. sparing.
  - unfold delete_secret. cbv zeta. sparing.
  - unfold move_secret, reseal, rename_secret. cbv zeta. sparing.
  - unfold rebind_secret. cbv zeta. sparing.
Qed.
(** *** What a rotation does to the receipts *)

Lemma hoare_spares {A} (m : STx A) d : spares m -> hoare (fun _ => True) m d (fun _ d' => sd_jobs d' = sd_jobs d).
Proof. intros Hm. unfold hoare. specialize (Hm d). by destruct (m d) as [[a|e] d']. Qed.
Lemma hoare_insert_job c name id key job d : hoare (fun _ => True) (insert_job c name id key job) d (fun _ d' =>
  sd_jobs d !! (id, key) = None /\ d' = set_jobs (<[(id, key) := job]>) d).
Proof.
  apply hoare_statement; [done|]. intros d' H%stamped_ok. apply bail_ok in H as (_ & H). apply bail_ok in H as (Hn & H). apply bail_ok in H as (_ & H).
  injection H as <-. split; [|done]. apply bool_decide_eq_false in Hn. by apply eq_None_not_Some.
Qed.
Lemma answers_jobs d d' : sd_jobs d' = sd_jobs d -> answers d' = answers d.
Proof. unfold answers. by intros ->. Qed.

Section Rotation.
Variables (c : SCall) (input : RotateSecret).
Let key : str * str := (rs_secret_id input, rs_idempotency_key input).
(** How the receipts change, by how the transaction of the rotation ends. *)
Definition receipted (d : SDb) (e : Ending) (d' : SDb) : Prop :=
  match e with
  | Replayed o => answers d !! key = Some o
  | Rotated o => answers d !! key = None /\ answers d' = <[key := o]> (answers d)
  | Refused => answers d' = answers d
  end.

Lemma rotate_version_receipted verifier claims view digest d d1 : answers d1 = answers d ->
  hoare (fun _ => True) (rotate_version wrap kek_id c verifier claims input view digest) d1 (receipted d).
Proof.
  intros E1. unfold rotate_version. do 4 (apply hoare_read_bind; [apply reads_ret|done|intros ? _]). cbv zeta. destruct (_ || _); [done|].
  apply hoare_read_bind; [apply reads_ret|done|intros sealed _].
  eapply hoare_bind; [apply hoare_spares, spares_kek|]. intros ? d2 E2. eapply hoare_bind; [apply hoare_spares, spares_insert_version|]. intros ? d3 E3.
  eapply hoare_bind; [apply hoare_spares, spares_update|]. intros ? d4 E4. eapply hoare_bind; [apply hoare_insert_job|]. intros ? d5 (Hn & ->).
  eapply hoare_bind; [apply hoare_spares, spares_audit|]. intros ? d6 E6. apply hoare_done. unfold receipted.
  assert (answers d4 = answers d) as E by (rewrite (answers_jobs d3 d4), (answers_jobs d2 d3), (answers_jobs d1 d2) by done; exact E1).
  fold key in Hn. split; [by rewrite <- E, answers_at, Hn|]. rewrite (answers_jobs _ _ E6). fold key. rewrite answers_insert by (by rewrite Hn). by rewrite <- E.
Qed.
Lemma rotate_receipted verifier claims attrs d :
  hoare (fun d' => answers d' = answers d) (rotate_secret wrap kek_id c verifier claims attrs input) d (fun o d' =>
    (d' = d /\ answers d !! key = Some o) \/ (answers d !! key = None /\ answers d' = <[key := o]> (answers d))).
Proof.
  unfold rotate_secret. apply hoare_read_bind; [apply reads_query|done|intros ? _].
  eapply hoare_bind; [apply (hoare_committing c d _ _ (receipted d)); [done|]|].
  2: { intros [o|o|] d'; [intros (-> & d0 & H); by left|intros H; by right|intros H; exact H]. }
  apply hoare_read_bind; [apply reads_resolve|done|]. intros view _. apply hoare_read_bind; [done|done|intros ? _]. destruct (_ || _); [done|]. cbv zeta.
  match goal with |- context [if rv_verify verifier _ then ?a else ?b] => set (fresh := if rv_verify verifier (rs_new_value input) then a else b) end.
  assert (forall d1, answers d1 = answers d -> hoare (fun _ => True) fresh d1 (receipted d)) as Hfresh.
  { intros d1 E1. unfold fresh. destruct (rv_verify _ _); [by apply rotate_version_receipted|].
    eapply hoare_bind; [apply hoare_insert_job|]. intros ? d2 (Hn & ->). apply hoare_done. unfold receipted. rewrite answers_insert by (by rewrite Hn). exact E1. }
  apply hoare_read_bind; [apply reads_query|done|]. intros row Erow. unfold existing_job, query, query_if in Erow. destruct (cl_fails c _); [done|].
  injection Erow as Erow. destruct row as [job|]; [|by apply Hfresh]. destruct (negb _); [done|]. destruct (bool_decide (job_state job = _)) eqn:Est.
  - apply hoare_ret; [done|]. intros e He. apply bool_decide_eq_true in Est.
    destruct (job_previous job) eqn:Ep, (job_committed job) eqn:Ec, (job_verified job) eqn:Ev; try done. injection He as <-. unfold receipted.
    rewrite answers_at. unfold key. rewrite Erow. cbn. unfold answer_of. rewrite bool_decide_true by done. by rewrite Ep, Ec, Ev.
  - apply bool_decide_eq_false in Est. eapply (hoare_bind _ _ _ _ (fun _ d' => answers d' = answers d)).
    + apply hoare_statement; [done|]. intros d' [= <-]. apply answers_delete. rewrite Erow. cbn. unfold answer_of. by rewrite bool_decide_false.
    + intros ? d1 E1. by apply Hfresh.
Qed.
End Rotation.

(** *** The refinement *)

(** The abstract store: the value of each secret, and the answer of each rotation by its secret and idempotency key. *)
Record Store : Type := { values : gmap str bytes; receipts : gmap (str * str) RotateOutcome }.
Definition implements (d : SDb) (s : Store) : Prop := holds wrap d (values s) /\ answers d = receipts s.

(** What a request may answer and what it does to the abstract store.  An error of a creation can come after its commit,
    from reading the new row back.  A rotation whose key has a receipt answers with it and changes nothing; any other
    that succeeds replaces the value and leaves its answer as the receipt. *)
Definition store_step (a : SecretAct) (answer : result SecretError SecretAnswer) (s s' : Store) : Prop :=
  match a, answer with
  | Create input, Ok (AView view) => values s !! v_secret_id view = None /\
      s' = {| values := <[v_secret_id view := cs_value input]> (values s); receipts := receipts s |}
  | Create input, Err _ => s' = s \/ exists id : str, values s !! id = None /\ s' = {| values := <[id := cs_value input]> (values s); receipts := receipts s |}
  | Value id _, Ok (AValue value) => values s !! id = Some (vv_value value) /\ s' = s
  | Delete id _ _, Ok _ => is_Some (values s !! id) /\ s' = {| values := delete id (values s); receipts := receipts s |}
  | Rotate _ input, Ok (ARotated o) =>
      match receipts s !! (rs_secret_id input, rs_idempotency_key input) with
      | Some first => o = first /\ s' = s
      | None => is_Some (values s !! rs_secret_id input) /\
                s' = {| values := <[rs_secret_id input := rs_new_value input]> (values s);
                        receipts := <[(rs_secret_id input, rs_idempotency_key input) := o]> (receipts s) |}
      end
  | _, _ => s' = s
  end.
Fixpoint store_run (h : list Request) (d : SDb) (s s' : Store) : Prop :=
  match h with
  | [] => s' = s
  | r :: rest => exists s1, store_step (rq_act r) (perform wrap kek_id r d).1 s s1 /\ store_run rest (perform wrap kek_id r d).2 s1 s'
  end.

Section Refinement.
Context {XL : XChaChaLaws XC} {KL : KeyWrappingLaws S K}.
Hypothesis wrap_names_key : forall nonce dek w, length nonce = 24%nat -> wrap_dek nonce wrap dek = Ok w ->
  wrapped_kek_id w = kek_id /\ length (wrapped_nonce w) = 24%nat /\ TAG_SIZE <= blen (wrapped_blob w).

Lemma spared r d s : is_rotation (rq_act r) = false -> implements d s -> answers (perform wrap kek_id r d).2 = receipts s.
Proof. intros Hr (_ & Ha). rewrite (answers_jobs d); [done|]. exact (spares_perform r Hr d). Qed.
Lemma perform_refines r d s : implements d s -> draws_ok (rq_call r) ->
  exists s', store_step (rq_act r) (perform wrap kek_id r d).1 s s' /\ implements (perform wrap kek_id r d).2 s'.
Proof.
  intros Himp Hc. pose proof (fun H => spared r d s H Himp) as Hspared. destruct Himp as (Hd & Ha). destruct s as [v rs]. cbn [values receipts] in *.
  unfold perform in *. destruct r as [c claims attrs act]. cbn [rq_call rq_claims rq_attrs rq_act] in *.
  assert (forall (m : STx SecretAnswer), answers (m d).2 = rs -> hoare (fun d' => holds wrap d' v) m d (fun _ d' => holds wrap d' v) ->
    implements (m d).2 {| values := v; receipts := rs |}) as Hkeep by (intros m Hm Hh; split; [exact (hoare_state (fun d0 => holds wrap d0 v) m d Hh)|done]).
  assert (forall m : STx SecretAnswer, reads m -> implements (m d).2 {| values := v; receipts := rs |}) as Hreads by (intros m Hm; by rewrite Hm).
  destruct act as [input|id|id request|filter_|id patch request|id reason request|id input|id input|verifier input];
    try specialize (Hspared eq_refl); try match goal with |- context [Rotate _ _] => clear Hspared end.
  - pose proof (hoare_step _ _ _ _ (create_secret_ok wrap kek_id wrap_names_key c v d claims attrs input Hd Hc)) as H. unfold tmap, tbind in *.
    destruct (create_secret _ _ _ _ _ _ d) as [[view|e] d']; cbn [fst snd tret] in *.
    + destruct H as (Hn & H). eexists. split; [split; [exact Hn|reflexivity]|by split].
    + destruct H as [H|(id & Hn & H)]; [exists {| values := v; receipts := rs |}; split; [by left|by split]|].
      eexists. split; [right; exists id; split; [exact Hn|reflexivity]|by split].
  - eexists. split; [by destruct (_.1) as [[]|]|]. apply Hreads. unfold tmap, get_secret_metadata. reading.
  - pose proof (hoare_step _ _ _ _ (get_value_ok wrap c v d Hd claims attrs id request)) as H. unfold tmap, tbind in *.
    destruct (get_secret_value _ _ _ _ _ _ d) as [[value|e] d']; cbn [fst snd tret] in *; [destruct H as (H & Hv)|];
      exists {| values := v; receipts := rs |}; (split; [done|by split]).
  - eexists. split; [by destruct (_.1) as [[]|]|]. apply Hreads. unfold tmap, list_secrets, query. cbv zeta. reading.
  - eexists. split; [by destruct (_.1) as [[]|]|]. apply Hkeep; [exact Hspared|]. by apply hoare_tmap, update_metadata_ok.
  - pose proof (hoare_step _ _ _ _ (delete_ok wrap c v d Hd claims attrs id reason request)) as H. unfold tmap, tbind in *.
    destruct (delete_secret _ _ _ _ _ _ d) as [[u|e] d']; cbn [fst snd tret] in *.
    + destruct H as (Hv & H). eexists. split; [split; [exact Hv|reflexivity]|by split].
    + exists {| values := v; receipts := rs |}. by repeat split.
  - eexists. split; [by destruct (_.1) as [[]|]|]. apply Hkeep; [exact Hspared|]. by apply hoare_tmap, move_ok.
  - eexists. split; [by destruct (_.1) as [[]|]|]. apply Hkeep; [exact Hspared|]. by apply hoare_tmap, rebind_ok.
  - pose proof (hoare_step _ _ _ _ (rotate_ok wrap kek_id wrap_names_key c v d Hd verifier claims attrs input Hc)) as H.
    pose proof (hoare_step _ _ _ _ (rotate_receipted c input verifier claims attrs d)) as H'. unfold tmap, tbind in *. rewrite Ha in H'.
    destruct (rotate_secret _ _ _ _ _ _ _ d) as [[o|e] d']; cbn [fst snd tret store_step receipts values] in *; [|exists {| values := v; receipts := rs |}; by repeat split].
    destruct H' as [(-> & ->)|(Hn & Ha')]; [exists {| values := v; receipts := rs |}; by repeat split|]. rewrite Hn.
    destruct H as [->|(Hv & H)]; [|eexists; split; [split; [exact Hv|reflexivity]|by split]].
    exfalso. rewrite Ha in Ha'. rewrite Ha', lookup_insert_eq in Hn. done.
Qed.

(** C8: the store of secrets, under one wrapping key, refines a plain map from identifiers to values with the receipts of
    rotations.  In every history, whatever statements fail: a read returns the value that was last written, a creation
    adds a fresh identifier, a rotation that has a receipt for its idempotency key repeats that answer and changes
    nothing, any other rotation that succeeds replaces the value and leaves its answer as the receipt, a deletion removes
    the value, and nothing else, in particular no move to another environment, changes a value or a receipt.  The service wraps under the
    key that the versions name, and the nonces that are drawn have their 24 bytes. *)
Theorem secrets_refine_vault h d s :
  implements d s -> Forall (fun r => draws_ok (rq_call r)) h -> exists s', store_run h d s s' /\ implements (run wrap kek_id h d) s'.
Proof.
  intros Hd Hc. revert d s Hd; induction Hc as [|r h Hr Hc IH]; intros d s Hd; [by exists s|].
  destruct (perform_refines r d s Hd Hr) as (s1 & Hs & Hd1). destruct (IH _ _ Hd1) as (s' & Hrun & Hd'). exists s'. split; [|exact Hd'].
  exists s1. by split.
Qed.
End Refinement.
End Histories.
