(* ===== verification/SecretsAccess.v ===== *)
(** * Access to secrets

    Every value that is read and every change of a secret leaves one audit event of its
    caller; a value is read only with the authorization of its own scope; and a listing is
    exactly the authorised rows that match its filter. *)

From Stdlib Require Import Sorted.
From S2P Require Import Prelude Errors Sorting Tables Primitives SamplePrimitives Names Crypto Redact Policy AuditChain Grants Migration Secrets SecretsTheory RotationTheory.

#[local] Open Scope tx_scope.

Section Audit.
Context {HX : Hex} {SH : Sha256} {JS : Json} {XC : XChaCha} {SJ : SecretJson}.
Context {S : Type} {K : KeyWrappingService S}.
Variables (wrap : S) (kek_id : str).

(** One more event, of the principal, that reports success. *)
Definition logged (principal : str) (event : AuditEventType) (d d' : SDb) : Prop := exists row,
  sd_events d' = sd_events d ++ [row] /\ AuditChain.event_type row = event_type_str event /\ result_ row = lit "success" /\
  actor_json row = json_to_string (VObject [(lit "principal_id", VString (as_bytes principal))]).

(** Programs that do not write events, and programs whose changes are logged. *)
Definition silent {A} (m : STx A) : Prop := forall d, sd_events (m d).2 = sd_events d.
Definition audited (principal : str) (event : AuditEventType) {A} (m : STx A) : Prop := forall d,
  same d (m d).2 \/ logged principal event d (m d).2.

Lemma silent_reads {A} (m : STx A) : reads m -> silent m.
Proof. intros Hm d. by rewrite Hm. Qed.
Lemma silent_bind {A B} (m : STx A) (k : A -> STx B) : silent m -> (forall a, silent (k a)) -> silent (tbind m k).
Proof. intros Hm Hk d. unfold tbind. specialize (Hm d). destruct (m d) as [[a|e] d']; cbn in *; [by rewrite Hk|done]. Qed.
Lemma silent_statement c name f : (forall d d', f d = Ok d' -> sd_events d' = sd_events d) -> silent (statement c name f).
Proof. intros Hf d. unfold statement. destruct (cl_fails c name); [done|]. destruct (f d) eqn:E; [by apply Hf|done]. Qed.
Lemma silent_when {A} (o : option A) (f : A -> STx unit) : (forall a, silent (f a)) -> silent (when_some o f).
Proof. intros Hf. destruct o; [apply Hf|done]. Qed.
Lemma silent_sec f d : sd_events (set_sec f d) = sd_events d.
Proof. by destruct d. Qed.

(** Programs that end with an event when they succeed. *)
Definition logging (principal : str) (event : AuditEventType) {A} (m : STx A) : Prop := forall d a d',
  m d = (Ok a, d') -> logged principal event d d'.
Lemma logging_bind {A B} principal event (m : STx A) (k : A -> STx B) :
  silent m -> (forall a, logging principal event (k a)) -> logging principal event (tbind m k).
Proof.
  intros Hm Hk d b d' (a & d1 & E1 & E2)%tbind_ok. specialize (Hm d). rewrite E1 in Hm. cbn in Hm.
  destruct (Hk a _ _ _ E2) as (row & E & H). exists row. by rewrite E, Hm.
Qed.
Lemma logging_then {A B} principal event (m : STx A) (k : A -> STx B) :
  logging principal event m -> (forall a, reads (k a)) -> logging principal event (tbind m k).
Proof. intros Hm Hk d b d' (a & d1 & E1 & E2)%tbind_ok. pose proof (Hk a d1) as E. rewrite E2 in E. cbn in E. subst d1. by eapply Hm. Qed.

Section Statements.
Variable c : SCall.
Lemma silent_update name id now f : silent (update_secret c name id now f).
Proof. apply silent_statement. intros d d' [= <-]%stamped_ok. apply silent_sec. Qed.
Lemma silent_kek t p now : silent (ensure_kek_row kek_id c t p now).
Proof.
  apply silent_statement. intros d d' H%stamped_ok. destruct (bool_decide _); [by injection H as <-|].
  apply bail_ok in H as (_ & [= <-]). by destruct d.
Qed.
Lemma silent_insert_secret id r : silent (insert_secret c id r).
Proof. apply silent_statement. intros d d' H%stamped_ok. repeat (apply bail_ok in H as (_ & H)). injection H as <-. apply silent_sec. Qed.
Lemma silent_insert_version id version ver : silent (insert_version c id version ver).
Proof. apply silent_statement. intros d d' H%stamped_ok. repeat (apply bail_ok in H as (_ & H)). injection H as <-. by destruct d. Qed.
Lemma silent_job name id key job : silent (insert_job c name id key job).
Proof. apply silent_statement. intros d d' H%stamped_ok. repeat (apply bail_ok in H as (_ & H)). injection H as <-. by destruct d. Qed.
Lemma silent_delete_job id key : silent (delete_job c id key).
Proof. apply silent_statement. intros d d' [= <-]. by destruct d. Qed.
Lemma silent_rename id view name env version now : silent (rename_secret c id view name env version now).
Proof. apply silent_statement. intros d d' H%stamped_ok. repeat (apply bail_ok in H as (_ & H)). injection H as <-. apply silent_sec. Qed.

Lemma audit_logs event t p e id v pr rq re now : logging pr event (audit c event t p e id v pr rq re now).
Proof.
  intros d u d'. unfold audit, statement. destruct (cl_fails c _); [done|]. destruct (audit_secret_event _ _ _ _) as [t'|] eqn:E; [|done].
  intros [= _ <-]. unfold audit_secret_event in E. apply bail_ok in E as (_ & E). apply bail_ok in E as (_ & E).
  injection E as <-. destruct d. eexists. split; [reflexivity|done].
Qed.
(** A transaction whose body ends with its event. *)
Lemma transaction_logs {A} (m : STx A) principal event d : logging principal event m ->
  let '(r, d') := transaction c m d in match r with Ok _ => logged principal event d d' | Err _ => d' = d end.
Proof.
  intros Hm. unfold transaction, query, query_if, tbind, atomically. destruct (cl_fails c "begin"); [done|]. cbn.
  destruct (m d) as [[u|e] d1] eqn:E; [|done]. destruct (cl_fails c "commit"); [done|]. by eapply Hm.
Qed.
End Statements.

Lemma audited_read {A B} principal event (m : STx A) (k : A -> STx B) :
  reads m -> (forall a, audited principal event (k a)) -> audited principal event (tbind m k).
Proof. intros Hm Hk d. unfold tbind. pose proof (Hm d) as E. destruct (m d) as [[a|e] d']; cbn in E; subst d'; [apply Hk|by left]. Qed.
Lemma audited_then {A B} principal event (m : STx A) (k : A -> STx B) :
  audited principal event m -> (forall a, reads (k a)) -> audited principal event (tbind m k).
Proof. intros Hm Hk d. unfold tbind. specialize (Hm d). destruct (m d) as [[a|e] d']; cbn in *; [by rewrite Hk|done]. Qed.
Lemma audited_reads {A} principal event (m : STx A) : reads m -> audited principal event m.
Proof. intros Hm d. left. by rewrite Hm. Qed.
Lemma audited_transaction {A} c (m : STx A) principal event : logging principal event m -> audited principal event (transaction c m).
Proof.
  intros Hm d. pose proof (transaction_logs c m principal event d Hm) as H.
  destruct (transaction c m d) as [[u|e] d']; [by right|left; cbn; by rewrite H].
Qed.

(** ** Requests *)

Ltac silence := repeat first
  [ apply silent_update | apply silent_kek | apply silent_insert_secret | apply silent_insert_version | apply silent_job | apply silent_rename
  | apply silent_when; intros | apply silent_bind; intros | match goal with |- silent (match ?x with _ => _ end) => destruct x end
  | apply silent_reads; done
  | apply silent_statement; let H := fresh in intros ?? H; apply stamped_ok in H; repeat (apply bail_ok in H as (_ & H)); injection H as <-; apply silent_sec ].
Ltac logs := repeat first [ apply audit_logs | apply logging_bind; [solve [silence]|intros] ].
Ltac auditing := repeat first
  [ apply audited_transaction; solve [logs] | apply audited_reads; solve [reading] | apply audited_read; [solve [reading]|intros]
  | match goal with |- audited _ _ (match ?x with _ => _ end) => destruct x end
  | apply audited_then; [|intros; solve [reading]] ].

Definition event_of (a : SecretAct) : AuditEventType :=
  match a with
  | Create _ => SecretCreated | Metadata _ | Listing _ | Value _ _ => SecretRead | Update _ _ _ => SecretUpdated
  | Delete _ _ _ => SecretDeleted | Move _ _ => SecretMoved | Rebind _ _ => SecretRebound | Rotate _ _ => SecretRotated
  end.
Lemma audited_create c claims attrs input : audited (Policy.principal_id claims) SecretCreated (create_secret wrap kek_id c claims attrs input).
Proof. unfold create_secret. cbv zeta. auditing. Qed.
Lemma audited_update c claims attrs id patch request :
  audited (Policy.principal_id claims) SecretUpdated (update_secret_metadata c claims attrs id patch request).
Proof. unfold update_secret_metadata, audit_view. cbv zeta. auditing. Qed.
Lemma audited_delete c claims attrs id reason request :
  audited (Policy.principal_id claims) SecretDeleted (delete_secret c claims attrs id reason request).
Proof. unfold delete_secret, audit_view. cbv zeta. auditing. Qed.
Lemma audited_move c claims attrs id input : audited (Policy.principal_id claims) SecretMoved (move_secret wrap kek_id c claims attrs id input).
Proof. unfold move_secret, reseal, audit_view. cbv zeta. auditing. Qed.
Lemma audited_rebind c claims attrs id input : audited (Policy.principal_id claims) SecretRebound (rebind_secret c claims attrs id input).
Proof. unfold rebind_secret, audit_view. cbv zeta. auditing. Qed.

Lemma audited_rotate c verifier claims attrs input :
  audited (Policy.principal_id claims) SecretRotated (rotate_secret wrap kek_id c verifier claims attrs input).
Proof.
  unfold rotate_secret. apply audited_read; [done|]. intros _. apply audited_then; [|intros; reading]. intros d.
  set (P := fun (e : Ending) (d' : SDb) => match e with Rotated _ => logged (Policy.principal_id claims) SecretRotated d d' | _ => same d d' end).
  match goal with |- same d (committing c ?m d).2 \/ _ => assert (hoare (fun _ => True) m d P) as H end.
  2: { pose proof (hoare_committing c d (fun d' => d' = d) _ P eq_refl H) as H'. unfold hoare in H'.
       destruct (committing c _ d) as [[[o|o|]|e] d']; cbn in *; [left; by destruct H' as (-> & _)|by right|by left|left; by subst]. }
  apply hoare_read_bind; [apply reads_resolve|done|]. intros view _. apply hoare_read_bind; [done|done|intros ? _].
  destruct (_ || _); [done|]. cbv zeta.
  match goal with |- context [if rv_verify verifier _ then ?a else ?b] => set (fresh := if rv_verify verifier (rs_new_value input) then a else b) end.
  assert (forall d1, same d d1 -> sd_events d1 = sd_events d -> hoare (fun _ => True) fresh d1 P) as Hfresh.
  { intros d1 Hs He. unfold fresh. destruct (rv_verify _ _).
    - assert (logging (Policy.principal_id claims) SecretRotated (rotate_version wrap kek_id c verifier claims input view
               (rotation_request_digest claims input (provider_verified verifier)))) as Hl.
      { unfold rotate_version, audit_view. cbv zeta. repeat (apply logging_bind; [solve [silence]|intros]).
        match goal with |- logging _ _ (if ?b then _ else _) => destruct b end; [by intros ???|]. repeat (apply logging_bind; [solve [silence]|intros]).
        apply logging_then; [apply audit_logs|intros; reading]. }
      pose proof (rotate_version_receipt wrap kek_id c verifier claims input view (rotation_request_digest claims input (provider_verified verifier)) d1) as Hv.
      unfold hoare in *. destruct (rotate_version _ _ _ _ _ _ _ _ d1) as [[[o|o|]|e] d'] eqn:E; try done.
      destruct (Hl _ _ _ E) as (row & E1 & H1). exists row. by rewrite E1, He.
    - eapply hoare_bind; [apply hoare_job|]. intros u d2 Hs2. apply hoare_done. cbn. by eapply same_trans. }
  apply hoare_read_bind; [apply reads_query|done|]. intros [job|] _; [|by apply Hfresh].
  destruct (negb _); [done|]. destruct (bool_decide _).
  - apply hoare_ret; [done|]. intros e He. destruct (job_previous job), (job_committed job), (job_verified job); try done. by injection He as <-.
  - eapply (hoare_bind _ _ _ _ (fun _ d1 => same d d1 /\ sd_events d1 = sd_events d)); [|intros u d1 (H1 & H2); by apply Hfresh].
    apply hoare_statement; [done|]. intros d' [= <-]. by destruct d.
Qed.

Lemma value_logs c claims attrs id request d vv d' :
  get_secret_value wrap c claims attrs id request d = (Ok vv, d') -> logged (Policy.principal_id claims) SecretRead d d'.
Proof.
  assert (logging (Policy.principal_id claims) SecretRead (get_secret_value wrap c claims attrs id request)) as H; [|apply H].
  unfold get_secret_value. repeat (apply logging_bind; [solve [silence]|intros]). cbv zeta. apply logging_then; [|intros; reading].
  intros d0 u d1 E. pose proof (transaction_logs c (update_secret c "touch" id (cl_now c "write") (touch (cl_now c "write")) ;;;
     audit_view c SecretRead a (v_current_version a) (Policy.principal_id claims) request [] (cl_now c "write")) (Policy.principal_id claims) SecretRead d0) as H.
  rewrite E in H. apply H. apply logging_bind; [apply silent_update|intros; apply audit_logs].
Qed.

(** C24: the audit log is complete: whatever statements fail, a request that changes a secret or
    adds a version, and every request that returns a value, appends exactly one event,
    which names its caller and what was done. *)
Theorem secret_access_audited r d :
  let '(answer, d') := perform wrap kek_id r d in
  (exists value, answer = Ok (AValue value)) \/ ~ same d d' -> logged (Policy.principal_id (rq_claims r)) (event_of (rq_act r)) d d'.
Proof.
  assert (audited (Policy.principal_id (rq_claims r)) (event_of (rq_act r)) (perform wrap kek_id r)) as Ha.
  { unfold perform, tmap. destruct (rq_act r); cbn [event_of].
    - apply audited_then; [apply audited_create|intros; reading].
    - apply audited_reads. unfold get_secret_metadata. reading.
    - apply audited_then; [|intros; reading]. unfold get_secret_value, audit_view. cbv zeta. auditing.
    - apply audited_reads. unfold list_secrets. cbv zeta. reading.
    - apply audited_then; [apply audited_update|intros; reading].
    - apply audited_then; [apply audited_delete|intros; reading].
    - apply audited_then; [apply audited_move|intros; reading].
    - apply audited_then; [apply audited_rebind|intros; reading].
    - apply audited_then; [apply audited_rotate|intros; reading]. }
  specialize (Ha d). destruct (perform wrap kek_id r d) as [answer d'] eqn:E. cbn in Ha. intros [(value & ->)|Hn]; [|by destruct Ha].
  unfold perform, tmap in E. destruct (rq_act r); apply tbind_ok in E as (a & d1 & E1 & E2); injection E2 as E2 <-; try done. by eapply value_logs.
Qed.
End Audit.

(** ** Searching

    The pattern built from a query matches the names that contain it. *)

Definition low (s : str) : str := to_ascii_lowercase <$> s.
Definition contains_ci (q text : str) : Prop := exists pre mid post, text = pre ++ mid ++ post /\ low mid = low q.

Lemma like_any p text : like (PERCENT :: p) text = true <-> exists pre post, text = pre ++ post /\ like p post = true.
Proof.
  induction text as [|x text IH].
  - cbn. rewrite orb_false_r. split; [intros H; by exists [], []|]. intros (pre & post & E & H). symmetry in E. by apply app_eq_nil in E as (-> & ->).
  - change (like (PERCENT :: p) (x :: text)) with (like p (x :: text) || like (PERCENT :: p) text). rewrite orb_true_iff, IH. split.
    + intros [H|(pre & post & -> & H)]; [by exists [], (x :: text)|by exists (x :: pre), post].
    + intros (pre & post & E & H). destruct pre as [|y pre]; cbn in E; [left; by subst|]. injection E as <- ->. right. eauto.
Qed.
Lemma like_literal q p text :
  like (escape_like q ++ p) text = true <-> exists mid post, text = mid ++ post /\ low mid = low q /\ like p post = true.
Proof.
  revert text; induction q as [|ch q IH]; intros text.
  - cbn. split; [intros H; by exists [], text|]. intros (mid & post & -> & Hm & H). by destruct mid.
  - assert (like (escape_like (ch :: q) ++ p) text =
            match text with [] => false | x :: text' => (to_ascii_lowercase x =? to_ascii_lowercase ch) && like (escape_like q ++ p) text' end) as ->.
    { cbn [escape_like]. destruct ((ch =? PERCENT) || (ch =? UNDERSCORE) || (ch =? ESCAPE)) eqn:E; [done|].
      apply orb_false_iff in E as (E & E3). apply orb_false_iff in E as (E1 & E2). cbn [app like]. rewrite E1, E3, E2. done. }
    destruct text as [|x text].
    + split; [done|]. intros (mid & post & E & Hm & _). symmetry in E. apply app_eq_nil in E as (-> & ->). done.
    + rewrite andb_true_iff, Z.eqb_eq, IH. split.
      * intros (Hx & mid & post & -> & Hm & H). exists (x :: mid), post. split; [done|]. split; [|done]. cbn. unfold low in Hm. by rewrite Hx, Hm.
      * intros (mid & post & E & Hm & H). destruct mid as [|y mid]; [done|]. injection E as <- ->. cbn in Hm. injection Hm as Hx Hm. split; [done|]. by exists mid, post.
Qed.
Lemma search_contains q text : like (PERCENT :: escape_like q ++ [PERCENT]) text = true <-> contains_ci q text.
Proof.
  rewrite like_any. split.
  - intros (pre & post & -> & H). apply like_literal in H as (mid & rest & -> & Hm & _). by exists pre, mid, rest.
  - intros (pre & mid & post & -> & Hm). exists pre, (mid ++ post). split; [done|]. apply like_literal. exists mid, post. split; [done|]. split; [done|].
    apply like_any. exists post, []. by rewrite app_nil_r.
Qed.

(** ** Listing *)

Lemma strongly_take {A} (R : A -> A -> Prop) n l : StronglySorted R l -> StronglySorted R (take n l).
Proof.
  intros H. revert n; induction H as [|x l Hl IH Hx]; intros [|n]; cbn; try constructor; [apply IH|]. by apply Forall_take.
Qed.
Lemma strongly_list_filter {A} (R : A -> A -> Prop) (f : A -> bool) l : StronglySorted R l -> StronglySorted R (List.filter f l).
Proof.
  induction 1 as [|x l Hl IH Hx]; cbn; [constructor|]. destruct (f x); [|done]. constructor; [done|].
  rewrite Forall_forall in Hx |- *. intros y Hy%list_elem_of_In. apply filter_In in Hy as (Hy & _). apply Hx. by apply list_elem_of_In.
Qed.
Lemma names_sorted (l : list (str * Secret)) : StronglySorted (fun a b => by_name a b = true) (sort by_name l).
Proof.
  apply (sort_strongly_sorted (A := str * Secret) by_name); unfold by_name, str_le.
  - intros x y. apply lex_le_total.
  - intros x y z. apply lex_le_trans.
Qed.

Section Listing.
Context {HX : Hex} {SH : Sha256} {SJ : SecretJson}.
Variables (c : SCall) (claims : ScopeClaims) (attrs : RequestAttributes) (filter_ : SecretListFilter) (d : SDb).

(** A row that the caller asked for and may see. *)
Record visible (id : str) (r : Secret) : Prop := {
  vi_row : sd_secrets d !! id = Some r;
  vi_live : sec_deleted r = None;
  vi_scope : sec_project r = lf_project_id filter_ /\ sec_env r = lf_environment_id filter_;
  vi_confined : human_session attrs = false -> sec_binding r = Policy.repository_binding_id claims /\ sec_service r = Policy.service_id claims;
  vi_status : forall s, lf_status filter_ = Some s -> sec_status r = s;
  vi_name : forall q, lf_q filter_ = Some q -> contains_ci (trim q) (sec_name r);
  vi_tag : forall tag, lf_tag filter_ = Some tag -> tag ∈ v_tags (secret_view_from_row id r);
  vi_allowed : is_ok (authorize (cl_row_policy c id) (sd_auth d) claims ReadMetadata (target_from_view (secret_view_from_row id r)) attrs
                        (cl_now c "list")) = true;
}.
Definition candidates : list (str * Secret) := List.filter (fun kv => listed claims attrs filter_ kv.2) (map_to_list (sd_secrets d)).
Definition limit : Z := Z.max 1 (Z.min (lf_limit filter_) MAX_LIST_LIMIT).

Lemma contains_nil text : contains_ci [] text.
Proof. by exists [], [], text. Qed.
Lemma pattern_contains name :
  match like_pattern (lf_q filter_) with None => true | Some pattern => like pattern name end = true <->
  forall q, lf_q filter_ = Some q -> contains_ci (trim q) name.
Proof.
  unfold like_pattern. destruct (lf_q filter_) as [q|]; [|by split]. change (trim <$> Some q) with (Some (trim q)). destruct (trim q) as [|ch rest] eqn:E.
  - split; [|done]. intros _ q' [= <-]. rewrite E. apply contains_nil.
  - rewrite search_contains. split; [by intros H q' [= <-]; rewrite E|]. intros H. rewrite <- E. by apply H.
Qed.
Lemma listed_iff r : listed claims attrs filter_ r = true <->
  (sec_project r = lf_project_id filter_ /\ sec_env r = lf_environment_id filter_) /\ sec_deleted r = None /\
  (forall s, lf_status filter_ = Some s -> sec_status r = s) /\ (forall q, lf_q filter_ = Some q -> contains_ci (trim q) (sec_name r)) /\
  (human_session attrs = false -> sec_binding r = Policy.repository_binding_id claims /\ sec_service r = Policy.service_id claims).
Proof.
  unfold listed. rewrite !andb_true_iff, !bool_decide_eq_true, pattern_contains.
  assert (match lf_status filter_ with Some s => bool_decide (sec_status r = s) | None => true end = true <->
          forall s, lf_status filter_ = Some s -> sec_status r = s) as ->.
  { destruct (lf_status filter_) as [s|]; [|done]. rewrite bool_decide_eq_true. split; [by intros H s' [= <-]|intros H; by apply H]. }
  destruct (human_session attrs); cbn; [|rewrite !bool_decide_eq_true]; naive_solver.
Qed.

(** A listing returns live, authorised rows that match the filter, at most 500 and in the
    order of their names; and when the rows that match fit its limit, all of them. *)
Theorem listing_exact views d' :
  list_secrets c claims attrs filter_ d = (Ok views, d') ->
  d' = d /\ Z.of_nat (length views) <= MAX_LIST_LIMIT /\ StronglySorted (fun a b => str_le (v_name a) (v_name b) = true) views /\
  (forall view, view ∈ views -> exists id r, visible id r /\ view = secret_view_from_row id r) /\
  (Z.of_nat (length candidates) <= limit -> forall id r, visible id r -> secret_view_from_row id r ∈ views).
Proof.
  unfold list_secrets. cbv zeta. fold limit. intros (t & d1 & E1 & E)%tbind_ok. apply query_if_ok in E1 as (_ & _ & ->).
  apply tbind_ok in E as (u & d1 & E1 & E). assert (d1 = d) as -> by (unfold authorized in E1; by injection E1). clear E1.
  apply tbind_ok in E as (rows & d1 & E1 & E). apply query_if_ok in E1 as (_ & Er & ->). fold candidates in Er.
  apply tbind_ok in E as (au & d1 & E1 & E). injection E1 as <- <-. injection E as <- <-. split; [done|].
  assert (forall id r, (id, r) ∈ candidates <-> sd_secrets d !! id = Some r /\ listed claims attrs filter_ r = true) as Hcand.
  { intros id r. unfold candidates. rewrite list_elem_of_In, filter_In, <- list_elem_of_In, elem_of_map_to_list. done. }
  assert (forall kv, kv ∈ rows -> kv ∈ candidates) as Hrows.
  { intros kv Hkv. rewrite Er in Hkv. apply elem_of_take in Hkv as (i & Hi & _). apply list_elem_of_lookup_2 in Hi. by rewrite sort_perm in Hi. }
  split; [|split; [|split]].
  - etrans; [apply Nat2Z.inj_le, filter_length_le|]. rewrite length_fmap, Er, length_take. unfold limit, MAX_LIST_LIMIT. lia.
  - apply strongly_list_filter. rewrite Er. pose proof (strongly_take _ (Z.to_nat limit) _ (names_sorted candidates)) as Hs.
    clear - Hs. induction Hs as [|x l Hl IH Hx]; cbn; [constructor|]. constructor; [done|]. by apply Forall_fmap.
  - intros view Hview. apply list_elem_of_In, filter_In in Hview as (Hin & Hok). apply list_elem_of_In, list_elem_of_fmap in Hin as ([id r] & -> & Hin).
    apply Hrows, Hcand in Hin as (Hr & Hl). apply listed_iff in Hl as (Hs & Hd & Hst & Hq & Hc). apply andb_true_iff in Hok as (Ha & Ht).
    exists id, r. split; [|done]. split; try done. intros tag Etag. rewrite Etag in Ht. by apply bool_decide_eq_true in Ht.
  - intros Hfew id r [Hr Hd Hs Hc Hst Hq Ht Ha]. apply list_elem_of_In, filter_In. split.
    + apply list_elem_of_In, list_elem_of_fmap. exists (id, r). split; [done|]. rewrite Er, take_ge, sort_perm; [|rewrite sort_perm; lia].
      apply Hcand. split; [done|]. by apply listed_iff.
    + cbn [v_secret_id secret_view_from_row]. rewrite Ha. destruct (lf_tag filter_) as [tag|]; [|done]. by apply bool_decide_eq_true, Ht.
Qed.
End Listing.
