(* ===== verification/SecretsTypes.v ===== *)
(** * Well-formed tables of secrets

    What the rows of secrets.rs and rotation.rs always satisfy: names are unique in their
    environment, a secret has exactly the versions from the first to the current one, deletion
    and status agree, and every reference has its row. *)

From S2P Require Import Prelude Errors Sorting Tables Primitives SamplePrimitives Names Crypto Redact Policy AuditChain Grants Migration Secrets SecretsTheory.

#[local] Open Scope tx_scope.

Definition place (r : Secret) : str * str * str := (sec_project r, sec_env r, sec_name r).
Definition status_ok (r : Secret) : Prop :=
  match sec_deleted r with
  | None => sec_status r = lit "active" \/ sec_status r = lit "deprecated"
  | Some _ => sec_status r = lit "scheduled_deletion"
  end.
Definition refers (d : SDb) (r : Secret) : Prop :=
  is_Some (sd_projects d !! sec_project r) /\ is_Some (environments (sd_auth d) !! sec_env r) /\
  dangling (sec_binding r) (sd_bindings d) = false /\ dangling (sec_service r) (sd_services d) = false.
(** No secret has had more than [n] versions. *)
Record typed (n : Z) (d : SDb) : Prop := {
  ty_places : forall (i j : str) r s, sd_secrets d !! i = Some r -> sd_secrets d !! j = Some s -> place r = place s -> i = j;
  ty_rows : forall (i : str) r, sd_secrets d !! i = Some r -> status_ok r /\ refers d r /\ 1 <= sec_version r <= n;
  ty_versions : forall (i : str) v, is_Some (sd_versions d !! (i, v)) <-> exists r, sd_secrets d !! i = Some r /\ 1 <= v <= sec_version r;
  ty_keys : forall k ver, sd_versions d !! k = Some ver -> is_Some (sd_keys d !! ver_key ver);
  ty_ids : forall k l ver wer, sd_versions d !! k = Some ver -> sd_versions d !! l = Some wer -> ver_id ver = ver_id wer -> k = l;
}.
Lemma typed_mono n m d : n <= m -> typed n d -> typed m d.
Proof. intros Hn [H1 H2 H3 H4 H5]. split; [done| |done..]. intros i r Hr. destruct (H2 i r Hr) as (? & ? & ?). split; [done|]. split; [done|lia]. Qed.

(** What is left alone by every statement but those on secrets and versions. *)
Record frame (d d' : SDb) : Prop := {
  fr_same : same d d'; fr_keys : sd_keys d ⊆ sd_keys d'; fr_auth : sd_auth d' = sd_auth d; fr_projects : sd_projects d' = sd_projects d;
  fr_services : sd_services d' = sd_services d; fr_bindings : sd_bindings d' = sd_bindings d;
}.
#[local] Instance frame_preorder : PreOrder frame.
Proof.
  split; [by split|]. intros d1 d2 d3 [[] ? ? ? ? ?] [[] ? ? ? ? ?]. split; [split; congruence|by etrans|congruence..].
Qed.
Lemma typed_frame n d d' : frame d d' -> typed n d -> typed n d'.
Proof.
  intros [(Es & Ev) Hk Ea Ep Esv Eb] [H1 H2 H3 H4 H5]. split.
  - by rewrite Es.
  - intros i r Hr. rewrite Es in Hr. destruct (H2 i r Hr) as (? & Hf & ?). split; [done|]. split; [|done]. unfold refers in *. by rewrite Ea, Ep, Esv, Eb.
  - by rewrite Es, Ev.
  - intros k ver Hv. rewrite Ev in Hv. destruct (H4 k ver Hv) as (x & Hx). exists x. by eapply lookup_weaken.
  - by rewrite Ev.
Qed.

(** ** Changes of one row *)

Definition free (d : SDb) (id : str) (p : str * str * str) : Prop := forall (j : str) s, sd_secrets d !! j = Some s -> j <> id -> place s <> p.
Lemma name_taken_free d id p e n : name_taken d id p e n = false -> free d id (p, e, n).
Proof.
  intros H j s Hs Hne [= E1 E2 E3]. apply not_true_iff_false in H. apply H. apply existsb_exists. exists (j, s).
  split; [by apply list_elem_of_In, elem_of_map_to_list|]. cbn. rewrite bool_decide_eq_false_2 by done. cbn. by apply bool_decide_eq_true_2.
Qed.
Lemma free_own d n id r : typed n d -> sd_secrets d !! id = Some r -> free d id (place r).
Proof. intros H Hr j s Hs Hne E1. apply Hne. by apply (ty_places _ _ H j id s r). Qed.

Lemma places_insert d id r' : (forall i j r s, sd_secrets d !! i = Some r -> sd_secrets d !! j = Some s -> place r = place s -> i = j) ->
  free d id (place r') -> forall (i j : str) r s, <[id := r']> (sd_secrets d) !! i = Some r -> <[id := r']> (sd_secrets d) !! j = Some s -> place r = place s -> i = j.
Proof.
  intros H Hfree i j r s Hr Hs E1. destruct (decide (i = id)) as [->|Hi], (decide (j = id)) as [->|Hj]; [done|..];
    rewrite ?lookup_insert_eq, ?lookup_insert_ne in * by done.
  - injection Hr as <-. by destruct (Hfree j s Hs Hj).
  - injection Hs as <-. by destruct (Hfree i r Hr Hi).
  - by apply (H i j r s).
Qed.
Lemma set_sec_frame f d : refers (set_sec f d) = refers d.
Proof. by destruct d. Qed.
(** A row keeps its versions. *)
Lemma typed_row n d id r r' : typed n d -> sd_secrets d !! id = Some r -> sec_version r' = sec_version r -> status_ok r' -> refers d r' ->
  free d id (place r') -> typed n (set_sec (<[id := r']>) d).
Proof.
  intros [H1 H2 H3 H4 H5] Hr Ev Hs Hf Hp. assert (sd_secrets (set_sec (<[id := r']>) d) = <[id := r']> (sd_secrets d)) as Es by (by destruct d).
  split; [|rewrite set_sec_frame|..]; rewrite ?Es.
  - by apply places_insert.
  - intros i s Hi. destruct (decide (i = id)) as [->|Hne]; rewrite ?lookup_insert_eq, ?lookup_insert_ne in Hi by done; [|by apply (H2 i s)].
    injection Hi as <-. split; [done|]. split; [done|]. rewrite Ev. apply (H2 _ _ Hr).
  - intros i v. replace (sd_versions (set_sec _ d)) with (sd_versions d) by (by destruct d). rewrite H3.
    destruct (decide (i = id)) as [->|Hne]; [|by rewrite lookup_insert_ne by done]. rewrite lookup_insert_eq, Hr.
    split; intros (x & [= <-] & Hv); [exists r'|exists r]; split; try done; lia.
  - destruct d. exact H4.
  - destruct d. exact H5.
Qed.
(** A row gets its next version, or is new with its first. *)
Lemma typed_next n d id r' ver : typed n d -> 0 <= n ->
  sec_version r' = match sd_secrets d !! id with Some r => sec_version r + 1 | None => 1 end -> status_ok r' -> refers d r' -> free d id (place r') ->
  is_Some (sd_keys d !! ver_key ver) -> (forall k wer, sd_versions d !! k = Some wer -> ver_id wer <> ver_id ver) ->
  typed (n + 1) (set_sec (<[id := r']>) (set_versions (<[(id, sec_version r') := ver]>) d)).
Proof.
  intros [H1 H2 H3 H4 H5] Hn Ev Hs Hf Hp Hk Hid. set (d' := set_sec _ _).
  assert (sd_secrets d' = <[id := r']> (sd_secrets d)) as Es by (by destruct d).
  assert (sd_versions d' = <[(id, sec_version r') := ver]> (sd_versions d)) as Evs by (by destruct d).
  assert (refers d' = refers d /\ sd_keys d' = sd_keys d) as (Er & Eks) by (by destruct d).
  split; rewrite ?Es, ?Evs, ?Er, ?Eks.
  - by apply places_insert.
  - intros i s Hi. destruct (decide (i = id)) as [->|Hne]; rewrite ?lookup_insert_eq, ?lookup_insert_ne in Hi by done.
    + injection Hi as <-. split; [done|]. split; [done|]. destruct (sd_secrets d !! id) as [r|] eqn:Er0; [|lia]. destruct (H2 _ _ Er0) as (_ & _ & ?). lia.
    + destruct (H2 i s Hi) as (? & ? & ?). split; [done|]. split; [done|lia].
  - intros i v. destruct (decide (i = id)) as [->|Hne].
    + rewrite lookup_insert_eq. destruct (decide (v = sec_version r')) as [->|Hv].
      * rewrite lookup_insert_eq. split; [|eauto]. intros _. exists r'. split; [done|]. destruct (sd_secrets d !! id) as [r|] eqn:Er0; [|lia].
        destruct (H2 _ _ Er0) as (_ & _ & ?). lia.
      * rewrite lookup_insert_ne by congruence. rewrite H3. destruct (sd_secrets d !! id) as [r|] eqn:Er0.
        -- split; intros (x & [= <-] & Hx); [exists r'|exists r]; (split; [done|lia]).
        -- split; [by intros (x & ? & _)|]. intros (x & [= <-] & Hx). lia.
    + rewrite lookup_insert_ne by congruence. rewrite H3. by rewrite lookup_insert_ne by done.
  - intros k wer Hw. destruct (decide (k = (id, sec_version r'))) as [->|Hne].
    + rewrite lookup_insert_eq in Hw. by injection Hw as <-.
    + rewrite lookup_insert_ne in Hw by done. by apply (H4 k).
  - intros k l v w Hv Hw E1. destruct (decide (k = (id, sec_version r'))) as [->|Hk'], (decide (l = (id, sec_version r'))) as [->|Hl]; [done|..].
    + rewrite lookup_insert_eq in Hv. rewrite lookup_insert_ne in Hw by done. injection Hv as <-. by destruct (Hid l w Hw).
    + rewrite lookup_insert_eq in Hw. rewrite lookup_insert_ne in Hv by done. injection Hw as <-. by destruct (Hid k v Hv).
    + rewrite lookup_insert_ne in Hv, Hw by done. by apply (H5 k l v w).
Qed.

(** ** Statements *)

Section Calls.
Context {HX : Hex} {SH : Sha256} {JS : Json} {XC : XChaCha} {SJ : SecretJson} {S : Type} {K : KeyWrappingService S}.
Variables (wrap : S) (kek_id : str) (c : SCall).
Abbreviation any := (fun _ : SDb => True).

Lemma framed_kek t p now d : hoare any (ensure_kek_row kek_id c t p now) d (fun _ d' => frame d d' /\ is_Some (sd_keys d' !! kek_id)).
Proof.
  apply hoare_statement; [done|]. intros d' H%stamped_ok. destruct (bool_decide _) eqn:Ek.
  - injection H as <-. split; [done|]. by apply bool_decide_eq_true in Ek.
  - apply bail_ok in H as (_ & [= <-]). split; [split|]; destruct d; try done; cbn in *.
    + apply insert_subseteq. apply bool_decide_eq_false in Ek. by apply eq_None_not_Some.
    + rewrite lookup_insert_eq. eauto.
Qed.
Lemma framed_audit event t p e id v pr rq re now d : hoare any (audit c event t p e id v pr rq re now) d (fun _ => frame d).
Proof. apply hoare_statement; [done|]. intros d' H. destruct (audit_secret_event _ _ _ _); [|done]. injection H as <-. split; by destruct d. Qed.
Lemma framed_job name id key job d : hoare any (insert_job c name id key job) d (fun _ => frame d).
Proof.
  apply hoare_statement; [done|]. intros d' H%stamped_ok. repeat (apply bail_ok in H as (_ & H)). injection H as <-. split; by destruct d.
Qed.
Lemma framed_delete_job id key d : hoare any (delete_job c id key) d (fun _ => frame d).
Proof. apply hoare_statement; [done|]. intros d' [= <-]. split; by destruct d. Qed.
Lemma typed_insert_version id version ver d : hoare any (insert_version c id version ver) d (fun _ d' =>
  d' = set_versions (<[(id, version) := ver]>) d /\ is_Some (sd_keys d !! ver_key ver) /\ (forall k wer, sd_versions d !! k = Some wer -> ver_id wer <> ver_id ver)).
Proof.
  apply hoare_statement; [done|]. intros d' H%stamped_ok. apply bail_ok in H as (Hid & H). apply bail_ok in H as (_ & H). apply bail_ok in H as (Hk & H).
  injection H as <-. apply orb_false_iff in Hk as (_ & Hk). apply bool_decide_eq_false in Hk. split; [done|]. split; [by destruct (sd_keys d !! _)|].
  intros k wer Hw E1. apply not_true_iff_false in Hid. apply Hid, existsb_exists. exists (k, wer).
  split; [by apply list_elem_of_In, elem_of_map_to_list|]. by apply bool_decide_eq_true_2.
Qed.
Lemma typed_insert_secret id r d : hoare any (insert_secret c id r) d (fun _ d' =>
  sd_secrets d !! id = None /\ d' = set_sec (<[id := r]>) d /\ free d id (place r) /\ refers d r).
Proof.
  apply hoare_statement; [done|]. intros d' H%stamped_ok. apply bail_ok in H as (Hn & H). apply bail_ok in H as (Ht & H).
  apply bail_ok in H as (Hf & H). injection H as <-. apply bool_decide_eq_false in Hn. split; [by apply eq_None_not_Some|]. split; [done|].
  split; [by apply name_taken_free|]. rewrite !orb_false_iff in Hf. destruct Hf as (((Hp & He) & Hb) & Hs).
  apply bool_decide_eq_false in Hp, He. split; [by destruct (sd_projects d !! _)|]. split; [by destruct (environments _ !! _)|done].
Qed.

Variables (n : Z) (d : SDb).
Hypothesis Hd : typed n d.
Hypothesis Hn : 0 <= n < i64_max.
Abbreviation inv := (typed (n + 1)).
Lemma typed_now : inv d.
Proof. apply (typed_mono n); [lia|done]. Qed.
Lemma typed_later d' : frame d d' -> inv d'.
Proof. intros Hf. by apply (typed_frame _ d), typed_now. Qed.

Lemma typed_transaction (m : STx unit) event t p e id v pr rq re now :
  hoare any m d (fun _ => inv) -> hoare inv (transaction c (m ;;; audit c event t p e id v pr rq re now)) d (fun _ => inv).
Proof.
  intros Hm. apply hoare_transaction; [apply typed_now|]. eapply hoare_bind; [exact Hm|]. intros u d' Hd'.
  eapply hoare_mono; [apply framed_audit|]. intros u' d'' Hf. by apply (typed_frame _ d').
Qed.
Lemma typed_alter id r (f : Secret -> Secret) : sd_secrets d !! id = Some r -> sec_version (f r) = sec_version r -> status_ok (f r) -> refers d (f r) ->
  free d id (place (f r)) -> inv (set_sec (alter f id) d).
Proof. intros Hr Ev Hs Hf Hp. rewrite (alter_insert f id r) by done. apply (typed_mono n); [lia|]. by apply (typed_row n d id r). Qed.
(** A change that touches neither the place nor the references. *)
Lemma typed_touch id r (f : Secret -> Secret) : sd_secrets d !! id = Some r -> sec_version (f r) = sec_version r -> place (f r) = place r ->
  sec_binding (f r) = sec_binding r -> sec_service (f r) = sec_service r -> status_ok (f r) -> inv (set_sec (alter f id) d).
Proof.
  intros Hr Ev Ep Eb Esv Hs. apply (typed_alter id r); try done.
  - destruct (ty_rows _ _ Hd _ _ Hr) as (_ & Hf & _). unfold refers in *. injection Ep as E1 E2 E3. by rewrite E1, E2, Eb, Esv.
  - rewrite Ep. by apply (free_own d n).
Qed.

Lemma typed_get_value claims attrs id request : hoare inv (get_secret_value wrap c claims attrs id request) d (fun _ => inv).
Proof.
  unfold get_secret_value. pose proof typed_now. apply hoare_read_bind; [apply reads_resolve|done|]. intros view (r & Hr & Hl & ->)%resolve_ok.
  apply hoare_read_bind; [apply reads_authorized|done|intros ? _]. apply hoare_read_bind; [apply reads_open|done|intros ? _]. cbv zeta.
  eapply (hoare_bind _ _ _ _ (fun _ => inv)); [|intros u d' Hd'; by apply hoare_done]. apply typed_transaction. eapply hoare_mono; [apply hoare_update_row|].
  intros u d' ->. apply (typed_touch id r); try done; [by destruct r..|]. pose proof (ty_rows _ _ Hd _ _ Hr) as (Hs & _). by destruct r.
Qed.
Lemma typed_update_metadata claims attrs id patch request : hoare inv (update_secret_metadata c claims attrs id patch request) d (fun _ => inv).
Proof.
  unfold update_secret_metadata. pose proof typed_now. apply hoare_read_bind; [apply reads_resolve|done|]. intros view (r & Hr & Hl & ->)%resolve_ok.
  do 3 (apply hoare_read_bind; [reading|done|intros ? _]). apply hoare_read_bind; [apply reads_when; intros; apply reads_ret|done|intros u Hst].
  apply hoare_read_bind; [reading|done|intros tags _]. cbv zeta.
  eapply (hoare_bind _ _ _ _ (fun _ => inv)); [|intros u' d' Hd'; apply hoare_reads; [apply reads_resolve|done|done]]. apply typed_transaction.
  apply hoare_statement; [done|]. intros d' H1%stamped_ok. apply bail_ok in H1 as (_ & [= <-]).
  apply (typed_touch id r); try done; [by destruct r..|]. pose proof (ty_rows _ _ Hd _ _ Hr) as (Hs & _). unfold status_ok in *. rewrite Hl in Hs.
  assert (sec_deleted (patched patch tags (cl_now c "write") r) = None) as -> by (by destruct r).
  replace (sec_status _) with (coalesce (um_status patch) (sec_status r)) by (by destruct r). destruct (um_status patch) as [status|]; [|done].
  cbn in *. destruct (bool_decide _) eqn:E1; [|done]. apply bool_decide_eq_true in E1. rewrite elem_of_cons, list_elem_of_singleton in E1. exact E1.
Qed.
Lemma typed_delete claims attrs id reason request : hoare inv (delete_secret c claims attrs id reason request) d (fun _ => inv).
Proof.
  unfold delete_secret. pose proof typed_now. apply hoare_read_bind; [apply reads_resolve|done|]. intros view (r & Hr & Hl & ->)%resolve_ok.
  apply hoare_read_bind; [apply reads_authorized|done|intros ? _]. destruct (is_blank _); [by apply hoare_ret|]. cbv zeta.
  apply typed_transaction. eapply hoare_mono; [apply hoare_update_row|]. intros u d' ->. apply (typed_touch id r); try done; by destruct r.
Qed.
Lemma typed_rebind claims attrs id input : hoare inv (rebind_secret c claims attrs id input) d (fun _ => inv).
Proof.
  unfold rebind_secret. pose proof typed_now. apply hoare_read_bind; [apply reads_resolve|done|]. intros view (r & Hr & Hl & ->)%resolve_ok.
  apply hoare_read_bind; [apply reads_authorized|done|intros ? _]. destruct (is_blank _); [by apply hoare_ret|].
  apply hoare_read_bind; [apply reads_when; intros; apply reads_binding|done|intros ? _].
  apply hoare_read_bind; [apply reads_when; intros; apply reads_service|done|intros ? _]. cbv zeta.
  apply hoare_read_bind; [apply reads_authorized|done|intros ? _].
  eapply (hoare_bind _ _ _ _ (fun _ => inv)); [|intros u' d' Hd'; apply hoare_reads; [apply reads_resolve|done|done]]. apply typed_transaction.
  apply hoare_statement; [done|]. intros d' H1%stamped_ok. apply bail_ok in H1 as (Hdang & [= <-]). apply orb_false_iff in Hdang as (Hb & Hsv).
  pose proof (ty_rows _ _ Hd _ _ Hr) as (Hs & (Hp & He & _) & _). apply (typed_alter id r); try done; [by destruct r|by destruct r|by destruct r|].
  replace (place _) with (place r) by (by destruct r). by apply (free_own d n).
Qed.

(** The next version of a row, after statements that left the rows alone. *)
Lemma typed_step id r' ver d1 : frame d d1 ->
  sec_version r' = match sd_secrets d !! id with Some r => sec_version r + 1 | None => 1 end -> status_ok r' -> refers d1 r' -> free d1 id (place r') ->
  is_Some (sd_keys d1 !! ver_key ver) -> (forall k wer, sd_versions d1 !! k = Some wer -> ver_id wer <> ver_id ver) ->
  inv (set_sec (<[id := r']>) (set_versions (<[(id, sec_version r') := ver]>) d1)).
Proof.
  intros Hf Ev. apply typed_next; [by apply (typed_frame n d)|lia|]. destruct Hf as [(Es & _) _ _ _ _ _]. by rewrite Es.
Qed.
Lemma typed_create claims attrs input : hoare inv (create_secret wrap kek_id c claims attrs input) d (fun _ => inv).
Proof.
  unfold create_secret. pose proof typed_now as Hnow. apply hoare_read_bind; [apply reads_query|done|]. intros [tenant|] _; [|by apply hoare_ret].
  cbv zeta. apply hoare_read_bind; [apply reads_authorized|done|intros ? _].
  do 3 (apply hoare_read_bind; [apply reads_ret|done|intros ? _]). destruct (is_blank _); [by apply hoare_ret|].
  apply hoare_read_bind; [apply reads_row|done|intros ? _].
  apply hoare_read_bind; [apply reads_when; intros; apply reads_binding|done|intros ? _].
  apply hoare_read_bind; [apply reads_when; intros; apply reads_service|done|intros ? _].
  do 6 (apply hoare_read_bind; [apply reads_ret|done|intros ? _]).
  eapply (hoare_bind _ _ _ _ (fun _ => inv)); [|intros u' d' Hd'; apply hoare_reads; [apply reads_resolve|done|done]].
  apply hoare_transaction; [done|]. eapply hoare_bind; [apply framed_kek|]. intros u1 d1 (Hf1 & _).
  eapply hoare_bind; [apply typed_insert_secret|]. intros u2 d2 (Hnone & -> & Hfree & Href).
  eapply hoare_bind; [apply typed_insert_version|]. intros u3 d3 (-> & Hk & Hid). eapply hoare_mono; [apply framed_audit|]. intros u4 d4 Hf4.
  apply (typed_frame _ _ _ Hf4). match goal with |- context [set_versions (<[_ := ?x]>) (set_sec (<[?i := ?y]>) d1)] => set (id := i) in *; set (ver := x) in *; set (row := y) in * end.
  replace (set_versions _ _) with (set_sec (<[id := row]>) (set_versions (<[(id, sec_version row) := ver]>) d1)) by (by destruct d1).
  apply typed_step; try done; [|by left|by destruct d1..]. destruct Hf1 as [(Es & _) _ _ _ _ _]. by rewrite <- Es, Hnone.
Qed.

Lemma as_i64_next v : 1 <= v <= n -> as_i64 (v + 1) = v + 1.
Proof. intros Hv. unfold as_i64. destruct (_ <=? _) eqn:E; [done|]. lia. Qed.
Lemma typed_rename id r name env version now d1 : sd_secrets d1 !! id = Some r -> refers d1 r ->
  hoare any (rename_secret c id (secret_view_from_row id r) name env version now) d1 (fun _ d' =>
    d' = set_sec (<[id := renamed name env version now r]>) d1 /\ free d1 id (place (renamed name env version now r)) /\ refers d1 (renamed name env version now r)).
Proof.
  intros Hr (Hp & Hev & Hb & Hsv). apply hoare_statement; [done|]. intros d' H1%stamped_ok. apply bail_ok in H1 as (Ht & H1).
  apply bail_ok in H1 as (He & [= <-]). split; [by apply alter_insert|].
  split; [replace (place _) with (sec_project r, env, name) by (by destruct r); by apply name_taken_free|]. cbn [v_environment_id secret_view_from_row] in He.
  split; [by destruct r|]. split; [|by destruct r]. replace (sec_env _) with env by (by destruct r).
  destruct (bool_decide_reflect (env = sec_env r)) as [->|]; [done|]. cbn in He. apply bool_decide_eq_false in He. by destruct (environments _ !! env).
Qed.
Lemma typed_move claims attrs id input : hoare inv (move_secret wrap kek_id c claims attrs id input) d (fun _ => inv).
Proof.
  unfold move_secret. pose proof typed_now as Hnow. apply hoare_read_bind; [apply reads_resolve|done|]. intros view (r & Hr & Hl & ->)%resolve_ok.
  apply hoare_read_bind; [apply reads_authorized|done|intros ? _]. destruct (is_blank _); [by apply hoare_ret|].
  apply hoare_read_bind; [apply reads_when; intros; apply reads_ret|done|intros ? _].
  apply hoare_read_bind; [apply reads_when; intros; apply reads_environment|done|intros ? _].
  destruct (bool_decide _); [by apply hoare_ret|]. cbv zeta.
  apply hoare_read_bind; [apply reads_authorized|done|intros ? _].
  eapply (hoare_bind _ _ _ _ (fun _ => inv)); [|intros u d' Hd'; apply hoare_reads; [apply reads_resolve|done|done]].
  apply hoare_transaction; [done|]. eapply hoare_bind; [apply framed_kek|]. intros u1 d1 (Hf1 & _).
  destruct (ty_rows _ _ Hd _ _ Hr) as (Hst & _ & Hv). pose proof Hf1 as [(Es & _) _ _ _ _ _].
  assert (refers d1 r) as Hrf1 by (apply (ty_rows _ _ (typed_frame n d d1 Hf1 Hd) id r); by rewrite Es).
  eapply (hoare_bind _ _ _ _ (fun _ => inv)).
  - set (env := default _ (mo_new_environment_id input)). set (name := default _ (mo_new_name input)). destruct (negb _).
    + unfold reseal. apply hoare_bind with (P := fun _ d' => exists ver, d' = set_versions (<[(id, sec_version r + 1) := ver]>) d1 /\
        is_Some (sd_keys d1 !! ver_key ver) /\ forall k wer, sd_versions d1 !! k = Some wer -> ver_id wer <> ver_id ver).
      { apply hoare_read_bind; [apply reads_open|done|intros ? _]. do 5 (apply hoare_read_bind; [apply reads_ret|done|intros ? _]).
        eapply hoare_mono; [apply typed_insert_version|]. intros u2 d2 (-> & Hk & Hid). cbn [v_secret_id v_current_version secret_view_from_row] in *.
        rewrite (as_i64_next _ Hv). by eexists. }
      intros u2 d2 (ver & -> & Hk & Hid). pose proof (as_i64_next _ Hv) as Ei. cbn [v_current_version secret_view_from_row] in *. rewrite Ei.
      eapply hoare_mono; [apply typed_rename; [destruct d1; cbn in *; by rewrite Es|by destruct d1]|]. intros u3 d3 (-> & Hfree & Hrf). set (r' := renamed _ _ _ _ r) in *.
      assert (sec_version r' = sec_version r + 1) as Ev by (by destruct r). rewrite <- Ev.
      apply typed_step; [done|by rewrite Hr| |by destruct d1..]. unfold status_ok in *. by destruct r.
    + eapply hoare_mono; [apply typed_rename; [by rewrite Es|done]|]. intros u3 d3 (-> & Hfree & Hrf). apply (typed_mono n); [lia|].
      apply (typed_row n d1 id r); [by apply (typed_frame n d)|by rewrite Es|by destruct r| |done|done]. unfold status_ok in *. by destruct r.
  - intros u2 d2 Hd2. eapply hoare_read_bind; [apply reads_resolve|done|]. intros view _. eapply hoare_mono; [apply framed_audit|].
    intros u3 d3 Hs3. by apply (typed_frame _ d2).
Qed.

Lemma typed_rotate_version verifier claims input r digest d1 : frame d d1 -> sd_secrets d !! rs_secret_id input = Some r ->
  hoare any (rotate_version wrap kek_id c verifier claims input (secret_view_from_row (rs_secret_id input) r) digest) d1 (fun _ => inv).
Proof.
  intros Hf Hr. unfold rotate_version. destruct (ty_rows _ _ Hd _ _ Hr) as (Hst & _ & Hv).
  do 4 (apply hoare_read_bind; [apply reads_ret|done|intros ? _]). cbv zeta. destruct (_ || _); [done|].
  apply hoare_read_bind; [apply reads_ret|done|intros sealed _].
  eapply hoare_bind; [apply framed_kek|]. intros u2 d2 (Hf2 & _). assert (frame d d2) as Hfd by (by etrans).
  pose proof (fr_same _ _ Hfd) as (Es & _). assert (sd_secrets d2 !! rs_secret_id input = Some r) as Hr2 by (by rewrite Es).
  pose proof (typed_frame n d d2 Hfd Hd) as Hd2. destruct (ty_rows _ _ Hd2 _ _ Hr2) as (_ & Href & _).
  eapply hoare_bind; [apply typed_insert_version|]. intros u3 d3 (-> & Hk & Hid). eapply hoare_bind; [apply hoare_update_row|]. intros u4 d4 ->.
  eapply hoare_bind; [apply framed_job|]. intros u5 d5 Hf5. eapply hoare_bind; [apply framed_audit|]. intros u6 d6 Hf6.
  apply hoare_done. apply (typed_frame _ _ _ Hf6), (typed_frame _ _ _ Hf5). rewrite (alter_insert _ _ r) by (by destruct d2).
  set (r' := advanced _ _ r). cbn [v_current_version secret_view_from_row]. assert (sec_version r' = sec_version r + 1) as Ev by (by destruct r).
  rewrite <- Ev. apply typed_step; [done|by rewrite Hr| | | |done|done].
  - unfold status_ok in *. by destruct r.
  - unfold refers in *. by destruct r.
  - replace (place r') with (place r) by (by destruct r). by apply (free_own d2 n).
Qed.
Lemma typed_rotate verifier claims attrs input : hoare inv (rotate_secret wrap kek_id c verifier claims attrs input) d (fun _ => inv).
Proof.
  unfold rotate_secret. pose proof typed_now as Hnow. apply hoare_read_bind; [apply reads_query|done|intros ? _].
  eapply hoare_bind; [apply (hoare_committing _ _ _ _ (fun e d' => inv d')); [done|]|].
  2: { intros [o|o|] d'; [by intros (-> & _)|done|done]. }
  apply hoare_read_bind; [apply reads_resolve|done|]. intros view (r & Hr & Hl & ->)%resolve_ok.
  apply hoare_read_bind; [apply reads_authorized|done|intros ? _]. destruct (_ || _); [done|]. cbv zeta.
  match goal with |- context [if rv_verify verifier _ then ?a else ?b] => set (fresh := if rv_verify verifier (rs_new_value input) then a else b) end.
  assert (forall d1, frame d d1 -> hoare any fresh d1 (fun _ => inv)) as Hfresh.
  { intros d1 Hf. unfold fresh. destruct (rv_verify _ _); [by apply typed_rotate_version|].
    eapply hoare_bind; [apply framed_job|]. intros u d2 Hf2. apply hoare_done. apply typed_later. by etrans. }
  apply hoare_read_bind; [apply reads_query|done|]. intros [job|] _; [|by apply Hfresh].
  destruct (negb _); [done|]. destruct (bool_decide _); [by apply hoare_ret|].
  eapply hoare_bind; [apply framed_delete_job|]. intros u d1 Hf. by apply Hfresh.
Qed.
End Calls.

Section Histories.
Context {HX : Hex} {SH : Sha256} {JS : Json} {XC : XChaCha} {SJ : SecretJson} {S : Type} {K : KeyWrappingService S}.
Variables (wrap : S) (kek_id : str).

Lemma typed_perform r n d : typed n d -> 0 <= n < i64_max -> typed (n + 1) (perform wrap kek_id r d).2.
Proof.
  intros Hd Hn. assert (typed (n + 1) d) as Hnow by (apply (typed_mono n); [lia|done]).
  assert (forall m : STx SecretAnswer, reads m -> typed (n + 1) (m d).2) as Hreads by (intros m Hm; by rewrite Hm).
  unfold perform. destruct (rq_act r); first [apply Hreads; unfold tmap, get_secret_metadata, list_secrets, query; cbv zeta; reading; fail
    | apply (hoare_state (typed (n + 1))), hoare_tmap].
  - by apply typed_create.
  - by apply typed_get_value.
  - by apply typed_update_metadata.
  - by apply typed_delete.
  - by apply typed_move.
  - by apply typed_rebind.
  - by apply typed_rotate.
Qed.
(** C23: whatever is requested and whichever statements fail, the tables stay well formed: names
    are unique in their environment, a secret has exactly the versions from the first to its
    current one, a live secret is active or deprecated and a deleted one scheduled for deletion,
    and every version has its key and every secret its project, environment, binding and service. *)
Theorem secret_tables_typed h n d : typed n d -> 0 <= n -> n + Z.of_nat (length h) <= i64_max ->
  typed (n + Z.of_nat (length h)) (run wrap kek_id h d).
Proof.
  revert n d; induction h as [|r h IH]; intros n d Hd Hn Hlen; cbn [length run foldl] in *; [by rewrite Z.add_0_r|].
  replace (n + Z.of_nat (Datatypes.S (length h))) with (n + 1 + Z.of_nat (length h)) by lia. apply IH; [apply typed_perform; [done|lia]|lia|lia].
Qed.
End Histories.
