(* ===== verification/KeyLifecycle.v ===== *)
(** * Rings of key-encryption keys

    src/services/account/src/key_lifecycle.rs: the keys of a project by version label, the
    wrapping service they form, and the registration that fixes the key material of a
    label in the database. *)

From S2P Require Import Prelude Errors Sorting Tables Primitives SamplePrimitives Names Crypto Redact Policy AuditChain Grants Migration Secrets SecretsTheory RotationTheory.

#[local] Open Scope tx_scope.

#[export] Instance LocalKekService_eq_dec : EqDecision LocalKekService.
Proof. solve_decision. Defined.

Record VersionedKekService : Type := {
  active_id : str; keys : gmap str LocalKekService; fingerprints : gmap str bytes;
}.

(** serde_json on the configuration: the active version and the keys by version. *)
Class KeyRingJson : Type := { key_ring_from_str : str -> option (str * gmap str str) }.

Definition key_id (project version : str) : str :=
  if bool_decide (version = lit "legacy") then lit "local:" ++ project else lit "local:" ++ project ++ lit ":" ++ version.
Definition is_version_char (b : Z) : bool :=
  is_ascii_alphanumeric b || bool_decide (b ∈ [45; 95; 46]).
Definition valid_version (version : str) : bool :=
  negb (bool_decide (version = [])) && negb (str_len version >? 64) && forallb is_version_char (as_bytes version).

Section KeyRing.
Context {HX : Hex} {SH : Sha256} {JS : Json} {XC : XChaCha} {KJ : KeyRingJson}.

Definition decode_key (raw : str) : result unit bytes :=
  let? key := map_err (fun _ => tt) (hex_decode (trim raw)) in
  bail? negb (blen key =? 32) with tt ;; Ok key.

Definition add_key (id : str) (key : bytes) (s : VersionedKekService) : VersionedKekService :=
  {| active_id := active_id s; keys := <[id := {| Crypto.kek_id := id; kek := key |}]> (keys s);
     fingerprints := <[id := sha256 key]> (fingerprints s) |}.
Definition no_keys (active : str) : VersionedKekService := {| active_id := active; keys := ∅; fingerprints := ∅ |}.
Definition add_version (project : str) (s : VersionedKekService) (entry : str * str) : result unit VersionedKekService :=
  bail? negb (valid_version entry.1) with tt ;;
  let? key := decode_key entry.2 in
  Ok (add_key (key_id project entry.1) key s).

Definition from_config (project raw : str) : result unit VersionedKekService :=
  if negb (starts_with (lit "{") (trim raw)) then
    let id := lit "local:" ++ project in
    let? key := decode_key raw in
    Ok (add_key id key (no_keys id))
  else
    match key_ring_from_str raw with
    | None => Err tt
    | Some (active_version, config) =>
        bail? bool_decide (config = ∅) || (Z.of_nat (size config) >? 32) with tt ;;
        let active := key_id project active_version in
        let? s := try_fold (add_version project) (no_keys active) (map_to_list config) in
        bail? bool_decide (keys s !! active = None) with tt ;;
        Ok s
    end.

Definition ring_wrap (nonce : bytes) (s : VersionedKekService) (dek : bytes) : result CryptoError WrappedDek :=
  match keys s !! active_id s with Some k => wrap_dek nonce k dek | None => Err AuthTagVerificationFailed end.
Definition ring_unwrap (s : VersionedKekService) (wrapped : WrappedDek) : result CryptoError bytes :=
  match keys s !! wrapped_kek_id wrapped with Some k => unwrap_dek k wrapped | None => Err AuthTagVerificationFailed end.

(** What a configuration yields: every key is stored under its name with its
    fingerprint, and the active one is there. *)
Record ring_ok (s : VersionedKekService) : Prop := {
  rk_named : forall id k, keys s !! id = Some k -> Crypto.kek_id k = id /\ fingerprints s !! id = Some (sha256 (kek k));
  rk_printed : forall id f, fingerprints s !! id = Some f -> is_Some (keys s !! id);
  rk_active : is_Some (keys s !! active_id s);
}.
Record Ring : Type := MkRing { ring :> VersionedKekService; ring_wf : ring_ok ring }.
#[global] Instance ring_service : KeyWrappingService Ring :=
  {| wrap_dek := fun nonce (s : Ring) dek => ring_wrap nonce (ring s) dek; unwrap_dek := fun (s : Ring) wrapped => ring_unwrap (ring s) wrapped |}.

(** ** Registration *)

Section Register.
(** [SELECT wrapped_dek ... LIMIT 1] without an order: some row. *)
Variables (pick : list bytes -> option bytes) (c : SCall) (s : VersionedKekService).

Definition historical (d : SDb) (id : str) : list bytes :=
  ver_wrapped <$> filter (fun ver => ver_key ver = id) (map_to_list (sd_versions d)).*2.
(** A stored key must be unwrapped before its label is fixed. *)
Definition prove_dek (id blob : bytes) : result SecretError unit :=
  bail? blen blob <? NONCE_SIZE + TAG_SIZE with SecretInvalid (lit "historical DEK cannot establish KEK identity") ;;
  let? _ := map_err SecretCrypto (ring_unwrap s
    {| wrapped_kek_id := id; wrapped_nonce := take (Z.to_nat NONCE_SIZE) blob; wrapped_blob := drop (Z.to_nat NONCE_SIZE) blob |}) in
  Ok tt.
Definition set_fingerprint (f : bytes) (r : KeyRow) : KeyRow :=
  {| key_tenant := key_tenant r; key_project := key_project r; key_fingerprint := Some f |}.
Definition register_key (tenant project : str) (entry : str * bytes) : STx unit :=
  let '(id, fingerprint) := entry in
  do stored <- query c "fingerprint" (fun d => sd_keys d !! id ≫= key_fingerprint) ;;
  match stored with
  | Some old => tret (if bool_decide (old = fingerprint) then Ok tt else Err (SecretInvalid (lit "KEK version identifies different key material")))
  | None =>
      do blob <- query c "historical" (fun d => pick (historical d id)) ;;
      when_some blob (fun blob => tret (prove_dek id blob)) ;;;
      ensure_kek_row id c tenant project (cl_now c "write") ;;;
      statement c "set_fingerprint" (fun d => Ok (set_keys (alter (set_fingerprint fingerprint) id) d))
  end.
Definition id_le (a b : str * bytes) : bool := str_le a.1 b.1.
Definition register (project : str) : STx unit :=
  transaction c (
    do tenant <- query c "tenant" (fun d => sd_projects d !! project) ;;
    match tenant with
    | None => tret (Err SecretNotFound)
    | Some tenant => tx_for_each (register_key tenant project) (sort id_le (map_to_list (fingerprints s)))
    end).

(** A rehearsal of a recovery compares the labels without registering. *)
Definition verify_registered_identities (has_fingerprints : bool) (d : SDb) : result unit unit :=
  if cl_fails c "table_info" then Err tt else
  if negb has_fingerprints then Ok tt else
  if cl_fails c "identities" then Err tt else
  if forallb (fun entry => match sd_keys d !! entry.1 ≫= key_fingerprint with
                           | Some stored => bool_decide (stored = entry.2) | None => true end) (sort id_le (map_to_list (fingerprints s)))
  then Ok tt else Err tt.
End Register.

(** ** Configurations are well formed *)

Lemma add_key_ok id key s : (forall i k, keys s !! i = Some k -> Crypto.kek_id k = i /\ fingerprints s !! i = Some (sha256 (kek k))) ->
  (forall i f, fingerprints s !! i = Some f -> is_Some (keys s !! i)) ->
  (forall i k, keys (add_key id key s) !! i = Some k -> Crypto.kek_id k = i /\ fingerprints (add_key id key s) !! i = Some (sha256 (kek k))) /\
  (forall i f, fingerprints (add_key id key s) !! i = Some f -> is_Some (keys (add_key id key s) !! i)).
Proof.
  intros H1 H2. unfold add_key. cbn [keys fingerprints]. split; intros i x Hx; destruct (decide (i = id)) as [->|Hne].
  - rewrite lookup_insert_eq in Hx. injection Hx as <-. split; [done|]. by rewrite lookup_insert_eq.
  - rewrite lookup_insert_ne in Hx by done. rewrite lookup_insert_ne by done. by apply H1.
  - rewrite lookup_insert_eq. eauto.
  - rewrite lookup_insert_ne in Hx by done. rewrite lookup_insert_ne by done. by eapply H2.
Qed.
Lemma from_config_ok project raw s : from_config project raw = Ok s -> ring_ok s.
Proof.
  unfold from_config. destruct (negb _).
  - intros H. apply res_bind_ok in H as (key & _ & [= <-]). destruct (add_key_ok (lit "local:" ++ project) key (no_keys (lit "local:" ++ project))) as (H1 & H2); [done..|].
    split; [done|done|]. cbn. rewrite lookup_insert_eq. eauto.
  - destruct (key_ring_from_str raw) as [[version config]|]; [|done]. intros H. apply bail_ok in H as (_ & H).
    apply res_bind_ok in H as (s' & Hf & H). apply bail_ok in H as (Ha & [= <-]).
    assert (active_id s' = key_id project version /\
            (forall i k, keys s' !! i = Some k -> Crypto.kek_id k = i /\ fingerprints s' !! i = Some (sha256 (kek k))) /\
            (forall i f, fingerprints s' !! i = Some f -> is_Some (keys s' !! i))) as (Ea & H1 & H2).
    { revert Hf. apply (try_fold_inv _ (fun s => active_id s = key_id project version /\
            (forall i k, keys s !! i = Some k -> Crypto.kek_id k = i /\ fingerprints s !! i = Some (sha256 (kek k))) /\
            (forall (i : str) (f : bytes), fingerprints s !! i = Some f -> is_Some (keys s !! i)))); [|done].
      intros s0 [v k] s1 _ (E & G1 & G2) H. unfold add_version in H. apply bail_ok in H as (_ & H). apply res_bind_ok in H as (key & _ & [= <-]).
      split; [done|]. by apply add_key_ok. }
    split; [done|done|]. rewrite Ea. apply bool_decide_eq_false in Ha. destruct (keys s' !! _); [eauto|done].
Qed.

Context {XL : XChaChaLaws XC}.
#[global] Instance ring_laws : KeyWrappingLaws Ring ring_service.
Proof.
  split. intros nonce [s Hs] dek w Hd. cbn. unfold ring_wrap, ring_unwrap. destruct (keys s !! active_id s) as [k|] eqn:Ek; [|done].
  intros Hw. assert (wrapped_kek_id w = active_id s) as Ew.
  { cbn in Hw. unfold local_wrap_dek in Hw. apply res_bind_ok in Hw as (blob & _ & [= <-]). cbn. by apply (rk_named s Hs). }
  rewrite Ew, Ek. by eapply unwrap_wrap.
Qed.
Lemma ring_names_key (s : Ring) nonce dek w : length nonce = 24%nat -> wrap_dek nonce s dek = Ok w ->
  wrapped_kek_id w = active_id s /\ length (wrapped_nonce w) = 24%nat /\ TAG_SIZE <= blen (wrapped_blob w).
Proof.
  intros Hn. destruct s as [s Hs]. cbn. unfold ring_wrap. destruct (keys s !! active_id s) as [k|] eqn:Ek; [|done]. cbn. unfold local_wrap_dek.
  intros Hw. apply res_bind_ok in Hw as (blob & Hb & [= <-]). cbn. split; [by apply (rk_named s Hs)|]. split; [done|].
  apply encrypt_with_nonce_len in Hb. unfold TAG_SIZE. pose proof (blen_nonneg dek). lia.
Qed.

(** ** A ring that is replaced *)

Section Replace.
Context {SJ : SecretJson}.
Variable pick : list bytes -> option bytes.

(** The labels of a ring are fixed in the database. *)
Definition registered (s : VersionedKekService) (d : SDb) : Prop := forall id f,
  fingerprints s !! id = Some f -> exists row, sd_keys d !! id = Some row /\ key_fingerprint row = Some f.

Lemma register_key_ok c s tenant project id f d :
  hoare (fun _ => True) (register_key pick c s tenant project (id, f)) d (fun _ d' =>
    same d d' /\ (exists row, sd_keys d' !! id = Some row /\ key_fingerprint row = Some f) /\
    forall i row g, sd_keys d !! i = Some row -> key_fingerprint row = Some g -> exists row', sd_keys d' !! i = Some row' /\ key_fingerprint row' = Some g).
Proof.
  unfold register_key. apply hoare_read_bind; [apply reads_query|done|]. intros stored Es.
  unfold query, query_if in Es. destruct (cl_fails c _); [done|]. injection Es as Es. destruct stored as [old|].
  - case_bool_decide as Eo; [|done]. subst old. apply hoare_done. split; [done|]. split; [|eauto].
    destruct (sd_keys d !! id) as [row|]; [|done]. eauto.
  - apply hoare_read_bind; [apply reads_query|done|]. intros blob _. apply hoare_read_bind; [apply reads_when; intros; apply reads_ret|done|intros ? _].
    eapply (hoare_bind _ _ _ _ (fun _ d1 => same d d1 /\ is_Some (sd_keys d1 !! id) /\ sd_keys d ⊆ sd_keys d1)).
    + apply hoare_statement; [done|]. intros d' H%stamped_ok. case_bool_decide as Hk; [by injection H as <-|]. apply bail_ok in H as (_ & H). injection H as <-.
      destruct d as [au pr sv bd secs vers ks jobs evs]. cbn in *. split; [done|]. rewrite lookup_insert_eq. split; [eauto|].
      apply insert_subseteq. by apply eq_None_not_Some.
    + intros u d1 (Hs & (row & Hrow) & Hsub). apply hoare_statement; [done|]. intros d' [= <-]. destruct d1 as [au pr sv bd secs vers ks jobs evs]. cbn in *.
      split; [by destruct Hs|]. split; [exists (set_fingerprint f row); by rewrite lookup_alter_eq, Hrow|].
      intros i row' g Hi Hg. assert (i <> id) as Hne by (intros ->; by rewrite Hi in Es; cbn in Es; congruence).
      exists row'. rewrite lookup_alter_ne by done. split; [by eapply lookup_weaken|done].
Qed.
Lemma register_fixes c s project d d' :
  register pick c s project d = (Ok tt, d') -> same d d' /\ registered s d' /\
    forall i row g, sd_keys d !! i = Some row -> key_fingerprint row = Some g -> exists row', sd_keys d' !! i = Some row' /\ key_fingerprint row' = Some g.
Proof.
  assert (hoare (fun _ => True) (register pick c s project) d (fun _ d' => same d d' /\ registered s d' /\
    forall i row g, sd_keys d !! i = Some row -> key_fingerprint row = Some g -> exists row', sd_keys d' !! i = Some row' /\ key_fingerprint row' = Some g)) as H;
    [|intros E; by eapply hoare_ok in H].
  unfold register. apply hoare_transaction; [done|]. apply hoare_read_bind; [apply reads_query|done|]. intros [tenant|] _; [|done].
  set (l := sort id_le (map_to_list (fingerprints s))).
  assert (forall id f, fingerprints s !! id = Some f -> (id, f) ∈ l) as Hl.
  { intros id f Hf. unfold l. rewrite sort_perm. by apply elem_of_map_to_list. }
  set (P := fun (rest : list (str * bytes)) (d' : SDb) => same d d' /\
    (forall i row g, sd_keys d !! i = Some row -> key_fingerprint row = Some g -> exists row', sd_keys d' !! i = Some row' /\ key_fingerprint row' = Some g) /\
    forall id f, (id, f) ∈ l -> (id, f) ∈ rest \/ exists row, sd_keys d' !! id = Some row /\ key_fingerprint row = Some f).
  eapply hoare_mono; [apply (hoare_for_each _ _ l d P)|].
  - split; [done|]. split; [eauto|]. auto.
  - intros [id f] rest d1 (Hs & Hold & Hdone). eapply hoare_mono; [apply register_key_ok|]. intros u d2 (Hs2 & Hnew & Hkeep).
    split; [by eapply same_trans|]. split.
    + intros i row g Hi Hg. destruct (Hold i row g Hi Hg) as (row' & Hi' & Hg'). by eapply Hkeep.
    + intros i g Hin. destruct (Hdone i g Hin) as [Hin'|(row & Hi & Hg)]; [|right; by eapply Hkeep].
      apply elem_of_cons in Hin' as [[= -> ->]|Hin']; [by right|by left].
  - intros u d2 (Hs & Hold & Hdone). split; [done|]. split; [|done]. intros id f Hf. destruct (Hdone id f (Hl id f Hf)) as [Hin|]; [|done].
    by apply not_elem_of_nil in Hin.
Qed.

(** Equal labels hold equal keys. *)
Lemma labels_agree (s1 s2 : Ring) d id k1 k2 :
  registered s1 d -> registered s2 d -> keys s1 !! id = Some k1 -> keys s2 !! id = Some k2 -> k1 = k2 \/ sha256_collision.
Proof.
  intros R1 R2 H1 H2. destruct (rk_named _ (ring_wf s1) _ _ H1) as (E1 & F1). destruct (rk_named _ (ring_wf s2) _ _ H2) as (E2 & F2).
  destruct (R1 _ _ F1) as (row1 & Hr1 & G1). destruct (R2 _ _ F2) as (row2 & Hr2 & G2). rewrite Hr1 in Hr2. injection Hr2 as <-. rewrite G1 in G2. injection G2 as E.
  destruct (decide (kek k1 = kek k2)) as [Ek|Hne]; [left; destruct k1, k2; cbn in *; congruence|right; by eexists _, _].
Qed.

(** A version that opened with the first ring opens with the second. *)
Lemma open_version_agrees (s1 s2 : Ring) view ver m :
  (forall id k, keys s1 !! id = Some k -> keys s2 !! id = Some k) -> open_version s1 view ver = Ok m -> open_version s2 view ver = Ok m.
Proof.
  intros Hk. unfold open_version. intros H. apply bail_ok in H as (Hl & H). apply bail_ok. split; [done|].
  apply res_bind_ok in H as (dek & Hd & H). apply res_bind_ok. exists dek. split; [|exact H].
  cbn [unwrap_dek ring_service] in *. unfold ring_unwrap in *. cbn [wrapped_kek_id] in *. destruct (keys s1 !! ver_key ver) as [k|] eqn:E; [|done].
  by rewrite (Hk _ _ E).
Qed.

(** C25: replacing the keys of a project is safe: when a ring was registered, secrets were
    written with it through any history, and a second ring registers successfully that
    keeps every label of the first, then every live secret still opens to its value with
    the second, unless SHA-256 has collided. *)
Theorem ring_replacement_safe c1 c2 p1 p2 (s1 s2 : Ring) d d1 h v d3 :
  register pick c1 s1 p1 d = (Ok tt, d1) ->
  let d2 := run s1 (active_id s1) h d1 in
  holds s1 d2 v -> register pick c2 s2 p2 d2 = (Ok tt, d3) -> dom (keys s1) ⊆ dom (keys s2) ->
  holds s2 d3 v \/ sha256_collision.
Proof.
  intros (_ & R1 & _)%register_fixes d2 Hd ((Es & Ev) & R2 & Hkeep)%register_fixes Hdom.
  assert (registered s1 d3) as R1'.
  { intros id f Hf. destruct (R1 id f Hf) as (row & Hr & Hg). eapply Hkeep; [|exact Hg].
    eapply lookup_weaken; [exact Hr|]. apply (gr_keys _ _ (history_grows s1 (active_id s1) h d1)). }
  destruct (decide (map_Forall (fun id k => keys s2 !! id = Some k) (keys s1))) as [Hsame|Hn].
  - left. intros id. specialize (Hd id). rewrite Es, Ev. destruct (sd_secrets d2 !! id) as [r|]; [|done]. destruct (sec_deleted r); [done|].
    destruct Hd as (m & Hm & ver & Hv & Hdig & Ho). exists m. split; [done|]. exists ver. split; [done|]. split; [done|].
    by apply (open_version_agrees s1 s2).
  - right. apply map_not_Forall in Hn as (id & k & Hk & Hne); [|intros; apply _].
    assert (is_Some (keys s2 !! id)) as (k2 & Hk2) by (apply elem_of_dom, Hdom, elem_of_dom; eauto).
    destruct (labels_agree s1 s2 d3 id k k2 R1' R2 Hk Hk2) as [->|]; done.
Qed.
End Replace.
End KeyRing.
