(* ===== verification/SecretsExamples.v ===== *)
(** * A worked history of secrets

    An instance of the interfaces of [Secrets], and a secret that is created, rotated and
    moved; the theorems about secrets applied to it. *)

From S2P Require Import Prelude Errors Sorting Tables Primitives SamplePrimitives Names Crypto Redact Policy PolicyTheory AuditChain AuditChainTheory Grants GrantsTheory Migration Secrets SecretsTheory RotationTheory SecretsAccess SecretsTypes KeyLifecycle.

#[global] Instance sample_secret_json : SecretJson := {|
  tags_to_json l := Ok [Zpos (encode l)];
  tags_from_json text := match text with [Zpos p] => decode p | _ => None end;
  rotation_json p d r b := [Zpos (encode (p, d, r, b))];
|}.
#[global] Instance sample_secret_json_laws : SecretJsonLaws sample_secret_json.
Proof.
  split; cbn.
  - intros l text [= <-]. apply decode_encode.
  - intros p d r b p' d' r' b' [= E]. apply (inj encode) in E. by injection E.
Qed.
Definition scope_id (n : Z) : str := hex_encode (replicate 16 n).
Definition tenant : str := scope_id 1.
Definition project : str := scope_id 2.
Definition staging : str := scope_id 3.
Definition testing : str := scope_id 4.
Definition environment_row : Environment := {| e_tenant := tenant; e_project := project; e_tier := 0 |}.
Definition secrets_auth : Connection :=
  {| project_members := {[ (project, lit "account:alice") := admin_row "root" ]};
     environments := <[staging := environment_row]> {[ testing := environment_row ]};
     sessions := ∅; devices := ∅; webauthn_credentials := ∅; account_mfa_policy := ∅; session_mfa := ∅;
     totp_credentials := ∅; scope_token_denylist := ∅ |}.
Definition empty_store : SDb :=
  {| sd_auth := secrets_auth; sd_projects := {[ project := tenant ]}; sd_services := ∅; sd_bindings := ∅; sd_secrets := ∅;
     sd_versions := ∅; sd_keys := ∅; sd_jobs := ∅; sd_events := [] |}.
Definition draws (n : Z) : SCall :=
  {| cl_fails _ := false; cl_policy _ _ := false; cl_row_policy _ _ := false; cl_now _ := 100 + n; cl_secret_id := replicate 16 n;
     cl_version_id := replicate 16 (n + 100); cl_dek := replicate 32 n; cl_nonce := replicate 24 n; cl_wrap_nonce := replicate 24 (n + 1);
     cl_job_id := replicate 16 n; cl_event_id := [n] |}.
Definition alice : ScopeClaims := for_session tenant project None (lit "alice").
Definition at_desk : RequestAttributes :=
  {| ra_branch := None; elevated := false; trusted_branch := false; human_session := true; recent_strong_auth := true |}.
Definition asks (n : Z) (a : SecretAct) : Request := {| rq_call := draws n; rq_claims := alice; rq_attrs := at_desk; rq_act := a |}.
Definition new_secret : CreateSecret :=
  {| cs_project_id := project; cs_environment_id := staging; cs_name := lit "API_KEY"; cs_secret_type := lit "key_value";
     cs_description := lit "key of the api"; cs_tags := [lit "web"]; cs_repository_binding_id := None; cs_service_id := None;
     cs_value := lit "hunter2"; cs_request_id := lit "r1" |}.
Definition rotation (value : string) : RotateSecret :=
  {| rs_secret_id := scope_id 1; rs_new_value := lit value; rs_idempotency_key := lit "k1"; rs_reason := lit "leaked"; rs_request_id := lit "r2" |}.
Definition to_testing : MoveSecret := {| mo_new_name := None; mo_new_environment_id := Some testing; mo_reason := lit "wrong place"; mo_request_id := lit "r3" |}.
Definition story : list Request :=
  [asks 1 (Create new_secret); asks 2 (Rotate ManualReplacementVerifier (rotation "s3cret")); asks 3 (Move (scope_id 1) to_testing)].

Definition kek_name : str := lit "kek-1".
Abbreviation run_ := (run sample_kek kek_name).

Lemma sample_kek_names nonce dek w : length nonce = 24%nat -> wrap_dek nonce sample_kek dek = Ok w ->
  wrapped_kek_id w = kek_name /\ length (wrapped_nonce w) = 24%nat /\ TAG_SIZE <= blen (wrapped_blob w).
Proof.
  intros Hn. cbn. unfold local_wrap_dek. destruct (encrypt_with_nonce _ _ _ _) as [blob|] eqn:E; [|done]. intros [= <-]. cbn.
  split; [done|]. split; [done|]. apply encrypt_with_nonce_len in E. unfold TAG_SIZE. pose proof (blen_nonneg dek). lia.
Qed.
Lemma draws_fine n : draws_ok (draws n).
Proof. done. Qed.
Lemma story_fine : Forall (fun r => draws_ok (rq_call r)) story.
Proof. repeat (apply Forall_cons_2; [done|]). apply Forall_nil_2. Qed.

(** After its rotation and its move the secret is the rotated value, as the plain map says. *)
Lemma secrets_refine_vault_witness :
  exists s', store_run sample_kek kek_name (story ++ [asks 4 (Value (scope_id 1) (lit "r4"))]) empty_store {| values := ∅; receipts := ∅ |} s' /\
    implements sample_kek (run_ (story ++ [asks 4 (Value (scope_id 1) (lit "r4"))]) empty_store) s'.
Proof.
  apply (secrets_refine_vault sample_kek kek_name sample_kek_names); [split; [by intros id|reflexivity]|].
  apply Forall_app. split; [apply story_fine|]. apply Forall_cons_2; [done|apply Forall_nil_2].
Defined.
(** The tables after the story: three versions of one secret. *)
Lemma secret_tables_typed_witness :
  (map_to_list (sd_versions (run_ story empty_store))).*1.*2 ≡ₚ [1; 2; 3] /\ typed 3 (run_ story empty_store).
Proof.
  split; [vm_compute; apply (bool_decide_unpack _); vm_compute; exact I|].
  apply (secret_tables_typed sample_kek kek_name story 0 empty_store); [|cbn; lia|unfold i64_max; cbn; lia].
  split; cbn; try by intros.
  intros i v. split; [by intros (x & Hx)|by intros (r & Hr & _)].
Defined.
Example read_back :
  (let? vv := (get_secret_value sample_kek (draws 4) alice at_desk (scope_id 1) (lit "r4") (run_ story empty_store)).1 in Ok (vv_value vv))
  = Ok (lit "s3cret").
Proof. vm_compute. reflexivity. Qed.

(** The rotation is retried after the move: the answer is the first one, and nothing changes. *)
Definition created : SDb := run_ (take 1 story) empty_store.
Definition rotate_ (n : Z) (value : string) (d : SDb) : result SecretError RotateOutcome * SDb :=
  rotate_secret sample_kek kek_name (draws n) ManualReplacementVerifier alice at_desk (rotation value) d.
Definition first_outcome : RotateOutcome :=
  {| ro_secret_id := scope_id 1; ro_previous_version := 1; ro_current_version := 2; ro_provider_verified := false |}.
Lemma first_rotation : (rotate_ 2 "s3cret" created).1 = Ok first_outcome.
Proof. vm_compute. reflexivity. Qed.
Lemma rotation_once_witness :
  let moved := run_ [asks 3 (Move (scope_id 1) to_testing)] (rotate_ 2 "s3cret" created).2 in
  rotate_ 5 "s3cret" moved = (Ok first_outcome, moved).
Proof.
  intros moved.
  pose proof (rotation_once sample_kek kek_name (draws 2) ManualReplacementVerifier alice at_desk (rotation "s3cret") created first_outcome
    (rotate_ 2 "s3cret" created).2 [asks 3 (Move (scope_id 1) to_testing)] (draws 5) ManualReplacementVerifier alice at_desk (rotation "s3cret")) as H.
  fold (rotate_ 2 "s3cret" created) in H. specialize (H ltac:(rewrite <- first_rotation; apply surjective_pairing) eq_refl eq_refl). cbv zeta in H. fold moved in H.
  assert ((rotate_ 5 "s3cret" moved).1 = Ok first_outcome) as E by (vm_compute; reflexivity).
  fold (rotate_ 5 "s3cret" moved) in H. rewrite (surjective_pairing (rotate_ 5 "s3cret" moved)), E in H |- *. by destruct H as (-> & _).
Defined.
(** Another value under the same key is refused. *)
Example other_value_refused : (rotate_ 5 "other" (rotate_ 2 "s3cret" created).2).1 = Err IdempotencyConflict.
Proof. vm_compute. reflexivity. Qed.

Definition search : SecretListFilter :=
  {| lf_project_id := project; lf_environment_id := testing; lf_tag := Some (lit "web"); lf_status := None; lf_q := Some (lit " i_k "); lf_limit := 10 |}.
Definition found : list SecretView := Eval vm_compute in
  match (list_secrets (draws 6) alice at_desk search (run_ story empty_store)).1 with Ok l => l | Err _ => [] end.
Lemma listing_exact_witness :
  v_name <$> found = [lit "API_KEY"] /\
  forall view, view ∈ found -> exists id r, visible (draws 6) alice at_desk search (run_ story empty_store) id r /\ view = secret_view_from_row id r.
Proof.
  split; [vm_compute; reflexivity|].
  destruct (listing_exact (draws 6) alice at_desk search (run_ story empty_store) found
    (list_secrets (draws 6) alice at_desk search (run_ story empty_store)).2) as (_ & _ & _ & H & _); [|exact H].
  rewrite (surjective_pairing (list_secrets _ _ _ _ _)) at 1.
  apply (f_equal2 pair); [vm_compute; reflexivity|reflexivity].
Defined.

(** ** A key that is replaced *)

#[global] Instance sample_key_ring_json : KeyRingJson := {|
  key_ring_from_str text :=
    if bool_decide (text = lit "{two keys}")
    then Some (lit "v2", <[lit "legacy" := hex_encode (replicate 32 5)]> {[ lit "v2" := hex_encode (replicate 32 6) ]})
    else None;
|}.
Definition ring_of (raw : str) : VersionedKekService :=
  match from_config project raw with Ok s => s | Err _ => no_keys [] end.
Lemma first_configured : from_config project (hex_encode (replicate 32 5)) = Ok (ring_of (hex_encode (replicate 32 5))).
Proof. vm_compute. reflexivity. Qed.
Lemma second_configured : from_config project (lit "{two keys}") = Ok (ring_of (lit "{two keys}")).
Proof. vm_compute. reflexivity. Qed.
Definition first_ring : Ring := MkRing _ (from_config_ok _ _ _ first_configured).
Definition second_ring : Ring := MkRing _ (from_config_ok _ _ _ second_configured).
Definition registers (n : Z) (s : Ring) (d : SDb) : result SecretError unit * SDb := register head (draws n) s project d.
Definition first_use : SDb := run first_ring (active_id first_ring) [asks 1 (Create new_secret)] (registers 7 first_ring empty_store).2.

Lemma first_use_holds : holds first_ring first_use {[ scope_id 1 := lit "hunter2" ]}.
Proof.
  destruct (perform_refines first_ring (active_id first_ring) (fun n k w => ring_names_key first_ring n k w) (asks 1 (Create new_secret))
    (registers 7 first_ring empty_store).2 {| values := ∅; receipts := ∅ |}) as (s' & Hs & Hh & _); [|done|].
  - split; [|vm_compute; reflexivity]. intros id. assert (sd_secrets (registers 7 first_ring empty_store).2 = ∅) as -> by (vm_compute; reflexivity). by rewrite lookup_empty.
  - unfold first_use. cbn [run]. assert (values s' = {[ scope_id 1 := lit "hunter2" ]}) as <-; [|exact Hh].
    destruct (perform _ _ _ _) as [answer d'] eqn:E in Hs. assert (exists view, answer = Ok (AView view) /\ v_secret_id view = scope_id 1) as (view & -> & Ev).
    { assert (answer = (perform first_ring (active_id first_ring) (asks 1 (Create new_secret)) (registers 7 first_ring empty_store).2).1) as -> by by rewrite E.
      clear. vm_compute. eexists. split; reflexivity. }
    cbn in Hs. rewrite Ev in Hs. by destruct Hs as (_ & ->).
Qed.
Lemma ring_replacement_safe_witness :
  holds second_ring (registers 8 second_ring first_use).2 {[ scope_id 1 := lit "hunter2" ]} \/ sha256_collision.
Proof.
  apply (ring_replacement_safe head (draws 7) (draws 8) project project first_ring second_ring empty_store (registers 7 first_ring empty_store).2
    [asks 1 (Create new_secret)] _ (registers 8 second_ring first_use).2).
  - fold (registers 7 first_ring empty_store). rewrite (surjective_pairing (registers 7 first_ring empty_store)) at 1.
    apply (f_equal2 pair); [vm_compute; reflexivity|reflexivity].
  - apply first_use_holds.
  - fold first_use. fold (registers 8 second_ring first_use). rewrite (surjective_pairing (registers 8 second_ring first_use)) at 1.
    apply (f_equal2 pair); [vm_compute; reflexivity|reflexivity].
  - apply (bool_decide_unpack _). vm_compute. exact I.
Defined.
