(* ===== verification/AccountDb.v ===== *)
(** * The tables of the account service and what its handlers share

    src/services/account/src: the schema of state.rs, util.rs, the session and role guards
    of guards.rs, the session lookup and the limiter of failed logins of http.rs, and the
    request quotas of abuse.rs.

    A table is a map by its primary key; foreign keys, unique columns and cascading
    deletes are written out in the statements they affect.  A call of a handler carries an
    oracle that says which of its statements fail, the answers of its clock and the random
    bytes it draws, all by the place they are used at; the clock counts seconds in the
    range of SQLite's integers.  [connection] locks the one connection and never fails:
    what a handler does while it holds the lock is a program over the tables, and a handler
    is a sequence of such sections, so that other requests can run between two of them. *)

From Stdlib Require Import Sorted.
From S2P Require Import Prelude Tables Errors Primitives Crypto Policy.

#[local] Open Scope tx_scope.

(** ** Tables *)

Record Account : Type := { ac_display_name : str; ac_public_key_hex : str; ac_created_at : Z }.
Record Device : Type := {
  dv_public_key_hex : str; dv_label : str; dv_enrolled_at : Z; dv_last_seen_at : option Z; dv_revoked_at : option Z;
}.
Record VaultLink : Type := {
  vl_alias : str; vl_role : str; vl_linked_at : Z; vl_locator : option str; vl_locator_at : option Z;
}.
Record Membership : Type := {
  ms_role : str; ms_status : str; ms_invited_at : Z; ms_accepted_at : option Z; ms_revoked_at : option Z;
}.
Record Invitation : Type := {
  in_account : str; in_invitee : str; in_role : str; in_token_hash : str; in_created_at : Z; in_expires_at : Z;
  in_accepted_at : option Z; in_revoked_at : option Z;
}.
Record RecoveryCode : Type := { rc_account : str; rc_created_at : Z; rc_used_at : option Z }.
Record Challenge : Type := {
  ch_kind : str; ch_account : str; ch_device : option str; ch_public_key : option str; ch_nonce_hex : str;
  ch_expires_at : Z; ch_used_at : option Z;
}.
Record Handoff : Type := {
  ho_origin : option str; ho_account : str; ho_device : option str; ho_method : str; ho_created_at : Z;
  ho_expires_at : Z; ho_used_at : option Z;
}.
Record WebAuthnCredential : Type := {
  wc_device : option str; wc_algorithm : Z; wc_public_key_hex : str; wc_sign_count : Z; wc_created_at : Z;
  wc_last_used_at : option Z; wc_revoked_at : option Z;
}.
Record TotpCredential : Type := {
  tc_ciphertext : str; tc_enabled : bool; tc_created_at : Z; tc_last_used_step : option Z; tc_last_used_at : option Z;
  tc_revoked_at : option Z;
}.
Record RateRow : Type := { rl_window_started_at : Z; rl_failures : Z; rl_blocked_until : Z; rl_updated_at : Z }.
Record QuotaRow : Type := { qr_window_started_at : Z; qr_count : Z; qr_updated_at : Z }.
Inductive Detail : Type := DText (s : str) | DNumber (z : Z) | DFlag (b : bool) | DNull.
Record AccountEvent : Type := { ae_account : str; ae_event : string; ae_details : list (string * Detail); ae_created_at : Z }.

Record ADb : Type := MkADb {
  ad_accounts : gmap str Account;
  ad_devices : gmap (str * str) Device;
  ad_vaults : gmap (str * str) VaultLink;
  ad_memberships : gmap (str * str) Membership;
  ad_invitations : gmap str Invitation;
  ad_codes : gmap str RecoveryCode;                 (* by the hash of the code *)
  ad_challenges : gmap str Challenge;
  ad_sessions : gmap str Session;                   (* by the hash of the token *)
  ad_handoffs : gmap str Handoff;                   (* by the hash of the code *)
  ad_credentials : gmap (str * str) WebAuthnCredential;
  ad_totp : gmap str TotpCredential;
  ad_policy : gmap str (bool * Z);                  (* required, updated_at_utc *)
  ad_mfa : gmap str MfaProof;                       (* by the hash of the session token *)
  ad_rates : gmap str RateRow;
  ad_quotas : gmap str QuotaRow;
  ad_proofs : gmap str Z;                           (* dpop_proofs: expires_at_utc *)
  ad_events : list AccountEvent;
}.

Definition set_accounts f (d : ADb) : ADb := let 'MkADb ac de va me iv co ch se ho cr tp po mf ra qu pr ev := d in MkADb (f ac) de va me iv co ch se ho cr tp po mf ra qu pr ev.
Definition set_devices f (d : ADb) : ADb := let 'MkADb ac de va me iv co ch se ho cr tp po mf ra qu pr ev := d in MkADb ac (f de) va me iv co ch se ho cr tp po mf ra qu pr ev.
Definition set_vaults f (d : ADb) : ADb := let 'MkADb ac de va me iv co ch se ho cr tp po mf ra qu pr ev := d in MkADb ac de (f va) me iv co ch se ho cr tp po mf ra qu pr ev.
Definition set_memberships f (d : ADb) : ADb := let 'MkADb ac de va me iv co ch se ho cr tp po mf ra qu pr ev := d in MkADb ac de va (f me) iv co ch se ho cr tp po mf ra qu pr ev.
Definition set_invitations f (d : ADb) : ADb := let 'MkADb ac de va me iv co ch se ho cr tp po mf ra qu pr ev := d in MkADb ac de va me (f iv) co ch se ho cr tp po mf ra qu pr ev.
Definition set_codes f (d : ADb) : ADb := let 'MkADb ac de va me iv co ch se ho cr tp po mf ra qu pr ev := d in MkADb ac de va me iv (f co) ch se ho cr tp po mf ra qu pr ev.
Definition set_challenges f (d : ADb) : ADb := let 'MkADb ac de va me iv co ch se ho cr tp po mf ra qu pr ev := d in MkADb ac de va me iv co (f ch) se ho cr tp po mf ra qu pr ev.
Definition set_sessions f (d : ADb) : ADb := let 'MkADb ac de va me iv co ch se ho cr tp po mf ra qu pr ev := d in MkADb ac de va me iv co ch (f se) ho cr tp po mf ra qu pr ev.
Definition set_handoffs f (d : ADb) : ADb := let 'MkADb ac de va me iv co ch se ho cr tp po mf ra qu pr ev := d in MkADb ac de va me iv co ch se (f ho) cr tp po mf ra qu pr ev.
Definition set_credentials f (d : ADb) : ADb := let 'MkADb ac de va me iv co ch se ho cr tp po mf ra qu pr ev := d in MkADb ac de va me iv co ch se ho (f cr) tp po mf ra qu pr ev.
Definition set_totp f (d : ADb) : ADb := let 'MkADb ac de va me iv co ch se ho cr tp po mf ra qu pr ev := d in MkADb ac de va me iv co ch se ho cr (f tp) po mf ra qu pr ev.
Definition set_policy f (d : ADb) : ADb := let 'MkADb ac de va me iv co ch se ho cr tp po mf ra qu pr ev := d in MkADb ac de va me iv co ch se ho cr tp (f po) mf ra qu pr ev.
Definition set_mfa f (d : ADb) : ADb := let 'MkADb ac de va me iv co ch se ho cr tp po mf ra qu pr ev := d in MkADb ac de va me iv co ch se ho cr tp po (f mf) ra qu pr ev.
Definition set_rates f (d : ADb) : ADb := let 'MkADb ac de va me iv co ch se ho cr tp po mf ra qu pr ev := d in MkADb ac de va me iv co ch se ho cr tp po mf (f ra) qu pr ev.
Definition set_quotas f (d : ADb) : ADb := let 'MkADb ac de va me iv co ch se ho cr tp po mf ra qu pr ev := d in MkADb ac de va me iv co ch se ho cr tp po mf ra (f qu) pr ev.
Definition set_proofs f (d : ADb) : ADb := let 'MkADb ac de va me iv co ch se ho cr tp po mf ra qu pr ev := d in MkADb ac de va me iv co ch se ho cr tp po mf ra qu (f pr) ev.
Definition set_events f (d : ADb) : ADb := let 'MkADb ac de va me iv co ch se ho cr tp po mf ra qu pr ev := d in MkADb ac de va me iv co ch se ho cr tp po mf ra qu pr (f ev).

(** What the authorization code of [Policy] reads of these tables. *)
Definition totp_columns (t : TotpCredential) : Totp :=
  {| t_ciphertext := tc_ciphertext t; t_enabled := tc_enabled t; t_revoked_at := tc_revoked_at t |}.
Definition connection (d : ADb) : Connection :=
  {| project_members := ∅; environments := ∅; sessions := ad_sessions d; devices := dv_revoked_at <$> ad_devices d;
     webauthn_credentials := wc_revoked_at <$> ad_credentials d; account_mfa_policy := fst <$> ad_policy d;
     session_mfa := ad_mfa d; totp_credentials := totp_columns <$> ad_totp d; scope_token_denylist := ∅ |}.

(** ** Requests, answers and effects *)

(** A header: absent, not text, or text. *)
Abbreviation HeaderMap := (string -> option (option str)).
Definition header_text (headers : HeaderMap) (name : string) : option str := headers name ≫= fun v => v.

(** An error response: its status and its code. *)
Record Refusal : Type := Refuse { rf_status : Z; rf_code : string }.
#[global] Instance Refusal_eq_dec : EqDecision Refusal.
Proof. solve_decision. Defined.
Definition service_error (e : AccountServiceError) : Refusal :=
  match e with
  | Invalid _ => Refuse 400 "INVALID_REQUEST"
  | Database _ => Refuse 500 "ACCOUNT_DATABASE_ERROR"
  | Io _ => Refuse 500 "ACCOUNT_STORAGE_ERROR"
  end.
Definition DB_ERROR : Refusal := service_error (Database "").

Record ACall : Type := { a_fails : string -> bool; a_now : string -> Z; a_draw : string -> bytes }.
(** A function that a handler calls in several places. *)
Definition under (place : string) (c : ACall) : ACall :=
  {| a_fails l := a_fails c (place +:+ "/" +:+ l); a_now l := a_now c (place +:+ "/" +:+ l); a_draw l := a_draw c (place +:+ "/" +:+ l) |}.

Abbreviation ATx := (Tx ADb Refusal).
Section Statements.
Variable c : ACall.

Definition query {A} (l : string) (f : ADb -> A) : ATx A := query_if (a_fails c l) DB_ERROR f.
(** [None] is a violated constraint. *)
Definition execute (l : string) (f : ADb -> option ADb) : ATx unit := execute_if (a_fails c l) DB_ERROR f.
(** A statement that reports whether it changed a row. *)
Definition update (l : string) (f : ADb -> bool * ADb) : ATx bool := fun d =>
  if a_fails c l then (Err DB_ERROR, d) else let '(changed, d') := f d in (Ok changed, d').
(** [transaction_with_behavior(Immediate)] and [commit]. *)
Definition transaction {A} (l : string) (m : ATx A) : ATx A :=
  query (l +:+ " begin") (fun _ => tt) ;;; atomically (a_fails c (l +:+ " commit")) DB_ERROR m.
End Statements.

(** [.unwrap_or(false)], and [let _ =] on a result. *)
Definition or_false (m : ATx bool) : ATx bool := tcatch m (fun _ => tret (Ok false)).
Definition ignored (m : ATx unit) : ATx unit := tcatch m (fun _ => tret (Ok tt)).
Definition or_refuse {A} (r : Refusal) (m : ATx A) : ATx A := tcatch m (fun _ => tret (Err r)).
Definition refuse_if (b : bool) (r : Refusal) : ATx unit := tret (if b then Err r else Ok tt).
Definition or_invalid {A} (r : result AccountServiceError A) : ATx A := tret (map_err service_error r).
Definition some_or {A} (r : Refusal) (o : option A) : ATx A := tret match o with Some a => Ok a | None => Err r end.

(** ** Handlers *)

(** What runs while the connection is locked, and what follows. *)
Inductive Handler (A : Type) : Type :=
| Answer (r : result Refusal A)
| Locked (X : Type) (m : ATx X) (k : X -> Handler A).
Arguments Answer {A}. Arguments Locked {A X}.

Definition answers {A} (r : result Refusal A) : Handler A := Answer r.
Definition before {A B} (r : result AccountServiceError A) (k : A -> Handler B) : Handler B :=
  match r with Ok a => k a | Err e => Answer (Err (service_error e)) end.
Definition guard {B} (b : bool) (r : Refusal) (k : Handler B) : Handler B := if b then Answer (Err r) else k.
(** The last section of a handler. *)
Definition finally {A} (m : ATx A) : Handler A := Locked m (fun a => Answer (Ok a)).

(** The handler alone. *)
Fixpoint alone {A} (h : Handler A) : ATx A :=
  match h with
  | Answer r => tret r
  | Locked m k => do x <- m ;; alone (k x)
  end.

Declare Scope handler_scope.
Delimit Scope handler_scope with handler.
Notation "'lock' x '<-' m ';;' k" := (Locked m (fun x => k))
  (at level 10, x pattern, m at level 99, k at level 200) : handler_scope.
Notation "'check' x '<-' r ';;' k" := (before r (fun x => k))
  (at level 10, x pattern, r at level 99, k at level 200) : handler_scope.
Notation "'refuse' b 'with' r ';;' k" := (guard b r k)
  (at level 10, b at level 99, r at level 99, k at level 200) : handler_scope.

(** ** state.rs: limits *)

Definition SESSION_TTL_SECONDS : Z := 30 * 60.
Definition RECOVERY_SESSION_TTL_SECONDS : Z := 15 * 60.
Definition CHALLENGE_TTL_SECONDS : Z := 5 * 60.
Definition SESSION_HANDOFF_TTL_SECONDS : Z := 2 * 60.
Definition MAX_BODY_BYTES : Z := 256 * 1024.
Definition SESSION_COOKIE_NAME : str := lit "ciphervault_account_session".
Definition TOTP_NONCE_BYTES : Z := 12.
Definition AUTH_RATE_WINDOW_SECONDS : Z := 5 * 60.
Definition AUTH_RATE_MAX_FAILURES : Z := 5.
Definition AUTH_RATE_LOCK_SECONDS : Z := 5 * 60.
Definition AUTH_RATE_MAX_KEYS : Z := 10000.

(** The environment variables and the files the handlers read. *)
Record Config : Type := {
  cf_trust_proxy_headers : option str; cf_totp_key_file : option str; cf_totp_key : option str;
  cf_read_to_string : str -> option str; cf_rp_id : option str; cf_origin : option str; cf_require_uv : option str;
}.
Definition is_true (var : option str) : bool :=
  match var with Some value => eq_ignore_ascii_case value (lit "true") | None => false end.

(** ** Rows *)

Definition known (account : str) (d : ADb) : bool := bool_decide (is_Some (ad_accounts d !! account)).
Definition account_of (d : ADb) (account : str) : option Account := ad_accounts d !! account.
(** [INSERT] with a primary key and the account as a foreign key. *)
Definition insert_challenge (id : str) (ch : Challenge) (d : ADb) : option ADb :=
  if known (ch_account ch) d && bool_decide (ad_challenges d !! id = None)
  then Some (set_challenges (<[id := ch]>) d) else None.
Definition insert_session (hash : str) (s : Session) (d : ADb) : option ADb :=
  if known (s_account s) d && bool_decide (ad_sessions d !! hash = None)
  then Some (set_sessions (<[hash := s]>) d) else None.
Definition use_challenge (now : Z) (ch : Challenge) : Challenge :=
  {| ch_kind := ch_kind ch; ch_account := ch_account ch; ch_device := ch_device ch; ch_public_key := ch_public_key ch;
     ch_nonce_hex := ch_nonce_hex ch; ch_expires_at := ch_expires_at ch; ch_used_at := Some now |}.
Definition use_handoff (now : Z) (h : Handoff) : Handoff :=
  {| ho_origin := ho_origin h; ho_account := ho_account h; ho_device := ho_device h; ho_method := ho_method h;
     ho_created_at := ho_created_at h; ho_expires_at := ho_expires_at h; ho_used_at := Some now |}.
Definition use_code (now : Z) (rc : RecoveryCode) : RecoveryCode :=
  {| rc_account := rc_account rc; rc_created_at := rc_created_at rc; rc_used_at := Some now |}.
Definition end_session (now : Z) (s : Session) : Session :=
  {| s_account := s_account s; s_device := s_device s; s_credential := s_credential s; s_kind := s_kind s;
     s_issued := s_issued s; s_expires := s_expires s; s_revoked_at := Some now |}.
(** [UPDATE sessions SET revoked_at_utc ... WHERE P AND revoked_at_utc IS NULL]. *)
Definition end_sessions (P : str -> Session -> bool) (now : Z) (m : gmap str Session) : gmap str Session :=
  map_imap (fun hash s => Some (if P hash s && bool_decide (s_revoked_at s = None) then end_session now s else s)) m.
(** [UPDATE ... SET used_at_utc WHERE id AND used_at_utc IS NULL]. *)
Definition consume {A} (used : A -> option Z) (mark : A -> A) (id : str) (m : gmap str A) : bool * gmap str A :=
  match m !! id with
  | Some r => if bool_decide (used r = None) then (true, <[id := mark r]> m) else (false, m)
  | None => (false, m)
  end.
Definition consume_challenge (id : str) (now : Z) (d : ADb) : bool * ADb :=
  let '(changed, m) := consume ch_used_at (use_challenge now) id (ad_challenges d) in (changed, set_challenges (fun _ => m) d).

Section Shared.
Context {HX : Hex} {SH : Sha256}.
Variable cf : Config.

Definition random_hex (c : ACall) (l : string) : str := hex_encode (a_draw c l).

(** ** util.rs *)

Definition audit_event (c : ACall) (account : str) (event : string) (details : list (string * Detail)) : ATx unit :=
  execute c ("audit " +:+ event) (fun d =>
    if known account d
    then Some (set_events (fun l => l ++ [{| ae_account := account; ae_event := event; ae_details := details;
                                             ae_created_at := a_now c ("audit " +:+ event) |}]) d)
    else None).
Definition dead_session (now : Z) (s : Session) : bool := (s_expires s <=? now) || bool_decide (is_Some (s_revoked_at s)).
Definition dead_challenge (now : Z) (ch : Challenge) : bool := (ch_expires_at ch <=? now) || bool_decide (is_Some (ch_used_at ch)).
(** Deleting a session deletes its second-factor proof. *)
Definition drop_sessions (now : Z) (d : ADb) : ADb :=
  set_mfa (filter (fun kv => match ad_sessions d !! kv.1 with Some s => dead_session now s | None => false end = false))
    (set_sessions (filter (fun kv => dead_session now kv.2 = false)) d).
Definition prune_expired (c : ACall) (now : Z) : ATx unit :=
  execute c "prune challenges" (fun d => Some (set_challenges (filter (fun kv => dead_challenge now kv.2 = false)) d)) ;;;
  execute c "prune sessions" (fun d => Some (drop_sessions now d)).

(** ** db.rs *)

Definition account_exists (c : ACall) (account : str) : ATx bool := query c "account_exists" (known account).

(** ** http.rs *)

Definition request_source (headers : HeaderMap) : str :=
  if negb (is_true (cf_trust_proxy_headers cf)) then lit "direct" else
  let value := match headers "x-forwarded-for" with Some v => Some v | None => headers "x-real-ip" end in
  let first := (value ≫= fun v => v) ≫= fun v => trim <$> head (split_on 44 v) in
  take 128 match first with Some (x :: rest) => x :: rest | _ => lit "unknown" end.
Definition auth_rate_key (headers : HeaderMap) (account ceremony : str) : str :=
  ceremony ++ lit ":" ++ account ++ lit ":" ++ request_source headers.

Definition RATE_UNAVAILABLE : Refusal := Refuse 503 "AUTH_RATE_UNAVAILABLE".
Definition RATE_LIMITED : Refusal := Refuse 429 "AUTH_RATE_LIMITED".
Definition spent_rate (now : Z) (r : RateRow) : bool :=
  (rl_blocked_until r <=? now) && (now - rl_window_started_at r >? AUTH_RATE_WINDOW_SECONDS).
Definition fresh_rate (now : Z) : RateRow :=
  {| rl_window_started_at := now; rl_failures := 0; rl_blocked_until := 0; rl_updated_at := now |}.
Definition auth_rate_allowed_with_db (c : ACall) (key : str) : ATx unit :=
  let now := a_now c "rate" in
  or_refuse RATE_UNAVAILABLE (execute c "rate prune" (fun d => Some (set_rates (filter (fun kv => spent_rate now kv.2 = false)) d))) ;;;
  do current <- or_refuse RATE_UNAVAILABLE (query c "rate select" (fun d => ad_rates d !! key)) ;;
  match current with
  | None =>
      do active_keys <- or_refuse RATE_UNAVAILABLE (query c "rate count" (fun d => Z.of_nat (size (ad_rates d)))) ;;
      refuse_if (active_keys >=? AUTH_RATE_MAX_KEYS) RATE_LIMITED ;;;
      or_refuse RATE_UNAVAILABLE (execute c "rate insert" (fun d =>
        if bool_decide (ad_rates d !! key = None) then Some (set_rates (<[key := fresh_rate now]>) d) else None))
  | Some r =>
      refuse_if (rl_blocked_until r >? now) RATE_LIMITED ;;;
      if sat_sub now (rl_window_started_at r) >? AUTH_RATE_WINDOW_SECONDS then
        or_refuse RATE_UNAVAILABLE (execute c "rate reset" (fun d => Some (set_rates (alter (fun _ => fresh_rate now) key) d)))
      else if rl_failures r >=? AUTH_RATE_MAX_FAILURES then
        or_refuse RATE_UNAVAILABLE (execute c "rate lock" (fun d => Some (set_rates (alter (fun r =>
          {| rl_window_started_at := rl_window_started_at r; rl_failures := rl_failures r;
             rl_blocked_until := now + AUTH_RATE_LOCK_SECONDS; rl_updated_at := now |}) key) d))) ;;;
        tret (Err RATE_LIMITED)
      else tret (Ok tt)
  end.

(** [splitn(3, ':')] *)
Fixpoint split_once (sep : Z) (s : str) : option (str * str) :=
  match s with
  | [] => None
  | c :: rest => if c =? sep then Some ([], rest) else
      match split_once sep rest with Some (a, b) => Some (c :: a, b) | None => None end
  end.
Definition auth_rate_lockout_alert (c : ACall) (key : str) (now : Z) : ATx unit :=
  let '(ceremony, account, source) :=
    match split_once 58 key with
    | None => (key, [], lit "unknown")
    | Some (a, rest) => match split_once 58 rest with None => (a, rest, lit "unknown") | Some (b, s) => (a, b, s) end
    end in
  if bool_decide (trim account = []) then tret (Ok tt) else
  do exists_ <- or_false (account_exists c account) ;;
  if negb exists_ then tret (Ok tt) else
  ignored (audit_event c account "auth_rate_lockout"
    [("ceremony", DText ceremony); ("source", DText source); ("failures", DNumber AUTH_RATE_MAX_FAILURES);
     ("blocked_until_utc", DNumber (now + AUTH_RATE_LOCK_SECONDS))]).
Definition counted_failure (now : Z) (current : option RateRow) : RateRow :=
  let '(window_started, failures) := match current with Some r => (rl_window_started_at r, rl_failures r) | None => (now, 0) end in
  let '(window_started, failures) :=
    if sat_sub now window_started >? AUTH_RATE_WINDOW_SECONDS then (now, 1) else (window_started, Z.min (failures + 1) 4294967295) in
  {| rl_window_started_at := window_started; rl_failures := failures;
     rl_blocked_until := if failures >=? AUTH_RATE_MAX_FAILURES then now + AUTH_RATE_LOCK_SECONDS else 0; rl_updated_at := now |}.
Definition auth_rate_failure_with_db (c : ACall) (key : str) : ATx unit :=
  let now := a_now c "rate failure" in
  do current <- tcatch (query c "rate failure select" (fun d => ad_rates d !! key)) (fun _ => tret (Ok None)) ;;
  let row := counted_failure now current in
  ignored (execute c "rate failure insert" (fun d => Some (set_rates (<[key := row]>) d))) ;;;
  if rl_failures row =? AUTH_RATE_MAX_FAILURES then auth_rate_lockout_alert c key now else tret (Ok tt).
Definition auth_rate_success_with_db (c : ACall) (key : str) : ATx unit :=
  ignored (execute c "rate success" (fun d => Some (set_rates (delete key) d))).

Definition bearer_token (headers : HeaderMap) : option str := header_text headers "authorization" ≫= strip_prefix (lit "Bearer ").
Definition cookie_token (cookie : str) : option str :=
  match split_once 61 (trim cookie) with
  | Some (name, value) => if bool_decide (name = SESSION_COOKIE_NAME) && negb (bool_decide (value = [])) then Some value else None
  | None => None
  end.
Fixpoint find_map {A B} (f : A -> option B) (l : list A) : option B :=
  match l with
  | [] => None
  | a :: rest => match f a with Some b => Some b | None => find_map f rest end
  end.
Definition session_token (headers : HeaderMap) : option str :=
  match bearer_token headers with
  | Some token => Some token
  | None => header_text headers "cookie" ≫= fun cookies => find_map cookie_token (split_on 59 cookies)
  end.

(** A session that is neither revoked nor expired, and whose device and passkey are active. *)
Definition standing (d : ADb) (s : Session) (now : Z) : bool :=
  bool_decide (s_revoked_at s = None) && (s_expires s >? now)
  && unrevoked (devices (connection d)) (s_account s) (s_device s)
  && unrevoked (webauthn_credentials (connection d)) (s_account s) (s_credential s).
Definition live_session (d : ADb) (hash : str) (now : Z) : option Session :=
  match ad_sessions d !! hash with Some s => if standing d s now then Some s else None | None => None end.
Definition session_view (s : Session) : SessionView :=
  {| account_id := s_account s; device_id_hex := s_device s; auth_method := s_kind s; sv_issued_at_utc := s_issued s;
     sv_expires_at_utc := s_expires s; mfa_required := false; mfa_verified_at_utc := None; sv_mfa_proof_id := None |}.
Definition query_name (q : Query) : string := match q with QPolicy => "policy" | QProof => "proof" | _ => "" end.
Definition of_policy {A} (c : ACall) (f : (Query -> bool) -> Connection -> result unit A) : ATx A := fun d =>
  (map_err (fun _ => DB_ERROR) (f (fun q => a_fails c (query_name q)) (connection d)), d).
Definition policy_required (c : ACall) (account : str) : ATx bool := of_policy c (fun fails db => Policy.policy_required fails db account).
Definition apply_session_status (c : ACall) (hash : str) (session : SessionView) (now : Z) : ATx SessionView :=
  of_policy c (fun fails db => Policy.apply_session_status fails db hash session now).
Definition authenticated_session_with_db (c : ACall) (headers : HeaderMap) : ATx SessionView :=
  do token <- some_or (Refuse 401 "SESSION_REQUIRED") (session_token headers) ;;
  let hash := hash_token token in
  let now := a_now c "session" in
  prune_expired c now ;;;
  do session <- query c "session" (fun d => live_session d hash now) ;;
  do s <- some_or (Refuse 401 "SESSION_INVALID") session ;;
  apply_session_status (under "status" c) hash (session_view s) now.

(** ** guards.rs *)

Definition normalize_vault_role (value : str) : result AccountServiceError str :=
  let role := to_ascii_lowercase <$> trim value in
  if bool_decide (role ∈ (lit <$> ["owner"; "admin"; "editor"; "viewer"; "recovery"]%string)) then Ok role
  else Err (Invalid (lit "role must be one of owner, admin, editor, viewer, or recovery")).
Definition role_rank (role : str) : Z :=
  if bool_decide (role = lit "owner") then 4 else if bool_decide (role = lit "admin") then 3
  else if bool_decide (role = lit "editor") then 2 else if bool_decide (role = lit "viewer") then 1 else 0.
Definition member_row_role (d : ADb) (account member : str) : option str :=
  match ad_memberships d !! (account, member) with
  | Some m => if bool_decide (ms_status m = lit "active" /\ is_Some (ms_accepted_at m) /\ ms_revoked_at m = None) then Some (ms_role m) else None
  | None => None
  end.
Definition active_membership_role (c : ACall) (account member : str) : ATx (option str) :=
  if bool_decide (account = member) then tret (Ok (Some (lit "owner")))
  else query c "membership role" (fun d => member_row_role d account member).
Definition require_mfa (required : bool) (s : SessionView) : SessionView :=
  with_mfa s (mfa_required s || required) (mfa_verified_at_utc s) (sv_mfa_proof_id s).
Definition account_role_for_with_db (c : ACall) (headers : HeaderMap) (account minimum_role : str) : ATx (SessionView * str) :=
  do session <- authenticated_session_with_db c headers ;;
  do required <- policy_required (under "target" c) account ;;
  let session := require_mfa required session in
  do role <- active_membership_role c account (account_id session) ;;
  do role <- some_or (Refuse 403 "ACCOUNT_MEMBERSHIP_REQUIRED") role ;;
  refuse_if (role_rank role <? role_rank minimum_role) (Refuse 403 "ACCOUNT_ROLE_REQUIRED") ;;;
  tret (Ok (session, role)).
Definition strong_or_refuse (r : result string unit) : ATx unit := tret (map_err (Refuse 403) r).
Definition require_recent_account_role_with_db (c : ACall) (headers : HeaderMap) (account minimum_role : str) : ATx (SessionView * str) :=
  do found <- account_role_for_with_db c headers account minimum_role ;;
  strong_or_refuse (require_recent_strong_session found.1 (a_now c "step up")) ;;;
  tret (Ok found).
Definition require_recent_account_session_with_db (c : ACall) (headers : HeaderMap) (account : str) : ATx SessionView :=
  do session <- authenticated_session_with_db c headers ;;
  refuse_if (negb (bool_decide (account_id session = account))) (Refuse 403 "ACCOUNT_SCOPE_MISMATCH") ;;;
  strong_or_refuse (require_recent_strong_session session (a_now c "step up")) ;;;
  tret (Ok session).

Definition decode_32 (value : str) (field : string) : result AccountServiceError bytes :=
  let bad := Invalid (lit field ++ lit " must be 32-byte hex") in
  let? b := map_err (fun _ => bad) (hex_decode (trim value)) in
  bail? negb (blen b =? 32) with bad ;; Ok b.
Definition normalize_account_id (value : str) : result AccountServiceError str :=
  let value := to_ascii_lowercase <$> trim value in
  let bad := Invalid (lit "account_id must use cvacct_<32 hex characters>") in
  bail? negb (str_len value =? 39) || negb (starts_with (lit "cvacct_") value)
    || negb match hex_decode (drop 7 value) with Ok b => blen b =? 16 | Err _ => false end with bad ;;
  Ok value.
Definition derive_account_id (public_key_hex : str) : result AccountServiceError str :=
  let? public_key := decode_32 public_key_hex "account_public_key_hex" in
  Ok (lit "cvacct_" ++ hex_encode (take 16 (sha256 public_key))).

(** ** abuse.rs *)

Record QuotaBucket : Type := { qb_name : str; qb_max_requests : Z; qb_window_seconds : Z }.
Definition API_BUCKET : QuotaBucket := {| qb_name := lit "api"; qb_max_requests := 1000; qb_window_seconds := 60 |}.
Definition READ_VALUE_BUCKET : QuotaBucket := {| qb_name := lit "read-value"; qb_max_requests := 300; qb_window_seconds := 60 |}.
Definition MINT_BUCKET : QuotaBucket := {| qb_name := lit "mint"; qb_max_requests := 30; qb_window_seconds := 60 |}.
Definition EXPORT_BUCKET : QuotaBucket := {| qb_name := lit "export"; qb_max_requests := 10; qb_window_seconds := 300 |}.
Definition CHALLENGE_ACCOUNT_BUCKET : QuotaBucket := {| qb_name := lit "challenge-account"; qb_max_requests := 30; qb_window_seconds := 300 |}.
Definition CHALLENGE_SOURCE_BUCKET : QuotaBucket := {| qb_name := lit "challenge-source"; qb_max_requests := 120; qb_window_seconds := 60 |}.
Definition CHALLENGE_GLOBAL_BUCKET : QuotaBucket := {| qb_name := lit "challenge-global"; qb_max_requests := 2000; qb_window_seconds := 60 |}.

Record QuotaState : Type := { qs_limit : Z; qs_remaining : Z; qs_reset_after_secs : Z }.
Inductive QuotaFailure : Type := QuotaDb | Denied (retry_after_secs limit : Z).
Definition quota_failure_response (e : QuotaFailure) : Refusal :=
  match e with QuotaDb => Refuse 503 "QUOTA_UNAVAILABLE" | Denied _ _ => Refuse 429 "QUOTA_EXCEEDED" end.
Definition QUOTA_HORIZON : Z := 3600.
Definition quota_key (bucket : QuotaBucket) (tenant principal : str) : str := qb_name bucket ++ lit ":" ++ tenant ++ lit ":" ++ principal.
(** The upsert: the row after it and the row it returns, or no row when the window is full. *)
Definition reserved (bucket : QuotaBucket) (now : Z) (row : option QuotaRow) : option QuotaRow :=
  match row with
  | None => Some {| qr_window_started_at := now; qr_count := 1; qr_updated_at := now |}
  | Some r =>
      let expired := now >=? qr_window_started_at r + qb_window_seconds bucket in
      if expired || (qr_count r <? qb_max_requests bucket) then
        Some {| qr_window_started_at := if expired then now else qr_window_started_at r;
                qr_count := if expired then 1 else qr_count r + 1; qr_updated_at := now |}
      else None
  end.
Definition reserve (c : ACall) (bucket : QuotaBucket) (key : str) (now : Z) : Tx ADb QuotaFailure (option QuotaRow) := fun d =>
  if a_fails c "quota reserve" then (Err QuotaDb, d) else
  match reserved bucket now (ad_quotas d !! key) with
  | Some r => (Ok (Some r), set_quotas (<[key := r]>) d)
  | None => (Ok None, d)
  end.
Definition check_quota (c : ACall) (bucket : QuotaBucket) (tenant principal : str) (now : Z) : Tx ADb QuotaFailure QuotaState :=
  execute_if (a_fails c "quota prune") QuotaDb (fun d =>
    Some (set_quotas (filter (fun kv => ~ qr_window_started_at kv.2 < sat_sub now QUOTA_HORIZON)) d)) ;;;
  let key := quota_key bucket tenant principal in
  do row <- reserve c bucket key now ;;
  match row with
  | Some r =>
      tret (Ok {| qs_limit := qb_max_requests bucket; qs_remaining := sat_sub (qb_max_requests bucket) (qr_count r);
                  qs_reset_after_secs := sat_sub (qb_window_seconds bucket) (sat_sub now (qr_window_started_at r)) |})
  | None =>
      do started <- query_if (a_fails c "quota window") QuotaDb (fun d => qr_window_started_at <$> ad_quotas d !! key) ;;
      tret (Err match started with
                | Some started => Denied (Z.max (sat_sub (qb_window_seconds bucket) (sat_sub now started)) 1) (qb_max_requests bucket)
                | None => QuotaDb
                end)
  end.
Definition quota_or_refuse {A} (m : Tx ADb QuotaFailure A) : ATx A := fun d =>
  let '(r, d') := m d in (map_err quota_failure_response r, d').
Definition check_challenge_quota (c : ACall) (headers : HeaderMap) (account : str) (now : Z) : Tx ADb QuotaFailure unit :=
  check_quota (under "global" c) CHALLENGE_GLOBAL_BUCKET (lit "auth") (lit "all") now ;;;
  check_quota (under "source" c) CHALLENGE_SOURCE_BUCKET (lit "auth") (request_source headers) now ;;;
  check_quota (under "account" c) CHALLENGE_ACCOUNT_BUCKET (lit "auth") account now ;;;
  tret (Ok tt).
End Shared.

(** ** What a request quota admits

    src/services/account/src/abuse.rs: a quota is a fixed window that starts with the first
    request it admits; how many requests it admits in an interval as long as its window,
    wherever the interval lies. *)

#[local] Open Scope tx_scope.

(** A request that reserves quota. *)
Record Ask : Type := { k_call : ACall; k_bucket : QuotaBucket; k_tenant : str; k_principal : str; k_now : Z }.
Definition ask_key (a : Ask) : str := quota_key (k_bucket a) (k_tenant a) (k_principal a).
Definition quota_ask (a : Ask) : Tx ADb QuotaFailure QuotaState := check_quota (k_call a) (k_bucket a) (k_tenant a) (k_principal a) (k_now a).
Definition before_ask (a b : Ask) : Prop := k_now a <= k_now b.
(** The requests of a key that are admitted between [start] and [start + length]. *)
Definition counts (key : str) (start length : Z) (a : Ask) : bool :=
  bool_decide (ask_key a = key) && (start <=? k_now a) && (k_now a <? start + length).
Fixpoint admitted (P : Ask -> bool) (asks : list Ask) (d : ADb) : Z :=
  match asks with
  | [] => 0
  | a :: rest => (if P a && is_ok (quota_ask a d).1 then 1 else 0) + admitted P rest (quota_ask a d).2
  end.

(** The row of a key after a request, and whether the request was admitted. *)
Definition pruned (now : Z) (row : option QuotaRow) : option QuotaRow :=
  match row with Some r => if qr_window_started_at r <? sat_sub now QUOTA_HORIZON then None else Some r | None => None end.
Lemma ask_rows a d key : exists row,
  (row = ad_quotas d !! key \/ row = pruned (k_now a) (ad_quotas d !! key)) /\
  ((ad_quotas (quota_ask a d).2 !! key = row /\ (ask_key a = key -> is_ok (quota_ask a d).1 = false)) \/
   (ask_key a = key /\ exists r, reserved (k_bucket a) (k_now a) row = Some r /\ ad_quotas (quota_ask a d).2 !! key = Some r)).
Proof.
  unfold quota_ask, check_quota. set (keep := fun kv : str * QuotaRow => ~ qr_window_started_at kv.2 < sat_sub (k_now a) QUOTA_HORIZON).
  unfold execute_if, tbind. destruct (a_fails _ "quota prune").
  { exists (ad_quotas d !! key). split; [by left|]. by left. }
  assert (ad_quotas (set_quotas (filter keep) d) !! key = pruned (k_now a) (ad_quotas d !! key)) as Ep.
  { assert (ad_quotas (set_quotas (filter keep) d) = filter keep (ad_quotas d)) as -> by (by destruct d).
    destruct (ad_quotas d !! key) as [r|] eqn:Er; cbn [pruned].
    - destruct (qr_window_started_at r <? _) eqn:El.
      + apply map_lookup_filter_None. right. intros x Hx Hk. unfold keep in Hk. cbn in Hk. assert (x = r) as -> by congruence. lia.
      + apply map_lookup_filter_Some. split; [done|]. unfold keep. cbn. lia.
    - apply map_lookup_filter_None. by left. }
  exists (pruned (k_now a) (ad_quotas d !! key)). split; [by right|]. set (d1 := set_quotas (filter keep) d) in *.
  unfold reserve. destruct (a_fails _ "quota reserve"); [by left|]. fold (ask_key a). destruct (decide (ask_key a = key)) as [->|Hne].
  - rewrite Ep. destruct (reserved _ _ _) as [r|] eqn:Er.
    + right. split; [done|]. exists r. split; [done|]. destruct d1. cbn. by rewrite lookup_insert_eq.
    + left. unfold query_if. destruct (a_fails _ "quota window"); [by cbn|]. destruct d1. by cbn.
  - left. split; [|done]. destruct (reserved _ _ _) as [r|].
    + destruct d1. cbn in *. by rewrite lookup_insert_ne.
    + unfold query_if. destruct (a_fails _ "quota window"); destruct d1; cbn in *; done.
Qed.

Section Window.
Variables (key : str) (bucket : QuotaBucket) (start : Z).
Abbreviation maximum := (qb_max_requests bucket).
Abbreviation window := (qb_window_seconds bucket).
Hypothesis Hmax : 1 <= maximum.
Hypothesis Hwindow : 0 < window <= QUOTA_HORIZON.

(** [n] requests of the interval were admitted, and the next one comes at [now] or later. *)
Definition within (row : option QuotaRow) (now n : Z) : Prop :=
  0 <= n <= 2 * maximum - 1 /\ (now < start -> n = 0) /\
  match row with
  | None => n <= maximum - 1 \/ start + window <= now
  | Some r =>
      let s := qr_window_started_at r in
      0 <= s <= now /\ 1 <= qr_count r /\
      (s < start -> n <= Z.min (qr_count r) maximum - 1) /\ (s < start + window -> n <= maximum - 1 + Z.min (qr_count r) maximum)
  end.

Lemma within_later row now now' n : now <= now' -> within row now n -> within row now' n.
Proof. unfold within. destruct row; cbn; lia. Qed.
Lemma within_pruned row now n : within row now n -> within (pruned now row) now n.
Proof.
  unfold within, pruned, sat_sub. destruct row as [r|]; [|done]. cbn. destruct (_ <? _) eqn:E; [|done]. unfold QUOTA_HORIZON in *. lia.
Qed.
Lemma within_reserved row now n r : 0 <= now -> within row now n -> reserved bucket now row = Some r ->
  within (Some r) now (n + (if (start <=? now) && (now <? start + window) then 1 else 0)).
Proof.
  intros Hnow. unfold within, reserved. destruct row as [old|]; cbn.
  - intros (Hn & H0 & Hs & Hc & H1 & H2). destruct (now >=? _) eqn:Ee; cbn [orb].
    + intros [= <-]. cbn. destruct (start <=? now) eqn:E1, (now <? start + window) eqn:E2; cbn; lia.
    + destruct (_ <? _) eqn:El; [|done]. intros [= <-]. cbn. destruct (start <=? now) eqn:E1, (now <? start + window) eqn:E2; cbn; lia.
  - intros (Hn & H0 & H1) [= <-]. cbn. destruct (start <=? now) eqn:E1, (now <? start + window) eqn:E2; cbn; lia.
Qed.
Lemma within_ask a d n : (ask_key a = key -> k_bucket a = bucket) -> 0 <= k_now a -> within (ad_quotas d !! key) (k_now a) n ->
  within (ad_quotas (quota_ask a d).2 !! key) (k_now a) (n + (if counts key start window a && is_ok (quota_ask a d).1 then 1 else 0)).
Proof.
  intros Hb Hnow Hw. destruct (ask_rows a d key) as (row & Hrow & Hstep). assert (within row (k_now a) n) as Hr.
  { destruct Hrow as [->| ->]; [done|by apply within_pruned]. }
  unfold counts. destruct Hstep as [(-> & Hno)|(Ek & r & Hres & ->)].
  - destruct (bool_decide_reflect (ask_key a = key)) as [Ek|]; cbn [andb]; [rewrite (Hno Ek), andb_false_r|]; by rewrite Z.add_0_r.
  - rewrite (Hb Ek) in Hres. pose proof (within_reserved _ _ _ _ Hnow Hr Hres) as H1. rewrite bool_decide_eq_true_2 by done. cbn [andb].
    destruct ((start <=? k_now a) && _) eqn:Ec; cbn [andb] in *; [|done]. destruct (is_ok _); [done|]. cbn. rewrite Z.add_0_r.
    unfold within in *. cbn in *. lia.
Qed.
Lemma admitted_bound asks d now n : StronglySorted before_ask asks -> Forall (fun a => 0 <= k_now a /\ now <= k_now a /\ (ask_key a = key -> k_bucket a = bucket)) asks ->
  within (ad_quotas d !! key) now n -> n + admitted (counts key start window) asks d <= 2 * maximum - 1.
Proof.
  intros Hs Ha. revert d now n Ha. induction Hs as [|a asks Hs IH Hlater]; intros d now n Ha Hw; cbn [admitted].
  - destruct Hw. lia.
  - apply Forall_cons in Ha as ((H0 & Hnow & Hb) & Ha). rewrite Z.add_assoc. apply (IH _ (k_now a)).
    + apply Forall_forall. intros b Hin. rewrite !Forall_forall in *. destruct (Ha b Hin) as (? & _ & ?). split; [done|]. split; [|done]. by apply Hlater.
    + apply within_ask; [done|done|]. by apply (within_later _ now).
Qed.
(** C35: however requests of any keys are mixed, with a clock that does not go back and whichever
    statements fail: of the requests of one key fewer than twice the maximum of its bucket are
    admitted in any interval as long as the window of the bucket. *)
Theorem quota_window_bound asks d : StronglySorted before_ask asks ->
  Forall (fun a => 0 <= k_now a /\ (ask_key a = key -> k_bucket a = bucket)) asks ->
  (forall r, ad_quotas d !! key = Some r -> 0 <= qr_window_started_at r /\ 1 <= qr_count r /\ Forall (fun a => qr_window_started_at r <= k_now a) asks) ->
  admitted (counts key start window) asks d < 2 * maximum.
Proof.
  intros Hs Ha Hrow. destruct asks as [|a asks]; [cbn; lia|]. pose proof Hs as Hall. apply StronglySorted_inv in Hall as (_ & Hall).
  assert (admitted (counts key start window) (a :: asks) d <= 2 * maximum - 1) as H; [|lia].
  apply (admitted_bound (a :: asks) d (k_now a) 0); [done| |].
  - apply Forall_cons in Ha as ((H0 & Hb) & Ha). constructor; [split; [done|split; [lia|done]]|].
    rewrite !Forall_forall in *. intros b Hin. destruct (Ha b Hin) as (? & ?). split; [done|]. split; [by apply Hall|done].
  - split; [lia|]. split; [done|]. destruct (ad_quotas d !! key) as [r|]; [|lia]. destruct (Hrow r eq_refl) as (H0 & H1 & Hf).
    apply Forall_cons in Hf as (Hf & _). cbn. lia.
Qed.
End Window.

(** Requests of the export quota: one, nine more just before its window ends, ten right after. *)
Definition quiet_call : ACall := {| a_fails := fun _ => false; a_now := fun _ => 0; a_draw := fun _ => [] |}.
Definition export_at (now : Z) : Ask := {| k_call := quiet_call; k_bucket := EXPORT_BUCKET; k_tenant := lit "acme"; k_principal := lit "ci"; k_now := now |}.
Definition burst : list Ask := [export_at 1000] ++ replicate 12 (export_at 1299) ++ replicate 12 (export_at 1300).
Definition no_quotas : ADb := MkADb ∅ ∅ ∅ ∅ ∅ ∅ ∅ ∅ ∅ ∅ ∅ ∅ ∅ ∅ ∅ ∅ [].
(** The bound is attained. *)
Lemma quota_window_bound_witness :
  admitted (counts (ask_key (export_at 0)) 1299 300) burst no_quotas = 19 /\ admitted (counts (ask_key (export_at 0)) 1299 300) burst no_quotas < 2 * 10.
Proof.
  split; [vm_compute; reflexivity|].
  apply (quota_window_bound (ask_key (export_at 0)) EXPORT_BUCKET 1299); [cbn; lia|unfold QUOTA_HORIZON; cbn; lia| | |intros r H; vm_compute in H; discriminate H].
  - cbn. repeat first [apply SSorted_cons | apply SSorted_nil | apply Forall_cons_2 | apply Forall_nil_2]; unfold before_ask; cbn; lia.
  - cbn. repeat (apply Forall_cons_2; [split; [cbn; lia|done]|]). apply Forall_nil_2.
Defined.
