(* ===== verification/Totp.v ===== *)
(** * Time-based one-time passwords

    src/services/account/src/totp.rs without its handlers: base32, the code of a step, the
    window in which a code is accepted, and the sealed form of the seed.

    HMAC-SHA1 and AES-256-GCM (the ring crate) are interfaces. *)

From S2P Require Import Prelude Primitives SamplePrimitives Policy AccountDb.

Class HmacSha1 : Type := { hmac_sha1 : bytes -> bytes -> bytes (* key, message *) }.
Class HmacSha1Laws (H : HmacSha1) : Prop := {
  hmac_sha1_length : forall k m, length (hmac_sha1 k m) = 20%nat;
  hmac_sha1_bytes : forall k m, is_bytes (hmac_sha1 k m);
}.
Class Aes256Gcm : Type := {
  gcm_seal : bytes -> bytes -> bytes -> option bytes; (* key, nonce, plaintext: ciphertext and tag *)
  gcm_open : bytes -> bytes -> bytes -> option bytes;
}.
Class Aes256GcmLaws (A : Aes256Gcm) : Prop := {
  gcm_open_seal : forall k n m c, gcm_seal k n m = Some c -> gcm_open k n c = Some m;
  gcm_seal_bytes : forall k n m c, is_bytes m -> gcm_seal k n m = Some c -> is_bytes c /\ length c = (length m + 16)%nat;
}.

Inductive TotpError : Type := InvalidCode | InvalidSecret | CodeMismatch | TotpReplay.

Definition STEP_SECONDS : Z := 30.
Definition DIGITS : Z := 6.
Definition SECRET_BYTES : Z := 20.
Definition ALPHABET : bytes := lit "ABCDEFGHIJKLMNOPQRSTUVWXYZ234567".

(** ** Base32, with the buffers of the code *)

Definition wrap16 (z : Z) : Z := z mod 65536.
Definition symbol (i : Z) : Z := default 0 (ALPHABET !! Z.to_nat i).

(** [while bits >= 5]: the symbols pushed and the bits left; [fuel] of two rounds is enough
    for the twelve bits there can be. *)
Fixpoint push_symbols (fuel : nat) (buffer bits : Z) : list Z * Z :=
  match fuel with
  | O => ([], bits)
  | S fuel =>
      if bits >=? 5 then
        let bits := bits - 5 in
        let '(rest, bits_left) := push_symbols fuel buffer bits in
        (symbol (Z.land (Z.shiftr buffer bits) 31) :: rest, bits_left)
      else ([], bits)
  end.
Fixpoint encode_bytes (input : bytes) (buffer bits : Z) : str :=
  match input with
  | [] => if bits >? 0 then [symbol (Z.land (wrap16 (Z.shiftl buffer (5 - bits))) 31)] else []
  | byte :: rest =>
      let buffer := Z.lor (wrap16 (Z.shiftl buffer 8)) byte in
      let '(out, bits) := push_symbols 3 buffer (bits + 8) in
      out ++ encode_bytes rest buffer bits
  end.
Definition base32_encode (input : bytes) : str := encode_bytes input 0 0.

Definition symbol_index (byte : Z) : option Z :=
  let upper := to_ascii_uppercase byte in
  if (65 <=? upper) && (upper <=? 90) then Some (upper - 65)
  else if (50 <=? upper) && (upper <=? 55) then Some (upper - 50 + 26)
  else None.
Definition skipped (byte : Z) : bool := (byte =? 61) || is_ascii_whitespace byte || (byte =? 45).
Fixpoint decode_symbols (text : bytes) (buffer bits : Z) (saw_symbol : bool) (output : bytes) : result TotpError bytes :=
  match text with
  | [] => bail? negb saw_symbol || bool_decide (output = []) with InvalidSecret ;; Ok output
  | byte :: rest =>
      if skipped byte then decode_symbols rest buffer bits saw_symbol output else
      match symbol_index byte with
      | None => Err InvalidSecret
      | Some index =>
          let buffer := Z.lor (wrap16 (Z.shiftl buffer 5)) index in
          let bits := bits + 5 in
          if bits >=? 8 then
            let bits := bits - 8 in
            let output := output ++ [Z.shiftr buffer bits mod 256] in
            decode_symbols rest (if bits =? 0 then 0 else Z.land buffer (Z.shiftl 1 bits - 1)) bits true output
          else decode_symbols rest buffer bits true output
      end
  end.
Definition base32_decode (value : str) : result TotpError bytes := decode_symbols (as_bytes value) 0 0 false [].

(** ** Codes *)

Section Codes.
Context {HS : HmacSha1}.

Definition byte_at (b : bytes) (i : Z) : Z := default 0 (b !! Z.to_nat i).
(** [format!("{:06}", n)] *)
Definition six_digits (n : Z) : str := replicate (6 - length (show_Z n)) 48 ++ show_Z n.
Definition truncated (tag : bytes) : Z :=
  let offset := Z.land (byte_at tag (blen tag - 1)) 15 in
  Z.lor (Z.lor (Z.lor (Z.shiftl (Z.land (byte_at tag offset) 127) 24) (Z.shiftl (byte_at tag (offset + 1)) 16))
               (Z.shiftl (byte_at tag (offset + 2)) 8)) (byte_at tag (offset + 3)).
Definition code_for_step (secret : bytes) (step : Z) : result TotpError str :=
  bail? bool_decide (secret = []) with InvalidSecret ;;
  Ok (six_digits (truncated (hmac_sha1 secret (to_be_bytes 8 step)) mod 1000000)).

Definition spent_step (last : option Z) (candidate : Z) : bool := match last with Some last => candidate <=? last | None => false end.
Fixpoint find_step (secret : bytes) (code : str) (last : option Z) (candidates : list Z) : result TotpError (option Z) :=
  match candidates with
  | [] => Ok None
  | candidate :: rest =>
      if spent_step last candidate then find_step secret code last rest else
      let? expected := code_for_step secret candidate in
      if bool_decide (expected = code) then Ok (Some candidate) else find_step secret code last rest
  end.
Definition verify_code (secret : bytes) (code : str) (now : Z) (last : option Z) : result TotpError Z :=
  let normalized := trim code in
  bail? negb (str_len normalized =? DIGITS) || negb (forallb is_ascii_digit (as_bytes normalized)) with InvalidCode ;;
  let current_step := now / STEP_SECONDS in
  let? found := find_step secret normalized last [sat_sub current_step 1; current_step; current_step + 1] in
  match found with
  | Some step => Ok step
  | None => Err (if spent_step last (sat_sub current_step 1) then TotpReplay else CodeMismatch)
  end.

(** ** The stored seed *)

Context {HX : Hex} {B64 : Base64Url} {AG : Aes256Gcm}.
Variable cf : Config.

Definition totp_wrapping_key : result AccountServiceError bytes :=
  let? raw :=
    match cf_totp_key_file cf with
    | Some path =>
        if negb (bool_decide (trim path = [])) then
          match cf_read_to_string cf (trim path) with
          | Some text => Ok text
          | None => Err (Invalid (lit "must reference a readable 32-byte hex key file"))
          end
        else match cf_totp_key cf with Some v => Ok v | None => Err (Invalid (lit "must be configured")) end
    | None => match cf_totp_key cf with Some v => Ok v | None => Err (Invalid (lit "must be configured")) end
    end in
  let bad := Invalid (lit "TOTP wrapping key must be 32-byte hex") in
  let? key := map_err (fun _ => bad) (hex_decode (trim raw)) in
  bail? negb (blen key =? 32) with bad ;; Ok key.
Definition encrypt_totp_secret (nonce secret : bytes) : result AccountServiceError str :=
  let? key := totp_wrapping_key in
  match gcm_seal key nonce secret with
  | Some payload => Ok (b64_encode (nonce ++ payload))
  | None => Err (Invalid (lit "unable to encrypt TOTP secret"))
  end.
Definition decrypt_totp_secret_with_key (value : str) (wrapping_key : bytes) : result AccountServiceError bytes :=
  let? envelope := b64_decode value (lit "TOTP secret envelope") in
  bail? blen envelope <=? TOTP_NONCE_BYTES with Invalid (lit "TOTP secret envelope is invalid") ;;
  match gcm_open wrapping_key (take (Z.to_nat TOTP_NONCE_BYTES) envelope) (drop (Z.to_nat TOTP_NONCE_BYTES) envelope) with
  | Some plaintext => Ok plaintext
  | None => Err (Invalid (lit "TOTP secret could not be decrypted"))
  end.
Definition decrypt_totp_secret (value : str) : result AccountServiceError bytes :=
  let? key := totp_wrapping_key in decrypt_totp_secret_with_key value key.
End Codes.

(** ** Round trips *)

Lemma symbol_roundtrip i : 0 <= i < 32 -> skipped (symbol i) = false /\ symbol_index (symbol i) = Some i /\ utf8_char (symbol i) = [symbol i].
Proof.
  intros Hi. assert (forall n, (n < 32)%nat -> skipped (symbol (Z.of_nat n)) = false /\ symbol_index (symbol (Z.of_nat n)) = Some (Z.of_nat n) /\
    utf8_char (symbol (Z.of_nat n)) = [symbol (Z.of_nat n)]) as H.
  { intros n Hn. do 32 (destruct n as [|n]; [vm_compute; repeat split|]). lia. }
  specialize (H (Z.to_nat i) ltac:(lia)). by rewrite Z2Nat.id in H by lia.
Qed.
Lemma land_31 z : Z.land z 31 = z mod 32.
Proof. change 31 with (Z.ones 5). by rewrite Z.land_ones by lia. Qed.
Lemma lor_add a b n : 0 <= n -> 0 <= b < 2 ^ n -> (2 ^ n | a) -> Z.lor a b = a + b.
Proof.
  intros Hn Hb (q & ->). destruct (decide (b = 0)) as [->|]; [by rewrite Z.lor_0_r, Z.add_0_r|]. pose proof (Z.add_lor_land (q * 2 ^ n) b) as E. assert (Z.land (q * 2 ^ n) b = 0) as E0; [|lia].
  apply Z.bits_inj'. intros i Hi. rewrite Z.land_spec, Z.bits_0, <- Z.shiftl_mul_pow2 by lia.
  destruct (Z.ltb_spec i n); [rewrite Z.shiftl_spec_low by lia; done|].
  rewrite (Z.bits_above_log2 b); [by rewrite andb_false_r|lia|].
  apply Z.log2_lt_pow2; [lia|]. apply Z.lt_le_trans with (2 ^ n); [lia|]. apply Z.pow_le_mono_r; lia.
Qed.

(** One round of the encoder and of the decoder, in arithmetic. *)
Lemma push_byte buffer byte : is_u8 byte -> Z.lor (wrap16 (Z.shiftl buffer 8)) byte = (buffer mod 256) * 256 + byte.
Proof.
  unfold is_u8, wrap16. intros Hb. rewrite Z.shiftl_mul_pow2 by lia. change (2 ^ 8) with 256.
  rewrite (lor_add _ _ 8); [|lia|change (2 ^ 8) with 256; lia|]; change (2 ^ 8) with 256.
  - f_equal. change 65536 with (256 * 256). rewrite Z.mul_mod_distr_r by lia. lia.
  - change 65536 with (256 * 256). rewrite Z.mul_mod_distr_r by lia. eexists. reflexivity.
Qed.
Lemma push_index buffer i : 0 <= i < 32 -> Z.lor (wrap16 (Z.shiftl buffer 5)) i = (buffer mod 2048) * 32 + i.
Proof.
  unfold wrap16. intros Hb. rewrite Z.shiftl_mul_pow2 by lia. change (2 ^ 5) with 32.
  rewrite (lor_add _ _ 5); [|lia|change (2 ^ 5) with 32; lia|]; change (2 ^ 5) with 32.
  - f_equal. change 65536 with (2048 * 32). rewrite Z.mul_mod_distr_r by lia. lia.
  - change 65536 with (2048 * 32). rewrite Z.mul_mod_distr_r by lia. eexists. reflexivity.
Qed.
Lemma decode_full i rest buffer bits saw out : 0 <= i < 32 -> 3 <= bits <= 7 -> 0 <= buffer < 2 ^ bits ->
  decode_symbols (symbol i :: rest) buffer bits saw out =
  decode_symbols rest ((buffer * 32 + i) mod 2 ^ (bits - 3)) (bits - 3) true (out ++ [(buffer * 32 + i) / 2 ^ (bits - 3) mod 256]).
Proof.
  intros Hi Hbits Hb. destruct (symbol_roundtrip i Hi) as (Hs & Hx & _). cbn [decode_symbols]. rewrite Hs, Hx, push_index by done.
  assert (2 ^ bits <= 2 ^ 7) by (apply Z.pow_le_mono_r; lia). change (2 ^ 7) with 128 in *. rewrite (Z.mod_small buffer) by lia.
  rewrite (proj2 (Z.geb_le _ _)) by lia. replace (bits + 5 - 8) with (bits - 3) by lia. rewrite Z.shiftr_div_pow2 by lia.
  f_equal. destruct (Z.eqb_spec (bits - 3) 0) as [->|Hne]; [by rewrite Z.mod_1_r|].
  rewrite Z.shiftl_1_l. replace (2 ^ (bits - 3) - 1) with (Z.ones (bits - 3)) by (rewrite Z.ones_equiv; lia).
  by rewrite Z.land_ones by lia.
Qed.
Lemma decode_part i rest buffer bits saw out : 0 <= i < 32 -> 0 <= bits < 3 -> 0 <= buffer < 2 ^ bits ->
  decode_symbols (symbol i :: rest) buffer bits saw out = decode_symbols rest (buffer * 32 + i) (bits + 5) true out.
Proof.
  intros Hi Hbits Hb. destruct (symbol_roundtrip i Hi) as (Hs & Hx & _). cbn [decode_symbols]. rewrite Hs, Hx, push_index by done.
  assert (2 ^ bits <= 2 ^ 7) by (apply Z.pow_le_mono_r; lia). change (2 ^ 7) with 128 in *. rewrite (Z.mod_small buffer) by lia.
  destruct (Z.geb_spec (bits + 5) 8); [lia|done].
Qed.
#[local] Ltac Zify.zify_post_hook ::= Z.to_euclidean_division_equations.
Lemma push_symbols_step e buffer : 0 <= e <= 4 ->
  push_symbols 3 buffer (e + 8) =
    if e <? 2 then ([symbol (buffer / 2 ^ (e + 3) mod 32)], e + 3)
    else ([symbol (buffer / 2 ^ (e + 3) mod 32); symbol (buffer / 2 ^ (e - 2) mod 32)], e - 2).
Proof.
  intros He. cbn [push_symbols]. rewrite (proj2 (Z.geb_le (e + 8) 5)) by lia.
  destruct (Z.ltb_spec e 2).
  - destruct (Z.geb_spec (e + 8 - 5) 5); [lia|]. rewrite land_31, Z.shiftr_div_pow2 by lia. by replace (e + 8 - 5) with (e + 3) by lia.
  - rewrite (proj2 (Z.geb_le (e + 8 - 5) 5)) by lia. destruct (Z.geb_spec (e + 8 - 5 - 5) 5); [lia|].
    rewrite !land_31, !Z.shiftr_div_pow2 by lia. replace (e + 8 - 5 - 5) with (e - 2) by lia. by replace (e + 8 - 5) with (e + 3) by lia.
Qed.

(** The decoder after the encoder has left [e] bits of the byte [last]. *)
Definition pending (e last : Z) : Z * Z := if e =? 0 then (0, 0) else (last / 2 ^ e, 8 - e).
Lemma resume l e last buffer x y out : 
  x = (pending e last).1 -> y = (pending e last).2 ->
  decode_symbols (encode_bytes l buffer e) (pending e last).1 (pending e last).2 true out = Ok (out ++ (if e =? 0 then [] else [last]) ++ l) ->
  decode_symbols (encode_bytes l buffer e) x y true out = Ok (out ++ (if e =? 0 then [] else [last]) ++ l).
Proof. by intros -> ->. Qed.
#[local] Ltac arith B := try subst B; cbn -[Z.div Z.mul Z.add Z.modulo]; try change (2 ^ (8 - 2 - 3)) with 8; try change (2 ^ (8 - 1 - 3)) with 16; try change (2 ^ (8 - 3 - 3)) with 4; try change (2 ^ (8 - 4 - 3)) with 2; lia.
#[local] Ltac full last out B := rewrite decode_full by arith B;
  match goal with |- decode_symbols _ _ _ _ ?o = _ => replace o with (out ++ [last]) by (do 2 f_equal; arith B) end.
Lemma encode_decode l e last buffer saw out : is_bytes l -> 0 <= e <= 4 -> is_u8 last -> buffer mod 2 ^ e = last mod 2 ^ e ->
  (l = [] -> e = 0 -> saw = true /\ out <> []) ->
  decode_symbols (encode_bytes l buffer e) (pending e last).1 (pending e last).2 saw out =
    Ok (out ++ (if e =? 0 then [] else [last]) ++ l).
Proof.
  revert e last buffer saw out; induction l as [|b l IH]; intros e last buffer saw out Hl He Hlast Heq Hne; unfold is_u8 in *.
  - cbn [encode_bytes]. destruct (Z.eqb_spec e 0) as [->|Hz].
    + cbn. destruct (Hne eq_refl eq_refl) as (-> & Ho). rewrite bool_decide_eq_false_2 by done. cbn. by rewrite app_nil_r.
    + rewrite (proj2 (Z.gtb_lt e 0)) by lia. unfold pending. destruct (Z.eqb_spec e 0); [done|]. cbn [fst snd].
      rewrite land_31. unfold wrap16. rewrite Z.shiftl_mul_pow2 by lia.
      rewrite decode_full; [|lia|lia|].
      * cbn [decode_symbols negb orb]. rewrite bool_decide_eq_false_2 by (by destruct out). cbn. do 3 f_equal.
        assert (e = 1 \/ e = 2 \/ e = 3 \/ e = 4) as He' by lia. destruct He' as [->|[->|[->| ->]]]; cbn in *; lia.
      * assert (e = 1 \/ e = 2 \/ e = 3 \/ e = 4) as He' by lia. destruct He' as [->|[->|[->| ->]]]; cbn in *; lia.
  - apply Forall_cons in Hl as (Hb & Hl). unfold is_u8 in Hb. cbn [encode_bytes]. rewrite push_byte by done. rewrite push_symbols_step by lia.
    assert (e = 0 \/ e = 1 \/ e = 2 \/ e = 3 \/ e = 4) as He' by lia.
    destruct He' as [->|[->|[->|[->| ->]]]]; cbn [Z.ltb Z.compare Pos.compare Pos.compare_cont app]; unfold pending; cbn in Heq; cbn [fst snd Z.eqb];
    set (B := buffer mod 256 * 256 + b).
    all: change (2 ^ (0 + 3)) with 8; change (2 ^ (1 + 3)) with 16; change (2 ^ (2 + 3)) with 32; change (2 ^ (3 + 3)) with 64; change (2 ^ (4 + 3)) with 128;
      change (2 ^ (2 - 2)) with 1; change (2 ^ (3 - 2)) with 2; change (2 ^ (4 - 2)) with 4;
      change (2 ^ 1) with 2 in *; change (2 ^ 2) with 4 in *; change (2 ^ 3) with 8 in *; change (2 ^ 4) with 16 in *.
    + rewrite decode_part by (cbn; lia). change (0 + 3) with 3. rewrite (resume l 3 b B _ _ out); [done|cbn -[Z.div Z.mul Z.add]; subst B; lia|done|].
      apply IH; [done|lia|lia| |done]. subst B. cbn; lia.
    + full last out B. change (1 + 3) with 4. rewrite (resume l 4 b B _ _ (out ++ [last])); [by rewrite <- app_assoc|arith B|done|].
      apply IH; [done|lia|lia| |done]. arith B.
    + full last out B. full b (out ++ [last]) B. change (2 - 2) with 0.
      rewrite (resume l 0 b B _ _ ((out ++ [last]) ++ [b])); [by rewrite <- !app_assoc|arith B|done|].
      apply IH; [done|lia|lia|by rewrite !Z.mod_1_r|]. intros _ _. split; [done|]. by destruct out.
    + full last out B. rewrite decode_part by arith B. change (3 - 2) with 1.
      rewrite (resume l 1 b B _ _ (out ++ [last])); [by rewrite <- !app_assoc|arith B|done|].
      apply IH; [done|lia|lia| |done]. arith B.
    + full last out B. rewrite decode_part by arith B. change (4 - 2) with 2.
      rewrite (resume l 2 b B _ _ (out ++ [last])); [by rewrite <- !app_assoc|arith B|done|].
      apply IH; [done|lia|lia| |done]. arith B.
Qed.

Lemma encode_ascii l buffer e : is_bytes l -> 0 <= e <= 4 -> as_bytes (encode_bytes l buffer e) = encode_bytes l buffer e.
Proof.
  assert (forall z, utf8_char (symbol (z mod 32)) = [symbol (z mod 32)]) as Hs by (intros z; apply symbol_roundtrip; lia).
  revert buffer e; induction l as [|b l IH]; intros buffer e Hl He; cbn [encode_bytes].
  - destruct (e >? 0); [|done]. rewrite land_31. unfold as_bytes. cbn [mbind list_bind]. by rewrite Hs.
  - apply Forall_cons in Hl as (Hb & Hl). rewrite push_symbols_step by done. destruct (e <? 2) eqn:E; [apply Z.ltb_lt in E|apply Z.ltb_ge in E];
      unfold as_bytes; cbn [app mbind list_bind]; rewrite !Hs; cbn [app]; do 2 f_equal; [|f_equal]; apply IH; [done|lia|done|lia].
Qed.
(** A secret shown in base32 is the secret that is read back. *)
Theorem base32_roundtrip secret : is_bytes secret -> secret <> [] -> base32_decode (base32_encode secret) = Ok secret.
Proof.
  intros Hb Hne. unfold base32_decode, base32_encode. rewrite encode_ascii by (done || lia).
  by apply (encode_decode secret 0 0 0 false []).
Qed.

Section Theory.
Context {HS : HmacSha1}.

Lemma find_step_ok secret code last candidates s : find_step secret code last candidates = Ok (Some s) ->
  s ∈ candidates /\ spent_step last s = false /\ code_for_step secret s = Ok code.
Proof.
  induction candidates as [|x rest IH]; [done|]. cbn [find_step]. destruct (spent_step last x) eqn:Ex.
  - intros (Hin & H)%IH. split; [by right|done].
  - intros H. apply res_bind_ok in H as (expected & He & H). case_bool_decide as Ec.
    + injection H as <-. subst. split; [by left|done].
    + apply IH in H as (Hin & H). split; [by right|done].
Qed.
Lemma verify_code_later secret code now l s : verify_code secret code now (Some l) = Ok s -> l < s.
Proof.
  intros H. unfold verify_code in H. apply bail_ok in H as (_ & H). apply res_bind_ok in H as (found & Hf & H).
  destruct found as [s'|]; [|done]. injection H as ->. apply find_step_ok in Hf as (_ & Hs & _). cbn in Hs. lia.
Qed.
(** An accepted code is the code of a step next to the present one that is later than the last one used. *)
Lemma verify_code_ok secret code now last s : 0 <= now -> verify_code secret code now last = Ok s ->
  0 <= s /\ Z.abs (s - now / STEP_SECONDS) <= 1 /\ (forall l, last = Some l -> l < s) /\ code_for_step secret s = Ok (trim code).
Proof.
  intros Hnow H. unfold verify_code in H. apply bail_ok in H as (_ & H). apply res_bind_ok in H as (found & Hf & H).
  destruct found as [s'|]; [|done]. injection H as ->. apply find_step_ok in Hf as (Hin & Hs & Hc).
  assert (0 <= now / STEP_SECONDS) by (apply Z.div_pos; unfold STEP_SECONDS; lia). unfold sat_sub in Hin.
  split; [|split; [|split; [|done]]].
  - rewrite !elem_of_cons in Hin. destruct Hin as [->|[->|[->|Hin%not_elem_of_nil]]]; lia || done.
  - rewrite !elem_of_cons in Hin. destruct Hin as [->|[->|[->|Hin%not_elem_of_nil]]]; lia || done.
  - intros l ->. cbn in Hs. lia.
Qed.
Context {HX : Hex} {B64 : Base64Url} {BL : Base64UrlLaws B64} {AG : Aes256Gcm} {AL : Aes256GcmLaws AG}.
Lemma totp_secret_roundtrip cf nonce secret text : is_bytes nonce -> length nonce = 12%nat -> is_bytes secret ->
  encrypt_totp_secret cf nonce secret = Ok text -> decrypt_totp_secret cf text = Ok secret.
Proof.
  intros Hn Hl Hs H. unfold encrypt_totp_secret, decrypt_totp_secret in *. apply res_bind_ok in H as (key & Hk & H). rewrite Hk. cbn.
  destruct (gcm_seal key nonce secret) as [payload|] eqn:E; [|done]. injection H as <-.
  destruct (gcm_seal_bytes _ _ _ _ Hs E) as (Hp & Hlen). unfold decrypt_totp_secret_with_key, b64_encode, b64_decode.
  rewrite b64_roundtrip by (by apply Forall_app). cbn. apply bail_ok. split; [unfold blen, TOTP_NONCE_BYTES; rewrite length_app; apply Z.leb_gt; lia|].
  change (Z.to_nat TOTP_NONCE_BYTES) with 12%nat. rewrite take_app_length', drop_app_length' by done. by rewrite (gcm_open_seal _ _ _ _ E).
Qed.
End Theory.
