(* ===== verification/Accounts.v ===== *)
(** * Accounts, sessions and devices

    src/services/account/src: accounts.rs, sessions.rs, devices.rs and recovery.rs, and
    vaults.rs: logging in with the account key or with the key of an enrolled device,
    handing a session over to a browser, enrolling and revoking devices, recovery codes. *)

From S2P Require Import Prelude Errors Tables Primitives Crypto Policy AccountDb.

#[local] Open Scope tx_scope.
#[local] Open Scope handler_scope.

(** [serde_json::to_vec] of the tuple of account, device, key, challenge and nonce. *)
Class ChallengeJson : Type := { challenge_json : str -> option str -> option str -> str -> str -> bytes }.
Class ChallengeJsonLaws (J : ChallengeJson) : Prop := {
  challenge_json_inj : forall a d k c n a' d' k' c' n',
    challenge_json a d k c n = challenge_json a' d' k' c' n' -> a = a' /\ d = d' /\ k = k' /\ c = c' /\ n = n';
}.

(** ** Answers *)

Inductive Reply : Type :=
| RDone
| RAccount (account : str) (row : Account)
| RChallenge (id nonce_hex : str) (expires : Z) (ceremony : string)
| RSession (token : str) (view : SessionView)
| RView (view : SessionView)
| RHandoff (code : str) (expires : Z)
| RDevice (device : str) (row : Device)
| RRevocation (targets successes failures : Z)
| RCodes (codes : list str)
| REnrollment (secret_base32 uri : str)
| RStepUp (view : SessionView) (expires : Z)
| RPolicy (required : bool) (verified : option Z)
| RInvitation (id token : str) (row : Invitation)
| RMember (account role : str)
| RInvitations (rows : list (str * Invitation))
| RMemberships (rows : list (str * str * Membership))
| RCredential (credential_b64 : str) (row : WebAuthnCredential)
| ROptions (id challenge_b64 user_b64 : str) (ceremony : string).

Definition lower (s : str) : str := to_ascii_lowercase <$> s.
Definition label_text (s : str) : str := take 120 (trim s).

Section Accounts.
Context {HX : Hex} {SH : Sha256} {ED : Ed25519} {CJ : ChallengeJson}.
Variables (cf : Config) (c : ACall).

Definition challenge_signing_bytes (account : str) (device public_key : option str) (challenge nonce_hex : str) : bytes :=
  challenge_json account device public_key challenge nonce_hex.

(** ** accounts.rs *)

Definition unused_account (account key_hex : str) (d : ADb) : bool :=
  bool_decide (ad_accounts d !! account = None)
  && bool_decide (map_Forall (fun _ a => ac_public_key_hex a <> key_hex) (ad_accounts d)).
Definition post_account (display_name account_public_key_hex : str) : Handler Reply :=
  check account <- derive_account_id account_public_key_hex ;;
  check public_key <- decode_32 account_public_key_hex "account_public_key_hex" ;;
  let display_name := label_text display_name in
  refuse bool_decide (display_name = []) with Refuse 400 "INVALID_DISPLAY_NAME" ;;
  let row := {| ac_display_name := display_name; ac_public_key_hex := hex_encode public_key; ac_created_at := a_now c "created" |} in
  finally (
    or_refuse (Refuse 409 "ACCOUNT_EXISTS") (execute c "insert" (fun d =>
      if unused_account account (ac_public_key_hex row) d then Some (set_accounts (<[account := row]>) d) else None)) ;;;
    audit_event c account "account_created" [("display_name", DText display_name)] ;;;
    do found <- query c "account_view" (fun d => account_of d account) ;;
    do found <- some_or (Refuse 500 "ACCOUNT_CREATE_FAILED") found ;;
    tret (Ok (RAccount account found))).

Definition get_account (headers : HeaderMap) (account : str) : Handler Reply :=
  check account <- normalize_account_id account ;;
  lock session <- authenticated_session_with_db c headers ;;
  refuse negb (bool_decide (account_id session = account)) with Refuse 403 "ACCOUNT_SCOPE_MISMATCH" ;;
  finally (
    do found <- query c "account_view" (fun d => account_of d account) ;;
    do found <- some_or (Refuse 404 "ACCOUNT_NOT_FOUND") found ;;
    tret (Ok (RAccount account found))).

(** ** sessions.rs *)

Definition new_challenge (kind account : str) (device public_key : option str) (nonce_hex : str) (expires : Z) : Challenge :=
  {| ch_kind := kind; ch_account := account; ch_device := device; ch_public_key := public_key; ch_nonce_hex := nonce_hex;
     ch_expires_at := expires; ch_used_at := None |}.
(** Reserving quota and storing a challenge, as every ceremony begins. *)
Definition issue_challenge (headers : HeaderMap) (kind account : str) (device public_key : option str) (ceremony : string) : ATx Reply :=
  let id := random_hex c "challenge_id" in
  let nonce_hex := random_hex c "nonce" in
  let expires := a_now c "expires" + CHALLENGE_TTL_SECONDS in
  quota_or_refuse (check_challenge_quota cf (under "quota" c) headers account (a_now c "quota")) ;;;
  execute c "insert challenge" (insert_challenge id (new_challenge kind account device public_key nonce_hex expires)) ;;;
  tret (Ok (RChallenge id nonce_hex expires ceremony)).
Definition active_device (d : ADb) (account device : str) : option Device :=
  match ad_devices d !! (account, device) with
  | Some v => if bool_decide (dv_revoked_at v = None) then Some v else None
  | None => None
  end.
Definition require_active_device (account : str) (device : option str) (r : Refusal) : ATx unit :=
  match device with
  | None => tret (Ok tt)
  | Some id =>
      do active <- or_false (query c "device active" (fun d => bool_decide (is_Some (active_device d account id)))) ;;
      refuse_if (negb active) r
  end.
Definition post_login_challenge (headers : HeaderMap) (account : str) (device : option str) : Handler Reply :=
  check account <- normalize_account_id account ;;
  check device <- match device with
                  | Some value => let? _ := decode_32 value "device_id_hex" in Ok (Some (lower value))
                  | None => Ok None
                  end ;;
  finally (
    prune_expired c (a_now c "prune") ;;;
    do exists_ <- or_false (account_exists c account) ;;
    refuse_if (negb exists_) (Refuse 404 "ACCOUNT_NOT_FOUND") ;;;
    require_active_device account device (Refuse 401 "DEVICE_NOT_ENROLLED") ;;;
    issue_challenge headers (lit "login") account device None "account_key_login_v1").

Definition decode_signature (signature_hex : str) (r : Refusal) (k : bytes -> Handler Reply) : Handler Reply :=
  match hex_decode signature_hex with
  | Ok b => if blen b =? 64 then k b else Answer (Err r)
  | Err _ => Answer (Err r)
  end.
(** [VerifyingKey::from_bytes] of a stored key. *)
Definition key_of (hex_text : str) (field : string) : result AccountServiceError bytes :=
  let? key := decode_32 hex_text field in
  bail? negb (vk_from_bytes_ok key) with Invalid (lit field ++ lit " is invalid") ;; Ok key.
Definition challenge_row (d : ADb) (id kind : str) (account : option str) : option Challenge :=
  match ad_challenges d !! id with
  | Some ch => if bool_decide (ch_kind ch = kind) && match account with Some a => bool_decide (ch_account ch = a) | None => true end then Some ch else None
  | None => None
  end.
Definition session_row (account : str) (device credential : option str) (kind : str) (issued expires : Z) : Session :=
  {| s_account := account; s_device := device; s_credential := credential; s_kind := kind; s_issued := issued;
     s_expires := expires; s_revoked_at := None |}.
Definition new_session_view (s : Session) (required : bool) : SessionView := require_mfa required (session_view s).
Definition device_proof (account : str) (device : option str) (message signature : bytes) : ATx bool :=
  match device with
  | None => tret (Ok false)
  | Some id =>
      do found <- query c "device key" (fun d => active_device d account id) ;;
      do found <- some_or (Refuse 401 "DEVICE_NOT_ENROLLED") found ;;
      tret (Ok match key_of (dv_public_key_hex found) "device public key" with
               | Ok key => is_ok (verify_with_domain key (lit "account_login") message signature)
               | Err _ => false
               end)
  end.
Definition post_login (challenge_id signature_hex : str) : Handler Reply :=
  decode_signature signature_hex (Refuse 400 "INVALID_SIGNATURE") (fun signature =>
  finally (transaction c "login" (
    do row <- query c "challenge" (fun d =>
      match challenge_row d challenge_id (lit "login") None with
      | Some ch => match ad_accounts d !! ch_account ch with Some a => Some (ch, a) | None => None end
      | None => None
      end) ;;
    do (ch, account) <- some_or (Refuse 401 "CHALLENGE_INVALID") row ;;
    refuse_if ((ch_expires_at ch <=? a_now c "check") || bool_decide (is_Some (ch_used_at ch))) (Refuse 401 "CHALLENGE_EXPIRED") ;;;
    do account_key <- or_invalid (key_of (ac_public_key_hex account) "account public key") ;;
    let message := challenge_signing_bytes (ch_account ch) (ch_device ch) None challenge_id (ch_nonce_hex ch) in
    let root_proof := is_ok (verify_with_domain account_key (lit "account_login") message signature) in
    do device_proof <- device_proof (ch_account ch) (ch_device ch) message signature ;;
    refuse_if (negb (root_proof || device_proof)) (Refuse 401 "LOGIN_PROOF_INVALID") ;;;
    let now := a_now c "login" in
    let token := random_hex c "token" in
    let session := session_row (ch_account ch) (ch_device ch) None (lit "device") now (now + SESSION_TTL_SECONDS) in
    execute c "insert session" (insert_session (hash_token token) session) ;;;
    audit_event c (ch_account ch) "session_created" [("device_id_hex", match ch_device ch with Some d => DText d | None => DNull end)] ;;;
    execute c "use challenge" (fun d => Some (set_challenges (alter (use_challenge now) challenge_id) d)) ;;;
    do required <- policy_required (under "mfa" c) (ch_account ch) ;;
    tret (Ok (RSession token (new_session_view session required)))))).

Definition get_session (headers : HeaderMap) : Handler Reply :=
  finally (do session <- authenticated_session_with_db c headers ;; tret (Ok (RView session))).

Definition post_session_revoke (headers : HeaderMap) : Handler Reply :=
  lock session <- authenticated_session_with_db c headers ;;
  match session_token headers with
  | None => Answer (Err (Refuse 401 "SESSION_REQUIRED"))
  | Some token =>
      finally (
        execute c "revoke" (fun d => Some (set_sessions (alter (end_session (a_now c "revoke")) (hash_token token)) d)) ;;;
        audit_event c (account_id session) "session_revoked" [] ;;;
        tret (Ok RDone))
  end.

Definition insert_handoff (hash : str) (h : Handoff) (d : ADb) : option ADb :=
  if known (ho_account h) d && bool_decide (ad_handoffs d !! hash = None) then Some (set_handoffs (<[hash := h]>) d) else None.
Definition post_session_handoff (headers : HeaderMap) : Handler Reply :=
  lock session <- authenticated_session_with_db c headers ;;
  let now := a_now c "handoff" in
  let code := random_hex c "handoff_code" in
  let expires := now + SESSION_HANDOFF_TTL_SECONDS in
  finally (
    execute c "insert handoff" (insert_handoff (hash_token code)
      {| ho_origin := Some (hash_token (default [] (session_token headers))); ho_account := account_id session;
         ho_device := device_id_hex session; ho_method := auth_method session; ho_created_at := now; ho_expires_at := expires;
         ho_used_at := None |}) ;;;
    audit_event c (account_id session) "session_handoff_issued" [("expires_at_utc", DNumber expires)] ;;;
    tret (Ok (RHandoff code expires))).

(** The join of the handoff with its session, which must still stand. *)
Definition handoff_row (d : ADb) (hash : str) (now : Z) : option (Handoff * Session) :=
  match ad_handoffs d !! hash with
  | Some h =>
      match ho_origin h ≫= fun origin => ad_sessions d !! origin with
      | Some s => if standing d s now then Some (h, s) else None
      | None => None
      end
  | None => None
  end.
Definition consume_handoff (hash : str) (now : Z) (d : ADb) : bool * ADb :=
  match ad_handoffs d !! hash with
  | Some h => if bool_decide (ho_used_at h = None /\ ho_expires_at h > now)
              then (true, set_handoffs (<[hash := use_handoff now h]>) d) else (false, d)
  | None => (false, d)
  end.
Definition post_session_handoff_consume (handoff_code : str) : Handler Reply :=
  let code := trim handoff_code in
  refuse negb (str_len code =? 64) || negb (is_ok (hex_decode code)) with Refuse 400 "INVALID_HANDOFF_CODE" ;;
  finally (
    let now := a_now c "consume" in
    do row <- query c "handoff" (fun d => handoff_row d (hash_token code) now) ;;
    do (h, origin) <- some_or (Refuse 401 "HANDOFF_INVALID") row ;;
    refuse_if ((ho_expires_at h <=? now) || bool_decide (is_Some (ho_used_at h))) (Refuse 401 "HANDOFF_EXPIRED") ;;;
    do consumed <- update c "consume" (consume_handoff (hash_token code) now) ;;
    refuse_if (negb consumed) (Refuse 401 "HANDOFF_REPLAY") ;;;
    let token := random_hex c "token" in
    let session := session_row (ho_account h) (ho_device h) (s_credential origin) (ho_method h) (s_issued origin) (s_expires origin) in
    execute c "insert session" (insert_session (hash_token token) session) ;;;
    audit_event c (ho_account h) "session_handoff_consumed" [] ;;;
    do required <- policy_required (under "mfa" c) (ho_account h) ;;
    tret (Ok (RSession token (new_session_view session required)))).

(** ** devices.rs *)

Definition post_device_challenge (headers : HeaderMap) (account device public_key_hex : str) : Handler Reply :=
  check account <- normalize_account_id account ;;
  check _ <- (let? _ := decode_32 device "device_id_hex" in decode_32 public_key_hex "public_key_hex") ;;
  finally (
    prune_expired c (a_now c "prune") ;;;
    do exists_ <- account_exists c account ;;
    refuse_if (negb exists_) (Refuse 404 "ACCOUNT_NOT_FOUND") ;;;
    issue_challenge headers (lit "device_enrollment") account (Some (lower device)) (Some (lower public_key_hex)) "account_signed_device_enrollment_v1").

(** Whether a signature of the account key suffices, or a recovery session with a
    signature of the new device's own key. *)
Definition enrollment_by_account (headers : HeaderMap) (account : str) : ATx bool :=
  do required <- policy_required (under "mfa" c) account ;;
  if negb required then tret (Ok false) else
  do session <- or_refuse (Refuse 403 "MFA_STEP_UP_REQUIRED") (
    do session <- authenticated_session_with_db (under "account" c) headers ;;
    refuse_if (negb (bool_decide (account_id session = account))) DB_ERROR ;;; tret (Ok session)) ;;
  strong_or_refuse (require_recent_strong_session session (a_now c "step up")) ;;;
  tret (Ok false).
Definition enrollment_by_recovery (headers : HeaderMap) (account public_key_hex : str) (message signature : bytes) : ATx bool :=
  do session <- tcatch (do s <- authenticated_session_with_db (under "recovery" c) headers ;; tret (Ok (Some s))) (fun _ => tret (Ok None)) ;;
  refuse_if (negb match session with
                  | Some s => bool_decide (account_id s = account) && bool_decide (auth_method s = lit "recovery")
                  | None => false
                  end) (Refuse 401 "PROOF_INVALID") ;;;
  do device_key <- or_invalid (key_of public_key_hex "device public key") ;;
  refuse_if (negb (is_ok (verify_with_domain device_key (lit "account_device_enrollment") message signature))) (Refuse 401 "PROOF_INVALID") ;;;
  tret (Ok true).
Definition enrolled (public_key_hex label : str) (now : Z) (old : option Device) : Device :=
  {| dv_public_key_hex := public_key_hex; dv_label := label; dv_enrolled_at := match old with Some v => dv_enrolled_at v | None => now end;
     dv_last_seen_at := Some now; dv_revoked_at := None |}.
Definition on_device (account device : str) (_ : str) (s : Session) : bool :=
  bool_decide (s_account s = account /\ s_device s = Some device).
Definition post_device_enrollment (headers : HeaderMap) (account device public_key_hex label challenge_id proof_signature_hex : str) : Handler Reply :=
  check account <- normalize_account_id account ;;
  check _ <- (let? _ := decode_32 device "device_id_hex" in decode_32 public_key_hex "public_key_hex") ;;
  decode_signature proof_signature_hex (Refuse 400 "INVALID_SIGNATURE") (fun signature =>
  finally (
    do found <- query c "account key" (fun d => account_of d account) ;;
    do found <- some_or (Refuse 404 "ACCOUNT_NOT_FOUND") found ;;
    do row <- query c "challenge" (fun d => challenge_row d challenge_id (lit "device_enrollment") (Some account)) ;;
    do ch <- some_or (Refuse 401 "CHALLENGE_INVALID") row ;;
    do bound_device <- some_or DB_ERROR (ch_device ch) ;;
    do bound_key <- some_or DB_ERROR (ch_public_key ch) ;;
    refuse_if ((ch_expires_at ch <=? a_now c "check") || bool_decide (is_Some (ch_used_at ch))) (Refuse 401 "CHALLENGE_EXPIRED") ;;;
    refuse_if (negb (eq_ignore_ascii_case bound_device device) || negb (eq_ignore_ascii_case bound_key public_key_hex))
      (Refuse 401 "CHALLENGE_BINDING_MISMATCH") ;;;
    do account_key <- or_invalid (key_of (ac_public_key_hex found) "account public key") ;;
    let message := challenge_signing_bytes account (Some (lower device)) (Some (lower public_key_hex)) challenge_id (ch_nonce_hex ch) in
    do via_recovery <-
      (if is_ok (verify_with_domain account_key (lit "account_device_enrollment") message signature)
       then enrollment_by_account headers account
       else enrollment_by_recovery headers account public_key_hex message signature) ;;
    let now := a_now c "enroll" in
    do previous <- query c "previous key" (fun d => ad_devices d !! (account, lower device)) ;;
    (if match previous with Some v => negb (eq_ignore_ascii_case (dv_public_key_hex v) public_key_hex) | None => false end
     then execute c "revoke old sessions" (fun d => Some (set_sessions (end_sessions (on_device account (lower device)) now) d))
     else tret (Ok tt)) ;;;
    execute c "insert device" (fun d =>
      if known account d
      then Some (set_devices (fun m => <[(account, lower device) := enrolled (lower public_key_hex) (label_text label) now (m !! (account, lower device))]> m) d)
      else None) ;;;
    audit_event c account "device_enrolled" [("device_id_hex", DText (lower device)); ("label", DText label);
      ("enrollment", DText (lit (if via_recovery : bool then "recovery_session" else "account_signed")))] ;;;
    execute c "use challenge" (fun d => Some (set_challenges (alter (use_challenge now) challenge_id) d)) ;;;
    do result <- query c "device view" (fun d => ad_devices d !! (account, lower device)) ;;
    do result <- some_or DB_ERROR result ;;
    tret (Ok (RDevice (lower device) result)))).

(** recovery.rs: the operators are told about a revoked device; [post] is the status of an
    operator's answer, if there is one. *)
Definition propagate_device_revocation (endpoints : list str) (service_token : str) (post : str -> str -> option Z) (vault_ids : list str) : Z * Z * Z :=
  let targets := blen endpoints * blen vault_ids in
  if (targets =? 0) || bool_decide (service_token = []) then (targets, 0, targets) else
  let accepted '(endpoint, vault) := match post endpoint vault with Some s => ((200 <=? s) && (s <? 300)) || (s =? 404) | None => false end in
  let pairs := endpoints ≫= fun e => (fun v => (e, v)) <$> vault_ids in
  (targets, blen (filter (fun p => accepted p = true) pairs), blen (filter (fun p => accepted p = false) pairs)).
Definition revoke_device (now : Z) (v : Device) : Device :=
  {| dv_public_key_hex := dv_public_key_hex v; dv_label := dv_label v; dv_enrolled_at := dv_enrolled_at v;
     dv_last_seen_at := dv_last_seen_at v; dv_revoked_at := Some now |}.
Definition vaults_of (d : ADb) (account : str) : list str :=
  (filter (fun kv => kv.1.1 = account) (map_to_list (ad_vaults d))).*1.*2.
Definition post_device_revoke (endpoints : list str) (service_token : str) (post : str -> str -> option Z)
  (headers : HeaderMap) (account device : str) : Handler Reply :=
  check account <- normalize_account_id account ;;
  check _ <- decode_32 device "device_id_hex" ;;
  let device := lower device in
  lock vault_ids <- (
    require_recent_account_session_with_db c headers account ;;;
    do found <- query c "device" (fun d => active_device d account device) ;;
    some_or (Refuse 404 "DEVICE_NOT_FOUND") found ;;;
    let now := a_now c "revoke" in
    execute c "revoke device" (fun d => Some (set_devices (alter (revoke_device now) (account, device)) d)) ;;;
    execute c "revoke sessions" (fun d => Some (set_sessions (end_sessions (on_device account device) now) d)) ;;;
    audit_event c account "device_revoked" [("device_id_hex", DText device)] ;;;
    query c "vaults" (fun d => vaults_of d account)) ;;
  let '(targets, successes, failures) := propagate_device_revocation endpoints service_token post vault_ids in
  Answer (Ok (RRevocation targets successes failures)).

(** ** vaults.rs *)

Definition linked (alias role : str) (now : Z) (locator : option str) (old : option VaultLink) : VaultLink :=
  {| vl_alias := alias; vl_role := role; vl_linked_at := match old with Some v => vl_linked_at v | None => now end;
     vl_locator := match locator with Some l => Some l | None => old ≫= vl_locator end;
     vl_locator_at := match locator with Some _ => Some now | None => old ≫= vl_locator_at end |}.
Definition post_vault_link (headers : HeaderMap) (account vault alias role : str) (locator : option str) : Handler Reply :=
  check account <- normalize_account_id account ;;
  check _ <- decode_32 vault "vault_id_hex" ;;
  finally (
    require_recent_account_role_with_db c headers account (lit "owner") ;;;
    do role <- or_invalid (normalize_vault_role role) ;;
    let alias := label_text alias in
    refuse_if (bool_decide (alias = [])) (Refuse 400 "INVALID_VAULT_LINK") ;;;
    refuse_if match locator with Some raw => negb (is_ok (decode_32 raw "key_backup_locator_hex")) | None => false end (Refuse 400 "INVALID_VAULT_LINK") ;;;
    let locator := lower <$> locator in
    let now := a_now c "link" in
    execute c "insert link" (fun d =>
      if known account d
      then Some (set_vaults (fun m => <[(account, lower vault) := linked alias role now locator (m !! (account, lower vault))]> m) d)
      else None) ;;;
    audit_event c account "vault_linked" [("vault_id_hex", DText (lower vault)); ("alias", DText alias); ("role", DText role);
      ("key_backup_locator_hex", match locator with Some l => DText l | None => DNull end)] ;;;
    tret (Ok RDone)).

(** ** recovery.rs *)

Definition clamp (z low high : Z) : Z := Z.max low (Z.min z high).
Definition recovery_code (i : nat) : str := lit "cvrc_" ++ random_hex c ("code " +:+ pretty i).
Definition issue_code (account : str) (now : Z) (i : nat) : ATx unit :=
  execute c ("code " +:+ pretty i) (fun d =>
    if known account d && bool_decide (ad_codes d !! hash_token (recovery_code i) = None)
    then Some (set_codes (<[hash_token (recovery_code i) := {| rc_account := account; rc_created_at := now; rc_used_at := None |}]>) d) else None).
Definition post_recovery_codes (headers : HeaderMap) (account : str) (count : Z) : Handler Reply :=
  check account <- normalize_account_id account ;;
  let count := clamp count 4 16 in
  finally (
    do (session, _) <- require_recent_account_role_with_db c headers account (lit "owner") ;;
    refuse_if (bool_decide (device_id_hex session = None)) (Refuse 403 "DEVICE_STEP_UP_REQUIRED") ;;;
    execute c "delete codes" (fun d => Some (set_codes (filter (fun kv => ~ (rc_account kv.2 = account /\ rc_used_at kv.2 = None))) d)) ;;;
    let now := a_now c "codes" in
    tx_for_each (issue_code account now) (seq 0 (Z.to_nat count)) ;;;
    audit_event c account "recovery_codes_issued" [("count", DNumber count)] ;;;
    tret (Ok (RCodes (recovery_code <$> seq 0 (Z.to_nat count))))).

Definition unused_code (d : ADb) (account hash : str) : bool :=
  match ad_codes d !! hash with Some r => bool_decide (rc_account r = account /\ rc_used_at r = None) | None => false end.
Definition spend_code (account hash : str) (now : Z) (d : ADb) : bool * ADb :=
  if unused_code d account hash then (true, set_codes (alter (use_code now) hash) d) else (false, d).
Definition post_recovery_redeem (headers : HeaderMap) (account code : str) : Handler Reply :=
  check account <- normalize_account_id account ;;
  let rate_key := auth_rate_key cf headers account (lit "recovery") in
  lock _ <- auth_rate_allowed_with_db c rate_key ;;
  let code := trim code in
  refuse str_len code <? 16 with Refuse 400 "INVALID_RECOVERY_CODE" ;;
  let now := a_now c "redeem" in
  let token := random_hex c "token" in
  let expires := now + RECOVERY_SESSION_TTL_SECONDS in
  let session := session_row account None None (lit "recovery") now expires in
  lock required <- (
    do valid <- or_false (query c "code" (fun d => unused_code d account (hash_token code))) ;;
    (if valid : bool then tret (Ok tt) else auth_rate_failure_with_db (under "failure" c) rate_key ;;; tret (Err (Refuse 401 "RECOVERY_CODE_INVALID"))) ;;;
    update c "use code" (spend_code account (hash_token code) now) ;;;
    execute c "insert session" (insert_session (hash_token token) session) ;;;
    audit_event c account "recovery_code_redeemed" [("source", DText (request_source cf headers)); ("expires_at_utc", DNumber expires);
      ("session_ttl_secs", DNumber RECOVERY_SESSION_TTL_SECONDS)] ;;;
    policy_required (under "mfa" c) account) ;;
  lock _ <- auth_rate_success_with_db c rate_key ;;
  Answer (Ok (RSession token (new_session_view session required))).
End Accounts.
