(* ===== verification/AccountFactors.v ===== *)
(** * Authenticators and second factors

    src/services/account/src: the handlers of totp.rs (enrolling, confirming and revoking an
    authenticator, logging in with a code) and mfa.rs (the policy of an account, proving the
    second factor for a session, and the reset with a recovery code). *)

From S2P Require Import Prelude Errors Tables Primitives Crypto Policy AccountDb Totp Accounts.

#[local] Open Scope tx_scope.
#[local] Open Scope handler_scope.

(** ** Rows *)

Definition active_totp (d : ADb) (account : str) : option TotpCredential :=
  match ad_totp d !! account with
  | Some t => if bool_decide (tc_enabled t = true /\ tc_revoked_at t = None) then Some t else None
  | None => None
  end.
Definition pending_totp (ciphertext : str) (now : Z) : TotpCredential :=
  {| tc_ciphertext := ciphertext; tc_enabled := false; tc_created_at := now; tc_last_used_step := None; tc_last_used_at := None;
     tc_revoked_at := None |}.
Definition stepped (t : TotpCredential) (step now : Z) : TotpCredential :=
  {| tc_ciphertext := tc_ciphertext t; tc_enabled := true; tc_created_at := tc_created_at t; tc_last_used_step := Some step;
     tc_last_used_at := Some now; tc_revoked_at := tc_revoked_at t |}.
Definition revoked_totp (now : Z) (t : TotpCredential) : TotpCredential :=
  {| tc_ciphertext := tc_ciphertext t; tc_enabled := false; tc_created_at := tc_created_at t; tc_last_used_step := tc_last_used_step t;
     tc_last_used_at := tc_last_used_at t; tc_revoked_at := Some now |}.
(** [UPDATE totp_credentials SET enabled = 1 ... WHERE enabled = 0 AND revoked_at_utc IS NULL]. *)
Definition confirm_totp (account : str) (step now : Z) (d : ADb) : bool * ADb :=
  match ad_totp d !! account with
  | Some t => if bool_decide (tc_enabled t = false /\ tc_revoked_at t = None)
              then (true, set_totp (<[account := stepped t step now]>) d) else (false, d)
  | None => (false, d)
  end.
(** [UPDATE ... SET last_used_step ... WHERE enabled AND (last_used_step IS NULL OR last_used_step < step)]. *)
Definition advance_step (account : str) (step now : Z) (d : ADb) : bool * ADb :=
  match active_totp d account with
  | Some t => if negb (spent_step (tc_last_used_step t) step)
              then (true, set_totp (<[account := stepped t step now]>) d) else (false, d)
  | None => (false, d)
  end.
(** [UPDATE ... SET enabled = 0, revoked_at_utc WHERE revoked_at_utc IS NULL]. *)
Definition revoke_totp (account : str) (now : Z) (d : ADb) : bool * ADb :=
  match ad_totp d !! account with
  | Some t => if bool_decide (tc_revoked_at t = None) then (true, set_totp (<[account := revoked_totp now t]>) d) else (false, d)
  | None => (false, d)
  end.
(** [UPDATE session_handoffs SET used_at_utc WHERE account_id AND used_at_utc IS NULL]. *)
Definition use_handoffs (account : str) (now : Z) (m : gmap str Handoff) : gmap str Handoff :=
  (fun h => if bool_decide (ho_account h = account /\ ho_used_at h = None) then use_handoff now h else h) <$> m.
Definition of_account (account : str) (_ : str) (s : Session) : bool := bool_decide (s_account s = account).
Definition other_sessions (account current hash : str) (s : Session) : bool :=
  bool_decide (s_account s = account) && negb (bool_decide (hash = current)).

Section Factors.
Context {HX : Hex} {SH : Sha256} {ED : Ed25519} {CJ : ChallengeJson} {HS : HmacSha1} {B64 : Base64Url} {AG : Aes256Gcm}.
Variables (cf : Config) (c : ACall).

Definition failed_attempt {A} (rate_key : str) (r : Refusal) : ATx A :=
  auth_rate_failure_with_db (under "failure" c) rate_key ;;; tret (Err r).
Definition TOTP_NOT_CONFIGURED : Refusal := Refuse 503 "TOTP_NOT_CONFIGURED".

(** ** totp.rs *)

Definition otpauth_uri (account secret_base32 : str) : str :=
  lit "otpauth://totp/CipherVault:" ++ account ++ lit "?secret=" ++ secret_base32 ++
  lit "&issuer=CipherVault&algorithm=SHA1&digits=" ++ show_Z DIGITS ++ lit "&period=" ++ show_Z STEP_SECONDS.
Definition post_totp_enrollment (headers : HeaderMap) (account : str) : Handler Reply :=
  check account <- normalize_account_id account ;;
  lock _ <- require_recent_account_session_with_db (under "first" c) headers account ;;
  refuse negb (is_ok (totp_wrapping_key cf)) with TOTP_NOT_CONFIGURED ;;
  let secret := a_draw c "secret" in
  check ciphertext <- encrypt_totp_secret cf (a_draw c "totp nonce") secret ;;
  let now := a_now c "enroll" in
  finally (
    require_recent_account_session_with_db c headers account ;;;
    do active <- or_false (query c "active" (fun d => bool_decide (is_Some (active_totp d account)))) ;;
    refuse_if active (Refuse 409 "TOTP_ALREADY_ENABLED") ;;;
    execute c "insert totp" (fun d =>
      if known account d then Some (set_totp (<[account := pending_totp ciphertext now]>) d) else None) ;;;
    audit_event c account "totp_enrollment_started"
      [("algorithm", DText (lit "SHA1")); ("digits", DNumber DIGITS); ("period_seconds", DNumber STEP_SECONDS)] ;;;
    tret (Ok (REnrollment (base32_encode secret) (otpauth_uri account (base32_encode secret))))).

Definition post_totp_enrollment_verify (headers : HeaderMap) (account code : str) : Handler Reply :=
  check account <- normalize_account_id account ;;
  let rate_key := auth_rate_key cf headers account (lit "totp-enrollment") in
  lock _ <- auth_rate_allowed_with_db (under "first" c) rate_key ;;
  lock _ <- require_recent_account_session_with_db (under "first" c) headers account ;;
  refuse negb (is_ok (totp_wrapping_key cf)) with TOTP_NOT_CONFIGURED ;;
  lock _ <- (
    require_recent_account_session_with_db c headers account ;;;
    auth_rate_allowed_with_db c rate_key ;;;
    do row <- query c "totp" (fun d => ad_totp d !! account) ;;
    do t <- some_or (Refuse 404 "TOTP_NOT_ENROLLED") row ;;
    refuse_if (tc_enabled t || bool_decide (is_Some (tc_revoked_at t))) (Refuse 409 "TOTP_ENROLLMENT_INVALID") ;;;
    do secret <- or_invalid (decrypt_totp_secret cf (tc_ciphertext t)) ;;
    match verify_code secret code (a_now c "verify") (tc_last_used_step t) with
    | Err _ => failed_attempt rate_key (Refuse 401 "TOTP_CODE_INVALID")
    | Ok step =>
        do changed <- update c "confirm" (confirm_totp account step (a_now c "confirm")) ;;
        refuse_if (negb changed) (Refuse 409 "TOTP_ENROLLMENT_INVALID") ;;;
        audit_event c account "totp_enabled" []
    end) ;;
  lock _ <- auth_rate_success_with_db c rate_key ;;
  Answer (Ok RDone).

Definition post_totp_revoke (headers : HeaderMap) (account : str) : Handler Reply :=
  check account <- normalize_account_id account ;;
  lock _ <- require_recent_account_session_with_db (under "first" c) headers account ;;
  finally (
    require_recent_account_session_with_db c headers account ;;;
    do required <- policy_required (under "mfa" c) account ;;
    refuse_if required (Refuse 409 "MFA_POLICY_REQUIRES_FACTOR") ;;;
    do changed <- update c "revoke" (revoke_totp account (a_now c "revoke")) ;;
    refuse_if (negb changed) (Refuse 404 "TOTP_NOT_ENROLLED") ;;;
    audit_event c account "totp_revoked" [] ;;;
    tret (Ok RDone)).

Definition post_totp_authentication_options (headers : HeaderMap) (account : str) : Handler Reply :=
  check account <- normalize_account_id account ;;
  let rate_key := auth_rate_key cf headers account (lit "totp-login") in
  lock _ <- auth_rate_allowed_with_db c rate_key ;;
  refuse negb (is_ok (totp_wrapping_key cf)) with TOTP_NOT_CONFIGURED ;;
  finally (
    do enabled <- or_false (query c "enabled" (fun d => bool_decide (is_Some (active_totp d account)))) ;;
    refuse_if (negb enabled) (Refuse 404 "TOTP_NOT_ENROLLED") ;;;
    issue_challenge cf c headers (lit "totp_login") account None None "totp.get").

(** What happens while the code is checked and the session is stored. *)
Definition totp_login (rate_key account challenge_id code token : str) (now : Z) (session : Session) : ATx unit :=
  do row <- query c "challenge" (fun d => challenge_row d challenge_id (lit "totp_login") (Some account)) ;;
  match row with
  | None => failed_attempt rate_key (Refuse 401 "CHALLENGE_INVALID")
  | Some ch =>
      if (ch_expires_at ch <=? now) || bool_decide (is_Some (ch_used_at ch)) then failed_attempt rate_key (Refuse 401 "CHALLENGE_EXPIRED") else
      do row <- query c "totp" (fun d => active_totp d account) ;;
      match row with
      | None => failed_attempt rate_key (Refuse 404 "TOTP_NOT_ENROLLED")
      | Some t =>
          do secret <- or_invalid (decrypt_totp_secret cf (tc_ciphertext t)) ;;
          match verify_code secret code now (tc_last_used_step t) with
          | Err _ => failed_attempt rate_key (Refuse 401 "TOTP_CODE_INVALID")
          | Ok step =>
              do changed <- update c "advance" (advance_step account step now) ;;
              (if changed : bool then tret (Ok tt) else failed_attempt rate_key (Refuse 401 "TOTP_REPLAY")) ;;;
              do consumed <- update c "use challenge" (consume_challenge challenge_id now) ;;
              (if consumed : bool then tret (Ok tt) else failed_attempt rate_key (Refuse 401 "CHALLENGE_REPLAY")) ;;;
              execute c "insert session" (insert_session (hash_token token) session) ;;;
              audit_event c account "totp_login" []
          end
      end
  end.
Definition post_totp_authentication_verify (headers : HeaderMap) (account challenge_id code : str) : Handler Reply :=
  check account <- normalize_account_id account ;;
  let rate_key := auth_rate_key cf headers account (lit "totp-login") in
  lock _ <- auth_rate_allowed_with_db c rate_key ;;
  refuse negb (is_ok (totp_wrapping_key cf)) with TOTP_NOT_CONFIGURED ;;
  let now := a_now c "login" in
  let token := random_hex c "token" in
  let session := session_row account None None (lit "totp") now (now + SESSION_TTL_SECONDS) in
  lock _ <- totp_login rate_key account challenge_id code token now session ;;
  lock _ <- auth_rate_success_with_db c rate_key ;;
  finally (
    do required <- policy_required (under "mfa" c) account ;;
    tret (Ok (RSession token (new_session_view session required)))).

(** ** mfa.rs *)

Definition record_proof (hash : str) (p : MfaProof) (d : ADb) : option ADb :=
  if bool_decide (is_Some (ad_sessions d !! hash)) && bool_decide (map_Forall (fun h q => h <> hash -> p_id q <> p_id p) (ad_mfa d))
  then Some (set_mfa (<[hash := p]>) d) else None.
(** The value is the answer that is committed; an error rolls everything back. *)
Definition step_up (headers : HeaderMap) (rate_key code : str) : ATx (result Refusal Reply) :=
  auth_rate_allowed_with_db c rate_key ;;;
  let now := a_now c "step up" in
  do session <- authenticated_session_with_db c headers ;;
  strong_or_refuse (require_recent_primary_session session now) ;;;
  do row <- query c "totp" (fun d => active_totp d (account_id session)) ;;
  do t <- some_or (Refuse 403 "MFA_ENROLLMENT_REQUIRED") row ;;
  do secret <- or_invalid (decrypt_totp_secret cf (tc_ciphertext t)) ;;
  match verify_code secret code now (tc_last_used_step t) with
  | Err _ => auth_rate_failure_with_db (under "failure" c) rate_key ;;; tret (Ok (Err (Refuse 401 "MFA_CODE_INVALID")))
  | Ok step =>
      do changed <- update c "advance" (advance_step (account_id session) step now) ;;
      refuse_if (negb changed) (Refuse 401 "MFA_CODE_INVALID") ;;;
      let hash := hash_token (default [] (session_token headers)) in
      execute c "insert proof" (record_proof hash
        {| p_id := random_hex c "proof"; p_verified := now; p_fingerprint := hash_token (tc_ciphertext t) |}) ;;;
      audit_event c (account_id session) "mfa_step_up_verified"
        [("method", DText (lit "totp")); ("expires_at_utc", DNumber (now + STEP_UP_MAX_AGE_SECONDS))] ;;;
      auth_rate_success_with_db c rate_key ;;;
      do session <- apply_session_status (under "result" c) hash session now ;;
      tret (Ok (Ok (RStepUp session (now + STEP_UP_MAX_AGE_SECONDS))))
  end.
Definition post_step_up (headers : HeaderMap) (code : str) : Handler Reply :=
  lock session <- authenticated_session_with_db (under "first" c) headers ;;
  let rate_key := auth_rate_key cf headers (account_id session) (lit "mfa-totp") in
  lock reply <- transaction c "step up" (step_up headers rate_key code) ;;
  Answer reply.

Definition own_session (headers : HeaderMap) (account : str) : ATx SessionView :=
  do session <- authenticated_session_with_db c headers ;;
  refuse_if (negb (bool_decide (account_id session = account))) (Refuse 403 "ACCOUNT_SCOPE_MISMATCH") ;;;
  tret (Ok session).
Definition get_policy (headers : HeaderMap) (account : str) : Handler Reply :=
  check account <- normalize_account_id account ;;
  finally (do session <- own_session headers account ;; tret (Ok (RPolicy (mfa_required session) (mfa_verified_at_utc session)))).

Definition recoverable (d : ADb) (account : str) : bool :=
  bool_decide (map_Exists (fun _ r => rc_account r = account /\ rc_used_at r = None) (ad_codes d)).
Definition change_policy (headers : HeaderMap) (account : str) (required : bool) : ATx Reply :=
  let now := a_now c "policy" in
  do session <- own_session headers account ;;
  strong_or_refuse (require_recent_primary_session session now) ;;;
  refuse_if (bool_decide (sv_mfa_proof_id session = None)) (Refuse 403 "MFA_STEP_UP_REQUIRED") ;;;
  (if required then
     do recoverable <- query c "recovery codes" (fun d => recoverable d account) ;;
     refuse_if (negb recoverable) (Refuse 409 "MFA_RECOVERY_CODES_REQUIRED")
   else tret (Ok tt)) ;;;
  execute c "insert policy" (fun d => if known account d then Some (set_policy (<[account := (required, now)]>) d) else None) ;;;
  execute c "revoke sessions" (fun d =>
    Some (set_sessions (end_sessions (other_sessions account (hash_token (default [] (session_token headers)))) now) d)) ;;;
  execute c "use handoffs" (fun d => Some (set_handoffs (use_handoffs account now) d)) ;;;
  audit_event c account "mfa_policy_changed" [("required", DFlag required); ("other_sessions_revoked", DFlag true)] ;;;
  tret (Ok (RPolicy required None)).
Definition patch_policy (headers : HeaderMap) (account : str) (required : bool) : Handler Reply :=
  check account <- normalize_account_id account ;;
  finally (transaction c "policy" (change_policy headers account required)).

Definition recovery_reset (headers : HeaderMap) (rate_key account code : str) : ATx (result Refusal Reply) :=
  let now := a_now c "reset" in
  do session <- own_session headers account ;;
  strong_or_refuse (require_recent_primary_session session now) ;;;
  auth_rate_allowed_with_db c rate_key ;;;
  do changed <- update c "use code" (spend_code account (hash_token (trim code)) now) ;;
  if negb changed then
    auth_rate_failure_with_db (under "failure" c) rate_key ;;; tret (Ok (Err (Refuse 401 "RECOVERY_CODE_INVALID")))
  else
    execute c "policy" (fun d => Some (set_policy (alter (fun _ => (false, now)) account) d)) ;;;
    execute c "totp" (fun d => Some (set_totp (alter (revoked_totp now) account) d)) ;;;
    execute c "sessions" (fun d => Some (set_sessions (end_sessions (of_account account) now) d)) ;;;
    execute c "handoffs" (fun d => Some (set_handoffs (use_handoffs account now) d)) ;;;
    audit_event c account "mfa_recovery_reset" [("all_sessions_revoked", DFlag true); ("factor_revoked", DFlag true)] ;;;
    auth_rate_success_with_db c rate_key ;;;
    tret (Ok (Ok RDone)).
Definition post_recovery_reset (headers : HeaderMap) (account code : str) : Handler Reply :=
  check account <- normalize_account_id account ;;
  let rate_key := auth_rate_key cf headers account (lit "mfa-recovery") in
  refuse (str_len code >? 128) || negb (starts_with (lit "cvrc_") (trim code)) with Refuse 400 "INVALID_RECOVERY_CODE" ;;
  lock reply <- transaction c "reset" (recovery_reset headers rate_key account code) ;;
  Answer reply.
End Factors.
