(* ===== verification/Memberships.v ===== *)
(** * Invitations and memberships of an account

    src/services/account/src/memberships.rs: inviting another account, accepting an
    invitation, and revoking a membership, with the guards of guards.rs. *)

From S2P Require Import Prelude Errors Sorting Tables Primitives Crypto Policy AccountDb Accounts.

#[local] Open Scope tx_scope.
#[local] Open Scope handler_scope.

Definition accept_row (now : Z) (i : Invitation) : Invitation :=
  {| in_account := in_account i; in_invitee := in_invitee i; in_role := in_role i; in_token_hash := in_token_hash i;
     in_created_at := in_created_at i; in_expires_at := in_expires_at i; in_accepted_at := Some now; in_revoked_at := in_revoked_at i |}.
Definition revoke_row (now : Z) (m : Membership) : Membership :=
  {| ms_role := ms_role m; ms_status := lit "revoked"; ms_invited_at := ms_invited_at m; ms_accepted_at := ms_accepted_at m;
     ms_revoked_at := Some now |}.
(** [INSERT ... SELECT ... ON CONFLICT DO UPDATE]: the old invitation time is kept. *)
Definition joined (i : Invitation) (now : Z) (old : option Membership) : Membership :=
  {| ms_role := in_role i; ms_status := lit "active"; ms_invited_at := match old with Some m => ms_invited_at m | None => in_created_at i end;
     ms_accepted_at := Some now; ms_revoked_at := None |}.
Definition latest (a b : str * Invitation) : bool := in_created_at b.2 <=? in_created_at a.2.
Definition earliest (a b : str * str * Membership) : bool := ms_invited_at a.2 <=? ms_invited_at b.2.

Section Memberships.
Context {HX : Hex} {SH : Sha256}.
Variable c : ACall.

Definition insert_invitation (id : str) (i : Invitation) (d : ADb) : option ADb :=
  if known (in_account i) d && known (in_invitee i) d && bool_decide (ad_invitations d !! id = None)
     && bool_decide (map_Forall (fun _ j => in_token_hash j <> in_token_hash i) (ad_invitations d))
  then Some (set_invitations (<[id := i]>) d) else None.
Definition grantable (actor_role role : str) : bool :=
  negb (bool_decide (role = lit "owner") || (bool_decide (role = lit "admin") && negb (bool_decide (actor_role = lit "owner")))).
Definition post_invitation (headers : HeaderMap) (account invitee role : str) (expires_in : option Z) : Handler Reply :=
  check account <- normalize_account_id account ;;
  finally (
    do (_, actor_role) <- require_recent_account_role_with_db c headers account (lit "admin") ;;
    do invitee <- or_invalid (normalize_account_id invitee) ;;
    refuse_if (bool_decide (invitee = account)) (Refuse 400 "INVALID_INVITEE") ;;;
    do role <- or_invalid (normalize_vault_role role) ;;
    refuse_if (negb (grantable actor_role role)) (Refuse 403 "ROLE_GRANT_NOT_ALLOWED") ;;;
    do exists_ <- or_false (query c "invitee" (known invitee)) ;;
    refuse_if (negb exists_) (Refuse 404 "INVITEE_NOT_FOUND") ;;;
    let now := a_now c "invite" in
    let expires := now + clamp (default (7 * 24 * 60 * 60) expires_in) (5 * 60) (30 * 24 * 60 * 60) in
    let id := lit "cvinv_" ++ random_hex c "invitation_id" in
    let token := lit "cvinv_" ++ random_hex c "token" in
    execute c "insert invitation" (insert_invitation id
      {| in_account := account; in_invitee := invitee; in_role := role; in_token_hash := hash_token token; in_created_at := now;
         in_expires_at := expires; in_accepted_at := None; in_revoked_at := None |}) ;;;
    audit_event c account "invitation_created" [("invitation_id", DText id); ("invitee_account_id", DText invitee); ("role", DText role);
      ("expires_at_utc", DNumber expires)] ;;;
    do row <- query c "invitation view" (fun d => ad_invitations d !! id) ;;
    do row <- some_or DB_ERROR row ;;
    tret (Ok (RInvitation id token row))).

Definition get_invitations (headers : HeaderMap) (account : str) : Handler Reply :=
  check account <- normalize_account_id account ;;
  finally (
    account_role_for_with_db c headers account (lit "admin") ;;;
    do rows <- query c "invitations" (fun d => sort latest (filter (fun kv => in_account kv.2 = account) (map_to_list (ad_invitations d)))) ;;
    tret (Ok (RInvitations rows))).

(** The row of a token that is addressed to the account of the session. *)
Definition addressed (d : ADb) (hash account : str) : option (str * Invitation) :=
  head (filter (fun kv => in_token_hash kv.2 = hash /\ in_invitee kv.2 = account) (map_to_list (ad_invitations d))).
Definition spend_invitation (id : str) (now : Z) (d : ADb) : bool * ADb :=
  match ad_invitations d !! id with
  | Some i => if bool_decide (in_accepted_at i = None /\ in_revoked_at i = None /\ in_expires_at i > now)
              then (true, set_invitations (<[id := accept_row now i]>) d) else (false, d)
  | None => (false, d)
  end.
Definition join (id : str) (now : Z) (d : ADb) : option ADb :=
  match ad_invitations d !! id with
  | Some i => Some (set_memberships (fun m => <[(in_account i, in_invitee i) := joined i now (m !! (in_account i, in_invitee i))]> m) d)
  | None => Some d
  end.
Definition post_invitation_accept (headers : HeaderMap) (token : str) : Handler Reply :=
  let token := trim token in
  refuse str_len token <? 16 with Refuse 400 "INVALID_INVITATION_TOKEN" ;;
  finally (
    do session <- authenticated_session_with_db c headers ;;
    do row <- query c "invitation" (fun d => addressed d (hash_token token) (account_id session)) ;;
    do (id, i) <- some_or (Refuse 404 "INVITATION_NOT_FOUND") row ;;
    refuse_if ((in_expires_at i <=? a_now c "check") || bool_decide (is_Some (in_accepted_at i)) || bool_decide (is_Some (in_revoked_at i)))
      (Refuse 409 "INVITATION_EXPIRED") ;;;
    do required <- policy_required (under "target" c) (in_account i) ;;
    strong_or_refuse (require_recent_strong_session (require_mfa required session) (a_now c "step up")) ;;;
    let now := a_now c "accept" in
    transaction c "accept" (
      do updated <- update c "spend invitation" (spend_invitation id now) ;;
      refuse_if (negb updated) (Refuse 409 "INVITATION_ALREADY_CONSUMED") ;;;
      execute c "insert membership" (join id now) ;;;
      audit_event c (account_id session) "invitation_accepted" [("invitation_id", DText id); ("account_id", DText (in_account i)); ("role", DText (in_role i))] ;;;
      tret (Ok (RMember (in_account i) (in_role i))))).

Definition get_memberships (headers : HeaderMap) (account : str) : Handler Reply :=
  check account <- normalize_account_id account ;;
  finally (
    account_role_for_with_db c headers account (lit "viewer") ;;;
    do rows <- query c "memberships" (fun d =>
      sort earliest (filter (fun kv => kv.1.1 = account \/ kv.1.2 = account) (map_to_list (ad_memberships d)))) ;;
    tret (Ok (RMemberships rows))).

Definition target_role (d : ADb) (account member : str) : option str :=
  match ad_memberships d !! (account, member) with
  | Some m => if bool_decide (ms_status m = lit "active" /\ ms_revoked_at m = None) then Some (ms_role m) else None
  | None => None
  end.
Definition end_membership (account member : str) (now : Z) (d : ADb) : bool * ADb :=
  match ad_memberships d !! (account, member) with
  | Some m => if bool_decide (ms_revoked_at m = None)
              then (true, set_memberships (<[(account, member) := revoke_row now m]>) d) else (false, d)
  | None => (false, d)
  end.
Definition post_membership_revoke (headers : HeaderMap) (account member : str) : Handler Reply :=
  check account <- normalize_account_id account ;;
  check member <- normalize_account_id member ;;
  finally (
    do (session, actor_role) <- require_recent_account_role_with_db c headers account (lit "admin") ;;
    refuse_if (bool_decide (account_id session = member)) (Refuse 403 "SELF_MEMBERSHIP_REVOKE") ;;;
    do target <- query c "target" (fun d => target_role d account member) ;;
    do target <- some_or (Refuse 404 "MEMBERSHIP_NOT_FOUND") target ;;
    refuse_if (negb (bool_decide (actor_role = lit "owner")) && (role_rank target >=? role_rank actor_role)) (Refuse 403 "ROLE_HIERARCHY") ;;;
    do changed <- update c "revoke membership" (end_membership account member (a_now c "revoke")) ;;
    refuse_if (negb changed) (Refuse 404 "MEMBERSHIP_NOT_FOUND") ;;;
    audit_event c account "membership_revoked" [("member_account_id", DText member)] ;;;
    tret (Ok RDone)).
End Memberships.
