(* ===== verification/WebAuthn.v ===== *)
(** * Passkeys

    src/services/account/src/webauthn.rs and webauthn_crypto.rs: registering a passkey from a
    device session, logging in with an assertion, and revoking a passkey.

    The reader of CBOR values, the reader of the client data (serde_json) and ECDSA on P-256
    (ring) are interfaces. *)

From S2P Require Import Prelude Errors Tables Primitives Crypto Policy AccountDb Accounts.

#[local] Open Scope tx_scope.
#[local] Open Scope handler_scope.

(** [ciborium::Value]; the kinds the code does not look into are one. *)
Inductive CborValue : Type :=
| CborInteger (z : Z) | CborBytes (b : bytes) | CborText (s : str) | CborMap (entries : list (CborValue * CborValue)) | CborOther.
Class CborReader : Type := { cbor_from_reader : bytes -> option CborValue }.
(** The text fields type, challenge and origin of a JSON value. *)
Class ClientDataJson : Type := { client_data_from_slice : bytes -> option (option str * option str * option str) }.
Class EcdsaP256 : Type := { p256_verify : bytes -> bytes -> bytes -> bool (* key, message, signature *) }.

Record ParsedAuthenticatorData : Type := {
  pa_sign_count : Z; pa_credential_id : option bytes; pa_algorithm : option Z; pa_public_key : option bytes;
}.

Definition as_integer (v : CborValue) : option Z := match v with CborInteger z => Some z | _ => None end.
Definition as_cbor_bytes (v : CborValue) : option bytes := match v with CborBytes b => Some b | _ => None end.
Definition as_text (v : CborValue) : option str := match v with CborText s => Some s | _ => None end.
Definition as_map (v : CborValue) : option (list (CborValue * CborValue)) := match v with CborMap m => Some m | _ => None end.
Definition cbor_map_value (map : list (CborValue * CborValue)) (key : Z) : option CborValue :=
  find_map (fun kv => if bool_decide (as_integer kv.1 = Some key) then Some kv.2 else None) map.
Definition cbor_text_value (map : list (CborValue * CborValue)) (key : str) : option str :=
  find_map (fun kv => if bool_decide (as_text kv.1 = Some key) then as_text kv.2 else None) map.
Definition cbor_bytes_value (map : list (CborValue * CborValue)) (key : Z) : option bytes := cbor_map_value map key ≫= as_cbor_bytes.
Definition cbor_bytes_text_value (map : list (CborValue * CborValue)) (key : str) : option bytes :=
  find_map (fun kv => if bool_decide (as_text kv.1 = Some key) then as_cbor_bytes kv.2 else None) map.

Section WebAuthn.
Context {HX : Hex} {SH : Sha256} {ED : Ed25519} {CJ : ChallengeJson} {B64 : Base64Url} {CB : CborReader} {JC : ClientDataJson} {EC : EcdsaP256}.
Variables (cf : Config) (c : ACall).

(** ** webauthn_crypto.rs *)

Definition webauthn_rp_id : str := default (lit "localhost") (cf_rp_id cf).
Definition webauthn_origin : str := default (lit "http://localhost:8300") (cf_origin cf).
Definition webauthn_user_id (account : str) : bytes := take 16 (sha256 (as_bytes account)).
Definition invalid {A} (msg : string) : result AccountServiceError A := Err (Invalid (lit msg)).
Definition ok_or {A} (o : option A) (msg : string) : result AccountServiceError A := match o with Some a => Ok a | None => invalid msg end.

Definition byte (b : bytes) (i : nat) : Z := default 0 (b !! i).
Definition cose_key (cose : list (CborValue * CborValue)) : result AccountServiceError (Z * bytes) :=
  let? kty := ok_or (cbor_map_value cose 1 ≫= as_integer) "credential public key has no key type" in
  let? algorithm := ok_or (cbor_map_value cose 3 ≫= as_integer) "credential public key has no algorithm" in
  let curve := cbor_map_value cose (-1) ≫= as_integer in
  if bool_decide ((kty, algorithm, curve) = (1, -8, Some 6)) then
    let? key := ok_or (cbor_bytes_value cose (-2)) "Ed25519 credential public key has no x value" in
    bail? negb (blen key =? 32) with Invalid (lit "Ed25519 credential public key must be 32 bytes") ;;
    Ok (-8, key)
  else if bool_decide ((kty, algorithm, curve) = (2, -7, Some 1)) then
    let? x := ok_or (cbor_bytes_value cose (-2)) "ES256 credential public key has no x value" in
    let? y := ok_or (cbor_bytes_value cose (-3)) "ES256 credential public key has no y value" in
    bail? negb (blen x =? 32) || negb (blen y =? 32) with Invalid (lit "ES256 credential coordinates must be 32 bytes each") ;;
    Ok (-7, 4 :: x ++ y)
  else invalid "only Ed25519 (-8) and ES256 (-7) WebAuthn credentials are supported".
Definition parse_authenticator_data (data : bytes) (registration : bool) : result AccountServiceError ParsedAuthenticatorData :=
  bail? blen data <? 37 with Invalid (lit "authenticator_data is shorter than the WebAuthn minimum") ;;
  bail? negb (bool_decide (take 32 data = sha256 (as_bytes webauthn_rp_id))) with Invalid (lit "WebAuthn RP ID hash does not match the configured RP ID") ;;
  let flags := byte data 32 in
  bail? Z.land flags 1 =? 0 with Invalid (lit "WebAuthn user presence flag is not set") ;;
  bail? is_true (cf_require_uv cf) && (Z.land flags 4 =? 0) with Invalid (lit "WebAuthn user verification flag is required") ;;
  let sign_count := from_le_bytes (rev (take 4 (drop 33 data))) in
  if negb registration then Ok {| pa_sign_count := sign_count; pa_credential_id := None; pa_algorithm := None; pa_public_key := None |} else
  bail? Z.land flags 64 =? 0 with Invalid (lit "registration authenticator data does not contain attested credential data") ;;
  bail? blen data <? 55 with Invalid (lit "registration authenticator data is truncated") ;;
  let credential_len := from_le_bytes (rev (take 2 (drop 53 data))) in
  bail? 55 + credential_len >? blen data with Invalid (lit "registration credential ID is truncated") ;;
  let credential_id := take (Z.to_nat credential_len) (drop 55 data) in
  let? cose := ok_or (cbor_from_reader (drop (55 + Z.to_nat credential_len) data)) "credential public key CBOR is invalid" in
  let? cose_map := ok_or (as_map cose) "credential public key must be a CBOR map" in
  let? (algorithm, public_key) := cose_key cose_map in
  Ok {| pa_sign_count := sign_count; pa_credential_id := Some credential_id; pa_algorithm := Some algorithm; pa_public_key := Some public_key |}.
Definition parse_attestation_object (value : bytes) : result AccountServiceError ParsedAuthenticatorData :=
  let? attestation := ok_or (cbor_from_reader value) "attestation_object CBOR is invalid" in
  let? map := ok_or (as_map attestation) "attestation_object must be a CBOR map" in
  let? format := ok_or (cbor_text_value map (lit "fmt")) "attestation_object has no format" in
  bail? negb (bool_decide (format = lit "none")) with Invalid (lit "only WebAuthn fmt=none attestation is accepted") ;;
  let? statement := ok_or (find_map (fun kv => if bool_decide (as_text kv.1 = Some (lit "attStmt")) then Some kv.2 else None) map) "attestation_object has no attStmt" in
  bail? negb match statement with CborMap [] => true | _ => false end with Invalid (lit "fmt=none attestation must contain an empty attStmt") ;;
  let? auth_data := ok_or (cbor_bytes_text_value map (lit "authData")) "attestation_object has no authData" in
  parse_authenticator_data auth_data true.
Definition validate_client_data (data : bytes) (expected_type expected_challenge : str) : result AccountServiceError unit :=
  let? (type, challenge, origin) := ok_or (client_data_from_slice data) "client_data_json is invalid JSON" in
  bail? negb (bool_decide (type = Some expected_type)) with Invalid (lit "WebAuthn client data type does not match the ceremony") ;;
  bail? negb (bool_decide (challenge = Some expected_challenge)) with Invalid (lit "WebAuthn challenge does not match the issued challenge") ;;
  bail? negb (bool_decide (origin = Some webauthn_origin)) with Invalid (lit "WebAuthn origin does not match the configured origin") ;;
  Ok tt.
Definition verify_webauthn_signature (algorithm : Z) (public_key signed_data signature : bytes) : result AccountServiceError unit :=
  let bad := Invalid (lit "WebAuthn assertion signature is invalid") in
  if algorithm =? -8 then
    bail? negb (blen public_key =? 32) || negb (vk_from_bytes_ok public_key) with Invalid (lit "Ed25519 credential public key is invalid") ;;
    bail? negb (blen signature =? 64) with Invalid (lit "Ed25519 WebAuthn signature is invalid") ;;
    bail? negb (ed_verify public_key signed_data signature) with bad ;; Ok tt
  else if algorithm =? -7 then bail? negb (p256_verify public_key signed_data signature) with bad ;; Ok tt
  else invalid "unsupported WebAuthn algorithm".

(** ** webauthn.rs *)

Definition revoke_credential (now : Z) (w : WebAuthnCredential) : WebAuthnCredential :=
  {| wc_device := wc_device w; wc_algorithm := wc_algorithm w; wc_public_key_hex := wc_public_key_hex w; wc_sign_count := wc_sign_count w;
     wc_created_at := wc_created_at w; wc_last_used_at := wc_last_used_at w; wc_revoked_at := Some now |}.
Definition end_credential (account id : str) (now : Z) (d : ADb) : bool * ADb :=
  match ad_credentials d !! (account, id) with
  | Some w => if bool_decide (wc_revoked_at w = None)
              then (true, set_credentials (<[(account, id) := revoke_credential now w]>) d) else (false, d)
  | None => (false, d)
  end.
Definition with_credential (account id : str) (_ : str) (s : Session) : bool :=
  bool_decide (s_account s = account /\ s_credential s = Some id).
Definition usable_id (id : bytes) : bool := negb (bool_decide (id = [])) && (blen id <=? 1024).
Definition post_webauthn_revoke (headers : HeaderMap) (account credential_id_hex : str) : Handler Reply :=
  check account <- normalize_account_id account ;;
  match hex_decode credential_id_hex with
  | Ok id =>
      refuse negb (usable_id id) with Refuse 400 "INVALID_CREDENTIAL_ID" ;;
      finally (
        require_recent_account_session_with_db c headers account ;;;
        let now := a_now c "revoke" in
        do changed <- update c "revoke credential" (end_credential account (hex_encode id) now) ;;
        refuse_if (negb changed) (Refuse 404 "CREDENTIAL_NOT_FOUND") ;;;
        audit_event c account "webauthn_revoked" [("credential_id_b64", DText (b64_encode id))] ;;;
        execute c "revoke sessions" (fun d => Some (set_sessions (end_sessions (with_credential account (hex_encode id)) now) d)) ;;;
        tret (Ok RDone))
  | Err _ => Answer (Err (Refuse 400 "INVALID_CREDENTIAL_ID"))
  end.

(** The options of a ceremony: the challenge as base64url. *)
Definition options (r : Reply) (account : str) : Reply :=
  match r with
  | RChallenge id nonce_hex _ ceremony =>
      ROptions id (b64_encode match hex_decode nonce_hex with Ok b => b | Err _ => [] end) (b64_encode (webauthn_user_id account)) ceremony
  | r => r
  end.
Definition post_webauthn_registration_options (headers : HeaderMap) (account : str) : Handler Reply :=
  check account <- normalize_account_id account ;;
  finally (
    do session <- require_recent_account_session_with_db c headers account ;;
    do device <- some_or (Refuse 403 "DEVICE_SESSION_REQUIRED") (device_id_hex session) ;;
    prune_expired (under "options" c) (a_now c "prune") ;;;
    do reply <- issue_challenge cf c headers (lit "webauthn_registration") account (Some device) None "webauthn.create" ;;
    tret (Ok (options reply account))).

Definition b64_bounded (value : str) (field : string) (ok : bytes -> bool) (code : string) (k : bytes -> Handler Reply) : Handler Reply :=
  match b64_decode value (lit field) with
  | Ok b => if ok b then k b else Answer (Err (Refuse 400 code))
  | Err e => Answer (Err (service_error e))
  end.
Definition fits (b : bytes) : bool := blen b <=? MAX_BODY_BYTES.
Definition insert_credential (account id : str) (w : WebAuthnCredential) (d : ADb) : option ADb :=
  if known account d && bool_decide (map_Forall (fun key _ => key.2 <> id) (ad_credentials d))
  then Some (set_credentials (<[(account, id) := w]>) d) else None.
Definition expected_challenge (nonce_hex : str) : ATx str :=
  match hex_decode nonce_hex with Ok b => tret (Ok (b64_encode b)) | Err _ => tret (Err (Refuse 500 "CHALLENGE_INVALID")) end.
Definition post_webauthn_registration_verify (headers : HeaderMap) (account challenge_id credential_id_b64 client_data_b64 attestation_b64 : str) : Handler Reply :=
  check account <- normalize_account_id account ;;
  b64_bounded credential_id_b64 "credential_id_b64" usable_id "INVALID_CREDENTIAL_ID" (fun credential_id =>
  b64_bounded client_data_b64 "client_data_json_b64" fits "CLIENT_DATA_TOO_LARGE" (fun client_data =>
  b64_bounded attestation_b64 "attestation_object_b64" fits "ATTESTATION_TOO_LARGE" (fun attestation =>
  finally (
    do session <- require_recent_account_session_with_db c headers account ;;
    do row <- query c "challenge" (fun d => challenge_row d challenge_id (lit "webauthn_registration") (Some account)) ;;
    do ch <- some_or (Refuse 401 "CHALLENGE_INVALID") row ;;
    refuse_if ((ch_expires_at ch <=? a_now c "check") || bool_decide (is_Some (ch_used_at ch))) (Refuse 401 "CHALLENGE_EXPIRED") ;;;
    refuse_if (negb (bool_decide (ch_device ch = device_id_hex session))) (Refuse 403 "DEVICE_SESSION_MISMATCH") ;;;
    do expected <- expected_challenge (ch_nonce_hex ch) ;;
    or_invalid (validate_client_data client_data (lit "webauthn.create") expected) ;;;
    do parsed <- or_invalid (parse_attestation_object attestation) ;;
    refuse_if (negb (bool_decide (default [] (pa_credential_id parsed) = credential_id))) (Refuse 400 "CREDENTIAL_ID_MISMATCH") ;;;
    let now := a_now c "register" in
    let row := {| wc_device := device_id_hex session; wc_algorithm := default 0 (pa_algorithm parsed);
                  wc_public_key_hex := hex_encode (default [] (pa_public_key parsed)); wc_sign_count := pa_sign_count parsed;
                  wc_created_at := now; wc_last_used_at := None; wc_revoked_at := None |} in
    or_refuse (Refuse 409 "CREDENTIAL_EXISTS") (execute c "insert credential" (insert_credential account (hex_encode credential_id) row)) ;;;
    do consumed <- update c "use challenge" (consume_challenge challenge_id now) ;;
    refuse_if (negb consumed) (Refuse 401 "CHALLENGE_REPLAY") ;;;
    audit_event c account "webauthn_registered" [("credential_id_b64", DText credential_id_b64); ("algorithm", DNumber (wc_algorithm row))] ;;;
    tret (Ok (RCredential (b64_encode credential_id) row)))))).

Definition has_credential (d : ADb) (account : str) : bool :=
  bool_decide (map_Exists (fun key w => key.1 = account /\ wc_revoked_at w = None) (ad_credentials d)).
Definition post_webauthn_authentication_options (headers : HeaderMap) (account : str) : Handler Reply :=
  check account <- normalize_account_id account ;;
  finally (
    prune_expired c (a_now c "prune") ;;;
    do exists_ <- or_false (account_exists c account) ;;
    refuse_if (negb exists_) (Refuse 404 "ACCOUNT_NOT_FOUND") ;;;
    do has <- or_false (query c "credentials" (fun d => has_credential d account)) ;;
    refuse_if (negb has) (Refuse 404 "WEBAUTHN_NOT_ENROLLED") ;;;
    do reply <- issue_challenge cf c headers (lit "webauthn_login") account None None "webauthn.get" ;;
    tret (Ok (options reply account))).

Definition counted (count now : Z) (w : WebAuthnCredential) : WebAuthnCredential :=
  {| wc_device := wc_device w; wc_algorithm := wc_algorithm w; wc_public_key_hex := wc_public_key_hex w; wc_sign_count := count;
     wc_created_at := wc_created_at w; wc_last_used_at := Some now; wc_revoked_at := wc_revoked_at w |}.
(** The statement does nothing to a revoked row. *)
Definition count_use (count now : Z) (w : WebAuthnCredential) : WebAuthnCredential :=
  if bool_decide (wc_revoked_at w = None) then counted count now w else w.
(** The counter of a passkey that counts must grow. *)
Definition counter_replayed (stored presented : Z) : bool :=
  (negb (stored =? 0) && (presented =? 0)) || (negb (stored =? 0) && (presented <=? stored)).
Definition webauthn_login (challenge_id credential_id_b64 : str) (credential_id client_data authenticator_data signature : bytes)
  (parsed : ParsedAuthenticatorData) : ATx Reply :=
  do row <- query c "challenge" (fun d => challenge_row d challenge_id (lit "webauthn_login") None) ;;
  do ch <- some_or (Refuse 401 "CHALLENGE_INVALID") row ;;
  refuse_if ((ch_expires_at ch <=? a_now c "check") || bool_decide (is_Some (ch_used_at ch))) (Refuse 401 "CHALLENGE_EXPIRED") ;;;
  do expected <- expected_challenge (ch_nonce_hex ch) ;;
  or_invalid (validate_client_data client_data (lit "webauthn.get") expected) ;;;
  let account := ch_account ch in
  let id := hex_encode credential_id in
  do row <- query c "credential" (fun d => ad_credentials d !! (account, id)) ;;
  do w <- some_or (Refuse 401 "CREDENTIAL_UNKNOWN") row ;;
  refuse_if (bool_decide (is_Some (wc_revoked_at w))) (Refuse 401 "CREDENTIAL_REVOKED") ;;;
  require_active_device c account (wc_device w) (Refuse 401 "DEVICE_REVOKED") ;;;
  match hex_decode (wc_public_key_hex w) with
  | Err _ => tret (Err (Refuse 500 "CREDENTIAL_INVALID"))
  | Ok public_key =>
      or_invalid (verify_webauthn_signature (wc_algorithm w) public_key (authenticator_data ++ sha256 client_data) signature) ;;;
      refuse_if (counter_replayed (wc_sign_count w) (pa_sign_count parsed)) (Refuse 401 "SIGN_COUNT_REPLAY") ;;;
      let now := a_now c "login" in
      execute c "count use" (fun d => Some (set_credentials (alter (count_use (pa_sign_count parsed) now) (account, id)) d)) ;;;
      do consumed <- update c "use challenge" (consume_challenge challenge_id now) ;;
      refuse_if (negb consumed) (Refuse 401 "CHALLENGE_REPLAY") ;;;
      let token := random_hex c "token" in
      let session := session_row account (wc_device w) (Some id) (lit "webauthn") now (now + SESSION_TTL_SECONDS) in
      execute c "insert session" (insert_session (hash_token token) session) ;;;
      audit_event c account "webauthn_login" [("credential_id_b64", DText credential_id_b64)] ;;;
      do required <- policy_required (under "mfa" c) account ;;
      tret (Ok (RSession token (new_session_view session required)))
  end.
Definition post_webauthn_authentication_verify (challenge_id credential_id_b64 client_data_b64 authenticator_data_b64 signature_b64 : str) : Handler Reply :=
  b64_bounded credential_id_b64 "credential_id_b64" usable_id "INVALID_CREDENTIAL_ID" (fun credential_id =>
  b64_bounded client_data_b64 "client_data_json_b64" fits "CLIENT_DATA_TOO_LARGE" (fun client_data =>
  b64_bounded authenticator_data_b64 "authenticator_data_b64" fits "AUTHENTICATOR_DATA_TOO_LARGE" (fun authenticator_data =>
  b64_bounded signature_b64 "signature_b64" (fun b => blen b <=? 1024) "SIGNATURE_TOO_LARGE" (fun signature =>
  check parsed <- parse_authenticator_data authenticator_data false ;;
  finally (webauthn_login challenge_id credential_id_b64 credential_id client_data authenticator_data signature parsed))))).
End WebAuthn.
