(* ===== verification/AccountService.v ===== *)
(** * The account service as a whole

    The requests of the account service, the handler of each, and the service that runs any
    number of them at once: a request may arrive at any time, and a step of the service runs
    the next section of one of the requests under way.  What holds for every section holds
    for every interleaving. *)

From S2P Require Import Prelude Sorting Tables Errors Primitives Crypto Policy AccountDb Totp Accounts AccountFactors Memberships WebAuthn.

#[local] Open Scope tx_scope.

Inductive Request : Type :=
| PostAccount (display_name account_public_key_hex : str)
| GetAccount (headers : HeaderMap) (account : str)
| PostLoginChallenge (headers : HeaderMap) (account : str) (device : option str)
| PostLogin (challenge_id signature_hex : str)
| GetSession (headers : HeaderMap)
| PostSessionRevoke (headers : HeaderMap)
| PostSessionHandoff (headers : HeaderMap)
| PostSessionHandoffConsume (handoff_code : str)
| PostDeviceChallenge (headers : HeaderMap) (account device public_key_hex : str)
| PostDeviceEnrollment (headers : HeaderMap) (account device public_key_hex label challenge_id proof_signature_hex : str)
| PostDeviceRevoke (endpoints : list str) (service_token : str) (post : str -> str -> option Z) (headers : HeaderMap) (account device : str)
| PostVaultLink (headers : HeaderMap) (account vault alias role : str) (locator : option str)
| PostRecoveryCodes (headers : HeaderMap) (account : str) (count : Z)
| PostRecoveryRedeem (headers : HeaderMap) (account code : str)
| PostTotpEnrollment (headers : HeaderMap) (account : str)
| PostTotpEnrollmentVerify (headers : HeaderMap) (account code : str)
| PostTotpRevoke (headers : HeaderMap) (account : str)
| PostTotpAuthenticationOptions (headers : HeaderMap) (account : str)
| PostTotpAuthenticationVerify (headers : HeaderMap) (account challenge_id code : str)
| PostStepUp (headers : HeaderMap) (code : str)
| GetPolicy (headers : HeaderMap) (account : str)
| PatchPolicy (headers : HeaderMap) (account : str) (required : bool)
| PostRecoveryReset (headers : HeaderMap) (account code : str)
| PostInvitation (headers : HeaderMap) (account invitee role : str) (expires_in : option Z)
| GetInvitations (headers : HeaderMap) (account : str)
| PostInvitationAccept (headers : HeaderMap) (token : str)
| GetMemberships (headers : HeaderMap) (account : str)
| PostMembershipRevoke (headers : HeaderMap) (account member : str)
| PostWebauthnRevoke (headers : HeaderMap) (account credential_id_hex : str)
| PostWebauthnRegistrationOptions (headers : HeaderMap) (account : str)
| PostWebauthnRegistrationVerify (headers : HeaderMap) (account challenge_id credential_id_b64 client_data_b64 attestation_b64 : str)
| PostWebauthnAuthenticationOptions (headers : HeaderMap) (account : str)
| PostWebauthnAuthenticationVerify (challenge_id credential_id_b64 client_data_b64 authenticator_data_b64 signature_b64 : str).

Section Service.
Context {HX : Hex} {SH : Sha256} {ED : Ed25519} {CJ : ChallengeJson} {HS : HmacSha1} {B64 : Base64Url} {AG : Aes256Gcm}
  {CB : CborReader} {JC : ClientDataJson} {EC : EcdsaP256}.
Variable cf : Config.

(** lib.rs: the route of each request. *)
Definition route (c : ACall) (r : Request) : Handler Reply :=
  match r with
  | PostAccount name key => post_account c name key
  | GetAccount h a => get_account c h a
  | PostLoginChallenge h a d => post_login_challenge cf c h a d
  | PostLogin id sig => post_login c id sig
  | GetSession h => get_session c h
  | PostSessionRevoke h => post_session_revoke c h
  | PostSessionHandoff h => post_session_handoff c h
  | PostSessionHandoffConsume code => post_session_handoff_consume c code
  | PostDeviceChallenge h a d k => post_device_challenge cf c h a d k
  | PostDeviceEnrollment h a d k l id sig => post_device_enrollment c h a d k l id sig
  | PostDeviceRevoke e t p h a d => post_device_revoke c e t p h a d
  | PostVaultLink h a v al ro lo => post_vault_link c h a v al ro lo
  | PostRecoveryCodes h a n => post_recovery_codes c h a n
  | PostRecoveryRedeem h a code => post_recovery_redeem cf c h a code
  | PostTotpEnrollment h a => post_totp_enrollment cf c h a
  | PostTotpEnrollmentVerify h a code => post_totp_enrollment_verify cf c h a code
  | PostTotpRevoke h a => post_totp_revoke c h a
  | PostTotpAuthenticationOptions h a => post_totp_authentication_options cf c h a
  | PostTotpAuthenticationVerify h a id code => post_totp_authentication_verify cf c h a id code
  | PostStepUp h code => post_step_up cf c h code
  | GetPolicy h a => get_policy c h a
  | PatchPolicy h a required => patch_policy c h a required
  | PostRecoveryReset h a code => post_recovery_reset cf c h a code
  | PostInvitation h a i ro e => post_invitation c h a i ro e
  | GetInvitations h a => get_invitations c h a
  | PostInvitationAccept h token => post_invitation_accept c h token
  | GetMemberships h a => get_memberships c h a
  | PostMembershipRevoke h a m => post_membership_revoke c h a m
  | PostWebauthnRevoke h a id => post_webauthn_revoke c h a id
  | PostWebauthnRegistrationOptions h a => post_webauthn_registration_options cf c h a
  | PostWebauthnRegistrationVerify h a id cr cd att => post_webauthn_registration_verify cf c h a id cr cd att
  | PostWebauthnAuthenticationOptions h a => post_webauthn_authentication_options cf c h a
  | PostWebauthnAuthenticationVerify id cr cd ad sig => post_webauthn_authentication_verify cf c id cr cd ad sig
  end.

(** ** Requests at once *)

Record Pool : Type := MkPool { threads : list (Handler Reply); tables : ADb }.
Inductive Event : Type := Arrive (c : ACall) (r : Request) | Advance (i : nat).
Definition pool_step (p : Pool) (e : Event) : Pool :=
  match e with
  | Arrive c r => MkPool (threads p ++ [route c r]) (tables p)
  | Advance i =>
      match threads p !! i with
      | Some (Locked m k) =>
          let '(r, d) := m (tables p) in
          MkPool (<[i := match r with Ok x => k x | Err e => Answer (Err e) end]> (threads p)) d
      | _ => p
      end
  end.
Definition serve (events : list Event) (d : ADb) : Pool := foldl pool_step (MkPool [] d) events.
(** The answer of the [i]-th request, once it is there. *)
Definition answer_of (p : Pool) (i : nat) : option (result Refusal Reply) :=
  match threads p !! i with Some (Answer r) => Some r | _ => None end.

(** ** Sections *)

Fixpoint every_section {A} (P : forall X, ATx X -> Prop) (h : Handler A) : Prop :=
  match h with
  | Answer _ => True
  | Locked m k => P _ m /\ forall x, every_section P (k x)
  end.

Section Sound.
(** [P c m] is what is known of the sections of a request with the effects [c]. *)
Variable R : ADb -> ADb -> Prop.
Variable fine : ACall -> Prop.
Abbreviation ok := (every_section (fun X (m : ATx X) => forall d, R d (m d).2)).
Hypothesis Rrefl : forall d, R d d.
Hypothesis sections : forall c r, fine c -> ok (route c r).

Definition fine_events (events : list Event) : Prop := forall c r, Arrive c r ∈ events -> fine c.

Lemma pool_sound p e : (forall c r, e = Arrive c r -> fine c) -> Forall ok (threads p) -> Forall ok (threads (pool_step p e)) /\ R (tables p) (tables (pool_step p e)).
Proof.
  intros He Hp. destruct e as [c r|i]; cbn.
  - split; [|apply Rrefl]. apply Forall_app. split; [done|]. apply Forall_cons_2; [|apply Forall_nil_2]. by apply sections, (He c r).
  - destruct (threads p !! i) as [[r|X m k]|] eqn:Ei; [done| |done]. pose proof (Forall_lookup_1 _ _ _ _ Hp Ei) as (Hm & Hk).
    specialize (Hm (tables p)). destruct (m (tables p)) as [r d']. cbn in *. split; [|done].
    apply Forall_insert; [done|]. by destruct r.
Qed.
Lemma serve_sound events d : fine_events events -> Forall ok (threads (serve events d)).
Proof.
  unfold serve. intros Hf. induction events as [|e events IH] using rev_ind; [apply Forall_nil_2|].
  rewrite foldl_app. cbn [foldl]. apply pool_sound.
  - intros c r ->. apply (Hf c r), elem_of_app. right. apply list_elem_of_here.
  - apply IH. intros c r Hin. apply (Hf c r), elem_of_app. by left.
Qed.
(** Every event of a run is one step of [R]. *)
Lemma serve_step events e d : fine_events (events ++ [e]) ->
  R (tables (serve events d)) (tables (serve (events ++ [e]) d)).
Proof.
  intros Hf. unfold serve. rewrite foldl_app. cbn [foldl]. apply pool_sound.
  - intros c r ->. apply (Hf c r), elem_of_app. right. apply list_elem_of_here.
  - apply serve_sound. intros c r Hin. apply (Hf c r), elem_of_app. by left.
Qed.
Lemma serve_rtc before after d : fine_events (before ++ after) ->
  rtc R (tables (serve before d)) (tables (serve (before ++ after) d)).
Proof.
  induction after as [|e after IH] using rev_ind; intros Hf; [by rewrite app_nil_r|].
  eapply rtc_r; [apply IH|].
  - intros c r Hin. apply (Hf c r). rewrite app_assoc. apply elem_of_app. by left.
  - rewrite app_assoc. apply serve_step. by rewrite <- app_assoc.
Qed.
End Sound.
End Service.

(** ** How sessions come to be

    What a section of any handler may do to the sessions, the handoffs, the recovery codes
    and the authenticators: a session appears only when a proof of identity was checked
    against the tables the section started from, and the proof is spent in the tables it
    leaves. *)

#[local] Open Scope tx_scope.

(** ** Changes that grant nothing *)

(** A session apart from its end. *)
Definition same_grant (s s' : Session) : Prop :=
  s_account s = s_account s' /\ s_device s = s_device s' /\ s_credential s = s_credential s' /\ s_kind s = s_kind s' /\
  s_issued s = s_issued s' /\ s_expires s = s_expires s'.
#[global] Instance same_grant_preorder : PreOrder same_grant.
Proof. split; [done|]. unfold same_grant. intros [] [] []; cbn. intuition congruence. Qed.

#[export] Hint Extern 0 (same_grant ?s ?s) => reflexivity : core.

Record Mild (d d' : ADb) : Prop := {
  mi_sessions : forall hash s', ad_sessions d' !! hash = Some s' -> exists s, ad_sessions d !! hash = Some s /\ same_grant s s';
  mi_handoffs : forall hash h, ad_handoffs d !! hash = Some h -> is_Some (ho_used_at h) -> exists h', ad_handoffs d' !! hash = Some h' /\ is_Some (ho_used_at h');
  mi_codes : forall hash r, ad_codes d !! hash = Some r -> is_Some (rc_used_at r) -> exists r', ad_codes d' !! hash = Some r' /\ is_Some (rc_used_at r');
  mi_totp : ad_totp d' = ad_totp d;
  mi_policy : ad_policy d' = ad_policy d;
}.
#[global] Instance Mild_preorder : PreOrder Mild.
Proof.
  split.
  - intros d. split; eauto.
  - intros d d1 d2 [S1 H1 C1 T1 P1] [S2 H2 C2 T2 P2]. split.
    + intros hash s2 (s1 & E1 & G1)%S2. apply S1 in E1 as (s & E & G). exists s. split; [done|]. by etrans.
    + intros hash h E Hu. destruct (H1 _ _ E Hu) as (h1 & E1 & U1). by apply (H2 _ h1).
    + intros hash h E Hu. destruct (C1 _ _ E Hu) as (h1 & E1 & U1). by apply (C2 _ h1).
    + congruence.
    + congruence.
Qed.
(** The statements that leave these tables alone, and the ones that shrink them. *)
Lemma mild_same d d' : ad_sessions d' = ad_sessions d -> ad_handoffs d' = ad_handoffs d -> ad_codes d' = ad_codes d -> ad_totp d' = ad_totp d ->
  ad_policy d' = ad_policy d -> Mild d d'.
Proof. intros E1 E2 E3 E4 E5. split; rewrite ?E1, ?E2, ?E3; eauto. Qed.
Lemma mild_sessions d f : (forall hash s', f (ad_sessions d) !! hash = Some s' -> exists s, ad_sessions d !! hash = Some s /\ same_grant s s') -> Mild d (set_sessions f d).
Proof. intros Hf. destruct d. split; cbn in *; eauto. Qed.
Lemma end_sessions_grant (P : str -> Session -> bool) (now : Z) (m : gmap str Session) hash s' : end_sessions P now m !! hash = Some s' -> exists s, m !! hash = Some s /\ same_grant s s'.
Proof.
  unfold end_sessions. rewrite map_lookup_imap. destruct (m !! hash) as [s|]; [|done]. cbn. intros [= <-]. exists s. split; [done|].
  by destruct (P hash s && _).
Qed.
Lemma mild_end_sessions d (P : str -> Session -> bool) (now : Z) : Mild d (set_sessions (end_sessions P now) d).
Proof. apply mild_sessions, end_sessions_grant. Qed.
Lemma mild_end_session d hash now : Mild d (set_sessions (alter (end_session now) hash) d).
Proof.
  apply mild_sessions. intros h s'. destruct (decide (h = hash)) as [->|Hne]; [|rewrite lookup_alter_ne by done; eauto].
  rewrite lookup_alter_eq. destruct (ad_sessions d !! hash) as [s|]; [|done]. intros [= <-]. exists s. by split.
Qed.
Lemma mild_drop_sessions d now : Mild d (drop_sessions now d).
Proof.
  unfold drop_sessions. destruct d. split; cbn; eauto. intros hash s' (E & _)%map_lookup_filter_Some. eauto.
Qed.
Lemma mild_handoffs d f : (forall hash h, ad_handoffs d !! hash = Some h -> is_Some (ho_used_at h) -> exists h', f (ad_handoffs d) !! hash = Some h' /\ is_Some (ho_used_at h')) ->
  Mild d (set_handoffs f d).
Proof. intros Hf. destruct d. split; cbn in *; eauto. Qed.
Lemma mild_insert_handoff hash h d d' : insert_handoff hash h d = Some d' -> Mild d d'.
Proof.
  unfold insert_handoff. destruct (known _ _); [|done]. cbn. case_bool_decide as Hn; [|done]. intros [= <-]. apply mild_handoffs.
  intros i h' E Hu. exists h'. split; [|done]. rewrite lookup_insert_ne; [done|]. intros <-. congruence.
Qed.
Lemma mild_use_handoffs d account now : Mild d (set_handoffs (use_handoffs account now) d).
Proof.
  apply mild_handoffs. intros hash h E Hu. unfold use_handoffs. rewrite lookup_fmap, E. cbn. eexists. split; [done|]. by case_bool_decide.
Qed.
Lemma mild_codes d f : (forall hash r, ad_codes d !! hash = Some r -> is_Some (rc_used_at r) -> exists r', f (ad_codes d) !! hash = Some r' /\ is_Some (rc_used_at r')) ->
  Mild d (set_codes f d).
Proof. intros Hf. destruct d. split; cbn in *; eauto. Qed.
Lemma mild_spend_code d account hash now : Mild d (spend_code account hash now d).2.
Proof.
  unfold spend_code. destruct (unused_code d account hash); [|reflexivity]. apply mild_codes. intros i r E Hu.
  destruct (decide (i = hash)) as [->|Hne]; [rewrite lookup_alter_eq, E|rewrite lookup_alter_ne by done]; cbn; eauto.
Qed.
Lemma mild_drop_codes d account : Mild d (set_codes (filter (fun kv => ~ (rc_account kv.2 = account /\ rc_used_at kv.2 = None))) d).
Proof.
  apply mild_codes. intros hash r E Hu. exists r. split; [|done]. apply map_lookup_filter_Some. split; [done|]. cbn. intros (_ & En).
  rewrite En in Hu. by destruct Hu.
Qed.

(** ** Sections that grant nothing *)

Lemma moves_update (R : ADb -> ADb -> Prop) {Rpre : PreOrder R} c l f : (forall d, R d (f d).2) -> moves R (update c l f).
Proof. intros Hf d. unfold update. destruct (a_fails c l); [reflexivity|]. specialize (Hf d). by destruct (f d). Qed.
Lemma moves_of_policy (R : ADb -> ADb -> Prop) {Rpre : PreOrder R} {A} c (f : _ -> _ -> result unit A) : moves R (of_policy c f).
Proof. by apply moves_reads. Qed.
Lemma moves_quota (R : ADb -> ADb -> Prop) {A} (m : Tx ADb QuotaFailure A) : moves R m -> moves R (quota_or_refuse m).
Proof. intros Hm d. unfold quota_or_refuse. specialize (Hm d). by destruct (m d). Qed.

(** [walk leaf] goes through a program; [leaf] is for its statements. *)
Ltac walk leaf :=
  repeat (cbv zeta; lazymatch goal with
  | |- moves _ (tbind _ _) => apply moves_bind; [exact _| |intros ?]
  | |- moves _ (tcatch _ _) => apply moves_catch; [exact _| |intros ?]
  | |- moves _ (tret _) => apply moves_ret; exact _
  | |- moves _ (query_if _ _ _) => apply moves_query; exact _
  | |- moves _ (query _ _ _) => apply moves_query; exact _
  | |- moves _ (of_policy _ _) => apply moves_of_policy; exact _
  | |- moves _ (transaction _ _ _) => unfold transaction
  | |- moves _ (atomically _ _ _) => apply moves_atomically; [exact _|]
  | |- moves _ (or_false _) => unfold or_false
  | |- moves _ (ignored _) => unfold ignored
  | |- moves _ (or_refuse _ _) => unfold or_refuse
  | |- moves _ (refuse_if _ _) => unfold refuse_if
  | |- moves _ (or_invalid _) => unfold or_invalid
  | |- moves _ (some_or _ _) => unfold some_or
  | |- moves _ (strong_or_refuse _) => unfold strong_or_refuse
  | |- moves _ (quota_or_refuse _) => apply moves_quota
  | |- moves _ (tx_for_each _ _) => apply moves_for_each; [exact _|intros ?]
  | |- moves _ (execute _ _ _) => apply moves_execute; [exact _|intros ? ?]
  | |- moves _ (execute_if _ _ _) => apply moves_execute; [exact _|intros ? ?]
  | |- moves _ (update _ _ _) => apply moves_update; [exact _|intros ?]
  | |- moves _ (match ?x with _ => _ end) => destruct x
  end); leaf.

Create HintDb mild.
#[export] Hint Resolve mild_end_sessions mild_end_session mild_drop_sessions mild_insert_handoff mild_use_handoffs mild_spend_code mild_drop_codes : mild.
(** A statement on another table. *)
Ltac elsewhere := lazymatch goal with
  | |- Mild ?d _ => apply mild_same; destruct d; reflexivity
  end.
Ltac mild :=
  try lazymatch goal with |- (if ?b then Some _ else None) = Some _ -> _ => destruct b; [|done] end;
  try (let H := fresh in intros H; injection H as <-); first [by eauto with mild | elsewhere | idtac].

Section Mild.
Context {HX : Hex} {SH : Sha256} {ED : Ed25519} {CJ : ChallengeJson} {HS : HmacSha1} {B64 : Base64Url} {AG : Aes256Gcm}
  {CB : CborReader} {JC : ClientDataJson} {EC : EcdsaP256}.

Lemma mild_audit c account event details : moves Mild (audit_event c account event details).
Proof. unfold audit_event. walk idtac. destruct (known _ _); [|done]. intros [= <-]. elsewhere. Qed.
Lemma mild_prune c now : moves Mild (prune_expired c now).
Proof. unfold prune_expired. walk mild. Qed.
Lemma mild_session c headers : moves Mild (authenticated_session_with_db c headers).
Proof. unfold authenticated_session_with_db, apply_session_status. walk ltac:(try apply mild_prune). Qed.
Lemma mild_role c headers account role : moves Mild (account_role_for_with_db c headers account role).
Proof. unfold account_role_for_with_db, policy_required, active_membership_role. walk ltac:(try apply mild_session). Qed.
Lemma mild_recent_role c headers account role : moves Mild (require_recent_account_role_with_db c headers account role).
Proof. unfold require_recent_account_role_with_db. walk ltac:(try apply mild_role). Qed.
Lemma mild_recent_session c headers account : moves Mild (require_recent_account_session_with_db c headers account).
Proof. unfold require_recent_account_session_with_db. walk ltac:(try apply mild_session). Qed.
Lemma mild_own_session c headers account : moves Mild (own_session c headers account).
Proof. unfold own_session. walk ltac:(try apply mild_session). Qed.
Lemma mild_rate_allowed c key : moves Mild (auth_rate_allowed_with_db c key).
Proof. unfold auth_rate_allowed_with_db. walk mild. Qed.
Lemma mild_rate_failure c key : moves Mild (auth_rate_failure_with_db c key).
Proof.
  unfold auth_rate_failure_with_db, auth_rate_lockout_alert, account_exists. walk ltac:(first [apply mild_audit|mild]).
Qed.
Lemma mild_rate_success c key : moves Mild (auth_rate_success_with_db c key).
Proof. unfold auth_rate_success_with_db. walk mild. Qed.
Lemma mild_failed c {A} key r : moves Mild (failed_attempt (A := A) c key r).
Proof. unfold failed_attempt. walk ltac:(try apply mild_rate_failure). Qed.
Lemma mild_check_quota c bucket tenant principal now : moves Mild (check_quota c bucket tenant principal now).
Proof.
  unfold check_quota. walk mild. intros d. unfold reserve. destruct (a_fails c _); [reflexivity|]. destruct (reserved _ _ _); [elsewhere|reflexivity].
Qed.
Lemma mild_issue cf c headers kind account device key ceremony : moves Mild (issue_challenge cf c headers kind account device key ceremony).
Proof.
  unfold issue_challenge, check_challenge_quota. walk ltac:(try apply mild_check_quota). unfold insert_challenge. destruct (_ && _); [|done].
  intros [= <-]. elsewhere.
Qed.
Lemma mild_active_device c account device r : moves Mild (require_active_device c account device r).
Proof. unfold require_active_device. walk idtac. Qed.
End Mild.
#[export] Hint Resolve mild_audit mild_prune mild_session mild_role mild_recent_role mild_recent_session mild_own_session mild_rate_allowed
  mild_rate_failure mild_rate_success mild_failed mild_check_quota mild_issue mild_active_device : mild.
Ltac mild_walk := walk ltac:(first [by eauto with mild | mild]).
(** Go through the sections of a handler. *)
Ltac handler :=
  repeat (cbv zeta; lazymatch goal with
  | |- True => exact I
  | |- every_section _ (Answer _) => exact I
  | |- every_section _ (Locked _ _) => cbn [every_section]
  | |- _ /\ _ => split; [|intros ?]
  | |- every_section _ (finally _) => unfold finally
  | |- every_section _ (before _ _) => unfold before
  | |- every_section _ (guard _ _ _) => unfold guard
  | |- every_section _ (decode_signature _ _ _) => unfold decode_signature
  | |- every_section _ (b64_bounded _ _ _ _ _) => unfold b64_bounded
  | |- every_section _ (match ?x with _ => _ end) => destruct x
  end).
Tactic Notation "plainly" uconstr(section) := try (apply section; by mild_walk).
