(* ===== verification/SessionProvenance.v ===== *)
(** * Every session was earned

    The ways a section can add a session, each with the proof that was checked and spent;
    that every section of every handler adds sessions in no other way; and what follows for
    any interleaving of requests. *)

From S2P Require Import Prelude Errors Sorting Tables Primitives Crypto Policy AccountDb Totp Accounts AccountFactors Memberships WebAuthn AccountService.

#[local] Open Scope tx_scope.

Definition used_challenge (d : ADb) (id : str) : Prop := exists ch, ad_challenges d !! id = Some ch /\ is_Some (ch_used_at ch).
Definition used_handoff (d : ADb) (hash : str) : Prop := exists h, ad_handoffs d !! hash = Some h /\ is_Some (ho_used_at h).
Definition used_code (d : ADb) (hash : str) : Prop := exists r, ad_codes d !! hash = Some r /\ is_Some (rc_used_at r).
Definition step_le (a b : option Z) : Prop := match a, b with Some x, Some y => x <= y | Some _, None => False | None, _ => True end.
(** An authenticator that is enabled before and after keeps its seed, and its last step does not go back. *)
Definition totp_advances (d d' : ADb) : Prop := forall account t t',
  ad_totp d !! account = Some t -> ad_totp d' !! account = Some t' -> tc_enabled t = true -> tc_enabled t' = true ->
  tc_ciphertext t = tc_ciphertext t' /\ step_le (tc_last_used_step t) (tc_last_used_step t').
(** An unused challenge of a kind. *)
Definition open_challenge (d : ADb) (id : str) (kind : string) (ch : Challenge) : Prop :=
  ad_challenges d !! id = Some ch /\ ch_kind ch = lit kind /\ ch_used_at ch = None.

Section Provenance.
Context {HX : Hex} {SH : Sha256} {ED : Ed25519} {CJ : ChallengeJson} {HS : HmacSha1} {B64 : Base64Url} {AG : Aes256Gcm}
  {CB : CborReader} {JC : ClientDataJson} {EC : EcdsaP256}.
Variable cf : Config.

(** The key of the account, or of the active device the challenge names. *)
Definition login_key (d : ADb) (ch : Challenge) (key : bytes) : Prop :=
  (exists a, ad_accounts d !! ch_account ch = Some a /\ key_of (ac_public_key_hex a) "account public key" = Ok key) \/
  (exists dev v, ch_device ch = Some dev /\ active_device d (ch_account ch) dev = Some v /\ key_of (dv_public_key_hex v) "device public key" = Ok key).

(** What a session is opened with: the challenge that was answered, the step of an authenticator, a recovery code, a handoff code. *)
Inductive SessionProof : Type :=
| PSignature (challenge : str) | PPasskey (challenge : str) | PStep (account : str) (step : Z) | PCode (hash : str) | PHandoff (hash : str).

(** How a section that leads from [d] to [d'] may have added the session [s], and with which proof. *)
Inductive earned_by (d d' : ADb) (s : Session) : SessionProof -> Prop :=
| by_signature id ch key signature :
    open_challenge d id "login" ch -> login_key d ch key ->
    (forall dev, ch_device ch = Some dev -> is_Some (active_device d (ch_account ch) dev)) ->
    verify_with_domain key (lit "account_login") (challenge_signing_bytes (ch_account ch) (ch_device ch) None id (ch_nonce_hex ch)) signature = Ok tt ->
    s = session_row (ch_account ch) (ch_device ch) None (lit "device") (s_issued s) (s_issued s + SESSION_TTL_SECONDS) ->
    used_challenge d' id -> earned_by d d' s (PSignature id)
| by_passkey id ch cid w key nonce client_data authenticator_data signature :
    open_challenge d id "webauthn_login" ch -> ad_credentials d !! (ch_account ch, cid) = Some w -> wc_revoked_at w = None ->
    (forall dev, wc_device w = Some dev -> is_Some (active_device d (ch_account ch) dev)) ->
    hex_decode (wc_public_key_hex w) = Ok key -> hex_decode (ch_nonce_hex ch) = Ok nonce ->
    validate_client_data cf client_data (lit "webauthn.get") (b64_encode nonce) = Ok tt ->
    verify_webauthn_signature (wc_algorithm w) key (authenticator_data ++ sha256 client_data) signature = Ok tt ->
    s = session_row (ch_account ch) (wc_device w) (Some cid) (lit "webauthn") (s_issued s) (s_issued s + SESSION_TTL_SECONDS) ->
    used_challenge d' id -> earned_by d d' s (PPasskey id)
| by_totp id ch t secret code step :
    open_challenge d id "totp_login" ch -> active_totp d (ch_account ch) = Some t ->
    decrypt_totp_secret cf (tc_ciphertext t) = Ok secret -> verify_code secret code (s_issued s) (tc_last_used_step t) = Ok step ->
    (exists t', ad_totp d' !! ch_account ch = Some t' /\ tc_last_used_step t' = Some step) ->
    s = session_row (ch_account ch) None None (lit "totp") (s_issued s) (s_issued s + SESSION_TTL_SECONDS) ->
    used_challenge d' id -> earned_by d d' s (PStep (ch_account ch) step)
| by_recovery_code hash r :
    ad_codes d !! hash = Some r -> rc_used_at r = None -> used_code d' hash ->
    s = session_row (rc_account r) None None (lit "recovery") (s_issued s) (s_issued s + RECOVERY_SESSION_TTL_SECONDS) -> earned_by d d' s (PCode hash)
| by_handoff hash h origin o now :
    ad_handoffs d !! hash = Some h -> ho_used_at h = None -> now < ho_expires_at h -> used_handoff d' hash ->
    ho_origin h = Some origin -> ad_sessions d !! origin = Some o -> standing d o now = true ->
    s = session_row (ho_account h) (ho_device h) (s_credential o) (ho_method h) (s_issued o) (s_expires o) -> earned_by d d' s (PHandoff hash).
Definition earned (d d' : ADb) (s : Session) : Prop := exists proof, earned_by d d' s proof.

Record Step (d d' : ADb) : Prop := {
  st_sessions : forall hash s', ad_sessions d' !! hash = Some s' ->
    (exists s, ad_sessions d !! hash = Some s /\ same_grant s s') \/ earned d d' s';
  st_handoffs : forall hash, used_handoff d hash -> used_handoff d' hash;
  st_codes : forall hash, used_code d hash -> used_code d' hash;
  st_totp : totp_advances d d';
}.

(** A step that adds no session. *)
Record Plain (d d' : ADb) : Prop := {
  pl_sessions : forall hash s', ad_sessions d' !! hash = Some s' -> exists s, ad_sessions d !! hash = Some s /\ same_grant s s';
  pl_handoffs : forall hash, used_handoff d hash -> used_handoff d' hash;
  pl_codes : forall hash, used_code d hash -> used_code d' hash;
  pl_totp : totp_advances d d';
}.
Lemma totp_advances_refl d d' : ad_totp d' = ad_totp d -> totp_advances d d'.
Proof. intros E account t t' Ht Ht' _ _. rewrite E, Ht in Ht'. injection Ht' as <-. split; [done|]. destruct (tc_last_used_step t); cbn; [lia|done]. Qed.
Lemma mild_handoff d d' hash : Mild d d' -> used_handoff d hash -> used_handoff d' hash.
Proof. intros [_ H _ _ _] (h & E & Hu). by apply (H hash h). Qed.
Lemma mild_code d d' hash : Mild d d' -> used_code d hash -> used_code d' hash.
Proof. intros [_ _ H _ _] (h & E & Hu). by apply (H hash h). Qed.
Lemma mild_plain d d' : Mild d d' -> Plain d d'.
Proof. intros Hm. split; [apply Hm|intros ?; by apply mild_handoff|intros ?; by apply mild_code|apply totp_advances_refl, Hm]. Qed.
Lemma plain_step d d' : Plain d d' -> Step d d'.
Proof. intros [S H C T]. split; auto. Qed.
Lemma plain_mild d d1 d2 : Plain d d1 -> Mild d1 d2 -> Plain d d2.
Proof.
  intros [S H C T] Hm. split.
  - intros hash s2 (s1 & E1 & G1)%Hm. apply S in E1 as (s & E & G). exists s. split; [done|]. by etrans.
  - intros hash Hu. by eapply mild_handoff, H.
  - intros hash Hu. by eapply mild_code, C.
  - unfold totp_advances. by rewrite (mi_totp _ _ Hm).
Qed.
(** A statement that only changes one authenticator. *)
Lemma plain_insert_totp d d1 f : Plain d d1 -> ad_totp d1 = ad_totp d -> totp_advances d1 (set_totp f d1) -> Plain d (set_totp f d1).
Proof. intros [S H C T] Et HT. unfold totp_advances in *. rewrite Et in HT. split; destruct d1; cbn in *; auto. Qed.
Lemma plain_totp d d1 f : Mild d d1 -> totp_advances d1 (set_totp f d1) -> Plain d (set_totp f d1).
Proof. intros Hm. apply plain_insert_totp; [by apply mild_plain|apply Hm]. Qed.
Lemma plain_policy d d1 f : Mild d d1 -> Plain d (set_policy f d1).
Proof. intros Hm. destruct (mild_plain _ _ Hm) as [S H C T]. split; destruct d1; cbn in *; auto. Qed.

Lemma hoare_moves_bind {A B} (R : ADb -> ADb -> Prop) (I : ADb -> Prop) (m : ATx A) (k : A -> ATx B) d Q :
  moves R m -> (forall d1, R d d1 -> I d1) -> (forall a d1, R d d1 -> hoare I (k a) d1 Q) -> hoare I (tbind m k) d Q.
Proof.
  intros Hm HI Hk. specialize (Hm d). unfold hoare, tbind. destruct (m d) as [[a|e] d1]; cbn in Hm; [by apply Hk|by apply HI].
Qed.
Lemma hoare_moves_from {A B} (R : ADb -> ADb -> Prop) {Rt : Transitive R} (I : ADb -> Prop) (m : ATx A) (k : A -> ATx B) d0 d Q :
  moves R m -> R d0 d -> (forall d1, R d0 d1 -> I d1) -> (forall a d1, R d0 d1 -> hoare I (k a) d1 Q) -> hoare I (tbind m k) d Q.
Proof.
  intros Hm Hd HI Hk. eapply hoare_moves_bind; [exact Hm|intros d1 H1; apply HI; by etrans|intros a d1 H1; apply Hk; by etrans].
Qed.
Lemma plain_rest {A} d0 d (m : ATx A) : Plain d0 d -> moves Mild m -> hoare (Plain d0) m d (fun _ => Plain d0).
Proof. intros Hd Hm. specialize (Hm d). unfold hoare. destruct (m d) as [[a|e] d']; by eapply plain_mild. Qed.
Lemma hoare_update_bind {B} I c l f (k : bool -> ATx B) d Q :
  I d -> (a_fails c l = false -> hoare I (k (f d).1) (f d).2 Q) -> hoare I (tbind (update c l f) k) d Q.
Proof. intros Hd Hk. unfold hoare, tbind, update in *. destruct (a_fails c l); [done|]. specialize (Hk eq_refl). by destruct (f d). Qed.
Lemma hoare_execute_bind {B} I c l f (k : unit -> ATx B) d Q :
  I d -> (forall d', f d = Some d' -> hoare I (k tt) d' Q) -> hoare I (tbind (execute c l f) k) d Q.
Proof.
  intros Hd Hk. unfold execute. eapply (hoare_bind _ _ _ _ (fun _ d' => f d = Some d')); [by apply hoare_execute|]. intros [] d' E. by apply Hk.
Qed.

(** ** The authenticator statements *)

Lemma insert_advances d account t' : (forall t, ad_totp d !! account = Some t -> tc_enabled t = true -> tc_enabled t' = true ->
    tc_ciphertext t = tc_ciphertext t' /\ step_le (tc_last_used_step t) (tc_last_used_step t')) ->
  totp_advances d (set_totp (<[account := t']>) d).
Proof.
  intros Ht. destruct d. cbn in *. intros a u u' Hu Hu' Eu Eu'. cbn in *. destruct (decide (a = account)) as [->|Hne].
  - rewrite lookup_insert_eq in Hu'. injection Hu' as <-. by apply Ht.
  - rewrite lookup_insert_ne in Hu' by done. assert (u = u') as <- by congruence. split; [done|]. destruct (tc_last_used_step u); cbn; [lia|done].
Qed.
Lemma active_totp_row d account t : active_totp d account = Some t -> ad_totp d !! account = Some t /\ tc_enabled t = true /\ tc_revoked_at t = None.
Proof. unfold active_totp. destruct (ad_totp d !! account) as [u|]; [|done]. case_bool_decide as Hu; [|done]. intros [= ->]. tauto. Qed.
Lemma advance_step_ok d account step now : (advance_step account step now d).1 = true ->
  exists t, active_totp d account = Some t /\ (advance_step account step now d).2 = set_totp (<[account := stepped t step now]>) d /\
    spent_step (tc_last_used_step t) step = false.
Proof.
  unfold advance_step. destruct (active_totp d account) as [t|]; [|done]. destruct (spent_step (tc_last_used_step t) step) eqn:Es; [done|]. intros _.
  by exists t.
Qed.
Lemma advances_advance d d1 account step now : Mild d d1 -> Plain d (advance_step account step now d1).2.
Proof.
  intros Hm. destruct (advance_step account step now d1).1 eqn:E1.
  - apply advance_step_ok in E1 as (t & Ht & -> & Hs). apply active_totp_row in Ht as (Ht & _). apply plain_totp; [done|].
    apply insert_advances. intros u Hu _ _. rewrite Ht in Hu. injection Hu as <-. split; [done|]. cbn. unfold spent_step in Hs.
    destruct (tc_last_used_step t); cbn; [lia|done].
  - unfold advance_step in *. destruct (active_totp d1 account); [destruct (negb _); [done|]|]; by apply mild_plain.
Qed.
Lemma advances_confirm d d1 account step now : Mild d d1 -> Plain d (confirm_totp account step now d1).2.
Proof.
  intros Hm. unfold confirm_totp. destruct (ad_totp d1 !! account) as [t|] eqn:Et; [|by apply mild_plain]. case_bool_decide as Hc; [|by apply mild_plain].
  apply plain_totp; [done|]. apply insert_advances. intros u Hu Eu _. destruct Hc as (Hf & _). congruence.
Qed.
Lemma advances_revoke d d1 account now : Mild d d1 -> Plain d (revoke_totp account now d1).2.
Proof.
  intros Hm. unfold revoke_totp. destruct (ad_totp d1 !! account) as [t|]; [|by apply mild_plain]. case_bool_decide; [|by apply mild_plain].
  apply plain_totp; [done|]. by apply insert_advances.
Qed.
Lemma alter_revoked d account now : totp_advances d (set_totp (alter (revoked_totp now) account) d).
Proof.
  destruct d. intros a u u' Hu Hu' Eu Eu'. cbn in *. destruct (decide (a = account)) as [->|Hne].
  - rewrite lookup_alter_eq, Hu in Hu'. by injection Hu' as <-.
  - rewrite lookup_alter_ne in Hu' by done. assert (u = u') as <- by congruence. split; [done|]. destruct (tc_last_used_step u); cbn; [lia|done].
Qed.

(** ** Sections that grant nothing *)

Abbreviation stepping m := (forall d, Step d (m d).2).
Lemma mild_section {A} (m : ATx A) : moves Mild m -> stepping m.
Proof. intros Hm d. apply plain_step, mild_plain, Hm. Qed.
Lemma plain_section {A} (m : ATx A) : (forall d, hoare (Plain d) m d (fun _ => Plain d)) -> stepping m.
Proof. intros Hm d. apply plain_step. exact (hoare_state (Plain d) m d (Hm d)). Qed.
Lemma plain_transaction {A} c l (m : ATx A) : (forall d, hoare (fun _ => True) m d (fun _ => Plain d)) -> stepping (transaction c l m).
Proof.
  intros Hm. apply plain_section. intros d. unfold transaction. apply hoare_read_bind; [apply reads_query|by apply mild_plain|]. intros u _.
  apply hoare_atomically; [by apply mild_plain|apply Hm].
Qed.
#[local] Hint Resolve mild_plain : core.
(** Go past a program that grants nothing, from [d]. *)
Ltac past d := match goal with Hm : Mild d ?d1 |- hoare _ (tbind _ _) ?d1 _ =>
    eapply (hoare_moves_from Mild _ _ _ d); [try by (mild_walk)|exact Hm|try (by auto)|clear Hm; intros ? ? Hm] end.

Abbreviation safe := (every_section (fun X (m : ATx X) => stepping m)).

Lemma safe_totp_enrollment c headers account : safe (post_totp_enrollment cf c headers account).
Proof.
  unfold post_totp_enrollment. handler; plainly mild_section.
  apply plain_section. intros d. assert (Mild d d) as Hm by reflexivity. do 3 past d.
  apply hoare_execute_bind; [by auto|]. intros d' E. destruct (known _ _); [|done]. injection E as <-.
  apply plain_rest; [|mild_walk]. apply plain_totp; [done|]. by apply insert_advances.
Qed.
Lemma safe_totp_enrollment_verify c headers account code : safe (post_totp_enrollment_verify cf c headers account code).
Proof.
  unfold post_totp_enrollment_verify. handler; plainly mild_section.
  apply plain_section. intros d. assert (Mild d d) as Hm by reflexivity. do 6 past d. destruct (verify_code _ _ _ _) as [step|]; [|apply plain_rest; [auto|mild_walk]].
  apply hoare_update_bind; [auto|]. intros _. apply plain_rest; [by apply advances_confirm|mild_walk].
Qed.
Lemma safe_totp_revoke c headers account : safe (post_totp_revoke c headers account).
Proof.
  unfold post_totp_revoke. handler; plainly mild_section.
  apply plain_section. intros d. assert (Mild d d) as Hm by reflexivity. unfold policy_required. do 3 past d.
  apply hoare_update_bind; [auto|]. intros _. apply plain_rest; [by apply advances_revoke|mild_walk].
Qed.
Lemma safe_step_up c headers code : safe (post_step_up cf c headers code).
Proof.
  unfold post_step_up. handler; plainly mild_section.
  apply plain_transaction. intros d. assert (Mild d d) as Hm by reflexivity. unfold step_up. do 6 past d.
  destruct (verify_code _ _ _ _) as [step|]; [|eapply hoare_conseq; [apply plain_rest; [by apply mild_plain|mild_walk]|done|done]].
  apply hoare_update_bind; [done|]. intros _. eapply hoare_conseq; [|done|intros ? ? H; exact H].
  apply plain_rest; [by apply advances_advance|]. unfold apply_session_status, record_proof. mild_walk.
Qed.
Lemma safe_recovery_reset c headers account code : safe (post_recovery_reset cf c headers account code).
Proof.
  unfold post_recovery_reset. handler; plainly mild_section.
  apply plain_transaction. intros d. assert (Mild d d) as Hm by reflexivity. unfold recovery_reset. do 4 past d.
  destruct (negb _); [eapply hoare_conseq; [apply plain_rest; [by apply mild_plain|mild_walk]|done|done]|].
  do 2 (apply hoare_execute_bind; [done|]; intros d' [= <-]). eapply hoare_conseq; [|done|intros ? ? H; exact H].
  apply plain_rest; [|mild_walk]. apply plain_insert_totp; [by apply plain_policy| |apply alter_revoked].
  rewrite <- (mi_totp _ _ Hm). match goal with |- ad_totp (set_policy _ ?x) = _ => by destruct x end.
Qed.

(** ** Sections that grant a session *)

Section Rules.
Context {A B : Type} (I : ADb -> Prop) (k : A -> ATx B) (d : ADb) (Q : B -> ADb -> Prop).
Hypothesis Hd : I d.
Lemma hoare_query_bind c l f : hoare I (k (f d)) d Q -> hoare I (tbind (query c l f) k) d Q.
Proof. intros Hk. unfold query, query_if, hoare, tbind in *. by destruct (a_fails c l). Qed.
Lemma hoare_some_bind r o : (forall a, o = Some a -> hoare I (k a) d Q) -> hoare I (tbind (some_or r o) k) d Q.
Proof. intros Hk. destruct o; [by apply Hk|done]. Qed.
Lemma hoare_invalid_bind r : (forall a, r = Ok a -> hoare I (k a) d Q) -> hoare I (tbind (or_invalid r) k) d Q.
Proof. intros Hk. destruct r; [by apply Hk|done]. Qed.
End Rules.
Lemma hoare_refuse_bind {B} I (k : unit -> ATx B) d Q b r : I d -> (b = false -> hoare I (k tt) d Q) -> hoare I (tbind (refuse_if b r) k) d Q.
Proof. intros Hd Hk. destruct b; [done|by apply Hk]. Qed.
Ltac read := first
  [ apply hoare_query_bind; [by auto|]
  | apply hoare_some_bind; [by auto|intros ? ?]
  | apply hoare_invalid_bind; [by auto|intros ? ?]
  | apply hoare_refuse_bind; [by auto|intros ?] ].

(** What does not matter to [Step]. *)
Definition Quiet (d d' : ADb) : Prop :=
  ad_sessions d' = ad_sessions d /\ ad_handoffs d' = ad_handoffs d /\ ad_codes d' = ad_codes d /\ ad_totp d' = ad_totp d /\ ad_challenges d' = ad_challenges d.
#[global] Instance Quiet_preorder : PreOrder Quiet.
Proof. split; [done|]. unfold Quiet. intros d1 d2 d3. intuition congruence. Qed.
Lemma step_quiet d d1 d2 : Step d d1 -> Quiet d1 d2 -> Step d d2.
Proof.
  intros [S H C T] (E1 & E2 & E3 & E4 & E5). unfold used_handoff, used_code, totp_advances in *.
  split; unfold used_handoff, used_code, totp_advances; rewrite ?E1, ?E2, ?E3, ?E4; [|done..].
  intros hash s' [Ho|He]%S; [by left|]. right. destruct He as [proof He]. exists proof. destruct He.
  - eapply by_signature; eauto; unfold used_challenge in *; by rewrite E5.
  - eapply by_passkey; eauto; unfold used_challenge in *; by rewrite E5.
  - eapply by_totp; eauto; unfold used_challenge in *; rewrite ?E4, ?E5; eauto.
  - eapply by_recovery_code; eauto; unfold used_code in *; by rewrite E3.
  - eapply by_handoff; eauto; unfold used_handoff in *; by rewrite E2.
Qed.
Ltac quietly := lazymatch goal with |- Quiet ?d _ => destruct d; done end.
Lemma quiet_audit c account event details : moves Quiet (audit_event c account event details).
Proof. unfold audit_event. walk idtac. destruct (known _ _); [|done]. intros [= <-]. quietly. Qed.
Lemma quiet_failure c key : moves Quiet (auth_rate_failure_with_db c key).
Proof.
  unfold auth_rate_failure_with_db, auth_rate_lockout_alert, account_exists. walk ltac:(first [apply quiet_audit | intros [= <-]; quietly]).
Qed.
Lemma quiet_failed c {A} key r : moves Quiet (failed_attempt (A := A) c key r).
Proof. unfold failed_attempt. walk ltac:(apply quiet_failure). Qed.
Lemma step_rest {A} d0 d (m : ATx A) : Step d0 d -> moves Quiet m -> hoare (Step d0) m d (fun _ => Step d0).
Proof. intros Hd Hm. specialize (Hm d). unfold hoare. destruct (m d) as [[a|e] d']; by eapply step_quiet. Qed.
Lemma step_refl d : Step d d.
Proof. apply plain_step, mild_plain. reflexivity. Qed.
#[local] Hint Resolve step_refl : core.

Lemma hoare_stop {A B} I (m : ATx A) (k : A -> ATx B) d Q : hoare I m d (fun _ _ => False) -> hoare I (tbind m k) d Q.
Proof. unfold hoare, tbind. by destruct (m d) as [[a|e] d']. Qed.
Lemma failed_stops c {A} key r d0 d : Step d0 d -> hoare (Step d0) (failed_attempt (A := A) c key r) d (fun _ _ => False).
Proof.
  intros Hd. unfold failed_attempt, hoare, tbind. pose proof (quiet_failure (under "failure" c) key d) as Hq.
  destruct (auth_rate_failure_with_db _ _ d) as [[a|e] d']; by eapply step_quiet.
Qed.

(** The one new session of a section. *)
Lemma granted d d' hash s :
  ad_sessions d' = <[hash := s]> (ad_sessions d) -> earned d d' s ->
  (forall i, used_handoff d i -> used_handoff d' i) -> (forall i, used_code d i -> used_code d' i) -> totp_advances d d' -> Step d d'.
Proof.
  intros Es He Hh Hc Ht. split; [|done..]. intros i s'. rewrite Es. destruct (decide (i = hash)) as [->|Hne].
  - rewrite lookup_insert_eq. intros [= <-]. by right.
  - rewrite lookup_insert_ne by done. intros Hi. left. by exists s'.
Qed.
Lemma insert_session_ok hash s d d' : insert_session hash s d = Some d' -> d' = set_sessions (<[hash := s]>) d.
Proof. unfold insert_session. destruct (_ && _); [|done]. by intros [= <-]. Qed.
Lemma challenge_row_ok d id kind account ch : challenge_row d id kind account = Some ch ->
  ad_challenges d !! id = Some ch /\ ch_kind ch = kind /\ forall a, account = Some a -> ch_account ch = a.
Proof.
  unfold challenge_row. destruct (ad_challenges d !! id) as [x|]; [|done]. case_bool_decide as Hk; [|done]. destruct account as [a|]; cbn.
  - case_bool_decide as Ha; [|done]. intros [= ->]. split; [done|]. split; [done|]. by intros ? [= <-].
  - by intros [= ->].
Qed.
Lemma unused_row (u : option Z) b : b || bool_decide (is_Some u) = false -> u = None.
Proof. intros (_ & H)%orb_false_iff. apply bool_decide_eq_false in H. destruct u; [|done]. by destruct H. Qed.

Lemma device_proof_ok c account device message signature d dp d' :
  device_proof c account device message signature d = (Ok dp, d') ->
  d' = d /\ (forall dev, device = Some dev -> is_Some (active_device d account dev)) /\
  (dp = true -> exists dev v key, device = Some dev /\ active_device d account dev = Some v /\ key_of (dv_public_key_hex v) "device public key" = Ok key /\
     verify_with_domain key (lit "account_login") message signature = Ok tt).
Proof.
  unfold device_proof. destruct device as [dev|]; [|by intros [= <- <-]].
  intros (found & d1 & (_ & -> & ->)%query_if_ok & H)%tbind_ok. apply tbind_ok in H as (v & d2 & H2 & H).
  destruct (active_device d account dev) as [v'|] eqn:Ev; [|done]. injection H2 as <- <-. apply tret_ok in H as ([= <-] & ->).
  split; [done|]. split; [intros ? [= <-]; rewrite Ev; eauto|]. destruct (key_of _ _) as [key|] eqn:Ek; [|done].
  destruct (verify_with_domain _ _ _ _) as [[]|] eqn:Ex; [|done]. intros _. exists dev, v', key. eauto.
Qed.
Lemma is_ok_unit {E} (r : result E unit) : is_ok r = true -> r = Ok tt.
Proof. destruct r as [[]|]; done. Qed.

Lemma hoare_exact {A} (m : ATx A) d : hoare (fun _ => True) m d (fun a d1 => m d = (Ok a, d1)).
Proof. unfold hoare. by destruct (m d) as [[]]. Qed.

Lemma safe_login c id signature_hex : safe (post_login c id signature_hex).
Proof.
  unfold post_login. handler. rename a into signature. intros d. apply (hoare_state (Step d)). unfold transaction.
  apply hoare_read_bind; [apply reads_query|done|]. intros u _. apply hoare_atomically; [done|]. clear u.
  do 2 read. destruct a as [ch account]. do 2 read. rename a into account_key. cbv zeta.
  eapply hoare_bind; [apply hoare_exact|].
  intros dp d1 (-> & Hdev & Hdp)%device_proof_ok. read.
  eapply hoare_execute_bind; [done|]. intros d1 ->%insert_session_ok.
  eapply (hoare_moves_bind Quiet); [apply quiet_audit|done|]. intros u d2 Hq. clear u.
  apply hoare_execute_bind; [done|]. intros d3 [= <-]. eapply hoare_conseq; [|done|intros ? ? Hst; exact Hst].
  apply step_rest; [|unfold policy_required; walk idtac].
  destruct (challenge_row d id (lit "login") None) as [ch'|] eqn:Ech; [|done]. destruct (ad_accounts d !! ch_account ch') as [a|] eqn:Ea; [|done].
  injection H as -> ->. apply challenge_row_ok in Ech as (Ech & Ek & _). apply unused_row in H0.
  assert (open_challenge d id "login" ch) as Hopen by done.
  destruct Hq as (Es & Eh & Ec & Et & Ex). set (d3 := set_challenges _ _).
  assert (used_challenge d3 id) as Hused.
  { exists (use_challenge (a_now c "login") ch). split; [|cbn; eauto]. subst d3. clear -Ex Ech. destruct d, d2. cbn in *. subst. by rewrite lookup_alter_eq, Ech. }
  eapply (granted d d3).
  - subst d3. clear -Es. destruct d, d2. cbn in *. exact Es.
  - apply negb_false_iff, orb_true_iff in H2 as [Hroot%is_ok_unit|(dev & v & key & E1 & E2 & E3 & E4)%Hdp].
    + eexists; eapply (by_signature _ _ _ id ch account_key signature); eauto. left. eauto.
    + eexists; eapply (by_signature _ _ _ id ch key signature); eauto. right. eauto 6.
  - intros h (x & E & Hu). exists x. subst d3. clear -E Hu Eh. destruct d, d2. cbn in *. by subst.
  - intros h (x & E & Hu). exists x. subst d3. clear -E Hu Ec. destruct d, d2. cbn in *. by subst.
  - apply totp_advances_refl. subst d3. clear -Et. by destruct d, d2.
Qed.

Lemma consume_handoff_ok hash now d : (consume_handoff hash now d).1 = true -> exists h, ad_handoffs d !! hash = Some h /\
  (consume_handoff hash now d).2 = set_handoffs (<[hash := use_handoff now h]>) d.
Proof. unfold consume_handoff. destruct (ad_handoffs d !! hash) as [h|]; [|done]. case_bool_decide; [|done]. eauto. Qed.
Lemma mild_consume_handoff hash now d : Mild d (consume_handoff hash now d).2.
Proof.
  unfold consume_handoff. destruct (ad_handoffs d !! hash) as [h|]; [|reflexivity]. case_bool_decide; [|reflexivity].
  apply mild_handoffs. intros i x E Hu. destruct (decide (i = hash)) as [->|Hne]; [rewrite lookup_insert_eq|rewrite lookup_insert_ne by done]; cbn; eauto.
Qed.
Lemma safe_handoff_consume c code : safe (post_session_handoff_consume c code).
Proof.
  unfold post_session_handoff_consume. handler. intros d. apply (hoare_state (Step d)). do 2 read. destruct a as [h o]. read.
  apply hoare_update_bind; [done|]. intros _. set (d1 := snd _). assert (Mild d d1) as Hm by apply mild_consume_handoff.
  apply hoare_refuse_bind; [by apply plain_step, mild_plain|]. intros Hc%negb_false_iff. apply consume_handoff_ok in Hc as (h' & Eh' & Ed1).
  apply hoare_execute_bind; [by apply plain_step, mild_plain|]. intros d2 ->%insert_session_ok.
  apply step_rest; [|unfold policy_required; walk ltac:(apply quiet_audit)].
  unfold handoff_row in H. destruct (ad_handoffs d !! _) as [x|] eqn:Ex; [|done]. destruct (ho_origin x ≫= _) as [o'|] eqn:Eo; [|done].
  destruct (standing d o' _) eqn:Est; [|done]. injection H as -> ->. injection Eh' as <-. apply bind_Some in Eo as (origin & Eo & Eso).
  pose proof (unused_row _ _ H0) as Hu. apply orb_false_iff in H0 as (Hexp & _). apply Z.leb_gt in Hexp.
  fold d1 in Ed1. rewrite Ed1. clear d1 Hm Ed1. eapply (granted d).
  - by destruct d.
  - eexists; eapply (by_handoff _ _ _ _ h origin o (a_now c "consume")); eauto. exists (use_handoff (a_now c "consume") h). split; [|cbn; eauto].
    destruct d. cbn in *. by rewrite lookup_insert_eq.
  - intros i (y & Ey & Hy). exists y. split; [|done]. destruct d. cbn in *. rewrite lookup_insert_ne; [done|]. intros <-. rewrite Ex in Ey. injection Ey as <-. rewrite Hu in Hy. by destruct Hy.
  - intros i (y & Ey & Hy). exists y. by destruct d.
  - apply totp_advances_refl. by destruct d.
Qed.

Lemma unused_code_ok d account hash : unused_code d account hash = true -> exists r, ad_codes d !! hash = Some r /\ rc_account r = account /\ rc_used_at r = None.
Proof. unfold unused_code. destruct (ad_codes d !! hash) as [r|]; [|done]. case_bool_decide as H; [|done]. intros _. exists r. tauto. Qed.
Lemma safe_recovery_redeem c headers account code : safe (post_recovery_redeem cf c headers account code).
Proof.
  unfold post_recovery_redeem. handler; plainly mild_section. intros d. apply (hoare_state (Step d)).
  unfold or_false. eapply (hoare_bind _ _ _ _ (fun b d' => d' = d /\ (b = true -> unused_code d a (hash_token (trim code)) = true))).
  { unfold hoare, tcatch, query, query_if. by destruct (a_fails c "code"). }
  intros valid d' (-> & Hv). destruct valid; [|apply hoare_stop; by apply (failed_stops c)].
  specialize (Hv eq_refl). pose proof (unused_code_ok _ _ _ Hv) as (r & Er & Ea & Hu). apply hoare_done_bind.
  apply hoare_update_bind; [done|]. intros _. assert (Mild d (spend_code a (hash_token (trim code)) (a_now c "redeem") d).2) as Hm by apply mild_spend_code.
  revert Hm. unfold spend_code. rewrite Hv. cbn [fst snd]. intros Hm.
  apply hoare_execute_bind; [by apply plain_step, mild_plain|]. intros d2 ->%insert_session_ok.
  apply step_rest; [|unfold policy_required; walk ltac:(apply quiet_audit)]. eapply (granted d).
  - by destruct d.
  - subst a. eexists; eapply (by_recovery_code _ _ _ _ r); eauto. exists (use_code (a_now c "redeem") r). split; [|cbn; eauto].
    destruct d. cbn in *. by rewrite lookup_alter_eq, Er.
  - intros i (y & Ey & Hy). exists y. by destruct d.
  - intros i (y & Ey & Hy). exists y. split; [|done]. destruct d. cbn in *. rewrite lookup_alter_ne; [done|]. intros <-. rewrite Er in Ey. injection Ey as <-. rewrite Hu in Hy. by destruct Hy.
  - apply totp_advances_refl. by destruct d.
Qed.

Lemma consume_challenge_ok id now d : (consume_challenge id now d).1 = true -> exists ch, ad_challenges d !! id = Some ch /\
  (consume_challenge id now d).2 = set_challenges (fun m => <[id := use_challenge now ch]> m) d.
Proof.
  unfold consume_challenge, consume. destruct (ad_challenges d !! id) as [ch|] eqn:E; [|done]. case_bool_decide; [|done]. intros _. exists ch.
  split; [done|]. by destruct d.
Qed.
Lemma mild_consume_challenge id now d : Mild d (consume_challenge id now d).2.
Proof. unfold consume_challenge. destruct (consume _ _ _ _). elsewhere. Qed.
Lemma safe_totp_verify c headers account id code : safe (post_totp_authentication_verify cf c headers account id code).
Proof.
  unfold post_totp_authentication_verify. handler; plainly mild_section; [|unfold policy_required; plainly mild_section]. intros d. apply (hoare_state (Step d)).
  unfold totp_login. read. destruct (challenge_row _ _ _ _) as [ch|] eqn:Ech; [|eapply hoare_conseq; [by apply failed_stops|done|done]].
  destruct (_ || _) eqn:Hopen; [eapply hoare_conseq; [by apply failed_stops|done|done]|]. apply unused_row in Hopen.
  apply challenge_row_ok in Ech as (Ech & Ek & Ea). specialize (Ea _ eq_refl).
  read. destruct (active_totp d a) as [t|] eqn:Et; [|eapply hoare_conseq; [by apply failed_stops|done|done]]. read. rename a0 into secret.
  destruct (verify_code _ _ _ _) as [step|] eqn:Ev; [|eapply hoare_conseq; [by apply failed_stops|done|done]].
  apply hoare_update_bind; [done|]. intros _. assert (Plain d (advance_step a step (a_now c "login") d).2) as Hp by by apply advances_advance.
  destruct (advance_step a step _ d).1 eqn:E1; [|apply hoare_stop; apply failed_stops; by apply plain_step]. apply hoare_done_bind.
  apply advance_step_ok in E1 as (t' & Et' & E1 & Hs). rewrite Et in Et'. injection Et' as <-. rewrite E1 in Hp |- *. clear E1.
  set (d1 := set_totp _ d) in *. apply hoare_update_bind; [by apply plain_step|]. intros _.
  assert (Plain d (consume_challenge id (a_now c "login") d1).2) as Hp2 by (eapply plain_mild; [done|apply mild_consume_challenge]).
  destruct (consume_challenge _ _ d1).1 eqn:E2; [|apply hoare_stop; apply failed_stops; by apply plain_step]. apply hoare_done_bind.
  apply consume_challenge_ok in E2 as (ch' & Ech' & E2). rewrite E2 in Hp2 |- *. clear E2.
  apply hoare_execute_bind; [by apply plain_step|]. intros d2 ->%insert_session_ok. apply step_rest; [|apply quiet_audit].
  assert (ch' = ch) as -> by (subst d1; destruct d; cbn in *; congruence).
  assert (totp_advances d d1) as HT by (destruct Hp as [_ _ _ HT]; exact HT). eapply (granted d).
  - subst d1. by destruct d.
  - subst a. eexists; eapply (by_totp _ _ _ id ch t secret code step); eauto.
    + done.
    + exists (stepped t step (a_now c "login")). split; [|done]. subst d1. destruct d. cbn. by rewrite lookup_insert_eq.
    + exists (use_challenge (a_now c "login") ch). split; [|cbn; eauto]. subst d1. destruct d. cbn. by rewrite lookup_insert_eq.
  - intros i (y & Ey & Hy). exists y. subst d1. by destruct d.
  - intros i (y & Ey & Hy). exists y. subst d1. by destruct d.
  - subst d1. by destruct d.
Qed.

Lemma active_device_bind {B} c I account device r (k : unit -> ATx B) d Q : I d ->
  ((forall dev, device = Some dev -> is_Some (active_device d account dev)) -> hoare I (k tt) d Q) ->
  hoare I (tbind (require_active_device c account device r) k) d Q.
Proof.
  intros Hd Hk. unfold require_active_device. destruct device as [dev|]; [|by apply Hk].
  unfold hoare, or_false, tbind, tcatch, query, query_if, refuse_if, tret in *. destruct (a_fails c _); [done|].
  case_bool_decide as Ha; [|done]. apply Hk. by intros ? [= <-].
Qed.
Lemma mild_count d count now key : Mild d (set_credentials (alter (count_use count now) key) d).
Proof. elsewhere. Qed.
Lemma safe_webauthn_verify c id cid_b64 client_b64 auth_b64 sig_b64 :
  safe (post_webauthn_authentication_verify cf c id cid_b64 client_b64 auth_b64 sig_b64).
Proof.
  unfold post_webauthn_authentication_verify. handler. intros d. apply (hoare_state (Step d)). unfold webauthn_login.
  read. read. rename a4 into ch. apply challenge_row_ok in H as (Ech & Ek & _). read. apply unused_row in H.
  unfold expected_challenge. destruct (hex_decode (ch_nonce_hex ch)) as [nonce|] eqn:En; [|exact (step_refl d)]. apply hoare_done_bind.
  read. destruct a4. read. read. rename a4 into w. read. apply active_device_bind; [done|]. intros Hdev.
  destruct (hex_decode (wc_public_key_hex w)) as [key|] eqn:Ekey; [|exact (step_refl d)]. read. destruct a4. read.
  apply hoare_execute_bind; [done|]. intros d1 [= <-]. set (d1 := set_credentials _ d). assert (Mild d d1) as Hm1 by apply mild_count.
  apply hoare_update_bind; [by apply plain_step, mild_plain|]. intros _.
  assert (Mild d (consume_challenge id (a_now c "login") d1).2) as Hm2 by (etrans; [exact Hm1|apply mild_consume_challenge]).
  apply hoare_refuse_bind; [by apply plain_step, mild_plain|]. intros E2%negb_false_iff.
  apply consume_challenge_ok in E2 as (ch' & Ech' & E2). rewrite E2 in Hm2 |- *. clear E2.
  apply hoare_execute_bind; [by apply plain_step, mild_plain|]. intros d2 ->%insert_session_ok.
  apply step_rest; [|unfold policy_required; walk ltac:(apply quiet_audit)].
  assert (ch' = ch) as -> by (subst d1; destruct d; cbn in *; congruence).
  assert (wc_revoked_at w = None) as Hw by (apply bool_decide_eq_false in H2; destruct (wc_revoked_at w); [by destruct H2; eauto|done]).
  eapply (granted d).
  - subst d1. by destruct d.
  - eexists; eapply (by_passkey _ _ _ id ch (hex_encode a) w key nonce a0 a1 a2); eauto; [done|].
    exists (use_challenge (a_now c "login") ch). split; [|cbn; eauto]. subst d1. destruct d. cbn. by rewrite lookup_insert_eq.
  - intros i (y & Ey & Hy). exists y. subst d1. by destruct d.
  - intros i (y & Ey & Hy). exists y. subst d1. by destruct d.
  - apply totp_advances_refl. subst d1. by destruct d.
Qed.

(** ** Every request *)

Lemma safe_policy c headers account required : safe (patch_policy c headers account required).
Proof.
  unfold patch_policy. handler. apply plain_transaction. intros d. assert (Mild d d) as Hm by reflexivity. unfold change_policy. do 4 past d.
  apply hoare_execute_bind; [done|]. intros d' E. destruct (known _ _); [|done]. injection E as <-. eapply hoare_conseq; [|done|intros ? ? H; exact H].
  apply plain_rest; [by apply plain_policy|mild_walk].
Qed.
Lemma mild_enroll_account c headers account : moves Mild (enrollment_by_account c headers account).
Proof. unfold enrollment_by_account, policy_required. mild_walk. Qed.
Lemma mild_enroll_recovery c headers account key message signature : moves Mild (enrollment_by_recovery c headers account key message signature).
Proof. unfold enrollment_by_recovery. mild_walk. Qed.
Lemma mild_issue_code c account now i : moves Mild (issue_code c account now i).
Proof.
  unfold issue_code. walk idtac. destruct (known _ _); [|done]. cbn [andb]. case_bool_decide as Hn; [|done]. intros [= <-]. apply mild_codes.
  intros h r E Hu. exists r. split; [|done]. rewrite lookup_insert_ne; [done|]. intros <-. congruence.
Qed.
Lemma mild_join id now d d' : join id now d = Some d' -> Mild d d'.
Proof. unfold join. destruct (ad_invitations d !! id); intros [= <-]; [elsewhere|reflexivity]. Qed.
Lemma mild_spend_invitation id now d : Mild d (spend_invitation id now d).2.
Proof. unfold spend_invitation. destruct (ad_invitations d !! id); [|reflexivity]. case_bool_decide; [elsewhere|reflexivity]. Qed.
Lemma mild_insert_invitation id i d d' : insert_invitation id i d = Some d' -> Mild d d'.
Proof. unfold insert_invitation. destruct (_ && _ && _ && _); [|done]. intros [= <-]. elsewhere. Qed.
Lemma mild_end_membership account member now d : Mild d (end_membership account member now d).2.
Proof. unfold end_membership. destruct (ad_memberships d !! _); [|reflexivity]. case_bool_decide; [elsewhere|reflexivity]. Qed.
Lemma mild_end_credential account id now d : Mild d (end_credential account id now d).2.
Proof. unfold end_credential. destruct (ad_credentials d !! _); [|reflexivity]. case_bool_decide; [elsewhere|reflexivity]. Qed.
Lemma mild_insert_credential account id w d d' : insert_credential account id w d = Some d' -> Mild d d'.
Proof. unfold insert_credential. destruct (_ && _); [|done]. intros [= <-]. elsewhere. Qed.
End Provenance.
#[export] Hint Resolve mild_enroll_account mild_enroll_recovery mild_issue_code mild_join mild_spend_invitation
  mild_insert_invitation mild_end_membership mild_end_credential mild_insert_credential mild_consume_challenge : mild.

Section History.
Context {HX : Hex} {SH : Sha256} {ED : Ed25519} {CJ : ChallengeJson} {HS : HmacSha1} {B64 : Base64Url} {AG : Aes256Gcm}
  {CB : CborReader} {JC : ClientDataJson} {EC : EcdsaP256}.
Variable cf : Config.

Lemma route_steps c r : every_section (fun X (m : ATx X) => forall d, Step cf d (m d).2) (route cf c r).
Proof.
  destruct r; cbn [route];
    lazymatch goal with
    | |- every_section _ (post_login _ _ _) => apply safe_login
    | |- every_section _ (post_session_handoff_consume _ _) => apply safe_handoff_consume
    | |- every_section _ (post_recovery_redeem _ _ _ _ _) => apply safe_recovery_redeem
    | |- every_section _ (post_totp_enrollment _ _ _ _) => apply safe_totp_enrollment
    | |- every_section _ (post_totp_enrollment_verify _ _ _ _ _) => apply safe_totp_enrollment_verify
    | |- every_section _ (post_totp_revoke _ _ _) => apply safe_totp_revoke
    | |- every_section _ (post_totp_authentication_verify _ _ _ _ _ _) => apply safe_totp_verify
    | |- every_section _ (post_step_up _ _ _ _) => apply safe_step_up
    | |- every_section _ (post_recovery_reset _ _ _ _ _) => apply safe_recovery_reset
    | |- every_section _ (post_webauthn_authentication_verify _ _ _ _ _ _ _) => apply safe_webauthn_verify
    | |- every_section _ (patch_policy _ _ _ _) => apply safe_policy
    | _ => idtac
    end.
  all: unfold post_account, get_account, post_login_challenge, get_session, post_session_revoke, post_session_handoff, post_device_challenge,
    post_device_enrollment, post_device_revoke, post_vault_link, post_recovery_codes, post_totp_authentication_options, get_policy,
    post_invitation, get_invitations, post_invitation_accept, get_memberships, post_membership_revoke, post_webauthn_revoke,
    post_webauthn_registration_options, post_webauthn_registration_verify, post_webauthn_authentication_options, account_exists, policy_required, expected_challenge.
  all: handler; plainly (mild_section cf).
Qed.

Abbreviation tables_after := (fun events d => tables (serve cf events d)).
Lemma event_step events e d : Step cf (tables_after events d) (tables_after (events ++ [e]) d).
Proof. apply (serve_step cf (Step cf) (fun _ => True)); [apply step_refl|intros; apply route_steps|done]. Qed.

(** C9: however requests are interleaved and whichever statements fail: a session was there at
    the start, or one event of the run added it, at which a signature of the account's key or
    of an active device's key over an unused challenge, an assertion of an active passkey over
    an unused challenge, a fresh code of the enabled authenticator, an unused recovery code, or
    an unused handoff of a session that still stood was checked, and which used it up.  Only
    the end of a session changes later. *)
Theorem sessions_earned events d hash s :
  ad_sessions (tables_after events d) !! hash = Some s ->
  (exists s0, ad_sessions d !! hash = Some s0 /\ same_grant s0 s) \/
  (exists before e after s0, events = before ++ e :: after /\ earned cf (tables_after before d) (tables_after (before ++ [e]) d) s0 /\ same_grant s0 s).
Proof.
  revert s; induction events as [|e events IH] using rev_ind; intros s Hs; [left; by exists s|].
  destruct (st_sessions _ _ _ (event_step events e d) hash s Hs) as [(s1 & Hs1 & Hg)|He].
  - destruct (IH s1 Hs1) as [(s0 & H0 & Hg0)|(before & e' & after & s0 & -> & He & Hg0)]; [left; exists s0; split; [done|by etrans]|].
    right. exists before, e', (after ++ [e]), s0. split; [by rewrite <- app_assoc|]. split; [done|by etrans].
  - right. by exists events, e, [], s.
Qed.

Lemma chain_steps (P : ADb -> Prop) events more d : (forall d d', Step cf d d' -> P d -> P d') ->
  P (tables_after events d) -> P (tables_after (events ++ more) d).
Proof.
  intros HP H0. induction more as [|e more IH] using rev_ind; [by rewrite app_nil_r|]. rewrite app_assoc. eapply HP; [apply event_step|done].
Qed.
Lemma step_le_trans a b c : step_le a b -> step_le b c -> step_le a c.
Proof. destruct a, b, c; cbn; lia || done. Qed.

Lemma added_earned events e d hash s : ad_sessions (tables_after events d) !! hash = None ->
  ad_sessions (tables_after (events ++ [e]) d) !! hash = Some s ->
  exists proof, earned_by cf (tables_after events d) (tables_after (events ++ [e]) d) s proof.
Proof. intros Hn Hs. destruct (st_sessions _ _ _ (event_step events e d) hash s Hs) as [(s0 & H0 & _)|He]; [by rewrite Hn in H0|done]. Qed.

(** The authenticator of the account is enabled throughout [more]. *)
Definition stays_enabled (events more : list Event) (d : ADb) (account : str) : Prop := forall pre post, more = pre ++ post ->
  exists t, ad_totp (tables_after (events ++ pre) d) !! account = Some t /\ tc_enabled t = true.
Lemma steps_advance events more d account t : stays_enabled events more d account -> ad_totp (tables_after events d) !! account = Some t ->
  exists t', ad_totp (tables_after (events ++ more) d) !! account = Some t' /\ tc_ciphertext t = tc_ciphertext t' /\
    step_le (tc_last_used_step t) (tc_last_used_step t').
Proof.
  intros Hon Ht. induction more as [|e more IH] using rev_ind.
  - rewrite app_nil_r. exists t. split; [done|]. split; [done|]. destruct (tc_last_used_step t); cbn; [lia|done].
  - destruct IH as (t1 & Ht1 & Ec & Es); [intros pre post ->; apply (Hon pre (post ++ [e])); by rewrite app_assoc|].
    destruct (Hon (more ++ [e]) [] ltac:(by rewrite app_nil_r)) as (t2 & Ht2 & Hen2). destruct (Hon more [e] eq_refl) as (t1' & Ht1' & Hen1).
    assert (t1' = t1) as -> by congruence. rewrite app_assoc in Ht2 |- *.
    destruct (st_totp _ _ _ (event_step (events ++ more) e d) account t1 t2 Ht1 Ht2 Hen1 Hen2) as (Ec2 & Es2).
    exists t2. split; [done|]. split; [congruence|by eapply step_le_trans].
Qed.

(** One proof after the other: neither a code nor a handoff again, and a later step of the same authenticator. *)
Definition fresh_after (first second : SessionProof) (enabled : str -> Prop) : Prop :=
  match first, second with
  | PCode a, PCode b => a <> b
  | PHandoff a, PHandoff b => a <> b
  | PStep account a, PStep account' b => account' = account -> enabled account -> a < b
  | _, _ => True
  end.

(** C26: however requests are interleaved: of two sessions that are opened one after the other, each
    was opened with a proof that was checked, and the second with another recovery code or handoff
    code than the first; with a code of the same authenticator, only with that of a later
    step, as long as the authenticator stayed enabled in between. *)
Theorem proofs_open_once before e between e' d hash s hash' s' :
  let d0 := tables_after before d in
  let d1 := tables_after (before ++ [e]) d in
  let d2 := tables_after ((before ++ [e]) ++ between) d in
  let d3 := tables_after (((before ++ [e]) ++ between) ++ [e']) d in
  ad_sessions d0 !! hash = None -> ad_sessions d1 !! hash = Some s ->
  ad_sessions d2 !! hash' = None -> ad_sessions d3 !! hash' = Some s' ->
  exists proof proof', earned_by cf d0 d1 s proof /\ earned_by cf d2 d3 s' proof' /\
    fresh_after proof proof' (stays_enabled (before ++ [e]) between d).
Proof.
  intros d0 d1 d2 d3 Hn Hs Hn' Hs'. destruct (added_earned _ _ _ _ _ Hn Hs) as (proof & He). destruct (added_earned _ _ _ _ _ Hn' Hs') as (proof' & He').
  exists proof, proof'. split; [done|]. split; [done|]. fold d0 d1 in He. fold d2 d3 in He'.
  assert (forall code, used_code d1 code -> used_code d2 code) as Hcodes
    by (intros code; apply (chain_steps (fun d => used_code d code)); intros ? ? HS1; apply (st_codes _ _ _ HS1)).
  assert (forall code, used_handoff d1 code -> used_handoff d2 code) as Hhandoffs
    by (intros code; apply (chain_steps (fun d => used_handoff d code)); intros ? ? HS1; apply (st_handoffs _ _ _ HS1)).
  unfold fresh_after. destruct He as [| |id ch t secret code step Hopen Hact Hdec Hver (t1 & Ht1 & Hst1)|code r Hr Hu Hused|code h origin o now Hh Hu Hexp Hused];
    destruct He' as [| |id2 ch2 t2 secret2 code2 step2 Hopen2 Hact2 Hdec2 Hver2 _|code2 r2 Hr2 Hu2 _|code2 h2 origin2 o2 now2 Hh2 Hu2 _]; try done.
  - intros Eacc Hen. destruct (steps_advance _ _ _ _ _ Hen Ht1) as (t' & Ht' & _ & Hle). fold d2 in Ht'. unfold active_totp in Hact2. rewrite Eacc, Ht' in Hact2.
    case_bool_decide; [|done]. injection Hact2 as ->. rewrite Hst1 in Hle. destruct (tc_last_used_step t2) as [l|] eqn:El; [|done]. cbn in Hle.
    pose proof (verify_code_later _ _ _ _ _ Hver2). lia.
  - intros <-. destruct (Hcodes _ Hused) as (x & Hx & Hux). rewrite Hr2 in Hx. injection Hx as <-. rewrite Hu2 in Hux. by destruct Hux.
  - intros <-. destruct (Hhandoffs _ Hused) as (x & Hx & Hux). rewrite Hh2 in Hx. injection Hx as <-. rewrite Hu2 in Hux. by destruct Hux.
Qed.
End History.
