(* ===== verification/FactorPolicy.v ===== *)
(** * An account that requires a second factor has one

    The invariant that relates the policy of an account (mfa.rs) to its authenticator
    (totp.rs), for every interleaving of requests. *)

From S2P Require Import Prelude Errors Sorting Tables Primitives Crypto Policy AccountDb Totp Accounts AccountFactors Memberships WebAuthn AccountService SessionProvenance.

#[local] Open Scope tx_scope.

Definition requires_mfa (d : ADb) (account : str) : bool := match ad_policy d !! account with Some (required, _) => required | None => false end.
Definition protected (d : ADb) : Prop := forall account, requires_mfa d account = true -> is_Some (active_totp d account).
Definition Guarded (d d' : ADb) : Prop := protected d -> protected d'.
#[global] Instance Guarded_preorder : PreOrder Guarded.
Proof. unfold Guarded. split; [by intros d|]. intros d1 d2 d3. auto. Qed.

Lemma guarded_same d d' : ad_policy d' = ad_policy d -> ad_totp d' = ad_totp d -> Guarded d d'.
Proof. intros Ep Et Hd account. unfold requires_mfa, active_totp in *. rewrite Ep, Et. apply Hd. Qed.
Lemma mild_guarded d d' : Mild d d' -> Guarded d d'.
Proof. intros Hm. apply guarded_same; apply Hm. Qed.
Lemma moves_mono {A} (R R' : ADb -> ADb -> Prop) (m : ATx A) : (forall d d', R d d' -> R' d d') -> moves R m -> moves R' m.
Proof. intros HR Hm d. apply HR, Hm. Qed.
Lemma moves_guarded {A} (m : ATx A) : moves Mild m -> moves Guarded m.
Proof. apply moves_mono, mild_guarded. Qed.

(** A new row of an authenticator is harmless when it is active, or when the account does not
    require it. *)
Lemma guarded_totp d account t : (tc_enabled t = true /\ tc_revoked_at t = None) \/ requires_mfa d account = false ->
  Guarded d (set_totp (<[account := t]>) d).
Proof.
  intros Ht Hd a Ha. unfold active_totp. assert (requires_mfa d a = true) as Ha' by (by destruct d). specialize (Hd a Ha').
  destruct d. cbn in *. destruct (decide (a = account)) as [->|Hne].
  - rewrite lookup_insert_eq. destruct Ht as [Ht|Ht]; [|congruence]. rewrite bool_decide_eq_true_2 by tauto. eauto.
  - rewrite lookup_insert_ne by done. exact Hd.
Qed.
Lemma guarded_confirm account step now d : Guarded d (confirm_totp account step now d).2.
Proof.
  unfold confirm_totp. destruct (ad_totp d !! account) as [t|]; [|reflexivity]. case_bool_decide as Hc; [|reflexivity].
  apply guarded_totp. left. cbn. tauto.
Qed.
Lemma guarded_advance account step now d : Guarded d (advance_step account step now d).2.
Proof.
  unfold advance_step. destruct (active_totp d account) as [t|] eqn:Et; [|reflexivity]. destruct (negb _); [|reflexivity].
  apply active_totp_row in Et as (_ & _ & Hr). apply guarded_totp. by left.
Qed.

(** A statement on the sessions or on other tables. *)
Ltac untouched := lazymatch goal with |- Guarded ?d _ => apply guarded_same; destruct d; reflexivity end.
Ltac guarded :=
  try lazymatch goal with |- (if ?b then Some _ else None) = Some _ -> _ => destruct b; [|done] end;
  try (let H := fresh in intros H; injection H as <-);
  first [ apply guarded_confirm | apply guarded_advance | by (apply mild_guarded; eauto with mild) | by (intros; apply mild_guarded; eauto with mild) | untouched | idtac ].
Ltac guard_walk := walk ltac:(first [by (apply moves_guarded; eauto with mild) | guarded]).

Section Factor.
Context {HX : Hex} {SH : Sha256} {ED : Ed25519} {CJ : ChallengeJson} {HS : HmacSha1} {B64 : Base64Url} {AG : Aes256Gcm}
  {CB : CborReader} {JC : ClientDataJson} {EC : EcdsaP256}.
Variable cf : Config.

(** The query whose answer [post_totp_enrollment] relies on is answered. *)
Definition answers_active (c : ACall) : Prop := a_fails c "active" = false.
Abbreviation guarding m := (forall d, Guarded d (m d).2).
Abbreviation guarded_handler := (every_section (fun X (m : ATx X) => guarding m)).

Lemma guard_section {A} (m : ATx A) : moves Guarded m -> guarding m.
Proof. done. Qed.
Lemma guard_hoare {A} (m : ATx A) : (forall d, protected d -> hoare protected m d (fun _ => protected)) -> guarding m.
Proof. intros Hm d Hd. by apply (hoare_state protected), Hm. Qed.
Lemma guard_rest {A} (m : ATx A) d : protected d -> moves Guarded m -> hoare protected m d (fun _ => protected).
Proof. intros Hd Hm. specialize (Hm d). unfold hoare. destruct (m d) as [[a|e] d']; by apply Hm. Qed.
Lemma guard_bind {A B} (m : ATx A) (k : A -> ATx B) d Q : protected d -> moves Guarded m -> (forall a d', protected d' -> hoare protected (k a) d' Q) ->
  hoare protected (tbind m k) d Q.
Proof.
  intros Hd Hm Hk. eapply (hoare_moves_bind Guarded); [done|intros d1 H1; by apply H1|]. intros a d1 H1. by apply Hk, H1.
Qed.
Lemma guard_transaction {A} c l (m : ATx A) : (forall d, protected d -> hoare (fun _ => True) m d (fun _ => protected)) -> guarding (transaction c l m).
Proof.
  intros Hm. apply guard_hoare. intros d Hd. unfold transaction. apply hoare_read_bind; [apply reads_query|done|]. intros u _.
  apply hoare_atomically; [done|by apply Hm].
Qed.

Lemma guarded_enrollment c headers account : answers_active c -> guarded_handler (post_totp_enrollment cf c headers account).
Proof.
  intros Ha. unfold post_totp_enrollment. handler; try (apply guard_section; by guard_walk). apply guard_hoare. intros d Hd.
  apply guard_bind; [done|guard_walk|]. intros _ d1 Hd1. unfold or_false. apply hoare_read_bind; [|done|].
  { intros y. unfold tcatch, query, query_if. by destruct (a_fails c _). }
  intros active E. unfold tcatch, query, query_if in E. rewrite Ha in E. injection E as <-.
  apply hoare_refuse_bind; [done|]. intros Hnone%bool_decide_eq_false. apply hoare_execute_bind; [done|]. intros d' E.
  destruct (known _ _); [|done]. injection E as <-. apply guard_rest; [|guard_walk].
  apply guarded_totp; [|done]. right. destruct (requires_mfa d1 _) eqn:Er; [|done]. by apply Hd1 in Er.
Qed.
Lemma policy_required_ok c account d b d' : policy_required c account d = (Ok b, d') -> d' = d /\ b = requires_mfa d account.
Proof.
  unfold policy_required, of_policy, Policy.policy_required, ask. destruct (a_fails c _); [done|]. cbn. intros [= <- <-]. split; [done|].
  unfold requires_mfa. rewrite lookup_fmap. by destruct (ad_policy d !! account) as [[]|].
Qed.
Lemma guarded_revoke c headers account : guarded_handler (post_totp_revoke c headers account).
Proof.
  unfold post_totp_revoke. handler; try (apply guard_section; by guard_walk). apply guard_hoare. intros d Hd.
  apply guard_bind; [done|guard_walk|]. intros _ d1 Hd1. apply hoare_read_bind; [done|done|]. intros required (_ & ->)%policy_required_ok.
  apply hoare_refuse_bind; [done|]. intros Hr. apply hoare_update_bind; [done|]. intros _. apply guard_rest; [|guard_walk].
  unfold revoke_totp. destruct (ad_totp d1 !! a) as [t|]; [|done]. case_bool_decide; [|done]. apply guarded_totp; [by right|done].
Qed.

(** A session with a second-factor proof belongs to an account with an active authenticator. *)
Lemma authenticated_factor c headers d session d' : authenticated_session_with_db c headers d = (Ok session, d') ->
  sv_mfa_proof_id session <> None -> is_Some (active_totp d' (account_id session)).
Proof.
  unfold authenticated_session_with_db. intros (token & d0 & _ & H)%tbind_ok Hp. cbv zeta in H. apply tbind_ok in H as (u & d1 & _ & H).
  apply tbind_ok in H as (row & d2 & (_ & -> & ->)%query_if_ok & H). apply tbind_ok in H as (s & d3 & Hs & H).
  apply tret_ok in Hs as (_ & ->). unfold apply_session_status, of_policy in H. injection H as H <-.
  destruct (Policy.apply_session_status _ _ _ _ _) as [sv|] eqn:Ea in H; [|done]. injection H as <-.
  unfold Policy.apply_session_status in Ea. apply res_bind_ok in Ea as (required & _ & Ea). apply res_bind_ok in Ea as (proof & Epr & [= <-]).
  destruct proof as [[p ciphertext]|]; [|done]. unfold ask in Epr. destruct (a_fails _ _); [done|]. injection Epr as Epr.
  assert (forall v q, account_id (with_mfa (session_view s) required v q) = s_account s) as Eacc by done.
  destruct (_ && _ && _ && _); [|done]. rewrite Eacc.
  unfold proof_row in Epr. destruct (session_mfa _ !! _); [|done]. destruct (sessions _ !! _) as [s'|]; [|done].
  destruct (totp_credentials _ !! _) as [t|] eqn:Et; [|done]. case_bool_decide as Hc; [|done]. destruct Hc as (Ea & Hen & Hrev).
  cbn in Ea. rewrite Ea in Et. cbn in Et. rewrite lookup_fmap in Et. destruct (ad_totp d1 !! s_account s) as [row|] eqn:Erow; [|done]. injection Et as <-. cbn in Hen, Hrev.
  unfold active_totp. rewrite Erow, bool_decide_eq_true_2 by (split; assumption). eauto.
Qed.
Lemma guarded_own c headers account d : protected d ->
  hoare (fun _ => True) (own_session c headers account) d (fun s d' => protected d' /\ (sv_mfa_proof_id s <> None -> is_Some (active_totp d' account))).
Proof.
  intros Hd. unfold own_session. eapply hoare_bind.
  - apply (hoare_exact (authenticated_session_with_db c headers)).
  - intros s d1 E. assert (protected d1) as Hd1.
    { pose proof (moves_guarded _ (mild_session c headers) d Hd) as Hg. by rewrite E in Hg. }
    apply hoare_refuse_bind; [done|]. intros Ea%negb_false_iff%bool_decide_eq_true. apply hoare_done. split; [done|]. intros Hp.
    rewrite <- Ea. exact (authenticated_factor c headers d s d1 E Hp).
Qed.
Lemma guarded_set_policy d account required now : (required = true -> is_Some (active_totp d account)) -> Guarded d (set_policy (<[account := (required, now)]>) d).
Proof.
  intros Hr Hd a Ha. assert (active_totp (set_policy (<[account := (required, now)]>) d) a = active_totp d a) as -> by (by destruct d).
  unfold requires_mfa in Ha. destruct (decide (a = account)) as [->|Hne].
  - apply Hr. destruct d. cbn in *. by rewrite lookup_insert_eq in Ha.
  - apply Hd. unfold requires_mfa. destruct d. cbn in *. by rewrite lookup_insert_ne in Ha by done.
Qed.
Lemma guarded_policy c headers account required : guarded_handler (patch_policy c headers account required).
Proof.
  unfold patch_policy. handler. apply guard_transaction. intros d Hd. unfold change_policy. cbv zeta.
  eapply hoare_bind; [by apply guarded_own|]. intros s d1 (Hd1 & Hp). apply hoare_read_bind; [done|done|]. intros _ _.
  apply hoare_refuse_bind; [done|]. intros Hs%bool_decide_eq_false. eapply hoare_read_bind; [|done|].
  { intros x. destruct required; [|done]. apply reads_bind; [apply reads_query|intros; apply reads_ret]. }
  intros _ _. apply hoare_execute_bind; [done|]. intros d' E. destruct (known _ _); [|done]. injection E as <-.
  eapply hoare_conseq; [|done|intros ? ? H; exact H]. apply guard_rest; [|guard_walk].
  apply guarded_set_policy; [|done]. intros _. by apply Hp.
Qed.
Lemma guarded_reset c headers account code : guarded_handler (post_recovery_reset cf c headers account code).
Proof.
  unfold post_recovery_reset. handler. apply guard_transaction. intros d Hd. unfold recovery_reset. cbv zeta.
  eapply hoare_bind; [by apply guarded_own|]. intros s d1 (Hd1 & _). apply hoare_read_bind; [done|done|]. intros _ _.
  eapply (hoare_moves_bind Guarded); [guard_walk|done|]. intros _ d2 Hd2%(fun f => f Hd1).
  eapply (hoare_moves_bind Guarded); [guard_walk|done|]. intros changed d3 Hd3%(fun f => f Hd2).
  destruct (negb _); [eapply hoare_conseq; [apply guard_rest; [exact Hd3|guard_walk]|done|done]|].
  apply hoare_execute_bind; [done|]. intros d4 [= <-]. apply hoare_execute_bind; [done|]. intros d5 [= <-].
  eapply hoare_conseq; [|done|intros ? ? H; exact H]. apply guard_rest; [|guard_walk].
  intros x Hx. unfold requires_mfa, active_totp in *. specialize (Hd3 x). unfold requires_mfa, active_totp in Hd3.
  destruct d3. cbn in *. destruct (decide (x = a)) as [->|Hne].
  - rewrite lookup_alter_eq in Hx. by destruct (ad_policy !! a).
  - rewrite lookup_alter_ne in Hx by done. rewrite lookup_alter_ne by done. by apply Hd3.
Qed.

Lemma guarded_device_proof c account device message signature : moves Guarded (device_proof c account device message signature).
Proof. unfold device_proof. guard_walk. Qed.
Lemma route_guarded c r : answers_active c -> guarded_handler (route cf c r).
Proof.
  intros Ha. destruct r; cbn [route];
    lazymatch goal with
    | |- every_section _ (post_totp_enrollment _ _ _ _) => by apply guarded_enrollment
    | |- every_section _ (post_totp_revoke _ _ _) => apply guarded_revoke
    | |- every_section _ (patch_policy _ _ _ _) => apply guarded_policy
    | |- every_section _ (post_recovery_reset _ _ _ _ _) => apply guarded_reset
    | _ => idtac
    end.
  all: unfold post_account, get_account, post_login_challenge, post_login, get_session, post_session_revoke, post_session_handoff,
    post_session_handoff_consume, post_device_challenge, post_device_enrollment, post_device_revoke, post_vault_link, post_recovery_codes,
    post_recovery_redeem, post_totp_enrollment_verify, post_totp_authentication_options, post_totp_authentication_verify, post_step_up, get_policy,
    post_invitation, get_invitations, post_invitation_accept, get_memberships, post_membership_revoke, post_webauthn_revoke,
    post_webauthn_registration_options, post_webauthn_registration_verify, post_webauthn_authentication_options, post_webauthn_authentication_verify,
    account_exists, policy_required, expected_challenge.
  all: handler; try (apply guard_section; by guard_walk).
  all: apply guard_section; unfold totp_login, step_up, webauthn_login, record_proof, apply_session_status, insert_session, consume_challenge.
  all: walk ltac:(first [ apply guarded_device_proof | apply mild_guarded, mild_consume_handoff | by (unfold policy_required, expected_challenge; guard_walk) | guard_walk ]).
Qed.

(** C10: however requests are interleaved and whichever other statements fail: as long as the
    query by which an enrollment looks for an active authenticator is answered, an account
    whose policy requires the second factor has an enabled, unrevoked authenticator, if that
    was so at the start. *)
Theorem mfa_account_keeps_factor events d account :
  (forall c r, Arrive c r ∈ events -> answers_active c) -> protected d ->
  requires_mfa (tables (serve cf events d)) account = true -> is_Some (active_totp (tables (serve cf events d)) account).
Proof.
  intros Hf Hd. assert (protected (tables (serve cf events d))) as Hp; [|apply Hp].
  eapply (rtc_inv Guarded protected); [intros a b Ha Hab; by apply Hab| |exact Hd].
  apply (serve_rtc cf Guarded answers_active (fun d => reflexivity d) (fun c r => route_guarded c r) [] events d). exact Hf.
Qed.
End Factor.
