(* ===== verification/Dpop.v ===== *)
(** * Proofs of possession for scope tokens

    src/services/account/src/dpop.rs: a token that names a key is used with a signature over
    the time, a nonce, the token and the tenant, which is accepted once. *)

From Stdlib Require Import Sorted.
From S2P Require Import Prelude Errors Tables Primitives Crypto Policy OperatorCore AccountDb.

#[local] Open Scope tx_scope.

Inductive DpopError : Type := DpopMissing | DpopInvalid | DpopExpired | DpopReplay | DpopDb.

Definition DPOP_WINDOW_SECONDS : Z := 60.
Definition DPOP_RETENTION_SECONDS : Z := 300.
Definition DPOP_CONTEXT : bytes := lit "dpop-v1".

Definition dpop_message (timestamp : Z) (nonce : bytes) (jti tenant : str) : bytes :=
  to_be_bytes 8 timestamp ++ nonce ++ as_bytes jti ++ as_bytes tenant.

Section Dpop.
Context {HX : Hex} {SH : Sha256} {ED : Ed25519} {B64 : Base64Url}.

Definition decoded (text : str) (field : string) : result DpopError bytes := map_err (fun _ => DpopInvalid) (b64_decode text (lit field)).
(** The checks that do not touch the store: the time stamp and whether the signature holds. *)
Definition checked_proof (claims : ScopeClaims) (key_hex text : str) (now : Z) : result DpopError Z :=
  match split_on 46 text with
  | [sig_b64; ts_raw; nonce_b64] =>
      let? timestamp := match u64_parse ts_raw with Some t => Ok t | None => Err DpopInvalid end in
      bail? Z.abs (now - timestamp) >? DPOP_WINDOW_SECONDS with DpopExpired ;;
      let? signature := decoded sig_b64 "dpop signature" in
      bail? negb (blen signature =? 64) with DpopInvalid ;;
      let? nonce := decoded nonce_b64 "dpop nonce" in
      bail? bool_decide (nonce = []) || (blen nonce >? 64) with DpopInvalid ;;
      let? key := map_err (fun _ => DpopInvalid) (hex_decode key_hex) in
      bail? negb (blen key =? 32) with DpopInvalid ;;
      let? _ := map_err (fun _ => DpopInvalid) (verify_with_domain key DPOP_CONTEXT (dpop_message timestamp nonce (jti claims) (tenant_id claims)) signature) in
      Ok timestamp
  | _ => Err DpopInvalid
  end.
Definition proof_text (headers : HeaderMap) : str := trim (default [] (header_text headers "dpop")).
Definition proof_hash (text : str) : str := hex_encode (sha256 (as_bytes text)).
(** [INSERT ... ON CONFLICT DO NOTHING]: whether a row was inserted. *)
Definition insert_proof (c : ACall) (hash : str) (expires : Z) : Tx ADb DpopError bool := fun d =>
  if a_fails c "dpop insert" then (Err DpopDb, d) else
  match ad_proofs d !! hash with
  | Some _ => (Ok false, d)
  | None => (Ok true, set_proofs (<[hash := expires]>) d)
  end.
Definition verify_dpop (c : ACall) (claims : ScopeClaims) (headers : HeaderMap) (now : Z) : Tx ADb DpopError unit :=
  match cnf claims with
  | None => tret (Ok tt)
  | Some key_hex =>
      let text := proof_text headers in
      if bool_decide (text = []) then tret (Err DpopMissing) else
      do timestamp <- tret (checked_proof claims key_hex text now) ;;
      execute_if (a_fails c "dpop prune") DpopDb (fun d => Some (set_proofs (filter (fun kv => ~ kv.2 <= now)) d)) ;;;
      do inserted <- insert_proof c (proof_hash text) (timestamp + DPOP_RETENTION_SECONDS) ;;
      tret (if inserted : bool then Ok tt else Err DpopReplay)
  end.

(** The key a token is bound to when it is minted; [is_weak] is ed25519-dalek's. *)
Definition validate_binding_key (is_weak : bytes -> bool) (hex_key : str) : result string str :=
  let? b := map_err (fun _ => "bind_pubkey_ed25519_hex must be 64 hex characters") (hex_decode (trim hex_key)) in
  bail? negb (blen b =? 32) with "bind_pubkey_ed25519_hex must be 32 bytes" ;;
  bail? negb (vk_from_bytes_ok b) with "bind_pubkey_ed25519_hex is not an ed25519 public key" ;;
  bail? is_weak b with "bind_pubkey_ed25519_hex is a weak public key" ;;
  Ok (hex_encode b).

(** ** Proofs are accepted once *)

Record Use : Type := { u_call : ACall; u_claims : ScopeClaims; u_headers : HeaderMap; u_now : Z }.
Definition verify_use (u : Use) : Tx ADb DpopError unit := verify_dpop (u_call u) (u_claims u) (u_headers u) (u_now u).
Definition after_uses (uses : list Use) (d : ADb) : ADb := foldl (fun d u => (verify_use u d).2) d uses.
Definition bound (u : Use) : Prop := is_Some (cnf (u_claims u)).
Definition in_time (u u' : Use) : Prop := u_now u <= u_now u'.

Lemma checked_proof_time claims key text now ts : checked_proof claims key text now = Ok ts -> Z.abs (now - ts) <= DPOP_WINDOW_SECONDS /\
  exists a b nn, split_on 46 text = [a; b; nn] /\ u64_parse b = Some ts.
Proof.
  unfold checked_proof. destruct (split_on 46 text) as [|a [|b [|nn [|]]]]; try done. intros H. apply res_bind_ok in H as (t & Ht & H).
  apply bail_ok in H as (Hw & H). assert (t = ts) as ->.
  { apply res_bind_ok in H as (? & _ & H). apply bail_ok in H as (_ & H). apply res_bind_ok in H as (? & _ & H). apply bail_ok in H as (_ & H).
    apply res_bind_ok in H as (? & _ & H). apply bail_ok in H as (_ & H). by apply res_bind_ok in H as (? & _ & [= <-]). }
  split; [lia|]. exists a, b, nn. split; [done|]. destruct (u64_parse b); [by injection Ht as ->|done].
Qed.
(** An accepted use: its proof is in the store from now on, until the proof has long expired. *)
Lemma verify_use_ok u d d' : bound u -> verify_use u d = (Ok tt, d') ->
  exists ts, Z.abs (u_now u - ts) <= DPOP_WINDOW_SECONDS /\ ad_proofs d' !! proof_hash (proof_text (u_headers u)) = Some (ts + DPOP_RETENTION_SECONDS) /\
    (exists a b nn, split_on 46 (proof_text (u_headers u)) = [a; b; nn] /\ u64_parse b = Some ts) /\
    (forall e, ad_proofs d !! proof_hash (proof_text (u_headers u)) = Some e -> e <= u_now u).
Proof.
  intros (key & Hk). unfold verify_use, verify_dpop. rewrite Hk. cbv zeta. case_bool_decide as Htext; [done|].
  intros (ts & d1 & (Hc & ->)%tret_ok & H)%tbind_ok. apply tbind_ok in H as (u0 & d2 & (_ & [= <-])%execute_if_ok & H).
  apply tbind_ok in H as (ins & d3 & Hi & H). unfold insert_proof in Hi. destruct (a_fails _ _); [done|].
  set (hash := proof_hash _) in *. destruct (ad_proofs (set_proofs _ d) !! hash) as [e|] eqn:Ee; injection Hi as <- <-; [done|].
  apply tret_ok in H as (_ & ->). apply checked_proof_time in Hc as (Hw & Hs). exists ts. split; [done|]. split; [|split; [done|]].
  - destruct d. cbn. by rewrite lookup_insert_eq.
  - intros e He. destruct d. cbn in *. apply map_lookup_filter_None in Ee as [Ee|Ee]; [congruence|]. specialize (Ee e He). cbn in Ee. lia.
Qed.
(** A use leaves the rows that have not expired. *)
Lemma verify_use_keeps u d hash e : ad_proofs d !! hash = Some e -> u_now u < e -> ad_proofs (verify_use u d).2 !! hash = Some e.
Proof.
  intros He Hlt. unfold verify_use, verify_dpop. destruct (cnf _) as [key|]; [|done]. cbv zeta. case_bool_decide as Htext; [done|].
  unfold tbind. cbn. destruct (checked_proof _ _ _ _) as [ts|]; [|done]. unfold execute_if. destruct (a_fails _ "dpop prune"); [done|].
  unfold insert_proof. destruct (a_fails _ _); cbn.
  - destruct d. cbn in *. apply map_lookup_filter_Some. split; [done|]. cbn. lia.
  - set (h := proof_hash _). destruct (ad_proofs (set_proofs _ d) !! h) as [x|] eqn:Ex; cbn;
      destruct d; cbn in *; [apply map_lookup_filter_Some; split; [done|cbn; lia]|].
    rewrite lookup_insert_ne; [apply map_lookup_filter_Some; split; [done|cbn; lia]|]. intros Eh. rewrite Eh in Ex.
    apply map_lookup_filter_None in Ex as [Ex|Ex]; [congruence|]. specialize (Ex e He). cbn in Ex. lia.
Qed.
Lemma after_uses_keeps uses d hash e : ad_proofs d !! hash = Some e -> Forall (fun u => u_now u < e) uses -> ad_proofs (after_uses uses d) !! hash = Some e.
Proof.
  intros He Hu. unfold after_uses. revert d He; induction Hu as [|u uses Hu Huses IH]; intros d He; [done|]. cbn [foldl]. apply IH.
  by apply verify_use_keeps.
Qed.

(** C36: a text of a proof is accepted at most once: with a clock that does not go back, whatever
    other proofs are presented in between and whichever statements fail, a second use of the
    same text is refused. *)
Theorem dpop_text_once u middle u' d d1 : bound u -> bound u' -> proof_text (u_headers u') = proof_text (u_headers u) ->
  StronglySorted in_time (u :: middle ++ [u']) -> verify_use u d = (Ok tt, d1) ->
  (verify_use u' (after_uses middle d1)).1 <> Ok tt.
Proof.
  intros Hb Hb' Et Hs H1 H2. apply (verify_use_ok u d d1 Hb) in H1 as (ts & Hw & He & (a & b & nn & Hsp & Hts) & _).
  destruct (verify_use u' (after_uses middle d1)) as [r d2] eqn:E2. cbn in H2. subst r.
  apply (verify_use_ok u' _ d2 Hb') in E2 as (ts' & Hw' & _ & (a' & b' & nn' & Hsp' & Hts') & Hold). rewrite Et in Hsp', Hold.
  assert (ts' = ts) as -> by congruence. unfold DPOP_WINDOW_SECONDS, DPOP_RETENTION_SECONDS in *.
  assert (Forall (fun m => u_now m < ts + 300) middle) as Hm.
  { apply Forall_forall. intros m Hm. assert (u_now m <= u_now u') as Hle; [|lia].
    apply StronglySorted_inv in Hs as (Hs & _). clear -Hs Hm. induction middle as [|x middle IH]; [by apply not_elem_of_nil in Hm|].
    cbn [app] in Hs. apply StronglySorted_inv in Hs as (Hs & Hall). apply elem_of_cons in Hm as [->|Hm]; [|by apply IH].
    rewrite Forall_forall in Hall. apply Hall, elem_of_app. right. apply list_elem_of_here. }
  pose proof (after_uses_keeps _ _ _ _ He Hm) as Hk. specialize (Hold _ Hk). lia.
Qed.

(** ** The text can be spelled again *)

Lemma parse_leading_zero ts : forallb is_ascii_digit ts = true -> ts <> [] -> u64_parse (48 :: ts) = u64_parse ts.
Proof.
  intros Hd Hn. unfold u64_parse, parse_uint. destruct ts as [|c rest]; [done|]. assert (c <> 43) as Hc.
  { cbn in Hd. unfold is_ascii_digit in Hd. lia. }
  assert (match c :: rest with 43 :: rest' => rest' | _ => c :: rest end = c :: rest) as Em.
  { destruct c as [|p|p]; try done. repeat (destruct p as [p|p|]; try done). }
  rewrite Em. rewrite !bool_decide_eq_false_2 by done. cbn [orb]. change (forallb is_ascii_digit (48 :: c :: rest)) with (forallb is_ascii_digit (c :: rest)). rewrite Hd. cbn [negb].
  by change (parse_digits (48 :: c :: rest)) with (parse_digits (c :: rest)).
Qed.
Definition proof_with (ts sig nonce : str) : str := sig ++ 46 :: ts ++ 46 :: nonce.
Definition dpop_header (text : str) : HeaderMap := fun name => if bool_decide (name = "dpop"%string) then Some (Some text) else None.
Definition plain_part (s : str) : Prop := Forall (fun c => is_whitespace c = false /\ c <> 46) s.
Lemma proof_with_text ts sig nonce : plain_part ts -> plain_part sig -> plain_part nonce -> proof_text (dpop_header (proof_with ts sig nonce)) = proof_with ts sig nonce.
Proof.
  intros Ht Hs Hn. unfold proof_text, dpop_header, header_text. cbn. apply trim_id. unfold proof_with, plain_part in *.
  apply Forall_app. split; [by eapply Forall_impl; [exact Hs|intros ? []]|]. apply Forall_cons_2; [done|]. apply Forall_app.
  split; [by eapply Forall_impl; [exact Ht|intros ? []]|]. apply Forall_cons_2; [done|]. by eapply Forall_impl; [exact Hn|intros ? []].
Qed.
Lemma proof_with_split ts sig nonce : plain_part ts -> plain_part sig -> plain_part nonce -> split_on 46 (proof_with ts sig nonce) = [sig; ts; nonce].
Proof.
  assert (forall s, plain_part s -> 46 ∉ s) as Hin by (intros s Hs H46; by apply (proj1 (Forall_forall _ _) Hs) in H46 as []).
  intros Ht Hs Hn. unfold proof_with. rewrite split_on_app, split_on_app, split_on_none by (by apply Hin). done.
Qed.
(** The module says that a captured proof replays nowhere; but the store remembers the text of
    a proof, and the time in it may be written with a leading zero: whoever has seen an
    accepted proof can present it again, spelled anew. *)
Theorem dpop_replay_respelled c c' claims ts sig nonce now d d1 :
  plain_part sig -> plain_part nonce -> forallb is_ascii_digit ts = true ->
  bound {| u_call := c; u_claims := claims; u_headers := dpop_header (proof_with ts sig nonce); u_now := now |} ->
  verify_dpop c claims (dpop_header (proof_with ts sig nonce)) now d = (Ok tt, d1) ->
  a_fails c' "dpop prune" = false -> a_fails c' "dpop insert" = false -> ad_proofs d1 !! proof_hash (proof_with (48 :: ts) sig nonce) = None ->
  (verify_dpop c' claims (dpop_header (proof_with (48 :: ts) sig nonce)) now d1).1 = Ok tt.
Proof.
  intros Hs Hn Hd (key & Hk) H Hf1 Hf2 Hnone. cbn in Hk.
  assert (plain_part ts) as Ht.
  { apply Forall_forall. intros x Hx. rewrite forallb_forall in Hd. specialize (Hd x ltac:(by apply list_elem_of_In)). unfold is_ascii_digit, is_whitespace in *. lia. }
  assert (plain_part (48 :: ts)) as Ht' by (apply Forall_cons_2; [done|exact Ht]).
  unfold verify_dpop in *. rewrite Hk in *. cbv zeta in *. rewrite proof_with_text in H by done. rewrite proof_with_text by done.
  rewrite bool_decide_eq_false_2 in H by (unfold proof_with; by destruct sig). rewrite bool_decide_eq_false_2 by (unfold proof_with; by destruct sig).
  apply tbind_ok in H as (t & d0 & (Hc & ->)%tret_ok & _).
  assert (checked_proof claims key (proof_with (48 :: ts) sig nonce) now = Ok t) as Hc'.
  { unfold checked_proof in *. rewrite proof_with_split in * by done. rewrite parse_leading_zero; [done|done|]. intros ->. done. }
  unfold tbind. cbn [tret]. rewrite Hc'. unfold execute_if. rewrite Hf1. unfold insert_proof. rewrite Hf2.
  assert (ad_proofs (set_proofs (filter (fun kv => ~ kv.2 <= now)) d1) !! proof_hash (proof_with (48 :: ts) sig nonce) = None) as ->; [|done].
  destruct d1. cbn in *. apply map_lookup_filter_None. by left.
Qed.
End Dpop.
