(* ===== verification/AccountExamples.v ===== *)
(** * The account service at work

    Sample instances of the interfaces of the account service, a history of one account from
    its creation to a policy that requires the second factor, and the theorems about the
    service at that history. *)

From Stdlib Require Import Sorted.
From S2P Require Import Prelude Errors Tables Primitives SamplePrimitives Crypto Policy PolicyTheory AccountDb Totp Accounts AccountFactors Memberships WebAuthn AccountService SessionProvenance FactorPolicy Dpop.

#[global] Instance sample_hmac_sha1 : HmacSha1 := {| hmac_sha1 := fun key message => digest_n 20 (key ++ message) |}.
#[global] Instance sample_hmac_sha1_laws : HmacSha1Laws sample_hmac_sha1.
Proof. split; intros; [apply fit_length|apply fit_bytes]. Qed.
#[global] Instance sample_gcm : Aes256Gcm := {|
  gcm_seal := fun key nonce m => Some (m ++ sample_tag key nonce [] m);
  gcm_open := fun key nonce c => sample_decrypt key nonce [] c;
|}.
#[global] Instance sample_gcm_laws : Aes256GcmLaws sample_gcm.
Proof.
  split; cbn [gcm_seal gcm_open sample_gcm].
  - intros k n m c Hc. exact (xchacha_roundtrip (XChaChaLaws := sample_xchacha_laws) k n [] m c Hc).
  - intros k n m c Hm [= <-]. split; [apply Forall_app; split; [done|apply fit_bytes]|]. by rewrite length_app, sample_tag_length.
Qed.
(** Length-prefixed fields in place of JSON. *)
Definition field (s : str) : bytes := to_le_bytes 4 (blen s) ++ s.
Definition opt_field (o : option str) : bytes := match o with Some s => 1 :: field s | None => [0] end.
#[global] Instance sample_challenge_json : ChallengeJson := {|
  challenge_json := fun account device key id nonce => field account ++ opt_field device ++ opt_field key ++ field id ++ field nonce;
|}.
#[global] Instance no_cbor : CborReader := {| cbor_from_reader := fun _ => None |}.
#[global] Instance no_client_data : ClientDataJson := {| client_data_from_slice := fun _ => None |}.
#[global] Instance no_p256 : EcdsaP256 := {| p256_verify := fun _ _ _ => false |}.

Definition sample_config : Config := {|
  cf_trust_proxy_headers := None; cf_totp_key_file := None; cf_totp_key := Some (hex_encode (replicate 32 7));
  cf_read_to_string := fun _ => None; cf_rp_id := None; cf_origin := None; cf_require_uv := None;
|}.
Definition no_rows : ADb := MkADb ∅ ∅ ∅ ∅ ∅ ∅ ∅ ∅ ∅ ∅ ∅ ∅ ∅ ∅ ∅ ∅ [].

Definition noon : Z := 1800000000.
Definition drawn (seed : Z) (place : string) : bytes :=
  let n := if bool_decide (place = "totp nonce"%string) then 12%nat else if bool_decide (place = "secret"%string) then 20%nat else 32%nat in
  digest_n n (seed :: lit place).
Definition sample_call (seed : Z) : ACall := {| a_fails := fun _ => false; a_now := fun _ => noon; a_draw := drawn seed |}.

Definition ada_secret : bytes := replicate 32 3.
Definition ada_key : str := hex_encode (verifying_key ada_secret).
Definition ada : str := match derive_account_id ada_key with Ok id => id | Err _ => [] end.
Definition laptop : str := hex_encode (replicate 32 5).
Definition laptop_secret : bytes := replicate 32 6.
Definition laptop_key : str := hex_encode (verifying_key laptop_secret).
Definition nobody : HeaderMap := fun _ => None.
Definition bearer (token : str) : HeaderMap := fun name => if bool_decide (name = "authorization"%string) then Some (Some (lit "Bearer " ++ token)) else None.

(** The identifier and the nonce of a challenge, and the token of a session, that a call draws. *)
Definition challenge_of (seed : Z) : str := hex_encode (drawn seed "challenge_id").
Definition nonce_of (seed : Z) : str := hex_encode (drawn seed "nonce").
Definition token_of (seed : Z) : str := hex_encode (drawn seed "token").
Definition signed (key : bytes) (domain : string) (device public_key : option str) (seed : Z) : str :=
  hex_encode (sign_with_domain key (lit domain) (challenge_signing_bytes ada device public_key (challenge_of seed) (nonce_of seed))).
Definition code_at (seed step : Z) : str := match code_for_step (drawn seed "secret") step with Ok code => code | Err _ => [] end.

(** The [i]-th request, run to its end. *)
Definition whole (i : nat) (r : Request) : list Event := Arrive (sample_call (Z.of_nat i)) r :: replicate 5 (Advance i).
Definition now_step : Z := noon / STEP_SECONDS.
Definition session_headers : HeaderMap := bearer (token_of 4).
Definition story : list Event :=
  whole 0 (PostAccount (lit "Ada") ada_key) ++
  whole 1 (PostDeviceChallenge nobody ada laptop laptop_key) ++
  whole 2 (PostDeviceEnrollment nobody ada laptop laptop_key (lit "laptop") (challenge_of 1)
             (signed ada_secret "account_device_enrollment" (Some laptop) (Some laptop_key) 1)) ++
  whole 3 (PostLoginChallenge nobody ada (Some laptop)) ++
  whole 4 (PostLogin (challenge_of 3) (signed laptop_secret "account_login" (Some laptop) None 3)) ++
  whole 5 (PostTotpEnrollment session_headers ada) ++
  whole 6 (PostTotpEnrollmentVerify session_headers ada (code_at 5 now_step)) ++
  whole 7 (PostStepUp session_headers (code_at 5 (now_step + 1))) ++
  whole 8 (PostRecoveryCodes session_headers ada 4) ++
  whole 9 (PatchPolicy session_headers ada true) ++
  whole 10 (PostTotpRevoke session_headers ada) ++
  whole 11 (PostSessionHandoff session_headers).
Definition outcomes (p : Pool) (n : nat) : list string :=
  (fun i => match answer_of p i with Some (Ok _) => "done" | Some (Err e) => rf_code e | None => "running" end%string) <$> seq 0 n.

(** Every request of the story is answered, and the authenticator of an account that requires
    it cannot be revoked. *)
Example story_outcomes :
  outcomes (serve sample_config story no_rows) 12 = replicate 10 "done"%string ++ ["MFA_POLICY_REQUIRES_FACTOR"; "done"]%string.
Proof. vm_compute. reflexivity. Qed.

Definition ada_session : Session := session_row ada (Some laptop) None (lit "device") noon (noon + SESSION_TTL_SECONDS).
Lemma sessions_earned_witness :
  ad_sessions (tables (serve sample_config story no_rows)) !! hash_token (token_of 4) = Some ada_session /\
  ((exists s0, ad_sessions no_rows !! hash_token (token_of 4) = Some s0 /\ same_grant s0 ada_session) \/
   (exists before e after s0, story = before ++ e :: after /\
      earned sample_config (tables (serve sample_config before no_rows)) (tables (serve sample_config (before ++ [e]) no_rows)) s0 /\
      same_grant s0 ada_session)).
Proof.
  split; [vm_compute; reflexivity|]. apply (sessions_earned sample_config story no_rows (hash_token (token_of 4)) ada_session).
  vm_compute. reflexivity.
Defined.

(** Two of the recovery codes that the eighth request of the story issued, redeemed one after the other; the
    second section of each redemption opens its session. *)
Definition redeem (i n : nat) : Event := Arrive (sample_call (Z.of_nat i)) (PostRecoveryRedeem nobody ada (recovery_code (sample_call 8) n)).
Definition before_redeemed : list Event := story ++ [redeem 12 0; Advance 12].
Definition between_redeemed : list Event := replicate 3 (Advance 12) ++ [redeem 13 1; Advance 13].
Abbreviation at_rows events := (tables (serve sample_config events no_rows)).
Definition redeemed : Session := session_row ada None None (lit "recovery") noon (noon + RECOVERY_SESSION_TTL_SECONDS).
Lemma redeemed_sessions :
  ad_sessions (at_rows before_redeemed) !! hash_token (token_of 12) = None /\
  ad_sessions (at_rows (before_redeemed ++ [Advance 12])) !! hash_token (token_of 12) = Some redeemed /\
  ad_sessions (at_rows ((before_redeemed ++ [Advance 12]) ++ between_redeemed)) !! hash_token (token_of 13) = None /\
  ad_sessions (at_rows (((before_redeemed ++ [Advance 12]) ++ between_redeemed) ++ [Advance 13])) !! hash_token (token_of 13) = Some redeemed.
Proof. vm_compute. auto. Qed.
Lemma proofs_open_once_witness :
  exists proof proof',
    earned_by sample_config (at_rows before_redeemed) (at_rows (before_redeemed ++ [Advance 12])) redeemed proof /\
    earned_by sample_config (at_rows ((before_redeemed ++ [Advance 12]) ++ between_redeemed))
      (at_rows (((before_redeemed ++ [Advance 12]) ++ between_redeemed) ++ [Advance 13])) redeemed proof' /\
    fresh_after proof proof' (stays_enabled sample_config (before_redeemed ++ [Advance 12]) between_redeemed no_rows).
Proof.
  pose proof (proofs_open_once sample_config before_redeemed (Advance 12) between_redeemed (Advance 13) no_rows
                (hash_token (token_of 12)) redeemed (hash_token (token_of 13)) redeemed) as H. cbv beta zeta in H.
  destruct redeemed_sessions as (H0 & H1 & H2 & H3). exact (H H0 H1 H2 H3).
Defined.

Lemma story_calls c r : Arrive c r ∈ story -> answers_active c.
Proof.
  assert (Forall (fun e => match e with Arrive c _ => answers_active c | Advance _ => True end) story) as H.
  { unfold story, whole. rewrite ?Forall_app, ?Forall_cons. cbn [replicate]. repeat (split || constructor). }
  intros Hin. exact (proj1 (Forall_forall _ _) H _ Hin).
Qed.
Lemma mfa_account_keeps_factor_witness :
  requires_mfa (tables (serve sample_config story no_rows)) ada = true /\ is_Some (active_totp (tables (serve sample_config story no_rows)) ada).
Proof.
  split; [vm_compute; reflexivity|]. apply (mfa_account_keeps_factor sample_config story no_rows ada).
  - exact story_calls.
  - intros account H. vm_compute in H. discriminate H.
  - vm_compute. reflexivity.
Defined.

(** When the query for an active authenticator fails, an enrollment takes it for absent and
    replaces the authenticator that the account requires. *)
Definition failing_call : ACall :=
  {| a_fails := fun l => bool_decide (l = "active"%string); a_now := fun _ => noon; a_draw := drawn 12 |}.
Definition unlucky : list Event := story ++ Arrive failing_call (PostTotpEnrollment session_headers ada) :: replicate 2 (Advance 12).
Example enrollment_fails_open :
  requires_mfa (tables (serve sample_config unlucky no_rows)) ada = true /\ active_totp (tables (serve sample_config unlucky no_rows)) ada = None.
Proof. split; vm_compute; reflexivity. Qed.

(** ** Guessing codes *)

Definition later_call (seed : Z) : ACall := {| a_fails := fun _ => false; a_now := fun _ => noon + 60; a_draw := drawn seed |}.
Definition guess (i : nat) (code : str) : Event := Arrive (later_call (Z.of_nat i)) (PostTotpAuthenticationVerify nobody ada (challenge_of 12) code).
Definition wrong : str := lit "000000".
Definition right : str := code_at 5 (now_step + 2).
Definition prepared : list Event := story ++ Arrive (later_call 12) (PostTotpAuthenticationOptions nobody ada) :: replicate 3 (Advance 12).
(** Six guesses that arrive one after the other: the sixth is refused, right as it is. *)
Definition in_turn : list Event := prepared ++
  concat ((fun i => guess i (if bool_decide (i = 18%nat) then right else wrong) :: replicate 5 (Advance i)) <$> seq 13 6).
(** The same guesses, all admitted before the first of them is checked. *)
Definition at_once : list Event := prepared ++
  concat ((fun i => [guess i (if bool_decide (i = 18%nat) then right else wrong); Advance i]) <$> seq 13 6) ++
  concat ((fun i => replicate 5 (Advance i)) <$> seq 13 6).
Example sixth_guess_refused : answer_of (serve sample_config in_turn no_rows) 18 = Some (Err RATE_LIMITED).
Proof. vm_compute. reflexivity. Qed.
Example sixth_guess_admitted :
  match answer_of (serve sample_config at_once no_rows) 18 with Some (Ok (RSession token view)) => bool_decide (account_id view = ada) | _ => false end = true.
Proof. vm_compute. reflexivity. Qed.

(** ** Proofs of possession *)

Definition bound_claims : ScopeClaims :=
  {| tenant_id := lit "acme"; project_id := lit "billing"; environment_id := None; repository_binding_id := None; service_id := None;
     branch := None; cnf := Some ada_key; origin_session_hash := None; mfa_proof_id := None; elevated_until_utc := None;
     principal_id := lit "ci:runner"; issued_at_utc := noon; expires_at_utc := noon + 900; jti := lit "jti-1" |}.
Definition sig_of (nonce : bytes) : str :=
  b64_encode (sign_with_domain ada_secret DPOP_CONTEXT (dpop_message noon nonce (jti bound_claims) (Policy.tenant_id bound_claims))).
Definition proof_of (ts : str) (nonce : bytes) : str := proof_with ts (sig_of nonce) (b64_encode nonce).
Definition use_of (nonce : bytes) (now : Z) : Use :=
  {| u_call := sample_call 0; u_claims := bound_claims; u_headers := dpop_header (proof_of (show_Z noon) nonce); u_now := now |}.
Lemma dpop_text_once_witness :
  (verify_use (use_of [1] noon) no_rows).1 = Ok tt /\
  (verify_use (use_of [1] (noon + 5)) (after_uses [use_of [2] (noon + 1)] (verify_use (use_of [1] noon) no_rows).2)).1 <> Ok tt.
Proof.
  split; [vm_compute; reflexivity|].
  apply (dpop_text_once (use_of [1] noon) [use_of [2] (noon + 1)] (use_of [1] (noon + 5)) no_rows).
  - eexists. reflexivity.
  - eexists. reflexivity.
  - vm_compute. reflexivity.
  - repeat first [apply SSorted_cons | apply SSorted_nil | apply Forall_cons_2 | apply Forall_nil_2]; unfold in_time; cbn; lia.
  - vm_compute. reflexivity.
Defined.
Lemma dpop_replay_respelled_witness :
  (verify_dpop (sample_call 1) bound_claims (dpop_header (proof_of (48 :: show_Z noon) [1])) noon
     (verify_dpop (sample_call 0) bound_claims (dpop_header (proof_of (show_Z noon) [1])) noon no_rows).2).1 = Ok tt.
Proof.
  apply (dpop_replay_respelled (sample_call 0) (sample_call 1) bound_claims (show_Z noon) (sig_of [1]) (b64_encode [1]) noon no_rows).
  1, 2: unfold plain_part; apply (bool_decide_unpack _); vm_compute; exact I.
  - vm_compute. reflexivity.
  - eexists. reflexivity.
  - vm_compute. reflexivity.
  - reflexivity.
  - reflexivity.
  - vm_compute. reflexivity.
Defined.

Lemma base32_roundtrip_witness : base32_decode (base32_encode (lit "12345678901234567890")) = Ok (lit "12345678901234567890").
Proof.
  apply base32_roundtrip; [|discriminate]. repeat constructor; lia.
Defined.
