(* ===== verification/RestoreFs.v ===== *)
(** * The file system under a restore

    The calls src/crates/snapshot/src/restore.rs makes on the destination and on
    its private staging directory (through src/crates/file-lock/src/lib.rs), as
    operations on a small file-system state.  Every call is numbered; an
    environment decides for each whether it works, reports an error (a write or
    a directory removal may then be half done) or kills the process, and answers
    the link and metadata probes.  A killed process leaves the state reached so
    far, so the calls take effect in program order; the cached writes of a
    machine that loses power are outside the model.

    The end of the file is a Hoare logic with crash conditions for programs of
    these calls. *)

From S2P Require Import Prelude Errors Paths Engine.

(** ** State *)

(** The files of the staging directory. *)
Inductive Name : Type :=
| NewFile (index : nat)                 (* new-{index} *)
| Backup (index : nat)                  (* backup-{index} *)
| JournalFile                           (* journal.json *)
| JournalTmp (r : Z)                    (* journal-{random}.tmp *)
| RollbackFile (index : nat) (r : Z).   (* rollback-{index}-{random} *)

#[global] Instance Name_eq_dec : EqDecision Name.
Proof. solve_decision. Defined.
#[global] Instance Name_countable : Countable Name.
Proof.
  refine (inj_countable'
    (fun n => match n with
              | NewFile i => (0%nat, i, 0) | Backup i => (1%nat, i, 0) | JournalFile => (2%nat, 0%nat, 0)
              | JournalTmp r => (3%nat, 0%nat, r) | RollbackFile i r => (4%nat, i, r)
              end)
    (fun kir => match kir.1.1 with
              | 0%nat => NewFile kir.1.2 | 1%nat => Backup kir.1.2 | 2%nat => JournalFile
              | 3%nat => JournalTmp kir.2 | _ => RollbackFile kir.1.2 kir.2
              end) _).
  by intros [].
Defined.

Section fs.
Context {K : Type} `{Countable K}.

(** The regular files below the target, and the staging directory if it exists. *)
Record Fs : Type := { tree : gmap K bytes; stage : option (gmap Name bytes) }.

(** What a path names. *)
Inductive Location : Type :=
| LTarget | LLock | LStage
| LStaged (n : Name)
| LDest (k : K)
| LParent (k : K).                      (* destination.parent() *)

Inductive Op : Type :=
| OCreateDirAll (l : Location)          (* fs::create_dir_all *)
| OOpenLock                             (* OpenOptions ... open(lock_path) *)
| OLock                                 (* lock.lock() *)
| OCreateStage                          (* fs::create_dir(&stage) *)
| OLockStage                            (* lock_secret_directory *)
| OCreateNew (n : Name)                 (* create_new(true).open *)
| OLockFile (n : Name)                  (* lock_secret_file *)
| OAppend (n : Name) (b : bytes)        (* write_all *)
| OSyncFile (n : Name)                  (* file.sync_all() *)
| OOpen (l : Location)                  (* open_regular_file, fs::metadata, fs::read *)
| OStat (l : Location)                  (* path.exists() *)
| OReplace (source : Name) (l : Location)  (* atomic_replace *)
| ORemoveFile (l : Location)            (* fs::remove_file *)
| ORemoveStage                          (* fs::remove_dir_all(&stage) *)
| OSyncDir (l : Location).              (* sync_directory *)

Definition staged (s : Fs) (n : Name) : option bytes := stage s ≫= lookup n.

Definition content (s : Fs) (l : Location) : option bytes :=
  match l with
  | LStaged n => staged s n
  | LDest k => tree s !! k
  | _ => None
  end.

(** What [path.exists()] finds when its call works. *)
Definition exists_at (s : Fs) (l : Location) : bool :=
  match l with
  | LStage => bool_decide (is_Some (stage s))
  | _ => bool_decide (is_Some (content s l))
  end.

Definition on_stage (f : gmap Name bytes -> gmap Name bytes) (s : Fs) : Fs :=
  {| tree := tree s; stage := f <$> stage s |}.
Definition on_tree (f : gmap K bytes -> gmap K bytes) (s : Fs) : Fs :=
  {| tree := f (tree s); stage := stage s |}.

Definition put (l : Location) (b : bytes) (s : Fs) : Fs :=
  match l with
  | LStaged n => on_stage <[n := b]> s
  | LDest k => on_tree <[k := b]> s
  | _ => s
  end.
Definition drop_at (l : Location) (s : Fs) : Fs :=
  match l with
  | LStaged n => on_stage (delete n) s
  | LDest k => on_tree (delete k) s
  | _ => s
  end.

(** A call that the environment lets through.  Directories other than the staging
    directory are not part of the state: creating and flushing them changes nothing. *)
Definition exec (op : Op) (s : Fs) : result string Fs :=
  match op with
  | OCreateStage =>
      match stage s with
      | Some _ => Err "File exists"%string
      | None => Ok {| tree := tree s; stage := Some ∅ |}
      end
  | OCreateNew n =>
      match stage s with
      | None => Err "No such file or directory"%string
      | Some files => if bool_decide (is_Some (files !! n)) then Err "File exists"%string
                      else Ok (on_stage <[n := []]> s)
      end
  | OAppend n b => Ok (on_stage (alter (fun old => old ++ b) n) s)
  | OOpen l => match content s l with
               | Some _ => Ok s
               | None => Err "No such file or directory"%string
               end
  | OReplace source l =>
      match staged s source with
      | None => Err "No such file or directory"%string
      | Some b => Ok (put l b (on_stage (delete source) s))
      end
  | ORemoveFile l => match content s l with
                     | Some _ => Ok (drop_at l s)
                     | None => Err "No such file or directory"%string
                     end
  | ORemoveStage => match stage s with
                    | Some _ => Ok {| tree := tree s; stage := None |}
                    | None => Err "No such file or directory"%string
                    end
  | OCreateDirAll _ | OOpenLock | OLock | OLockStage | OLockFile _ | OSyncFile _ | OSyncDir _ | OStat _ => Ok s
  end.

(** How far a call got that failed or was cut short. *)
Record Torn : Type := { t_written : nat; t_removed : gset Name }.

Inductive Fault : Type :=
| Fine
| Fails (msg : string) (torn : Torn)
| Crashes (completed : bool) (torn : Torn).

Definition partial (op : Op) (t : Torn) (s : Fs) : Fs :=
  match op with
  | OAppend n b => on_stage (alter (fun old => old ++ take (t_written t) b) n) s
  | ORemoveStage => on_stage (filter (fun nb => nb.1 ∉ t_removed t)) s
  | _ => s
  end.

Definition crashed (op : Op) (completed : bool) (t : Torn) (s : Fs) : Fs :=
  if completed then match exec op s with Ok s' => s' | Err _ => s end else partial op t s.

(** ** Programs of calls *)

Inductive ParentProbe : Type := PDir | PNotDir | PMissing | PError (msg : string).

(** The environment: the fate of the n-th call, and the answer of the n-th probe. *)
Record Env : Type := {
  fault : nat -> Op -> Fault;
  link_probe : nat -> Location -> list (str * LinkProbe);
  dest_probe : nat -> K -> option bool;                 (* fs::metadata(path): is_file() *)
  parent_probe : nat -> K -> list (str * ParentProbe);  (* its parents up to the target *)
  random : nat -> Z;
}.

Inductive outcome (A : Type) : Type :=
| Done (r : result SnapshotError A) (s : Fs) (n : nat)
| Crashed (s : Fs).
Arguments Done {A} r s n.
Arguments Crashed {A} s.

Definition M (A : Type) : Type := Env -> Fs -> nat -> outcome A.

Definition ret {A} (r : result SnapshotError A) : M A := fun _ s n => Done r s n.
Definition bindM {A B} (m : M A) (k : A -> M B) : M B := fun e s n =>
  match m e s n with
  | Done (Ok a) s' n' => k a e s' n'
  | Done (Err x) s' n' => Done (Err x) s' n'
  | Crashed s' => Crashed s'
  end.
(** The result as a value, to look at an error. *)
Definition attempt {A} (m : M A) : M (result SnapshotError A) := fun e s n =>
  match m e s n with
  | Done r s' n' => Done (Ok r) s' n'
  | Crashed s' => Crashed s'
  end.
Definition observe {A} (f : Fs -> A) : M A := fun _ s n => Done (Ok (f s)) s n.
Definition ask {A} (f : Env -> nat -> A) : M A := fun e s n => Done (Ok (f e n)) s (S n).

Definition act (op : Op) : M unit := fun e s n =>
  match fault e n op with
  | Fine => match exec op s with
            | Ok s' => Done (Ok tt) s' (S n)
            | Err msg => Done (Err (IoError msg)) s (S n)
            end
  | Fails msg t => Done (Err (IoError msg)) (partial op t s) (S n)
  | Crashes completed t => Crashed (crashed op completed t s)
  end.

End fs.
Arguments Fs K {_ _}.
Arguments Env K : clear implicits.
Arguments M K {_ _} A.
Arguments Op K : clear implicits.
Arguments Location K : clear implicits.
Arguments outcome K {_ _} A.
Arguments Done {K _ _ A} r s n.
Arguments Crashed {K _ _ A} s.

Declare Scope fs_scope.
Delimit Scope fs_scope with fs.
Notation "'do' x '<-' m ';;' k" := (bindM m (fun x => k))
  (at level 10, x pattern, m at level 99, k at level 200) : fs_scope.
Notation "m ';;;' k" := (bindM m (fun _ => k)) (at level 100, k at level 200, right associativity) : fs_scope.

(** ** A program logic with crash conditions

    [wp e m Q F C s]: from [s], the program [m] ends in a state of [Q] with its
    value, in a state of [F] with an error, or dies in a state of [C]. *)

Section logic.
Context {K : Type} `{Countable K}.
Implicit Types (e : Env K) (s : Fs K) (op : Op K).

Definition wp {A} e (m : M K A) (Q : A -> Fs K -> Prop) (F C : Fs K -> Prop) s : Prop :=
  forall n, match m e s n with
            | Done (Ok a) s' _ => Q a s'
            | Done (Err _) s' _ => F s'
            | Crashed s' => C s'
            end.

(** Nothing goes wrong in [e]: every call is let through and every probe is clean. *)
Definition clean e : Prop :=
  (forall n op, fault e n op = Fine) /\
  (forall n l, validate_no_links (link_probe e n l) = Ok tt) /\
  (forall n k, dest_probe e n k <> Some false) /\
  (forall n k, Forall (fun p => p.2 = PDir \/ p.2 = PMissing) (parent_probe e n k)).

Definition may_fail e op : Prop := exists n msg t, fault e n op = Fails msg t.

Lemma wp_bind {A B} e (m : M K A) (k : A -> M K B) Q F C s :
  wp e m (fun a => wp e (k a) Q F C) F C s -> wp e (bindM m k) Q F C s.
Proof.
  intros H1 n. specialize (H1 n). unfold bindM.
  destruct (m e s n) as [[a|x] s' n'|s']; [exact (H1 n')|done..].
Qed.

Lemma wp_mono {A} e (m : M K A) (Q Q' : A -> Fs K -> Prop) (F F' C C' : Fs K -> Prop) s :
  wp e m Q F C s -> (forall a t, Q a t -> Q' a t) -> (forall t, F t -> F' t) ->
  (forall t, C t -> C' t) -> wp e m Q' F' C' s.
Proof. intros H1 HQ HF HC n. specialize (H1 n). destruct (m e s n) as [[a|x] s' n'|s']; auto. Qed.

Lemma wp_ret_ok {A} e (a : A) (Q : A -> Fs K -> Prop) (F C : Fs K -> Prop) s :
  Q a s -> wp e (ret (Ok a)) Q F C s.
Proof. by intros ? n. Qed.
Lemma wp_ret_err {A} e x (Q : A -> Fs K -> Prop) (F C : Fs K -> Prop) s :
  F s -> wp e (ret (Err x)) Q F C s.
Proof. by intros ? n. Qed.
Lemma wp_ret {A} e (r : result SnapshotError A) (Q : A -> Fs K -> Prop) (F C : Fs K -> Prop) s :
  (forall a, r = Ok a -> Q a s) -> (forall x, r = Err x -> F s) -> wp e (ret r) Q F C s.
Proof. intros ?? n. simpl. destruct r; eauto. Qed.

Lemma wp_ask {A} e (f : Env K -> nat -> A) (Q : A -> Fs K -> Prop) (F C : Fs K -> Prop) s :
  (forall n, Q (f e n) s) -> wp e (ask f) Q F C s.
Proof. intros ? n. simpl. auto. Qed.
Lemma wp_observe {A} e (f : Fs K -> A) (Q : A -> Fs K -> Prop) (F C : Fs K -> Prop) s :
  Q (f s) s -> wp e (observe f) Q F C s.
Proof. by intros ? n. Qed.

Lemma wp_attempt {A} e (m : M K A) (Q : result SnapshotError A -> Fs K -> Prop) (F C : Fs K -> Prop) s :
  wp e m (fun a => Q (Ok a)) (fun t => forall x, Q (Err x) t) C s -> wp e (attempt m) Q F C s.
Proof.
  intros H1 n. specialize (H1 n). unfold attempt. destruct (m e s n) as [[a|x] s' n'|s']; auto.
Qed.

(** A call: it works, meets the state it refuses, fails, or is cut short. *)
Lemma wp_act e op (Q : unit -> Fs K -> Prop) (F C : Fs K -> Prop) s :
  (forall s', exec op s = Ok s' -> Q tt s' /\ C s') ->
  (forall msg, exec op s = Err msg -> F s /\ C s) ->
  (may_fail e op -> ~ clean e -> forall t, F (partial op t s)) ->
  (forall t, C (partial op t s)) ->
  wp e (act op) Q F C s.
Proof.
  intros Hok Herr Hfail Hcrash n. unfold act. destruct (fault e n op) as [|msg t|completed t] eqn:E.
  - destruct (exec op s); [by apply Hok|by eapply Herr].
  - apply Hfail; [by exists n, msg, t|]. intros (Hc & _). by rewrite Hc in E.
  - unfold crashed. destruct completed; [|apply Hcrash].
    destruct (exec op s); [by apply Hok|by eapply Herr].
Qed.

(** A call without effect on the state. *)
Lemma wp_idle e op (Q : unit -> Fs K -> Prop) (F C : Fs K -> Prop) s :
  exec op s = Ok s -> (forall t, partial op t s = s) ->
  Q tt s -> (may_fail e op -> ~ clean e -> F s) -> C s -> wp e (act op) Q F C s.
Proof.
  intros E Ep HQ HF HC. apply wp_act.
  - intros s'. rewrite E. by intros [= <-].
  - intros msg. by rewrite E.
  - intros ?? t. rewrite Ep. auto.
  - intros t. by rewrite Ep.
Qed.

End logic.
