(* ===== verification/Restore.v ===== *)
(** * Journaled restore

    src/crates/snapshot/src/restore.rs: publication of verified files into a
    target directory.  New contents and backups are staged, a journal makes the
    publication durable, the files are renamed into place one by one, and the
    journal is marked committed; an interrupted publication is rolled back from
    the backups by the next call.  [restore_snapshot] of
    src/crates/snapshot/src/engine.rs composes it with decryption.

    Where a relative path leads on the platform ([target.join]) and how a path is
    displayed are parameters; so is the JSON encoder of the journal. *)

From S2P Require Import Prelude Errors Primitives Crypto Schema Paths Chunker Engine RestoreFs.

#[local] Open Scope fs_scope.

Record Entry : Type := { path : str; previous_digest : option bytes; new_digest : bytes }.
Record Journal : Type := {
  version : Z; publishing : bool; committed : bool; entries : list Entry }.

#[global] Instance Entry_eq_dec : EqDecision Entry.
Proof. solve_decision. Defined.
#[global] Instance Journal_eq_dec : EqDecision Journal.
Proof. solve_decision. Defined.

(** [serde_json::to_vec] and [serde_json::from_slice] of a [Journal]. *)
Class JournalJson : Type := {
  to_vec : Journal -> result string bytes;
  from_slice : bytes -> result string Journal;
}.
Class JournalJsonLaws (J : JournalJson) : Prop := {
  from_slice_to_vec j b : to_vec j = Ok b -> from_slice b = Ok j;
}.

(** [target.join(relative)] and [path.display()]. *)
Class Platform (K : Type) : Type := {
  locate : str -> K;
  display : Location K -> str;
}.

Definition STAGE : str := lit ".ciphervault-restore".
Definition LOCK : str := lit ".ciphervault-restore.lock".
Definition MAX_JOURNAL_SIZE : Z := 16 * 1024 * 1024.

(** ** Preflight *)

Definition os_str (c : Component) : str :=
  match c with
  | RootDir => [SLASH] | CurDir => [DOT] | ParentDir => [DOT; DOT] | Normal s => s
  end.

(** The case-folded, slash-separated form used to find duplicate destinations. *)
Definition normalized (relative : str) : str :=
  join_slash ((fun c => to_ascii_lowercase <$> os_str c)
                <$> components (replace_char BACKSLASH SLASH relative)).

(** The prefixes the [scan] closure yields. *)
Fixpoint scan_prefixes (prefix : str) (cs : list str) : list str :=
  match cs with
  | [] => []
  | c :: rest =>
      let prefix := (if bool_decide (prefix = []) then [] else prefix ++ [SLASH]) ++ c in
      prefix :: scan_prefixes prefix rest
  end.

Definition collides (seen : list str) (p : str) : bool :=
  existsb (fun prefix => negb (bool_decide (prefix = p)) && bool_decide (prefix ∈ seen))
          (scan_prefixes [] (split_on SLASH p)).

Definition reserved_component (relative : str) : bool :=
  match split_on SLASH (replace_char BACKSLASH SLASH relative) with
  | [] => false
  | c :: _ => eq_ignore_ascii_case c STAGE || eq_ignore_ascii_case c LOCK
  end.

Definition check_parent (parent : str * ParentProbe) : result SnapshotError unit :=
  match parent.2 with
  | PDir | PMissing => Ok tt
  | PNotDir => Err (UnsafePath (lit "Restore parent is not a directory: " ++ parent.1))
  | PError msg => Err (IoError msg)
  end.

Section restore.
Context {K : Type} `{Countable K} `{!Platform K} `{!JournalJson} `{!Sha256}.

Fixpoint for_eachM {A} (f : A -> M K unit) (xs : list A) : M K unit :=
  match xs with
  | [] => ret (Ok tt)
  | x :: rest => f x ;;; for_eachM f rest
  end.
Fixpoint mapM {A B} (f : A -> M K B) (xs : list A) : M K (list B) :=
  match xs with
  | [] => ret (Ok [])
  | x :: rest => do y <- f x ;; do ys <- mapM f rest ;; ret (Ok (y :: ys))
  end.

Definition no_links (l : Location K) : M K unit :=
  do ancestors <- ask (fun e n => link_probe e n l) ;;
  ret (validate_no_links ancestors).

Definition acquire : M K unit :=
  no_links LTarget ;;;
  act (OCreateDirAll LTarget) ;;;
  no_links LLock ;;;
  act OOpenLock ;;;
  act OLock.

(** [create_secret_file] of src/crates/file-lock/src/lib.rs. *)
Definition create_secret_file (n : Name) : M K unit :=
  act (OCreateNew n) ;;;
  do locked <- attempt (act (OLockFile n)) ;;
  match locked with
  | Ok _ => ret (Ok tt)
  | Err error => attempt (act (ORemoveFile (LStaged n))) ;;; ret (Err error)
  end.

Definition write_journal (journal : Journal) : M K unit :=
  do r <- ask random ;;
  let tmp := JournalTmp r in
  do result <- attempt (
    create_secret_file tmp ;;;
    do text <- ret (map_err (fun e => InvalidInput (lit e)) (to_vec journal)) ;;
    act (OAppend tmp text) ;;;
    act (OSyncFile tmp) ;;;
    act (OReplace tmp (LStaged JournalFile)) ;;;
    act (OSyncDir LStage)) ;;
  match result with
  | Ok _ => ret (Ok tt)
  | Err e => attempt (act (ORemoveFile (LStaged tmp))) ;;; ret (Err e)
  end.

(** The bytes of an opened file. *)
Definition read (l : Location K) : M K bytes :=
  act (OOpen l) ;;; observe (fun s => default [] (content s l)).

(** The length is checked on the handle and again on the bytes that were read. *)
Definition file_digest (l : Location K) : M K bytes :=
  do b <- read l ;;
  if blen b >? MAX_FILE_SIZE then ret (Err (FileTooLarge (display l) (blen b)))
  else ret (Ok (compute_digest b)).

(** [std::io::copy] from an opened file into a fresh one. *)
Definition copy (source : Location K) (n : Name) : M K unit :=
  do b <- read source ;; act (OAppend n b).

(** [path.exists()]: a call that fails answers that the path is absent. *)
Definition exists_ (l : Location K) : M K bool :=
  do found <- attempt (act (OStat l)) ;;
  match found with
  | Ok _ => observe (fun s => exists_at s l)
  | Err _ => ret (Ok false)
  end.

Definition validate_destination (relative : str) : M K K :=
  ret (validate_safe_relative_path relative) ;;;
  if reserved_component relative then
    ret (Err (UnsafePath (lit "Path reserved for restore transaction metadata")))
  else
  let path := locate relative in
  no_links (LDest path) ;;;
  do is_file <- ask (fun e n => dest_probe e n path) ;;
  if bool_decide (is_file = Some false) then
    ret (Err (UnsafePath (lit "Restore destination is not a regular file: " ++ display (LDest path))))
  else
  do parents <- ask (fun e n => parent_probe e n path) ;;
  ret (for_each check_parent parents) ;;;
  ret (Ok path).

(** ** Rollback and recovery *)

Definition rollback_check (destination : K) (entry : Entry) : M K unit :=
  do present <- exists_ (LDest destination) ;;
  if present : bool then
    do digest <- file_digest (LDest destination) ;;
    if negb (bool_decide (digest = new_digest entry))
       && negb (bool_decide (previous_digest entry = Some digest)) then
      ret (Err (InvalidInput (lit "Restore rollback stopped: " ++ display (LDest destination)
                 ++ lit " changed outside this transaction; journal retained")))
    else ret (Ok tt)
  else ret (Ok tt).

Definition rollback_entry (index_entry : nat * Entry) : M K unit :=
  let (index, entry) := index_entry in
  do destination <- validate_destination (path entry) ;;
  rollback_check destination entry ;;;
  match previous_digest entry with
  | Some previous =>
      let backup := LStaged (Backup index) in
      do present <- exists_ backup ;;
      if present : bool then
        do digest <- file_digest backup ;;
        if negb (bool_decide (digest = previous)) then
          ret (Err (InvalidInput (lit "Restore backup digest mismatch; journal retained")))
        else
        do r <- ask random ;;
        let rollback_file := RollbackFile index r in
        create_secret_file rollback_file ;;;
        copy backup rollback_file ;;;
        act (OSyncFile rollback_file) ;;;
        act (OReplace rollback_file (LDest destination))
      else ret (Err (InvalidInput (lit "Restore backup missing; journal retained")))
  | None =>
      do present <- exists_ (LDest destination) ;;
      if present : bool then act (ORemoveFile (LDest destination)) else ret (Ok tt)
  end ;;;
  act (OSyncDir (LParent destination)).

Definition rollback (journal : Journal) : M K unit :=
  for_eachM rollback_entry (rev (enumerate (entries journal))).

Definition read_journal : M K Journal :=
  do text <- read (LStaged JournalFile) ;;
  if blen text >? MAX_JOURNAL_SIZE then
    ret (Err (InvalidInput (lit "Restore journal is too large")))
  else
  do journal <- ret (map_err (fun e => InvalidInput (lit "Invalid restore journal: " ++ lit e))
                             (from_slice text)) ;;
  if negb (version journal =? 1) then
    ret (Err (InvalidInput (lit "Unsupported restore journal version")))
  else ret (Ok journal).

Definition recover_locked : M K bool :=
  no_links LStage ;;;
  do present <- exists_ LStage ;;
  if present : bool then
    no_links (LStaged JournalFile) ;;;
    do journaled <- exists_ (LStaged JournalFile) ;;
    (if journaled : bool then
       do journal <- read_journal ;;
       if publishing journal && negb (committed journal) then rollback journal else ret (Ok tt)
     else ret (Ok tt)) ;;;
    act ORemoveStage ;;;
    act (OSyncDir LTarget) ;;;
    ret (Ok true)
  else ret (Ok false).

Definition recover_interrupted_restore : M K bool := acquire ;;; recover_locked.

(** ** Publication *)

Fixpoint preflight (files : list DecryptedFile) (seen : list str) (paths : list K)
  : M K (list str * list K) :=
  match files with
  | [] => ret (Ok (seen, paths))
  | file :: rest =>
      let name := normalized (df_relative_path file) in
      if bool_decide (name ∈ seen) then
        ret (Err (UnsafePath (lit "Duplicate restore destination")))
      else
      do p <- validate_destination (df_relative_path file) ;;
      preflight rest (name :: seen) (paths ++ [p])
  end.

(** Stages one file: new contents, backup of the present contents, journal entry. *)
Definition stage_file (item : nat * (DecryptedFile * K)) : M K Entry :=
  let '(index, (file, destination)) := item in
  create_secret_file (NewFile index) ;;;
  act (OAppend (NewFile index) (df_plaintext file)) ;;;
  act (OSyncFile (NewFile index)) ;;;
  do present <- exists_ (LDest destination) ;;
  do previous <-
    (if present : bool then
       do digest <- file_digest (LDest destination) ;;
       create_secret_file (Backup index) ;;;
       copy (LDest destination) (Backup index) ;;;
       act (OSyncFile (Backup index)) ;;;
       do saved <- file_digest (LStaged (Backup index)) ;;
       if negb (bool_decide (saved = digest)) then
         ret (Err (ConcurrentModification (df_relative_path file)))
       else ret (Ok (Some digest))
     else ret (Ok None)) ;;
  act (OCreateDirAll (LParent destination)) ;;;
  ret (Ok {| path := df_relative_path file; previous_digest := previous;
             new_digest := compute_digest (df_plaintext file) |}).

Definition publish_file (publish : nat -> Name -> K -> M K unit)
  (item : nat * (Entry * K)) : M K unit :=
  let '(index, (entry, destination)) := item in
  validate_destination (path entry) ;;;
  do present <- exists_ (LDest destination) ;;
  do current <-
    (if present : bool then
       do digest <- file_digest (LDest destination) ;; ret (Ok (Some digest))
     else ret (Ok None)) ;;
  if negb (bool_decide (current = previous_digest entry)) then
    ret (Err (ConcurrentModification (path entry)))
  else
  publish index (NewFile index) destination ;;;
  act (OSyncDir (LParent destination)).

Definition publish_all (publish : nat -> Name -> K -> M K unit) (journal : Journal)
  (paths : list K) : M K unit :=
  write_journal journal ;;;
  for_eachM (publish_file publish) (enumerate (zip (entries journal) paths)) ;;;
  write_journal {| version := version journal; publishing := publishing journal;
                   committed := true; entries := entries journal |}.

Definition publish_with (publish : nat -> Name -> K -> M K unit) (files : list DecryptedFile)
  : M K (list K) :=
  acquire ;;;
  recover_locked ;;;
  do (seen, paths) <- preflight files [] [] ;;
  if existsb (collides seen) seen then
    ret (Err (UnsafePath (lit "File/directory collision in restore destinations")))
  else
  act OCreateStage ;;;
  act OLockStage ;;;
  do staging <- attempt (mapM stage_file (enumerate (zip files paths))) ;;
  match staging with
  | Err error => act ORemoveStage ;;; ret (Err error)
  | Ok staged_entries =>
      let journal := {| version := 1; publishing := true; committed := false;
                        entries := staged_entries |} in
      do result <- attempt (publish_all publish journal paths) ;;
      match result with
      | Err error =>
          do undone <- attempt (rollback journal) ;;
          match undone with
          | Err failure =>
              ret (Err (InvalidInput (lit "Restore failed (" ++ display_snapshot_error error
                ++ lit "); rollback failed (" ++ display_snapshot_error failure
                ++ lit "); journal at " ++ display LStage)))
          | Ok _ => act ORemoveStage ;;; ret (Err error)
          end
      | Ok _ => act ORemoveStage ;;; act (OSyncDir LTarget) ;;; ret (Ok paths)
      end
  end.

Definition atomic_replace (index : nat) (source : Name) (destination : K) : M K unit :=
  act (OReplace source (LDest destination)).

Definition publish_verified_files (files : list DecryptedFile) : M K (list K) :=
  publish_with atomic_replace files.

(** [restore_snapshot] of engine.rs. *)
Definition restore_snapshot `{!HkdfSha256, !Blake2b512, !XChaCha, !Hex}
  `{!Cbor Chunk.ChunkWireObject, !Cbor Manifest.SnapshotManifest}
  (vault_id epoch_key : bytes) (epoch : Z) (encrypted_manifest : bytes)
  (chunks : list Chunk.ChunkWireObject) : M K (list K) :=
  do verified_files <- ret (decrypt_snapshot vault_id epoch_key epoch encrypted_manifest chunks) ;;
  publish_verified_files verified_files.

End restore.
