(* ===== verification/RestoreTheory.v ===== *)
(** * The restore journal is crash safe

    Proofs about src/crates/snapshot/src/restore.rs: whatever calls fail and
    whenever the process dies, publication and recovery keep an invariant that
    ties the destination tree, the backups and the journal together; from it, a
    recovery that meets no further fault leaves either all the old contents or
    all the new ones. *)

From S2P Require Import Prelude Errors Primitives Crypto Schema Paths Chunker Engine RestoreFs Restore.

#[local] Open Scope fs_scope.

(** ** Staging directories up to temporary files *)

Definition temp (n : Name) : bool :=
  match n with JournalTmp _ | RollbackFile _ _ => true | _ => false end.
Definition keep (st : gmap Name bytes) : gmap Name bytes := filter (fun nb => temp nb.1 = false) st.

Lemma keep_lookup st st' n : keep st' = keep st -> temp n = false -> st' !! n = st !! n.
Proof.
  intros E Hn. apply (f_equal (lookup n)) in E. unfold keep in E.
  destruct (st !! n) as [b|] eqn:Eb.
  - rewrite (map_lookup_filter_Some_2 _ st n b) in E by done.
    by apply map_lookup_filter_Some in E as (-> & _).
  - rewrite (map_lookup_filter_None_2 _ st n) in E by auto.
    apply map_lookup_filter_None in E as [->|E]; [done|]. destruct (st' !! n) eqn:E'; [|done].
    by destruct (E _ eq_refl).
Qed.

Lemma keep_insert_temp st n b : temp n = true -> keep (<[n := b]> st) = keep st.
Proof.
  intros Hn. unfold keep. apply map_filter_strong_ext. intros k x. simpl.
  destruct (decide (k = n)) as [->|?]; [rewrite Hn; naive_solver|by rewrite lookup_insert_ne].
Qed.
Lemma keep_delete_temp st n : temp n = true -> keep (delete n st) = keep st.
Proof.
  intros Hn. unfold keep. apply map_filter_strong_ext. intros k x. simpl.
  destruct (decide (k = n)) as [->|?]; [rewrite Hn; naive_solver|by rewrite lookup_delete_ne].
Qed.
Lemma keep_insert st st' n b : keep st' = keep st -> keep (<[n := b]> st') = keep (<[n := b]> st).
Proof.
  intros E. unfold keep. apply map_filter_strong_ext. intros k x. simpl.
  destruct (decide (k = n)) as [->|?]; [by rewrite !lookup_insert_eq|].
  rewrite !lookup_insert_ne by done. destruct (temp k) eqn:Hk; [naive_solver|].
  by rewrite (keep_lookup st st' k).
Qed.

#[global] Hint Resolve keep_insert_temp keep_delete_temp : cv.

Section theory.
Context {K : Type} `{Countable K} `{!Platform K} `{!JournalJson} `{!JournalJsonLaws _}.
Context `{!Sha256} (e : Env K).
Implicit Types (s : Fs K) (t : gmap K bytes) (st : gmap Name bytes).

(** A state with a staging directory. *)
Abbreviation mk t st := ({| tree := t; stage := Some st |} : Fs K).

(** The existence checks report no error; one that did would answer "absent". *)
Hypothesis stats_work : forall l, ~ may_fail e (OStat l).

Lemma wp_exists l (Q : bool -> Fs K -> Prop) (F C : Fs K -> Prop) s :
  Q (exists_at s l) s -> C s -> wp e (exists_ l) Q F C s.
Proof.
  intros HQ HC. unfold exists_. apply wp_bind, wp_attempt, wp_idle; [done|done| | |done].
  - by apply wp_observe.
  - intros Hf. by destruct (stats_work l).
Qed.

(** ** The file operations *)

Lemma wp_create_secret_file n (Q : unit -> Fs K -> Prop) (F C : Fs K -> Prop) t st :
  (st !! n = None -> Q tt (mk t (<[n := []]> st))) ->
  C (mk t st) -> (st !! n = None -> C (mk t (<[n := []]> st))) ->
  ((clean e -> is_Some (st !! n)) -> F (mk t st)) ->
  (~ clean e -> st !! n = None -> F (mk t (<[n := []]> st))) ->
  wp e (create_secret_file n) Q F C (mk t st).
Proof.
  intros HQ HC HC' HF HF'. unfold create_secret_file. apply wp_bind, wp_act; simpl.
  2: intros msg; case_bool_decide; [|done]; intros _; eauto.
  2: intros _ Hc _; apply HF; done.
  2: by intros _.
  intros s'. case_bool_decide as Hn; [done|]. intros [= <-].
  apply eq_None_not_Some in Hn. split; [|auto]. change (on_stage <[n:=[]]> (mk t st)) with (mk t (<[n:=[]]> st)).
  apply wp_bind, wp_attempt, wp_idle; [done|done|by apply wp_ret_ok, HQ| |auto].
  intros _ Hc error. apply wp_bind, wp_attempt, wp_act; simpl.
  - intros s'. unfold staged. simpl. rewrite lookup_insert_eq. intros [= <-].
    assert (on_stage (delete n) (mk t (<[n:=[]]> st)) = mk t st) as ->.
    { unfold on_stage. simpl. by rewrite delete_insert_id. }
    split; [apply wp_ret_err, HF; done|done].
  - intros msg. unfold staged. simpl. by rewrite lookup_insert_eq.
  - intros _ _ _ x. apply wp_ret_err. auto.
  - intros _. auto.
Qed.

Lemma wp_append n b (Q : unit -> Fs K -> Prop) (F C : Fs K -> Prop) t st :
  Q tt (mk t (<[n := b]> st)) ->
  (forall b', C (mk t (<[n := b']> st))) ->
  (~ clean e -> forall b', F (mk t (<[n := b']> st))) ->
  wp e (act (OAppend n b)) Q F C (mk t (<[n := []]> st)).
Proof.
  intros HQ HC HF.
  assert (forall b', on_stage (alter (fun old => old ++ b') n) (mk t (<[n := []]> st))
                     = mk t (<[n := b']> st)) as E.
  { intros b'. unfold on_stage. simpl. by rewrite alter_insert_eq. }
  apply wp_act; simpl.
  - rewrite E. intros s' [= <-]. auto.
  - done.
  - intros _ Hc tn. rewrite E. auto.
  - intros tn. rewrite E. auto.
Qed.

Lemma wp_read l b (Q : bytes -> Fs K -> Prop) (F C : Fs K -> Prop) s :
  content s l = Some b -> Q b s -> C s -> (~ clean e -> F s) -> wp e (read l) Q F C s.
Proof.
  intros E HQ HC HF. unfold read. apply wp_bind, wp_idle; simpl; [by rewrite E|done| |auto|done].
  apply wp_observe. by rewrite E.
Qed.

Lemma wp_file_digest l b (Q : bytes -> Fs K -> Prop) (F C : Fs K -> Prop) s :
  content s l = Some b -> (blen b <= MAX_FILE_SIZE -> Q (compute_digest b) s) -> C s ->
  ((clean e -> MAX_FILE_SIZE < blen b) -> F s) -> wp e (file_digest l) Q F C s.
Proof.
  intros E HQ HC HF. unfold file_digest. apply wp_bind, (wp_read l b); [done| |done|naive_solver].
  destruct (Z.gtb_spec (blen b) MAX_FILE_SIZE); [apply wp_ret_err|apply wp_ret_ok]; auto.
Qed.

Lemma wp_copy l n b (Q : unit -> Fs K -> Prop) (F C : Fs K -> Prop) t st :
  content (mk t (<[n := []]> st)) l = Some b ->
  Q tt (mk t (<[n := b]> st)) ->
  (forall b', C (mk t (<[n := b']> st))) ->
  (~ clean e -> forall b', F (mk t (<[n := b']> st))) ->
  wp e (copy l n) Q F C (mk t (<[n := []]> st)).
Proof.
  intros E HQ HC HF. unfold copy. apply wp_bind, (wp_read l b); [done| |auto|auto].
  by apply wp_append.
Qed.

Lemma wp_no_links l (Q : unit -> Fs K -> Prop) (F C : Fs K -> Prop) s :
  Q tt s -> (~ clean e -> F s) -> wp e (no_links l) Q F C s.
Proof.
  intros HQ HF. unfold no_links. apply wp_bind, wp_ask. intros n. apply wp_ret.
  - by intros [] _.
  - intros x E. apply HF. intros (_ & Hc & _). by rewrite Hc in E.
Qed.

(** A destination the static checks accept. *)
Definition valid (relative : str) : Prop :=
  validate_safe_relative_path relative = Ok tt /\ reserved_component relative = false.

Lemma check_parents_ok ps :
  Forall (fun p => p.2 = PDir \/ p.2 = PMissing) ps -> for_each check_parent ps = Ok tt.
Proof. intros Hp. apply for_each_ok. eapply Forall_impl; [exact Hp|]. intros [? []] [|]; done. Qed.

Lemma wp_validate_destination p (Q : K -> Fs K -> Prop) (F C : Fs K -> Prop) s :
  (valid p -> Q (locate p) s) -> ((clean e -> ~ valid p) -> F s) ->
  wp e (validate_destination p) Q F C s.
Proof.
  intros HQ HF. unfold validate_destination. apply wp_bind, wp_ret.
  2: { intros x E. apply HF. intros _ (E' & _). by rewrite E' in E. }
  intros [] Hp. destruct (reserved_component p) eqn:Hr.
  { apply wp_ret_err, HF. intros _ (_ & E). by rewrite E in Hr. }
  apply wp_bind, wp_no_links; [|intros Hc; by apply HF].
  apply wp_bind, wp_ask. intros n. case_bool_decide as Hd.
  { apply wp_ret_err, HF. intros (_ & _ & Hc & _). by destruct (Hc n (locate p)). }
  apply wp_bind, wp_ask. intros n'. apply wp_bind, wp_ret.
  - intros [] _. apply wp_ret_ok. by apply HQ.
  - intros x E. apply HF. intros (_ & _ & _ & Hc). by rewrite check_parents_ok in E.
Qed.

(** ** The transaction

    [old] is the tree before the publication of [files]. *)

Variables (old : gmap K bytes) (files : list DecryptedFile).

Definition key (f : DecryptedFile) : K := locate (df_relative_path f).
Definition entry_of (f : DecryptedFile) : Entry :=
  {| path := df_relative_path f; previous_digest := compute_digest <$> old !! key f;
     new_digest := compute_digest (df_plaintext f) |}.
Definition journal (c : bool) : Journal :=
  {| version := 1; publishing := true; committed := c; entries := entry_of <$> files |}.

Definition publish_one t (f : DecryptedFile) : gmap K bytes := <[key f := df_plaintext f]> t.
Definition new : gmap K bytes := foldl publish_one old files.
Definition restore_one t (f : DecryptedFile) : gmap K bytes :=
  match old !! key f with Some b => <[key f := b]> t | None => delete (key f) t end.

(** Every file is as before or as published, and nothing else has changed. *)
Definition between t : Prop :=
  (forall k, (forall f, f ∈ files -> key f <> k) -> t !! k = old !! k) /\
  (forall f, f ∈ files -> t !! key f = old !! key f \/ t !! key f = Some (df_plaintext f)).

(** The backups that exist hold the old contents. *)
Definition sound st : Prop :=
  forall i f b, files !! i = Some f -> st !! Backup i = Some b -> old !! key f = Some b.
(** Every file that existed has its backup. *)
Definition complete st : Prop :=
  forall i f, files !! i = Some f -> is_Some (old !! key f) -> is_Some (st !! Backup i).

Definition small (b : bytes) : Prop := blen b <= MAX_FILE_SIZE.
Definition revertible : Prop :=
  Forall (fun f => valid (df_relative_path f) /\ small (df_plaintext f) /\
                   (forall b, old !! key f = Some b -> small b)) files.

Lemma restore_one_key t f : restore_one t f !! key f = old !! key f.
Proof.
  unfold restore_one. destruct (old !! key f); [by rewrite lookup_insert_eq|by rewrite lookup_delete_eq].
Qed.
Lemma restore_one_ne t f k : key f <> k -> restore_one t f !! k = t !! k.
Proof.
  intros Hk. unfold restore_one.
  destruct (old !! key f); [by rewrite lookup_insert_ne|by rewrite lookup_delete_ne].
Qed.

Lemma between_restore t f : f ∈ files -> between t -> between (restore_one t f).
Proof.
  intros Hf (Hout & Hin). split.
  - intros k Hk. rewrite restore_one_ne by auto. auto.
  - intros g Hg. destruct (decide (key f = key g)) as [E|E].
    + left. rewrite <- E. apply restore_one_key.
    + rewrite restore_one_ne by done. auto.
Qed.

Lemma between_old : between old.
Proof. split; auto. Qed.
Lemma restore_old f : restore_one old f = old.
Proof. unfold restore_one. destruct (old !! key f) eqn:E; [by apply insert_id|by apply delete_id]. Qed.

Lemma restore_all_lookup items t k :
  foldl (fun t (x : nat * DecryptedFile) => restore_one t x.2) t items !! k =
  if decide (k ∈ (fun x => key x.2) <$> items) then old !! k else t !! k.
Proof.
  revert t; induction items as [|x items IH]; intros t; [done|].
  cbn [foldl]. rewrite IH. rewrite fmap_cons.
  destruct (decide (key x.2 = k)) as [<-|Hk].
  - rewrite restore_one_key. repeat case_decide; set_solver.
  - rewrite restore_one_ne by done. repeat case_decide; set_solver.
Qed.

Lemma enumerate_elem {A} (l : list A) x : x ∈ enumerate l <-> l !! x.1 = Some x.2.
Proof.
  unfold enumerate. rewrite list_elem_of_lookup. split.
  - intros (i & E). rewrite list_lookup_imap in E. destruct (l !! i) eqn:El; simplify_eq/=. done.
  - intros E. exists x.1. rewrite list_lookup_imap, E. by destruct x.
Qed.

Lemma rev_fmap {A B} (f : A -> B) (l : list A) : rev (f <$> l) = f <$> rev l.
Proof. induction l as [|x l IH]; [done|]. cbn [rev fmap list_fmap]. by rewrite fmap_app, <- IH. Qed.

Lemma restore_all_between t :
  between t -> foldl (fun t x => restore_one t x.2) t (rev (enumerate files)) = old.
Proof.
  intros (Hout & Hin). apply map_eq. intros k. rewrite restore_all_lookup. case_decide as Hk; [done|].
  apply Hout. intros f Hf <-. apply Hk. apply list_elem_of_lookup in Hf as (i & Hi).
  apply list_elem_of_fmap. exists (i, f). split; [done|].
  apply list_elem_of_In. rewrite <- in_rev. apply list_elem_of_In. by apply enumerate_elem.
Qed.

(** ** Rolling back *)

Definition same_but (i : nat) st st' : Prop :=
  keep st' = keep st /\ forall j r, j <> i -> st' !! RollbackFile j r = st !! RollbackFile j r.

Lemma same_but_refl i st : same_but i st st.
Proof. done. Qed.
Lemma same_but_insert i r b st : same_but i st (<[RollbackFile i r := b]> st).
Proof. split; [auto with cv|]. intros j r' Hj. by rewrite lookup_insert_ne by congruence. Qed.
Lemma same_but_delete i r b st : same_but i st (delete (RollbackFile i r) (<[RollbackFile i r := b]> st)).
Proof.
  split; [by rewrite keep_delete_temp, keep_insert_temp|].
  intros j r' Hj. by rewrite lookup_delete_ne, lookup_insert_ne by congruence.
Qed.
#[local] Hint Resolve same_but_refl same_but_insert same_but_delete : core.

(** Nothing in the way of the temporary name of index [i]. *)
Definition unused st (i : nat) : Prop := forall n, st !! RollbackFile i (random e n) = None.

Lemma wp_rollback_check (Q : unit -> Fs K -> Prop) (F C : Fs K -> Prop) f t st :
  small (df_plaintext f) -> (forall b, old !! key f = Some b -> small b) ->
  t !! key f = old !! key f \/ t !! key f = Some (df_plaintext f) ->
  Q tt (mk t st) -> C (mk t st) -> (~ clean e -> F (mk t st)) ->
  wp e (rollback_check (key f) (entry_of f)) Q F C (mk t st).
Proof.
  intros Hs Hs' Ht HQ HC HF. unfold rollback_check. apply wp_bind, wp_exists; [simpl|done].
  case_bool_decide as Hp; [|by apply wp_ret_ok]. destruct Hp as (b & Eb).
  apply wp_bind, (wp_file_digest _ b); [done| |done|].
  - intros _. destruct Ht as [Ht|Ht]; rewrite Eb in Ht.
    + rewrite <- Ht. simpl. rewrite (bool_decide_true (Some _ = Some _)), andb_false_r by done.
      by apply wp_ret_ok.
    + injection Ht as ->. rewrite bool_decide_true by done. by apply wp_ret_ok.
  - intros Hb. apply HF. intros Hc. specialize (Hb Hc). unfold small in *.
    destruct Ht as [Ht|Ht]; rewrite Eb in Ht; [symmetry in Ht; apply Hs' in Ht; lia|].
    injection Ht as ->. lia.
Qed.

(** The branch of an entry that had a file before: the backup is copied and renamed. *)
Lemma wp_restore_backup (Q : unit -> Fs K -> Prop) (F C : Fs K -> Prop) i f b t st :
  old !! key f = Some b -> st !! Backup i = Some b -> small b ->
  (forall st', same_but i st st' -> Q tt (mk (<[key f := b]> t) st')) ->
  (forall t' st', t' = t \/ t' = <[key f := b]> t -> same_but i st st' -> C (mk t' st')) ->
  (forall st', same_but i st st' -> (clean e -> ~ unused st i) -> F (mk t st')) ->
  wp e (do digest <- file_digest (LStaged (Backup i)) ;;
        if negb (bool_decide (digest = compute_digest b)) then
          ret (Err (InvalidInput (lit "Restore backup digest mismatch; journal retained")))
        else
        do r <- ask random ;;
        create_secret_file (RollbackFile i r) ;;;
        copy (LStaged (Backup i)) (RollbackFile i r) ;;;
        act (OSyncFile (RollbackFile i r)) ;;;
        act (OReplace (RollbackFile i r) (LDest (key f)))) Q F C (mk t st).
Proof.
  intros Eo Eb Hs HQ HC HF.
  apply wp_bind, (wp_file_digest _ b); [done| |by apply HC; auto|].
  2: { intros Hb. apply HF; [done|]. intros Hc. specialize (Hb Hc). unfold small in Hs. lia. }
  intros _. rewrite bool_decide_true by done. simpl. apply wp_bind, wp_ask. intros n.
  apply wp_bind, wp_create_secret_file; [|by apply HC; auto|by intros _; apply HC; auto| |].
  2: { intros Hu. apply HF; [done|]. intros Hc Hun. destruct (Hu Hc) as (x & Hx). by rewrite Hun in Hx. }
  2: { intros Hc _. by apply HF. }
  intros Hn. apply wp_bind, (wp_copy _ _ b).
  - simpl. unfold staged. simpl. by rewrite lookup_insert_ne.
  - apply wp_bind, wp_idle; [done|done| |intros _ Hc; by apply HF|by apply HC; auto].
    apply wp_act; simpl; unfold staged; simpl; rewrite ?lookup_insert_eq.
    + intros s' [= <-]. split; [apply HQ|apply HC]; auto.
    + done.
    + intros _ Hc _. by apply HF.
    + intros _. apply HC; auto.
  - intros b'. apply HC; auto.
  - intros Hc b'. apply HF; done.
Qed.

Lemma wp_rollback_entry (Q : unit -> Fs K -> Prop) (F C : Fs K -> Prop) i f t st :
  revertible -> files !! i = Some f -> sound st ->
  t !! key f = old !! key f \/ t !! key f = Some (df_plaintext f) ->
  (forall st', same_but i st st' -> Q tt (mk (restore_one t f) st')) ->
  (forall t' st', t' = t \/ t' = restore_one t f -> same_but i st st' -> C (mk t' st')) ->
  (forall t' st', t' = t \/ t' = restore_one t f -> same_but i st st' ->
     (clean e -> unused st i -> is_Some (old !! key f) /\ st !! Backup i = None) -> F (mk t' st')) ->
  wp e (rollback_entry (i, entry_of f)) Q F C (mk t st).
Proof.
  intros Hr Hf Hsound Ht HQ HC HF. unfold revertible in Hr. rewrite Forall_forall in Hr.
  destruct (Hr f) as (Hv & Hs & Hs'); [by eapply list_elem_of_lookup_2|].
  unfold rollback_entry. apply wp_bind, wp_validate_destination.
  2: { intros Hc. apply HF; auto. intros Hcl. by destruct (Hc Hcl). }
  intros _. apply wp_bind. apply (wp_rollback_check _ _ _ f); auto.
  2: { intros Hc. apply HF; auto. done. }
  apply wp_bind.
  assert (forall st', same_but i st st' ->
    wp e (act (OSyncDir (LParent (key f)))) Q F C (mk (restore_one t f) st')) as Hsync.
  { intros st' Hst'. apply wp_idle; auto. intros _ Hc. apply HF; auto. done. }
  cbn [previous_digest entry_of]. unfold restore_one in *. destruct (old !! key f) as [b|] eqn:Eo; simpl.
  - apply wp_bind, wp_exists; [|by apply HC; auto]. simpl. unfold staged. simpl. case_bool_decide as Hp.
    + destruct Hp as (b' & Eb). pose proof (Hsound i f b' Hf Eb) as Eo'.
      rewrite Eo in Eo'. injection Eo' as <-.
      apply (wp_restore_backup _ _ _ i f b); auto. intros st' Hst' Hc. apply HF; auto. intros ??. by destruct Hc.
    + apply wp_ret_err, HF; auto. intros _ _. split; [done|]. by apply eq_None_not_Some.
  - apply wp_bind, wp_exists; [|by apply HC; auto]. simpl. case_bool_decide as Hp.
    + destruct Hp as (b & Eb). apply wp_act; simpl; rewrite ?Eb.
      * intros s' [= <-]. split; [by apply Hsync|apply HC; auto].
      * done.
      * intros _ Hc _. apply HF; auto. done.
      * intros _. apply HC; auto.
    + apply wp_ret_ok. apply eq_None_not_Some in Hp.
      pose proof (Hsync st (same_but_refl i st)) as Hw. by rewrite delete_id in Hw.
Qed.

Lemma sound_keep st st' : keep st' = keep st -> sound st -> sound st'.
Proof. intros E Hs i f b Hf Hb. apply (Hs i f b Hf). by rewrite <- (keep_lookup st st'). Qed.
Lemma complete_keep st st' : keep st' = keep st -> complete st -> complete st'.
Proof. intros E Hs i f Hf Ho. rewrite (keep_lookup st st') by done. by eapply Hs. Qed.

Lemma imap_const_seq {A} (l : list A) : imap (fun n => fst ∘ pair n) l = seq 0 (length l).
Proof.
  apply list_eq. intros i. rewrite list_lookup_imap. destruct (l !! i) eqn:E; simpl.
  - apply lookup_lt_Some in E. symmetry. apply lookup_seq. lia.
  - apply lookup_ge_None in E. symmetry. apply lookup_seq_ge. lia.
Qed.

Section rolling_back.
Variable T : gmap K bytes -> Prop.
Hypothesis T_contents : forall t f, T t -> f ∈ files ->
  t !! key f = old !! key f \/ t !! key f = Some (df_plaintext f).
Hypothesis T_restore : forall t f, T t -> f ∈ files -> T (restore_one t f).

Lemma wp_rollback_items (Q : unit -> Fs K -> Prop) (F C : Fs K -> Prop) items t st :
  revertible -> (forall x, x ∈ items -> files !! x.1 = Some x.2) -> NoDup items.*1 -> sound st -> T t ->
  (forall st', keep st' = keep st ->
     Q tt (mk (foldl (fun t x => restore_one t x.2) t items) st')) ->
  (forall t' st', T t' -> keep st' = keep st -> C (mk t' st')) ->
  (forall t' st', T t' -> keep st' = keep st ->
     (clean e -> (forall x, x ∈ items -> unused st x.1) -> ~ complete st) -> F (mk t' st')) ->
  wp e (for_eachM rollback_entry (prod_map id entry_of <$> items)) Q F C (mk t st).
Proof.
  intros Hr. revert t st; induction items as [|[i f] items IH]; intros t st Hin Hnd Hs Ht HQ HC HF.
  { apply wp_ret_ok. by apply HQ. }
  rewrite fmap_cons in Hnd. rewrite fmap_cons. apply NoDup_cons in Hnd as (Hi & Hnd). cbn [for_eachM].
  change (prod_map id entry_of (i, f)) with (i, entry_of f).
  assert (files !! i = Some f) as Ef by by apply (Hin (i, f)), list_elem_of_here.
  pose proof (list_elem_of_lookup_2 _ _ _ Ef) as Hf.
  apply wp_bind, wp_rollback_entry; auto.
  - intros st' (Hk & Hu). apply IH; eauto using sound_keep.
    + intros x Hx. apply Hin. by right.
    + intros st'' Hst''. apply HQ. congruence.
    + intros t' st'' ??. apply HC; [done|congruence].
    + intros t' st'' ?? Hc. apply HF; [done|congruence|]. intros Hcl Hun Hco.
      apply (Hc Hcl); [|by eapply complete_keep]. intros x Hx n. rewrite Hu.
      * apply Hun. by right.
      * intros <-. apply Hi. exact (list_elem_of_fmap_2 fst _ _ Hx).
  - intros t' st' [-> | ->] (Hk & _); auto.
  - intros t' st' Ht' (Hk & _) Hc. apply HF; [destruct Ht' as [-> | ->]; auto|done|].
    intros Hcl Hun Hco. destruct (Hc Hcl) as (Ho & Hb); [apply (Hun (i, f)), list_elem_of_here|].
    destruct (Hco i f Ef Ho). congruence.
Qed.

Lemma wp_rollback (Q : unit -> Fs K -> Prop) (F C : Fs K -> Prop) c t st :
  revertible -> sound st -> T t ->
  (forall st', keep st' = keep st ->
     Q tt (mk (foldl (fun t x => restore_one t x.2) t (rev (enumerate files))) st')) ->
  (forall t' st', T t' -> keep st' = keep st -> C (mk t' st')) ->
  (forall t' st', T t' -> keep st' = keep st ->
     (clean e -> (forall i, unused st i) -> ~ complete st) -> F (mk t' st')) ->
  wp e (rollback (journal c)) Q F C (mk t st).
Proof.
  intros Hr Hs Ht HQ HC HF. unfold rollback, journal. cbn [entries].
  assert (rev (enumerate (entry_of <$> files)) = prod_map id entry_of <$> rev (enumerate files)) as ->.
  { rewrite <- rev_fmap. f_equal. unfold enumerate. by rewrite imap_fmap, fmap_imap. }
  apply wp_rollback_items; auto.
  - intros x Hx%list_elem_of_In%in_rev%list_elem_of_In. by apply enumerate_elem.
  - rewrite <- rev_fmap. apply NoDup_ListNoDup, NoDup_rev, NoDup_ListNoDup.
    unfold enumerate. rewrite fmap_imap, imap_const_seq. apply NoDup_seq.
Qed.
End rolling_back.

(** A rollback over an untouched tree changes nothing. *)
Lemma wp_rollback_old (Q : unit -> Fs K -> Prop) (F C : Fs K -> Prop) c st :
  revertible -> sound st ->
  (forall st', keep st' = keep st -> Q tt (mk old st')) ->
  (forall st', keep st' = keep st -> C (mk old st')) ->
  (forall st', keep st' = keep st ->
     (clean e -> (forall i, unused st i) -> ~ complete st) -> F (mk old st')) ->
  wp e (rollback (journal c)) Q F C (mk old st).
Proof.
  intros Hr Hs HQ HC HF. apply (wp_rollback (fun t => t = old)); auto.
  - intros t f -> _. by left.
  - intros t f -> _. apply restore_old.
  - intros st' Hk. rewrite restore_all_between by apply between_old. auto.
  - intros t' st' -> Hk. auto.
  - intros t' st' -> Hk. auto.
Qed.

(** ** The invariant *)

Definition settled t st : Prop :=
  match st !! JournalFile with
  | None => t = old \/ t = new
  | Some text =>
      (to_vec (journal true) = Ok text /\ t = new) \/
      (to_vec (journal false) = Ok text /\ revertible /\ sound st /\ t = old)
  end.
Definition pending t st : Prop :=
  exists text, st !! JournalFile = Some text /\ to_vec (journal false) = Ok text /\
    revertible /\ sound st /\ complete st /\ between t.

Definition Inv s : Prop :=
  match stage s with
  | None => tree s = old \/ tree s = new
  | Some st => settled (tree s) st \/ pending (tree s) st
  end.

(** A retained journal whose backups were partly removed: the tree is the old one,
    and recovery stops for want of a backup. *)
Definition wedged s : Prop :=
  tree s = old /\ exists st, stage s = Some st /\ is_Some (st !! JournalFile) /\ ~ complete st.

Lemma settled_keep t st st' : keep st' = keep st -> settled t st -> settled t st'.
Proof.
  intros E. unfold settled. rewrite (keep_lookup st st' JournalFile) by done.
  destruct (st !! JournalFile); [|done]. intros [?|(? & ? & ? & ?)]; [by left|right].
  split_and!; auto. by eapply sound_keep.
Qed.
Lemma pending_keep t st st' : keep st' = keep st -> pending t st -> pending t st'.
Proof.
  intros E (text & Hj & Ht & Hr & Hs & Hc & Hb). exists text.
  rewrite (keep_lookup st st' JournalFile) by done. eauto 10 using sound_keep, complete_keep.
Qed.

Lemma settled_filter t st (D : gset Name) :
  settled t st -> settled t (filter (fun nb => nb.1 ∉ D) st).
Proof.
  intros Hs. unfold settled in *.
  destruct (filter (fun nb => nb.1 ∉ D) st !! JournalFile) as [text|] eqn:E.
  - apply map_lookup_filter_Some in E as (E & _). rewrite E in Hs.
    destruct Hs as [?|(? & ? & Hs & ?)]; [by left|right]. split_and!; auto.
    intros i f b Hf (Hb & _)%map_lookup_filter_Some. by eapply Hs.
  - destruct (st !! JournalFile); [destruct Hs as [(_ & ?)|(_ & _ & _ & ?)]; auto|done].
Qed.

Lemma wp_remove_stage (Q : unit -> Fs K -> Prop) (F : Fs K -> Prop) t st :
  settled t st -> Q tt {| tree := t; stage := None |} ->
  (~ clean e -> forall st', settled t st' -> F (mk t st')) ->
  wp e (act ORemoveStage) Q F Inv (mk t st).
Proof.
  intros Hs HQ HF. apply wp_act; simpl.
  - intros s' [= <-]. split; [done|]. unfold Inv. simpl. unfold settled in Hs.
    destruct (st !! JournalFile); naive_solver.
  - done.
  - intros _ Hc tn. apply (HF Hc). by apply settled_filter.
  - intros tn. left. by apply settled_filter.
Qed.

Hypothesis journal_fits :
  forall c text, to_vec (journal c) = Ok text -> blen text <= MAX_JOURNAL_SIZE.

Lemma wp_read_journal (Q : Journal -> Fs K -> Prop) (F C : Fs K -> Prop) c text t st :
  st !! JournalFile = Some text -> to_vec (journal c) = Ok text ->
  Q (journal c) (mk t st) -> C (mk t st) -> (~ clean e -> F (mk t st)) ->
  wp e read_journal Q F C (mk t st).
Proof.
  intros Hj Ht HQ HC HF. unfold read_journal. apply wp_bind, (wp_read _ text); auto.
  pose proof (journal_fits c text Ht). destruct (Z.gtb_spec (blen text) MAX_JOURNAL_SIZE); [lia|].
  rewrite (from_slice_to_vec _ _ Ht). apply wp_bind. simpl. apply wp_ret_ok. simpl. by apply wp_ret_ok.
Qed.

Lemma wp_rollback_pending (Q : unit -> Fs K -> Prop) (F : Fs K -> Prop) t st :
  pending t st ->
  (forall st', settled old st' -> Q tt (mk old st')) ->
  (forall t' st', pending t' st' -> keep st' = keep st ->
     (clean e -> (forall i, unused st i) -> False) -> F (mk t' st')) ->
  wp e (rollback (journal false)) Q F Inv (mk t st).
Proof.
  intros (text & Hj & Ht & Hr & Hs & Hc & Hb) HQ HF.
  assert (forall t' st', between t' -> keep st' = keep st -> pending t' st') as Hpend.
  { intros t' st' Hb' Hk. eapply pending_keep; [exact Hk|]. by exists text. }
  apply (wp_rollback between); auto using between_restore.
  - intros t' f (_ & Hb') Hf. auto.
  - intros st' Hk. rewrite restore_all_between by done. apply HQ.
    unfold settled. rewrite (keep_lookup st st'), Hj by done. right. eauto using sound_keep.
  - intros t' st' Hb' Hk. right. auto.
  - intros t' st' Hb' Hk Hbl. apply HF; auto. intros Hcl Hu. by destruct (Hbl Hcl Hu).
Qed.

(** The part of recovery between the presence checks and the removal. *)
Lemma wp_recover_journal t st (F : Fs K -> Prop) :
  settled t st \/ pending t st ->
  (forall t' st', keep st' = keep st -> Inv (mk t' st') ->
     (clean e -> (forall i, unused st i) -> wedged (mk t' st')) -> F (mk t' st')) ->
  wp e (if bool_decide (is_Some (st !! JournalFile)) then
          do j <- read_journal ;;
          if publishing j && negb (committed j) then rollback j else ret (Ok tt)
        else ret (Ok tt))
    (fun _ s' => exists t' st', s' = mk t' st' /\ settled t' st') F Inv (mk t st).
Proof.
  intros Hi HF. case_bool_decide as Hp.
  2: { apply wp_ret_ok. exists t, st. split; [done|]. destruct Hi as [?|(text & E & _)]; [done|].
       rewrite E in Hp. by destruct Hp. }
  destruct Hp as (text & Hj). pose proof Hi as Hi'. destruct Hi as [Hs|Hp].
  - pose proof Hs as Hs'. unfold settled in Hs'. rewrite Hj in Hs'.
    destruct Hs' as [(Ht & ->)|(Ht & Hr & Hso & ->)].
    + apply wp_bind, (wp_read_journal _ _ _ true text); auto.
      2: intros Hc; by apply HF.
      apply wp_ret_ok. eauto.
    + apply wp_bind, (wp_read_journal _ _ _ false text); auto.
      2: intros Hc; by apply HF.
      apply wp_rollback_old; auto.
      * intros st' Hk. exists old, st'. split; [done|by eapply settled_keep].
      * intros st' Hk. left. by eapply settled_keep.
      * intros st' Hk Hc. apply HF; [done|left; by eapply settled_keep|].
        intros Hcl Hu. split; [done|]. exists st'. split; [done|]. split.
        -- rewrite (keep_lookup st st') by done. by exists text.
        -- intros Hco. apply (Hc Hcl Hu). eapply complete_keep; [|exact Hco]. done.
  - pose proof Hp as (text' & Hj' & Ht & Hr & Hso & Hco & Hb). rewrite Hj in Hj'. injection Hj' as <-.
    apply wp_bind, (wp_read_journal _ _ _ false text); auto.
    2: intros Hc; by apply HF.
    apply wp_rollback_pending; [done|eauto|]. intros t' st' Hp' Hk Hc.
    apply HF; [done|by right|]. intros Hcl Hu. by destruct (Hc Hcl Hu).
Qed.

Definition finished s : Prop := stage s = None /\ (tree s = old \/ tree s = new).
(** No temporary file of an earlier rollback has a name this run would draw. *)
Definition unused_in s : Prop :=
  match stage s with None => True | Some st => forall i, unused st i end.

Lemma wp_recover_locked s :
  Inv s -> wp e recover_locked (fun _ => finished)
             (fun s' => Inv s' /\ (clean e -> unused_in s -> wedged s')) Inv s.
Proof.
  intros Hi. unfold recover_locked.
  apply wp_bind, wp_no_links; [|by split]. apply wp_bind, wp_exists; [simpl|done].
  destruct s as [t [st|]]; simpl; [|by apply wp_ret_ok].
  apply wp_bind, wp_no_links; [|by split]. apply wp_bind, wp_exists; [simpl; unfold staged; simpl|done].
  apply wp_bind. eapply wp_mono.
  1: apply (wp_recover_journal t st (fun s' => Inv s' /\ (clean e -> unused_in (mk t st) -> wedged s')) Hi); auto.
  2,3: done.
  intros _ s' (t' & st' & -> & Hs). apply wp_bind, wp_remove_stage; [done| |].
  - assert (t' = old \/ t' = new) as Ht by (unfold settled in Hs; destruct (st' !! JournalFile); naive_solver).
    apply wp_bind, wp_idle; [done|done|by apply wp_ret_ok|by split|done].
  - intros Hc st'' Hs'. split; [by left|done].
Qed.

(** ** Publication *)

Hypothesis new_small : Forall (fun f => small (df_plaintext f)) files.
Hypothesis locate_normalized : forall p q, locate p = locate q -> normalized p = normalized q.
Hypothesis stage_sync_works : ~ may_fail e (OSyncDir LStage).

Definition name_of (f : DecryptedFile) : str := normalized (df_relative_path f).
Definition old_small (f : DecryptedFile) : Prop := forall b, old !! key f = Some b -> small b.

Lemma wp_acquire (Q : unit -> Fs K -> Prop) (F C : Fs K -> Prop) s :
  Q tt s -> C s -> (~ clean e -> F s) -> wp e acquire Q F C s.
Proof.
  intros HQ HC HF. unfold acquire. apply wp_bind, wp_no_links; [|done].
  apply wp_bind, wp_idle; auto. apply wp_bind, wp_no_links; [|done].
  apply wp_bind, wp_idle; auto. apply wp_idle; auto.
Qed.

Lemma wp_preflight (Q : list str * list K -> Fs K -> Prop) (F C : Fs K -> Prop) fs seen paths s :
  NoDup seen ->
  (Forall (fun f => valid (df_relative_path f)) fs -> NoDup (rev (name_of <$> fs) ++ seen) ->
   Q (rev (name_of <$> fs) ++ seen, paths ++ (key <$> fs)) s) ->
  ((clean e -> ~ (Forall (fun f => valid (df_relative_path f)) fs /\
                  NoDup (rev (name_of <$> fs) ++ seen))) -> F s) ->
  wp e (preflight fs seen paths) Q F C s.
Proof.
  revert seen paths; induction fs as [|f fs IH]; intros seen paths Hnd HQ HF; cbn [preflight].
  { apply wp_ret_ok. rewrite app_nil_r in HQ. by apply HQ. }
  rewrite fmap_cons in HQ. rewrite fmap_cons in HF. rewrite fmap_cons in HQ.
  cbn [rev] in HQ, HF. rewrite <- (assoc_L (++)) in HQ. rewrite <- (assoc_L (++)) in HF. simpl in HQ, HF.
  fold (name_of f). case_bool_decide as Hin.
  { apply wp_ret_err, HF. intros _ (_ & Hd). apply NoDup_app in Hd as (_ & _ & Hd).
    by apply NoDup_cons in Hd as (? & _). }
  apply wp_bind, wp_validate_destination.
  2: { intros Hc. apply HF. intros Hcl (Hv & _). apply Forall_cons in Hv as (Hv & _). by destruct (Hc Hcl). }
  intros Hv. apply IH.
  - by apply NoDup_cons.
  - intros Hvs Hd. rewrite <- (assoc_L (++)). apply HQ; [by constructor|done].
  - intros Hc. apply HF. intros Hcl (Hvs & Hd). apply (Hc Hcl). by apply Forall_cons in Hvs as (_ & ?).
Qed.

(** The staging directory after the files [done] have been staged. *)
Definition staged_to (done : list DecryptedFile) st : Prop :=
  (forall j, st !! NewFile j = df_plaintext <$> done !! j) /\
  (forall j, st !! Backup j = done !! j ≫= (fun f => old !! key f)) /\
  st !! JournalFile = None /\ (forall r, st !! JournalTmp r = None).

Lemma wp_backup (Q : option bytes -> Fs K -> Prop) (F C : Fs K -> Prop) i f st :
  st !! Backup i = None -> st !! JournalFile = None ->
  (old_small f -> Q (compute_digest <$> old !! key f)
     (mk old (match old !! key f with Some b => <[Backup i := b]> st | None => st end))) ->
  (forall st', st' !! JournalFile = None -> C (mk old st')) ->
  (forall st', st' !! JournalFile = None -> (clean e -> ~ old_small f) -> F (mk old st')) ->
  wp e (if bool_decide (is_Some (old !! key f)) then
          do digest <- file_digest (LDest (key f)) ;;
          create_secret_file (Backup i) ;;;
          copy (LDest (key f)) (Backup i) ;;;
          act (OSyncFile (Backup i)) ;;;
          do saved <- file_digest (LStaged (Backup i)) ;;
          if negb (bool_decide (saved = digest)) then
            ret (Err (ConcurrentModification (df_relative_path f)))
          else ret (Ok (Some digest))
        else ret (Ok None)) Q F C (mk old st).
Proof.
  intros Hb Hj HQ HC HF.
  assert (forall b, (<[Backup i := b]> st) !! JournalFile = None) as Hj'
    by (intros b; by rewrite lookup_insert_ne).
  unfold old_small in *. destruct (old !! key f) as [b|] eqn:Eo; cycle 1.
  { rewrite bool_decide_false by by intros (? & ?). by apply wp_ret_ok, HQ. }
  rewrite bool_decide_true by by eexists.
  apply wp_bind, (wp_file_digest _ b); [done| |auto|].
  2: { intros Hc. apply HF; [done|]. intros Hcl Hs. specialize (Hc Hcl). specialize (Hs b eq_refl).
       unfold small in Hs. lia. }
  intros Hsm. assert (forall b', Some b = Some b' -> small b') as Hs by (by intros ? [= <-]).
  apply wp_bind, wp_create_secret_file; auto.
  2: { intros Hc. apply HF; [done|]. intros Hcl _. destruct (Hc Hcl) as (? & ?). congruence. }
  intros _. apply wp_bind, (wp_copy _ _ b); auto.
  apply wp_bind, wp_idle; [done|done| |intros _ Hc; by apply HF|auto].
  assert (content (mk old (<[Backup i := b]> st)) (LStaged (Backup i)) = Some b) as Ec.
  { simpl. unfold staged. simpl. by rewrite lookup_insert_eq. }
  apply wp_bind, (wp_file_digest _ b); [done| |auto|].
  - intros _. rewrite bool_decide_true by done. apply wp_ret_ok. by apply HQ.
  - intros Hc. apply HF; [done|]. intros Hcl _. specialize (Hc Hcl). lia.
Qed.

Lemma lookup_snoc {A} (l : list A) x j :
  (l ++ [x]) !! j = if decide (j = length l) then Some x else l !! j.
Proof.
  case_decide as Hj; [subst; by rewrite list_lookup_middle|].
  destruct (decide (j < length l)%nat); [by rewrite lookup_app_l|].
  rewrite !(proj2 (lookup_ge_None _ j)); [done|lia|rewrite length_app; simpl; lia].
Qed.

Lemma staged_to_snoc done f st :
  staged_to done st ->
  staged_to (done ++ [f])
    (match old !! key f with
     | Some b => <[Backup (length done) := b]> (<[NewFile (length done) := df_plaintext f]> st)
     | None => <[NewFile (length done) := df_plaintext f]> st
     end).
Proof.
  intros (Hn & Hb & Hj & Ht).
  assert (done !! length done = None) as E by (apply lookup_ge_None; lia).
  split_and!.
  - intros j. rewrite lookup_snoc. case_decide; destruct (old !! key f); subst;
      rewrite ?(lookup_insert_ne _ (Backup _)) by done; rewrite ?lookup_insert_eq; auto;
      by rewrite lookup_insert_ne by congruence.
  - intros j. rewrite lookup_snoc. case_decide; subst; simpl.
    + destruct (old !! key f); [by rewrite lookup_insert_eq|]. by rewrite lookup_insert_ne, Hb, E by done.
    + destruct (old !! key f); by rewrite ?lookup_insert_ne by congruence.
  - destruct (old !! key f); by rewrite ?lookup_insert_ne by done.
  - intros r. destruct (old !! key f); by rewrite ?lookup_insert_ne by done.
Qed.

Lemma wp_stage_file (Q : Entry -> Fs K -> Prop) (F C : Fs K -> Prop) done f st :
  staged_to done st ->
  (forall st', old_small f -> staged_to (done ++ [f]) st' -> Q (entry_of f) (mk old st')) ->
  (forall st', st' !! JournalFile = None -> C (mk old st')) ->
  (forall st', st' !! JournalFile = None -> (clean e -> ~ old_small f) -> F (mk old st')) ->
  wp e (stage_file (length done, (f, key f))) Q F C (mk old st).
Proof.
  intros Hst HQ HC HF. pose proof Hst as (Hn & Hb & Hj & Ht).
  assert (done !! length done = None) as E by (apply lookup_ge_None; lia).
  assert (forall b, (<[NewFile (length done) := b]> st) !! JournalFile = None) as Hj'
    by (intros b; by rewrite lookup_insert_ne).
  unfold stage_file. apply wp_bind, wp_create_secret_file; auto.
  2: { intros Hc. apply HF; [done|]. intros Hcl _. destruct (Hc Hcl) as (x & Hx).
       by rewrite Hn, E in Hx. }
  intros _. apply wp_bind, wp_append; auto. apply wp_bind, wp_idle; auto.
  apply wp_bind, wp_exists; [simpl|by apply HC]. apply wp_bind, wp_backup; auto.
  { by rewrite lookup_insert_ne, Hb, E by done. }
  intros Hs. pose proof (staged_to_snoc done f st Hst) as Hst'.
  apply wp_bind, wp_idle; [done|done|by apply wp_ret_ok, HQ| |].
  - intros _ Hc. apply HF; [apply Hst'|]. by intros.
  - apply HC. apply Hst'.
Qed.

Lemma wp_stage_all (Q : list Entry -> Fs K -> Prop) (F C : Fs K -> Prop) done rest st :
  staged_to done st -> done ++ rest = files ->
  (forall st', Forall old_small rest -> staged_to files st' -> Q (entry_of <$> rest) (mk old st')) ->
  (forall st', st' !! JournalFile = None -> C (mk old st')) ->
  (forall st', st' !! JournalFile = None -> (clean e -> ~ Forall old_small rest) -> F (mk old st')) ->
  wp e (mapM stage_file (imap (fun j f => ((length done + j)%nat, (f, key f))) rest)) Q F C (mk old st).
Proof.
  revert done Q st; induction rest as [|f rest IH]; intros done Q st Hst E HQ HC HF.
  { rewrite app_nil_r in E. subst. apply wp_ret_ok. by apply HQ. }
  cbn [imap mapM]. rewrite Nat.add_0_r. apply wp_bind, wp_stage_file; auto.
  2: { intros st' Hj Hc. apply HF; [done|]. intros Hcl (Hs & _)%Forall_cons. by apply (Hc Hcl). }
  intros st' Hs Hst'. apply wp_bind.
  replace (imap _ rest) with (imap (fun j g => ((length (done ++ [f]) + j)%nat, (g, key g))) rest)
    by (apply imap_ext; intros j g _; cbn; rewrite length_app; cbn; f_equal; lia).
  apply IH; [done|by rewrite <- (assoc_L (++))| |done|].
  - intros st'' Hss Hst''. apply wp_ret_ok, HQ; [by constructor|done].
  - intros st'' Hj Hc. apply HF; [done|]. intros Hcl (_ & Hss)%Forall_cons. by apply (Hc Hcl).
Qed.

Lemma wp_write_journal (Q : unit -> Fs K -> Prop) (F C : Fs K -> Prop) c t st :
  (forall st' text, to_vec (journal c) = Ok text -> keep st' = keep (<[JournalFile := text]> st) ->
     ((forall r, st !! JournalTmp r = None) -> forall r, st' !! JournalTmp r = None) ->
     Q tt (mk t st') /\ C (mk t st')) ->
  (forall st', keep st' = keep st -> C (mk t st')) ->
  (forall st', keep st' = keep st ->
     (clean e -> (forall r, st !! JournalTmp r = None) -> forall text, to_vec (journal c) <> Ok text) ->
     F (mk t st')) ->
  wp e (write_journal (journal c)) Q F C (mk t st).
Proof.
  intros HQ HC HF. unfold write_journal. apply wp_bind, wp_ask. intros n. set (tmp := JournalTmp _).
  assert (forall b, keep (<[tmp := b]> st) = keep st) as Hk by (intros; by apply keep_insert_temp).
  assert (forall st' x, keep st' = keep st ->
    (clean e -> (forall r, st !! JournalTmp r = None) -> forall text, to_vec (journal c) <> Ok text) ->
    wp e (attempt (act (ORemoveFile (LStaged tmp))) ;;; ret (Err x)) Q F C (mk t st')) as Herr.
  { intros st' x Hst' Hc. apply wp_bind, wp_attempt, wp_act; simpl.
    - intros s'. destruct (staged _ _); [|done]. intros [= <-].
      assert (keep (delete tmp st') = keep st) as E by by rewrite keep_delete_temp.
      split; [apply wp_ret_err; exact (HF _ E Hc)|exact (HC _ E)].
    - intros msg _. split; [intros y; apply wp_ret_err|]; auto.
    - intros _ _ _ y. apply wp_ret_err. auto.
    - auto. }
  apply wp_bind, wp_attempt. apply wp_bind, wp_create_secret_file; auto.
  2: { intros Hu x. apply Herr; [done|]. intros Hcl Hno. destruct (Hu Hcl) as (y & Hy).
       unfold tmp in Hy. by rewrite Hno in Hy. }
  intros Hn. apply wp_bind, wp_ret.
  2: { intros x Hx. intros y. apply Herr; [done|]. intros _ _ text Ht. by rewrite Ht in Hx. }
  intros text Ht. destruct (to_vec (journal c)) as [text'|] eqn:Et; [|done]. injection Ht as ->.
  apply wp_bind, wp_append; auto.
  apply wp_bind, wp_idle; [done|done| |intros _ Hc x; by apply Herr|auto].
  set (st1 := <[JournalFile := text]> (delete tmp (<[tmp := text]> st))).
  destruct (HQ st1 text) as (HQ1 & HC1); [done| | |].
  { apply keep_insert. by rewrite keep_delete_temp, Hk. }
  { intros Hno r. unfold st1. rewrite lookup_insert_ne by done.
    destruct (decide (JournalTmp r = tmp)) as [->|Hne]; [by rewrite lookup_delete_eq|].
    by rewrite lookup_delete_ne, lookup_insert_ne by done. }
  apply wp_bind, wp_act; simpl; unfold staged; simpl; rewrite ?lookup_insert_eq.
  - intros s' [= <-]. change (put _ _ _) with (mk t st1). split; [|done].
    apply wp_idle; [done|done|by apply wp_ret_ok| |done]. intros Hf. by destruct stage_sync_works.
  - done.
  - intros _ Hc _ x. apply Herr; [done|]. by intros.
  - intros _. auto.
Qed.

Section publishing.
Variable text : bytes.
Hypothesis journal_text : to_vec (journal false) = Ok text.
Hypothesis can_revert : revertible.
Hypothesis keys_distinct : NoDup (key <$> files).

(** The staging directory when [done] of the files are in place. *)
Definition publishing_stage (done : list DecryptedFile) st : Prop :=
  st !! JournalFile = Some text /\ sound st /\ complete st /\
  (forall j f, (length done <= j)%nat -> files !! j = Some f -> st !! NewFile j = Some (df_plaintext f)) /\
  (forall r, st !! JournalTmp r = None).

Lemma key_inj f g : f ∈ files -> g ∈ files -> key f = key g -> f = g.
Proof.
  intros (i & Hi)%list_elem_of_lookup (j & Hj)%list_elem_of_lookup E.
  assert (i = j) as ->; [|congruence]. eapply (NoDup_lookup (key <$> files)); [done| |].
  - rewrite list_lookup_fmap, Hi. done.
  - rewrite list_lookup_fmap, Hj. simpl. by rewrite E.
Qed.

Lemma between_publish t f : f ∈ files -> between t -> between (publish_one t f).
Proof.
  intros Hf (Hout & Hin). unfold publish_one. split.
  - intros k Hk. rewrite lookup_insert_ne by auto. auto.
  - intros g Hg. destruct (decide (key f = key g)) as [E|E].
    + rewrite E, lookup_insert_eq. right. by rewrite (key_inj f g).
    + rewrite lookup_insert_ne by done. auto.
Qed.

Lemma published_lookup done t f :
  (key f ∉ key <$> done) -> foldl publish_one t done !! key f = t !! key f.
Proof.
  revert t; induction done as [|g done IH]; intros t Hf; [done|].
  rewrite fmap_cons, not_elem_of_cons in Hf. destruct Hf as (Hne & Hf). simpl. rewrite IH by done.
  unfold publish_one. by rewrite lookup_insert_ne.
Qed.

Lemma pending_stage t done st : publishing_stage done st -> between t -> pending t st.
Proof. intros (Hj & Hs & Hc & _) Hb. by exists text. Qed.

Lemma publishing_stage_next done f st :
  publishing_stage done st -> publishing_stage (done ++ [f]) (delete (NewFile (length done)) st).
Proof.
  intros (Hj & Hs & Hc & Hn & Ht). split_and!.
  - by rewrite lookup_delete_ne.
  - intros i g b Hg. rewrite lookup_delete_ne by done. by apply Hs.
  - intros i g Hg Ho. rewrite lookup_delete_ne by done. by eapply Hc.
  - intros j g. rewrite length_app. simpl. intros Hl Hg.
    rewrite lookup_delete_ne by (intros [= ?]; lia). apply Hn; [lia|done].
  - intros r. by rewrite lookup_delete_ne.
Qed.

Lemma wp_publish_file (Q : unit -> Fs K -> Prop) done f rest st :
  let t := foldl publish_one old done in
  done ++ f :: rest = files -> publishing_stage done st -> between t ->
  (forall st', publishing_stage (done ++ [f]) st' -> Q tt (mk (publish_one t f) st')) ->
  wp e (publish_file atomic_replace (length done, (entry_of f, key f))) Q
     (fun s => ~ clean e /\ exists t' st', s = mk t' st' /\ pending t' st') Inv (mk t st).
Proof.
  intros t Efs Hst Hb HQ. pose proof Hst as (_ & _ & _ & Hn & _).
  pose proof can_revert as Hr. unfold revertible in Hr. rewrite Forall_forall in Hr.
  assert (files !! length done = Some f) as Ef by (rewrite <- Efs; by rewrite list_lookup_middle).
  pose proof (list_elem_of_lookup_2 _ _ _ Ef) as Hf. destruct (Hr f Hf) as (Hv & Hs & Hs').
  assert (t !! key f = old !! key f) as Et.
  { apply published_lookup. pose proof keys_distinct as Hnd. rewrite <- Efs, fmap_app, fmap_cons in Hnd.
    apply NoDup_app in Hnd as (_ & Hd & _). intros Hin. apply (Hd _ Hin). apply list_elem_of_here. }
  assert (pending t st) as Hp by by eapply pending_stage.
  assert (~ clean e -> ~ clean e /\ exists t' st', mk t st = mk t' st' /\ pending t' st') as HF by eauto.
  unfold publish_file. apply wp_bind, wp_validate_destination.
  2: { intros Hc. apply HF. intros Hcl. by destruct (Hc Hcl). }
  intros _. apply wp_bind, wp_exists; [simpl; rewrite Et|by right]. apply wp_bind.
  apply (wp_mono e _ (fun d s => s = mk t st /\ d = previous_digest (entry_of f))
           _ (fun s => ~ clean e /\ s = mk t st) _ Inv).
  { simpl. case_bool_decide as Ho.
    - destruct Ho as (b & Eb). apply wp_bind, (wp_file_digest _ b); simpl; [congruence| |by right|].
      + intros _. apply wp_ret_ok. by rewrite Eb.
      + intros Hc. split; [|done]. intros Hcl. specialize (Hc Hcl). specialize (Hs' b Eb). unfold small in Hs'. lia.
    - apply wp_ret_ok. apply eq_None_not_Some in Ho. by rewrite Ho. }
  2: { intros s (Hc & ->). auto. }
  2: done.
  intros d s (-> & ->). rewrite bool_decide_true by done. simpl.
  pose proof (publishing_stage_next done f st Hst) as Hst'.
  pose proof (between_publish t f Hf Hb) as Hb'. pose proof (pending_stage _ _ _ Hst' Hb') as Hp'.
  apply wp_bind. unfold atomic_replace.
  apply wp_act; simpl; unfold staged; simpl; rewrite ?(Hn (length done) f (le_n _) Ef).
  - intros s' [= <-]. split; [|by right].
    apply wp_idle; [done|done|by apply HQ| |by right]. intros _ Hc. split; [done|]. eauto.
  - done.
  - intros _ Hc _. auto.
  - intros _. by right.
Qed.

Lemma wp_publish_loop (Q : unit -> Fs K -> Prop) done rest st :
  let t := foldl publish_one old done in
  done ++ rest = files -> publishing_stage done st -> between t ->
  (forall st', publishing_stage files st' -> between new -> Q tt (mk new st')) ->
  wp e (for_eachM (publish_file atomic_replace)
          (imap (fun j f => ((length done + j)%nat, (entry_of f, key f))) rest)) Q
     (fun s => ~ clean e /\ exists t' st', s = mk t' st' /\ pending t' st') Inv (mk t st).
Proof.
  revert done st; induction rest as [|f rest IH]; intros done st t E Hst Hb HQ.
  { rewrite app_nil_r in E. apply wp_ret_ok. unfold t, new in *. rewrite E in *. by apply HQ. }
  cbn [imap for_eachM]. rewrite Nat.add_0_r. apply wp_bind, (wp_publish_file _ done f rest); auto.
  intros st' Hst'.
  replace (imap _ rest) with (imap (fun j g => ((length (done ++ [f]) + j)%nat, (entry_of g, key g))) rest)
    by (apply imap_ext; intros j g _; cbn; rewrite length_app; cbn; f_equal; lia).
  specialize (IH (done ++ [f]) st'). rewrite foldl_app in IH. apply IH; auto.
  - by rewrite <- (assoc_L (++)).
  - apply between_publish; [|done]. rewrite <- E. apply elem_of_app. right. apply list_elem_of_here.
Qed.
End publishing.

Lemma enumerate_zip {A B C} (g : A -> B) (h : A -> C) (l : list A) :
  enumerate (zip (g <$> l) (h <$> l)) = imap (fun j x => ((0 + j)%nat, (g x, h x))) l.
Proof.
  replace (zip (g <$> l) (h <$> l)) with ((fun x => (g x, h x)) <$> l).
  - unfold enumerate. by rewrite imap_fmap.
  - induction l as [|x l IH]; [done|]. rewrite !fmap_cons. cbn [zip zip_with]. by rewrite IH.
Qed.

Lemma staged_sound st : staged_to files st -> sound st.
Proof. intros (_ & Hb & _) i f b Hf E. by rewrite Hb, Hf in E. Qed.
Lemma staged_complete st : staged_to files st -> complete st.
Proof. intros (_ & Hb & _) i f Hf Ho. by rewrite Hb, Hf. Qed.

(** After a failed publication: nothing was published, or the journal says how to go back. *)
Definition undoable t st : Prop :=
  pending t st \/ (t = old /\ st !! JournalFile = None /\ sound st /\ complete st).

Definition publishable : Prop := forall c, exists text, to_vec (journal c) = Ok text.

Lemma wp_publish_all st :
  staged_to files st -> revertible -> NoDup (key <$> files) ->
  wp e (publish_all atomic_replace (journal false) (key <$> files))
    (fun _ s => exists st', s = mk new st' /\ settled new st')
    (fun s => (clean e -> ~ publishable) /\ exists t st', s = mk t st' /\ undoable t st')
    Inv (mk old st).
Proof.
  intros Hst Hr Hnd. pose proof Hst as (Hn & Hb & Hj & Ht).
  pose proof (staged_sound st Hst) as Hs. pose proof (staged_complete st Hst) as Hc.
  unfold publish_all. apply wp_bind, wp_write_journal.
  2: { intros st' Hk. left. unfold settled. rewrite (keep_lookup st st'), Hj by done. by left. }
  2: { intros st' Hk Hbl. split.
       - intros Hcl Hpub. destruct (Hpub false) as (text & Htx). by apply (Hbl Hcl Ht text).
       - exists old, st'. split; [done|]. right. split_and!; eauto using sound_keep, complete_keep.
         by rewrite (keep_lookup st st'), Hj. }
  intros st1 text Htx Hk Htmp.
  assert (forall n, temp n = false -> n <> JournalFile -> st1 !! n = st !! n) as Hl.
  { intros n Hn1 Hn2. rewrite (keep_lookup _ st1 n Hk) by done. by rewrite lookup_insert_ne. }
  assert (publishing_stage text [] st1) as Hps.
  { split_and!; [by rewrite (keep_lookup _ st1 _ Hk), lookup_insert_eq|..].
    - intros i f b Hf. rewrite Hl by done. by apply Hs.
    - intros i f Hf Ho. rewrite Hl by done. by eapply Hc.
    - intros j f _ Hf. by rewrite Hl, Hn, Hf by done.
    - auto. }
  assert (pending old st1) as Hpend by by eapply pending_stage, between_old.
  split; [|by right]. apply wp_bind. cbn [entries journal]. rewrite enumerate_zip.
  eapply wp_mono; [apply (wp_publish_loop text Htx Hr Hnd _ [] files st1 eq_refl Hps between_old)| | |].
  4: done.
  3: { intros s (Hcl & t' & st' & -> & Hp). split; [done|]. exists t', st'. split; [done|by left]. }
  2: { intros a s Hq. exact Hq. }
  intros st2 Hps2 Hbn. pose proof Hps2 as (Hj2 & _ & _ & _ & Ht2).
  pose proof (pending_stage _ Htx Hr _ _ _ Hps2 Hbn) as Hp2.
  change {| version := _ |} with (journal true). apply wp_write_journal.
  - intros st3 text' Htx' Hk3 _. assert (settled new st3) as Hset.
    { unfold settled. rewrite (keep_lookup _ st3 _ Hk3), lookup_insert_eq by done. by left. }
    split; [eauto|by left].
  - intros st3 Hk3. right. by eapply pending_keep.
  - intros st3 Hk3 Hbl. split.
    + intros Hcl Hpub. destruct (Hpub true) as (text' & Htx'). by apply (Hbl Hcl Ht2 text').
    + exists new, st3. split; [done|]. left. by eapply pending_keep.
Qed.

(** Rolling back a failed publication in the running process. *)
Lemma wp_undo (Q : unit -> Fs K -> Prop) (F : Fs K -> Prop) t st :
  revertible -> undoable t st ->
  (forall st', settled old st' -> Q tt (mk old st')) -> (forall s, Inv s -> F s) ->
  wp e (rollback (journal false)) Q F Inv (mk t st).
Proof.
  intros Hr [Hp|(-> & Hj & Hs & Hc)] HQ HF.
  - apply wp_rollback_pending; [done|done|]. intros t' st' Hp' _ _. apply HF. by right.
  - assert (settled old st) as Hset by (unfold settled; rewrite Hj; by left).
    apply wp_rollback_old; auto.
    + intros st' Hk. apply HQ. by eapply settled_keep.
    + intros st' Hk. left. by eapply settled_keep.
    + intros st' Hk _. apply HF. left. by eapply settled_keep.
Qed.

Lemma collides_ext (a b : list str) p : (forall x, x ∈ a <-> x ∈ b) -> collides a p = collides b p.
Proof.
  intros E. unfold collides. induction (scan_prefixes [] (split_on SLASH p)) as [|x l IH]; [done|].
  simpl. rewrite IH. do 2 f_equal. apply bool_decide_ext, E.
Qed.

(** What a publication needs in order to go through. *)
Definition request_ok : Prop :=
  Forall (fun f => valid (df_relative_path f)) files /\ NoDup (name_of <$> files) /\
  Forall (fun p => collides (name_of <$> files) p = false) (name_of <$> files) /\
  Forall old_small files /\ publishable.

Lemma no_collision seen :
  (forall x, x ∈ seen <-> x ∈ name_of <$> files) ->
  existsb (collides seen) seen = true ->
  ~ Forall (fun p => collides (name_of <$> files) p = false) (name_of <$> files).
Proof.
  intros E (p & Hp & Hc)%existsb_exists Hf. rewrite Forall_forall in Hf.
  rewrite (collides_ext _ _ _ E), Hf in Hc; [done|]. by apply E, list_elem_of_In.
Qed.

Lemma keys_nodup : NoDup (name_of <$> files) -> NoDup (key <$> files).
Proof.
  unfold name_of, key. generalize files. induction files0 as [|f fs IH]; [constructor|].
  rewrite !fmap_cons. intros (Hn & Hd)%NoDup_cons. apply NoDup_cons. split; [|auto].
  intros (g & E & Hg)%list_elem_of_fmap. apply Hn. apply list_elem_of_fmap. eauto.
Qed.

Lemma wp_publish_verified_files :
  wp e (publish_verified_files files)
    (fun paths s => paths = key <$> files /\ s = {| tree := new; stage := None |})
    (fun s => Inv s /\ (clean e -> ~ request_ok)) Inv {| tree := old; stage := None |}.
Proof.
  assert (Inv {| tree := old; stage := None |}) as Hi0 by by left.
  unfold publish_verified_files, publish_with. apply wp_bind, wp_acquire; [|done|by split].
  apply wp_bind. unfold recover_locked. apply wp_bind, wp_no_links; [|by split].
  apply wp_bind, wp_exists; [simpl|done]. apply wp_ret_ok.
  apply wp_bind, wp_preflight; [constructor| |].
  2: { intros Hc. split; [done|]. intros Hcl (Hv & Hnd & _). apply (Hc Hcl). split; [done|].
       rewrite app_nil_r. apply NoDup_ListNoDup, NoDup_rev. by apply NoDup_ListNoDup. }
  intros Hv Hnd. rewrite app_nil_r in Hnd |- *. simpl.
  assert (NoDup (name_of <$> files)) as Hnd'.
  { apply NoDup_ListNoDup. rewrite <- (rev_involutive (name_of <$> files)). apply NoDup_rev.
    by apply NoDup_ListNoDup. }
  apply keys_nodup in Hnd'.
  destruct (existsb _ _) eqn:Hcol.
  { apply wp_ret_err. split; [done|]. intros _ (_ & _ & Hf & _). revert Hf.
    apply (no_collision (rev (name_of <$> files))); [|done].
    intros x. rewrite !list_elem_of_In. symmetry. apply in_rev. }
  apply wp_bind, wp_act; simpl; [|done|by split|done].
  intros s' [= <-]. assert (staged_to [] ∅) as Hst0 by done.
  assert (forall st, st !! JournalFile = None -> settled old st) as Hset
    by (intros st Hj; unfold settled; rewrite Hj; by left).
  assert (forall st, st !! JournalFile = None -> Inv (mk old st)) as Hinv by (intros; left; by apply Hset).
  split; [|by apply Hinv]. apply wp_bind, wp_idle; [done|done| |by split; [apply Hinv|]|by apply Hinv].
  replace (zip files (key <$> files)) with (zip (id <$> files) (key <$> files))
    by by rewrite list_fmap_id. rewrite enumerate_zip.
  apply wp_bind, wp_attempt, (wp_stage_all _ _ _ [] files ∅ Hst0 eq_refl); [|by apply Hinv|].
  2: { intros st Hj Hc error. apply wp_bind, wp_remove_stage; [by apply Hset| |].
       - apply wp_ret_err. split; [by left|]. intros Hcl (_ & _ & _ & Hs & _). by apply (Hc Hcl).
       - intros Hcl st' Hs'. split; [by left|done]. }
  intros st Hsm Hst.
  assert (revertible) as Hr.
  { unfold revertible. rewrite Forall_forall in *. intros f Hf. split_and!; auto. by apply Hsm. }
  change {| version := 1 |} with (journal false).
  apply wp_bind, wp_attempt. eapply wp_mono; [by apply wp_publish_all| | |done].
  - intros _ s (st' & -> & Hs'). apply wp_bind, wp_remove_stage; [done| |].
    + apply wp_bind, wp_idle; [done|done|by apply wp_ret_ok| |by right]. split; [by right|done].
    + intros Hcl st'' Hs''. split; [by left|done].
  - intros s (Hc & t & st' & -> & Hu) error.
    assert (clean e -> ~ request_ok) as Hbad by (intros Hcl (_ & _ & _ & _ & Hp); by apply (Hc Hcl)).
    apply wp_bind, wp_attempt, wp_undo; [done|done| |].
    + intros st'' Hs''. apply wp_bind, wp_remove_stage; [done| |].
      * apply wp_ret_err. split; [by left|done].
      * intros Hcl st3 Hs3. split; [by left|done].
    + intros s Hs x. apply wp_ret_err. by split.
Qed.

End theory.

(** ** Histories *)

Section histories.
Context {K : Type} `{Countable K} `{!Platform K} `{!JournalJson} `{!JournalJsonLaws _} `{!Sha256}.

(** The file system a run leaves behind, however it ends. *)
Definition after {A} (m : M K A) (e : Env K) (s : Fs K) : Fs K :=
  match m e s 0%nat with Done _ s' _ => s' | Crashed s' => s' end.

(** A clean environment kills no process. *)
Definition survives {A} (m : M K A) : Prop :=
  forall e s n, clean e -> match m e s n with Done _ _ _ => True | Crashed _ => False end.

Lemma survives_ret {A} (r : result SnapshotError A) : survives (ret r).
Proof. done. Qed.
Lemma survives_ask {A} (f : Env K -> nat -> A) : survives (ask f).
Proof. done. Qed.
Lemma survives_observe {A} (f : Fs K -> A) : survives (observe f).
Proof. done. Qed.
Lemma survives_act op : survives (act op).
Proof. intros e s n (Hf & _). unfold act. rewrite Hf. by destruct (exec op s). Qed.
Lemma survives_attempt {A} (m : M K A) : survives m -> survives (attempt m).
Proof. intros Hm e s n Hc. specialize (Hm e s n Hc). unfold attempt. by destruct (m e s n). Qed.
Lemma survives_bind {A B} (m : M K A) (k : A -> M K B) :
  survives m -> (forall a, survives (k a)) -> survives (bindM m k).
Proof.
  intros Hm Hk e s n Hc. specialize (Hm e s n Hc). unfold bindM.
  destruct (m e s n) as [[a|x] s' n'|s']; [by apply Hk|done..].
Qed.
Lemma survives_for_each {A} (f : A -> M K unit) xs : (forall x, survives (f x)) -> survives (for_eachM f xs).
Proof. intros Hf. induction xs; [done|]. simpl. by apply survives_bind. Qed.
Lemma survives_map {A B} (f : A -> M K B) xs : (forall x, survives (f x)) -> survives (mapM f xs).
Proof.
  intros Hf. induction xs; [done|]. simpl. apply survives_bind; [done|]. intros y.
  apply survives_bind; [done|]. intros ys. done.
Qed.

#[local] Hint Resolve survives_ret survives_ask survives_observe survives_act survives_attempt
  survives_for_each survives_map : core.
#[local] Ltac survive :=
  repeat first [progress intros | solve [auto] | apply survives_bind | apply survives_attempt
               | case_match | progress cbv beta zeta].

Lemma survives_create n : survives (create_secret_file n).
Proof. unfold create_secret_file. survive. Qed.
Lemma survives_validate p : survives (validate_destination p).
Proof. unfold validate_destination, no_links. survive. Qed.
Lemma survives_digest l : survives (file_digest l).
Proof. unfold file_digest, read. survive. Qed.
Lemma survives_copy l n : survives (copy l n).
Proof. unfold copy, read. survive. Qed.
#[local] Hint Resolve survives_create survives_validate survives_digest survives_copy : core.
Lemma survives_write_journal j : survives (write_journal j).
Proof. unfold write_journal. survive. Qed.
Lemma survives_rollback j : survives (rollback j).
Proof. apply survives_for_each. intros [i x]. unfold rollback_entry, rollback_check, exists_. survive. Qed.
Lemma survives_acquire : survives acquire.
Proof. unfold acquire, no_links. survive. Qed.
#[local] Hint Resolve survives_write_journal survives_rollback survives_acquire : core.
Lemma survives_recover_locked : survives recover_locked.
Proof. unfold recover_locked, no_links, exists_, read_journal, read. survive. Qed.
Lemma survives_preflight fs seen paths : survives (preflight fs seen paths).
Proof. revert seen paths. induction fs; intros; simpl; survive. Qed.
Lemma survives_stage_file x : survives (stage_file x).
Proof. destruct x as (i & f & k). unfold stage_file, exists_. survive. Qed.
Lemma survives_publish_all j paths : survives (publish_all atomic_replace j paths).
Proof.
  unfold publish_all. survive. apply survives_for_each. intros (i & x & k).
  unfold publish_file, exists_, atomic_replace. survive.
Qed.
#[local] Hint Resolve survives_recover_locked survives_preflight survives_stage_file survives_publish_all : core.
Lemma survives_publish files : survives (publish_verified_files files).
Proof. unfold publish_verified_files, publish_with. survive. Qed.

End histories.
