(* ===== verification/RestoreAtomic.v ===== *)
(** * Restores are all or nothing

    The statements about src/crates/snapshot/src/restore.rs that follow from the
    crash invariant, a sample platform on which they are instantiated, and the faults
    with which the guarantee ends: an existence check that fails, a flush of the staging
    directory that fails after the commit, and a crash inside the removal of the staging
    directory. *)

From S2P Require Import Prelude Errors Primitives SamplePrimitives Crypto Schema Paths Chunker Engine EngineTheory RestoreFs Restore RestoreTheory.

Section statements.
Context {K : Type} `{Countable K} `{!Platform K} `{!JournalJson} `{!JournalJsonLaws _} `{!Sha256}.

(** The start of a restore: the tree [old] and no staging directory. *)
Definition start (old : gmap K bytes) : Fs K := {| tree := old; stage := None |}.

(** Attempts at recovery, one environment each, all of which may fail or die. *)
Definition recoveries (es : list (Env K)) (s : Fs K) : Fs K :=
  foldl (fun s e => after recover_interrupted_restore e s) s es.

Lemma after_inv {A} (m : M K A) e (Q : A -> Fs K -> Prop) (F C P : Fs K -> Prop) s :
  wp e m Q F C s -> (forall a t, Q a t -> P t) -> (forall t, F t -> P t) -> (forall t, C t -> P t) ->
  P (after m e s).
Proof.
  intros Hw HQ HF HC. unfold after. specialize (Hw 0%nat).
  destruct (m e s 0%nat) as [[a|x] s' n'|s']; eauto.
Qed.

(** No existence check reports an error. *)
Definition stats_work (e : Env K) : Prop := forall l, ~ may_fail e (OStat l).

Lemma clean_never_fails (e : Env K) op : clean e -> ~ may_fail e op.
Proof. intros (Hf & _) (n & msg & t & E). by rewrite Hf in E. Qed.
Lemma clean_stats (e : Env K) : clean e -> stats_work e.
Proof. intros Hc l. by apply clean_never_fails. Qed.

Lemma wp_recover_interrupted e old files s :
  stats_work e -> (forall c text, to_vec (journal old files c) = Ok text -> blen text <= MAX_JOURNAL_SIZE) ->
  Inv old files s ->
  wp e recover_interrupted_restore (fun _ => finished old files)
    (fun s' => Inv old files s' /\ (clean e -> unused_in e s -> wedged old files s'))
    (Inv old files) s.
Proof.
  intros Hst Hj Hi. unfold recover_interrupted_restore. apply wp_bind, wp_acquire; [|done|by split].
  by apply wp_recover_locked.
Qed.

Lemma finished_inv old files s : finished old files s -> Inv old files s.
Proof. intros (E & Ht). unfold Inv. by rewrite E. Qed.

Lemma recoveries_inv old files es s :
  Forall stats_work es -> (forall c text, to_vec (journal old files c) = Ok text -> blen text <= MAX_JOURNAL_SIZE) ->
  Inv old files s -> Inv old files (recoveries es s).
Proof.
  intros Hst Hj. revert s; induction Hst as [|e es He _ IH]; intros s Hi; [done|]. apply IH.
  eapply after_inv; [by apply wp_recover_interrupted| | |done].
  - intros b t. apply finished_inv.
  - by intros t (? & _).
Qed.

(** C1: a restore is all or nothing across crashes.  Let the publication of [files]
    over [old] run with any calls failing or half done and die at any point, and let
    any number of recoveries fail or die in the same way; of all calls, only two kinds
    must report no error: an existence check, in any of these runs, and the flush of
    the staging directory, in the publication.  Then a recovery that meets no fault
    (and whose temporary names are fresh) leaves exactly the old tree or exactly the
    new one, with the staging directory gone; the one exception is a journal whose
    backups an earlier, interrupted removal deleted, and there the tree is already the
    old one.  Every file is within the size limit of a restore, so is the journal, and
    paths that lead to one destination normalise alike. *)
Theorem restore_crash_atomic old files e es e' :
  (forall p q, locate p = locate q -> normalized p = normalized q) ->
  Forall (fun f => blen (df_plaintext f) <= MAX_FILE_SIZE) files ->
  (forall c text, to_vec (journal old files c) = Ok text -> blen text <= MAX_JOURNAL_SIZE) ->
  stats_work e -> Forall stats_work es -> ~ may_fail e (OSyncDir LStage) ->
  let s := recoveries es (after (publish_verified_files files) e (start old)) in
  clean e' -> unused_in e' s ->
  let s' := after recover_interrupted_restore e' s in
  (stage s' = None /\ (tree s' = old \/ tree s' = new old files)) \/ wedged old files s'.
Proof.
  intros Hloc Hs Hj Hst Hsts Hsync s Hc Hu s'.
  assert (Inv old files s) as Hi.
  { apply recoveries_inv; [done|done|]. eapply after_inv; [by apply wp_publish_verified_files| | |done].
    - intros paths t (_ & ->). by right.
    - by intros t (? & _). }
  unfold s', after. pose proof (wp_recover_interrupted e' old files s (clean_stats e' Hc) Hj Hi 0%nat) as Hw.
  pose proof (survives_bind _ _ survives_acquire (fun _ => survives_recover_locked) e' s 0%nat Hc) as Hsv.
  fold (@recover_interrupted_restore K _ _ _ _ _) in Hsv.
  destruct (recover_interrupted_restore e' s 0%nat) as [[a|x] s'' n''|s'']; [by left| |done].
  right. by apply Hw.
Qed.

Lemma publishes_clean old files e :
  (forall p q, locate p = locate q -> normalized p = normalized q) ->
  Forall (fun f => blen (df_plaintext f) <= MAX_FILE_SIZE) files ->
  clean e -> request_ok old files ->
  exists n, publish_verified_files files e (start old) 0%nat
            = Done (Ok (key <$> files)) {| tree := new old files; stage := None |} n.
Proof.
  intros Hloc Hs Hc Hr.
  pose proof (wp_publish_verified_files e (clean_stats e Hc) old files Hs Hloc (clean_never_fails e _ Hc) 0%nat) as Hw.
  fold (start old) in Hw. pose proof (survives_publish files e (start old) 0%nat Hc) as Hsv.
  destruct (publish_verified_files files e (start old) 0%nat) as [[a|x] s'' n''|s''];
    [destruct Hw as (-> & ->); eauto|by destruct Hw as (_ & Hw); destruct (Hw Hc)|done].
Qed.

(** A restore that reports success has published exactly the requested files
    and removed its staging directory, whatever failed on the way; and in a clean
    environment every well-formed request (safe paths, no two naming the same
    destination, none below another, contents within the size limit) succeeds. *)
Theorem restore_publishes old files e :
  (forall p q, locate p = locate q -> normalized p = normalized q) ->
  Forall (fun f => blen (df_plaintext f) <= MAX_FILE_SIZE) files ->
  stats_work e -> ~ may_fail e (OSyncDir LStage) ->
  (forall paths s n, publish_verified_files files e (start old) 0%nat = Done (Ok paths) s n ->
     paths = key <$> files /\ s = {| tree := new old files; stage := None |}) /\
  (clean e -> request_ok old files ->
   exists n, publish_verified_files files e (start old) 0%nat
             = Done (Ok (key <$> files)) {| tree := new old files; stage := None |} n).
Proof.
  intros Hloc Hs Hst Hsync.
  pose proof (wp_publish_verified_files e Hst old files Hs Hloc Hsync 0%nat) as Hw. fold (start old) in Hw.
  split.
  - intros paths s n E. by rewrite E in Hw.
  - by apply publishes_clean.
Qed.

(** An environment in which everything works but the existence check of the journal. *)
Definition blind (e : Env K) : Prop :=
  (forall n op, op <> OStat (LStaged JournalFile) -> fault e n op = Fine) /\
  (forall n, exists msg t, fault e n (OStat (LStaged JournalFile)) = Fails msg t) /\
  (forall n l, validate_no_links (link_probe e n l) = Ok tt).

Lemma act_fine (e : Env K) op (s s' : Fs K) n : fault e n op = Fine -> exec op s = Ok s' -> act op e s n = Done (Ok tt) s' (S n).
Proof. intros E Ex. unfold act. by rewrite E, Ex. Qed.
Lemma bind_done {A B} (m : M K A) (k : A -> M K B) e s n a s' n' :
  m e s n = Done (Ok a) s' n' -> bindM m k e s n = k a e s' n'.
Proof. intros E. unfold bindM. by rewrite E. Qed.
Lemma no_links_done (e : Env K) l (s : Fs K) n : (forall n l, validate_no_links (link_probe e n l) = Ok tt) -> no_links l e s n = Done (Ok tt) s (S n).
Proof. intros Hl. unfold no_links, bindM, ask, ret. by rewrite Hl. Qed.

(** C40: the existence check of the journal must not fail.  When it reports an error, which
    [Path::exists] turns into "absent", and every other call works, a recovery of any
    interrupted restore reports success, leaves the tree as the interruption left it, and
    removes the staging directory with the journal and all backups. *)
Theorem blind_recovery_drops_backups (e : Env K) (s : Fs K) st : blind e -> stage s = Some st ->
  exists n, recover_interrupted_restore e s 0%nat = Done (Ok true) {| tree := tree s; stage := None |} n.
Proof.
  intros (Hf & Hj & Hl) Es. eexists. unfold recover_interrupted_restore, recover_locked.
  assert (forall op (s s' : Fs K) n, op <> OStat (LStaged JournalFile) -> exec op s = Ok s' -> act op e s n = Done (Ok tt) s' (S n)) as Hact
    by (intros; apply act_fine; auto).
  assert (forall l (s : Fs K) n, no_links l e s n = Done (Ok tt) s (S n)) as Hno by (intros; by apply no_links_done).
  assert (forall n, exists_ LStage e s n = Done (Ok true) s (S n)) as Hstage.
  { intros n. unfold exists_, bindM, attempt. rewrite (Hact _ s s) by done. unfold observe. cbn. by rewrite Es, bool_decide_true. }
  assert (forall n, exists_ (LStaged JournalFile) e s n = Done (Ok false) s (S n)) as Hjournal.
  { intros n. unfold exists_, bindM, attempt, act. destruct (Hj n) as (msg & t & ->). done. }
  assert (exec ORemoveStage s = Ok {| tree := tree s; stage := None |}) as Er by (cbn; by rewrite Es).
  assert (forall n, acquire e s n = Done (Ok tt) s (S (S (S (S (S n)))))) as Ha.
  { intros n. unfold acquire. do 4 (erewrite bind_done; [|first [apply Hno|by apply Hact]]). by apply Hact. }
  do 5 (erewrite bind_done; [|first [apply Ha|apply Hno|apply Hstage|apply Hjournal]]; cbv iota). erewrite bind_done; [|reflexivity].
  do 2 (erewrite bind_done; [|by apply Hact]). reflexivity.
Qed.

End statements.

(** C2: from capture to disk.  A snapshot captured from the tracked files and
    restored with the vault's epoch key, with no call failing, publishes exactly the
    captured files over the old tree and removes its staging directory.  The restore
    must be one that can be published: paths that are safe here, no two of which lead
    to one destination or one below another, present files within the size limit, a
    journal that can be encoded, and a platform where paths that lead to one
    destination normalise alike.  The only escape is that the capture itself holds two
    chunks with different encodings and the same SHA-256. *)
Theorem capture_restore_roundtrip
  {K : Type} `{Countable K} {PL : Platform K} {JJ : JournalJson} {JL : JournalJsonLaws JJ}
  {XC : XChaCha} {XL : XChaChaLaws XC} {B2 : Blake2b512} {BL : Blake2b512Laws B2}
  {HK : HkdfSha256} {KL : HkdfSha256Laws HK} {SH : Sha256} {SL : Sha256Laws SH} {HX : Hex}
  {ED : Ed25519} {CC : Cbor Chunk.ChunkWireObject} {CCL : CborLaws _ CC}
  {CM : Cbor Manifest.SnapshotManifest} {CML : CborLaws _ CM} {CS : Cbor Snapshot.SnapshotRecord}
  {HSM : Type} {HM : HardwareSecurityModule HSM}
  env links root sid nonce now tracked vault epoch ek parents dev ctr gen (signer : DeviceSigner HSM) wv out
  (old : gmap K bytes) (e : Env K) :
  length nonce = 24%nat ->
  create_snapshot_with_signer_and_write_version env links (Ok root) sid nonce now tracked vault epoch
    ek parents dev ctr gen signer wv = Ok out ->
  (forall p q, locate p = locate q -> normalized p = normalized q) ->
  clean e -> request_ok old (omap (captured root) tracked) ->
  (exists n, restore_snapshot vault ek epoch (so_encrypted_manifest out) (so_chunks out) e (start old) 0%nat
     = Done (Ok (key <$> omap (captured root) tracked))
         {| tree := new old (omap (captured root) tracked); stage := None |} n)
  \/ chunk_collision (so_chunks out).
Proof.
  intros Hn Hcap Hloc Hc Hr.
  destruct (capture_decrypts _ _ _ _ _ _ _ _ _ _ _ _ _ _ _ _ _ Hn Hcap) as [Hd|]; [left|by right].
  pose proof (decrypted_sizes _ _ _ _ _ _ Hd) as Hs.
  destruct (publishes_clean old _ e Hloc Hs Hc Hr) as (n & E). exists n.
  unfold restore_snapshot. unfold bindM at 1. rewrite Hd. exact E.
Qed.

(** ** A sample platform *)

(** A volume that ignores case: a path leads where its normalised form says. *)
#[global] Instance sample_platform : Platform str := {|
  locate := normalized;
  display l := match l with LDest k => k | _ => STAGE end;
|}.

#[global] Instance codec_option {A : Type} `{Codec A} : Codec (option A) := {|
  enc o := match o with None => [0] | Some a => 1 :: enc a end;
  dec l := match l with
           | [] => None
           | z :: r => if z =? 0 then Some (None, r) else '(a, r') ← dec r; Some (Some a, r')
           end;
|}.
#[global] Instance codec_option_law {A : Type} `{CodecLaw A} : CodecLaw (option A) codec_option.
Proof. split. intros [a|] rest; simpl; [by rewrite dec_enc|done]. Qed.

#[global] Instance codec_restore_entry : Codec Entry := codec_iso
  (fun '(Build_Entry a b c) => (a, b, c)) (fun '(a, b, c) => Build_Entry a b c).
#[global] Instance codec_restore_entry_law : CodecLaw _ codec_restore_entry.
Proof. apply codec_iso_law. by intros []. Qed.
#[global] Instance codec_journal : Codec Journal := codec_iso
  (fun '(Build_Journal a b c d) => (a, b, c, d)) (fun '(a, b, c, d) => Build_Journal a b c d).
#[global] Instance codec_journal_law : CodecLaw _ codec_journal.
Proof. apply codec_iso_law. by intros []. Qed.

#[global] Instance sample_journal_json : JournalJson := {|
  to_vec j := Ok (enc j);
  from_slice b := match dec b with Some (j, []) => Ok j | _ => Err "invalid journal"%string end;
|}.
#[global] Instance sample_journal_json_laws : JournalJsonLaws sample_journal_json.
Proof.
  split. cbn [to_vec from_slice sample_journal_json]. intros j b <-%Ok_inj.
  rewrite <- (app_nil_r (enc j)). by rewrite dec_enc.
Qed.

(** An environment with clean probes, the given fate of the calls and random
    numbers of the given parity. *)
Definition env_with (parity : Z) (fate : nat -> Op str -> Fault) : Env str := {|
  fault := fate;
  link_probe _ _ := [];
  dest_probe _ _ := Some true;
  parent_probe _ _ := [];
  random n := 2 * Z.of_nat n + parity;
|}.
Definition env_of : (nat -> Op str -> Fault) -> Env str := env_with 0.
Definition quiet : Env str := env_with 1 (fun _ _ => Fine).

Lemma quiet_clean : clean quiet.
Proof. split; [done|]. split; [done|]. split; [done|]. intros n k. constructor. Qed.

Definition whole : Torn := {| t_written := 0; t_removed := ∅ |}.

Definition sample_old : gmap str bytes := {[ lit "a.txt" := [1; 1] ]}.
Definition sample_files : list DecryptedFile :=
  [{| df_relative_path := lit "A.txt"; df_plaintext := [2] |};
   {| df_relative_path := lit "b\c.txt"; df_plaintext := [3; 3] |}].

(** The process dies as it publishes the second file. *)
Definition dies_publishing : Env str := env_of (fun _ op =>
  match op with OReplace (NewFile 1) _ => Crashes false whole | _ => Fine end).
(** The process dies before a rollback renames its copy of a backup. *)
Definition dies_rolling_back : Env str := env_of (fun _ op =>
  match op with OReplace (RollbackFile _ _) _ => Crashes false whole | _ => Fine end).
(** The process dies while the staging directory is removed, a backup being gone. *)
Definition dies_removing : Env str := env_of (fun _ op =>
  match op with ORemoveStage => Crashes false {| t_written := 0; t_removed := {[Backup 0]} |} | _ => Fine end).
(** The flush after the commit reports an error, and the process dies as the
    running rollback has removed the new file. *)
Definition flush_fails : Env str := env_of (fun n op =>
  match op with
  | OSyncDir LStage => if (40 <? n)%nat then Fails "Input/output error" whole else Fine
  | ORemoveFile (LDest _) => Crashes true whole
  | _ => Fine
  end).

(** The temporary files of the faulty runs do not get in the way of a quiet one. *)
Definition even_temps (s : Fs str) : bool :=
  match stage s with
  | None => true
  | Some st => forallb (fun nb => match nb.1 with RollbackFile _ r => Z.even r | _ => true end) (map_to_list st)
  end.
Lemma quiet_unused s : even_temps s = true -> unused_in quiet s.
Proof.
  unfold even_temps, unused_in. destruct (stage s) as [st|]; [|done].
  rewrite forallb_forall. intros Hf i n. apply eq_None_not_Some. intros (b & Hb).
  apply elem_of_map_to_list, list_elem_of_In, Hf in Hb. simpl in Hb.
  rewrite Z.even_add, Z.even_mul in Hb. done.
Qed.

Lemma sample_sizes : Forall (fun f => blen (df_plaintext f) <= MAX_FILE_SIZE) sample_files.
Proof. repeat constructor; vm_compute; discriminate. Qed.
Lemma sample_journal_fits c text :
  to_vec (journal sample_old sample_files c) = Ok text -> blen text <= MAX_JOURNAL_SIZE.
Proof.
  cbn [to_vec sample_journal_json]. intros <-%Ok_inj. apply Z.leb_le.
  destruct c; vm_compute; reflexivity.
Qed.

Lemma restore_crash_atomic_witness :
  let s := recoveries [dies_rolling_back; dies_rolling_back] (after (publish_verified_files sample_files) dies_publishing (start sample_old)) in
  let s' := after recover_interrupted_restore quiet s in
  (stage s' = None /\ (tree s' = sample_old \/ tree s' = new sample_old sample_files))
  \/ wedged sample_old sample_files s'.
Proof.
  apply (restore_crash_atomic sample_old sample_files dies_publishing [dies_rolling_back; dies_rolling_back] quiet).
  - done.
  - apply sample_sizes.
  - apply sample_journal_fits.
  - intros l (n & msg & t & E). discriminate E.
  - repeat constructor; intros l (n & msg & t & E); discriminate E.
  - intros (n & msg & t & E). discriminate E.
  - apply quiet_clean.
  - apply quiet_unused. vm_compute. reflexivity.
Defined.

Lemma sample_old_small fs : Forall (old_small sample_old) fs.
Proof.
  apply Forall_forall. intros f _ b. unfold sample_old.
  intros (_ & <-)%lookup_singleton_Some. vm_compute. discriminate.
Qed.

Lemma sample_request_ok : request_ok sample_old sample_files.
Proof.
  split; [|split; [|split; [|split]]].
  - repeat constructor.
  - by eapply bool_decide_unpack; vm_compute.
  - by eapply bool_decide_unpack; vm_compute.
  - apply sample_old_small.
  - intros c. eexists. reflexivity.
Qed.

Lemma sample_tracked_ok : request_ok sample_old (omap (captured [lit "v"]) sample_tracked).
Proof.
  split; [|split; [|split; [|split]]].
  - repeat constructor.
  - by eapply bool_decide_unpack; vm_compute.
  - by eapply bool_decide_unpack; vm_compute.
  - apply sample_old_small.
  - intros c. eexists. reflexivity.
Qed.

Lemma restore_publishes_witness :
  exists n, publish_verified_files sample_files quiet (start sample_old) 0%nat
    = Done (Ok (key <$> sample_files)) {| tree := new sample_old sample_files; stage := None |} n.
Proof.
  apply (restore_publishes sample_old sample_files quiet).
  - done.
  - apply sample_sizes.
  - apply clean_stats, quiet_clean.
  - intros (n & msg & t & E). discriminate E.
  - apply quiet_clean.
  - apply sample_request_ok.
Defined.

(** The existence check of the journal reports an error. *)
Definition blind_env : Env str := env_of (fun _ op =>
  match op with OStat (LStaged JournalFile) => Fails "Input/output error" whole | _ => Fine end).
Definition half_published : Fs str := after (publish_verified_files sample_files) dies_publishing (start sample_old).
Lemma half_published_tree : tree half_published <> sample_old /\ tree half_published <> new sample_old sample_files /\ is_Some (stage half_published).
Proof.
  assert (tree half_published !! lit "a.txt" = Some [2]) as Ea by (vm_compute; reflexivity).
  assert (tree half_published !! lit "b/c.txt" = None) as Eb by (vm_compute; reflexivity).
  assert (sample_old !! lit "a.txt" = Some [1; 1]) as Eo by (vm_compute; reflexivity).
  assert (new sample_old sample_files !! lit "b/c.txt" = Some [3; 3]) as En by (vm_compute; reflexivity).
  assert (bool_decide (is_Some (stage half_published)) = true) as Es by (vm_compute; reflexivity).
  apply bool_decide_eq_true_1 in Es. split_and!; [| |done]; intros E; rewrite E in *; [rewrite Eo in Ea|rewrite En in Eb]; discriminate.
Qed.
Lemma blind_recovery_drops_backups_witness :
  tree half_published <> sample_old /\ tree half_published <> new sample_old sample_files /\
  exists n, recover_interrupted_restore blind_env half_published 0%nat = Done (Ok true) {| tree := tree half_published; stage := None |} n.
Proof.
  destruct half_published_tree as (Ho & Hn & st & Es). split; [exact Ho|]. split; [exact Hn|].
  apply (blind_recovery_drops_backups blind_env half_published st); [|exact Es].
  split; [|split; [intros n; exists "Input/output error"%string, whole; reflexivity|reflexivity]].
  intros n op Hop. destruct op as [| | | | | | | | | |l| | | |]; try reflexivity. destruct l as [| | |nm| |]; try reflexivity.
  destruct nm; try reflexivity. destruct (Hop eq_refl).
Defined.

(** A flush of the staging directory that reports an error after the committed journal
    was renamed into place: the running process rolls back while the journal on disk says
    committed; a crash in that rollback leaves a tree that is neither old nor new, and a
    clean recovery discards the backups. *)
Example restore_commit_flush_failure :
  let s := after (publish_verified_files sample_files) flush_fails (start sample_old) in
  let s' := after recover_interrupted_restore quiet s in
  stage s' = None /\ tree s' <> sample_old /\ tree s' <> new sample_old sample_files.
Proof.
  intros s s'. split; [vm_compute; reflexivity|].
  assert (tree s' !! lit "a.txt" = Some [2]) as Ea by (vm_compute; reflexivity).
  assert (tree s' !! lit "b/c.txt" = None) as Eb by (vm_compute; reflexivity).
  assert (sample_old !! lit "a.txt" = Some [1; 1]) as Eo by (vm_compute; reflexivity).
  assert (new sample_old sample_files !! lit "b/c.txt" = Some [3; 3]) as En by (vm_compute; reflexivity).
  clearbody s'. split; intros E; rewrite E in *; [rewrite Eo in Ea|rewrite En in Eb]; discriminate.
Qed.

(** A journal can outlive its backups.  When the process dies inside the
    removal of the staging directory after a rollback, the journal may be left
    without a backup; every later recovery then stops with an error and leaves the
    state as it is, however often it is repeated. *)
Theorem restore_wedge n :
  let s := after recover_interrupted_restore dies_removing
             (after (publish_verified_files sample_files) dies_publishing (start sample_old)) in
  recoveries (replicate n quiet) s = s /\
  exists k, recover_interrupted_restore quiet s 0%nat
    = Done (Err (InvalidInput (lit "Restore backup missing; journal retained"))) s k.
Proof.
  intros s.
  assert (exists k, recover_interrupted_restore quiet s 0%nat
    = Done (Err (InvalidInput (lit "Restore backup missing; journal retained"))) s k) as (k & E)
    by (eexists; vm_compute; reflexivity).
  clearbody s. split; [|eauto]. assert (after recover_interrupted_restore quiet s = s) as Es
    by (unfold after; by rewrite E).
  induction n as [|n IH]; [done|]. unfold recoveries in *. cbn [replicate foldl]. by rewrite Es.
Qed.

Lemma capture_restore_roundtrip_witness :
  exists out, sample_capture V2 = Ok out /\
  ((exists n, restore_snapshot (replicate 32 7) (replicate 32 6) 3 (so_encrypted_manifest out)
                (so_chunks out) quiet (start sample_old) 0%nat
      = Done (Ok (key <$> omap (captured [lit "v"]) sample_tracked))
          {| tree := new sample_old (omap (captured [lit "v"]) sample_tracked); stage := None |} n)
   \/ chunk_collision (so_chunks out)).
Proof.
  destruct (sample_run V2) as (out & _ & E & _). exists out. split; [exact E|].
  refine (capture_restore_roundtrip _ _ _ _ _ _ _ _ _ _ _ _ _ _ _ _ _ sample_old quiet _ E _ _ _).
  - reflexivity.
  - done.
  - apply quiet_clean.
  - apply sample_tracked_ok.
Defined.
